(* ===== verification/_CoqProject ===== *)
-Q . S2P
Prelude.v
OrdMap.v
Beepsilon.v
GF256.v
Erasure.v
Ecc.v
Raid.v
RaidPool.v
RaftModel.v
RaftNet.v
RaftElection.v
RaftFaults.v
RaftLog.v
Clocks.v
Cdc.v
ClusterCore.v
Crdt.v
Crypto.v
Dedup.v
BeTree.v
BeTreeSpec.v
BeTreeFlow.v
BeTreeRefine.v
BeTreeScan.v
Wal.v
Devices.v
StoreModel.v
StoreRef.v
StoreSpec.v
StoreClean.v
StoreBoot.v
StoreFaults.v
Namespace.v
NamespaceSpec.v
Engine.v
EngineInv.v
EngineSpec.v
EngineHeal.v
Extents.v
Hamt.v
RecordLog.v
Transaction.v
Journal.v
JournalSpec.v
Allocator.v
FileModel.v
FileSpec.v
FileRef.v
FileMap.v
FileData.v
FileWrite.v
FileTrunc.v
FileFaults.v
BTreeModel.v
BTreeShape.v
BTreeReads.v
BTreeWrites.v
BTreeInsert.v
BTreeCow.v
BTreeOps.v
BTreeSpec.v
MapStore.v
Refcount.v
