(* ===== verification/Prelude.v ===== *)
(** * LionFS in Rocq

    A verification library for LionFS, a copy-on-write file system
    ([src/crates/lionfs]) and its cluster layer ([src/crates/lionfs-cluster]).
    The parts of the program are translated into executable functions; the
    theorems are about these functions.

    ** The program, from the bottom up

    - Devices. [disk/block_io.rs] turns a pool of devices into an array of
      4096-byte blocks through the mapping and parity of [pool/raid.rs].
      [Raid.v] models the mapping, the parity and the rebuilds, [RaidPool.v] the
      block layer over a list of devices that can fail. [GF256.v] and
      [Erasure.v] are the field and the shard code of [pool/gf256.rs] and
      [pool/erasure.rs].
    - Transactions. A [TxContext] ([transaction/transaction.rs]) is an overlay of
      dirty blocks over pending groups over the disk ([Transaction.v]).
      [transaction/manager.rs] commits it through a circular journal that
      [recovery/recovery.rs] scans and replays; [Journal.v] models both as
      sequences of writes and syncs on a disk that loses any part of what was
      not synced, [JournalSpec.v] has the crash theorems.
    - Space. [allocator/bitmap.rs] hands out runs of blocks from a bitmap read
      and written through the transaction ([Allocator.v]).
    - Trees. [btree/tree.rs] is the copy-on-write B+ tree of all metadata:
      [BTreeModel.v] the operations over typed nodes in a node store,
      [BTreeShape.v], [BTreeReads.v], [BTreeWrites.v], [BTreeInsert.v],
      [BTreeCow.v], [BTreeOps.v] the invariants, [BTreeSpec.v] the theorems.
      [MapStore.v] is the ordered-map interface the tree discharges;
      [Refcount.v] ([integrity/refcount.rs], the pins of shared blocks) is
      proved against that interface. [OrdMap.v] has ordered association lists.
      [Beepsilon.v] is the buffered tree of [beepsilon/mod.rs], [Hamt.v] the
      persistent hash trie of [hamt/mod.rs].
    - Files. [Extents.v] has the extent arithmetic of [extents/]. [FileModel.v]
      translates the file operations ([file/writer.rs], [truncate.rs],
      [resize.rs]) over the modelled allocator and overlay; the trees they call
      by root block are the class [FileEnv]. [FileSpec.v] states what these
      trees promise ([FileEnvSpec]), [FileRef.v] is an instance with the trees
      as maps in memory. [FileMap.v] is about the block mapping, [FileData.v]
      about reads, [FileWrite.v] about writes, [FileTrunc.v] about truncation.
    - Small files are a log of records ([recordlog/mod.rs], [RecordLog.v]).
    - Replication. [raft.rs] of the cluster crate: [RaftModel.v] is the node,
      [RaftNet.v] the simulated network of its tests with message loss, delay
      and partitions, [RaftElection.v] and [RaftLog.v] the safety theorems.
    - The cluster store. [Clocks.v] has the vector and hybrid clocks of
      [core.rs], [ClusterCore.v] its hashes, extent descriptors and version
      nodes. [Crdt.v] merges heads of the version graph ([crdt.rs]). [Wal.v] is
      the write-ahead log ([wal.rs]) over a file that loses unsynced bytes.
      [Devices.v] has the device trait of [store.rs] with its laws and the two
      implementations; [StoreModel.v] translates the extent store on any such
      device, [StoreRef.v] is a concrete instance, [StoreSpec.v] is about writes
      and reads, [StoreClean.v] about the segment cleaner, [StoreBoot.v] about
      checkpoints and mounting. [Namespace.v] is the version graph with its
      paths, snapshots, time travel and diff ([dag.rs]), [NamespaceSpec.v] its
      theorems, for hash and serialisation functions without collisions on the
      values at hand. [Cdc.v] cuts data into chunks ([cdc.rs]), [Dedup.v] counts
      references to them ([dedup.rs]), [Ecc.v] is the shard code of the cluster
      ([ecc.rs]), related to that of [Erasure.v].
    - The path index of the cluster is the buffered tree of [btree.rs], an arena
      of nodes with parent pointers: [BeTree.v] translates it, [BeTreeSpec.v]
      has the invariant of the arena, [BeTreeFlow.v] is about splits and their
      repair upwards, [BeTreeRefine.v] about flushes, lookups and updates,
      [BeTreeScan.v] about scans; the last has the theorem.
    - Keys and tokens of the cluster ([crypto.rs]) are in [Crypto.v]: key
      derivation, convergent encryption of extents, macaroons.
    - The storage engine ([engine.rs]) composes all parts of the cluster store.
      [Engine.v] translates every operation over the record [ClusterEngine];
      [EngineInv.v] has its invariant ([engine_inv]: every chunk filed in the
      engine is stored, decrypts and hashes to its key, every file version lists
      such chunks) and what each operation does to it; [EngineSpec.v] has runs
      of operations against a map from paths to contents, [EngineHeal.v]
      erasure-coded stripes and their repair.

    ** How code is modelled

    Unsigned integers are [N] with the wrap-around of the release build written
    out ([wadd64] and so on below); bytes are [Byte.byte]; indices into slices
    are [nat]. A panic is [None] or an error constructor. Operations that
    change a shared context are functions from state to result and state, in
    the error-and-state monad [EM] below; where the code returns early with an
    error, the state keeps what was done before it. Loops whose bound the code
    knows carry that bound as fuel: one round of [read_loop] and [write_loop]
    per byte left, one round of the descent loops per level of the tree, one
    round of [replay] per byte. The walk that rebuilds the path index and the loop
    of the cleaner of the engine take their fuel as an argument. The theorems prove results, not absence of
    wrong ones, so fuel that ran out would falsify them. Hash functions,
    checksums, compression and ciphers of external crates are arguments; a
    theorem that needs more than that names the law it uses.

    ** What the theorems show

    - Refinement: the B+ tree, the two buffered trees and the hash trie answer as
      an ordered map after any sequence of operations; a healthy pool is an array
      of blocks under every RAID profile; pinning is pointwise counting.
    - Crash safety: a commit is atomic and durable for every point of failure
      and every loss of unsynced writes, crashes during recovery included; the
      record log replays exactly the records that reached the disk.
    - Redundancy: any [k] of [n] shards restore the data, in both codes; RAID5 and RAID6 read
      through the loss of one or two devices.
    - Isolation: no block is handed out twice; a file write changes exactly its
      bytes and no block of another file or snapshot; truncation frees exactly
      what is past the new end.
    - Agreement: at most one leader per term and log matching on every run of
      the network; merging heads is a join.
    - The cluster store keeps what it returned: extents read back, checkpoints
      are found by the next mount, logged transactions survive crashes, a
      namespace update changes one path and no earlier version; chunks after a
      cut depend on content alone, and the reference index counts.
    - The engine on top of it is a map from paths to contents over any run of
      puts, deletes, snapshots and checkpoints, whatever the log does; damaged
      chunks of a stripe read as before while enough shards are intact; tokens
      are accepted for exactly what their caveats allow.
    - Faults: runs of the code that break what its comments promise, as
      theorems about the same definitions ([RaftFaults.v], [FileFaults.v],
      [StoreFaults.v], the last theorems of [Hamt.v], [BTreeSpec.v],
      [Refcount.v], [RaidPool.v], [JournalSpec.v], [FileTrunc.v], [Clocks.v],
      [Crdt.v], [Wal.v], [Devices.v], [Dedup.v], [NamespaceSpec.v],
      [Crypto.v], [EngineHeal.v]).

    ** What is not modelled

    FUSE and POSIX glue, threads and lock-free queues, device I/O below whole
    blocks, the byte layout of B+ tree nodes, the cluster path of compressed
    files and readahead, floating-point models, and command-line tools. File
    writes are proved with compression, cipher and deduplication off and with
    no snapshot barrier live; the model covers those branches. Mounting, log
    replay, cleaning, restoring, listing and scrubbing are translated in
    [Engine.v] but are not steps of the run theorem; the comparisons of live
    fractions (floating point) and the order of hash maps are arguments there,
    and a checkpoint is assumed to fit the area reserved for it. The mount lock
    and the module list of the cluster crate are left out.

    This file: machine words, effects, and lemmas on lists and sums that the
    components share. *)
From Stdlib Require Import NArith ZArith Lia List Strings.Byte.
From stdpp Require Import base list numbers.

(** ** Machine words

    Rust's unsigned integers are [N] with their wrap-around written out; the
    release profile of the workspace leaves overflow checks off, so plain
    [+], [-] and [<<] wrap. *)
Declare Scope word_scope.
Delimit Scope word_scope with word.

Definition two64 : N := 18446744073709551616.
Definition u64_max : N := 18446744073709551615.
Definition wrap64 (x : N) : N := N.modulo x two64.
Definition wadd64 (x y : N) : N := wrap64 (x + y).
Definition wsub64 (x y : N) : N := wrap64 (x + two64 - y).
Definition wmul64 (x y : N) : N := wrap64 (x * y).
Definition wshl64 (x k : N) : N := wrap64 (N.shiftl x k).

Notation "x +w y" := (wadd64 x y) (at level 50, left associativity) : word_scope.
Notation "x -w y" := (wsub64 x y) (at level 50, left associativity) : word_scope.
Notation "x *w y" := (wmul64 x y) (at level 40, left associativity) : word_scope.

Lemma two64_pow : two64 = (2 ^ 64)%N.
Proof. reflexivity. Qed.

Lemma wrap64_lt x : (wrap64 x < two64)%N.
Proof. apply N.mod_lt. discriminate. Qed.

Lemma wrap64_small x : (x < two64)%N → wrap64 x = x.
Proof. apply N.mod_small. Qed.

Lemma wadd64_small x y : (x + y < two64)%N → wadd64 x y = (x + y)%N.
Proof. apply wrap64_small. Qed.

Lemma wsub64_small x y : (y <= x)%N → (x < two64)%N → wsub64 x y = (x - y)%N.
Proof.
  intros Hle Hlt. unfold wsub64, wrap64.
  replace (x + two64 - y)%N with (x - y + 1 * two64)%N by lia.
  rewrite N.Div0.mod_add. apply N.mod_small. lia.
Qed.

Lemma wadd64_wrap x y : wadd64 (wrap64 x) y = wrap64 (x + y).
Proof. unfold wadd64, wrap64. apply N.Div0.add_mod_idemp_l. Qed.

(** Subtracting takes back an addition, whatever wrapped. *)
Lemma wsub64_wrap x d : wsub64 (wrap64 (x + d)) (wrap64 d) = wrap64 x.
Proof.
  unfold wsub64, wrap64. rewrite (N.Div0.div_mod d two64) at 1. set (e := N.modulo d two64). set (q := N.div d two64).
  assert (e < two64)%N as He by (apply N.mod_lt; discriminate).
  replace (x + (two64 * q + e))%N with (x + e + q * two64)%N by lia. rewrite N.Div0.mod_add.
  pose proof (N.Div0.div_mod (x + e) two64) as Hd. pose proof (N.mod_lt (x + e) two64 ltac:(discriminate)) as Hr.
  set (r := N.modulo (x + e) two64) in *. set (p := N.div (x + e) two64) in *. destruct (N.le_gt_cases e r) as [Hle|Hgt].
  - replace (r + two64 - e)%N with (r - e + 1 * two64)%N by lia. rewrite N.Div0.mod_add.
    replace x with (r - e + p * two64)%N by lia. by rewrite N.Div0.mod_add.
  - replace x with (r + two64 - e + (p - 1) * two64)%N; [by rewrite N.Div0.mod_add|]. destruct (N.eq_dec p 0%N) as [E|E]; [rewrite E in *; lia|].
    rewrite N.mul_sub_distr_r. assert (1 * two64 <= p * two64)%N by (apply N.mul_le_mono_r; lia). lia.
Qed.

Lemma lxor_lt_pow2 k x y : (x < 2 ^ k)%N → (y < 2 ^ k)%N → (N.lxor x y < 2 ^ k)%N.
Proof.
  intros Hx Hy. destruct (N.eq_dec (N.lxor x y) 0%N) as [->|Hnz]; [apply N.neq_0_lt_0, N.pow_nonzero; done|].
  apply N.log2_lt_pow2; [lia|]. pose proof (N.log2_lxor x y).
  assert (∀ a, (a < 2 ^ k)%N → (N.log2 a < k)%N ∨ a = 0%N) as Hlog.
  { intros a Ha. destruct (N.eq_dec a 0%N); [by right|]. left. apply N.log2_lt_pow2; lia. }
  destruct (Hlog x Hx) as [Hl| ->], (Hlog y Hy) as [Hl2| ->]; rewrite ?N.lxor_0_l, ?N.lxor_0_r in *; try lia.
Qed.

(** The same for [u32]. *)
Definition two32 : N := 4294967296.
Definition wrap32 (x : N) : N := N.modulo x two32.
Definition wadd32 (a b : N) : N := wrap32 (a + b).
Definition wsub32 (a b : N) : N := wrap32 (a + two32 - b).

Lemma wrap32_small x : (x < two32)%N → wrap32 x = x.
Proof. apply N.mod_small. Qed.

Lemma wrap32_lt x : (wrap32 x < two32)%N.
Proof. by apply N.mod_lt. Qed.

Lemma wadd32_small x y : (x + y < two32)%N → wadd32 x y = (x + y)%N.
Proof. apply wrap32_small. Qed.

Lemma wsub32_small x y : (y <= x)%N → (x < two32)%N → wsub32 x y = (x - y)%N.
Proof.
  intros Hle Hlt. unfold wsub32, wrap32.
  replace (x + two32 - y)%N with (x - y + 1 * two32)%N by lia.
  rewrite N.Div0.mod_add. apply N.mod_small. lia.
Qed.

Create HintDb word discriminated.
#[export] Hint Resolve wrap64_lt wrap64_small wadd64_small wsub64_small : word.

(** ** Bytes

    [u8] is the 256-constructor [byte] of the Standard Library. *)
Definition byte_of_N (x : N) : byte := default x00 (Byte.of_N (x mod 256)).
Definition bxor (a b : byte) : byte := byte_of_N (N.lxor (Byte.to_N a) (Byte.to_N b)).
(** A [u8] used as an array index ([x as usize]). *)
Definition b2n (b : byte) : nat := N.to_nat (Byte.to_N b).

Lemma to_N_lt (b : byte) : (Byte.to_N b < 256)%N.
Proof. pose proof (Byte.to_N_bounded b). lia. Qed.

Lemma b2n_lt (b : byte) : b2n b < 256.
Proof. unfold b2n. pose proof (to_N_lt b). lia. Qed.

Lemma byte_of_to_N b : byte_of_N (Byte.to_N b) = b.
Proof.
  unfold byte_of_N. rewrite N.mod_small by apply to_N_lt.
  by rewrite Byte.of_to_N.
Qed.

Lemma to_N_of_N x : Byte.to_N (byte_of_N x) = (x mod 256)%N.
Proof.
  unfold byte_of_N. destruct (Byte.of_N (x mod 256)) as [b|] eqn:E; simpl.
  - by apply Byte.to_of_N in E.
  - apply Byte.of_N_None_iff in E.
    pose proof (N.mod_lt x 256 ltac:(discriminate)). lia.
Qed.

#[export] Instance to_N_inj : Inj (=) (=) Byte.to_N.
Proof. intros a b H. by rewrite <- (byte_of_to_N a), H, byte_of_to_N. Qed.

#[export] Instance b2n_inj : Inj (=) (=) b2n.
Proof. intros a b H. apply to_N_inj. unfold b2n in H. lia. Qed.

#[export] Instance byte_eq_dec : EqDecision byte := Byte.byte_eq_dec.

Lemma lxor_lt_256 x y : (x < 256 → y < 256 → N.lxor x y < 256)%N.
Proof.
  intros Hx Hy. destruct (decide (N.lxor x y = 0%N)) as [->|Hne]; [done|].
  change 256%N with (2 ^ 8)%N in *. apply N.log2_lt_pow2; [lia|].
  eapply N.le_lt_trans; [apply N.log2_lxor|].
  destruct (decide (x = 0%N)) as [->|]; destruct (decide (y = 0%N)) as [->|];
    rewrite ?N.max_0_l, ?N.max_0_r; try (apply N.log2_lt_pow2; lia); [done|].
  apply N.max_lub_lt; apply N.log2_lt_pow2; lia.
Qed.

Lemma to_N_bxor a b : Byte.to_N (bxor a b) = N.lxor (Byte.to_N a) (Byte.to_N b).
Proof.
  unfold bxor. rewrite to_N_of_N. apply N.mod_small.
  apply lxor_lt_256; apply to_N_lt.
Qed.

Ltac bxor_solve :=
  intros; apply to_N_inj; rewrite ?to_N_bxor.

Lemma bxor_comm a b : bxor a b = bxor b a.
Proof. bxor_solve. apply N.lxor_comm. Qed.
Lemma bxor_assoc a b c : bxor a (bxor b c) = bxor (bxor a b) c.
Proof. bxor_solve. symmetry. apply N.lxor_assoc. Qed.
Lemma bxor_0_l a : bxor x00 a = a.
Proof. bxor_solve. apply N.lxor_0_l. Qed.
Lemma bxor_0_r a : bxor a x00 = a.
Proof. bxor_solve. apply N.lxor_0_r. Qed.
Lemma bxor_nilpotent a : bxor a a = x00.
Proof. bxor_solve. apply N.lxor_nilpotent. Qed.

(** Exhaustive checks over [u8]. *)
Definition all_bytes : list byte := map (λ i, byte_of_N (N.of_nat i)) (List.seq 0 256).

Lemma all_bytes_complete b : In b all_bytes.
Proof.
  unfold all_bytes. apply in_map_iff. exists (b2n b). split.
  - unfold b2n. rewrite N2Nat.id. apply byte_of_to_N.
  - apply in_seq. pose proof (b2n_lt b). lia.
Qed.

Lemma forall_bytes (P : byte → bool) :
  forallb P all_bytes = true → ∀ b, P b = true.
Proof. rewrite forallb_forall. intros H b. apply H, all_bytes_complete. Qed.

Lemma forall_nat_lt (P : nat → bool) (n : nat) :
  forallb P (List.seq 0 n) = true → ∀ i, i < n → P i = true.
Proof. rewrite forallb_forall. intros H i Hi. apply H, in_seq. lia. Qed.

(** ** Little-endian words ([to_le_bytes], [from_le_bytes]) *)
Fixpoint le_bytes (n : nat) (x : N) : list byte :=
  match n with O => [] | S n => byte_of_N x :: le_bytes n (N.shiftr x 8) end.

Fixpoint of_le (l : list byte) : N :=
  match l with [] => 0 | b :: l => Byte.to_N b + 256 * of_le l end%N.

(** Big-endian words ([to_be_bytes], [from_be_bytes]). *)
Definition be_bytes (n : nat) (x : N) : list byte := rev (le_bytes n x).
Definition of_be (l : list byte) : N := of_le (rev l).

Lemma length_le_bytes n x : length (le_bytes n x) = n.
Proof. revert x. induction n as [|n IH]; intros x; cbn; [done|]. by rewrite IH. Qed.

Lemma of_le_le_bytes n x : of_le (le_bytes n x) = (x mod 256 ^ N.of_nat n)%N.
Proof.
  revert x. induction n as [|n IH]; intros x; [by rewrite N.mod_1_r|].
  cbn [le_bytes of_le]. rewrite IH, to_N_of_N, Nat2N.inj_succ, N.pow_succ_r', N.Div0.mod_mul_r.
  by rewrite N.shiftr_div_pow2.
Qed.

(** ** Lists *)
Lemma filter_all_id {A} (P : A → Prop) `{!∀ x, Decision (P x)} (l : list A) : (∀ x, x ∈ l → P x) → base.filter P l = l.
Proof.
  induction l as [|x l IH]; intros Hall; [done|]. rewrite filter_cons_True by (apply Hall; by left). f_equal. apply IH.
  intros y Hy. apply Hall. by right.
Qed.

Lemma find_app {A} (f : A → bool) l l' :
  List.find f (l ++ l') = match List.find f l with Some x => Some x | None => List.find f l' end.
Proof. induction l as [|x l IH]; cbn; [done|]. by destruct (f x). Qed.

Lemma nth_map_seq {A} (f : nat → A) n i d : i < n → nth i (map f (List.seq 0 n)) d = f i.
Proof.
  intros Hi. rewrite (nth_indep _ d (f 0)) by (rewrite length_map, length_seq; lia).
  by rewrite map_nth, seq_nth.
Qed.

Lemma bind_some {A B} (f : A → option B) x : Some x ≫= f = f x.
Proof. done. Qed.

(** ** Effects

    Fallible code that threads a state: the error or the result, and the state
    in either case. *)
Definition EM (E S A : Type) : Type := S → (E + A) * S.
#[export] Instance EM_ret {E S} : MRet (EM E S) := λ A x s, (inr x, s).
#[export] Instance EM_bind {E S} : MBind (EM E S) := λ A B f m s,
  match m s with (inr x, s') => f x s' | (inl e, s') => (inl e, s') end.

Section effects.
Context {E S : Type}.

Definition fail_with {A} (e : E) : EM E S A := λ s, (inl e, s).

Fixpoint for_each {A} (f : A → EM E S unit) (l : list A) : EM E S unit :=
  match l with [] => mret () | x :: l => f x ;; for_each f l end.

Lemma em_bind_ok {A B} (m : EM E S A) (f : A → EM E S B) s x s' : m s = (inr x, s') → (m ≫= f) s = f x s'.
Proof. intros H. unfold mbind, EM_bind. by rewrite H. Qed.

(** Success with [Q], or one of the errors [err]. *)
Definition ends (err : E → Prop) {A} (m : EM E S A) (s : S) (Q : A → S → Prop) : Prop :=
  match m s with (inr x, s') => Q x s' | (inl e, _) => err e end.

Lemma ends_bind err {A B} (m : EM E S A) (f : A → EM E S B) s Q :
  ends err m s (λ x s', ends err (f x) s' Q) → ends err (m ≫= f) s Q.
Proof. unfold ends, mbind, EM_bind. by destruct (m s) as [[e|x] s']. Qed.

Lemma ends_mono err {A} (m : EM E S A) s (Q Q' : A → S → Prop) :
  ends err m s Q → (∀ x s', Q x s' → Q' x s') → ends err m s Q'.
Proof. unfold ends. destruct (m s) as [[e|x] s']; auto. Qed.
End effects.
