(* ===== verification/OrdMap.v ===== *)
(** * Rust's [BTreeMap] as a sorted association list

    The ordered-map operations the file system uses ([get], [insert],
    [remove], [range], iteration in key order), over any key type with a
    total order ([K: Ord]). Sorted lists with the same lookups are equal, so
    clients argue about lookups only. *)
From S2P Require Import Prelude.
From Stdlib Require Import NArith ZArith Lia Sorting.Sorted.
From stdpp Require Import base numbers option list.
#[local] Open Scope nat_scope.

(** [K: Ord] *)
Class OrdKey (K : Type) := {
  kcmp : K → K → comparison;
  kcmp_eq a b : kcmp a b = Eq ↔ a = b;
  kcmp_opp a b : kcmp a b = CompOpp (kcmp b a);
  kcmp_trans a b c : kcmp a b = Lt → kcmp b c = Lt → kcmp a c = Lt
}.

#[export] Instance N_OrdKey : OrdKey N.
Proof.
  refine {| kcmp := N.compare |}.
  - apply N.compare_eq_iff.
  - intros a b. apply N.compare_antisym.
  - intros a b c. apply N.lt_trans.
Defined.

Section omap.
Context {K V : Type} `{!OrdKey K}.
Implicit Types (l : list (K * V)) (k : K).

Definition kltb (a b : K) : bool := match kcmp a b with Lt => true | _ => false end.
Definition kleb (a b : K) : bool := match kcmp a b with Gt => false | _ => true end.
Definition klt (a b : K) : Prop := kcmp a b = Lt.

Fixpoint om_get (k : K) (l : list (K * V)) : option V :=
  match l with
  | [] => None
  | (k', v) :: l => match kcmp k k' with Eq => Some v | Lt => None | Gt => om_get k l end
  end.

Fixpoint om_insert (k : K) (v : V) (l : list (K * V)) : list (K * V) :=
  match l with
  | [] => [(k, v)]
  | (k', v') :: l' =>
      match kcmp k k' with Lt => (k, v) :: l | Eq => (k, v) :: l' | Gt => (k', v') :: om_insert k v l' end
  end.

Fixpoint om_remove (k : K) (l : list (K * V)) : list (K * V) :=
  match l with
  | [] => []
  | (k', v') :: l' => match kcmp k k' with Lt => l | Eq => l' | Gt => (k', v') :: om_remove k l' end
  end.

(** [range(lo..hi)]; [None]: the panic on a start after the end. *)
Definition om_range (lo hi : K) (l : list (K * V)) : option (list (K * V)) :=
  if kltb hi lo then None
  else Some (base.filter (λ p, (kleb lo p.1 && kltb p.1 hi)%bool = true) l).

(** Keys strictly increase. *)
Definition om_ok (l : list (K * V)) : Prop := StronglySorted (λ p q, klt p.1 q.1) l.

Lemma klt_irrefl k : ¬ klt k k.
Proof. intros H. unfold klt in H. by rewrite (proj2 (kcmp_eq k k) eq_refl) in H. Qed.

Lemma klt_trans a b c : klt a b → klt b c → klt a c.
Proof. apply kcmp_trans. Qed.

Lemma kcmp_gt a b : kcmp a b = Gt ↔ klt b a.
Proof. unfold klt. rewrite (kcmp_opp b a). by destruct (kcmp a b). Qed.

Lemma kcmp_refl k : kcmp k k = Eq.
Proof. by apply kcmp_eq. Qed.

Lemma kltb_true a b : kltb a b = true ↔ klt a b.
Proof. unfold kltb, klt. by destruct (kcmp a b). Qed.

Lemma kleb_true a b : kleb a b = true ↔ klt a b ∨ a = b.
Proof.
  unfold kleb, klt. rewrite <- (kcmp_eq a b). destruct (kcmp a b); split; intros H; auto; try done; by destruct H.
Qed.

Lemma kleb_false a b : kleb a b = false ↔ klt b a.
Proof. rewrite <- kcmp_gt. unfold kleb. by destruct (kcmp a b). Qed.

Lemma om_ok_cons k v l : om_ok ((k, v) :: l) ↔ Forall (λ p, klt k p.1) l ∧ om_ok l.
Proof. unfold om_ok. split; [by inversion 1|]. intros [? ?]. by constructor. Qed.

Lemma om_get_above k l : Forall (λ p, klt k p.1) l → om_get k l = None.
Proof. destruct 1 as [|[k' v'] l Hk _]; [done|]. cbn in *. unfold klt in Hk. by rewrite Hk. Qed.

(** Lookup in a map given by its first entry. *)
Lemma om_get_cons k k' v' l :
  om_ok ((k', v') :: l) → om_get k ((k', v') :: l) = match kcmp k k' with Eq => Some v' | _ => om_get k l end.
Proof.
  intros [Hk _]%om_ok_cons. cbn. destruct (kcmp k k') eqn:E; try done.
  symmetry. apply om_get_above. eapply Forall_impl; [exact Hk|]. intros p. by apply klt_trans.
Qed.

Lemma om_insert_Forall (P : K → Prop) k v l :
  P k → Forall (λ p, P p.1) l → Forall (λ p, P p.1) (om_insert k v l).
Proof.
  intros HP. induction 1 as [|[k' v'] l Hk Hl IH]; cbn; [by constructor|].
  destruct (kcmp k k'); repeat constructor; auto.
Qed.

Lemma om_insert_ok k v l : om_ok l → om_ok (om_insert k v l).
Proof.
  induction l as [|[k' v'] l IH]; intros Hl; [by repeat constructor|]. cbn.
  pose proof Hl as [Hk Hl']%om_ok_cons. destruct (kcmp k k') eqn:E.
  - apply kcmp_eq in E as ->. by apply om_ok_cons.
  - apply om_ok_cons. split; [|done]. constructor; [done|]. eapply Forall_impl; [exact Hk|]. intros p. by apply klt_trans.
  - apply om_ok_cons. split; [|by apply IH]. apply om_insert_Forall; [by apply kcmp_gt|done].
Qed.

Lemma om_get_insert k k' v l :
  om_ok l → om_get k (om_insert k' v l) = match kcmp k k' with Eq => Some v | _ => om_get k l end.
Proof.
  intros Hl. induction l as [|[k0 v0] l IH]; [cbn; by destruct (kcmp k k')|].
  pose proof Hl as [Hk Hl']%om_ok_cons. pose proof (om_insert_ok k' v _ Hl) as Hins. cbn [om_insert] in *.
  destruct (kcmp k' k0) eqn:E.
  - apply kcmp_eq in E as ->. rewrite !om_get_cons by done. by destruct (kcmp k k0).
  - rewrite om_get_cons by done. by destruct (kcmp k k').
  - rewrite !om_get_cons, IH by done. destruct (kcmp k k0) eqn:E0; try done.
    apply kcmp_eq in E0 as ->. destruct (kcmp k0 k') eqn:E1; try done.
    apply kcmp_eq in E1 as ->. by rewrite kcmp_refl in E.
Qed.

Lemma om_remove_Forall (P : K * V → Prop) k l : Forall P l → Forall P (om_remove k l).
Proof.
  induction 1 as [|[k' v'] l Hk Hl IH]; cbn; [done|]. destruct (kcmp k k'); auto.
Qed.

Lemma om_remove_ok k l : om_ok l → om_ok (om_remove k l).
Proof.
  induction l as [|[k' v'] l IH]; intros Hl; [done|]. cbn. pose proof Hl as [Hk Hl']%om_ok_cons.
  destruct (kcmp k k'); [done|done|]. apply om_ok_cons. split; [by apply om_remove_Forall|by apply IH].
Qed.

Lemma om_get_remove k k' l :
  om_ok l → om_get k (om_remove k' l) = match kcmp k k' with Eq => None | _ => om_get k l end.
Proof.
  intros Hl. induction l as [|[k0 v0] l IH]; [cbn; by destruct (kcmp k k')|].
  pose proof Hl as [Hk Hl']%om_ok_cons. pose proof (om_remove_ok k' _ Hl) as Hrem. cbn [om_remove] in *.
  destruct (kcmp k' k0) eqn:E.
  - apply kcmp_eq in E as ->. rewrite om_get_cons by done. destruct (kcmp k k0) eqn:E0; try done.
    apply kcmp_eq in E0 as ->. by apply om_get_above.
  - destruct (kcmp k k') eqn:E0; try done. apply kcmp_eq in E0 as ->. cbn. by rewrite E.
  - rewrite !om_get_cons, IH by done. destruct (kcmp k k0) eqn:E0; try done.
    apply kcmp_eq in E0 as ->. destruct (kcmp k0 k') eqn:E1; try done.
    apply kcmp_eq in E1 as ->. by rewrite kcmp_refl in E.
Qed.

(** Sorted lists are determined by their lookups. *)
Lemma om_ext l l' : om_ok l → om_ok l' → (∀ k, om_get k l = om_get k l') → l = l'.
Proof.
  revert l'. induction l as [|[k v] l IH]; intros [|[k' v'] l'] Hl Hl' Hget; [done| | |].
  - specialize (Hget k'). cbn in Hget. by rewrite kcmp_refl in Hget.
  - specialize (Hget k). cbn in Hget. by rewrite kcmp_refl in Hget.
  - pose proof Hl as [Hk Hlt]%om_ok_cons. pose proof Hl' as [Hk' Hlt']%om_ok_cons.
    assert (k = k' ∧ v = v') as [-> ->].
    { pose proof (Hget k) as H1. pose proof (Hget k') as H2. cbn in H1, H2. rewrite kcmp_refl in H1, H2.
      destruct (kcmp k k') eqn:E; [apply kcmp_eq in E as ->; rewrite kcmp_refl in H2; split; congruence|done|].
      rewrite (kcmp_opp k' k), E in H2. done. }
    f_equal. apply IH; [done|done|]. intros k. specialize (Hget k). rewrite !om_get_cons in Hget by done.
    destruct (kcmp k k') eqn:E; [|done|done]. apply kcmp_eq in E as ->.
    by rewrite !om_get_above.
Qed.

Lemma om_get_elem k v l : om_ok l → om_get k l = Some v ↔ (k, v) ∈ l.
Proof.
  induction l as [|[k' v'] l IH]; intros Hl; [cbn; split; [done|by intros ?%not_elem_of_nil]|].
  pose proof Hl as [Hk Hl']%om_ok_cons. rewrite om_get_cons, elem_of_cons by done. destruct (kcmp k k') eqn:E.
  - apply kcmp_eq in E as ->. split; [intros [= ->]; by left|]. intros [[= ->]|Hin]; [done|].
    rewrite Forall_forall in Hk. by destruct (klt_irrefl k' (Hk _ Hin)).
  - rewrite IH by done. split; [by right|]. intros [[= -> _]|?]; [|done]. by rewrite kcmp_refl in E.
  - rewrite IH by done. split; [by right|]. intros [[= -> _]|?]; [|done]. by rewrite kcmp_refl in E.
Qed.

Lemma om_ok_app l l' :
  om_ok (l ++ l') ↔ om_ok l ∧ om_ok l' ∧ ∀ p q, p ∈ l → q ∈ l' → klt p.1 q.1.
Proof.
  induction l as [|[k v] l IH]; cbn [app].
  - split; [|tauto]. intros H. split; [constructor|]. split; [done|]. by intros p q ?%not_elem_of_nil.
  - rewrite !om_ok_cons, IH, Forall_app, !Forall_forall. setoid_rewrite elem_of_cons. split.
    + intros [[H1 H2] (H3 & H4 & H5)]. split_and!; auto. intros p q [->|Hp] Hq; auto.
    + intros ((H1 & H2) & H3 & H4). split_and!; eauto. intros q Hq. exact (H4 (k, v) q (or_introl eq_refl) Hq).
Qed.

Lemma om_filter_ok (P : K * V → Prop) `{!∀ p, Decision (P p)} l : om_ok l → om_ok (base.filter P l).
Proof.
  induction l as [|[k v] l IH]; intros Hl; [done|]. apply om_ok_cons in Hl as [Hk Hl]. rewrite filter_cons.
  case_decide; [|by apply IH]. apply om_ok_cons. split; [|by apply IH].
  rewrite Forall_forall in Hk |- *. intros p [_ Hp]%list_elem_of_filter. by apply Hk.
Qed.
(** Operations at a key the parts of a concatenation are on one side of. *)
Lemma kle_lt_trans a b c : kleb a b = true → klt b c → klt a c.
Proof. intros [H| ->]%kleb_true H'; [by eapply klt_trans|done]. Qed.

Lemma klt_le_trans a b c : klt a b → kleb b c = true → klt a c.
Proof. intros H [H'| ->]%kleb_true; [by eapply klt_trans|done]. Qed.

Lemma klt_kleb a b : klt a b → kleb a b = true.
Proof. intros. apply kleb_true. by left. Qed.

Lemma om_insert_app_r k v (l l' : list (K * V)) :
  Forall (λ p, klt p.1 k) l → om_insert k v (l ++ l') = l ++ om_insert k v l'.
Proof.
  induction 1 as [|[k' v'] l Hk _ IH]; [done|]. cbn in *. by rewrite (proj2 (kcmp_gt k k') Hk), IH.
Qed.

Lemma om_insert_app_l k v (l l' : list (K * V)) :
  Forall (λ p, klt k p.1) l' → om_insert k v (l ++ l') = om_insert k v l ++ l'.
Proof.
  intros Hl'. induction l as [|[k' v'] l IH]; cbn.
  - destruct Hl' as [|[k' v'] l' Hk _]; [done|]. cbn in *. unfold klt in Hk. by rewrite Hk.
  - destruct (kcmp k k'); cbn; by rewrite ?IH.
Qed.

Lemma om_get_app_r k (l l' : list (K * V)) :
  Forall (λ p, klt p.1 k) l → om_get k (l ++ l') = om_get k l'.
Proof.
  induction 1 as [|[k' v'] l Hk _ IH]; [done|]. cbn in *. by rewrite (proj2 (kcmp_gt k k') Hk).
Qed.

Lemma om_get_app_l k (l l' : list (K * V)) :
  Forall (λ p, klt k p.1) l' → om_get k (l ++ l') = om_get k l.
Proof.
  intros Hl'. induction l as [|[k' v'] l IH]; cbn; [by apply om_get_above|]. by rewrite IH.
Qed.

Lemma om_remove_app_r k (l l' : list (K * V)) :
  Forall (λ p, klt p.1 k) l → om_remove k (l ++ l') = l ++ om_remove k l'.
Proof.
  induction 1 as [|[k' v'] l Hk _ IH]; [done|]. cbn in *. by rewrite (proj2 (kcmp_gt k k') Hk), IH.
Qed.

Lemma om_remove_app_l k (l l' : list (K * V)) :
  Forall (λ p, klt k p.1) l' → om_remove k (l ++ l') = om_remove k l ++ l'.
Proof.
  intros Hl'. induction l as [|[k' v'] l IH]; cbn.
  - destruct Hl' as [|[k' v'] l' Hk _]; [done|]. cbn in *. unfold klt in Hk. by rewrite Hk.
  - destruct (kcmp k k'); cbn; by rewrite ?IH.
Qed.

(** Membership. *)
Lemma om_insert_elem k v l p :
  om_ok l → (∀ v', (k, v') ∈ l → v' = v) → p ∈ om_insert k v l ↔ p = (k, v) ∨ p ∈ l.
Proof.
  intros Hl Huniq. destruct p as [k' v']. rewrite <- om_get_elem, om_get_insert by (by try apply om_insert_ok).
  destruct (kcmp k' k) eqn:E.
  - apply kcmp_eq in E as ->. split; [intros [= ->]; by left|]. intros [[= ->]|Hin]; [done|]. by rewrite (Huniq v' Hin).
  - rewrite om_get_elem by done. split; [by right|]. intros [[= -> ->]|?]; [|done]. by rewrite kcmp_refl in E.
  - rewrite om_get_elem by done. split; [by right|]. intros [[= -> ->]|?]; [|done]. by rewrite kcmp_refl in E.
Qed.

Lemma om_remove_elem k l p : om_ok l → p ∈ om_remove k l ↔ p ∈ l ∧ p.1 ≠ k.
Proof.
  intros Hl. destruct p as [k' v']. rewrite <- om_get_elem, om_get_remove by (by try apply om_remove_ok). cbn.
  destruct (kcmp k' k) eqn:E.
  - apply kcmp_eq in E as ->. split; [done|]. by intros [_ []].
  - rewrite om_get_elem by done. split; [|tauto]. intros H. split; [done|]. intros ->. by rewrite kcmp_refl in E.
  - rewrite om_get_elem by done. split; [|tauto]. intros H. split; [done|]. intros ->. by rewrite kcmp_refl in E.
Qed.

(** A batch of removals, and a batch of insertions of consistent bindings. *)
Lemma om_remove_all_elem ks l p :
  om_ok l → om_ok (foldl (λ m k, om_remove k m) l ks) ∧
  (p ∈ foldl (λ m k, om_remove k m) l ks ↔ p ∈ l ∧ p.1 ∉ ks).
Proof.
  revert l. induction ks as [|k ks IH]; intros l Hl; cbn [foldl].
  - split; [done|]. split; [|tauto]. intros H. split; [done|]. apply not_elem_of_nil.
  - destruct (IH (om_remove k l)) as [H1 H2]; [by apply om_remove_ok|]. split; [done|].
    rewrite H2, om_remove_elem, not_elem_of_cons by done. tauto.
Qed.

Lemma om_insert_all_elem kvs l :
  om_ok l → (∀ p q, p ∈ kvs ++ l → q ∈ kvs ++ l → p.1 = q.1 → p = q) →
  om_ok (foldl (λ m kv, om_insert kv.1 kv.2 m) l kvs) ∧
  ∀ p, p ∈ foldl (λ m kv, om_insert kv.1 kv.2 m) l kvs ↔ p ∈ kvs ++ l.
Proof.
  revert l. induction kvs as [|[k v] kvs IH]; intros l Hl Hu; cbn [foldl fst snd app]; [done|].
  assert (∀ p, p ∈ om_insert k v l ↔ p = (k, v) ∨ p ∈ l) as Hins.
  { intros p. apply om_insert_elem; [done|]. intros v' Hv'.
    assert ((k, v') = (k, v)) as [= ->]; [|done]. apply Hu; [|by left|done]. right. apply elem_of_app. by right. }
  destruct (IH (om_insert k v l)) as [H1 H2]; [by apply om_insert_ok| |].
  - intros p q Hp Hq. rewrite elem_of_app, Hins in Hp, Hq. apply Hu; cbn; rewrite elem_of_cons, elem_of_app; tauto.
  - split; [done|]. intros p. rewrite H2, elem_of_cons, !elem_of_app, Hins. tauto.
Qed.
(** The greatest binding at or below a key. *)
Fixpoint om_floor (key : K) (l : list (K * V)) : option (K * V) :=
  match l with
  | [] => None
  | (k, v) :: l =>
      if kleb k key then match om_floor key l with Some p => Some p | None => Some (k, v) end else None
  end.

Lemma om_floor_app key (l l' : list (K * V)) :
  om_floor key l' ≠ None → Forall (λ p, klt p.1 key) l → om_floor key (l ++ l') = om_floor key l'.
Proof.
  intros Hne. induction 1 as [|[k v] l Hk _ IH]; [done|]. cbn in *. rewrite (klt_kleb _ _ Hk), IH.
  by destruct (om_floor key l').
Qed.

Lemma om_floor_app_l key (l l' : list (K * V)) :
  Forall (λ p, klt key p.1) l' → om_floor key (l ++ l') = om_floor key l.
Proof.
  intros Hl'. induction l as [|[k v] l IH]; cbn [app om_floor].
  - destruct Hl' as [|[k v] l' Hk _]; [done|]. cbn in *. by rewrite (proj2 (kleb_false k key) Hk).
  - by rewrite IH.
Qed.

Lemma om_floor_None key (l0 : list (K * V)) : om_floor key l0 = None → om_get key l0 = None.
Proof.
  induction l0 as [|[k v] l0 IH]; [done|]. cbn. destruct (kcmp key k) eqn:Ek; [|done|].
  - apply kcmp_eq in Ek as ->. rewrite (proj2 (kleb_true k k)) by (by right). by destruct (om_floor k l0).
  - apply kcmp_gt, klt_kleb in Ek. rewrite Ek. by destruct (om_floor key l0).
Qed.

(** The floor is in the map, at or below the key, and nothing lies between. *)
Lemma om_floor_spec key (l0 : list (K * V)) k v :
  om_ok l0 → om_floor key l0 = Some (k, v) →
  (k, v) ∈ l0 ∧ kleb k key = true ∧ ∀ p, p ∈ l0 → kleb p.1 key = true → kleb p.1 k = true.
Proof.
  induction l0 as [|[k0 v0] l0 IH]; intros Hok; [done|]. cbn [om_floor].
  pose proof Hok as [Hk Hok']%om_ok_cons. destruct (kleb k0 key) eqn:E; [|done].
  destruct (om_floor key l0) as [[k1 v1]|] eqn:Ef.
  - intros [= -> ->]. destruct (IH Hok' eq_refl) as (Hin & Hle & Hmax). split_and!; [by right|done|].
    intros p [->|Hp]%elem_of_cons; [|by apply Hmax]. intros _. rewrite Forall_forall in Hk. apply klt_kleb.
    by apply (Hk (k, v)).
  - intros [= -> ->]. split_and!; [by left|done|]. intros p [->|Hp]%elem_of_cons Hle; [apply kleb_true; by right|].
    exfalso. clear IH Hok. induction l0 as [|[k1 v1] l0 IH]; [by apply not_elem_of_nil in Hp|].
    cbn in Ef. destruct (kleb k1 key) eqn:E1; [by destruct (om_floor key l0)|].
    apply om_ok_cons in Hok' as [Hk1 Hok']. apply kleb_false in E1. apply (klt_irrefl key).
    eapply klt_le_trans; [exact E1|]. apply elem_of_cons in Hp as [->|Hp]; [done|].
    rewrite Forall_forall in Hk1. eapply kleb_true. left. eapply klt_le_trans; [by apply (Hk1 p)|done].
Qed.

(** No binding at or below the key. *)
Lemma om_floor_none_above key l p : om_ok l → om_floor key l = None → p ∈ l → kleb p.1 key = false.
Proof.
  destruct l as [|[k v] l]; intros Hok H Hp; [by apply not_elem_of_nil in Hp|]. cbn [om_floor] in H.
  destruct (kleb k key) eqn:E; [by destruct (om_floor key l)|]. apply om_ok_cons in Hok as [Hk _].
  apply elem_of_cons in Hp as [->|Hp]; [done|]. rewrite Forall_forall in Hk. apply kleb_false. apply kleb_false in E.
  eapply klt_trans; [exact E|by apply Hk].
Qed.

(** As multisets. *)
Lemma om_insert_perm k v l : om_insert k v l ≡ₚ (k, v) :: om_remove k l.
Proof.
  induction l as [|[k' v'] l IH]; cbn; [done|]. destruct (kcmp k k') eqn:E; [done|done|]. rewrite IH. constructor.
Qed.

Lemma om_remove_perm k v l : om_ok l → (k, v) ∈ l → l ≡ₚ (k, v) :: om_remove k l.
Proof.
  induction l as [|[k' v'] l IH]; intros Hok Hin; [by apply not_elem_of_nil in Hin|]. cbn.
  pose proof Hok as [Hk Hok']%om_ok_cons. apply elem_of_cons in Hin as [[= -> ->]|Hin].
  - by rewrite kcmp_refl.
  - rewrite Forall_forall in Hk. pose proof (Hk _ Hin) as Hlt. cbn in Hlt. apply kcmp_gt in Hlt. rewrite Hlt.
    rewrite (IH Hok' Hin) at 1. constructor.
Qed.

Lemma om_remove_absent k l : om_ok l → (∀ v, (k, v) ∉ l) → om_remove k l = l.
Proof.
  induction l as [|[k' v'] l IH]; intros Hok Hn; [done|]. cbn. destruct (kcmp k k') eqn:E; [|done|].
  - apply kcmp_eq in E as ->. destruct (Hn v'). by left.
  - apply om_ok_cons in Hok as [_ Hok]. rewrite IH; [done|done|]. intros v Hv. destruct (Hn v). by right.
Qed.
End omap.
#[global] Arguments om_ok {K V OrdKey0} l.
