(* ===== verification/Beepsilon.v ===== *)
(** * The B-epsilon tree of [lionfs/src/beepsilon/mod.rs]

    Buffered leaves under a separator index. The tree refines an ordered map:
    [entries] is the abstraction function, and [get], [insert] (with its root
    split and leaf flushes) and [range] act on it as the map operations do.
    [adaptive_tune] (floating point) only changes [flush_bytes], which every
    theorem leaves arbitrary, also from one insertion to the next. *)
From S2P Require Import Prelude OrdMap.
From Stdlib Require Import NArith ZArith Lia.
From stdpp Require Import base numbers option list.
#[local] Open Scope nat_scope.

Record TreeStats := mkTreeStats {
  inserts : N; leaf_flushes : N; node_splits : N; coalesced_entries : N
}.

Definition stats_default : TreeStats := mkTreeStats 0 0 0 0.
Definition bump_inserts (s : TreeStats) : TreeStats :=
  mkTreeStats (wadd64 s.(inserts) 1) s.(leaf_flushes) s.(node_splits) s.(coalesced_entries).
Definition bump_flushes (s : TreeStats) : TreeStats :=
  mkTreeStats s.(inserts) (wadd64 s.(leaf_flushes) 1) s.(node_splits) s.(coalesced_entries).
Definition bump_splits (s : TreeStats) : TreeStats :=
  mkTreeStats s.(inserts) s.(leaf_flushes) (wadd64 s.(node_splits) 1) s.(coalesced_entries).

(** [usize::saturating_add] *)
Definition sat_add (a b : N) : N := N.min (a + b) u64_max.

Section beepsilon.
Context {K V : Type} `{!OrdKey K}.

Inductive Node :=
  | Leaf (buffer : list (K * V)) (bytes : N)
  | Internal (index : list (K * Node)).

Record BEpsilonTree := mkTree { flush_bytes : N; root : Node; stats : TreeStats }.

(** [BEpsilonTree::new] *)
Definition beps_new (fb : N) : BEpsilonTree := mkTree fb (Leaf [] 0) stats_default.

(** [get] and [get_in]: the loop over the separators keeps the last child
    whose separator is at most the key. *)
Fixpoint get_in (node : Node) (key : K) : option V :=
  match node with
  | Leaf buffer _ => om_get key buffer
  | Internal index =>
      (fix go (l : list (K * Node)) (child : option V) : option V :=
         match l with
         | [] => child
         | (sep, n) :: l => if kleb sep key then go l (get_in n key) else child
         end) index None
  end.

Definition beps_get (t : BEpsilonTree) (key : K) : option V := get_in t.(root) key.

(** [range] and [range_in]; [None] is the panic of [BTreeMap::range]. *)
Fixpoint range_in (node : Node) (lo hi : K) (out : list (K * V)) : option (list (K * V)) :=
  match node with
  | Leaf buffer _ => r ← om_range lo hi buffer; Some (out ++ r)
  | Internal index =>
      (fix go (l : list (K * Node)) (out : list (K * V)) : option (list (K * V)) :=
         match l with
         | [] => Some out
         | (_, n) :: l => out ← range_in n lo hi out; go l out
         end) index out
  end.

Definition beps_range (t : BEpsilonTree) (lo hi : K) : option (list (K * V)) := range_in t.(root) lo hi [].

(** The insertion into a leaf below an internal node. *)
Definition insert_leaf (fb entry_bytes : N) (key : K) (value : V) (buffer : list (K * V)) (bytes : N)
    (st : TreeStats) : Node * TreeStats :=
  let buffer := om_insert key value buffer in
  let bytes := sat_add bytes entry_bytes in
  if (fb <=? bytes)%N then (Leaf buffer (N.max (bytes / 4) 1), bump_flushes st)
  else (Leaf buffer bytes, st).

(** [insert_in] on the child the routing loop chose, and on the index: the
    loop of [insert_in] returns [None] when no separator is at most the key. *)
Fixpoint insert_child (fb entry_bytes : N) (key : K) (value : V) (node : Node) (st : TreeStats)
    : Node * TreeStats :=
  match node with
  | Leaf buffer bytes => insert_leaf fb entry_bytes key value buffer bytes st
  | Internal index =>
      match
        (fix route (l : list (K * Node)) : option (list (K * Node) * TreeStats) :=
           match l with
           | [] => None
           | (sep, n) :: l =>
               if kleb sep key then
                 match route l with
                 | Some (l', st') => Some ((sep, n) :: l', st')
                 | None => let '(n', st') := insert_child fb entry_bytes key value n st in Some ((sep, n') :: l, st')
                 end
               else None
           end) index
      with
      | Some (index', st') => (Internal index', st')
      | None =>
          (Internal (om_insert key (Leaf (om_insert key value []) entry_bytes) index), bump_splits st)
      end
  end.

(** [for (i, (k, v)) in entries.into_iter().enumerate()]: fills a leaf. *)
Definition fill_leaf (es : list (K * V)) : list (K * V) :=
  foldl (λ b p, om_insert p.1 p.2 b) [] es.

(** [flush_leaf_root]; [None]: one of its [expect]s fails. *)
Definition flush_leaf_root (t : BEpsilonTree) : option BEpsilonTree :=
  let st := bump_flushes t.(stats) in
  match t.(root) with
  | Internal _ => Some (mkTree t.(flush_bytes) t.(root) st)
  | Leaf buffer bytes =>
      if length buffer <? 2 then
        Some (mkTree t.(flush_bytes) (Leaf buffer (N.max (bytes / 4) 1)) st)
      else
        let mid := length buffer / 2 in
        let left := fill_leaf (take mid buffer) in
        let right := fill_leaf (drop mid buffer) in
        let pad := N.max (t.(flush_bytes) / 4) 1 in
        '(sep, _) ← head right;
        let index := om_insert sep (Leaf right pad) [] in
        let index := match head left with
                     | Some (low, _) => om_insert low (Leaf left pad) index
                     | None => index
                     end in
        Some (mkTree t.(flush_bytes) (Internal index) (bump_splits st))
  end.

(** [insert] *)
Definition beps_insert (t : BEpsilonTree) (key : K) (value : V) (entry_bytes : N) : option BEpsilonTree :=
  let st := bump_inserts t.(stats) in
  match t.(root) with
  | Leaf buffer bytes =>
      let bytes := sat_add bytes entry_bytes in
      let t' := mkTree t.(flush_bytes) (Leaf (om_insert key value buffer) bytes) st in
      if (t.(flush_bytes) <=? bytes)%N then flush_leaf_root t' else Some t'
  | Internal _ =>
      let '(root', st') := insert_child t.(flush_bytes) entry_bytes key value t.(root) st in
      Some (mkTree t.(flush_bytes) root' st')
  end.

(** [tune_workload]: the new threshold comes from floating-point arithmetic. *)
Definition set_flush_bytes (t : BEpsilonTree) (fb : N) : BEpsilonTree := mkTree fb t.(root) t.(stats).

(** [coalesce_run] *)
Definition coalesce_step (mergeable : K * V → K * V → option V) (out : list (K * V)) (entry : K * V)
    : list (K * V) :=
  match last out with
  | Some l => match mergeable l entry with
              | Some merged => take (pred (length out)) out ++ [(l.1, merged)]
              | None => out ++ [entry]
              end
  | None => out ++ [entry]
  end.

Definition coalesce_run (run : list (K * V)) (mergeable : K * V → K * V → option V) : list (K * V) :=
  foldl (coalesce_step mergeable) [] run.

(** ** Abstraction and well-formedness *)
Fixpoint entries (n : Node) : list (K * V) :=
  match n with
  | Leaf buffer _ => buffer
  | Internal index => concat (map (λ p, entries p.2) index)
  end.

Definition index_entries (l : list (K * Node)) : list (K * V) := concat (map (λ p, entries p.2) l).

Definition below_head (k : K) (l : list (K * Node)) : Prop :=
  match l with [] => True | (s, _) :: _ => klt k s end.

Inductive node_wf : Node → Prop :=
  | wf_leaf b y : om_ok b → node_wf (Leaf b y)
  | wf_internal l : index_wf l → node_wf (Internal l)
with index_wf : list (K * Node) → Prop :=
  | wf_nil : index_wf []
  | wf_cons sep n l :
      node_wf n → below_head sep l →
      Forall (λ p, kleb sep p.1 = true ∧ below_head p.1 l) (entries n) →
      index_wf l → index_wf ((sep, n) :: l).

Scheme node_wf_mind := Induction for node_wf Sort Prop
with index_wf_mind := Induction for index_wf Sort Prop.
Combined Scheme wf_mind from node_wf_mind, index_wf_mind.

(** The loops of the nested recursion, as functions of their own. *)
Fixpoint get_index (l : list (K * Node)) (key : K) (child : option V) : option V :=
  match l with
  | [] => child
  | (sep, n) :: l => if kleb sep key then get_index l key (get_in n key) else child
  end.

Fixpoint insert_route (fb eb : N) (key : K) (value : V) (st : TreeStats) (l : list (K * Node))
    : option (list (K * Node) * TreeStats) :=
  match l with
  | [] => None
  | (sep, n) :: l =>
      if kleb sep key then
        match insert_route fb eb key value st l with
        | Some (l', st') => Some ((sep, n) :: l', st')
        | None => let '(n', st') := insert_child fb eb key value n st in Some ((sep, n') :: l, st')
        end
      else None
  end.

Fixpoint range_index (l : list (K * Node)) (lo hi : K) (out : list (K * V)) : option (list (K * V)) :=
  match l with
  | [] => Some out
  | (_, n) :: l => out ← range_in n lo hi out; range_index l lo hi out
  end.

Lemma get_in_internal l key : get_in (Internal l) key = get_index l key None.
Proof.
  cbn [get_in]. generalize (@None V). induction l as [|[sep n] l IH]; intros cur; [done|]. cbn [get_index].
  case_match; [apply IH|done].
Qed.

Lemma range_in_internal l lo hi out : range_in (Internal l) lo hi out = range_index l lo hi out.
Proof.
  cbn [range_in]. revert out. induction l as [|[sep n] l IH]; intros out; [done|]. cbn [range_index].
  destruct (range_in n lo hi out); [apply IH|done].
Qed.

Lemma insert_child_internal fb eb key value l st :
  insert_child fb eb key value (Internal l) st =
  match insert_route fb eb key value st l with
  | Some (l', st') => (Internal l', st')
  | None => (Internal (om_insert key (Leaf (om_insert key value []) eb) l), bump_splits st)
  end.
Proof.
  cbn [insert_child].
  set (r := (fix route (l : list (K * Node)) := _) l). enough (r = insert_route fb eb key value st l) as ->; [done|].
  subst r. induction l as [|[sep n] l IH]; [done|]. cbn [insert_route]. by rewrite <- IH.
Qed.

(** ** The abstraction is an ordered map *)
Lemma index_entries_cons sep n l : index_entries ((sep, n) :: l) = entries n ++ index_entries l.
Proof. done. Qed.

(** Every entry under an index is at or above its first separator. *)
Lemma index_entries_above k l : index_wf l → below_head k l → Forall (λ p, klt k p.1) (index_entries l).
Proof.
  intros Hl. revert k. induction Hl as [|sep n l Hn Hsep Hall Hl IH]; intros k Hk; [constructor|].
  rewrite index_entries_cons. apply Forall_app. cbn in Hk. split.
  - eapply Forall_impl; [exact Hall|]. intros p [Hp _]. by eapply klt_le_trans.
  - apply IH. destruct l as [|[s c] l]; [done|]. by eapply klt_trans.
Qed.

Lemma entries_ok : (∀ n, node_wf n → om_ok (entries n)) ∧ (∀ l, index_wf l → om_ok (index_entries l)).
Proof.
  apply wf_mind; [done|done|constructor|].
  intros sep n l Hn IHn Hsep Hall Hl IHl. rewrite index_entries_cons. apply om_ok_app. split_and!; [done|done|].
  intros p q Hp Hq. rewrite Forall_forall in Hall. destruct (Hall p Hp) as [_ Hb].
  pose proof (index_entries_above _ _ Hl Hb) as Hab. rewrite Forall_forall in Hab. by apply Hab.
Qed.

Lemma index_wf_ok l : index_wf l → om_ok l.
Proof.
  intros Hl. induction Hl as [|sep n l Hn Hsep Hall Hl IH]; [constructor|]. apply om_ok_cons. split; [|done].
  destruct l as [|[s c] l]; [constructor|]. cbn in Hsep. constructor; [done|].
  apply om_ok_cons in IH as [IH _]. eapply Forall_impl; [exact IH|]. intros p. by apply klt_trans.
Qed.

(** Lookups and insertions at a key the child before [l] covers. *)
Lemma covered_by_child k sep n l :
  index_wf ((sep, n) :: l) → below_head k l →
  om_get k (index_entries ((sep, n) :: l)) = om_get k (entries n) ∧
  ∀ v, om_insert k v (index_entries ((sep, n) :: l)) = om_insert k v (entries n) ++ index_entries l.
Proof.
  inversion_clear 1 as [|? ? ? Hn Hsep Hall Hl]. intros Hb. rewrite index_entries_cons.
  pose proof (index_entries_above _ _ Hl Hb). split; [by apply om_get_app_l|]. intros v. by apply om_insert_app_l.
Qed.

Lemma covered_by_rest k sep n s c l :
  index_wf ((sep, n) :: (s, c) :: l) → kleb s k = true →
  om_get k (index_entries ((sep, n) :: (s, c) :: l)) = om_get k (index_entries ((s, c) :: l)) ∧
  ∀ v, om_insert k v (index_entries ((sep, n) :: (s, c) :: l)) =
       entries n ++ om_insert k v (index_entries ((s, c) :: l)).
Proof.
  inversion_clear 1 as [|? ? ? Hn Hsep Hall Hl]. intros Hs. rewrite index_entries_cons.
  assert (Forall (λ p, klt p.1 k) (entries n)) as Hlt.
  { eapply Forall_impl; [exact Hall|]. intros p [_ Hp]. by eapply klt_le_trans. }
  split; [by apply om_get_app_r|]. intros v. by apply om_insert_app_r.
Qed.

(** ** Lookup *)
Lemma get_spec k :
  (∀ n, node_wf n → get_in n k = om_get k (entries n)) ∧
  (∀ l, index_wf l → ∀ cur,
     get_index l k cur = match l with
                         | [] => cur
                         | (s, _) :: _ => if kleb s k then om_get k (index_entries l) else cur
                         end).
Proof.
  apply wf_mind; [done| |done|].
  - intros l Hl IH. rewrite get_in_internal, IH.
    destruct l as [|[s c] l]; [done|]. destruct (kleb s k) eqn:E; [done|]. apply kleb_false in E.
    symmetry. apply om_get_above. by apply index_entries_above.
  - intros sep n l Hn IHn Hsep Hall Hl IHl cur. cbn [get_index]. destruct (kleb sep k) eqn:E; [|done].
    rewrite IHl. pose proof (wf_cons _ _ _ Hn Hsep Hall Hl) as Hwf.
    destruct l as [|[s c] l]; [by rewrite (proj1 (covered_by_child k _ _ _ Hwf I))|].
    destruct (kleb s k) eqn:Es; [by rewrite (proj1 (covered_by_rest k _ _ _ _ _ Hwf Es))|].
    apply kleb_false in Es. by rewrite (proj1 (covered_by_child k _ _ _ Hwf Es)).
Qed.

(** ** Range *)
Definition in_range (lo hi : K) (p : K * V) : Prop := (kleb lo p.1 && kltb p.1 hi)%bool = true.

#[local] Instance in_range_dec lo hi p : Decision (in_range lo hi p).
Proof. unfold in_range. apply _. Defined.

Lemma range_spec lo hi :
  kltb hi lo = false →
  (∀ n, node_wf n → ∀ out, range_in n lo hi out = Some (out ++ base.filter (in_range lo hi) (entries n))) ∧
  (∀ l, index_wf l → ∀ out,
     range_index l lo hi out = Some (out ++ base.filter (in_range lo hi) (index_entries l))).
Proof.
  intros Hlh. apply wf_mind.
  - intros b y _ out. cbn. unfold om_range. by rewrite Hlh.
  - intros l _ IH out. rewrite range_in_internal. apply IH.
  - intros out. cbn. by rewrite (right_id_L [] (++)).
  - intros sep n l _ IHn _ _ _ IHl out. cbn [range_index]. rewrite IHn. cbn [mbind option_bind].
    by rewrite IHl, index_entries_cons, filter_app, (assoc_L (++)).
Qed.

(** ** Insertion *)
Lemma insert_leaf_spec fb eb k v b y st :
  om_ok b →
  let n' := (insert_leaf fb eb k v b y st).1 in node_wf n' ∧ entries n' = om_insert k v b.
Proof.
  intros Hb. unfold insert_leaf. case_match; cbn; (split; [|done]); constructor; by apply om_insert_ok.
Qed.

Lemma new_leftmost k v y l :
  index_wf l → below_head k l →
  let l' := om_insert k (Leaf (om_insert k v []) y) l in
  index_wf l' ∧ index_entries l' = om_insert k v (index_entries l).
Proof.
  intros Hl Hb. cbv zeta.
  assert (om_insert k (Leaf (om_insert k v []) y) l = (k, Leaf [(k, v)] y) :: l) as ->.
  { destruct l as [|[s c] l]; [done|]. cbn in *. unfold klt in Hb. by rewrite Hb. }
  split.
  - constructor; [by repeat constructor|done| |done]. repeat constructor; [|done]. apply kleb_true. by right.
  - rewrite index_entries_cons. symmetry. apply (om_insert_app_l k v []). by apply index_entries_above.
Qed.

(** Replacing a child by one that also holds a key the child covers. *)
Lemma beps_replace_child k v sep n n' l :
  index_wf ((sep, n) :: l) → kleb sep k = true → below_head k l →
  node_wf n' → entries n' = om_insert k v (entries n) →
  index_wf ((sep, n') :: l) ∧ index_entries ((sep, n') :: l) = om_insert k v (index_entries ((sep, n) :: l)).
Proof.
  intros Hwf Hs Hb Hn' He. split.
  - inversion_clear Hwf as [|? ? ? Hn Hsep Hall Hl]. constructor; [done|done| |done]. rewrite He.
    by apply (om_insert_Forall (λ x, kleb sep x = true ∧ below_head x l)).
  - rewrite (proj2 (covered_by_child k _ _ _ Hwf Hb) v). by rewrite index_entries_cons, He.
Qed.

Definition route_ok (k : K) (v : V) (l : list (K * Node)) (r : option (list (K * Node) * TreeStats)) : Prop :=
  match r with
  | Some (l', _) =>
      index_wf l' ∧ index_entries l' = om_insert k v (index_entries l) ∧ map fst l' = map fst l ∧
      ¬ below_head k l
  | None => below_head k l
  end.

Lemma below_head_fst k (l l' : list (K * Node)) : map fst l' = map fst l → below_head k l → below_head k l'.
Proof. destruct l as [|[s c] l], l' as [|[s' c'] l']; cbn; try done. by intros [= -> _]. Qed.

Lemma beps_insert_spec fb eb k v st :
  (∀ n, node_wf n →
     let n' := (insert_child fb eb k v n st).1 in node_wf n' ∧ entries n' = om_insert k v (entries n)) ∧
  (∀ l, index_wf l → route_ok k v l (insert_route fb eb k v st l)).
Proof.
  apply wf_mind.
  - intros b y Hb. by apply insert_leaf_spec.
  - intros l Hl IH. rewrite insert_child_internal. unfold route_ok in IH.
    destruct (insert_route fb eb k v st l) as [[l' st']|]; cbn [fst].
    + destruct IH as (? & ? & _). split; [by constructor|done].
    + destruct (new_leftmost k v eb l Hl IH). split; [by constructor|done].
  - done.
  - intros sep n l Hn IHn Hsep Hall Hl IHl. cbn [insert_route]. pose proof (wf_cons _ _ _ Hn Hsep Hall Hl) as Hwf.
    destruct (kleb sep k) eqn:E; [|by apply kleb_false in E].
    assert (¬ below_head k ((sep, n) :: l)) as Hnb.
    { cbn. intros H. apply (klt_irrefl k). by eapply klt_le_trans. }
    destruct (insert_route fb eb k v st l) as [[l' st']|].
    + destruct IHl as (Hl' & He & Hf & Hb). unfold route_ok. destruct l as [|[s c] l]; [by destruct Hb|].
      assert (kleb s k = true) as Hs by (destruct (kleb s k) eqn:Es; [done|]; by apply kleb_false in Es).
      split_and!; [|by rewrite index_entries_cons, He, (proj2 (covered_by_rest k _ _ _ _ _ Hwf Hs) v)|cbn in *; by rewrite Hf|done].
      constructor; [done|by eapply below_head_fst| |done]. eapply Forall_impl; [exact Hall|].
      intros p [? ?]. split; [done|]. by eapply below_head_fst.
    + cbn in IHn. destruct (insert_child fb eb k v n st) as [n' st']. destruct IHn as [Hn' He].
      destruct (beps_replace_child k v sep n n' l Hwf E IHl Hn' He). by split_and!.
Qed.

(** ** The root split *)
Lemma fill_leaf_app (b es : list (K * V)) :
  om_ok (b ++ es) → foldl (λ b p, om_insert p.1 p.2 b) b es = b ++ es.
Proof.
  revert b. induction es as [|[k v] es IH]; intros b Hok; cbn [foldl]; [by rewrite (right_id_L [] (++))|].
  assert (om_insert k v b = b ++ [(k, v)]) as Hi.
  { rewrite <- (right_id_L [] (++) b) at 1. apply (om_insert_app_r k v b []). apply Forall_forall. intros p Hp.
    apply om_ok_app in Hok as (_ & _ & H). apply (H p (k, v)); [done|]. by left. }
  cbn [fst snd]. rewrite Hi, IH by (by rewrite <- (assoc_L (++))). by rewrite <- (assoc_L (++)).
Qed.

Lemma fill_leaf_id es : om_ok es → fill_leaf es = es.
Proof. apply (fill_leaf_app []). Qed.

(** The index the split builds: the lower half below the upper half. *)
Lemma split_index_wf k1 v1 l1 k2 v2 l2 y :
  om_ok (((k1, v1) :: l1) ++ (k2, v2) :: l2) →
  let idx := om_insert k1 (Leaf ((k1, v1) :: l1) y) (om_insert k2 (Leaf ((k2, v2) :: l2) y) []) in
  node_wf (Internal idx) ∧ entries (Internal idx) = ((k1, v1) :: l1) ++ (k2, v2) :: l2.
Proof.
  intros (Ho1 & Ho2 & Hlt)%om_ok_app. cbv zeta.
  assert (klt k1 k2) as Hk by (apply (Hlt (k1, v1) (k2, v2)); by left).
  cbn [om_insert]. unfold klt in Hk. rewrite Hk. split; [|cbn; by rewrite (right_id_L [] (++))].
  assert (∀ k (v : V) l, om_ok ((k, v) :: l) → Forall (λ p, kleb k p.1 = true) ((k, v) :: l)) as Hge.
  { intros k v l [Hl _]%om_ok_cons. constructor; [apply kleb_true; by right|]. eapply Forall_impl; [exact Hl|].
    intros p. apply klt_kleb. }
  pose proof (Hge _ _ _ Ho1) as H1. pose proof (Hge _ _ _ Ho2) as H2. rewrite Forall_forall in H1, H2.
  constructor. constructor; [by constructor|done| |].
  - apply Forall_forall. intros p Hp. split; [by apply H1|]. cbn. apply (Hlt p (k2, v2) Hp). by left.
  - constructor; [by constructor|done| |constructor]. apply Forall_forall. intros p Hp. split; [by apply H2|done].
Qed.

Lemma flush_leaf_root_spec t b y :
  root t = Leaf b y → om_ok b →
  ∃ t', flush_leaf_root t = Some t' ∧ node_wf (root t') ∧ entries (root t') = b.
Proof.
  intros Hr Hb. unfold flush_leaf_root. rewrite Hr. destruct (length b <? 2) eqn:E.
  { eexists. split; [done|]. cbn. split; [by constructor|done]. }
  apply Nat.ltb_ge in E. pose proof (take_drop (length b / 2) b) as Htd.
  assert (1 ≤ length b / 2 < length b) as [Hm1 Hm2].
  { split; [apply Nat.div_le_lower_bound; lia|apply Nat.div_lt; lia]. }
  assert (om_ok (take (length b / 2) b) ∧ om_ok (drop (length b / 2) b)) as [Ho1 Ho2].
  { rewrite <- Htd in Hb. apply om_ok_app in Hb. tauto. }
  rewrite !fill_leaf_id by done.
  destruct (take (length b / 2) b) as [|[k1 v1] l1] eqn:E1;
    [apply (f_equal length) in E1; rewrite length_take in E1; cbn [length] in E1; lia|].
  destruct (drop (length b / 2) b) as [|[k2 v2] l2] eqn:E2;
    [apply (f_equal length) in E2; rewrite length_drop in E2; cbn [length] in E2; lia|].
  eexists. split; [reflexivity|]. cbn [root]. rewrite <- Htd in Hb |- * . by apply split_index_wf.
Qed.

(** ** Insertion at the root *)
Definition beps_abs (t : BEpsilonTree) (m : list (K * V)) : Prop := node_wf t.(root) ∧ entries t.(root) = m.

Lemma beps_insert_abs t m k v eb :
  beps_abs t m → ∃ t', beps_insert t k v eb = Some t' ∧ beps_abs t' (om_insert k v m).
Proof.
  intros [Hwf <-]. unfold beps_insert. destruct (root t) as [b y|l] eqn:Er.
  - inversion Hwf as [? ? Hb|]; subst. apply (om_insert_ok k v) in Hb. destruct (N.leb _ _).
    + by eapply flush_leaf_root_spec.
    + eexists. split; [done|]. split; [by constructor|done].
  - pose proof (proj1 (beps_insert_spec (flush_bytes t) eb k v (bump_inserts (stats t))) _ Hwf) as Hi.
    destruct (insert_child _ _ _ _ _ _) as [n' st']. eexists. split; [done|]. exact Hi.
Qed.

(** ** Client programs *)
Inductive beps_op := BInsert (key : K) (value : V) (entry_bytes : N) | BTune (fb : N).

Definition beps_apply (t : BEpsilonTree) (o : beps_op) : option BEpsilonTree :=
  match o with
  | BInsert k v eb => beps_insert t k v eb
  | BTune fb => Some (set_flush_bytes t fb)
  end.

Fixpoint beps_run (t : BEpsilonTree) (ops : list beps_op) : option BEpsilonTree :=
  match ops with [] => Some t | o :: ops => t ← beps_apply t o; beps_run t ops end.

(** The ordered map the operations describe. *)
Definition map_apply (m : list (K * V)) (o : beps_op) : list (K * V) :=
  match o with BInsert k v _ => om_insert k v m | BTune _ => m end.

(** The value the operations last wrote under [k]. *)
Definition last_write (k : K) (cur : option V) (o : beps_op) : option V :=
  match o with
  | BInsert k' v _ => match kcmp k k' with Eq => Some v | _ => cur end
  | BTune _ => cur
  end.

Lemma beps_run_abs ops t m :
  beps_abs t m → ∃ t', beps_run t ops = Some t' ∧ beps_abs t' (foldl map_apply m ops).
Proof.
  revert t m. induction ops as [|[k v eb|fb] ops IH]; intros t m Ht; cbn [beps_run foldl]; [by eexists| |].
  - destruct (beps_insert_abs t m k v eb Ht) as (t' & Hi & Ht'). cbn. rewrite Hi. by apply IH.
  - by apply IH.
Qed.

Lemma map_apply_ok ops m : om_ok m → om_ok (foldl map_apply m ops).
Proof.
  revert m. induction ops as [|[k v eb|fb] ops IH]; intros m Hm; cbn [foldl]; [done| |by apply IH].
  apply IH. by apply om_insert_ok.
Qed.

Lemma map_apply_get ops m k :
  om_ok m → om_get k (foldl map_apply m ops) = foldl (last_write k) (om_get k m) ops.
Proof.
  revert m. induction ops as [|[k' v eb|fb] ops IH]; intros m Hm; cbn [foldl]; [done| |by apply IH].
  rewrite IH by (by apply om_insert_ok). cbn [map_apply last_write]. by rewrite om_get_insert.
Qed.

(** C39: any sequence of insertions and threshold changes, from an empty
    tree, runs without a panic (no [expect] fails), and the tree it leaves
    behaves as an ordered map: [get] returns the value last written under the
    key, whatever flushes, root split and new leftmost leaves happened, and
    [range] returns, for [lo <= hi], exactly the bindings of that map with
    [lo <= key < hi], in increasing key order. *)
Theorem beps_refines_map (fb : N) (ops : list beps_op) :
  ∃ t m, beps_run (beps_new fb) ops = Some t ∧ om_ok m ∧
    (∀ k, beps_get t k = foldl (last_write k) None ops ∧ beps_get t k = om_get k m) ∧
    (∀ lo hi, kltb hi lo = false → beps_range t lo hi = om_range lo hi m).
Proof.
  destruct (beps_run_abs ops (beps_new fb) []) as (t & Hrun & Hwf & He).
  { split; [constructor; constructor|done]. }
  exists t, (foldl map_apply [] ops). split_and!; [done|apply map_apply_ok; constructor| |].
  - intros k. unfold beps_get. rewrite (proj1 (get_spec k)), He by done. split; [|done].
    apply map_apply_get. constructor.
  - intros lo hi Hlh. unfold beps_range, om_range. rewrite Hlh, (proj1 (range_spec lo hi Hlh)), He by done. done.
Qed.

(** ** Coalescing *)
Lemma coalesce_step_app mergeable out l entry :
  coalesce_step mergeable (out ++ [l]) entry =
  match mergeable l entry with Some m => out ++ [(l.1, m)] | None => (out ++ [l]) ++ [entry] end.
Proof.
  unfold coalesce_step. rewrite last_snoc. destruct (mergeable l entry); [|done].
  by rewrite length_app, Nat.add_1_r, Nat.pred_succ, take_app_length.
Qed.

Lemma coalesce_step_den {A} (den : K * V → list A) mergeable out entry :
  (∀ a b m, mergeable a b = Some m → den (a.1, m) = den a ++ den b) →
  concat (map den (coalesce_step mergeable out entry)) = concat (map den out) ++ den entry.
Proof.
  intros Hden. destruct out as [|l out _] using rev_ind; [cbn; by rewrite (right_id_L [] (++))|].
  rewrite coalesce_step_app. destruct (mergeable l entry) as [m|] eqn:E;
    rewrite !map_app, !concat_app; cbn; rewrite !(right_id_L [] (++)); [|done].
  by rewrite (Hden _ _ _ E), (assoc_L (++)).
Qed.

Lemma coalesce_step_keys mergeable out entry run :
  map fst out `sublist_of` run → map fst (coalesce_step mergeable out entry) `sublist_of` run ++ [entry.1].
Proof.
  intros H. destruct out as [|l out _] using rev_ind.
  { cbn. rewrite <- (left_id_L [] (++) [entry.1]) at 1. by apply sublist_app. }
  rewrite coalesce_step_app. rewrite map_app in *. destruct (mergeable l entry).
  - rewrite map_app. cbn. by apply sublist_inserts_r.
  - rewrite !map_app. cbn. by apply sublist_app.
Qed.

(** for any reading [den] of an entry as the sequence of blocks it maps
    that merging respects, [coalesce_run] leaves what the run denotes
    unchanged, in the same order; it never lengthens the run and its keys are
    keys of the run, in their order. *)
Theorem coalesce_run_preserves {A} (den : K * V → list A) mergeable run :
  (∀ a b m, mergeable a b = Some m → den (a.1, m) = den a ++ den b) →
  concat (map den (coalesce_run run mergeable)) = concat (map den run) ∧
  map fst (coalesce_run run mergeable) `sublist_of` map fst run.
Proof.
  intros Hden. unfold coalesce_run. induction run as [|e run IH] using rev_ind; [done|].
  rewrite foldl_snoc, !map_app, concat_app, coalesce_step_den by done. destruct IH as [IH1 IH2]. split.
  - rewrite IH1. cbn. by rewrite (right_id_L [] (++)).
  - by apply coalesce_step_keys.
Qed.
End beepsilon.
Arguments Node : clear implicits.
Arguments BEpsilonTree : clear implicits.

(** Extents as (first block, number of blocks). *)
Definition extent_blocks (e : N * N) : list nat := seq (N.to_nat e.1) (N.to_nat e.2).

Definition extent_merge (a b : N * N) : option N := if (a.1 + a.2 =? b.1)%N then Some (a.2 + b.2)%N else None.

Lemma coalesce_run_preserves_witness :
  coalesce_run [(0, 2); (2, 3); (7, 1)]%N extent_merge = [(0, 5); (7, 1)]%N ∧
  concat (map extent_blocks (coalesce_run [(0, 2); (2, 3); (7, 1)]%N extent_merge)) = [0; 1; 2; 3; 4; 7].
Proof.
  split; [by vm_compute|]. destruct (coalesce_run_preserves extent_blocks extent_merge [(0, 2); (2, 3); (7, 1)]%N) as [-> _].
  - intros a b m. unfold extent_merge. case_match eqn:E; [|done]. intros [= <-]. apply N.eqb_eq in E.
    unfold extent_blocks. cbn [fst snd]. rewrite N2Nat.inj_add, seq_app, <- E, N2Nat.inj_add. done.
  - by vm_compute.
Defined.

(** A root split, then a key below every separator. *)
Example beps_split :
  let t := beps_run (beps_new 32) [BInsert 5 50 16; BInsert 9 90 16; BInsert 2 20 16]%N in
  (t ≫= λ t, beps_range t 0 10)%N = Some [(2, 20); (5, 50); (9, 90)]%N ∧
  (t ≫= λ t, beps_get t 5)%N = Some 50%N ∧
  option_map (λ t, node_splits (stats t)) t = Some 2%N.
Proof. by vm_compute. Qed.
