(* ===== verification/GF256.v ===== *)
(** * GF(2^8) arithmetic of the pool ([pool/gf256.rs])

    The log/exp tables built by the shift-and-reduce loop, the operations on
    them, and the proof that they form a field.  [xtime] (multiplication by the
    generator) is the reference the table arithmetic is related to. *)
From S2P Require Import Prelude.
From Stdlib Require Import NArith ZArith Lia List Strings.Byte Ring.
From stdpp Require Import base list numbers.

(** ** The code *)

Definition POLY : N := 0x11D.

(** One iteration of the loop of [build_tables]. *)
Definition build_step (st : list byte * list byte * N) (i : nat) : list byte * list byte * N :=
  let '(exp, log, x) := st in
  let exp := <[i := byte_of_N x]> exp in
  let log := <[N.to_nat x := byte_of_N (N.of_nat i)]> log in
  let x := N.shiftl x 1 in
  let x := if N.eqb (N.land x 0x100) 0 then x else N.lxor x POLY in
  (exp, log, x).

Definition build_tables : list byte * list byte :=
  let z := replicate 256 x00 in
  let '(exp, log, _) := fold_left build_step (List.seq 0 255) (z, z, 1%N) in
  (<[255 := nth 0 exp x00]> exp, log).

(** The [OnceLock] caches: the tables, evaluated once. *)
Definition tables : list byte * list byte := Eval vm_compute in build_tables.
Definition exp_at (i : nat) : byte := nth i tables.1 x00.
Definition log_at (a : byte) : nat := b2n (nth (b2n a) tables.2 x00).

Definition mul (a b : byte) : byte :=
  if (Byte.eqb a x00 || Byte.eqb b x00)%bool then x00
  else exp_at ((log_at a + log_at b) mod 255).

Definition pow (power : nat) : byte := exp_at (power mod 255).

(** [None] is the [assert!] of [inv] firing. *)
Definition inv (a : byte) : option byte :=
  if Byte.eqb a x00 then None
  else Some (exp_at ((255 - log_at a) mod 255)).

Definition div (a b : byte) : option byte :=
  if Byte.eqb a x00 then Some x00
  else match inv b with
       | Some i => Some (mul a i)
       | None => None
       end.

(** [zip]: the longer buffer keeps its tail. *)
Fixpoint xor_into (dst src : list byte) : list byte :=
  match dst, src with
  | d :: dst', s :: src' => bxor d s :: xor_into dst' src'
  | _, _ => dst
  end.

Definition mul_table_uncached (coeff : byte) : list byte :=
  if Byte.eqb coeff x00 then replicate 256 x00
  else
    let lc := log_at coeff in
    x00 :: map (λ b, exp_at ((lc + log_at b) mod 255)) (tail all_bytes).

Definition mul_tables : list (list byte) :=
  replicate 256 x00 :: map mul_table_uncached (tail all_bytes).

Definition mul_table (coeff : byte) : list byte := nth (b2n coeff) mul_tables [].

Definition tget (table : list byte) (b : byte) : byte := nth (b2n b) table x00.

(** The 8-wide [chunks_exact] loop and its scalar remainder. *)
Fixpoint mul_xor_chunks (table : list byte) (d s : list byte) : list byte :=
  match d, s with
  | d0 :: d1 :: d2 :: d3 :: d4 :: d5 :: d6 :: d7 :: d',
    s0 :: s1 :: s2 :: s3 :: s4 :: s5 :: s6 :: s7 :: s' =>
      bxor d0 (tget table s0) :: bxor d1 (tget table s1) ::
      bxor d2 (tget table s2) :: bxor d3 (tget table s3) ::
      bxor d4 (tget table s4) :: bxor d5 (tget table s5) ::
      bxor d6 (tget table s6) :: bxor d7 (tget table s7) ::
      mul_xor_chunks table d' s'
  | _, _ => zip_with (λ dv sv, bxor dv (tget table sv)) d s
  end.

Definition mul_xor_into (dst src : list byte) (coeff : byte) : list byte :=
  let table := mul_table coeff in
  let n := length dst `min` length src in
  mul_xor_chunks table (take n dst) (take n src) ++ drop n dst.

(** ** Reference: multiplication by the generator, and its powers *)

Definition xtime (b : byte) : byte :=
  let x := N.shiftl (Byte.to_N b) 1 in
  byte_of_N (if N.testbit (Byte.to_N b) 7 then N.lxor x POLY else x).

Lemma xtime_lxor b :
  Byte.to_N (xtime b) =
  N.lxor (N.shiftl (Byte.to_N b) 1) (if N.testbit (Byte.to_N b) 7 then POLY else 0).
Proof.
  apply N.eqb_eq. revert b. apply forall_bytes. vm_compute. reflexivity.
Qed.

Lemma xtime_bxor a b : xtime (bxor a b) = bxor (xtime a) (xtime b).
Proof.
  apply to_N_inj. rewrite to_N_bxor, !xtime_lxor, to_N_bxor.
  rewrite N.shiftl_lxor, N.lxor_spec.
  set (x := N.shiftl _ 1). set (y := N.shiftl _ 1).
  destruct (N.testbit (Byte.to_N a) 7), (N.testbit (Byte.to_N b) 7); simpl xorb; cbv iota;
    rewrite ?N.lxor_0_r.
  - rewrite (N.lxor_comm y), N.lxor_assoc, <- (N.lxor_assoc POLY POLY), N.lxor_nilpotent.
    by rewrite N.lxor_0_l.
  - rewrite !N.lxor_assoc. f_equal. apply N.lxor_comm.
  - by rewrite N.lxor_assoc.
  - done.
Qed.

Lemma xtime_iter_bxor n a b :
  Nat.iter n xtime (bxor a b) = bxor (Nat.iter n xtime a) (Nat.iter n xtime b).
Proof. induction n as [|n IH]; simpl; [done|]. by rewrite IH, xtime_bxor. Qed.

Lemma exp_step i : i < 255 → exp_at (S i) = xtime (exp_at i).
Proof.
  intros Hi. apply byte_dec_bl. revert i Hi. apply forall_nat_lt. vm_compute. reflexivity.
Qed.

Lemma exp_log a : a ≠ x00 → exp_at (log_at a) = a.
Proof.
  intros Ha.
  pose proof (forall_bytes (λ a, Byte.eqb a x00 || Byte.eqb (exp_at (log_at a)) a)%bool
    ltac:(vm_compute; reflexivity) a) as H.
  apply orb_true_iff in H as [H|H]; by apply byte_dec_bl in H.
Qed.

Lemma log_exp i : i < 255 → log_at (exp_at i) = i.
Proof.
  intros Hi. apply Nat.eqb_eq. revert i Hi. apply forall_nat_lt. vm_compute. reflexivity.
Qed.

Lemma exp_nonzero i : i < 255 → exp_at i ≠ x00.
Proof.
  intros Hi E.
  pose proof (forall_nat_lt (λ i, negb (Byte.eqb (exp_at i) x00)) 255
    ltac:(vm_compute; reflexivity) i Hi) as H. cbv beta in H. by rewrite E in H.
Qed.

Lemma exp_add i j : exp_at ((i + j) mod 255) = Nat.iter i xtime (exp_at (j mod 255)).
Proof.
  induction i as [|i IH]; [done|]. rewrite Nat.iter_succ, <- IH.
  pose proof (Nat.mod_upper_bound (i + j) 255 ltac:(done)).
  rewrite <- exp_step by done.
  destruct (decide (S ((i + j) mod 255) = 255)) as [E|E].
  - rewrite E. change (exp_at 255) with (exp_at 0). f_equal.
    change (S i + j) with (S (i + j)). rewrite <- Nat.add_1_r, Nat.Div0.add_mod.
    replace ((i + j) mod 255) with 254 by lia. done.
  - f_equal. change (S i + j) with (S (i + j)). rewrite <- Nat.add_1_r, Nat.Div0.add_mod.
    change (1 mod 255) with 1. rewrite Nat.mod_small; lia.
Qed.

Lemma eqb_x00 (a : byte) : Byte.eqb a x00 = bool_decide (a = x00).
Proof.
  destruct (Byte.eqb a x00) eqn:E.
  - apply byte_dec_bl in E as ->. done.
  - symmetry. apply bool_decide_eq_false. by intros ->.
Qed.

Lemma log_lt a : log_at a < 255.
Proof.
  apply Nat.ltb_lt. revert a. apply forall_bytes. vm_compute. reflexivity.
Qed.

Lemma mul_iter a b : a ≠ x00 → mul a b = Nat.iter (log_at a) xtime b.
Proof.
  intros Ha. unfold mul. rewrite !eqb_x00, (bool_decide_eq_false_2 (a = x00)) by done.
  case_bool_decide as Hb; cbn [orb]; cbv iota.
  - subst b. induction (log_at a) as [|n IH]; [done|]. by rewrite Nat.iter_succ, <- IH.
  - rewrite exp_add, Nat.mod_small by apply log_lt. by rewrite exp_log.
Qed.

(** ** The field laws *)

Lemma mul_0_l a : mul x00 a = x00.
Proof. done. Qed.

Lemma mul_comm a b : mul a b = mul b a.
Proof. unfold mul. rewrite orb_comm. case_match; [done|]. by rewrite Nat.add_comm. Qed.

Lemma mul_0_r a : mul a x00 = x00.
Proof. by rewrite mul_comm. Qed.

Lemma mul_1_l a : mul x01 a = a.
Proof. by rewrite mul_iter. Qed.

Lemma mul_add_r a b c : mul a (bxor b c) = bxor (mul a b) (mul a c).
Proof.
  destruct (decide (a = x00)) as [->|Ha]; [done|].
  rewrite !mul_iter by done. apply xtime_iter_bxor.
Qed.

Lemma mul_nonzero a b : a ≠ x00 → b ≠ x00 →
  mul a b ≠ x00 ∧ log_at (mul a b) = (log_at a + log_at b) mod 255.
Proof.
  intros Ha Hb. unfold mul. rewrite !eqb_x00, !bool_decide_eq_false_2 by done. cbn [orb]; cbv iota.
  pose proof (Nat.mod_upper_bound (log_at a + log_at b) 255 ltac:(done)).
  split; [by apply exp_nonzero|by apply log_exp].
Qed.

Lemma mul_assoc a b c : mul a (mul b c) = mul (mul a b) c.
Proof.
  destruct (decide (a = x00)) as [->|Ha]; [done|].
  destruct (decide (b = x00)) as [->|Hb]; [by rewrite (mul_0_l c), mul_0_r|].
  destruct (decide (c = x00)) as [->|Hc]; [by rewrite !mul_0_r|].
  destruct (mul_nonzero a b Ha Hb) as [Hab Lab].
  destruct (mul_nonzero b c Hb Hc) as [Hbc Lbc].
  unfold mul at 1 3. rewrite !eqb_x00, !bool_decide_eq_false_2 by done. simpl orb. cbv iota.
  rewrite Lab, Lbc. f_equal.
  rewrite Nat.Div0.add_mod_idemp_r, Nat.Div0.add_mod_idemp_l. f_equal. lia.
Qed.

Lemma inv_spec a : a ≠ x00 → ∃ i, inv a = Some i ∧ mul a i = x01 ∧ i ≠ x00.
Proof.
  intros Ha. unfold inv. rewrite eqb_x00, bool_decide_eq_false_2 by done.
  eexists; split; [done|].
  pose proof (log_lt a).
  pose proof (Nat.mod_upper_bound (255 - log_at a) 255 ltac:(done)) as Hlt.
  pose proof (exp_nonzero _ Hlt) as Hne.
  split; [|done].
  unfold mul. rewrite !eqb_x00, !bool_decide_eq_false_2 by done. simpl orb. cbv iota.
  rewrite log_exp by done. rewrite Nat.Div0.add_mod_idemp_r.
  replace (log_at a + (255 - log_at a)) with (1 * 255) by lia.
  by rewrite Nat.Div0.mod_mul.
Qed.

(** XOR is its own subtraction, so the semiring is what [ring] needs. *)
Lemma gf_semiring : semi_ring_theory x00 x01 bxor mul (=).
Proof.
  split; intros.
  - apply bxor_0_l.
  - apply bxor_comm.
  - apply bxor_assoc.
  - apply mul_1_l.
  - apply mul_0_l.
  - apply mul_comm.
  - apply mul_assoc.
  - by rewrite (mul_comm (bxor _ _)), mul_add_r, !(mul_comm p).
Qed.

Add Ring gf_semiring_instance : gf_semiring.

(** ** The cached tables and the block routines *)

Lemma nth_tail_all_bytes (f : byte → byte) (b : byte) :
  b ≠ x00 → nth (b2n b) (x00 :: map f (tail all_bytes)) x00 = f b.
Proof.
  intros Hb. destruct (b2n b) as [|n] eqn:En.
  { destruct Hb. apply b2n_inj. by rewrite En. }
  pose proof (b2n_lt b). cbn [nth].
  rewrite (nth_indep _ _ (f x00)) by (rewrite length_map; cbn; lia).
  rewrite map_nth. f_equal. unfold all_bytes. rewrite <- (byte_of_to_N b).
  change (tail (map ?g (List.seq 0 256))) with (map g (List.seq 1 255)).
  rewrite (nth_indep _ _ (byte_of_N (N.of_nat 0))) by (rewrite length_map, length_seq; lia).
  rewrite (map_nth (λ i, byte_of_N (N.of_nat i))), seq_nth by lia.
  f_equal. unfold b2n in En. lia.
Qed.

Lemma mul_table_uncached_spec c b : tget (mul_table_uncached c) b = mul c b.
Proof.
  unfold mul_table_uncached, tget, mul. rewrite !eqb_x00.
  case_bool_decide as Hc; cbn [orb]; cbv iota.
  { rewrite nth_lookup, lookup_replicate_2 by apply b2n_lt. done. }
  case_bool_decide as Hb; cbv iota; [by subst b|].
  by rewrite (nth_tail_all_bytes (λ b, exp_at ((log_at c + log_at b) mod 255))).
Qed.

Lemma mul_table_cached c : mul_table c = mul_table_uncached c.
Proof.
  unfold mul_table, mul_tables. destruct (b2n c) as [|n] eqn:En.
  { assert (c = x00) as -> by (apply b2n_inj; done). done. }
  pose proof (b2n_lt c). cbn [nth].
  change (tail all_bytes) with (map (λ i, byte_of_N (N.of_nat i)) (List.seq 1 255)).
  rewrite map_map, (nth_indep _ _ (mul_table_uncached (byte_of_N (N.of_nat 0))))
    by (rewrite length_map, length_seq; lia).
  rewrite (map_nth (λ i, mul_table_uncached (byte_of_N (N.of_nat i)))), seq_nth by lia.
  f_equal. rewrite <- (byte_of_to_N c). f_equal. unfold b2n in En. lia.
Qed.

Lemma mul_table_spec c b : tget (mul_table c) b = mul c b.
Proof. by rewrite mul_table_cached, mul_table_uncached_spec. Qed.

Lemma length_mul_table c : length (mul_table c) = 256.
Proof. rewrite mul_table_cached. unfold mul_table_uncached. by case_match. Qed.

Lemma mul_xor_chunks_zip table d s :
  mul_xor_chunks table d s = zip_with (λ dv sv, bxor dv (tget table sv)) d s.
Proof.
  remember (length d) as n eqn:Hn. revert d s Hn.
  induction n as [n IH] using lt_wf_ind. intros d s ->.
  do 8 (destruct d as [|? d]; [done|]). do 8 (destruct s as [|? s]; [done|]).
  cbn [mul_xor_chunks zip_with]. do 8 f_equal. eapply IH; [|done]. cbn. lia.
Qed.

Lemma mul_xor_into_zip dst src coeff :
  mul_xor_into dst src coeff = zip_with (λ d s, bxor d (mul coeff s)) dst src ++ drop (length src) dst.
Proof.
  unfold mul_xor_into. cbv zeta. rewrite mul_xor_chunks_zip, zip_with_take_both' by lia. f_equal.
  - apply zip_with_ext; [|done|done]. intros. apply f_equal, mul_table_spec.
  - destruct (decide (length src ≤ length dst)).
    + by rewrite Nat.min_r.
    + rewrite Nat.min_l, !drop_ge by lia. done.
Qed.

(** ** Reference: the shift-and-add product modulo the field polynomial *)

Definition clmul (a b : byte) : byte :=
  foldr (λ i acc, bxor (if N.testbit (Byte.to_N b) (N.of_nat i) then Nat.iter i xtime a else x00) acc)
        x00 (seq 0 8).

Lemma mul_xtime a b : mul a (xtime b) = xtime (mul a b).
Proof.
  destruct (decide (a = x00)) as [->|Ha]; [done|]. rewrite !mul_iter by done.
  by rewrite <- Nat.iter_succ, Nat.iter_succ_r.
Qed.

Lemma clmul_one b : clmul x01 b = b.
Proof. apply byte_dec_bl. revert b. apply forall_bytes. vm_compute. reflexivity. Qed.

Lemma mul_clmul_one a b l :
  mul a (foldr (λ i acc, bxor (if N.testbit (Byte.to_N b) (N.of_nat i) then Nat.iter i xtime x01 else x00) acc)
               x00 l)
  = foldr (λ i acc, bxor (if N.testbit (Byte.to_N b) (N.of_nat i) then Nat.iter i xtime a else x00) acc)
          x00 l.
Proof.
  induction l as [|i l IH]; cbn [foldr]; [apply mul_0_r|].
  rewrite mul_add_r, IH. f_equal. case_match; [|apply mul_0_r].
  clear. induction i as [|i IH]; [by rewrite mul_comm, mul_1_l|].
  by rewrite !Nat.iter_succ, mul_xtime, IH.
Qed.

(** ** Properties *)

(** The table-driven [mul] is multiplication of polynomials over GF(2)
    modulo x^8+x^4+x^3+x^2+1: for all byte pairs it equals the bit-by-bit
    shift-and-add product that never looks at a log or exp table. *)
Theorem mul_is_polynomial_product a b : mul a b = clmul a b.
Proof. rewrite <- (clmul_one b) at 1. apply mul_clmul_one. Qed.

(** [mul], XOR, [inv] and [div] form a field on all 256 bytes: the ring
    laws hold, [inv] refuses exactly zero and otherwise returns the
    multiplicative inverse, and [div] undoes [mul]. *)
Theorem gf256_field :
  (∀ a b, mul a b = mul b a) ∧
  (∀ a b c, mul a (mul b c) = mul (mul a b) c) ∧
  (∀ a b c, mul a (bxor b c) = bxor (mul a b) (mul a c)) ∧
  (∀ a, mul x01 a = a) ∧
  (∀ a, inv a = None ↔ a = x00) ∧
  (∀ a i, inv a = Some i → mul a i = x01) ∧
  (∀ a b, b ≠ x00 → div (mul a b) b = Some a).
Proof.
  split_and!; [apply mul_comm|apply mul_assoc|apply mul_add_r|apply mul_1_l|..].
  - intros a. unfold inv. rewrite eqb_x00. by case_bool_decide.
  - intros a i Hi. destruct (decide (a = x00)) as [->|Ha]; [done|].
    destruct (inv_spec a Ha) as (j & Hj & ? & _). congruence.
  - intros a b Hb. unfold div. rewrite eqb_x00.
    destruct (inv_spec b Hb) as (j & Hj & Hbj & _). rewrite Hj.
    case_bool_decide as H0.
    + f_equal. rewrite <- (mul_1_l a), mul_comm, <- Hbj, mul_assoc, H0. done.
    + by rewrite <- mul_assoc, Hbj, mul_comm, mul_1_l.
Qed.

(** The 8-wide cached-table block routine [mul_xor_into] computes the
    scalar definition [dst[i] ^= coeff * src[i]] on the common prefix, leaves
    the rest of [dst] alone and keeps its length, for every coefficient and
    every pair of lengths. *)
Theorem mul_xor_into_scalar dst src coeff :
  mul_xor_into dst src coeff =
    zip_with (λ d s, bxor d (mul coeff s)) dst src ++ drop (length src) dst ∧
  length (mul_xor_into dst src coeff) = length dst.
Proof.
  rewrite mul_xor_into_zip. split; [done|]. rewrite length_app, length_zip_with, length_drop. lia.
Qed.
