(* ===== verification/Erasure.v ===== *)
(** * Reed-Solomon erasure coding ([pool/erasure.rs])

    [RsCode] over the GF(256) tables of [GF256]: the systematic
    Vandermonde-derived matrix, encoding, and reconstruction from any [k]
    surviving shards by Gauss-Jordan elimination.  Panics ([assert!],
    [expect], out-of-range indexing) are [None]. *)
From S2P Require Import Prelude GF256.
From Stdlib Require Import NArith Lia List Strings.Byte Ring.
From stdpp Require Import base list numbers option.

(** ** The code *)

Abbreviation matrix := (list (list byte)).

(** [a[r][c]] on in-range indices. *)
Definition mget (a : matrix) (r c : nat) : byte := nth c (nth r a []) x00.

(** [a.swap(i, j)]. *)
Definition swap_rows (a : matrix) (i j : nat) : matrix :=
  <[i := nth j a []]> (<[j := nth i a []]> a).

(** [for c in 0..k { dst[c] ^= t[src[c]] }]. *)
Definition sub_row (k : nat) (t dst src : list byte) : list byte :=
  imap (λ c d, if c <? k then bxor d (tget t (nth c src x00)) else d) dst.

(** [for (d, &s) in dst.iter_mut().zip(src) { *d ^= t[s] }]. *)
Fixpoint table_xor (t dst src : list byte) : list byte :=
  match dst, src with
  | d :: dst', s :: src' => bxor d (tget t s) :: table_xor t dst' src'
  | _, _ => dst
  end.

Section GaussJordan.
(** How a right-hand-side row absorbs a multiple of the pivot row: by index
    in [invert_gf256], by [zip] in [solve_gf256]. *)
Context (sub_b : list byte → list byte → list byte → list byte).

(** The inner [for r in 0..k] body. *)
Definition clear_row (k col : nat) (ab : matrix * matrix) (r : nat) : matrix * matrix :=
  let '(a, b) := ab in
  if (negb (r =? col) && negb (Byte.eqb (mget a r col) x00))%bool then
    let t := mul_table (mget a r col) in
    (<[r := sub_row k t (nth r a []) (nth col a [])]> a,
     <[r := sub_b t (nth r b []) (nth col b [])]> b)
  else (a, b).

Definition scale_pivot (col : nat) (s : byte) (ab : matrix * matrix) : matrix * matrix :=
  let '(a, b) := ab in
  if Byte.eqb s x01 then (a, b)
  else
    let t := mul_table s in
    (<[col := map (tget t) (nth col a [])]> a, <[col := map (tget t) (nth col b [])]> b).

(** One column: find the pivot, swap, scale, clear. *)
Definition gj_col (k : nat) (ab : matrix * matrix) (col : nat) : option (matrix * matrix) :=
  let '(a, b) := ab in
  match find (λ r, negb (Byte.eqb (mget a r col) x00)) (List.seq col (k - col)) with
  | None => None
  | Some pivot =>
      let a := swap_rows a col pivot in
      let b := swap_rows b col pivot in
      match inv (mget a col col) with
      | None => None
      | Some s => Some (fold_left (clear_row k col) (List.seq 0 k) (scale_pivot col s (a, b)))
      end
  end.

Fixpoint gj_cols (k : nat) (ab : matrix * matrix) (cols : list nat) : option (matrix * matrix) :=
  match cols with
  | [] => Some ab
  | col :: cols' =>
      match gj_col k ab col with
      | None => None
      | Some ab' => gj_cols k ab' cols'
      end
  end.
End GaussJordan.

Definition identity (k : nat) : matrix :=
  map (λ i, map (λ j, if i =? j then x01 else x00) (List.seq 0 k)) (List.seq 0 k).

Definition invert_gf256 (m : matrix) (k : nat) : option matrix :=
  snd <$> gj_cols (sub_row k) k (m, identity k) (List.seq 0 k).

Definition solve_gf256 (a b : matrix) (k : nat) : option matrix :=
  snd <$> gj_cols table_xor k (a, b) (List.seq 0 k).

Definition mat_mul (a b : matrix) (n p q : nat) : matrix :=
  map (λ i, map (λ j,
    fold_left (λ acc t, bxor acc (mul (mget a i t) (mget b t j))) (List.seq 0 p) x00)
    (List.seq 0 q)) (List.seq 0 n).

Definition vandermonde (n k : nat) : matrix :=
  map (λ r, let x := byte_of_N (N.of_nat (r + 1)) in
    map (λ c, fold_left (λ acc _, mul acc x) (List.seq 0 c) x01) (List.seq 0 k)) (List.seq 0 n).

Definition build_encoding_matrix (n k : nat) : option matrix :=
  let v := vandermonde n k in
  match invert_gf256 (take k v) k with
  | None => None
  | Some top_inv => Some (mat_mul v top_inv n k k)
  end.

Record RsCode := mkRs { rs_n : nat; rs_k : nat; rs_matrix : matrix }.

Definition rs_new (n k : nat) : option RsCode :=
  if ((0 <? k) && (k <? n) && (n <=? 255))%bool then
    mkRs n k <$> build_encoding_matrix n k
  else None.

Definition parity (c : RsCode) : nat := rs_n c - rs_k c.
Definition tolerates (c : RsCode) : nat := parity c.

(** The parity accumulation loop shared by [encode] and [reconstruct]. *)
Definition parity_row (len : nat) (row : list byte) (data : matrix) : list byte :=
  fold_left (λ p '(coeff, d), if Byte.eqb coeff x00 then p else table_xor (mul_table coeff) p d)
            (zip row data) (replicate len x00).

Definition same_len (len : nat) (s : list byte) : bool := length s =? len.

Definition encode (c : RsCode) (data_shards : matrix) : option matrix :=
  if negb (length data_shards =? rs_k c) then None
  else
    let len := length (nth 0 data_shards []) in
    if negb (forallb (same_len len) data_shards) then None
    else Some (imap (λ r row, if r <? rs_k c then nth r data_shards []
                              else parity_row len row data_shards) (rs_matrix c)).

Definition reconstruct (c : RsCode) (surviving : list (nat * list byte)) : option matrix :=
  if length surviving <? rs_k c then None
  else
    let len := length (nth 0 surviving (0, [])).2 in
    if negb (forallb (λ s, same_len len s.2) surviving) then None
    else
      let picked := take (rs_k c) surviving in
      a ← mapM (λ s, rs_matrix c !! s.1) picked;
      let a := map (take (rs_k c)) a in
      let b := map snd picked in
      data ← solve_gf256 a b (rs_k c);
      Some (take (rs_k c) data ++
            map (λ r, parity_row len (take (rs_k c) (nth r (rs_matrix c) [])) data)
                (List.seq (rs_k c) (rs_n c - rs_k c))).

Example rs_run :
  (c ← rs_new 5 3; e ← encode c [[x01;x02];[x30;x04];[xff;x77]];
   reconstruct c [(4, nth 4 e []); (1, nth 1 e []); (3, nth 3 e [])])
  = (c ← rs_new 5 3; encode c [[x01;x02];[x30;x04];[xff;x77]]).
Proof. vm_compute. reflexivity. Qed.

(** ** Vectors over GF(256) *)

Definition zeros (L : nat) : list byte := replicate L x00.
Definition vadd : list byte → list byte → list byte := zip_with bxor.
Definition vscale (c : byte) : list byte → list byte := map (mul c).

(** The linear combination of the rows of [X] with the coefficients [row]. *)
Fixpoint lincomb (L : nat) (row : list byte) (X : matrix) : list byte :=
  match row, X with
  | c :: row', x :: X' => vadd (vscale c x) (lincomb L row' X')
  | _, _ => zeros L
  end.

(** [wf_mat n L X]: [n] rows of length [L]. *)
Definition wf_mat (n L : nat) (X : matrix) : Prop :=
  length X = n ∧ Forall (λ r, length r = L) X.

Lemma length_vadd u v : length u = length v → length (vadd u v) = length u.
Proof. intros. unfold vadd. rewrite length_zip_with. lia. Qed.
Lemma length_vscale c v : length (vscale c v) = length v.
Proof. apply length_map. Qed.
Lemma length_zeros L : length (zeros L) = L.
Proof. apply length_replicate. Qed.

Lemma vadd_comm u v : vadd u v = vadd v u.
Proof. revert v. induction u as [|a u IH]; intros [|b v]; cbn; [done..|]. f_equal; [ring|apply IH]. Qed.
Lemma vadd_assoc u v w : vadd u (vadd v w) = vadd (vadd u v) w.
Proof.
  revert v w. induction u as [|a u IH]; intros [|b v] [|c w]; cbn; try done.
  f_equal; [ring|apply IH].
Qed.
Lemma vadd_nilpotent v : vadd v v = zeros (length v).
Proof. induction v as [|a v IH]; cbn; [done|]. f_equal; [apply bxor_nilpotent|apply IH]. Qed.
Lemma vadd_0_l L v : length v = L → vadd (zeros L) v = v.
Proof.
  intros <-. induction v as [|a v IH]; cbn; [done|]. f_equal; [ring|apply IH].
Qed.
Lemma vadd_0_r L v : length v = L → vadd v (zeros L) = v.
Proof. rewrite vadd_comm. apply vadd_0_l. Qed.
Lemma vscale_vadd c u v : vscale c (vadd u v) = vadd (vscale c u) (vscale c v).
Proof. revert v. induction u as [|a u IH]; intros [|b v]; cbn; [done..|]. f_equal; [ring|apply IH]. Qed.
Lemma vscale_add c d v : vscale (bxor c d) v = vadd (vscale c v) (vscale d v).
Proof. induction v as [|a v IH]; cbn; [done|]. f_equal; [ring|apply IH]. Qed.
Lemma vscale_mul c d v : vscale c (vscale d v) = vscale (mul c d) v.
Proof. induction v as [|a v IH]; cbn; [done|]. f_equal; [ring|apply IH]. Qed.
Lemma vscale_1 v : vscale x01 v = v.
Proof. induction v as [|a v IH]; cbn [vscale map]; [done|]. f_equal; [ring|apply IH]. Qed.
Lemma vscale_0 v : vscale x00 v = zeros (length v).
Proof. induction v as [|a v IH]; cbn; [done|]. f_equal. apply IH. Qed.
Lemma vscale_zeros c L : vscale c (zeros L) = zeros L.
Proof. unfold vscale, zeros. induction L as [|L IH]; cbn; [done|]. by rewrite IH, mul_0_r. Qed.
Lemma vadd_cancel u v : length u = length v → vadd (vadd u v) v = u.
Proof.
  intros H. rewrite <- vadd_assoc, vadd_nilpotent. apply vadd_0_r. done.
Qed.
Lemma vadd_shuffle a b c d : vadd (vadd a b) (vadd c d) = vadd (vadd a c) (vadd b d).
Proof. by rewrite !vadd_assoc, <- (vadd_assoc a b c), (vadd_comm b c), vadd_assoc. Qed.

Lemma length_lincomb L row X : Forall (λ r, length r = L) X → length (lincomb L row X) = L.
Proof.
  intros HX. revert row. induction HX as [|x X Hx HX IH]; intros [|c row]; cbn;
    try apply length_zeros.
  rewrite length_vadd; rewrite length_vscale; [done|]. by rewrite IH.
Qed.

Lemma lincomb_vadd L r1 r2 X :
  length r1 = length r2 → Forall (λ r, length r = L) X →
  lincomb L (vadd r1 r2) X = vadd (lincomb L r1 X) (lincomb L r2 X).
Proof.
  intros Hlen HX. revert r1 r2 Hlen. induction HX as [|x X Hx HX IH]; intros [|c r1] [|d r2] [=];
    cbn; try (by rewrite vadd_0_l by apply length_zeros).
  rewrite vscale_add, IH by done. apply vadd_shuffle.
Qed.

Lemma lincomb_vscale L c row X : lincomb L (vscale c row) X = vscale c (lincomb L row X).
Proof.
  revert X. induction row as [|d row IH]; intros [|x X]; cbn; try by rewrite vscale_zeros.
  by rewrite vscale_vadd, vscale_mul, <- IH.
Qed.

Lemma lincomb_zero_row L n X : Forall (λ r, length r = L) X → lincomb L (zeros n) X = zeros L.
Proof.
  intros HX. revert n. induction HX as [|x X Hx HX IH]; intros [|n]; try done.
  change (zeros (S n)) with (x00 :: zeros n). cbn [lincomb].
  rewrite vscale_0, Hx. rewrite vadd_0_l; [apply IH|]. by apply length_lincomb.
Qed.

Lemma lincomb_zero_cols L row n : lincomb L row (replicate n (zeros L)) = zeros L.
Proof.
  revert n. induction row as [|c row IH]; intros [|n]; cbn; try done.
  rewrite vscale_zeros. rewrite IH. apply vadd_0_l, length_zeros.
Qed.

(** Associativity: combining combined rows. *)
Lemma lincomb_assoc L m row T X :
  Forall (λ t, length t = m) T → length X = m → Forall (λ r, length r = L) X →
  lincomb L (lincomb m row T) X = lincomb L row (map (λ t, lincomb L t X) T).
Proof.
  intros HT Hm HX. revert row. induction HT as [|t T Ht HT IH]; intros [|c row]; cbn;
    try by apply lincomb_zero_row.
  rewrite lincomb_vadd, lincomb_vscale, IH; [done| |done].
  by rewrite length_vscale, length_lincomb.
Qed.

Lemma lincomb_app L r1 r2 X1 X2 :
  length r1 = length X1 → Forall (λ r, length r = L) (X1 ++ X2) →
  lincomb L (r1 ++ r2) (X1 ++ X2) = vadd (lincomb L r1 X1) (lincomb L r2 X2).
Proof.
  intros Hlen HX. revert r1 Hlen. induction X1 as [|x X1 IH]; intros [|c r1] [=]; cbn.
  - rewrite vadd_0_l; [done|]. by apply length_lincomb.
  - cbn in HX. apply Forall_cons_iff in HX as [? ?]. by rewrite IH, vadd_assoc.
Qed.

Definition unit_row (k i : nat) : list byte :=
  map (λ j, if i =? j then x01 else x00) (List.seq 0 k).

Lemma lincomb_unit_gen L i s X :
  Forall (λ r, length r = L) X → i < length X →
  lincomb L (map (λ j, if s + i =? j then x01 else x00) (List.seq s (length X))) X = nth i X [].
Proof.
  revert i s. induction X as [|x X IH]; intros i s HX Hi; [cbn in Hi; lia|].
  apply Forall_cons_iff in HX as [Hx HX]. cbn [length List.seq map lincomb nth].
  destruct i as [|i].
  - rewrite Nat.add_0_r, Nat.eqb_refl, vscale_1.
    replace (map _ (List.seq (S s) (length X))) with (zeros (length X)).
    { rewrite lincomb_zero_row by done. by apply vadd_0_r. }
    clear. unfold zeros.
    assert (∀ m, s < m → replicate (length X) x00 =
      map (λ j, if s =? j then x01 else x00) (List.seq m (length X))) as H; [|apply H; lia].
    induction (length X) as [|n IH]; intros m Hm; cbn; [done|].
    rewrite (proj2 (Nat.eqb_neq s m)) by lia. f_equal. apply IH. lia.
  - rewrite (proj2 (Nat.eqb_neq (s + S i) s)) by lia. rewrite vscale_0, Hx.
    rewrite vadd_0_l by by apply length_lincomb.
    rewrite <- (IH i (S s)) by (done || cbn in Hi; lia). f_equal.
    apply map_ext. intros j. by replace (s + S i) with (S s + i) by lia.
Qed.

Lemma length_unit_row k i : length (unit_row k i) = k.
Proof. unfold unit_row. by rewrite length_map, length_seq. Qed.

Lemma nth_unit_row k i j : j < k → nth j (unit_row k i) x00 = if i =? j then x01 else x00.
Proof.
  intros Hj. unfold unit_row.
  rewrite (nth_indep _ x00 ((λ j, if i =? j then x01 else x00) 0))
    by (rewrite length_map, length_seq; lia).
  by rewrite (map_nth (λ j, if i =? j then x01 else x00)), seq_nth by lia.
Qed.

Lemma unit_row_out k i : k ≤ i → unit_row k i = zeros k.
Proof.
  intros Hi. apply (nth_ext _ _ x00 x00); rewrite length_unit_row; [by rewrite length_zeros|].
  intros j Hj. rewrite nth_unit_row, (proj2 (Nat.eqb_neq _ _)) by lia.
  unfold zeros. by rewrite nth_lookup, lookup_replicate_2.
Qed.

Lemma lincomb_unit L k i X : wf_mat k L X → i < k → lincomb L (unit_row k i) X = nth i X [].
Proof. intros [<- HX] Hi. unfold unit_row. by apply (lincomb_unit_gen L i 0). Qed.

(** ** Elementary row operations *)

Inductive eop :=
  | ESwap (i j : nat)
  | EScale (i : nat) (c : byte)
  | EAdd (r col : nat) (f : byte).

Definition run_op (m : matrix) (o : eop) : matrix :=
  match o with
  | ESwap i j => swap_rows m i j
  | EScale i c => <[i := vscale c (nth i m [])]> m
  | EAdd r col f => <[r := vadd (nth r m []) (vscale f (nth col m []))]> m
  end.

Definition valid_op (k : nat) (o : eop) : Prop :=
  match o with
  | ESwap i j => i < k ∧ j < k
  | EScale i c => i < k ∧ c ≠ x00
  | EAdd r col f => r < k ∧ col < k ∧ r ≠ col
  end.

Definition run_ops (m : matrix) (ops : list eop) : matrix := fold_left run_op ops m.

(** [solves L a X b]: row by row, [a * X = b]. *)
Definition solves (L : nat) (a X b : matrix) : Prop :=
  Forall2 (λ row r, lincomb L row X = r) a b.

Lemma nth_lookup_row (m : matrix) i : i < length m → m !! i = Some (nth i m []).
Proof.
  intros Hi. rewrite nth_lookup. destruct (lookup_lt_is_Some_2 m i Hi) as [x Hx].
  by rewrite Hx.
Qed.

Lemma Forall_nth_row (P : list byte → Prop) m i : Forall P m → i < length m → P (nth i m []).
Proof. intros HP Hi. eapply Forall_lookup_1; [exact HP|]. by apply nth_lookup_row. Qed.

Lemma wf_nth n L X i : wf_mat n L X → i < n → length (nth i X []) = L.
Proof. intros [<- HX] Hi. by apply (Forall_nth_row (λ r, length r = L)). Qed.

Lemma wf_insert n L X i r : wf_mat n L X → length r = L → wf_mat n L (<[i := r]> X).
Proof.
  intros [Hl HX] Hr. split; [by rewrite length_insert|]. by apply Forall_insert.
Qed.

Lemma run_op_wf k L m o : wf_mat k L m → valid_op k o → wf_mat k L (run_op m o).
Proof.
  intros Hm Ho. destruct o as [i j|i c|r col f]; cbn in *.
  - destruct Ho. unfold swap_rows. apply wf_insert; [apply wf_insert|]; eauto using wf_nth.
  - destruct Ho. apply wf_insert; [done|]. rewrite length_vscale. eauto using wf_nth.
  - destruct Ho as (?&?&?). apply wf_insert; [done|].
    rewrite length_vadd; rewrite ?length_vscale; [eauto using wf_nth|].
    by erewrite !wf_nth by eauto.
Qed.

Lemma solves_nth L a X b i :
  solves L a X b → i < length a → lincomb L (nth i a []) X = nth i b [].
Proof.
  intros H Hi. pose proof (Forall2_length H) as Hl.
  eapply (Forall2_lookup_lr _ a b i) in H; [exact H|by apply nth_lookup_row|].
  apply nth_lookup_row. lia.
Qed.

Lemma solves_insert L a X b i row r :
  solves L a X b → lincomb L row X = r → solves L (<[i := row]> a) X (<[i := r]> b).
Proof. intros H Hr. by apply Forall2_insert. Qed.

Lemma run_op_solves k L n a X b o :
  wf_mat k n a → wf_mat n L X → valid_op k o → solves L a X b →
  solves L (run_op a o) X (run_op b o).
Proof.
  intros Ha HX Ho H. destruct Ha as [Hk Ha].
  destruct o as [i j|i c|r col f]; cbn in *.
  - destruct Ho. unfold swap_rows.
    apply solves_insert; [apply solves_insert; [done|]|]; apply solves_nth; by subst.
  - destruct Ho. apply solves_insert; [done|]. rewrite lincomb_vscale. f_equal.
    apply solves_nth; by subst.
  - destruct Ho as (?&?&?). apply solves_insert; [done|].
    rewrite lincomb_vadd; [|rewrite length_vscale; by erewrite !wf_nth by (done || lia)|apply HX].
    rewrite lincomb_vscale. by rewrite !(solves_nth L a X b) by (done || lia).
Qed.

(** Every valid operation is undone by another valid one. *)
Definition undo (o : eop) : eop :=
  match o with
  | ESwap i j => ESwap i j
  | EScale i c => EScale i (default x00 (inv c))
  | EAdd r col f => EAdd r col f
  end.

Lemma undo_valid k o : valid_op k o → valid_op k (undo o).
Proof.
  destruct o; cbn; try done. intros [? Hc]. split; [done|].
  destruct (inv_spec c Hc) as (d & -> & _ & ?). done.
Qed.

Lemma nth_insert_eq (m : matrix) i x : i < length m → nth i (<[i := x]> m) [] = x.
Proof. intros. by rewrite nth_lookup, list_lookup_insert_eq. Qed.
Lemma nth_insert_ne (m : matrix) i j x : i ≠ j → nth j (<[i := x]> m) [] = nth j m [].
Proof. intros. by rewrite !nth_lookup, list_lookup_insert_ne. Qed.
Lemma insert_nth_id (m : matrix) i : i < length m → <[i := nth i m []]> m = m.
Proof. intros. apply list_insert_id. by apply nth_lookup_row. Qed.

Lemma swap_rows_nth (m : matrix) i j l :
  i < length m → j < length m →
  nth l (swap_rows m i j) [] =
    if decide (l = i) then nth j m [] else if decide (l = j) then nth i m [] else nth l m [].
Proof.
  intros Hi Hj. unfold swap_rows. case_decide as Hl; [subst l|].
  - rewrite nth_insert_eq; [done|]. by rewrite length_insert.
  - rewrite nth_insert_ne by done. case_decide; [subst l; by rewrite nth_insert_eq|].
    by rewrite nth_insert_ne.
Qed.

Lemma matrix_eq (a b : matrix) :
  length a = length b → (∀ i, i < length a → nth i a [] = nth i b []) → a = b.
Proof. intros Hl H. by apply (nth_ext _ _ [] []). Qed.

Lemma undo_op k L m o : wf_mat k L m → valid_op k o → run_op (run_op m o) (undo o) = m.
Proof.
  intros Hm Ho. pose proof Hm as [Hk HL]. destruct o as [i j|i c|r col f]; cbn in *.
  - destruct Ho. apply matrix_eq; unfold swap_rows at 1; rewrite ?length_insert.
    { unfold swap_rows. by rewrite !length_insert. }
    unfold swap_rows at 1. rewrite !length_insert. intros l Hl.
    assert (length (swap_rows m i j) = length m) as Hs
      by (unfold swap_rows; by rewrite !length_insert).
    change (<[i := _]> (<[j := _]> (swap_rows m i j))) with (swap_rows (swap_rows m i j) i j).
    rewrite swap_rows_nth, !swap_rows_nth by lia.
    repeat case_decide; congruence.
  - destruct Ho as [? Hc]. rewrite nth_insert_eq, list_insert_insert_eq by lia.
    destruct (inv_spec c Hc) as (d & -> & Hd & _). change (default x00 (Some d)) with d.
    rewrite vscale_mul, mul_comm, Hd, vscale_1. apply insert_nth_id. lia.
  - destruct Ho as (?&?&?).
    rewrite nth_insert_eq, nth_insert_ne, list_insert_insert_eq by lia.
    rewrite vadd_cancel; [apply insert_nth_id; lia|].
    rewrite length_vscale. by erewrite !wf_nth by done.
Qed.

Lemma run_ops_wf k L m ops : wf_mat k L m → Forall (valid_op k) ops → wf_mat k L (run_ops m ops).
Proof.
  intros Hm Hops. revert m Hm. induction Hops as [|o ops Ho Hops IH]; intros m Hm; [done|].
  cbn. apply IH. by apply run_op_wf.
Qed.

Lemma run_ops_solves k L n a X b ops :
  wf_mat k n a → wf_mat n L X → wf_mat k L b → Forall (valid_op k) ops →
  solves L a X b ↔ solves L (run_ops a ops) X (run_ops b ops).
Proof.
  intros Ha HX Hb Hops. revert a b Ha Hb. induction Hops as [|o ops Ho Hops IH]; intros a b Ha Hb; [done|].
  cbn. rewrite <- (IH (run_op a o) (run_op b o)) by eauto using run_op_wf.
  split; intros H; [by eapply run_op_solves|].
  eapply (run_op_solves k L n) in H; [|by eauto using run_op_wf|done|by apply undo_valid].
  by erewrite !undo_op in H by done.
Qed.

(** ** Gauss-Jordan as a sequence of elementary operations *)

Lemma nth_vadd u v j : length u = length v → nth j (vadd u v) x00 = bxor (nth j u x00) (nth j v x00).
Proof.
  revert u v. induction j as [|j IH]; intros [|a u] [|b v] [=]; cbn; try done. by apply IH.
Qed.
Lemma nth_vscale c v j : nth j (vscale c v) x00 = mul c (nth j v x00).
Proof.
  revert v. induction j as [|j IH]; intros [|a v]; cbn; rewrite ?mul_0_r; done.
Qed.

Lemma map_tget_table f v : map (tget (mul_table f)) v = vscale f v.
Proof. apply map_ext. intros. apply mul_table_spec. Qed.

Lemma table_xor_vadd f dst src :
  length dst = length src → table_xor (mul_table f) dst src = vadd dst (vscale f src).
Proof.
  unfold vadd, vscale. revert src.
  induction dst as [|d dst IH]; intros [|s src] [=]; cbn [table_xor zip_with map]; [done|].
  rewrite mul_table_spec. f_equal. by apply IH.
Qed.

Lemma sub_row_vadd k f dst src :
  length dst = k → length src = k → sub_row k (mul_table f) dst src = vadd dst (vscale f src).
Proof.
  intros Hd Hs. apply (nth_ext _ _ x00 x00).
  { unfold sub_row. rewrite length_imap, length_vadd; rewrite ?length_vscale; lia. }
  unfold sub_row. rewrite length_imap. intros j Hj.
  rewrite nth_vadd, nth_vscale by (rewrite length_vscale; lia).
  rewrite nth_lookup, list_lookup_imap.
  destruct (lookup_lt_is_Some_2 dst j Hj) as [x Hx]. rewrite Hx.
  cbn [fmap option_fmap option_map default from_option].
  rewrite (proj2 (Nat.ltb_lt j k)) by lia. rewrite mul_table_spec.
  by rewrite (nth_lookup dst), Hx.
Qed.

(** The first [c] columns of [a] are those of the identity. *)
Definition unit_upto (k c : nat) (a : matrix) : Prop :=
  ∀ r j, r < k → j < c → mget a r j = if r =? j then x01 else x00.

Section GaussJordanProofs.
Context (k L : nat) (sub_b : list byte → list byte → list byte → list byte).
Context (sub_b_spec : ∀ f dst src, length dst = L → length src = L →
           sub_b (mul_table f) dst src = vadd dst (vscale f src)).

Lemma clear_row_op a b col r :
  wf_mat k k a → wf_mat k L b → col < k → r < k →
  ∃ ops, Forall (valid_op k) ops ∧
    clear_row sub_b k col (a, b) r = (run_ops a ops, run_ops b ops) ∧
    (ops = [] ∧ (r = col ∨ mget a r col = x00) ∨
     ops = [EAdd r col (mget a r col)] ∧ r ≠ col).
Proof.
  intros Ha Hb Hcol Hr. unfold clear_row. rewrite eqb_x00.
  destruct (Nat.eqb_spec r col) as [->|Hne]; cbn [negb andb].
  { exists []. split_and!; [done..|]. left. auto. }
  case_bool_decide as H0; cbn [negb].
  { exists []. split_and!; [done..|]. left. auto. }
  eexists [EAdd r col (mget a r col)]. split_and!; [by repeat constructor| |by right].
  cbn [run_ops run_op fold_left].
  by rewrite sub_row_vadd, sub_b_spec by (eapply wf_nth; done).
Qed.

Lemma clear_row_effect a r col f :
  wf_mat k k a → col < k → r < k → r ≠ col → mget a col col = x01 →
  let a' := run_op a (EAdd r col f) in
  nth col a' [] = nth col a [] ∧
  mget a' r col = bxor (mget a r col) f ∧
  (∀ r' j, r' ≠ r → mget a' r' j = mget a r' j) ∧
  (∀ r' j, mget a col j = x00 → mget a' r' j = mget a r' j).
Proof.
  intros Ha Hcol Hr Hne H1. pose proof Ha as [Hk _]. cbn [run_op]; cbv zeta.
  assert (∀ j, mget (<[r := vadd (nth r a []) (vscale f (nth col a []))]> a) r j
               = bxor (mget a r j) (mul f (mget a col j))) as Hrow.
  { intros j. unfold mget. rewrite nth_insert_eq by lia.
    rewrite nth_vadd, nth_vscale; [done|]. rewrite length_vscale. by erewrite !wf_nth by done. }
  assert (∀ r' j, r' ≠ r → mget (<[r := vadd (nth r a []) (vscale f (nth col a []))]> a) r' j
               = mget a r' j) as Hoth.
  { intros. unfold mget. by rewrite nth_insert_ne. }
  split_and!; [by rewrite nth_insert_ne| |done|].
  - rewrite Hrow, H1. by rewrite (mul_comm f), mul_1_l.
  - intros r' j Hj. destruct (decide (r' = r)) as [->|]; [|by apply Hoth].
    by rewrite Hrow, Hj, mul_0_r, bxor_0_r.
Qed.

Lemma clear_fold col rs a b a' b' :
  wf_mat k k a → wf_mat k L b → col < k → Forall (λ r, r < k) rs → mget a col col = x01 →
  fold_left (clear_row sub_b k col) rs (a, b) = (a', b') →
  ∃ ops, Forall (valid_op k) ops ∧ a' = run_ops a ops ∧ b' = run_ops b ops ∧
    nth col a' [] = nth col a [] ∧
    (∀ r, r ≠ col → r ∈ rs ∨ mget a r col = x00 → mget a' r col = x00) ∧
    (∀ r j, mget a col j = x00 → mget a' r j = mget a r j).
Proof.
  intros Ha Hb Hcol Hrs. revert a b Ha Hb. induction Hrs as [|r rs Hr Hrs IH]; intros a b Ha Hb H1 E.
  { injection E as <- <-. exists []. split_and!; [done|done|done|done| |done].
    intros r Hr [Hin|]; [|done].
    by apply not_elem_of_nil in Hin. }
  destruct (clear_row_op a b col r) as (ops1 & Hops1 & E1 & Hcase); [done..|].
  cbn [fold_left] in E. rewrite E1 in E.
  assert (nth col (run_ops a ops1) [] = nth col a [] ∧
          (r ≠ col → mget (run_ops a ops1) r col = x00) ∧
          (∀ r', mget a r' col = x00 → r' ≠ col → mget (run_ops a ops1) r' col = x00) ∧
          (∀ r' j, mget a col j = x00 → mget (run_ops a ops1) r' j = mget a r' j))
    as (Hn & Hz & Hk0 & Hj).
  { destruct Hcase as [[-> Hc]|[-> Hne]].
    { split_and!; [done| |done|done]. intros. by destruct Hc. }
    destruct (clear_row_effect a r col (mget a r col)) as (?&Hz&Ho&?); [done..|].
    cbn [run_ops fold_left]. split_and!; [done| | |done].
    - intros _. by rewrite Hz, bxor_nilpotent.
    - intros r' Hr' _. destruct (decide (r' = r)) as [->|]; [by rewrite Hz, bxor_nilpotent|].
      by rewrite Ho. }
  destruct (IH (run_ops a ops1) (run_ops b ops1)) as (ops2 & Hops2 & -> & -> & Hn2 & Hz2 & Hj2);
    [by apply run_ops_wf..| |done|].
  { unfold mget. by rewrite Hn. }
  exists (ops1 ++ ops2). unfold run_ops in *. rewrite !fold_left_app.
  split_and!; [by apply Forall_app|done|done|congruence| |].
  - intros r' Hne Hr'. apply Hz2; [done|]. destruct Hr' as [[->|Hin]%elem_of_cons|H0]; auto.
  - intros r' j Hz'. rewrite Hj2, Hj; [done|done|]. unfold mget in *. by rewrite Hn.
Qed.

Lemma scale_pivot_op a b col s :
  wf_mat k k a → wf_mat k L b → col < k → s ≠ x00 →
  ∃ ops, Forall (valid_op k) ops ∧
    scale_pivot col s (a, b) = (run_ops a ops, run_ops b ops) ∧
    (∀ r j, mget (run_ops a ops) r j = if r =? col then mul s (mget a r j) else mget a r j).
Proof.
  intros Ha Hb Hcol Hs. unfold scale_pivot.
  destruct (Byte.eqb s x01) eqn:E1.
  { apply byte_dec_bl in E1 as ->. exists []. split_and!; [done..|].
    intros. cbn. case_match; [|done]. by rewrite mul_1_l. }
  exists [EScale col s]. split_and!; [by repeat constructor|by rewrite !map_tget_table|].
  intros r j. cbn [run_ops run_op fold_left]. unfold mget. destruct Ha as [Hk _].
  destruct (Nat.eqb_spec r col) as [->|].
  - rewrite nth_insert_eq by lia. apply nth_vscale.
  - by rewrite nth_insert_ne.
Qed.

Lemma gj_col_spec col a b a' b' :
  wf_mat k k a → wf_mat k L b → col < k → unit_upto k col a →
  gj_col sub_b k (a, b) col = Some (a', b') →
  ∃ ops, Forall (valid_op k) ops ∧ a' = run_ops a ops ∧ b' = run_ops b ops ∧
    unit_upto k (S col) a'.
Proof.
  intros Ha Hb Hcol Hu E. unfold gj_col in E.
  destruct (find _ _) as [pivot|] eqn:Hf; [|done].
  apply find_some in Hf as [Hin Hp]. apply in_seq in Hin.
  set (a1 := swap_rows a col pivot) in *. set (b1 := swap_rows b col pivot) in *.
  destruct (inv (mget a1 col col)) as [s|] eqn:Es; [|done].
  assert (wf_mat k k a1) as Ha1 by (apply (run_op_wf k k a (ESwap col pivot)); [done|cbn; lia]).
  assert (wf_mat k L b1) as Hb1 by (apply (run_op_wf k L b (ESwap col pivot)); [done|cbn; lia]).
  assert (mget a1 col col ≠ x00) as Hne by (intros Hz; rewrite Hz in Es; done).
  destruct (inv_spec _ Hne) as (s' & Es' & Hs1 & Hs0).
  assert (s' = s) as -> by congruence.
  destruct (scale_pivot_op a1 b1 col s) as (ops2 & Hops2 & E2 & Hm2); [done..|].
  assert (∀ r j, r < k → j < col → mget a1 r j = if r =? j then x01 else x00) as Hu1.
  { intros r j Hr Hj. unfold a1, mget. rewrite swap_rows_nth by (destruct Ha; lia).
    pose proof (Hu col j ltac:(lia) Hj) as Hc. pose proof (Hu pivot j ltac:(lia) Hj) as Hq.
    pose proof (Hu r j ltac:(lia) Hj) as Hr'. unfold mget in *.
    repeat case_decide; subst; rewrite ?Hc, ?Hq, ?Hr';
      repeat case_match; repeat match goal with H : (_ =? _) = _ |- _ =>
        first [apply Nat.eqb_eq in H | apply Nat.eqb_neq in H] end; (lia || done). }
  rewrite E2 in E. destruct (fold_left _ _ _) as [a3 b3] eqn:E3.
  injection E as <- <-.
  destruct (clear_fold col (List.seq 0 k) (run_ops a1 ops2) (run_ops b1 ops2) a3 b3)
    as (ops3 & Hops3 & -> & -> & Hn3 & Hz3 & Hj3); [by apply run_ops_wf..|done| | |done|].
  { apply Forall_forall. intros r Hr. apply in_seq in Hr. lia. }
  { rewrite Hm2, Nat.eqb_refl, mul_comm. exact Hs1. }
  exists (ESwap col pivot :: ops2 ++ ops3). unfold run_ops in *.
  cbn [fold_left]. rewrite !fold_left_app.
  split_and!; [|done|done|].
  { constructor; [cbn; lia|]. by apply Forall_app. }
  intros r j Hr Hj. destruct (decide (j = col)) as [->|Hjc].
  - destruct (Nat.eqb_spec r col) as [->|Hrc].
    + unfold mget. rewrite Hn3. change (nth col (nth col ?m []) x00) with (mget m col col).
      rewrite Hm2, Nat.eqb_refl, mul_comm. exact Hs1.
    + apply Hz3; [done|]. left. apply list_elem_of_In, in_seq. lia.
  - rewrite Hj3.
    + rewrite Hm2, Hu1 by lia. case_match eqn:Er; [|done].
      apply Nat.eqb_eq in Er as ->. rewrite (proj2 (Nat.eqb_neq col j)) by lia. apply mul_0_r.
    + rewrite Hm2, Nat.eqb_refl, Hu1 by lia.
      rewrite (proj2 (Nat.eqb_neq col j)) by lia. apply mul_0_r.
Qed.

(** No nonzero vector is mapped to zero. *)
Definition trivial_kernel (a : matrix) : Prop :=
  ∀ v, wf_mat k 1 v → solves 1 a v (replicate k (zeros 1)) → v = replicate k (zeros 1).

Lemma run_ops_zeros n ops :
  Forall (valid_op k) ops → run_ops (replicate k (zeros n)) ops = replicate k (zeros n).
Proof.
  assert (∀ i, i < k → nth i (replicate k (zeros n)) [] = zeros n) as Hn.
  { intros i Hi. by rewrite nth_lookup, lookup_replicate_2. }
  assert (∀ i, i < k → <[i := zeros n]> (replicate k (zeros n)) = replicate k (zeros n)) as Hi.
  { intros i Hi. apply list_insert_id. by apply lookup_replicate_2. }
  induction 1 as [|o ops Ho Hops IH]; [done|]. cbn.
  replace (run_op (replicate k (zeros n)) o) with (replicate k (zeros n)); [done|].
  destruct o as [i j|i c|r col f]; cbn in *; unfold swap_rows.
  - destruct Ho. by rewrite !Hn, !Hi by done.
  - destruct Ho. by rewrite !Hn, vscale_zeros, Hi by done.
  - destruct Ho as (?&?&?). rewrite !Hn, vscale_zeros, vadd_0_l, Hi by (done || apply length_zeros). done.
Qed.

Lemma wf_zeros n m : wf_mat n m (replicate n (zeros m)).
Proof. split; [apply length_replicate|]. apply Forall_replicate, length_zeros. Qed.

Lemma trivial_kernel_ops a ops :
  wf_mat k k a → Forall (valid_op k) ops → trivial_kernel a → trivial_kernel (run_ops a ops).
Proof.
  intros Ha Hops Ht v Hv Hs. apply Ht; [done|].
  rewrite <- (run_ops_zeros 1 ops) in Hs by done.
  eapply run_ops_solves; eauto using wf_zeros.
Qed.

(** The vector that would lie in the kernel if column [col] had no pivot. *)
Definition kernel_vec (a : matrix) (col : nat) : matrix :=
  map (λ j, [mget a j col]) (List.seq 0 col) ++ [x01] :: replicate (k - col - 1) (zeros 1).

Lemma kernel_vec_wf a col : col < k → wf_mat k 1 (kernel_vec a col).
Proof.
  intros Hcol. unfold kernel_vec. split.
  - rewrite length_app, length_map, length_seq. cbn [length]. rewrite length_replicate. lia.
  - apply Forall_app. split; [by apply Forall_map, Forall_forall|].
    constructor; [done|]. by apply Forall_replicate.
Qed.

Lemma row_split a col r :
  wf_mat k k a → col < k → r < k → unit_upto k col a →
  ∃ r2, nth r a [] = unit_row col r ++ mget a r col :: r2.
Proof.
  intros Ha Hcol Hr Hu. pose proof (wf_nth k k a r Ha Hr) as Hl.
  exists (drop (S col) (nth r a [])).
  rewrite <- (take_drop_middle (nth r a []) col (mget a r col)) at 1.
  2: { unfold mget. rewrite (nth_lookup (nth r a [])).
       destruct (lookup_lt_is_Some_2 (nth r a []) col ltac:(lia)) as [x Hx]. by rewrite Hx. }
  f_equal. apply (nth_ext _ _ x00 x00).
  { rewrite length_take, length_unit_row. lia. }
  rewrite length_take. intros j Hj.
  rewrite nth_lookup, lookup_take_lt, <- nth_lookup by lia.
  rewrite nth_unit_row by lia. apply Hu; lia.
Qed.

Lemma kernel_vec_kernel a col :
  wf_mat k k a → col < k → unit_upto k col a → (∀ r, col ≤ r < k → mget a r col = x00) →
  solves 1 a (kernel_vec a col) (replicate k (zeros 1)).
Proof.
  intros Ha Hcol Hu H0. apply Forall2_same_length_lookup. destruct Ha as [Hk Hrows].
  split; [by rewrite length_replicate|]. intros r row b Hrow Hb.
  apply lookup_replicate in Hb as [-> Hr].
  destruct (row_split a col r) as [r2 E]; [done|lia..|done|].
  rewrite nth_lookup, Hrow in E. cbn [default from_option id] in E. subst row.
  assert (Forall (λ r, length r = 1) (kernel_vec a col)) as Hv by (by apply kernel_vec_wf).
  unfold kernel_vec in *.
  rewrite lincomb_app by (by rewrite ?length_map, ?length_unit_row, ?length_seq || done). cbn [lincomb].
  rewrite lincomb_zero_cols, (vadd_0_r 1) by done.
  assert (Forall (λ r, length r = 1) (map (λ j, [mget a j col]) (List.seq 0 col))) as H1
    by (by apply Forall_app in Hv as [? _]).
  destruct (decide (r < col)).
  - rewrite (lincomb_unit 1 col r (map (λ j, [mget a j col]) (List.seq 0 col)))
      by first [done|split; [by rewrite length_map, length_seq|done]].
    rewrite (nth_indep _ [] ((λ j, [mget a j col]) 0)) by (rewrite length_map, length_seq; lia).
    rewrite (map_nth (λ j, [mget a j col])), seq_nth by lia. cbn.
    by rewrite (mul_comm _ x01), mul_1_l, bxor_nilpotent.
  - rewrite unit_row_out, lincomb_zero_row, H0 by (done || lia). done.
Qed.

Lemma gj_col_pivot a b col :
  wf_mat k k a → col < k → unit_upto k col a → trivial_kernel a →
  ∃ ab, gj_col sub_b k (a, b) col = Some ab.
Proof.
  intros Ha Hcol Hu Ht. unfold gj_col. destruct (find _ _) as [pivot|] eqn:Hf.
  - apply find_some in Hf as [Hin Hp]. apply in_seq in Hin.
    rewrite eqb_x00, negb_true_iff, bool_decide_eq_false in Hp.
    assert (mget (swap_rows a col pivot) col col = mget a pivot col) as ->.
    { unfold mget. rewrite swap_rows_nth by (destruct Ha; lia). by case_decide. }
    destruct (inv_spec _ Hp) as (s & -> & _). eauto.
  - exfalso. assert (∀ r, col ≤ r < k → mget a r col = x00) as H0.
    { intros r Hr. pose proof (find_none _ _ Hf r ltac:(apply in_seq; lia)) as Hz. cbv beta in Hz.
      rewrite eqb_x00 in Hz. by apply negb_false_iff, bool_decide_eq_true in Hz. }
    pose proof (Ht (kernel_vec a col) (kernel_vec_wf a col Hcol)
      (kernel_vec_kernel a col Ha Hcol Hu H0)) as E.
    apply (f_equal (λ m, nth col m [])) in E. cbv beta in E.
    rewrite (nth_lookup (replicate _ _)), lookup_replicate_2 in E by done.
    unfold kernel_vec in E. rewrite app_nth2 in E by (rewrite length_map, length_seq; lia).
    rewrite length_map, length_seq, Nat.sub_diag in E. done.
Qed.

Lemma gj_cols_spec n c a b :
  c + n = k → wf_mat k k a → wf_mat k L b → unit_upto k c a → trivial_kernel a →
  ∃ ops, Forall (valid_op k) ops ∧
    gj_cols sub_b k (a, b) (List.seq c n) = Some (run_ops a ops, run_ops b ops) ∧
    unit_upto k k (run_ops a ops).
Proof.
  revert c a b. induction n as [|n IH]; intros c a b Hc Ha Hb Hu Ht.
  { exists []. split_and!; [done..|]. assert (c = k) as -> by lia. done. }
  cbn [List.seq gj_cols].
  destruct (gj_col_pivot a b c) as [[a1 b1] E1]; [done|lia|done|done|]. rewrite E1.
  destruct (gj_col_spec c a b a1 b1) as (ops1 & Hops1 & -> & -> & Hu1); [done|done|lia|done|done|].
  destruct (IH (S c) (run_ops a ops1) (run_ops b ops1)) as (ops2 & Hops2 & E2 & Hu2);
    [lia|by apply run_ops_wf..|done|by apply trivial_kernel_ops|].
  exists (ops1 ++ ops2). unfold run_ops in *. rewrite !fold_left_app.
  split_and!; [by apply Forall_app|done|done].
Qed.

Lemma nth_identity i : i < k → nth i (identity k) [] = unit_row k i.
Proof.
  intros Hi. unfold identity.
  rewrite (nth_indep _ [] (unit_row k 0)) by (rewrite length_map, length_seq; lia).
  by rewrite (map_nth (unit_row k)), seq_nth by lia.
Qed.

Lemma wf_identity : wf_mat k k (identity k).
Proof.
  unfold identity. split; [by rewrite length_map, length_seq|].
  apply Forall_map, Forall_forall. intros i _. apply length_unit_row.
Qed.

Lemma unit_upto_identity a : wf_mat k k a → unit_upto k k a → a = identity k.
Proof.
  intros Ha Hu. pose proof wf_identity as [Hi _]. destruct Ha as [Hk Hr].
  apply matrix_eq; [congruence|]. intros i Hlt. rewrite Hk in Hlt. rewrite nth_identity by done.
  pose proof (Forall_nth_row (λ r, length r = k) a i Hr ltac:(lia)) as Hl. cbv beta in Hl.
  apply (nth_ext _ _ x00 x00); [by rewrite length_unit_row|]. rewrite Hl. intros j Hj.
  rewrite nth_unit_row by done. by apply Hu.
Qed.

(** The elimination succeeds on every matrix with a trivial kernel, reduces
    it to the identity, and applies the same operations to both sides. *)
Lemma gj_total a b :
  wf_mat k k a → wf_mat k L b → trivial_kernel a →
  ∃ ops, Forall (valid_op k) ops ∧ run_ops a ops = identity k ∧
    gj_cols sub_b k (a, b) (List.seq 0 k) = Some (identity k, run_ops b ops).
Proof.
  intros Ha Hb Ht. destruct (gj_cols_spec k 0 a b) as (ops & Hops & E & Hu); [done..| |done|].
  { intros r j _ Hj. lia. }
  assert (run_ops a ops = identity k) as Hid
    by (apply unit_upto_identity; [by apply run_ops_wf|done]).
  exists ops. by rewrite Hid in E.
Qed.
End GaussJordanProofs.

Lemma solves_identity k L X b : wf_mat k L X → length b = k → solves L (identity k) X b ↔ X = b.
Proof.
  intros HX Hb. pose proof (wf_identity k) as [Hi _]. split.
  - intros H. apply matrix_eq; [destruct HX; lia|]. intros i Hlt.
    rewrite <- (solves_nth L (identity k) X b) by (done || destruct HX; lia).
    rewrite nth_identity by (destruct HX; lia). symmetry. apply (lincomb_unit L k); [done|destruct HX; lia].
  - intros <-. apply Forall2_same_length_lookup. split; [lia|].
    intros i row r Hrow Hr. pose proof (lookup_lt_Some _ _ _ Hr) as Hlt.
    rewrite nth_lookup_row in Hrow, Hr by lia. injection Hrow as <-. injection Hr as <-.
    rewrite nth_identity by lia. apply (lincomb_unit L k); [done|lia].
Qed.

(** Row operations commute with right multiplication. *)
Lemma run_op_rmul k m L M B o :
  wf_mat k m M → wf_mat m L B → valid_op k o →
  run_op (map (λ t, lincomb L t B) M) o = map (λ t, lincomb L t B) (run_op M o).
Proof.
  intros HM HB Ho. pose proof HM as [Hk HMr]. pose proof HB as [_ HBr].
  assert (∀ i, i < k → nth i (map (λ t, lincomb L t B) M) [] = lincomb L (nth i M []) B) as Hn.
  { intros i Hi. rewrite (nth_indep _ [] (lincomb L [] B)) by (rewrite length_map; lia).
    apply (map_nth (λ t, lincomb L t B)). }
  assert (∀ i r (M : matrix), <[i := lincomb L r B]> (map (λ t, lincomb L t B) M)
    = map (λ t, lincomb L t B) (<[i := r]> M)) as Hi.
  { intros. symmetry. apply (list_fmap_insert (λ t, lincomb L t B)). }
  destruct o as [i j|i c|r col f]; cbn in *; unfold swap_rows.
  - destruct Ho. by rewrite !Hn, !Hi by done.
  - destruct Ho. by rewrite Hn, <- lincomb_vscale, Hi by done.
  - destruct Ho as (?&?&?). rewrite !Hn, <- lincomb_vscale by done.
    rewrite <- lincomb_vadd, Hi; [done| |done].
    rewrite length_vscale. by erewrite !wf_nth by done.
Qed.

Lemma run_ops_rmul k m L M B ops :
  wf_mat k m M → wf_mat m L B → Forall (valid_op k) ops →
  run_ops (map (λ t, lincomb L t B) M) ops = map (λ t, lincomb L t B) (run_ops M ops).
Proof.
  intros HM HB Hops. revert M HM. induction Hops as [|o ops Ho Hops IH]; intros M HM; [done|].
  cbn. erewrite run_op_rmul by done. apply IH. by apply run_op_wf.
Qed.

Lemma map_lincomb_identity k L B : wf_mat k L B → map (λ t, lincomb L t B) (identity k) = B.
Proof.
  intros HB. pose proof (wf_identity k) as [Hi _]. destruct HB as [Hk HB].
  apply matrix_eq; rewrite length_map; [lia|]. intros i Hlt.
  rewrite (nth_indep _ [] (lincomb L [] B)) by (rewrite length_map; lia).
  rewrite (map_nth (λ t, lincomb L t B)), nth_identity by lia.
  apply (lincomb_unit L k); [done|lia].
Qed.

(** What the two routines compute on a matrix with a trivial kernel. *)
Lemma solve_gf256_spec k L a b X :
  wf_mat k k a → wf_mat k L b → trivial_kernel k a → wf_mat k L X → solves L a X b →
  solve_gf256 a b k = Some X.
Proof.
  intros Ha Hb Ht HX Hs. unfold solve_gf256.
  destruct (gj_total k L table_xor) with a b as (ops & Hops & Hid & ->); [|done..|].
  { intros. apply table_xor_vadd. congruence. }
  apply (run_ops_solves k L k a X b ops) in Hs; [|done..].
  rewrite Hid in Hs. apply solves_identity in Hs as ->; [done|done|].
  by apply (run_ops_wf k L b ops).
Qed.

Lemma invert_gf256_spec k a :
  wf_mat k k a → trivial_kernel k a →
  ∃ t, invert_gf256 a k = Some t ∧ wf_mat k k t ∧
    ∀ L X B, wf_mat k L X → wf_mat k L B →
      solves L a X B ↔ X = map (λ r, lincomb L r B) t.
Proof.
  intros Ha Ht. unfold invert_gf256. pose proof (wf_identity k) as Hi.
  destruct (gj_total k k (sub_row k)) with a (identity k) as (ops & Hops & Hid & ->); [|done..|].
  { intros. by apply sub_row_vadd. }
  exists (run_ops (identity k) ops). split; [done|]. split; [by apply run_ops_wf|].
  intros L X B HX HB. rewrite <- (run_ops_rmul k k) by done.
  rewrite map_lincomb_identity by done.
  rewrite (run_ops_solves k L k a X B ops), Hid by done.
  apply solves_identity; [done|]. by apply (run_ops_wf k L B ops).
Qed.

(** ** Polynomials and the Vandermonde rows *)

Definition xpow (x : byte) (c : nat) : byte := fold_left (λ acc _, mul acc x) (List.seq 0 c) x01.
Definition vrow (k : nat) (x : byte) : list byte := map (xpow x) (List.seq 0 k).
Definition point (r : nat) : byte := byte_of_N (N.of_nat (r + 1)).
Definition col1 (c : list byte) : matrix := map (λ a, [a]) c.

Fixpoint peval (c : list byte) (x : byte) : byte :=
  match c with
  | [] => x00
  | a :: c' => bxor a (mul x (peval c' x))
  end.

(** Synthetic division by [X - a]. *)
Fixpoint pquot (c : list byte) (a : byte) : list byte :=
  match c with
  | [] => []
  | _ :: c' => match c' with [] => [] | _ => peval c' a :: pquot c' a end
  end.

Lemma pquot_cons c0 c1 c a : pquot (c0 :: c1 :: c) a = peval (c1 :: c) a :: pquot (c1 :: c) a.
Proof. done. Qed.

Lemma pquot_spec c a x : peval c x = bxor (peval c a) (mul (bxor x a) (peval (pquot c a) x)).
Proof.
  induction c as [|c0 c IH]; [cbn; by rewrite mul_0_r|].
  destruct c as [|c1 c]; [cbn; by rewrite !mul_0_r, !bxor_0_r|].
  rewrite pquot_cons. change (peval (c0 :: c1 :: c) ?y) with (bxor c0 (mul y (peval (c1 :: c) y))).
  change (peval (?h :: pquot (c1 :: c) a) x) with (bxor h (mul x (peval (pquot (c1 :: c) a) x))).
  rewrite IH. set (p := peval (c1 :: c) a). set (q := peval (pquot (c1 :: c) a) x).
  transitivity (bxor (bxor (bxor c0 (mul x p)) (mul x (mul (bxor x a) q))) (bxor (mul a p) (mul a p))).
  - rewrite bxor_nilpotent. ring.
  - ring.
Qed.

Lemma length_pquot c a : length (pquot c a) = length c - 1.
Proof.
  induction c as [|c0 c IH]; [done|]. destruct c as [|c1 c]; [done|].
  rewrite pquot_cons. cbn [length] in *. rewrite IH. lia.
Qed.

Lemma pquot_zero c a : peval c a = x00 → Forall (λ b, b = x00) (pquot c a) → Forall (λ b, b = x00) c.
Proof.
  induction c as [|c0 c IH]; [done|]. destruct c as [|c1 c].
  - cbn. rewrite mul_0_r, bxor_0_r. intros -> _. by constructor.
  - rewrite pquot_cons. intros H0 [H1 H2]%Forall_cons_iff.
    change (bxor c0 (mul a (peval (c1 :: c) a)) = x00) in H0.
    rewrite H1, mul_0_r, bxor_0_r in H0. constructor; [done|]. by apply IH.
Qed.

Lemma mul_zero_inv a b : mul a b = x00 → a ≠ x00 → b = x00.
Proof.
  intros H Ha. destruct (inv_spec a Ha) as (i & _ & Hi & _).
  rewrite <- (mul_1_l b), <- Hi, (mul_comm a i), <- mul_assoc, H. apply mul_0_r.
Qed.

Lemma bxor_eq_zero a b : bxor a b = x00 → a = b.
Proof.
  intros H. rewrite <- (bxor_0_r a), <- (bxor_nilpotent b), bxor_assoc, H. apply bxor_0_l.
Qed.

(** A polynomial with as many distinct roots as coefficients is zero. *)
Lemma roots_zero xs c :
  NoDup xs → length xs = length c → Forall (λ x, peval c x = x00) xs → Forall (λ b, b = x00) c.
Proof.
  intros Hnd. revert c. induction Hnd as [|x xs Hx Hnd IH]; intros c Hlen Hr.
  { by destruct c. }
  apply Forall_cons_iff in Hr as [Hr Hrs]. apply (pquot_zero c x Hr). apply IH.
  { rewrite length_pquot. cbn in Hlen. lia. }
  apply Forall_forall. intros y Hy. rewrite Forall_forall in Hrs. specialize (Hrs y Hy).
  rewrite (pquot_spec c x y), Hr, bxor_0_l in Hrs. apply mul_zero_inv in Hrs; [done|].
  intros ->%bxor_eq_zero. by apply Hx, list_elem_of_In.
Qed.

Lemma xpow_S x c : xpow x (S c) = mul (xpow x c) x.
Proof. unfold xpow. by rewrite seq_S, fold_left_app. Qed.

Lemma vrow_peval x s c :
  lincomb 1 (map (xpow x) (List.seq s (length c))) (col1 c) = [mul (xpow x s) (peval c x)].
Proof.
  revert s. induction c as [|a c IH]; intros s; cbn [length List.seq map lincomb col1 peval].
  { by rewrite mul_0_r. }
  fold (col1 c). rewrite IH, xpow_S. cbn. f_equal. ring.
Qed.

Lemma col1_of k v : wf_mat k 1 v → ∃ c, v = col1 c ∧ length c = k.
Proof.
  intros [<- Hv]. exists (map (λ r, nth 0 r x00) v). rewrite length_map. split; [|done].
  unfold col1. rewrite map_map. induction Hv as [|r v Hr Hv IH]; cbn; [done|]. rewrite <- IH.
  destruct r as [|? [|]]; done.
Qed.

Lemma col1_zeros c : Forall (λ b, b = x00) c → col1 c = replicate (length c) (zeros 1).
Proof. induction 1 as [|? c -> _ IH]; cbn; [done|]. f_equal. apply IH. Qed.

Lemma vandermonde_kernel xs : NoDup xs → trivial_kernel (length xs) (map (vrow (length xs)) xs).
Proof.
  intros Hnd v Hv Hs. destruct (col1_of _ v Hv) as (c & -> & Hc). rewrite <- Hc.
  apply col1_zeros, (roots_zero xs); [done..|]. apply Forall_lookup. intros i x Hx.
  pose proof (lookup_lt_Some _ _ _ Hx).
  eapply (Forall2_lookup_lr _ _ _ i) in Hs.
  2: { unfold vrow. rewrite (list_lookup_fmap (λ x, map (xpow x) (List.seq 0 (length xs)))), Hx. done. }
  2: { by apply lookup_replicate_2. }
  rewrite <- Hc, vrow_peval in Hs. injection Hs as Hs.
  change (xpow x 0) with x01 in Hs. by rewrite mul_1_l in Hs.
Qed.

(** ** The encoding matrix *)

Lemma fold_left_map {A B C} (f : A → B → A) (g : C → B) l a :
  fold_left f (map g l) a = fold_left (λ a x, f a (g x)) l a.
Proof. revert a. induction l as [|x l IH]; intros a; cbn; [done|apply IH]. Qed.

Lemma dot_lincomb q row b j acc :
  length row = length b → Forall (λ r, length r = q) b →
  fold_left (λ acc t, bxor acc (mul (nth t row x00) (nth j (nth t b []) x00)))
            (List.seq 0 (length row)) acc
  = bxor acc (nth j (lincomb q row b) x00).
Proof.
  intros Hlen Hb. revert row acc Hlen. induction Hb as [|x b Hx Hb IH]; intros [|c row] acc [=].
  - cbn [length List.seq fold_left lincomb]. unfold zeros. rewrite nth_lookup.
    destruct (replicate q x00 !! j) as [y|] eqn:E; cbn [default from_option id];
      [apply lookup_replicate in E as [-> _]|]; by rewrite bxor_0_r.
  - cbn [length List.seq fold_left lincomb]. rewrite <- seq_shift, fold_left_map.
    cbn [nth]. rewrite IH by done. rewrite nth_vadd, nth_vscale, bxor_assoc; [done|].
    by rewrite length_vscale, length_lincomb.
Qed.

Lemma mat_mul_spec n p q a b i :
  wf_mat n p a → wf_mat p q b → i < n → nth i (mat_mul a b n p q) [] = lincomb q (nth i a []) b.
Proof.
  intros Ha [Hp Hb] Hi. unfold mat_mul. rewrite nth_map_seq by done.
  pose proof (wf_nth n p a i Ha Hi) as Hr.
  apply (nth_ext _ _ x00 x00); rewrite length_map, length_seq.
  { symmetry. by apply length_lincomb. }
  intros j Hj. rewrite nth_map_seq by done. unfold mget. rewrite <- Hr.
  rewrite (dot_lincomb q) by (congruence || done). apply bxor_0_l.
Qed.

Lemma vandermonde_vrow n k : vandermonde n k = map (λ r, vrow k (point r)) (List.seq 0 n).
Proof. done. Qed.

Lemma length_vrow k x : length (vrow k x) = k.
Proof. unfold vrow. by rewrite length_map, length_seq. Qed.

Lemma wf_vandermonde n k : wf_mat n k (vandermonde n k).
Proof.
  rewrite vandermonde_vrow. split; [by rewrite length_map, length_seq|].
  apply Forall_map, Forall_forall. intros. apply length_vrow.
Qed.

Lemma point_inj i j : i < 255 → j < 255 → point i = point j → i = j.
Proof.
  intros Hi Hj H. apply (f_equal Byte.to_N) in H. unfold point in H.
  rewrite !to_N_of_N, !N.mod_small in H; lia.
Qed.

Lemma vandermonde_rows_kernel n k idxs :
  n ≤ 255 → NoDup idxs → Forall (λ i, i < n) idxs → length idxs = k →
  trivial_kernel k (map (λ i, nth i (vandermonde n k) []) idxs).
Proof.
  intros Hn Hnd Hlt Hk.
  replace (map _ idxs) with (map (vrow (length (map point idxs))) (map point idxs)).
  - rewrite <- Hk. rewrite <- (length_map point idxs). apply vandermonde_kernel.
    clear Hk. induction Hnd as [|i idxs Hi Hnd IH]; cbn; [constructor|].
    apply Forall_cons_iff in Hlt as [Hi' Hlt]. constructor; [|by apply IH].
    intros (j & Hj & Hin)%list_elem_of_fmap. rewrite Forall_forall in Hlt.
    specialize (Hlt j (proj1 (list_elem_of_In _ _) Hin)).
    apply point_inj in Hj; [|lia..]. by subst j.
  - rewrite map_map, length_map, Hk. apply map_ext_in. intros i Hi.
    rewrite Forall_forall in Hlt. rewrite vandermonde_vrow, nth_map_seq by auto. done.
Qed.

Lemma nth_lincomb_units k r s j :
  j < k → nth j (lincomb k r (map (unit_row k) (List.seq s (length r)))) x00 =
    if (s <=? j)%nat then nth (j - s) r x00 else x00.
Proof.
  intros Hj. revert s. induction r as [|c r IH]; intros s; cbn [length List.seq map lincomb].
  { unfold zeros. rewrite nth_lookup, lookup_replicate_2 by done. destruct (j - s); by case_match. }
  rewrite nth_vadd.
  2: { rewrite length_vscale, length_unit_row, length_lincomb; [done|].
       apply Forall_map, Forall_forall. intros. apply length_unit_row. }
  rewrite nth_vscale, nth_unit_row, IH by done.
  destruct (Nat.leb_spec s j), (Nat.leb_spec (S s) j), (Nat.eqb_spec s j); try lia.
  - rewrite mul_0_r, bxor_0_l. by replace (j - s) with (S (j - S s)) by lia.
  - subst. by rewrite (mul_comm c), mul_1_l, bxor_0_r, Nat.sub_diag.
  - by rewrite mul_0_r.
Qed.

Lemma lincomb_identity k r : length r = k → lincomb k r (identity k) = r.
Proof.
  intros Hr. pose proof (wf_identity k) as [_ Hi].
  apply (nth_ext _ _ x00 x00); rewrite length_lincomb by done; [done|]. intros j Hj.
  pose proof (nth_lincomb_units k r 0 j Hj) as H. rewrite Hr, Nat.sub_0_r in H. exact H.
Qed.

Lemma solves_map L (f : nat → list byte) idxs X b :
  solves L (map f idxs) X b ↔
  length idxs = length b ∧
  ∀ i idx r, idxs !! i = Some idx → b !! i = Some r → lincomb L (f idx) X = r.
Proof.
  unfold solves. rewrite Forall2_same_length_lookup, length_map.
  split; intros [Hl H]; (split; [done|]).
  - intros i idx r Hi Hr. apply (H i); [|done]. by rewrite (list_lookup_fmap f), Hi.
  - intros i row r Hrow Hr. apply list_lookup_fmap_Some in Hrow as (idx & -> & Hi). by eapply H.
Qed.

(** A matrix whose rows have trivial kernels in any choice of [k], multiplied
    by the inverse of its top block: the top rows become the identity and any
    [k] distinct rows still have a trivial kernel (the MDS property). *)
Definition any_rows_independent (n k : nat) (m : matrix) : Prop :=
  ∀ idxs, NoDup idxs → Forall (λ i, i < n) idxs → length idxs = k → trivial_kernel k (map (λ i, nth i m []) idxs).

(** [t] is the inverse of [a]. *)
Definition inverts (k : nat) (a t : matrix) : Prop :=
  wf_mat k k t ∧ ∀ L X B, wf_mat k L X → wf_mat k L B → solves L a X B ↔ X = map (λ r, lincomb L r B) t.

Section Systematic.
Context (n k : nat) (v t m : matrix) (Hkn : k ≤ n) (Hv : wf_mat n k v) (Hker : any_rows_independent n k v).
Context (Ht : inverts k (take k v) t) (Hrow : ∀ i, i < n → nth i m [] = lincomb k (nth i v []) t).

Lemma take_rows : take k v = map (λ i, nth i v []) (List.seq 0 k).
Proof.
  apply matrix_eq; rewrite length_take, (proj1 Hv), ?length_map, ?length_seq; [lia|].
  intros i Hi. rewrite nth_map_seq by lia. by rewrite nth_lookup, lookup_take_lt, <- nth_lookup by lia.
Qed.

Lemma take_wf : wf_mat k k (take k v).
Proof. split; [rewrite length_take, (proj1 Hv); lia|]. apply Forall_take, Hv. Qed.

Lemma top_kernel : trivial_kernel k (take k v).
Proof.
  rewrite take_rows. apply Hker; [by apply NoDup_seq| |by rewrite length_seq].
  apply Forall_forall. intros i Hi. apply in_seq in Hi. lia.
Qed.

Lemma systematic_top i : i < k → nth i m [] = unit_row k i.
Proof.
  intros Hi. destruct Ht as [Hwt Hinv]. rewrite Hrow by lia. assert (solves k (take k v) t (identity k)) as Hs.
  { apply Hinv; [done|apply wf_identity|]. symmetry. rewrite <- (map_id t) at 2.
    apply map_ext_in. intros r Hr. apply lincomb_identity. destruct Hwt as [_ Hwt]. rewrite Forall_forall in Hwt. by apply Hwt. }
  apply (solves_nth _ _ _ _ i) in Hs; [|pose proof take_wf as [? _]; lia].
  rewrite nth_identity in Hs by done. rewrite <- Hs. by rewrite (nth_lookup (take k v)), lookup_take_lt, <- nth_lookup by lia.
Qed.

Lemma systematic_mds : any_rows_independent n k m.
Proof.
  intros idxs Hnd Hlt Hlen w Hw Hs. destruct Ht as [Hwt Hinv].
  assert (wf_mat k 1 (map (λ r, lincomb 1 r w) t)) as Htw.
  { split; [rewrite length_map; apply Hwt|]. apply Forall_map, Forall_forall. intros. apply length_lincomb, Hw. }
  assert (replicate k (zeros 1) = map (λ r, lincomb 1 r w) t) as Hz.
  { symmetry. apply (Hker idxs Hnd Hlt Hlen); [done|].
    apply solves_map in Hs as [Hl Hs]. apply solves_map. split; [done|].
    intros i idx r Hi Hr. destruct Hwt as [Htk Htr]. destruct Hw as [Hwk Hwr].
    rewrite <- (lincomb_assoc 1 k) by done. rewrite <- (Hs i idx r Hi Hr). f_equal.
    symmetry. apply Hrow. by eapply (Forall_lookup_1 _ _ _ _ Hlt). }
  apply Hinv in Hz; [|apply wf_zeros|done]. pose proof take_wf as Hwv.
  apply matrix_eq; [rewrite length_replicate; apply Hw|]. intros i Hi.
  rewrite <- (solves_nth _ _ _ _ i Hz) by (destruct Hw, Hwv; lia).
  rewrite lincomb_zero_cols, nth_lookup, lookup_replicate_2; [done|]. destruct Hw; lia.
Qed.
End Systematic.

Lemma wf_mat_mul a b n p q : wf_mat n q (mat_mul a b n p q).
Proof.
  unfold mat_mul. split; [by rewrite length_map, length_seq|]. apply Forall_map, Forall_forall. intros. by rewrite length_map, length_seq.
Qed.

Section EncodingMatrix.
Context (n k : nat) (Hk : 0 < k) (Hkn : k < n) (Hn : n ≤ 255).

(** [build_encoding_matrix] returns, its top rows are the identity, and any
    [k] distinct rows of it have a trivial kernel. *)
Lemma build_encoding_matrix_spec :
  ∃ m, build_encoding_matrix n k = Some m ∧ wf_mat n k m ∧ (∀ i, i < k → nth i m [] = unit_row k i) ∧ any_rows_independent n k m.
Proof.
  set (v := vandermonde n k). pose proof (wf_vandermonde n k) as Hv. fold v in Hv.
  assert (any_rows_independent n k v) as Hker by (intros idxs ???; by apply vandermonde_rows_kernel).
  destruct (invert_gf256_spec k (take k v)) as (t & Et & Ht); [apply (take_wf n); [lia|done]|by apply (top_kernel n k v ltac:(lia))|].
  assert (∀ i, i < n → nth i (mat_mul v t n k k) [] = lincomb k (nth i v []) t) as Hrow by (intros i Hi; by apply mat_mul_spec; [| |]; [|apply Ht|]).
  unfold build_encoding_matrix. fold v. rewrite Et. eexists; split; [done|]. split_and!; [apply wf_mat_mul| |].
  - intros i Hi. by apply (systematic_top n k v t _ ltac:(lia) Hv Ht Hrow).
  - apply (systematic_mds n k v t); [lia|done..].
Qed.
End EncodingMatrix.

(** ** Encoding and reconstruction *)

Lemma parity_fold len row data p :
  Forall (λ r, length r = len) data → length p = len →
  fold_left (λ p '(coeff, d), if Byte.eqb coeff x00 then p else table_xor (mul_table coeff) p d)
            (zip row data) p = vadd p (lincomb len row data).
Proof.
  intros Hd. revert row p. induction Hd as [|d data Hd' Hd IH]; intros [|c row] p Hp;
    cbn [zip zip_with fold_left lincomb]; try (by rewrite vadd_0_r).
  rewrite eqb_x00. case_bool_decide as Hc.
  - subst c. rewrite IH, vscale_0, Hd' by done. by rewrite (vadd_0_l len) by by apply length_lincomb.
  - rewrite table_xor_vadd by congruence. rewrite IH, vadd_assoc; [done|].
    rewrite length_vadd; [done|]. rewrite length_vscale. congruence.
Qed.

Lemma parity_row_spec len row data :
  Forall (λ r, length r = len) data → parity_row len row data = lincomb len row data.
Proof.
  intros Hd. unfold parity_row. rewrite (parity_fold len) by (done || apply length_replicate).
  apply vadd_0_l. by apply length_lincomb.
Qed.

Lemma rs_new_spec n k c :
  rs_new n k = Some c →
  0 < k ∧ k < n ∧ n ≤ 255 ∧ rs_n c = n ∧ rs_k c = k ∧ wf_mat n k (rs_matrix c) ∧
  (∀ i, i < k → nth i (rs_matrix c) [] = unit_row k i) ∧
  (∀ idxs, NoDup idxs → Forall (λ i, i < n) idxs → length idxs = k →
     trivial_kernel k (map (λ i, nth i (rs_matrix c) []) idxs)).
Proof.
  unfold rs_new. intros H. destruct (_ && _)%bool eqn:E; [|done].
  apply andb_true_iff in E as [[E1 E2]%andb_true_iff E3].
  apply Nat.ltb_lt in E1, E2. apply Nat.leb_le in E3.
  destruct (build_encoding_matrix_spec n k E1 E2 E3) as (m & Hm & ? & ? & ?).
  rewrite Hm in H. injection H as <-. cbn. by split_and!.
Qed.

Lemma encode_inv n k c data enc :
  rs_new n k = Some c → encode c data = Some enc →
  ∃ len, wf_mat k len data ∧ len = length (nth 0 data []) ∧
    enc = map (λ row, lincomb len row data) (rs_matrix c).
Proof.
  intros Hc. destruct (rs_new_spec n k c Hc) as (H0 & Hkn & Hn & En & Ek & Hm & Hid & _).
  unfold encode. rewrite Ek. case_match eqn:E1; [done|]. case_match eqn:E2; [done|].
  apply negb_false_iff in E1, E2. apply Nat.eqb_eq in E1.
  intros [= <-]. exists (length (nth 0 data [])).
  assert (Forall (λ r, length r = length (nth 0 data [])) data) as Hd.
  { apply Forall_forall. rewrite forallb_forall in E2. intros r Hr.
    specialize (E2 r Hr). by apply Nat.eqb_eq in E2. }
  split_and!; [done|done|]. apply matrix_eq; rewrite length_imap; [by rewrite length_map|].
  intros i Hi. pose proof Hm as [Hmn _].
  rewrite (nth_indep (map _ _) [] (lincomb (length (nth 0 data [])) [] data)) by (rewrite length_map; lia).
  rewrite (map_nth (λ row, lincomb _ row data)).
  rewrite nth_lookup, list_lookup_imap, nth_lookup_row by lia.
  cbn [fmap option_fmap option_map default from_option id].
  destruct (Nat.ltb_spec i k).
  - rewrite Hid by done. symmetry. by apply (lincomb_unit _ k).
  - by apply parity_row_spec.
Qed.

Lemma mapM_rows (m : matrix) (l : list (nat * list byte)) :
  Forall (λ s, s.1 < length m) l →
  mapM (λ s, m !! s.1) l = Some (map (λ i, nth i m []) (map fst l)).
Proof.
  induction 1 as [|s l Hs _ IH]; [done|]. cbn [mapM map].
  rewrite nth_lookup_row by done. cbn. by rewrite IH.
Qed.

Section Reconstruction.
Context (n k : nat) (c : RsCode) (data : matrix) (len : nat).
Context (Hc : rs_new n k = Some c) (Hd : wf_mat k len data).

Definition good_shard (s : nat * list byte) : Prop :=
  s.1 < n ∧ s.2 = lincomb len (nth s.1 (rs_matrix c) []) data.

Lemma good_shard_length s : good_shard s → length s.2 = len.
Proof. intros [_ ->]. apply length_lincomb, Hd. Qed.

Lemma good_shards surviving :
  Forall (λ s, map (λ row, lincomb len row data) (rs_matrix c) !! s.1 = Some s.2) surviving →
  Forall good_shard surviving.
Proof.
  destruct (rs_new_spec n k c Hc) as (_ & _ & _ & _ & _ & [Hmn _] & _).
  apply Forall_impl. intros [i s] H. cbn in H.
  apply list_lookup_fmap_Some in H as (row & -> & Hrow).
  pose proof (lookup_lt_Some _ _ _ Hrow). split; cbn; [lia|]. by rewrite nth_lookup, Hrow.
Qed.

(** The system assembled from [k] good shards has the data as solution. *)
Lemma solve_picked picked :
  length picked = k → NoDup (map fst picked) → Forall good_shard picked →
  solve_gf256 (map (λ i, nth i (rs_matrix c) []) (map fst picked)) (map snd picked) k = Some data.
Proof.
  intros Hpk Hnd Hp.
  destruct (rs_new_spec n k c Hc) as (_ & _ & _ & _ & _ & Hm & _ & Hker).
  assert (Forall (λ i, i < n) (map fst picked)) as Hlt.
  { apply Forall_map. eapply Forall_impl; [|exact Hp]. by intros s [? _]. }
  apply (solve_gf256_spec k len); [..|done|].
  - split; [by rewrite !length_map|]. apply Forall_map. eapply Forall_impl; [|exact Hlt].
    intros i Hi. by eapply wf_nth.
  - split; [by rewrite length_map|]. apply Forall_map. eapply Forall_impl; [|exact Hp].
    apply good_shard_length.
  - apply Hker; [done|done|]. by rewrite length_map.
  - apply solves_map. split; [by rewrite !length_map|]. intros i idx r Hi Hr.
    apply list_lookup_fmap_Some in Hi as (s & -> & Hi).
    apply list_lookup_fmap_Some in Hr as (s' & -> & Hr).
    assert (s' = s) as -> by congruence.
    symmetry. apply (Forall_lookup_1 _ _ _ _ Hp Hi).
Qed.

(** Re-encoding the parity rows gives back the whole shard set. *)
Lemma reassemble :
  take k data ++
    map (λ r, parity_row len (take k (nth r (rs_matrix c) [])) data) (List.seq k (n - k))
  = map (λ row, lincomb len row data) (rs_matrix c).
Proof.
  destruct (rs_new_spec n k c Hc) as (_ & Hkn & _ & _ & _ & Hm & Hid & _).
  pose proof Hm as [Hmn _]. pose proof Hd as [Hdk Hdr].
  apply matrix_eq; rewrite length_app, length_take, !length_map, length_seq; [lia|].
  intros i Hi.
  rewrite (nth_indep (map _ (rs_matrix c)) [] (lincomb len [] data)) by (rewrite length_map; lia).
  rewrite (map_nth (λ row, lincomb len row data)).
  destruct (decide (i < k)).
  - rewrite app_nth1 by (rewrite length_take; lia).
    rewrite nth_lookup, lookup_take_lt, <- nth_lookup by done.
    rewrite Hid by done. symmetry. by apply (lincomb_unit len k).
  - rewrite app_nth2, length_take by (rewrite length_take; lia).
    replace (i - k `min` length data) with (i - k) by lia.
    rewrite (nth_indep _ [] (parity_row len (take k (nth 0 (rs_matrix c) [])) data))
      by (rewrite length_map, length_seq; lia).
    rewrite (map_nth (λ r, parity_row len (take k (nth r (rs_matrix c) [])) data)), seq_nth by lia.
    replace (k + (i - k)) with i by lia.
    rewrite take_ge by (erewrite wf_nth by (done || lia); done). by apply parity_row_spec.
Qed.
End Reconstruction.

(** ** Properties *)

(** C1: the RS(n, k) code recovers everything from any [k] shards: for every
    supported pair (n, k), every list of [k] equal-length data shards and every
    choice of at least [k] surviving shards whose first [k] indices are
    distinct, [reconstruct] returns (no pivot search panics) and its result is
    the full encoded shard set. *)
Theorem reconstruct_any_k n k c data enc surviving :
  rs_new n k = Some c →
  encode c data = Some enc →
  k ≤ length surviving →
  NoDup (map fst (take k surviving)) →
  Forall (λ s, enc !! s.1 = Some s.2) surviving →
  reconstruct c surviving = Some enc.
Proof.
  intros Hc He Hlen Hnd Hsv.
  destruct (rs_new_spec n k c Hc) as (H0 & Hkn & Hn & En & Ek & Hm & _).
  destruct (encode_inv n k c data enc Hc He) as (len & Hd & _ & ->).
  apply (good_shards n k c data len Hc) in Hsv. pose proof Hm as [Hmn _].
  unfold reconstruct. rewrite Ek, En, (proj2 (Nat.ltb_ge _ _)) by lia.
  assert (length (nth 0 surviving (0, [])).2 = len) as ->.
  { destruct Hsv; [cbn in Hlen; lia|]. by eapply good_shard_length. }
  assert (forallb (λ s, same_len len s.2) surviving = true) as ->.
  { apply forallb_forall. intros s Hin. apply Nat.eqb_eq. rewrite Forall_forall in Hsv.
    by eapply good_shard_length, Hsv. }
  cbn [negb]. assert (Forall (good_shard n c data len) (take k surviving)) as Hp by by apply Forall_take.
  rewrite mapM_rows by (eapply Forall_impl; [|exact Hp]; intros s [? _]; cbn; lia).
  cbn [mbind option_bind].
  rewrite (map_ext_in (take k) (λ r, r)), map_id.
  2: { intros r (i & <- & Hi)%in_map_iff. apply in_map_iff in Hi as (s & <- & Hs).
       rewrite Forall_forall in Hp. destruct (Hp s Hs). apply take_ge.
       by erewrite wf_nth by eauto. }
  rewrite (solve_picked n k c data len) by (done || rewrite length_take; lia).
  cbn [mbind option_bind]. f_equal. by apply reassemble.
Qed.

Lemma reconstruct_any_k_witness :
  ∃ c enc, rs_new 5 3 = Some c ∧ encode c [[x01; x02]; [x30; x04]; [xff; x77]] = Some enc ∧
    reconstruct c [(4, nth 4 enc []); (1, nth 1 enc []); (3, nth 3 enc [])] = Some enc.
Proof.
  destruct (rs_new 5 3) as [c|] eqn:Hc; [|vm_compute in Hc; discriminate].
  destruct (encode c [[x01; x02]; [x30; x04]; [xff; x77]]) as [enc|] eqn:He.
  2: { vm_compute in Hc. injection Hc as <-. vm_compute in He. discriminate. }
  exists c, enc. split_and!; [done|done|].
  apply (reconstruct_any_k 5 3 c [[x01; x02]; [x30; x04]; [xff; x77]]); [done|done|cbn; lia| |].
  - apply (bool_decide_eq_true_1 (NoDup [4; 1; 3])). vm_compute. reflexivity.
  - vm_compute in Hc. injection Hc as <-. vm_compute in He. injection He as <-.
    repeat constructor.
Defined.

(** [RsCode::new] succeeds exactly on 0 < k < n <= 255 (the [expect] in
    the matrix inversion never fires), and encoding [k] equal-length shards
    then always succeeds, yields [n] shards of that length, and is systematic:
    the first [k] of them are the data. *)
Theorem encode_total_systematic n k data len :
  (is_Some (rs_new n k) ↔ 0 < k ∧ k < n ∧ n ≤ 255) ∧
  (∀ c, rs_new n k = Some c → wf_mat k len data →
     ∃ enc, encode c data = Some enc ∧ wf_mat n len enc ∧ take k enc = data).
Proof.
  split.
  { split; [intros [c Hc]; by apply rs_new_spec in Hc as (?&?&?&_)|]. intros (H0 & Hkn & Hn).
    unfold rs_new. rewrite !(proj2 (Nat.ltb_lt _ _)), (proj2 (Nat.leb_le _ _)) by done. cbn.
    destruct (build_encoding_matrix_spec n k H0 Hkn Hn) as (m & -> & _). by eexists. }
  intros c Hc Hd. destruct (rs_new_spec n k c Hc) as (H0 & Hkn & Hn & En & Ek & Hm & Hid & _).
  pose proof Hd as [Hdk Hdr].
  destruct (encode c data) as [enc|] eqn:He.
  - destruct (encode_inv n k c data enc Hc He) as (len' & [_ Hd'] & -> & ->).
    assert (length (nth 0 data []) = len) as El by (eapply wf_nth; done). rewrite El in *.
    eexists. split; [done|]. split.
    + split; [rewrite length_map; apply Hm|]. apply Forall_map, Forall_forall.
      intros. by apply length_lincomb.
    + rewrite <- (reassemble n k c data len Hc Hd), take_app_le by (rewrite length_take; lia).
      rewrite take_take, Nat.min_id. apply take_ge. lia.
  - exfalso. unfold encode in He. rewrite Ek, Hdk, Nat.eqb_refl in He. cbn [negb] in He.
    assert (length (nth 0 data []) = len) as El by (eapply wf_nth; done). rewrite El in He.
    assert (forallb (same_len len) data = true) as Hf.
    { apply forallb_forall. intros s Hs. apply Nat.eqb_eq. rewrite Forall_forall in Hdr. by apply Hdr. }
    by rewrite Hf in He.
Qed.
