(* ===== verification/Ecc.v ===== *)
(** * Reed-Solomon coding of the cluster ([lionfs-cluster/src/ecc.rs])

    The codec of the cluster: its own GF(2^8) tables, the systematic matrix
    from a Vandermonde matrix over the points 0, 1, ..., table-driven encoding
    and decoding, and inversion by elimination on the augmented matrix. The
    field and the elimination are related to those of the pool ([GF256],
    [Erasure]). Indexing of in-range rows and columns uses a default. *)
From S2P Require Import Prelude GF256 Erasure.
From Stdlib Require Import NArith Lia List Strings.Byte Ring.
From stdpp Require Import base list numbers option.

Inductive EccError := InvalidProfile (n k : nat) | ShardLength (expected got : nat) | TooFewSurvivors (need have : nat) | SingularMatrix.

(** ** The field ([mod gf]) *)
Definition gf_step (st : list byte * list byte * N) (i : nat) : list byte * list byte * N :=
  let '(exp, log, x) := st in
  let exp := <[i := byte_of_N x]> exp in
  let log := <[N.to_nat x := byte_of_N (N.of_nat i)]> log in
  let x := N.shiftl x 1 in
  (exp, log, if N.eqb (N.land x 0x100) 0 then x else N.lxor x 0x11D).

Definition gf_new : list byte * list byte :=
  let '(exp, log, _) := fold_left gf_step (List.seq 0 255) (replicate 512 x00, replicate 256 x00, 1%N) in
  (fold_left (λ exp i, <[i := nth (i - 255) exp x00]> exp) (List.seq 255 257) exp, log).

(** The shared tables, evaluated once. *)
Definition gf_tables : list byte * list byte := Eval vm_compute in gf_new.
Definition gf_exp (i : nat) : byte := nth i (fst gf_tables) x00.
Definition gf_log (a : byte) : nat := b2n (nth (b2n a) (snd gf_tables) x00).

Definition gf_mul (a b : byte) : byte :=
  if (Byte.eqb a x00 || Byte.eqb b x00)%bool then x00 else gf_exp (gf_log a + gf_log b).
Definition gf_inv (a : byte) : byte := gf_exp (255 - gf_log a).

(** ** Inversion *)

(** [row ^= factor * pivot_row], as a zip. *)
Fixpoint eliminate (row pivot_row : list byte) (factor : byte) : list byte :=
  match row, pivot_row with
  | d :: row, s :: pivot_row => bxor d (gf_mul factor s) :: eliminate row pivot_row factor
  | _, _ => row
  end.

Definition coeff_table (coeff : byte) : list byte := map (gf_mul coeff) all_bytes.

Definition clear_aug (col : nat) (work : matrix) (r : nat) : matrix :=
  if ((r =? col) || Byte.eqb (mget work r col) x00)%bool then work
  else <[r := eliminate (nth r work []) (nth col work []) (mget work r col)]> work.

Definition invert_col (k : nat) (work : matrix) (col : nat) : option matrix :=
  match find (λ r, negb (Byte.eqb (mget work r col) x00)) (List.seq col (k - col)) with
  | None => None
  | Some pivot =>
      let work := swap_rows work col pivot in
      let i := gf_inv (mget work col col) in
      let work := <[col := map (λ v, gf_mul v i) (nth col work [])]> work in
      Some (fold_left (clear_aug col) (List.seq 0 k) work)
  end.

Fixpoint invert_cols (k : nat) (work : matrix) (cols : list nat) : option matrix :=
  match cols with [] => Some work | col :: cols => work ← invert_col k work col; invert_cols k work cols end.

Definition invert_matrix (m : matrix) : EccError + matrix :=
  let k := length m in
  if ((k =? 0) || existsb (λ r, negb (length r =? k)) m)%bool then inl SingularMatrix
  else
    let work := imap (λ r row, row ++ map (λ c, if c =? r then x01 else x00) (List.seq 0 k)) m in
    match invert_cols k work (List.seq 0 k) with
    | None => inl SingularMatrix
    | Some work => inr (map (λ r, take k (drop k (nth r work []))) (List.seq 0 k))
    end.

(** ** The codec *)
Record RsCodec := mkCodec { codec_k : nat; codec_m : nat; encode_matrix : matrix; codec_tables : list (list (list byte)) }.

(** Row [r] of the Vandermonde matrix: powers of the [r]-th field element. *)
Definition power_row (k r : nat) : list byte :=
  fold_left (λ row c, <[c := gf_mul (nth (c - 1) row x00) (byte_of_N (N.of_nat r))]> row) (List.seq 1 (k - 1)) (replicate k x01).

Definition codec_new (k m : nat) : EccError + RsCodec :=
  if ((k =? 0) || (m =? 0) || (255 <? k + m))%bool then inl (InvalidProfile (k + m) k)
  else
    let n := k + m in
    let v := map (power_row k) (List.seq 0 n) in
    match invert_matrix (take k v) with
    | inl e => inl e
    | inr top_inv =>
        let em := map (λ r, map (λ c, fold_left (λ acc t, bxor acc (gf_mul (mget v r t) (mget top_inv t c))) (List.seq 0 k) x00) (List.seq 0 k)) (List.seq 0 n) in
        inr (mkCodec k m em (map (λ j, map (λ c, coeff_table (mget em (k + j) c)) (List.seq 0 k)) (List.seq 0 m)))
    end.

(** [for (p, &b) in prow.iter_mut().zip(ds) { *p ^= t[b] }] is [table_xor]. *)
Definition codec_encode (c : RsCodec) (data_shards : matrix) : EccError + matrix :=
  if negb (length data_shards =? codec_k c) then inl (InvalidProfile (length data_shards + codec_m c) (codec_k c))
  else
    let len := length (nth 0 data_shards []) in
    match List.find (λ s, negb (length s =? len)) data_shards with
    | Some s => inl (ShardLength len (length s))
    | None =>
        inr (fold_left (λ parity '(col, ds), imap (λ j prow, table_xor (nth col (nth j (codec_tables c) []) []) prow ds) parity)
               (imap (λ i d, (i, d)) data_shards) (replicate (codec_m c) (replicate len x00)))
    end.

Fixpoint survivors_of (idx : nat) (shards : list (option (list byte))) : list (nat * list byte) :=
  match shards with
  | [] => []
  | Some d :: shards => (idx, d) :: survivors_of (S idx) shards
  | None :: shards => survivors_of (S idx) shards
  end.

Definition codec_decode (c : RsCodec) (shards : list (option (list byte))) : EccError + matrix :=
  let k := codec_k c in
  if negb (length shards =? k + codec_m c) then inl (InvalidProfile (length shards) k)
  else
    let survivors := survivors_of 0 shards in
    if length survivors <? k then inl (TooFewSurvivors k (length survivors))
    else
      let len := length (snd (nth 0 survivors (0, []))) in
      match List.find (λ s, negb (length (snd s) =? len)) survivors with
      | Some s => inl (ShardLength len (length (snd s)))
      | None =>
          let survivors := take k survivors in
          match invert_matrix (map (λ s, nth (fst s) (encode_matrix c) []) survivors) with
          | inl e => inl e
          | inr sub_inv =>
              inr (map (λ r, fold_left (λ drow '(col, s), table_xor (coeff_table (mget sub_inv r col)) drow (snd s))
                               (imap (λ i s, (i, s)) survivors) (replicate len x00)) (List.seq 0 k))
          end
      end.

Definition codec_reconstruct (c : RsCodec) (shards : list (option (list byte))) (lost_index : nat) : EccError + list byte :=
  let n := codec_k c + codec_m c in
  if (negb (length shards =? n) || (n <=? lost_index) || match shards !! lost_index with Some (Some _) => true | _ => false end)%bool
  then inl (InvalidProfile (length shards) lost_index)
  else
    match codec_decode c shards with
    | inl e => inl e
    | inr data =>
        if lost_index <? codec_k c then inr (nth lost_index data [])
        else match codec_encode c data with inl e => inl e | inr parity => inr (nth (lost_index - codec_k c) parity []) end
    end.

(** ** The field is that of the pool *)
Lemma gf_exp_eq i : i < 512 → gf_exp i = exp_at (i mod 255).
Proof.
  intros Hi. assert (forallb (λ i, Byte.eqb (gf_exp i) (exp_at (i mod 255))) (List.seq 0 512) = true) as H by (vm_compute; reflexivity).
  rewrite forallb_forall in H. specialize (H i ltac:(apply in_seq; lia)). by apply Byte.byte_dec_bl in H.
Qed.

Lemma gf_mul_eq a b : gf_mul a b = mul a b.
Proof.
  unfold gf_mul, mul. case_match; [done|]. change (gf_log a) with (log_at a). change (gf_log b) with (log_at b).
  pose proof (log_lt a). pose proof (log_lt b). apply gf_exp_eq. lia.
Qed.

Lemma gf_inv_eq a : a ≠ x00 → inv a = Some (gf_inv a).
Proof.
  intros Ha. unfold inv, gf_inv. rewrite eqb_x00, bool_decide_false by done. f_equal. symmetry.
  change (gf_log a) with (log_at a). apply gf_exp_eq. lia.
Qed.

Lemma coeff_table_spec c b : tget (coeff_table c) b = mul c b.
Proof.
  rewrite <- gf_mul_eq. unfold tget, coeff_table, all_bytes. rewrite map_map. pose proof (b2n_lt b).
  rewrite nth_map_seq by done. f_equal.
  transitivity (byte_of_N (Byte.to_N b)); [f_equal; unfold b2n; lia|apply byte_of_to_N].
Qed.

Lemma coeff_table_xor f dst src : length dst = length src → table_xor (coeff_table f) dst src = vadd dst (vscale f src).
Proof.
  unfold vadd, vscale. revert src. induction dst as [|d dst IH]; intros [|s src] [=]; cbn [table_xor zip_with map]; [done|]. by rewrite coeff_table_spec, IH.
Qed.

Lemma eliminate_vadd f dst src : length dst = length src → eliminate dst src f = vadd dst (vscale f src).
Proof.
  unfold vadd, vscale. revert src. induction dst as [|d dst IH]; intros [|s src] [=]; cbn [eliminate zip_with map]; [done|]. by rewrite gf_mul_eq, IH.
Qed.

Lemma scale_vscale i row : map (λ v, gf_mul v i) row = vscale i row.
Proof. unfold vscale. apply map_ext. intros v. by rewrite gf_mul_eq, mul_comm. Qed.

(** ** Elimination on the augmented matrix *)
Section Augmented.
Context (k : nat).
Definition aug (a b : matrix) : matrix := zip_with (++) a b.
Definition both_wf (a b : matrix) : Prop := wf_mat k k a ∧ wf_mat k k b.

Lemma aug_nth a b i : both_wf a b → i < k → nth i (aug a b) [] = nth i a [] ++ nth i b [].
Proof.
  intros [[Ha _] [Hb _]] Hi. unfold aug. rewrite nth_lookup, lookup_zip_with, !nth_lookup_row by lia. done.
Qed.

Lemma aug_mget a b r c : both_wf a b → r < k → c < k → mget (aug a b) r c = mget a r c.
Proof.
  intros Hwf Hr Hc. unfold mget. rewrite aug_nth by done. apply app_nth1. destruct Hwf as [Ha _]. by rewrite (wf_nth k k).
Qed.

Lemma aug_insert a b i x y : <[i := x ++ y]> (aug a b) = aug (<[i := x]> a) (<[i := y]> b).
Proof. unfold aug. apply insert_zip_with. Qed.

Lemma aug_swap a b i j : both_wf a b → i < k → j < k → swap_rows (aug a b) i j = aug (swap_rows a i j) (swap_rows b i j).
Proof. intros Hwf Hi Hj. unfold swap_rows. by rewrite !aug_nth, !aug_insert by done. Qed.

Lemma swap_wf a b i j : both_wf a b → i < k → j < k → both_wf (swap_rows a i j) (swap_rows b i j).
Proof. intros [Ha Hb] Hi Hj. split; apply (run_op_wf k k _ (ESwap i j)); done || cbn; lia. Qed.

Lemma vscale_app c u v : vscale c (u ++ v) = vscale c u ++ vscale c v.
Proof. apply map_app. Qed.

Lemma vadd_app u1 u2 v1 v2 : length u1 = length v1 → vadd (u1 ++ u2) (v1 ++ v2) = vadd u1 v1 ++ vadd u2 v2.
Proof. intros H. unfold vadd. by apply zip_with_app. Qed.

Lemma aug_clear a b col r : both_wf a b → col < k → r < k →
  let ab := clear_row (sub_row k) k col (a, b) r in clear_aug col (aug a b) r = aug (fst ab) (snd ab) ∧ both_wf (fst ab) (snd ab).
Proof.
  intros Hwf Hcol Hr. pose proof Hwf as [Ha Hb]. cbn zeta. unfold clear_aug, clear_row. rewrite aug_mget by done.
  destruct (Nat.eqb_spec r col) as [->|N]; cbn [orb negb andb fst snd]; [done|]. destruct (Byte.eqb (mget a r col) x00) eqn:E; cbn [negb fst snd]; [done|].
  pose proof (wf_nth k k a r Ha Hr). pose proof (wf_nth k k a col Ha Hcol). pose proof (wf_nth k k b r Hb Hr). pose proof (wf_nth k k b col Hb Hcol).
  rewrite !sub_row_vadd by done. rewrite !aug_nth by done. rewrite eliminate_vadd by (rewrite !length_app; lia).
  rewrite vscale_app, vadd_app by (rewrite length_vscale; lia). rewrite aug_insert. split; [done|].
  split; apply wf_insert; try done; rewrite length_vadd; rewrite ?length_vscale; lia.
Qed.

Lemma aug_clear_fold rs a b col : both_wf a b → col < k → Forall (λ r, r < k) rs →
  let ab := fold_left (clear_row (sub_row k) k col) rs (a, b) in fold_left (clear_aug col) rs (aug a b) = aug (fst ab) (snd ab) ∧ both_wf (fst ab) (snd ab).
Proof.
  intros Hwf Hcol Hrs. revert a b Hwf. induction Hrs as [|r rs Hr Hrs IH]; intros a b Hwf; cbn [fold_left]; [done|].
  destruct (aug_clear a b col r Hwf Hcol Hr) as [E Hwf']. rewrite E. destruct (clear_row _ _ _ _ _) as [a1 b1]. apply IH. exact Hwf'.
Qed.

Lemma aug_scale a b col s : both_wf a b → col < k → let ab := scale_pivot col s (a, b) in
  <[col := map (λ v, gf_mul v s) (nth col (aug a b) [])]> (aug a b) = aug (fst ab) (snd ab) ∧ both_wf (fst ab) (snd ab).
Proof.
  intros Hwf Hcol. pose proof Hwf as [Ha Hb]. pose proof (wf_nth k k a col Ha Hcol). pose proof (wf_nth k k b col Hb Hcol).
  rewrite scale_vscale, aug_nth, vscale_app, aug_insert by done. cbn zeta. unfold scale_pivot. destruct (Byte.eqb s x01) eqn:E; cbn [fst snd].
  - apply Byte.byte_dec_bl in E as ->. rewrite !vscale_1. split; [|done]. f_equal; apply insert_nth_id; [destruct Ha|destruct Hb]; lia.
  - rewrite !map_tget_table. split; [done|]. split; apply wf_insert; try done; by rewrite length_vscale.
Qed.

Lemma find_ext_in {A} (f g : A → bool) l : (∀ x, In x l → f x = g x) → List.find f l = List.find g l.
Proof. intros H. induction l as [|x l IH]; [done|]. cbn. rewrite (H x) by (by left). destruct (g x); [done|]. apply IH. intros y Hy. apply H. by right. Qed.

Lemma aug_col a b col : both_wf a b → col < k →
  match gj_col (sub_row k) k (a, b) col with
  | Some (a', b') => invert_col k (aug a b) col = Some (aug a' b') ∧ both_wf a' b'
  | None => invert_col k (aug a b) col = None
  end.
Proof.
  intros Hwf Hcol. unfold gj_col, invert_col.
  assert (List.find (λ r, negb (Byte.eqb (mget (aug a b) r col) x00)) (List.seq col (k - col)) = List.find (λ r, negb (Byte.eqb (mget a r col) x00)) (List.seq col (k - col))) as ->
    by (apply find_ext_in; intros r Hr; apply in_seq in Hr; by rewrite aug_mget by (done || lia)).
  destruct (List.find _ _) as [pivot|] eqn:Hf; [|done]. apply find_some in Hf as [Hin Hp]. apply in_seq in Hin.
  rewrite eqb_x00, negb_true_iff, bool_decide_eq_false in Hp. pose proof Hwf as [Ha _].
  assert (mget (swap_rows a col pivot) col col = mget a pivot col) as Hpiv. { unfold mget. rewrite swap_rows_nth by (destruct Ha; lia). by case_decide. }
  rewrite aug_swap by (done || lia). pose proof (swap_wf a b col pivot Hwf Hcol ltac:(lia)) as Hwf1. rewrite aug_mget, Hpiv, (gf_inv_eq _ Hp) by done.
  destruct (aug_scale _ _ col (gf_inv (mget a pivot col)) Hwf1 Hcol) as [E Hwf2]. rewrite E. destruct (scale_pivot _ _ _) as [a2 b2]. cbn [fst snd] in *.
  destruct (aug_clear_fold (List.seq 0 k) a2 b2 col Hwf2 Hcol) as [E3 Hwf3]. { apply Forall_forall. intros r Hr. apply in_seq in Hr. lia. }
  destruct (fold_left (clear_row (sub_row k) k col) (List.seq 0 k) (a2, b2)) as [a3 b3]. cbn [fst snd] in *. by rewrite E3.
Qed.

Lemma aug_cols cols a b : both_wf a b → Forall (λ c, c < k) cols →
  invert_cols k (aug a b) cols = (λ ab, aug (fst ab) (snd ab)) <$> gj_cols (sub_row k) k (a, b) cols.
Proof.
  intros Hwf Hc. revert a b Hwf. induction Hc as [|col cols Hcol Hc IH]; intros a b Hwf; [done|]. cbn [invert_cols gj_cols].
  pose proof (aug_col a b col Hwf Hcol) as H. destruct (gj_col _ _ _ _) as [[a' b']|]; [|by rewrite H]. destruct H as [-> Hwf']. cbn [mbind option_bind]. by apply IH.
Qed.
End Augmented.

(** Inversion succeeds on every matrix with a trivial kernel, with its inverse. *)
Lemma invert_matrix_ok k a : 0 < k → wf_mat k k a → trivial_kernel k a → ∃ t, invert_matrix a = inr t ∧ inverts k a t.
Proof.
  intros Hk Ha Ht. destruct (invert_gf256_spec k a Ha Ht) as (t & Et & Hinv). exists t. split; [|exact Hinv].
  unfold invert_matrix. pose proof Ha as [Hlen Hrows]. rewrite Hlen, (proj2 (Nat.eqb_neq k 0)) by lia. cbn [orb].
  assert (existsb (λ r, negb (length r =? k)) a = false) as ->.
  { apply not_true_iff_false. intros (r & Hr & E)%existsb_exists. rewrite Forall_forall in Hrows. rewrite (Hrows r Hr), Nat.eqb_refl in E. done. }
  assert (imap (λ r row, row ++ map (λ c, if c =? r then x01 else x00) (List.seq 0 k)) a = aug a (identity k)) as ->.
  { apply matrix_eq; unfold aug; rewrite length_imap; [rewrite length_zip_with; pose proof (wf_identity k) as [? _]; lia|]. intros i Hi.
    rewrite (aug_nth k) by (done || lia || (split; [done|apply wf_identity])). rewrite nth_lookup, list_lookup_imap, nth_lookup_row by done.
    cbn [fmap option_fmap option_map default from_option id]. rewrite nth_identity by lia. f_equal. unfold unit_row. apply map_ext. intros c. by rewrite Nat.eqb_sym. }
  rewrite (aug_cols k); [|split; [done|apply wf_identity]|apply Forall_forall; intros c Hc; apply in_seq in Hc; lia].
  unfold invert_gf256 in Et. destruct (gj_total k k (sub_row k)) with a (identity k) as (ops & Hops & _ & Eg); [intros; by apply sub_row_vadd|done|apply wf_identity|done|].
  rewrite Eg in Et |- *. cbn in Et. injection Et as <-. cbn [fmap option_fmap option_map fst snd]. f_equal.
  assert (wf_mat k k (run_ops (identity k) ops)) as Hwf by (apply run_ops_wf; [apply wf_identity|done]).
  apply matrix_eq; rewrite length_map, length_seq; [by destruct Hwf|]. intros i Hi. rewrite nth_map_seq by done.
  rewrite (aug_nth k) by (done || (split; [apply wf_identity|done])). pose proof (wf_nth k k _ i (wf_identity k) Hi). pose proof (wf_nth k k _ i Hwf Hi).
  rewrite drop_app_length' by done. by apply take_ge, Nat.eq_le_incl.
Qed.

(** ** The encoding matrix *)
Definition ecc_point (r : nat) : byte := byte_of_N (N.of_nat r).

Lemma power_row_spec k r : power_row k r = vrow k (ecc_point r).
Proof.
  unfold power_row. fold (ecc_point r). set (x := ecc_point r).
  enough (∀ n, n ≤ k - 1 → let row := fold_left (λ row c, <[c := gf_mul (nth (c - 1) row x00) x]> row) (List.seq 1 n) (replicate k x01) in
    length row = k ∧ ∀ c, c < k → nth c row x00 = if c <=? n then xpow x c else x01) as H.
  { destruct (H (k - 1) ltac:(lia)) as [Hl Hn]. apply (nth_ext _ _ x00 x00); [by rewrite length_vrow|]. rewrite Hl. intros c Hc.
    rewrite (Hn c Hc), (proj2 (Nat.leb_le c (k - 1))) by lia. unfold vrow. by rewrite nth_map_seq. }
  induction n as [|n IH]; intros Hn.
  - cbn [List.seq fold_left]. split; [apply length_replicate|]. intros c Hc. rewrite nth_lookup, lookup_replicate_2 by done. cbn [default from_option id].
    destruct (Nat.leb_spec c 0); [|done]. by assert (c = 0) as -> by lia.
  - destruct (IH ltac:(lia)) as [Hl Hc]. rewrite seq_S, fold_left_app. set (row := fold_left _ _ _) in *. cbn [fold_left]. split; [by rewrite length_insert|].
    intros c Hck. rewrite nth_lookup, list_lookup_insert. case_decide as Hd.
    + destruct Hd as [<- _]. cbn [default from_option id]. rewrite gf_mul_eq, Hc, (proj2 (Nat.leb_le _ _)) by lia.
      rewrite (proj2 (Nat.leb_le _ _)) by lia. replace (1 + n) with (S n) by lia. by rewrite xpow_S, Nat.sub_succ, Nat.sub_0_r.
    + rewrite <- nth_lookup, Hc by done. destruct (Nat.leb_spec c n), (Nat.leb_spec c (S n)); try done; lia.
Qed.

Lemma ecc_point_inj i j : i < 256 → j < 256 → ecc_point i = ecc_point j → i = j.
Proof. intros Hi Hj H. apply (f_equal Byte.to_N) in H. unfold ecc_point in H. rewrite !to_N_of_N, !N.mod_small in H; lia. Qed.

Lemma power_rows n k : n ≤ 256 → let v := map (power_row k) (List.seq 0 n) in wf_mat n k v ∧ any_rows_independent n k v.
Proof.
  intros Hn v. assert (v = map (λ r, vrow k (ecc_point r)) (List.seq 0 n)) as Ev by (apply map_ext; intros r; apply power_row_spec). split.
  - rewrite Ev. split; [by rewrite length_map, length_seq|]. apply Forall_map, Forall_forall. intros. apply length_vrow.
  - intros idxs Hnd Hlt Hk. replace (map _ idxs) with (map (vrow (length (map ecc_point idxs))) (map ecc_point idxs)).
    + rewrite <- Hk, <- (length_map ecc_point idxs). apply vandermonde_kernel. clear Hk. induction Hnd as [|i idxs Hi Hnd IH]; cbn; [constructor|].
      apply Forall_cons_iff in Hlt as [Hi' Hlt]. constructor; [|by apply IH]. intros (j & Hj & Hin)%list_elem_of_fmap. rewrite Forall_forall in Hlt.
      specialize (Hlt j (proj1 (list_elem_of_In _ _) Hin)). apply ecc_point_inj in Hj; [|lia..]. by subst j.
    + rewrite map_map, length_map, Hk. apply map_ext_in. intros i Hi. rewrite Forall_forall in Hlt. rewrite Ev, nth_map_seq by auto. done.
Qed.

(** What the constructor guarantees. *)
Record codec_ok (k m : nat) (c : RsCodec) : Prop := {
  cd_dims : 0 < k ∧ codec_k c = k ∧ codec_m c = m;
  cd_wf : wf_mat (k + m) k (encode_matrix c);
  cd_top : ∀ i, i < k → nth i (encode_matrix c) [] = unit_row k i;
  cd_mds : any_rows_independent (k + m) k (encode_matrix c);
  cd_tables : ∀ j col, j < m → col < k → nth col (nth j (codec_tables c) []) [] = coeff_table (mget (encode_matrix c) (k + j) col)
}.

Lemma codec_new_ok k m : 0 < k → 0 < m → k + m ≤ 255 → ∃ c, codec_new k m = inr c ∧ codec_ok k m c.
Proof.
  intros Hk Hm Hn. unfold codec_new. rewrite (proj2 (Nat.eqb_neq k 0)), (proj2 (Nat.eqb_neq m 0)), (proj2 (Nat.ltb_ge _ _)) by lia. cbn [orb].
  set (n := k + m) in *. set (v := map (power_row k) (List.seq 0 n)). destruct (power_rows n k ltac:(lia)) as [Hv Hker]. fold v in Hv, Hker.
  destruct (invert_matrix_ok k (take k v) Hk (take_wf n k v ltac:(lia) Hv) (top_kernel n k v ltac:(lia) Hv Hker)) as (t & -> & Ht). set (em := map _ (List.seq 0 n)).
  assert (em = mat_mul v t n k k) as Eem.
  { unfold em, mat_mul. apply map_ext. intros r. apply map_ext. intros c. generalize (List.seq 0 k) x00. intros l acc. revert acc.
    induction l as [|i l IH]; intros acc; cbn [fold_left]; [done|]. by rewrite gf_mul_eq, IH. }
  assert (∀ i, i < n → nth i em [] = lincomb k (nth i v []) t) as Hrow by (intros i Hi; rewrite Eem; apply mat_mul_spec; [done|apply Ht|done]).
  eexists. split; [done|]. split; cbn [codec_k codec_m encode_matrix codec_tables].
  - done.
  - rewrite Eem. apply wf_mat_mul.
  - intros i Hi. by apply (systematic_top n k v t em ltac:(lia) Hv Ht Hrow).
  - apply (systematic_mds n k v t); [lia|done..].
  - intros j col Hj Hcol. rewrite nth_map_seq by done. by rewrite nth_map_seq.
Qed.

Lemma codec_new_spec k m c : codec_new k m = inr c → codec_ok k m c.
Proof.
  intros H. unfold codec_new in H. destruct ((k =? 0) || (m =? 0) || (255 <? k + m))%bool eqn:E; [done|].
  apply orb_false_iff in E as [[E1 E2]%orb_false_iff E3]. apply Nat.eqb_neq in E1, E2. apply Nat.ltb_ge in E3.
  destruct (codec_new_ok k m) as (c' & Ec & Hc); [lia..|]. unfold codec_new in Ec.
  rewrite (proj2 (Nat.eqb_neq k 0)), (proj2 (Nat.eqb_neq m 0)), (proj2 (Nat.ltb_ge _ _)) in Ec by lia. cbn [orb] in Ec. congruence.
Qed.

(** ** Table-driven products *)
Lemma row_fold len row s data p : Forall (λ d, length d = len) data → length p = len → s + length data ≤ length row →
  fold_left (λ p '(col, ds), table_xor (coeff_table (nth col row x00)) p ds) (imap (λ i d, (s + i, d)) data) p = vadd p (lincomb len (drop s row) data).
Proof.
  intros Hd. revert s p. induction Hd as [|d data Hd' Hd IH]; intros s p Hp Hs; cbn [imap fold_left length] in *.
  { destruct (drop s row); cbn [lincomb]; by rewrite vadd_0_r. }
  rewrite (imap_ext _ (λ i d, (S s + i, d))) by (intros i x _; cbn; f_equal; lia). rewrite Nat.add_0_r, coeff_table_xor by congruence.
  rewrite IH; [|rewrite length_vadd; [done|rewrite length_vscale; congruence]|lia].
  destruct (drop s row) as [|c r] eqn:E; [apply (f_equal length) in E; rewrite length_drop in E; cbn in E; lia|].
  assert (nth s row x00 = c) as ->. { rewrite nth_lookup, <- (Nat.add_0_r s), <- lookup_drop, E. done. }
  assert (drop (S s) row = r) as -> by (rewrite <- Nat.add_1_r, <- drop_drop, E; done).
  cbn [lincomb]. by rewrite vadd_assoc.
Qed.

Lemma row_fold_0 len row data : Forall (λ d, length d = len) data → length data ≤ length row →
  fold_left (λ p '(col, ds), table_xor (coeff_table (nth col row x00)) p ds) (imap (λ i d, (i, d)) data) (replicate len x00) = lincomb len row data.
Proof.
  intros Hd Hl. rewrite (row_fold len row 0 data); [|done|apply length_replicate|lia]. rewrite drop_0. apply vadd_0_l. by apply length_lincomb.
Qed.

(** The columns may be added row by row. *)
Lemma fold_imap_swap (T : nat → nat → list byte) (l : list (nat * list byte)) (par : matrix) :
  fold_left (λ par '(col, ds), imap (λ j prow, table_xor (T j col) prow ds) par) l par = imap (λ j prow, fold_left (λ p '(col, ds), table_xor (T j col) p ds) l prow) par.
Proof.
  revert par. induction l as [|[col ds] l IH]; intros par; cbn [fold_left].
  - apply list_eq. intros i. rewrite list_lookup_imap. by destruct (par !! i).
  - rewrite IH. apply list_eq. intros i. rewrite !list_lookup_imap. by destruct (par !! i).
Qed.

Lemma all_lengths {A} (f : A → nat) len (l : list A) : List.find (λ s, negb (f s =? len)) l = None ↔ Forall (λ s, f s = len) l.
Proof.
  induction l as [|x l IH]; cbn; [split; [constructor|done]|]. rewrite Forall_cons_iff, <- IH. destruct (Nat.eqb_spec (f x) len); cbn; naive_solver.
Qed.

Lemma fold_snd (T : nat → list byte) (l : list (nat * list byte)) p :
  fold_left (λ p '(col, s), table_xor (T col) p (snd s)) (imap (λ i s, (i, s)) l) p = fold_left (λ p '(col, ds), table_xor (T col) p ds) (imap (λ i d, (i, d)) (map snd l)) p.
Proof.
  enough (∀ s, fold_left (λ p '(col, s), table_xor (T col) p (snd s)) (imap (λ i x, (s + i, x)) l) p =
    fold_left (λ p '(col, ds), table_xor (T col) p ds) (imap (λ i d, (s + i, d)) (map snd l)) p) as H by exact (H 0).
  revert p. induction l as [|x l IH]; intros p s; cbn [imap map fold_left]; [done|]. 
  rewrite (imap_ext _ (λ i x, (S s + i, x)) l), (imap_ext _ (λ i d, (S s + i, d)) (map snd l)) by (intros; cbn; f_equal; lia). apply IH.
Qed.

Section Codec.
Context (k m : nat) (c : RsCodec) (Hc : codec_ok k m c) (data : matrix) (len : nat) (Hd : wf_mat k len data).

Lemma wf_first_length : length (nth 0 data []) = len.
Proof. destruct (cd_dims _ _ _ Hc) as (Hk & _). by apply (wf_nth k len). Qed.

Lemma codec_encode_eq : codec_encode c data = inr (map (λ j, lincomb len (nth (k + j) (encode_matrix c) []) data) (List.seq 0 m)).
Proof.
  destruct (cd_dims _ _ _ Hc) as (Hk & Ek & Em). unfold codec_encode. pose proof Hd as [Hl Hrows]. rewrite Ek, Em, Hl, Nat.eqb_refl, wf_first_length. cbn [negb].
  rewrite (proj2 (all_lengths length len data)) by done. f_equal. rewrite (fold_imap_swap (λ j col, nth col (nth j (codec_tables c) []) [])). apply list_eq. intros j.
  rewrite list_lookup_imap, (list_lookup_fmap (λ j, lincomb len (nth (k + j) (encode_matrix c) []) data)). destruct (decide (j < m)) as [Hj|Hj].
  - rewrite lookup_replicate_2, lookup_seq_lt by done. cbn. f_equal. rewrite <- row_fold_0; [|done|rewrite (wf_nth _ _ _ _ (cd_wf _ _ _ Hc)); lia].
    assert (∀ (l : list (nat * list byte)) p, Forall (λ e, e.1 < k) l → fold_left (λ p '(col, ds), table_xor (nth col (nth j (codec_tables c) []) []) p ds) l p =
      fold_left (λ p '(col, ds), table_xor (coeff_table (nth col (nth (k + j) (encode_matrix c) []) x00)) p ds) l p) as Hext.
    { intros l p Hlt. revert p. induction Hlt as [|[col ds] l Hlt _ IH]; intros p; cbn [fold_left]; [done|]. rewrite IH, (cd_tables _ _ _ Hc) by done. done. }
    apply Hext. apply Forall_lookup. intros i [col ds] Hi. rewrite list_lookup_imap in Hi. destruct (data !! i) eqn:Ei; [|done]. injection Hi as <- <-. apply lookup_lt_Some in Ei. cbn. lia.
  - rewrite (proj1 (lookup_replicate_None m (replicate len x00) j)), lookup_seq_ge by lia. done.
Qed.

(** The shards of the stripe. *)
Definition stripe : matrix := map (λ row, lincomb len row data) (encode_matrix c).

Lemma stripe_split parity : codec_encode c data = inr parity → data ++ parity = stripe.
Proof.
  rewrite codec_encode_eq. intros [= <-]. pose proof (cd_wf _ _ _ Hc) as [Hn _]. pose proof Hd as [Hl _]. unfold stripe.
  apply matrix_eq; rewrite length_app, !length_map, length_seq; [lia|]. intros i Hi.
  rewrite (nth_indep (map _ (encode_matrix c)) [] (lincomb len [] data)) by (rewrite length_map; lia). rewrite (map_nth (λ row, lincomb len row data)).
  destruct (decide (i < k)) as [Hik|Hik].
  - rewrite app_nth1 by lia. rewrite (cd_top _ _ _ Hc) by done. symmetry. by apply (lincomb_unit len k).
  - rewrite app_nth2 by lia. rewrite Hl, nth_map_seq by lia. by replace (k + (i - k)) with i by lia.
Qed.

(** A shard set that agrees with the stripe where a shard is present. *)
Definition survives (shards : list (option (list byte))) : Prop :=
  length shards = k + m ∧ ∀ i d, shards !! i = Some (Some d) → stripe !! i = Some d.

Lemma survivors_spec s shards : NoDup (map fst (survivors_of s shards)) ∧
  ∀ i d, (i, d) ∈ survivors_of s shards ↔ s ≤ i ∧ shards !! (i - s) = Some (Some d).
Proof.
  revert s. induction shards as [|[x|] shards IH]; intros s; cbn [survivors_of map].
  - split; [constructor|]. intros i d. split; [by intros ?%elem_of_nil|]. by intros [_ ?].
  - destruct (IH (S s)) as [Hnd Hin]. cbn [fst]. split.
    + constructor; [|done]. intros H. apply list_elem_of_In, in_map_iff in H as ([i d] & E & H). cbn in E. subst i. apply list_elem_of_In, Hin in H as [? _]. lia.
    + intros i d. rewrite elem_of_cons, Hin. destruct (decide (i = s)) as [->|N].
      * rewrite Nat.sub_diag. cbn. split; [intros [[=]|[? _]]; [by subst|lia]|]. intros [_ [= ->]]. by left.
      * destruct (decide (s ≤ i)) as [Hle|Hle]; [|naive_solver lia]. replace (i - s) with (S (i - S s)) by lia. cbn. naive_solver lia.
  - destruct (IH (S s)) as [Hnd Hin]. split; [done|]. intros i d. rewrite Hin. destruct (decide (s = i)) as [->|N]; [rewrite Nat.sub_diag; cbn; naive_solver lia|].
    destruct (decide (s ≤ i)) as [Hle|Hle]; [|naive_solver lia]. replace (i - s) with (S (i - S s)) by lia. cbn. naive_solver lia.
Qed.

Lemma codec_decode_eq shards : survives shards → k ≤ length (survivors_of 0 shards) → codec_decode c shards = inr data.
Proof.
  intros [Hlen Hs] Hk. destruct (cd_dims _ _ _ Hc) as (Hk0 & Ek & Em). unfold codec_decode. rewrite Ek, Em, Hlen, Nat.eqb_refl. cbn [negb].
  rewrite (proj2 (Nat.ltb_ge _ _)) by done. destruct (survivors_spec 0 shards) as [Hnd Hin]. set (sv := survivors_of 0 shards) in *.
  assert (Hgood : ∀ i d, (i, d) ∈ sv → i < k + m ∧ d = lincomb len (nth i (encode_matrix c) []) data).
  { intros i d H. apply Hin in H as [_ H]. rewrite Nat.sub_0_r in H. split; [apply lookup_lt_Some in H; lia|]. apply Hs in H. unfold stripe in H.
    apply list_lookup_fmap_Some in H as (row & -> & Hrow). by rewrite nth_lookup, Hrow. }
  assert (Hl : Forall (λ s, length (snd s) = len) sv).
  { apply Forall_lookup. intros i [j d] Hi. apply list_elem_of_lookup_2 in Hi. apply Hgood in Hi as [_ ->]. apply length_lincomb, Hd. }
  assert (length (snd (nth 0 sv (0, []))) = len) as ->. { destruct sv as [|s sv]; [cbn in Hk; lia|]. by apply Forall_cons_iff in Hl as [? _]. }
  rewrite (proj2 (all_lengths (λ s, length (snd s)) len sv)) by done. set (picked := take k sv).
  assert (Hpl : length picked = k) by (unfold picked; rewrite length_take; lia). assert (Hpick : ∀ s, s ∈ picked → s ∈ sv) by (intros s H; eapply sublist_subseteq; [apply sublist_take|exact H]).
  set (sub := map (λ s, nth (fst s) (encode_matrix c) []) picked).
  assert (Hsub : wf_mat k k sub).
  { split; [unfold sub; by rewrite length_map|]. apply Forall_map, Forall_forall. intros [i d] H. apply list_elem_of_In, Hpick, Hgood in H as [H _]. by apply (wf_nth _ _ _ _ (cd_wf _ _ _ Hc)). }
  assert (Hker : trivial_kernel k sub).
  { unfold sub. rewrite <- (map_map fst (λ i, nth i (encode_matrix c) [])). apply (cd_mds _ _ _ Hc); [| |by rewrite length_map].
    - unfold picked. rewrite <- firstn_map. eapply sublist_NoDup; [exact Hnd|]. apply sublist_take.
    - apply Forall_map, Forall_forall. intros [i d] H. by apply list_elem_of_In, Hpick, Hgood in H as [H _]. }
  destruct (invert_matrix_ok k sub Hk0 Hsub Hker) as (t & -> & [Hwt Hinv]). f_equal.
  assert (Hb : wf_mat k len (map snd picked)) by (split; [by rewrite length_map|]; apply Forall_map; unfold picked; by apply Forall_take).
  assert (Edata : data = map (λ r, lincomb len r (map snd picked)) t).
  { apply (Hinv len data (map snd picked) Hd Hb). unfold sub. rewrite <- (map_map fst (λ i, nth i (encode_matrix c) [])). apply solves_map.
    split; [by rewrite !length_map|]. intros i idx r Hi Hr. apply list_lookup_fmap_Some in Hi as ([j d] & -> & Hi). apply list_lookup_fmap_Some in Hr as (s' & -> & Hr).
    rewrite Hi in Hr. injection Hr as <-. cbn. apply list_elem_of_lookup_2, Hpick, Hgood in Hi as [_ ->]. done. }
  rewrite Edata. apply matrix_eq; rewrite !length_map, length_seq; [by destruct Hwt|]. intros r Hr. rewrite nth_map_seq by done.
  rewrite (nth_indep (map _ t) [] (lincomb len [] (map snd picked))) by (rewrite length_map; destruct Hwt; lia). rewrite (map_nth (λ row, lincomb len row (map snd picked))).
  rewrite <- row_fold_0; [|apply Hb|rewrite (wf_nth _ _ _ _ Hwt) by done; rewrite length_map; lia].
  apply (fold_snd (λ col, coeff_table (mget t r col))).
Qed.
End Codec.

Lemma codec_encode_wf k m c data parity : codec_ok k m c → codec_encode c data = inr parity → wf_mat k (length (nth 0 data [])) data.
Proof.
  intros Hc. destruct (cd_dims _ _ _ Hc) as (_ & Ek & _). unfold codec_encode. destruct (Nat.eqb_spec (length data) (codec_k c)) as [E|]; [|done]. cbn [negb].
  destruct (List.find _ data) eqn:Ef; [done|]. intros _. apply all_lengths in Ef. split; [congruence|done].
Qed.

Lemma parity_wf k m c data parity : codec_ok k m c → codec_encode c data = inr parity → length data = k ∧ wf_mat m (length (nth 0 data [])) parity.
Proof.
  intros Hc Henc. pose proof (codec_encode_wf k m c data parity Hc Henc) as Hd. split; [apply Hd|]. rewrite (codec_encode_eq k m c Hc data _ Hd) in Henc.
  injection Henc as <-. split; [by rewrite length_map, length_seq|]. apply Forall_forall. intros r Hr. apply in_map_iff in Hr as (j & <- & _).
  apply length_lincomb, Hd.
Qed.

(** Any [k] shards of a stripe decode to its data. *)
Lemma decode_stripe k m c data parity shards : codec_new k m = inr c → codec_encode c data = inr parity → length shards = k + m →
  (∀ i d, shards !! i = Some (Some d) → (data ++ parity) !! i = Some d) → k ≤ length (survivors_of 0 shards) → codec_decode c shards = inr data.
Proof.
  intros Hnew Henc Hlen Hs Hk. pose proof (codec_new_spec k m c Hnew) as Hc. pose proof (codec_encode_wf k m c data parity Hc Henc) as Hd.
  pose proof (stripe_split k m c Hc data _ Hd parity Henc) as Est. apply (codec_decode_eq k m c Hc data _ Hd); [split; [done|]; by rewrite <- Est|done].
Qed.

(** C15: the cluster's Reed-Solomon codec. The constructor accepts exactly
    k, m >= 1 with k + m <= 255; from any shard set of a stripe in which at
    least k of the k + m shards are present, decoding returns the data shards
    (no pivot is ever missing), and reconstructing any lost shard, data or
    parity, returns that shard. *)
Theorem ecc_recovers k m data parity shards :
  (0 < k ∧ 0 < m ∧ k + m ≤ 255 ↔ ∃ c, codec_new k m = inr c) ∧
  ∀ c, codec_new k m = inr c → codec_encode c data = inr parity →
    length shards = k + m → (∀ i d, shards !! i = Some (Some d) → (data ++ parity) !! i = Some d) → k ≤ length (survivors_of 0 shards) →
    codec_decode c shards = inr data ∧ ∀ i, shards !! i = Some None → codec_reconstruct c shards i = inr (nth i (data ++ parity) []).
Proof.
  split.
  { split; [intros (Hk & Hm & Hn); destruct (codec_new_ok k m Hk Hm Hn) as (c & Ec & _); by exists c|]. intros [c Ec]. unfold codec_new in Ec.
    destruct ((k =? 0) || (m =? 0) || (255 <? k + m))%bool eqn:E; [done|]. apply orb_false_iff in E as [[E1 E2]%orb_false_iff E3].
    apply Nat.eqb_neq in E1, E2. apply Nat.ltb_ge in E3. lia. }
  intros c Hnew Henc Hlen Hs Hk. pose proof (codec_new_spec k m c Hnew) as Hc. pose proof (codec_encode_wf k m c data parity Hc Henc) as Hd.
  destruct (cd_dims _ _ _ Hc) as (Hk0 & Ek & Em). pose proof (decode_stripe k m c data parity shards Hnew Henc Hlen Hs Hk) as Hdec.
  split; [exact Hdec|]. intros i Hi. pose proof (lookup_lt_Some _ _ _ Hi) as Hlt. unfold codec_reconstruct.
  rewrite Ek, Em, Hlen, Nat.eqb_refl, Hi, (proj2 (Nat.leb_gt _ _)) by lia. cbn [negb orb]. rewrite Hdec, Henc. pose proof Hd as [Hl _].
  destruct (Nat.ltb_spec i k); [rewrite app_nth1 by lia; done|]. rewrite app_nth2 by lia. by rewrite Hl.
Qed.

Lemma ecc_recovers_witness : ∃ c parity, codec_new 3 2 = inr c ∧ codec_encode c [[x01; x02]; [x30; x04]; [xff; x77]] = inr parity ∧
  codec_decode c [None; Some [x30; x04]; None; Some (nth 0 parity []); Some (nth 1 parity [])] = inr [[x01; x02]; [x30; x04]; [xff; x77]].
Proof.
  destruct (codec_new 3 2) as [e|c] eqn:Hc; [vm_compute in Hc; discriminate|].
  destruct (codec_encode c [[x01; x02]; [x30; x04]; [xff; x77]]) as [e|parity] eqn:He; [vm_compute in Hc; injection Hc as <-; vm_compute in He; discriminate|].
  exists c, parity. split_and!; [done..|].
  apply (proj2 (ecc_recovers 3 2 [[x01; x02]; [x30; x04]; [xff; x77]] parity _) c Hc He); [done| |cbn; lia].
  vm_compute in Hc. injection Hc as <-. vm_compute in He. injection He as <-.
  intros [|[|[|[|[|i]]]]] d Hi; cbn in Hi; simplify_eq; done.
Defined.
