(* ===== verification/Raid.v ===== *)
(** * RAID address mapping and parity ([lionfs/src/pool/raid.rs])

    Where a logical block lives on the devices of a pool, and the parity of a
    stripe row: full computation, incremental update, and the reconstruction of
    one or two lost columns. The pool that uses them is in [RaidPool]. *)
From S2P Require Import Prelude GF256 Erasure.
From Stdlib Require Import NArith ZArith Lia List Strings.Byte.
From stdpp Require Import base numbers option list.
#[local] Open Scope nat_scope.

(** ** Profiles and layouts *)
Inductive RaidProfile := Single | Raid0 | Raid1 | Raid5 | Raid6 | Raid10.

#[export] Instance RaidProfile_eq_dec : EqDecision RaidProfile.
Proof. solve_decision. Defined.

Definition from_u8 (v : N) : RaidProfile :=
  match v with
  | 1 => Raid0 | 2 => Raid1 | 5 => Raid5 | 6 => Raid6 | 10 => Raid10 | _ => Single
  end%N.

Definition min_devices (p : RaidProfile) : nat :=
  match p with Single => 1 | Raid0 => 2 | Raid1 => 2 | Raid5 => 3 | Raid6 => 4 | Raid10 => 4 end.

Record StripeLayout := mkLayout {
  phys_block : N; data_devs : list nat; column : nat; parity_devs : list nat;
  other_data : list (nat * nat)  (* (device, column) *)
}.

Record RaidEngine := mkEngine { profile : RaidProfile; chunk_size_blocks : N; num_devices : nat }.

Definition engine_new (p : RaidProfile) (chunk : N) (devices : nat) : RaidEngine :=
  mkEngine p (if (chunk =? 0)%N then 1%N else chunk) devices.

Definition recommended_chunk_size_blocks (sector_size : N) : N :=
  let chunk := 32%N in
  let chunk :=
    if (0 <? sector_size)%N then
      let rem := ((chunk * 4096) mod sector_size)%N in
      if (rem =? 0)%N then chunk else (chunk - N.max ((rem + 4096 - 1) / 4096) 1)%N
    else chunk in
  N.max chunk 1.

(** [None]: a division by zero. *)
Definition simple_stripe (e : RaidEngine) (logical_block : N) (devices : nat) : option (nat * N) :=
  let chunk := chunk_size_blocks e in
  if ((chunk =? 0)%N || (devices =? 0)) then None
  else
    let stripe_idx := (logical_block / chunk)%N in
    let offset_in_stripe := (logical_block mod chunk)%N in
    Some (N.to_nat (stripe_idx mod N.of_nat devices)%N,
          ((stripe_idx / N.of_nat devices) * chunk + offset_in_stripe)%N).

(** The devices of a row that hold data, in column order. *)
Definition row_devs (devices : nat) (parity : list nat) : list nat :=
  base.filter (λ d, d ∉ parity) (seq 0 devices).

(** The parity profiles: [width] data columns to a row, the parity devices of
    a row given by [parity]. [None]: a division by zero or a column without a
    device. *)
Definition parity_layout (e : RaidEngine) (width : nat) (parity : N → list nat) (logical_block : N) : option StripeLayout :=
  let chunk := chunk_size_blocks e in
  if ((chunk =? 0)%N || (width =? 0)) then None
  else
    let chunk_idx := (logical_block / chunk)%N in
    let offset := (logical_block mod chunk)%N in
    let row := (chunk_idx / N.of_nat width)%N in
    let col := N.to_nat (chunk_idx mod N.of_nat width)%N in
    let devs := row_devs (num_devices e) (parity row) in
    this_dev ← devs !! col;
    let others := map (λ p : nat * nat, (p.2, p.1)) (base.filter (λ p : nat * nat, p.1 ≠ col) (zip (seq 0 (length devs)) devs)) in
    Some (mkLayout (row * chunk + offset)%N [this_dev] col (parity row) others).

Definition p_dev (e : RaidEngine) (row : N) : nat := N.to_nat (row mod N.of_nat (num_devices e))%N.
Definition q_dev (e : RaidEngine) (row : N) : nat := N.to_nat ((row + 1) mod N.of_nat (num_devices e))%N.

Definition parity_of (e : RaidEngine) (row : N) : list nat :=
  match profile e with Raid5 => [p_dev e row] | Raid6 => [p_dev e row; q_dev e row] | _ => [] end.

Definition layout (e : RaidEngine) (logical_block : N) : option StripeLayout :=
  match profile e with
  | Single => Some (mkLayout logical_block [0] 0 [] [])
  | Raid0 => '(dev, phys) ← simple_stripe e logical_block (num_devices e); Some (mkLayout phys [dev] 0 [] [])
  | Raid1 => Some (mkLayout logical_block (seq 0 (num_devices e)) 0 [] [])
  | Raid10 =>
      let pairs := num_devices e / 2 in
      '(pair_idx, phys) ← simple_stripe e logical_block (pairs `max` 1);
      let base := pair_idx * 2 in
      Some (mkLayout phys [base; base + 1] 0 [] [])
  | Raid5 => parity_layout e (num_devices e - 1) (parity_of e) logical_block
  | Raid6 => parity_layout e (num_devices e - 2) (parity_of e) logical_block
  end.

Definition map_read (e : RaidEngine) (logical_block : N) : option (list (nat * N)) :=
  l ← layout e logical_block; Some (map (λ d, (d, phys_block l)) (data_devs l)).

Definition map_write (e : RaidEngine) (logical_block : N) : option (list (nat * N)) :=
  l ← layout e logical_block; Some (map (λ d, (d, phys_block l)) (data_devs l)).

Definition is_parity_profile (e : RaidEngine) : bool :=
  match profile e with Raid5 | Raid6 => true | _ => false end.

(** ** Parity *)
Definition compute_raid5_parity (blocks : list (list byte)) (block_len : nat) : list byte :=
  foldl xor_into (replicate block_len x00) blocks.

Definition compute_raid6_parity (blocks : list (nat * list byte)) (block_len : nat) : list byte * list byte :=
  foldl (λ '(p, q) '(col, b), (xor_into p b, mul_xor_into q b (pow col)))
    (replicate block_len x00, replicate block_len x00) blocks.

(** [Vec::resize]. *)
Definition resize_zero (v : list byte) (n : nat) : list byte := take n v ++ replicate (n - length v) x00.

(** [zip] stops at the shortest; the vector keeps its tail. *)
Fixpoint delta_into (f : byte → byte) (p old_data new_data : list byte) : list byte :=
  match p, old_data, new_data with
  | pv :: p, ov :: old_data, nv :: new_data => bxor pv (f (bxor ov nv)) :: delta_into f p old_data new_data
  | _, _, _ => p
  end.

Definition update_raid5_parity_incremental (old_data new_data old_p : list byte) : list byte :=
  delta_into (λ d, d) (resize_zero old_p (length old_data)) old_data new_data.

Definition update_raid6_parity_incremental (col : nat) (old_data new_data old_p old_q : list byte) : list byte * list byte :=
  let table := mul_table (pow col) in
  (delta_into (λ d, d) (resize_zero old_p (length old_data)) old_data new_data,
   delta_into (tget table) (resize_zero old_q (length old_data)) old_data new_data).

Definition rebuild_single_from_parity (p : list byte) (surviving : list (list byte)) (block_len : nat) : list byte :=
  foldl xor_into (resize_zero p block_len) surviving.

(** [None] is the [assert!] of [inv]. *)
Definition rebuild_double_from_parity (p q : list byte) (surviving : list (nat * list byte)) (x y block_len : nat) :
    option (list byte * list byte) :=
  let '(p', q') := compute_raid6_parity surviving block_len in
  let a := xor_into (resize_zero p block_len) p' in
  let b := xor_into (resize_zero q block_len) q' in
  let gx := pow x in
  let gy := pow y in
  let denom := bxor gx gy in
  let dx := mul_xor_into b a gy in
  dx ← mapM (λ byte, div byte denom) dx;
  Some (dx, xor_into a dx).

(** ** Sums of blocks *)
Ltac vlen := rewrite ?length_vscale, ?length_zeros; first [lia | rewrite length_vadd; vlen].

Fixpoint bsum (L : nat) (l : list (list byte)) : list byte :=
  match l with [] => zeros L | b :: l => vadd b (bsum L l) end.

Abbreviation sized L := (Forall (λ b : list byte, length b = L)).

Lemma length_bsum L l : sized L l → length (bsum L l) = L.
Proof. induction 1 as [|b l Hb _ IH]; cbn; [apply length_zeros|]. rewrite length_vadd; [done|]. by rewrite IH. Qed.

Lemma bsum_perm L l l' : l ≡ₚ l' → bsum L l = bsum L l'.
Proof.
  induction 1 as [|b l l' _ IH|b b' l|l l' l'' _ IH1 _ IH2]; cbn; [done|by rewrite IH| |by rewrite IH1].
  by rewrite !vadd_assoc, (vadd_comm b' b).
Qed.

Lemma xor_into_vadd dst src : length dst = length src → xor_into dst src = vadd dst src.
Proof. revert src. induction dst as [|d dst IH]; intros [|s src] [=]; cbn; [done|]. by rewrite IH. Qed.

Lemma mul_xor_into_vadd dst src c : length dst = length src → mul_xor_into dst src c = vadd dst (vscale c src).
Proof.
  intros H. rewrite mul_xor_into_zip, drop_ge, app_nil_r by lia. unfold vadd, vscale. by rewrite zip_with_fmap_r.
Qed.

Lemma resize_zero_id v n : length v = n → resize_zero v n = v.
Proof. intros <-. unfold resize_zero. by rewrite firstn_all, Nat.sub_diag, app_nil_r. Qed.

Lemma delta_into_vadd f p o n :
  length p = length o → length o = length n → delta_into f p o n = vadd p (map f (vadd o n)).
Proof.
  revert o n. induction p as [|pv p IH]; intros [|ov o] [|nv n] [=] [=]; cbn; [done|]. f_equal. by apply IH.
Qed.

Lemma foldl_xor L acc l : length acc = L → sized L l → foldl xor_into acc l = vadd acc (bsum L l).
Proof.
  intros Hacc Hl. revert acc Hacc. induction Hl as [|b l Hb Hl IH]; intros acc Hacc; cbn; [by rewrite vadd_0_r|].
  rewrite xor_into_vadd by lia. rewrite IH by vlen. by rewrite <- vadd_assoc.
Qed.

Lemma raid5_parity_sum L l : sized L l → compute_raid5_parity l L = bsum L l.
Proof.
  intros Hl. unfold compute_raid5_parity. fold (zeros L). rewrite (foldl_xor L) by (done || apply length_zeros).
  apply vadd_0_l. by apply length_bsum.
Qed.

Definition qterm (cb : nat * list byte) : list byte := vscale (pow cb.1) cb.2.

Lemma sized_qterm L (l : list (nat * list byte)) : sized L (map snd l) → sized L (map qterm l).
Proof.
  rewrite !Forall_map. intros H. eapply Forall_impl; [exact H|]. intros [c b] Hb. cbn. unfold qterm. by rewrite length_vscale.
Qed.

Lemma raid6_parity_sum L l :
  sized L (map snd l) → compute_raid6_parity l L = (bsum L (map snd l), bsum L (map qterm l)).
Proof.
  intros Hl. unfold compute_raid6_parity. fold (zeros L).
  assert (∀ p q, length p = L → length q = L →
    foldl (λ '(p, q) '(col, b), (xor_into p b, mul_xor_into q b (pow col))) (p, q) l =
    (vadd p (bsum L (map snd l)), vadd q (bsum L (map qterm l)))) as ->.
  { clear -Hl. induction l as [|[c b] l IH]; intros p q Hp Hq; cbn in *; [by rewrite !vadd_0_r|].
    apply Forall_cons in Hl as [Hb Hl]. rewrite xor_into_vadd, mul_xor_into_vadd by lia.
    rewrite IH by (done || vlen). by rewrite <- !vadd_assoc. }
  - by rewrite !vadd_0_l by (apply length_bsum; (done || by apply sized_qterm)).
  - apply length_zeros.
  - apply length_zeros.
Qed.

Lemma map_tget c v : map (tget (mul_table (pow c))) v = vscale (pow c) v.
Proof. unfold vscale. apply map_ext. intros b. apply mul_table_spec. Qed.

(** ** The double reconstruction *)
Lemma pow_ne x y : x < 255 → y < 255 → x ≠ y → bxor (pow x) (pow y) ≠ x00.
Proof.
  intros Hx Hy Hne E. apply Hne. rewrite <- (log_exp x Hx), <- (log_exp y Hy). f_equal.
  unfold pow in E. rewrite !Nat.mod_small in E by done.
  rewrite <- (bxor_0_r (exp_at x)), <- (bxor_nilpotent (exp_at y)), bxor_assoc, E. apply bxor_0_l.
Qed.

Lemma div_mul a d : d ≠ x00 → div (mul d a) d = Some a.
Proof.
  intros Hd. unfold div. rewrite eqb_x00. destruct (inv_spec d Hd) as (j & Hj & Hdj & _). rewrite Hj.
  case_bool_decide as H0.
  - f_equal. rewrite <- (mul_1_l a), <- Hdj, (mul_comm d j), <- mul_assoc, H0, mul_0_r. done.
  - f_equal. rewrite (mul_comm d a), <- mul_assoc, Hdj, mul_comm. apply mul_1_l.
Qed.

Lemma mapM_div d v : d ≠ x00 → mapM (λ b, div b d) (vscale d v) = Some v.
Proof.
  intros Hd. induction v as [|a v IH]; [done|]. unfold vscale in *. cbn. rewrite div_mul by done. cbn. by rewrite IH.
Qed.

(** [u + v] with [v] on both sides of a sum cancels. *)
Lemma vadd_swap_cancel L u v w : length u = L → length v = L → length w = L → vadd (vadd u (vadd v w)) w = vadd u v.
Proof. intros Hu Hv Hw. rewrite <- vadd_assoc, vadd_cancel by lia. done. Qed.

(** C30: RAID-6 survives the loss of any two data columns. For a row of blocks
    of one length at distinct columns below 255, the two blocks at [x] and [y]
    are rebuilt exactly from P, Q and the other blocks, whatever order the row
    was summed in; the division never meets zero. *)
Theorem raid6_double_rebuild L x y (dx dy : list byte) (surviving row : list (nat * list byte)) :
  x < 255 → y < 255 → x ≠ y → length dx = L → length dy = L → sized L (map snd surviving) →
  row ≡ₚ (x, dx) :: (y, dy) :: surviving →
  let '(p, q) := compute_raid6_parity row L in
  rebuild_double_from_parity p q surviving x y L = Some (dx, dy).
Proof.
  intros Hx Hy Hne Hdx Hdy Hs Hrow.
  assert (sized L (map snd row)) as Hrs by (rewrite Hrow; by repeat constructor).
  rewrite (raid6_parity_sum L row Hrs). unfold rebuild_double_from_parity. rewrite (raid6_parity_sum L surviving Hs).
  rewrite (bsum_perm L (map snd row) _ (Permutation_map snd Hrow)).
  rewrite (bsum_perm L (map qterm row) _ (Permutation_map qterm Hrow)). cbn [map bsum snd].
  set (P := bsum L (map snd surviving)). set (Q := bsum L (map qterm surviving)).
  assert (length P = L ∧ length Q = L) as [HP HQ] by (split; apply length_bsum; [done|by apply sized_qterm]).
  assert (length (vscale (pow x) dx) = L ∧ length (vscale (pow y) dy) = L) as [Hqx Hqy] by (by rewrite !length_vscale).
  change (qterm (x, dx)) with (vscale (pow x) dx). change (qterm (y, dy)) with (vscale (pow y) dy).
  set (A := xor_into _ P). set (B := xor_into _ Q).
  assert (A = vadd dx dy) as ->.
  { subst A. rewrite resize_zero_id, xor_into_vadd by vlen.
    by apply (vadd_swap_cancel L). }
  assert (B = vadd (vscale (pow x) dx) (vscale (pow y) dy)) as ->.
  { subst B. rewrite resize_zero_id, xor_into_vadd by vlen.
    by apply (vadd_swap_cancel L). }
  assert (mul_xor_into (vadd (vscale (pow x) dx) (vscale (pow y) dy)) (vadd dx dy) (pow y) =
          vscale (bxor (pow x) (pow y)) dx) as ->.
  { rewrite mul_xor_into_vadd by vlen. rewrite vscale_vadd, vscale_add.
    rewrite vadd_shuffle, vadd_nilpotent, Hqy. apply vadd_0_r. vlen. }
  rewrite mapM_div by by apply pow_ne. cbn [mbind option_bind].
  rewrite xor_into_vadd by vlen. rewrite (vadd_comm dx dy), vadd_cancel by lia. done.
Qed.

Lemma raid6_double_rebuild_witness :
  let '(p, q) := compute_raid6_parity [(0, [x01; xff]); (1, [x30; x04]); (2, [x77; x00])] 2 in
  rebuild_double_from_parity p q [(1, [x30; x04])] 2 0 2 = Some ([x77; x00], [x01; xff]).
Proof.
  apply (raid6_double_rebuild 2 2 0 [x77; x00] [x01; xff] [(1, [x30; x04])]); try lia; try done.
  - by repeat constructor.
  - etransitivity; [|apply perm_swap]. apply perm_skip, perm_swap.
Defined.

(** ** Rows and layouts *)
Definition engine_ok (e : RaidEngine) : Prop := min_devices (profile e) ≤ num_devices e ∧ (0 < chunk_size_blocks e)%N.

Definition row_of (e : RaidEngine) (phys : N) : N := (phys / chunk_size_blocks e)%N.

(** The data devices of a row with their columns. *)
Definition row_cols (e : RaidEngine) (row : N) : list (nat * nat) :=
  let devs := row_devs (num_devices e) (parity_of e row) in
  map (λ p : nat * nat, (p.2, p.1)) (zip (seq 0 (length devs)) devs).

Lemma row_devs_elem n p d : d ∈ row_devs n p ↔ (d ∉ p) ∧ d < n.
Proof. unfold row_devs. rewrite list_elem_of_filter, elem_of_seq. split; intros [? ?]; split; (done || lia). Qed.

Lemma row_devs_NoDup n p : NoDup (row_devs n p).
Proof. apply NoDup_filter, NoDup_seq. Qed.

Lemma row_devs_perm n p : NoDup p → Forall (λ d, d < n) p → p ++ row_devs n p ≡ₚ seq 0 n.
Proof.
  intros Hnd Hlt. rewrite Forall_forall in Hlt. apply NoDup_Permutation.
  - apply NoDup_app. split_and!; [done| |apply row_devs_NoDup]. intros d Hd [? _]%row_devs_elem. done.
  - apply NoDup_seq.
  - intros d. rewrite elem_of_app, row_devs_elem, elem_of_seq. destruct (decide (d ∈ p)) as [Hd|Hd].
    + specialize (Hlt d Hd). split; [lia|tauto].
    + split; [intros [?|[_ ?]]; [done|lia]|]. intros. right. split; [done|lia].
Qed.

Lemma row_devs_length n p : NoDup p → Forall (λ d, d < n) p → length (row_devs n p) = n - length p.
Proof. intros H1 H2. pose proof (Permutation_length (row_devs_perm n p H1 H2)) as H. rewrite length_app, length_seq in H. lia. Qed.

Lemma parity_of_ok e row :
  engine_ok e → is_parity_profile e = true → NoDup (parity_of e row) ∧ Forall (λ d, d < num_devices e) (parity_of e row) ∧
  length (parity_of e row) = (match profile e with Raid6 => 2 | _ => 1 end).
Proof.
  intros [Hn _] Hp. unfold is_parity_profile, parity_of in *.
  assert (∀ r, N.to_nat (r mod N.of_nat (num_devices e)) < num_devices e) as Hlt.
  { intros r. pose proof (N.mod_lt r (N.of_nat (num_devices e))). destruct (profile e); cbn in Hn; try done; lia. }
  destruct (profile e) eqn:E; try done; split_and!; try done.
  - apply NoDup_singleton.
  - apply Forall_singleton, Hlt.
  - apply NoDup_cons. split; [|apply NoDup_singleton]. rewrite list_elem_of_singleton. unfold p_dev, q_dev. cbn in Hn.
    intros Heq%N2Nat.inj. set (n := N.of_nat (num_devices e)) in *. assert (4 <= n)%N as Hn4 by lia.
    rewrite N.Div0.add_mod, (N.mod_small 1) in Heq by lia.
    pose proof (N.mod_lt row n ltac:(lia)). destruct (decide (row mod n + 1 < n)%N) as [H1|H1].
    + rewrite (N.mod_small (row mod n + 1)) in Heq by done. lia.
    + replace (row mod n + 1)%N with (1 * n)%N in Heq by lia. rewrite N.Div0.mod_mul in Heq. lia.
  - apply Forall_cons_2; [apply Hlt|apply Forall_singleton, Hlt].
Qed.

Lemma filter_key_perm (l : list (nat * nat)) (x : nat * nat) :
  NoDup (map fst l) → x ∈ l → l ≡ₚ x :: base.filter (λ p : nat * nat, p.1 ≠ x.1) l.
Proof.
  induction l as [|y l IH]; intros Hnd Hx; [by apply not_elem_of_nil in Hx|]. cbn in Hnd. apply NoDup_cons in Hnd as [Hy Hnd].
  rewrite filter_cons. apply elem_of_cons in Hx as [->|Hx].
  - rewrite decide_False by (by intros ?). rewrite filter_all_id; [done|].
    intros p Hp Heq. apply Hy. rewrite <- Heq. by apply list_elem_of_fmap_2.
  - rewrite decide_True.
    + rewrite (IH Hnd Hx) at 1. apply perm_swap.
    + intros Heq. apply Hy. rewrite Heq. by apply list_elem_of_fmap_2.
Qed.

Definition width_of (e : RaidEngine) : nat := num_devices e - (match profile e with Raid6 => 2 | _ => 1 end).

Lemma row_devs_width e row :
  engine_ok e → is_parity_profile e = true → length (row_devs (num_devices e) (parity_of e row)) = width_of e.
Proof. intros He Hp. destruct (parity_of_ok e row He Hp) as (H1 & H2 & H3). rewrite row_devs_length by done. unfold width_of. lia. Qed.

Lemma layout_parity_profile e b :
  is_parity_profile e = true → layout e b = parity_layout e (width_of e) (parity_of e) b.
Proof. unfold is_parity_profile, layout, width_of. by destruct (profile e). Qed.

(** The layout of a block on a parity profile, in terms of its row. *)
Lemma parity_layout_row e b :
  engine_ok e → is_parity_profile e = true →
  let chunk := chunk_size_blocks e in
  let w := N.of_nat (width_of e) in
  let row := (b / chunk / w)%N in
  let col := N.to_nat (b / chunk mod w) in
  ∃ dev others, layout e b = Some (mkLayout (row * chunk + b mod chunk) [dev] col (parity_of e row) others) ∧
    row_of e (row * chunk + b mod chunk) = row ∧
    row_devs (num_devices e) (parity_of e row) !! col = Some dev ∧ row_cols e row ≡ₚ (dev, col) :: others.
Proof.
  intros He Hp. cbv zeta. set (chunk := chunk_size_blocks e). set (w := N.of_nat (width_of e)).
  set (row := (b / chunk / w)%N). set (col := N.to_nat _). pose proof He as [Hn Hc].
  assert (0 < width_of e) as Hw.
  { unfold width_of, is_parity_profile in *. destruct (profile e); cbn in Hn; try done; lia. }
  pose proof (row_devs_width e row He Hp) as Hlen. set (devs := row_devs _ _) in *.
  assert (col < length devs) as Hcol.
  { subst col. rewrite Hlen. pose proof (N.mod_lt (b / chunk) w). lia. }
  destruct (lookup_lt_is_Some_2 devs col Hcol) as [dev Hdev].
  exists dev. eexists. split; [|split_and!; [|done|]].
  - rewrite layout_parity_profile by done. unfold parity_layout. fold chunk w.
    rewrite (proj2 (N.eqb_neq chunk 0)) by lia. rewrite (proj2 (Nat.eqb_neq (width_of e) 0)) by lia. cbn [orb].
    fold row. fold col. fold devs. rewrite Hdev. cbn. reflexivity.
  - unfold row_of. fold chunk. rewrite N.div_add_l by lia. rewrite N.div_small by (apply N.mod_lt; lia). lia.
  - unfold row_cols. fold devs. rewrite (filter_key_perm (zip (seq 0 (length devs)) devs) (col, dev)) at 1; [done| |].
    + change (NoDup (zip (seq 0 (length devs)) devs).*1). rewrite fst_zip by (rewrite length_seq; lia). apply NoDup_seq.
    + apply list_elem_of_lookup_2 with col. apply lookup_zip_Some. split; [|done]. by rewrite lookup_seq_lt.
Qed.

(** A block is determined by its row, its column in the row and its offset. *)
Lemma stripe_inj (c n b b' : N) :
  (0 < c)%N → (0 < n)%N → ((b / c) mod n = (b' / c) mod n)%N →
  (b / c / n * c + b mod c = b' / c / n * c + b' mod c)%N → b = b'.
Proof.
  intros Hc Hn H1 H2.
  assert (b / c / n = b' / c / n ∧ b mod c = b' mod c)%N as [Hr Ho].
  { pose proof (N.mod_lt b c ltac:(lia)). pose proof (N.mod_lt b' c ltac:(lia)).
    pose proof (N.div_add_l (b / c / n) c (b mod c) ltac:(lia)) as E1. rewrite H2, N.div_add_l in E1 by lia.
    rewrite (N.div_small (b mod c)), (N.div_small (b' mod c)) in E1 by done. nia. }
  rewrite (N.div_mod' b c), (N.div_mod' b' c), Ho. f_equal. f_equal.
  rewrite (N.div_mod' (b / c) n), (N.div_mod' (b' / c) n), Hr, H1. done.
Qed.

Lemma simple_stripe_inj e b b' d :
  (0 < chunk_size_blocks e)%N → 0 < d → ∃ r r', simple_stripe e b d = Some r ∧ simple_stripe e b' d = Some r' ∧
    r.1 < d ∧ (r = r' → b = b').
Proof.
  intros Hc Hd. unfold simple_stripe. rewrite (proj2 (N.eqb_neq _ 0)) by lia. rewrite (proj2 (Nat.eqb_neq d 0)) by lia. cbn [orb].
  eexists _, _. split_and!; [done|done| |].
  - cbn. pose proof (N.mod_lt (b / chunk_size_blocks e) (N.of_nat d)). lia.
  - set (c := chunk_size_blocks e) in *. set (n := N.of_nat d). intros [= H1%N2Nat.inj H2]. apply stripe_inj with c n; (done || lia).
Qed.

Lemma row_cols_devs e row : map fst (row_cols e row) = row_devs (num_devices e) (parity_of e row).
Proof.
  unfold row_cols. rewrite map_map. set (devs := row_devs _ _). change ((zip (seq 0 (length devs)) devs).*2 = devs).
  apply snd_zip. by rewrite length_seq.
Qed.

(** The devices a layout names. *)
Definition layout_devs (l : StripeLayout) : list nat := data_devs l ++ parity_devs l ++ map fst (other_data l).

Lemma parity_layout_devs e b l :
  engine_ok e → is_parity_profile e = true → layout e b = Some l →
  layout_devs l ≡ₚ seq 0 (num_devices e) ∧
  ∀ b' l' d, layout e b' = Some l' → phys_block l = phys_block l' → d ∈ data_devs l → d ∈ data_devs l' → b = b'.
Proof.
  intros He Hp Hl. destruct (parity_layout_row e b He Hp) as (dev & others & Hl1 & Hrow & Hdev & Hcols).
  rewrite Hl in Hl1. injection Hl1 as ->. unfold layout_devs. cbn [data_devs parity_devs other_data phys_block]. split.
  - destruct (parity_of_ok e (b / chunk_size_blocks e / N.of_nat (width_of e))%N He Hp) as (H1 & H2 & _).
    rewrite <- (row_devs_perm _ _ H1 H2), <- row_cols_devs, (Permutation_map fst Hcols). cbn. apply Permutation_middle.
  - intros b' l' d Hl' Hphys Hd Hd'. destruct (parity_layout_row e b' He Hp) as (dev' & others' & Hl1 & Hrow' & Hdev' & _).
    rewrite Hl' in Hl1. injection Hl1 as ->. cbn in *. apply list_elem_of_singleton in Hd as ->, Hd' as ->.
    pose proof He as [Hn Hc]. assert (0 < width_of e) as Hw.
    { apply lookup_lt_Some in Hdev. rewrite row_devs_width in Hdev by done. by eapply Nat.le_lt_trans, Hdev; apply Nat.le_0_l. }
    rewrite <- Hphys, Hrow in Hrow'. rewrite Hrow' in Hdev. apply (stripe_inj (chunk_size_blocks e) (N.of_nat (width_of e))); try lia.
    apply N2Nat.inj. eapply NoDup_lookup; [apply row_devs_NoDup|exact Hdev|exact Hdev'].
Qed.

Lemma layout_partition_facts e b :
  engine_ok e → ∃ l, layout e b = Some l ∧ data_devs l ≠ [] ∧ NoDup (layout_devs l) ∧
    Forall (λ d, d < num_devices e) (layout_devs l) ∧
    (is_parity_profile e = true → layout_devs l ≡ₚ seq 0 (num_devices e)) ∧
    ∀ b' l' d, layout e b' = Some l' → phys_block l = phys_block l' → d ∈ data_devs l → d ∈ data_devs l' → b = b'.
Proof.
  intros He. pose proof He as [Hn Hc]. destruct (is_parity_profile e) eqn:Hp.
  { destruct (parity_layout_row e b He Hp) as (dev & others & Hl & _). eexists. split; [exact Hl|].
    destruct (parity_layout_devs e b _ He Hp Hl) as [Hperm Hinj]. split_and!; [done| | |done|done].
    - rewrite Hperm. apply NoDup_seq.
    - rewrite Hperm. apply Forall_forall. intros d Hd%elem_of_seq. lia. }
  unfold is_parity_profile in Hp. unfold layout, layout_devs. destruct (profile e) eqn:Ep; try done; cbn in Hn.
  - eexists. split_and!; [done|done|apply NoDup_singleton|by apply Forall_singleton|done|].
    intros b' l' d [= <-]. done.
  - destruct (simple_stripe_inj e b b (num_devices e) Hc ltac:(lia)) as ([dev phys] & _ & Hs & _ & Hlt & _). rewrite Hs. cbn.
    eexists. split_and!; [done|done|apply NoDup_singleton|by apply Forall_singleton|done|].
    intros b' l' d. destruct (simple_stripe_inj e b b' (num_devices e) Hc ltac:(lia)) as (r & [dev' phys'] & Hr & Hr' & _ & Hinj).
    rewrite Hs in Hr. injection Hr as <-. rewrite Hr'. cbn. intros [= <-] H1 H2%list_elem_of_singleton H3%list_elem_of_singleton.
    apply Hinj. cbn in H1. congruence.
  - eexists. split_and!; [done| | | |done|].
    + cbn. intros E. apply (f_equal length) in E. rewrite length_seq in E. cbn in E. lia.
    + cbn. rewrite app_nil_r. apply NoDup_seq.
    + cbn. rewrite app_nil_r. apply Forall_forall. intros d Hd%elem_of_seq. lia.
    + by intros b' l' d [= <-].
  - pose proof (Nat.Div0.div_le_mono 4 (num_devices e) 2 Hn) as Hp2. change (4 / 2) with 2 in Hp2.
    pose proof (Nat.Div0.mul_div_le (num_devices e) 2) as Hdiv.
    remember (num_devices e / 2) as pairs eqn:Epairs. assert (pairs `max` 1 = pairs) as -> by lia.
    destruct (simple_stripe_inj e b b pairs Hc ltac:(lia)) as ([dev phys] & _ & Hs & _ & Hlt & _). rewrite Hs. cbn.
    cbn in Hlt. eexists. split_and!; [done|done| | |done|].
    + cbn. apply NoDup_cons. split; [|apply NoDup_singleton]. rewrite list_elem_of_singleton. lia.
    + cbn. repeat apply Forall_cons_2; [lia|lia|done].
    + intros b' l' d. destruct (simple_stripe_inj e b b' pairs Hc ltac:(lia)) as (r & [dev' phys'] & Hr & Hr' & _ & Hinj).
      rewrite Hs in Hr. injection Hr as <-. rewrite Hr'. cbn.
      intros [= <-]. cbn. rewrite !elem_of_cons. intros H1 H2 H3. apply Hinj. f_equal; [|done].
      destruct H2 as [?|[?|?%elem_of_nil]], H3 as [?|[?|?%elem_of_nil]]; (done || lia).
Qed.

(** Every profile with enough devices lays every block out without a
    panic, on devices of the pool and no device twice; on the parity profiles
    the data, parity and other data devices are exactly the pool; and two
    blocks never share a place on a device. *)
Theorem layout_partition e b :
  engine_ok e → ∃ l, layout e b = Some l ∧ data_devs l ≠ [] ∧ NoDup (layout_devs l) ∧
    Forall (λ d, d < num_devices e) (layout_devs l) ∧
    (is_parity_profile e = true → layout_devs l ≡ₚ seq 0 (num_devices e)) ∧
    ∀ b' l' d, layout e b' = Some l' → phys_block l = phys_block l' → d ∈ data_devs l → d ∈ data_devs l' → b = b'.
Proof. apply layout_partition_facts. Qed.

Lemma layout_partition_witness :
  ∃ l, layout (mkEngine Raid6 8 5) 100 = Some l ∧ NoDup (layout_devs l).
Proof.
  destruct (layout_partition (mkEngine Raid6 8 5) 100 ltac:(split; cbn; lia)) as (l & H1 & _ & H2 & _). by exists l.
Defined.
