(* ===== verification/RaidPool.v ===== *)
(** * The pool behind the block layer ([lionfs/src/disk/block_io.rs])

    [Disk] over several devices: block reads and writes through the RAID
    mapping, parity maintenance on writes, the read that survives a lost
    device, and block 0, which bypasses the mapping. A device is a function
    from blocks to their 4096 bytes and may be lost; counters and geometry
    probing are left out. *)
From S2P Require Import Prelude GF256 Erasure Raid.
From Stdlib Require Import NArith ZArith Lia List Strings.Byte.
From stdpp Require Import base numbers option list.
#[local] Open Scope nat_scope.

Definition BLOCK_SIZE : nat := N.to_nat 4096.

Record Device := mkDev { dev_live : bool; dev_block : N → list byte }.

(** [OsError]: the device's read or write failed; [Other]: the block layer's
    own error; [Panic]: an index out of range or a division by zero. *)
Inductive disk_error := OsError | Other | Panic.

(** Effects over the devices. *)
Abbreviation DM := (EM disk_error (list Device)).

Definition or_panic {A} (o : option A) : DM A := match o with Some x => mret x | None => fail_with Panic end.

(** [.is_ok()] on a read: a failure becomes [None], a panic stays one. *)
Definition attempt {A} (m : DM A) : DM (option A) := λ s,
  match m s with
  | (inr x, s') => (inr (Some x), s')
  | (inl Panic, s') => (inl Panic, s')
  | (inl _, s') => (inr None, s')
  end.

Definition read_full (dev : nat) (phys : N) : DM (list byte) := λ s,
  match s !! dev with
  | Some d => if dev_live d then (inr (dev_block d phys), s) else (inl OsError, s)
  | None => (inl Panic, s)
  end.

Definition set_block (phys : N) (buf : list byte) (d : Device) : Device :=
  mkDev (dev_live d) (λ x, if (x =? phys)%N then buf else dev_block d x).

Definition pwrite_full (dev : nat) (phys : N) (buf : list byte) : DM unit := λ s,
  match s !! dev with
  | Some d => if dev_live d then (inr tt, <[dev := set_block phys buf d]> s) else (inl OsError, s)
  | None => (inl Panic, s)
  end.

Fixpoint each_write (ws : list (nat * N)) (buf : list byte) : DM unit :=
  match ws with [] => mret tt | (dev, phys) :: ws => pwrite_full dev phys buf ;; each_write ws buf end.

Fixpoint read_each (devs : list nat) (phys : N) : DM (list (list byte)) :=
  match devs with
  | [] => mret []
  | dev :: devs => b ← read_full dev phys; bs ← read_each devs phys; mret (b :: bs)
  end.

Section disk.
Context (e : RaidEngine).
(** [LFS_PARITY_FULL] of the environment. *)
Context (parity_full_forced : bool).

Definition read_block (block_num : N) : DM (list byte) :=
  if (block_num =? 0)%N then read_full 0 0
  else
    maps ← or_panic (map_read e block_num);
    '(dev_idx, physical_block) ← or_panic (head maps);
    read_full dev_idx physical_block.

(** The loop over the mirrors. *)
Fixpoint first_mirror (devs : list nat) (phys : N) : DM (list byte) :=
  match devs with
  | [] => fail_with Other
  | dev :: devs => r ← attempt (read_full dev phys); match r with Some b => mret b | None => first_mirror devs phys end
  end.

Definition reconstruct_block (block_num : N) : DM (list byte) :=
  l ← or_panic (layout e block_num);
  match profile e with
  | Raid1 | Raid10 => first_mirror (data_devs l) (phys_block l)
  | Raid5 | Raid6 =>
      surviving ← read_each (map fst (other_data l)) (phys_block l);
      pd ← or_panic (head (parity_devs l));
      p ← read_full pd (phys_block l);
      mret (rebuild_single_from_parity p surviving BLOCK_SIZE)
  | _ => fail_with Other
  end.

Definition read_block_resilient (block_num : N) : DM (list byte) := λ s,
  match read_block block_num s with
  | (inr b, s') => (inr b, s')
  | (inl Panic, s') => (inl Panic, s')
  | (inl err, s') =>
      match reconstruct_block block_num s' with
      | (inl Panic, s'') => (inl Panic, s'')
      | (inl _, s'') => (inl err, s'')
      | ok => ok
      end
  end.

(** The incremental path; [false]: old data or parity unreadable. *)
Definition parity_incremental (l : StripeLayout) (buf : list byte) : DM bool :=
  data_dev ← or_panic (head (data_devs l));
  old ← attempt (read_full data_dev (phys_block l));
  match old with
  | None => mret false
  | Some old_data =>
      match profile e with
      | Raid5 =>
          pd ← or_panic (parity_devs l !! 0);
          p ← attempt (read_full pd (phys_block l));
          match p with
          | Some old_p =>
              pwrite_full data_dev (phys_block l) buf ;;
              pwrite_full pd (phys_block l) (update_raid5_parity_incremental old_data buf old_p) ;;
              mret true
          | None => mret false
          end
      | Raid6 =>
          pd ← or_panic (parity_devs l !! 0);
          p ← attempt (read_full pd (phys_block l));
          match p with
          | None => mret false
          | Some old_p =>
              qd ← or_panic (parity_devs l !! 1);
              q ← attempt (read_full qd (phys_block l));
              match q with
              | None => mret false
              | Some old_q =>
                  let '(new_p, new_q) := update_raid6_parity_incremental (column l) old_data buf old_p old_q in
                  pwrite_full data_dev (phys_block l) buf ;;
                  pwrite_full pd (phys_block l) new_p ;;
                  pwrite_full qd (phys_block l) new_q ;;
                  mret true
              end
          end
      | _ => fail_with Panic
      end
  end.

(** The full-row recomputation. *)
Definition parity_full (l : StripeLayout) (buf : list byte) : DM unit :=
  other_bufs ← read_each (map fst (other_data l)) (phys_block l);
  data_dev ← or_panic (head (data_devs l));
  pwrite_full data_dev (phys_block l) buf ;;
  match profile e with
  | Raid5 =>
      pd ← or_panic (parity_devs l !! 0);
      pwrite_full pd (phys_block l) (compute_raid5_parity (buf :: other_bufs) BLOCK_SIZE)
  | Raid6 =>
      let '(p, q) := compute_raid6_parity ((column l, buf) :: zip (map snd (other_data l)) other_bufs) BLOCK_SIZE in
      pd ← or_panic (parity_devs l !! 0);
      pwrite_full pd (phys_block l) p ;;
      qd ← or_panic (parity_devs l !! 1);
      pwrite_full qd (phys_block l) q
  | _ => fail_with Panic
  end.

Definition write_block_parity (block_num : N) (buf : list byte) (force_full : bool) : DM unit :=
  l ← or_panic (layout e block_num);
  if force_full || parity_full_forced then parity_full l buf
  else done_ ← parity_incremental l buf; if (done_ : bool) then mret tt else parity_full l buf.

Definition write_block (block_num : N) (buf : list byte) : DM unit := λ s,
  if (block_num =? 0)%N then each_write (map (λ d, (d, 0%N)) (seq 0 (length s))) buf s
  else if is_parity_profile e then write_block_parity block_num buf false s
  else (maps ← or_panic (map_write e block_num); each_write maps buf) s.

Definition write_block_recovery (block_num : N) (buf : list byte) : DM unit :=
  if (block_num =? 0)%N then write_block block_num buf
  else if is_parity_profile e then write_block_parity block_num buf true
  else write_block block_num buf.

(** Runs of whole blocks. On one device the run is one write of all of them. *)
Fixpoint write_run (start_block : N) (bufs : list (list byte)) : DM unit :=
  match bufs with
  | [] => mret tt
  | buf :: bufs => write_block start_block buf ;; write_run (start_block + 1) bufs
  end.

Fixpoint pwrite_run (phys : N) (bufs : list (list byte)) : DM unit :=
  match bufs with
  | [] => mret tt
  | buf :: bufs => pwrite_full 0 phys buf ;; pwrite_run (phys + 1) bufs
  end.

Definition write_contiguous_run (start_block : N) (bufs : list (list byte)) : DM unit := λ s,
  match bufs with
  | [] => (inr tt, s)
  | buf :: rest =>
      if (start_block =? 0)%N then
        (each_write (map (λ d, (d, 0%N)) (seq 0 (length s))) buf ;;
         if ((length s =? 1) && bool_decide (profile e = Single)) then pwrite_run 1 rest else write_run 1 rest) s
      else if ((length s =? 1) && bool_decide (profile e = Single)) then pwrite_run start_block bufs s
      else write_run start_block bufs s
  end.
End disk.

(** ** Devices as blocks *)
Definition blk (s : list Device) (d : nat) (x : N) : list byte :=
  match s !! d with Some dv => dev_block dv x | None => [] end.

Definition upd (s : list Device) (d : nat) (x : N) (b : list byte) : list Device :=
  match s !! d with Some dv => <[d := set_block x b dv]> s | None => s end.

Abbreviation all_live := (Forall (λ d, dev_live d = true)).

Lemma length_upd s d x b : length (upd s d x b) = length s.
Proof. unfold upd. destruct (s !! d); [apply length_insert|done]. Qed.

Lemma upd_live s d x b : all_live s → all_live (upd s d x b).
Proof.
  intros Hs. unfold upd. destruct (s !! d) as [dv|] eqn:E; [|done]. apply Forall_insert; [done|].
  by apply (Forall_lookup_1 _ _ _ _ Hs E).
Qed.

Lemma blk_upd s d x b d' x' :
  d < length s → blk (upd s d x b) d' x' = if decide (d' = d ∧ x' = x) then b else blk s d' x'.
Proof.
  intros Hd. unfold blk, upd. destruct (lookup_lt_is_Some_2 s d Hd) as [dv E]. rewrite E.
  destruct (decide (d' = d)) as [->|Hne].
  - rewrite list_lookup_insert_eq by done. cbn. rewrite E. destruct (N.eqb_spec x' x) as [->|Hx].
    + by rewrite decide_True.
    + rewrite decide_False; [done|]. by intros [_ ?].
  - rewrite list_lookup_insert_ne by done. rewrite decide_False; [done|]. by intros [? _].
Qed.

Lemma read_full_ok s d x : all_live s → d < length s → read_full d x s = (inr (blk s d x), s).
Proof.
  intros Hs Hd. unfold read_full, blk. destruct (lookup_lt_is_Some_2 s d Hd) as [dv E]. rewrite E.
  by rewrite (Forall_lookup_1 _ _ _ _ Hs E).
Qed.

Lemma pwrite_full_ok s d x b : all_live s → d < length s → pwrite_full d x b s = (inr tt, upd s d x b).
Proof.
  intros Hs Hd. unfold pwrite_full, upd. destruct (lookup_lt_is_Some_2 s d Hd) as [dv E]. rewrite E.
  by rewrite (Forall_lookup_1 _ _ _ _ Hs E).
Qed.

Lemma attempt_ok {A} (m : DM A) s x s' : m s = (inr x, s') → attempt m s = (inr (Some x), s').
Proof. intros H. unfold attempt. by rewrite H. Qed.

Lemma read_each_ok s devs x :
  all_live s → Forall (λ d, d < length s) devs → read_each devs x s = (inr (map (λ d, blk s d x) devs), s).
Proof.
  intros Hs. induction 1 as [|d devs Hd _ IH]; [done|]. cbn [read_each map].
  rewrite (em_bind_ok _ _ _ _ _ (read_full_ok s d x Hs Hd)), (em_bind_ok _ _ _ _ _ IH). done.
Qed.

(** Writing one buffer to several devices at the same place. *)
Lemma each_write_ok s devs x b :
  all_live s → Forall (λ d, d < length s) devs →
  ∃ s', each_write (map (λ d, (d, x)) devs) b s = (inr tt, s') ∧ length s' = length s ∧ all_live s' ∧
    ∀ d' x', blk s' d' x' = if decide (d' ∈ devs ∧ x' = x) then b else blk s d' x'.
Proof.
  intros Hs Hdevs. revert s Hs Hdevs. induction devs as [|d devs IH]; intros s Hs Hdevs; cbn [map each_write].
  { exists s. split_and!; [done|done|done|]. intros. rewrite decide_False; [done|]. by intros [?%not_elem_of_nil _]. }
  apply Forall_cons in Hdevs as [Hd Hdevs]. rewrite (em_bind_ok _ _ _ _ _ (pwrite_full_ok s d x b Hs Hd)).
  destruct (IH (upd s d x b)) as (s' & H1 & H2 & H3 & H4).
  - by apply upd_live.
  - by rewrite length_upd.
  - exists s'. rewrite length_upd in H2. split_and!; [done|done|done|]. intros d' x'. rewrite H4, blk_upd by done.
    repeat case_decide; rewrite ?elem_of_cons in *; naive_solver.
Qed.

(** ** Redundancy *)
Section pool.
Context (e : RaidEngine).

Definition rowP (s : list Device) (x : N) : list byte :=
  bsum BLOCK_SIZE (map (λ dc, blk s dc.1 x) (row_cols e (row_of e x))).
Definition rowQ (s : list Device) (x : N) : list byte :=
  bsum BLOCK_SIZE (map (λ dc, qterm (dc.2, blk s dc.1 x)) (row_cols e (row_of e x))).

(** The parity blocks at [x] are the sums of the row's data blocks. *)
Definition parity_ok (s : list Device) (x : N) : Prop :=
  match parity_of e (row_of e x) with
  | [pd] => blk s pd x = rowP s x
  | [pd; qd] => blk s pd x = rowP s x ∧ blk s qd x = rowQ s x
  | _ => True
  end.

(** Mirrors agree and parity holds at [x]. *)
Definition redundant (s : list Device) (x : N) : Prop :=
  (∀ b l d d', layout e b = Some l → phys_block l = x → d ∈ data_devs l → d' ∈ data_devs l → blk s d x = blk s d' x) ∧
  (is_parity_profile e = true → parity_ok s x).

Definition wf_pool (s : list Device) : Prop :=
  length s = num_devices e ∧ all_live s ∧ ∀ d x, d < length s → length (blk s d x) = BLOCK_SIZE.

(** The logical block the pool holds. *)
Definition content (s : list Device) (b : N) : list byte :=
  match layout e b with
  | Some l => match data_devs l with d :: _ => blk s d (phys_block l) | [] => [] end
  | None => []
  end.

Lemma vdelta L a O b : length a = L → length O = L → length b = L → vadd (vadd a O) (vadd a b) = vadd b O.
Proof.
  intros Ha HO Hb. rewrite vadd_shuffle, vadd_nilpotent, Ha, vadd_0_l by vlen. apply vadd_comm.
Qed.

(** A stripe row around one of its data blocks. *)
Record row_view (l : StripeLayout) (dev : nat) : Prop := {
  rv_data : data_devs l = [dev];
  rv_parity : parity_devs l = parity_of e (row_of e (phys_block l));
  rv_cols : row_cols e (row_of e (phys_block l)) ≡ₚ (dev, column l) :: other_data l;
  rv_perm : dev :: parity_devs l ++ map fst (other_data l) ≡ₚ seq 0 (num_devices e)
}.

Lemma layout_row_view b l :
  engine_ok e → is_parity_profile e = true → layout e b = Some l → ∃ dev, row_view l dev.
Proof.
  intros He Hp Hl. destruct (parity_layout_devs e b l He Hp Hl) as [Hperm _].
  destruct (parity_layout_row e b He Hp) as (dev & others & Hl1 & Hrow & _ & Hcols).
  rewrite Hl in Hl1. injection Hl1 as ->. exists dev. split; cbn; rewrite ?Hrow; [done|done|done|exact Hperm].
Qed.

Section row.
Context (s : list Device) (l : StripeLayout) (dev : nat).
Context (Hs : wf_pool s) (Hv : row_view l dev).

Lemma rv_lt d : d ∈ dev :: parity_devs l ++ map fst (other_data l) → d < length s.
Proof. destruct Hs as (-> & _). rewrite (rv_perm _ _ Hv), elem_of_seq. lia. Qed.

Lemma rv_dev_lt : dev < length s.
Proof. apply rv_lt. by left. Qed.

Lemma rv_par_lt d : d ∈ parity_devs l → d < length s.
Proof. intros. apply rv_lt. right. apply elem_of_app. by left. Qed.

Lemma rv_other_lt : Forall (λ d, d < length s) (map fst (other_data l)).
Proof. apply Forall_forall. intros d Hd. apply rv_lt. right. apply elem_of_app. by right. Qed.

Lemma rv_nodup : NoDup (dev :: parity_devs l ++ map fst (other_data l)).
Proof. rewrite (rv_perm _ _ Hv). apply NoDup_seq. Qed.

Lemma rv_others_sized : sized BLOCK_SIZE (map (λ d, blk s d (phys_block l)) (map fst (other_data l))).
Proof. apply Forall_map. eapply Forall_impl; [apply rv_other_lt|]. intros d Hd. by apply Hs. Qed.

Lemma rv_others_qsized : sized BLOCK_SIZE (map (λ dc : nat * nat, qterm (dc.2, blk s dc.1 (phys_block l))) (other_data l)).
Proof.
  pose proof rv_other_lt as H. rewrite Forall_map in H. apply Forall_map. eapply Forall_impl; [exact H|].
  intros [d c] Hd. unfold qterm. cbn. rewrite length_vscale. by apply Hs.
Qed.

Lemma rowP_split s' :
  rowP s' (phys_block l) = vadd (blk s' dev (phys_block l)) (bsum BLOCK_SIZE (map (λ d, blk s' d (phys_block l)) (map fst (other_data l)))).
Proof. unfold rowP. rewrite (bsum_perm _ _ _ (Permutation_map _ (rv_cols _ _ Hv))). cbn. by rewrite map_map. Qed.

Lemma rowQ_split s' :
  rowQ s' (phys_block l) = vadd (vscale (pow (column l)) (blk s' dev (phys_block l)))
    (bsum BLOCK_SIZE (map (λ dc, qterm (dc.2, blk s' dc.1 (phys_block l))) (other_data l))).
Proof. unfold rowQ. by rewrite (bsum_perm _ _ _ (Permutation_map _ (rv_cols _ _ Hv))). Qed.

(** Rows of a state that changed the data block and parity only. *)
Lemma row_changed s' buf :
  (∀ d, d ∈ map fst (other_data l) → blk s' d (phys_block l) = blk s d (phys_block l)) →
  blk s' dev (phys_block l) = buf →
  rowP s' (phys_block l) = vadd buf (bsum BLOCK_SIZE (map (λ d, blk s d (phys_block l)) (map fst (other_data l)))) ∧
  rowQ s' (phys_block l) = vadd (vscale (pow (column l)) buf)
    (bsum BLOCK_SIZE (map (λ dc, qterm (dc.2, blk s dc.1 (phys_block l))) (other_data l))).
Proof.
  intros Ho Hd. rewrite rowP_split, rowQ_split, Hd. split.
  - f_equal. f_equal. apply map_ext_in. intros d Hin%list_elem_of_In. by apply Ho.
  - f_equal. f_equal. apply map_ext_in. intros d Hin%list_elem_of_In. f_equal. f_equal. apply Ho. by apply list_elem_of_fmap_2.
Qed.

(** What a parity write leaves: the new block, correct parity, nothing else
    changed. *)
Definition wrote (buf : list byte) (s' : list Device) : Prop :=
  wf_pool s' ∧ blk s' dev (phys_block l) = buf ∧ parity_ok s' (phys_block l) ∧
  ∀ d x, (d ≠ dev ∧ d ∉ parity_devs l) ∨ x ≠ phys_block l → blk s' d x = blk s d x.

Lemma upd_wf s0 d x b : wf_pool s0 → d < length s0 → length b = BLOCK_SIZE → wf_pool (upd s0 d x b).
Proof.
  intros (H1 & H2 & H3) Hd Hb. split_and!; [by rewrite length_upd|by apply upd_live|].
  intros d' x'. rewrite length_upd, blk_upd by done. intros. case_decide; [done|by apply H3].
Qed.

#[local] Abbreviation px := (phys_block l).

(** One parity block. *)
Lemma wrote_P buf pd p :
  parity_devs l = [pd] → length buf = BLOCK_SIZE →
  p = vadd buf (bsum BLOCK_SIZE (map (λ d, blk s d px) (map fst (other_data l)))) →
  wrote buf (upd (upd s dev px buf) pd px p).
Proof.
  intros Hpd Hbuf Hp. pose proof rv_nodup as Hnd. rewrite Hpd in Hnd. cbn in Hnd.
  pose proof rv_dev_lt as Hd. pose proof (rv_par_lt pd ltac:(rewrite Hpd; by left)) as Hpl.
  assert (length p = BLOCK_SIZE) as Hlp.
  { rewrite Hp. rewrite length_vadd; [done|]. rewrite length_bsum; [done|apply rv_others_sized]. }
  apply NoDup_cons in Hnd as [Hnd1 [Hnd2 _]%NoDup_cons]. rewrite not_elem_of_cons in Hnd1. destruct Hnd1 as [Hne Hnd1].
  assert (∀ d x', blk (upd (upd s dev px buf) pd px p) d x' =
    if decide (d = pd ∧ x' = px) then p else if decide (d = dev ∧ x' = px) then buf else blk s d x') as Hblk.
  { intros d x'. rewrite blk_upd by (by rewrite length_upd). by rewrite blk_upd. }
  assert (blk (upd (upd s dev px buf) pd px p) dev px = buf) as Hdata.
  { rewrite Hblk, decide_False by (by intros [? _]). by rewrite decide_True. }
  split_and!.
  - apply upd_wf; [by apply upd_wf|by rewrite length_upd|done].
  - done.
  - unfold parity_ok. rewrite <- (rv_parity _ _ Hv), Hpd.
    rewrite (proj1 (row_changed _ buf ltac:(intros d Hd'; rewrite Hblk, !decide_False; [done|by intros [-> _]..]) Hdata)).
    rewrite Hblk, decide_True by done. done.
  - intros d x' Hout. rewrite Hblk, !decide_False; [done| |]; rewrite Hpd, list_elem_of_singleton in Hout; naive_solver.
Qed.

(** Two of them. *)
Lemma wrote_PQ buf pd qd p q :
  parity_devs l = [pd; qd] → length buf = BLOCK_SIZE →
  p = vadd buf (bsum BLOCK_SIZE (map (λ d, blk s d px) (map fst (other_data l)))) →
  q = vadd (vscale (pow (column l)) buf) (bsum BLOCK_SIZE (map (λ dc, qterm (dc.2, blk s dc.1 px)) (other_data l))) →
  wrote buf (upd (upd (upd s dev px buf) pd px p) qd px q).
Proof.
  intros Hpd Hbuf Hp Hq. pose proof rv_nodup as Hnd. rewrite Hpd in Hnd. cbn in Hnd.
  pose proof rv_dev_lt as Hd. pose proof (rv_par_lt pd ltac:(rewrite Hpd; by left)) as Hpl.
  pose proof (rv_par_lt qd ltac:(rewrite Hpd; by right; left)) as Hql.
  assert (length p = BLOCK_SIZE) as Hlp.
  { rewrite Hp. rewrite length_vadd; [done|]. rewrite length_bsum; [done|apply rv_others_sized]. }
  assert (length q = BLOCK_SIZE) as Hlq.
  { rewrite Hq. rewrite length_vadd; rewrite length_vscale; [done|]. rewrite length_bsum; [done|apply rv_others_qsized]. }
  rewrite !NoDup_cons, !not_elem_of_cons in Hnd. destruct Hnd as ((Hne1 & Hne2 & Hnd1) & (Hne3 & Hnd2) & Hnd3 & _).
  assert (∀ d x', blk (upd (upd (upd s dev px buf) pd px p) qd px q) d x' =
    if decide (d = qd ∧ x' = px) then q else if decide (d = pd ∧ x' = px) then p else
    if decide (d = dev ∧ x' = px) then buf else blk s d x') as Hblk.
  { intros d x'. rewrite blk_upd by (by rewrite !length_upd). rewrite blk_upd by (by rewrite length_upd). by rewrite blk_upd. }
  assert (blk (upd (upd (upd s dev px buf) pd px p) qd px q) dev px = buf) as Hdata.
  { rewrite Hblk, decide_False by (by intros [? _]). rewrite decide_False by (by intros [? _]). by rewrite decide_True. }
  split_and!.
  - repeat apply upd_wf; rewrite ?length_upd; done.
  - done.
  - unfold parity_ok. rewrite <- (rv_parity _ _ Hv), Hpd.
    destruct (row_changed _ buf ltac:(intros d Hd'; rewrite Hblk, !decide_False; [done|by intros [-> _]..]) Hdata) as [-> ->].
    rewrite !Hblk. split; [|by rewrite decide_True].
    rewrite decide_False by (by intros [? _]). by rewrite decide_True.
  - intros d x' Hout. rewrite Hblk, !decide_False; [done|..]; rewrite Hpd, !elem_of_cons in Hout; naive_solver.
Qed.

Lemma parity_devs_5 : profile e = Raid5 → ∃ pd, parity_devs l = [pd].
Proof. intros E. rewrite (rv_parity _ _ Hv). unfold parity_of. rewrite E. by eexists. Qed.

Lemma parity_devs_6 : profile e = Raid6 → ∃ pd qd, parity_devs l = [pd; qd].
Proof. intros E. rewrite (rv_parity _ _ Hv). unfold parity_of. rewrite E. by eexists _, _. Qed.

Lemma panic_ok {A B} (o : option A) (x : A) (k : A → DM B) s0 : o = Some x → (or_panic o ≫= k) s0 = k x s0.
Proof. by intros ->. Qed.

Lemma pw {B} d b (k : unit → DM B) s0 :
  all_live s0 → d < length s0 → (pwrite_full d px b ≫= k) s0 = k tt (upd s0 d px b).
Proof. intros Hl Hd. by rewrite (em_bind_ok _ _ _ _ _ (pwrite_full_ok s0 d px b Hl Hd)). Qed.

Lemma parity_full_ok buf :
  is_parity_profile e = true → length buf = BLOCK_SIZE → ∃ s', parity_full e l buf s = (inr tt, s') ∧ wrote buf s'.
Proof.
  intros Hp Hbuf. pose proof Hs as (_ & Hlive & _). pose proof rv_others_sized as Ho. pose proof rv_dev_lt as Hd.
  unfold parity_full. rewrite (em_bind_ok _ _ _ _ _ (read_each_ok s _ px Hlive rv_other_lt)).
  rewrite (panic_ok _ dev) by (by rewrite (rv_data _ _ Hv)). rewrite pw by done.
  unfold is_parity_profile in Hp. destruct (profile e) eqn:Ep; try done.
  - destruct (parity_devs_5 Ep) as (pd & Hpd). rewrite (panic_ok _ pd) by (by rewrite Hpd).
    rewrite pwrite_full_ok; [|by apply upd_live|rewrite length_upd; apply rv_par_lt; rewrite Hpd; by left].
    eexists. split; [done|]. apply wrote_P; [done|done|]. by rewrite raid5_parity_sum by (by constructor).
  - destruct (parity_devs_6 Ep) as (pd & qd & Hpd).
    pose proof (rv_par_lt pd ltac:(rewrite Hpd; by left)) as Hpl. pose proof (rv_par_lt qd ltac:(rewrite Hpd; by right; left)) as Hql.
    set (zs := zip _ _). assert (map snd zs = map (λ d, blk s d px) (map fst (other_data l))) as E1.
    { change (zs.*2 = map (λ d, blk s d px) (map fst (other_data l))). apply snd_zip. by rewrite !length_map. }
    assert (map qterm zs = map (λ dc, qterm (dc.2, blk s dc.1 px)) (other_data l)) as E2.
    { subst zs. clear. induction (other_data l) as [|[d c] o IH]; [done|]. cbn. f_equal. apply IH. }
    rewrite raid6_parity_sum by (cbn; rewrite E1; by constructor). cbn [map snd bsum]. rewrite E1, E2.
    rewrite (panic_ok _ pd) by (by rewrite Hpd). rewrite pw; [|by apply upd_live|by rewrite length_upd].
    rewrite (panic_ok _ qd) by (by rewrite Hpd). rewrite pwrite_full_ok; [|by do 2 apply upd_live|by rewrite !length_upd].
    eexists. split; [done|]. by apply wrote_PQ.
Qed.

(** The incremental update is the full one when parity was right. *)
Lemma parity_incremental_ok buf :
  is_parity_profile e = true → length buf = BLOCK_SIZE → parity_ok s px →
  ∃ s', parity_incremental e l buf s = (inr true, s') ∧ wrote buf s'.
Proof.
  intros Hp Hbuf Hpar. pose proof Hs as (_ & Hlive & Hlen). pose proof rv_others_sized as Ho. pose proof rv_others_qsized as Hoq.
  pose proof rv_dev_lt as Hd. pose proof (Hlen dev px Hd) as Hold. pose proof (length_bsum _ _ Ho) as HO. pose proof (length_bsum _ _ Hoq) as HOq.
  unfold parity_incremental. rewrite (panic_ok _ dev) by (by rewrite (rv_data _ _ Hv)).
  rewrite (em_bind_ok _ _ _ _ _ (attempt_ok _ _ _ _ (read_full_ok s dev px Hlive Hd))).
  unfold is_parity_profile in Hp. unfold parity_ok in Hpar. rewrite <- (rv_parity _ _ Hv) in Hpar. destruct (profile e) eqn:Ep; try done.
  - destruct (parity_devs_5 Ep) as (pd & Hpd). pose proof (rv_par_lt pd ltac:(rewrite Hpd; by left)) as Hpl.
    rewrite Hpd in Hpar. rewrite (panic_ok _ pd) by (by rewrite Hpd).
    rewrite (em_bind_ok _ _ _ _ _ (attempt_ok _ _ _ _ (read_full_ok s pd px Hlive Hpl))).
    rewrite pw by done. rewrite pw; [|by apply upd_live|by rewrite length_upd].
    eexists. split; [done|]. apply wrote_P; [done|done|]. unfold update_raid5_parity_incremental.
    rewrite resize_zero_id by (by rewrite Hold, Hlen). rewrite delta_into_vadd by (rewrite ?Hlen; lia || done).
    rewrite map_id, Hpar, rowP_split. by apply (vdelta BLOCK_SIZE).
  - destruct (parity_devs_6 Ep) as (pd & qd & Hpd).
    pose proof (rv_par_lt pd ltac:(rewrite Hpd; by left)) as Hpl. pose proof (rv_par_lt qd ltac:(rewrite Hpd; by right; left)) as Hql.
    rewrite Hpd in Hpar. destruct Hpar as [HparP HparQ]. rewrite (panic_ok _ pd) by (by rewrite Hpd).
    rewrite (em_bind_ok _ _ _ _ _ (attempt_ok _ _ _ _ (read_full_ok s pd px Hlive Hpl))). rewrite (panic_ok _ qd) by (by rewrite Hpd).
    rewrite (em_bind_ok _ _ _ _ _ (attempt_ok _ _ _ _ (read_full_ok s qd px Hlive Hql))).
    unfold update_raid6_parity_incremental. rewrite !resize_zero_id by (by rewrite Hold, Hlen).
    rewrite !delta_into_vadd by (rewrite ?Hlen; lia || done). rewrite map_id, map_tget.
    rewrite pw by done. rewrite pw; [|by apply upd_live|by rewrite length_upd]. rewrite pw; [|by do 2 apply upd_live|by rewrite !length_upd].
    eexists. split; [done|]. apply wrote_PQ; [done|done| |].
    + rewrite HparP, rowP_split. by apply (vdelta BLOCK_SIZE).
    + rewrite HparQ, rowQ_split, vscale_vadd. apply (vdelta BLOCK_SIZE); [by rewrite length_vscale|done|by rewrite length_vscale].
Qed.

(** The lost block is the sum of the parity and the other blocks. *)
Lemma rebuild_ok pd rest :
  parity_devs l = pd :: rest → parity_ok s px → is_parity_profile e = true →
  rebuild_single_from_parity (blk s pd px) (map (λ d, blk s d px) (map fst (other_data l))) BLOCK_SIZE = blk s dev px.
Proof.
  intros Hpd Hpar Hp. pose proof Hs as (_ & Hlive & Hlen). pose proof rv_others_sized as Ho. pose proof (length_bsum _ _ Ho) as HO.
  pose proof (rv_par_lt pd ltac:(rewrite Hpd; by left)) as Hpl.
  assert (blk s pd px = rowP s px) as HP.
  { unfold parity_ok in Hpar. rewrite <- (rv_parity _ _ Hv), Hpd in Hpar. unfold is_parity_profile in Hp.
    destruct (profile e) eqn:Ep; try done.
    - destruct (parity_devs_5 Ep) as (pd' & E). rewrite Hpd in E. by injection E as -> ->.
    - destruct (parity_devs_6 Ep) as (pd' & qd & E). rewrite Hpd in E. injection E as -> ->. apply Hpar. }
  unfold rebuild_single_from_parity. rewrite resize_zero_id by (by apply Hlen). rewrite (foldl_xor BLOCK_SIZE) by (done || by apply Hlen).
  rewrite HP, rowP_split. apply vadd_cancel. rewrite HO. apply Hlen, rv_dev_lt.
Qed.
End row.
End pool.

(** ** The pool as an array of blocks *)
Definition pool_ok (e : RaidEngine) (s : list Device) : Prop := wf_pool e s ∧ ∀ x, x ≠ 0%N → redundant e s x.

(** Blocks whose place on the devices is not the one block 0 is copied to. *)
Definition addressable (e : RaidEngine) (b : N) : Prop :=
  b ≠ 0%N ∧ ∀ l, layout e b = Some l → phys_block l ≠ 0%N.

(** The profiles that survive a device. *)
Definition has_redundancy (p : RaidProfile) : bool :=
  match p with Raid1 | Raid5 | Raid6 | Raid10 => true | Single | Raid0 => false end.

(** A device is lost: its blocks can no longer be read. *)
Definition lose (k : nat) (s : list Device) : list Device := alter (λ d, mkDev false (dev_block d)) k s.

Section array.
Context (e : RaidEngine) (He : engine_ok e).

Lemma layout_data s b l d : wf_pool e s → layout e b = Some l → d ∈ layout_devs l → d < length s.
Proof.
  intros (Hlen & _) Hl Hd. destruct (layout_partition_facts e b He) as (l' & Hl' & _ & _ & Hlt & _).
  rewrite Hl in Hl'. injection Hl' as <-. rewrite Forall_forall in Hlt. rewrite Hlen. by apply Hlt.
Qed.

Lemma read_content s b : wf_pool e s → b ≠ 0%N → read_block e b s = (inr (content e s b), s).
Proof.
  intros Hs Hb. destruct (layout_partition_facts e b He) as (l & Hl & Hne & _). unfold read_block, content, map_read.
  rewrite (proj2 (N.eqb_neq b 0) Hb), Hl. cbn. destruct (data_devs l) as [|d ds] eqn:Ed; [done|]. cbn.
  apply read_full_ok; [apply Hs|]. apply (layout_data s b l); [done|done|]. unfold layout_devs. rewrite Ed. by left.
Qed.

(** Blocks at one place on the devices. *)
Lemma same_place b b' l l' :
  layout e b = Some l → layout e b' = Some l' → phys_block l' = phys_block l → b' ≠ b →
  ∀ d, d ∈ data_devs l' → (d ∉ data_devs l) ∧ (d ∉ parity_devs l).
Proof.
  intros Hl Hl' Hph Hne d Hd. destruct (layout_partition_facts e b' He) as (l1 & Hl1 & _ & Hnd & _ & _ & Hinj).
  rewrite Hl' in Hl1. injection Hl1 as <-. split; [intros Hd'; apply Hne; by eapply Hinj|].
  intros Hd'. destruct (is_parity_profile e) eqn:Hp.
  - destruct (layout_row_view e b l He Hp Hl) as [dv Hv]. destruct (layout_row_view e b' l' He Hp Hl') as [dv' Hv'].
    rewrite (rv_parity _ _ _ Hv), <- Hph, <- (rv_parity _ _ _ Hv') in Hd'. unfold layout_devs in Hnd.
    apply NoDup_app in Hnd as (_ & Hnd & _). apply (Hnd d Hd). apply elem_of_app. by left.
  - assert (parity_devs l = []) as E; [|rewrite E in Hd'; by apply not_elem_of_nil in Hd'].
    unfold layout, is_parity_profile in *. destruct (profile e); try done; injection Hl as <- || idtac; try done;
      destruct (simple_stripe _ _ _) as [[? ?]|]; cbn in Hl; [by injection Hl as <-|done|by injection Hl as <-|done].
Qed.

Lemma parity_ok_ext s s' x : (∀ d, blk s' d x = blk s d x) → parity_ok e s x → parity_ok e s' x.
Proof.
  intros Hx. unfold parity_ok, rowP, rowQ. assert (rowP e s' x = rowP e s x ∧ rowQ e s' x = rowQ e s x) as [HP HQ].
  { unfold rowP, rowQ. split; f_equal; apply map_ext; intros dc; by rewrite Hx. }
  unfold rowP, rowQ in *. rewrite HP, HQ. destruct (parity_of e (row_of e x)) as [|pd [|qd [|? ?]]]; rewrite ?Hx; done.
Qed.

(** What a block write leaves, on every profile. *)
Definition stored (s s' : list Device) (l : StripeLayout) (buf : list byte) : Prop :=
  wf_pool e s' ∧ (∀ d, d ∈ data_devs l → blk s' d (phys_block l) = buf) ∧
  (is_parity_profile e = true → parity_ok e s' (phys_block l)) ∧
  ∀ d x, ((d ∉ data_devs l) ∧ (d ∉ parity_devs l)) ∨ x ≠ phys_block l → blk s' d x = blk s d x.

Lemma wrote_stored s l dev buf s' : row_view e l dev → wrote e s l dev buf s' → stored s s' l buf.
Proof.
  intros Hv (H1 & H2 & H3 & H4). split_and!; [done| |done|].
  - intros d. rewrite (rv_data _ _ _ Hv), list_elem_of_singleton. by intros ->.
  - intros d x. rewrite (rv_data _ _ _ Hv), list_elem_of_singleton. apply H4.
Qed.

Lemma mirror_write s b l buf :
  wf_pool e s → layout e b = Some l → is_parity_profile e = false → length buf = BLOCK_SIZE →
  ∃ s', (maps ← or_panic (map_write e b); each_write maps buf) s = (inr tt, s') ∧ stored s s' l buf.
Proof.
  intros Hs Hl Hp Hbuf. unfold map_write. rewrite Hl. cbn [mbind option_bind or_panic].
  destruct (each_write_ok s (data_devs l) (phys_block l) buf) as (s' & H1 & H2 & H3 & H4).
  - apply Hs.
  - apply Forall_forall. intros d Hd. apply (layout_data s b l); [done|done|]. apply elem_of_app. by left.
  - exists s'. split; [exact H1|]. split_and!.
    + destruct Hs as (Hs1 & Hs2 & Hs3). split_and!; [lia|done|]. intros d x Hd. rewrite H4. case_decide; [done|apply Hs3; lia].
    + intros d Hd. by rewrite H4, decide_True.
    + congruence.
    + intros d x Hout. rewrite H4, decide_False; [done|]. naive_solver.
Qed.

Lemma write_stored forced s b l buf :
  wf_pool e s → b ≠ 0%N → layout e b = Some l → length buf = BLOCK_SIZE → redundant e s (phys_block l) →
  ∃ s', write_block e forced b buf s = (inr tt, s') ∧ stored s s' l buf.
Proof.
  intros Hs Hb Hl Hbuf [_ Hpar]. unfold write_block. rewrite (proj2 (N.eqb_neq b 0) Hb).
  destruct (is_parity_profile e) eqn:Hp; [|by apply (mirror_write s b)].
  destruct (layout_row_view e b l He Hp Hl) as [dev Hv]. unfold write_block_parity. rewrite (panic_ok _ l) by done. cbn [orb].
  destruct forced.
  - destruct (parity_full_ok e s l dev Hs Hv buf Hp Hbuf) as (s' & -> & Hw). exists s'. split; [done|by eapply wrote_stored].
  - destruct (parity_incremental_ok e s l dev Hs Hv buf Hp Hbuf (Hpar eq_refl)) as (s' & Hi & Hw).
    rewrite (em_bind_ok _ _ _ _ _ Hi). exists s'. split; [done|by eapply wrote_stored].
Qed.

Lemma stored_content s s' b l buf :
  layout e b = Some l → stored s s' l buf →
  content e s' b = buf ∧ ∀ b', b' ≠ b → content e s' b' = content e s b'.
Proof.
  intros Hl (H1 & H2 & _ & H4). split.
  - destruct (layout_partition_facts e b He) as (l' & Hl' & Hne & _). rewrite Hl in Hl'. injection Hl' as <-. unfold content. rewrite Hl.
    destruct (data_devs l) as [|d ds]; [done|]. apply H2. by left.
  - intros b' Hne. unfold content. destruct (layout e b') as [l'|] eqn:Hl'; [|done]. destruct (data_devs l') as [|d ds] eqn:Ed; [done|].
    apply H4. destruct (decide (phys_block l' = phys_block l)) as [Hph|]; [left|by right].
    eapply same_place; [exact Hl|exact Hl'|done|done|]. rewrite Ed. by left.
Qed.

Lemma stored_redundant s s' b l buf :
  layout e b = Some l → stored s s' l buf → ∀ x, redundant e s x → redundant e s' x.
Proof.
  intros Hl (H1 & H2 & H3 & H4) x [Hm Hpar]. destruct (decide (x = phys_block l)) as [->|Hne].
  - split; [|done]. intros b' l' d d' Hl' Hph Hd Hd'. destruct (decide (b' = b)) as [->|Hb].
    + rewrite Hl in Hl'. injection Hl' as <-. by rewrite !H2.
    + pose proof (same_place b b' l l' Hl Hl' Hph Hb) as Hout. rewrite !H4 by (left; by apply Hout). by eapply Hm.
  - split.
    + intros b' l' d d' Hl' Hph Hd Hd'. rewrite !H4 by (by right). by eapply Hm.
    + intros Hp. apply (parity_ok_ext s); [|by apply Hpar]. intros d. apply H4. by right.
Qed.


(** ** A lost device *)
Lemma read_full_lost s k d x :
  wf_pool e s → d < length s →
  read_full d x (lose k s) = (if decide (d = k) then inl OsError else inr (blk s d x), lose k s).
Proof.
  intros (_ & Hlive & _) Hd. unfold read_full, blk, lose. destruct (lookup_lt_is_Some_2 s d Hd) as [dv E].
  destruct (decide (d = k)) as [->|Hk]; [by rewrite list_lookup_alter_eq, E|]. rewrite list_lookup_alter_ne, E by done.
  by rewrite (Forall_lookup_1 _ _ _ _ Hlive E).
Qed.

Lemma first_mirror_lost s k devs x c :
  wf_pool e s → Forall (λ d, d < length s ∧ blk s d x = c) devs → (∃ d, d ∈ devs ∧ d ≠ k) →
  first_mirror devs x (lose k s) = (inr c, lose k s).
Proof.
  intros Hs. induction 1 as [|d devs [Hd Hc] _ IH]; intros (d' & Hin & Hne); [by apply not_elem_of_nil in Hin|].
  cbn [first_mirror]. unfold mbind at 1, EM_bind at 1, attempt. rewrite read_full_lost by done. case_decide as Hk; [|by rewrite Hc].
  apply IH. exists d'. apply elem_of_cons in Hin as [->|Hin]; [done|by split].
Qed.

Lemma read_each_lost s k devs x :
  wf_pool e s → Forall (λ d, d < length s ∧ d ≠ k) devs →
  read_each devs x (lose k s) = (inr (map (λ d, blk s d x) devs), lose k s).
Proof.
  intros Hs. induction 1 as [|d devs [Hd Hk] _ IH]; [done|]. cbn [read_each map]. unfold mbind at 1, EM_bind at 1.
  rewrite read_full_lost by done. rewrite decide_False by done. unfold mbind at 1, EM_bind at 1. by rewrite IH.
Qed.

Lemma reconstruct_lost s k b l ds :
  wf_pool e s → redundant e s (phys_block l) → layout e b = Some l → data_devs l = k :: ds →
  has_redundancy (profile e) = true →
  reconstruct_block e b (lose k s) = (inr (blk s k (phys_block l)), lose k s).
Proof.
  intros Hs [Hm Hpar] Hl Ed Hprof. unfold reconstruct_block. rewrite (panic_ok _ l) by done.
  destruct (is_parity_profile e) eqn:Hp.
  - destruct (layout_row_view e b l He Hp Hl) as [dev Hv]. pose proof (rv_data _ _ _ Hv) as Edev. rewrite Ed in Edev. injection Edev as -> ->.
    pose proof (rv_nodup e l dev Hv) as Hnd. apply NoDup_cons in Hnd as [Hnd _]. rewrite not_elem_of_app in Hnd.
    assert (read_each (map fst (other_data l)) (phys_block l) (lose dev s) =
      (inr (map (λ d, blk s d (phys_block l)) (map fst (other_data l))), lose dev s)) as Hre.
    { apply read_each_lost; [done|]. apply Forall_forall. intros d Hd. split; [|intros ->; tauto].
      pose proof (rv_other_lt e s l dev Hs Hv) as Hlt. rewrite Forall_forall in Hlt. by apply Hlt. }
    assert (∃ pd rest, parity_devs l = pd :: rest) as (pd & rest & Hpd).
    { rewrite (rv_parity _ _ _ Hv). unfold parity_of, is_parity_profile in *. destruct (profile e); by eauto. }
    pose proof (rebuild_ok e s l dev Hs Hv pd rest Hpd (Hpar eq_refl) Hp) as Hrb.
    assert (pd ≠ dev ∧ pd < length s) as [Hne Hlt].
    { split; [intros ->; rewrite Hpd in Hnd; apply (proj1 Hnd); by left|]. apply (rv_par_lt e s l dev Hs Hv). rewrite Hpd. by left. }
    unfold is_parity_profile in Hp. destruct (profile e); try done; rewrite (em_bind_ok _ _ _ _ _ Hre), (panic_ok _ pd) by (by rewrite Hpd);
      unfold mbind at 1, EM_bind at 1; rewrite read_full_lost, decide_False by done; by rewrite Hrb.
  - assert (first_mirror (data_devs l) (phys_block l) (lose k s) = (inr (blk s k (phys_block l)), lose k s)) as Hfm.
    { apply first_mirror_lost; [done| |].
      - apply Forall_forall. intros d Hd. split; [apply (layout_data s b l); [done|done|apply elem_of_app; by left]|].
        eapply Hm; [done|done|done|]. rewrite Ed. by left.
      - destruct (layout_partition_facts e b He) as (l' & Hl' & _ & Hnd & _). rewrite Hl in Hl'. injection Hl' as <-.
        unfold layout_devs in Hnd. rewrite Ed in Hnd. cbn in Hnd. apply NoDup_cons in Hnd as [Hnd _].
        assert (∃ d ds', ds = d :: ds') as (d & ds' & ->); [|exists d; rewrite Ed; split; [by right; left|]; intros ->; apply Hnd; by left].
        destruct He as [Hn Hc]. unfold layout, is_parity_profile in *. destruct (profile e); try done.
        + injection Hl as <-. cbn in Ed. destruct (num_devices e) as [|[|n]]; cbn in Hn; try lia. injection Ed as _ <-. by eauto.
        + destruct (simple_stripe _ _ _) as [[? ?]|]; [|done]. cbn in Hl. injection Hl as <-. injection Ed as _ <-. by eauto. }
    unfold is_parity_profile in Hp. destruct (profile e); try done.
Qed.


(** The recovery write repairs its row. Whatever the parity of the row was
    (a crash may have written the data and not the parity, or the other way
    round), after [write_block_recovery] the block holds the new content, the
    row's parity is right and no other block changed: replaying it twice is
    replaying it once. *)
Theorem recovery_write_repairs forced s b l buf :
  wf_pool e s → b ≠ 0%N → layout e b = Some l → length buf = BLOCK_SIZE →
  ∃ s', write_block_recovery e forced b buf s = (inr tt, s') ∧ wf_pool e s' ∧ content e s' b = buf ∧
    (is_parity_profile e = true → parity_ok e s' (phys_block l)) ∧ ∀ b', b' ≠ b → content e s' b' = content e s b'.
Proof.
  intros Hs Hb Hl Hbuf. assert (∃ s', write_block_recovery e forced b buf s = (inr tt, s') ∧ stored s s' l buf) as (s' & Hw & Hst).
  { unfold write_block_recovery. rewrite (proj2 (N.eqb_neq b 0) Hb). destruct (is_parity_profile e) eqn:Hp.
    - destruct (layout_row_view e b l He Hp Hl) as [dev Hv]. unfold write_block_parity. rewrite (panic_ok _ l) by done. cbn [orb].
      destruct (parity_full_ok e s l dev Hs Hv buf Hp Hbuf) as (s' & -> & Hw). exists s'. split; [done|by eapply wrote_stored].
    - unfold write_block. rewrite (proj2 (N.eqb_neq b 0) Hb), Hp. by apply (mirror_write s b). }
  destruct (stored_content s s' b l buf Hl Hst) as [Hc1 Hc2]. exists s'. split_and!; [done|apply Hst|done|apply Hst|done].
Qed.

(** ** Block 0 *)
Lemma stripe_one c n : (0 < c)%N → (1 < n)%N → (c / c / n * c + c mod c = 0)%N.
Proof. intros Hc Hn. rewrite N.div_same, N.Div0.mod_same, N.div_small by lia. done. Qed.

(** On a striped profile the block one chunk in sits at place 0 of a device. *)
Lemma chunk_at_zero l :
  profile e ≠ Single → profile e ≠ Raid1 → layout e (chunk_size_blocks e) = Some l → phys_block l = 0%N.
Proof.
  intros H1 H2. pose proof He as [Hn Hc]. set (c := chunk_size_blocks e) in *. destruct (is_parity_profile e) eqn:Hp.
  - destruct (parity_layout_row e c He Hp) as (dev & others & -> & _). intros [= <-]. cbn [phys_block]. fold c.
    apply stripe_one; [done|]. unfold width_of, is_parity_profile in *. destruct (profile e); cbn in Hn; (done || lia).
  - unfold layout, is_parity_profile in *. destruct (profile e); try done; cbn in Hn; unfold simple_stripe; fold c.
    + rewrite (proj2 (N.eqb_neq c 0)) by lia. rewrite (proj2 (Nat.eqb_neq _ 0)) by lia. cbn [orb mbind option_bind].
      intros [= <-]. cbn [phys_block]. apply stripe_one; lia.
    + pose proof (Nat.Div0.div_le_mono 4 (num_devices e) 2 Hn) as Hp2. change (4 / 2) with 2 in Hp2.
      remember (num_devices e / 2) as pairs eqn:Epairs.
      rewrite (proj2 (N.eqb_neq c 0)) by lia. rewrite (proj2 (Nat.eqb_neq _ 0)) by lia. cbn [orb mbind option_bind].
      intros [= <-]. cbn [phys_block]. apply stripe_one; lia.
Qed.

(** Writing block 0 (the superblock) copies it to place 0 of every device,
    so it can be read back from device 0, and every addressable block and all
    redundancy away from that place stay as they were. But the striped
    profiles keep data at that place: after the write, the block one chunk in
    reads back as the superblock. *)
Theorem superblock_write forced s v :
  pool_ok e s → length v = BLOCK_SIZE →
  ∃ s', write_block e forced 0 v s = (inr tt, s') ∧ pool_ok e s' ∧ read_block e 0 s' = (inr v, s') ∧
    (∀ b, addressable e b → content e s' b = content e s b) ∧
    (profile e ≠ Single → profile e ≠ Raid1 → read_block e (chunk_size_blocks e) s' = (inr v, s')).
Proof.
  intros [Hs Hred] Hv. pose proof Hs as (Hlen & Hlive & Hsz).
  destruct (each_write_ok s (seq 0 (length s)) 0 v Hlive) as (s' & H1 & H2 & H3 & H4).
  { apply Forall_forall. intros d Hd%elem_of_seq. lia. }
  assert (∀ d x, x ≠ 0%N → blk s' d x = blk s d x) as Hother.
  { intros d x Hx. rewrite H4, decide_False; [done|]. by intros [_ ?]. }
  assert (∀ d, d < length s → blk s' d 0 = v) as Hzero.
  { intros d Hd. rewrite H4, decide_True; [done|]. split; [apply elem_of_seq; lia|done]. }
  assert (wf_pool e s') as Hs'.
  { split_and!; [lia|done|]. intros d x Hd. rewrite H4. case_decide; [done|]. apply Hsz. lia. }
  assert (0 < length s) as Hpos by (destruct He as [Hn _]; rewrite Hlen; destruct (profile e); cbn in Hn; lia).
  exists s'. split_and!; [done| | | |].
  - split; [done|]. intros x Hx. destruct (Hred x Hx) as [Hm Hpar]. split.
    + intros b l d d' Hl Hph Hd Hd'. rewrite !Hother by done. by eapply Hm.
    + intros Hp. apply (parity_ok_ext s); [|by apply Hpar]. intros d. by apply Hother.
  - unfold read_block. cbn. rewrite read_full_ok by (done || lia). by rewrite Hzero.
  - intros b [Hb Hph]. unfold content. destruct (layout e b) as [l|]; [|done]. destruct (data_devs l); [done|]. by apply Hother, Hph.
  - intros Hp1 Hp2. destruct He as [Hn Hc]. rewrite read_content by (done || lia). f_equal. f_equal.
    destruct (layout_partition_facts e (chunk_size_blocks e) He) as (l & Hl & Hne & _). unfold content. rewrite Hl.
    destruct (data_devs l) as [|d ds] eqn:Ed; [done|]. rewrite (chunk_at_zero l Hp1 Hp2 Hl). apply Hzero.
    apply (layout_data s (chunk_size_blocks e) l); [done|done|]. unfold layout_devs. rewrite Ed. by left.
Qed.
End array.

(** ** Concrete pools *)
Definition zero_dev : Device := mkDev true (λ _, zeros BLOCK_SIZE).
Definition raid5_engine : RaidEngine := mkEngine Raid5 8 4.
Definition raid5_pool : list Device := replicate 4 zero_dev.

Lemma zero_sum L n : bsum L (replicate n (zeros L)) = zeros L.
Proof. induction n as [|n IH]; cbn; [done|]. rewrite IH. apply vadd_0_l, length_zeros. Qed.

Lemma map_const_blk x (l : list (nat * nat)) :
  Forall (λ dc : nat * nat, dc.1 < 4) l → map (λ dc, blk raid5_pool dc.1 x) l = replicate (length l) (zeros BLOCK_SIZE).
Proof.
  induction 1 as [|[d c] l Hd _ IH]; [done|]. cbn [map length replicate fst]. rewrite IH. f_equal. unfold blk, raid5_pool.
  by rewrite lookup_replicate_2.
Qed.

Lemma raid5_engine_ok : engine_ok raid5_engine.
Proof. split; cbn; lia. Qed.

Lemma raid5_pool_ok : pool_ok raid5_engine raid5_pool.
Proof.
  split; [split_and!|].
  - done.
  - by repeat constructor.
  - intros d x Hd. unfold blk, raid5_pool. rewrite lookup_replicate_2 by done. apply length_zeros.
  - intros x _. split.
    + intros b l d d' Hl _ Hd Hd'.
      assert (d < 4 ∧ d' < 4) as [H1 H2].
      { destruct (layout_partition_facts raid5_engine b raid5_engine_ok) as (l' & Hl' & _ & _ & Hlt & _). rewrite Hl in Hl'.
        injection Hl' as <-. rewrite Forall_forall in Hlt. split; apply Hlt, elem_of_app; by left. }
      unfold blk, raid5_pool. by rewrite !lookup_replicate_2.
    + intros _. unfold parity_ok, rowP. destruct (parity_of_ok raid5_engine (row_of raid5_engine x) raid5_engine_ok eq_refl) as (_ & Hlt & _).
      change (parity_of raid5_engine (row_of raid5_engine x)) with [p_dev raid5_engine (row_of raid5_engine x)] in *. cbv iota.
      rewrite map_const_blk, zero_sum.
      * unfold blk, raid5_pool. rewrite lookup_replicate_2; [done|]. by apply Forall_inv in Hlt.
      * apply (Forall_map fst (λ d, d < 4)). rewrite row_cols_devs. apply Forall_forall. intros d Hd%row_devs_elem. apply Hd.
Qed.

Lemma raid5_block_20 : addressable raid5_engine 20.
Proof. split; [done|]. intros l. vm_compute. by intros [= <-]. Qed.



Lemma recovery_write_repairs_witness :
  ∃ s', write_block_recovery raid5_engine false 20 (replicate BLOCK_SIZE x42) raid5_pool = (inr tt, s') ∧
    content raid5_engine s' 20 = replicate BLOCK_SIZE x42.
Proof.
  destruct (layout_partition_facts raid5_engine 20 raid5_engine_ok) as (l & Hl & _).
  destruct (recovery_write_repairs raid5_engine raid5_engine_ok false raid5_pool 20 l (replicate BLOCK_SIZE x42)
    (proj1 raid5_pool_ok) ltac:(done) Hl (length_replicate _ _)) as (s' & H1 & _ & H2 & _). by exists s'.
Defined.

Lemma superblock_write_witness :
  ∃ s', write_block raid5_engine false 0 (replicate BLOCK_SIZE x4c) raid5_pool = (inr tt, s') ∧
    read_block raid5_engine 8 s' = (inr (replicate BLOCK_SIZE x4c), s').
Proof.
  destruct (superblock_write raid5_engine raid5_engine_ok false raid5_pool (replicate BLOCK_SIZE x4c)
    raid5_pool_ok (length_replicate _ _)) as (s' & H1 & _ & _ & _ & H2). exists s'. split; [done|]. by apply H2.
Defined.
