(* ===== verification/RaftModel.v ===== *)
(** * Raft consensus of the metadata plane: the code ([lionfs-cluster/src/raft.rs])

    [Server] with its message handlers and timers, and the deterministic
    in-memory [Network] that carries the messages (drop injection included).
    [u64] terms, indices and timers are [N]; additions that can wrap use the
    release-profile wrap-around. *)
From S2P Require Import Prelude.
From Stdlib Require Import NArith ZArith QArith_base Lia Strings.Byte.
From stdpp Require Import base numbers gmap option list.
#[local] Open Scope nat_scope.

Abbreviation NodeId := nat.

Record LogEntry := mkEntry { e_term : N; e_index : N; e_command : list byte }.

#[export] Instance LogEntry_eq_dec : EqDecision LogEntry.
Proof. solve_decision. Defined.

Inductive RaftMessage :=
  | RequestVote (term : N) (candidate : NodeId) (last_log_index last_log_term : N)
  | RequestVoteReply (term : N) (vote_granted : bool)
  | AppendEntries (term : N) (leader : NodeId) (prev_log_index prev_log_term : N)
      (entries : list LogEntry) (leader_commit : N)
  | AppendEntriesReply (term : N) (success : bool) (match_index : N).

Inductive Role := Follower | Candidate | Leader.

#[export] Instance Role_eq_dec : EqDecision Role.
Proof. solve_decision. Defined.

Record Server := mkServer {
  self_id : NodeId;
  role : Role;
  current_term : N;
  voted_for : option NodeId;
  votes_received : nat;
  log : list LogEntry;
  commit_index : N;
  last_applied : N;
  next_index : gmap NodeId N;
  match_index : gmap NodeId N;
  election_timeout_in : N;
  election_timeout : N;
  heartbeat_due_in : N;
  cluster_size : nat;
  rng_state : N
}.

(** Field updates ([self.f = v]). *)
Definition set_role (v : Role) (s : Server) : Server :=
  mkServer (self_id s) v (current_term s) (voted_for s) (votes_received s) (log s) (commit_index s)
    (last_applied s) (next_index s) (match_index s) (election_timeout_in s) (election_timeout s)
    (heartbeat_due_in s) (cluster_size s) (rng_state s).
Definition set_vote (t : N) (v : option NodeId) (s : Server) : Server :=
  mkServer (self_id s) (role s) t v (votes_received s) (log s) (commit_index s)
    (last_applied s) (next_index s) (match_index s) (election_timeout_in s) (election_timeout s)
    (heartbeat_due_in s) (cluster_size s) (rng_state s).
Definition set_votes_received (v : nat) (s : Server) : Server :=
  mkServer (self_id s) (role s) (current_term s) (voted_for s) v (log s) (commit_index s)
    (last_applied s) (next_index s) (match_index s) (election_timeout_in s) (election_timeout s)
    (heartbeat_due_in s) (cluster_size s) (rng_state s).
Definition set_log (v : list LogEntry) (s : Server) : Server :=
  mkServer (self_id s) (role s) (current_term s) (voted_for s) (votes_received s) v (commit_index s)
    (last_applied s) (next_index s) (match_index s) (election_timeout_in s) (election_timeout s)
    (heartbeat_due_in s) (cluster_size s) (rng_state s).
Definition set_commit_index (v : N) (s : Server) : Server :=
  mkServer (self_id s) (role s) (current_term s) (voted_for s) (votes_received s) (log s) v
    (last_applied s) (next_index s) (match_index s) (election_timeout_in s) (election_timeout s)
    (heartbeat_due_in s) (cluster_size s) (rng_state s).
Definition set_progress (ni mi : gmap NodeId N) (s : Server) : Server :=
  mkServer (self_id s) (role s) (current_term s) (voted_for s) (votes_received s) (log s)
    (commit_index s) (last_applied s) ni mi (election_timeout_in s) (election_timeout s)
    (heartbeat_due_in s) (cluster_size s) (rng_state s).
Definition set_timers (et_in et hb rng : N) (s : Server) : Server :=
  mkServer (self_id s) (role s) (current_term s) (voted_for s) (votes_received s) (log s)
    (commit_index s) (last_applied s) (next_index s) (match_index s) et_in et hb
    (cluster_size s) rng.
Definition set_election_timeout_in (v : N) (s : Server) : Server :=
  set_timers v (election_timeout s) (heartbeat_due_in s) (rng_state s) s.
Definition set_heartbeat_due_in (v : N) (s : Server) : Server :=
  set_timers (election_timeout_in s) (election_timeout s) v (rng_state s) s.

(** [0..cluster_size] without [id]. *)
Definition peers_of (id n : nat) : list NodeId := filter (λ p, p ≠ id) (seq 0 n).

Definition server_new (id : NodeId) (cluster_size : nat) : Server :=
  let timeout := (150 + (N.of_nat id * 37) mod 50)%N in
  let peers := peers_of id cluster_size in
  mkServer id Follower 0 None 0 [] 0 0
    (foldr (λ p m, <[p := 1%N]> m) ∅ peers) (foldr (λ p m, <[p := 0%N]> m) ∅ peers)
    timeout timeout 0 cluster_size
    (N.lor (wadd64 (wmul64 (N.of_nat id) 6364136223846793005) 1442695040888963407) 1).

Definition quorum (s : Server) : nat := cluster_size s / 2 + 1.

Definition log_last_index (l : list LogEntry) : N :=
  match last l with Some e => e_index e | None => 0 end.
Definition last_log_index (s : Server) : N := log_last_index (log s).
Definition last_log_term (s : Server) : N :=
  match last (log s) with Some e => e_term e | None => 0 end.

(** xorshift64: the new state is also the value drawn. *)
Definition next_rand (x : N) : N :=
  let x := N.lxor x (wshl64 x 13) in
  let x := N.lxor x (N.shiftr x 7) in
  N.lxor x (wshl64 x 17).

Definition find_index (l : list LogEntry) (i : N) : option LogEntry :=
  find (λ e, N.eqb (e_index e) i) l.

Definition build_append_for (s : Server) (peer : NodeId) : RaftMessage :=
  let next := default 1%N (next_index s !! peer) in
  let prev_index := wsub64 next 1 in
  let prev_term := match find_index (log s) prev_index with Some e => e_term e | None => 0%N end in
  let entries := filter (λ e, (next <= e_index e)%N) (log s) in
  AppendEntries (current_term s) (self_id s) prev_index prev_term entries (commit_index s).

(** The progress maps a fresh leader starts from. *)
Definition reset_progress (s : Server) : Server :=
  let peers := peers_of (self_id s) (cluster_size s) in
  let last := last_log_index s in
  set_progress (foldl (λ m p, <[p := wadd64 last 1]> m) (next_index s) peers)
               (foldl (λ m p, <[p := 0%N]> m) (match_index s) peers) s.

(** [role = Leader; heartbeat_due_in = 0] and the progress reset. *)
Definition become_leader (s : Server) : Server :=
  reset_progress (set_heartbeat_due_in 0 (set_role Leader s)).

Definition tick (s : Server) (elapsed : N) : Server * list (NodeId * RaftMessage) :=
  match role s with
  | Follower | Candidate =>
      let s := set_election_timeout_in (election_timeout_in s - elapsed)%N s in
      if N.eqb (election_timeout_in s) 0 then
        let s := set_role Candidate s in
        let s := set_vote (wadd64 (current_term s) 1) (Some (self_id s)) s in
        let s := set_votes_received 1 s in
        let r := next_rand (rng_state s) in
        let et := (150 + r mod 75)%N in
        let s := set_timers et et (heartbeat_due_in s) r s in
        let out := map (λ p, (p, RequestVote (current_term s) (self_id s)
                                   (last_log_index s) (last_log_term s)))
                       (peers_of (self_id s) (cluster_size s)) in
        let s := if quorum s <=? votes_received s then become_leader s else s in
        (s, out)
      else (s, [])
  | Leader =>
      let s := set_heartbeat_due_in (heartbeat_due_in s - elapsed)%N s in
      if N.eqb (heartbeat_due_in s) 0 then
        let s := set_heartbeat_due_in 50 s in
        (s, map (λ p, (p, build_append_for s p)) (peers_of (self_id s) (cluster_size s)))
      else (s, [])
  end.

Definition become_follower (term : N) (s : Server) : Server * bool :=
  if (current_term s <? term)%N then
    let s := set_vote term None s in
    let s := set_votes_received 0 (set_role Follower s) in
    (set_election_timeout_in (election_timeout s) s, true)
  else (s, false).

Definition step_down_if_stale (term : N) (s : Server) : Server := (become_follower term s).1.

(** Commit rule: the largest index of the current term on a quorum. *)
Definition nrange (lo hi : N) : list N :=
  map (λ i, (lo + N.of_nat i)%N) (seq 0 (N.to_nat (hi + 1 - lo))).

Definition replicas (s : Server) (n : N) : nat :=
  1 + size (filter (λ kv, (n <= kv.2)%N) (match_index s)).

Definition advance_commit (s : Server) : Server :=
  let committed :=
    foldl (λ committed n,
      let entry_term := match find_index (log s) n with Some e => e_term e | None => 0%N end in
      if negb (N.eqb entry_term (current_term s)) then committed
      else if quorum s <=? replicas s n then n else committed)
      (commit_index s) (nrange (commit_index s + 1) (last_log_index s)) in
  set_commit_index committed s.

Definition append_local (command : list byte) (s : Server) : Server :=
  let index := wadd64 (last_log_index s) 1 in
  advance_commit (set_log (log s ++ [mkEntry (current_term s) index command]) s).

(** One iteration of the follower's entry loop. *)
Definition append_entry (l : list LogEntry) (entry : LogEntry) : list LogEntry :=
  match list_find (λ e, e_index e = e_index entry) l with
  | Some (pos, e) =>
      if N.eqb (e_term e) (e_term entry) then l else take pos l ++ [entry]
  | None =>
      if N.eqb (e_index entry) (wadd64 (log_last_index l) 1) then l ++ [entry] else l
  end.

Definition handle_request_vote (s : Server) (term : N) (candidate : NodeId)
    (last_index last_term : N) : Server * list (NodeId * RaftMessage) :=
  if (term <? current_term s)%N then
    (s, [(candidate, RequestVoteReply (current_term s) false)])
  else
    let s := step_down_if_stale term s in
    let up_to_date :=
      ((last_log_term s <? last_term) ||
       ((last_term =? last_log_term s) && (last_log_index s <=? last_index)))%N%bool in
    let can_vote := (bool_decide (voted_for s = None) || bool_decide (voted_for s = Some candidate))%bool in
    if (can_vote && up_to_date)%bool then
      let s := set_vote (current_term s) (Some candidate) s in
      let s := set_election_timeout_in (election_timeout s) s in
      (s, [(candidate, RequestVoteReply (current_term s) true)])
    else (s, [(candidate, RequestVoteReply (current_term s) false)]).

Definition handle_vote_reply (s : Server) (term : N) (vote_granted : bool)
    : Server * list (NodeId * RaftMessage) :=
  if negb (bool_decide (role s = Candidate)) then (step_down_if_stale term s, [])
  else if (current_term s <? term)%N then (step_down_if_stale term s, [])
  else if ((term =? current_term s)%N && vote_granted)%bool then
    let s := set_votes_received (S (votes_received s)) s in
    if quorum s <=? votes_received s then
      let s := become_leader s in
      (s, map (λ p, (p, build_append_for s p)) (peers_of (self_id s) (cluster_size s)))
    else (s, [])
  else (s, []).

Definition log_consistent (s : Server) (prev_log_index prev_log_term : N) : bool :=
  if N.eqb prev_log_index 0 then true
  else match find_index (log s) prev_log_index with
       | Some e => N.eqb (e_term e) prev_log_term
       | None => false
       end.

Definition handle_append (s : Server) (term : N) (leader : NodeId) (prev_log_index prev_log_term : N)
    (entries : list LogEntry) (leader_commit : N) : Server * list (NodeId * RaftMessage) :=
  if (term <? current_term s)%N then
    (s, [(leader, AppendEntriesReply (current_term s) false (last_log_index s))])
  else
    let s := step_down_if_stale term s in
    let s := if bool_decide (role s = Candidate) then set_role Follower s else s in
    let s := set_election_timeout_in (election_timeout s) s in
    if negb (log_consistent s prev_log_index prev_log_term) then
      (s, [(leader, AppendEntriesReply (current_term s) false (last_log_index s))])
    else
      let s := set_log (foldl append_entry (log s) entries) s in
      let s := if (commit_index s <? leader_commit)%N
               then set_commit_index (N.min leader_commit (last_log_index s)) s else s in
      (s, [(leader, AppendEntriesReply (current_term s) true (last_log_index s))]).

Definition handle_append_reply (s : Server) (from : NodeId) (term : N) (success : bool) (mi : N)
    : Server * list (NodeId * RaftMessage) :=
  if negb (bool_decide (role s = Leader)) then (step_down_if_stale term s, [])
  else if (current_term s <? term)%N then (step_down_if_stale term s, [])
  else if (term <? current_term s)%N then (s, [])
  else if success then
    let cur := default 0%N (match_index s !! from) in
    (advance_commit (set_progress (next_index s) (<[from := N.max cur mi]> (match_index s)) s), [])
  else
    let ni := default 1%N (next_index s !! from) in
    let s := set_progress (<[from := (N.max ni 1 - 1)%N]> (next_index s)) (match_index s) s in
    (s, [(from, build_append_for s from)]).

Definition handle (s : Server) (from : NodeId) (msg : RaftMessage)
    : Server * list (NodeId * RaftMessage) :=
  match msg with
  | RequestVote term candidate li lt => handle_request_vote s term candidate li lt
  | RequestVoteReply term granted => handle_vote_reply s term granted
  | AppendEntries term leader pi pt entries lc => handle_append s term leader pi pt entries lc
  | AppendEntriesReply term success mi => handle_append_reply s from term success mi
  end.

(** ** The network *)

(** The [f64] drop probabilities: every finite [f64] is a rational. *)
Inductive f64 := NaN | NegInf | PosInf | Finite (q : Q).

Definition clamp01 (p : f64) : f64 :=
  match p with
  | NaN => NaN
  | NegInf => Finite 0
  | PosInf => Finite 1
  | Finite q => if Qle_bool q 0 then Finite 0 else if Qle_bool 1 q then Finite 1 else Finite q
  end.

(** [x >= p] for a finite [x]. *)
Definition ge_f64 (x : Q) (p : f64) : bool :=
  match p with NaN => false | NegInf => true | PosInf => false | Finite q => Qle_bool q x end.

Abbreviation Envelope := (NodeId * NodeId * RaftMessage)%type.

Record Network := mkNetwork {
  nodes : list Server;
  inbox : list Envelope;
  partitions : gmap (NodeId * NodeId) f64;
  net_rng : N
}.

Definition network_new (size : nat) (seed : N) : Network :=
  mkNetwork (map (λ id, server_new id size) (seq 0 size)) [] ∅ (N.lor seed 1).

Definition set_partition (i j : NodeId) (drop_prob : f64) (net : Network) : Network :=
  mkNetwork (nodes net) (inbox net) (<[(i, j) := clamp01 drop_prob]> (partitions net)) (net_rng net).

Definition heal_all (net : Network) : Network := mkNetwork (nodes net) (inbox net) ∅ (net_rng net).

(** The 53 high bits of the state over 2^53, exact in [f64]. *)
Definition rand_f64 (r : N) : Q := Qmake (Z.of_N (N.shiftr r 11)) 9007199254740992.

Definition send (from to : NodeId) (msg : RaftMessage) (net : Network) : Network :=
  let drop_p := default (Finite 0) (partitions net !! (from, to)) in
  let r := next_rand (net_rng net) in
  mkNetwork (nodes net)
    (if ge_f64 (rand_f64 r) drop_p then inbox net ++ [(from, to, msg)] else inbox net)
    (partitions net) r.

Definition send_all (from : NodeId) (msgs : list (NodeId * RaftMessage)) (net : Network) : Network :=
  foldl (λ net '(to, msg), send from to msg net) net msgs.

Definition set_node (i : NodeId) (s : Server) (net : Network) : Network :=
  mkNetwork (<[i := s]> (nodes net)) (inbox net) (partitions net) (net_rng net).

Definition tick_node (elapsed : N) (net : Network) (i : NodeId) : Network :=
  match nodes net !! i with
  | Some s => let '(s', actions) := tick s elapsed in send_all i actions (set_node i s' net)
  | None => net
  end.

Definition net_tick (elapsed : N) (net : Network) : Network :=
  foldl (tick_node elapsed) net (seq 0 (length (nodes net))).

(** [None]: [self.nodes[to]] is out of range (an index panic). *)
Definition deliver (net : Network) (env : Envelope) : option Network :=
  let '(from, to, msg) := env in
  match nodes net !! to with
  | None => None
  | Some s => let '(s', replies) := handle s from msg in
              Some (send_all to replies (set_node to s' net))
  end.

Fixpoint deliver_all (net : Network) (batch : list Envelope) : option Network :=
  match batch with
  | [] => Some net
  | env :: batch' =>
      match deliver net env with
      | None => None
      | Some net' => deliver_all net' batch'
      end
  end.

(** Returns the number of messages delivered with the new network. *)
Definition net_step (net : Network) : option (Network * nat) :=
  match inbox net with
  | [] => Some (net, 0)
  | batch =>
      match deliver_all (mkNetwork (nodes net) [] (partitions net) (net_rng net)) batch with
      | None => None
      | Some net' => Some (net', length batch)
      end
  end.

Fixpoint run_until_quiet (max_rounds : nat) (net : Network) : option Network :=
  match max_rounds with
  | O => Some net
  | S m => match net_step net with
           | None => None
           | Some (net', 0) => Some net'
           | Some (net', _) => run_until_quiet m net'
           end
  end.

(** [false] is the [Err] of a non-leader; [None] the index panic. *)
Definition propose (to : NodeId) (command : list byte) (net : Network) : option (Network * bool) :=
  match nodes net !! to with
  | None => None
  | Some s =>
      if bool_decide (role s = Leader) then
        Some (set_node to (set_heartbeat_due_in 0 (append_local command s)) net, true)
      else Some (net, false)
  end.

Definition leader_id (net : Network) : option NodeId :=
  self_id <$> find (λ s, bool_decide (role s = Leader)) (nodes net).

Definition committed (s : Server) : list LogEntry :=
  filter (λ e, (e_index e <= commit_index s)%N) (log s).

Definition committed_log (net : Network) : list LogEntry :=
  match find (λ s, bool_decide (role s = Leader)) (nodes net) with
  | Some leader => committed leader
  | None => []
  end.

Definition replicated_everywhere (index term : N) (net : Network) : bool :=
  forallb (λ s, existsb (λ e, N.eqb (e_index e) index && N.eqb (e_term e) term)%bool (log s)) (nodes net).

Fixpoint run_stable (rounds : nat) (net : Network) : option Network :=
  match rounds with
  | O => Some net
  | S r => match run_until_quiet 16 (net_tick 20 net) with
           | None => None
           | Some net' => run_stable r net'
           end
  end.

(** ** Runs: what a driver of the network can do, in any order *)

Inductive net_op :=
  | OpTick (elapsed : N)
  | OpStep
  | OpRunUntilQuiet (max_rounds : nat)
  | OpPropose (to : NodeId) (command : list byte)
  | OpPartition (i j : NodeId) (drop_prob : f64)
  | OpHeal.

Definition apply_op (net : Network) (op : net_op) : option Network :=
  match op with
  | OpTick e => Some (net_tick e net)
  | OpStep => fst <$> net_step net
  | OpRunUntilQuiet m => run_until_quiet m net
  | OpPropose to c => fst <$> propose to c net
  | OpPartition i j p => Some (set_partition i j p net)
  | OpHeal => Some (heal_all net)
  end.

Fixpoint run_ops (net : Network) (ops : list net_op) : option Network :=
  match ops with
  | [] => Some net
  | op :: ops' => match apply_op net op with None => None | Some net' => run_ops net' ops' end
  end.

Definition leaders (net : Network) : nat := length (filter (λ s, role s = Leader) (nodes net)).

(** One leader after forty rounds of [run_stable] on three nodes. *)
Example elects_one : (leaders <$> run_stable 40 (network_new 3 42)) = Some 1.
Proof. vm_compute. reflexivity. Qed.
