(* ===== verification/RaftNet.v ===== *)
(** * Invariants of the Raft network

    A class that says what a per-server argument has to show for a property of
    all servers and all messages in flight to survive every operation of
    [Network] ([raft.rs]), and the proof that it then does: drops and batch
    delivery are dealt with once, here. *)
From S2P Require Import Prelude RaftModel.
From Stdlib Require Import NArith ZArith Lia.
From stdpp Require Import base numbers gmap option list.
#[local] Open Scope nat_scope.

(** The messages server [i] hands to [send]. *)
Definition envelopes (i : NodeId) (out : list (NodeId * RaftMessage)) : list Envelope :=
  map (λ p, (i, p.1, p.2)) out.

(** [P T ns fl]: the servers are [ns], the messages in flight [fl]; [T] is the
    number of driver operations so far. *)
Class NetInvariant (n : nat) (P : N → list Server → list Envelope → Prop) := {
  ni_length T ns fl : P T ns fl → length ns = n;
  ni_term T ns fl i s : P T ns fl → ns !! i = Some s → (current_term s <= T)%N;
  ni_mono T T' ns fl : (T <= T')%N → P T ns fl → P T' ns fl;
  ni_drop T ns fl fl' : fl' ⊆+ fl → P T ns fl → P T ns fl';
  ni_dest T ns from to msg fl : P T ns ((from, to, msg) :: fl) → to < n;
  ni_tick T ns fl i s e :
    P T ns fl → (T < u64_max)%N → ns !! i = Some s → (current_term s < T)%N →
    P T (<[i := (tick s e).1]> ns) (fl ++ envelopes i (tick s e).2);
  ni_handle T ns fl from to msg s :
    P T ns ((from, to, msg) :: fl) → (T < u64_max)%N → ns !! to = Some s →
    P T (<[to := (handle s from msg).1]> ns) (fl ++ envelopes to (handle s from msg).2);
  ni_propose T ns fl i s c :
    P T ns fl → (T + 1 < u64_max)%N → ns !! i = Some s → role s = Leader →
    P (T + 1)%N (<[i := set_heartbeat_due_in 0 (append_local c s)]> ns) fl
}.

Definition op_in_range (n : nat) (op : net_op) : Prop :=
  match op with OpPropose to _ => to < n | _ => True end.

Section preserved.
Context {n : nat} {P : N → list Server → list Envelope → Prop} `{!NetInvariant n P}.

Lemma send_all_spec i out net :
  nodes (send_all i out net) = nodes net ∧
  inbox (send_all i out net) ⊆+ inbox net ++ envelopes i out.
Proof.
  revert net. induction out as [|[to m] out IH]; intros net.
  { cbn. by rewrite app_nil_r. }
  change (send_all i ((to, m) :: out) net) with (send_all i out (send i to m net)).
  destruct (IH (send i to m net)) as [-> Hin]. split; [done|].
  etrans; [exact Hin|]. unfold send. cbn. case_match; cbn.
  - by rewrite <- app_assoc.
  - apply submseteq_app; [done|]. by apply submseteq_cons.
Qed.

(** Sending after a server update: only some of the messages arrive. *)
Lemma send_inv T net i s' out rest :
  P T (<[i := s']> (nodes net)) ((rest ++ inbox net) ++ envelopes i out) →
  P T (nodes (send_all i out (set_node i s' net))) (rest ++ inbox (send_all i out (set_node i s' net))).
Proof.
  intros HP. destruct (send_all_spec i out (set_node i s' net)) as [-> Hin].
  cbn in *. eapply ni_drop; [|exact HP]. rewrite <- app_assoc.
  by apply submseteq_app.
Qed.

Lemma tick_node_inv T e net i s :
  P T (nodes net) (inbox net) → (T < u64_max)%N → nodes net !! i = Some s → (current_term s < T)%N →
  P T (nodes (tick_node e net i)) (inbox (tick_node e net i)) ∧
  ∀ j, j ≠ i → nodes (tick_node e net i) !! j = nodes net !! j.
Proof.
  intros HP HT Hi Hlt. unfold tick_node. rewrite Hi.
  pose proof (ni_tick _ _ _ _ _ e HP HT Hi Hlt) as HP'. destruct (tick s e) as [s' out]. cbn in HP'.
  split; [by apply (send_inv _ _ _ _ _ [])|].
  intros j Hj. rewrite (proj1 (send_all_spec _ _ _)). cbn. by rewrite list_lookup_insert_ne.
Qed.

Lemma tick_nodes_inv T e m : ∀ k net,
  P T (nodes net) (inbox net) → (T < u64_max)%N → k + m = n →
  (∀ j s, k <= j → nodes net !! j = Some s → (current_term s < T)%N) →
  P T (nodes (foldl (tick_node e) net (seq k m))) (inbox (foldl (tick_node e) net (seq k m))).
Proof.
  induction m as [|m IH]; intros k net HP HT Hend Hlow; [done|].
  cbn [seq foldl]. assert (is_Some (nodes net !! k)) as [s Hs].
  { apply lookup_lt_is_Some. rewrite (ni_length _ _ _ HP). lia. }
  destruct (tick_node_inv T e net k s) as [HP' Hsame]; [by eauto..|].
  apply IH; [done|done|lia|]. intros j s' Hj. rewrite Hsame by lia. apply Hlow. lia.
Qed.

Lemma net_tick_inv T e net :
  P T (nodes net) (inbox net) → (T + 1 < u64_max)%N →
  P (T + 1)%N (nodes (net_tick e net)) (inbox (net_tick e net)).
Proof.
  intros HP HT. unfold net_tick. rewrite (ni_length _ _ _ HP).
  apply tick_nodes_inv; [|done|done|].
  - eapply ni_mono; [|done]. lia.
  - intros j s _ Hj. pose proof (ni_term _ _ _ _ _ HP Hj). lia.
Qed.

Lemma deliver_all_inv T batch net :
  P T (nodes net) (batch ++ inbox net) → (T < u64_max)%N →
  ∃ net', deliver_all net batch = Some net' ∧ P T (nodes net') (inbox net').
Proof.
  revert net. induction batch as [|[[from to] msg] batch IH]; intros net HP HT; [by exists net|].
  cbn [deliver_all deliver]. assert (is_Some (nodes net !! to)) as [s Hs].
  { apply lookup_lt_is_Some. rewrite (ni_length _ _ _ HP). by eapply ni_dest. }
  rewrite Hs. pose proof (ni_handle _ _ _ _ _ _ _ HP HT Hs) as HP'.
  destruct (handle s from msg) as [s' out]. apply IH; [|done]. by apply send_inv.
Qed.

Lemma net_step_inv T net :
  P T (nodes net) (inbox net) → (T < u64_max)%N →
  ∃ net' k, net_step net = Some (net', k) ∧ P T (nodes net') (inbox net').
Proof.
  intros HP HT. unfold net_step. destruct (inbox net) as [|env batch] eqn:E.
  { exists net, 0. by rewrite E. }
  edestruct (deliver_all_inv T (env :: batch) (mkNetwork (nodes net) [] (partitions net) (net_rng net)))
    as (net' & -> & HP'); [|done|].
  - cbn. by rewrite app_nil_r.
  - eauto.
Qed.

Lemma run_until_quiet_inv T m net :
  P T (nodes net) (inbox net) → (T < u64_max)%N →
  ∃ net', run_until_quiet m net = Some net' ∧ P T (nodes net') (inbox net').
Proof.
  intros HP HT. revert net HP. induction m as [|m IH]; intros net HP; [by exists net|].
  cbn. destruct (net_step_inv T net HP HT) as (net' & k & -> & HP').
  destruct k; eauto.
Qed.

Lemma propose_inv T to c net :
  P T (nodes net) (inbox net) → (T + 1 < u64_max)%N → to < n →
  ∃ net' b, propose to c net = Some (net', b) ∧ P (T + 1)%N (nodes net') (inbox net').
Proof.
  intros HP HT Hto. unfold propose. assert (is_Some (nodes net !! to)) as [s Hs].
  { apply lookup_lt_is_Some. by rewrite (ni_length _ _ _ HP). }
  rewrite Hs. case_bool_decide; eexists _, _; (split; [done|]); cbn.
  - by apply ni_propose.
  - eapply ni_mono; [|done]. lia.
Qed.

Lemma apply_op_inv T op net :
  P T (nodes net) (inbox net) → (T + 1 < u64_max)%N → op_in_range n op →
  ∃ net', apply_op net op = Some net' ∧ P (T + 1)%N (nodes net') (inbox net').
Proof.
  intros HP HT Hop.
  assert (P (T + 1)%N (nodes net) (inbox net)) as HP1 by (eapply ni_mono; [|done]; lia).
  destruct op as [e| |m|to c|i j p|]; cbn in *.
  - eexists; split; [done|]. by apply net_tick_inv.
  - destruct (net_step_inv _ _ HP1 HT) as (? & ? & -> & ?). eauto.
  - by apply run_until_quiet_inv.
  - destruct (propose_inv _ _ c _ HP HT Hop) as (? & ? & -> & ?). eauto.
  - eauto.
  - eauto.
Qed.

(** Every run of in-range operations stays inside the invariant, and never
    hits the index panic. *)
Lemma run_ops_inv ops T net :
  P T (nodes net) (inbox net) → (T + N.of_nat (length ops) < u64_max)%N → Forall (op_in_range n) ops →
  ∃ net', run_ops net ops = Some net' ∧
    P (T + N.of_nat (length ops))%N (nodes net') (inbox net').
Proof.
  revert T net. induction ops as [|op ops IH]; intros T net HP HT Hops.
  - exists net. split; [done|]. by rewrite N.add_0_r.
  - inversion_clear Hops as [|?? Hop Hops']. cbn [length] in *.
    destruct (apply_op_inv T op net) as (net1 & Heq & HP1); [done|lia|done|].
    destruct (IH (T + 1)%N net1) as (net2 & Heq2 & HP2); [done|lia|done|].
    exists net2. cbn. rewrite Heq. split; [done|]. eapply ni_mono; [|done]. lia.
Qed.
End preserved.
