(* ===== verification/RaftElection.v ===== *)
(** * Election safety of the Raft metadata plane ([lionfs-cluster/src/raft.rs])

    At most one leader per term, over every run of the network: any sequence of
    ticks, deliveries, proposals, partitions and heals, with messages dropped
    and batched as [Network] does. The argument keeps two history functions
    beside the state: [H j t], the vote server [j] cast in term [t], and
    [C c t], the voters whose grant server [c] has counted in term [t]. *)
From S2P Require Import Prelude RaftModel RaftNet.
From Stdlib Require Import NArith ZArith QArith_base Lia Strings.Byte.
From stdpp Require Import base numbers gmap option list.
#[local] Open Scope nat_scope.
#[local] Arguments Nat.div _ _ : simpl never.
#[local] Arguments Nat.leb _ _ : simpl never.

(** A message that can still turn into a counted vote of [j] for [c] in [t]. *)
Definition token (c j : nat) (t : N) (env : Envelope) : nat :=
  match env with
  | (from, to, RequestVote t' _ _ _) => if decide (from = c ∧ to = j ∧ t' = t) then 1 else 0
  | (from, to, RequestVoteReply t' true) => if decide (from = j ∧ to = c ∧ t' = t) then 1 else 0
  | _ => 0
  end.
Definition tokens (c j : nat) (t : N) (fl : list Envelope) : nat := sum_list_with (token c j t) fl.

Definition counted (C : nat → N → gset nat) (c j : nat) (t : N) : nat :=
  if decide (j ∈ C c t) then 1 else 0.

Definition role_ok (n : nat) (S : gset nat) (s : Server) : Prop :=
  match role s with
  | Follower => True
  | Candidate => votes_received s ≤ size S
  | Leader => n / 2 + 1 ≤ size S
  end.

(** Server [i] exists and has reached term [t]. *)
Definition reached (ns : list Server) (i : nat) (t : N) : Prop :=
  ∃ s, ns !! i = Some s ∧ (t <= current_term s)%N.

Definition msg_ok (n : nat) (H : nat → N → option nat) (T : N) (ns : list Server) (env : Envelope) : Prop :=
  let '(from, to, msg) := env in
  from < n ∧ to < n ∧
  match msg with
  | RequestVote t c _ _ => c = from ∧ from ≠ to ∧ (t <= T)%N ∧ reached ns from t
  | RequestVoteReply t g => (t <= T)%N ∧ (g = true → H from t = Some to ∧ reached ns to t)
  | AppendEntries t l _ _ _ _ => l = from ∧ (t <= T)%N
  | AppendEntriesReply t _ _ => (t <= T)%N
  end.

Record election_inv (n : nat) (H : nat → N → option nat) (C : nat → N → gset nat)
    (T : N) (ns : list Server) (fl : list Envelope) : Prop := {
  ei_length : length ns = n;
  ei_id : ∀ i s, ns !! i = Some s → self_id s = i ∧ cluster_size s = n;
  ei_term : ∀ i s, ns !! i = Some s → (current_term s <= T)%N;
  ei_vote : ∀ i s, ns !! i = Some s → H i (current_term s) = voted_for s;
  ei_future : ∀ i s t, ns !! i = Some s → (current_term s < t)%N → H i t = None ∧ C i t = ∅;
  ei_counted : ∀ c t j, j ∈ C c t → j < n ∧ H j t = Some c;
  ei_role : ∀ i s, ns !! i = Some s → role_ok n (C i (current_term s)) s;
  ei_token : ∀ c j t, tokens c j t fl + counted C c j t ≤ 1;
  ei_msgs : Forall (msg_ok n H T ns) fl
}.

Arguments ei_length {_ _ _ _ _ _} _.
Arguments ei_id {_ _ _ _ _ _} _.
Arguments ei_term {_ _ _ _ _ _} _.
Arguments ei_vote {_ _ _ _ _ _} _.
Arguments ei_future {_ _ _ _ _ _} _.
Arguments ei_counted {_ _ _ _ _ _} _.
Arguments ei_role {_ _ _ _ _ _} _.
Arguments ei_token {_ _ _ _ _ _} _.
Arguments ei_msgs {_ _ _ _ _ _} _.

(** Server [c] has been elected in term [t]. *)
Definition won (n : nat) (C : nat → N → gset nat) (c : nat) (t : N) : Prop := n / 2 + 1 ≤ size (C c t).

Definition grows (C C' : nat → N → gset nat) : Prop := ∀ c t, C c t ⊆ C' c t.

Definition upd {B} (f : nat → N → B) (i : nat) (t : N) (v : B) : nat → N → B :=
  λ j u, if decide (j = i ∧ u = t) then v else f j u.

(** A message that carries no vote. *)
Definition neutral (n : nat) (T : N) (i : nat) (p : NodeId * RaftMessage) : Prop :=
  p.1 < n ∧
  match p.2 with
  | RequestVote _ _ _ _ => False
  | RequestVoteReply t g => g = false ∧ (t <= T)%N
  | AppendEntries t l _ _ _ _ => l = i ∧ (t <= T)%N
  | AppendEntriesReply t _ _ => (t <= T)%N
  end.

(** ** Counting *)

Lemma upd_eq {B} (f : nat → N → B) i t v : upd f i t v i t = v.
Proof. unfold upd. by rewrite decide_True. Qed.
Lemma upd_ne {B} (f : nat → N → B) i t v j u : j ≠ i ∨ u ≠ t → upd f i t v j u = f j u.
Proof. intros Hne. unfold upd. rewrite decide_False; [done|]. intros [-> ->]. by destruct Hne. Qed.


Lemma tokens_app c j t l k : tokens c j t (l ++ k) = tokens c j t l + tokens c j t k.
Proof. apply sum_list_with_app. Qed.

Lemma tokens_submseteq c j t fl fl' : fl' ⊆+ fl → tokens c j t fl' ≤ tokens c j t fl.
Proof.
  intros [k Hk]%submseteq_Permutation. unfold tokens. rewrite Hk, sum_list_with_app. lia.
Qed.

Lemma tokens_zero c j t fl : Forall (λ env, token c j t env = 0) fl → tokens c j t fl = 0.
Proof. induction 1 as [|env fl Henv _ IH]; cbn; [done|]. unfold tokens in IH. lia. Qed.

Lemma tokens_neutral n T i c j t out : Forall (neutral n T i) out → tokens c j t (envelopes i out) = 0.
Proof.
  intros Hout. apply tokens_zero, Forall_map. eapply Forall_impl; [exact Hout|].
  intros [to [| ? []| |]] [_ Hm]; cbn in *; [done|by destruct Hm|done..].
Qed.

Lemma quorum_overlap n (S S' : gset nat) :
  (∀ j, j ∈ S → j < n) → (∀ j, j ∈ S' → j < n) → n / 2 + 1 ≤ size S → n / 2 + 1 ≤ size S' →
  ∃ j, j ∈ S ∧ j ∈ S'.
Proof.
  intros HS HS' Hq Hq'. destruct (decide (S ## S')) as [Hd|Hnd].
  - assert (S ∪ S' ⊆ set_seq 0 n) as Hsub.
    { intros j [Hj|Hj]%elem_of_union; apply elem_of_set_seq; [pose proof (HS j Hj)|pose proof (HS' j Hj)]; lia. }
    apply subseteq_size in Hsub. rewrite size_union, size_set_seq in Hsub by done.
    pose proof (Nat.div_mod_eq n 2). pose proof (Nat.mod_upper_bound n 2). lia.
  - destruct (decide (Exists (λ j, j ∈ S') (elements S))) as [[j [Hj Hj']]%Exists_exists|Hno].
    + exists j. split; [|done]. by apply elem_of_elements.
    + exfalso. apply Hnd. intros j Hj Hj'. apply Hno, Exists_exists. exists j. split; [|done].
      by apply elem_of_elements.
Qed.

(** ** The invariant under changes of the network *)

Section election.
Context {n : nat}.

Lemma reached_insert ns i s s' j t :
  ns !! i = Some s → (current_term s <= current_term s')%N → reached ns j t → reached (<[i := s']> ns) j t.
Proof.
  intros Hi Hle (s0 & Hj & Ht). destruct (decide (i = j)) as [->|Hne].
  - exists s'. rewrite list_lookup_insert_eq by by eapply lookup_lt_Some.
    split; [done|]. simplify_eq. lia.
  - exists s0. by rewrite list_lookup_insert_ne.
Qed.

Lemma msg_ok_mono (H H' : nat → N → option nat) T T' ns ns' env :
  (T <= T')%N → (∀ j t c, H j t = Some c → H' j t = Some c) → (∀ j t, reached ns j t → reached ns' j t) →
  msg_ok n H T ns env → msg_ok n H' T' ns' env.
Proof.
  intros HT HH Hr. destruct env as [[from to] []]; cbn; intros (Hf & Ht & Hm); (split; [done|split; [done|]]).
  - destruct Hm as (-> & ? & ? & ?). split_and!; [done|done|lia|by apply Hr].
  - destruct Hm as [? Hg]. split; [lia|]. intros [? ?]%Hg. eauto.
  - destruct Hm. split; [done|lia].
  - lia.
Qed.

Lemma election_mono H C T T' ns fl :
  (T <= T')%N → election_inv n H C T ns fl → election_inv n H C T' ns fl.
Proof.
  intros HT []. split; try done.
  - intros i s Hi. specialize (ei_term0 i s Hi). lia.
  - eapply Forall_impl; [eassumption|]. intros env. by apply msg_ok_mono.
Qed.

Lemma election_drop H C T ns fl fl' :
  fl' ⊆+ fl → election_inv n H C T ns fl → election_inv n H C T ns fl'.
Proof.
  intros Hsub []. split; try done.
  - intros c j t. pose proof (tokens_submseteq c j t _ _ Hsub). specialize (ei_token0 c j t). lia.
  - apply submseteq_Permutation in Hsub as [k Hk]. rewrite Hk in ei_msgs0.
    by apply Forall_app in ei_msgs0 as [? _].
Qed.

Lemma election_unique H C T ns fl c c' t :
  election_inv n H C T ns fl → won n C c t → won n C c' t → c = c'.
Proof.
  intros HI Hc Hc'. destruct (quorum_overlap n (C c t) (C c' t)) as (j & Hj & Hj'); [| |done|done|].
  1,2: intros j Hj; apply (ei_counted HI) in Hj as [? _]; done.
  - apply (ei_counted HI) in Hj as [_ Hj], Hj' as [_ Hj']. congruence.
Qed.

Lemma leader_won H C T ns fl i s :
  election_inv n H C T ns fl → ns !! i = Some s → role s = Leader → won n C i (current_term s).
Proof. intros HI Hi Hr. pose proof (ei_role HI _ _ Hi) as Hok. unfold role_ok in Hok. by rewrite Hr in Hok. Qed.

(** The update of one server with its history: what has to be shown of it. *)
Lemma election_update H C H' C' T ns fl fl' i s s' :
  election_inv n H C T ns fl → ns !! i = Some s →
  self_id s' = self_id s → cluster_size s' = cluster_size s →
  (current_term s <= current_term s' <= T)%N →
  (∀ j t c, H j t = Some c → H' j t = Some c) → (∀ j t, j ≠ i → H' j t = H j t) →
  H' i (current_term s') = voted_for s' →
  (∀ t, (current_term s' < t)%N → H' i t = None ∧ C' i t = ∅) →
  (∀ c t, c ≠ i → C' c t = C c t) →
  (∀ t j, j ∈ C' i t → j < n ∧ H' j t = Some i) →
  role_ok n (C' i (current_term s')) s' →
  (∀ c j t, tokens c j t fl' + counted C' c j t ≤ 1) →
  Forall (msg_ok n H' T (<[i := s']> ns)) fl' →
  election_inv n H' C' T (<[i := s']> ns) fl'.
Proof.
  intros HI Hi Hid Hcs Hterm HH HH' Hv Hfut HC Hcnt Hrole Htok Hmsg.
  assert (i < length ns) as Hlt by by eapply lookup_lt_Some.
  assert (∀ j sj (Q : Server → Prop), <[i := s']> ns !! j = Some sj →
    (i = j → Q s') → (j ≠ i → ns !! j = Some sj → Q sj) → Q sj) as Hcase.
  { intros j sj Q Hj H1 H2. apply list_lookup_insert_Some in Hj as [(-> & -> & _)|[? ?]]; auto. }
  destruct HI. split; try done.
  - by rewrite length_insert.
  - intros j sj Hj. apply (Hcase j sj (λ sj, self_id sj = j ∧ cluster_size sj = n)); [done| |by auto].
    intros <-. rewrite Hid, Hcs. by apply ei_id0.
  - intros j sj Hj. apply (Hcase j sj (λ sj, (current_term sj <= T)%N)); [done|lia|by eauto].
  - intros j sj Hj. apply (Hcase j sj (λ sj, H' j (current_term sj) = voted_for sj)); [done|by intros <-|].
    intros Hne Hj'. rewrite HH' by done. by apply ei_vote0.
  - intros j sj t Hj. apply (Hcase j sj (λ sj, (current_term sj < t)%N → H' j t = None ∧ C' j t = ∅));
      [done|intros <-; by apply Hfut|].
    intros Hne Hj' Ht. rewrite HH', HC by done. by eapply ei_future0.
  - intros c t j Hj. destruct (decide (c = i)) as [->|Hne]; [by apply Hcnt|].
    rewrite HC in Hj by done. apply ei_counted0 in Hj as [? ?]. eauto.
  - intros j sj Hj. apply (Hcase j sj (λ sj, role_ok n (C' j (current_term sj)) sj)); [done|by intros <-|].
    intros Hne Hj'. rewrite HC by done. by apply ei_role0.
Qed.

Lemma election_msgs H C H' T ns fl i s s' :
  election_inv n H C T ns fl → ns !! i = Some s → (current_term s <= current_term s')%N →
  (∀ j t c, H j t = Some c → H' j t = Some c) → Forall (msg_ok n H' T (<[i := s']> ns)) fl.
Proof.
  intros HI Hi Hle HH. eapply Forall_impl; [exact (ei_msgs HI)|]. intros env.
  apply msg_ok_mono; [done|done|]. intros j t. by eapply reached_insert.
Qed.

(** A server that casts no vote: it keeps its term, or steps down to a later one. *)
Definition quiet (s s' : Server) : Prop :=
  self_id s' = self_id s ∧ cluster_size s' = cluster_size s ∧
  ((current_term s' = current_term s ∧ voted_for s' = voted_for s ∧
    (role s' = Follower ∨ (role s' = role s ∧ votes_received s' = votes_received s))) ∨
   ((current_term s < current_term s')%N ∧ voted_for s' = None ∧ role s' = Follower)).

Lemma election_quiet H C T ns fl i s s' :
  election_inv n H C T ns fl → ns !! i = Some s → quiet s s' → (current_term s' <= T)%N →
  election_inv n H C T (<[i := s']> ns) fl.
Proof.
  intros HI Hi (Hid & Hcs & Hq) HT.
  assert (current_term s <= current_term s')%N as Hle by (destruct Hq as [(-> & _)|[? _]]; lia).
  pose proof (ei_role HI _ _ Hi) as Hrole.
  eapply election_update; eauto using election_msgs.
  - destruct Hq as [(-> & -> & _)|(Hlt & -> & _)]; [by eapply ei_vote|].
    by eapply (ei_future HI).
  - intros t Ht. eapply (ei_future HI); [done|lia].
  - intros t j. by apply (ei_counted HI).
  - unfold role_ok in *. destruct Hq as [(-> & _ & [->|[-> ->]])|(_ & _ & ->)]; done.
  - by eapply ei_token.
Qed.

Lemma election_neutral H C T ns fl i out :
  election_inv n H C T ns fl → i < n → Forall (neutral n T i) out →
  election_inv n H C T ns (fl ++ envelopes i out).
Proof.
  intros HI Hin Hout. destruct HI. split; try done.
  - intros c j t. rewrite tokens_app, (tokens_neutral n T) by done. rewrite Nat.add_0_r. apply ei_token0.
  - apply Forall_app; split; [done|]. apply Forall_map. eapply Forall_impl; [exact Hout|].
    intros [to msg] [Hto Hm]. cbn in *. split; [done|]. split; [done|].
    destruct msg; try done. destruct Hm as [-> ?]. by split.
Qed.

Lemma upd_vote_mono (H : nat → N → option nat) i t v :
  H i t = None ∨ H i t = Some v → ∀ j u c, H j u = Some c → upd H i t (Some v) j u = Some c.
Proof. intros Hv j u c Hj. unfold upd. case_decide as Hd; [|done]. destruct Hd as [-> ->], Hv; congruence. Qed.

(** Granting a vote consumes the request and produces the reply. *)
Lemma election_grant H C T ns fl c i t li lt s s' :
  election_inv n H C T ns ((c, i, RequestVote t c li lt) :: fl) → ns !! i = Some s →
  current_term s = t → voted_for s = None ∨ voted_for s = Some c →
  self_id s' = self_id s → cluster_size s' = cluster_size s → current_term s' = t →
  voted_for s' = Some c → role s' = role s → votes_received s' = votes_received s →
  election_inv n (upd H i t (Some c)) C T (<[i := s']> ns) (fl ++ [(i, c, RequestVoteReply t true)]).
Proof.
  intros HI Hi <- Hv Hid Hcs Hct Hv' Hr Hvr.
  pose proof (ei_vote HI _ _ Hi) as HHv.
  assert (H i (current_term s) = None ∨ H i (current_term s) = Some c) as HH by (rewrite HHv; exact Hv).
  pose proof (upd_vote_mono H i (current_term s) c HH) as Hmono.
  pose proof (ei_msgs HI) as [(Hc & Hin & _ & Hne & HT & Hreach) Hmsgs]%Forall_cons_iff.
  pose proof (ei_role HI _ _ Hi) as Hrole.
  eapply (election_update H C); [exact HI|done|done|done| | | | | | | | | |].
  - lia.
  - done.
  - intros j t Hj. apply upd_ne. by left.
  - rewrite Hct, Hv'. apply upd_eq.
  - intros t Ht. rewrite upd_ne by (right; lia). rewrite Hct in Ht. by eapply (ei_future HI).
  - done.
  - intros t j [? ?]%(ei_counted HI). auto.
  - rewrite Hct. unfold role_ok in *. by rewrite Hr, Hvr.
  - intros c0 j t. pose proof (ei_token HI c0 j t) as Htok. rewrite tokens_app.
    unfold tokens in *. cbn in *. repeat case_decide; try lia; naive_solver.
  - apply Forall_app; split.
    + eapply Forall_impl; [exact Hmsgs|]. intros env. apply msg_ok_mono; [done|done|].
      intros j t. eapply reached_insert; [done|lia].
    + apply Forall_singleton. cbn. split; [done|]. split; [done|]. split; [done|]. intros _. split; [apply upd_eq|].
      eapply reached_insert; [done|lia|done].
Qed.

(** Counting a granted reply adds its voter, who was not counted before. *)
Lemma election_count H C T ns fl j i s s' :
  election_inv n H C T ns ((j, i, RequestVoteReply (current_term s) true) :: fl) → ns !! i = Some s →
  role s = Candidate →
  self_id s' = self_id s → cluster_size s' = cluster_size s → current_term s' = current_term s →
  voted_for s' = voted_for s → votes_received s' = S (votes_received s) →
  role s' = Candidate ∨ (role s' = Leader ∧ n / 2 + 1 ≤ votes_received s') →
  election_inv n H (upd C i (current_term s) ({[j]} ∪ C i (current_term s))) T (<[i := s']> ns) fl.
Proof.
  intros HI Hi Hcand Hid Hcs Hct Hv' Hvr Hr'.
  pose proof (ei_msgs HI) as [(Hj & Hin & HT & Hg) Hmsgs]%Forall_cons_iff.
  destruct (Hg eq_refl) as [Hvote Hreach].
  assert (j ∉ C i (current_term s)) as Hnew.
  { pose proof (ei_token HI i j (current_term s)) as Htok. unfold tokens, counted in Htok. cbn in Htok.
    rewrite decide_True in Htok by done. intros Hin'. rewrite decide_True in Htok by done. lia. }
  assert (S (votes_received s) ≤ size ({[j]} ∪ C i (current_term s))) as Hsize.
  { pose proof (ei_role HI _ _ Hi) as Hrole. unfold role_ok in Hrole. rewrite Hcand in Hrole.
    rewrite size_union, size_singleton by set_solver. lia. }
  eapply (election_update H C); [exact HI|done|done|done| | | | | | | | | |].
  - rewrite Hct. split; [lia|]. by eapply (ei_term HI).
  - done.
  - done.
  - rewrite Hct, Hv'. by apply (ei_vote HI).
  - intros t Ht. rewrite Hct in Ht. rewrite upd_ne by (right; lia). by eapply (ei_future HI).
  - intros c t Hc. apply upd_ne. by left.
  - intros t k Hk. destruct (decide (t = current_term s)) as [->|Hne].
    + rewrite upd_eq in Hk. apply elem_of_union in Hk as [->%elem_of_singleton|Hk]; [done|].
      by apply (ei_counted HI).
    + rewrite upd_ne in Hk by by right. by apply (ei_counted HI).
  - rewrite Hct, upd_eq. unfold role_ok. destruct Hr' as [->|[-> ?]]; lia.
  - intros c k t. pose proof (ei_token HI c k t) as Htok. unfold tokens, counted, upd in *. cbn in *.
    repeat case_decide; try lia; set_solver.
  - eapply Forall_impl; [exact Hmsgs|]. intros env. apply msg_ok_mono; [done|done|].
    intros k t. eapply reached_insert; [done|lia].
Qed.

Definition vote_requests (i : nat) (t li lt : N) (n : nat) : list (NodeId * RaftMessage) :=
  map (λ p, (p, RequestVote t i li lt)) (peers_of i n).

Lemma elem_of_peers p i m : p ∈ peers_of i m ↔ p ≠ i ∧ p < m.
Proof. unfold peers_of. rewrite list_elem_of_filter, elem_of_seq. split; intros [? ?]; (split; [done|lia]). Qed.

Lemma tokens_requests i t li lt c j u :
  tokens c j u (envelopes i (vote_requests i t li lt n)) =
    if decide (c = i ∧ u = t ∧ j ∈ peers_of i n) then 1 else 0.
Proof.
  assert (NoDup (peers_of i n)) as Hnd by apply NoDup_filter, NoDup_seq.
  unfold tokens, envelopes, vote_requests. induction Hnd as [|p l Hp _ IH]; cbn.
  { rewrite decide_False; [done|]. intros (_ & _ & Hin). by apply not_elem_of_nil in Hin. }
  rewrite IH. clear IH. repeat case_decide; try done; try set_solver.
Qed.

(** No message of a term the candidate has not reached can concern it. *)
Lemma tokens_future H C T ns fl i s t j :
  election_inv n H C T ns fl → ns !! i = Some s → (current_term s < t)%N → tokens i j t fl = 0.
Proof.
  intros HI Hi Ht. apply tokens_zero. eapply Forall_impl; [exact (ei_msgs HI)|].
  intros [[from to] msg] (_ & _ & Hm). destruct msg as [t' | t' []| |]; cbn; try done; case_decide as Hd; try done;
    destruct Hd as (-> & -> & ->); exfalso.
  - destruct Hm as (_ & _ & _ & s0 & Hs0 & Hle). simplify_eq. lia.
  - destruct Hm as (_ & Hg). destruct (Hg eq_refl) as [_ (s0 & Hs0 & Hle)]. simplify_eq. lia.
Qed.

(** A timeout opens a term with the candidate's own vote. *)
Lemma election_timeout_inv H C T ns fl i s s' t li lt :
  election_inv n H C T ns fl → ns !! i = Some s → t = (current_term s + 1)%N → (t <= T)%N →
  self_id s' = self_id s → cluster_size s' = cluster_size s → current_term s' = t →
  voted_for s' = Some i → votes_received s' = 1 →
  role s' = Candidate ∨ (role s' = Leader ∧ n / 2 + 1 ≤ 1) →
  election_inv n (upd H i t (Some i)) (upd C i t {[i]}) T (<[i := s']> ns)
    (fl ++ envelopes i (vote_requests i t li lt n)).
Proof.
  intros HI Hi Ht HT Hid Hcs Hct Hv' Hvr Hr'.
  destruct (ei_future HI i s t Hi) as [HHn HCn]; [lia|].
  pose proof (upd_vote_mono H i t i (or_introl HHn)) as Hmono.
  assert (i < n) as Hin by (rewrite <- (ei_length HI); by eapply lookup_lt_Some).
  eapply (election_update H C); [exact HI|done|done|done| | | | | | | | | |].
  - lia.
  - done.
  - intros j u Hj. apply upd_ne. by left.
  - rewrite Hct, Hv'. apply upd_eq.
  - intros u Hu. rewrite !upd_ne by (right; lia). eapply (ei_future HI); [done|lia].
  - intros c u Hc. apply upd_ne. by left.
  - intros u j Hj. destruct (decide (u = t)) as [->|Hne].
    + rewrite upd_eq in Hj. apply elem_of_singleton in Hj as ->. split; [done|]. apply upd_eq.
    + rewrite upd_ne in Hj by by right. apply (ei_counted HI) in Hj as [? ?]. auto.
  - rewrite Hct, upd_eq. unfold role_ok. rewrite size_singleton. destruct Hr' as [->|[-> ?]]; lia.
  - intros c j u. rewrite tokens_app, tokens_requests. unfold counted.
    destruct (decide (c = i ∧ u = t)) as [[-> ->]|Hne].
    + rewrite upd_eq, (tokens_future H C T ns fl i s) by (done || lia).
      destruct (decide (j = i)) as [->|Hji].
      * rewrite decide_False by (intros (_ & _ & [? _]%elem_of_peers); done). case_decide; lia.
      * rewrite (decide_False (P := j ∈ {[i]})) by set_solver. case_decide; lia.
    + unfold upd. rewrite (decide_False (P:=c = i ∧ u = t)) by done. rewrite decide_False by tauto.
      rewrite Nat.add_0_r. apply (ei_token HI).
  - apply Forall_app; split.
    + eapply Forall_impl; [exact (ei_msgs HI)|]. intros env. apply msg_ok_mono; [done|done|].
      intros k u. eapply reached_insert; [done|lia].
    + apply Forall_map, Forall_map, Forall_forall. intros p Hp.
      apply elem_of_peers in Hp as [Hne Hp]. cbn.
      split_and!; [done..|]. exists s'. rewrite list_lookup_insert_eq by by rewrite (ei_length HI).
      split; [done|lia].
Qed.

(** ** The handlers *)

Lemma quiet_local s s' :
  self_id s' = self_id s → cluster_size s' = cluster_size s → current_term s' = current_term s →
  voted_for s' = voted_for s → role s' = role s → votes_received s' = votes_received s → quiet s s'.
Proof. intros. split_and!; [done..|]. left. auto. Qed.

Lemma quiet_trans s1 s2 s3 : quiet s1 s2 → quiet s2 s3 → quiet s1 s3.
Proof.
  intros (Hi & Hc & Hq) (Hi' & Hc' & Hq'). split; [congruence|]. split; [congruence|].
  destruct Hq as [(Ht & Hv & Hr)|(Ht & Hv & Hr)], Hq' as [(Ht' & Hv' & Hr')|(Ht' & Hv' & Hr')].
  - left. split; [congruence|]. split; [congruence|]. destruct Hr as [Hr|[Hr Hn]], Hr' as [Hr'|[Hr' Hn']]; auto.
    + left. congruence.
    + right. split; congruence.
  - right. split; [lia|done].
  - right. split; [lia|]. split; [congruence|]. destruct Hr' as [Hr'|[Hr' _]]; congruence.
  - right. split; [lia|done].
Qed.

Lemma step_down_quiet t s : quiet s (step_down_if_stale t s).
Proof.
  unfold step_down_if_stale, become_follower. destruct (N.ltb_spec (current_term s) t); cbn.
  - split_and!; [done..|]. right. auto.
  - by apply quiet_local.
Qed.

Lemma step_down_term t s : current_term (step_down_if_stale t s) = N.max (current_term s) t.
Proof. unfold step_down_if_stale, become_follower. destruct (N.ltb_spec (current_term s) t); cbn; lia. Qed.

Lemma election_quiet_step H C T ns fl fl' i s s' out :
  election_inv n H C T ns fl → fl' ⊆+ fl → ns !! i = Some s → quiet s s' → (current_term s' <= T)%N →
  Forall (neutral n T i) out → election_inv n H C T (<[i := s']> ns) (fl' ++ envelopes i out).
Proof.
  intros HI Hsub Hi Hq HT Hout. apply election_neutral; [|rewrite <- (ei_length HI); by eapply lookup_lt_Some|done].
  eapply election_drop; [done|]. by eapply election_quiet.
Qed.

Lemma appends_neutral T i s :
  self_id s = i → cluster_size s = n → (current_term s <= T)%N →
  Forall (neutral n T i) (map (λ p, (p, build_append_for s p)) (peers_of (self_id s) (cluster_size s))).
Proof.
  intros <- <- HT. apply Forall_map, Forall_forall. intros p [_ Hp]%elem_of_peers. split; [done|]. cbn. by split.
Qed.

(** What a step must establish: the invariant again, with more counted votes. *)
Definition election_next (C : nat → N → gset nat) (T : N) (ns : list Server) (fl : list Envelope) : Prop :=
  ∃ H' C', election_inv n H' C' T ns fl ∧ grows C C'.

Lemma election_next_same H C T ns fl : election_inv n H C T ns fl → election_next C T ns fl.
Proof. intros HI. exists H, C. split; [done|]. by intros c t. Qed.

Lemma grows_upd C i t S : C i t ⊆ S → grows C (upd C i t S).
Proof. intros HS c u. unfold upd. case_decide as Hd; [|done]. by destruct Hd as [-> ->]. Qed.

Lemma request_vote_inv H C T ns fl from to t c li lt s :
  election_inv n H C T ns ((from, to, RequestVote t c li lt) :: fl) → ns !! to = Some s →
  election_next C T (<[to := (handle_request_vote s t c li lt).1]> ns)
    (fl ++ envelopes to (handle_request_vote s t c li lt).2).
Proof.
  intros HI Hs. pose proof (ei_msgs HI) as [(Hf & Hto & -> & Hne & HT & Hreach) _]%Forall_cons_iff.
  pose proof (ei_term HI _ _ Hs) as Hcur. unfold handle_request_vote.
  assert (∀ s', quiet s s' → (current_term s' <= T)%N →
    election_next C T (<[to := s']> ns)
      (fl ++ envelopes to [(from, RequestVoteReply (current_term s') false)])) as Hrefuse.
  { intros s' Hq Hle. eapply election_next_same, election_quiet_step; [exact HI| |done|done|done|].
    - by apply submseteq_cons.
    - apply Forall_singleton. by repeat split. }
  destruct (N.ltb_spec t (current_term s)) as [Hlt|Hge]; [by apply Hrefuse; [apply quiet_local|]|].
  pose proof (step_down_quiet t s) as Hq. pose proof (step_down_term t s) as Hterm.
  set (s1 := step_down_if_stale t s) in *. cbv zeta.
  case_match eqn:Hcan; cbn [fst snd]; [|apply Hrefuse; [done|lia]].
  apply andb_prop in Hcan as [[Hv|Hv]%orb_prop _]; apply bool_decide_eq_true in Hv;
    (eexists (upd H to t (Some from)), C; split; [|by intros ? ?];
     pose proof (election_quiet H C T ns _ to s s1 HI Hs Hq ltac:(lia)) as HI1;
     rewrite <- (list_insert_insert_eq ns to _ s1);
     replace (current_term s1) with t by lia;
     eapply (election_grant _ _ _ _ _ _ _ _ li lt s1); [exact HI1| | |by auto|done..]).
  1,3: apply list_lookup_insert_eq; by eapply lookup_lt_Some.
  all: lia.
Qed.

Lemma vote_reply_inv H C T ns fl from to t g s :
  election_inv n H C T ns ((from, to, RequestVoteReply t g) :: fl) → ns !! to = Some s →
  election_next C T (<[to := (handle_vote_reply s t g).1]> ns)
    (fl ++ envelopes to (handle_vote_reply s t g).2).
Proof.
  intros HI Hs. pose proof (ei_msgs HI) as [(Hf & Hto & HT & Hg) _]%Forall_cons_iff.
  pose proof (ei_term HI _ _ Hs) as Hcur. pose proof (ei_id HI _ _ Hs) as [Hid Hcs].
  unfold handle_vote_reply.
  assert (∀ s', quiet s s' → (current_term s' <= T)%N →
    election_next C T (<[to := s']> ns) (fl ++ envelopes to [])) as Hquiet.
  { intros s' Hq Hle. eapply election_next_same, election_quiet_step; [exact HI| |done|done|done|done].
    by apply submseteq_cons. }
  pose proof (step_down_quiet t s) as Hq. pose proof (step_down_term t s) as Hterm.
  case_bool_decide as Hr; cbn [negb]; [|apply Hquiet; [done|cbn [fst]; lia]].
  destruct (N.ltb_spec (current_term s) t); [apply Hquiet; [done|cbn [fst]; lia]|].
  destruct (N.eqb_spec t (current_term s)) as [->|]; cbn [andb]; [|apply Hquiet; [by apply quiet_local|done]].
  destruct g; [|apply Hquiet; [by apply quiet_local|done]].
  eexists H, _; (split; [|apply grows_upd, union_subseteq_r]).
  cbv zeta. destruct (Nat.leb_spec (quorum (set_votes_received (S (votes_received s)) s))
    (votes_received (set_votes_received (S (votes_received s)) s))) as [Hwin|Hno].
  - apply election_neutral; [|done|by apply appends_neutral].
    eapply election_count; [exact HI|done..|]. right. split; [done|].
    unfold quorum in Hwin. cbn in Hwin. cbn. by rewrite Hcs in Hwin.
  - cbn. rewrite app_nil_r. eapply election_count; [exact HI|done..|by left].
Qed.

Lemma append_inv H C T ns fl from to t l pi pt es lc s :
  election_inv n H C T ns ((from, to, AppendEntries t l pi pt es lc) :: fl) → ns !! to = Some s →
  election_inv n H C T (<[to := (handle_append s t l pi pt es lc).1]> ns)
    (fl ++ envelopes to (handle_append s t l pi pt es lc).2).
Proof.
  intros HI Hs. pose proof (ei_msgs HI) as [(Hf & Hto & -> & HT) _]%Forall_cons_iff.
  pose proof (ei_term HI _ _ Hs) as Hcur. unfold handle_append.
  assert (∀ s' b, quiet s s' → (current_term s' <= T)%N →
    election_inv n H C T (<[to := s']> ns)
      (fl ++ envelopes to [(from, AppendEntriesReply (current_term s') b (last_log_index s'))])) as Hreply.
  { intros s' b Hq Hle. eapply election_quiet_step; [exact HI| |done|done|done|].
    - by apply submseteq_cons.
    - by apply Forall_singleton. }
  destruct (N.ltb_spec t (current_term s)) as [Hlt|Hge]; [by apply Hreply; [apply quiet_local|]|].
  pose proof (step_down_quiet t s) as Hq. pose proof (step_down_term t s) as Hterm.
  set (s1 := step_down_if_stale t s) in *. cbv zeta.
  set (s2 := if bool_decide (role s1 = Candidate) then set_role Follower s1 else s1).
  assert (quiet s1 s2) as Hq2.
  { unfold s2. case_bool_decide; [|by apply quiet_local]. split; [done|]. split; [done|]. left. auto. }
  assert (current_term s2 = current_term s1) as Hterm2 by (unfold s2; by case_bool_decide).
  pose proof (quiet_trans _ _ _ Hq Hq2) as Hq'.
  case_match; cbn [fst snd].
  - apply Hreply; [|cbn; lia]. eapply quiet_trans; [exact Hq'|]. by apply quiet_local.
  - apply Hreply; [eapply quiet_trans; [exact Hq'|]|]; case_match; try by apply quiet_local.
    all: cbn; lia.
Qed.

Lemma append_reply_inv H C T ns fl from to t b mi s :
  election_inv n H C T ns ((from, to, AppendEntriesReply t b mi) :: fl) → ns !! to = Some s →
  election_inv n H C T (<[to := (handle_append_reply s from t b mi).1]> ns)
    (fl ++ envelopes to (handle_append_reply s from t b mi).2).
Proof.
  intros HI Hs. pose proof (ei_msgs HI) as [(Hf & Hto & HT) _]%Forall_cons_iff.
  pose proof (ei_term HI _ _ Hs) as Hcur. pose proof (ei_id HI _ _ Hs) as [Hid Hcs].
  assert (fl ⊆+ (from, to, AppendEntriesReply t b mi) :: fl) as Hsub by by apply submseteq_cons.
  pose proof (step_down_quiet t s) as Hq. pose proof (step_down_term t s) as Hterm.
  unfold handle_append_reply. cbv zeta. repeat (case_match; cbn [fst snd]);
    (eapply election_quiet_step; [exact HI|done|done| | |]); try done; try (cbn; lia); try by apply quiet_local.
  apply Forall_singleton. cbn. split; [done|]. subst to. by split.
Qed.

Lemma handle_inv H C T ns fl from to msg s :
  election_inv n H C T ns ((from, to, msg) :: fl) → ns !! to = Some s →
  election_next C T (<[to := (handle s from msg).1]> ns) (fl ++ envelopes to (handle s from msg).2).
Proof.
  intros HI Hs. destruct msg as [t c li lt|t g|t l pi pt es lc|t b mi]; cbn [handle].
  - by eapply request_vote_inv.
  - by eapply vote_reply_inv.
  - by eapply election_next_same, append_inv.
  - by eapply election_next_same, append_reply_inv.
Qed.

Lemma tick_inv H C T ns fl i s e :
  election_inv n H C T ns fl → (T < u64_max)%N → ns !! i = Some s → (current_term s < T)%N →
  election_next C T (<[i := (tick s e).1]> ns) (fl ++ envelopes i (tick s e).2).
Proof.
  intros HI HT Hs Hlt. pose proof (ei_id HI _ _ Hs) as [Hid Hcs].
  assert (∀ s' out, quiet s s' → current_term s' = current_term s → Forall (neutral n T i) out →
    election_next C T (<[i := s']> ns) (fl ++ envelopes i out)) as Hquiet.
  { intros s' out Hq Hle Hout. eapply election_next_same, election_quiet_step; [exact HI|done..|lia|done]. }
  assert (wadd64 (current_term s) 1 = current_term s + 1)%N as Hadd by (apply wadd64_small; unfold u64_max, two64 in *; lia).
  unfold tick. destruct (role s) eqn:Hr; cbv zeta.
  3: { case_match; [|apply Hquiet; [by apply quiet_local|done|done]]. cbn [fst snd].
       apply Hquiet; [by apply quiet_local|done|].
       apply appends_neutral; cbn; [done..|lia]. }
  all: case_match; [|by apply Hquiet; [apply quiet_local|..]]; cbn [fst snd].
  all: exists (upd H i (current_term s + 1)%N (Some i)), (upd C i (current_term s + 1)%N {[i]}).
  all: split; [|apply grows_upd; rewrite (proj2 (ei_future HI i s (current_term s + 1)%N Hs ltac:(lia))); apply empty_subseteq].
  all: cbn; rewrite Hadd, Hid, Hcs.
  all: eapply election_timeout_inv; [exact HI|done|done|lia|..]; unfold quorum; cbn;
    case_match eqn:Hwin; cbn; try done; auto.
  all: right; split; [done|]; apply Nat.leb_le; by rewrite <- Hcs.
Qed.

#[export] Instance election_net_invariant :
  NetInvariant n (λ T ns fl, ∃ H C, election_inv n H C T ns fl).
Proof.
  split.
  - intros T ns fl (H & C & HI). apply (ei_length HI).
  - intros T ns fl i s (H & C & HI). apply (ei_term HI).
  - intros T T' ns fl HT (H & C & HI). exists H, C. by eapply election_mono.
  - intros T ns fl fl' Hsub (H & C & HI). exists H, C. by eapply election_drop.
  - intros T ns from to msg fl (H & C & HI).
    by pose proof (ei_msgs HI) as [(_ & Hto & _) _]%Forall_cons_iff.
  - intros T ns fl i s e (H & C & HI) HT Hs Hlt.
    destruct (tick_inv H C T ns fl i s e) as (H' & C' & ? & _); eauto.
  - intros T ns fl from to msg s (H & C & HI) HT Hs.
    destruct (handle_inv H C T ns fl from to msg s) as (H' & C' & ? & _); eauto.
  - intros T ns fl i s c (H & C & HI) HT Hs Hr. exists H, C.
    pose proof (ei_term HI _ _ Hs). apply (election_mono H C T); [lia|].
    eapply election_quiet; [exact HI|done|by apply quiet_local|done].
Qed.
End election.

Lemma network_new_lookup m seed i s :
  nodes (network_new m seed) !! i = Some s → i < m ∧ s = server_new i m.
Proof.
  cbn. intros Hi. apply list_lookup_fmap_Some in Hi as (k & -> & Hk).
  apply lookup_seq in Hk as [-> ?]. done.
Qed.

Lemma election_init n seed :
  election_inv n (λ _ _, None) (λ _ _, ∅) 0 (nodes (network_new n seed)) (inbox (network_new n seed)).
Proof.
  split; try (intros i s Hi; apply network_new_lookup in Hi as [? ->]; by repeat split).
  - cbn. by rewrite length_map, length_seq.
  - done.
  - intros c t j Hj. set_solver.
  - intros c j t. unfold counted. rewrite decide_False by set_solver. cbn. lia.
  - done.
Qed.

(** C3: election safety. Whatever a driver does with a fresh network of [n]
    nodes (ticks, deliveries, proposals to existing nodes, lossy links, heals;
    fewer operations than a [u64] term can count), no message is ever addressed
    to a missing node (no index panic), and two leaders of the same term are
    the same server. *)
Theorem election_safety (n : nat) (seed : N) (ops : list net_op) :
  (N.of_nat (length ops) < u64_max)%N → Forall (op_in_range n) ops →
  ∃ net, run_ops (network_new n seed) ops = Some net ∧
    ∀ i j si sj, nodes net !! i = Some si → nodes net !! j = Some sj →
      role si = Leader → role sj = Leader → current_term si = current_term sj → i = j.
Proof.
  intros Hlen Hops.
  destruct (run_ops_inv (n := n) (P := λ T ns fl, ∃ H C, election_inv n H C T ns fl) ops 0 (network_new n seed))
    as (net & Hrun & H & C & HI); [|done|done|].
  - eexists _, _. apply election_init.
  - exists net. split; [done|]. intros i j si sj Hi Hj Hri Hrj Ht.
    eapply election_unique; [exact HI|by eapply leader_won|]. rewrite Ht. by eapply leader_won.
Qed.

Lemma election_safety_witness :
  ∃ net, run_ops (network_new 3 42)
      [OpTick 150; OpRunUntilQuiet 16; OpPropose 0 [x61]; OpPartition 0 1 (Finite (1#2)); OpTick 200; OpStep] = Some net ∧
    ∀ i j si sj, nodes net !! i = Some si → nodes net !! j = Some sj →
      role si = Leader → role sj = Leader → current_term si = current_term sj → i = j.
Proof.
  apply (election_safety 3 42); [reflexivity|]. repeat constructor.
Defined.
