(* ===== verification/RaftFaults.v ===== *)
(** * Two schedules on which the Raft code departs from the protocol
    ([lionfs-cluster/src/raft.rs])

    A follower acknowledges its own last index instead of the last index the
    leader sent it, so a divergent suffix counts as replicated; and the
    back-off of [next_index] passes 1, after which the probe names a previous
    index no log has. *)
From S2P Require Import Prelude RaftModel RaftNet.
From Stdlib Require Import NArith ZArith QArith_base Lia Strings.Byte.
From stdpp Require Import base numbers gmap option list.
#[local] Open Scope nat_scope.

(** Both directions of a link cut. *)
Definition cut (i j : NodeId) : list net_op := [OpPartition i j (Finite 1); OpPartition j i (Finite 1)].

(** Node 0 leads term 1 and accepts b while isolated; node 2 leads term 2, hears
    node 0 acknowledge index 2, is isolated and accepts c; node 0 leads term 3. *)
Definition stale_suffix_run : list net_op :=
  [OpTick 150; OpRunUntilQuiet 16; OpPropose 0 [x61]; OpTick 20; OpRunUntilQuiet 16] ++
  cut 0 1 ++ cut 0 2 ++ [OpPropose 0 [x62]; OpTick 175; OpRunUntilQuiet 16; OpHeal; OpTick 50; OpRunUntilQuiet 16] ++
  cut 2 0 ++ cut 2 1 ++ [OpPropose 2 [x63]; OpTick 177; OpRunUntilQuiet 16; OpPropose 0 [x64]; OpTick 20; OpRunUntilQuiet 16].

(** Node 2 takes over with one entry node 1 does not have; two probes are in
    flight before the first rejection returns. *)
Definition probe_underflow_run : list net_op :=
  cut 1 0 ++ cut 1 2 ++ [OpTick 150; OpRunUntilQuiet 16; OpPropose 0 [x61]; OpTick 20; OpRunUntilQuiet 16; OpHeal] ++
  cut 0 1 ++ cut 0 2 ++ [OpTick 175; OpStep; OpStep; OpTick 50; OpStep; OpStep].

(** What server [s] has committed at index [k]. *)
Definition committed_at (s : Server) (k : N) : option LogEntry :=
  if (k <=? commit_index s)%N then find_index (log s) k else None.

Lemma find_index_fresh l i : Forall (λ e, (e_index e < i)%N) l → find_index l i = None.
Proof.
  unfold find_index. induction 1 as [|e l He _ IH]; cbn; [done|].
  destruct (N.eqb_spec (e_index e) i); [lia|done].
Qed.

(** Committed entries can diverge. After this run two servers have
    committed different commands at index 2: node 2 counted node 0's stale
    entry of term 1 as a replica of its own, because the acknowledgement of an
    empty append carries the follower's last index. *)
Theorem stale_suffix_commits_diverge :
  ∃ net s0 s2, run_ops (network_new 3 42) stale_suffix_run = Some net ∧
    nodes net !! 0 = Some s0 ∧ nodes net !! 2 = Some s2 ∧
    e_command <$> committed_at s0 2 = Some [x62] ∧ e_command <$> committed_at s2 2 = Some [x63].
Proof.
  destruct (run_ops (network_new 3 42) stale_suffix_run) as [net|] eqn:E; vm_compute in E; [|done].
  injection E as <-. by eexists _, _, _.
Qed.

