(* ===== verification/RaftLog.v ===== *)
(** * Log matching of the Raft metadata plane ([lionfs-cluster/src/raft.rs])

    Over every run of the network the logs are numbered 1, 2, ..., and two logs
    that hold an entry of the same index and term agree up to it. Beside the
    history of votes the argument keeps [LL t], the log of the leader of term
    [t] as far as it has been written: every entry of term [t], in any log or
    message, heads a prefix of [LL t]. *)
From S2P Require Import Prelude RaftModel RaftNet RaftElection.
From Stdlib Require Import NArith ZArith QArith_base Lia Strings.Byte.
From stdpp Require Import base numbers gmap option list.
#[local] Open Scope nat_scope.
#[local] Arguments Nat.div _ _ : simpl never.
#[local] Arguments Nat.leb _ _ : simpl never.

Abbreviation leader_logs := (N → option (list LogEntry)).

Definition contiguous (l : list LogEntry) : Prop :=
  ∀ k e, l !! k = Some e → e_index e = N.of_nat (S k).

Definition log_ok (LL : leader_logs) (T : N) (l : list LogEntry) : Prop :=
  (N.of_nat (length l) <= T)%N ∧ contiguous l ∧
  ∀ k e, l !! k = Some e → ∃ l', LL (e_term e) = Some l' ∧ take (S k) l = take (S k) l'.

(** An append of term [t] carries a piece of the leader's log. *)
Definition append_ok (n : nat) (C : nat → N → gset nat) (LL : leader_logs) (env : Envelope) : Prop :=
  let '(from, to, msg) := env in
  match msg with
  | AppendEntries t _ pi pt es _ =>
      from ≠ to ∧ won n C from t ∧
      ∃ l0 lt, LL t = Some lt ∧ l0 `prefix_of` lt ∧
        (es = [] ∨ pi = u64_max ∨
         (es = drop (N.to_nat pi) l0 ∧ N.to_nat pi ≤ length l0 ∧
          (pi ≠ 0%N → ∃ e, l0 !! (N.to_nat pi - 1) = Some e ∧ e_term e = pt)))
  | AppendEntriesReply _ _ _ => from ≠ to
  | _ => True
  end.

(** The [u64] range of the leader's progress map. *)
Definition next_ok (s : Server) : Prop := map_Forall (λ _ v, (v < two64)%N) (next_index s).

Record log_inv (n : nat) (C : nat → N → gset nat) (LL : leader_logs)
    (T : N) (ns : list Server) (fl : list Envelope) : Prop := {
  li_server : ∀ i s, ns !! i = Some s → log_ok LL T (log s);
  li_hist : ∀ t l, LL t = Some l → log_ok LL T l;
  li_leader : ∀ i s, ns !! i = Some s → role s = Leader → LL (current_term s) = Some (log s);
  li_won : ∀ t l, LL t = Some l → ∃ c s, ns !! c = Some s ∧ won n C c t ∧
             ((t < current_term s)%N ∨ (current_term s = t ∧ role s = Leader));
  li_next : ∀ i s, ns !! i = Some s → next_ok s;
  li_msgs : Forall (append_ok n C LL) fl
}.
Arguments li_server {_ _ _ _ _ _} _.
Arguments li_hist {_ _ _ _ _ _} _.
Arguments li_leader {_ _ _ _ _ _} _.
Arguments li_won {_ _ _ _ _ _} _.
Arguments li_next {_ _ _ _ _ _} _.
Arguments li_msgs {_ _ _ _ _ _} _.

(** The leaders' logs only grow at their end. *)
Definition extends (LL LL' : leader_logs) : Prop :=
  ∀ t l, LL t = Some l → ∃ l', LL' t = Some l' ∧ l `prefix_of` l'.

(** ** Numbered logs *)

Lemma take_of_prefix {A} (l l' : list A) k : l `prefix_of` l' → k ≤ length l → take k l' = take k l.
Proof. intros [m ->] Hk. by rewrite take_app_le. Qed.

Lemma contiguous_prefix l l' : l `prefix_of` l' → contiguous l' → contiguous l.
Proof. intros Hp Hc k e Hk. apply Hc. by eapply prefix_lookup_Some. Qed.

Lemma find_index_contiguous l i :
  contiguous l → i ≠ 0%N → find_index l i = l !! (N.to_nat i - 1).
Proof.
  intros Hc Hi. assert (∀ o, (∀ k e, l !! k = Some e → e_index e = N.of_nat (S (o + k))) →
    o < N.to_nat i → find_index l i = l !! (N.to_nat i - 1 - o)) as Hgen.
  { clear Hc. induction l as [|x l IH]; intros o Hc Ho; [done|]. unfold find_index. cbn [find].
    pose proof (Hc 0 x eq_refl) as Hx. rewrite Nat.add_0_r in Hx.
    destruct (N.eqb_spec (e_index x) i) as [He|He].
    - by replace (N.to_nat i - 1 - o) with 0 by lia.
    - replace (N.to_nat i - 1 - o) with (S (N.to_nat i - 1 - S o)) by lia. apply IH; [|lia].
      intros k e Hk. rewrite (Hc (S k) e Hk). f_equal. lia. }
  rewrite (Hgen 0); [|done|lia]. by rewrite Nat.sub_0_r.
Qed.

Lemma filter_contiguous l next :
  contiguous l → filter (λ e, (next <= e_index e)%N) l = drop (N.to_nat next - 1) l.
Proof.
  intros Hc. assert (∀ o, (∀ k e, l !! k = Some e → e_index e = N.of_nat (S (o + k))) →
    filter (λ e, (next <= e_index e)%N) l = drop (N.to_nat next - 1 - o) l) as Hgen.
  { clear Hc. induction l as [|x l IH]; intros o Hc; [by rewrite drop_nil|].
    pose proof (Hc 0 x eq_refl) as Hx. rewrite Nat.add_0_r in Hx.
    assert (∀ k e, l !! k = Some e → e_index e = N.of_nat (S (S o + k))) as Hc'.
    { intros k e Hk. rewrite (Hc (S k) e Hk). f_equal. lia. }
    rewrite filter_cons. case_decide as Hd.
    - replace (N.to_nat next - 1 - o) with 0 by lia. rewrite (IH (S o)) by done.
      by replace (N.to_nat next - 1 - S o) with 0 by lia.
    - replace (N.to_nat next - 1 - o) with (S (N.to_nat next - 1 - S o)) by lia. by apply IH. }
  rewrite (Hgen 0) by done. by rewrite Nat.sub_0_r.
Qed.

Lemma log_last_contiguous l : contiguous l → log_last_index l = N.of_nat (length l).
Proof.
  intros Hc. unfold log_last_index. destruct (last l) as [e|] eqn:E.
  - rewrite last_lookup in E. rewrite (Hc _ _ E). f_equal. apply lookup_lt_Some in E. lia.
  - by apply last_None in E as ->.
Qed.

Lemma append_entry_contiguous l x :
  contiguous l → (e_index x < two64)%N → N.to_nat (e_index x) ≤ S (length l) → e_index x ≠ 0%N →
  append_entry l x =
    match l !! (N.to_nat (e_index x) - 1) with
    | Some e => if N.eqb (e_term e) (e_term x) then l else take (N.to_nat (e_index x) - 1) l ++ [x]
    | None => l ++ [x]
    end.
Proof.
  intros Hc Hlt Hle Hnz. unfold append_entry. destruct (list_find _ l) as [[pos e]|] eqn:E.
  - apply list_find_Some in E as (Hpos & He & _). rewrite (Hc _ _ Hpos) in He.
    replace (N.to_nat (e_index x) - 1) with pos by lia. by rewrite Hpos.
  - rewrite list_find_None in E. destruct (l !! _) as [e|] eqn:Hk.
    + exfalso. rewrite Forall_lookup in E. apply (E _ _ Hk). rewrite (Hc _ _ Hk). lia.
    + apply lookup_ge_None in Hk. rewrite log_last_contiguous by done.
      rewrite wadd64_small by lia. destruct (N.eqb_spec (e_index x) (N.of_nat (length l) + 1)); [done|lia].
Qed.

(** ** Histories *)

Lemma log_ok_extends LL LL' T T' l :
  extends LL LL' → (T <= T')%N → log_ok LL T l → log_ok LL' T' l.
Proof.
  intros Hext HT (Hlen & Hc & Hm). split; [lia|]. split; [done|]. intros k e Hk.
  destruct (Hm k e Hk) as (l' & Hl' & Htake). destruct (Hext _ _ Hl') as (l'' & Hl'' & Hp).
  exists l''. split; [done|]. rewrite Htake. symmetry. apply take_of_prefix; [done|].
  apply (f_equal length) in Htake. rewrite !length_take in Htake. apply lookup_lt_Some in Hk. lia.
Qed.

Lemma log_ok_prefix LL T l l' : l `prefix_of` l' → log_ok LL T l' → log_ok LL T l.
Proof.
  intros Hp (Hlen & Hc & Hm). pose proof (prefix_length _ _ Hp). split; [lia|].
  split; [by eapply contiguous_prefix|]. intros k e Hk.
  destruct (Hm k e) as (l0 & Hl0 & Htake); [by eapply prefix_lookup_Some|].
  exists l0. split; [done|]. rewrite <- Htake. symmetry. apply take_of_prefix; [done|].
  apply lookup_lt_Some in Hk. lia.
Qed.

(** Entries of equal index and term head equal prefixes. *)
Lemma log_ok_agree LL T T' l l' k e e' :
  log_ok LL T l → log_ok LL T' l' → l !! k = Some e → l' !! k = Some e' → e_term e = e_term e' →
  take (S k) l = take (S k) l'.
Proof.
  intros (_ & _ & Hm) (_ & _ & Hm') Hk Hk' Ht.
  destruct (Hm k e Hk) as (l0 & Hl0 & ->), (Hm' k e' Hk') as (l0' & Hl0' & ->).
  rewrite Ht in Hl0. by simplify_eq.
Qed.

Lemma append_ok_extends n C C' LL LL' env :
  grows C C' → extends LL LL' → append_ok n C LL env → append_ok n C' LL' env.
Proof.
  intros HC HL. destruct env as [[from to] [| |t l pi pt es lc|]]; cbn; try done.
  intros (Hne & Hwon & l0 & lt & Hlt & Hp & Hes). split; [done|]. split.
  - unfold won in *. pose proof (subseteq_size _ _ (HC from t)). lia.
  - destruct (HL _ _ Hlt) as (lt' & Hlt' & Hp'). exists l0, lt'. split; [done|]. split; [by etrans|done].
Qed.

(** The follower's entry loop turns its log into one that agrees with the
    leader's on everything the message covers. *)
Lemma append_entries_ok LL T l l0 p :
  (T < two64)%N → log_ok LL T l → log_ok LL T l0 → p ≤ length l0 → take p l = take p l0 →
  log_ok LL T (foldl append_entry l (drop p l0)).
Proof.
  intros HT. remember (length l0 - p) as m eqn:Hm. revert l p Hm.
  induction m as [|m IH]; intros l p Hm Hl Hl0 Hp Htake.
  { by rewrite drop_ge by lia. }
  destruct (lookup_lt_is_Some_2 l0 p) as [x Hx]; [lia|]. rewrite (drop_S _ _ _ Hx). cbn [foldl].
  pose proof Hl as (Hlen & Hc & _). pose proof Hl0 as (Hlen0 & Hc0 & _).
  pose proof (Hc0 _ _ Hx) as Hidx. pose proof (f_equal length Htake) as Hlt. rewrite !length_take in Hlt.
  rewrite append_entry_contiguous by (done || lia).
  replace (N.to_nat (e_index x) - 1) with p by lia.
  assert (take (S p) l0 `prefix_of` l0) as Hpre by (exists (drop (S p) l0); symmetry; apply take_drop).
  assert (take p l ++ [x] = take (S p) l0) as Hpush by (rewrite Htake; symmetry; by apply take_S_r).
  destruct (l !! p) as [e|] eqn:He.
  - destruct (N.eqb_spec (e_term e) (e_term x)) as [Hterm|Hterm].
    + apply IH; [lia|done|done|lia|]. by eapply log_ok_agree.
    + rewrite Hpush. apply IH; [lia|by eapply log_ok_prefix|done|lia|]. by rewrite take_take, Nat.min_id.
  - apply lookup_ge_None in He. rewrite <- (take_ge l p), Hpush by done.
    apply IH; [lia|by eapply log_ok_prefix|done|lia|]. by rewrite take_take, Nat.min_id.
Qed.

(** ** The invariant under changes of the network *)

Section matching.
Context {n : nat}.

Lemma won_grows C C' c t : grows C C' → won n C c t → won n C' c t.
Proof. intros HC Hw. unfold won in *. pose proof (subseteq_size _ _ (HC c t)). lia. Qed.

Lemma log_mono C LL T T' ns fl : (T <= T')%N → log_inv n C LL T ns fl → log_inv n C LL T' ns fl.
Proof.
  intros HT []. assert (extends LL LL) as Hext by (intros t l Hl; by exists l).
  split; try done; intros; eapply log_ok_extends; eauto.
Qed.

Lemma log_drop C LL T ns fl fl' : fl' ⊆+ fl → log_inv n C LL T ns fl → log_inv n C LL T ns fl'.
Proof.
  intros [k Hk]%submseteq_Permutation []. split; try done. rewrite Hk in li_msgs0.
  by apply Forall_app in li_msgs0 as [? _].
Qed.

(** The update of one server: what has to be shown of it. *)
Lemma log_update C C' LL LL' T ns fl fl' i s s' :
  log_inv n C LL T ns fl → grows C C' → extends LL LL' → ns !! i = Some s →
  (current_term s <= current_term s')%N → log_ok LL' T (log s') →
  (∀ t l, LL' t = Some l → LL t = None ∨ LL t ≠ Some l → log_ok LL' T l) →
  (role s' = Leader → LL' (current_term s') = Some (log s')) →
  (∀ j sj, j ≠ i → ns !! j = Some sj → role sj = Leader → LL' (current_term sj) = LL (current_term sj)) →
  (role s = Leader → current_term s' = current_term s → role s' = Leader) →
  (∀ t l, LL' t = Some l → LL t = None → t = current_term s' ∧ won n C' i t ∧ role s' = Leader) →
  next_ok s' → Forall (append_ok n C' LL') fl' →
  log_inv n C' LL' T (<[i := s']> ns) fl'.
Proof.
  intros HI HC Hext Hi Hle Hok Hnew Hlead Hother Hstay Hwon Hnext Hmsgs.
  assert (i < length ns) as Hlt by by eapply lookup_lt_Some. destruct HI. split; try done.
  - intros j sj [(-> & -> & _)|[Hne Hj]]%list_lookup_insert_Some; [done|].
    by eapply log_ok_extends; eauto.
  - intros t l Hl. destruct (LL t) as [l0|] eqn:E; [|by eapply Hnew; eauto].
    destruct (decide (l0 = l)) as [->|Hne]; [|eapply Hnew; eauto; right; congruence].
    by eapply log_ok_extends; eauto.
  - intros j sj [(-> & -> & _)|[Hne Hj]]%list_lookup_insert_Some Hr; [by apply Hlead|].
    rewrite (Hother j) by (congruence || done). by eapply li_leader0.
  - intros t l Hl. destruct (LL t) as [l0|] eqn:E.
    + destruct (li_won0 _ _ E) as (c & sc & Hc & Hw & Hcase). destruct (decide (c = i)) as [->|Hne].
      * simplify_eq. exists i, s'. rewrite list_lookup_insert_eq by done. split; [done|].
        split; [by eapply won_grows|]. destruct Hcase as [?|[<- Hr]]; [left; lia|].
        destruct (N.lt_trichotomy (current_term s) (current_term s')) as [?|[Heq|?]]; [by left| |lia].
        right. split; [done|]. by apply Hstay.
      * exists c, sc. rewrite list_lookup_insert_ne by done. split; [done|]. split; [by eapply won_grows|done].
    + destruct (Hwon _ _ Hl E) as (-> & Hw & Hr). exists i, s'. rewrite list_lookup_insert_eq by done. auto.
  - intros j sj [(-> & -> & _)|[Hne Hj]]%list_lookup_insert_Some; [done|by eauto].
Qed.

(** A step that writes no log of a leader. *)
Lemma log_same C C' LL T ns fl fl' out i s s' :
  log_inv n C LL T ns fl → fl' ⊆+ fl → grows C C' → ns !! i = Some s →
  (current_term s <= current_term s')%N → log_ok LL T (log s') → next_ok s' →
  (role s' = Leader → role s = Leader ∧ current_term s' = current_term s ∧ log s' = log s) →
  (role s = Leader → current_term s' = current_term s → role s' = Leader) →
  Forall (append_ok n C' LL) (envelopes i out) →
  log_inv n C' LL T (<[i := s']> ns) (fl' ++ envelopes i out).
Proof.
  intros HI Hsub HC Hi Hle Hok Hnext Hlead Hstay Hout.
  assert (extends LL LL) as Hext by (intros t l Hl; by exists l).
  eapply (log_update C C' LL LL); [by eapply log_drop|done..| | |done|done| |done|].
  - intros t l Hl [Hn|Hn]; congruence.
  - intros (Hr & -> & ->)%Hlead. by eapply (li_leader HI).
  - intros t l Hl Hn. congruence.
  - apply Forall_app; split; [|done]. apply (log_drop C LL T ns fl fl') in HI; [|done].
    eapply Forall_impl; [exact (li_msgs HI)|]. intros env. by apply append_ok_extends.
Qed.

Lemma build_append_ok C LL i p s :
  contiguous (log s) → next_ok s → LL (current_term s) = Some (log s) → won n C i (current_term s) → i ≠ p →
  append_ok n C LL (i, p, build_append_for s p).
Proof.
  intros Hc Hnext HLL Hwon Hne. unfold build_append_for. cbv zeta.
  assert (default 1 (next_index s !! p) < two64)%N as Hlt.
  { destruct (next_index s !! p) as [v|] eqn:E; [exact (Hnext _ _ E)|done]. }
  set (next := default 1%N (next_index s !! p)) in *. cbn. split; [done|]. split; [done|].
  exists (log s), (log s). split; [done|]. split; [done|].
  destruct (decide (next = 0%N)) as [->|Hnz]; [by right; left|].
  rewrite wsub64_small, filter_contiguous by (done || lia).
  replace (N.to_nat next - 1) with (N.to_nat (next - 1)) by lia.
  destruct (decide (N.to_nat (next - 1) ≤ length (log s))) as [Hin|Hout].
  - right; right. split; [done|]. split; [done|]. intros Hpi. rewrite find_index_contiguous by done.
    destruct (lookup_lt_is_Some_2 (log s) (N.to_nat (next - 1) - 1)) as [e He]; [lia|].
    exists e. by rewrite He.
  - left. apply drop_ge. lia.
Qed.

Lemma appends_ok C LL i s :
  self_id s = i → contiguous (log s) → next_ok s → LL (current_term s) = Some (log s) → won n C i (current_term s) →
  Forall (append_ok n C LL)
    (envelopes i (map (λ p, (p, build_append_for s p)) (peers_of (self_id s) (cluster_size s)))).
Proof.
  intros <- Hc Hnext HLL Hwon. apply Forall_map, Forall_map, Forall_forall.
  intros p [Hp _]%elem_of_peers. by apply build_append_ok.
Qed.

Definition set_leader_log (LL : leader_logs) (t : N) (l : list LogEntry) : leader_logs :=
  λ u, if decide (u = t) then Some l else LL u.

Lemma set_leader_log_eq LL t l : set_leader_log LL t l t = Some l.
Proof. unfold set_leader_log. by rewrite decide_True. Qed.
Lemma set_leader_log_ne LL t l u : u ≠ t → set_leader_log LL t l u = LL u.
Proof. intros. unfold set_leader_log. by rewrite decide_False. Qed.

Lemma set_leader_log_extends LL t l :
  (∀ l0, LL t = Some l0 → l0 `prefix_of` l) → extends LL (set_leader_log LL t l).
Proof.
  intros Hp u lu Hu. unfold set_leader_log. case_decide as Hd; [subst|by eauto]. eauto.
Qed.

(** No one has led the term a server is elected in. *)
Lemma elect_fresh H' C C' LL T ns ns' fl fl' i s t :
  log_inv n C LL T ns fl → grows C C' → election_inv n H' C' T ns' fl' → ns !! i = Some s →
  won n C' i t → (current_term s <= t)%N → role s ≠ Leader → LL t = None.
Proof.
  intros HI HC HE Hi Hw Hle Hr. destruct (LL t) as [l|] eqn:E; [|done].
  destruct (li_won HI _ _ E) as (c & sc & Hc & Hwc & Hcase).
  assert (c = i) as -> by (eapply election_unique; [exact HE|by eapply won_grows|done]).
  simplify_eq. destruct Hcase as [?|[? ?]]; [lia|done].
Qed.

Lemma log_elect H' C C' LL T ns fl fl' out i s s' :
  log_inv n C LL T ns fl → fl' ⊆+ fl → grows C C' → ns !! i = Some s →
  election_inv n H' C' T (<[i := s']> ns) (fl' ++ envelopes i out) →
  (current_term s <= current_term s')%N → role s ≠ Leader → role s' = Leader → log s' = log s → next_ok s' →
  Forall (append_ok n C' (set_leader_log LL (current_term s') (log s))) (envelopes i out) →
  log_inv n C' (set_leader_log LL (current_term s') (log s)) T (<[i := s']> ns) (fl' ++ envelopes i out).
Proof.
  intros HI Hsub HC Hi HE Hle Hr Hr' Hlog Hnext Hout.
  assert (won n C' i (current_term s')) as Hwon.
  { eapply leader_won; [exact HE| |done]. apply list_lookup_insert_eq. by eapply lookup_lt_Some. }
  pose proof (elect_fresh _ _ _ _ _ _ _ _ _ _ _ _ HI HC HE Hi Hwon Hle Hr) as Hfresh.
  assert (extends LL (set_leader_log LL (current_term s') (log s))) as Hext.
  { apply set_leader_log_extends. congruence. }
  assert (log_ok (set_leader_log LL (current_term s') (log s)) T (log s)) as Hok.
  { eapply log_ok_extends; [exact Hext|reflexivity|]. by eapply (li_server HI). }
  eapply (log_update C C' LL); [by eapply log_drop|done..|by rewrite Hlog| | | |done| |done|].
  - intros t l Hl Hn. destruct (decide (t = current_term s')) as [->|Hne].
    + rewrite set_leader_log_eq in Hl. by simplify_eq.
    + rewrite set_leader_log_ne in Hl by done. destruct Hn; congruence.
  - intros _. by rewrite set_leader_log_eq, Hlog.
  - intros j sj Hne Hj Hrj. apply set_leader_log_ne. intros Ht.
    pose proof (li_leader HI _ _ Hj Hrj) as HL. rewrite Ht in HL. congruence.
  - intros t l Hl Hn. destruct (decide (t = current_term s')) as [->|Hne]; [done|].
    rewrite set_leader_log_ne in Hl by done. congruence.
  - apply Forall_app; split; [|done]. apply (log_drop C LL T ns fl fl') in HI; [|done].
    eapply Forall_impl; [exact (li_msgs HI)|]. intros env. by apply append_ok_extends.
Qed.

(** ** The handlers *)

(** A server that keeps its log and does not become a leader. *)
Definition keeps (s s' : Server) : Prop :=
  (current_term s <= current_term s')%N ∧ log s' = log s ∧ next_index s' = next_index s ∧
  (role s' = Leader → role s = Leader ∧ current_term s' = current_term s) ∧
  (role s = Leader → current_term s' = current_term s → role s' = Leader).

Lemma keeps_local s s' :
  current_term s' = current_term s → log s' = log s → next_index s' = next_index s → role s' = role s →
  keeps s s'.
Proof. intros Ht Hl Hn Hr. split; [lia|]. rewrite Hr. auto. Qed.

Lemma keeps_trans s1 s2 s3 : keeps s1 s2 → keeps s2 s3 → keeps s1 s3.
Proof.
  intros (Ht & Hl & Hn & Hr & Hs) (Ht' & Hl' & Hn' & Hr' & Hs').
  split; [lia|]. split; [congruence|]. split; [congruence|]. split.
  - intros [H3 Hc]%Hr'. destruct (Hr H3). split; [done|congruence].
  - intros H1 Hc. apply Hs'; [apply Hs; [done|]|]; lia.
Qed.

Lemma step_down_keeps t s : keeps s (step_down_if_stale t s).
Proof.
  unfold step_down_if_stale, become_follower. destruct (N.ltb_spec (current_term s) t); cbn.
  - split; [cbn; lia|]. cbn. split_and!; [done..|lia].
  - by apply keeps_local.
Qed.

Lemma log_keeps C C' LL T ns fl fl' out i s s' :
  log_inv n C LL T ns fl → fl' ⊆+ fl → grows C C' → ns !! i = Some s → keeps s s' →
  Forall (append_ok n C' LL) (envelopes i out) →
  log_inv n C' LL T (<[i := s']> ns) (fl' ++ envelopes i out).
Proof.
  intros HI Hsub HC Hi (Ht & Hl & Hn & Hr & Hs) Hout. eapply log_same; [exact HI|done..| | | |done|done].
  - rewrite Hl. by eapply (li_server HI).
  - unfold next_ok. rewrite Hn. by eapply (li_next HI).
  - intros [? ?]%Hr. auto.
Qed.

Lemma foldl_insert_Forall (v : N) (P : N → Prop) (peers : list nat) (g : gmap nat N) :
  map_Forall (λ _, P) g → P v → map_Forall (λ _, P) (foldl (λ g p, <[p := v]> g) g peers).
Proof.
  intros Hg Hv. revert g Hg. induction peers as [|p peers IH]; intros g Hg; [done|].
  apply IH. by apply map_Forall_insert_2.
Qed.

Lemma become_leader_next s : next_ok s → next_ok (become_leader s).
Proof. intros Hn. apply foldl_insert_Forall; [done|]. apply wrap64_lt. Qed.

Lemma request_vote_keeps s t c li lt : keeps s (handle_request_vote s t c li lt).1.
Proof.
  unfold handle_request_vote. destruct (t <? current_term s)%N; [by apply keeps_local|].
  cbv zeta. pose proof (step_down_keeps t s) as Hk. set (s1 := step_down_if_stale t s) in *.
  case_match; [|done]. eapply keeps_trans; [exact Hk|]. by apply keeps_local.
Qed.

Lemma request_vote_out s t c li lt C LL i :
  Forall (append_ok n C LL) (envelopes i (handle_request_vote s t c li lt).2).
Proof. unfold handle_request_vote. repeat (case_match; cbn); by repeat constructor. Qed.

Definition log_next (C : nat → N → gset nat) (T : N) (ns : list Server) (fl : list Envelope) : Prop :=
  ∃ LL, log_inv n C LL T ns fl.

Lemma vote_reply_log H' C C' LL T ns fl from to t g s :
  log_inv n C LL T ns ((from, to, RequestVoteReply t g) :: fl) → grows C C' → ns !! to = Some s → self_id s = to →
  election_inv n H' C' T (<[to := (handle_vote_reply s t g).1]> ns)
    (fl ++ envelopes to (handle_vote_reply s t g).2) →
  log_next C' T (<[to := (handle_vote_reply s t g).1]> ns) (fl ++ envelopes to (handle_vote_reply s t g).2).
Proof.
  intros HI HC Hs Hid HE.
  assert (fl ⊆+ (from, to, RequestVoteReply t g) :: fl) as Hsub by by apply submseteq_cons.
  assert (∀ s', keeps s s' → log_next C' T (<[to := s']> ns) (fl ++ envelopes to [])) as Hkeep.
  { intros s' Hk. exists LL. by eapply log_keeps. }
  unfold handle_vote_reply in *. case_bool_decide as Hr; cbn [negb] in *; [|by apply Hkeep, step_down_keeps].
  destruct (current_term s <? t)%N; [by apply Hkeep, step_down_keeps|].
  destruct (_ && _)%bool; [|by apply Hkeep, keeps_local]. cbv zeta in *.
  destruct (quorum _ <=? _); [|by apply Hkeep, keeps_local].
  eexists. eapply log_elect; [exact HI|done|done|done|exact HE|cbn; lia|congruence|done|done| |].
  - cbn [fst]. apply become_leader_next. exact (li_next HI _ _ Hs).
  - cbn [fst snd] in *. apply appends_ok; [done| | | |].
    + exact (proj1 (proj2 (li_server HI _ _ Hs))).
    + apply become_leader_next. exact (li_next HI _ _ Hs).
    + apply set_leader_log_eq.
    + eapply leader_won; [exact HE| |done]. apply list_lookup_insert_eq. by eapply lookup_lt_Some.
Qed.

(** The log a follower holds after an append. *)
Lemma append_log_ok C LL T l t from to pi pt es lc :
  (T < u64_max)%N → log_ok LL T l → (∀ t l, LL t = Some l → log_ok LL T l) →
  append_ok n C LL (from, to, AppendEntries t from pi pt es lc) →
  (pi = 0%N ∨ ∃ e, find_index l pi = Some e ∧ e_term e = pt) →
  log_ok LL T (foldl append_entry l es).
Proof.
  intros HT Hl Hhist (_ & _ & l0 & lt & Hlt & Hp & Hes) Hprev.
  pose proof (log_ok_prefix _ _ _ _ Hp (Hhist _ _ Hlt)) as Hl0.
  destruct Hes as [->|[->|(-> & Hle & Hterm)]]; [done| |].
  - exfalso. destruct Hprev as [?|(e & He & _)]; [done|]. pose proof Hl as (Hlen & Hc & _).
    rewrite find_index_contiguous in He by done. apply lookup_lt_Some in He. unfold u64_max in *. lia.
  - apply append_entries_ok; [unfold u64_max, two64 in *; lia|done|done|done|].
    destruct Hprev as [->|(e & He & <-)]; [done|].
    destruct (decide (pi = 0%N)) as [->|Hnz]; [done|].
    rewrite find_index_contiguous in He by (by apply Hl || done).
    destruct (Hterm Hnz) as (e0 & He0 & Ht0).
    replace (N.to_nat pi) with (S (N.to_nat pi - 1)) by lia. by eapply log_ok_agree.
Qed.

Lemma log_consistent_prev s pi pt :
  log_consistent s pi pt = true → pi = 0%N ∨ ∃ e, find_index (log s) pi = Some e ∧ e_term e = pt.
Proof.
  unfold log_consistent. destruct (N.eqb_spec pi 0); [by left|]. intros Hc. right.
  destruct (find_index (log s) pi) as [e|]; [|done]. exists e. split; [done|]. by apply N.eqb_eq.
Qed.

(** Both outcomes of an append keep the follower's log good. *)
Lemma append_log H C C' LL T ns fl from to t l pi pt es lc s :
  election_inv n H C T ns ((from, to, AppendEntries t l pi pt es lc) :: fl) →
  log_inv n C LL T ns ((from, to, AppendEntries t l pi pt es lc) :: fl) → grows C C' →
  (T < u64_max)%N → ns !! to = Some s →
  log_inv n C' LL T (<[to := (handle_append s t l pi pt es lc).1]> ns)
    (fl ++ envelopes to (handle_append s t l pi pt es lc).2).
Proof.
  intros HE HI HC HT Hs. pose proof (ei_msgs HE) as [(_ & _ & -> & _) _]%Forall_cons_iff.
  pose proof (li_msgs HI) as [Hmsg _]%Forall_cons_iff. pose proof Hmsg as (Hne & Hwon & _).
  assert (fl ⊆+ (from, to, AppendEntries t from pi pt es lc) :: fl) as Hsub by by apply submseteq_cons.
  unfold handle_append. destruct (N.ltb_spec t (current_term s)) as [Hlt|Hge].
  { eapply log_keeps; [exact HI|done|done|done|by apply keeps_local|]. apply Forall_singleton. cbn. congruence. }
  assert (role s = Leader → current_term s ≠ t) as Hnl.
  { intros Hr <-. apply Hne. symmetry. eapply election_unique; [exact HE|by eapply leader_won|done]. }
  pose proof (step_down_keeps t s) as (Hterm & Hlog & Hnext & Hr1 & _). pose proof (step_down_term t s) as Hmax.
  set (s1 := step_down_if_stale t s) in *. cbv zeta.
  set (s2 := if bool_decide (role s1 = Candidate) then set_role Follower s1 else s1).
  assert (current_term s2 = t ∧ log s2 = log s ∧ next_index s2 = next_index s ∧ role s2 ≠ Leader) as (Ht2 & Hl2 & Hn2 & Hr2).
  { unfold s2. case_bool_decide; cbn; (split; [lia|]); (split; [done|]); (split; [done|]); [done|].
    intros [Hr Hc]%Hr1. apply Hnl; [done|lia]. }
  assert (∀ s3 b mi, current_term s3 = t → next_index s3 = next_index s → role s3 ≠ Leader → log_ok LL T (log s3) →
    log_inv n C' LL T (<[to := s3]> ns) (fl ++ envelopes to [(from, AppendEntriesReply (current_term s3) b mi)])) as Hdone.
  { intros s3 b mi Ht3 Hn3 Hr3 Hok. eapply log_same; [exact HI|done|done|done|lia|done| |done| |].
    - unfold next_ok. rewrite Hn3. exact (li_next HI _ _ Hs).
    - intros Hr Hc. destruct (Hnl Hr). congruence.
    - apply Forall_singleton. cbn. congruence. }
  case_match eqn:Hcons; cbn [fst snd].
  - apply Hdone; [done|done|done|]. cbn. rewrite Hl2. exact (li_server HI _ _ Hs).
  - apply negb_false_iff, log_consistent_prev in Hcons. cbn [log set_election_timeout_in set_timers] in Hcons.
    assert (log_ok LL T (foldl append_entry (log s2) es)) as Hok.
    { eapply append_log_ok; [done| |apply (li_hist HI)|exact Hmsg|done]. rewrite Hl2. exact (li_server HI _ _ Hs). }
    case_match; by apply Hdone.
Qed.

Lemma append_reply_log C C' LL T ns fl from to t b mi s :
  log_inv n C LL T ns ((from, to, AppendEntriesReply t b mi) :: fl) → grows C C' → ns !! to = Some s →
  self_id s = to → (role s = Leader → won n C' to (current_term s)) →
  log_inv n C' LL T (<[to := (handle_append_reply s from t b mi).1]> ns)
    (fl ++ envelopes to (handle_append_reply s from t b mi).2).
Proof.
  intros HI HC Hs Hid Hwon. pose proof (li_msgs HI) as [Hne _]%Forall_cons_iff. cbn in Hne.
  assert (fl ⊆+ (from, to, AppendEntriesReply t b mi) :: fl) as Hsub by by apply submseteq_cons.
  assert (∀ s', keeps s s' → log_inv n C' LL T (<[to := s']> ns) (fl ++ envelopes to [])) as Hkeep.
  { intros s' Hk. by eapply log_keeps. }
  unfold handle_append_reply. case_bool_decide as Hr; cbn [negb]; [|by apply Hkeep, step_down_keeps].
  destruct (current_term s <? t)%N; [by apply Hkeep, step_down_keeps|].
  destruct (t <? current_term s)%N; [by apply Hkeep, keeps_local|].
  destruct b; [by apply Hkeep, keeps_local|]. cbv zeta. cbn [fst snd].
  assert (next_ok (set_progress (<[from := (N.max (default 1 (next_index s !! from)) 1 - 1)%N]> (next_index s))
    (match_index s) s)) as Hnext.
  { unfold next_ok. cbn. apply map_Forall_insert_2; [|exact (li_next HI _ _ Hs)].
    destruct (next_index s !! from) as [v|] eqn:E; cbn; [|done].
    pose proof (li_next HI _ _ Hs _ _ E) as Hv. cbn in Hv. unfold two64 in *. lia. }
  eapply log_same; [exact HI|done|done|done|done| |done|done|done|].
  - exact (li_server HI _ _ Hs).
  - apply Forall_singleton. apply build_append_ok; [|done| |by apply Hwon|done].
    + exact (proj1 (proj2 (li_server HI _ _ Hs))).
    + cbn. by eapply (li_leader HI).
Qed.

Lemma handle_log H H' C C' LL T ns fl from to msg s :
  election_inv n H C T ns ((from, to, msg) :: fl) → log_inv n C LL T ns ((from, to, msg) :: fl) →
  (T < u64_max)%N → ns !! to = Some s → grows C C' →
  election_inv n H' C' T (<[to := (handle s from msg).1]> ns) (fl ++ envelopes to (handle s from msg).2) →
  log_next C' T (<[to := (handle s from msg).1]> ns) (fl ++ envelopes to (handle s from msg).2).
Proof.
  intros HE HI HT Hs HC HE'. pose proof (ei_id HE _ _ Hs) as [Hid _].
  destruct msg as [t c li lt|t g|t l pi pt es lc|t b mi]; cbn [handle] in *.
  - exists LL. eapply log_keeps; [exact HI|by apply submseteq_cons|done|done|apply request_vote_keeps|apply request_vote_out].
  - by eapply vote_reply_log.
  - exists LL. by eapply append_log.
  - exists LL. eapply append_reply_log; [done..|]. intros Hr. eapply won_grows; [done|]. by eapply leader_won.
Qed.

Lemma tick_log H H' C C' LL T ns fl i s e :
  election_inv n H C T ns fl → log_inv n C LL T ns fl → (T < u64_max)%N → ns !! i = Some s →
  (current_term s < T)%N → grows C C' →
  election_inv n H' C' T (<[i := (tick s e).1]> ns) (fl ++ envelopes i (tick s e).2) →
  log_next C' T (<[i := (tick s e).1]> ns) (fl ++ envelopes i (tick s e).2).
Proof.
  intros HE HI HT Hs Hlt HC HE'. pose proof (ei_id HE _ _ Hs) as [Hid _].
  assert (wadd64 (current_term s) 1 = current_term s + 1)%N as Hadd
    by (apply wadd64_small; unfold u64_max, two64 in *; lia).
  assert (∀ s' out, keeps s s' → Forall (append_ok n C' LL) (envelopes i out) →
    log_next C' T (<[i := s']> ns) (fl ++ envelopes i out)) as Hkeep.
  { intros s' out Hk Hout. exists LL. by eapply log_keeps. }
  assert (∀ C LL t, Forall (append_ok n C LL) (envelopes i (vote_requests i t (last_log_index s) (last_log_term s) (cluster_size s)))) as Hreq.
  { intros C0 LL0 t. apply Forall_map, Forall_map, Forall_forall. done. }
  unfold tick in *. destruct (role s) eqn:Hr; cbv zeta in *.
  3: { case_match; [|apply Hkeep; [by apply keeps_local|done]]. cbn [fst snd] in *.
       apply Hkeep; [by apply keeps_local|]. apply appends_ok; [done| | | |].
       - exact (proj1 (proj2 (li_server HI _ _ Hs))).
       - exact (li_next HI _ _ Hs).
       - exact (li_leader HI _ _ Hs Hr).
       - eapply won_grows; [done|]. exact (leader_won _ _ _ _ _ _ _ HE Hs Hr). }
  all: case_match; [|apply Hkeep; [by apply keeps_local|done]]; cbn [fst snd] in *.
  all: destruct (quorum _ <=? _); cbn [fst snd] in *.
  1,3: eexists; eapply log_elect; [exact HI|done|done|done|exact HE'|cbn; lia|congruence|done|done| |].
  1,3: apply become_leader_next; exact (li_next HI _ _ Hs).
  all: cbn; rewrite Hid; try apply Hreq.
  all: apply Hkeep; [|apply Hreq]; split; [cbn; lia|]; cbn; split_and!; try done; congruence.
Qed.

Lemma propose_log H C LL T ns fl i s c :
  election_inv n H C T ns fl → log_inv n C LL T ns fl → (T + 1 < u64_max)%N → ns !! i = Some s → role s = Leader →
  log_next C (T + 1) (<[i := set_heartbeat_due_in 0 (append_local c s)]> ns) fl.
Proof.
  intros HE HI HT Hs Hr. pose proof (li_leader HI _ _ Hs Hr) as HL.
  pose proof (li_server HI _ _ Hs) as (Hlen & Hc & Hm).
  assert (wadd64 (last_log_index s) 1 = N.of_nat (S (length (log s)))) as Hidx.
  { unfold last_log_index. rewrite log_last_contiguous by done.
    rewrite wadd64_small by (unfold u64_max, two64 in *; lia). lia. }
  set (x := mkEntry (current_term s) (wadd64 (last_log_index s) 1) c).
  set (LL' := set_leader_log LL (current_term s) (log s ++ [x])). exists LL'.
  assert (extends LL LL') as Hext.
  { apply set_leader_log_extends. intros l0 Hl0. simplify_eq. by exists [x]. }
  assert (log_ok LL' (T + 1) (log s ++ [x])) as Hok.
  { split; [rewrite length_app; cbn; lia|]. split.
    - intros k e [Hk|[Hk He]]%lookup_app_Some; [by apply Hc|].
      apply list_lookup_singleton_Some in He as [? <-]. cbn. rewrite Hidx. f_equal. lia.
    - intros k e [Hk|[Hk He]]%lookup_app_Some.
      + destruct (log_ok_extends LL LL' T T (log s) Hext) as (_ & _ & Hm'); [done|by split_and!|].
        destruct (Hm' k e Hk) as (l' & Hl' & Ht). exists l'. split; [done|]. rewrite <- Ht.
        apply take_app_le. apply lookup_lt_Some in Hk. lia.
      + apply list_lookup_singleton_Some in He as [? <-]. exists (log s ++ [x]).
        split; [|done]. apply set_leader_log_eq. }
  eapply (log_update C C LL LL' _ ns fl); [eapply log_mono; [|exact HI]; lia|by intros ? ?|done|done|done|done| | | |done| | |].
  - intros t l Hl Hn. unfold LL', set_leader_log in Hl. case_decide; [by simplify_eq|]. destruct Hn; congruence.
  - intros _. apply set_leader_log_eq.
  - intros j sj Hne Hj Hrj. apply set_leader_log_ne. intros Ht. apply Hne.
    eapply election_unique; [exact HE|by eapply leader_won|]. rewrite Ht. by eapply leader_won.
  - intros t l Hl Hn. unfold LL', set_leader_log in Hl. case_decide; congruence.
  - exact (li_next HI _ _ Hs).
  - eapply Forall_impl; [exact (li_msgs HI)|]. intros env. apply append_ok_extends; [by intros ? ?|done].
Qed.

Definition raft_inv (T : N) (ns : list Server) (fl : list Envelope) : Prop :=
  ∃ H C LL, election_inv n H C T ns fl ∧ log_inv n C LL T ns fl.

#[export] Instance raft_net_invariant : NetInvariant n raft_inv.
Proof.
  split.
  - intros T ns fl (H & C & LL & HE & HI). apply (ei_length HE).
  - intros T ns fl i s (H & C & LL & HE & HI). apply (ei_term HE).
  - intros T T' ns fl HT (H & C & LL & HE & HI). exists H, C, LL.
    split; [by eapply election_mono|by eapply log_mono].
  - intros T ns fl fl' Hsub (H & C & LL & HE & HI). exists H, C, LL.
    split; [by eapply election_drop|by eapply log_drop].
  - intros T ns from to msg fl (H & C & LL & HE & HI).
    by pose proof (ei_msgs HE) as [(_ & Hto & _) _]%Forall_cons_iff.
  - intros T ns fl i s e (H & C & LL & HE & HI) HT Hs Hlt.
    destruct (tick_inv (n := n) H C T ns fl i s e) as (H' & C' & HE' & HC); [done..|].
    destruct (tick_log H H' C C' LL T ns fl i s e) as (LL' & HI'); [done..|]. by exists H', C', LL'.
  - intros T ns fl from to msg s (H & C & LL & HE & HI) HT Hs.
    destruct (handle_inv (n := n) H C T ns fl from to msg s) as (H' & C' & HE' & HC); [done..|].
    destruct (handle_log H H' C C' LL T ns fl from to msg s) as (LL' & HI'); [done..|]. by exists H', C', LL'.
  - intros T ns fl i s c (H & C & LL & HE & HI) HT Hs Hr.
    destruct (propose_log H C LL T ns fl i s c) as (LL' & HI'); [done..|]. exists H, C, LL'. split; [|done].
    pose proof (ei_term HE _ _ Hs). apply (election_mono H C T); [lia|].
    eapply election_quiet; [exact HE|done|by apply quiet_local|done].
Qed.
End matching.

Lemma raft_init n seed : raft_inv (n := n) 0 (nodes (network_new n seed)) (inbox (network_new n seed)).
Proof.
  exists (λ _ _, None), (λ _ _, ∅), (λ _, None). split; [apply election_init|].
  split; try done; intros i s Hi; apply network_new_lookup in Hi as [? ->]; try done.
  unfold next_ok. cbn. induction (peers_of i n) as [|p l IH]; cbn; [done|]. by apply map_Forall_insert_2.
Qed.

(** C4: log matching. On every run of a fresh network (fewer operations than a
    [u64] index can count), every log is numbered from 1 without gaps, and two
    servers whose logs hold an entry of the same index and term hold the same
    entries up to that index. *)
Theorem log_matching (n : nat) (seed : N) (ops : list net_op) :
  (N.of_nat (length ops) < u64_max)%N → Forall (op_in_range n) ops →
  ∃ net, run_ops (network_new n seed) ops = Some net ∧
    (∀ i s k e, nodes net !! i = Some s → log s !! k = Some e → e_index e = N.of_nat (S k)) ∧
    (∀ i j si sj k ei ej, nodes net !! i = Some si → nodes net !! j = Some sj →
       log si !! k = Some ei → log sj !! k = Some ej → e_term ei = e_term ej →
       take (S k) (log si) = take (S k) (log sj)).
Proof.
  intros Hlen Hops.
  destruct (run_ops_inv (n := n) (P := raft_inv) ops 0 (network_new n seed)) as (net & Hrun & H & C & LL & HE & HI);
    [apply raft_init|done|done|].
  exists net. split; [done|]. split.
  - intros i s k e Hi. apply (proj1 (proj2 (li_server HI _ _ Hi))).
  - intros i j si sj k ei ej Hi Hj Hk Hk' Ht. eapply log_ok_agree; [exact (li_server HI _ _ Hi)|exact (li_server HI _ _ Hj)|done..].
Qed.

Lemma log_matching_witness :
  ∃ net, run_ops (network_new 3 42)
      [OpTick 150; OpRunUntilQuiet 16; OpPropose 0 [x61]; OpPropose 0 [x62]; OpTick 20; OpRunUntilQuiet 16] = Some net ∧
    (∀ i s k e, nodes net !! i = Some s → log s !! k = Some e → e_index e = N.of_nat (S k)) ∧
    (∀ i j si sj k ei ej, nodes net !! i = Some si → nodes net !! j = Some sj →
       log si !! k = Some ei → log sj !! k = Some ej → e_term ei = e_term ej →
       take (S k) (log si) = take (S k) (log sj)).
Proof.
  apply (log_matching 3 42); [reflexivity|]. repeat constructor.
Defined.
