(* ===== verification/Clocks.v ===== *)
(** * Clocks of the cluster ([lionfs-cluster/src/core.rs])

    The hybrid logical clock that stamps every version, and the vector clocks
    that order versions causally. The clock is monotone as a pair; its packed
    form is not, and neither is [observe] at the cap of the counter. *)
From S2P Require Import Prelude.
From Stdlib Require Import NArith ZArith Lia.
From stdpp Require Import base numbers gmap fin_maps option list.
#[local] Open Scope N_scope.

(** ** Hybrid logical clocks *)
Record Hlc := mkHlc { physical : N; logical : N }.

Definition HLC_LOGICAL_CAP : N := 999999.
Definition EPOCH : Hlc := mkHlc 0 0.

Definition bump_logical (c : Hlc) : Hlc :=
  if HLC_LOGICAL_CAP <=? logical c then mkHlc (wadd64 (physical c) (HLC_LOGICAL_CAP + 1)) 0
  else mkHlc (physical c) (logical c + 1).

Definition hlc_tick (wall_ns : N) (c : Hlc) : Hlc :=
  if physical c <? wall_ns then mkHlc wall_ns 0 else bump_logical c.

(** The fields are assigned in the order of the code: [physical] last. *)
Definition hlc_observe (remote : Hlc) (wall_ns : N) (c : Hlc) : Hlc :=
  let merged := N.max (N.max (physical c) (physical remote)) wall_ns in
  let c :=
    if (merged =? physical c) && (merged =? physical remote) then
      bump_logical (mkHlc (physical c) (N.max (logical c) (logical remote)))
    else if merged =? physical c then bump_logical c
    else if merged =? physical remote then bump_logical (mkHlc (physical c) (logical remote))
    else mkHlc (physical c) 0 in
  mkHlc merged (logical c).

Definition as_ns (c : Hlc) : N := wadd64 (physical c) (logical c).

Definition tick_ns (wall_ns : N) (c : Hlc) : N * Hlc := let c' := hlc_tick wall_ns c in (as_ns c', c').

(** The derived order: [physical], then [logical]. *)
Definition hlc_lt (a b : Hlc) : Prop := physical a < physical b ∨ (physical a = physical b ∧ logical a < logical b).
#[export] Instance hlc_lt_dec a b : Decision (hlc_lt a b).
Proof. unfold hlc_lt. apply _. Defined.
Definition is_after (a b : Hlc) : bool := bool_decide (hlc_lt b a).

Definition skew_ns (wall_ns : N) (c : Hlc) : option N := if wall_ns <=? physical c then Some (physical c - wall_ns) else None.

#[export] Instance hlc_lt_strict : StrictOrder hlc_lt.
Proof.
  split; [intros a [?|[_ ?]]; lia|]. intros a b c H1 H2. unfold hlc_lt in *. lia.
Qed.

(** Room for the largest step of the physical part. *)
Definition hlc_ok (c : Hlc) : Prop := logical c <= HLC_LOGICAL_CAP ∧ physical c + HLC_LOGICAL_CAP + 1 < two64.

Lemma bump_logical_lt c : hlc_ok c → hlc_lt c (bump_logical c).
Proof.
  intros [Hl Hp]. unfold bump_logical, HLC_LOGICAL_CAP in *. destruct (N.leb_spec 999999 (logical c)).
  - left. cbn [physical]. rewrite wadd64_small by lia. lia.
  - right. cbn. lia.
Qed.

Lemma bump_logical_cap c : logical (bump_logical c) <= HLC_LOGICAL_CAP.
Proof. unfold bump_logical. destruct (N.leb_spec HLC_LOGICAL_CAP (logical c)); cbn; lia. Qed.

(** A step of the clock: a local event, or a message from a clock. *)
Inductive hlc_event := Local (wall_ns : N) | Receive (remote : Hlc) (wall_ns : N).

Definition hlc_step (c : Hlc) (e : hlc_event) : Hlc :=
  match e with Local w => hlc_tick w c | Receive r w => hlc_observe r w c end.

(** Below the cap, the counter of an incremented clock. *)
Definition below_cap (e : hlc_event) (c : Hlc) : Prop :=
  match e with Local _ => True | Receive r _ => logical c < HLC_LOGICAL_CAP ∧ logical r < HLC_LOGICAL_CAP end.

Lemma hlc_observe_lt r w c :
  logical c < HLC_LOGICAL_CAP → logical r < HLC_LOGICAL_CAP → hlc_lt c (hlc_observe r w c) ∧ hlc_lt r (hlc_observe r w c) ∧
  logical (hlc_observe r w c) <= HLC_LOGICAL_CAP.
Proof.
  intros Hc Hr. unfold hlc_observe, bump_logical, hlc_lt, HLC_LOGICAL_CAP in *. cbv zeta.
  destruct (N.eqb_spec (N.max (N.max (physical c) (physical r)) w) (physical c)) as [E1|E1];
    destruct (N.eqb_spec (N.max (N.max (physical c) (physical r)) w) (physical r)) as [E2|E2];
    cbn [andb physical logical];
    repeat (match goal with |- context [?a <=? ?b] => destruct (N.leb_spec a b); cbn [physical logical] end); lia.
Qed.

(** The hybrid clock is a Lamport clock. Every local event and, away from
    the cap of the counter, every receipt of a timestamp gives a clock strictly
    after the one before; a receipt also gives one strictly after the
    timestamp received; the physical part is never behind the wall; and the
    counter stays within its cap. *)
Theorem hlc_monotone (c : Hlc) (e : hlc_event) :
  hlc_ok c → below_cap e c →
  hlc_lt c (hlc_step c e) ∧ logical (hlc_step c e) <= HLC_LOGICAL_CAP ∧
  match e with
  | Local w => w <= physical (hlc_step c e)
  | Receive r w => hlc_lt r (hlc_step c e) ∧ w <= physical (hlc_step c e)
  end.
Proof.
  intros Hok Hb. destruct e as [w|r w]; cbn [hlc_step].
  - unfold hlc_tick. destruct (N.ltb_spec (physical c) w) as [Hw|Hw].
    + split_and!; [by left|cbn; lia|cbn; lia].
    + pose proof (bump_logical_lt c Hok) as Hlt. split_and!; [done|apply bump_logical_cap|].
      destruct Hlt as [?|[? _]]; lia.
  - destruct Hb as [Hc Hr]. destruct (hlc_observe_lt r w c Hc Hr) as (H1 & H2 & H3). split_and!; [done|done|done|].
    unfold hlc_observe. cbn [physical]. lia.
Qed.

Lemma hlc_monotone_witness :
  hlc_lt (mkHlc 100 7) (hlc_step (mkHlc 100 7) (Receive (mkHlc 100 9) 90)) ∧
  hlc_step (mkHlc 100 7) (Receive (mkHlc 100 9) 90) = mkHlc 100 10.
Proof.
  split; [|reflexivity].
  apply (hlc_monotone (mkHlc 100 7) (Receive (mkHlc 100 9) 90)); [split; vm_compute; done|split; vm_compute; done].
Defined.

(** The packed timestamp goes backwards. After [l] events in one instant a
    tick whose wall reading is later by less than [l] nanoseconds returns a
    packed time before the last one: versions written in this order get
    timestamps in the other. The comment calls the packed form strictly
    monotone. *)
Theorem packed_clock_regresses (p l wall : N) :
  p < wall → wall < p + l → l <= HLC_LOGICAL_CAP → p + l < two64 →
  let '(t, c') := tick_ns wall (mkHlc p l) in
  hlc_lt (mkHlc p l) c' ∧ t < as_ns (mkHlc p l).
Proof.
  intros H1 H2 H3 H4. unfold tick_ns, hlc_tick. cbn [physical]. rewrite (proj2 (N.ltb_lt _ _) H1).
  split; [by left|]. unfold as_ns. cbn [physical logical]. rewrite !wadd64_small by lia. lia.
Qed.

Lemma packed_clock_regresses_witness :
  let '(t, c') := tick_ns 101 (mkHlc 100 50) in hlc_lt (mkHlc 100 50) c' ∧ t < as_ns (mkHlc 100 50).
Proof. apply (packed_clock_regresses 100 50 101); vm_compute; done. Defined.

(** At the cap, [observe] overwrites the advance of the physical part: the clock
    goes back by a million events. *)
Theorem observe_regresses (p wall : N) (r : Hlc) :
  physical r < p → wall <= p →
  hlc_observe r wall (mkHlc p HLC_LOGICAL_CAP) = mkHlc p 0 ∧ hlc_lt (mkHlc p 0) (mkHlc p HLC_LOGICAL_CAP).
Proof.
  intros Hr Hw. split; [|by right]. unfold hlc_observe. cbv zeta. cbn [physical logical].
  replace (N.max (N.max p (physical r)) wall) with p by lia. rewrite N.eqb_refl. cbn [andb].
  rewrite (proj2 (N.eqb_neq p (physical r))) by lia. reflexivity.
Qed.

(** ** Vector clocks *)
(** A [BTreeMap] of counters. *)
Abbreviation VectorClock := (gmap N N).

Definition vc_new : VectorClock := ∅.

Definition vc_increment (node : N) (v : VectorClock) : VectorClock :=
  <[node := wadd64 (default 0 (v !! node)) 1]> v.

(** The loop over the entries of [other]. *)
Definition vc_merge (v other : VectorClock) : VectorClock :=
  map_fold (λ node count v, <[node := N.max (default 0 (v !! node)) count]> v) v other.

Definition happens_before_or_equal (v other : VectorClock) : bool :=
  forallb (λ '(node, count), match other !! node with Some o => count <=? o | None => count =? 0 end) (map_to_list v).

Definition concurrent_with (v other : VectorClock) : bool :=
  negb (happens_before_or_equal v other) && negb (happens_before_or_equal other v).

Definition width (v : VectorClock) : nat := size v.

Definition total (v : VectorClock) : N := map_fold (λ _ count acc, wadd64 acc count) 0 v.

Definition vc_partial_cmp (v other : VectorClock) : option comparison :=
  match happens_before_or_equal v other, happens_before_or_equal other v with
  | true, true => Some Eq
  | true, false => Some Lt
  | false, true => Some Gt
  | false, false => None
  end.

(** The counter of a node; a node that is not listed counts 0. *)
Definition vc_at (v : VectorClock) (node : N) : N := default 0 (v !! node).

Lemma happens_before_spec v other : happens_before_or_equal v other = true ↔ ∀ n, vc_at v n <= vc_at other n.
Proof.
  unfold happens_before_or_equal, vc_at. rewrite forallb_forall. split.
  - intros Hall n. destruct (v !! n) as [c|] eqn:E; cbn; [|lia].
    apply elem_of_map_to_list in E. apply list_elem_of_In in E. specialize (Hall _ E). cbn in Hall.
    destruct (other !! n); cbn; [by apply N.leb_le|apply N.eqb_eq in Hall; lia].
  - intros Hle [n c] Hin. apply list_elem_of_In, elem_of_map_to_list in Hin. specialize (Hle n). rewrite Hin in Hle. cbn in Hle.
    destruct (other !! n); cbn in *; [by apply N.leb_le|apply N.eqb_eq; lia].
Qed.

Lemma vc_merge_at v other n : vc_at (vc_merge v other) n = N.max (vc_at v n) (vc_at other n).
Proof.
  unfold vc_merge, vc_at. induction other as [|k c m Hk Hf IH] using map_first_key_ind.
  - rewrite map_fold_empty, lookup_empty. cbn. lia.
  - rewrite map_fold_insert_first_key by done. destruct (decide (n = k)) as [->|Hne].
    + rewrite !lookup_insert_eq. cbn. rewrite IH, Hk. cbn. lia.
    + rewrite !lookup_insert_ne by done. done.
Qed.

Lemma vc_increment_at v node n :
  vc_at v node + 1 < two64 → vc_at (vc_increment node v) n = vc_at v n + (if decide (n = node) then 1 else 0).
Proof.
  intros Hs. unfold vc_increment, vc_at in *. destruct (decide (n = node)) as [->|Hne].
  - rewrite lookup_insert_eq. cbn. by rewrite wadd64_small.
  - rewrite lookup_insert_ne by done. lia.
Qed.

(** Vector clocks form a join semilattice under merge. [merge] is the least
    upper bound of the causal order, so it is commutative, associative and
    idempotent up to that order; [partial_cmp] decides the order; and an
    increment gives a clock strictly above every clock it was merged from. *)
Theorem vclock_join (a b c : VectorClock) (node : N) :
  (vc_at (vc_merge a b) node + 1 < two64) →
  happens_before_or_equal a (vc_merge a b) = true ∧ happens_before_or_equal b (vc_merge a b) = true ∧
  (happens_before_or_equal a c = true → happens_before_or_equal b c = true → happens_before_or_equal (vc_merge a b) c = true) ∧
  vc_partial_cmp (vc_merge a b) (vc_merge b a) = Some Eq ∧
  vc_partial_cmp (vc_merge (vc_merge a b) c) (vc_merge a (vc_merge b c)) = Some Eq ∧
  vc_partial_cmp a (vc_increment node (vc_merge a b)) = Some Lt ∧
  vc_partial_cmp b (vc_increment node (vc_merge a b)) = Some Lt.
Proof.
  intros Hs.
  assert (∀ x y, (∀ n, vc_at x n = vc_at y n) → vc_partial_cmp x y = Some Eq) as Heq.
  { intros x y Hxy. unfold vc_partial_cmp. by rewrite !(proj2 (happens_before_spec _ _)) by (intros n; rewrite Hxy; lia). }
  assert (∀ x, (∀ n, vc_at x n <= vc_at (vc_merge a b) n) → vc_partial_cmp x (vc_increment node (vc_merge a b)) = Some Lt) as Hlt.
  { intros x Hx. unfold vc_partial_cmp. rewrite (proj2 (happens_before_spec _ _)).
    - destruct (happens_before_or_equal _ x) eqn:E; [|done]. rewrite happens_before_spec in E. specialize (E node).
      rewrite vc_increment_at, decide_True in E by done. specialize (Hx node). lia.
    - intros n. rewrite vc_increment_at by done. specialize (Hx n). destruct (decide _); lia. }
  rewrite !happens_before_spec. split_and!.
  - intros n. rewrite vc_merge_at. lia.
  - intros n. rewrite vc_merge_at. lia.
  - intros Ha Hb n. rewrite vc_merge_at. specialize (Ha n). specialize (Hb n). lia.
  - apply Heq. intros n. rewrite !vc_merge_at. lia.
  - apply Heq. intros n. rewrite !vc_merge_at. lia.
  - apply Hlt. intros n. rewrite vc_merge_at. lia.
  - apply Hlt. intros n. rewrite vc_merge_at. lia.
Qed.

Lemma vclock_join_witness :
  let a := {[1 := 3; 2 := 1]} : VectorClock in let b := {[2 := 5]} : VectorClock in
  vc_partial_cmp a b = None ∧ vc_partial_cmp a (vc_increment 7 (vc_merge a b)) = Some Lt.
Proof.
  split; [vm_compute; reflexivity|].
  apply (vclock_join {[1 := 3; 2 := 1]} {[2 := 5]} ∅ 7). vm_compute. reflexivity.
Defined.
