(* ===== verification/Cdc.v ===== *)
(** * Content-defined chunking of the cluster store

    The Rabin chunker of [crates/lionfs-cluster/src/cdc.rs]: polynomial
    arithmetic over GF(2), the table-driven rolling fingerprint on a circular
    window, and the boundary loop.  The theorems give the fingerprint as the
    remainder of the window polynomial, the size bounds of the chunks, and the
    property that chunking is named after: a cut depends on the bytes after
    the previous cut alone. *)
From S2P Require Import Prelude.
From Stdlib Require Import NArith Lia Strings.Byte Setoid Morphisms.
From stdpp Require Import base numbers option list.
Local Open Scope N_scope.

(** ** Polynomials over GF(2), as the code computes with them *)
Definition POLY : N := 0x3DA3358B4DC173.
Definition POLY_DEGREE : N := 53.
Definition WINDOW_SIZE : nat := 48.
Definition POLY_LOW_MASK : N := N.shiftl 1 POLY_DEGREE - 1.

Definition leading_zeros (v : N) : N := 64 - N.size v.

(** Every round of the loop clears the top bit of a [u64]; the fuel of
    [mod_poly] is one more than there are bits. *)
Fixpoint mod_poly_loop (fuel : nat) (value : N) : option N :=
  if leading_zeros value <? 64 - 1 - POLY_DEGREE then
    match fuel with
    | O => None
    | S fuel => let shift := (63 - leading_zeros value) - POLY_DEGREE in mod_poly_loop fuel (N.lxor value (wshl64 POLY shift))
    end
  else Some (N.land value (N.shiftl 1 (POLY_DEGREE + 1) - 1)).
Definition mod_poly (value : N) : option N := mod_poly_loop 65 value.

Fixpoint poly_mul_loop (fuel : nat) (a b result : N) : option N :=
  if b =? 0 then Some result
  else match fuel with
       | O => None
       | S fuel =>
           let result := if N.land b 1 =? 0 then result else N.lxor result a in
           a' ← mod_poly (wshl64 a 1); poly_mul_loop fuel a' (N.shiftr b 1) result
       end.
Definition poly_mul_mod (a b : N) : option N := poly_mul_loop 65 a b 0.

Fixpoint pow_x_loop (fuel : nat) (e base result : N) : option N :=
  if e =? 0 then Some result
  else match fuel with
       | O => None
       | S fuel =>
           result' ← (if N.land e 1 =? 0 then Some result else poly_mul_mod result base);
           base' ← poly_mul_mod base base; pow_x_loop fuel (N.shiftr e 1) base' result'
       end.
Definition pow_x (e : N) : option N := pow_x_loop 33 e 2 1.

(** ** The chunker *)
Record ChunkerConfig := mkChunkerConfig { avg : nat; cmin : nat; cmax : nat }.
Inductive CdcError := InvalidConfig.

Record Chunker := mkChunker {
  config : ChunkerConfig;
  mask : N;
  table : list N;
  reduce_hi : list N;
  window : list byte;
  window_pos : nat;
  fingerprint : N
}.

Definition is_power_of_two (n : nat) : bool :=
  let x := N.of_nat n in negb (x =? 0) && (N.land x (x - 1) =? 0).

(** [None] is a panic: a loop that does not end or an index out of range. *)
Definition chunker_new (cfg : ChunkerConfig) : option (CdcError + Chunker) :=
  if negb (is_power_of_two (avg cfg)) || (avg cfg <? 1024)%nat then Some (inl InvalidConfig)
  else if (cmin cfg <? 512)%nat || (cmax cfg <=? cmin cfg)%nat || (avg cfg * 8 <? cmax cfg)%nat then Some (inl InvalidConfig)
  else
    x_384 ← pow_x (8 * N.of_nat WINDOW_SIZE);
    table ← mapM (λ b, poly_mul_mod (N.of_nat b) x_384) (seq 0 256);
    reduce_hi ← mapM (λ spill, mod_poly (wshl64 (N.of_nat spill) POLY_DEGREE)) (seq 0 512);
    Some (inr (mkChunker cfg (N.of_nat (avg cfg) - 1) table reduce_hi (replicate WINDOW_SIZE x00) 0 0)).

Definition chunker_reset (c : Chunker) : Chunker :=
  mkChunker (config c) (mask c) (table c) (reduce_hi c) (replicate WINDOW_SIZE x00) 0 0.

Definition push_byte (c : Chunker) (b : byte) : option Chunker :=
  out ← window c !! window_pos c;
  let window' := <[window_pos c := b]> (window c) in
  let pos' := S (window_pos c) in
  let pos' := if (pos' =? WINDOW_SIZE)%nat then 0%nat else pos' in
  let fp := N.lor (wshl64 (fingerprint c) 8) (Byte.to_N b) in
  t ← table c !! b2n out;
  let fp := N.lxor fp t in
  let spill := N.to_nat (N.shiftr fp POLY_DEGREE) in
  r ← reduce_hi c !! spill;
  Some (mkChunker (config c) (mask c) (table c) (reduce_hi c) window' pos' (N.lxor (N.land fp POLY_LOW_MASK) r)).

Definition is_boundary (c : Chunker) : bool := N.land (fingerprint c) (mask c) =? 0.

(** The inner loop over the bytes up to the hard end, from a chunk of which
    [len] bytes are read: the length of the chunk and the chunker after it. *)
Fixpoint scan_chunk (c : Chunker) (rest : list byte) (len : nat) : option (nat * Chunker) :=
  match rest with
  | [] => Some (len, c)
  | b :: rest =>
      c' ← push_byte c b;
      if (cmin (config c') <=? S len)%nat && is_boundary c' then Some (S len, c') else scan_chunk c' rest (S len)
  end.

(** The outer loop: the offsets after [i] at which chunks end. *)
Fixpoint cut_loop (fuel : nat) (c : Chunker) (rest : list byte) (i : nat) : option (list nat * Chunker) :=
  match rest with
  | [] => Some ([], c)
  | _ :: _ =>
      match fuel with
      | O => None
      | S fuel =>
          '(e, c') ← scan_chunk c (take (cmax (config c)) rest) 0;
          '(offs, c'') ← cut_loop fuel c' (drop e rest) (i + e);
          Some ((i + e)%nat :: offs, c'')
      end
  end.

Definition chunk_boundaries (c : Chunker) (data : list byte) : option (list nat * Chunker) :=
  '(offs, c') ← cut_loop (length data) (chunker_reset c) data 0; Some (0%nat :: offs, c').

Definition slice (data : list byte) (a b : nat) : list byte := take (b - a) (drop a data).

Fixpoint windows2 (data : list byte) (a : nat) (offs : list nat) : list (list byte) :=
  match offs with [] => [] | b :: offs => slice data a b :: windows2 data b offs end.

Definition chunk (c : Chunker) (data : list byte) : option (list (list byte) * Chunker) :=
  '(offs, c') ← chunk_boundaries c data;
  Some (match offs with [] => [] | a :: offs => windows2 data a offs end, c').

(** ** Reference: the ring GF(2)[x]

    A polynomial is the number whose bits are its coefficients: addition is
    [N.lxor], multiplication by [x] is [N.double], [clmul] is the product.
    [mod_poly] subtracts multiples [POLY << shift] with [shift >= 1] only, so
    the modulus of the code is [x * POLY], of degree 54. *)
Fixpoint pmul (p : positive) (b : N) : N :=
  match p with
  | xH => b
  | xO p => N.double (pmul p b)
  | xI p => N.lxor b (N.double (pmul p b))
  end.
Definition clmul (a b : N) : N := match a with 0 => 0 | Npos p => pmul p b end.

Definition MODULUS : N := N.double POLY.
Definition cong (a b : N) : Prop := ∃ q, N.lxor a b = clmul q MODULUS.

Lemma double_lxor a b : N.double (N.lxor a b) = N.lxor (N.double a) (N.double b).
Proof. by destruct a, b. Qed.

Lemma double_shiftl a : N.double a = N.shiftl a 1.
Proof. by destruct a. Qed.

Lemma lxor_swap a b c d : N.lxor (N.lxor a b) (N.lxor c d) = N.lxor (N.lxor a c) (N.lxor b d).
Proof. rewrite !N.lxor_assoc. f_equal. rewrite <- !N.lxor_assoc. f_equal. apply N.lxor_comm. Qed.

Lemma clmul_double a b : clmul (N.double a) b = N.double (clmul a b).
Proof. by destruct a. Qed.

Lemma clmul_succ_double a b : clmul (N.succ_double a) b = N.lxor b (N.double (clmul a b)).
Proof. destruct a; [|done]. cbn. by rewrite N.lxor_0_r. Qed.

Lemma clmul_lxor_l a b m : clmul (N.lxor a b) m = N.lxor (clmul a m) (clmul b m).
Proof.
  revert b. induction a as [|a IH|a IH] using N.binary_ind; intros b; [done| |].
  - destruct b as [|[b|b|]]; cbn [N.lxor].
    + by rewrite !N.lxor_0_r.
    + change (Npos b~1) with (N.succ_double (Npos b)).
      replace (N.lxor (N.double a) (N.succ_double (N.pos b))) with (N.succ_double (N.lxor a (Npos b))) by (by destruct a).
      rewrite !clmul_succ_double, clmul_double, IH, double_lxor, <- !N.lxor_assoc. f_equal. apply N.lxor_comm.
    + change (Npos b~0) with (N.double (Npos b)). by rewrite <- double_lxor, !clmul_double, IH, double_lxor.
    + change 1 with (N.succ_double 0). replace (N.lxor (N.double a) (N.succ_double 0)) with (N.succ_double a) by (by destruct a).
      rewrite !clmul_succ_double, clmul_double. cbn. rewrite N.lxor_0_r. apply N.lxor_comm.
  - destruct b as [|[b|b|]]; cbn [N.lxor].
    + by rewrite !N.lxor_0_r.
    + change (Npos b~1) with (N.succ_double (Npos b)).
      replace (N.lxor (N.succ_double a) (N.succ_double (N.pos b))) with (N.double (N.lxor a (Npos b))) by (by destruct a).
      rewrite !clmul_succ_double, clmul_double, IH, double_lxor, lxor_swap, N.lxor_nilpotent. by rewrite N.lxor_0_l.
    + change (Npos b~0) with (N.double (Npos b)).
      replace (N.lxor (N.succ_double a) (N.double (N.pos b))) with (N.succ_double (N.lxor a (Npos b))) by (by destruct a).
      by rewrite !clmul_succ_double, clmul_double, IH, double_lxor, N.lxor_assoc.
    + change 1 with (N.succ_double 0). replace (N.lxor (N.succ_double a) (N.succ_double 0)) with (N.double a) by (by destruct a).
      rewrite !clmul_succ_double, clmul_double. cbn. by rewrite N.lxor_0_r, N.lxor_comm, <- N.lxor_assoc, N.lxor_nilpotent, N.lxor_0_l.
Qed.

#[export] Instance cong_equiv : Equivalence cong.
Proof.
  split.
  - intros a. exists 0. by rewrite N.lxor_nilpotent.
  - intros a b [q H]. exists q. by rewrite N.lxor_comm.
  - intros a b c [q H] [r H']. exists (N.lxor q r). rewrite clmul_lxor_l, <- H, <- H', N.lxor_assoc.
    by rewrite <- (N.lxor_assoc b b c), N.lxor_nilpotent, N.lxor_0_l.
Qed.

#[export] Instance lxor_cong : Proper (cong ==> cong ==> cong) N.lxor.
Proof. intros a b [q H] c d [r H']. exists (N.lxor q r). by rewrite clmul_lxor_l, <- H, <- H', lxor_swap. Qed.

#[export] Instance double_cong : Proper (cong ==> cong) N.double.
Proof. intros a b [q H]. exists (N.double q). by rewrite clmul_double, <- H, double_lxor. Qed.

Lemma shiftl_cong k a b : cong a b → cong (N.shiftl a k) (N.shiftl b k).
Proof.
  intros H. induction k as [|k IH] using N.peano_ind; [by rewrite !N.shiftl_0_r|].
  rewrite <- N.add_1_r, <- !N.shiftl_shiftl, <- !double_shiftl. by apply double_cong.
Qed.
#[export] Instance shiftl_cong_proper : Proper (cong ==> eq ==> cong) N.shiftl.
Proof. intros a b H k ? <-. by apply shiftl_cong. Qed.

(** A remainder is unique. *)
Lemma pmul_top p m : m ≠ 0 → N.testbit (pmul p m) (N.log2 (Npos p) + N.log2 m) = true.
Proof.
  intros Hm. induction p as [p IH|p IH|]; cbn [pmul].
  - change (Npos p~1) with (N.succ_double (Npos p)). rewrite N.succ_double_spec, N.log2_succ_double by done.
    rewrite N.lxor_spec, N.double_spec, N.add_succ_l, N.testbit_even_succ, IH by lia.
    by rewrite N.bits_above_log2 by lia.
  - change (Npos p~0) with (N.double (Npos p)). rewrite (N.double_spec (Npos p)), N.log2_double by done.
    rewrite N.add_succ_l, N.double_spec, N.testbit_even_succ by lia. exact IH.
  - cbn [N.log2]. rewrite N.add_0_l. by apply N.bit_log2.
Qed.

Lemma cong_unique a b : a < 2 ^ 54 → b < 2 ^ 54 → cong a b → a = b.
Proof.
  intros Ha Hb [q H]. apply N.lxor_eq. pose proof (lxor_lt_pow2 54 a b Ha Hb) as Hlt. rewrite H. destruct q as [|p]; [done|].
  pose proof (pmul_top p MODULUS ltac:(done)) as Ht. cbn [clmul] in H. rewrite <- H in Ht.
  assert (54 <= N.log2 (Npos p) + N.log2 MODULUS) as Hk by (change (N.log2 MODULUS) with 54; lia).
  rewrite <- (N.mod_small _ _ Hlt), N.mod_pow2_bits_high in Ht by done. done.
Qed.

(** The product is commutative and respects the congruence. *)
Lemma clmul_double_r a b : clmul a (N.double b) = N.double (clmul a b).
Proof. destruct a as [|p]; [done|]. cbn. induction p as [p IH|p IH|]; cbn [pmul]; by rewrite ?IH, ?double_lxor. Qed.

Lemma clmul_lxor_r a b c : clmul a (N.lxor b c) = N.lxor (clmul a b) (clmul a c).
Proof.
  destruct a as [|p]; [done|]. cbn. induction p as [p IH|p IH|]; cbn [pmul]; rewrite ?IH, ?double_lxor; [|done..].
  apply lxor_swap.
Qed.

Lemma clmul_1_r a : clmul a 1 = a.
Proof. destruct a as [|p]; [done|]. cbn. induction p as [p IH|p IH|]; cbn [pmul]; by rewrite ?IH. Qed.

Lemma clmul_0_r a : clmul a 0 = 0.
Proof. destruct a as [|p]; [done|]. cbn. induction p as [p IH|p IH|]; cbn [pmul]; by rewrite ?IH. Qed.

Lemma clmul_comm a b : clmul a b = clmul b a.
Proof.
  revert b. induction a as [|a IH|a IH] using N.binary_ind; intros b.
  - by rewrite clmul_0_r.
  - by rewrite clmul_double, clmul_double_r, IH.
  - replace (N.succ_double a) with (N.lxor 1 (N.double a)) at 2 by (by destruct a).
    by rewrite clmul_succ_double, clmul_lxor_r, clmul_1_r, clmul_double_r, IH.
Qed.

Lemma clmul_assoc a b c : clmul a (clmul b c) = clmul (clmul a b) c.
Proof.
  induction a as [|a IH|a IH] using N.binary_ind; [done| |].
  - by rewrite !clmul_double, IH.
  - by rewrite !clmul_succ_double, clmul_lxor_l, clmul_double, IH.
Qed.

Lemma clmul_shiftl_l k a b : clmul (N.shiftl a k) b = N.shiftl (clmul a b) k.
Proof.
  induction k as [|k IH] using N.peano_ind; [by rewrite !N.shiftl_0_r|].
  by rewrite <- N.add_1_r, <- !N.shiftl_shiftl, <- !double_shiftl, clmul_double, IH.
Qed.

#[export] Instance clmul_cong : Proper (cong ==> cong ==> cong) clmul.
Proof.
  assert (∀ a b c, cong b c → cong (clmul a b) (clmul a c)) as Hr.
  { intros a b c [q H]. exists (clmul a q). by rewrite <- clmul_lxor_r, H, clmul_assoc. }
  intros a b H c d H'. transitivity (clmul a d); [by apply Hr|].
  rewrite !(clmul_comm _ d). by apply Hr.
Qed.

(** ** The arithmetic of the code computes in that ring *)
Lemma ones_54 : N.shiftl 1 (POLY_DEGREE + 1) - 1 = N.ones 54.
Proof. reflexivity. Qed.

Lemma size_le_iff v n : N.size v <= n ↔ v < 2 ^ n.
Proof.
  destruct (N.eq_dec v 0) as [->|Hv]; [cbn; split; intros; [apply N.neq_0_lt_0, N.pow_nonzero|]; lia|].
  rewrite N.size_log2 by done. rewrite N.le_succ_l. symmetry. apply N.log2_lt_pow2. lia.
Qed.

Lemma lxor_clears_top x y n : x < 2 ^ N.succ n → y < 2 ^ N.succ n → N.testbit x n = true → N.testbit y n = true → N.lxor x y < 2 ^ n.
Proof.
  intros Hx Hy Bx By. destruct (N.eq_dec (N.lxor x y) 0) as [E|E]; [rewrite E; apply N.neq_0_lt_0, N.pow_nonzero; lia|].
  apply N.log2_lt_pow2; [lia|].
  assert (N.log2 (N.lxor x y) <= n) as Hl.
  { pose proof (N.log2_lxor x y). assert (∀ z, z < 2 ^ N.succ n → N.log2 z <= n) as Hz.
    { intros z Hz. destruct (N.eq_dec z 0) as [->|Hn]; [cbn; lia|]. apply N.lt_succ_r, N.log2_lt_pow2; lia. }
    pose proof (Hz x Hx). pose proof (Hz y Hy). lia. }
  destruct (N.eq_dec (N.log2 (N.lxor x y)) n) as [En|]; [|lia].
  pose proof (N.bit_log2 _ E) as Hb. rewrite En, N.lxor_spec, Bx, By in Hb. done.
Qed.

Lemma cong_modulus k : cong (N.shiftl MODULUS k) 0.
Proof. rewrite <- (N.shiftl_0_l k). apply shiftl_cong. exists 1. by rewrite N.lxor_0_r. Qed.

Lemma mod_poly_loop_ok fuel v : v < 2 ^ 64 → N.size v <= N.of_nat fuel →
  ∃ r, mod_poly_loop fuel v = Some r ∧ r < 2 ^ 54 ∧ cong r v.
Proof.
  revert v. induction fuel as [|fuel IH]; intros v Hv Hf; cbn [mod_poly_loop]; unfold leading_zeros;
    apply size_le_iff in Hv; change (64 - 1 - POLY_DEGREE) with 10.
  - destruct (N.ltb_spec (64 - N.size v) 10); [lia|]. rewrite ones_54, N.land_ones.
    assert (v < 2 ^ 54) by (apply size_le_iff; lia). rewrite N.mod_small by done. by exists v.
  - destruct (N.ltb_spec (64 - N.size v) 10) as [Hlt|Hge]; cbn zeta.
    2:{ rewrite ones_54, N.land_ones. assert (v < 2 ^ 54) by (apply size_le_iff; lia). rewrite N.mod_small by done. by exists v. }
    assert (∃ k, N.size v = k + 55 ∧ k <= 9) as (k & Hk & Hk9) by (exists (N.size v - 55); lia).
    replace (63 - (64 - N.size v) - POLY_DEGREE) with (k + 1) by (unfold POLY_DEGREE; lia).
    assert (wshl64 POLY (k + 1) = N.shiftl MODULUS k) as ->.
    { unfold wshl64. rewrite wrap64_small, N.add_comm, <- N.shiftl_shiftl; [done|].
      rewrite N.shiftl_mul_pow2. assert (2 ^ (k + 1) <= 2 ^ 10) by (apply N.pow_le_mono_r; lia). unfold POLY, two64 in *. lia. }
    assert (N.lxor v (N.shiftl MODULUS k) < 2 ^ (k + 54)) as Hx.
    { apply lxor_clears_top.
      - apply size_le_iff. lia.
      - rewrite N.shiftl_mul_pow2. replace (N.succ (k + 54)) with (55 + k) by lia. rewrite N.pow_add_r.
        apply N.mul_lt_mono_pos_r; [apply N.neq_0_lt_0, N.pow_nonzero; lia|done].
      - rewrite <- (N.bit_log2 v) by (intros ->; cbn in Hk; lia). f_equal.
        rewrite N.size_log2 in Hk by (intros ->; cbn in Hk; lia). lia.
      - rewrite N.shiftl_spec_high by lia. by replace (k + 54 - k) with 54 by lia. }
    destruct (IH (N.lxor v (N.shiftl MODULUS k))) as (r & -> & Hr & Hc).
    + eapply N.lt_le_trans; [exact Hx|]. apply N.pow_le_mono_r; lia.
    + apply size_le_iff in Hx. lia.
    + exists r. split_and!; [done..|]. rewrite Hc, cong_modulus. by rewrite N.lxor_0_r.
Qed.

Lemma mod_poly_ok v : v < 2 ^ 64 → ∃ r, mod_poly v = Some r ∧ r < 2 ^ 54 ∧ cong r v.
Proof. intros Hv. apply mod_poly_loop_ok; [done|]. apply size_le_iff in Hv. lia. Qed.

Lemma wshl64_small a k n : a < 2 ^ n → n + k <= 64 → wshl64 a k = N.shiftl a k ∧ N.shiftl a k < 2 ^ (n + k).
Proof.
  intros Ha Hk. assert (N.shiftl a k < 2 ^ (n + k)) as H.
  { rewrite N.shiftl_mul_pow2, N.pow_add_r. apply N.mul_lt_mono_pos_r; [apply N.neq_0_lt_0, N.pow_nonzero; lia|done]. }
  split; [|done]. apply wrap64_small. rewrite two64_pow. eapply N.lt_le_trans; [exact H|]. apply N.pow_le_mono_r; lia.
Qed.

Lemma mod_double a : a < 2 ^ 54 → ∃ a', mod_poly (wshl64 a 1) = Some a' ∧ a' < 2 ^ 54 ∧ cong a' (N.double a).
Proof.
  intros Ha. destruct (wshl64_small a 1 54 Ha ltac:(lia)) as [-> Hlt]. rewrite <- double_shiftl in *.
  apply mod_poly_ok. eapply N.lt_trans; [exact Hlt|done].
Qed.

Lemma size_shiftr b : b ≠ 0 → N.succ (N.size (N.shiftr b 1)) = N.size b.
Proof. by destruct b as [|[p|p|]]. Qed.

Lemma clmul_shiftr b a r :
  N.lxor (if N.land b 1 =? 0 then r else N.lxor r a) (N.double (clmul (N.shiftr b 1) a)) = N.lxor r (clmul b a).
Proof.
  destruct b as [|[p|p|]]; [done| |done|].
  - exact (N.lxor_assoc r a (N.double (pmul p a))).
  - exact (N.lxor_0_r (N.lxor r a)).
Qed.

Lemma poly_mul_loop_ok fuel a b result : a < 2 ^ 54 → result < 2 ^ 54 → N.size b <= N.of_nat fuel →
  ∃ r, poly_mul_loop fuel a b result = Some r ∧ r < 2 ^ 54 ∧ cong r (N.lxor result (clmul b a)).
Proof.
  revert a b result. induction fuel as [|fuel IH]; intros a b result Ha Hr Hf.
  { destruct b; [|cbn in Hf; lia]. exists result. cbn. by rewrite N.lxor_0_r. }
  destruct (N.eq_dec b 0) as [->|Hb]; [exists result; cbn; by rewrite N.lxor_0_r|].
  pose proof (size_shiftr b Hb) as Hs. cbn [poly_mul_loop]. apply N.eqb_neq in Hb as ->. destruct (mod_double a Ha) as (a' & -> & Ha' & Hc). cbn [mbind option_bind].
  set (result' := if N.land b 1 =? 0 then result else N.lxor result a).
  assert (result' < 2 ^ 54) as Hr' by (unfold result'; destruct (N.land b 1 =? 0); [done|by apply lxor_lt_pow2]).
  destruct (IH a' (N.shiftr b 1) result' Ha' Hr') as (r & -> & Hlt & Hrc).
  { lia. }
  exists r. split_and!; [done..|]. rewrite Hrc, Hc, clmul_double_r. subst result'. by rewrite clmul_shiftr.
Qed.

Lemma poly_mul_ok a b : a < 2 ^ 54 → b < 2 ^ 64 → ∃ r, poly_mul_mod a b = Some r ∧ r < 2 ^ 54 ∧ cong r (clmul b a).
Proof. intros Ha Hb. apply (poly_mul_loop_ok 65 a b 0); [done..|]. apply size_le_iff in Hb. lia. Qed.

Lemma clmul_pow2 j k : clmul (N.shiftl 1 k) (N.shiftl 1 j) = N.shiftl 1 (j + k).
Proof. rewrite clmul_shiftl_l. cbn [clmul pmul]. apply N.shiftl_shiftl. Qed.

Lemma poly_mul_pow2 a b j k : a < 2 ^ 54 → b < 2 ^ 54 → cong a (N.shiftl 1 j) → cong b (N.shiftl 1 k) →
  ∃ r, poly_mul_mod a b = Some r ∧ r < 2 ^ 54 ∧ cong r (N.shiftl 1 (j + k)).
Proof.
  intros Ha Hb Ca Cb. destruct (poly_mul_ok a b Ha) as (r & Er & Hr & Cr).
  { eapply N.lt_trans; [exact Hb|done]. }
  exists r. split; [exact Er|]. split; [exact Hr|]. rewrite <- clmul_pow2, <- Ca, <- Cb. exact Cr.
Qed.

Lemma shiftr_mul e k : e * k = N.shiftr e 1 * (k + k) + N.land e 1 * k.
Proof. assert (e = 2 * N.shiftr e 1 + N.land e 1) as He by (by destruct e as [|[p|p|]]). rewrite He at 1. ring. Qed.

Lemma land_1_cases e : N.land e 1 = 0 ∨ N.land e 1 = 1.
Proof. destruct e as [|[p|p|]]; by auto. Qed.

Lemma pow_x_loop_S fuel e base result : e ≠ 0 → pow_x_loop (S fuel) e base result =
  (result' ← (if N.land e 1 =? 0 then Some result else poly_mul_mod result base);
   base' ← poly_mul_mod base base; pow_x_loop fuel (N.shiftr e 1) base' result').
Proof. by destruct e. Qed.

Lemma pow_x_loop_0 fuel base result : pow_x_loop fuel 0 base result = Some result.
Proof. by destruct fuel. Qed.

Lemma pow_x_loop_ok fuel e base result j k : base < 2 ^ 54 → result < 2 ^ 54 → N.size e <= N.of_nat fuel →
  cong base (N.shiftl 1 k) → cong result (N.shiftl 1 j) →
  ∃ r, pow_x_loop fuel e base result = Some r ∧ r < 2 ^ 54 ∧ cong r (N.shiftl 1 (j + e * k)).
Proof.
  revert e base result j k. induction fuel as [|fuel IH]; intros e base result j k Hb Hr Hf Cb Cr.
  { destruct e; [|cbn in Hf; lia]. exists result. by rewrite pow_x_loop_0, N.mul_0_l, N.add_0_r. }
  destruct (N.eq_dec e 0) as [->|He]; [exists result; by rewrite pow_x_loop_0, N.mul_0_l, N.add_0_r|].
  pose proof (size_shiftr e He) as Hse. rewrite pow_x_loop_S by done. clear He.
  destruct (poly_mul_pow2 base base k k Hb Hb Cb Cb) as (base' & Eb & Hb' & Cb2).
  destruct (poly_mul_pow2 result base j k Hr Hb Cr Cb) as (res' & Er & Hr' & Cr2).
  assert (N.size (N.shiftr e 1) <= N.of_nat fuel) as Hs by lia. pose proof (shiftr_mul e k) as Hek.
  destruct (land_1_cases e) as [E|E]; rewrite E in *; cbn [N.eqb]; rewrite ?Er, Eb; cbn [mbind option_bind].
  - assert (j + e * k = j + N.shiftr e 1 * (k + k)) as -> by lia. by apply IH.
  - assert (j + e * k = j + k + N.shiftr e 1 * (k + k)) as -> by lia. by apply IH.
Qed.

Lemma pow_x_ok e : e < 2 ^ 32 → ∃ r, pow_x e = Some r ∧ r < 2 ^ 54 ∧ cong r (N.shiftl 1 e).
Proof.
  intros He. apply size_le_iff in He.
  destruct (pow_x_loop_ok 33 e 2 1 0 1) as (r & Hr & Hlt & Hc); [done|done|lia|reflexivity|reflexivity|].
  exists r. split; [exact Hr|]. split; [done|]. rewrite Hc, N.mul_1_r. reflexivity.
Qed.

(** ** The rolling fingerprint *)

(** The bytes of the circular buffer, oldest first, and their polynomial. *)
Definition ordered (c : Chunker) : list byte := drop (window_pos c) (window c) ++ take (window_pos c) (window c).
Definition wstep (acc : N) (b : byte) : N := N.lxor (N.shiftl acc 8) (Byte.to_N b).
Definition wpoly (l : list byte) : N := fold_left wstep l 0.

Lemma fold_wstep l acc : fold_left wstep l acc = N.lxor (N.shiftl acc (8 * N.of_nat (length l))) (wpoly l).
Proof.
  unfold wpoly. revert acc. induction l as [|b l IH]; intros acc; cbn [fold_left length].
  { by rewrite N.mul_0_r, N.shiftl_0_r, N.lxor_0_r. }
  rewrite (IH (wstep acc b)), (IH (wstep 0 b)), <- N.lxor_assoc. f_equal. unfold wstep.
  rewrite N.shiftl_0_l, N.lxor_0_l, N.shiftl_lxor, N.shiftl_shiftl. do 2 f_equal. lia.
Qed.

Lemma wpoly_snoc l b : wpoly (l ++ [b]) = wstep (wpoly l) b.
Proof. unfold wpoly. by rewrite fold_left_app. Qed.

(** Sliding the window by a byte. *)
Lemma wpoly_slide o l b : length l = 47%nat →
  wpoly (l ++ [b]) = N.lxor (N.lxor (N.shiftl (wpoly (o :: l)) 8) (Byte.to_N b)) (N.shiftl (Byte.to_N o) 384).
Proof.
  intros Hl. rewrite wpoly_snoc. unfold wpoly at 2. cbn [fold_left]. rewrite fold_wstep, Hl. unfold wstep.
  rewrite N.shiftl_0_l, N.lxor_0_l, N.shiftl_lxor, N.shiftl_shiftl. change (8 * N.of_nat 47 + 8) with 384.
  rewrite (N.lxor_comm (N.shiftl (Byte.to_N o) 384) (N.shiftl (wpoly l) 8)), !N.lxor_assoc. f_equal.
  by rewrite N.lxor_comm, N.lxor_assoc, N.lxor_nilpotent, N.lxor_0_r.
Qed.

Lemma lor_byte a b : b < 256 → N.lor (N.shiftl a 8) b = N.lxor (N.shiftl a 8) b.
Proof.
  intros Hb. symmetry. apply N.lxor_lor. apply N.bits_inj. intros i. rewrite N.land_spec, N.bits_0.
  destruct (N.lt_ge_cases i 8) as [Hi|Hi]; [by rewrite N.shiftl_spec_low|].
  rewrite <- (N.mod_small b (2 ^ 8)) by done. rewrite N.mod_pow2_bits_high by done. apply andb_false_r.
Qed.

Lemma split_at_53 v : v = N.lxor (N.land v POLY_LOW_MASK) (N.shiftl (N.shiftr v 53) 53).
Proof.
  change POLY_LOW_MASK with (N.ones 53). rewrite N.land_ones. apply N.bits_inj. intros i. rewrite N.lxor_spec.
  destruct (N.lt_ge_cases i 53) as [Hi|Hi].
  - rewrite N.mod_pow2_bits_low, N.shiftl_spec_low by done. by destruct (N.testbit v i).
  - rewrite N.mod_pow2_bits_high, N.shiftl_spec_high, N.shiftr_spec by lia. by replace (i - 53 + 53) with i by lia.
Qed.

Definition config_ok (cfg : ChunkerConfig) : Prop := (512 ≤ cmin cfg)%nat ∧ (cmin cfg < cmax cfg)%nat.

(** The tables hold what their comments say, the window is full, and the
    fingerprint is the remainder of its polynomial. *)
Record chunker_ok (c : Chunker) : Prop := {
  co_config : config_ok (config c);
  co_table : ∀ b, (b < 256)%nat → ∃ t, table c !! b = Some t ∧ t < 2 ^ 54 ∧ cong t (N.shiftl (N.of_nat b) 384);
  co_reduce : ∀ s, (s < 512)%nat → ∃ r, reduce_hi c !! s = Some r ∧ r < 2 ^ 54 ∧ cong r (N.shiftl (N.of_nat s) 53);
  co_window : length (window c) = WINDOW_SIZE;
  co_pos : (window_pos c < WINDOW_SIZE)%nat;
  co_fp : fingerprint c < 2 ^ 54;
  co_rem : cong (fingerprint c) (wpoly (ordered c))
}.

Lemma mapM_table {A} (f : nat → option A) n (P : nat → A → Prop) :
  (∀ i, (i < n)%nat → ∃ x, f i = Some x ∧ P i x) →
  ∃ l, mapM f (seq 0 n) = Some l ∧ ∀ i, (i < n)%nat → ∃ x, l !! i = Some x ∧ P i x.
Proof.
  intros H. assert (is_Some (mapM f (seq 0 n))) as [l Hl].
  { apply mapM_is_Some_2, Forall_forall. intros i Hi. apply elem_of_seq in Hi. destruct (H i ltac:(lia)) as (x & Hx & _). by exists x. }
  exists l. split; [done|]. intros i Hi. apply mapM_Some_1 in Hl. destruct (H i Hi) as (x & Hx & HP).
  destruct (Forall2_lookup_l _ _ _ i i Hl) as (y & Hy & Hfy); [apply lookup_seq; lia|]. exists y. split; [done|]. congruence.
Qed.

Lemma chunker_new_ok cfg : chunker_new cfg = Some (inl InvalidConfig) ∨
  ∃ c, chunker_new cfg = Some (inr c) ∧ config c = cfg ∧ ordered c = replicate WINDOW_SIZE x00 ∧ chunker_ok c.
Proof.
  unfold chunker_new. destruct (negb _ || _)%bool; [by left|].
  destruct ((cmin cfg <? 512)%nat || _ || _)%bool eqn:E; [by left|].
  apply orb_false_iff in E as [E _]. apply orb_false_iff in E as [Emin Emax]. apply Nat.ltb_ge in Emin. apply Nat.leb_gt in Emax.
  destruct (pow_x_ok (8 * N.of_nat WINDOW_SIZE)) as (x & Hx & Hlt & Hc); [done|]. rewrite Hx, bind_some. cbv beta.
  assert (∀ x, x < 2 ^ 54 → x < 2 ^ 64) as H64 by (intros y Hy; eapply N.lt_trans; [exact Hy|done]).
  destruct (mapM_table (λ b, poly_mul_mod (N.of_nat b) x) 256 (λ b t, t < 2 ^ 54 ∧ cong t (N.shiftl (N.of_nat b) 384))) as (tb & Etb & Htb).
  { intros i Hi. destruct (poly_mul_ok (N.of_nat i) x) as (r & -> & Hr & Cr); [|by apply H64|].
    - eapply N.lt_trans; [instantiate (1 := 256); lia|done].
    - exists r. split_and!; [done..|]. rewrite Cr, Hc, clmul_shiftl_l. reflexivity. }
  destruct (mapM_table (λ s, mod_poly (wshl64 (N.of_nat s) POLY_DEGREE)) 512 (λ s r, r < 2 ^ 54 ∧ cong r (N.shiftl (N.of_nat s) 53))) as (rb & Erb & Hrb).
  { intros i Hi. destruct (wshl64_small (N.of_nat i) POLY_DEGREE 9) as [-> Hs]; [lia|done|].
    apply mod_poly_ok. eapply N.lt_trans; [exact Hs|done]. }
  rewrite Etb, bind_some. cbv beta. rewrite Erb, bind_some. cbv beta. right. eexists. split; [done|]. split; [done|]. split; [done|]. split; cbn [config table reduce_hi window window_pos fingerprint].
  - by split.
  - exact Htb.
  - exact Hrb.
  - apply length_replicate.
  - unfold WINDOW_SIZE. lia.
  - done.
  - unfold ordered. cbn [window window_pos]. rewrite drop_0, take_0, app_nil_r. reflexivity.
Qed.

Lemma ordered_head c o : window c !! window_pos c = Some o → length (window c) = WINDOW_SIZE →
  let l := drop (S (window_pos c)) (window c) ++ take (window_pos c) (window c) in ordered c = o :: l ∧ length l = 47%nat.
Proof.
  intros Ho Hl l. unfold ordered. rewrite (drop_S _ _ _ Ho). split; [done|]. subst l. apply lookup_lt_Some in Ho. unfold WINDOW_SIZE in *.
  rewrite length_app, length_drop, length_take. lia.
Qed.

(** Overwriting the oldest byte and moving on slides the window. *)
Lemma circular_slide (w : list byte) p b : length w = WINDOW_SIZE → (p < WINDOW_SIZE)%nat →
  let p' := if (S p =? WINDOW_SIZE)%nat then 0%nat else S p in
  drop p' (<[p:=b]> w) ++ take p' (<[p:=b]> w) = (drop (S p) w ++ take p w) ++ [b].
Proof.
  intros Hl Hp p'. unfold p'. assert (take (S p) (<[p:=b]> w) = take p w ++ [b]) as Ht.
  { rewrite (take_S_r _ _ b) by (apply list_lookup_insert_eq; lia). by rewrite take_insert_ge by lia. }
  destruct (Nat.eqb_spec (S p) WINDOW_SIZE) as [E|E].
  - rewrite drop_0, take_0, app_nil_r, (drop_ge w) by lia. rewrite app_nil_l, <- Ht. symmetry. apply take_ge. rewrite length_insert. lia.
  - rewrite drop_insert_lt, Ht by lia. by rewrite (assoc_L (++)).
Qed.

Lemma push_byte_ok c b : chunker_ok c → ∃ c', push_byte c b = Some c' ∧ chunker_ok c' ∧ config c' = config c ∧ mask c' = mask c ∧
  ordered c' = tail (ordered c) ++ [b].
Proof.
  intros [Hcfg Htab Hred Hwin Hpos Hfp Hrem]. unfold push_byte.
  destruct (lookup_lt_is_Some_2 (window c) (window_pos c)) as [o Ho]; [by rewrite Hwin|].
  destruct (ordered_head c o Ho Hwin) as [Hord Hll]. set (l := drop _ _ ++ _) in *.
  destruct (Htab (b2n o) (b2n_lt o)) as (t & Ht & Htlt & Htc).
  rewrite Ho, bind_some. cbv beta zeta. rewrite Ht, bind_some. cbv beta zeta.
  destruct (wshl64_small (fingerprint c) 8 54 Hfp ltac:(lia)) as [-> Hsh].
  rewrite lor_byte by apply to_N_lt. set (fp := N.lxor (N.lxor (N.shiftl (fingerprint c) 8) (Byte.to_N b)) t).
  assert (fp < 2 ^ 62) as Hfp1.
  { pose proof (to_N_lt b). apply lxor_lt_pow2; [apply lxor_lt_pow2|]; [done|..]; eapply N.lt_trans; try done. }
  assert (N.shiftr fp POLY_DEGREE < 512) as Hsp.
  { rewrite N.shiftr_div_pow2. by apply N.Div0.div_lt_upper_bound. }
  destruct (Hred (N.to_nat (N.shiftr fp POLY_DEGREE))) as (r & Er & Hrlt & Hrc); [lia|]. rewrite Er, bind_some. cbv beta.
  eexists. split; [done|].
  assert (ordered (mkChunker (config c) (mask c) (table c) (reduce_hi c) (<[window_pos c:=b]> (window c))
    (if (S (window_pos c) =? WINDOW_SIZE)%nat then 0%nat else S (window_pos c)) (N.lxor (N.land fp POLY_LOW_MASK) r)) = l ++ [b]) as Hord'.
  { exact (circular_slide (window c) (window_pos c) b Hwin Hpos). }
  split; [|by rewrite Hord, Hord'].
  split; cbn [config table reduce_hi window window_pos fingerprint]; [exact Hcfg|exact Htab|exact Hred| | | |].
  - by rewrite length_insert.
  - destruct (Nat.eqb_spec (S (window_pos c)) WINDOW_SIZE); unfold WINDOW_SIZE in *; lia.
  - apply lxor_lt_pow2; [|done]. change POLY_LOW_MASK with (N.ones 53). rewrite N.land_ones.
    eapply N.lt_trans; [apply N.mod_lt; done|done].
  - rewrite Hord', Hrc, N2Nat.id. change 53 with POLY_DEGREE. rewrite <- split_at_53. subst fp.
    rewrite (wpoly_slide o) by done. rewrite <- Hord, <- Hrem, Htc. unfold b2n. rewrite N2Nat.id. reflexivity.
Qed.

Fixpoint push_all (c : Chunker) (l : list byte) : option Chunker :=
  match l with [] => Some c | b :: l => c' ← push_byte c b; push_all c' l end.

Lemma length_ordered c : chunker_ok c → length (ordered c) = WINDOW_SIZE.
Proof. intros [_ _ _ Hw Hp _ _]. unfold ordered. rewrite length_app, length_drop, length_take. lia. Qed.

Lemma push_all_ok c l : chunker_ok c → ∃ c', push_all c l = Some c' ∧ chunker_ok c' ∧ ordered c' = drop (length l) (ordered c ++ l).
Proof.
  revert c. induction l as [|b l IH]; intros c Hc; cbn [push_all length].
  { exists c. split_and!; [done..|]. by rewrite app_nil_r, drop_0. }
  destruct (push_byte_ok c b Hc) as (c1 & E & Hc1 & _ & _ & Ho). rewrite E, bind_some.
  destruct (IH c1 Hc1) as (c2 & Ec2 & Hc2 & Ho2). exists c2. split_and!; [exact Ec2|done|]. rewrite Ho2, Ho.
  pose proof (length_ordered c Hc) as Hl. destruct (ordered c) as [|o w]; [done|]. cbn [tail app drop]. by rewrite <- (assoc_L (++)).
Qed.


(** ** Cuts *)

(** Chunkers that differ at most in their window. *)
Definition same_policy (c1 c2 : Chunker) : Prop := config c1 = config c2 ∧ mask c1 = mask c2.

(** The last [n] bytes of the windows agree. *)
Definition agree (n : nat) (c1 c2 : Chunker) : Prop :=
  drop (WINDOW_SIZE - n) (ordered c1) = drop (WINDOW_SIZE - n) (ordered c2).

Lemma agree_step n c1 c2 b c1' c2' : chunker_ok c1 → chunker_ok c2 → agree n c1 c2 →
  ordered c1' = tail (ordered c1) ++ [b] → ordered c2' = tail (ordered c2) ++ [b] → agree (S n) c1' c2'.
Proof.
  intros H1 H2 Ha E1 E2. apply length_ordered in H1, H2. unfold agree in *. rewrite E1, E2.
  destruct (ordered c1) as [|o1 w1]; [done|]. destruct (ordered c2) as [|o2 w2]; [done|]. cbn [tail length] in *. unfold WINDOW_SIZE in *.
  destruct (decide (n < 48)%nat).
  - replace (48 - n)%nat with (S (48 - S n)) in Ha by lia. cbn [drop] in Ha. rewrite !drop_app_le by lia. by rewrite Ha.
  - replace (48 - n)%nat with 0%nat in Ha by lia. rewrite !drop_0 in Ha. by simplify_eq.
Qed.

Lemma agree_fingerprint n c1 c2 : chunker_ok c1 → chunker_ok c2 → agree n c1 c2 → (WINDOW_SIZE ≤ n)%nat → fingerprint c1 = fingerprint c2.
Proof.
  intros H1 H2 Ha Hn. unfold agree in Ha. replace (WINDOW_SIZE - n)%nat with 0%nat in Ha by lia. rewrite !drop_0 in Ha.
  apply cong_unique; [apply (co_fp _ H1)|apply (co_fp _ H2)|]. by rewrite (co_rem _ H1), (co_rem _ H2), Ha.
Qed.

Lemma scan_ok c rest len : chunker_ok c → ∃ e c', scan_chunk c rest len = Some (e, c') ∧ chunker_ok c' ∧ same_policy c' c ∧
  (len ≤ e)%nat ∧ (e ≤ len + length rest)%nat ∧ (rest ≠ [] → len < e)%nat ∧ ((e < len + length rest)%nat → (cmin (config c) ≤ e)%nat).
Proof.
  revert c len. induction rest as [|b rest IH]; intros c len Hc; cbn [scan_chunk length].
  { exists len, c. split_and!; try done; lia. }
  destruct (push_byte_ok c b Hc) as (c1 & -> & Hc1 & Hcf & Hm & _). rewrite bind_some.
  destruct ((cmin (config c1) <=? S len)%nat && is_boundary c1)%bool eqn:E.
  - apply andb_true_iff in E as [E _]. apply Nat.leb_le in E. exists (S len), c1.
    rewrite <- Hcf. split_and!; try done; lia.
  - destruct (IH c1 (S len) Hc1) as (e & c' & -> & Hc' & [? ?] & H1 & H2 & H3 & H4).
    exists e, c'. rewrite <- Hcf. split_and!; [done|done|split; congruence|lia..].
Qed.

Lemma scan_agree c1 c2 rest len : chunker_ok c1 → chunker_ok c2 → same_policy c1 c2 → agree len c1 c2 →
  fst <$> scan_chunk c1 rest len = fst <$> scan_chunk c2 rest len.
Proof.
  revert c1 c2 len. induction rest as [|b rest IH]; intros c1 c2 len H1 H2 [Hcf Hm] Ha; cbn [scan_chunk]; [done|].
  destruct (push_byte_ok c1 b H1) as (c1' & -> & H1' & Hcf1 & Hm1 & Ho1). destruct (push_byte_ok c2 b H2) as (c2' & -> & H2' & Hcf2 & Hm2 & Ho2).
  rewrite !bind_some. pose proof (agree_step len c1 c2 b c1' c2' H1 H2 Ha Ho1 Ho2) as Ha'.
  assert ((cmin (config c1') <=? S len)%nat && is_boundary c1' = (cmin (config c2') <=? S len)%nat && is_boundary c2')%bool as ->.
  { rewrite Hcf1, Hcf2, Hcf. destruct (Nat.leb_spec (cmin (config c2)) (S len)) as [Hle|]; [|done]. cbn [andb]. unfold is_boundary.
    pose proof (co_config _ H2) as [Hmin _].
    rewrite (agree_fingerprint (S len) c1' c2' H1' H2' Ha') by (unfold WINDOW_SIZE; lia). by rewrite Hm1, Hm2, Hm. }
  destruct (_ && _)%bool; [done|]. apply IH; [done|done| |done]. split; congruence.
Qed.

Lemma scan_prefix c l1 l2 len e c' : scan_chunk c (l1 ++ l2) len = Some (e, c') → (e ≤ len + length l1)%nat → chunker_ok c →
  scan_chunk c l1 len = Some (e, c').
Proof.
  revert c len. induction l1 as [|b l1 IH]; intros c len Hs He Hc; cbn [scan_chunk app length] in *.
  - destruct (scan_ok c l2 len Hc) as (e' & c'' & Hs' & _ & _ & Hle & _ & Hne & _). rewrite Hs in Hs'. simplify_eq.
    destruct l2 as [|b l2]; [done|]. specialize (Hne ltac:(done)). lia.
  - destruct (push_byte_ok c b Hc) as (c1 & E1 & Hc1 & _). rewrite E1, bind_some in *. destruct (_ && _)%bool; [done|].
    apply IH; [done|lia|done].
Qed.

Lemma reset_ok c : chunker_ok c → chunker_ok (chunker_reset c).
Proof.
  intros [Hcf Ht Hr _ _ _ _]. split; cbn [config table reduce_hi window window_pos fingerprint chunker_reset]; [done..| | | |].
  - apply length_replicate.
  - unfold WINDOW_SIZE. lia.
  - done.
  - reflexivity.
Qed.

(** The chunks themselves, cut off one after the other. *)
Fixpoint pieces (fuel : nat) (c : Chunker) (rest : list byte) : option (list (list byte)) :=
  match rest with
  | [] => Some []
  | _ :: _ =>
      match fuel with
      | O => None
      | S fuel => '(e, c') ← scan_chunk c (take (cmax (config c)) rest) 0; ps ← pieces fuel c' (drop e rest); Some (take e rest :: ps)
      end
  end.

(** One round of the loop on a chunker in order. *)
Lemma pieces_step c rest : chunker_ok c → rest ≠ [] → ∃ e c', scan_chunk c (take (cmax (config c)) rest) 0 = Some (e, c') ∧
  chunker_ok c' ∧ same_policy c' c ∧ (0 < e ≤ length rest)%nat ∧ (e ≤ cmax (config c))%nat ∧ ((e < length rest)%nat → (cmin (config c) ≤ e)%nat).
Proof.
  intros Hc Hne. destruct (scan_ok c (take (cmax (config c)) rest) 0 Hc) as (e & c' & Hs & Hc' & Hp & H1 & H2 & H3 & H4).
  pose proof (co_config _ Hc) as [Hmin Hmax]. rewrite length_take in *. exists e, c'.
  assert (0 < e)%nat by (apply H3; destruct rest; [done|]; destruct (cmax (config c)); [lia|done]). split_and!; try done; lia.
Qed.

Lemma pieces_ok fuel c rest : chunker_ok c → (length rest ≤ fuel)%nat → ∃ ps, pieces fuel c rest = Some ps ∧ concat ps = rest ∧
  (∀ i p, ps !! i = Some p → p ≠ [] ∧ (length p ≤ cmax (config c))%nat ∧ ((S i < length ps)%nat → (cmin (config c) ≤ length p)%nat)).
Proof.
  revert c rest. induction fuel as [|fuel IH]; intros c rest Hc Hf.
  { destruct rest; [|cbn in Hf; lia]. exists []. split_and!; [done..|]. intros i p Hp. done. }
  destruct (decide (rest = [])) as [->|Hne]; [exists []; by split_and!|].
  destruct (pieces_step c rest Hc Hne) as (e & c' & Hs & Hc' & [Hcf Hm] & He & Hmx & Hmin).
  destruct (IH c' (drop e rest) Hc') as (ps & Eps & Hcat & Hall); [rewrite length_drop; lia|].
  exists (take e rest :: ps). cbn [pieces]. destruct rest as [|b rest']; [done|]. set (rest := b :: rest') in *.
  rewrite Hs, bind_some, Eps, bind_some. split_and!; [done|cbn [concat]; by rewrite Hcat, take_drop|].
  intros [|i] p Hp; cbn [lookup list_lookup length] in Hp |- *.
  - simplify_eq. rewrite length_take. split_and!.
    + intros E. apply (f_equal length) in E. rewrite length_take in E. cbn [length] in E. lia.
    + lia.
    + intros Hps. destruct (decide (e < length rest)%nat); [specialize (Hmin ltac:(done)); lia|].
      destruct ps as [|p ps]; [cbn in Hps; lia|]. destruct (Hall 0%nat p eq_refl) as [Hpne _].
      rewrite drop_ge in Hcat by lia. cbn [concat] in Hcat. apply app_eq_nil in Hcat as [-> _]. done.
  - rewrite Hcf in Hall. destruct (Hall i p Hp) as (? & ? & Hi). split_and!; [done..|]. intros. apply Hi. lia.
Qed.

Lemma pieces_indep f1 f2 c1 c2 rest : chunker_ok c1 → chunker_ok c2 → same_policy c1 c2 → (length rest ≤ f1)%nat → (length rest ≤ f2)%nat →
  pieces f1 c1 rest = pieces f2 c2 rest.
Proof.
  revert f2 c1 c2 rest. induction f1 as [|f1 IH]; intros f2 c1 c2 rest H1 H2 [Hcf Hm] Hf1 Hf2.
  { destruct rest; [by destruct f2|cbn in Hf1; lia]. }
  destruct (decide (rest = [])) as [->|Hne]; [by destruct f2|]. destruct f2 as [|f2]; [destruct rest; [done|cbn in Hf2; lia]|].
  destruct (pieces_step c1 rest H1 Hne) as (e & c1' & Hs1 & H1' & [? ?] & He & _).
  destruct (pieces_step c2 rest H2 Hne) as (e2 & c2' & Hs2 & H2' & [? ?] & _).
  assert (e2 = e) as ->.
  { pose proof (scan_agree c1 c2 (take (cmax (config c1)) rest) 0 H1 H2 (conj Hcf Hm)) as Ha. rewrite Hcf in Ha at 2. rewrite Hs1, Hs2 in Ha.
    assert (agree 0 c1 c2) as Hag.
    { unfold agree. rewrite !drop_ge by (rewrite length_ordered; [lia|done]). done. }
    specialize (Ha Hag). by simplify_eq/=. }
  cbn [pieces]. destruct rest as [|b rest']; [done|]. set (rest := b :: rest') in *.
  rewrite Hs1, Hs2, !bind_some. rewrite (IH f2 c1' c2' (drop e rest)); [done|done|done|split; congruence|rewrite length_drop; lia..].
Qed.

Lemma pieces_split l1 l2 fuel f1 c rest : chunker_ok c → (length rest ≤ fuel)%nat → pieces fuel c rest = Some (l1 ++ l2) →
  (length (concat l1) ≤ f1)%nat → pieces f1 c (concat l1) = Some l1 ∧ pieces fuel c (concat l2) = Some l2.
Proof.
  revert fuel f1 c rest. induction l1 as [|p l1 IH]; intros fuel f1 c rest Hc Hf Hp Hf1;
    destruct (pieces_ok fuel c rest Hc Hf) as (ps & Eps & Hcat & _); rewrite Hp in Eps; simplify_eq.
  { split; [by destruct f1|]. exact Hp. }
  destruct (decide (concat ((p :: l1) ++ l2) = [])) as [E|Hne]; [rewrite E in Hp; by destruct fuel|].
  set (rest := concat ((p :: l1) ++ l2)) in *. destruct fuel as [|fuel]; [destruct rest; [done|cbn in Hf; lia]|].
  destruct (pieces_step c rest Hc Hne) as (e & c' & Hs & Hc' & [Hcf Hm] & He & Hmx & _).
  assert (p = take e rest ∧ pieces fuel c' (drop e rest) = Some (l1 ++ l2)) as [Hpe Hp'].
  { cbn [pieces] in Hp. destruct rest as [|b rest'] eqn:Er; [done|]. rewrite <- Er in *. rewrite Hs, bind_some in Hp.
    apply bind_Some in Hp as (ps & Eps & Hp). by simplify_eq/=. }
  assert (rest = p ++ concat l1 ++ concat l2) as Hr by (unfold rest; cbn [concat app]; by rewrite concat_app).
  assert (length p = e) as Hlp by (rewrite Hpe, length_take; lia).
  destruct (IH fuel (pred f1) c' (drop e rest) Hc') as [IH1 IH2]; [rewrite length_drop; lia|exact Hp'|cbn [concat] in Hf1; rewrite length_app in Hf1; lia|].
  split.
  - cbn [concat] in *. rewrite length_app in Hf1. destruct f1 as [|f1]; [lia|]. cbn [pieces pred] in *.
    destruct (p ++ concat l1) as [|b q] eqn:Eq; [apply app_eq_nil in Eq as [-> _]; cbn in Hlp; lia|]. rewrite <- Eq.
    rewrite (scan_prefix c (take (cmax (config c)) (p ++ concat l1)) (take (cmax (config c) - length (p ++ concat l1)) (concat l2)) 0 e c').
    + by rewrite bind_some, drop_app_length', IH1, bind_some, take_app_length' by done.
    + rewrite <- take_app, <- (assoc_L (++)), <- Hr. exact Hs.
    + rewrite length_take, length_app. lia.
    + done.
  - rewrite <- IH2. apply pieces_indep; [done|done|split; congruence| |]; rewrite Hr, !length_app in *; lia.
Qed.

Lemma cut_loop_pieces fuel c data i ps : chunker_ok c → pieces fuel c (drop i data) = Some ps →
  ∃ offs c', cut_loop fuel c (drop i data) i = Some (offs, c') ∧ windows2 data i offs = ps ∧ chunker_ok c' ∧ same_policy c' c.
Proof.
  revert c i ps. induction fuel as [|fuel IH]; intros c i ps Hok Hp; cbn [cut_loop pieces] in *; destruct (drop i data) as [|b rest] eqn:Er; simplify_eq.
  { by eexists [], c. }
  { by eexists [], c. }
  rewrite <- Er in *. apply bind_Some in Hp as ([e c'] & Hs & Hp). apply bind_Some in Hp as (ps' & Hp' & Hp). simplify_eq.
  destruct (scan_ok c (take (cmax (config c)) (drop i data)) 0 Hok) as (e' & d & Hs' & Hd & [? ?] & _). rewrite Hs in Hs'. simplify_eq.
  rewrite drop_drop in Hp'. destruct (IH d (i + e')%nat ps' Hd Hp') as (offs & c'' & Hc & Hw & Hok'' & [? ?]).
  exists ((i + e')%nat :: offs), c''. rewrite Hs, bind_some, drop_drop, Hc, bind_some. split; [done|]. split; [|split; [done|split; congruence]].
  cbn [windows2]. rewrite Hw. unfold slice. by replace (i + e' - i)%nat with e' by lia.
Qed.

Lemma chunk_pieces c data : chunker_ok c → ∃ c', chunk c data = Some (default [] (pieces (length data) (chunker_reset c) data), c') ∧
  chunker_ok c' ∧ same_policy c' c.
Proof.
  intros Hc. apply reset_ok in Hc. destruct (pieces_ok (length data) _ data Hc) as (ps & Hp & _); [done|]. rewrite Hp.
  destruct (cut_loop_pieces (length data) (chunker_reset c) data 0 ps) as (offs & c' & Hcut & Hw & Hok' & Hp'); [done|by rewrite drop_0|].
  exists c'. unfold chunk, chunk_boundaries. rewrite drop_0 in Hcut. rewrite Hcut, !bind_some. by rewrite Hw.
Qed.

Lemma chunk_indep c1 c2 data : chunker_ok c1 → chunker_ok c2 → same_policy c1 c2 → fst <$> chunk c1 data = fst <$> chunk c2 data.
Proof.
  intros H1 H2 Hp. destruct (chunk_pieces c1 data H1) as (c1' & -> & _). destruct (chunk_pieces c2 data H2) as (c2' & -> & _).
  cbn. do 2 f_equal. by apply pieces_indep; [apply reset_ok..| | |].
Qed.

Lemma chunk_split c a s la sa ca : chunker_ok c → chunk c (a ++ s) = Some (la ++ sa, ca) → concat la = a →
  fst <$> chunk c a = Some la ∧ fst <$> chunk c s = Some sa ∧ chunker_ok ca ∧ same_policy ca c.
Proof.
  intros Hc Ha Hla. pose proof (reset_ok c Hc) as Hr. destruct (chunk_pieces c (a ++ s) Hc) as (c' & E & Hok & Hpol). rewrite Ha in E.
  destruct (pieces_ok (length (a ++ s)) _ (a ++ s) Hr) as (ps & Hp & Hcat & _); [done|]. rewrite Hp in E. simplify_eq/=.
  rewrite concat_app in Hcat. apply app_inv_head in Hcat as <-.
  destruct (pieces_split la sa _ (length (concat la)) _ _ Hr (le_n _) Hp) as [H1 H2]; [done|].
  destruct (chunk_pieces c (concat la) Hc) as (d1 & -> & _). destruct (chunk_pieces c (concat sa) Hc) as (d2 & -> & _).
  rewrite H1. split_and!; [done| |done|done].
  rewrite (pieces_indep _ (length (concat la ++ concat sa)) _ (chunker_reset c)), H2; [done|done|done|done|done|]. rewrite length_app. lia.
Qed.

(** C24: chunks are a partition with bounded sizes. On every input the chunker
    returns; the chunks concatenated are the input; none is empty or longer
    than [max], and only the last may be shorter than [min]. *)
Theorem chunk_partition cfg c data :
  chunker_new cfg = Some (inr c) →
  ∃ ps c', chunk c data = Some (ps, c') ∧ concat ps = data ∧
    ∀ i p, ps !! i = Some p → p ≠ [] ∧ (length p ≤ cmax cfg)%nat ∧ ((S i < length ps)%nat → (cmin cfg ≤ length p)%nat).
Proof.
  intros Hnew. destruct (chunker_new_ok cfg) as [E|(c0 & E & Hcf & _ & Hc)]; rewrite E in Hnew; simplify_eq.
  destruct (chunk_pieces c data Hc) as (c' & Ech & _). apply reset_ok in Hc.
  destruct (pieces_ok (length data) _ data Hc) as (ps & Hp & Hcat & Hall); [done|]. rewrite Hp in Ech. by exists ps, c'.
Qed.

(** Cuts depend on content alone. Whatever a chunker read before, if the
    chunks of [a ++ s] and of [b ++ s] have a cut where [s] begins, the chunks
    after it are the same and are those of [s], and the ones before it are
    those of [a] and [b]: an edit before a common cut does not move a later
    chunk. *)
Theorem chunks_resynchronize cfg c a b s la lb sa sb ca cb :
  chunker_new cfg = Some (inr c) →
  chunk c (a ++ s) = Some (la ++ sa, ca) → concat la = a →
  chunk c (b ++ s) = Some (lb ++ sb, cb) → concat lb = b →
  sa = sb ∧ fst <$> chunk c s = Some sa ∧ fst <$> chunk ca s = Some sa ∧ fst <$> chunk c a = Some la ∧ fst <$> chunk c b = Some lb.
Proof.
  intros Hnew Ha Hla Hb Hlb. destruct (chunker_new_ok cfg) as [E|(c0 & E & _ & _ & Hc)]; rewrite E in Hnew; simplify_eq.
  destruct (chunk_split c (concat la) s la sa ca Hc Ha) as (Hla & Hsa & Hca & Hpol); [done|].
  destruct (chunk_split c (concat lb) s lb sb cb Hc Hb) as (Hlb & Hsb & _); [done|].
  split_and!; [congruence|done| |done|done]. rewrite <- Hsa. by apply chunk_indep.
Qed.

(** ** Concrete runs *)
Definition test_config : ChunkerConfig := mkChunkerConfig 1024 512 600.
Definition test_chunker :=
  Eval vm_compute in match chunker_new test_config with Some (inr c) => c | _ => mkChunker test_config 0 [] [] [] 0 0 end.

Lemma test_chunker_new : chunker_new test_config = Some (inr test_chunker).
Proof. vm_compute. reflexivity. Qed.

Definition test_head (b : byte) : list byte := replicate 600 b.
Definition test_tail : list byte := [x6c; x69; x6f; x6e].

Lemma test_chunk b : b = x01 ∨ b = x07 → ∃ c', chunk test_chunker (test_head b ++ test_tail) = Some ([test_head b] ++ [test_tail], c').
Proof. intros [-> | ->]; eexists; vm_compute; reflexivity. Qed.


Lemma chunk_partition_witness : ∃ ps c', chunk test_chunker (test_head x01 ++ test_tail) = Some (ps, c') ∧ ps = [test_head x01; test_tail] ∧
  concat ps = test_head x01 ++ test_tail.
Proof.
  destruct (chunk_partition test_config test_chunker (test_head x01 ++ test_tail) test_chunker_new) as (ps & c' & Hc & Hcat & _).
  exists ps, c'. split; [exact Hc|]. split; [|exact Hcat].
  destruct (test_chunk x01 (or_introl eq_refl)) as [d Ht]. rewrite Hc in Ht. exact (f_equal fst (inj Some _ _ Ht)).
Defined.

Lemma chunks_resynchronize_witness : ∃ ca cb,
  chunk test_chunker (test_head x01 ++ test_tail) = Some ([test_head x01] ++ [test_tail], ca) ∧
  chunk test_chunker (test_head x07 ++ test_tail) = Some ([test_head x07] ++ [test_tail], cb) ∧
  fst <$> chunk ca test_tail = Some [test_tail].
Proof.
  destruct (test_chunk x01 (or_introl eq_refl)) as [ca E1]. destruct (test_chunk x07 (or_intror eq_refl)) as [cb E2].
  exists ca, cb. split; [exact E1|]. split; [exact E2|].
  destruct (chunks_resynchronize test_config test_chunker (test_head x01) (test_head x07) test_tail
    [test_head x01] [test_head x07] [test_tail] [test_tail] ca cb test_chunker_new E1 (app_nil_r _) E2 (app_nil_r _)) as (_ & _ & Hs & _).
  exact Hs.
Defined.
