(* ===== verification/ClusterCore.v ===== *)
(** * Core types of the cluster crate ([lionfs-cluster/src/core.rs])

    Content hashes, the packed extent descriptor and version nodes. A 256-bit
    hash is the number its 32 bytes spell big-endian, so the derived order of
    the byte arrays is the order of numbers. BLAKE3 and bincode are
    arguments. *)
From S2P Require Import Prelude Clocks.
From Stdlib Require Import NArith ZArith Lia Strings.Byte Strings.String Strings.Ascii.
From stdpp Require Import base numbers gmap option list strings.
#[local] Open Scope N_scope.

#[local] Abbreviation bytes := (list byte).

(** ** Hashes *)
Abbreviation Hash256 := N (only parsing).

Definition hash_zero : Hash256 := 0.
Definition hash_bytes (h : Hash256) : bytes := be_bytes 32 h.
(** The first eight bytes, big-endian. *)
Definition prefix_u64 (h : Hash256) : N := of_be (take 8 (hash_bytes h)).

(** Lower-case hexadecimal. *)
Definition hex_digit (x : N) : ascii := ascii_of_N (if x <? 10 then 48 + x else 87 + x).
Definition hex_byte (b : byte) : list ascii := [hex_digit (Byte.to_N b / 16); hex_digit (Byte.to_N b mod 16)].
Definition to_hex (h : Hash256) : list ascii := concat (map hex_byte (hash_bytes h)).

(** [is_ascii_hexdigit] and the value of a digit; upper case is accepted. *)
Definition hex_value (c : ascii) : option N :=
  let x := N_of_ascii c in
  if (48 <=? x) && (x <=? 57) then Some (x - 48)
  else if (97 <=? x) && (x <=? 102) then Some (x - 87)
  else if (65 <=? x) && (x <=? 70) then Some (x - 55)
  else None.

Fixpoint from_hex_pairs (l : list ascii) : option bytes :=
  match l with
  | a :: b :: l =>
      match hex_value a, hex_value b, from_hex_pairs l with
      | Some x, Some y, Some r => Some (byte_of_N (16 * x + y) :: r)
      | _, _, _ => None
      end
  | [] => Some []
  | [_] => None
  end.

Definition from_hex (s : list ascii) : option Hash256 :=
  if (length s =? 64)%nat then of_be <$> from_hex_pairs s else None.

(** ** Extent descriptors *)
Record ExtentDescriptor := mkDesc {
  content_hash_prefix : N; zone_id : N; offset_in_zone : N; dlength : N;
  ecc_group_id : N; compression_type : N; dflags : N
}.

#[export] Instance desc_eq_dec : EqDecision ExtentDescriptor.
Proof. solve_decision. Defined.

Definition EXTENT_DESCRIPTOR_SIZE : nat := 32.

Definition desc_to_bytes (d : ExtentDescriptor) : bytes :=
  be_bytes 8 (content_hash_prefix d) ++ be_bytes 4 (zone_id d) ++ be_bytes 4 (offset_in_zone d) ++
  be_bytes 4 (dlength d) ++ be_bytes 1 (ecc_group_id d) ++ be_bytes 1 (compression_type d) ++ be_bytes 2 (dflags d) ++
  replicate 8 x00.

Definition field (b : bytes) (i n : nat) : N := of_be (take n (drop i b)).

Definition desc_from_bytes (b : bytes) : option ExtentDescriptor :=
  if (length b <? EXTENT_DESCRIPTOR_SIZE)%nat then None
  else Some (mkDesc (field b 0 8) (field b 8 4) (field b 12 4) (field b 16 4) (field b 20 1) (field b 21 1) (field b 22 2)).

(** [extent_flags] *)
Definition flag_has (flags bit : N) : bool := negb (N.land flags bit =? 0).
Definition flag_set (flags bit : N) : N := N.lor flags bit.
Definition flag_clear (flags bit : N) : N := N.ldiff flags bit.

Inductive CompressionType := Store | Zstd.
Definition compression_from_u8 (v : N) : CompressionType := if v =? 1 then Zstd else Store.
Definition compression_to_u8 (c : CompressionType) : N := match c with Store => 0 | Zstd => 1 end.

(** ** Version nodes *)
Inductive NodeKind := KFile | KDirectory | KTombstone.
#[export] Instance kind_eq_dec : EqDecision NodeKind.
Proof. solve_decision. Defined.

Record FileMetadata := mkMeta { owner : N; group : N; permissions : N; xattrs : gmap string bytes }.
Definition meta_default : FileMetadata := mkMeta 0 0 0 ∅.
#[export] Instance meta_eq_dec : EqDecision FileMetadata.
Proof. solve_decision. Defined.

Record VersionNode := mkVN {
  self_hash : Hash256; content_hash : Hash256; parents : list Hash256; vclock : VectorClock;
  timestamp_ns : N; kind : NodeKind; meta : FileMetadata
}.
#[export] Instance vnode_eq_dec : EqDecision VersionNode.
Proof. solve_decision. Defined.

(** The fields [self_hash] covers. *)
Record VersionNodeBody := mkBody {
  b_content_hash : Hash256; b_parents : list Hash256; b_vclock : VectorClock; b_timestamp_ns : N; b_kind : NodeKind; b_meta : FileMetadata
}.

(** BLAKE3 and the bincode form of a node body. *)
Class Hashing := { hash_of : bytes → Hash256; serialize_body : VersionNodeBody → bytes }.

Definition body_bytes `{!Hashing} (n : VersionNode) : bytes :=
  serialize_body (mkBody (content_hash n) (parents n) (vclock n) (timestamp_ns n) (kind n) (meta n)).

Definition compute_hash `{!Hashing} (n : VersionNode) : Hash256 := hash_of (body_bytes n).

Definition vnode_new `{!Hashing} (content : Hash256) (ps : list Hash256) (v : VectorClock) (ts : N) (k : NodeKind) (m : FileMetadata)
    : VersionNode :=
  let node := mkVN hash_zero content ps v ts k m in
  mkVN (compute_hash node) content ps v ts k m.

Definition verify `{!Hashing} (n : VersionNode) : bool := compute_hash n =? self_hash n.

Definition is_merge_node (n : VersionNode) : bool := (1 <? length (parents n))%nat.

Lemma vnode_new_verifies `{!Hashing} c ps v ts k m : verify (vnode_new c ps v ts k m) = true.
Proof. apply N.eqb_refl. Qed.

(** ** Round trips *)
Lemma length_be_bytes n x : length (be_bytes n x) = n.
Proof. unfold be_bytes. by rewrite length_rev, length_le_bytes. Qed.

Lemma of_be_bytes n x : x < 256 ^ N.of_nat n → of_be (be_bytes n x) = x.
Proof. intros Hx. unfold of_be, be_bytes. rewrite rev_involutive, of_le_le_bytes. by apply N.mod_small. Qed.

Lemma be_field_here n x r : x < 256 ^ N.of_nat n → field (be_bytes n x ++ r) 0 n = x.
Proof.
  intros Hx. unfold field. rewrite drop_0, take_app_le by (by rewrite length_be_bytes).
  rewrite take_ge by (by rewrite length_be_bytes). by apply of_be_bytes.
Qed.

Lemma be_field_skip k x r i n : (k ≤ i)%nat → field (be_bytes k x ++ r) i n = field r (i - k) n.
Proof.
  intros Hi. unfold field. rewrite drop_app, length_be_bytes, drop_ge by (rewrite length_be_bytes; lia). done.
Qed.

Definition desc_ok (d : ExtentDescriptor) : Prop :=
  content_hash_prefix d < two64 ∧ zone_id d < two32 ∧ offset_in_zone d < two32 ∧ dlength d < two32 ∧
  ecc_group_id d < 256 ∧ compression_type d < 256 ∧ dflags d < 65536.

Lemma desc_from_to d r : desc_ok d → desc_from_bytes (desc_to_bytes d ++ r) = Some d.
Proof.
  intros (H1 & H2 & H3 & H4 & H5 & H6 & H7). unfold desc_from_bytes.
  destruct (Nat.ltb_spec (length (desc_to_bytes d ++ r)) EXTENT_DESCRIPTOR_SIZE) as [Hl|_].
  { unfold desc_to_bytes, EXTENT_DESCRIPTOR_SIZE in Hl. rewrite !length_app, !length_be_bytes, length_replicate in Hl. lia. }
  unfold desc_to_bytes. rewrite <- !(assoc_L (++)).
  assert (two64 = 256 ^ N.of_nat 8 ∧ two32 = 256 ^ N.of_nat 4 ∧ 256 = 256 ^ N.of_nat 1 ∧ 65536 = 256 ^ N.of_nat 2) as (E8 & E4 & E1 & E2) by done.
  rewrite E8 in H1. rewrite E4 in H2, H3, H4. rewrite E1 in H5, H6. rewrite E2 in H7. clear E8 E4 E1 E2.
  repeat match goal with
  | |- context [field (be_bytes ?k ?x ++ ?r) 0 ?k] => rewrite (be_field_here k x r) by assumption
  | |- context [field (be_bytes ?k ?x ++ ?r) ?i ?n] => rewrite (be_field_skip k x r i n) by lia; cbn [Nat.sub]
  end. by destruct d.
Qed.

Lemma hex_pair b : hex_value (hex_digit (Byte.to_N b / 16)) = Some (Byte.to_N b / 16) ∧
  hex_value (hex_digit (Byte.to_N b mod 16)) = Some (Byte.to_N b mod 16).
Proof. destruct b; split; reflexivity. Qed.

Lemma from_hex_pairs_ok l : from_hex_pairs (concat (map hex_byte l)) = Some l.
Proof.
  induction l as [|b l IH]; [done|]. cbn [map concat hex_byte app from_hex_pairs].
  destruct (hex_pair b) as [-> ->]. rewrite IH. do 2 f_equal. rewrite <- (N.div_mod (Byte.to_N b) 16) by done. apply byte_of_to_N.
Qed.

Lemma from_to_hex h : h < 2 ^ 256 → from_hex (to_hex h) = Some h.
Proof.
  intros Hh. unfold from_hex, to_hex. assert (length (concat (map hex_byte (hash_bytes h))) = 64%nat) as ->.
  { assert (∀ l, length (concat (map hex_byte l)) = (2 * length l)%nat) as Hlen.
    { induction l as [|b l IH]; [done|]. cbn [map concat]. rewrite length_app, IH. cbn. lia. }
    rewrite Hlen. unfold hash_bytes. by rewrite length_be_bytes. }
  cbn [Nat.eqb]. rewrite from_hex_pairs_ok. change (Some (of_be (hash_bytes h)) = Some h). f_equal. by apply of_be_bytes.
Qed.

(** The printed forms lose nothing. A descriptor whose fields fit their
    widths is read back from the 32 bytes it was written to, whatever follows;
    a hash is read back from its 64 hexadecimal digits. *)
Theorem core_roundtrips (d : ExtentDescriptor) (r : bytes) (h : Hash256) :
  desc_ok d → h < 2 ^ 256 →
  length (desc_to_bytes d) = EXTENT_DESCRIPTOR_SIZE ∧ desc_from_bytes (desc_to_bytes d ++ r) = Some d ∧ from_hex (to_hex h) = Some h.
Proof.
  intros Hd Hh. split_and!; [|by apply desc_from_to|by apply from_to_hex].
  unfold desc_to_bytes. rewrite !length_app, !length_be_bytes, length_replicate. done.
Qed.

Lemma core_roundtrips_witness :
  desc_from_bytes (desc_to_bytes (mkDesc 1 2 3 4 5 1 7) ++ []) = Some (mkDesc 1 2 3 4 5 1 7) ∧ from_hex (to_hex 255) = Some 255.
Proof.
  destruct (core_roundtrips (mkDesc 1 2 3 4 5 1 7) [] 255) as (_ & H1 & H2); [by repeat split|done|]. split; [exact H1|exact H2].
Defined.
