(* ===== verification/Crdt.v ===== *)
(** * Merging divergent histories ([lionfs-cluster/src/crdt.rs])

    Ancestry of two heads, the merge of heads under a policy, and the
    three-way merge of chunk lists. The store is the [NodeStore] trait: a
    class with the laws its documentation gives. *)
From S2P Require Import Prelude Clocks ClusterCore.
From Stdlib Require Import NArith Lia Strings.Byte.
From stdpp Require Import base numbers gmap option list relations sorting.
#[local] Open Scope N_scope.

#[local] Abbreviation bytes := (list byte).

Inductive CrdtError := MissingNode (h : N) | DirectoryConflict.
Inductive MergePolicy := LastWriterWins | Manual | ChunkMerge.
Inductive Ancestry := AFirst | BFirst | Concurrent.
Record MergeOutcome := mkOutcome { head : N; conflicted : bool }.

(** The [NodeStore] trait, and what its users rely on: [put] files a node under
    its own hash and returns that hash; every other node stays. *)
Class NodeStore (S : Type) := { ns_get : S → N → option VersionNode; ns_put : S → VersionNode → N * S }.

Class NodeStoreLaws (S : Type) `{!NodeStore S} := {
  put_hash : ∀ (s : S) n, fst (ns_put s n) = self_hash n;
  get_put : ∀ (s : S) n, ns_get (snd (ns_put s n)) (self_hash n) = Some n;
  get_put_ne : ∀ (s : S) n h, h ≠ self_hash n → ns_get (snd (ns_put s n)) h = ns_get s h
}.

Lemma filter_none {A} (P : A → Prop) `{!∀ x, Decision (P x)} (l : list A) : (∀ x, x ∈ l → ¬ P x) → filter P l = [].
Proof. intros Hn. apply elem_of_nil_inv. intros x [H1 H2]%list_elem_of_filter. by apply (Hn x). Qed.

Lemma filter_every {A} (P : A → Prop) `{!∀ x, Decision (P x)} (l : list A) : (∀ x, x ∈ l → P x) → filter P l = l.
Proof.
  induction l as [|x l IH]; intros Ha; [done|]. rewrite filter_cons_True by (apply Ha; by left). rewrite IH; [done|].
  intros y Hy. apply Ha. by right.
Qed.

Section crdt.
Context {S : Type} `{!NodeStore S} `{!Hashing}.

(** The depth-first walk: [stack] is a [Vec] used from its end. [None] is out
    of fuel. *)
Fixpoint reaches_loop (fuel : nat) (s : S) (target : N) (stack : list N) (seen : gset N) : option (CrdtError + bool) :=
  match fuel with
  | O => None
  | Datatypes.S fuel =>
      match stack with
      | [] => Some (inr false)
      | cur :: stack =>
          if cur =? target then Some (inr true)
          else if decide (cur ∈ seen) then reaches_loop fuel s target stack seen
          else match ns_get s cur with
               | None => Some (inl (MissingNode cur))
               | Some node => reaches_loop fuel s target (rev (parents node) ++ stack) ({[cur]} ∪ seen)
               end
      end
  end.

Definition reaches (fuel : nat) (s : S) (from target : N) : option (CrdtError + bool) := reaches_loop fuel s target [from] ∅.

Definition ancestry (fuel : nat) (s : S) (a b : N) : option (CrdtError + Ancestry) :=
  if a =? b then Some (inr AFirst)
  else match ns_get s a, ns_get s b with
  | None, _ => Some (inl (MissingNode a))
  | _, None => Some (inl (MissingNode b))
  | Some node_a, Some node_b =>
      if happens_before_or_equal (vclock node_a) (vclock node_b) && happens_before_or_equal (vclock node_b) (vclock node_a)
      then Some (inr AFirst)
      else if happens_before_or_equal (vclock node_a) (vclock node_b) then Some (inr AFirst)
      else if happens_before_or_equal (vclock node_b) (vclock node_a) then Some (inr BFirst)
      else match reaches fuel s b a with
           | None => None
           | Some (inl e) => Some (inl e)
           | Some (inr true) => Some (inr AFirst)
           | Some (inr false) =>
               match reaches fuel s a b with
               | None => None
               | Some (inl e) => Some (inl e)
               | Some (inr true) => Some (inr BFirst)
               | Some (inr false) => Some (inr Concurrent)
               end
           end
  end.

(** The content of the merge node. *)
Definition resolve (policy : MergePolicy) (node_a node_b : VersionNode) : N :=
  match policy with
  | LastWriterWins =>
      let total_a := Clocks.total (vclock node_a) in
      let total_b := Clocks.total (vclock node_b) in
      if (total_a <? total_b) || ((total_b =? total_a) && (self_hash node_b <? self_hash node_a))
      then content_hash node_b else content_hash node_a
  | Manual => content_hash node_a
  | ChunkMerge => content_hash node_a
  end.

Definition merge_node (policy : MergePolicy) (a b : N) (node_a node_b : VersionNode) (now_ns local_node : N) : VersionNode :=
  vnode_new (resolve policy node_a node_b) (merge_sort N.le [a; b])
    (vc_increment local_node (vc_merge (vclock node_a) (vclock node_b))) now_ns (kind node_a) (meta node_a).

Definition merge_heads (fuel : nat) (a b : N) (policy : MergePolicy) (now_ns local_node : N) (s : S) : option ((CrdtError + MergeOutcome) * S) :=
  match ancestry fuel s a b with
  | None => None
  | Some (inl e) => Some (inl e, s)
  | Some (inr AFirst) => Some (inr (mkOutcome b false), s)
  | Some (inr BFirst) => Some (inr (mkOutcome a false), s)
  | Some (inr Concurrent) =>
      match ns_get s a, ns_get s b with
      | None, _ => Some (inl (MissingNode a), s)
      | _, None => Some (inl (MissingNode b), s)
      | Some node_a, Some node_b =>
          if bool_decide (kind node_a = KDirectory) || bool_decide (kind node_b = KDirectory) then Some (inl DirectoryConflict, s)
          else let '(h, s) := ns_put s (merge_node policy a b node_a node_b now_ns local_node) in
               Some (inr (mkOutcome h true), s)
      end
  end.

(** ** The three-way merge of chunks *)

(** [data.chunks(n)] for [n > 0]. *)
Fixpoint chunks (fuel n : nat) (data : bytes) : list bytes :=
  match fuel, data with
  | Datatypes.S fuel, _ :: _ => take n data :: chunks fuel n (drop n data)
  | _, _ => []
  end.

Definition chunk_list (data chunk : bytes) : list bytes :=
  match chunk with [] => [data] | _ => chunks (length data) (length chunk) data end.

Definition hashes (l : list bytes) : gset N := list_to_set (map hash_of l).

Definition merged_chunks (a o t : list bytes) : list bytes :=
  (filter (λ c, hash_of c ∉ hashes a) o) ++
  (filter (λ c, (hash_of c ∉ hashes a) ∧ (hash_of c ∉ hashes o)) t) ++
  (filter (λ c, hash_of c ∈ hashes o ∨ hash_of c ∈ hashes t) a).

Definition chunk_three_way_merge (ancestor ours theirs chunk : bytes) : bytes :=
  concat (merged_chunks (chunk_list ancestor chunk) (chunk_list ours chunk) (chunk_list theirs chunk)).

(** ** The walk *)
Definition parent_of (s : S) (h p : N) : Prop := ∃ n, ns_get s h = Some n ∧ p ∈ parents n.

Definition nparents (s : S) (h : N) : nat := match ns_get s h with Some n => length (parents n) | None => 0 end.

(** The parent links of the nodes in [D] the walk has not followed yet. *)
Definition pending (s : S) (D : list N) (seen : gset N) : nat := sum_list_with (nparents s) (filter (λ h, h ∉ seen) D).

Definition walk_fuel (s : S) (D : list N) : nat := 2 + sum_list_with (nparents s) D.

Lemma pending_mono s D seen cur : (pending s D ({[cur]} ∪ seen) ≤ pending s D seen)%nat.
Proof.
  unfold pending. induction D as [|h D IH]; [done|]. rewrite !filter_cons.
  repeat case_decide; cbn [sum_list_with]; set_solver by lia.
Qed.

Lemma pending_le s D seen : (pending s D seen ≤ sum_list_with (nparents s) D)%nat.
Proof. unfold pending. induction D as [|h D IH]; [done|]. rewrite filter_cons. case_decide; cbn [sum_list_with]; lia. Qed.

Lemma pending_visit s D seen cur :
  cur ∈ D → cur ∉ seen → (pending s D ({[cur]} ∪ seen) + nparents s cur ≤ pending s D seen)%nat.
Proof.
  intros Hin Hns. unfold pending in *. induction D as [|h D IH]; [by apply elem_of_nil in Hin|].
  pose proof (pending_mono s D seen cur) as Hm. unfold pending in Hm. rewrite !filter_cons.
  destruct (decide (h = cur)) as [->|Hne].
  - rewrite decide_False by set_solver. rewrite decide_True by done. cbn [sum_list_with]. lia.
  - apply elem_of_cons in Hin as [->|Hin]; [done|]. specialize (IH Hin).
    destruct (decide (h ∉ seen)).
    + rewrite decide_True by set_solver. cbn [sum_list_with]. lia.
    + rewrite decide_False by set_solver. done.
Qed.

(** What the walk keeps: everything on the stack is an ancestor of [from], and
    the nodes already followed lead only to followed or stacked ones. *)
Record walk_inv (s : S) (from target : N) (stack : list N) (seen : gset N) : Prop := {
  wi_reach : ∀ h, h ∈ stack → rtc (parent_of s) from h;
  wi_closed : ∀ h p, h ∈ seen → parent_of s h p → p ∈ seen ∨ p ∈ stack;
  wi_not : target ∉ seen;
  wi_from : from ∈ seen ∨ from ∈ stack
}.

Lemma walk_end s from target seen : walk_inv s from target [] seen → ¬ rtc (parent_of s) from target.
Proof.
  intros [_ Hc Hn Hf] Hr. destruct Hf as [Hf|Hf]; [|by apply elem_of_nil in Hf].
  induction Hr as [|x y z Hxy _ IH]; [done|]. apply IH; [done|].
  destruct (Hc _ _ Hf Hxy) as [|Hy]; [done|by apply elem_of_nil in Hy].
Qed.

Lemma walk_step s from target cur stack seen node :
  cur ≠ target → ns_get s cur = Some node →
  walk_inv s from target (cur :: stack) seen → walk_inv s from target (rev (parents node) ++ stack) ({[cur]} ∪ seen).
Proof.
  intros Hne Hg [Hr Hc Hn Hf].
  assert (∀ p, p ∈ rev (parents node) ↔ p ∈ parents node) as Hrev.
  { intros p. by rewrite list_elem_of_In, <- in_rev, <- list_elem_of_In. }
  constructor.
  - intros h [Hin|Hin]%elem_of_app; [|apply Hr; by right].
    apply Hrev in Hin. eapply rtc_r; [apply Hr; by left|]. by exists node.
  - intros h p Hh Hp. rewrite elem_of_app, Hrev. destruct (decide (h = cur)) as [->|Hx].
    + destruct Hp as (n & Hn' & Hin). simplify_eq. auto.
    + assert (h ∈ seen) as Hs by set_solver. destruct (Hc _ _ Hs Hp) as [|[->|]%elem_of_cons]; set_solver.
  - set_solver.
  - rewrite elem_of_app. destruct Hf as [|[->|]%elem_of_cons]; set_solver.
Qed.

Lemma walk_skip s from target cur stack seen :
  cur ∈ seen → walk_inv s from target (cur :: stack) seen → walk_inv s from target stack seen.
Proof.
  intros Hs [Hr Hc Hn Hf]. constructor; [|intros h p Hh Hp|done|].
  - intros h Hh. apply Hr. by right.
  - destruct (Hc _ _ Hh Hp) as [|[->|]%elem_of_cons]; auto.
  - destruct Hf as [|[->|]%elem_of_cons]; auto.
Qed.

(** Everything [from] descends from is stored, among the nodes of [D]. *)
Definition history (s : S) (D : list N) (from : N) : Prop :=
  ∀ h, rtc (parent_of s) from h → h ∈ D ∧ is_Some (ns_get s h).

Lemma reaches_loop_ok s D from target fuel : history s D from → ∀ stack seen,
  walk_inv s from target stack seen → (length stack + pending s D seen < fuel)%nat →
  ∃ r, reaches_loop fuel s target stack seen = Some (inr r) ∧ (r = true ↔ rtc (parent_of s) from target).
Proof.
  intros Hh. induction fuel as [|fuel IH]; intros stack seen Hi Hf; [lia|]. cbn [reaches_loop].
  destruct stack as [|cur stack].
  { exists false. split; [done|]. split; [done|]. intros Hr. by destruct (walk_end _ _ _ _ Hi). }
  destruct (N.eqb_spec cur target) as [->|Hne].
  { exists true. split; [done|]. split; [|done]. intros _. apply (wi_reach _ _ _ _ _ Hi). by left. }
  cbn [length] in Hf. destruct (decide (cur ∈ seen)) as [Hs|Hs].
  { apply IH; [by eapply walk_skip|lia]. }
  destruct (Hh cur) as [Hin [node Hg]]; [apply (wi_reach _ _ _ _ _ Hi); by left|]. rewrite Hg.
  apply IH; [by eapply walk_step|]. pose proof (pending_visit s D seen cur Hin Hs) as Hp.
  unfold nparents in Hp. rewrite Hg in Hp. rewrite length_app, length_rev. lia.
Qed.

Lemma reaches_ok s D from target fuel : history s D from → (walk_fuel s D ≤ fuel)%nat →
  ∃ r, reaches fuel s from target = Some (inr r) ∧ (r = true ↔ rtc (parent_of s) from target).
Proof.
  intros Hh Hf. apply reaches_loop_ok with D; [done| |].
  - constructor; set_solver by apply rtc_refl.
  - pose proof (pending_le s D ∅). unfold walk_fuel in Hf. cbn [length]. lia.
Qed.

(** ** Merging heads *)

(** A well-formed store: a node is filed under its hash, the hash is the hash
    of its body, and its parents are stored with clocks it has seen. *)
Definition wf_store (s : S) : Prop := ∀ h n, ns_get s h = Some n →
  self_hash n = h ∧ verify n = true ∧
  ∀ p, p ∈ parents n → ∃ np, ns_get s p = Some np ∧ happens_before_or_equal (vclock np) (vclock n) = true.

Definition same_clock (x y : VersionNode) : Prop := vc_partial_cmp (vclock x) (vclock y) = Some Eq.

Lemma hb_refl v : happens_before_or_equal v v = true.
Proof. apply happens_before_spec. intros n. lia. Qed.

Lemma hb_trans u v w : happens_before_or_equal u v = true → happens_before_or_equal v w = true → happens_before_or_equal u w = true.
Proof. rewrite !happens_before_spec. intros H1 H2 n. specialize (H1 n). specialize (H2 n). lia. Qed.

Lemma ancestor_clock s x y nx ny : wf_store s → rtc (parent_of s) x y → ns_get s x = Some nx → ns_get s y = Some ny →
  happens_before_or_equal (vclock ny) (vclock nx) = true.
Proof.
  intros Hw Hr. revert nx. induction Hr as [x|x z y (n & Hn & Hin) _ IH]; intros nx Hx Hy; simplify_eq; [apply hb_refl|].
  destruct (Hw _ _ Hn) as (_ & _ & Hp). destruct (Hp _ Hin) as (nz & Hz & Hle). by eapply hb_trans; [apply IH|].
Qed.

Lemma vc_merge_lookup u v n : vc_merge u v !! n = union_with (λ x y, Some (N.max x y)) (u !! n) (v !! n).
Proof.
  unfold vc_merge. induction v as [|k c m Hk Hf IH] using map_first_key_ind.
  - rewrite map_fold_empty, lookup_empty. by destruct (u !! n).
  - rewrite map_fold_insert_first_key by done. destruct (decide (n = k)) as [->|Hne].
    + rewrite !lookup_insert_eq. rewrite IH, Hk. destruct (u !! k); cbn; f_equal; lia.
    + by rewrite !lookup_insert_ne by done.
Qed.

Lemma vc_merge_comm u v : vc_merge u v = vc_merge v u.
Proof.
  apply map_eq. intros n. rewrite !vc_merge_lookup.
  destruct (u !! n), (v !! n); cbn; try done. f_equal. lia.
Qed.

(** The clock comparison of [ancestry], once both nodes are found. *)
Lemma ancestry_cases s D fuel a b na nb :
  wf_store s → history s D a → history s D b → (walk_fuel s D ≤ fuel)%nat → a ≠ b → ns_get s a = Some na → ns_get s b = Some nb →
  ancestry fuel s a b = Some (inr match vc_partial_cmp (vclock na) (vclock nb) with
                                  | Some Eq | Some Lt => AFirst
                                  | Some Gt => BFirst
                                  | None => Concurrent
                                  end).
Proof.
  intros Hw Ha Hb Hf Hne Ea Eb. unfold ancestry, vc_partial_cmp. rewrite (proj2 (N.eqb_neq a b) Hne), Ea, Eb.
  destruct (happens_before_or_equal (vclock na) (vclock nb)) eqn:E1, (happens_before_or_equal (vclock nb) (vclock na)) eqn:E2; try done.
  cbn [andb]. destruct (reaches_ok s D b a fuel Hb Hf) as (r1 & -> & H1). destruct (reaches_ok s D a b fuel Ha Hf) as (r2 & -> & H2).
  destruct r1; [|destruct r2; [|done]].
  - rewrite (ancestor_clock s b a nb na) in E1; [done|done|by apply H1|done|done].
  - rewrite (ancestor_clock s a b na nb) in E2; [done|done|by apply H2|done|done].
Qed.

Lemma vc_partial_cmp_sym u v : vc_partial_cmp v u = CompOpp <$> vc_partial_cmp u v.
Proof. unfold vc_partial_cmp. by destruct (happens_before_or_equal u v), (happens_before_or_equal v u). Qed.

Lemma resolve_comm na nb : self_hash na ≠ self_hash nb → resolve LastWriterWins na nb = resolve LastWriterWins nb na.
Proof.
  intros Hne. unfold resolve. generalize (Clocks.total (vclock na)) (Clocks.total (vclock nb)). intros x y.
  destruct (N.ltb_spec x y), (N.ltb_spec y x), (N.eqb_spec y x), (N.eqb_spec x y), (N.ltb_spec (self_hash nb) (self_hash na)),
    (N.ltb_spec (self_hash na) (self_hash nb)); cbn; try done; try lia.
Qed.

Lemma merge_sort_comm a b : merge_sort N.le [a; b] = merge_sort N.le [b; a].
Proof.
  apply (Sorted_unique N.le); [apply (Sorted_merge_sort _)..|]. rewrite !merge_sort_Permutation. apply Permutation_swap.
Qed.

(** C22: on replicas that hold the same history, merging [a] with [b] and [b]
    with [a] under last-writer-wins gives the same head and the same store,
    errors included, when the heads carry the same kind and metadata and their
    clocks differ. *)
Theorem merge_heads_comm (s : S) (D : list N) (fuel : nat) (a b now_ns local_node : N) (na nb : VersionNode) :
  wf_store s → history s D a → history s D b → (walk_fuel s D ≤ fuel)%nat →
  ns_get s a = Some na → ns_get s b = Some nb → kind na = kind nb → meta na = meta nb → ¬ same_clock na nb →
  merge_heads fuel a b LastWriterWins now_ns local_node s = merge_heads fuel b a LastWriterWins now_ns local_node s ∧
  is_Some (merge_heads fuel a b LastWriterWins now_ns local_node s).
Proof.
  intros Hw Ha Hb Hf Ea Eb Hk Hm Hc.
  assert (a ≠ b) as Hne. { intros ->. simplify_eq. apply Hc. unfold same_clock, vc_partial_cmp. by rewrite hb_refl. }
  unfold merge_heads. rewrite (ancestry_cases s D fuel a b na nb), (ancestry_cases s D fuel b a nb na), (vc_partial_cmp_sym (vclock na) (vclock nb)) by done.
  unfold same_clock in Hc. destruct (vc_partial_cmp (vclock na) (vclock nb)) as [[| |]|]; cbn [CompOpp fmap option_fmap option_map];
    [done|split; eauto|split; eauto|].
  rewrite Ea, Eb, (orb_comm (bool_decide (kind nb = _))).
  destruct (_ || _); [split; eauto|].
  assert (merge_node LastWriterWins a b na nb now_ns local_node = merge_node LastWriterWins b a nb na now_ns local_node) as ->.
  { unfold merge_node. rewrite Hk, Hm, (vc_merge_comm (vclock na)), (merge_sort_comm a), (resolve_comm na); [done|].
    destruct (Hw _ _ Ea) as [-> _], (Hw _ _ Eb) as [-> _]. done. }
  destruct (ns_put _ _). split; eauto.
Qed.

Context `{!NodeStoreLaws S}.

(** No other stored node has the hash of [m]. *)
Definition no_collision (s : S) (m : VersionNode) : Prop := ∀ n, ns_get s (self_hash m) = Some n → n = m.

Lemma put_keeps s m h n : no_collision s m → ns_get s h = Some n → ns_get (snd (ns_put s m)) h = Some n.
Proof.
  intros Hc Hg. destruct (decide (h = self_hash m)) as [->|Hne]; [|by rewrite get_put_ne].
  rewrite get_put. f_equal. symmetry. by apply Hc.
Qed.

Lemma put_wf s m : wf_store s → verify m = true → no_collision s m →
  (∀ p, p ∈ parents m → ∃ np, ns_get s p = Some np ∧ happens_before_or_equal (vclock np) (vclock m) = true) →
  wf_store (snd (ns_put s m)).
Proof.
  intros Hw Hv Hc Hp h n Hn. destruct (decide (h = self_hash m)) as [->|Hne].
  - rewrite get_put in Hn. simplify_eq. split_and!; [done..|]. intros p Hin. destruct (Hp p Hin) as (np & Hg & Hle).
    exists np. split; [by apply put_keeps|done].
  - rewrite get_put_ne in Hn by done. destruct (Hw _ _ Hn) as (H1 & H2 & H3). split_and!; [done..|].
    intros p Hin. destruct (H3 p Hin) as (np & Hg & Hle). exists np. split; [by apply put_keeps|done].
Qed.

(** Merging a head with one it has already seen changes nothing. *)
Lemma merge_absorbs s fuel x y policy now_ns local_node nx ny :
  ns_get s x = Some nx → ns_get s y = Some ny → x = y ∨ vc_partial_cmp (vclock nx) (vclock ny) = Some Gt →
  merge_heads fuel x y policy now_ns local_node s = Some (inr (mkOutcome x false), s).
Proof.
  intros Hx Hy Hor. unfold merge_heads, ancestry. destruct (N.eqb_spec x y) as [->|Hne]; [done|].
  destruct Hor as [|Hgt]; [done|]. rewrite Hx, Hy. unfold vc_partial_cmp in Hgt.
  by destruct (happens_before_or_equal (vclock nx) (vclock ny)), (happens_before_or_equal (vclock ny) (vclock nx)).
Qed.

Lemma merged_clock_above u v x local_node :
  vc_at (vc_merge u v) local_node + 1 < two64 → happens_before_or_equal x (vc_merge u v) = true →
  vc_partial_cmp (vc_increment local_node (vc_merge u v)) x = Some Gt.
Proof.
  intros Hs Hx. rewrite happens_before_spec in Hx. unfold vc_partial_cmp.
  rewrite (proj2 (happens_before_spec x _)).
  - destruct (happens_before_or_equal _ x) eqn:E; [|done]. rewrite happens_before_spec in E. specialize (E local_node).
    rewrite vc_increment_at, decide_True in E by done. specialize (Hx local_node). lia.
  - intros n. rewrite vc_increment_at by done. specialize (Hx n). destruct (decide _); lia.
Qed.

Lemma hb_merge_l u v : happens_before_or_equal u (vc_merge u v) = true.
Proof. apply happens_before_spec. intros n. rewrite vc_merge_at. lia. Qed.

Lemma hb_merge_r u v : happens_before_or_equal v (vc_merge u v) = true.
Proof. rewrite vc_merge_comm. apply hb_merge_l. Qed.

Lemma cmp_gt_hb u v : vc_partial_cmp u v = Some Gt → happens_before_or_equal v u = true.
Proof. unfold vc_partial_cmp. by destruct (happens_before_or_equal u v), (happens_before_or_equal v u). Qed.

(** [x] is a head of [s] that has seen [na] and [nb], and merging it again with
    either of them gives it back. *)
Definition joined (s : S) (x a b : N) (na nb : VersionNode) : Prop := ∃ n, ns_get s x = Some n ∧
  happens_before_or_equal (vclock na) (vclock n) = true ∧ happens_before_or_equal (vclock nb) (vclock n) = true ∧
  ∀ fuel policy now_ns local_node y, y ∈ [a; b] →
    merge_heads fuel x y policy now_ns local_node s = Some (inr (mkOutcome x false), s).

Lemma joined_intro s x a b nx na nb :
  ns_get s x = Some nx → ns_get s a = Some na → ns_get s b = Some nb →
  (x = a ∨ vc_partial_cmp (vclock nx) (vclock na) = Some Gt) → (x = b ∨ vc_partial_cmp (vclock nx) (vclock nb) = Some Gt) →
  joined s x a b na nb.
Proof.
  intros Hx Ha Hb Hxa Hxb. exists nx. split_and!; [done|..].
  - destruct Hxa as [->|?]; [simplify_eq; apply hb_refl|by apply cmp_gt_hb].
  - destruct Hxb as [->|?]; [simplify_eq; apply hb_refl|by apply cmp_gt_hb].
  - intros fuel policy now_ns local_node y [->|[->|[]%elem_of_nil]%elem_of_cons]%elem_of_cons; by eapply merge_absorbs.
Qed.

Lemma merge_node_joined s a b policy now_ns local_node na nb (m := merge_node policy a b na nb now_ns local_node) :
  wf_store s → ns_get s a = Some na → ns_get s b = Some nb →
  vc_at (vc_merge (vclock na) (vclock nb)) local_node + 1 < two64 → no_collision s m →
  wf_store (snd (ns_put s m)) ∧ joined (snd (ns_put s m)) (self_hash m) a b na nb.
Proof.
  intros Hw Ea Eb Hs Hc. split.
  - apply put_wf; [done|apply vnode_new_verifies|done|]. intros p Hp. cbn [m merge_node vnode_new parents] in Hp.
    rewrite merge_sort_Permutation in Hp. cbn [m merge_node vnode_new vclock].
    apply elem_of_cons in Hp as [->|[->|[]%elem_of_nil]%elem_of_cons].
    + exists na. split; [done|]. apply cmp_gt_hb, merged_clock_above; [done|apply hb_merge_l].
    + exists nb. split; [done|]. apply cmp_gt_hb, merged_clock_above; [done|apply hb_merge_r].
  - apply (joined_intro _ _ _ _ m); [apply get_put|by apply put_keeps..| |]; right; apply merged_clock_above; auto using hb_merge_l, hb_merge_r.
Qed.


(** The merge node takes its kind and metadata from the first argument, so
    two replicas that merge the same pair of concurrent heads in opposite
    orders get different heads whenever the two files differ in metadata. *)
Theorem merge_metadata_diverges (s : S) (D : list N) (fuel : nat) (a b : N) (policy : MergePolicy) (now_ns local_node : N) (na nb : VersionNode) :
  wf_store s → history s D a → history s D b → (walk_fuel s D ≤ fuel)%nat → a ≠ b →
  ns_get s a = Some na → ns_get s b = Some nb → vc_partial_cmp (vclock na) (vclock nb) = None →
  kind na ≠ KDirectory → kind nb ≠ KDirectory → meta na ≠ meta nb →
  (self_hash (merge_node policy a b na nb now_ns local_node) = self_hash (merge_node policy b a nb na now_ns local_node) →
   meta (merge_node policy a b na nb now_ns local_node) = meta (merge_node policy b a nb na now_ns local_node)) →
  ∃ o1 o2 s1 s2, merge_heads fuel a b policy now_ns local_node s = Some (inr o1, s1) ∧
    merge_heads fuel b a policy now_ns local_node s = Some (inr o2, s2) ∧ head o1 ≠ head o2.
Proof.
  intros Hw Ha Hb Hf Hne Ea Eb Hc Hka Hkb Hm Hinj. unfold merge_heads.
  rewrite (ancestry_cases s D fuel a b na nb), (ancestry_cases s D fuel b a nb na), (vc_partial_cmp_sym (vclock na) (vclock nb)), Hc by done.
  cbn [fmap option_fmap option_map]. rewrite Ea, Eb, !(bool_decide_false _ Hka), !(bool_decide_false _ Hkb). cbn [orb].
  pose proof (put_hash s (merge_node policy a b na nb now_ns local_node)) as H1.
  pose proof (put_hash s (merge_node policy b a nb na now_ns local_node)) as H2.
  destruct (ns_put s (merge_node policy a b na nb now_ns local_node)) as [h1 s1], (ns_put s (merge_node policy b a nb na now_ns local_node)) as [h2 s2].
  cbn [fst] in H1, H2. do 4 eexists. split_and!; [done..|]. cbn [head]. rewrite H1, H2. intros He. apply Hm. exact (Hinj He).
Qed.

(** Two different heads with equal clocks are taken for one node: each order
    of the arguments returns the second one and drops the other, without a
    conflict. *)
Theorem equal_clocks_drop_a_head (s : S) (fuel : nat) (a b : N) (policy : MergePolicy) (now_ns local_node : N) (na nb : VersionNode) :
  a ≠ b → ns_get s a = Some na → ns_get s b = Some nb → same_clock na nb →
  merge_heads fuel a b policy now_ns local_node s = Some (inr (mkOutcome b false), s) ∧
  merge_heads fuel b a policy now_ns local_node s = Some (inr (mkOutcome a false), s).
Proof.
  intros Hne Ea Eb Hc. unfold same_clock, vc_partial_cmp in Hc. unfold merge_heads, ancestry.
  rewrite (proj2 (N.eqb_neq a b) Hne), (proj2 (N.eqb_neq b a)), Ea, Eb by auto.
  by destruct (happens_before_or_equal (vclock na) (vclock nb)), (happens_before_or_equal (vclock nb) (vclock na)).
Qed.

(** ** Three-way merges *)
Lemma chunks_concat n data : (0 < n)%nat → ∀ fuel, (length data ≤ fuel)%nat → concat (chunks fuel n data) = data.
Proof.
  intros Hn fuel. revert data. induction fuel as [|fuel IH]; intros [|x data] Hl; cbn [length] in Hl; try done; [lia|].
  cbn [chunks concat]. rewrite IH; [apply take_drop|]. rewrite length_drop. cbn [length]. lia.
Qed.

Lemma chunk_list_concat data chunk : concat (chunk_list data chunk) = data.
Proof. destruct chunk as [|x chunk]; [apply app_nil_r|]. apply chunks_concat; cbn [length]; lia. Qed.

Lemma chunks_fuel n data : (0 < n)%nat → ∀ f1 f2, (length data ≤ f1)%nat → (length data ≤ f2)%nat → chunks f1 n data = chunks f2 n data.
Proof.
  intros Hn f1. revert data. induction f1 as [|f1 IH]; intros [|x data] [|f2] H1 H2; cbn [length] in *; try done; try lia.
  cbn [chunks]. f_equal. apply IH; rewrite length_drop; cbn [length]; lia.
Qed.

Lemma chunks_app n a b : (0 < n)%nat → ∀ k fuel, length a = (k * n)%nat → (length a + length b ≤ fuel)%nat →
  chunks fuel n (a ++ b) = chunks (length a) n a ++ chunks (length b) n b.
Proof.
  intros Hn k fuel. revert a k. induction fuel as [|fuel IH]; intros a k Hk Hl.
  { destruct a, b; cbn [length] in Hl; try lia. done. }
  destruct a as [|x a]; [by apply chunks_fuel|]. destruct k as [|k]; [done|].
  assert (length (drop n (x :: a)) = (k * n)%nat) as Hd by (rewrite length_drop; lia).
  cbn [chunks app length]. rewrite app_comm_cons. rewrite drop_app_le, take_app_le by lia.
  rewrite (IH (drop n (x :: a)) k Hd) by (rewrite Hd; cbn [length] in *; lia). f_equal. cbn [app]. f_equal. apply chunks_fuel; [done|done|].
  rewrite length_drop. cbn [length]. lia.
Qed.

Lemma chunk_list_app a b chunk : chunk ≠ [] → (length a mod length chunk = 0)%nat →
  chunk_list (a ++ b) chunk = chunk_list a chunk ++ chunk_list b chunk.
Proof.
  intros Hc Hm. destruct chunk as [|x chunk]; [done|]. set (n := length (x :: chunk)) in *. unfold chunk_list. fold n.
  assert (0 < n)%nat as Hn by (unfold n; cbn [length]; lia).
  apply (chunks_app n a b Hn (length a / n)).
  - rewrite Nat.mul_comm. by apply Nat.Div0.div_exact.
  - rewrite length_app. lia.
Qed.

Lemma elem_of_hashes h l : h ∈ hashes l ↔ ∃ c, c ∈ l ∧ hash_of c = h.
Proof.
  unfold hashes. rewrite elem_of_list_to_set, list_elem_of_In, in_map_iff.
  split; intros (c & H1 & H2); exists c; [by rewrite list_elem_of_In|by rewrite <- list_elem_of_In].
Qed.

Lemma hashes_mem c l : c ∈ l → hash_of c ∈ hashes l.
Proof. intros Hin. apply elem_of_hashes. by exists c. Qed.

Lemma merged_chunks_keep a o t c :
  (∀ c', c' ∈ a ++ o → hash_of c' = hash_of c → c' = c) → c ∈ o ++ t → c ∈ merged_chunks a o t.
Proof.
  intros Hinj Hin. unfold merged_chunks. rewrite !elem_of_app, !list_elem_of_filter.
  destruct (decide (hash_of c ∈ hashes a)) as [Ha|Ha].
  - apply elem_of_hashes in Ha as (c' & Hc' & Hh). rewrite (Hinj c') in Hc'; [|set_solver|done]. right; right. split; [|done].
    apply elem_of_app in Hin as [Hin|Hin]; [left|right]; by apply hashes_mem.
  - destruct (decide (hash_of c ∈ hashes o)) as [Ho|Ho].
    + apply elem_of_hashes in Ho as (c' & Hc' & Hh). rewrite (Hinj c') in Hc'; [|set_solver|done]. by left.
    + right; left. split; [by split|]. apply elem_of_app in Hin as [Hin|Hin]; [|done]. by destruct Ho; apply hashes_mem.
Qed.

Lemma concat_mem (c : bytes) l : c ∈ l → ∃ p q, concat l = p ++ c ++ q.
Proof. intros (l1 & l2 & ->)%list_elem_of_split. exists (concat l1), (concat l2). by rewrite concat_app. Qed.

(** The three-way merge discards nothing either side has: every chunk of
    ours and of theirs occurs in the result, if no two of the chunks at hand
    collide; with no change on either side the result is the ancestor. *)
Theorem chunk_merge_keeps_both (ancestor ours theirs chunk : bytes) :
  (∀ c c', c ∈ chunk_list ours chunk ++ chunk_list theirs chunk → c' ∈ chunk_list ancestor chunk ++ chunk_list ours chunk →
     hash_of c' = hash_of c → c' = c) →
  (∀ c, c ∈ chunk_list ours chunk ++ chunk_list theirs chunk → ∃ p q, chunk_three_way_merge ancestor ours theirs chunk = p ++ c ++ q) ∧
  chunk_three_way_merge ancestor ancestor ancestor chunk = ancestor.
Proof.
  intros Hinj. split.
  - intros c Hc. apply concat_mem, merged_chunks_keep; [|done]. intros c' Hc' Hh. by apply (Hinj c c').
  - unfold chunk_three_way_merge, merged_chunks. set (a := chunk_list ancestor chunk).
    rewrite (filter_none _ a), (filter_none _ a), (filter_every _ a); [apply chunk_list_concat|..].
    + intros x Hx. left. by apply hashes_mem.
    + intros x Hx [Hn _]. by apply Hn, hashes_mem.
    + intros x Hx Hn. by apply Hn, hashes_mem.
Qed.

(** An appended chunk is moved to the front: when ours appends [c] to the
    ancestor and theirs is unchanged, the merge is [c] followed by the
    ancestor. *)
Theorem chunk_merge_moves_appends (ancestor c chunk : bytes) :
  chunk ≠ [] → (length ancestor mod length chunk = 0)%nat →
  (∀ x, x ∈ chunk_list c chunk → hash_of x ∉ hashes (chunk_list ancestor chunk)) →
  chunk_three_way_merge ancestor (ancestor ++ c) ancestor chunk = c ++ ancestor.
Proof.
  intros Hc Hm Hnew. unfold chunk_three_way_merge, merged_chunks. rewrite chunk_list_app by done.
  set (a := chunk_list ancestor chunk). set (o := chunk_list c chunk). rewrite filter_app, (filter_none _ a), (filter_every _ o); [|done|].
  - rewrite (filter_none _ a), (filter_every _ a).
    + cbn [app]. rewrite concat_app. unfold a, o. by rewrite !chunk_list_concat.
    + intros x Hx. right. by apply hashes_mem.
    + intros x Hx [Hn _]. by apply Hn, hashes_mem.
  - intros x Hx Hn. by apply Hn, hashes_mem.
Qed.

End crdt.

(** ** A store in memory *)
Definition map_put (s : gmap N VersionNode) (n : VersionNode) : N * gmap N VersionNode := (self_hash n, <[self_hash n := n]> s).

#[export] Instance map_store : NodeStore (gmap N VersionNode) := {| ns_get s h := s !! h; ns_put := map_put |}.

#[export] Instance map_store_laws : NodeStoreLaws (gmap N VersionNode).
Proof.
  constructor; [done|..]; intros s n; cbn [ns_get ns_put map_store map_put snd]; [by rewrite lookup_insert_eq|].
  intros h Hh. by rewrite lookup_insert_ne.
Qed.

Section checks.
Context `{!Hashing}.

Definition node_check (s : gmap N VersionNode) (h : N) (n : VersionNode) : bool :=
  (self_hash n =? h) && verify n &&
  forallb (λ p, match s !! p with Some np => happens_before_or_equal (vclock np) (vclock n) | None => false end) (parents n).

Definition wf_check (s : gmap N VersionNode) : bool := forallb (λ '(h, n), node_check s h n) (map_to_list s).

Lemma wf_check_ok s : wf_check s = true → wf_store s ∧ ∀ h, h ∈ dom s → history s (elements (dom s)) h.
Proof.
  unfold wf_check. rewrite forallb_forall. intros Hall.
  assert (wf_store s) as Hw.
  { intros h n Hn. specialize (Hall (h, n)). cbn in Hall. change (s !! h = Some n) in Hn. apply elem_of_map_to_list, list_elem_of_In, Hall in Hn. unfold node_check in Hn.
    apply andb_prop in Hn as [[H1%N.eqb_eq H2]%andb_prop H3]. rewrite forallb_forall in H3. split_and!; [done..|].
    intros p Hp%list_elem_of_In%H3. unfold ns_get, map_store. destruct (s !! p) as [np|]; [|done]. by exists np. }
  split; [done|]. intros h Hh x Hr. enough (x ∈ dom s) as Hx. { rewrite elem_of_elements. split; [done|]. by apply elem_of_dom in Hx. }
  induction Hr as [|x y z (n & Hn & Hin) _ IH]; [done|]. apply IH. destruct (Hw _ _ Hn) as (_ & _ & Hp). destruct (Hp _ Hin) as (ny & Hy & _).
  apply elem_of_dom. by exists ny.
Qed.

End checks.

(** ** Witnesses *)

(** Three nodes: a base and two edits of it by nodes 2 and 3. *)
#[local] Instance test_hashing : Hashing := {|
  hash_of l := of_le (l ++ [x01]);
  serialize_body b := le_bytes 2 (b_content_hash b) ++ le_bytes 2 (permissions (b_meta b)) ++ le_bytes 1 (N.of_nat (length (b_parents b)))
|}.

Definition test_base : VersionNode := vnode_new 10 [] {[1 := 1]} 5 KFile meta_default.
Definition test_left : VersionNode := vnode_new 11 [self_hash test_base] {[1 := 1; 2 := 2]} 6 KFile meta_default.
Definition test_right (perm : N) : VersionNode := vnode_new 12 [self_hash test_base] {[1 := 1; 3 := 2]} 7 KFile (mkMeta 0 0 perm ∅).
Definition test_store (perm : N) : gmap N VersionNode :=
  {[self_hash test_base := test_base; self_hash test_left := test_left; self_hash (test_right perm) := test_right perm]}.

Lemma test_store_ok perm : wf_check (test_store perm) = true →
  wf_store (test_store perm) ∧ history (test_store perm) (elements (dom (test_store perm))) (self_hash test_left) ∧
  history (test_store perm) (elements (dom (test_store perm))) (self_hash (test_right perm)).
Proof. intros [Hw Hh]%wf_check_ok. split_and!; [done|apply Hh; set_solver..]. Qed.

Lemma merge_heads_comm_witness :
  merge_heads 10 (self_hash test_left) (self_hash (test_right 0)) LastWriterWins 9 7 (test_store 0) =
  merge_heads 10 (self_hash (test_right 0)) (self_hash test_left) LastWriterWins 9 7 (test_store 0).
Proof.
  destruct (test_store_ok 0) as (Hw & Hl & Hr); [vm_compute; reflexivity|].
  refine (proj1 (merge_heads_comm (test_store 0) _ 10 _ _ 9 7 test_left (test_right 0) Hw Hl Hr _ _ _ _ _ _)).
  - vm_compute. lia.
  - vm_compute. reflexivity.
  - vm_compute. reflexivity.
  - reflexivity.
  - reflexivity.
  - vm_compute. discriminate.
Defined.


Lemma merge_metadata_diverges_witness :
  ∃ o1 o2 s1 s2, merge_heads 10 (self_hash test_left) (self_hash (test_right 7)) LastWriterWins 9 7 (test_store 7) = Some (inr o1, s1) ∧
    merge_heads 10 (self_hash (test_right 7)) (self_hash test_left) LastWriterWins 9 7 (test_store 7) = Some (inr o2, s2) ∧ head o1 ≠ head o2.
Proof.
  destruct (test_store_ok 7) as (Hw & Hl & Hr); [vm_compute; reflexivity|].
  refine (merge_metadata_diverges (test_store 7) _ 10 _ _ LastWriterWins 9 7 test_left (test_right 7) Hw Hl Hr _ _ _ _ _ _ _ _ _).
  - vm_compute. lia.
  - vm_compute. discriminate.
  - vm_compute. reflexivity.
  - vm_compute. reflexivity.
  - vm_compute. reflexivity.
  - discriminate.
  - discriminate.
  - vm_compute. discriminate.
  - vm_compute. discriminate.
Defined.

Lemma chunk_merge_keeps_both_witness :
  let a := [x01; x02] in let o := [x01; x03] in let t := [x04; x02] in
  (∀ c, c ∈ [[x01]; [x03]; [x04]; [x02]] → ∃ p q, chunk_three_way_merge a o t [x00] = p ++ c ++ q) ∧
  chunk_three_way_merge a a a [x00] = a.
Proof.
  refine (chunk_merge_keeps_both [x01; x02] [x01; x03] [x04; x02] [x00] _).
  intros c c' Hc Hc' Hh. rewrite list_elem_of_In in Hc, Hc'. cbn in Hc, Hc'.
  repeat destruct Hc as [<-|Hc]; try contradiction; repeat destruct Hc' as [<-|Hc']; try contradiction; vm_compute in Hh; done.
Defined.
