(* ===== verification/Crypto.v ===== *)
(** * Keys and capability tokens of the cluster ([lionfs-cluster/src/crypto.rs])

    The key tree with its convergent extent keys, and the macaroon tokens with
    their chained signatures. HKDF, the two AEAD ciphers and HMAC are
    arguments; strings are their bytes. The theorems: what is encrypted for a
    domain and a content hash decrypts there, and a signature vouches for the
    identifier and every caveat of a token. *)
From S2P Require Import Prelude ClusterCore.
From Stdlib Require Import NArith Lia Strings.Byte Strings.String Strings.Ascii.
From stdpp Require Import base numbers option list strings pretty.
#[local] Open Scope N_scope.

#[local] Abbreviation bytes := (list byte).

(** The texts of rejections, as constructors. *)
Inductive Rejection := BadSignature | OutsidePrefix (path prefix : string) | TokenExpired.

Inductive Op := Read | Write | Admin.
#[export] Instance op_eq_dec : EqDecision Op.
Proof. solve_decision. Defined.

Inductive CryptoError := Encryption | Decryption | MacaroonRejected (why : Rejection) | OpRejected (op : Op).

Inductive Cipher := Aes256Gcm | ChaCha20Poly1305.

(** HKDF-SHA256 without salt (32 bytes out), AES-256-GCM and
    ChaCha20-Poly1305 by key, nonce, associated data and message, and
    HMAC-SHA256. *)
Class CryptoPrims := {
  hkdf : bytes → bytes → bytes;
  aead_seal : Cipher → bytes → bytes → bytes → bytes → option bytes;
  aead_open : Cipher → bytes → bytes → bytes → bytes → option bytes;
  hmac : bytes → bytes → bytes
}.

(** What the AEAD crates document: a sealed message opens under the same key,
    nonce and associated data, and is 16 bytes longer. *)
Class AeadLaws `{!CryptoPrims} := {
  open_seal : ∀ c k n a msg ct, aead_seal c k n a msg = Some ct → aead_open c k n a ct = Some msg;
  seal_length : ∀ c k n a msg ct, aead_seal c k n a msg = Some ct → length ct = (length msg + 16)%nat
}.

Definition DOMAIN_INFO_PREFIX : bytes := list_byte_of_string "hfs/domain/".
Definition EXTENT_INFO_PREFIX : bytes := list_byte_of_string "hfs/ext/".

(** ** Keys *)
Record KeyTree := mkKeyTree { master : bytes }.

Section keys.
Context `{!CryptoPrims} `{!Hashing}.

Definition domain_key (t : KeyTree) (domain_id : bytes) : bytes := hkdf (master t) (DOMAIN_INFO_PREFIX ++ domain_id).

Definition extent_key (domain_key : bytes) (content_hash : N) : bytes * bytes :=
  let info := EXTENT_INFO_PREFIX ++ hash_bytes content_hash in
  let key := hkdf domain_key info in
  let nonce_input := domain_key ++ hash_bytes content_hash in
  (key, take 12 (hash_bytes (hash_of nonce_input))).

Definition encrypt_extent (domain_key : bytes) (content_hash : N) (plaintext : bytes) (cipher : Cipher) : CryptoError + bytes :=
  let '(key, nonce) := extent_key domain_key content_hash in
  match aead_seal cipher key nonce (hash_bytes content_hash) plaintext with Some ct => inr ct | None => inl Encryption end.

Definition decrypt_extent (domain_key : bytes) (content_hash : N) (ciphertext : bytes) (cipher : Cipher) : CryptoError + bytes :=
  let '(key, nonce) := extent_key domain_key content_hash in
  match aead_open cipher key nonce (hash_bytes content_hash) ciphertext with Some pt => inr pt | None => inl Decryption end.
End keys.

(** ** Macaroons *)
Inductive Caveat := PathPrefix (p : string) | ExpiresAt (t : N) | Operations (ops : list Op).

Definition as_str (o : Op) : string := match o with Read => "read" | Write => "write" | Admin => "admin" end.

Record Macaroon := mkMac { identifier : string; mac_location : string; caveats : list Caveat; signature : bytes }.

Definition serialize_caveat (c : Caveat) : bytes :=
  match c with
  | PathPrefix p => list_byte_of_string "path:" ++ list_byte_of_string p
  | ExpiresAt t => list_byte_of_string ("exp:" +:+ pretty t)
  | Operations ops => list_byte_of_string "ops:" ++ concat (map (λ op, list_byte_of_string (as_str op) ++ [x2c]) ops)
  end.

Section macaroons.
Context `{!CryptoPrims}.

Definition chain_hmac (root_key : bytes) (identifier : string) (caveats : list Caveat) : bytes :=
  fold_left (λ sig c, hmac sig (serialize_caveat c)) caveats (hmac root_key (list_byte_of_string identifier)).

Definition mint (root_key : bytes) (identifier location : string) : Macaroon :=
  mkMac identifier location [] (chain_hmac root_key identifier []).

(** The bytes [serialize_caveats] hands to [chain_hmac] are ignored there. *)
Definition add_caveat (m : Macaroon) (root_key : bytes) (c : Caveat) : Macaroon :=
  let cs := caveats m ++ [c] in
  mkMac (identifier m) (mac_location m) cs (chain_hmac root_key (identifier m) cs).

(** The loop over the caveats. *)
Fixpoint check_caveats (cs : list Caveat) (path : string) (op : Op) (now_unix : N) : CryptoError + unit :=
  match cs with
  | [] => inr tt
  | PathPrefix p :: cs => if negb (String.prefix p path) then inl (MacaroonRejected (OutsidePrefix path p)) else check_caveats cs path op now_unix
  | ExpiresAt t :: cs => if t <=? now_unix then inl (MacaroonRejected TokenExpired) else check_caveats cs path op now_unix
  | Operations allowed :: cs => if negb (bool_decide (op ∈ allowed)) then inl (OpRejected op) else check_caveats cs path op now_unix
  end.

Definition mac_verify (m : Macaroon) (root_key : bytes) (path : string) (op : Op) (now_unix : N) : CryptoError + unit :=
  let expect := chain_hmac root_key (identifier m) (caveats m) in
  if negb (bool_decide (expect = signature m)) then inl (MacaroonRejected BadSignature) else check_caveats (caveats m) path op now_unix.

(** ** The stand-in signature scheme *)
Definition keypair_from_seed (seed : bytes) : bytes * bytes := (seed, seed).
Definition sig_sign (secret message : bytes) : bytes := hmac secret message.
Definition sig_verify (public message sig : bytes) : bool := bool_decide (hmac public message = sig).
End macaroons.

(** ** Encryption *)
Lemma decrypt_encrypt `{!CryptoPrims} `{!AeadLaws} `{!Hashing} dk h pt c ct :
  encrypt_extent dk h pt c = inr ct → decrypt_extent dk h ct c = inr pt ∧ length ct = (length pt + 16)%nat.
Proof.
  unfold encrypt_extent, decrypt_extent. destruct (extent_key dk h) as [key nonce]. destruct (aead_seal _ _ _ _ _) as [ct'|] eqn:E; [|done].
  intros [= <-]. split; [by rewrite (open_seal _ _ _ _ _ _ E)|by eapply seal_length].
Qed.

(** ** Tokens *)
Lemma byte_string_inj a b : list_byte_of_string a = list_byte_of_string b → a = b.
Proof. intros H. by rewrite <- (string_of_list_byte_of_string a), H, string_of_list_byte_of_string. Qed.

Lemma ops_inj a b : concat (map (λ op, list_byte_of_string (as_str op) ++ [x2c]) a) = concat (map (λ op, list_byte_of_string (as_str op) ++ [x2c]) b) → a = b.
Proof.
  revert b. induction a as [|x a IH]; intros [|y b]; [done|by destruct y|by destruct x|].
  destruct x, y; cbn; intros [= H]; f_equal; by apply IH.
Qed.

Lemma serialize_caveat_inj c d : serialize_caveat c = serialize_caveat d → c = d.
Proof.
  destruct c as [p|t|ops], d as [p'|t'|ops']; cbn [serialize_caveat]; try done.
  - intros H%app_inv_head%byte_string_inj. by subst.
  - intros [= H]%byte_string_inj. apply pretty_N_inj in H. by subst.
  - intros H%app_inv_head%ops_inj. by subst.
Qed.

Definition caveat_holds (path : string) (op : Op) (now : N) (c : Caveat) : Prop :=
  match c with PathPrefix p => ∃ rest, path = p +:+ rest | ExpiresAt t => now < t | Operations allowed => op ∈ allowed end.

Lemma prefix_iff p s : String.prefix p s = true ↔ ∃ rest, s = p +:+ rest.
Proof.
  revert s. induction p as [|a p IH]; intros s; [destruct s; (split; [by eexists|done])|].
  destruct s as [|b s]; [split; [done|by intros [? ?]]|]. simpl. destruct (ascii_dec a b) as [->|Hne].
  - rewrite IH. split; intros [r Hr]; exists r; [by rewrite Hr|by injection Hr].
  - split; [done|]. intros [r Hr]. by injection Hr.
Qed.

Lemma check_caveats_iff cs path op now : check_caveats cs path op now = inr tt ↔ Forall (caveat_holds path op now) cs.
Proof.
  induction cs as [|c cs IH]; cbn [check_caveats]; [done|]. rewrite Forall_cons, <- IH. destruct c as [p|t|ops]; cbn [caveat_holds].
  - rewrite <- prefix_iff. destruct (String.prefix p path); cbn [negb]; intuition discriminate.
  - destruct (N.leb_spec t now); [|tauto]. split; [done|]. intros [? _]. lia.
  - case_bool_decide; cbn [negb]; [tauto|]. split; [done|tauto].
Qed.

(** HMAC as an ideal keyed hash for the keys a token uses: its root key and
    earlier signatures. No signature is the root key. *)
Definition mac_key `{!CryptoPrims} (root k : bytes) : Prop := k = root ∨ ∃ k' m', k = hmac k' m'.

Class MacLaws `{!CryptoPrims} (root : bytes) := {
  hmac_inj : ∀ k k' m m', mac_key root k → mac_key root k' → hmac k m = hmac k' m' → k = k' ∧ m = m';
  root_fresh : ∀ k m, hmac k m ≠ root
}.

Section tokens.
Context {prims : CryptoPrims} (root : bytes) {laws : MacLaws root}.

Lemma chain_snoc id cs c : chain_hmac root id (cs ++ [c]) = hmac (chain_hmac root id cs) (serialize_caveat c).
Proof. unfold chain_hmac. by rewrite fold_left_app. Qed.

Lemma chain_key id cs : mac_key root (chain_hmac root id cs).
Proof. right. destruct cs as [|c cs _] using rev_ind; [by eexists _, _|]. rewrite chain_snoc. by eexists _, _. Qed.

(** The signature determines the identifier and all caveats in their order. *)
Lemma chain_inj id cs id' cs' : chain_hmac root id cs = chain_hmac root id' cs' → id = id' ∧ cs = cs'.
Proof.
  revert cs'. induction cs as [|c cs IH] using rev_ind; intros cs'; destruct cs' as [|c' cs' _] using rev_ind; rewrite ?chain_snoc; intros H.
  - apply hmac_inj in H as [_ H%byte_string_inj]; [done|by left..].
  - apply hmac_inj in H as [H _]; [|by left|apply chain_key]. exfalso. symmetry in H.
    destruct cs' as [|c2 cs2 _] using rev_ind; [|rewrite chain_snoc in H]; by eapply root_fresh.
  - apply hmac_inj in H as [H _]; [|apply chain_key|by left]. exfalso.
    destruct cs as [|c2 cs2 _] using rev_ind; [|rewrite chain_snoc in H]; by eapply root_fresh.
  - apply hmac_inj in H as [H ->%serialize_caveat_inj]; [|apply chain_key..]. by apply IH in H as [-> ->].
Qed.

Definition attenuate (m : Macaroon) (cs : list Caveat) : Macaroon := fold_left (λ m c, add_caveat m root c) cs m.

Lemma attenuate_mint id loc cs : attenuate (mint root id loc) cs = mkMac id loc cs (chain_hmac root id cs).
Proof.
  unfold attenuate. induction cs as [|c cs IH] using rev_ind; [done|]. rewrite fold_left_app, IH. done.
Qed.

End tokens.

(** A prefix is text, not a directory: a token for one user's home opens that of
    another whose name continues it. *)
Lemma prefix_crosses_names : check_caveats [PathPrefix "/home/ann"] "/home/anna/key" Read 0 = inr tt.
Proof. done. Qed.

(** ** Primitives for concrete runs

    A cipher that appends an empty tag, and a keyed hash that writes down key
    and message. *)
Definition pad_key (k : bytes) : bytes := concat (map (λ b, [x01; b]) k).

#[export] Instance ref_prims : CryptoPrims := {|
  hkdf master info := info ++ master;
  aead_seal _ _ _ _ msg := Some (msg ++ replicate 16 x00);
  aead_open _ _ _ _ ct := if (length ct <? 16)%nat then None else Some (take (length ct - 16) ct);
  hmac k m := pad_key k ++ x00 :: m
|}.

#[export] Instance ref_aead : AeadLaws.
Proof.
  split; cbn [aead_seal aead_open ref_prims]; intros c k n a msg ct Hct; apply (inj Some) in Hct as <-; rewrite length_app, length_replicate; [|done].
  rewrite (proj2 (Nat.ltb_ge _ _)) by lia. f_equal. by rewrite Nat.add_sub, take_app_length.
Qed.

Lemma pad_key_inj k k' m m' : pad_key k ++ x00 :: m = pad_key k' ++ x00 :: m' → k = k' ∧ m = m'.
Proof.
  revert k'. induction k as [|b k IH]; intros [|b' k']; cbn; [by intros [= ->]|done|done|].
  intros [= -> H%IH]. destruct H. by subst.
Qed.

#[export] Instance ref_mac : MacLaws [].
Proof. split; [intros k k' m m' _ _; apply pad_key_inj|]. intros k m. cbn. by destruct (pad_key k). Qed.

