(* ===== verification/Dedup.v ===== *)
(** * The cluster's deduplication index ([lionfs-cluster/src/dedup.rs])

    Reference-counted chunk locations keyed by domain and content hash, with a
    Bloom filter in front. bincode's serialisation of a key is an argument.
    The theorems give the index as a map of counted references over any run of
    acquisitions, releases, moves and restarts, and the filter as free of
    false negatives on such a run; a replayed acquisition is not entered in
    the filter. *)
From S2P Require Import Prelude ClusterCore.
From Stdlib Require Import NArith ZArith Lia Strings.Byte.
From stdpp Require Import base numbers gmap option list.
Local Open Scope N_scope.

#[export] Instance byte_eq_decision : EqDecision byte := Byte.byte_eq_dec.
#[export] Instance byte_countable : Countable byte := inj_countable Byte.to_N Byte.of_N Byte.of_to_N.

#[local] Abbreviation bytes := (list byte).

Inductive DedupError := RefcountUnderflow (hash : N).

#[global] Abbreviation DomainId := (list byte).
Definition domain_root : DomainId := [].

Record ChunkLocation := mkLoc { loc_zone : N; loc_offset : N; loc_length : N }.
#[export] Instance loc_eq_dec : EqDecision ChunkLocation.
Proof. solve_decision. Defined.

Record Entry := mkEntry { location : ChunkLocation; erefs : N }.

Record DedupStats := mkDedupStats {
  unique_chunks : N; duplicate_hits : N; logical_chunks_stored : N; logical_bytes : N; physical_bytes : N
}.
Definition dedup_stats_default : DedupStats := mkDedupStats 0 0 0 0 0.

(** ** Bloom filter *)
Record BloomFilter := mkBloom { bits : list N; num_bits : N; num_hashes : nat; items : N }.

Definition fnv1a (data : bytes) (seed : N) : N :=
  fold_left (λ h b, wmul64 (N.lxor h (Byte.to_N b)) 0x100000001b3) data (N.lxor 0xcbf29ce484222325 seed).

(** [next_power_of_two] *)
Definition next_pow2 (n : N) : N := N.pow 2 (N.log2_up n).

Definition with_items (n : N) : BloomFilter :=
  let n := N.max n 16 in
  let num_bits := next_pow2 (n * 10) in
  mkBloom (replicate (N.to_nat ((num_bits + 63) / 64)) 0) num_bits 7 0.

Definition set_bit (bits : list N) (h : N) : option (list N) :=
  w ← bits !! N.to_nat (h / 64); Some (<[N.to_nat (h / 64) := N.lor w (wshl64 1 (h mod 64))]> bits).
Definition get_bit (bits : list N) (h : N) : option bool :=
  w ← bits !! N.to_nat (h / 64); Some (negb (N.land w (wshl64 1 (h mod 64)) =? 0)).

Fixpoint set_bits (bits : list N) (hs : list N) : option (list N) :=
  match hs with [] => Some bits | h :: hs => bits' ← set_bit bits h; set_bits bits' hs end.
Fixpoint all_bits (bits : list N) (hs : list N) : option bool :=
  match hs with
  | [] => Some true
  | h :: hs => b ← get_bit bits h; if (b : bool) then all_bits bits hs else Some false
  end.

Definition positions (f : BloomFilter) (key : bytes) : list N :=
  map (λ i, fnv1a key (N.of_nat i) mod num_bits f) (seq 0 (num_hashes f)).

(** [None] is an index out of range. *)
Definition bloom_add (f : BloomFilter) (key : bytes) : option BloomFilter :=
  bits' ← set_bits (bits f) (positions f key); Some (mkBloom bits' (num_bits f) (num_hashes f) (wadd64 (items f) 1)).
Definition may_contain (f : BloomFilter) (key : bytes) : option bool := all_bits (bits f) (positions f key).

(** ** The index *)
#[local] Abbreviation key := (DomainId * N)%type.

Record DedupIndex := mkIndex { entries : gmap key Entry; bloom : BloomFilter; dstats : DedupStats }.
Record DedupState := mkDedupState { state_entries : list (key * Entry); state_stats : DedupStats }.

Definition index_new : DedupIndex := mkIndex ∅ (with_items 64) dedup_stats_default.

Section index.
Context (serialize_key : key → bytes).

Definition dedup_lookup (domain : DomainId) (hash : N) (ix : DedupIndex) : option ChunkLocation * DedupIndex :=
  match entries ix !! (domain, hash) with
  | Some e =>
      let s := dstats ix in
      (Some (location e),
       mkIndex (<[(domain, hash) := mkEntry (location e) (wadd64 (erefs e) 1)]> (entries ix)) (bloom ix)
         (mkDedupStats (unique_chunks s) (wadd64 (duplicate_hits s) 1) (logical_chunks_stored s) (logical_bytes s) (physical_bytes s)))
  | None => (None, ix)
  end.

(** The [debug_assert] that the key is new is not in the release build. *)
Definition insert_new (domain : DomainId) (hash : N) (loc : ChunkLocation) (nbytes : N) (ix : DedupIndex) : option DedupIndex :=
  bloom' ← bloom_add (bloom ix) (serialize_key (domain, hash));
  let s := dstats ix in
  Some (mkIndex (<[(domain, hash) := mkEntry loc 1]> (entries ix)) bloom'
    (mkDedupStats (wadd64 (unique_chunks s) 1) (duplicate_hits s) (wadd64 (logical_chunks_stored s) 1)
       (wadd64 (logical_bytes s) nbytes) (wadd64 (physical_bytes s) nbytes))).

Definition account_duplicate (nbytes : N) (ix : DedupIndex) : DedupIndex :=
  let s := dstats ix in
  mkIndex (entries ix) (bloom ix)
    (mkDedupStats (unique_chunks s) (duplicate_hits s) (wadd64 (logical_chunks_stored s) 1) (wadd64 (logical_bytes s) nbytes) (physical_bytes s)).

Definition dedup_release (domain : DomainId) (hash : N) (ix : DedupIndex) : (DedupError + option ChunkLocation) * DedupIndex :=
  match entries ix !! (domain, hash) with
  | Some e =>
      if erefs e =? 0 then (inl (RefcountUnderflow hash), ix)
      else
        let refs := erefs e - 1 in
        if refs =? 0 then (inr (Some (location e)), mkIndex (delete (domain, hash) (entries ix)) (bloom ix) (dstats ix))
        else (inr None, mkIndex (<[(domain, hash) := mkEntry (location e) refs]> (entries ix)) (bloom ix) (dstats ix))
  | None => (inl (RefcountUnderflow hash), ix)
  end.

Definition dedup_refcount (domain : DomainId) (hash : N) (ix : DedupIndex) : N :=
  match entries ix !! (domain, hash) with Some e => erefs e | None => 0 end.

Definition may_exist (domain : DomainId) (hash : N) (ix : DedupIndex) : option bool :=
  may_contain (bloom ix) (serialize_key (domain, hash)).

Definition relocate (domain : DomainId) (hash : N) (loc : ChunkLocation) (ix : DedupIndex) : DedupIndex :=
  match entries ix !! (domain, hash) with
  | Some e => mkIndex (<[(domain, hash) := mkEntry loc (erefs e)]> (entries ix)) (bloom ix) (dstats ix)
  | None => ix
  end.

Definition dedup_clone_state (ix : DedupIndex) : DedupState := mkDedupState (map_to_list (entries ix)) (dstats ix).

Fixpoint load_entries (l : list (key * Entry)) (m : gmap key Entry) (f : BloomFilter) : option (gmap key Entry * BloomFilter) :=
  match l with
  | [] => Some (m, f)
  | (k, v) :: l => f' ← bloom_add f (serialize_key k); load_entries l (<[k := v]> m) f'
  end.

Definition dedup_from_state (st : DedupState) : option DedupIndex :=
  '(m, f) ← load_entries (state_entries st) ∅ (with_items (N.max (N.of_nat (length (state_entries st))) 64));
  Some (mkIndex m f (state_stats st)).

Definition replay_acquire (domain : DomainId) (hash : N) (ix : DedupIndex) : DedupIndex :=
  let e := default (mkEntry (mkLoc 0 0 0) 0) (entries ix !! (domain, hash)) in
  let s := dstats ix in
  mkIndex (<[(domain, hash) := mkEntry (location e) (wadd64 (erefs e) 1)]> (entries ix)) (bloom ix)
    (mkDedupStats (unique_chunks s) (duplicate_hits s) (wadd64 (logical_chunks_stored s) 1) (logical_bytes s) (physical_bytes s)).

Definition replay_release (domain : DomainId) (hash : N) (ix : DedupIndex) : DedupIndex :=
  match entries ix !! (domain, hash) with
  | Some e =>
      let refs := erefs e - 1 in
      mkIndex (if refs =? 0 then delete (domain, hash) (entries ix) else <[(domain, hash) := mkEntry (location e) refs]> (entries ix))
        (bloom ix) (dstats ix)
  | None => ix
  end.
End index.

Definition shard_for (hash num_shards : N) : N := if num_shards =? 0 then 0 else prefix_u64 hash mod num_shards.

(** ** The filter has no false negatives *)
Definition bloom_wf (f : BloomFilter) : Prop := 0 < num_bits f ∧ num_bits f <= 64 * N.of_nat (length (bits f)).
Definition contains (f : BloomFilter) (k : bytes) : Prop := may_contain f k = Some true.

Lemma land_pow2 w k : k < 64 → negb (N.land w (wshl64 1 k) =? 0) = N.testbit w k.
Proof.
  intros Hk. unfold wshl64. rewrite wrap64_small by (rewrite N.shiftl_1_l, two64_pow; apply N.pow_lt_mono_r; lia).
  rewrite N.shiftl_1_l. destruct (N.testbit w k) eqn:E.
  - apply negb_true_iff, N.eqb_neq. intros H. apply (f_equal (λ x, N.testbit x k)) in H.
    rewrite N.land_spec, E, N.pow2_bits_true, N.bits_0 in H. done.
  - apply negb_false_iff, N.eqb_eq, N.bits_inj. intros i. rewrite N.land_spec, N.bits_0, N.pow2_bits_eqb.
    destruct (N.eqb_spec k i) as [<-|]; [by rewrite E|apply andb_false_r].
Qed.

Lemma testbit_lor_set w i k : i < 64 → k < 64 → N.testbit (N.lor w (wshl64 1 k)) i = N.testbit w i || (i =? k).
Proof.
  intros Hi Hk. unfold wshl64. rewrite wrap64_small by (rewrite N.shiftl_1_l, two64_pow; apply N.pow_lt_mono_r; lia).
  by rewrite N.shiftl_1_l, N.lor_spec, N.pow2_bits_eqb, N.eqb_sym.
Qed.

Lemma mod64 h : h mod 64 < 64.
Proof. by apply N.mod_lt. Qed.
#[local] Hint Resolve mod64 : core.

Lemma set_bit_ok l h : h < 64 * N.of_nat (length l) →
  ∃ l', set_bit l h = Some l' ∧ length l' = length l ∧ ∀ i, get_bit l' i = (λ b, b || (i =? h)) <$> get_bit l i.
Proof.
  intros Hh. assert (N.to_nat (h / 64) < length l)%nat as Hlt.
  { assert (h / 64 < N.of_nat (length l)) by (apply N.Div0.div_lt_upper_bound; lia). lia. }
  destruct (lookup_lt_is_Some_2 l _ Hlt) as [w Hw]. unfold set_bit, get_bit. rewrite Hw. cbn [mbind option_bind].
  eexists. split; [done|]. split; [by rewrite length_insert|]. intros i.
  destruct (decide (N.to_nat (i / 64) = N.to_nat (h / 64))) as [E|E].
  - rewrite E, list_lookup_insert_eq, Hw by done. cbn [mbind option_bind fmap option_fmap option_map].
    rewrite !land_pow2, testbit_lor_set by auto. do 2 f_equal.
    rewrite (N.div_mod i 64), (N.div_mod h 64) at 2 by done. destruct (N.eqb_spec (i mod 64) (h mod 64)) as [Em|Em]; symmetry;
      [apply N.eqb_eq|apply N.eqb_neq]; lia.
  - rewrite list_lookup_insert_ne by done. destruct (l !! N.to_nat (i / 64)); [|done]. cbn [mbind option_bind fmap option_fmap option_map].
    destruct (N.eqb_spec i h) as [->|]; [done|]. by rewrite orb_false_r.
Qed.

Lemma set_bits_ok l hs : Forall (λ h, h < 64 * N.of_nat (length l)) hs →
  ∃ l', set_bits l hs = Some l' ∧ length l' = length l ∧ ∀ i, get_bit l' i = (λ b, b || bool_decide (i ∈ hs)) <$> get_bit l i.
Proof.
  revert l. induction hs as [|h hs IH]; intros l Hhs; cbn [set_bits].
  { exists l. split_and!; [done..|]. intros i. destruct (get_bit l i) as [b|]; [|done]. cbn. by rewrite orb_false_r. }
  apply Forall_cons in Hhs as [Hh Hhs]. destruct (set_bit_ok l h Hh) as (l1 & -> & Hl1 & H1). cbn [mbind option_bind].
  destruct (IH l1) as (l2 & -> & Hl2 & H2); [by rewrite Hl1|]. exists l2. split_and!; [done|lia|]. intros i. rewrite H2, H1.
  destruct (get_bit l i) as [b|]; [|done]. cbn [fmap option_fmap option_map]. f_equal. rewrite <- orb_assoc. f_equal.
  destruct (N.eqb_spec i h) as [->|Hne]; cbn [orb].
  - symmetry. apply bool_decide_eq_true. apply list_elem_of_here.
  - apply bool_decide_ext. rewrite elem_of_cons. naive_solver.
Qed.

Lemma contains_iff f k : contains f k ↔ Forall (λ h, get_bit (bits f) h = Some true) (positions f k).
Proof.
  unfold contains, may_contain. induction (positions f k) as [|h hs IH]; cbn [all_bits]; [done|].
  rewrite Forall_cons, <- IH. destruct (get_bit (bits f) h) as [[]|]; cbn [mbind option_bind]; naive_solver.
Qed.

Lemma positions_lt f k : bloom_wf f → Forall (λ h, h < 64 * N.of_nat (length (bits f))) (positions f k).
Proof.
  intros [Hpos Hle]. unfold positions. apply Forall_map, Forall_forall. intros i _.
  assert (fnv1a k (N.of_nat i) mod num_bits f < num_bits f) by (apply N.mod_lt; lia). cbn. lia.
Qed.

Lemma get_bit_some l h : h < 64 * N.of_nat (length l) → is_Some (get_bit l h).
Proof.
  intros Hh. assert (N.to_nat (h / 64) < length l)%nat as Hlt.
  { assert (h / 64 < N.of_nat (length l)) by (apply N.Div0.div_lt_upper_bound; lia). lia. }
  destruct (lookup_lt_is_Some_2 l _ Hlt) as [w Hw]. unfold get_bit. rewrite Hw. by eexists.
Qed.

Lemma bloom_add_ok f k : bloom_wf f → ∃ f', bloom_add f k = Some f' ∧ bloom_wf f' ∧ contains f' k ∧ ∀ k', contains f k' → contains f' k'.
Proof.
  intros Hwf. pose proof (positions_lt f k Hwf) as Hlt. destruct (set_bits_ok (bits f) _ Hlt) as (l & El & Hl & Hbit).
  unfold bloom_add. rewrite El. cbn [mbind option_bind]. eexists. split; [done|]. split.
  { destruct Hwf. split; cbn [num_bits bits]; [done|by rewrite Hl]. }
  split; [|intros k' Hk'; apply contains_iff in Hk'].
  - apply contains_iff, Forall_forall. intros h Hh. unfold positions in *. cbn [num_bits num_hashes bits] in *. rewrite Hbit.
    destruct (get_bit_some (bits f) h) as [b ->]; [by apply (proj1 (Forall_forall _ _) Hlt)|]. cbn. by rewrite bool_decide_true, orb_true_r.
  - apply contains_iff, Forall_forall. intros h Hh. unfold positions in *. cbn [num_bits num_hashes bits] in *. rewrite Hbit.
    by rewrite (proj1 (Forall_forall _ _) Hk' h Hh).
Qed.

Lemma with_items_wf n : bloom_wf (with_items n).
Proof.
  unfold bloom_wf, with_items. cbn [num_bits bits]. rewrite length_replicate, N2Nat.id.
  assert (0 < next_pow2 (N.max n 16 * 10)) as Hp by (apply N.neq_0_lt_0, N.pow_nonzero; lia). split; [done|].
  set (x := next_pow2 _) in *. pose proof (N.div_mod (x + 63) 64 ltac:(done)). pose proof (mod64 (x + 63)). lia.
Qed.

(** ** The index as a map of counted references *)
Inductive event :=
  | Acquire (k : key) (loc : ChunkLocation) (nbytes : N)
  | Release (k : key)
  | Move (k : key) (loc : ChunkLocation)
  | Restart.

Inductive answer :=
  | Hit (loc : ChunkLocation)
  | Stored
  | Released (r : DedupError + option ChunkLocation)
  | Done.

(** What the index promises: a location and a count for every held key. *)
#[local] Abbreviation refs := (gmap key (ChunkLocation * N)).

Definition spec_step (e : event) (m : refs) : answer * refs :=
  match e with
  | Acquire k loc _ =>
      match m !! k with
      | Some (l, c) => (Hit l, <[k := (l, c + 1)]> m)
      | None => (Stored, <[k := (loc, 1)]> m)
      end
  | Release k =>
      match m !! k with
      | Some (l, c) => if c =? 1 then (Released (inr (Some l)), delete k m) else (Released (inr None), <[k := (l, c - 1)]> m)
      | None => (Released (inl (RefcountUnderflow k.2)), m)
      end
  | Move k loc => (Done, match m !! k with Some (_, c) => <[k := (loc, c)]> m | None => m end)
  | Restart => (Done, m)
  end.

Fixpoint spec_run (es : list event) (m : refs) : list answer * refs :=
  match es with
  | [] => ([], m)
  | e :: es => let '(a, m') := spec_step e m in let '(l, m'') := spec_run es m' in (a :: l, m'')
  end.

Definition is_acquire (e : event) : bool := match e with Acquire _ _ _ => true | _ => false end.

Section refinement.
Context (serialize_key : key → bytes).

(** The protocol of the engine: look a chunk up and insert it after a miss;
    release; follow a move; write a checkpoint and load it again. *)
Definition index_step (e : event) (ix : DedupIndex) : option (answer * DedupIndex) :=
  match e with
  | Acquire (d, h) loc n =>
      match dedup_lookup d h ix with
      | (Some l, ix') => Some (Hit l, account_duplicate n ix')
      | (None, ix') => ix'' ← insert_new serialize_key d h loc n ix'; Some (Stored, ix'')
      end
  | Release (d, h) => let '(r, ix') := dedup_release d h ix in Some (Released r, ix')
  | Move (d, h) loc => Some (Done, relocate d h loc ix)
  | Restart => ix' ← dedup_from_state serialize_key (dedup_clone_state ix); Some (Done, ix')
  end.

Fixpoint index_run (es : list event) (ix : DedupIndex) : option (list answer * DedupIndex) :=
  match es with
  | [] => Some ([], ix)
  | e :: es => '(a, ix') ← index_step e ix; '(l, ix'') ← index_run es ix'; Some (a :: l, ix'')
  end.

Definition abs (ix : DedupIndex) : refs := (λ e, (location e, erefs e)) <$> entries ix.

(** The counts are positive and at most [n], the filter knows every key, and
    the statistics add up after [acq] acquisitions. *)
Record index_inv (n acq : N) (ix : DedupIndex) : Prop := {
  iv_counts : ∀ k l c, abs ix !! k = Some (l, c) → 0 < c <= n;
  iv_wf : bloom_wf (bloom ix);
  iv_bloom : ∀ k, is_Some (abs ix !! k) → contains (bloom ix) (serialize_key k);
  iv_acq : logical_chunks_stored (dstats ix) = acq;
  iv_split : unique_chunks (dstats ix) + duplicate_hits (dstats ix) = acq
}.

Lemma abs_insert k e m f s : abs (mkIndex (<[k:=e]> m) f s) = <[k:=(location e, erefs e)]> (abs (mkIndex m f s)).
Proof. unfold abs. cbn [entries]. by rewrite fmap_insert. Qed.
Lemma abs_delete k m f s : abs (mkIndex (delete k m) f s) = delete k (abs (mkIndex m f s)).
Proof. unfold abs. cbn [entries]. by rewrite fmap_delete. Qed.
Lemma abs_eta ix f s : abs (mkIndex (entries ix) f s) = abs ix.
Proof. done. Qed.
Lemma abs_lookup ix k : abs ix !! k = (λ e, (location e, erefs e)) <$> (entries ix !! k).
Proof. apply lookup_fmap. Qed.

Lemma load_entries_ok l m f : bloom_wf f → (∀ k, is_Some (m !! k) → contains f (serialize_key k)) →
  ∃ f', load_entries serialize_key l m f = Some (fold_left (λ m '(k, v), <[k:=v]> m) l m, f') ∧ bloom_wf f' ∧
    ∀ k, is_Some (fold_left (λ m '(k, v), <[k:=v]> m) l m !! k) → contains f' (serialize_key k).
Proof.
  revert m f. induction l as [|[k v] l IH]; intros m f Hwf Hm; cbn [load_entries fold_left]; [by exists f|].
  destruct (bloom_add_ok f (serialize_key k) Hwf) as (f' & -> & Hwf' & Hk & Hmono). cbn [mbind option_bind].
  apply IH; [done|]. intros k' Hk'. destruct (decide (k' = k)) as [->|Hne]; [done|]. rewrite lookup_insert_ne in Hk' by done. auto.
Qed.

Lemma fold_insert_disjoint (l : list (key * Entry)) m : NoDup l.*1 →
  fold_left (λ m '(k, v), <[k:=v]> m) l m = (list_to_map l : gmap key Entry) ∪ m.
Proof.
  revert m. induction l as [|[k v] l IH]; intros m Hnd; cbn [fold_left].
  { by rewrite list_to_map_nil, (left_id_L ∅ (∪)). }
  rewrite fmap_cons in Hnd. apply NoDup_cons in Hnd as [Hk Hnd]. rewrite IH by done. rewrite list_to_map_cons.
  rewrite <- insert_union_l, <- insert_union_r; [done|]. by apply not_elem_of_list_to_map_1.
Qed.

Lemma restart_ok n acq ix : index_inv n acq ix → ∃ ix', dedup_from_state serialize_key (dedup_clone_state ix) = Some ix' ∧
  abs ix' = abs ix ∧ index_inv n acq ix'.
Proof.
  intros [Hc Hwf Hb Ha Hs]. unfold dedup_from_state, dedup_clone_state. cbn [state_entries state_stats].
  destruct (load_entries_ok (map_to_list (entries ix)) ∅ (with_items (N.max (N.of_nat (length (map_to_list (entries ix)))) 64)))
    as (f' & -> & Hwf' & Hb'); [apply with_items_wf|intros k [? H]; by rewrite lookup_empty in H|].
  rewrite fold_insert_disjoint, list_to_map_to_list, (right_id_L ∅ (∪)) in Hb' |- * by apply NoDup_fst_map_to_list.
  cbn [mbind option_bind]. eexists. split; [done|]. split; [by rewrite abs_eta|]. split; cbn [dstats bloom]; [done|done| |done|done].
  intros k Hk. apply Hb'. rewrite abs_eta, abs_lookup in Hk. by apply fmap_is_Some in Hk.
Qed.

Lemma index_inv_mono n n' acq ix : n <= n' → index_inv n acq ix → index_inv n' acq ix.
Proof. intros Hn [Hc Hwf Hb Ha Hs]. split; try done. intros k l c Hk. specialize (Hc k l c Hk). lia. Qed.

Lemma acquire_ok n acq ix k loc nb : index_inv n acq ix → acq <= n → n + 1 < two64 →
  ∃ a ix', index_step (Acquire k loc nb) ix = Some (a, ix') ∧ spec_step (Acquire k loc nb) (abs ix) = (a, abs ix') ∧ index_inv (n + 1) (acq + 1) ix'.
Proof.
  intros [Hc Hwf Hb Ha Hs] Hacq Hn. destruct k as [d h]. cbn [index_step spec_step]. unfold dedup_lookup.
  pose proof (abs_lookup ix (d, h)) as El. destruct (entries ix !! (d, h)) as [e|] eqn:E; cbn [fmap option_fmap option_map] in El; rewrite El.
  - destruct (Hc (d, h) (location e) (erefs e) El) as [Hpos Hle]. rewrite (wadd64_small (erefs e) 1) by lia.
    eexists _, _. split; [done|]. unfold account_duplicate. cbn [entries bloom dstats]. rewrite abs_insert, abs_eta. split; [done|].
    split; cbn [dstats bloom unique_chunks duplicate_hits logical_chunks_stored]; [| done| | |].
    + intros k' l c. rewrite abs_insert, abs_eta. destruct (decide (k' = (d, h))) as [->|Hne].
      * rewrite lookup_insert_eq. intros ?. simplify_eq/=. lia.
      * rewrite lookup_insert_ne by done. intros Hk. specialize (Hc _ _ _ Hk). lia.
    + intros k'. rewrite abs_insert, abs_eta. destruct (decide (k' = (d, h))) as [->|Hne]; [intros _; apply Hb; by rewrite El|].
      rewrite lookup_insert_ne by done. apply Hb.
    + rewrite Ha. apply wadd64_small. lia.
    + rewrite wadd64_small by lia. lia.
  - unfold insert_new. destruct (bloom_add_ok (bloom ix) (serialize_key (d, h)) Hwf) as (f' & -> & Hwf' & Hk & Hmono).
    cbn [mbind option_bind]. eexists _, _. split; [done|]. rewrite abs_insert, abs_eta. split; [done|].
    split; cbn [dstats bloom unique_chunks duplicate_hits logical_chunks_stored]; [| done| | |].
    + intros k' l c. rewrite abs_insert, abs_eta. destruct (decide (k' = (d, h))) as [->|Hne].
      * rewrite lookup_insert_eq. intros ?. simplify_eq/=. lia.
      * rewrite lookup_insert_ne by done. intros Hk'. specialize (Hc _ _ _ Hk'). lia.
    + intros k'. rewrite abs_insert, abs_eta. destruct (decide (k' = (d, h))) as [->|Hne]; [done|].
      rewrite lookup_insert_ne by done. auto.
    + rewrite Ha. apply wadd64_small. lia.
    + rewrite wadd64_small by lia. lia.
Qed.

Lemma release_ok n acq ix k : index_inv n acq ix →
  ∃ a ix', index_step (Release k) ix = Some (a, ix') ∧ spec_step (Release k) (abs ix) = (a, abs ix') ∧ index_inv n acq ix'.
Proof.
  intros Hinv. pose proof Hinv as [Hc Hwf Hb Ha Hs]. destruct k as [d h]. cbn [index_step spec_step]. unfold dedup_release.
  pose proof (abs_lookup ix (d, h)) as El. destruct (entries ix !! (d, h)) as [e|] eqn:E; cbn [fmap option_fmap option_map] in El; rewrite El.
  2:{ by eexists _, _. }
  destruct (Hc (d, h) (location e) (erefs e) El) as [Hpos Hle]. replace (erefs e =? 0) with false by (symmetry; apply N.eqb_neq; lia).
  replace (erefs e - 1 =? 0) with (erefs e =? 1) by (destruct (N.eqb_spec (erefs e) 1), (N.eqb_spec (erefs e - 1) 0); lia || done).
  destruct (N.eqb_spec (erefs e) 1) as [E1|E1]; (eexists _, _; split; [done|]; rewrite ?abs_delete, ?abs_insert, ?abs_eta; split; [done|]);
    (split; cbn [dstats bloom]; [|done| |done|done]); rewrite ?abs_delete, ?abs_insert, ?abs_eta.
  - intros k' l c Hk. apply lookup_delete_Some in Hk as [_ Hk]. by apply (Hc k' l c).
  - intros k' [x Hk]. apply lookup_delete_Some in Hk as [_ Hk]. apply Hb. by exists x.
  - intros k' l c. destruct (decide (k' = (d, h))) as [->|Hne].
    + rewrite lookup_insert_eq. intros ?. simplify_eq/=. lia.
    + rewrite lookup_insert_ne by done. apply Hc.
  - intros k'. destruct (decide (k' = (d, h))) as [->|Hne]; [intros _; apply Hb; by rewrite El|]. rewrite lookup_insert_ne by done. apply Hb.
Qed.

Lemma move_ok n acq ix k loc : index_inv n acq ix →
  ∃ a ix', index_step (Move k loc) ix = Some (a, ix') ∧ spec_step (Move k loc) (abs ix) = (a, abs ix') ∧ index_inv n acq ix'.
Proof.
  intros Hinv. pose proof Hinv as [Hc Hwf Hb Ha Hs]. destruct k as [d h]. cbn [index_step spec_step]. unfold relocate.
  pose proof (abs_lookup ix (d, h)) as El. destruct (entries ix !! (d, h)) as [e|] eqn:E; cbn [fmap option_fmap option_map] in El; rewrite El.
  2:{ by eexists _, _. }
  eexists _, _. split; [done|]. rewrite abs_insert, abs_eta. split; [done|]. split; cbn [dstats bloom]; [|done| |done|done]; rewrite ?abs_insert, ?abs_eta.
  - intros k' l c. destruct (decide (k' = (d, h))) as [->|Hne].
    + rewrite lookup_insert_eq. intros ?. simplify_eq/=. by apply (Hc (d, h) (location e)).
    + rewrite lookup_insert_ne by done. apply Hc.
  - intros k'. destruct (decide (k' = (d, h))) as [->|Hne]; [intros _; apply Hb; by rewrite El|]. rewrite lookup_insert_ne by done. apply Hb.
Qed.

Lemma index_step_ok n acq ix e : index_inv n acq ix → acq <= n → n + 1 < two64 →
  ∃ a ix', index_step e ix = Some (a, ix') ∧ spec_step e (abs ix) = (a, abs ix') ∧ index_inv (n + 1) (acq + N.b2n (is_acquire e)) ix'.
Proof.
  intros Hinv Hacq Hn. destruct e as [k loc nb|k|k loc|]; cbn [is_acquire N.b2n]; [by apply acquire_ok|..]; rewrite N.add_0_r.
  - destruct (release_ok n acq ix k Hinv) as (a & ix' & ? & ? & ?). exists a, ix'. split_and!; [done..|]. apply (index_inv_mono n); [lia|done].
  - destruct (move_ok n acq ix k loc Hinv) as (a & ix' & ? & ? & ?). exists a, ix'. split_and!; [done..|]. apply (index_inv_mono n); [lia|done].
  - destruct (restart_ok n acq ix Hinv) as (ix' & E & Eab & ?). exists Done, ix'. cbn [index_step spec_step]. rewrite E, Eab.
    split_and!; [done..|]. apply (index_inv_mono n); [lia|done].
Qed.

Definition acquires (es : list event) : N := N.of_nat (length (filter is_acquire es)).

Lemma index_run_ok es n acq ix : index_inv n acq ix → acq <= n → n + N.of_nat (length es) < two64 →
  ∃ l ix', index_run es ix = Some (l, ix') ∧ spec_run es (abs ix) = (l, abs ix') ∧ index_inv (n + N.of_nat (length es)) (acq + acquires es) ix'.
Proof.
  revert n acq ix. induction es as [|e es IH]; intros n acq ix Hinv Hacq Hn; cbn [index_run spec_run length] in *.
  { exists [], ix. by rewrite !N.add_0_r. }
  destruct (index_step_ok n acq ix e Hinv Hacq) as (a & ix1 & -> & -> & Hinv1); [lia|]. cbn [mbind option_bind].
  destruct (IH _ _ ix1 Hinv1) as (l & ix2 & -> & -> & Hinv2); [destruct (is_acquire e); cbn; lia|lia|]. cbn [mbind option_bind].
  exists (a :: l), ix2. split_and!; [done..|].
  replace (n + N.of_nat (S (length es))) with (n + 1 + N.of_nat (length es)) by lia.
  replace (acq + acquires (e :: es)) with (acq + N.b2n (is_acquire e) + acquires es); [done|].
  unfold acquires. rewrite filter_cons. destruct (is_acquire e); cbn [N.b2n length]; [rewrite decide_True by done|rewrite decide_False by auto]; cbn [length]; lia.
Qed.

Lemma index_new_inv : index_inv 0 0 index_new.
Proof.
  split; [| | |done|done].
  - intros k l c Hk. unfold abs, index_new in Hk. cbn [entries] in Hk. by rewrite lookup_fmap, lookup_empty in Hk.
  - apply with_items_wf.
  - intros k [x Hk]. unfold abs, index_new in Hk. cbn [entries] in Hk. by rewrite lookup_fmap, lookup_empty in Hk.
Qed.
End refinement.

(** C25: the index is a map of counted references. Over any run of
    acquisitions, releases, moves and restarts of a fresh index no index is
    out of range and every answer is that of the reference map: a location
    exactly while its key is held, the location handed back exactly when the
    last reference goes, an error when there is none; keys of other domains
    are not touched. The filter answers yes for every held key, and the
    statistics count every acquisition once, as new or as duplicate. *)
Theorem dedup_refines_refs (serialize_key : key → bytes) (es : list event) :
  N.of_nat (length es) < two64 →
  ∃ l ix, index_run serialize_key es index_new = Some (l, ix) ∧
    spec_run es ∅ = (l, abs ix) ∧
    (∀ d h, dedup_refcount d h ix = default 0 (snd <$> abs ix !! (d, h))) ∧
    (∀ d h, is_Some (abs ix !! (d, h)) → may_exist serialize_key d h ix = Some true) ∧
    logical_chunks_stored (dstats ix) = acquires es ∧
    unique_chunks (dstats ix) + duplicate_hits (dstats ix) = acquires es.
Proof.
  intros Hlen. destruct (index_run_ok serialize_key es 0 0 index_new) as (l & ix & Hrun & Hspec & [Hc Hwf Hb Ha Hs]);
    [apply index_new_inv|done|lia|].
  exists l, ix. rewrite N.add_0_l in Ha, Hs. split_and!; [done| |intros d h|intros d h|done|done].
  - exact Hspec.
  - unfold dedup_refcount. rewrite abs_lookup. destruct (entries ix !! (d, h)); done.
  - apply Hb.
Qed.

(** Two domains hold the same content; one lets go of it. *)
Definition test_events : list event :=
  [Acquire ([x61], 5) (mkLoc 1 2 3) 10; Acquire ([x62], 5) (mkLoc 4 5 6) 10; Acquire ([x61], 5) (mkLoc 0 0 0) 10;
   Restart; Release ([x62], 5); Release ([x62], 5); Release ([x61], 5)].

Lemma dedup_refines_refs_witness : ∃ l ix,
  index_run (λ k, byte_of_N k.2 :: k.1) test_events index_new = Some (l, ix) ∧
  l = [Stored; Stored; Hit (mkLoc 1 2 3); Done; Released (inr (Some (mkLoc 4 5 6))); Released (inl (RefcountUnderflow 5)); Released (inr None)] ∧
  dedup_refcount [x61] 5 ix = 1.
Proof.
  destruct (dedup_refines_refs (λ k, byte_of_N k.2 :: k.1) test_events ltac:(done)) as (l & ix & Hrun & Hspec & Href & _).
  exists l, ix. split; [exact Hrun|]. split.
  - transitivity (fst (spec_run test_events ∅)); [by rewrite Hspec|]. vm_compute. reflexivity.
  - rewrite Href. replace (abs ix) with (snd (spec_run test_events ∅)) by (by rewrite Hspec). vm_compute. reflexivity.
Defined.

(** A replayed acquisition holds the chunk, and the filter denies it. *)
Theorem replay_hides_chunk (serialize_key : key → bytes) d h :
  let ix := replay_acquire d h index_new in
  dedup_refcount d h ix = 1 ∧ may_exist serialize_key d h ix = Some false.
Proof.
  cbn zeta. split.
  - unfold dedup_refcount, replay_acquire. cbn [entries index_new]. by rewrite lookup_empty, lookup_insert_eq.
  - unfold may_exist, replay_acquire. cbn [bloom index_new]. unfold may_contain.
    set (f := with_items 64). assert (∀ i, i < 1024 → get_bit (bits f) i = Some false) as Hz.
    { intros i Hi. unfold get_bit. change (bits f) with (replicate 16 0).
      assert (i / 64 < 16) by (apply N.Div0.div_lt_upper_bound; lia).
      rewrite lookup_replicate_2 by lia. done. }
    change (positions f (serialize_key (d, h))) with (map (λ i, fnv1a (serialize_key (d, h)) (N.of_nat i) mod 1024) (seq 0 7)).
    cbn [seq map all_bits]. rewrite !Hz by (apply N.mod_lt; done). reflexivity.
Qed.
