(* ===== verification/BeTree.v ===== *)
(** * The cluster's Bε-tree ([lionfs-cluster/src/btree.rs])

    An arena of nodes with parent pointers: internal nodes buffer messages and
    route by bounds, leaves hold sorted entries; a full buffer is flushed one
    level down, and an over-full node is split upwards, except the node whose
    buffer is being drained (the split barrier). Keys are byte strings in
    lexicographic order. [None] is a panic: an index out of range, a loop that
    exceeds its bound, or an [unreachable]. *)
From S2P Require Import Prelude.
From Stdlib Require Import NArith Lia Strings.Byte.
From stdpp Require Import base numbers option list.
Local Open Scope nat_scope.

#[local] Abbreviation bytes := (list byte).

(** ** Lexicographic order of byte strings *)
Fixpoint cmp (a b : bytes) : comparison :=
  match a, b with
  | [], [] => Eq
  | [], _ :: _ => Lt
  | _ :: _, [] => Gt
  | x :: a, y :: b => match N.compare (Byte.to_N x) (Byte.to_N y) with Eq => cmp a b | c => c end
  end.
Definition bytes_le (a b : bytes) : bool := match cmp a b with Gt => false | _ => true end.
Definition bytes_eq (a b : bytes) : bool := match cmp a b with Eq => true | _ => false end.

(** ** Sorted entries: [binary_search_by] *)
Fixpoint find_entry {A} (es : list (bytes * A)) (key : bytes) (i : nat) : nat + nat :=
  match es with
  | [] => inr i
  | (k, _) :: es => match cmp k key with Eq => inl i | Gt => inr i | Lt => find_entry es key (S i) end
  end.

Definition insert_at {A} (i : nat) (x : A) (l : list A) : list A := take i l ++ x :: drop i l.
Definition remove_at {A} (i : nat) (l : list A) : list A := take i l ++ drop (S i) l.

(** [BTreeMap::insert] on a sorted association list. *)
Definition map_insert {A} (k : bytes) (v : A) (l : list (bytes * A)) : list (bytes * A) :=
  match find_entry l k 0 with inl i => <[i := (k, v)]> l | inr i => insert_at i (k, v) l end.

Record TreeConfig := mkTreeConfig { max_children : nat; buffer_capacity : nat; leaf_max_entries : nat }.

Section tree.
Context {V : Type}.

Inductive Op := Upsert (v : V) | Delete.
Record Message := mkMsg { mkey : bytes; mseq : N; mop : Op }.
Record Child := mkChild { bound : option bytes; child_id : nat }.

Inductive Node :=
  | Internal (parent : option nat) (children : list Child) (buffer : list Message)
  | Leaf (parent : option nat) (entries : list (bytes * V)).

Record BeTree := mkTree {
  nodes : list Node;
  root : nat;
  tconfig : TreeConfig;
  next_seq : N;
  live_entries : N;
  pending : N;
  split_barrier : option nat
}.

Definition be_new (cfg : TreeConfig) : option BeTree :=
  if (2 <=? max_children cfg) && (2 <=? buffer_capacity cfg) && (2 <=? leaf_max_entries cfg)
  then Some (mkTree [Leaf None []] 0 cfg 0 0 0 None) else None.

Definition with_nodes (ns : list Node) (t : BeTree) : BeTree :=
  mkTree ns (root t) (tconfig t) (next_seq t) (live_entries t) (pending t) (split_barrier t).
Definition with_root (r : nat) (t : BeTree) : BeTree :=
  mkTree (nodes t) r (tconfig t) (next_seq t) (live_entries t) (pending t) (split_barrier t).
Definition with_pending (p : N) (t : BeTree) : BeTree :=
  mkTree (nodes t) (root t) (tconfig t) (next_seq t) (live_entries t) p (split_barrier t).
Definition with_live (n : N) (t : BeTree) : BeTree :=
  mkTree (nodes t) (root t) (tconfig t) (next_seq t) n (pending t) (split_barrier t).
Definition with_barrier (b : option nat) (t : BeTree) : BeTree :=
  mkTree (nodes t) (root t) (tconfig t) (next_seq t) (live_entries t) (pending t) b.
Definition set_node (id : nat) (n : Node) (t : BeTree) : BeTree := with_nodes (<[id := n]> (nodes t)) t.
Definition push_node (n : Node) (t : BeTree) : BeTree := with_nodes (nodes t ++ [n]) t.

Definition is_leaf (t : BeTree) (id : nat) : option bool :=
  n ← nodes t !! id; Some (match n with Leaf _ _ => true | Internal _ _ _ => false end).

Definition parent_of (t : BeTree) (id : nat) : option (option nat) :=
  n ← nodes t !! id; Some (match n with Internal p _ _ => p | Leaf p _ => p end).

(** The last child whose bound is at most the key. *)
Fixpoint choose (key : bytes) (children : list Child) (chosen : nat) : nat :=
  match children with
  | [] => chosen
  | c :: cs =>
      match bound c with
      | None => choose key cs (child_id c)
      | Some b => if bytes_le b key then choose key cs (child_id c) else chosen
      end
  end.

Definition route_in (children : list Child) (key : bytes) : option nat :=
  match children with [] => None | c :: _ => Some (choose key children (child_id c)) end.

Definition route (t : BeTree) (id : nat) (key : bytes) : option nat :=
  n ← nodes t !! id;
  match n with Internal _ children _ => route_in children key | Leaf _ _ => None end.

Definition apply_to_leaf (leaf_id : nat) (msg : Message) (t : BeTree) : option BeTree :=
  n ← nodes t !! leaf_id;
  Some (match n with
        | Internal _ _ _ => t
        | Leaf p es =>
            match find_entry es (mkey msg) 0, mop msg with
            | inl pos, Upsert v => set_node leaf_id (Leaf p (<[pos := (mkey msg, v)]> es)) t
            | inl pos, Delete => with_live (wsub64 (live_entries t) 1) (set_node leaf_id (Leaf p (remove_at pos es)) t)
            | inr pos, Upsert v => with_live (wadd64 (live_entries t) 1) (set_node leaf_id (Leaf p (insert_at pos (mkey msg, v) es)) t)
            | inr _, Delete => t
            end
        end).

(** ** Splitting *)
Definition set_parent (id : nat) (parent : option nat) (t : BeTree) : option BeTree :=
  n ← nodes t !! id;
  Some (set_node id (match n with Internal _ cs b => Internal parent cs b | Leaf _ es => Leaf parent es end) t).

Fixpoint set_parents (ids : list nat) (parent : option nat) (t : BeTree) : option BeTree :=
  match ids with [] => Some t | id :: ids => t' ← set_parent id parent t; set_parents ids parent t' end.

(** Where [binary_search_by] on the bounds puts a new one. *)
Fixpoint child_pos (cs : list Child) (b : bytes) (i : nat) : nat :=
  match cs with
  | [] => i
  | c :: cs =>
      match bound c with
      | None => child_pos cs b (S i)
      | Some b' => match cmp b' b with Lt => child_pos cs b (S i) | _ => i end
      end
  end.

Definition insert_child (parent_id : nat) (b : bytes) (cid : nat) (t : BeTree) : option BeTree :=
  n ← nodes t !! parent_id;
  let t' := match n with
            | Internal p cs buf => set_node parent_id (Internal p (insert_at (child_pos cs b 0) (mkChild (Some b) cid) cs) buf) t
            | Leaf _ _ => t
            end in
  set_parent cid (Some parent_id) t'.

(** Grow a new root over the old one and its new sibling. *)
Definition grow_root (right_bound : option bytes) (right_id : nat) (t : BeTree) : option BeTree :=
  let old_root := root t in
  let t := push_node (Internal None [mkChild None old_root; mkChild right_bound right_id] []) t in
  let new_root := length (nodes t) - 1 in
  t ← set_parent old_root (Some new_root) t;
  t ← set_parent right_id (Some new_root) t;
  Some (with_root new_root t).

Definition goes_right (split_key : option bytes) (m : Message) : bool :=
  match split_key with None => true | Some b => bytes_le b (mkey m) end.

(** [fuel] bounds the cascade towards the root. *)
Fixpoint maybe_split_from (fuel : nat) (id : nat) (t : BeTree) : option (option nat * BeTree) :=
  if bool_decide (split_barrier t = Some id) then Some (None, t)
  else
    n ← nodes t !! id;
    match n with
    | Leaf _ _ => Some (None, t)
    | Internal parent children buffer =>
        if length children <=? max_children (tconfig t) then Some (None, t)
        else
          match fuel with
          | O => None
          | S fuel =>
              let mid := max_children (tconfig t) / 2 + 1 in
              let right := drop mid children in
              first ← head right;
              let split_key := bound first in
              let right_msgs := filter (goes_right split_key) buffer in
              let left_msgs := filter (λ m, negb (goes_right split_key m)) buffer in
              let t := set_node id (Internal parent (take mid children) left_msgs) t in
              let right_id := length (nodes t) in
              let t := push_node (Internal parent right right_msgs) t in
              t ← set_parents (map child_id right) (Some right_id) t;
              match parent with
              | None => t ← grow_root split_key right_id t; Some (Some right_id, t)
              | Some p =>
                  t ← insert_child p (default [] split_key) right_id t;
                  '(_, t) ← maybe_split_from fuel p t;
                  Some (Some right_id, t)
              end
          end
    end.

Definition maybe_split_leaf (leaf_id : nat) (t : BeTree) : option BeTree :=
  n ← nodes t !! leaf_id;
  match n with
  | Internal _ _ _ => Some t
  | Leaf parent es =>
      if length es <=? leaf_max_entries (tconfig t) then Some t
      else
        let mid := leaf_max_entries (tconfig t) / 2 + 1 in
        let right := drop mid es in
        first ← head right;
        let t := set_node leaf_id (Leaf parent (take mid es)) t in
        let right_id := length (nodes t) in
        let t := push_node (Leaf parent right) t in
        match parent with
        | None => grow_root (Some first.1) right_id t
        | Some p =>
            t ← insert_child p first.1 right_id t;
            '(_, t) ← maybe_split_from (length (nodes t)) p t;
            Some t
        end
  end.

Fixpoint repair_chain (fuel : nat) (id : nat) (t : BeTree) : option BeTree :=
  '(r, t) ← maybe_split_from (length (nodes t)) id t;
  match r with
  | None => Some t
  | Some right_id => match fuel with O => None | S fuel => repair_chain fuel right_id t end
  end.

Definition children_count (t : BeTree) (id : nat) : nat :=
  match nodes t !! id with Some (Internal _ cs _) => length cs | _ => 0 end.

(** ** Flushing *)

(** A message of the drained buffer of [id] goes one level down. *)
Definition deliver (flush : nat → BeTree → option BeTree) (id : nat) (msg : Message) (t : BeTree) : option BeTree :=
  child ← route t id (mkey msg);
  n ← nodes t !! child;
  match n with
  | Leaf _ _ => t ← apply_to_leaf child msg t; maybe_split_leaf child t
  | Internal _ _ buf =>
      t ← (if buffer_capacity (tconfig t) <=? length buf then flush child t else Some t);
      target ← route t id (mkey msg);
      n ← nodes t !! target;
      Some (match n with
            | Internal p cs b => with_pending (wadd64 (pending t) 1) (set_node target (Internal p cs (b ++ [msg])) t)
            | Leaf _ _ => t
            end)
  end.

Fixpoint deliver_all (flush : nat → BeTree → option BeTree) (id : nat) (msgs : list Message) (t : BeTree) : option BeTree :=
  match msgs with [] => Some t | m :: msgs => t ← deliver flush id m t; deliver_all flush id msgs t end.

(** [fuel] bounds the recursion into full children. *)
Fixpoint flush_node (fuel : nat) (id : nat) (t : BeTree) : option BeTree :=
  n ← nodes t !! id;
  match n with
  | Leaf _ _ => Some t
  | Internal p cs msgs =>
      match fuel with
      | O => None
      | S fuel =>
          let t := set_node id (Internal p cs []) t in
          let t := with_pending (wsub64 (pending t) (wrap64 (N.of_nat (length msgs)))) t in
          let prev_barrier := split_barrier t in
          t ← deliver_all (flush_node fuel) id msgs (with_barrier (Some id) t);
          let t := with_barrier prev_barrier t in
          repair_chain (children_count t id) id t
      end
  end.

Definition flush (id : nat) (t : BeTree) : option BeTree := flush_node (length (nodes t)) id t.

Definition enqueue (msg : Message) (t : BeTree) : option BeTree :=
  n ← nodes t !! root t;
  match n with
  | Leaf _ _ => let r := root t in t ← apply_to_leaf r msg t; maybe_split_leaf r t
  | Internal _ _ buf =>
      let t := with_pending (wadd64 (pending t) 1) t in
      t ← (if buffer_capacity (tconfig t) <=? length buf then flush (root t) t else Some t);
      n ← nodes t !! root t;
      Some (match n with Internal p cs b => set_node (root t) (Internal p cs (b ++ [msg])) t | Leaf _ _ => t end)
  end.

Definition bump_seq (t : BeTree) : N * BeTree :=
  let s := wadd64 (next_seq t) 1 in
  (s, mkTree (nodes t) (root t) (tconfig t) s (live_entries t) (pending t) (split_barrier t)).

Definition be_insert (key : bytes) (value : V) (t : BeTree) : option BeTree :=
  let '(seq, t) := bump_seq t in enqueue (mkMsg key seq (Upsert value)) t.
Definition be_delete (key : bytes) (t : BeTree) : option BeTree :=
  let '(seq, t) := bump_seq t in enqueue (mkMsg key seq Delete) t.

(** ** Reading *)

(** [sort_by_key] on the sequence number (stable). *)
Fixpoint insert_seq (m : Message) (l : list Message) : list Message :=
  match l with [] => [m] | x :: l => if (mseq m <? mseq x)%N then m :: x :: l else x :: insert_seq m l end.
Definition sort_by_seq (l : list Message) : list Message := fold_left (λ acc m, insert_seq m acc) l [].

Definition apply_op (o : Op) : option V := match o with Upsert v => Some v | Delete => None end.

Definition entry_value (es : list (bytes * V)) (key : bytes) : option V :=
  match find_entry es key 0 with inl i => snd <$> es !! i | inr _ => None end.

Fixpoint get_loop (fuel : nat) (t : BeTree) (key : bytes) (cur : nat) (pend : list Message) : option (option V) :=
  n ← nodes t !! cur;
  match n with
  | Leaf _ es => Some (fold_left (λ _ m, apply_op (mop m)) (sort_by_seq pend) (entry_value es key))
  | Internal _ cs buf =>
      match fuel with
      | O => None
      | S fuel => next ← route_in cs key; get_loop fuel t key next (pend ++ filter (λ m, bytes_eq (mkey m) key) buf)
      end
  end.
Definition be_get (key : bytes) (t : BeTree) : option (option V) := get_loop (length (nodes t)) t key (root t) [].

Definition in_range (key : bytes) (lo hi : option bytes) : bool :=
  match lo with None => true | Some l => bytes_le l key end && match hi with None => true | Some h => bytes_le key h end.

Definition below_hi (hi : option bytes) (c : Child) : bool :=
  match bound c with None => true | Some b => match hi with None => true | Some h => bytes_le b h end end.

(** The buffered messages in range and the leaves, in the order of the visit. *)
Fixpoint collect_range (fuel : nat) (t : BeTree) (id : nat) (lo hi : option bytes) : option (list Message * list nat) :=
  n ← nodes t !! id;
  match n with
  | Leaf _ _ => Some ([], [id])
  | Internal _ cs buf =>
      match fuel with
      | O => None
      | S fuel =>
          parts ← mapM (λ c, collect_range fuel t (child_id c) lo hi) (filter (below_hi hi) cs);
          Some (filter (λ m, in_range (mkey m) lo hi) buf ++ concat (map fst parts), concat (map snd parts))
      end
  end.

Fixpoint scan_leaves (t : BeTree) (leaves : list nat) (lo hi : option bytes) (result : list (bytes * option V)) : option (list (bytes * option V)) :=
  match leaves with
  | [] => Some result
  | id :: leaves =>
      n ← nodes t !! id;
      scan_leaves t leaves lo hi
        (match n with
         | Leaf _ es => fold_left (λ r '(k, v), if in_range k lo hi then map_insert k (Some v) r else r) es result
         | Internal _ _ _ => result
         end)
  end.

Definition scan (lo hi : option bytes) (t : BeTree) : option (list (bytes * V)) :=
  '(msgs, leaves) ← collect_range (length (nodes t)) t (root t) lo hi;
  result ← scan_leaves t leaves lo hi [];
  let result := fold_left (λ r m, if in_range (mkey m) lo hi then map_insert (mkey m) (apply_op (mop m)) r else r) (sort_by_seq msgs) result in
  Some (omap (λ '(k, v), (λ v, (k, v)) <$> v) result).

(** ** Draining all buffers *)
Fixpoint collect_internal (fuel : nat) (t : BeTree) (stack : list nat) : option (list nat) :=
  match stack with
  | [] => Some []
  | id :: stack =>
      match fuel with
      | O => None
      | S fuel =>
          n ← nodes t !! id;
          match n with
          | Leaf _ _ => collect_internal fuel t stack
          | Internal _ cs _ => ids ← collect_internal fuel t (rev (map child_id cs) ++ stack); Some (id :: ids)
          end
      end
  end.
Definition collect_internal_ids (t : BeTree) : option (list nat) := collect_internal (length (nodes t)) t [root t].

Fixpoint flush_ids (ids : list nat) (t : BeTree) : option BeTree :=
  match ids with [] => Some t | id :: ids => t ← flush id t; flush_ids ids t end.

Fixpoint flush_rounds (rounds : nat) (t : BeTree) : option BeTree :=
  match rounds with
  | O => Some t
  | S rounds =>
      ids ← collect_internal_ids t; t ← flush_ids ids t;
      if (pending t =? 0)%N then Some t else flush_rounds rounds t
  end.
Definition flush_all (t : BeTree) : option BeTree := flush_rounds 128 t.

Fixpoint height_loop (fuel : nat) (t : BeTree) (cur h : nat) : option nat :=
  n ← nodes t !! cur;
  match n with
  | Leaf _ _ => Some h
  | Internal _ cs _ => match fuel with O => None | S fuel => c ← head cs; height_loop fuel t (child_id c) (S h) end
  end.
Definition height (t : BeTree) : option nat := height_loop (length (nodes t)) t (root t) 1.
End tree.
Arguments Op : clear implicits.
Arguments Message : clear implicits.
Arguments Node : clear implicits.
Arguments BeTree : clear implicits.
