(* ===== verification/BeTreeSpec.v ===== *)
(** * The Bε-tree of the cluster refines a map

    The tree of [BeTree] is described by a ghost assignment: a level and a key
    range for every node of the arena, the bindings of the leaves, and for
    every level and key the messages buffered there. Splits change the ranges
    alone; flushes move messages down without reordering those of a key. The
    refinement theorem follows: every run of insertions, deletions and flushes
    answers lookups as the map does. *)
From S2P Require Import Prelude BeTree.
From Stdlib Require Import NArith Lia Strings.Byte.
From stdpp Require Import base numbers option list functions sorting.
Local Open Scope nat_scope.

#[local] Abbreviation bytes := (list byte).

(** ** The order of keys *)
Lemma cmp_refl a : cmp a a = Eq.
Proof. induction a as [|x a IH]; [done|]. cbn [cmp]. by rewrite N.compare_refl. Qed.

Lemma to_N_inj x y : Byte.to_N x = Byte.to_N y → x = y.
Proof. intros H. apply (f_equal Byte.of_N) in H. rewrite !Byte.of_to_N in H. by simplify_eq. Qed.

Lemma cmp_eq a b : cmp a b = Eq → a = b.
Proof.
  revert b. induction a as [|x a IH]; intros [|y b]; cbn [cmp]; try done.
  destruct (N.compare_spec (Byte.to_N x) (Byte.to_N y)) as [E|E|E]; try done. apply to_N_inj in E as ->. intros H. by rewrite (IH b).
Qed.

Lemma cmp_opp a b : cmp b a = CompOpp (cmp a b).
Proof.
  revert b. induction a as [|x a IH]; intros [|y b]; cbn [cmp]; try done.
  rewrite N.compare_antisym. destruct (N.compare (Byte.to_N x) (Byte.to_N y)); cbn [CompOpp]; auto.
Qed.

Lemma cmp_lt_trans a b c : cmp a b = Lt → cmp b c = Lt → cmp a c = Lt.
Proof.
  revert b c. induction a as [|x a IH]; intros [|y b] [|z c]; cbn [cmp]; try done.
  destruct (N.compare_spec (Byte.to_N x) (Byte.to_N y)) as [E1|E1|E1];
    destruct (N.compare_spec (Byte.to_N y) (Byte.to_N z)) as [E2|E2|E2]; intros H1 H2; try done;
    destruct (N.compare_spec (Byte.to_N x) (Byte.to_N z)) as [E3|E3|E3]; try done; try lia. by apply (IH b c).
Qed.

Definition klt (a b : bytes) : Prop := cmp a b = Lt.
Definition kle (a b : bytes) : Prop := bytes_le a b = true.

#[local] Instance klt_dec a b : Decision (klt a b).
Proof. unfold klt. solve_decision. Defined.

Lemma kle_lt_eq a b : kle a b ↔ klt a b ∨ a = b.
Proof.
  unfold kle, bytes_le, klt. split.
  - destruct (cmp a b) eqn:E; [right; by apply cmp_eq|by left|done].
  - intros [-> | ->]; [done|by rewrite cmp_refl].
Qed.
Lemma key_lt_irrefl a : ¬ klt a a.
Proof. unfold klt. by rewrite cmp_refl. Qed.
Lemma key_lt_trans a b c : klt a b → klt b c → klt a c.
Proof. apply cmp_lt_trans. Qed.
Lemma not_klt a b : ¬ klt a b ↔ kle b a.
Proof. unfold klt, kle, bytes_le. rewrite (cmp_opp a b). destruct (cmp a b); naive_solver. Qed.
Lemma not_kle a b : ¬ kle a b ↔ klt b a.
Proof. rewrite <- not_klt. destruct (decide (klt b a)); naive_solver. Qed.
Lemma leb_false a b : bytes_le a b = false ↔ klt b a.
Proof. rewrite <- not_kle. unfold kle. by rewrite not_true_iff_false. Qed.
Lemma kle_refl a : kle a a.
Proof. apply kle_lt_eq. by right. Qed.
Lemma kle_trans a b c : kle a b → kle b c → kle a c.
Proof. rewrite !kle_lt_eq. intros [H1| ->] [H2| ->]; eauto using key_lt_trans. Qed.
Lemma klt_kle a b : klt a b → kle a b.
Proof. rewrite kle_lt_eq. by left. Qed.
Lemma klt_kle_trans a b c : klt a b → kle b c → klt a c.
Proof. rewrite kle_lt_eq. intros H [H'| ->]; eauto using key_lt_trans. Qed.
Lemma kle_klt_trans a b c : kle a b → klt b c → klt a c.
Proof. rewrite kle_lt_eq. intros [H| ->] H'; eauto using key_lt_trans. Qed.
Lemma klt_not_kle a b : klt a b → ¬ kle b a.
Proof. rewrite not_kle. done. Qed.
Lemma eqb_iff a b : bytes_eq a b = true ↔ a = b.
Proof. unfold bytes_eq. split; [|intros ->; by rewrite cmp_refl]. destruct (cmp a b) eqn:E; try done. intros _. by apply cmp_eq. Qed.

Create HintDb keys discriminated.
#[local] Hint Resolve kle_refl klt_kle kle_trans key_lt_trans klt_kle_trans kle_klt_trans : keys.

(** ** Ranges: from a bound, or from the start, to before a bound, or to the end *)
Definition ge_lo (lo : option bytes) (k : bytes) : Prop := match lo with None => True | Some l => kle l k end.
Definition lt_hi (hi : option bytes) (k : bytes) : Prop := match hi with None => True | Some h => klt k h end.
Definition in_rng (lo hi : option bytes) (k : bytes) : Prop := ge_lo lo k ∧ lt_hi hi k.
(** [s] is inside the range and not its start. *)
Definition inside (lo hi : option bytes) (s : bytes) : Prop := match lo with None => True | Some l => klt l s end ∧ lt_hi hi s.

Lemma inside_in lo hi s : inside lo hi s → in_rng lo hi s.
Proof. intros [Hl Hh]. split; [|done]. destruct lo; cbn in *; auto with keys. Qed.

Lemma rng_left lo hi s k : inside lo hi s → in_rng lo (Some s) k → in_rng lo hi k ∧ klt k s.
Proof. intros [Hl Hh] [Hl' Hh']. cbn in Hh'. split; [|done]. split; [done|]. destruct hi; cbn in *; eauto with keys. Qed.

Lemma rng_right lo hi s k : inside lo hi s → in_rng (Some s) hi k → in_rng lo hi k ∧ kle s k.
Proof. intros [Hl Hh] [Hl' Hh']. cbn in Hl'. split; [|done]. split; [|done]. destruct lo; cbn in *; eauto with keys. Qed.

Lemma rng_split lo hi s k : in_rng lo hi k → in_rng lo (Some s) k ∧ klt k s ∨ in_rng (Some s) hi k ∧ kle s k.
Proof. intros [Hl Hh]. destruct (decide (klt k s)) as [Hk|Hk]; [left|right; apply not_klt in Hk]; by repeat split. Qed.

(** ** Sorted association lists *)
Definition key_lt {A} (a b : bytes * A) : Prop := klt a.1 b.1.
Definition sorted_keys {A} (es : list (bytes * A)) : Prop := StronglySorted key_lt es.

Lemma strongly_sorted_app {A} (R : A → A → Prop) l1 l2 :
  StronglySorted R (l1 ++ l2) ↔ StronglySorted R l1 ∧ StronglySorted R l2 ∧ ∀ a b, a ∈ l1 → b ∈ l2 → R a b.
Proof.
  induction l1 as [|x l1 IH]; cbn [app].
  { split; [|naive_solver]. intros H. split; [constructor|]. split; [done|]. intros a b Ha. by apply elem_of_nil in Ha. }
  split.
  - intros H. apply StronglySorted_inv in H as [H Hx]. apply IH in H as (H1 & H2 & H3). rewrite Forall_forall in Hx.
    split; [constructor; [done|]; apply Forall_forall; intros y Hy; apply Hx, elem_of_app; by left|]. split; [done|].
    intros a b [-> |Ha]%elem_of_cons Hb; [apply Hx, elem_of_app; by right|by apply H3].
  - intros (H1 & H2 & H3). apply StronglySorted_inv in H1 as [H1 Hx]. rewrite Forall_forall in Hx. constructor.
    + apply IH. split_and!; [done..|]. intros a b Ha. apply H3. by right.
    + apply Forall_forall. intros y [Hy|Hy]%elem_of_app; [by apply Hx|apply H3; [by left|done]].
Qed.

Lemma sorted_app {A} (l1 l2 : list (bytes * A)) :
  sorted_keys (l1 ++ l2) ↔ sorted_keys l1 ∧ sorted_keys l2 ∧ ∀ x y, x ∈ l1 → y ∈ l2 → klt x.1 y.1.
Proof. apply strongly_sorted_app. Qed.

Lemma sorted_cons {A} (x : bytes * A) l : sorted_keys (x :: l) ↔ sorted_keys l ∧ ∀ y, y ∈ l → klt x.1 y.1.
Proof.
  unfold sorted_keys. split.
  - intros H. apply StronglySorted_inv in H as [H Hx]. split; [done|]. exact (proj1 (Forall_forall _ _) Hx).
  - intros [H Hx]. constructor; [done|]. by apply Forall_forall.
Qed.

Lemma find_entry_add {A} (es : list (bytes * A)) k i :
  find_entry es k i = match find_entry es k 0 with inl p => inl (i + p) | inr p => inr (i + p) end.
Proof.
  revert i. induction es as [|[k' v] es IH]; intros i; cbn [find_entry]; [by rewrite Nat.add_0_r|].
  destruct (cmp k' k); [by rewrite Nat.add_0_r| |by rewrite Nat.add_0_r].
  rewrite (IH (S i)), (IH 1). destruct (find_entry es k 0); f_equal; lia.
Qed.

(** Where the search ends. *)
Lemma find_entry_cases {A} (es : list (bytes * A)) k : sorted_keys es →
  (∃ l1 v l2, es = l1 ++ (k, v) :: l2 ∧ find_entry es k 0 = inl (length l1) ∧ (∀ x, x ∈ l1 → klt x.1 k) ∧ (∀ x, x ∈ l2 → klt k x.1)) ∨
  (∃ l1 l2, es = l1 ++ l2 ∧ find_entry es k 0 = inr (length l1) ∧ (∀ x, x ∈ l1 → klt x.1 k) ∧ (∀ x, x ∈ l2 → klt k x.1)).
Proof.
  induction es as [|[k' v'] es IH]; intros Hs.
  { right. exists [], []. split_and!; [done..| |]; intros x Hx; by apply elem_of_nil in Hx. }
  apply sorted_cons in Hs as [Hs Hx]. cbn [find_entry fst] in *. destruct (cmp k' k) eqn:E.
  - apply cmp_eq in E as ->. left. exists [], v', es. split_and!; [done..| |done]. intros x Hin. by apply elem_of_nil in Hin.
  - rewrite find_entry_add. destruct (IH Hs) as [(l1 & v & l2 & -> & -> & H1 & H2)|(l1 & l2 & -> & -> & H1 & H2)]; [left; exists ((k', v') :: l1), v, l2|right; exists ((k', v') :: l1), l2];
      (split_and!; [done..| |done]); intros x [-> |Hin]%elem_of_cons; try done; by apply H1.
  - right. exists [], ((k', v') :: es). assert (klt k k') as Hk by (unfold klt; by rewrite (cmp_opp k' k), E).
    split_and!; [done..| |]; intros x Hin; [by apply elem_of_nil in Hin|]. apply elem_of_cons in Hin as [-> |Hin]; [done|]. eapply key_lt_trans; [exact Hk|by apply Hx].
Qed.

Lemma entry_value_iff {V} (es : list (bytes * V)) k v : sorted_keys es → entry_value es k = Some v ↔ (k, v) ∈ es.
Proof.
  intros Hs. unfold entry_value. destruct (find_entry_cases es k Hs) as [(l1 & v' & l2 & -> & -> & H1 & H2)|(l1 & l2 & -> & -> & H1 & H2)].
  - rewrite list_lookup_middle by done. cbn. rewrite elem_of_app, elem_of_cons. split; [naive_solver|].
    intros [Hin|[?|Hin]]; [|by simplify_eq|]; [apply H1 in Hin|apply H2 in Hin]; by apply key_lt_irrefl in Hin.
  - split; [done|]. rewrite elem_of_app. intros [Hin|Hin]; [apply H1 in Hin|apply H2 in Hin]; by apply key_lt_irrefl in Hin.
Qed.

Lemma entry_value_ext {V} (es es' : list (bytes * V)) k : sorted_keys es → sorted_keys es' →
  (∀ v, (k, v) ∈ es ↔ (k, v) ∈ es') → entry_value es k = entry_value es' k.
Proof. intros H H' Hin. apply option_eq. intros v. by rewrite !entry_value_iff. Qed.

(** Upserting and removing keep the list sorted and change one binding. *)
Definition upserted {V} (es : list (bytes * V)) (k : bytes) (o : option V) (es' : list (bytes * V)) : Prop :=
  sorted_keys es' ∧ (∀ x, x ∈ es' → x ∈ es ∨ x.1 = k) ∧ ∀ k', entry_value es' k' = if decide (k' = k) then o else entry_value es k'.

Lemma upserted_intro {V} (es es' : list (bytes * V)) k o l1 l2 m m' : sorted_keys es → sorted_keys es' →
  es = l1 ++ m ++ l2 → es' = l1 ++ m' ++ l2 → (∀ x, x ∈ m → x.1 = k) → m' = match o with Some v => [(k, v)] | None => [] end →
  (∀ x, x ∈ l1 → klt x.1 k) → (∀ x, x ∈ l2 → klt k x.1) → upserted es k o es'.
Proof.
  intros Hs Hs' Ees Ees' Hm Em' H1 H2. split; [done|]. split.
  - intros x Hx. rewrite Ees' in Hx. rewrite Ees. rewrite !elem_of_app in *. destruct Hx as [Hx|[Hx|Hx]]; [naive_solver| |naive_solver].
    right. rewrite Em' in Hx. destruct o; [apply list_elem_of_singleton in Hx as ->; done|by apply elem_of_nil in Hx].
  - intros k'. case_decide as Hk.
    + subst k'. apply option_eq. intros v. rewrite entry_value_iff by done. rewrite Ees', !elem_of_app, Em'.
      split; [|intros ->; right; left; by apply list_elem_of_singleton].
      intros [Hx|[Hx|Hx]]; [by apply H1, key_lt_irrefl in Hx| |by apply H2, key_lt_irrefl in Hx].
      destruct o; [apply list_elem_of_singleton in Hx; by simplify_eq|by apply elem_of_nil in Hx].
    + apply entry_value_ext; [done..|]. intros v. rewrite Ees, Ees', !elem_of_app.
      assert ((k', v) ∉ m) by (intros Hx; by apply Hm in Hx).
      assert ((k', v) ∉ m') by (rewrite Em'; destruct o; [intros Hx; apply list_elem_of_singleton in Hx; by simplify_eq|apply not_elem_of_nil]).
      naive_solver.
Qed.

Lemma sorted_insert_mid {V} (l1 l2 : list (bytes * V)) k v : sorted_keys (l1 ++ l2) → (∀ x, x ∈ l1 → klt x.1 k) → (∀ x, x ∈ l2 → klt k x.1) →
  sorted_keys (l1 ++ (k, v) :: l2).
Proof.
  intros Hs H1 H2. apply sorted_app in Hs as (Hs1 & Hs2 & H12). apply sorted_app. split_and!; [done|apply sorted_cons; by split|].
  intros x y Hx Hy. apply elem_of_cons in Hy as [-> |Hy]; [by apply H1|by apply H12].
Qed.

Lemma sorted_remove_mid {V} (l1 l2 : list (bytes * V)) x : sorted_keys (l1 ++ x :: l2) → sorted_keys (l1 ++ l2).
Proof.
  intros Hs. apply sorted_app in Hs as (Hs1 & Hs2 & H12). apply sorted_cons in Hs2 as [Hs2 _]. apply sorted_app.
  split_and!; [done..|]. intros a b Ha Hb. apply H12; [done|by right].
Qed.

#[local] Instance child_eq_dec : EqDecision Child.
Proof. solve_decision. Defined.

Section spec.
Context {V : Type}.
Implicit Types (t : BeTree V) (msg : Message V) (id : nat).

(** What a message does to a leaf. *)
Lemma apply_to_leaf_ok t id p es msg : nodes t !! id = Some (Leaf p es) → sorted_keys es →
  ∃ es' live', apply_to_leaf id msg t = Some (with_live live' (set_node id (Leaf p es') t)) ∧
    upserted es (mkey msg) (apply_op (mop msg)) es' ∧
    ∀ n, live_entries t = wrap64 (N.of_nat (length es) + n) → live' = wrap64 (N.of_nat (length es') + n).
Proof.
  intros Hn Hs. unfold apply_to_leaf. rewrite Hn. cbn [mbind option_bind].
  destruct (find_entry_cases es (mkey msg) Hs) as [(l1 & v & l2 & Ees & -> & H1 & H2)|(l1 & l2 & Ees & -> & H1 & H2)].
  - destruct (mop msg) as [v'|] eqn:Eop; cbn [apply_op].
    + exists (l1 ++ (mkey msg, v') :: l2), (live_entries t). split; [|split].
      * f_equal. rewrite Ees at 1. rewrite insert_app_r_alt, Nat.sub_diag by lia. cbn. by destruct t.
      * apply (upserted_intro _ _ _ _ l1 l2 [(mkey msg, v)] [(mkey msg, v')]); try done.
        -- apply sorted_insert_mid; [|done..]. rewrite Ees in Hs. by apply sorted_remove_mid in Hs.
        -- intros x Hx. by apply list_elem_of_singleton in Hx as ->.
      * intros n ->. rewrite Ees, !length_app. done.
    + exists (l1 ++ l2), (wsub64 (live_entries t) 1). split; [|split].
      * f_equal. rewrite Ees at 1. unfold remove_at. rewrite take_app_length. f_equal. f_equal. f_equal. f_equal.
        rewrite (cons_middle _ l1 l2), (assoc_L (++)). rewrite drop_app_length' by (rewrite length_app; cbn; lia). done.
      * apply (upserted_intro _ _ _ _ l1 l2 [(mkey msg, v)] []); try done.
        -- rewrite Ees in Hs. by apply sorted_remove_mid in Hs.
        -- intros x Hx. by apply list_elem_of_singleton in Hx as ->.
      * intros n ->. rewrite Ees, !length_app. cbn [length]. change 1%N with (wrap64 1).
        replace (N.of_nat (length l1 + S (length l2)) + n)%N with (N.of_nat (length l1 + length l2) + n + 1)%N by lia. apply wsub64_wrap.
  - destruct (mop msg) as [v'|] eqn:Eop; cbn [apply_op].
    + exists (l1 ++ (mkey msg, v') :: l2), (wadd64 (live_entries t) 1). split; [|split].
      * f_equal. unfold insert_at. rewrite Ees at 1 2. by rewrite take_app_length, drop_app_length.
      * apply (upserted_intro _ _ _ _ l1 l2 [] [(mkey msg, v')]); try done.
        -- apply sorted_insert_mid; [|done..]. by rewrite <- Ees.
        -- intros x Hx. by apply elem_of_nil in Hx.
      * intros n ->. rewrite Ees, !length_app. cbn [length]. rewrite wadd64_wrap. f_equal. lia.
    + exists es, (live_entries t). split; [|split; [|done]].
      * f_equal. unfold set_node. rewrite list_insert_id by done. by destruct t.
      * apply (upserted_intro _ _ _ _ l1 l2 [] []); try done. intros x Hx. by apply elem_of_nil in Hx.
Qed.

(** ** Children of a node

    [chain lo hi l h cs]: the children [cs] cut the range from [l] to [h] in
    order, where [lo] and [hi] are the ranges of the nodes. *)
Fixpoint chain (lo hi : nat → option bytes) (l h : option bytes) (cs : list Child) : Prop :=
  match cs with
  | [] => False
  | c :: cs' =>
      bound c = l ∧ lo (child_id c) = l ∧
      match cs' with
      | [] => hi (child_id c) = h
      | c' :: _ => hi (child_id c) = bound c' ∧ (∃ b, bound c' = Some b ∧ inside l h b) ∧ chain lo hi (bound c') h cs'
      end
  end.
#[local] Arguments chain : simpl never.

Lemma chain_cons lo hi l h c cs : chain lo hi l h (c :: cs) ↔
  bound c = l ∧ lo (child_id c) = l ∧
  (cs = [] ∧ hi (child_id c) = h ∨
   ∃ b c' cs', cs = c' :: cs' ∧ bound c' = Some b ∧ hi (child_id c) = Some b ∧ inside l h b ∧ chain lo hi (Some b) h cs).
Proof.
  unfold chain at 1; fold chain. destruct cs as [|c' cs']; [naive_solver|]. split.
  - intros (H1 & H2 & H3 & (b & H4 & H5) & H6). split_and!; [done..|]. right. exists b, c', cs'. rewrite H4 in *. done.
  - intros (H1 & H2 & [[? _]|(b & c0 & cs0 & ? & H4 & H5 & H6 & H7)]); [done|]. simplify_eq. rewrite H4 in *. naive_solver.
Qed.

Lemma choose_chain lo hi l h cs k d : chain lo hi l h cs → in_rng l h k →
  ∃ c, c ∈ cs ∧ choose k cs d = child_id c ∧ in_rng (lo (child_id c)) (hi (child_id c)) k.
Proof.
  revert l d. induction cs as [|c cs IH]; intros l d Hc Hk; [done|]. apply chain_cons in Hc as (Hb & Hlo & Hr).
  assert (choose k (c :: cs) d = choose k cs (child_id c)) as ->.
  { cbn [choose]. rewrite Hb. destruct l as [b|]; [|done]. destruct Hk as [Hk _]. cbn in Hk. by rewrite Hk. }
  destruct Hr as [[-> Hhi]|(b & c' & cs' & -> & Hb' & Hhi & Hin & Hch)].
  { exists c. split_and!; [by left|done|]. by rewrite Hlo, Hhi. }
  destruct (decide (klt k b)) as [Hlt|Hge].
  - exists c. split_and!; [by left| |].
    + cbn [choose]. rewrite Hb'. by apply leb_false in Hlt as ->.
    + rewrite Hlo, Hhi. split; [apply Hk|done].
  - apply not_klt in Hge. destruct (IH (Some b) (child_id c) Hch) as (c2 & Hin2 & Hc2 & Hr2); [split; [done|apply Hk]|].
    exists c2. split_and!; [by right|done..].
Qed.

Lemma route_chain lo hi l h cs k : chain lo hi l h cs → in_rng l h k →
  ∃ c, c ∈ cs ∧ route_in cs k = Some (child_id c) ∧ in_rng (lo (child_id c)) (hi (child_id c)) k.
Proof.
  intros Hc Hk. destruct cs as [|c cs]; [done|]. destruct (choose_chain _ _ _ _ _ k (child_id c) Hc Hk) as (c' & H1 & H2 & H3).
  exists c'. split_and!; [done| |done]. unfold route_in. by rewrite H2.
Qed.

Lemma chain_sub lo hi l h cs c k : chain lo hi l h cs → c ∈ cs → in_rng (lo (child_id c)) (hi (child_id c)) k → in_rng l h k.
Proof.
  revert l. induction cs as [|c0 cs IH]; intros l Hc Hin Hk; [done|].
  apply chain_cons in Hc as (Hb & Hlo & [[-> Hhi]|(b & c' & cs' & -> & Hb' & Hhi & Hins & Hch)]).
  - apply list_elem_of_singleton in Hin as ->. by rewrite Hlo, Hhi in Hk.
  - apply elem_of_cons in Hin as [-> |Hin].
    + rewrite Hlo, Hhi in Hk. by apply (rng_left l h b k Hins) in Hk as [? _].
    + by apply (rng_right l h b k Hins), (IH (Some b)).
Qed.

Lemma chain_lo lo hi l h cs c : chain lo hi l h cs → c ∈ cs → lo (child_id c) = bound c ∧
  (bound c = l ∨ ∃ b, bound c = Some b ∧ inside l h b).
Proof.
  revert l. induction cs as [|c0 cs IH]; intros l Hc Hin; [done|].
  apply chain_cons in Hc as (Hb & Hlo & Hr). apply elem_of_cons in Hin as [-> |Hin]; [split; [congruence|by left]|].
  destruct Hr as [[-> _]|(b & c' & cs' & -> & Hb' & Hhi & Hins & Hch)]; [by apply elem_of_nil in Hin|].
  destruct (IH (Some b) Hch Hin) as [H1 H2]. split; [done|]. right. destruct H2 as [-> |(b2 & -> & Hb2)]; [by exists b|].
  exists b2. split; [done|]. destruct Hb2 as [Hb2 Hh]. destruct Hins as [Hl _]. split; [|done]. destruct l; [|done]. cbn in *. eauto with keys.
Qed.

Lemma chain_unique lo hi l h cs c1 c2 k : chain lo hi l h cs → c1 ∈ cs → c2 ∈ cs →
  in_rng (lo (child_id c1)) (hi (child_id c1)) k → in_rng (lo (child_id c2)) (hi (child_id c2)) k → child_id c1 = child_id c2.
Proof.
  revert l. induction cs as [|c0 cs IH]; intros l Hc H1 H2 K1 K2; [done|].
  apply chain_cons in Hc as (Hb & Hlo & [[-> Hhi]|(b & c' & cs' & -> & Hb' & Hhi & Hins & Hch)]).
  { apply list_elem_of_singleton in H1 as ->. by apply list_elem_of_singleton in H2 as ->. }
  assert (∀ c, c ∈ c' :: cs' → in_rng (lo (child_id c)) (hi (child_id c)) k → in_rng (lo (child_id c0)) (hi (child_id c0)) k → False) as Hno.
  { intros c Hin Hk [_ Hk0]. apply (chain_sub _ _ _ _ _ _ _ Hch Hin) in Hk as [Hk _]. rewrite Hhi in Hk0. cbn in *. by apply klt_not_kle in Hk0. }
  apply elem_of_cons in H1 as [-> |H1]; apply elem_of_cons in H2 as [-> |H2]; [done| | |by apply (IH (Some b))]; exfalso; eauto.
Qed.

Lemma chain_head_fresh lo hi l h c cs : chain lo hi l h (c :: cs) → child_id c ∉ map child_id cs.
Proof.
  intros Hc Hin. apply chain_cons in Hc as (Hb & Hlo & [[-> _]|(b & c' & cs' & -> & Hb' & Hhi & Hins & Hch)]); [by apply elem_of_nil in Hin|].
  apply list_elem_of_In, in_map_iff in Hin as (c2 & E & Hin). apply list_elem_of_In in Hin.
  destruct (chain_lo _ _ _ _ _ _ Hch Hin) as [H1 H2]. rewrite E, Hlo in H1. destruct Hins as [Hl _].
  destruct H2 as [H2|(b2 & H2 & [Hb2 _])]; rewrite H2 in H1; rewrite H1 in Hl; cbn in *; [by apply key_lt_irrefl in Hl|].
  eapply key_lt_irrefl, key_lt_trans; [exact Hl|exact Hb2].
Qed.

Lemma chain_ext lo hi lo' hi' l h cs : (∀ c, c ∈ cs → lo' (child_id c) = lo (child_id c) ∧ hi' (child_id c) = hi (child_id c)) →
  chain lo hi l h cs → chain lo' hi' l h cs.
Proof.
  revert l. induction cs as [|c cs IH]; intros l He Hc; [done|]. destruct (He c ltac:(by left)) as [E1 E2].
  apply chain_cons in Hc as (Hb & Hlo & Hr). apply chain_cons. rewrite E1, E2. split_and!; [done..|].
  destruct Hr as [?|(b & c' & cs' & -> & Hb' & Hhi & Hins & Hch)]; [by left|]. right. exists b, c', cs'. split_and!; [done..|].
  apply IH; [|done]. intros c0 Hc0. apply He. by right.
Qed.

Lemma chain_split lo hi l h cs1 c cs2 : chain lo hi l h (cs1 ++ c :: cs2) → cs1 ≠ [] →
  ∃ s, bound c = Some s ∧ inside l h s ∧ chain lo hi l (Some s) cs1 ∧ chain lo hi (Some s) h (c :: cs2).
Proof.
  revert l. induction cs1 as [|c0 cs1 IH]; intros l Hc Hne; [done|]. cbn [app] in Hc.
  apply chain_cons in Hc as (Hb & Hlo & [[? _]|(b & c' & cs' & E & Hb' & Hhi & Hins & Hch)]); [by destruct cs1|].
  destruct cs1 as [|c1 cs1]; cbn [app] in *; injection E as <- <-.
  - exists b. split_and!; [done..| |done]. apply chain_cons. split_and!; [done..|]. by left.
  - destruct (IH (Some b) Hch) as (s & Hs & Hins' & H1 & H2); [done|]. exists s.
    assert (klt b s) as Hbs by (by destruct Hins' as [? _]).
    split_and!; [done| | |done].
    + destruct Hins as [Hl _], Hins' as [_ Hh]. split; [|done]. destruct l; [|done]. cbn in *. eauto with keys.
    + apply chain_cons. split_and!; [done..|]. right. exists b, c1, cs1. split_and!; [done..| |done]. split; [apply Hins|done].
Qed.

Lemma child_pos_add cs b i : child_pos cs b i = i + child_pos cs b 0.
Proof.
  revert i. induction cs as [|c cs IH]; intros i; cbn [child_pos]; [lia|]. rewrite (IH (S i)), (IH 1).
  destruct (bound c) as [b'|]; [destruct (cmp b' b)|]; lia.
Qed.

Lemma insert_at_S {A} i (x y : A) l : insert_at (S i) x (y :: l) = y :: insert_at i x l.
Proof. done. Qed.

(** A new sibling takes the upper part of the range of [c]. *)
Lemma chain_insert lo hi lo' hi' l h cs c s r : chain lo hi l h cs → c ∈ cs → inside (lo (child_id c)) (hi (child_id c)) s →
  lo' r = Some s → hi' r = hi (child_id c) → lo' (child_id c) = lo (child_id c) → hi' (child_id c) = Some s →
  (∀ c2, c2 ∈ cs → child_id c2 ≠ child_id c → lo' (child_id c2) = lo (child_id c2) ∧ hi' (child_id c2) = hi (child_id c2)) →
  chain lo' hi' l h (insert_at (child_pos cs s 0) (mkChild (Some s) r) cs).
Proof.
  revert l. induction cs as [|c0 cs IH]; intros l Hc Hin Hins Hlr Hhr Hlc Hhc Hoth; [done|].
  pose proof (chain_head_fresh _ _ _ _ _ _ Hc) as Hfresh. apply chain_cons in Hc as (Hb & Hlo & Hr).
  assert (lt_bound : match bound c0 with None => True | Some b => klt b s end).
  { destruct (decide (c0 = c)) as [->|Hne].
    - rewrite Hb. destruct Hins as [Hl _]. by rewrite Hlo in Hl.
    - apply elem_of_cons in Hin as [|Hin]; [done|]. destruct Hr as [[-> _]|(b & c' & cs' & -> & Hb' & Hhi & Hi & Hch)]; [by apply elem_of_nil in Hin|].
      pose proof (inside_in _ _ _ Hins) as Hk. apply (chain_sub _ _ _ _ _ _ _ Hch Hin) in Hk as [Hk _]. cbn in Hk. destruct Hi as [Hi _].
      rewrite Hb. destruct l; [|done]. cbn in Hi. eauto with keys. }
  assert (child_pos (c0 :: cs) s 0 = S (child_pos cs s 0)) as ->.
  { cbn [child_pos]. rewrite (child_pos_add cs s 1). destruct (bound c0) as [b0|]; [|lia]. unfold klt in lt_bound. rewrite lt_bound. lia. }
  rewrite insert_at_S. destruct (decide (c0 = c)) as [->|Hne].
  - destruct Hr as [[-> Hhi]|(b & c' & cs' & -> & Hb' & Hhi & Hi & Hch)].
    + cbn [child_pos]. unfold insert_at. cbn [take drop app]. rewrite Hlo, Hhi in Hins. apply chain_cons. split_and!; [done|congruence|]. right.
      exists s, (mkChild (Some s) r), []. split_and!; [done..|]. apply chain_cons. split_and!; [done|done|]. left. split; [done|]. cbn [child_id]. congruence.
    + assert (klt s b) as Hsb by (destruct Hins as [_ Hh]; rewrite Hhi in Hh; exact Hh).
      assert (child_pos (c' :: cs') s 0 = 0) as ->.
      { cbn [child_pos]. rewrite Hb', (cmp_opp s b). unfold klt in Hsb. by rewrite Hsb. }
      unfold insert_at. cbn [take drop app].
      assert (inside l h s) as Hls.
      { rewrite Hlo, Hhi in Hins. destruct Hins as [Hl _]. split; [done|]. destruct Hi as [_ Hh]. destruct h; [|done]. cbn in *. eauto with keys. }
      apply chain_cons. split_and!; [done|congruence|]. right. exists s, (mkChild (Some s) r), (c' :: cs'). split_and!; [done..|].
      apply chain_cons. split_and!; [done|done|]. right. exists b, c', cs'. split_and!; [done|done|cbn [child_id]; congruence| |].
      * split; [done|apply Hi].
      * apply (chain_ext lo hi); [|done]. intros c2 H2. apply Hoth; [by right|]. intros E. apply Hfresh. rewrite <- E.
        apply list_elem_of_In, in_map, list_elem_of_In. exact H2.
  - apply elem_of_cons in Hin as [|Hin]; [done|]. destruct Hr as [[-> _]|(b & c' & cs' & E & Hb' & Hhi & Hi & Hch)]; [by apply elem_of_nil in Hin|].
    assert (child_id c0 ≠ child_id c) as Hid.
    { intros Eid. apply Hfresh. rewrite Eid. apply list_elem_of_In, in_map, list_elem_of_In. exact Hin. }
    destruct (Hoth c0 ltac:(by left) Hid) as [E1 E2].
    assert (chain lo' hi' (Some b) h (insert_at (child_pos cs s 0) (mkChild (Some s) r) cs)) as Hch'.
    { apply IH; [by rewrite E in *|done..|]. intros c2 H2. apply Hoth. by right. }
    apply chain_cons. split_and!; [done|congruence|]. right.
    destruct (insert_at (child_pos cs s 0) (mkChild (Some s) r) cs) as [|c1 cs1] eqn:Ei; [done|].
    exists b, c1, cs1. pose proof Hch' as Hh. apply chain_cons in Hh as (Hb1 & _). split_and!; [done|done|congruence|done|done].
Qed.

(** ** The ghost assignment *)
Record ghost := mkGhost {
  gH : nat;                            (** level of the root *)
  glvl : nat → nat;
  glo : nat → option bytes;
  ghi : nat → option bytes;
  gbase : bytes → option V;            (** the bindings of the leaves *)
  gmsgs : nat → bytes → list (Message V)  (** the buffered messages of a level and key *)
}.
Implicit Types g : ghost.

Definition parent (n : Node V) : option nat := match n with Internal p _ _ => p | Leaf p _ => p end.
Definition kids (n : Node V) : list Child := match n with Internal _ cs _ => cs | Leaf _ _ => [] end.
Definition reparent (q : option nat) (n : Node V) : Node V := match n with Internal _ cs b => Internal q cs b | Leaf _ es => Leaf q es end.
Definition owns g (id : nat) (k : bytes) : Prop := in_rng (glo g id) (ghi g id) k.
Definition msgs_for (k : bytes) (buf : list (Message V)) : list (Message V) := filter (λ m, bytes_eq (mkey m) k) buf.

(** A node holds what the ghost says for the keys of its range. *)
Definition content_ok g (id : nat) (n : Node V) : Prop :=
  match n with
  | Leaf _ es =>
      glvl g id = 0 ∧ sorted_keys es ∧ (∀ x, x ∈ es → owns g id x.1) ∧ ∀ k, owns g id k → entry_value es k = gbase g k
  | Internal _ cs buf =>
      ∃ l, glvl g id = S l ∧ chain (glo g) (ghi g) (glo g id) (ghi g id) cs ∧ (∀ c, c ∈ cs → glvl g (child_id c) = l) ∧
        (∀ m, m ∈ buf → owns g id (mkey m)) ∧ ∀ k, owns g id k → msgs_for k buf = gmsgs g (S l) k
  end.

(** The arena as a partial function, so that a node can be added at any index. *)
Definition arena : Type := nat → option (Node V).
Implicit Types M : arena.

(** Children point back to their parent, and the parent lists the node. *)
Definition kids_linked M (id : nat) (n : Node V) : Prop :=
  ∀ c, c ∈ kids n → ∃ n', M (child_id c) = Some n' ∧ parent n' = Some id.
Definition parent_linked M (id : nat) (n : Node V) : Prop :=
  ∀ p, parent n = Some p → ∃ n' c, M p = Some n' ∧ c ∈ kids n' ∧ child_id c = id.

Record arena_ok M (rt : nat) g : Prop := {
  ao_content : ∀ id n, M id = Some n → content_ok g id n;
  ao_kids : ∀ id n, M id = Some n → kids_linked M id n;
  ao_parent : ∀ id n, M id = Some n → parent_linked M id n;
  ao_orphan : ∀ id n, M id = Some n → parent n = None → id = rt;
  ao_level : ∀ id n, M id = Some n → glvl g id ≤ gH g;
  ao_root : ∃ n, M rt = Some n ∧ parent n = None;
  ao_top : glvl g rt = gH g ∧ glo g rt = None ∧ ghi g rt = None;
  ao_empty : ∀ l k, gH g < l → gmsgs g l k = []
}.

Lemma kid_facts M rt g p n c : arena_ok M rt g → M p = Some n → c ∈ kids n →
  ∃ n', M (child_id c) = Some n' ∧ parent n' = Some p ∧ glvl g p = S (glvl g (child_id c)) ∧ ∀ k, owns g (child_id c) k → owns g p k.
Proof.
  intros Hok Hp Hc. pose proof (ao_content _ _ _ Hok p n Hp) as Hcon. destruct (ao_kids _ _ _ Hok p n Hp c Hc) as (n' & Hn' & Hpar).
  exists n'. destruct n as [pp cs buf|]; [|by apply elem_of_nil in Hc]. destruct Hcon as (l & Hl & Hch & Hlv & _). cbn [kids] in Hc.
  split_and!; [done..| |].
  - by rewrite Hl, (Hlv c Hc).
  - intros k. by apply chain_sub with (cs := cs).
Qed.

(** Which node has a parent, and which. *)
Lemma parent_facts M rt g id n p : arena_ok M rt g → M id = Some n → parent n = Some p →
  ∃ pp cs buf c, M p = Some (Internal pp cs buf) ∧ c ∈ cs ∧ child_id c = id ∧ glvl g p = S (glvl g id) ∧ ∀ k, owns g id k → owns g p k.
Proof.
  intros Hok Hn Hp. destruct (ao_parent _ _ _ Hok id n Hn p Hp) as (np & c & Hnp & Hc & <-).
  destruct (kid_facts M rt g p np c Hok Hnp Hc) as (_ & _ & _ & Hlv & Hown).
  destruct np as [pp cs buf|]; [|by apply elem_of_nil in Hc]. by exists pp, cs, buf, c.
Qed.

Lemma unique_owner M rt g a b na nb k : arena_ok M rt g → M a = Some na → M b = Some nb → glvl g a = glvl g b →
  owns g a k → owns g b k → a = b.
Proof.
  intros Hok. remember (gH g - glvl g a) as d eqn:Hd. revert a b na nb Hd. induction d as [d IH] using lt_wf_ind. intros a b na nb -> Ha Hb Hlv Ka Kb.
  pose proof (ao_orphan _ _ _ Hok a na Ha) as Hra. pose proof (ao_orphan _ _ _ Hok b nb Hb) as Hrb.
  destruct (ao_top _ _ _ Hok) as (HtopH & _). pose proof (ao_level _ _ _ Hok) as Hlev.
  destruct (parent na) as [pa|] eqn:Ea; [|destruct (parent nb) as [pb|] eqn:Eb].
  - destruct (parent_facts M rt g a na pa Hok Ha Ea) as (ppa & csa & bufa & ca & Hpa & Hca & Eca & Hlpa & Hka).
    destruct (ao_content _ _ _ Hok pa _ Hpa) as (la & Hlla & Hcha & _). pose proof (Hlev _ _ Hpa).
    destruct (parent nb) as [pb|] eqn:Eb.
    + destruct (parent_facts M rt g b nb pb Hok Hb Eb) as (ppb & csb & bufb & cb & Hpb & Hcb & Ecb & Hlpb & Hkb).
      assert (pa = pb) as <- by (eapply (IH (gH g - glvl g pa)); [lia|done|done|done|lia|by apply Hka|by apply Hkb]).
      rewrite Hpa in Hpb. simplify_eq. exact (chain_unique _ _ _ _ _ _ _ k Hcha Hca Hcb Ka Kb).
    + rewrite (Hrb eq_refl) in Hlv. lia.
  - destruct (parent_facts M rt g b nb pb Hok Hb Eb) as (ppb & csb & bufb & cb & Hpb & Hcb & Ecb & Hlpb & Hkb).
    pose proof (Hlev _ _ Hpb). rewrite (Hra eq_refl) in Hlv. lia.
  - by rewrite (Hra eq_refl), (Hrb eq_refl).
Qed.

Lemma chain_nodup lo hi l h cs : chain lo hi l h cs → NoDup (map child_id cs).
Proof.
  revert l. induction cs as [|c cs IH]; intros l Hc; [done|]. constructor; [by eapply chain_head_fresh|].
  apply chain_cons in Hc as (_ & _ & [[-> _]|(b & c' & cs' & -> & _ & _ & _ & Hch)]); [constructor|by eapply IH].
Qed.

Lemma content_reparent g id q n : content_ok g id (reparent q n) ↔ content_ok g id n.
Proof. by destruct n. Qed.
Lemma kids_reparent q n : kids (reparent q n) = kids n.
Proof. by destruct n. Qed.
Lemma parent_reparent q n : parent (reparent q n) = q.
Proof. by destruct n. Qed.

Lemma arena_ok_ext M M' rt g : (∀ j, M' j = M j) → arena_ok M rt g → arena_ok M' rt g.
Proof.
  intros HE [Hc Hk Hp Ho Hl (n & Hr & Hrn) Ht He]. split; try done.
  - intros id nd H. rewrite HE in H. eauto.
  - intros id nd H. rewrite HE in H. intros c Hin. rewrite HE. by apply (Hk id nd).
  - intros id nd H. rewrite HE in H. intros p Hin. rewrite HE. by apply (Hp id nd).
  - intros id nd H. rewrite HE in H. eauto.
  - intros id nd H. rewrite HE in H. eauto.
  - exists n. by rewrite HE.
Qed.

(** ** One split: the upper half of a node's range moves to a new sibling *)
Definition gsplit (id r : nat) (s : bytes) g : ghost :=
  mkGhost (gH g) (<[r := glvl g id]> (glvl g)) (<[r := Some s]> (glo g)) (<[r := ghi g id]> (<[id := Some s]> (ghi g))) (gbase g) (gmsgs g).

Definition split_arena M (id p r : nat) (np ndl ndr : Node V) : arena := λ j,
  if decide (j = r) then Some (reparent (Some p) ndr)
  else if decide (j = id) then Some ndl
  else if decide (j ∈ map child_id (kids ndr)) then reparent (Some r) <$> M j
  else if decide (j = p) then Some np
  else M j.

Section split_step.
Context (M : arena) (rt : nat) (g : ghost) (id p r : nat) (s : bytes) (nd ndl ndr : Node V).
Context (pp : option nat) (cs : list Child) (buf : list (Message V)).
Let g' := gsplit id r s g.
Let cs' := insert_at (child_pos cs s 0) (mkChild (Some s) r) cs.
Let np := Internal pp cs' buf.
Let M' := split_arena M id p r np ndl ndr.
Hypothesis Hok : arena_ok M rt g.
Hypothesis Hid : M id = Some nd.
Hypothesis Hpar : parent nd = Some p.
Hypothesis Hp : M p = Some (Internal pp cs buf).
Hypothesis Hr : M r = None.
Hypothesis Hins : inside (glo g id) (ghi g id) s.
Hypothesis Hl : content_ok g' id ndl.
Hypothesis Hrt : content_ok g' r ndr.
Hypothesis Hlp : parent ndl = Some p.
Hypothesis Hkids : kids nd = kids ndl ++ kids ndr.

Lemma split_not_r j n : M j = Some n → j ≠ r.
Proof. intros H ->. by rewrite Hr in H. Qed.

Lemma split_p_lvl : glvl g p = S (glvl g id).
Proof. by destruct (parent_facts M rt g id nd p Hok Hid Hpar) as (? & ? & ? & ? & _ & _ & _ & ? & _). Qed.

Lemma split_cs' c : c ∈ cs' ↔ c = mkChild (Some s) r ∨ c ∈ cs.
Proof.
  unfold cs', insert_at. set (i := child_pos cs s 0). assert (c ∈ cs ↔ c ∈ take i cs ∨ c ∈ drop i cs) as -> by (by rewrite <- elem_of_app, take_drop).
  rewrite elem_of_app, elem_of_cons. tauto.
Qed.

Lemma split_id_kid c : c ∈ kids nd → ∃ nc, M (child_id c) = Some nc ∧ parent nc = Some id ∧ S (glvl g (child_id c)) = glvl g id.
Proof. intros Hc. destruct (kid_facts M rt g id nd c Hok Hid Hc) as (nc & ? & ? & ? & _). by exists nc. Qed.

Lemma split_right_kid j : j ∈ map child_id (kids ndr) → ∃ nj, M j = Some nj ∧ parent nj = Some id ∧ S (glvl g j) = glvl g id.
Proof.
  intros H. apply list_elem_of_In, in_map_iff in H as (c & <- & H). apply list_elem_of_In in H.
  apply split_id_kid. rewrite Hkids. apply elem_of_app. by right.
Qed.

Lemma split_lookup_r : M' r = Some (reparent (Some p) ndr).
Proof. unfold M', split_arena. by rewrite decide_True. Qed.
Lemma split_lookup_id : M' id = Some ndl.
Proof. unfold M', split_arena. rewrite decide_False by (by apply (split_not_r id nd)). by rewrite decide_True. Qed.
Lemma split_lookup_kid j : j ∈ map child_id (kids ndr) → M' j = reparent (Some r) <$> M j.
Proof.
  intros H. destruct (split_right_kid j H) as (nj & Hj & Hpj & Hlj). unfold M', split_arena.
  rewrite decide_False by (by apply (split_not_r j nj)). rewrite decide_False by (intros ->; lia). by rewrite decide_True.
Qed.
Lemma split_lookup_p : M' p = Some np.
Proof.
  unfold M', split_arena. rewrite decide_False by (by apply (split_not_r p _ Hp)). rewrite decide_False by (intros E; pose proof split_p_lvl as E'; rewrite E in E'; lia).
  rewrite decide_False; [by rewrite decide_True|]. intros H. destruct (split_right_kid p H) as (_ & _ & _ & E). pose proof split_p_lvl. lia.
Qed.
Lemma split_lookup_other j : j ≠ r → j ≠ id → j ∉ map child_id (kids ndr) → j ≠ p → M' j = M j.
Proof. intros. unfold M', split_arena. by rewrite !decide_False. Qed.

(** The cases of a node of the new arena. *)
Lemma split_cases (P : nat → Node V → Prop) : P r (reparent (Some p) ndr) → P id ndl → P p np →
  (∀ j n, j ∈ map child_id (kids ndr) → M j = Some n → P j (reparent (Some r) n)) →
  (∀ j n, j ≠ r → j ≠ id → j ≠ p → j ∉ map child_id (kids ndr) → M j = Some n → P j n) →
  ∀ j n, M' j = Some n → P j n.
Proof.
  intros P1 P2 P3 P4 P5 j n. destruct (decide (j = r)) as [->|N1]; [rewrite split_lookup_r; by intros [= <-]|].
  destruct (decide (j = id)) as [->|N2]; [rewrite split_lookup_id; by intros [= <-]|].
  destruct (decide (j = p)) as [->|N3]; [rewrite split_lookup_p; by intros [= <-]|].
  destruct (decide (j ∈ map child_id (kids ndr))) as [H|N4].
  - rewrite (split_lookup_kid j H). destruct (M j) as [nj|] eqn:E; [|done]. intros [= <-]. by apply P4.
  - rewrite split_lookup_other by done. by apply P5.
Qed.

(** Every old node survives with its level; its children are those it had, or
    one of the two that the split changes. *)
Lemma split_ghost_same j : j ≠ r → j ≠ id → glvl g' j = glvl g j ∧ glo g' j = glo g j ∧ ghi g' j = ghi g j.
Proof. intros N1 N2. cbn [g' gsplit glvl glo ghi]. by rewrite !fn_lookup_insert_ne by done. Qed.
Lemma split_ghost_id : glvl g' id = glvl g id ∧ glo g' id = glo g id ∧ ghi g' id = Some s.
Proof. pose proof (split_not_r id nd Hid) as N. cbn [g' gsplit glvl glo ghi]. rewrite !fn_lookup_insert_ne, fn_lookup_insert by done. done. Qed.
Lemma split_ghost_r : glvl g' r = glvl g id ∧ glo g' r = Some s ∧ ghi g' r = ghi g id.
Proof. cbn [g' gsplit glvl glo ghi]. by rewrite !fn_lookup_insert. Qed.

Lemma split_content_other j n : j ≠ r → j ≠ id → j ≠ p → M j = Some n → content_ok g' j n.
Proof.
  intros N1 N2 N3 Hj. pose proof (ao_content _ _ _ Hok j n Hj) as Hc. destruct (split_ghost_same j N1 N2) as (E1 & E2 & E3).
  assert (Hk : ∀ c, c ∈ kids n → child_id c ≠ r ∧ child_id c ≠ id).
  { intros c Hin. destruct (kid_facts M rt g j n c Hok Hj Hin) as (nc & Hnc & Hpc & _). split; [by apply (split_not_r _ _ Hnc)|]. intros E. rewrite E, Hid in Hnc. congruence. }
  destruct n as [q cs0 b|q es]; cbn [content_ok] in *; unfold owns in *; rewrite E1, E2, E3; [|done].
  destruct Hc as (l & H1 & H2 & H3 & H4 & H5). exists l. split_and!; [done| | |done|done].
  - apply (chain_ext (glo g) (ghi g)); [|done]. intros c Hin. destruct (Hk c Hin). by apply split_ghost_same.
  - intros c Hin. destruct (Hk c Hin). destruct (split_ghost_same (child_id c)) as (-> & _ & _); auto.
Qed.

Lemma split_content_p : content_ok g' p np.
Proof.
  pose proof (ao_content _ _ _ Hok p _ Hp) as (l & H1 & H2 & H3 & H4 & H5). pose proof split_p_lvl as Hlv.
  destruct (parent_facts M rt g id nd p Hok Hid Hpar) as (pp' & cs0 & buf' & c & Hp' & Hc & Ec & _). rewrite Hp in Hp'. injection Hp' as <- <- <-.
  assert (p ≠ id) as N by (intros E; rewrite E in Hlv; lia).
  destruct (split_ghost_same p (split_not_r p _ Hp) N) as (E1 & E2 & E3). destruct split_ghost_id as (I1 & I2 & I3). destruct split_ghost_r as (R1 & R2 & R3).
  assert (Hk : ∀ c, c ∈ cs → child_id c ≠ r).
  { intros c2 Hin. destruct (kid_facts M rt g p _ c2 Hok Hp Hin) as (nc & Hnc & _). by apply (split_not_r _ _ Hnc). }
  exists l. unfold owns. rewrite E1, E2, E3. split_and!; [done| | |done|done].
  - apply (chain_insert (glo g) (ghi g) _ _ _ _ cs c); rewrite ?Ec; try done. intros c2 Hc2 Hne. destruct (split_ghost_same (child_id c2)) as (_ & ? & ?); auto.
  - intros c2 Hin. apply split_cs' in Hin as [-> |Hin].
    + cbn [child_id]. rewrite R1. rewrite <- Ec. by apply H3.
    + destruct (decide (child_id c2 = id)) as [E|N2]; [rewrite E, I1, <- E; by apply H3|].
      destruct (split_ghost_same (child_id c2)) as (-> & _ & _); auto.
Qed.
Lemma split_p_not_id : p ≠ id.
Proof. intros E. pose proof split_p_lvl as H. rewrite E in H. lia. Qed.

(** An old node outside the right half keeps its parent. *)
Lemma split_keeps_parent j n : M j = Some n → j ∉ map child_id (kids ndr) → ∃ n', M' j = Some n' ∧ parent n' = parent n.
Proof.
  intros Hj Hn. pose proof (split_not_r j n Hj) as N1.
  destruct (decide (j = id)) as [->|N2]; [exists ndl; rewrite split_lookup_id; split; congruence|].
  destruct (decide (j = p)) as [->|N3]; [exists np; rewrite split_lookup_p, Hp in *; by simplify_eq|].
  exists n. by rewrite split_lookup_other.
Qed.

(** Every old node but the split one keeps its children. *)
Lemma split_keeps_kids j n c : M j = Some n → c ∈ kids n → j ≠ id → ∃ n', M' j = Some n' ∧ c ∈ kids n'.
Proof.
  intros Hj Hc N2. pose proof (split_not_r j n Hj) as N1.
  destruct (decide (j = p)) as [->|N3]; [exists np; rewrite split_lookup_p; split; [done|]; rewrite Hp in Hj; injection Hj as <-; apply split_cs'; by right|].
  destruct (decide (j ∈ map child_id (kids ndr))) as [H|N4]; [|exists n; by rewrite split_lookup_other].
  exists (reparent (Some r) n). by rewrite (split_lookup_kid j H), Hj, kids_reparent.
Qed.

Lemma split_halves_disjoint c : c ∈ kids ndl → child_id c ∉ map child_id (kids ndr).
Proof.
  intros Hc Hin. pose proof (ao_content _ _ _ Hok id nd Hid) as Hcon. destruct nd as [q cs0 b|q es]; cbn [kids] in Hkids.
  - destruct Hcon as (l & _ & Hch & _). apply chain_nodup in Hch. rewrite Hkids, map_app in Hch. apply NoDup_app in Hch as (_ & Hd & _).
    apply (Hd (child_id c)); [|done]. apply list_elem_of_In, in_map, list_elem_of_In. exact Hc.
  - symmetry in Hkids. apply app_eq_nil in Hkids as [E _]. rewrite E in Hc. by apply elem_of_nil in Hc.
Qed.

Lemma elem_kid_id c l : c ∈ l → child_id c ∈ map child_id l.
Proof. intros H. apply list_elem_of_In, in_map, list_elem_of_In. exact H. Qed.

Lemma split_kids_linked : ∀ j n, M' j = Some n → kids_linked M' j n.
Proof.
  apply split_cases; unfold kids_linked.
  - intros c Hc. rewrite kids_reparent in Hc. rewrite (split_lookup_kid _ (elem_kid_id _ _ Hc)).
    destruct (split_right_kid _ (elem_kid_id _ _ Hc)) as (nc & -> & _). eexists. by rewrite parent_reparent.
  - intros c Hc. destruct (split_id_kid c) as (nc & Hnc & Hpc & _); [rewrite Hkids; apply elem_of_app; by left|].
    destruct (split_keeps_parent _ nc Hnc (split_halves_disjoint c Hc)) as (n' & -> & E). exists n'. by rewrite E.
  - intros c Hc. apply split_cs' in Hc as [-> |Hc]; [cbn [child_id]; rewrite split_lookup_r; eexists; by rewrite parent_reparent|].
    destruct (kid_facts M rt g p _ c Hok Hp Hc) as (nc & Hnc & Hpc & _). destruct (split_keeps_parent _ nc Hnc) as (n' & -> & E); [|exists n'; by rewrite E].
    intros H. destruct (split_right_kid _ H) as (n2 & E2 & E3 & _). rewrite Hnc in E2. injection E2 as <-. pose proof split_p_not_id. congruence.
  - intros j n Hj Hn c Hc. rewrite kids_reparent in Hc. destruct (kid_facts M rt g j n c Hok Hn Hc) as (nc & Hnc & Hpc & Hl1 & _).
    destruct (split_keeps_parent _ nc Hnc) as (n' & -> & E); [|exists n'; by rewrite E].
    intros H. destruct (split_right_kid _ H) as (n2 & _ & _ & E2). destruct (split_right_kid _ Hj) as (n3 & _ & _ & E3). lia.
  - intros j n _ N2 _ _ Hn c Hc. destruct (kid_facts M rt g j n c Hok Hn Hc) as (nc & Hnc & Hpc & _).
    destruct (split_keeps_parent _ nc Hnc) as (n' & -> & E); [|exists n'; by rewrite E].
    intros H. destruct (split_right_kid _ H) as (n2 & E2 & E3 & _). rewrite Hnc in E2. injection E2 as <-. congruence.
Qed.

Lemma split_parent_linked : ∀ j n, M' j = Some n → parent_linked M' j n.
Proof.
  assert (Hold : ∀ j n q, M j = Some n → parent n = Some q → q ≠ id → ∃ n' c, M' q = Some n' ∧ c ∈ kids n' ∧ child_id c = j).
  { intros j n q Hj Hq N. destruct (ao_parent _ _ _ Hok j n Hj q Hq) as (nq & c & Hnq & Hc & E).
    destruct (split_keeps_kids q nq c Hnq Hc N) as (n' & Hn' & Hc'). by exists n', c. }
  apply split_cases; unfold parent_linked.
  - intros q Hq. rewrite parent_reparent in Hq. injection Hq as <-. exists np, (mkChild (Some s) r). rewrite split_lookup_p. split_and!; [done| |done]. apply split_cs'. by left.
  - intros q Hq. rewrite Hlp in Hq. injection Hq as <-. apply (Hold id nd p Hid Hpar split_p_not_id).
  - intros q Hq. apply (Hold p _ q Hp Hq). intros ->. destruct (parent_facts M rt g p _ id Hok Hp Hq) as (? & ? & ? & ? & _ & _ & _ & E & _). pose proof split_p_lvl. lia.
  - intros j n Hj Hn q Hq. rewrite parent_reparent in Hq. injection Hq as <-. apply list_elem_of_In, in_map_iff in Hj as (c & <- & Hc). apply list_elem_of_In in Hc.
    exists (reparent (Some p) ndr), c. by rewrite split_lookup_r, kids_reparent.
  - intros j n N1 N2 N3 N4 Hn q Hq. destruct (decide (q = id)) as [->|N]; [|by apply (Hold j n q)].
    destruct (ao_parent _ _ _ Hok j n Hn id Hq) as (nq & c & Hnq & Hc & E). rewrite Hid in Hnq. injection Hnq as <-. rewrite Hkids in Hc.
    apply elem_of_app in Hc as [Hc|Hc]; [exists ndl, c; by rewrite split_lookup_id|]. destruct N4. rewrite <- E. by apply elem_kid_id.
Qed.

Lemma split_arena_ok : arena_ok M' rt g'.
Proof.
  assert (Hroot : rt ≠ id). { intros E. destruct (ao_root _ _ _ Hok) as (n & Hn & Hpn). rewrite E, Hid in Hn. congruence. }
  destruct (ao_root _ _ _ Hok) as (n & Hn & Hpn). destruct (split_ghost_same rt (split_not_r rt n Hn) Hroot) as (T1 & T2 & T3). split.
  - apply (split_cases (λ j n, content_ok g' j n)); [by apply content_reparent|done|apply split_content_p| |].
    + intros j nj Hj Hnj. apply content_reparent. destruct (split_right_kid j Hj) as (_ & _ & _ & E). pose proof split_p_lvl.
      apply split_content_other; [by apply (split_not_r j nj)|intros ->; lia|intros ->; lia|done].
    + intros j nj N1 N2 N3 _ Hnj. by apply split_content_other.
  - apply split_kids_linked.
  - apply split_parent_linked.
  - apply (split_cases (λ j n, parent n = None → j = rt)); [by rewrite parent_reparent|by rewrite Hlp|intros E; by apply (ao_orphan _ _ _ Hok p _ Hp)|intros ? ? _ _; by rewrite parent_reparent|].
    intros j nj _ _ _ _ Hnj. by apply (ao_orphan _ _ _ Hok).
  - intros j nj Hj. change (gH g') with (gH g). destruct (decide (j = r)) as [->|N1]; [destruct split_ghost_r as (-> & _); by apply (ao_level _ _ _ Hok _ _ Hid)|].
    destruct (decide (j = id)) as [->|N2]; [destruct split_ghost_id as (-> & _); by apply (ao_level _ _ _ Hok _ _ Hid)|].
    destruct (split_ghost_same j N1 N2) as (-> & _). revert j nj Hj N1 N2. apply (split_cases (λ j _, j ≠ r → j ≠ id → glvl g j ≤ gH g)); try done.
    + intros _ _. by apply (ao_level _ _ _ Hok _ _ Hp).
    + intros j nj _ Hnj _ _. by apply (ao_level _ _ _ Hok _ _ Hnj).
    + intros j nj _ _ _ _ Hnj _ _. by apply (ao_level _ _ _ Hok _ _ Hnj).
  - destruct (split_keeps_parent rt n Hn) as (n' & Hn' & E); [|exists n'; by rewrite E].
    intros H. destruct (split_right_kid rt H) as (n2 & E2 & E3 & _). congruence.
  - rewrite T1, T2, T3. apply (ao_top _ _ _ Hok).
  - apply (ao_empty _ _ _ Hok).
Qed.
End split_step.

(** ** A new root over the old one *)
Definition ggrow (q : nat) g : ghost :=
  mkGhost (S (gH g)) (<[q := S (gH g)]> (glvl g)) (<[q := None]> (glo g)) (<[q := None]> (ghi g)) (gbase g) (gmsgs g).
Definition grow_arena M (rt q : nat) (nd : Node V) : arena := λ j,
  if decide (j = q) then Some (Internal None [mkChild None rt] []) else if decide (j = rt) then Some (reparent (Some q) nd) else M j.

Lemma ggrow_same q g j : j ≠ q → glvl (ggrow q g) j = glvl g j ∧ glo (ggrow q g) j = glo g j ∧ ghi (ggrow q g) j = ghi g j.
Proof. intros N. cbn [ggrow glvl glo ghi]. by rewrite !fn_lookup_insert_ne by done. Qed.

Lemma content_ggrow q g j n : content_ok g j n → j ≠ q → (∀ c, c ∈ kids n → child_id c ≠ q) → content_ok (ggrow q g) j n.
Proof.
  intros Hc N Hk. destruct (ggrow_same q g j N) as (E1 & E2 & E3). destruct n as [p cs b|p es]; cbn [content_ok] in *; unfold owns in *; rewrite E1, E2, E3; [|done].
  destruct Hc as (l & H1 & H2 & H3 & H4 & H5). exists l. split_and!; [done| | |done|done].
  - apply (chain_ext (glo g) (ghi g)); [|done]. intros c Hin. by apply ggrow_same, Hk.
  - intros c Hin. destruct (ggrow_same q g (child_id c) (Hk c Hin)) as (-> & _). auto.
Qed.

Lemma grow_content_root M rt g q : arena_ok M rt g → rt ≠ q → content_ok (ggrow q g) q (Internal None [mkChild None rt] []).
Proof.
  intros Hok N. destruct (ao_top _ _ _ Hok) as (T1 & T2 & T3). exists (gH g).
  destruct (ggrow_same q g rt N) as (E1 & E2 & E3). split_and!.
  - cbn [ggrow glvl]. by rewrite fn_lookup_insert.
  - apply chain_cons. cbn [bound child_id]. rewrite E2, E3, T2, T3. cbn [ggrow glo ghi]. rewrite !fn_lookup_insert. split_and!; [done..|by left].
  - intros c Hc. apply list_elem_of_singleton in Hc as ->. cbn [child_id]. by rewrite E1.
  - intros m Hm. by apply elem_of_nil in Hm.
  - intros k _. cbn [ggrow gmsgs]. by rewrite (ao_empty _ _ _ Hok) by lia.
Qed.

Lemma grow_arena_ok M rt g q nd : arena_ok M rt g → M rt = Some nd → parent nd = None → M q = None →
  arena_ok (grow_arena M rt q nd) q (ggrow q g).
Proof.
  intros Hok Hrt Hpar Hq. assert (N : ∀ j n, M j = Some n → j ≠ q) by (intros j n H ->; congruence). pose proof (N _ _ Hrt) as Nr.
  set (M' := grow_arena M rt q nd). assert (Mq : M' q = Some (Internal None [mkChild None rt] [])) by (unfold M', grow_arena; by rewrite decide_True).
  assert (Mr : M' rt = Some (reparent (Some q) nd)) by (unfold M', grow_arena; by rewrite decide_False, decide_True).
  assert (Mo : ∀ j, j ≠ q → j ≠ rt → M' j = M j) by (intros; unfold M', grow_arena; by rewrite !decide_False).
  assert (Hcases : ∀ P : nat → Node V → Prop, P q (Internal None [mkChild None rt] []) → P rt (reparent (Some q) nd) →
    (∀ j n, j ≠ q → j ≠ rt → M j = Some n → P j n) → ∀ j n, M' j = Some n → P j n).
  { intros P P1 P2 P3 j n Hj. destruct (decide (j = q)) as [->|N1]; [rewrite Mq in Hj; by injection Hj as <-|].
    destruct (decide (j = rt)) as [->|N2]; [rewrite Mr in Hj; by injection Hj as <-|]. rewrite Mo in Hj by done. auto. }
  assert (Hkid : ∀ j n c, M j = Some n → c ∈ kids n → child_id c ≠ q ∧ child_id c ≠ rt ∧ ∃ n', M (child_id c) = Some n' ∧ parent n' = Some j).
  { intros j n c Hj Hc. destruct (kid_facts M rt g j n c Hok Hj Hc) as (nc & Hnc & Hpc & _). split_and!; [by apply (N _ nc)| |by exists nc].
    intros E. rewrite E, Hrt in Hnc. congruence. }
  split.
  - apply (Hcases (λ j n, content_ok (ggrow q g) j n)); [by eapply grow_content_root| |].
    + apply content_reparent, content_ggrow; [by apply (ao_content _ _ _ Hok)|done|]. intros c Hc. by apply (Hkid rt nd).
    + intros j n N1 N2 Hj. apply content_ggrow; [by apply (ao_content _ _ _ Hok)|done|]. intros c Hc. by apply (Hkid j n).
  - apply (Hcases (λ j n, kids_linked M' j n)).
    + intros c Hc. apply list_elem_of_singleton in Hc as ->. cbn [child_id]. rewrite Mr. eexists. by rewrite parent_reparent.
    + intros c Hc. rewrite kids_reparent in Hc. destruct (Hkid rt nd c Hrt Hc) as (N1 & N2 & H). by rewrite Mo.
    + intros j n N1 N2 Hj c Hc. destruct (Hkid j n c Hj Hc) as (N3 & N4 & H). by rewrite Mo.
  - apply (Hcases (λ j n, parent_linked M' j n)).
    + done.
    + intros p Hp. rewrite parent_reparent in Hp. injection Hp as <-. exists (Internal None [mkChild None rt] []), (mkChild None rt). split_and!; [done|by left|done].
    + intros j n N1 N2 Hj p Hp. destruct (ao_parent _ _ _ Hok j n Hj p Hp) as (np & c & Hnp & Hc & E).
      destruct (decide (p = rt)) as [->|N3]; [|exists np, c; rewrite Mo by eauto; done].
      rewrite Hrt in Hnp. injection Hnp as <-. exists (reparent (Some q) nd), c. by rewrite kids_reparent.
  - apply (Hcases (λ j n, parent n = None → j = q)); [done|by rewrite parent_reparent|]. intros j n N1 N2 Hj E. destruct N2. by apply (ao_orphan _ _ _ Hok j n).
  - apply (Hcases (λ j n, glvl (ggrow q g) j ≤ gH (ggrow q g))).
    + cbn [ggrow glvl gH]. by rewrite fn_lookup_insert.
    + destruct (ggrow_same q g rt Nr) as (-> & _). cbn [ggrow gH]. pose proof (ao_level _ _ _ Hok _ _ Hrt). lia.
    + intros j n N1 _ Hj. destruct (ggrow_same q g j N1) as (-> & _). cbn [ggrow gH]. pose proof (ao_level _ _ _ Hok _ _ Hj). lia.
  - by eexists.
  - cbn [ggrow glvl glo ghi gH]. by rewrite !fn_lookup_insert.
  - intros l k Hl. cbn [ggrow gmsgs gH] in *. apply (ao_empty _ _ _ Hok). lia.
Qed.
End spec.
