(* ===== verification/BeTreeFlow.v ===== *)
(** * Splits of the cluster's Bε-tree

    The code of [maybe_split_from], [maybe_split_leaf] and [repair_chain]
    performs the abstract splits of [BeTreeSpec]: the bindings of the leaves
    and the buffered messages of every level and key stay as they are. *)
From S2P Require Import Prelude BeTree BeTreeSpec.
From Stdlib Require Import NArith Lia Strings.Byte.
From stdpp Require Import base numbers option list functions sorting.
Local Open Scope nat_scope.

#[local] Abbreviation bytes := (list byte).
#[local] Hint Resolve kle_refl klt_kle kle_trans key_lt_trans klt_kle_trans kle_klt_trans : keys.

Section flow.
Context {V : Type}.
Implicit Types (t : BeTree V) (g : ghost (V := V)) (M : arena (V := V)).

(** ** The two halves of a node *)
Definition halves (nd : Node V) (s : bytes) (ndl ndr : Node V) : Prop :=
  kids nd = kids ndl ++ kids ndr ∧ parent ndl = parent nd ∧
  ∀ M rt g id r q, arena_ok M rt g → M id = Some (reparent q nd) → M r = None →
    inside (glo g id) (ghi g id) s ∧ content_ok (gsplit id r s g) id ndl ∧ content_ok (gsplit id r s g) r ndr.

Lemma msgs_for_filter (f : Message V → bool) k buf : (∀ m, mkey m = k → f m = true) →
  msgs_for k (filter (λ m, f m) buf) = msgs_for k buf.
Proof.
  intros Hf. unfold msgs_for. rewrite list_filter_filter. apply list_filter_iff. intros m. destruct (bytes_eq (mkey m) k) eqn:E; [|naive_solver].
  apply eqb_iff in E. rewrite (Hf m E). naive_solver.
Qed.

Lemma halves_internal p cs1 c cs2 buf s : bound c = Some s → cs1 ≠ [] →
  halves (Internal p (cs1 ++ c :: cs2) buf) s (Internal p cs1 (filter (λ m, negb (goes_right (Some s) m)) buf)) (Internal p (c :: cs2) (filter (goes_right (Some s)) buf)).
Proof.
  intros Hb Hne. split; [done|]. split; [done|]. intros M rt g id r q Hok Hid Hr.
  pose proof (ao_content _ _ _ Hok _ _ Hid) as (l & Hl & Hch & Hlv & Hbk & Hbuf).
  destruct (chain_split _ _ _ _ _ _ _ Hch Hne) as (s' & Hs' & Hins & Hch1 & Hch2). rewrite Hb in Hs'. injection Hs' as <-.
  assert (Hk : ∀ c', c' ∈ cs1 ++ c :: cs2 → child_id c' ≠ r ∧ child_id c' ≠ id).
  { intros c' Hc'. destruct (kid_facts M rt g id _ c' Hok Hid Hc') as (n' & Hn' & _ & E & _). split; intros E'; rewrite E' in *; [congruence|lia]. }
  destruct (split_ghost_id M g id r s _ Hid Hr) as (I1 & I2 & I3). destruct (split_ghost_r g id r s) as (R1 & R2 & R3).
  assert (Hsame : ∀ c', c' ∈ cs1 ++ c :: cs2 → glvl (gsplit id r s g) (child_id c') = l ∧ glo (gsplit id r s g) (child_id c') = glo g (child_id c') ∧ ghi (gsplit id r s g) (child_id c') = ghi g (child_id c')).
  { intros c' Hc'. destruct (Hk c' Hc') as [N1 N2]. destruct (split_ghost_same g id r s _ N1 N2) as (-> & -> & ->). by rewrite (Hlv c' Hc'). }
  split; [done|]. split; exists l; unfold owns; rewrite ?I1, ?I2, ?I3, ?R1, ?R2, ?R3; split_and!; try done.
  - apply (chain_ext (glo g) (ghi g)); [|done]. intros c' Hc'. apply Hsame, elem_of_app. by left.
  - intros c' Hc'. apply Hsame, elem_of_app. by left.
  - intros m [Hm Hin]%list_elem_of_filter. apply Hbk in Hin. cbn in Hm. destruct (rng_split _ _ s _ Hin) as [[H _]|[_ H]]; [done|]. by rewrite H in Hm.
  - intros k Hk'. destruct (rng_left _ _ _ _ Hins Hk') as [Hin Hlt]. change (gmsgs (gsplit id r s g)) with (gmsgs g). rewrite <- Hbuf by done. apply msgs_for_filter. intros m <-. cbn. apply leb_false in Hlt. by rewrite Hlt.
  - apply (chain_ext (glo g) (ghi g)); [|done]. intros c' Hc'. apply Hsame, elem_of_app. by right.
  - intros c' Hc'. apply Hsame, elem_of_app. by right.
  - intros m [Hm Hin]%list_elem_of_filter. apply Hbk in Hin. cbn in Hm. destruct (rng_split _ _ s _ Hin) as [[_ H]|[H _]]; [|done].
    apply leb_false in H. by rewrite H in Hm.
  - intros k Hk'. destruct (rng_right _ _ _ _ Hins Hk') as [Hin Hle]. change (gmsgs (gsplit id r s g)) with (gmsgs g). rewrite <- Hbuf by done. apply msgs_for_filter. intros m <-. exact Hle.
Qed.

Lemma halves_leaf p (es1 : list (bytes * V)) x es2 : es1 ≠ [] → halves (Leaf p (es1 ++ x :: es2)) x.1 (Leaf p es1) (Leaf p (x :: es2)).
Proof.
  intros Hne. split; [done|]. split; [done|]. intros M rt g id r q Hok Hid Hr.
  pose proof (ao_content _ _ _ Hok _ _ Hid) as (Hl & Hs & Hk & Hv). pose proof (proj1 (sorted_app _ _) Hs) as (Hs1 & Hs2 & H12).
  destruct (split_ghost_id M g id r x.1 _ Hid Hr) as (I1 & I2 & I3). destruct (split_ghost_r g id r x.1) as (R1 & R2 & R3).
  assert (Hins : inside (glo g id) (ghi g id) x.1).
  { destruct es1 as [|y es1]; [done|]. destruct (Hk x) as [_ Hhi]; [apply elem_of_app; right; by left|]. destruct (Hk y) as [Hlo _]; [by left|].
    split; [|done]. assert (klt y.1 x.1) by (apply H12; by left). destruct (glo g id); cbn in *; eauto with keys. }
  pose proof (proj1 (sorted_cons _ _) Hs2) as [_ Hx].
  split; [done|]. split; cbn [content_ok]; unfold owns; rewrite ?I1, ?I2, ?I3, ?R1, ?R2, ?R3; split_and!; try done.
  - intros y Hy. destruct (Hk y) as [Hlo _]; [apply elem_of_app; by left|]. split; [done|]. apply H12; [done|by left].
  - intros k Hk'. destruct (rng_left _ _ _ _ Hins Hk') as [Hin Hlt]. change (gbase (gsplit id r x.1 g)) with (gbase g). rewrite <- Hv by done. apply entry_value_ext; [done..|]. intros v. rewrite elem_of_app.
    split; [by left|]. intros [?|Hin']; [done|]. apply elem_of_cons in Hin' as [<- |Hin']; [by apply key_lt_irrefl in Hlt|]. apply Hx in Hin'. destruct (key_lt_irrefl k); eauto with keys.
  - intros y Hy. destruct (Hk y) as [_ Hhi]; [apply elem_of_app; by right|]. split; [|done]. cbn. apply elem_of_cons in Hy as [-> |Hy]; [auto with keys|]. by apply klt_kle, Hx.
  - intros k Hk'. destruct (rng_right _ _ _ _ Hins Hk') as [Hin Hle]. change (gbase (gsplit id r x.1 g)) with (gbase g). rewrite <- Hv by done. apply entry_value_ext; [done..|]. intros v. rewrite elem_of_app.
    split; [by right|]. intros [Hin'|?]; [|done]. assert (klt k x.1) as Hlt by (apply (H12 _ _ Hin'); by left). destruct (key_lt_irrefl k); eauto with keys.
Qed.

(** ** The code's updates of the arena *)
Definition mem t : arena := λ j, nodes t !! j.
(** What no split changes. *)
Definition rest t := (tconfig t, next_seq t, split_barrier t).

Lemma mem_set id n t j : is_Some (mem t id) → mem (set_node id n t) j = if decide (j = id) then Some n else mem t j.
Proof.
  intros [n0 H]. unfold mem, set_node, with_nodes. cbn [nodes]. case_decide as E.
  - subst j. apply list_lookup_insert_eq. by eapply lookup_lt_Some.
  - by rewrite list_lookup_insert_ne.
Qed.

Lemma mem_push n t j : mem (push_node n t) j = if decide (j = length (nodes t)) then Some n else mem t j.
Proof.
  unfold mem, push_node, with_nodes. cbn [nodes]. case_decide as E.
  - subst j. rewrite lookup_app_r, Nat.sub_diag by lia. done.
  - destruct (decide (j < length (nodes t))); [by rewrite lookup_app_l|].
    rewrite (lookup_ge_None_2 (nodes t)) by lia. apply lookup_ge_None_2. rewrite length_app. cbn. lia.
Qed.

Lemma mem_fresh t j : length (nodes t) ≤ j → mem t j = None.
Proof. apply lookup_ge_None_2. Qed.

Lemma length_set id n t : length (nodes (set_node id n t)) = length (nodes t).
Proof. apply length_insert. Qed.

Lemma mem_set_parent id q t : is_Some (mem t id) → ∃ t', set_parent id q t = Some t' ∧
  (∀ j, mem t' j = if decide (j = id) then reparent q <$> mem t j else mem t j) ∧ root t' = root t ∧ length (nodes t') = length (nodes t) ∧ rest t' = rest t.
Proof.
  intros [n H]. exists (set_node id (reparent q n) t). split_and!; [| |done|apply length_set|done].
  - unfold set_parent. unfold mem in H. rewrite H. by destruct n.
  - intros j. rewrite mem_set by (by eexists). case_decide as E; [by rewrite E, H|done].
Qed.

Lemma mem_set_parents ids q t : (∀ j, j ∈ ids → is_Some (mem t j)) → ∃ t', set_parents ids q t = Some t' ∧
  (∀ j, mem t' j = if decide (j ∈ ids) then reparent q <$> mem t j else mem t j) ∧ root t' = root t ∧ length (nodes t') = length (nodes t) ∧ rest t' = rest t.
Proof.
  revert t. induction ids as [|i ids IH]; intros t H; [by exists t|]. cbn [set_parents].
  destruct (mem_set_parent i q t (H i ltac:(by left))) as (t1 & -> & M1 & R1 & L1 & E1).
  destruct (IH t1) as (t2 & E & M2 & R2 & L2 & E2).
  { intros j Hj. rewrite M1. case_decide; [apply fmap_is_Some|]; apply H; by right. }
  exists t2. split_and!; [exact E| |congruence..]. intros j. rewrite M2, M1.
  destruct (decide (j ∈ ids)) as [Hin|Hin]; [rewrite (decide_True (P := j ∈ i :: ids)) by (by right)|].
  - case_decide; [|done]. destruct (mem t j) as [n|]; [|done]. by destruct n.
  - case_decide as E0; [subst; by rewrite decide_True by (by left)|]. rewrite decide_False; [done|]. by rewrite not_elem_of_cons.
Qed.

(** The common part of both splits. *)
Definition split_code (id : nat) (ndl ndr : Node V) (s : bytes) t : option (BeTree V) :=
  let r := length (nodes t) in
  t' ← set_parents (map child_id (kids ndr)) (Some r) (push_node ndr (set_node id ndl t));
  match parent ndl with None => grow_root (Some s) r t' | Some p => insert_child p s r t' end.

Definition cfg_ok (c : TreeConfig) : Prop := 2 ≤ max_children c ∧ 2 ≤ buffer_capacity c ∧ 2 ≤ leaf_max_entries c.
Definition tree_ok t g : Prop := arena_ok (mem t) (root t) g ∧ cfg_ok (tconfig t).

(** The halves are in place before the parent is told. *)
Lemma split_code_prefix t g id nd ndl ndr s : tree_ok t g → mem t id = Some nd → halves nd s ndl ndr → let r := length (nodes t) in
  ∃ t', set_parents (map child_id (kids ndr)) (Some r) (push_node ndr (set_node id ndl t)) = Some t' ∧
  (∀ j, mem t' j = if decide (j = r) then Some ndr else if decide (j = id) then Some ndl else
     if decide (j ∈ map child_id (kids ndr)) then reparent (Some r) <$> mem t j else mem t j) ∧ root t' = root t ∧ length (nodes t') = S r ∧ rest t' = rest t.
Proof.
  intros [Hok Hcfg] Hid (Hk & Hpl & _) r.
  assert (Hkid : ∀ j, j ∈ map child_id (kids ndr) → j ≠ r ∧ j ≠ id ∧ is_Some (mem t j)).
  { intros j Hj. apply list_elem_of_In, in_map_iff in Hj as (c & <- & Hc). apply list_elem_of_In in Hc.
    destruct (kid_facts _ _ _ id nd c Hok Hid) as (n & Hn & _ & E & _); [rewrite Hk; apply elem_of_app; by right|].
    split_and!; [|intros E'; rewrite E' in E; lia|by eexists]. intros E'. rewrite E', mem_fresh in Hn; [done|unfold r; lia]. }
  assert (Hm : ∀ j, mem (push_node ndr (set_node id ndl t)) j = if decide (j = r) then Some ndr else if decide (j = id) then Some ndl else mem t j).
  { intros j. rewrite mem_push, length_set. fold r. destruct (decide (j = r)); [done|]. rewrite mem_set by (by eexists). done. }
  destruct (mem_set_parents (map child_id (kids ndr)) (Some r) (push_node ndr (set_node id ndl t))) as (t' & E & M' & R' & L' & E').
  { intros j Hj. destruct (Hkid j Hj) as (N1 & N2 & H). by rewrite Hm, !decide_False. }
  exists t'. split_and!; [exact E| |exact R'| |exact E'].
  - intros j. rewrite M', Hm. destruct (decide (j ∈ map child_id (kids ndr))) as [H|H]; [|done].
    destruct (Hkid j H) as (N1 & N2 & _). by rewrite !decide_False.
  - rewrite L'. unfold push_node. cbn [with_nodes nodes]. rewrite length_app, length_set. cbn. unfold r. lia.
Qed.

(** A change that keeps the contents: nodes are only added and keep their level. *)
Record grows t g t' g' : Prop := {
  gr_ok : tree_ok t' g';
  gr_base : gbase g' = gbase g;
  gr_msgs : gmsgs g' = gmsgs g;
  gr_rest : rest t' = rest t;
  gr_keep : ∀ j n, mem t j = Some n → ∃ n', mem t' j = Some n' ∧ glvl g' j = glvl g j
}.
(** The ranges above a level are as before, and the root too. *)
Definition same_above (l : nat) t g g' : Prop :=
  gH g' = gH g ∧ ∀ j n, mem t j = Some n → l < glvl g j → glo g' j = glo g j ∧ ghi g' j = ghi g j.
(** The children of the nodes below a level are as before. *)
Definition same_below (l : nat) t g t' : Prop :=
  ∀ j n, mem t j = Some n → glvl g j < l → ∃ n', mem t' j = Some n' ∧ kids n' = kids n.

Section split_code.
Context (t : BeTree V) (g : ghost (V := V)) (id : nat) (nd ndl ndr : Node V) (s : bytes).
Let r := length (nodes t).
Hypothesis Hok : tree_ok t g.
Hypothesis Hid : mem t id = Some nd.
Hypothesis Hh : halves nd s ndl ndr.

Lemma r_fresh : mem t r = None.
Proof. by apply mem_fresh. Qed.

Lemma old_not_fresh j n k : mem t j = Some n → j ≠ r + k.
Proof. intros H ->. rewrite mem_fresh in H; [done|unfold r; lia]. Qed.

Lemma reparent_self (n : Node V) : reparent (parent n) n = n.
Proof. by destruct n. Qed.

Lemma split_below M p np nl j n : mem t j = Some n → M j = mem t j → j ≠ id → j ≠ p → ∃ n', split_arena M id p r np nl ndr j = Some n' ∧ kids n' = kids n.
Proof.
  intros Hj HM N1 N2. unfold split_arena. rewrite decide_False by (intros E; apply (old_not_fresh j n 0 Hj); lia).
  rewrite decide_False by done. case_decide; [exists (reparent (Some r) n); by rewrite HM, Hj, kids_reparent|].
  rewrite decide_False, HM by done. by exists n.
Qed.

Lemma split_code_parent p pp cs buf : parent nd = Some p → mem t p = Some (Internal pp cs buf) →
  let np := Internal pp (insert_at (child_pos cs s 0) (mkChild (Some s) r) cs) buf in
  ∃ t', split_code id ndl ndr s t = Some t' ∧ (∀ j, mem t' j = split_arena (mem t) id p r np ndl ndr j) ∧ root t' = root t ∧ rest t' = rest t.
Proof.
  intros Hpar Hp np. destruct (split_code_prefix t g id nd ndl ndr s Hok Hid Hh) as (t1 & E1 & M1 & R1 & L1 & S1). fold r in E1, M1, L1.
  destruct Hok as [Ha _]. destruct Hh as (Hk & Hpl & _).
  destruct (parent_facts _ _ _ id nd p Ha Hid Hpar) as (_ & _ & _ & _ & _ & _ & _ & Hlv & _).
  assert (Np : p ≠ r) by (intros E; apply (old_not_fresh p _ 0 Hp); lia). assert (Ni : p ≠ id) by (intros E; rewrite E in Hlv; lia).
  assert (Nk : p ∉ map child_id (kids ndr)).
  { intros H. apply list_elem_of_In, in_map_iff in H as (c & E & Hc). apply list_elem_of_In in Hc.
    destruct (kid_facts _ _ _ id nd c Ha Hid) as (_ & _ & _ & E' & _); [rewrite Hk; apply elem_of_app; by right|]. rewrite E in E'. lia. }
  unfold split_code. fold r. rewrite E1, Hpl, Hpar. cbn [mbind option_bind]. unfold insert_child.
  assert (nodes t1 !! p = Some (Internal pp cs buf)) as E2 by (change (mem t1 p = Some (Internal pp cs buf)); rewrite M1, !decide_False by done; exact Hp).
  rewrite E2. cbn [mbind option_bind]. fold np.
  assert (Hset : ∀ j, mem (set_node p np t1) j = if decide (j = p) then Some np else mem t1 j) by (intros j; apply mem_set; by eexists).
  destruct (mem_set_parent r (Some p) (set_node p np t1)) as (t2 & E3 & M2 & R2 & L2 & S2).
  { rewrite Hset, decide_False, M1, decide_True by done. by eexists. }
  exists t2. split_and!; [exact E3| |by rewrite R2|by rewrite S2].
  intros j. rewrite M2, Hset, M1. unfold split_arena.
  destruct (decide (j = r)) as [->|N1]; [by rewrite decide_False|].
  destruct (decide (j = p)) as [->|N2]; [by rewrite !decide_False|done].
Qed.

Lemma split_code_root : parent nd = None → let q := S r in
  ∃ t', split_code id ndl ndr s t = Some t' ∧ root t' = q ∧ rest t' = rest t ∧
    ∀ j, mem t' j = split_arena (grow_arena (mem t) id q nd) id q r (Internal None [mkChild None id; mkChild (Some s) r] []) (reparent (Some q) ndl) ndr j.
Proof.
  intros Hpar q. destruct (split_code_prefix t g id nd ndl ndr s Hok Hid Hh) as (t1 & E1 & M1 & R1 & L1 & S1). fold r in E1, M1, L1.
  destruct Hok as [Ha _]. destruct Hh as (Hk & Hpl & _). pose proof (ao_orphan _ _ _ Ha id nd Hid Hpar) as Eid.
  assert (Nr : id ≠ r) by (intros E; apply (old_not_fresh id _ 0 Hid); lia). assert (Nq : id ≠ q) by (intros E; apply (old_not_fresh id _ 1 Hid); unfold q in E; lia).
  assert (Hkid : ∀ j, j ∈ map child_id (kids ndr) → is_Some (mem t j) ∧ j ≠ id).
  { intros j H. apply list_elem_of_In, in_map_iff in H as (c & E & Hc). apply list_elem_of_In in Hc.
    destruct (kid_facts _ _ _ id nd c Ha Hid) as (n & E' & _ & El & _); [rewrite Hk; apply elem_of_app; by right|]. rewrite E in *. split; [by eexists|]. intros ->. lia. }
  unfold split_code. fold r. rewrite E1, Hpl, Hpar. cbn [mbind option_bind]. unfold grow_root. rewrite R1, <- Eid.
  set (n0 := Internal None [mkChild None id; mkChild (Some s) r] []). set (t2 := push_node n0 t1).
  assert (length (nodes t2) - 1 = q) as ->. { unfold t2, push_node. cbn [with_nodes nodes]. rewrite length_app, L1. cbn. unfold q, r. lia. }
  assert (M2 : ∀ j, mem t2 j = if decide (j = q) then Some n0 else mem t1 j) by (intros j; unfold t2; by rewrite mem_push, L1).
  assert (Ni : mem t1 id = Some ndl) by (rewrite M1, decide_False, decide_True by done; done).
  destruct (mem_set_parent id (Some q) t2) as (t3 & E3 & M3 & R3 & L3 & S3); [rewrite M2, decide_False by done; rewrite Ni; by eexists|].
  rewrite E3. cbn [mbind option_bind]. assert (Nrq : r ≠ q) by (unfold q; lia).
  destruct (mem_set_parent r (Some q) t3) as (t4 & E4 & M4 & R4 & L4 & S4); [rewrite M3, M2, !decide_False, M1, decide_True by done; by eexists|].
  rewrite E4. cbn [mbind option_bind]. exists (with_root q t4). split_and!; [done..|transitivity (rest t4); [done|]; rewrite S4, S3; exact S1|].
  intros j. change (mem (with_root q t4) j) with (mem t4 j). rewrite M4, M3, M2, M1. unfold split_arena, grow_arena.
  destruct (decide (j = r)) as [->|N1]; [by rewrite !decide_False|].
  destruct (decide (j = id)) as [->|N2]; [by rewrite !decide_False|].
  destruct (decide (j = q)) as [->|N3]; [|done]. rewrite decide_False; [done|].
  intros H. destruct (Hkid _ H) as [[n Hn] _]. apply (old_not_fresh q n 1 Hn). unfold q. lia.
Qed.
(** What one split gives. *)
Definition split_post t' g' : Prop :=
  grows t g t' g' ∧ same_below (glvl g id) t g t' ∧ (∃ nr, mem t' r = Some nr ∧ kids nr = kids ndr ∧ glvl g' r = glvl g id ∧ ∀ p, parent nd = Some p → parent nr = Some p) ∧
  (∀ p, parent nd = Some p → same_above (glvl g id) t g g' ∧ gH g' = gH g ∧ root t' = root t) ∧ gH g ≤ gH g' ≤ S (gH g).

Lemma split_code_parent_ok p : parent nd = Some p → ∃ t' g', split_code id ndl ndr s t = Some t' ∧ split_post t' g'.
Proof.
  intros Hpar. destruct Hok as [Ha Hcfg]. destruct (parent_facts _ _ _ id nd p Ha Hid Hpar) as (pp & cs & buf & c & Hp & Hc & Ec & Hlv & _).
  destruct (split_code_parent p pp cs buf Hpar Hp) as (t' & E & Hm & Hrt & Hrest). set (np := Internal _ _ _) in Hm. exists t', (gsplit id r s g). split; [exact E|].
  destruct Hh as (Hk & Hpl & Hcon). destruct (Hcon _ _ g id r (parent nd) Ha) as (Hins & Hcl & Hcr); [by rewrite reparent_self|apply r_fresh|].
  assert (Ha' : arena_ok (mem t') (root t') (gsplit id r s g)).
  { rewrite Hrt. eapply arena_ok_ext; [exact Hm|]. apply (split_arena_ok _ _ g id p r s nd ndl ndr pp cs buf); try done; [apply r_fresh|congruence]. }
  assert (Hsame : ∀ j n, mem t j = Some n → glvl (gsplit id r s g) j = glvl g j ∧ (j ≠ id → glo (gsplit id r s g) j = glo g j ∧ ghi (gsplit id r s g) j = ghi g j)).
  { intros j n Hj. assert (j ≠ r) by (intros E'; apply (old_not_fresh j n 0 Hj); lia). destruct (decide (j = id)) as [->|N].
    - destruct (split_ghost_id (mem t) g id r s nd Hid r_fresh) as (-> & _). by split.
    - destruct (split_ghost_same g id r s j) as (-> & -> & ->); by repeat split. }
  assert (Hcfg' : tconfig t' = tconfig t) by (by injection Hrest).
  unfold split_post. split_and!; [| | | |cbn; lia..].
  - split; [by rewrite <- Hcfg' in Hcfg|done..|].
    intros j n Hj. rewrite Hm. destruct (Hsame j n Hj) as [E' _]. rewrite E'. unfold split_arena. repeat case_decide; rewrite ?Hj; by eexists.
  - intros j n Hj Hl. rewrite Hm. apply split_below; [done..|intros ->; lia|intros ->; lia].
  - exists (reparent (Some p) ndr). rewrite Hm. unfold split_arena. rewrite decide_True, kids_reparent by done. split_and!; [done..| |].
    + by destruct (split_ghost_r g id r s) as (-> & _).
    + intros p' Hp'. rewrite parent_reparent. congruence.
  - intros p' _. split_and!; [|done..]. split; [done|]. intros j n Hj Hl. apply (Hsame j n Hj). intros ->. lia.
Qed.

Lemma split_code_root_ok : parent nd = None → ∃ t' g', split_code id ndl ndr s t = Some t' ∧ split_post t' g'.
Proof.
  intros Hpar. destruct Hok as [Ha Hcfg]. set (q := S r). destruct (split_code_root Hpar) as (t' & E & Hrt & Hrest & Hm). fold q in Hrt, Hm.
  pose proof (ao_orphan _ _ _ Ha id nd Hid Hpar) as Eid. set (g1 := ggrow q g). exists t', (gsplit id r s g1). split; [exact E|].
  assert (Nq : ∀ j n, mem t j = Some n → j ≠ q ∧ j ≠ r) by (intros j n Hj; split; intros E'; [apply (old_not_fresh j n 1 Hj)|apply (old_not_fresh j n 0 Hj)]; unfold q in *; lia).
  destruct (Nq _ _ Hid) as [Niq Nir].
  assert (Hq : mem t q = None) by (apply mem_fresh; unfold q, r; lia).
  assert (Ha1 : arena_ok (grow_arena (mem t) id q nd) q g1) by (rewrite Eid; apply grow_arena_ok; [done|by rewrite <- Eid|done..]).
  assert (H1 : grow_arena (mem t) id q nd id = Some (reparent (Some q) nd)) by (unfold grow_arena; by rewrite decide_False, decide_True).
  assert (H2 : grow_arena (mem t) id q nd r = None) by (unfold grow_arena; rewrite !decide_False by (unfold q; lia); apply r_fresh).
  assert (H3 : grow_arena (mem t) id q nd q = Some (Internal None [mkChild None id] [])) by (unfold grow_arena; by rewrite decide_True).
  destruct Hh as (Hk & Hpl & Hcon). destruct (Hcon _ _ g1 id r (Some q) Ha1 H1 H2) as (Hins & Hcl & Hcr).
  assert (Ha' : arena_ok (mem t') (root t') (gsplit id r s g1)).
  { rewrite Hrt. eapply arena_ok_ext; [exact Hm|].
    apply (split_arena_ok _ _ g1 id q r s (reparent (Some q) nd) (reparent (Some q) ndl) ndr None [mkChild None id] []); try done; rewrite ?parent_reparent, ?kids_reparent; try done.
    by apply content_reparent. }
  assert (Hsame : ∀ j n, mem t j = Some n → glvl (gsplit id r s g1) j = glvl g j).
  { intros j n Hj. destruct (Nq j n Hj) as [N1 N2]. destruct (ggrow_same q g j N1) as (E1 & _). destruct (decide (j = id)) as [->|N].
    - destruct (split_ghost_id _ g1 id r s _ H1 H2) as (-> & _). done.
    - destruct (split_ghost_same g1 id r s j) as (-> & _); done. }
  assert (Hcfg' : tconfig t' = tconfig t) by (by injection Hrest).
  unfold split_post. split_and!; [| | |by rewrite Hpar|cbn; lia..].
  - split; [by rewrite <- Hcfg' in Hcfg|done..|].
    intros j n Hj. rewrite Hm, (Hsame j n Hj). unfold split_arena, grow_arena. repeat case_decide; rewrite ?Hj; by eexists.
  - intros j n Hj Hl. rewrite Hm. destruct (Nq j n Hj) as [N1 N2]. assert (j ≠ id) by (intros ->; lia).
    apply split_below; [done| |done..]. unfold grow_arena. by rewrite !decide_False.
  - exists (reparent (Some q) ndr). rewrite Hm. unfold split_arena. rewrite decide_True, kids_reparent by done. split_and!; [done..| |by rewrite Hpar].
    destruct (split_ghost_r g1 id r s) as (-> & _). by destruct (ggrow_same q g id Niq) as (? & _).
Qed.
End split_code.

Lemma split_code_ok t g id nd ndl ndr s : tree_ok t g → mem t id = Some nd → halves nd s ndl ndr →
  ∃ t' g', split_code id ndl ndr s t = Some t' ∧ split_post t g id nd ndr t' g'.
Proof.
  intros Hok Hid Hh. destruct (parent nd) as [p|] eqn:Hp; [by eapply split_code_parent_ok|by eapply split_code_root_ok].
Qed.

(** ** The tree is lower than the arena is long *)
Lemma level_inhabited M rt g d : arena_ok M rt g → d ≤ gH g → ∃ id n, M id = Some n ∧ glvl g id = gH g - d.
Proof.
  intros Hok. induction d as [|d IH]; intros Hd.
  - destruct (ao_root _ _ _ Hok) as (n & Hn & _). exists rt, n. split; [done|]. destruct (ao_top _ _ _ Hok) as (-> & _). lia.
  - destruct IH as (id & n & Hn & Hl); [lia|]. pose proof (ao_content _ _ _ Hok id n Hn) as Hc.
    destruct n as [p cs buf|p es]; [|destruct Hc as [E _]; lia]. destruct Hc as (l & E & Hch & Hlv & _). destruct cs as [|c cs]; [done|].
    destruct (ao_kids _ _ _ Hok id _ Hn c) as (n' & Hn' & _); [by left|]. exists (child_id c), n'. split; [done|]. rewrite (Hlv c) by (by left). lia.
Qed.

Lemma distinct_levels M rt g d : arena_ok M rt g → d ≤ gH g → ∃ ids, length ids = S d ∧ NoDup ids ∧ ∀ id, id ∈ ids → is_Some (M id) ∧ gH g - d ≤ glvl g id.
Proof.
  intros Hok. induction d as [|d IH]; intros Hd.
  - destruct (level_inhabited M rt g 0 Hok Hd) as (id & n & Hn & Hl). exists [id]. split_and!; [done|apply NoDup_singleton|].
    intros j ->%list_elem_of_singleton. split; [by eexists|lia].
  - destruct IH as (ids & Hlen & Hnd & Hids); [lia|]. destruct (level_inhabited M rt g (S d) Hok Hd) as (id & n & Hn & Hl).
    exists (id :: ids). split_and!; [cbn; lia| |].
    + constructor; [|done]. intros H. destruct (Hids id H) as [_ H']. lia.
    + intros j [-> |Hj]%elem_of_cons; [split; [by eexists|lia]|]. destruct (Hids j Hj). split; [done|lia].
Qed.

Lemma height_bound t g : tree_ok t g → gH g < length (nodes t).
Proof.
  intros [Hok _]. destruct (distinct_levels _ _ g (gH g) Hok) as (ids & Hlen & Hnd & Hids); [done|].
  enough (length ids ≤ length (seq 0 (length (nodes t)))) as H by (rewrite length_seq in H; lia).
  apply submseteq_length, NoDup_submseteq; [done|]. intros j Hj. destruct (Hids j Hj) as [[n Hn] _]. apply elem_of_seq. apply lookup_lt_Some in Hn. lia.
Qed.

(** ** [maybe_split_from] *)

(** The barrier is off, at the node or at its parent. *)
Definition split_mode t (id : nat) : Prop :=
  split_barrier t = None ∨ split_barrier t = Some id ∨ ∃ n p, mem t id = Some n ∧ parent n = Some p ∧ split_barrier t = Some p.

Lemma maybe_split_eq fuel t id p cs1 c cs2 buf s : split_barrier t ≠ Some id → mem t id = Some (Internal p (cs1 ++ c :: cs2) buf) →
  length cs1 = max_children (tconfig t) / 2 + 1 → max_children (tconfig t) < length (cs1 ++ c :: cs2) → bound c = Some s →
  maybe_split_from (S fuel) id t =
    t' ← split_code id (Internal p cs1 (filter (λ m, negb (goes_right (Some s) m)) buf)) (Internal p (c :: cs2) (filter (goes_right (Some s)) buf)) s t;
    match p with None => Some (Some (length (nodes t)), t') | Some p => '(_, t2) ← maybe_split_from fuel p t'; Some (Some (length (nodes t)), t2) end.
Proof.
  intros Hb Hid Hl1 Hlen Hs. cbn [maybe_split_from]. rewrite bool_decide_false by done. unfold mem in Hid. rewrite Hid. cbn [mbind option_bind].
  rewrite (proj2 (Nat.leb_gt _ _) Hlen). rewrite <- Hl1, drop_app_length, take_app_length. cbn [head mbind option_bind]. rewrite Hs. cbn [default].
  rewrite length_set. unfold split_code. cbn [kids parent].
  destruct (set_parents _ _ _) as [t1|]; [|done]. cbn [mbind option_bind]. by destruct p.
Qed.

Lemma tree_grows_refl t g : tree_ok t g → grows t g t g.
Proof. intros H. split; try done. intros j n Hj. by exists n. Qed.

Lemma tree_grows_trans t g t1 g1 t2 g2 : grows t g t1 g1 → grows t1 g1 t2 g2 → grows t g t2 g2.
Proof.
  intros [A1 A2 A3 A4 A5] [B1 B2 B3 B4 B5]. split; [done|congruence..|]. intros j n Hj.
  destruct (A5 j n Hj) as (n1 & H1 & E1). destruct (B5 j n1 H1) as (n2 & H2 & E2). exists n2. split; [done|congruence].
Qed.

Lemma same_below_trans l l' t g t1 g1 t2 g2 : grows t g t1 g1 → grows t1 g1 t2 g2 → l ≤ l' → same_below l t g t1 → same_below l' t1 g1 t2 → same_below l t g t2.
Proof.
  intros HA HB Hl H1 H2 j n Hj Hlj. destruct (H1 j n Hj Hlj) as (n1 & Hn1 & E1). destruct (gr_keep _ _ _ _ HA j n Hj) as (_ & _ & El).
  destruct (H2 j n1 Hn1) as (n2 & Hn2 & E2); [lia|]. exists n2. split; [done|congruence].
Qed.

Lemma same_above_trans l l' t g t1 g1 t2 g2 : grows t g t1 g1 → grows t1 g1 t2 g2 → l' ≤ l → same_above l t g g1 → same_above l' t1 g1 g2 → same_above l t g g2.
Proof.
  intros HA HB Hl [E1 H1] [E2 H2]. split; [congruence|]. intros j n Hj Hlj. destruct (H1 j n Hj Hlj) as [L1 R1].
  destruct (gr_keep _ _ _ _ HA j n Hj) as (n1 & Hn1 & El). destruct (H2 j n1 Hn1) as [L2 R2]; [lia|]. split; congruence.
Qed.

Lemma rest_barrier t t' : rest t' = rest t → split_barrier t' = split_barrier t.
Proof. by intros [= _ _ ->]. Qed.

(** What a split gives for the node split and for its new sibling. *)
Record split_ok t g (id : nat) (n : Node V) (o : option nat) t' g' : Prop := {
  so_grows : grows t g t' g';
  so_below : same_below (glvl g id) t g t';
  so_above : split_barrier t ≠ None → same_above (glvl g id) t g g';
  so_right : ∀ rid, o = Some rid → split_mode t' rid ∧ ∃ nr, mem t' rid = Some nr ∧ glvl g' rid = glvl g id ∧ length (kids nr) < length (kids n)
}.

Lemma split_ok_refl t g id n : tree_ok t g → split_ok t g id n None t g.
Proof. intros H. split; [by apply tree_grows_refl|intros j n' Hj _; by exists n'|done|done]. Qed.

(** A node with too many children, cut in the middle. *)
Lemma split_middle t g id p cs buf : tree_ok t g → mem t id = Some (Internal p cs buf) → max_children (tconfig t) < length cs →
  ∃ cs1 c cs2 s, cs = cs1 ++ c :: cs2 ∧ cs1 ≠ [] ∧ bound c = Some s ∧ length cs1 = max_children (tconfig t) / 2 + 1.
Proof.
  intros [Hok (Hc & _)] Hid Hlen. set (mid := max_children (tconfig t) / 2 + 1).
  assert (mid < length cs). { unfold mid. pose proof (Nat.div_lt (max_children (tconfig t)) 2). lia. }
  destruct (lookup_lt_is_Some_2 cs mid) as [c Hcm]; [done|]. pose proof (take_drop_middle _ _ _ Hcm) as E.
  assert (take mid cs ≠ []) as Hne. { intros E0. apply (f_equal length) in E0. rewrite length_take in E0. cbn in E0. unfold mid in *. lia. }
  pose proof (ao_content _ _ _ Hok id _ Hid) as (l & _ & Hch & _). rewrite <- E in Hch. destruct (chain_split _ _ _ _ _ _ _ Hch Hne) as (s & Hs & _).
  exists (take mid cs), c, (drop (S mid) cs), s. split_and!; [done..|]. rewrite length_take. lia.
Qed.

Lemma split_barrier_noop fuel id t : split_barrier t = Some id → maybe_split_from fuel id t = Some (None, t).
Proof. intros Hb. destruct fuel; cbn [maybe_split_from]; by rewrite bool_decide_true. Qed.

Lemma maybe_split_small fuel id t n : split_barrier t ≠ Some id → mem t id = Some n → length (kids n) ≤ max_children (tconfig t) →
  maybe_split_from fuel id t = Some (None, t).
Proof.
  intros Hb Hid Hl. unfold mem in Hid. destruct fuel; cbn [maybe_split_from]; rewrite bool_decide_false, Hid by done; destruct n as [p cs buf|p es]; try done;
    cbn [mbind option_bind kids] in *; by rewrite (proj2 (Nat.leb_le _ _) Hl).
Qed.

(** The cascade at the parent after the node itself was split. *)
Definition cascade_ok (fuel : nat) : Prop := ∀ id t g n, tree_ok t g → mem t id = Some n → gH g - glvl g id < fuel → split_mode t id →
  ∃ o t' g', maybe_split_from fuel id t = Some (o, t') ∧ split_ok t g id n o t' g'.

Lemma split_then_cascade fuel t g id n nr t1 g1 p r : cascade_ok fuel → tree_ok t g → mem t id = Some n → parent n = Some p → split_mode t id → split_barrier t ≠ Some id →
  grows t g t1 g1 → same_below (glvl g id) t g t1 → same_above (glvl g id) t g g1 → mem t1 r = Some nr → glvl g1 r = glvl g id → parent nr = Some p →
  gH g - glvl g id < S fuel →
  ∃ o t2 g2, maybe_split_from fuel p t1 = Some (o, t2) ∧ grows t g t2 g2 ∧ same_below (glvl g id) t g t2 ∧ (split_barrier t ≠ None → same_above (glvl g id) t g g2) ∧
    split_mode t2 r ∧ ∃ n2, mem t2 r = Some n2 ∧ glvl g2 r = glvl g id ∧ kids n2 = kids nr.
Proof.
  intros IH Hok Hid Hpar Hmode Hnb Hg Hbel Hab Hnr Hlr Hpr Hfuel. pose proof (rest_barrier _ _ (gr_rest _ _ _ _ Hg)) as Hb1.
  destruct (parent_facts _ _ _ id _ p (proj1 Hok) Hid Hpar) as (pp & csp & bufp & c' & Hp & _ & _ & Hlp & _).
  destruct Hmode as [Hb|[?|(n' & p' & Hn' & Hp' & Hb)]]; [|done|].
  - destruct (gr_keep _ _ _ _ Hg p _ Hp) as (np & Hnp & Elp). pose proof (ao_level _ _ _ (proj1 Hok) p _ Hp). destruct Hab as [HgH _].
    destruct (IH p t1 g1 np (gr_ok _ _ _ _ Hg) Hnp) as (o & t2 & g2 & -> & [Hg2 Hbel2 _ _]); [lia|left; congruence|].
    destruct (gr_keep _ _ _ _ Hg2 _ nr Hnr) as (_ & _ & El2). destruct (Hbel2 _ nr Hnr) as (n2 & Hn2 & Hk2); [lia|].
    exists o, t2, g2. split_and!; [done|by eapply tree_grows_trans| |by rewrite Hb| |exists n2; split_and!; [done|congruence|done]].
    + apply (same_below_trans _ (glvl g1 p) _ _ t1 g1 _ g2); [done..|lia|done|done].
    + left. rewrite (rest_barrier _ _ (gr_rest _ _ _ _ Hg2)). congruence.
  - rewrite Hid in Hn'. injection Hn' as <-. rewrite Hpar in Hp'. injection Hp' as <-. rewrite split_barrier_noop by congruence.
    exists None, t1, g1. split_and!; [done..| |by exists nr]. right. right. exists nr, p. split_and!; [done..|congruence].
Qed.

Lemma maybe_split_from_ok fuel : cascade_ok fuel.
Proof.
  induction fuel as [|fuel IH]; intros id t g n Hok Hid Hfuel Hmode; [lia|].
  destruct (decide (split_barrier t = Some id)) as [Hb|Hb].
  { exists None, t, g. split; [by apply split_barrier_noop|by apply split_ok_refl]. }
  destruct (decide (length (kids n) ≤ max_children (tconfig t))) as [Hl|Hl].
  { exists None, t, g. split; [by eapply maybe_split_small|by apply split_ok_refl]. }
  destruct n as [p cs buf|p es]; [|cbn in Hl; lia]. cbn [kids] in Hl.
  destruct (split_middle t g id p cs buf) as (cs1 & c & cs2 & s & -> & Hne & Hs & Hl1); [done..|lia|].
  rewrite (maybe_split_eq fuel t id p cs1 c cs2 buf s) by (done || lia).
  destruct (split_code_ok t g id _ _ _ s Hok Hid (halves_internal p cs1 c cs2 buf s Hs Hne)) as (t1 & g1 & -> & Hg & Hbel & (nr & Hnr & Hkr & Hlr & Hpr) & Hpar & _).
  rewrite bind_some. cbv beta. assert (Hcount : length (kids nr) < length (cs1 ++ c :: cs2)). { rewrite Hkr. destruct cs1; [done|]. cbn [kids]. rewrite length_app. cbn. lia. }
  exists (Some (length (nodes t))). destruct p as [p|].
  - destruct (Hpar p eq_refl) as (Hab & _).
    destruct (split_then_cascade fuel t g id _ nr t1 g1 p (length (nodes t)) IH Hok Hid eq_refl Hmode Hb Hg Hbel Hab Hnr Hlr (Hpr p eq_refl) Hfuel)
      as (o & t2 & g2 & -> & Hg2 & Hbel2 & Hab2 & Hm2 & n2 & Hn2 & Hl2 & Hk2).
    exists t2, g2. split; [done|]. split; [done..|]. intros rid [= <-]. split; [done|]. exists n2. rewrite Hk2. by cbn [kids].
  - exists t1, g1. split; [done|]. destruct Hmode as [Hmode|[?|(n' & p' & Hn' & Hp' & _)]]; [|done|rewrite Hid in Hn'; injection Hn' as <-; done].
    split; [done..|]. intros rid [= <-]. split; [left; rewrite (rest_barrier _ _ (gr_rest _ _ _ _ Hg)); done|]. by exists nr.
Qed.

(** ** [maybe_split_leaf] and [repair_chain] *)
Lemma maybe_split_leaf_eq t id p es1 x es2 : mem t id = Some (Leaf p (es1 ++ x :: es2)) → length es1 = leaf_max_entries (tconfig t) / 2 + 1 →
  leaf_max_entries (tconfig t) < length (es1 ++ x :: es2) →
  maybe_split_leaf id t =
    t' ← split_code id (Leaf p es1) (Leaf p (x :: es2)) x.1 t;
    match p with None => Some t' | Some p => '(_, t2) ← maybe_split_from (length (nodes t')) p t'; Some t2 end.
Proof.
  intros Hid Hl1 Hlen. unfold maybe_split_leaf. unfold mem in Hid. rewrite Hid. cbn [mbind option_bind].
  rewrite (proj2 (Nat.leb_gt _ _) Hlen). rewrite <- Hl1, drop_app_length, take_app_length. cbn [head mbind option_bind]. rewrite length_set.
  unfold split_code. cbn [kids parent map set_parents mbind option_bind]. destruct p; [done|]. by destruct (grow_root _ _ _).
Qed.

Lemma maybe_split_leaf_ok t g id p es : tree_ok t g → mem t id = Some (Leaf p es) → split_mode t id → split_barrier t ≠ Some id →
  ∃ t' g', maybe_split_leaf id t = Some t' ∧ grows t g t' g' ∧ (split_barrier t ≠ None → same_above 0 t g g').
Proof.
  intros Hok Hid Hmode Hb. pose proof (ao_content _ _ _ (proj1 Hok) id _ Hid) as (Hl0 & _).
  destruct (decide (length es ≤ leaf_max_entries (tconfig t))) as [Hl|Hl].
  { exists t, g. split_and!; [|by apply tree_grows_refl|done]. unfold maybe_split_leaf. unfold mem in Hid. rewrite Hid. cbn [mbind option_bind]. by rewrite (proj2 (Nat.leb_le _ _) Hl). }
  set (mid := leaf_max_entries (tconfig t) / 2 + 1). pose proof (proj2 Hok) as (_ & _ & Hc).
  assert (mid < length es). { unfold mid. pose proof (Nat.div_lt (leaf_max_entries (tconfig t)) 2). lia. }
  destruct (lookup_lt_is_Some_2 es mid) as [x Hx]; [done|]. pose proof (take_drop_middle _ _ _ Hx) as E.
  assert (Hl1 : length (take mid es) = mid) by (rewrite length_take; lia). assert (take mid es ≠ []) as Hne by (intros E0; rewrite E0 in Hl1; unfold mid in Hl1; cbn in Hl1; lia).
  revert Hne Hl1 E. generalize (take mid es) (drop (S mid) es). intros es1 es2 Hne Hl1 <-.
  rewrite (maybe_split_leaf_eq t id p es1 x es2) by (done || lia).
  destruct (split_code_ok t g id _ _ _ _ Hok Hid (halves_leaf p es1 x es2 Hne)) as (t1 & g1 & -> & Hg & Hbel & (nr & Hnr & Hkr & Hlr & Hpr) & Hpar & _).
  rewrite bind_some. cbv beta. destruct p as [p|].
  - destruct (Hpar p eq_refl) as (Hab & HgH & _). pose proof (height_bound t1 g1 (gr_ok _ _ _ _ Hg)) as Hhb.
    destruct (split_then_cascade (length (nodes t1)) t g id _ nr t1 g1 p (length (nodes t)) (maybe_split_from_ok _) Hok Hid eq_refl Hmode Hb Hg Hbel Hab Hnr Hlr (Hpr p eq_refl))
      as (o & t2 & g2 & -> & Hg2 & _ & Hab2 & _); [lia|]. exists t2, g2. rewrite Hl0 in Hab2. done.
  - exists t1, g1. split_and!; [done..|]. intros Hn. destruct Hmode as [?|[?|(n' & p' & Hn' & Hp' & _)]]; [done..|]. rewrite Hid in Hn'. injection Hn' as <-. done.
Qed.

Lemma repair_chain_ok fuel id t g n : tree_ok t g → mem t id = Some n → split_mode t id → length (kids n) ≤ fuel →
  ∃ t' g', repair_chain fuel id t = Some t' ∧ grows t g t' g' ∧ (split_barrier t ≠ None → same_above (glvl g id) t g g').
Proof.
  revert id t g n. induction fuel as [|fuel IH]; intros id t g n Hok Hid Hmode Hlen; pose proof (height_bound t g Hok) as Hhb;
    destruct (maybe_split_from_ok (length (nodes t)) id t g n Hok Hid) as (o & t1 & g1 & E & [Hg _ Hab Hr]); [lia|done| |lia|done|]; cbn [repair_chain]; rewrite E, bind_some; cbv beta iota.
  - destruct o as [rid|]; [|by exists t1, g1]. destruct (Hr rid eq_refl) as (_ & nr & _ & _ & Hc). lia.
  - destruct o as [rid|]; [|by exists t1, g1]. destruct (Hr rid eq_refl) as (Hm & nr & Hnr & Hlr & Hc).
    destruct (IH rid t1 g1 nr (gr_ok _ _ _ _ Hg) Hnr Hm) as (t2 & g2 & -> & Hg2 & Hab2); [lia|]. exists t2, g2. split_and!; [done|by eapply tree_grows_trans|].
    intros Hb. apply (same_above_trans _ (glvl g1 rid) _ _ t1 g1 t2 g2); [done..|lia|by apply Hab|apply Hab2].
    by rewrite (rest_barrier _ _ (gr_rest _ _ _ _ Hg)).
Qed.
End flow.
