(* ===== verification/BeTreeRefine.v ===== *)
(** * Flushes of the cluster's Bε-tree, and its refinement to a map

    A flush moves the messages of a buffer one level down, splitting what
    overflows, without reordering the messages of a key: the log of a key,
    read from the level above the leaves up to the root, loses a prefix, which
    has been applied to the leaf. The value of a key is that of its leaf with
    its log applied, and it is what lookups return. *)
From S2P Require Import Prelude BeTree BeTreeSpec BeTreeFlow.
From Stdlib Require Import NArith Lia Strings.Byte.
From stdpp Require Import base numbers option list functions sorting.
Local Open Scope nat_scope.

#[local] Abbreviation bytes := (list byte).

#[export] Instance in_rng_dec lo hi k : Decision (in_rng lo hi k).
Proof. unfold in_rng, ge_lo, lt_hi, kle, klt. destruct lo, hi; solve_decision. Defined.

Section refine.
Context {V : Type}.
Implicit Types (t : BeTree V) (g : ghost (V := V)) (M : arena (V := V)) (msg : Message V).

(** ** Updating one node *)
Definition same_shape g g' : Prop := gH g' = gH g ∧ glvl g' = glvl g ∧ glo g' = glo g ∧ ghi g' = ghi g.

(** The ghost contents change only for the keys of [id], at its level. *)
Definition local_change g g' (id : nat) : Prop :=
  (∀ l k, ¬ (l = glvl g id ∧ owns g id k) → gmsgs g' l k = gmsgs g l k) ∧ ∀ k, ¬ (glvl g id = 0 ∧ owns g id k) → gbase g' k = gbase g k.

Lemma content_local M rt g g' id n j nj : arena_ok M rt g → M id = Some n → same_shape g g' → local_change g g' id → j ≠ id → M j = Some nj → content_ok g' j nj.
Proof.
  intros Hok Hid (E1 & E2 & E3 & E4) [Hm Hb] N Hj. pose proof (ao_content _ _ _ Hok j nj Hj) as Hc.
  assert (Hun : ∀ k, owns g j k → ¬ (glvl g j = glvl g id ∧ owns g id k)).
  { intros k Hk [El Hk']. apply N. by eapply (unique_owner M rt g j id nj n k). }
  destruct nj as [p cs buf|p es]; cbn [content_ok] in *; unfold owns in *; rewrite E2, E3, E4.
  - destruct Hc as (l & H1 & H2 & H3 & H4 & H5). exists l. split_and!; [done..|]. intros k Hk. rewrite (H5 k Hk). symmetry. apply Hm. rewrite <- H1. by apply Hun.
  - destruct Hc as (H1 & H2 & H3 & H4). split_and!; [done..|]. intros k Hk. rewrite (H4 k Hk). symmetry. apply Hb. rewrite <- H1 at 1. intros [E ?]. by apply (Hun k Hk).
Qed.

Lemma update_node t g g' id n n' : tree_ok t g → mem t id = Some n → parent n' = parent n → kids n' = kids n →
  same_shape g g' → local_change g g' id → content_ok g' id n' → tree_ok (set_node id n' t) g'.
Proof.
  intros [Hok Hcfg] Hid Hp Hk Hsh Hlc Hc. split; [|done]. pose proof Hsh as (E1 & E2 & E3 & E4).
  assert (Hm : ∀ j, mem (set_node id n' t) j = if decide (j = id) then Some n' else mem t j) by (intros j; apply mem_set; by eexists).
  assert (Hshape : ∀ j nj, mem (set_node id n' t) j = Some nj → ∃ n0, mem t j = Some n0 ∧ parent nj = parent n0 ∧ kids nj = kids n0).
  { intros j nj Hj. rewrite Hm in Hj. case_decide; [subst; injection Hj as <-; by exists n|by exists nj]. }
  assert (Hback : ∀ j n0, mem t j = Some n0 → ∃ nj, mem (set_node id n' t) j = Some nj ∧ parent nj = parent n0 ∧ kids nj = kids n0).
  { intros j n0 Hj. rewrite Hm. case_decide; [subst; rewrite Hid in Hj; injection Hj as <-; by exists n'|by exists n0]. }
  split.
  - intros j nj Hj. rewrite Hm in Hj. case_decide as N; [subst; by injection Hj as <-|]. exact (content_local _ _ g g' id n j nj Hok Hid Hsh Hlc N Hj).
  - intros j nj Hj c Hin. destruct (Hshape j nj Hj) as (n0 & Hn0 & _ & Ek). rewrite Ek in Hin. destruct (ao_kids _ _ _ Hok j n0 Hn0 c Hin) as (nc & Hnc & Hpc).
    destruct (Hback _ nc Hnc) as (nc' & Hnc' & Ep & _). exists nc'. split; [done|congruence].
  - intros j nj Hj p Hin. destruct (Hshape j nj Hj) as (n0 & Hn0 & Ep & _). rewrite Ep in Hin. destruct (ao_parent _ _ _ Hok j n0 Hn0 p Hin) as (np & c & Hnp & Hc0 & Ec).
    destruct (Hback _ np Hnp) as (np' & Hnp' & _ & Ek). exists np', c. split_and!; [done|congruence|done].
  - intros j nj Hj E. destruct (Hshape j nj Hj) as (n0 & Hn0 & Ep & _). apply (ao_orphan _ _ _ Hok j n0 Hn0). congruence.
  - intros j nj Hj. destruct (Hshape j nj Hj) as (n0 & Hn0 & _). rewrite E1, E2. by apply (ao_level _ _ _ Hok j n0).
  - destruct (ao_root _ _ _ Hok) as (n0 & Hn0 & Hpn). destruct (Hback _ n0 Hn0) as (nj & Hnj & Ep & _). exists nj. split; [done|congruence].
  - rewrite E1, E2, E3, E4. apply (ao_top _ _ _ Hok).
  - intros l k Hl. rewrite E1 in Hl. rewrite (proj1 Hlc); [by apply (ao_empty _ _ _ Hok)|]. intros [-> _]. pose proof (ao_level _ _ _ Hok id n Hid). lia.
Qed.

(** ** The three updates: empty a buffer, add a message, change a leaf *)
Definition with_msgs g (f : nat → bytes → list (Message V)) : ghost := mkGhost (gH g) (glvl g) (glo g) (ghi g) (gbase g) f.
Definition with_base g (f : bytes → option V) : ghost := mkGhost (gH g) (glvl g) (glo g) (ghi g) f (gmsgs g).

Definition gempty g (id : nat) : ghost :=
  with_msgs g (λ l k, if decide (l = glvl g id ∧ in_rng (glo g id) (ghi g id) k) then [] else gmsgs g l k).
Definition gpush g (id : nat) msg : ghost :=
  with_msgs g (λ l k, if decide (l = glvl g id) then gmsgs g l k ++ msgs_for k [msg] else gmsgs g l k).
Definition gapply g msg : ghost :=
  with_base g (λ k, if decide (k = mkey msg) then apply_op (mop msg) else gbase g k).

Lemma msgs_for_app k (a b : list (Message V)) : msgs_for k (a ++ b) = msgs_for k a ++ msgs_for k b.
Proof. unfold msgs_for. apply filter_app. Qed.

Lemma msgs_for_ne k msg : mkey msg ≠ k → msgs_for k [msg] = [].
Proof. intros H. unfold msgs_for. rewrite filter_cons_False; [done|]. intros E. apply H, eqb_iff. by destruct (bytes_eq _ _). Qed.

Lemma msgs_for_eq msg : msgs_for (mkey msg) [msg] = [msg].
Proof. unfold msgs_for. rewrite filter_cons_True; [done|]. by rewrite (proj2 (eqb_iff _ _) eq_refl). Qed.

Lemma msgs_for_none k (ms : list (Message V)) : (∀ m, m ∈ ms → mkey m ≠ k) → msgs_for k ms = [].
Proof.
  intros H. induction ms as [|m ms IH]; [done|]. rewrite (msgs_for_app k [m] ms : msgs_for k (m :: ms) = _), IH, msgs_for_ne; [done|apply H; by left|].
  intros m' Hm'. apply H. by right.
Qed.

Lemma empty_buffer_ok t g id p cs buf : tree_ok t g → mem t id = Some (Internal p cs buf) → tree_ok (set_node id (Internal p cs []) t) (gempty g id).
Proof.
  intros Hok Hid. pose proof (ao_content _ _ _ (proj1 Hok) id _ Hid) as (l & H1 & H2 & H3 & H4 & H5).
  apply (update_node t g _ id (Internal p cs buf)); try done.
  - split; [|done]. intros l' k N. cbn [gempty with_msgs gmsgs]. by rewrite decide_False.
  - exists l. split_and!; [done..| |].
    + intros m Hm. by apply elem_of_nil in Hm.
    + intros k Hk. cbn [gempty with_msgs gmsgs]. by rewrite decide_True.
Qed.

Lemma push_buffer_ok t g id p cs buf msg : tree_ok t g → mem t id = Some (Internal p cs buf) → owns g id (mkey msg) →
  tree_ok (set_node id (Internal p cs (buf ++ [msg])) t) (gpush g id msg).
Proof.
  intros Hok Hid Hown. pose proof (ao_content _ _ _ (proj1 Hok) id _ Hid) as (l & H1 & H2 & H3 & H4 & H5).
  apply (update_node t g _ id (Internal p cs buf)); try done.
  - split; [|done]. intros l' k N. cbn [gpush with_msgs gmsgs]. case_decide as E; [|done]. rewrite msgs_for_ne; [by rewrite app_nil_r|]. intros <-. by apply N.
  - exists l. split_and!; [done..| |].
    + intros m [Hm|Hm]%elem_of_app; [by apply H4|]. by apply list_elem_of_singleton in Hm as ->.
    + intros k Hk. cbn [gpush with_msgs gmsgs]. rewrite H1, decide_True by done. rewrite msgs_for_app. by rewrite (H5 k Hk).
Qed.

Lemma change_leaf_ok t g id p es es' msg : tree_ok t g → mem t id = Some (Leaf p es) → owns g id (mkey msg) → upserted es (mkey msg) (apply_op (mop msg)) es' →
  tree_ok (set_node id (Leaf p es') t) (gapply g msg).
Proof.
  intros Hok Hid Hown (Hs & Hk & Hv). pose proof (ao_content _ _ _ (proj1 Hok) id _ Hid) as (H1 & H2 & H3 & H4).
  apply (update_node t g _ id (Leaf p es)); try done.
  - split; [done|]. intros k N. cbn [gapply with_base gbase]. rewrite decide_False; [done|]. intros ->. by apply N.
  - split_and!; [done..| |].
    + intros x Hx. destruct (Hk x Hx) as [Hx'|E]; [by apply H3|]. by rewrite E.
    + intros k Hkk. rewrite Hv. cbn [gapply with_base gbase]. case_decide; [done|]. by apply H4.
Qed.

(** ** The log of a key below a level, oldest message first *)
Definition logn g (n : nat) (k : bytes) : list (Message V) := concat (map (λ l, gmsgs g l k) (seq 1 n)).
Definition apply_all (ms : list (Message V)) (v : option V) : option V := fold_left (λ _ m, apply_op (mop m)) ms v.

Lemma logn_S g n k : logn g (S n) k = logn g n k ++ gmsgs g (S n) k.
Proof. unfold logn. rewrite seq_S, map_app, concat_app. cbn [map concat]. by rewrite app_nil_r. Qed.

Lemma logn_ext g g' n k : (∀ l, 0 < l ≤ n → gmsgs g' l k = gmsgs g l k) → logn g' n k = logn g n k.
Proof. intros H. induction n as [|n IH]; [done|]. rewrite !logn_S, IH, H by (lia || (intros; apply H; lia)). done. Qed.

Lemma apply_all_app a b v : apply_all (a ++ b) v = apply_all b (apply_all a v).
Proof. apply fold_left_app. Qed.

(** The messages [extra] join the log below level [n], and a prefix of the log is applied. *)
Definition flow (n : nat) g (extra : bytes → list (Message V)) g' : Prop :=
  ∀ k, ∃ d, logn g n k ++ extra k = d ++ logn g' n k ∧ gbase g' k = apply_all d (gbase g k).

Record flowed (n : nat) t g (extra : bytes → list (Message V)) t' g' : Prop := {
  fl_ok : tree_ok t' g';
  fl_rest : rest t' = rest t;
  fl_keep : ∀ j nj, mem t j = Some nj → ∃ nj', mem t' j = Some nj' ∧ glvl g' j = glvl g j;
  fl_flow : flow n g extra g';
  fl_up : ∀ l k, n < l → gmsgs g' l k = gmsgs g l k;
  fl_above : split_barrier t ≠ None → same_above n t g g'
}.

Lemma flowed_trans n t g e1 t1 g1 e2 t2 g2 : flowed n t g e1 t1 g1 → flowed n t1 g1 e2 t2 g2 → flowed n t g (λ k, e1 k ++ e2 k) t2 g2.
Proof.
  intros [A1 A2 A3 A4 A5 A6] [B1 B2 B3 B4 B5 B6]. split; [done|congruence| | | |].
  - intros j nj Hj. destruct (A3 j nj Hj) as (n1 & H1 & E1). destruct (B3 j n1 H1) as (n2 & H2 & E2). exists n2. split; [done|congruence].
  - intros k. destruct (A4 k) as (d1 & E1 & G1). destruct (B4 k) as (d2 & E2 & G2). exists (d1 ++ d2). rewrite apply_all_app, <- G1, G2. split; [|done].
    by rewrite (assoc_L (++)), E1, <- (assoc_L (++) d1 (logn g1 n k)), E2, (assoc_L (++)).
  - intros l k Hl. by rewrite B5, A5.
  - intros Hb. destruct (A6 Hb) as [EA HA]. destruct B6 as [EB HB]; [by rewrite (rest_barrier _ _ A2)|]. split; [congruence|].
    intros j nj Hj Hl. destruct (A3 j nj Hj) as (n1 & H1 & E1). destruct (HA j nj Hj Hl) as [<- <-]. apply (HB j n1 H1). lia.
Qed.

Lemma flow_same n g g' : gbase g' = gbase g → gmsgs g' = gmsgs g → flow n g (λ _, []) g'.
Proof. intros E1 E2 k. exists []. rewrite app_nil_r. split; [|by rewrite E1]. symmetry. apply logn_ext. intros l _. by rewrite E2. Qed.

Lemma flowed_grows n t g t' g' : grows t g t' g' → (split_barrier t ≠ None → same_above n t g g') → flowed n t g (λ _, []) t' g'.
Proof. intros [A1 A2 A3 A4 A5] Hab. split; try done; [by apply flow_same|]. intros l k _. by rewrite A3. Qed.

Lemma flowed_refl n t g : tree_ok t g → flowed n t g (λ _, []) t g.
Proof. intros H. apply flowed_grows; [by apply tree_grows_refl|done]. Qed.

Lemma flowed_ext n t g e e' t' g' : (∀ k, e k = e' k) → flowed n t g e t' g' → flowed n t g e' t' g'.
Proof. intros He [A1 A2 A3 A4 A5 A6]. split; try done. intros k. rewrite <- He. apply A4. Qed.

(** A message reaches a leaf. *)
Lemma leaf_flow t g id p es msg : tree_ok t g → mem t id = Some (Leaf p es) → owns g id (mkey msg) →
  ∃ t' es', apply_to_leaf id msg t = Some t' ∧ mem t' id = Some (Leaf p es') ∧ flowed 0 t g (λ k, msgs_for k [msg]) t' (gapply g msg).
Proof.
  intros Hok Hid Hown. pose proof (ao_content _ _ _ (proj1 Hok) id _ Hid) as (_ & Hs & _).
  destruct (apply_to_leaf_ok t id p es msg Hid Hs) as (es' & live' & E & Hup & _). set (t' := with_live live' _) in E.
  assert (Hm : ∀ j, mem t' j = if decide (j = id) then Some (Leaf p es') else mem t j) by (intros j; apply (mem_set id (Leaf p es') t); by eexists).
  exists t', es'. split; [exact E|]. split; [by rewrite Hm, decide_True|]. split.
  - exact (change_leaf_ok t g id p es es' msg Hok Hid Hown Hup).
  - done.
  - intros j nj Hj. rewrite Hm. case_decide; [by eexists|by exists nj].
  - intros k. exists (msgs_for k [msg]). split; [by rewrite app_nil_r|]. cbn [gapply with_base gbase]. case_decide as Ek; [subst k; by rewrite msgs_for_eq|].
    by rewrite msgs_for_ne by congruence.
  - done.
  - done.
Qed.

(** A message joins a buffer of level [S l]. *)
Lemma push_flow t g id l p cs buf msg : tree_ok t g → mem t id = Some (Internal p cs buf) → owns g id (mkey msg) → glvl g id = S l →
  flowed (S l) t g (λ k, msgs_for k [msg]) (set_node id (Internal p cs (buf ++ [msg])) t) (gpush g id msg).
Proof.
  intros Hok Hid Hown Hl. split; [by apply push_buffer_ok|done| | | |done].
  - intros j nj Hj. rewrite mem_set by (by eexists). case_decide; [by eexists|by exists nj].
  - intros k. exists []. split; [|done]. rewrite !logn_S. cbn [app]. cbn [gpush with_msgs gmsgs]. rewrite Hl, decide_True by done. rewrite (assoc_L (++)). do 2 f_equal.
    symmetry. apply logn_ext. intros l' Hl'. cbn [gpush with_msgs gmsgs]. rewrite decide_False by lia. done.
  - intros l' k Hl'. cbn [gpush with_msgs gmsgs]. rewrite decide_False by lia. done.
Qed.

(** ** Delivering the messages of a drained buffer *)
Lemma node_internal t g id n l : tree_ok t g → mem t id = Some n → glvl g id = S l → ∃ p cs buf, n = Internal p cs buf.
Proof. intros Hok Hid Hl. pose proof (ao_content _ _ _ (proj1 Hok) id n Hid) as Hc. destruct n as [p cs buf|p es]; [by exists p, cs, buf|]. destruct Hc as [E _]. lia. Qed.

Lemma node_leaf t g id n : tree_ok t g → mem t id = Some n → glvl g id = 0 → ∃ p es, n = Leaf p es.
Proof. intros Hok Hid Hl. pose proof (ao_content _ _ _ (proj1 Hok) id n Hid) as Hc. destruct n as [p cs buf|p es]; [|by exists p, es]. destruct Hc as (l & E & _). lia. Qed.

Lemma route_ok t g id n l k : tree_ok t g → mem t id = Some n → glvl g id = S l → owns g id k →
  ∃ c nc, route t id k = Some c ∧ mem t c = Some nc ∧ parent nc = Some id ∧ glvl g c = l ∧ owns g c k.
Proof.
  intros Hok Hid Hl Hk. destruct (node_internal t g id n l Hok Hid Hl) as (p & cs & buf & ->).
  pose proof (ao_content _ _ _ (proj1 Hok) id _ Hid) as (l' & El & Hch & _). destruct (route_chain _ _ _ _ _ k Hch Hk) as (c & Hc & Hr & Hkc).
  destruct (kid_facts _ _ _ id _ c (proj1 Hok) Hid Hc) as (nc & Hnc & Hpc & Hlc & _). exists (child_id c), nc.
  split_and!; [|done|done|lia|done]. unfold route. unfold mem in Hid. by rewrite Hid.
Qed.

Definition flush_mode t (id : nat) : Prop := split_barrier t = None ∨ ∃ n p, mem t id = Some n ∧ parent n = Some p ∧ split_barrier t = Some p.
Lemma flush_split_mode t id : flush_mode t id → split_mode t id.
Proof. intros [?|?]; [by left|by do 2 right]. Qed.

Definition flush_spec (F : nat → BeTree V → option (BeTree V)) (l : nat) : Prop := ∀ id t g n, tree_ok t g → mem t id = Some n → glvl g id = l → flush_mode t id →
  ∃ t' g', F id t = Some t' ∧ flowed l t g (λ _, []) t' g'.

Lemma deliver_leaf F id msg t g n : tree_ok t g → mem t id = Some n → glvl g id = 1 → split_barrier t = Some id → owns g id (mkey msg) →
  ∃ t' g', deliver F id msg t = Some t' ∧ flowed 0 t g (λ k, msgs_for k [msg]) t' g'.
Proof.
  intros Hok Hid Hl Hb Hown. destruct (route_ok t g id n 0 _ Hok Hid Hl Hown) as (c & nc & Hr & Hc & Hpc & Hlc & Hkc).
  destruct (node_leaf t g c nc Hok Hc Hlc) as (p & es & ->). destruct (leaf_flow t g c p es msg Hok Hc Hkc) as (t1 & es' & E1 & Hc1 & F1).
  cbn [parent] in Hpc. subst p. assert (c ≠ id) by (intros ->; lia).
  assert (Hb1 : split_barrier t1 = Some id) by (by rewrite (rest_barrier _ _ (fl_rest _ _ _ _ _ _ F1))).
  destruct (maybe_split_leaf_ok t1 (gapply g msg) c (Some id) es' (fl_ok _ _ _ _ _ _ F1) Hc1) as (t2 & g2 & E2 & G2 & A2).
  - right. right. by exists (Leaf (Some id) es'), id.
  - congruence.
  - exists t2, g2. split.
    + unfold deliver. rewrite Hr, bind_some. unfold mem in Hc. rewrite Hc, bind_some. cbv beta iota. rewrite E1, bind_some. exact E2.
    + eapply flowed_ext; [|eapply flowed_trans; [exact F1|by apply flowed_grows]]. intros k. apply app_nil_r.
Qed.

Lemma deliver_internal F l id msg t g n : flush_spec F (S l) → tree_ok t g → mem t id = Some n → glvl g id = S (S l) → split_barrier t = Some id → owns g id (mkey msg) →
  ∃ t' g', deliver F id msg t = Some t' ∧ flowed (S l) t g (λ k, msgs_for k [msg]) t' g'.
Proof.
  intros HF Hok Hid Hl Hb Hown. destruct (route_ok t g id n (S l) _ Hok Hid Hl Hown) as (c & nc & Hr & Hc & Hpc & Hlc & Hkc).
  destruct (node_internal t g c nc l Hok Hc Hlc) as (p & cs & buf & ->).
  assert (∃ t1 g1, (if buffer_capacity (tconfig t) <=? length buf then F c t else Some t) = Some t1 ∧ flowed (S l) t g (λ _, []) t1 g1) as (t1 & g1 & E1 & F1).
  { destruct (buffer_capacity (tconfig t) <=? length buf); [|exists t, g; split; [done|by apply flowed_refl]].
    eapply HF; [done..|]. right. eexists _, _. done. }
  destruct (fl_keep _ _ _ _ _ _ F1 id n Hid) as (n1 & Hid1 & El1). assert (owns g1 id (mkey msg)) as Hown1.
  { destruct (fl_above _ _ _ _ _ _ F1 ltac:(congruence)) as [_ Hab]. unfold owns. destruct (Hab id n Hid) as [-> ->]; [lia|done]. }
  destruct (route_ok t1 g1 id n1 (S l) _ (fl_ok _ _ _ _ _ _ F1) Hid1 ltac:(lia) Hown1) as (c1 & nc1 & Hr1 & Hc1 & _ & Hlc1 & Hkc1).
  destruct (node_internal t1 g1 c1 nc1 l (fl_ok _ _ _ _ _ _ F1) Hc1 Hlc1) as (p1 & cs1 & buf1 & ->).
  pose proof (push_flow t1 g1 c1 l p1 cs1 buf1 msg (fl_ok _ _ _ _ _ _ F1) Hc1 Hkc1 Hlc1) as F2.
  exists (with_pending (wadd64 (pending t1) 1) (set_node c1 (Internal p1 cs1 (buf1 ++ [msg])) t1)), (gpush g1 c1 msg). split.
  - unfold deliver. rewrite Hr, bind_some. unfold mem in Hc, Hc1. rewrite Hc, bind_some. cbv beta iota. rewrite E1, bind_some, Hr1, bind_some, Hc1. done.
  - apply (flowed_trans _ _ _ _ _ _ _ _ _ F1) in F2. destruct F2 as [A1 A2 A3 A4 A5 A6]. by split.
Qed.

Lemma deliver_ok F l id msg t g n : (0 < l → flush_spec F l) → tree_ok t g → mem t id = Some n → glvl g id = S l → split_barrier t = Some id → owns g id (mkey msg) →
  ∃ t' g', deliver F id msg t = Some t' ∧ flowed l t g (λ k, msgs_for k [msg]) t' g'.
Proof. intros HF. destruct l as [|l]; [by apply deliver_leaf|]. apply deliver_internal, HF. lia. Qed.

Lemma deliver_all_ok F l id ms t g n : (0 < l → flush_spec F l) → tree_ok t g → mem t id = Some n → glvl g id = S l → split_barrier t = Some id →
  (∀ m, m ∈ ms → owns g id (mkey m)) → ∃ t' g', deliver_all F id ms t = Some t' ∧ flowed l t g (λ k, msgs_for k ms) t' g'.
Proof.
  intros HF. revert t g n. induction ms as [|m ms IH]; intros t g n Hok Hid Hl Hb Hown.
  { exists t, g. split; [done|]. by apply flowed_refl. }
  destruct (deliver_ok F l id m t g n HF Hok Hid Hl Hb) as (t1 & g1 & E1 & F1); [apply Hown; by left|].
  destruct (fl_keep _ _ _ _ _ _ F1 id n Hid) as (n1 & Hid1 & El1). destruct (fl_above _ _ _ _ _ _ F1 ltac:(congruence)) as [_ Hab].
  destruct (IH t1 g1 n1 (fl_ok _ _ _ _ _ _ F1) Hid1) as (t2 & g2 & E2 & F2); [lia|by rewrite (rest_barrier _ _ (fl_rest _ _ _ _ _ _ F1))| |].
  { intros m' Hm'. unfold owns. destruct (Hab id n Hid) as [-> ->]; [lia|]. apply Hown. by right. }
  exists t2, g2. split; [cbn [deliver_all]; by rewrite E1, bind_some|].
  eapply flowed_ext; [|eapply flowed_trans; [exact F1|exact F2]]. intros k. symmetry. apply (msgs_for_app k [m] ms).
Qed.

(** ** [flush_node] *)

(** A drained node that owns a key keeps its parent, whose range is fixed. *)
Lemma keep_parent l t g e t1 g1 id n p k : tree_ok t g → flowed l t g e t1 g1 → split_barrier t ≠ None → mem t id = Some n → parent n = Some p → glvl g id = S l → owns g id k →
  ∃ n1, mem t1 id = Some n1 ∧ parent n1 = Some p.
Proof.
  intros Hok F1 Hb Hid Hp Hl Hk. destruct (fl_keep _ _ _ _ _ _ F1 id n Hid) as (n1 & Hid1 & El1). exists n1. split; [done|].
  pose proof (fl_ok _ _ _ _ _ _ F1) as [Hok1 _]. destruct (fl_above _ _ _ _ _ _ F1 Hb) as [EH Hab].
  destruct (parent_facts _ _ _ id n p (proj1 Hok) Hid Hp) as (pp & cs & buf & c & Hnp & _ & _ & Elp & Hkp). pose proof (ao_level _ _ _ (proj1 Hok) p _ Hnp).
  destruct (Hab id n Hid) as [E1 E2]; [lia|]. destruct (Hab p _ Hnp) as [E3 E4]; [lia|]. destruct (fl_keep _ _ _ _ _ _ F1 p _ Hnp) as (np1 & Hnp1 & Elp1).
  destruct (parent n1) as [p'|] eqn:Ep.
  - destruct (parent_facts _ _ _ id n1 p' Hok1 Hid1 Ep) as (pp' & cs' & buf' & c' & Hnp' & _ & _ & Elp' & Hkp'). f_equal.
    apply (unique_owner _ _ g1 p' p _ np1 k Hok1 Hnp' Hnp1); [lia| |].
    + apply Hkp'. unfold owns. by rewrite E1, E2.
    + unfold owns. rewrite E3, E4. by apply Hkp.
  - pose proof (ao_orphan _ _ _ Hok1 id n1 Hid1 Ep) as Er. destruct (ao_top _ _ _ Hok1) as (Et & _). rewrite <- Er in Et. lia.
Qed.

(** The log across the drained level: what was buffered at [id] is now below. *)
Lemma drain_flow l t g id p cs ms g1 : tree_ok t g → mem t id = Some (Internal p cs ms) → glvl g id = S l →
  flow l (gempty g id) (λ k, msgs_for k ms) g1 → (∀ k, gmsgs g1 (S l) k = gmsgs (gempty g id) (S l) k) → flow (S l) g (λ _, []) g1.
Proof.
  intros Hok Hid Hl Hf Hup. pose proof (ao_content _ _ _ (proj1 Hok) id _ Hid) as (l' & El & _ & _ & Hbk & Hbuf).
  assert (l' = l) as -> by lia. intros k. destruct (Hf k) as (d & E & Hbase). exists d. split; [|exact Hbase]. rewrite app_nil_r, !logn_S, Hup.
  assert (logn (gempty g id) l k = logn g l k) as E0.
  { apply logn_ext. intros l' Hl'. cbn [gempty with_msgs gmsgs]. rewrite decide_False by lia. done. }
  rewrite E0 in E. cbn [gempty with_msgs gmsgs]. rewrite Hl. case_decide as Hd.
  - destruct Hd as [_ Hk]. rewrite <- (Hbuf k Hk), E, app_nil_r. done.
  - rewrite msgs_for_none, app_nil_r in E; [by rewrite E, (assoc_L (++))|]. intros m Hm <-. apply Hd. split; [done|]. by apply Hbk.
Qed.

Lemma flush_node_ok fuel l : l ≤ fuel → flush_spec (flush_node fuel) l.
Proof.
  revert l. induction fuel as [|fuel IH]; intros l Hfuel id t g n Hok Hid Hl Hmode; (destruct l as [|l];
    [destruct (node_leaf t g id n Hok Hid Hl) as (p & es & ->); exists t, g; split; [unfold mem in Hid; cbn [flush_node]; by rewrite Hid|by apply flowed_refl]|]); [lia|].
  destruct (node_internal t g id n l Hok Hid Hl) as (p & cs & ms & ->).
  pose proof (ao_content _ _ _ (proj1 Hok) id _ Hid) as (l' & El & _ & _ & Hbk & Hbuf). assert (l' = l) as -> by lia.
  set (t0 := with_barrier (Some id) (with_pending (wsub64 (pending t) (wrap64 (N.of_nat (length ms)))) (set_node id (Internal p cs []) t))).
  assert (Hok0 : tree_ok t0 (gempty g id)) by exact (empty_buffer_ok t g id p cs ms Hok Hid).
  assert (Hm0 : ∀ j, mem t0 j = if decide (j = id) then Some (Internal p cs []) else mem t j) by (intros j; apply (mem_set id (Internal p cs []) t); by eexists).
  assert (Hid0 : mem t0 id = Some (Internal p cs [])) by (by rewrite Hm0, decide_True).
  destruct (deliver_all_ok (flush_node fuel) l id ms t0 (gempty g id) _ ltac:(intros _; apply IH; lia) Hok0 Hid0 Hl eq_refl Hbk) as (t1 & g1 & E1 & F1).
  destruct (fl_keep _ _ _ _ _ _ F1 id _ Hid0) as (n1 & Hid1 & El1).
  set (t1' := with_barrier (split_barrier t) t1).
  assert (Hmode1 : flush_mode t1' id).
  { destruct Hmode as [Hb|(n' & p' & Hn' & Hp' & Hb)]; [by left|right]. rewrite Hid in Hn'. injection Hn' as <-. cbn [parent] in Hp'. subst p.
    destruct ms as [|m ms]; [injection E1 as <-; by exists (Internal (Some p') cs []), p'|].
    destruct (keep_parent l t0 _ _ t1 g1 id _ p' (mkey m) Hok0 F1 ltac:(done) Hid0 eq_refl Hl ltac:(apply Hbk; by left)) as (n2 & Hn2 & Hp2). by exists n2, p'. }
  assert (Hok1' : tree_ok t1' g1) by exact (fl_ok _ _ _ _ _ _ F1).
  destruct (repair_chain_ok (children_count t1' id) id t1' g1 n1 Hok1' Hid1 (flush_split_mode _ _ Hmode1)) as (t2 & g2 & E2 & G2 & A2).
  { unfold children_count. change (nodes t1' !! id) with (mem t1 id). rewrite Hid1. by destruct n1. }
  exists t2, g2. split.
  { cbn [flush_node]. unfold mem in Hid. rewrite Hid, bind_some. cbv beta iota zeta. change (split_barrier (with_pending _ _)) with (split_barrier t).
    change (pending (set_node id (Internal p cs []) t)) with (pending t). fold t0. rewrite E1, bind_some. exact E2. }
  pose proof (drain_flow l t g id p cs ms g1 Hok Hid Hl (fl_flow _ _ _ _ _ _ F1) ltac:(intros k; apply (fl_up _ _ _ _ _ _ F1); lia)) as Hflow.
  destruct F1 as [_ R1 K1 _ U1 B1]. destruct G2 as [O2 Bs2 Ms2 R2 K2]. split.
  - exact O2.
  - rewrite R2. injection R1 as R3 R4 R5. unfold rest. cbn [t1' with_barrier tconfig next_seq split_barrier]. by rewrite R3, R4.
  - intros j nj Hj. assert (∃ n0, mem t0 j = Some n0) as (n0 & Hj0) by (rewrite Hm0; case_decide; eauto).
    destruct (K1 j n0 Hj0) as (n2 & Hn2 & E3). destruct (K2 j n2 Hn2) as (n3 & Hn3 & E4). exists n3. split; [done|]. rewrite E4, E3. done.
  - intros k. destruct (Hflow k) as (d & E3 & E4). exists d. rewrite Bs2. split; [|exact E4]. rewrite E3. f_equal. symmetry. apply logn_ext. intros l' _. by rewrite Ms2.
  - intros l' k Hl'. rewrite Ms2, U1 by lia. cbn [gempty with_msgs gmsgs]. rewrite decide_False by lia. done.
  - intros Hb. destruct (B1 ltac:(done)) as [EH HB]. destruct (A2 Hb) as [EH2 HB2]. split; [by rewrite EH2, EH|].
    intros j nj Hj Hlj. assert (∃ n0, mem t0 j = Some n0) as (n0 & Hj0) by (rewrite Hm0; case_decide; eauto).
    destruct (K1 j n0 Hj0) as (n2 & Hn2 & E3). destruct (HB j n0 Hj0) as [E4 E5]; [cbn; lia|]. destruct (HB2 j n2 Hn2) as [E6 E7]; [rewrite E3, El1; cbn; lia|].
    rewrite E6, E7, E4, E5. done.
Qed.

(** ** The whole log of a key *)
Definition flog g (k : bytes) : list (Message V) := logn g (gH g) k.
Definition value g (k : bytes) : option V := apply_all (flog g k) (gbase g k).

Lemma logn_split g l n k : l ≤ n → logn g n k = logn g l k ++ concat (map (λ i, gmsgs g i k) (seq (S l) (n - l))).
Proof. intros Hl. unfold logn. replace n with (l + (n - l)) at 1 by lia. by rewrite seq_app, map_app, concat_app. Qed.

Lemma logn_top t g n k : tree_ok t g → gH g ≤ n → logn g n k = flog g k.
Proof.
  intros Hok Hn. rewrite (logn_split g (gH g) n k Hn). replace (concat _) with (@nil (Message V)); [by rewrite app_nil_r|].
  generalize (n - gH g). intros m. symmetry. assert (gH g < S (gH g)) as Hlt by lia. revert Hlt. generalize (S (gH g)). induction m as [|m IH]; intros i Hi; [done|].
  cbn [seq map concat]. rewrite (ao_empty _ _ _ (proj1 Hok)), IH by lia. done.
Qed.

(** A flow below the root is a flow of whole logs, and what joins at the top joins the log. *)
Definition full_flow g (extra : bytes → list (Message V)) g' : Prop := ∀ k, ∃ d, flog g k ++ extra k = d ++ flog g' k ∧ gbase g' k = apply_all d (gbase g k).

Lemma flowed_full l t g e t' g' : tree_ok t g → flowed l t g e t' g' → (gH g ≤ l ∨ ∀ k, e k = []) → full_flow g e g'.
Proof.
  intros Hok [Hok' _ _ Hf Hu _] Hc k. destruct (Hf k) as (d & E & Hb). exists d. split; [|exact Hb]. set (n := (l `max` gH g) `max` gH g').
  rewrite <- (logn_top t g n k Hok), <- (logn_top t' g' n k Hok') by lia. rewrite (logn_split g l n), (logn_split g' l n) by lia.
  assert (Hup : map (λ i, gmsgs g' i k) (seq (S l) (n - l)) = map (λ i, gmsgs g i k) (seq (S l) (n - l))).
  { apply map_ext_in. intros i Hi. apply in_seq in Hi. apply Hu. lia. }
  rewrite Hup. rewrite (assoc_L (++) d), <- E. destruct Hc as [Hc|Hc]; [|by rewrite Hc, !app_nil_r].
  pose proof (logn_top t g n k Hok ltac:(lia)) as Hn. rewrite <- (logn_top t g l k Hok) in Hn by lia. rewrite (logn_split g l n) in Hn by lia.
  apply (f_equal length) in Hn. rewrite length_app in Hn. assert (concat (map (λ i, gmsgs g i k) (seq (S l) (n - l))) = []) as -> by (apply nil_length_inv; lia).
  by rewrite !app_nil_r.
Qed.

Lemma full_flow_trans g e1 g1 e2 g2 : full_flow g e1 g1 → full_flow g1 e2 g2 → full_flow g (λ k, e1 k ++ e2 k) g2.
Proof.
  intros A B k. destruct (A k) as (d1 & E1 & G1). destruct (B k) as (d2 & E2 & G2). exists (d1 ++ d2). rewrite apply_all_app, <- G1, G2. split; [|done].
  by rewrite (assoc_L (++)), E1, <- (assoc_L (++) d1 (flog g1 k)), E2, (assoc_L (++)).
Qed.

Lemma full_flow_value g e g' k : full_flow g e g' → value g' k = apply_all (e k) (value g k).
Proof. intros H. destruct (H k) as (d & E & Hb). unfold value. by rewrite Hb, <- !apply_all_app, <- E. Qed.

(** ** Sequence numbers order the log *)
Definition seq_lt (a b : Message V) : Prop := (mseq a < mseq b)%N.
Definition seq_le (a b : Message V) : Prop := (mseq a ≤ mseq b)%N.
Definition logs_ok (s : N) g : Prop := ∀ k, StronglySorted seq_lt (flog g k) ∧ ∀ m, m ∈ flog g k → (mseq m ≤ s)%N.

Lemma logs_ok_flow s g g' : logs_ok s g → full_flow g (λ _, []) g' → logs_ok s g'.
Proof.
  intros H F k. destruct (F k) as (d & E & _). rewrite app_nil_r in E. destruct (H k) as [H1 H2]. rewrite E in H1, H2.
  apply strongly_sorted_app in H1 as (_ & H1 & _). split; [done|]. intros m Hm. apply H2, elem_of_app. by right.
Qed.

Lemma logs_ok_push s g g' msg : logs_ok s g → (s < mseq msg)%N → full_flow g (λ k, msgs_for k [msg]) g' → logs_ok (mseq msg) g'.
Proof.
  intros H Hs F k. destruct (F k) as (d & E & _). destruct (H k) as [H1 H2].
  assert (StronglySorted seq_lt (flog g k ++ msgs_for k [msg]) ∧ ∀ m, m ∈ flog g k ++ msgs_for k [msg] → (mseq m ≤ mseq msg)%N) as [H3 H4].
  { assert (∀ m, m ∈ msgs_for k [msg] → m = msg) as Hin. { intros m [_ Hm]%list_elem_of_filter. by apply list_elem_of_singleton. }
    split.
    - apply strongly_sorted_app. split_and!; [done| |].
      + destruct (decide (mkey msg = k)) as [<-|N]; [rewrite msgs_for_eq; repeat constructor|rewrite msgs_for_ne by done; constructor].
      + intros a b Ha Hb. apply Hin in Hb as ->. apply H2 in Ha. unfold seq_lt. lia.
    - intros m [Hm|Hm]%elem_of_app; [apply H2 in Hm; lia|by apply Hin in Hm as ->]. }
  rewrite E in H3, H4. apply strongly_sorted_app in H3 as (_ & H3 & _). split; [done|]. intros m Hm. apply H4, elem_of_app. by right.
Qed.

Lemma insert_seq_perm (m : Message V) l : insert_seq m l ≡ₚ m :: l.
Proof. induction l as [|x l IH]; cbn [insert_seq]; [done|]. destruct (mseq m <? mseq x)%N; [done|]. rewrite IH. apply Permutation_swap. Qed.

Lemma insert_seq_sorted (m : Message V) l : StronglySorted seq_le l → StronglySorted seq_le (insert_seq m l).
Proof.
  induction l as [|x l IH]; intros Hs; cbn [insert_seq]; [repeat constructor|]. apply StronglySorted_inv in Hs as [Hs Hx]. rewrite Forall_forall in Hx.
  destruct (N.ltb_spec (mseq m) (mseq x)) as [Hlt|Hge].
  - constructor; [constructor; [done|by apply Forall_forall]|]. apply Forall_forall. intros y [-> |Hy]%elem_of_cons; unfold seq_le in *; [lia|]. specialize (Hx y Hy). lia.
  - constructor; [by apply IH|]. apply Forall_forall. intros y Hy. rewrite insert_seq_perm in Hy. apply elem_of_cons in Hy as [-> |Hy]; [done|by apply Hx].
Qed.

Lemma sort_by_seq_ok (l : list (Message V)) : StronglySorted seq_le (sort_by_seq l) ∧ sort_by_seq l ≡ₚ l.
Proof.
  unfold sort_by_seq. enough (∀ acc, StronglySorted seq_le acc → StronglySorted seq_le (fold_left (λ acc m, insert_seq m acc) l acc) ∧ fold_left (λ acc m, insert_seq m acc) l acc ≡ₚ l ++ acc) as H.
  { destruct (H [] ltac:(constructor)) as [H1 H2]. by rewrite app_nil_r in H2. }
  induction l as [|m l IH]; intros acc Hs; cbn [fold_left app]; [done|]. destruct (IH (insert_seq m acc)) as [H1 H2]; [by apply insert_seq_sorted|].
  split; [done|]. rewrite H2, insert_seq_perm. apply Permutation_sym, Permutation_middle.
Qed.

Lemma sorted_perm_log l log : StronglySorted seq_le l → StronglySorted seq_lt log → l ≡ₚ log → l = log.
Proof.
  intros H1 Hs Hp. symmetry. assert (Hs' : StronglySorted seq_le log).
  { clear -Hs. induction Hs as [|y log Hs IH Hy]; constructor; [done|]. eapply Forall_impl; [exact Hy|]. intros a. unfold seq_lt, seq_le. lia. }
  apply (StronglySorted_unique_strong seq_le); [|done|done|done]. intros x1 x2 Hx1 Hx2. rewrite Hp in Hx2. clear -Hs Hx1 Hx2. unfold seq_le.
  induction Hs as [|y log Hs IH Hy]; [by apply elem_of_nil in Hx1|]. rewrite Forall_forall in Hy. unfold seq_lt in Hy.
  apply elem_of_cons in Hx1 as [-> |Hx1]; apply elem_of_cons in Hx2 as [-> |Hx2]; [done| | |by apply IH]; [specialize (Hy _ Hx2)|specialize (Hy _ Hx1)]; lia.
Qed.

(** Sorting by sequence number restores a log from any arrangement of it. *)
Lemma sort_log l log : StronglySorted seq_lt log → l ≡ₚ log → sort_by_seq l = log.
Proof. intros Hs Hp. destruct (sort_by_seq_ok l) as [H1 H2]. apply sorted_perm_log; [done|done|by rewrite H2]. Qed.

(** ** [get] *)
Fixpoint hlog g (n : nat) (k : bytes) : list (Message V) := match n with O => [] | S n => gmsgs g (S n) k ++ hlog g n k end.

Lemma hlog_perm g n k : hlog g n k ≡ₚ logn g n k.
Proof. induction n as [|n IH]; [done|]. rewrite logn_S. cbn [hlog]. rewrite IH. apply Permutation_app_comm. Qed.

Lemma get_loop_ok fuel t g k cur n pend : tree_ok t g → mem t cur = Some n → owns g cur k → glvl g cur ≤ fuel →
  get_loop fuel t k cur pend = Some (apply_all (sort_by_seq (pend ++ hlog g (glvl g cur) k)) (gbase g k)).
Proof.
  intros Hok. revert cur n pend. induction fuel as [|fuel IH]; intros cur n pend Hcur Hown Hf; (destruct (glvl g cur) as [|l] eqn:El;
    [destruct (node_leaf t g cur n Hok Hcur El) as (p & es & ->); pose proof (ao_content _ _ _ (proj1 Hok) cur _ Hcur) as (_ & _ & _ & Hv);
     unfold mem in Hcur; cbn [get_loop hlog]; rewrite Hcur, bind_some, app_nil_r, (Hv k Hown); done|]); [lia|].
  destruct (route_ok t g cur n l k Hok Hcur El Hown) as (c & nc & Hr & Hc & _ & Hlc & Hkc).
  destruct (node_internal t g cur n l Hok Hcur El) as (p & cs & buf & ->). pose proof (ao_content _ _ _ (proj1 Hok) cur _ Hcur) as (l' & El' & _ & _ & _ & Hbuf).
  assert (l' = l) as -> by lia. unfold route in Hr. unfold mem in Hcur. rewrite Hcur, bind_some in Hr. cbn [get_loop]. rewrite Hcur, bind_some. cbv beta iota. rewrite Hr, bind_some.
  rewrite (IH c nc) by (done || lia). rewrite Hlc. change (filter _ buf) with (msgs_for k buf). rewrite (Hbuf k Hown), <- (assoc_L (++)). done.
Qed.

Lemma be_get_ok s t g k : tree_ok t g → logs_ok s g → be_get k t = Some (value g k).
Proof.
  intros Hok Hlog. destruct (ao_root _ _ _ (proj1 Hok)) as (n & Hn & _). destruct (ao_top _ _ _ (proj1 Hok)) as (Et & El & Eh). pose proof (height_bound t g Hok).
  unfold be_get. rewrite (get_loop_ok _ t g k (root t) n); [|done|done|unfold owns; by rewrite El, Eh|lia]. cbn [app]. rewrite Et. unfold value. do 2 f_equal.
  apply sort_log; [apply Hlog|apply hlog_perm].
Qed.

(** ** Mutations *)

(** A tree between two operations: no barrier is set, and the logs are in
    the order of their sequence numbers. *)
Record tree_good t g : Prop := { tg_ok : tree_ok t g; tg_barrier : split_barrier t = None; tg_logs : logs_ok (next_seq t) g }.

Lemma flush_ok id t g n : tree_ok t g → split_barrier t = None → mem t id = Some n → ∃ t' g', flush id t = Some t' ∧ flowed (glvl g id) t g (λ _, []) t' g'.
Proof.
  intros Hok Hb Hid. pose proof (height_bound t g Hok). pose proof (ao_level _ _ _ (proj1 Hok) id n Hid).
  unfold flush. eapply flush_node_ok; [|done..|by left]. lia.
Qed.

Lemma rest_seq t t' : rest t' = rest t → next_seq t' = next_seq t.
Proof. by intros [= _ -> _]. Qed.

(** The message reaches the top of the tree. *)
Lemma enqueue_flow msg t g : tree_ok t g → split_barrier t = None → ∃ t' g', enqueue msg t = Some t' ∧ tree_ok t' g' ∧ rest t' = rest t ∧ full_flow g (λ k, msgs_for k [msg]) g'.
Proof.
  intros Hok Hb. destruct (ao_root _ _ _ (proj1 Hok)) as (n & Hn & Hpn). destruct (ao_top _ _ _ (proj1 Hok)) as (Et & El & Eh).
  assert (Hown : owns g (root t) (mkey msg)) by (unfold owns; by rewrite El, Eh). unfold enqueue. unfold mem in Hn. rewrite Hn, bind_some. destruct n as [p cs buf|p es].
  - set (t0 := with_pending (wadd64 (pending t) 1) t). change (tconfig t0) with (tconfig t). change (root t0) with (root t).
    assert (∃ t1 g1, (if buffer_capacity (tconfig t) <=? length buf then flush (root t) t0 else Some t0) = Some t1 ∧ flowed (gH g) t0 g (λ _, []) t1 g1) as (t1 & g1 & E1 & F1).
    { destruct (buffer_capacity (tconfig t) <=? length buf); [|exists t0, g; split; [done|by apply flowed_refl]].
      rewrite <- Et. by eapply (flush_ok (root t) t0 g). }
    rewrite E1, bind_some. pose proof (fl_ok _ _ _ _ _ _ F1) as Hok1. destruct (ao_root _ _ _ (proj1 Hok1)) as (n1 & Hn1 & _). destruct (ao_top _ _ _ (proj1 Hok1)) as (Et1 & El1 & Eh1).
    destruct (fl_keep _ _ _ _ _ _ F1 (root t) _ Hn) as (nr & Hnr & Elr). pose proof (ao_level _ _ _ (proj1 Hok1) _ _ Hnr) as Hle.
    pose proof (ao_content _ _ _ (proj1 Hok) (root t) _ Hn) as (l0 & El0 & _).
    destruct (gH g1) as [|l] eqn:EH1; [lia|]. destruct (node_internal t1 g1 (root t1) n1 l Hok1 Hn1 Et1) as (p1 & cs1 & buf1 & ->).
    pose proof (push_flow t1 g1 (root t1) l p1 cs1 buf1 msg Hok1 Hn1 ltac:(unfold owns; by rewrite El1, Eh1) Et1) as F2.
    unfold mem in Hn1. rewrite Hn1, bind_some. eexists _, _. split; [done|]. split; [exact (fl_ok _ _ _ _ _ _ F2)|]. split; [exact (fl_rest _ _ _ _ _ _ F1)|].
    exact (full_flow_trans _ _ _ _ _ (flowed_full _ t0 _ _ _ _ Hok F1 (or_intror (λ _, eq_refl))) (flowed_full _ t1 _ _ _ _ Hok1 F2 ltac:(left; lia))).
  - cbv beta iota zeta. destruct (leaf_flow t g (root t) p es msg Hok Hn Hown) as (t1 & es' & -> & Hn1 & F1). rewrite bind_some. cbn [parent] in Hpn. subst p.
    pose proof (fl_ok _ _ _ _ _ _ F1) as Hok1. pose proof (rest_barrier _ _ (fl_rest _ _ _ _ _ _ F1)) as Hb1.
    destruct (maybe_split_leaf_ok t1 _ (root t) None es' Hok1 Hn1 ltac:(left; congruence) ltac:(congruence)) as (t2 & g2 & -> & G2 & A2).
    pose proof (flowed_grows 0 _ _ _ _ G2 A2) as F2. exists t2, g2. split; [done|]. split; [exact (gr_ok _ _ _ _ G2)|]. split; [by rewrite (gr_rest _ _ _ _ G2), (fl_rest _ _ _ _ _ _ F1)|].
    pose proof (ao_content _ _ _ (proj1 Hok) (root t) _ Hn) as (El0 & _). intros k.
    destruct (full_flow_trans _ _ _ _ _ (flowed_full _ t _ _ _ _ Hok F1 ltac:(left; lia)) (flowed_full _ t1 _ _ _ _ Hok1 F2 (or_intror (λ _, eq_refl))) k) as (d & E & Hv).
    exists d. by rewrite app_nil_r in E.
Qed.

Definition upd (m : bytes → option V) (k : bytes) (o : option V) : bytes → option V := λ k', if decide (k' = k) then o else m k'.

Lemma mutate_ok key o t g : tree_good t g → (next_seq t + 1 < 2 ^ 64)%N →
  ∃ t' g', enqueue (mkMsg key (fst (bump_seq t)) o) (snd (bump_seq t)) = Some t' ∧ tree_good t' g' ∧ next_seq t' = (next_seq t + 1)%N ∧ ∀ k, value g' k = upd (value g) key (apply_op o) k.
Proof.
  intros [Hok Hb Hlog] Hs. set (msg := mkMsg key (fst (bump_seq t)) o). assert (Hseq : mseq msg = (next_seq t + 1)%N) by (cbn; by rewrite wadd64_small).
  destruct (enqueue_flow msg (snd (bump_seq t)) g Hok Hb) as (t' & g' & E & Hok' & Hr & F). exists t', g'.
  assert (Hns : next_seq t' = (next_seq t + 1)%N) by (rewrite (rest_seq _ _ Hr); exact Hseq).
  split; [exact E|]. split; [split; [done|by rewrite (rest_barrier _ _ Hr)|]|split; [exact Hns|]].
  - rewrite Hns, <- Hseq. eapply logs_ok_push; [exact Hlog|lia|exact F].
  - intros k. rewrite (full_flow_value _ _ _ k F). unfold upd. case_decide as Ek; [subst k; change key with (mkey msg); by rewrite msgs_for_eq|].
    rewrite msgs_for_ne; [done|]. intros <-. by apply Ek.
Qed.

(** ** [flush_all] *)

(** The traversal has visited [vs] and will visit [stack]: no node twice,
    since the parent of each has been visited. *)
Definition traversed t (vs stack : list nat) : Prop :=
  NoDup (vs ++ stack) ∧ ∀ x, x ∈ vs ++ stack → ∃ n, mem t x = Some n ∧ (x = root t ∨ ∃ p, parent n = Some p ∧ p ∈ vs).

Lemma traversed_length t vs stack : traversed t vs stack → length vs + length stack ≤ length (nodes t).
Proof.
  intros [Hnd Hall]. rewrite <- length_app, <- (length_seq (length (nodes t)) 0). apply submseteq_length, NoDup_submseteq; [done|].
  intros j Hj. destruct (Hall j Hj) as (n & Hn & _). apply elem_of_seq. apply lookup_lt_Some in Hn. lia.
Qed.

Lemma traversed_pop t g vs id stack n : tree_ok t g → traversed t vs (id :: stack) → mem t id = Some n → traversed t (vs ++ [id]) (rev (map child_id (kids n)) ++ stack).
Proof.
  intros Hok [Hnd Hall] Hid. pose proof (ao_content _ _ _ (proj1 Hok) id n Hid) as Hc.
  assert (Hkid : ∀ x, x ∈ rev (map child_id (kids n)) → ∃ nx, mem t x = Some nx ∧ parent nx = Some id).
  { intros x Hx. apply list_elem_of_In, in_rev, in_map_iff in Hx as (c & <- & Hc'). apply list_elem_of_In in Hc'. by apply (ao_kids _ _ _ (proj1 Hok) id n). }
  assert (Hids : NoDup (rev (map child_id (kids n)))).
  { apply NoDup_ListNoDup, NoDup_rev, NoDup_ListNoDup. destruct n as [p cs buf|]; [|constructor]. destruct Hc as (l & _ & Hch & _). by eapply chain_nodup. }
  assert (Hnew : ∀ x, x ∈ rev (map child_id (kids n)) → x ∉ vs ++ id :: stack).
  { intros x Hx Hin. destruct (Hkid x Hx) as (nx & Hnx & Hpx). destruct (Hall x Hin) as (nx' & Hnx' & Hor). rewrite Hnx in Hnx'. injection Hnx' as <-. destruct Hor as [->|(p & Hp & Hpv)].
    - destruct (ao_root _ _ _ (proj1 Hok)) as (nr & Hnr & Hpr). congruence.
    - rewrite Hpx in Hp. injection Hp as <-. apply NoDup_app in Hnd as (_ & Hd & _). apply (Hd id Hpv). by left. }
  split.
  - rewrite <- (assoc_L (++)). cbn [app]. rewrite (Permutation_app_comm (rev _) stack), (app_comm_cons stack), (assoc_L (++)). apply NoDup_app. split_and!; [done| |done].
    intros x Hx Hx'. by apply (Hnew x).
  - intros x Hx. rewrite <- (assoc_L (++)) in Hx. cbn [app] in Hx.
    assert (x ∈ vs ++ id :: stack ∨ x ∈ rev (map child_id (kids n))) as [H|H] by (rewrite ?elem_of_app, ?elem_of_cons, ?elem_of_app in *; tauto).
    + destruct (Hall x H) as (nx & Hnx & [->|(p & Hp & Hpv)]); exists nx; (split; [done|]); [by left|]. right. exists p. split; [done|]. apply elem_of_app. by left.
    + destruct (Hkid x H) as (nx & Hnx & Hpx). exists nx. split; [done|]. right. exists id. split; [done|]. apply elem_of_app. right. by left.
Qed.

Lemma collect_internal_ok fuel t g vs stack : tree_ok t g → traversed t vs stack → length (nodes t) ≤ fuel + length vs →
  ∃ ids, collect_internal fuel t stack = Some ids ∧ ∀ id, id ∈ ids → is_Some (mem t id).
Proof.
  intros Hok. revert vs stack. induction fuel as [|fuel IH]; intros vs [|id stack] Ht Hf;
    [exists []; split; [done|]; intros ? H; by apply elem_of_nil in H|pose proof (traversed_length _ _ _ Ht) as H; cbn in H; lia
    |exists []; split; [done|]; intros ? H; by apply elem_of_nil in H|].
  destruct (proj2 Ht id) as (n & Hn & _); [apply elem_of_app; right; by left|]. pose proof (traversed_pop t g vs id stack n Hok Ht Hn) as Ht'.
  destruct (IH _ _ Ht') as (ids & E & Hids); [rewrite length_app; cbn; lia|]. cbn [collect_internal]. unfold mem in Hn. rewrite Hn, bind_some.
  destruct n as [p cs buf|p es]; cbn [kids] in E; [rewrite E, bind_some|by exists ids]. exists (id :: ids). split; [done|].
  intros j [-> |Hj]%elem_of_cons; [by eexists|by apply Hids].
Qed.

(** [t'] holds the same bindings as [t]. *)
Definition same_values t g t' g' : Prop :=
  tree_good t' g' ∧ next_seq t' = next_seq t ∧ (∀ k, value g' k = value g k) ∧ ∀ j, is_Some (mem t j) → is_Some (mem t' j).

Lemma flush_same id t g : tree_good t g → is_Some (mem t id) → ∃ t' g', flush id t = Some t' ∧ same_values t g t' g'.
Proof.
  intros [Hok Hb Hlog] [n Hid]. destruct (flush_ok id t g n Hok Hb Hid) as (t' & g' & E & F). exists t', g'. split; [done|].
  pose proof (fl_rest _ _ _ _ _ _ F) as Hr. pose proof (flowed_full _ t g _ t' g' Hok F (or_intror (λ _, eq_refl))) as FF. split_and!.
  - split; [exact (fl_ok _ _ _ _ _ _ F)|by rewrite (rest_barrier _ _ Hr)|]. rewrite (rest_seq _ _ Hr). by eapply logs_ok_flow.
  - apply (rest_seq _ _ Hr).
  - intros k. apply (full_flow_value _ _ _ k FF).
  - intros j [nj Hj]. destruct (fl_keep _ _ _ _ _ _ F j nj Hj) as (nj' & -> & _). by eexists.
Qed.

Lemma same_values_trans t g t1 g1 t2 g2 : same_values t g t1 g1 → same_values t1 g1 t2 g2 → same_values t g t2 g2.
Proof. intros (A1 & A2 & A3 & A4) (B1 & B2 & B3 & B4). split_and!; [done|congruence|intros k; by rewrite B3, A3|auto]. Qed.

Lemma flush_ids_same ids t g : tree_good t g → (∀ id, id ∈ ids → is_Some (mem t id)) → ∃ t' g', flush_ids ids t = Some t' ∧ same_values t g t' g'.
Proof.
  revert t g. induction ids as [|id ids IH]; intros t g Hg Hids; [by exists t, g|].
  destruct (flush_same id t g Hg (Hids id ltac:(by left))) as (t1 & g1 & E1 & S1). destruct (IH t1 g1 (proj1 S1)) as (t2 & g2 & E2 & S2).
  { intros j Hj. apply S1, Hids. by right. }
  exists t2, g2. split; [cbn [flush_ids]; by rewrite E1, bind_some|by eapply same_values_trans].
Qed.

Lemma flush_rounds_same rounds t g : tree_good t g → ∃ t' g', flush_rounds rounds t = Some t' ∧ same_values t g t' g'.
Proof.
  revert t g. induction rounds as [|rounds IH]; intros t g Hg; [by exists t, g|]. pose proof (tg_ok _ _ Hg) as Hok.
  destruct (collect_internal_ok (length (nodes t)) t g [] [root t] Hok) as (ids & E & Hids).
  { split; [apply NoDup_singleton|]. intros x ->%list_elem_of_singleton. destruct (ao_root _ _ _ (proj1 Hok)) as (n & Hn & _). exists n. split; [done|by left]. }
  { cbn. lia. }
  destruct (flush_ids_same ids t g Hg Hids) as (t1 & g1 & E1 & S1). cbn [flush_rounds]. unfold collect_internal_ids. rewrite E, bind_some, E1, bind_some.
  destruct (pending t1 =? 0)%N; [by exists t1, g1|]. destruct (IH t1 g1 (proj1 S1)) as (t2 & g2 & -> & S2). exists t2, g2. split; [done|by eapply same_values_trans].
Qed.
End refine.
