(* ===== verification/BeTreeScan.v ===== *)
(** * Range scans of the cluster's Bε-tree, and the refinement theorem

    A scan collects the buffered messages and the leaves of a range, skipping
    the children that start after it, and replays the messages by sequence
    number over the entries of the leaves. It returns the bindings of the range
    in key order. With the lookups of [BeTreeRefine] this gives the contract of
    the tree: every run of insertions, deletions and flushes implements a map. *)
From S2P Require Import Prelude BeTree BeTreeSpec BeTreeFlow BeTreeRefine.
From Stdlib Require Import NArith Lia Strings.Byte.
From stdpp Require Import base numbers option list functions sorting.
Local Open Scope nat_scope.

#[local] Abbreviation bytes := (list byte).

(** ** [BTreeMap::insert] on the sorted association list *)
Lemma map_insert_ok {A} (k : bytes) (v : A) (l : list (bytes * A)) : sorted_keys l → upserted l k (Some v) (map_insert k v l).
Proof.
  intros Hs. unfold map_insert. destruct (find_entry_cases l k Hs) as [(l1 & v' & l2 & E & -> & H1 & H2)|(l1 & l2 & E & -> & H1 & H2)].
  - assert (<[length l1 := (k, v)]> l = l1 ++ (k, v) :: l2) as -> by (rewrite E, insert_app_r_alt, Nat.sub_diag by lia; done).
    apply (upserted_intro _ _ _ _ l1 l2 [(k, v')] [(k, v)]); try done.
    + apply sorted_insert_mid; [|done..]. rewrite E in Hs. by apply sorted_remove_mid in Hs.
    + intros x Hx. by apply list_elem_of_singleton in Hx as ->.
  - assert (insert_at (length l1) (k, v) l = l1 ++ (k, v) :: l2) as -> by (unfold insert_at; by rewrite E, take_app_length, drop_app_length).
    apply (upserted_intro _ _ _ _ l1 l2 [] [(k, v)]); try done.
    + apply sorted_insert_mid; [|done..]. by rewrite <- E.
    + intros x Hx. by apply elem_of_nil in Hx.
Qed.

Section scan.
Context {V : Type}.
Implicit Types (t : BeTree V) (g : ghost (V := V)).
Context (lo hi : option bytes).

Lemma in_range_below g t id n c k : tree_ok t g → mem t id = Some n → c ∈ kids n → owns g (child_id c) k → in_range k lo hi = true → below_hi hi c = true.
Proof.
  intros Hok Hid Hc Hk Hr. pose proof (ao_content _ _ _ (proj1 Hok) id n Hid) as Hcon. destruct n as [p cs buf|]; [|by apply elem_of_nil in Hc].
  destruct Hcon as (l & _ & Hch & _). destruct (chain_lo _ _ _ _ _ _ Hch Hc) as [Hlo _]. destruct Hk as [Hge _]. rewrite Hlo in Hge.
  unfold below_hi. destruct (bound c) as [b|]; [|done]. unfold in_range in Hr. apply andb_true_iff in Hr as [_ Hr]. destruct hi as [h|]; [|done]. cbn in Hge. exact (kle_trans _ _ _ Hge Hr).
Qed.

(** ** The collected messages and leaves *)

(** What the visit of a node gives, for a key of its range and for any other key. *)
Record collected t g (id : nat) (ms : list (Message V)) (leaves : list nat) : Prop := {
  co_leaf : ∀ x, x ∈ leaves → ∃ p es, mem t x = Some (Leaf p es);
  co_out : ∀ k, ¬ owns g id k ∨ in_range k lo hi = false → msgs_for k ms = [];
  co_in : ∀ k, owns g id k → in_range k lo hi = true → msgs_for k ms = hlog g (glvl g id) k ∧ ∃ x, x ∈ leaves ∧ owns g x k
}.

(** The visits of the children, one after the other. *)
Lemma collect_children t g cs l parts : NoDup (map child_id cs) →
  (∀ c1 c2 k, c1 ∈ cs → c2 ∈ cs → owns g (child_id c1) k → owns g (child_id c2) k → child_id c1 = child_id c2) → (∀ c, c ∈ cs → glvl g (child_id c) = l) →
  Forall2 (λ c part, collected t g (child_id c) part.1 part.2) cs parts →
  (∀ x, x ∈ concat (map snd parts) → ∃ p es, mem t x = Some (Leaf p es)) ∧
  (∀ k, (∀ c, c ∈ cs → ¬ owns g (child_id c) k) ∨ in_range k lo hi = false → msgs_for k (concat (map fst parts)) = []) ∧
  (∀ k c, c ∈ cs → owns g (child_id c) k → in_range k lo hi = true → msgs_for k (concat (map fst parts)) = hlog g l k ∧ ∃ x, x ∈ concat (map snd parts) ∧ owns g x k).
Proof.
  intros Hnd Hun Hlv H. induction H as [|c [ms ls] cs parts Hc _ IH]; cbn [map concat fst snd].
  { split_and!; [intros x Hx; by apply elem_of_nil in Hx|done|]. intros k c Hc. by apply elem_of_nil in Hc. }
  cbn [map] in Hnd. apply NoDup_cons in Hnd as [Hn Hnd]. destruct Hc as [C1 C2 C3]. cbn [fst snd] in *.
  destruct IH as (I1 & I2 & I3); [done|intros; eapply Hun; eauto using list_elem_of_further|intros; apply Hlv; by right|]. split_and!.
  - intros x [Hx|Hx]%elem_of_app; auto.
  - intros k Hk. rewrite msgs_for_app, C2, I2; [done| |]; (destruct Hk as [Hk|Hk]; [left|by right]); [intros c' Hc'; apply Hk; by right|apply Hk; by left].
  - intros k c' Hc' Hk Hr. rewrite msgs_for_app. destruct (decide (child_id c' = child_id c)) as [E|N].
    + rewrite E in Hk. destruct (C3 k Hk Hr) as [-> (x & Hx & Hox)]. rewrite I2, app_nil_r.
      * split; [by rewrite (Hlv c) by (by left)|]. exists x. split; [apply elem_of_app; by left|done].
      * left. intros c2 Hc2 Hk2. apply Hn. rewrite <- (Hun c2 c k); [by apply elem_kid_id|by right|by left|done..].
    + apply elem_of_cons in Hc' as [-> |Hc']; [done|]. destruct (I3 k c' Hc' Hk Hr) as [-> (x & Hx & Hox)]. rewrite C2.
      * split; [done|]. exists x. split; [apply elem_of_app; by right|done].
      * left. intros Hk2. apply N. by apply (Hun c' c k); [right|left|..].
Qed.

Lemma nodup_filter_ids (f : Child → bool) cs : NoDup (map child_id cs) → NoDup (map child_id (filter (λ c, f c) cs)).
Proof.
  induction cs as [|c cs IH]; [done|]. cbn [map]. intros [Hn Hnd]%NoDup_cons. rewrite filter_cons. case_decide; [|by apply IH]. cbn [map]. constructor; [|by apply IH].
  intros Hin. apply Hn. apply list_elem_of_In, in_map_iff in Hin as (c' & <- & Hc'). apply list_elem_of_In, list_elem_of_filter in Hc' as [_ Hc']. by apply elem_kid_id.
Qed.

Lemma mapM_forall2 {A B} (f : A → option B) (P : A → B → Prop) l : (∀ x, x ∈ l → ∃ y, f x = Some y ∧ P x y) → ∃ ys, mapM f l = Some ys ∧ Forall2 P l ys.
Proof.
  induction l as [|x l IH]; intros H; [by exists []|]. destruct (H x ltac:(by left)) as (y & Hy & HP). destruct IH as (ys & Hys & HF); [intros z Hz; apply H; by right|].
  exists (y :: ys). split; [|by constructor]. cbn [mapM]. by rewrite Hy, bind_some, Hys.
Qed.

Lemma collect_range_ok fuel t g id n : tree_ok t g → mem t id = Some n → glvl g id ≤ fuel →
  ∃ ms leaves, collect_range fuel t id lo hi = Some (ms, leaves) ∧ collected t g id ms leaves.
Proof.
  intros Hok. revert id n. induction fuel as [|fuel IH]; intros id n Hid Hf; (destruct (glvl g id) as [|l] eqn:El;
    [destruct (node_leaf t g id n Hok Hid El) as (p & es & ->); exists [], [id]; split;
      [unfold mem in Hid; cbn [collect_range]; by rewrite Hid|];
      split; [intros x ->%list_elem_of_singleton; by exists p, es|done|];
      intros k Hk _; rewrite El; split; [done|]; exists id; split; [by left|done]|]); [lia|].
  destruct (node_internal t g id n l Hok Hid El) as (p & cs & buf & ->). pose proof (ao_content _ _ _ (proj1 Hok) id _ Hid) as (l' & El' & Hch & Hlv & Hbk & Hbuf).
  assert (l' = l) as -> by lia. set (cs' := filter (λ c, below_hi hi c) cs). assert (Hsub : ∀ c, c ∈ cs' → c ∈ cs) by (intros c [_ ?]%list_elem_of_filter; done).
  destruct (mapM_forall2 (λ c, collect_range fuel t (child_id c) lo hi) (λ c part, collected t g (child_id c) part.1 part.2) cs') as (parts & Em & HF).
  { intros c Hc%Hsub. destruct (kid_facts _ _ _ id _ c (proj1 Hok) Hid Hc) as (nc & Hnc & _ & Hlc & _). destruct (IH (child_id c) nc Hnc) as (ms & ls & E & HC); [lia|]. by exists (ms, ls). }
  destruct (collect_children t g cs' l parts) as (P1 & P2 & P3); [apply nodup_filter_ids; by eapply chain_nodup| |intros c Hc; by apply Hlv, Hsub|exact HF|].
  { intros c1 c2 k H1%Hsub H2%Hsub. by apply (chain_unique _ _ _ _ _ _ _ _ Hch). }
  exists (filter (λ m, in_range (mkey m) lo hi) buf ++ concat (map fst parts)), (concat (map snd parts)). split.
  { unfold mem in Hid. cbn [collect_range]. rewrite Hid, bind_some. cbv beta iota. fold cs'. by rewrite Em. }
  assert (Hfil : ∀ k, msgs_for k (filter (λ m, in_range (mkey m) lo hi) buf) = if in_range k lo hi then msgs_for k buf else []).
  { intros k. destruct (in_range k lo hi) eqn:Er; [apply msgs_for_filter; by intros m ->|]. apply msgs_for_none. intros m [Hm _]%list_elem_of_filter <-. by rewrite Er in Hm. }
  split; [exact P1| |].
  - intros k Hk. rewrite msgs_for_app, Hfil. destruct Hk as [Hk|Hk].
    + rewrite P2; [|left; intros c Hc%Hsub Hkc; apply Hk; exact (chain_sub _ _ _ _ cs c k Hch Hc Hkc)].
      rewrite (msgs_for_none k buf); [by destruct (in_range k lo hi)|]. intros m Hm <-. by apply Hk, Hbk.
    + rewrite Hk, P2 by (by right). done.
  - intros k Hk Hr. rewrite msgs_for_app, Hfil, Hr, El. cbn [hlog]. rewrite (Hbuf k Hk). destruct (route_chain _ _ _ _ _ k Hch Hk) as (c & Hc & _ & Hkc).
    assert (c ∈ cs') as Hc'. { apply list_elem_of_filter. split; [|done]. by rewrite (in_range_below g t id _ c k Hok Hid Hc Hkc Hr). }
    destruct (P3 k c Hc' Hkc Hr) as [-> ?]. done.
Qed.

(** ** The entries of the leaves *)
Lemma add_entries (es : list (bytes * V)) (r : list (bytes * option V)) : sorted_keys es → sorted_keys r →
  let r' := fold_left (λ r '(k, v), if in_range k lo hi then map_insert k (Some v) r else r) es r in
  sorted_keys r' ∧ ∀ k, entry_value r' k = match entry_value es k with Some v => if in_range k lo hi then Some (Some v) else entry_value r k | None => entry_value r k end.
Proof.
  revert r. induction es as [|[k0 v0] es IH]; intros r Hs Hr r'; [done|]. unfold r'. cbn [fold_left]. clear r'. pose proof Hs as Hs0. apply sorted_cons in Hs as [Hs Hx].
  set (r1 := if in_range k0 lo hi then map_insert k0 (Some v0) r else r). pose proof (map_insert_ok k0 (Some v0) r Hr) as (M1 & _ & M2).
  assert (Hr1 : sorted_keys r1) by (unfold r1; by destruct (in_range k0 lo hi)). destruct (IH r1 Hs Hr1) as [I1 I2]. split; [exact I1|]. intros k. rewrite I2.
  assert (Hhead : entry_value ((k0, v0) :: es) k = if decide (k = k0) then Some v0 else entry_value es k).
  { case_decide as E; apply option_eq; intros v; rewrite entry_value_iff by done; rewrite elem_of_cons; [subst k|rewrite entry_value_iff by done; naive_solver].
    split; [intros [?|Hin]; [naive_solver|]; apply Hx in Hin; by apply key_lt_irrefl in Hin|naive_solver]. }
  rewrite Hhead. case_decide as E.
  - subst k. assert (entry_value es k0 = None) as ->. { apply eq_None_not_Some. intros [v Hv]. apply entry_value_iff in Hv; [|done]. apply Hx in Hv. by apply key_lt_irrefl in Hv. }
    unfold r1. destruct (in_range k0 lo hi); [|done]. rewrite M2, decide_True by done. done.
  - assert (entry_value r1 k = entry_value r k) as ->; [|done]. unfold r1. destruct (in_range k0 lo hi); [|done]. rewrite M2, decide_False by done. done.
Qed.

Lemma leaf_entries t g x p es k : tree_ok t g → mem t x = Some (Leaf p es) → entry_value es k = if decide (in_rng (glo g x) (ghi g x) k) then gbase g k else None.
Proof.
  intros Hok Hx. pose proof (ao_content _ _ _ (proj1 Hok) x _ Hx) as (_ & Hs & Hk & Hv). case_decide as Hd; [by apply Hv|].
  apply eq_None_not_Some. intros [v Hin]. apply entry_value_iff in Hin; [|done]. by apply Hd, (Hk (k, v)).
Qed.

Lemma scan_leaves_ok t g leaves r : tree_ok t g → (∀ x, x ∈ leaves → ∃ p es, mem t x = Some (Leaf p es)) → sorted_keys r →
  ∃ r', scan_leaves t leaves lo hi r = Some r' ∧ sorted_keys r' ∧
    (∀ k, in_range k lo hi = false ∨ gbase g k = None → entry_value r' k = entry_value r k) ∧
    (∀ k v, gbase g k = Some v → in_range k lo hi = true → entry_value r k = Some (Some v) ∨ (∃ x, x ∈ leaves ∧ owns g x k) → entry_value r' k = Some (Some v)).
Proof.
  intros Hok. revert r. induction leaves as [|x leaves IH]; intros r Hl Hr.
  { exists r. split_and!; [done..|]. intros k v _ _ [?|(x & Hx & _)]; [done|by apply elem_of_nil in Hx]. }
  destruct (Hl x) as (p & es & Hx); [by left|]. pose proof (ao_content _ _ _ (proj1 Hok) x _ Hx) as (_ & Hs & _).
  destruct (add_entries es r Hs Hr) as [A1 A2]. destruct (IH _ (λ y Hy, Hl y ltac:(by right)) A1) as (r' & E & S' & I1 & I2).
  exists r'. split_and!; [cbn [scan_leaves]; unfold mem in Hx; by rewrite Hx, bind_some|done| |].
  - intros k Hk. rewrite (I1 k Hk), A2, (leaf_entries t g x p es k Hok Hx). destruct Hk as [-> | ->]; [|by case_decide]. case_decide; [by destruct (gbase g k)|done].
  - intros k v Hv Hrk Hor. apply I2; [done..|]. rewrite A2, (leaf_entries t g x p es k Hok Hx), Hv, Hrk. destruct Hor as [Hor|(y & Hy & Hoy)]; [left; by case_decide|].
    apply elem_of_cons in Hy as [-> |Hy]; [left; by rewrite decide_True|right; by exists y].
Qed.

(** ** Replaying the messages *)
Lemma replay_ok (ms : list (Message V)) (r : list (bytes * option V)) : sorted_keys r →
  let r' := fold_left (λ r m, if in_range (mkey m) lo hi then map_insert (mkey m) (apply_op (mop m)) r else r) ms r in
  sorted_keys r' ∧ (∀ k, in_range k lo hi = false → entry_value r' k = entry_value r k) ∧
  ∀ k, in_range k lo hi = true → mjoin (entry_value r' k) = apply_all (msgs_for k ms) (mjoin (entry_value r k)).
Proof.
  revert r. induction ms as [|m ms IH]; intros r Hr r'; [done|]. unfold r'. cbn [fold_left]. clear r'.
  set (r1 := if in_range (mkey m) lo hi then _ else r). pose proof (map_insert_ok (mkey m) (apply_op (mop m)) r Hr) as (M1 & _ & M2).
  assert (Hr1 : sorted_keys r1) by (unfold r1; by destruct (in_range (mkey m) lo hi)). destruct (IH r1 Hr1) as (I1 & I2 & I3).
  assert (Hne : ∀ k, k ≠ mkey m → entry_value r1 k = entry_value r k) by (intros k N; unfold r1; destruct (in_range (mkey m) lo hi); [|done]; by rewrite M2, decide_False).
  split_and!; [exact I1| |].
  - intros k Hk. rewrite (I2 k Hk). destruct (decide (k = mkey m)) as [->|N]; [|by apply Hne]. unfold r1. by rewrite Hk.
  - intros k Hk. rewrite (I3 k Hk), (msgs_for_app k [m] ms : msgs_for k (m :: ms) = _), apply_all_app. f_equal. destruct (decide (k = mkey m)) as [->|N].
    + unfold r1. rewrite Hk, M2, decide_True, msgs_for_eq by done. done.
    + rewrite Hne, msgs_for_ne by congruence. done.
Qed.

(** The messages of a key, from the sorted collection. *)
Lemma sorted_msgs_for k (ms : list (Message V)) : StronglySorted seq_le ms → StronglySorted seq_le (msgs_for k ms).
Proof.
  intros H. unfold msgs_for. induction H as [|m ms Hs IH Hm]; [constructor|]. rewrite filter_cons. case_decide; [|done]. constructor; [done|].
  rewrite Forall_forall in *. intros m' [_ Hm']%list_elem_of_filter. by apply Hm.
Qed.

Lemma sorted_log k (ms log : list (Message V)) : StronglySorted seq_lt log → msgs_for k ms ≡ₚ log → msgs_for k (sort_by_seq ms) = log.
Proof.
  intros Hlog Hp. destruct (sort_by_seq_ok ms) as [H1 H2]. apply sorted_perm_log; [by apply sorted_msgs_for|done|]. rewrite <- Hp. unfold msgs_for. by rewrite H2.
Qed.

Lemma sorted_omap {A B} (f : A → option B) (l : list (bytes * A)) : sorted_keys l → sorted_keys (omap (λ '(k, v), (λ v, (k, v)) <$> f v) l).
Proof.
  intros H. induction H as [|[k v] l Hs IH Hx]; [constructor|]. cbn [omap list_omap]. destruct (f v) as [w|]; cbn; [|done]. constructor; [done|].
  apply Forall_forall. intros y Hy. apply list_elem_of_omap in Hy as ([k' v'] & Hin & E). destruct (f v'); [|done]. injection E as <-. exact (proj1 (Forall_forall _ _) Hx _ Hin).
Qed.

Lemma be_scan_ok s t g : tree_ok t g → logs_ok s g → ∃ l, scan lo hi t = Some l ∧ sorted_keys l ∧ ∀ k v, (k, v) ∈ l ↔ in_range k lo hi = true ∧ value g k = Some v.
Proof.
  intros Hok Hlog. destruct (ao_root _ _ _ (proj1 Hok)) as (n & Hn & _). destruct (ao_top _ _ _ (proj1 Hok)) as (Et & El & Eh). pose proof (height_bound t g Hok).
  assert (Hown : ∀ k, owns g (root t) k) by (intros k; unfold owns; by rewrite El, Eh).
  destruct (collect_range_ok (length (nodes t)) t g (root t) n Hok Hn) as (ms & leaves & E1 & [C1 C2 C3]); [lia|].
  destruct (scan_leaves_ok t g leaves [] Hok C1) as (r & E2 & S2 & L1 & L2); [constructor|]. destruct (replay_ok (sort_by_seq ms) r S2) as (S3 & R1 & R2).
  unfold scan. rewrite E1, bind_some. cbv beta iota. rewrite E2, bind_some. eexists. split; [done|]. set (r' := fold_left _ _ r) in *. split; [exact (sorted_omap id r' S3)|].
  assert (Hval : ∀ k, in_range k lo hi = true → mjoin (entry_value r' k) = value g k).
  { intros k Hk. rewrite (R2 k Hk). destruct (C3 k (Hown k) Hk) as [Em Hleaf]. rewrite (sorted_log k ms (flog g k)); [|apply Hlog|rewrite Em, Et; apply hlog_perm].
    unfold value. f_equal. destruct (gbase g k) as [v|] eqn:Ev; [by rewrite (L2 k v) by auto|]. by rewrite (L1 k) by auto. }
  assert (Hno : ∀ k, in_range k lo hi = false → entry_value r' k = None) by (intros k Hk; rewrite (R1 k Hk), (L1 k) by auto; done).
  intros k v. transitivity (entry_value r' k = Some (Some v)).
  - rewrite entry_value_iff by done. rewrite list_elem_of_omap. split; [|intros H0; by exists (k, Some v)]. intros ([k' [v'|]] & Hin & E); [|done]. by injection E as <- <-.
  - destruct (in_range k lo hi) eqn:Er; [|rewrite (Hno k Er); naive_solver]. rewrite <- (Hval k Er). destruct (entry_value r' k) as [[w|]|]; naive_solver.
Qed.
End scan.

(** ** The contract of the tree *)
Section contract.
Context {V : Type}.

(** The mutations of the tree, and of a map. *)
Inductive TreeOp := TInsert (k : bytes) (v : V) | TDelete (k : bytes) | TFlushAll.

Definition tree_step (o : TreeOp) (t : BeTree V) : option (BeTree V) :=
  match o with TInsert k v => be_insert k v t | TDelete k => be_delete k t | TFlushAll => flush_all t end.
Fixpoint tree_run (ops : list TreeOp) (t : BeTree V) : option (BeTree V) :=
  match ops with [] => Some t | o :: ops => t ← tree_step o t; tree_run ops t end.

Definition map_step (o : TreeOp) (m : bytes → option V) : bytes → option V :=
  match o with TInsert k v => upd m k (Some v) | TDelete k => upd m k None | TFlushAll => m end.
Definition map_run (ops : list TreeOp) (m : bytes → option V) : bytes → option V := fold_left (λ m o, map_step o m) ops m.

Lemma be_new_good cfg (t : BeTree V) : be_new cfg = Some t → ∃ g, tree_good t g ∧ next_seq t = 0%N ∧ ∀ k, value g k = None.
Proof.
  unfold be_new. destruct ((2 <=? max_children cfg) && (2 <=? buffer_capacity cfg) && (2 <=? leaf_max_entries cfg)) eqn:Hc; [|done]. intros [= <-].
  apply andb_true_iff in Hc as [[H1 H2]%andb_true_iff H3]. apply Nat.leb_le in H1, H2, H3.
  exists (mkGhost 0 (λ _, 0) (λ _, None) (λ _, None) (λ _, None) (λ _ _, [])). split; [|done]. split; [|done|intros k; split; [constructor|intros m Hm; by apply elem_of_nil in Hm]].
  assert (Hm : ∀ j (n : Node V), [Leaf None []] !! j = Some n → j = 0 ∧ n = Leaf None []) by (intros [|j] n Hj; [by injection Hj as <-|done]).
  split; [|done]. split; try done.
  - intros j n [-> ->]%Hm. split_and!; [done|constructor| |done]. intros x Hx. by apply elem_of_nil in Hx.
  - intros j n [-> ->]%Hm c Hc. by apply elem_of_nil in Hc.
  - intros j n [-> ->]%Hm p Hp. done.
  - by intros j n [-> ->]%Hm.
  - by exists (Leaf None []).
Qed.

Lemma tree_step_ok o t g : tree_good t g → (next_seq t + 1 < 2 ^ 64)%N →
  ∃ t' g', tree_step o t = Some t' ∧ tree_good t' g' ∧ (next_seq t' ≤ next_seq t + 1)%N ∧ ∀ k, value g' k = map_step o (value g) k.
Proof.
  intros Hg Hs. destruct o as [k v|k|]; cbn [tree_step map_step].
  - destruct (mutate_ok k (Upsert v) t g Hg Hs) as (t' & g' & E & Hg' & Hn & Hv). exists t', g'. split_and!; [exact E|done|lia|exact Hv].
  - destruct (mutate_ok k BeTree.Delete t g Hg Hs) as (t' & g' & E & Hg' & Hn & Hv). exists t', g'. split_and!; [exact E|done|lia|exact Hv].
  - destruct (flush_rounds_same 128 t g Hg) as (t' & g' & E & Hg' & Hn & Hv & _). exists t', g'. split_and!; [exact E|done|lia|exact Hv].
Qed.

Lemma map_run_ext ops (m m' : bytes → option V) k : (∀ k, m k = m' k) → map_run ops m k = map_run ops m' k.
Proof.
  revert m m'. induction ops as [|o ops IH]; intros m m' H; [apply H|]. apply IH. intros k'. destruct o; cbn [map_step]; unfold upd; by rewrite ?H.
Qed.

Lemma tree_run_ok ops t g : tree_good t g → (next_seq t + N.of_nat (length ops) < 2 ^ 64)%N →
  ∃ t' g', tree_run ops t = Some t' ∧ tree_good t' g' ∧ ∀ k, value g' k = map_run ops (value g) k.
Proof.
  revert t g. induction ops as [|o ops IH]; intros t g Hg Hs; [by exists t, g|]. cbn [length] in Hs.
  destruct (tree_step_ok o t g Hg) as (t1 & g1 & E1 & Hg1 & Hn1 & Hv1); [lia|]. destruct (IH t1 g1 Hg1) as (t2 & g2 & E2 & Hg2 & Hv2); [lia|].
  exists t2, g2. split_and!; [cbn [tree_run]; by rewrite E1, bind_some|done|]. intros k. rewrite Hv2. exact (map_run_ext ops _ _ k Hv1).
Qed.

(** C7: the cluster's Bε-tree refines a map. For every configuration the
    constructor accepts and every run of fewer than 2^64 insertions, deletions
    and full flushes, no step panics or exceeds its bound; then a lookup of any
    key returns what the map holds, whichever messages are still buffered, and
    a scan of any range returns exactly the bindings of the range, in
    strictly increasing key order. *)
Theorem be_tree_refines_map cfg (ops : list TreeOp) (t0 : BeTree V) : be_new cfg = Some t0 → (N.of_nat (length ops) < 2 ^ 64)%N →
  ∃ t, tree_run ops t0 = Some t ∧ (∀ k, be_get k t = Some (map_run ops (λ _, None) k)) ∧
    ∀ lo hi, ∃ l, scan lo hi t = Some l ∧ sorted_keys l ∧ ∀ k v, (k, v) ∈ l ↔ in_range k lo hi = true ∧ map_run ops (λ _, None) k = Some v.
Proof.
  intros Hnew Hlen. destruct (be_new_good cfg t0 Hnew) as (g0 & Hg0 & Hn0 & Hv0).
  destruct (tree_run_ok ops t0 g0 Hg0) as (t & g & E & [Hok Hb Hlog] & Hv); [lia|].
  assert (Hval : ∀ k, value g k = map_run ops (λ _, None) k) by (intros k; rewrite Hv; by apply map_run_ext).
  exists t. split_and!; [done| |].
  - intros k. rewrite <- Hval. by eapply be_get_ok.
  - intros lo hi. destruct (be_scan_ok lo hi _ t g Hok Hlog) as (l & El & Hs & Hl). exists l. split_and!; [done..|]. intros k v. by rewrite Hl, Hval.
Qed.
End contract.
Arguments TreeOp : clear implicits.

Definition wit_ops : list (TreeOp N) :=
  map (λ i, TInsert [i] (Byte.to_N i)) [x05; x01; x09; x03; x07; x02; x08; x04; x06; x00] ++ [TDelete [x03]; TInsert [x07] 70%N; TFlushAll; TDelete [x08]].

Lemma be_tree_refines_map_witness : ∃ t, tree_run wit_ops (mkTree [Leaf None []] 0 (mkTreeConfig 2 2 2) 0 0 0 None) = Some t ∧
  be_get [x07] t = Some (Some 70%N) ∧ be_get [x08] t = Some None.
Proof.
  destruct (be_tree_refines_map (mkTreeConfig 2 2 2) wit_ops _ eq_refl ltac:(vm_compute; reflexivity)) as (t & E & Hget & _).
  exists t. split; [exact E|]. rewrite !Hget. split; vm_compute; reflexivity.
Defined.
