(* ===== verification/Wal.v ===== *)
(** * The cluster's write-ahead log ([lionfs-cluster/src/wal.rs])

    Framed records, group commit with one commit marker and one sync, replay
    of the committed transactions, reopening and reset. bincode and CRC-32 are
    arguments. A file is the bytes that are durable followed by the bytes that
    are only cached; a crash keeps the durable ones and any prefix of the
    rest. *)
From S2P Require Import Prelude ClusterCore.
From Stdlib Require Import NArith ZArith Lia Strings.Byte Strings.String.
From stdpp Require Import base numbers gmap option list strings.
#[local] Open Scope N_scope.

#[local] Abbreviation bytes := (list byte).

Inductive WalRecord :=
  | RData (hash : N) (payload : bytes)
  | RVNode (vbytes : bytes)
  | RDirMap (content : N) (children : list (string * N))
  | RRefOp (hash : N) (delta : Z) (zone offset length : N) (stored : N)
  | RHeadOp (root ts : N)
  | RSnapshotOp (name : string) (root : N)
  | RCommit (txn : N).

#[export] Instance record_eq_dec : EqDecision WalRecord.
Proof. solve_decision. Defined.

Definition is_commit (r : WalRecord) : bool := match r with RCommit _ => true | _ => false end.

Record WalStats := mkStats { transactions : N; records : N; fsyncs : N; bytes_written : N }.
Definition stats_default : WalStats := mkStats 0 0 0 0.

Record Wal := mkWal { durable : bytes; cached : bytes; next_txn : N; stats : WalStats }.

Inductive WalError := WIo | WCodec.

(** What the device does with one batch: everything succeeds; [write_all] fails
    after [k] bytes; the sync fails. *)
Inductive io := IoOk | WriteFails (k : nat) | SyncFails.

(** bincode and CRC-32. *)
Class WalCodec := { ser : WalRecord → option bytes; de : bytes → option WalRecord; crc32 : bytes → N }.

Class WalCodecLaws `{!WalCodec} := {
  de_ser : ∀ r b, ser r = Some b → de b = Some r;
  crc_width : ∀ b, crc32 b < two32
}.

Section wal.
Context `{!WalCodec}.

Definition encode_frame (payload : bytes) : bytes :=
  be_bytes 4 (N.of_nat (length payload) mod two32) ++ be_bytes 4 (crc32 payload) ++ payload.

(** The loop over the records of a batch; [None] is an encoding error, after the
    statistics of the earlier records have been counted. *)
Fixpoint encode_records (l : list WalRecord) (out : bytes) (st : WalStats) : option bytes * WalStats :=
  match l with
  | [] => (Some out, st)
  | r :: l =>
      match ser r with
      | None => (None, st)
      | Some payload =>
          encode_records l (out ++ encode_frame payload)
            (mkStats (transactions st) (wadd64 (records st) 1) (fsyncs st)
               (if is_commit r then bytes_written st else wadd64 (bytes_written st) (N.of_nat (length payload))))
      end
  end.

Definition create : Wal := mkWal [] [] 1 stats_default.

Definition commit_batch (recs : list WalRecord) (o : io) (w : Wal) : (WalError + N) * Wal :=
  let txn := next_txn w in
  let next := wadd64 txn 1 in
  match encode_records (recs ++ [RCommit txn]) [] (stats w) with
  | (None, st) => (inl WCodec, mkWal (durable w) (cached w) next st)
  | (Some out, st) =>
      match o with
      | WriteFails k => (inl WIo, mkWal (durable w) (cached w ++ take k out) next st)
      | SyncFails => (inl WIo, mkWal (durable w) (cached w ++ out) next st)
      | IoOk => (inr txn, mkWal (durable w ++ cached w ++ out) [] next
                            (mkStats (wadd64 (transactions st) 1) (records st) (wadd64 (fsyncs st) 1) (bytes_written st)))
      end
  end.

(** One turn of the replay loop: [None] ends it. *)
Definition parse_frame (raw : bytes) : option (WalRecord * bytes) :=
  if (length raw <? 8)%nat then None
  else
    let frame_len := N.to_nat (of_be (take 4 raw)) in
    let frame_crc := of_be (take 4 (drop 4 raw)) in
    if (length raw <? 8 + frame_len)%nat then None
    else
      let body := take frame_len (drop 8 raw) in
      if negb (crc32 body =? frame_crc) then None
      else match de body with Some r => Some (r, drop (8 + frame_len) raw) | None => None end.

Fixpoint replay_loop (fuel : nat) (raw : bytes) (current : list WalRecord) (txns : list (N * list WalRecord)) : list (N * list WalRecord) :=
  match fuel with
  | O => txns
  | S fuel =>
      match parse_frame raw with
      | None => txns
      | Some (RCommit txn, raw) => replay_loop fuel raw [] (txns ++ [(txn, current)])
      | Some (r, raw) => replay_loop fuel raw (current ++ [r]) txns
      end
  end.

Definition replay (raw : bytes) : list (N * list WalRecord) := replay_loop (S (length raw)) raw [] [].

(** What a crash leaves of the file. *)
Definition crash (k : nat) (w : Wal) : bytes := durable w ++ take k (cached w).

Definition max_txn (l : list (N * list WalRecord)) : N := fold_right N.max 0 (map fst l).

Definition wal_open (file : bytes) : Wal := mkWal file [] (wadd64 (max_txn (replay file)) 1) stats_default.

(** [set_len(0)] and seek: the engine calls it after a checkpoint. *)
Definition reset (w : Wal) : Wal := mkWal [] [] 1 (stats w).

(** ** Frames and transactions *)
Context `{!WalCodecLaws}.

(** The bytes of a record, a transaction, a log. *)
Definition enc_rec (r : WalRecord) : bytes := match ser r with Some b => encode_frame b | None => [] end.
Definition enc_txn (t : N * list WalRecord) : bytes := concat (map enc_rec (snd t ++ [RCommit (fst t)])).
Definition enc_log (l : list (N * list WalRecord)) : bytes := concat (map enc_txn l).

(** A record bincode can encode in fewer than 2^32 bytes. *)
Definition rec_ok (r : WalRecord) : Prop := ∃ b, ser r = Some b ∧ N.of_nat (length b) < two32.
Definition txn_ok (t : N * list WalRecord) : Prop :=
  Forall rec_ok (snd t ++ [RCommit (fst t)]) ∧ Forall (λ r, is_commit r = false) (snd t).

Lemma of_be_take4 x r : x < two32 → of_be (take 4 (be_bytes 4 x ++ r)) = x.
Proof. intros Hx. exact (be_field_here 4 x r Hx). Qed.

Lemma length_encode_frame b : length (encode_frame b) = (8 + length b)%nat.
Proof. unfold encode_frame. by rewrite !length_app, !length_be_bytes. Qed.

Lemma parse_frame_ok r b rest : ser r = Some b → N.of_nat (length b) < two32 → parse_frame (encode_frame b ++ rest) = Some (r, rest).
Proof.
  intros Hs Hl.
  assert (encode_frame b ++ rest = be_bytes 4 (N.of_nat (length b)) ++ be_bytes 4 (crc32 b) ++ b ++ rest) as ->.
  { unfold encode_frame. by rewrite N.mod_small, <- !(assoc_L (++)) by done. }
  set (h1 := be_bytes 4 (N.of_nat (length b))). set (h2 := be_bytes 4 (crc32 b)).
  assert (length h1 = 4 ∧ length h2 = 4)%nat as [L1 L2] by (unfold h1, h2; by rewrite !length_be_bytes).
  assert (length (h1 ++ h2 ++ b ++ rest) = (8 + length b + length rest)%nat) as Hlen by (rewrite !length_app; lia).
  assert (drop 8 (h1 ++ h2 ++ b ++ rest) = b ++ rest) as H8.
  { rewrite (assoc_L (++) h1). apply drop_app_length'. rewrite length_app. lia. }
  unfold parse_frame. rewrite Hlen.
  destruct (Nat.ltb_spec (8 + length b + length rest) 8) as [|_]; [lia|].
  assert (of_be (take 4 (h1 ++ h2 ++ b ++ rest)) = N.of_nat (length b)) as -> by (by apply of_be_take4). rewrite Nat2N.id.
  destruct (Nat.ltb_spec (8 + length b + length rest) (8 + length b)) as [|_]; [lia|].
  rewrite (drop_app_length' h1 _ 4) by done.
  assert (of_be (take 4 (h2 ++ b ++ rest)) = crc32 b) as -> by apply of_be_take4, crc_width.
  rewrite H8, take_app_length, N.eqb_refl. cbn [negb]. rewrite (de_ser _ _ Hs). do 2 f_equal.
  by rewrite <- drop_drop, H8, drop_app_length.
Qed.

(** A frame that is cut short, or whose body has not arrived, is not parsed. *)
Lemma parse_frame_short b rest j :
  N.of_nat (length b) < two32 → (j + length rest < 8 + length b)%nat → (8 ≤ j ∨ rest = [])%nat →
  parse_frame (take j (encode_frame b) ++ rest) = None.
Proof.
  intros Hl Hs Hj. unfold parse_frame. rewrite length_app, length_take, length_encode_frame, Nat.min_l by lia.
  destruct (Nat.ltb_spec (j + length rest) 8) as [|Hge]; [done|].
  assert (8 ≤ j)%nat as Hj8 by (destruct Hj as [| ->]; [done|cbn [length] in Hge; lia]).
  assert (take 4 (take j (encode_frame b) ++ rest) = take 4 (be_bytes 4 (N.of_nat (length b)) ++ [])) as ->.
  { rewrite take_app_le by (rewrite length_take, length_encode_frame; lia). rewrite take_take, Nat.min_l by lia.
    unfold encode_frame. rewrite N.mod_small by done. rewrite app_nil_r. rewrite take_app_le by (by rewrite length_be_bytes). done. }
  rewrite of_be_take4, Nat2N.id by done. destruct (Nat.ltb_spec (j + length rest) (8 + length b)); [done|lia].
Qed.

(** The replay loop on a list of encoded records. *)
Lemma replay_records l cur rest fuel txns : Forall rec_ok l → Forall (λ r, is_commit r = false) l → (length l ≤ fuel)%nat →
  replay_loop fuel (concat (map enc_rec l) ++ rest) cur txns = replay_loop (fuel - length l) rest (cur ++ l) txns.
Proof.
  revert cur fuel. induction l as [|r l IH]; intros cur fuel Hok Hnc Hf; [by rewrite app_nil_r, Nat.sub_0_r|].
  apply Forall_cons in Hok as [(b & Hs & Hl) Hok]. apply Forall_cons in Hnc as [Hc Hnc]. destruct fuel as [|fuel]; [cbn [length] in Hf; lia|].
  cbn [map concat replay_loop length Nat.sub]. unfold enc_rec at 1. rewrite Hs, <- (assoc_L (++)), (parse_frame_ok r) by done.
  rewrite (cons_middle r cur), (assoc_L (++)) in *. cbn [length] in Hf.
  destruct r; try discriminate Hc; rewrite <- (assoc_L (++)) in *; rewrite IH by (done || lia); rewrite <- (assoc_L (++)); done.
Qed.

Lemma enc_txn_app t : enc_txn t = concat (map enc_rec (snd t)) ++ enc_rec (RCommit (fst t)).
Proof. unfold enc_txn. rewrite map_app, concat_app. cbn [map concat]. by rewrite app_nil_r. Qed.

Lemma replay_txn t rest fuel txns : txn_ok t → (S (length (snd t)) ≤ fuel)%nat →
  replay_loop fuel (enc_txn t ++ rest) [] txns = replay_loop (fuel - S (length (snd t))) rest [] (txns ++ [t]).
Proof.
  intros [Hok Hnc] Hf. apply Forall_app in Hok as [Hok (b & Hs & Hl)%Forall_singleton].
  rewrite enc_txn_app, <- (assoc_L (++)), replay_records by (done || lia). cbn [app].
  replace (fuel - length (snd t))%nat with (S (fuel - S (length (snd t))))%nat by lia. cbn [replay_loop].
  unfold enc_rec. rewrite Hs, (parse_frame_ok _ b) by done. by destruct t.
Qed.

Definition log_len (l : list (N * list WalRecord)) : nat := sum_list_with (λ t, S (length (snd t))) l.

Lemma replay_log l rest fuel txns : Forall txn_ok l → (log_len l ≤ fuel)%nat →
  replay_loop fuel (enc_log l ++ rest) [] txns = replay_loop (fuel - log_len l) rest [] (txns ++ l).
Proof.
  revert fuel txns. induction l as [|t l IH]; intros fuel txns Hok Hf; [by rewrite app_nil_r, Nat.sub_0_r|].
  apply Forall_cons in Hok as [Ht Hok]. unfold log_len in Hf. cbn [sum_list_with] in Hf. fold (log_len l) in Hf.
  unfold enc_log, log_len. cbn [map concat sum_list_with]. fold (enc_log l) (log_len l).
  rewrite <- (assoc_L (++)), replay_txn, IH, <- (assoc_L (++)) by (done || lia). f_equal. lia.
Qed.

Lemma length_enc_rec r : rec_ok r → (8 ≤ length (enc_rec r))%nat.
Proof. intros (b & Hs & _). unfold enc_rec. rewrite Hs, length_encode_frame. lia. Qed.

Lemma length_enc_txn t : txn_ok t → (S (length (snd t)) ≤ length (enc_txn t))%nat.
Proof.
  intros [Hok _]. unfold enc_txn. trans (length (snd t ++ [RCommit (fst t)])); [rewrite length_app; cbn [length]; lia|].
  induction (snd t ++ _) as [|r l IH]; [done|]. apply Forall_cons in Hok as [Hr Hok]. cbn [map concat length].
  rewrite length_app. pose proof (length_enc_rec r Hr). specialize (IH Hok). lia.
Qed.

Lemma log_len_le l : Forall txn_ok l → (log_len l ≤ length (enc_log l))%nat.
Proof.
  induction 1 as [|t l Ht _ IH]; [done|]. unfold log_len, enc_log. cbn [sum_list_with map concat]. fold (log_len l) (enc_log l).
  rewrite length_app. pose proof (length_enc_txn t Ht). lia.
Qed.

Lemma replay_clean l rest : Forall txn_ok l → replay (enc_log l ++ rest) = replay_loop (S (length (enc_log l ++ rest)) - log_len l) rest [] l.
Proof. intros Hok. unfold replay. rewrite replay_log; [done|done|]. pose proof (log_len_le l Hok). rewrite length_app. lia. Qed.

Lemma replay_loop_stop fuel raw cur txns : parse_frame raw = None → replay_loop fuel raw cur txns = txns.
Proof. intros Hp. destruct fuel; [done|]. cbn [replay_loop]. by rewrite Hp. Qed.

(** A proper prefix of one transaction commits nothing. *)
Lemma replay_torn_records l j cur fuel txns :
  Forall rec_ok l → (j < length (concat (map enc_rec l)))%nat →
  (∀ k r, l !! k = Some r → is_commit r = true → S k = length l) →
  replay_loop fuel (take j (concat (map enc_rec l))) cur txns = txns.
Proof.
  revert j cur fuel. induction l as [|r l IH]; intros j cur fuel Hok Hj Hc; [cbn in Hj; lia|].
  apply Forall_cons in Hok as [Hr Hok]. pose proof Hr as (b & Hs & Hl). cbn [map concat] in *. rewrite length_app in Hj.
  unfold enc_rec at 1. unfold enc_rec at 1 in Hj. rewrite Hs in *. rewrite length_encode_frame in Hj.
  destruct (decide (j < 8 + length b)%nat) as [Hlt|Hge].
  - rewrite take_app_le by (rewrite length_encode_frame; lia). apply replay_loop_stop.
    rewrite <- (app_nil_r (take _ _)). apply parse_frame_short; [done|cbn [length]; lia|by right].
  - rewrite take_app_ge by (rewrite length_encode_frame; lia). rewrite length_encode_frame.
    destruct fuel as [|fuel]; [done|]. cbn [replay_loop]. rewrite (parse_frame_ok r) by done.
    assert (is_commit r = false) as Hnc.
    { destruct (is_commit r) eqn:E; [|done]. specialize (Hc 0%nat r eq_refl E). destruct l; [cbn in Hj; lia|done]. }
    assert (∀ cur, replay_loop fuel (take (j - (8 + length b)) (concat (map enc_rec l))) cur txns = txns) as Hrec.
    { intros cur'. apply IH; [done|lia|]. intros k r' Hk Hcr. specialize (Hc (S k) r' Hk Hcr). cbn [length] in Hc. lia. }
    destruct r; try discriminate Hnc; apply Hrec.
Qed.

Lemma replay_torn_txn t j fuel txns : txn_ok t → (j < length (enc_txn t))%nat → replay_loop fuel (take j (enc_txn t)) [] txns = txns.
Proof.
  intros [Hok Hnc] Hj. apply replay_torn_records; [done|done|]. intros k r Hk Hc.
  apply lookup_app_Some in Hk as [Hk|[Hk1 Hk2]].
  - rewrite Forall_lookup in Hnc. by rewrite (Hnc _ _ Hk) in Hc.
  - destruct (k - length (snd t))%nat eqn:E; [|by destruct n]. rewrite length_app. cbn [length]. lia.
Qed.

(** ** Crashes *)
Lemma enc_log_app a b : enc_log (a ++ b) = enc_log a ++ enc_log b.
Proof. unfold enc_log. by rewrite map_app, concat_app. Qed.

(** A prefix of a log is a shorter log and a torn transaction. *)
Lemma take_enc_log l k : Forall txn_ok l → ∃ m rest, (m ≤ length l)%nat ∧ take k (enc_log l) = enc_log (take m l) ++ rest ∧
  (rest = [] ∨ ∃ t j, txn_ok t ∧ (j < length (enc_txn t))%nat ∧ rest = take j (enc_txn t)).
Proof.
  intros Hok. revert k. induction Hok as [|t l Ht Hok IH]; intros k.
  { exists O, []. cbn. rewrite take_nil. auto. }
  change (enc_log (t :: l)) with (enc_txn t ++ enc_log l). destruct (decide (k < length (enc_txn t))%nat) as [Hlt|Hge].
  - exists O, (take k (enc_txn t)). rewrite take_app_le by lia. split_and!; [cbn; lia|done|]. right. by exists t, k.
  - destruct (IH (k - length (enc_txn t))%nat) as (m & rest & Hm & He & Hr). exists (S m), rest.
    rewrite take_app_ge, He by lia. split_and!; [cbn [length]; lia| |done].
    cbn [take]. change (enc_log (t :: take m l)) with (enc_txn t ++ enc_log (take m l)). by rewrite (assoc_L (++)).
Qed.

(** [A] has been written, the first [d] transactions of it synced. *)
Record wal_inv (w : Wal) (A : list (N * list WalRecord)) (d : nat) : Prop := {
  wv_ok : Forall txn_ok A;
  wv_durable : durable w = enc_log (take d A);
  wv_cached : cached w = enc_log (drop d A)
}.

Lemma wal_inv_crash w A d k : wal_inv w A d → ∃ m, (d `min` length A ≤ m)%nat ∧ replay (crash k w) = take m A.
Proof.
  intros [Hok Hd Hc]. unfold crash. rewrite Hd, Hc.
  destruct (take_enc_log (drop d A) k) as (m & rest & Hm & -> & Hr); [by apply Forall_drop|].
  rewrite (assoc_L (++)), <- enc_log_app. exists (d `min` length A + m)%nat. split; [lia|].
  assert (take d A ++ take m (drop d A) = take (d `min` length A + m) A) as ->.
  { rewrite take_take_drop. destruct (Nat.le_gt_cases d (length A)); [by rewrite Nat.min_l|by rewrite !take_ge by lia]. }
  rewrite replay_clean by (by apply Forall_take). destruct Hr as [->|(t & j & Ht & Hj & ->)].
  - by apply replay_loop_stop.
  - by apply replay_torn_txn.
Qed.

Lemma encode_records_ok l out st : Forall rec_ok l → ∃ st', encode_records l out st = (Some (out ++ concat (map enc_rec l)), st').
Proof.
  intros Hok. revert out st. induction Hok as [|r l (b & Hs & _) _ IH]; intros out st; [exists st; cbn; by rewrite app_nil_r|].
  cbn [encode_records map concat]. rewrite Hs. unfold enc_rec at 1. rewrite Hs, (assoc_L (++)). apply IH.
Qed.

(** A run of batches against one log. *)
Fixpoint run_batches (ops : list (list WalRecord * io)) (w : Wal) : list (WalError + N) * Wal :=
  match ops with
  | [] => ([], w)
  | (recs, o) :: ops =>
      let '(r, w) := commit_batch recs o w in
      let '(rs, w) := run_batches ops w in (r :: rs, w)
  end.

(** The transactions the batches make, numbered from [n]. *)
Fixpoint numbered (n : N) (ops : list (list WalRecord * io)) : list (N * list WalRecord) :=
  match ops with [] => [] | (recs, _) :: ops => (n, recs) :: numbered (n + 1) ops end.

Definition batch_ok (op : list WalRecord * io) : Prop :=
  Forall rec_ok (fst op) ∧ Forall (λ r, is_commit r = false) (fst op) ∧ (∀ k, snd op ≠ WriteFails k).

Lemma commit_batch_inv recs o w A d : batch_ok (recs, o) → rec_ok (RCommit (next_txn w)) → wal_inv w A d →
  let '(r, w') := commit_batch recs o w in
  next_txn w' = wadd64 (next_txn w) 1 ∧
  ∃ d', (d `min` length A ≤ d')%nat ∧ wal_inv w' (A ++ [(next_txn w, recs)]) d' ∧
    ∀ t, r = inr t → t = next_txn w ∧ d' = S (length A).
Proof.
  intros (Hr & Hnc & Ho) Hcm [Hok Hd Hc]. cbn [fst snd] in *. unfold commit_batch.
  assert (txn_ok (next_txn w, recs)) as Ht by (split; [apply Forall_app; auto|done]).
  destruct (encode_records_ok (recs ++ [RCommit (next_txn w)]) [] (stats w)) as [st ->]; [apply Ht|]. cbn [app].
  change (concat (map enc_rec (recs ++ [RCommit (next_txn w)]))) with (enc_txn (next_txn w, recs)).
  set (t := (next_txn w, recs)) in *. assert (enc_txn t = enc_log [t]) as -> by (unfold enc_log; cbn; by rewrite app_nil_r).
  assert (Forall txn_ok (A ++ [t])) as Hok' by (apply Forall_app; auto). destruct o as [|k|]; [|by destruct (Ho k)|].
  - split; [done|]. exists (S (length A)). split; [lia|]. split; [constructor; [done|..]|intros ? [= ->]; done].
    + cbn [durable]. rewrite take_ge by (rewrite length_app; cbn [length]; lia). rewrite Hd, Hc, (assoc_L (++)), <- enc_log_app, take_drop.
      by rewrite enc_log_app.
    + cbn [cached]. rewrite drop_ge by (rewrite length_app; cbn [length]; lia). done.
  - split; [done|]. exists (d `min` length A)%nat. split; [lia|]. split; [constructor; [done|..]|done].
    + cbn [durable]. rewrite Hd, take_app_le by lia. f_equal. by rewrite <- take_take, (take_ge A (length A)).
    + cbn [cached]. rewrite Hc, drop_app_le, enc_log_app by lia. f_equal. f_equal.
      destruct (Nat.le_gt_cases d (length A)); [by rewrite Nat.min_l|rewrite Nat.min_r, !drop_ge by lia; done].
Qed.

Lemma run_batches_inv ops w A d : Forall batch_ok ops → (∀ t, t < two64 → rec_ok (RCommit t)) → next_txn w + N.of_nat (length ops) < two64 → wal_inv w A d →
  let '(rs, w') := run_batches ops w in
  ∃ d', (d `min` length A ≤ d')%nat ∧ wal_inv w' (A ++ numbered (next_txn w) ops) d' ∧
    ∀ i t, rs !! i = Some (inr t) → t = next_txn w + N.of_nat i ∧ (length A + i < d')%nat.
Proof.
  intros Hops Hcm. revert w A d. induction Hops as [|[recs o] ops Hop Hops IH]; intros w A d Hn Hi.
  { exists d. cbn [numbered run_batches]. rewrite app_nil_r. split; [lia|]. split; [done|]. by intros i t Hrs. }
  cbn [run_batches]. cbn [length] in Hn. pose proof (commit_batch_inv recs o w A d Hop (Hcm (next_txn w) ltac:(lia)) Hi) as Hcb.
  destruct (commit_batch recs o w) as [r w1]. destruct Hcb as (Hnext & d1 & Hd1 & Hi1 & Hr). rewrite wadd64_small in Hnext by lia.
  specialize (IH w1 _ _ ltac:(lia) Hi1). destruct (run_batches ops w1) as [rs w2]. destruct IH as (d2 & Hd2 & Hi2 & Hrs).
  rewrite length_app in *. cbn [length] in *. exists d2. split; [lia|]. split.
  { cbn [numbered]. rewrite <- (assoc_L (++)), Hnext in Hi2. done. }
  intros [|i] t Ht; cbn in Ht; simplify_eq.
  - destruct (Hr t eq_refl) as [-> ->]. lia.
  - destruct (Hrs i t Ht) as [-> ?]. lia.
Qed.

Lemma lookup_numbered n ops i recs o : ops !! i = Some (recs, o) → numbered n ops !! i = Some (n + N.of_nat i, recs).
Proof.
  revert n i. induction ops as [|[rs o'] ops IH]; intros n [|i] Hi; cbn in *; simplify_eq.
  - by rewrite N.add_0_r.
  - rewrite (IH _ _ Hi). do 2 f_equal. lia.
Qed.

Lemma length_numbered n ops : length (numbered n ops) = length ops.
Proof. revert n. induction ops as [|[? ?] ops IH]; intros n; [done|]. cbn. by rewrite IH. Qed.


(** A batch committed behind a torn frame that still misses more bytes than the
    batch has is not replayed. *)
Lemma hidden_commit A b j recs w :
  Forall txn_ok A → N.of_nat (length b) < two32 → (8 ≤ j)%nat → Forall rec_ok (recs ++ [RCommit (next_txn w)]) →
  durable w ++ cached w = enc_log A ++ take j (encode_frame b) → (j + length (enc_txn (next_txn w, recs)) < 8 + length b)%nat →
  ∃ w', commit_batch recs IoOk w = (inr (next_txn w), w') ∧ cached w' = [] ∧ replay (durable w') = A.
Proof.
  intros HA Hb Hj Hr Hw Hlen. unfold commit_batch.
  destruct (encode_records_ok _ [] (stats w) Hr) as [st ->]. cbn [app].
  change (concat (map enc_rec (recs ++ [RCommit (next_txn w)]))) with (enc_txn (next_txn w, recs)).
  eexists. split_and!; [done..|]. cbn [durable]. rewrite (assoc_L (++)), Hw, <- (assoc_L (++)), replay_clean by done.
  apply replay_loop_stop, parse_frame_short; auto.
Qed.

(** A batch whose write fails part-way leaves a torn frame in the file, and
    neither the log nor [Wal::open] removes it. The next batch is appended
    behind it, synced and reported committed, and no replay returns it while
    the torn frame misses more bytes than have been appended: the same log
    continued, and the log reopened after a crash. *)
Theorem torn_frame_hides_commits (A : list (N * list WalRecord)) (r0 : WalRecord) (b : bytes) (rest0 recs : list WalRecord) (k : nat) :
  Forall txn_ok A → (∀ t, t < two64 → rec_ok (RCommit t)) → max_txn A + 2 < two64 →
  ser r0 = Some b → Forall rec_ok (r0 :: rest0) → Forall rec_ok recs → (8 ≤ k)%nat →
  (∀ t, k + length (enc_txn (t, recs)) < 8 + length b)%nat →
  let w := snd (commit_batch (r0 :: rest0) (WriteFails k) (wal_open (enc_log A))) in
  (∃ t w', commit_batch recs IoOk w = (inr t, w') ∧ cached w' = [] ∧ replay (durable w') = A) ∧
  (∃ t w', commit_batch recs IoOk (wal_open (durable w ++ cached w)) = (inr t, w') ∧ cached w' = [] ∧ replay (durable w') = A).
Proof.
  intros HA Hcm Hn Hs Hr0 Hr Hk Hlen w.
  assert (N.of_nat (length b) < two32) as Hb by (apply Forall_cons in Hr0 as [(b' & ? & ?) _]; by simplify_eq).
  assert (durable w ++ cached w = enc_log A ++ take k (encode_frame b)) as Hw.
  { unfold w, commit_batch.
    destruct (encode_records_ok ((r0 :: rest0) ++ [RCommit (next_txn (wal_open (enc_log A)))]) [] (stats (wal_open (enc_log A)))) as [st ->].
    { apply Forall_app. split; [done|]. apply Forall_singleton, Hcm, wrap64_lt. }
    cbn [snd durable cached wal_open app map concat]. f_equal. unfold enc_rec at 1. rewrite Hs, take_app_le; [done|].
    rewrite length_encode_frame. specialize (Hlen 0). lia. }
  split.
  - destruct (hidden_commit A b k recs w) as (w' & H1 & H2); [done..|apply Forall_app; split; [done|]|done|apply Hlen|].
    { apply Forall_singleton, Hcm. unfold w, commit_batch. destruct (encode_records _ _ _) as [[?|] ?]; apply wrap64_lt. }
     by exists (next_txn w), w'.
  - destruct (hidden_commit A b k recs (wal_open (durable w ++ cached w))) as (w' & H1 & H2); [done..|apply Forall_app; split; [done|]| |apply Hlen|].
    + apply Forall_singleton, Hcm, wrap64_lt.
    + cbn [wal_open durable cached]. by rewrite app_nil_r.
    + by exists (next_txn (wal_open (durable w ++ cached w))), w'.
Qed.

End wal.

(** ** Witnesses *)

(** A small codec: a tag and the payload for node records, a tag and eight bytes
    for commit markers; the other records are refused. *)
Definition test_ser (r : WalRecord) : option bytes :=
  match r with
  | RVNode p => Some (x01 :: p)
  | RCommit t => if t <? two64 then Some (x02 :: le_bytes 8 t) else None
  | _ => None
  end.

Definition test_de (b : bytes) : option WalRecord :=
  match b with
  | x01 :: p => Some (RVNode p)
  | x02 :: p => Some (RCommit (of_le p))
  | _ => None
  end.

#[local] Instance test_codec : WalCodec := {| ser := test_ser; de := test_de; crc32 b := N.of_nat (length b) mod two32 |}.

#[local] Instance test_codec_laws : WalCodecLaws.
Proof.
  constructor; [|intros b; by apply N.mod_lt].
  intros [] b; cbn; intros Hs; try done; [by simplify_eq|].
  destruct (N.ltb_spec txn two64); [|done]. injection Hs as <-. change (Some (RCommit (of_le (le_bytes 8 txn))) = Some (RCommit txn)).
  rewrite of_le_le_bytes. do 2 f_equal. by apply N.mod_small.
Qed.

Lemma test_commit_ok t : t < two64 → rec_ok (RCommit t).
Proof. intros Ht. unfold rec_ok. cbn. rewrite (proj2 (N.ltb_lt _ _) Ht). by eexists. Qed.

Lemma test_node_ok p : N.of_nat (S (length p)) < two32 → rec_ok (RVNode p).
Proof. intros Hp. by eexists. Qed.


Lemma torn_frame_hides_commits_witness :
  let w := snd (commit_batch [RVNode (replicate 60 x07)] (WriteFails 9) (wal_open (enc_log []))) in
  ∃ t w', commit_batch [RVNode [x01]] IoOk w = (inr t, w') ∧ cached w' = [] ∧ replay (durable w') = [].
Proof.
  refine (proj1 (torn_frame_hides_commits [] (RVNode (replicate 60 x07)) (x01 :: replicate 60 x07) [] [RVNode [x01]] 9 _ _ _ _ _ _ _ _)).
  - constructor.
  - exact test_commit_ok.
  - vm_compute. reflexivity.
  - reflexivity.
  - constructor; [by apply test_node_ok|constructor].
  - constructor; [by apply test_node_ok|constructor].
  - lia.
  - intros t. unfold enc_txn. cbn [fst snd app map concat]. rewrite !length_app. unfold enc_rec at 1 2. cbn [ser test_codec test_ser].
    destruct (t <? two64); rewrite ?length_encode_frame; cbn [length]; rewrite ?length_le_bytes, length_replicate; lia.
Defined.
