(* ===== verification/Devices.v ===== *)
(** * Block devices of the extent store ([lionfs-cluster/src/store.rs])

    The [BlockDevice] trait as a class, the memory device and the file device
    with its write-back overlay, and what each promises: a device is an array
    of bytes, and the file device is one until [sync] writes the overlay back
    in the order of offsets. *)
From S2P Require Import Prelude.
From Stdlib Require Import NArith Lia Strings.Byte.
From stdpp Require Import base numbers gmap option list sorting.
#[local] Open Scope N_scope.

#[local] Abbreviation bytes := (list byte).

(** [trait BlockDevice]; [None] is an I/O error. *)
Class BlockDevice (D : Type) := {
  dev_write : N → bytes → D → option D;
  dev_read : N → N → D → option bytes;
  dev_sync : D → option D;
  dev_len : D → N
}.

(** [dst[off..off + src.len()].copy_from_slice(src)] *)
Definition copy_into (off : nat) (src dst : bytes) : bytes := take off dst ++ src ++ drop (off + length src) dst.

(** [Vec::resize(n, 0)] when it grows, and what writing past the end of a file
    does. *)
Definition grow_to (n : nat) (l : bytes) : bytes := l ++ replicate (n - length l) x00.

(** ** In memory *)
Record InMemDevice := mkMem { data : bytes }.

Definition mem_new (len : N) : InMemDevice := mkMem (replicate (N.to_nat len) x00).

Definition mem_write (offset : N) (src : bytes) (d : InMemDevice) : option InMemDevice :=
  let stop := (N.to_nat offset + length src)%nat in
  let buf := if (length (data d) <? stop)%nat then grow_to stop (data d) else data d in
  Some (mkMem (copy_into (N.to_nat offset) src buf)).

Definition mem_read (offset len : N) (d : InMemDevice) : option bytes :=
  let stop := N.to_nat (offset + len) in
  if (length (data d) <? stop)%nat then None else Some (take (N.to_nat len) (drop (N.to_nat offset) (data d))).

#[export] Instance mem_device : BlockDevice InMemDevice :=
  {| dev_write := mem_write; dev_read := mem_read; dev_sync d := Some d; dev_len d := N.of_nat (length (data d)) |}.

(** ** A file with a volatile overlay *)
Record FileDevice := mkFile { file : bytes; durable_len : N; overlay : list (N * bytes); capacity : N }.

Definition file_create (cap : N) : FileDevice := mkFile (replicate (N.to_nat cap) x00) 0 [] cap.

(** Opening what a crash left: the overlay is gone. *)
Definition file_open (contents : bytes) (cap : N) : FileDevice := mkFile contents (N.min (N.of_nat (length contents)) cap) [] cap.

Definition entry_end (e : N * bytes) : N := fst e + N.of_nat (length (snd e)).

Definition file_write (offset : N) (src : bytes) (d : FileDevice) : option FileDevice :=
  if capacity d <? offset + N.of_nat (length src) then None
  else
    let kept := filter (λ e, ¬ (offset <= fst e ∧ entry_end e <= offset + N.of_nat (length src))) (overlay d) in
    Some (mkFile (file d) (durable_len d) (kept ++ [(offset, src)]) (capacity d)).

(** One overlay entry applied to the buffer of a read of [offset, stop). *)
Definition patch (offset stop : N) (out : bytes) (e : N * bytes) : bytes :=
  let s := N.max (fst e) offset in
  let t := N.min (entry_end e) stop in
  if s <? t
  then copy_into (N.to_nat (s - offset)) (take (N.to_nat (t - s)) (drop (N.to_nat (s - fst e)) (snd e))) out
  else out.

Definition file_read (offset len : N) (d : FileDevice) : option bytes :=
  let stop := offset + len in
  if capacity d <? stop then None
  else if N.of_nat (length (file d)) <? stop then None
  else Some (fold_left (patch offset stop) (overlay d) (take (N.to_nat len) (drop (N.to_nat offset) (file d)))).

(** [sort_by_key]: a stable sort. *)
Fixpoint insert_by_offset (e : N * bytes) (l : list (N * bytes)) : list (N * bytes) :=
  match l with
  | [] => [e]
  | x :: l => if fst e <? fst x then e :: x :: l else x :: insert_by_offset e l
  end.
Definition sort_by_offset (l : list (N * bytes)) : list (N * bytes) := fold_left (λ acc e, insert_by_offset e acc) l [].

(** [write_all_at] *)
Definition write_at (f : bytes) (e : N * bytes) : bytes :=
  let stop := (N.to_nat (fst e) + length (snd e))%nat in
  copy_into (N.to_nat (fst e)) (snd e) (if (length f <? stop)%nat then grow_to stop f else f).

Definition file_sync (d : FileDevice) : option FileDevice :=
  let l := sort_by_offset (overlay d) in
  Some (mkFile (fold_left write_at l (file d)) (fold_left (λ n e, N.max n (entry_end e)) l (durable_len d)) [] (capacity d)).

#[export] Instance file_device : BlockDevice FileDevice :=
  {| dev_write := file_write; dev_read := file_read; dev_sync := file_sync;
     dev_len d := N.max (durable_len d) (fold_right N.max 0 (map entry_end (overlay d))) |}.

(** ** The contract *)

(** A device seen as an array: [dbyte d i] is byte [i], [dcap d] the size that
    reads and writes may reach. [dsafe] is the condition under which a sync
    keeps what reads return. *)
Class BlockDeviceLaws (D : Type) `{!BlockDevice D} := {
  dbyte : D → N → byte;
  dcap : D → N;
  dinv : D → Prop;
  dsafe : D → Prop;
  read_spec : ∀ d o n, dinv d →
    dev_read o n d = if o + n <=? dcap d then Some (map (λ k, dbyte d (o + N.of_nat k)) (seq 0 (N.to_nat n))) else None;
  write_spec : ∀ d o b d', dinv d → dev_write o b d = Some d' →
    dinv d' ∧ dcap d <= dcap d' ∧ o + N.of_nat (length b) <= dcap d' ∧
    ∀ i, dbyte d' i = if (o <=? i) && (i <? o + N.of_nat (length b)) then nth (N.to_nat (i - o)) b x00 else dbyte d i;
  write_ok : ∀ d o b, dinv d → o + N.of_nat (length b) <= dcap d → is_Some (dev_write o b d);
  sync_spec : ∀ d d', dinv d → dsafe d → dev_sync d = Some d' → dinv d' ∧ dcap d' = dcap d ∧ ∀ i, dbyte d' i = dbyte d i;
  sync_ok : ∀ d, dinv d → is_Some (dev_sync d);
  len_le : ∀ d, dinv d → dev_len d <= dcap d
}.

(** ** Bytes of a copy *)
Lemma nth_copy_into off src dst i : (off + length src ≤ length dst)%nat →
  nth i (copy_into off src dst) x00 = if (off <=? i)%nat && (i <? off + length src)%nat then nth (i - off) src x00 else nth i dst x00.
Proof.
  intros Hl. unfold copy_into. destruct (Nat.leb_spec off i) as [H1|H1]; cbn [andb].
  - rewrite app_nth2 by (rewrite length_take; lia). rewrite length_take, Nat.min_l by lia. destruct (Nat.ltb_spec i (off + length src)) as [H2|H2].
    + by rewrite app_nth1 by lia.
    + rewrite app_nth2 by lia. rewrite nth_skipn. f_equal. lia.
  - rewrite app_nth1 by (rewrite length_take; lia). rewrite nth_firstn. by rewrite (proj2 (Nat.ltb_lt i off)) by lia.
Qed.

Lemma length_copy_into off src dst : (off + length src ≤ length dst)%nat → length (copy_into off src dst) = length dst.
Proof. intros Hl. unfold copy_into. rewrite !length_app, length_take, length_drop. lia. Qed.

Lemma nth_grow n l i : nth i (grow_to n l) x00 = nth i l x00.
Proof.
  unfold grow_to. destruct (Nat.le_gt_cases (length l) i) as [Hge|Hlt]; [|by rewrite app_nth1].
  rewrite app_nth2, (nth_overflow l) by lia. generalize (i - length l)%nat (n - length l)%nat. intros j k. revert j. induction k; intros [|j]; cbn; auto.
Qed.

Lemma length_grow n l : (length l ≤ n)%nat → length (grow_to n l) = n.
Proof. intros Hl. unfold grow_to. rewrite length_app, length_replicate. lia. Qed.

(** The byte one overlay entry leaves at [i], and what a sequence of them leaves
    above [base]. *)
Definition entry_byte (e : N * bytes) (i : N) (old : byte) : byte :=
  if (fst e <=? i) && (i <? entry_end e) then nth (N.to_nat (i - fst e)) (snd e) x00 else old.

Definition overlay_byte (ov : list (N * bytes)) (i : N) (base : byte) : byte := fold_left (λ acc e, entry_byte e i acc) ov base.

Lemma overlay_byte_app a b i base : overlay_byte (a ++ b) i base = overlay_byte b i (overlay_byte a i base).
Proof. unfold overlay_byte. by rewrite fold_left_app. Qed.

Lemma nth_write_at f e i : nth (N.to_nat i) (write_at f e) x00 = entry_byte e i (nth (N.to_nat i) f x00).
Proof.
  unfold write_at, entry_byte, entry_end. set (stop := (N.to_nat (fst e) + length (snd e))%nat).
  set (g := if (length f <? stop)%nat then grow_to stop f else f).
  assert (nth (N.to_nat i) g x00 = nth (N.to_nat i) f x00) as <-.
  { unfold g. destruct (Nat.ltb_spec (length f) stop); [apply nth_grow|done]. }
  rewrite nth_copy_into.
  - destruct (N.leb_spec (fst e) i), (N.ltb_spec i (fst e + N.of_nat (length (snd e)))), (Nat.leb_spec (N.to_nat (fst e)) (N.to_nat i)),
      (Nat.ltb_spec (N.to_nat i) (N.to_nat (fst e) + length (snd e))); cbn [andb]; try lia; try done. f_equal. lia.
  - unfold g. fold stop. destruct (Nat.ltb_spec (length f) stop); [rewrite length_grow; lia|lia].
Qed.

Lemma length_write_at f e : (length f ≤ length (write_at f e))%nat ∧ (N.to_nat (entry_end e) ≤ length (write_at f e))%nat ∧
  (entry_end e <= N.of_nat (length f) → length (write_at f e) = length f).
Proof.
  unfold write_at, entry_end. destruct (Nat.ltb_spec (length f) (N.to_nat (fst e) + length (snd e))).
  - rewrite length_copy_into; rewrite length_grow; lia.
  - rewrite length_copy_into; lia.
Qed.

(** ** The memory device *)
#[export] Program Instance mem_laws : BlockDeviceLaws InMemDevice := {|
  dbyte d i := nth (N.to_nat i) (data d) x00; dcap d := N.of_nat (length (data d)); dinv _ := True; dsafe _ := True |}.
Next Obligation.
  intros d o n _. cbn [dev_read mem_device]. unfold mem_read.
  destruct (Nat.ltb_spec (length (data d)) (N.to_nat (o + n))), (N.leb_spec (o + n) (N.of_nat (length (data d)))); try lia; [done|].
  f_equal. apply (nth_ext _ _ x00 x00).
  - rewrite length_take, length_drop, length_map, length_seq. lia.
  - intros k Hk. rewrite length_take, length_drop in Hk. rewrite nth_firstn, (proj2 (Nat.ltb_lt _ _)), nth_skipn by lia.
    rewrite nth_map_seq by lia. f_equal. lia.
Qed.
Next Obligation.
  intros d o b d' _ [= <-]. cbn [data]. change (copy_into _ _ _) with (write_at (data d) (o, b)).
  destruct (length_write_at (data d) (o, b)) as (H1 & H2 & _). unfold entry_end in H2. cbn [fst snd] in H2.
  split_and!; [done|lia|lia|]. intros i. rewrite nth_write_at. done.
Qed.
Next Obligation. intros d o b _ _. by eexists. Qed.
Next Obligation. intros d d' _ _ [= <-]. done. Qed.
Next Obligation. intros d _. by eexists. Qed.
Next Obligation. intros d _. cbn. lia. Qed.

(** ** The file device *)
Lemma length_patch offset stop out e : offset <= stop → length out = N.to_nat (stop - offset) → length (patch offset stop out e) = length out.
Proof.
  intros Hs Hl. unfold patch, entry_end. cbv zeta. destruct (N.ltb_spec (N.max (fst e) offset) (N.min (fst e + N.of_nat (length (snd e))) stop)); [|done].
  apply length_copy_into. rewrite length_take, length_drop. lia.
Qed.

Lemma nth_patch offset stop out e k : offset <= stop → length out = N.to_nat (stop - offset) → (k < length out)%nat →
  nth k (patch offset stop out e) x00 = entry_byte e (offset + N.of_nat k) (nth k out x00).
Proof.
  intros Hs Hl Hk. unfold patch, entry_byte, entry_end. cbv zeta.
  set (a := fst e). set (b := snd e). set (s := N.max a offset). set (t := N.min (a + N.of_nat (length b)) stop).
  destruct (N.ltb_spec s t) as [Hst|Hst].
  - rewrite nth_copy_into by (rewrite length_take, length_drop; lia). rewrite length_take, length_drop.
    destruct (N.leb_spec a (offset + N.of_nat k)), (N.ltb_spec (offset + N.of_nat k) (a + N.of_nat (length b)));
      destruct (Nat.leb_spec (N.to_nat (s - offset)) k); cbn [andb]; try lia;
      destruct (Nat.ltb_spec k (N.to_nat (s - offset) + N.to_nat (t - s) `min` (length b - N.to_nat (s - a)))); try lia; try done.
    rewrite nth_firstn, (proj2 (Nat.ltb_lt _ _)), nth_skipn by lia. f_equal. lia.
  - destruct (N.leb_spec a (offset + N.of_nat k)), (N.ltb_spec (offset + N.of_nat k) (a + N.of_nat (length b))); cbn [andb]; try lia; done.
Qed.

Lemma fold_patch offset stop ov out : offset <= stop → length out = N.to_nat (stop - offset) →
  length (fold_left (patch offset stop) ov out) = length out ∧
  ∀ k, (k < length out)%nat → nth k (fold_left (patch offset stop) ov out) x00 = overlay_byte ov (offset + N.of_nat k) (nth k out x00).
Proof.
  intros Hs. revert out. induction ov as [|e ov IH]; intros out Hl; [done|]. cbn [fold_left].
  destruct (IH (patch offset stop out e)) as [H1 H2]; [by rewrite length_patch|]. rewrite length_patch in H1, H2 by done. split; [done|].
  intros k Hk. rewrite H2, nth_patch by done. done.
Qed.

Definition entry_disjoint (x y : N * bytes) : Prop := entry_end x <= fst y ∨ entry_end y <= fst x.

(** A later entry that overlaps an earlier one does not start below it. *)
Fixpoint ordered_overlay (l : list (N * bytes)) : Prop :=
  match l with
  | [] => True
  | x :: l => Forall (λ y, fst x <= fst y ∨ entry_disjoint x y) l ∧ ordered_overlay l
  end.

Lemma entry_byte_swap x y i base : entry_disjoint x y → entry_byte x i (entry_byte y i base) = entry_byte y i (entry_byte x i base).
Proof.
  unfold entry_disjoint, entry_byte. intros Hd.
  destruct (N.leb_spec (fst x) i), (N.ltb_spec i (entry_end x)), (N.leb_spec (fst y) i), (N.ltb_spec i (entry_end y)); cbn [andb]; try done.
  destruct Hd; lia.
Qed.

Lemma overlay_byte_swap e l i base : Forall (λ x, entry_disjoint x e) l → overlay_byte l i (entry_byte e i base) = overlay_byte (l ++ [e]) i base.
Proof.
  intros Hl. revert base. induction Hl as [|x l Hx _ IH]; intros base; [done|].
  change (overlay_byte l i (entry_byte x i (entry_byte e i base)) = overlay_byte (l ++ [e]) i (entry_byte x i base)).
  by rewrite entry_byte_swap, IH.
Qed.

Definition sorted_overlay : list (N * bytes) → Prop := StronglySorted (λ x y, fst x <= fst y).

Lemma insert_by_offset_byte e l i base : sorted_overlay l → Forall (λ x, fst x <= fst e ∨ entry_disjoint x e) l →
  overlay_byte (insert_by_offset e l) i base = overlay_byte (l ++ [e]) i base.
Proof.
  intros Hs Hl. revert base. induction Hs as [|x l Hs IH Hx]; intros base; [done|]. apply Forall_cons in Hl as [Hxe Hl].
  cbn [insert_by_offset]. destruct (N.ltb_spec (fst e) (fst x)) as [Hlt|Hge]; [|by apply IH].
  apply (overlay_byte_swap e (x :: l)). constructor; [destruct Hxe; [lia|done]|].
  rewrite Forall_forall in *. intros y Hy. destruct (Hl y Hy); [|done]. specialize (Hx y Hy). lia.
Qed.

Lemma insert_by_offset_perm e l : insert_by_offset e l ≡ₚ e :: l.
Proof. induction l as [|x l IH]; [done|]. cbn [insert_by_offset]. case_match; [done|]. rewrite IH. apply Permutation_swap. Qed.

Lemma insert_by_offset_sorted e l : sorted_overlay l → sorted_overlay (insert_by_offset e l).
Proof.
  induction 1 as [|x l Hs IH Hx]; [repeat constructor|]. cbn [insert_by_offset]. destruct (N.ltb_spec (fst e) (fst x)) as [Hlt|Hge].
  - constructor; [by constructor|]. constructor; [lia|]. eapply Forall_impl; [exact Hx|]. cbn. intros y Hy. lia.
  - constructor; [done|]. rewrite insert_by_offset_perm. by constructor.
Qed.

Lemma sort_by_offset_byte l i base : ordered_overlay l → overlay_byte (sort_by_offset l) i base = overlay_byte l i base.
Proof.
  intros Ho. unfold sort_by_offset.
  enough (∀ acc, sorted_overlay acc → Forall (λ e, Forall (λ x, fst x <= fst e ∨ entry_disjoint x e) acc) l →
    overlay_byte (fold_left (λ acc e, insert_by_offset e acc) l acc) i base = overlay_byte (acc ++ l) i base) as Hacc.
  { rewrite Hacc; [done|constructor|]. by apply Forall_forall. }
  induction l as [|e l IH]; intros acc Hs Hf; [by rewrite app_nil_r|]. destruct Ho as [He Ho]. apply Forall_cons in Hf as [Hfe Hf].
  cbn [fold_left]. rewrite IH; [|done|by apply insert_by_offset_sorted|].
  - rewrite overlay_byte_app, insert_by_offset_byte, <- overlay_byte_app, <- (assoc_L (++)) by done. done.
  - rewrite Forall_forall in *. intros y Hy. rewrite insert_by_offset_perm. constructor; [by apply He|by apply Hf].
Qed.

Lemma fold_write_at l f i : nth (N.to_nat i) (fold_left write_at l f) x00 = overlay_byte l i (nth (N.to_nat i) f x00).
Proof. revert f. induction l as [|e l IH]; intros f; [done|]. cbn [fold_left]. rewrite IH, nth_write_at. done. Qed.

Lemma length_fold_write_at l f : Forall (λ e, entry_end e <= N.of_nat (length f)) l → length (fold_left write_at l f) = length f.
Proof.
  revert f. induction l as [|e l IH]; intros f Hl; [done|]. apply Forall_cons in Hl as [He Hl].
  destruct (length_write_at f e) as (_ & _ & Hw). cbn [fold_left]. rewrite IH; rewrite Hw by done; done.
Qed.

Lemma sort_by_offset_perm l : sort_by_offset l ≡ₚ l.
Proof.
  unfold sort_by_offset. enough (∀ acc, fold_left (λ acc e, insert_by_offset e acc) l acc ≡ₚ acc ++ l) as H by apply (H []).
  induction l as [|e l IH]; intros acc; cbn [fold_left]; [by rewrite app_nil_r|]. rewrite IH, insert_by_offset_perm. cbn [app].
  by rewrite Permutation_middle.
Qed.

(** Dropping an entry that a later one covers changes no byte. *)
Lemma filter_covered ov e i base (P := λ x : N * bytes, ¬ (fst e <= fst x ∧ entry_end x <= entry_end e)) `{!∀ x, Decision (P x)} :
  overlay_byte (filter P ov ++ [e]) i base = entry_byte e i (overlay_byte ov i base).
Proof.
  rewrite overlay_byte_app. change (entry_byte e i (overlay_byte (filter P ov) i base) = entry_byte e i (overlay_byte ov i base)).
  assert (∀ old, entry_byte e i old = if (fst e <=? i) && (i <? entry_end e) then nth (N.to_nat (i - fst e)) (snd e) x00 else old) as He by done.
  rewrite !He. destruct ((fst e <=? i) && (i <? entry_end e)) eqn:E; [done|].
  assert (∀ x old, ¬ P x → entry_byte x i old = old) as Hout.
  { intros x old Hx. unfold P in Hx. unfold entry_byte. destruct (N.leb_spec (fst e) i), (N.ltb_spec i (entry_end e)),
      (N.leb_spec (fst x) i), (N.ltb_spec i (entry_end x)); cbn [andb] in *; try done; exfalso; apply Hx; lia. }
  revert base. induction ov as [|x ov IH]; intros base; [done|]. rewrite filter_cons. case_decide; [apply IH|].
  rewrite IH. unfold overlay_byte at 2. cbn [fold_left]. by rewrite Hout.
Qed.

Definition file_dev_inv (d : FileDevice) : Prop :=
  N.of_nat (length (file d)) = capacity d ∧ durable_len d <= capacity d ∧ Forall (λ e, entry_end e <= capacity d) (overlay d).

Lemma fold_max_le (l : list (N * bytes)) n c : n <= c → Forall (λ e, entry_end e <= c) l → fold_left (λ n e, N.max n (entry_end e)) l n <= c.
Proof. intros Hn Hl. revert n Hn. induction Hl as [|e l He _ IH]; intros n Hn; [done|]. cbn [fold_left]. apply IH. lia. Qed.

#[export] Program Instance file_laws : BlockDeviceLaws FileDevice := {|
  dbyte d i := overlay_byte (overlay d) i (nth (N.to_nat i) (file d) x00); dcap := capacity; dinv := file_dev_inv;
  dsafe d := ordered_overlay (overlay d) |}.
Next Obligation.
  intros d o n [Hlen _]. cbn [dev_read file_device]. unfold file_read. rewrite Hlen.
  destruct (N.ltb_spec (capacity d) (o + n)), (N.leb_spec (o + n) (capacity d)); try lia; [done|]. f_equal.
  assert (length (take (N.to_nat n) (drop (N.to_nat o) (file d))) = N.to_nat n) as Hout by (rewrite length_take, length_drop; lia).
  destruct (fold_patch o (o + n) (overlay d) (take (N.to_nat n) (drop (N.to_nat o) (file d)))) as [H1 H2]; [lia|lia|].
  apply (nth_ext _ _ x00 x00).
  - rewrite H1, length_map, length_seq. done.
  - intros k Hk. rewrite H1, Hout in Hk. rewrite H2, nth_map_seq by lia. f_equal.
    rewrite nth_firstn, (proj2 (Nat.ltb_lt _ _)), nth_skipn by lia. f_equal. lia.
Qed.
Next Obligation.
  intros d o b d' (Hlen & Hdl & Hov). cbn [dev_write file_device]. unfold file_write.
  destruct (N.ltb_spec (capacity d) (o + N.of_nat (length b))) as [|Hle]; [done|]. intros [= <-]. cbn [capacity overlay file].
  split_and!; [|lia|done|].
  - split_and!; [done|done|]. cbn [overlay capacity]. apply Forall_app. split; [|by repeat constructor].
    rewrite Forall_forall in *. intros x [_ Hx]%list_elem_of_filter. by apply Hov.
  - intros i. apply (filter_covered (overlay d) (o, b) i).
Qed.
Next Obligation.
  intros d o b _ Hle. cbn [dev_write file_device]. unfold file_write. destruct (N.ltb_spec (capacity d) (o + N.of_nat (length b))); [lia|]. by eexists.
Qed.
Next Obligation.
  intros d d' (Hlen & Hdl & Hov) Hsafe [= <-]. cbn [capacity overlay file]. split_and!; [|done|].
  - split_and!; [|apply fold_max_le; [done|by rewrite sort_by_offset_perm]|constructor]. cbn [file capacity]. rewrite length_fold_write_at; [done|]. rewrite sort_by_offset_perm, Hlen. done.
  - intros i. rewrite fold_write_at, sort_by_offset_byte by done. done.
Qed.
Next Obligation. intros d _. by eexists. Qed.
Next Obligation.
  intros d (_ & Hdl & Hov). cbn [dev_len file_device]. enough (fold_right N.max 0 (map entry_end (overlay d)) <= capacity d) by lia.
  induction Hov; cbn [map fold_right]; lia.
Qed.

(** ** Reading ranges *)
Section ranges.
Context {D : Type} `{!BlockDevice D} `{!BlockDeviceLaws D}.

(** The bytes [b] are on the device at [o]. *)
Definition holds (d : D) (o : N) (b : bytes) : Prop :=
  o + N.of_nat (length b) <= dcap d ∧ ∀ k, (k < length b)%nat → dbyte d (o + N.of_nat k) = nth k b x00.

Lemma holds_read d o b : dinv d → holds d o b ↔ dev_read o (N.of_nat (length b)) d = Some b.
Proof.
  intros Hi. rewrite read_spec by done. rewrite Nat2N.id. split.
  - intros [Hc Hb]. rewrite (proj2 (N.leb_le _ _) Hc). f_equal. apply (nth_ext _ _ x00 x00); rewrite length_map, length_seq; [done|].
    intros k Hk. rewrite nth_map_seq by done. by apply Hb.
  - destruct (N.leb_spec (o + N.of_nat (length b)) (dcap d)) as [Hc|]; [|done]. intros [= Hb]. split; [done|].
    intros k Hk. rewrite <- Hb at 1. by rewrite nth_map_seq.
Qed.

Lemma read_holds d o n b : dinv d → dev_read o n d = Some b → n = N.of_nat (length b) ∧ holds d o b.
Proof.
  intros Hi Hr. assert (n = N.of_nat (length b)) as ->.
  { rewrite read_spec in Hr by done. destruct (_ <=? _); [|done]. injection Hr as <-. rewrite length_map, length_seq. lia. }
  split; [done|]. by apply holds_read.
Qed.

Lemma write_holds d o b d' : dinv d → dev_write o b d = Some d' → dinv d' ∧ holds d' o b ∧
  ∀ o' b', o' + N.of_nat (length b') <= o ∨ o + N.of_nat (length b) <= o' → holds d o' b' → holds d' o' b'.
Proof.
  intros Hi Hw. destruct (write_spec _ _ _ _ Hi Hw) as (Hi' & Hc & Ho & Hb). split_and!; [done|split; [done|]|].
  - intros k Hk. rewrite Hb. rewrite (proj2 (N.leb_le _ _)), (proj2 (N.ltb_lt _ _)) by lia. cbn [andb]. f_equal. lia.
  - intros o' b' Hd [Hc' Hb']. split; [lia|]. intros k Hk. rewrite Hb.
    destruct (N.leb_spec o (o' + N.of_nat k)), (N.ltb_spec (o' + N.of_nat k) (o + N.of_nat (length b))); cbn [andb]; try (by apply Hb'); lia.
Qed.

Lemma sync_holds d d' o b : dinv d → dsafe d → dev_sync d = Some d' → holds d' o b ↔ holds d o b.
Proof.
  intros Hi Hs Hy. destruct (sync_spec _ _ Hi Hs Hy) as (_ & Hc & Hb). unfold holds. rewrite Hc.
  split; intros [H1 H2]; (split; [done|]); intros k Hk; [rewrite <- Hb|rewrite Hb]; by apply H2.
Qed.

End ranges.

(** ** Runs *)
Inductive dev_op := DWrite (offset : N) (src : bytes) | DSync.

Section runs.
Context {D : Type} `{!BlockDevice D} `{!BlockDeviceLaws D}.

Definition dev_step (o : dev_op) (d : D) : option D := match o with DWrite off src => dev_write off src d | DSync => dev_sync d end.

Fixpoint dev_run (ops : list dev_op) (d : D) : option D :=
  match ops with [] => Some d | o :: ops => match dev_step o d with Some d => dev_run ops d | None => None end end.

(** The array the device stands for. *)
Definition array_step (o : dev_op) (a : N → byte) : N → byte :=
  match o with
  | DWrite off src => λ i, if (off <=? i) && (i <? off + N.of_nat (length src)) then nth (N.to_nat (i - off)) src x00 else a i
  | DSync => a
  end.

(** Every sync of the run finds an overlay it can sort. *)
Fixpoint syncs_safe (ops : list dev_op) (d : D) : Prop :=
  match ops with
  | [] => True
  | o :: ops => (o = DSync → dsafe d) ∧ match dev_step o d with Some d => syncs_safe ops d | None => True end
  end.

Lemma dev_run_array ops d d' : dinv d → syncs_safe ops d → dev_run ops d = Some d' →
  dinv d' ∧ dcap d <= dcap d' ∧ ∀ i, dbyte d' i = fold_left (λ a o, array_step o a) ops (dbyte d) i.
Proof.
  assert (∀ ops (a b : N → byte), (∀ i, a i = b i) → ∀ i, fold_left (λ a o, array_step o a) ops a i = fold_left (λ a o, array_step o a) ops b i) as Hext.
  { intros ops'. induction ops' as [|o ops' IH]; intros a b Hab i; [apply Hab|]. cbn [fold_left]. apply IH. intros j.
    destruct o; cbn [array_step]; [|apply Hab]. by destruct (_ && _). }
  revert d. induction ops as [|o ops IH]; intros d Hi Hs Hr; cbn [dev_run] in Hr; [simplify_eq; by split_and!|].
  cbn [syncs_safe] in Hs. destruct Hs as [Hsafe Hs]. destruct (dev_step o d) as [d1|] eqn:E; [|done].
  assert (dinv d1 ∧ dcap d <= dcap d1 ∧ ∀ i, dbyte d1 i = array_step o (dbyte d) i) as (Hi1 & Hc1 & Hb1).
  { destruct o as [off src|]; cbn [dev_step] in E.
    - destruct (write_spec _ _ _ _ Hi E) as (H1 & H2 & _ & H3). by split_and!.
    - destruct (sync_spec _ _ Hi (Hsafe eq_refl) E) as (H1 & H2 & H3). split_and!; [done|lia|done]. }
  destruct (IH d1 Hi1 Hs Hr) as (H1 & H2 & H3). split_and!; [done|lia|]. intros i. rewrite H3. cbn [fold_left]. by apply Hext.
Qed.


End runs.


Lemma entry_byte_in o (b : bytes) i k old : i = o + N.of_nat k → (k < length b)%nat → entry_byte (o, b) i old = nth k b x00.
Proof.
  intros -> Hk. unfold entry_byte, entry_end. cbn [fst snd]. rewrite (proj2 (N.leb_le _ _)), (proj2 (N.ltb_lt _ _)) by lia.
  cbn [andb]. f_equal. lia.
Qed.

(** [b2] at [o2], then [b1] at [o1] below it. *)
Definition two_writes (cap o1 o2 : N) (b1 b2 : bytes) : FileDevice := mkFile (replicate (N.to_nat cap) x00) 0 [(o2, b2); (o1, b1)] cap.

Lemma two_writes_run cap o1 o2 b1 b2 :
  o1 < o2 → o1 + N.of_nat (length b1) < o2 + N.of_nat (length b2) → o2 + N.of_nat (length b2) <= cap →
  dev_run [DWrite o2 b2; DWrite o1 b1] (file_create cap) = Some (two_writes cap o1 o2 b1 b2).
Proof.
  intros Ho He Hc. cbn [dev_run dev_step dev_write file_device]. unfold file_write at 1. cbn [capacity file_create].
  destruct (N.ltb_spec cap (o2 + N.of_nat (length b2))); [lia|]. cbn [overlay file_create]. rewrite filter_nil. cbn [app].
  unfold file_write. cbn [capacity]. destruct (N.ltb_spec cap (o1 + N.of_nat (length b1))); [lia|]. cbn [overlay file durable_len].
  rewrite filter_cons_True, filter_nil; [done|]. unfold entry_end. cbn [fst snd]. lia.
Qed.

Lemma two_writes_inv cap o1 o2 b1 b2 d' (d := two_writes cap o1 o2 b1 b2) :
  o1 < o2 → o1 + N.of_nat (length b1) < o2 + N.of_nat (length b2) → o2 + N.of_nat (length b2) <= cap → file_sync d = Some d' →
  file_dev_inv d ∧ file_dev_inv d' ∧
  ∀ k, dbyte d' k = entry_byte (o2, b2) k (entry_byte (o1, b1) k (nth (N.to_nat k) (file d) x00)).
Proof.
  intros Ho He Hc [= <-].
  assert (file_dev_inv d) as Hd.
  { split_and!; [cbn [file d two_writes capacity]; rewrite length_replicate; lia|apply N.le_0_l|]. unfold entry_end. cbn [overlay d two_writes capacity].
    repeat constructor; cbn [fst snd]; lia. }
  split_and!; [done|destruct Hd as (Hd1 & Hd0 & Hd2); split_and!; [|apply fold_max_le; [done|by rewrite sort_by_offset_perm]|constructor]|].
  - cbn [file capacity]. rewrite length_fold_write_at; [done|]. rewrite sort_by_offset_perm. change (Forall (λ e, entry_end e <= N.of_nat (length (file d))) (overlay d)). by rewrite Hd1.
  - intros k. cbn [dbyte file_laws overlay file]. rewrite fold_write_at. unfold sort_by_offset.
    cbn [d two_writes overlay fold_left insert_by_offset fst]. rewrite (proj2 (N.ltb_lt _ _)) by done. done.
Qed.

(** Sorting the overlay by offset can undo a write. Write [b2] at [o2], then
    [b1] at a lower offset so that it runs into [b2] and ends inside it: reads
    return [b1], but after the sync the bytes of [b2] are back and [b1] no
    longer reads. *)
Theorem sync_undoes_write (cap o1 o2 : N) (b1 b2 : bytes) (j : nat) :
  o1 < o2 → o2 + N.of_nat j < o1 + N.of_nat (length b1) → o1 + N.of_nat (length b1) < o2 + N.of_nat (length b2) → o2 + N.of_nat (length b2) <= cap →
  nth j b2 x00 ≠ nth (N.to_nat (o2 - o1) + j) b1 x00 →
  ∃ d d', dev_run [DWrite o2 b2; DWrite o1 b1] (file_create cap) = Some d ∧ dev_sync d = Some d' ∧
    dev_read o1 (N.of_nat (length b1)) d = Some b1 ∧ dev_read o2 (N.of_nat (length b2)) d' = Some b2 ∧
    dev_read o1 (N.of_nat (length b1)) d' ≠ Some b1.
Proof.
  intros Ho Hj He Hc Hne. set (d := two_writes cap o1 o2 b1 b2). destruct (file_sync d) as [d'|] eqn:Hs; [|done].
  destruct (two_writes_inv cap o1 o2 b1 b2 d') as (Hd & Hd' & Hb'); [lia..|done|].
  assert (holds d' o2 b2) as H2.
  { split; [injection Hs as <-; done|]. intros k Hk. rewrite Hb'. by apply entry_byte_in. }
  exists d, d'. split_and!; [by apply two_writes_run|done|..].
  - apply holds_read; [done|]. split; [cbn [dcap file_laws d two_writes capacity]; lia|]. intros k Hk. by apply entry_byte_in.
  - by apply holds_read.
  - intros [_ H1]%holds_read; [|done]. apply Hne. rewrite <- (proj2 H2 j) by lia. rewrite <- H1 by lia. f_equal. lia.
Qed.

Lemma sync_undoes_write_witness :
  ∃ d d', dev_run [DWrite 2 [x01; x02; x03]; DWrite 1 [x04; x05]] (file_create 8) = Some d ∧ dev_sync d = Some d' ∧
    dev_read 1 2 d = Some [x04; x05] ∧ dev_read 2 3 d' = Some [x01; x02; x03] ∧ dev_read 1 2 d' ≠ Some [x04; x05].
Proof. apply (sync_undoes_write 8 1 2 [x04; x05] [x01; x02; x03] 0); cbn; try lia. discriminate. Defined.
