(* ===== verification/StoreModel.v ===== *)
(** * The zoned extent store ([lionfs-cluster/src/store.rs])

    Geometry, superblocks, checkpoints, the segment-respecting allocator,
    extent reads and writes, and the segment cleaner, over any device of
    Devices.v. bincode, CRC-32 and zstd are arguments; BLAKE3 is [Hashing]. *)
From S2P Require Import Prelude ClusterCore Devices.
From Stdlib Require Import NArith ZArith Lia Strings.Byte.
From stdpp Require Import base numbers gmap option list sorting.
#[local] Open Scope N_scope.

#[local] Abbreviation bytes := (list byte).

Inductive StoreError :=
  | SIo | NoValidSuperblock | ZoneOutOfRange (z : N) | ChecksumMismatch (stored computed : N) | Full (n : nat) | Decompress | SCorrupt.

(** ** Superblock and geometry *)
Definition SB_MAGIC : N := 1212569393.
Definition SB_COPY_SIZE : N := 4096.
Definition SB_COPIES : N := 3.

Record CheckpointRef := mkCkpt { ck_offset : N; ck_len : N; ck_crc : N }.
Definition ckpt_default : CheckpointRef := mkCkpt 0 0 0.

Record Superblock := mkSb { magic : N; version : N; sb_epoch : N; sb_root : N; sb_checkpoint : CheckpointRef }.

#[export] Instance ckpt_eq_dec : EqDecision CheckpointRef.
Proof. solve_decision. Defined.
#[export] Instance sb_eq_dec : EqDecision Superblock.
Proof. solve_decision. Defined.

Record StoreGeometry := mkGeo { zone_count : N; zone_size : N; segment_size : N }.

Definition zone_map_size : N := 4096.
Definition checkpoint_area_size : N := 8 * 1024 * 1024.
Definition checkpoint_offset : N := SB_COPY_SIZE * SB_COPIES + zone_map_size.
Definition data_start : N := SB_COPY_SIZE * SB_COPIES + zone_map_size + checkpoint_area_size.

Definition zone_offset (g : StoreGeometry) (z : N) : StoreError + N :=
  if zone_count g <=? z then inl (ZoneOutOfRange z) else inr (data_start + z * zone_size g).

Definition total_size (g : StoreGeometry) : N := data_start + zone_count g * zone_size g.

Record SegmentMeta := mkSeg { sg_zone : N; segment_index : N; extents : list (ExtentDescriptor * N); closed_at_secs : N }.

Record SegmentInfo := mkInfo { seg_idx : nat; si_zone : N; si_index : N; total_bytes : N; live_bytes : N; has_ec_extents : bool }.

Record CleanReport := mkReport { extents_moved : N; bytes_moved : N; bytes_reclaimed : N }.

Record StoreState := mkState {
  st_cursors : list N; st_closed : list SegmentMeta; st_refcounts : list (N * N); st_free : list (list (N * N))
}.

Record Store (D : Type) := mkStore {
  device : D; geo : StoreGeometry; open_segments : list (option SegmentMeta); closed_segments : list SegmentMeta;
  zone_cursors : list N; refcounts : gmap N N; free_lists : list (list (N * N)); epoch : N; root : N; ckpt : CheckpointRef
}.
Arguments mkStore {D}.
Arguments device {D}.
Arguments geo {D}.
Arguments open_segments {D}.
Arguments closed_segments {D}.
Arguments zone_cursors {D}.
Arguments refcounts {D}.
Arguments free_lists {D}.
Arguments epoch {D}.
Arguments root {D}.
Arguments ckpt {D}.

(** bincode for the two headers, CRC-32, zstd at level 3. *)
Class StoreCodec := {
  ser_sb : Superblock → bytes; de_sb : bytes → option Superblock;
  ser_geo : StoreGeometry → bytes; de_geo : bytes → option StoreGeometry;
  crc : bytes → N;
  zstd_encode : bytes → option bytes; zstd_decode : bytes → option bytes
}.

(** Fields within their widths. *)
Definition sb_ok (sb : Superblock) : Prop :=
  magic sb < two32 ∧ version sb < two32 ∧ sb_epoch sb < two64 ∧ sb_root sb < 2 ^ 256 ∧ ck_offset (sb_checkpoint sb) < two64 ∧
  ck_len (sb_checkpoint sb) < two32 ∧ ck_crc (sb_checkpoint sb) < two32.

Definition geo_widths (g : StoreGeometry) : Prop := zone_count g < two32 ∧ zone_size g < two64 ∧ segment_size g < two32.

(** What bincode and CRC-32 do: the headers are read back and fit their
    blocks, a checksum has 32 bits. *)
Class StoreCodecLaws `{!StoreCodec} := {
  de_ser_sb : ∀ sb, sb_ok sb → de_sb (ser_sb sb) = Some sb;
  sb_fits : ∀ sb, (16 + length (ser_sb sb) ≤ 4096)%nat;
  de_ser_geo : ∀ g, geo_widths g → de_geo (ser_geo g) = Some g;
  geo_fits : ∀ g, (8 + length (ser_geo g) ≤ 4096)%nat;
  crc_small : ∀ b, crc b < two32
}.

(** ** Segments *)
Definition fits_one_segment (seg off len : N) : bool := off / seg =? wsub32 (wadd32 off len) 1 / seg.

(** The first range of a free list the payload fits: its index and offset. *)
Fixpoint find_range (seg payload_len : N) (ri : nat) (l : list (N * N)) : option (nat * N) :=
  match l with
  | [] => None
  | (off, len) :: l =>
      if (payload_len <=? len) && fits_one_segment seg off payload_len then Some (ri, off) else find_range seg payload_len (S ri) l
  end.

Fixpoint find_free (seg payload_len : N) (zone : nat) (ls : list (list (N * N))) : option (nat * nat * N) :=
  match ls with
  | [] => None
  | l :: ls =>
      match find_range seg payload_len 0 l with
      | Some (ri, off) => Some (zone, ri, off)
      | None => find_free seg payload_len (S zone) ls
      end
  end.

(** Carve the payload from the front of range [ri]. *)
Definition carve (payload_len : N) (ri : nat) (l : list (N * N)) : list (N * N) :=
  match l !! ri with
  | Some (off, len) =>
      let remaining := len - payload_len in
      if remaining =? 0 then delete ri l else <[ri := (wadd32 off payload_len, remaining)]> l
  | None => l
  end.

(** The round-robin loop: the zone and its new cursor. *)
Fixpoint pick_zone (n : nat) (i : N) (g : StoreGeometry) (ep : N) (cursors : list N) (payload_len : N) : option (nat * N) :=
  match n with
  | O => None
  | S n =>
      let zone := N.to_nat (wadd64 ep i mod zone_count g) in
      let cursor := nth zone cursors 0 in
      let continue := pick_zone n (i + 1) g ep cursors payload_len in
      if zone_size g <? cursor + payload_len then continue
      else if fits_one_segment (segment_size g) (wrap32 cursor) payload_len then Some (zone, cursor + payload_len)
      else
        let next_seg := (cursor / segment_size g + 1) * segment_size g in
        if zone_size g <? next_seg + payload_len then continue else Some (zone, next_seg + payload_len)
  end.

Section store.
Context {D : Type} `{!BlockDevice D} `{!StoreCodec} `{!Hashing}.

(** Field updates. *)
Definition with_device (d : D) (s : Store D) : Store D :=
  mkStore d (geo s) (open_segments s) (closed_segments s) (zone_cursors s) (refcounts s) (free_lists s) (epoch s) (root s) (ckpt s).
Definition with_free (f : list (list (N * N))) (s : Store D) : Store D :=
  mkStore (device s) (geo s) (open_segments s) (closed_segments s) (zone_cursors s) (refcounts s) f (epoch s) (root s) (ckpt s).
Definition with_cursors (c : list N) (s : Store D) : Store D :=
  mkStore (device s) (geo s) (open_segments s) (closed_segments s) c (refcounts s) (free_lists s) (epoch s) (root s) (ckpt s).
Definition with_segments (o : list (option SegmentMeta)) (c : list SegmentMeta) (s : Store D) : Store D :=
  mkStore (device s) (geo s) o c (zone_cursors s) (refcounts s) (free_lists s) (epoch s) (root s) (ckpt s).

(** ** Extents *)
Definition encode_payload (data : bytes) (compress : bool) : bytes * CompressionType :=
  if compress then
    match zstd_encode data with
    | Some z => if (length z <? length data)%nat then (z, Zstd) else (data, ClusterCore.Store)
    | None => (data, ClusterCore.Store)
    end
  else (data, ClusterCore.Store).

(** The zone and offset of a new extent. *)
Definition allocate (payload_len : N) (s : Store D) : option (nat * N) * Store D :=
  match find_free (segment_size (geo s)) payload_len 0 (free_lists s) with
  | Some (zone, ri, off) =>
      (Some (zone, off), with_free (alter (carve payload_len ri) zone (free_lists s)) s)
  | None =>
      match pick_zone (N.to_nat (zone_count (geo s))) 0 (geo s) (epoch s) (zone_cursors s) payload_len with
      | Some (zone, cursor) => (Some (zone, wsub32 (wrap32 cursor) payload_len), with_cursors (<[zone := cursor]> (zone_cursors s)) s)
      | None => (None, s)
      end
  end.

(** Record the extent in the zone's open segment, rotating it if the extent is
    in another one. *)
Definition track (zone : nat) (desc : ExtentDescriptor) (hash : N) (s : Store D) : Store D :=
  let seg_index := offset_in_zone desc / segment_size (geo s) in
  let fresh := mkSeg (zone_id desc) seg_index [] 0 in
  let segment := default fresh (mjoin (open_segments s !! zone)) in
  if segment_index segment =? seg_index
  then with_segments (<[zone := Some (mkSeg (sg_zone segment) (segment_index segment) (extents segment ++ [(desc, hash)]) (closed_at_secs segment))]>
                        (open_segments s)) (closed_segments s) s
  else with_segments (<[zone := Some (mkSeg (zone_id desc) seg_index [(desc, hash)] 0)]> (open_segments s))
         (closed_segments s ++ [mkSeg (sg_zone segment) (segment_index segment) (extents segment) 1]) s.

Definition write_extent (data : bytes) (hash : N) (compress : bool) (s : Store D) : (StoreError + ExtentDescriptor) * Store D :=
  let '(payload, comp) := encode_payload data compress in
  let payload_len := N.of_nat (length payload) mod two32 in
  match allocate payload_len s with
  | (None, s) => (inl (Full (length payload)), s)
  | (Some (zone, off), s) =>
      match zone_offset (geo s) (N.of_nat zone) with
      | inl e => (inl e, s)
      | inr base =>
          match dev_write (base + off) payload (device s) with
          | None => (inl SIo, s)
          | Some d =>
              let desc := mkDesc (prefix_u64 hash) (N.of_nat zone) off payload_len 0 (compression_to_u8 comp) 0 in
              (inr desc, track zone desc hash (with_device d s))
          end
      end
  end.

Definition read_raw (zone off len : N) (s : Store D) : StoreError + bytes :=
  match zone_offset (geo s) zone with
  | inl e => inl e
  | inr base => match dev_read (base + off) len (device s) with Some b => inr b | None => inl SIo end
  end.

Definition write_raw (zone off : N) (data : bytes) (s : Store D) : (StoreError + unit) * Store D :=
  match zone_offset (geo s) zone with
  | inl e => (inl e, s)
  | inr base => match dev_write (base + off) data (device s) with Some d => (inr tt, with_device d s) | None => (inl SIo, s) end
  end.

Definition decode_payload (c : CompressionType) (raw : bytes) : StoreError + bytes :=
  match c with
  | ClusterCore.Store => inr raw
  | Zstd => match zstd_decode raw with Some b => inr b | None => inl Decompress end
  end.

Definition read_extent (desc : ExtentDescriptor) (s : Store D) : StoreError + bytes :=
  match read_raw (zone_id desc) (offset_in_zone desc) (dlength desc) s with
  | inl e => inl e
  | inr raw => decode_payload (compression_from_u8 (compression_type desc)) raw
  end.

Definition verify_extent (desc : ExtentDescriptor) (hash : N) (s : Store D) : StoreError + unit :=
  match read_extent desc s with
  | inl e => inl e
  | inr data =>
      let computed := hash_of data in
      if negb (computed =? hash) then inl (ChecksumMismatch hash computed)
      else if negb (content_hash_prefix desc =? prefix_u64 hash) then inl (ChecksumMismatch hash computed)
      else inr tt
  end.

(** ** Reference counts and saved state *)
Definition refcount (hash : N) (s : Store D) : N := default 0 (refcounts s !! hash).

(** [as i64] *)
Definition as_i64 (x : N) : Z := if x <? 2 ^ 63 then Z.of_N x else (Z.of_N x - 2 ^ 64)%Z.

Definition refcount_add (hash : N) (delta : Z) (s : Store D) : Store D :=
  let v := Z.to_N (Z.max (as_i64 (refcount hash s) + delta) 0) in
  mkStore (device s) (geo s) (open_segments s) (closed_segments s) (zone_cursors s) (<[hash := v]> (refcounts s)) (free_lists s)
    (epoch s) (root s) (ckpt s).

Definition state (s : Store D) : StoreState := mkState (zone_cursors s) (closed_segments s) (map_to_list (refcounts s)) (free_lists s).

Definition restore (st : StoreState) (s : Store D) : (StoreError + unit) * Store D :=
  if negb (N.of_nat (length (st_cursors st)) =? zone_count (geo s)) || negb (N.of_nat (length (st_free st)) =? zone_count (geo s))
  then (inl SCorrupt, s)
  else (inr tt, mkStore (device s) (geo s) (open_segments s) (st_closed st) (st_cursors st) (list_to_map (rev (st_refcounts st))) (st_free st)
                  (epoch s) (root s) (ckpt s)).

Definition bump_cursors_past (descs : list ExtentDescriptor) (s : Store D) : Store D :=
  with_cursors (fold_left (λ c d, alter (N.max (offset_in_zone d + dlength d)) (N.to_nat (zone_id d)) c) descs (zone_cursors s)) s.

Definition free_bytes (s : Store D) : N := fold_right N.add 0 (map snd (concat (free_lists s))).

Definition segment_info (s : Store D) (i : nat) (seg : SegmentMeta) : SegmentInfo :=
  mkInfo i (sg_zone seg) (segment_index seg)
    (fold_left (λ n e, n + dlength (fst e)) (extents seg) 0)
    (fold_left (λ n e, if 0 <? refcount (snd e) s then n + dlength (fst e) else n) (extents seg) 0)
    (existsb (λ e, negb (ecc_group_id (fst e) =? 0)) (extents seg)).

Definition segment_infos (s : Store D) : list SegmentInfo := imap (segment_info s) (closed_segments s).

(** ** The cleaner *)

(** Rewrite the live extents of a segment; the first error ends it. *)
Fixpoint move_live (l : list (ExtentDescriptor * N)) (s : Store D) (report : CleanReport) (moves : list (N * ExtentDescriptor))
    : (StoreError + (CleanReport * list (N * ExtentDescriptor))) * Store D :=
  match l with
  | [] => (inr (report, moves), s)
  | (desc, hash) :: l =>
      if refcount hash s =? 0 then move_live l s report moves
      else if negb (ecc_group_id desc =? 0) then (inl SCorrupt, s)
      else match read_extent desc s with
           | inl e => (inl e, s)
           | inr data =>
               match write_extent data hash false s with
               | (inl e, s) => (inl e, s)
               | (inr new_desc, s) =>
                   move_live l s (mkReport (extents_moved report + 1) (bytes_moved report + dlength desc) (bytes_reclaimed report))
                     (moves ++ [(hash, new_desc)])
               end
           end
  end.

(** The parts of [seg_lo, seg_hi) that the live extents of a segment cover. *)
Definition live_ranges (s : Store D) (seg_lo seg_hi : N) (m : SegmentMeta) : list (N * N) :=
  omap (λ e, let lo := offset_in_zone (fst e) in
             let hi := lo + dlength (fst e) in
             if (refcount (snd e) s =? 0) then None
             else if (seg_lo <? hi) && (lo <? seg_hi) then Some (N.max lo seg_lo, N.min hi seg_hi) else None) (extents m).

End store.

(** [sort_unstable] on pairs. *)
Definition pair_le (x y : N * N) : Prop := fst x < fst y ∨ (fst x = fst y ∧ snd x <= snd y).
#[export] Instance pair_le_dec : RelDecision pair_le.
Proof. intros x y. unfold pair_le. apply _. Defined.

(** The loop that merges sorted ranges; [last] is the range being grown. *)
Fixpoint merge_ranges (last : option (N * N)) (l : list (N * N)) : list (N * N) :=
  match l with
  | [] => match last with Some r => [r] | None => [] end
  | (lo, hi) :: l =>
      match last with
      | Some (a, b) => if lo <=? b then merge_ranges (Some (a, N.max b hi)) l else (a, b) :: merge_ranges (Some (lo, hi)) l
      | None => merge_ranges (Some (lo, hi)) l
      end
  end.

(** The gaps between merged ranges from [cursor] to [seg_hi], as (offset,
    length). *)
Fixpoint gaps (cursor seg_hi : N) (merged : list (N * N)) : list (N * N) :=
  match merged with
  | [] => if cursor <? seg_hi then [(wrap32 cursor, wrap32 (seg_hi - cursor))] else []
  | (lo, hi) :: merged =>
      if cursor <? lo then (wrap32 cursor, wrap32 (lo - cursor)) :: gaps (N.max cursor hi) seg_hi merged
      else gaps (N.max cursor hi) seg_hi merged
  end.

(** [Vec::swap_remove] *)
Definition swap_remove {A} (i : nat) (l : list A) : list A :=
  match list.last l with
  | Some x => take (length l - 1) (<[i := x]> l)
  | None => l
  end.

Section clean.
Context {D : Type} `{!BlockDevice D} `{!StoreCodec} `{!Hashing}.

Definition dead_ranges (s : Store D) (i : nat) (seg : SegmentMeta) : list (N * N) :=
  let seg_lo := segment_index seg * segment_size (geo s) in
  let seg_hi := seg_lo + segment_size (geo s) in
  let metas := option_list (mjoin (open_segments s !! N.to_nat (sg_zone seg))) ++ delete i (closed_segments s) in
  gaps seg_lo seg_hi (merge_ranges None (merge_sort pair_le (concat (map (live_ranges s seg_lo seg_hi) metas)))).

Definition clean_segment (i : nat) (s : Store D) : (StoreError + (CleanReport * list (N * ExtentDescriptor))) * Store D :=
  match closed_segments s !! i with
  | None => (inl (ZoneOutOfRange (two32 - 1)), s)
  | Some seg =>
      match move_live (extents seg) s (mkReport 0 0 0) [] with
      | (inl e, s) => (inl e, s)
      | (inr (report, moves), s) =>
          let dead := dead_ranges s i seg in
          let s := with_free (alter (λ l, l ++ dead) (N.to_nat (sg_zone seg)) (free_lists s)) s in
          let s := with_segments (open_segments s) (swap_remove i (closed_segments s)) s in
          (inr (mkReport (extents_moved report) (bytes_moved report) (fold_left (λ n r, n + snd r) dead (bytes_reclaimed report)), moves), s)
      end
  end.

(** ** Superblocks and checkpoints *)
Definition sb_frame (sb : Superblock) : bytes :=
  let body := ser_sb sb in
  be_bytes 4 (N.of_nat (length body) mod two32) ++ be_bytes 4 (crc body) ++ be_bytes 8 (sb_epoch sb) ++ body.

Definition write_sb_copy (i : N) (sb : Superblock) (d : D) : option D := dev_write (i * SB_COPY_SIZE) (sb_frame sb) d.

Definition read_sb_copy (d : D) (i : N) : option Superblock :=
  match dev_read (i * SB_COPY_SIZE) SB_COPY_SIZE d with
  | None => None
  | Some raw =>
      if (length raw <? 16)%nat then None
      else
        let len := N.to_nat (of_be (take 4 raw)) in
        let c := of_be (take 4 (drop 4 raw)) in
        if (length raw <? 16 + len)%nat then None
        else
          let body := take len (drop 16 raw) in
          if negb (crc body =? c) then None
          else match de_sb body with
               | Some sb => if negb (magic sb =? SB_MAGIC) then None else Some sb
               | None => None
               end
  end.

Definition write_geometry (g : StoreGeometry) (d : D) : option D :=
  let body := ser_geo g in
  dev_write (SB_COPY_SIZE * SB_COPIES) (be_bytes 4 (N.of_nat (length body) mod two32) ++ be_bytes 4 (crc body) ++ body) d.

Definition read_geometry (d : D) : StoreError + StoreGeometry :=
  match dev_read (SB_COPY_SIZE * SB_COPIES) 4096 d with
  | None => inl SIo
  | Some raw =>
      if (length raw <? 8)%nat then inl NoValidSuperblock
      else
        let len := N.to_nat (of_be (take 4 raw)) in
        let c := of_be (take 4 (drop 4 raw)) in
        if (length raw <? 8 + len)%nat then inl NoValidSuperblock
        else
          let body := take len (drop 8 raw) in
          if negb (crc body =? c) then inl NoValidSuperblock
          else match de_geo body with
               | Some g => if (zone_count g =? 0) || (zone_size g =? 0) || (segment_size g =? 0) then inl NoValidSuperblock else inr g
               | None => inl NoValidSuperblock
               end
  end.

Definition with_head (e r : N) (c : CheckpointRef) (s : Store D) : Store D :=
  mkStore (device s) (geo s) (open_segments s) (closed_segments s) (zone_cursors s) (refcounts s) (free_lists s) e r c.

(** The loop over the three copies. *)
Fixpoint write_copies (l : list N) (sb : Superblock) (d : D) : option D :=
  match l with
  | [] => Some d
  | i :: l => match write_sb_copy i sb d with Some d => write_copies l sb d | None => None end
  end.

Definition copies : list N := [0; 1; 2].

(** [None] is an I/O error. *)
Definition write_superblock (r : N) (c : CheckpointRef) (s : Store D) : option (Store D) :=
  let s := with_head (wadd64 (epoch s) 1) r c s in
  let sb := mkSb SB_MAGIC 1 (epoch s) r c in
  match write_copies copies sb (device s) with
  | None => None
  | Some d => match dev_sync d with Some d => Some (with_device d s) | None => None end
  end.

Definition write_checkpoint_blob (blob : bytes) (s : Store D) : option (CheckpointRef * Store D) :=
  let framed := be_bytes 4 (N.of_nat (length blob) mod two32) ++ be_bytes 4 (crc blob) ++ blob in
  match dev_write checkpoint_offset framed (device s) with
  | None => None
  | Some d => Some (mkCkpt checkpoint_offset (N.of_nat (length blob) mod two32) (crc blob), with_device d s)
  end.

Definition checkpoint (r : N) (blob : bytes) (s : Store D) : option (Store D) :=
  match write_checkpoint_blob blob s with
  | None => None
  | Some (c, s) => write_superblock r c s
  end.

Definition checkpoint_noop (r : N) (s : Store D) : option (Store D) := write_superblock r (ckpt s) s.

Definition load_checkpoint (s : Store D) : N * bytes :=
  let c := ckpt s in
  (root s,
   if 0 <? ck_len c
   then match dev_read (ck_offset c + 8) (ck_len c) (device s) with
        | Some b => if crc b =? ck_crc c then b else []
        | None => []
        end
   else []).

Definition fresh_store (d : D) (g : StoreGeometry) (e r : N) (c : CheckpointRef) : Store D :=
  let n := N.to_nat (zone_count g) in
  mkStore d g (replicate n None) [] (replicate n 0) ∅ (replicate n []) e r c.

Definition format (d : D) (zones zsize ssize : N) : option (Store D) :=
  let g := mkGeo zones zsize ssize in
  let total := total_size g in
  match (if dev_len d <? total then dev_write (total - 1) [x00] d else Some d) with
  | None => None
  | Some d =>
      match write_geometry g d with
      | None => None
      | Some d => write_superblock 0 ckpt_default (fresh_store d g 0 0 ckpt_default)
      end
  end.

(** [max_by_key] keeps the last of the candidates with the highest epoch. *)
Definition newest (l : list Superblock) : option Superblock :=
  fold_left (λ best sb, match best with Some b => if sb_epoch sb <? sb_epoch b then best else Some sb | None => Some sb end) l None.

Definition store_open (d : D) : StoreError + Store D :=
  match newest (omap (read_sb_copy d) copies) with
  | None => inl NoValidSuperblock
  | Some sb =>
      match read_geometry d with
      | inl e => inl e
      | inr g => inr (fresh_store d g (sb_epoch sb) (sb_root sb) (sb_checkpoint sb))
      end
  end.

End clean.
