(* ===== verification/StoreRef.v ===== *)
(** * A reference environment for the extent store

    A sparse device that keeps the contract of Devices.v, a codec that keeps
    the laws the store relies on, and a small geometry: the instances the
    examples about the store are evaluated in. *)
From S2P Require Import Prelude ClusterCore Devices StoreModel.
From Stdlib Require Import NArith ZArith Lia Strings.Byte.
From stdpp Require Import base numbers gmap option list sorting.
#[local] Open Scope N_scope.

#[local] Abbreviation bytes := (list byte).

(** ** A device that stores its writes *)
Record SparseDevice := mkSparse { sp_cap : N; writes : list (N * bytes) }.

Definition sparse_write (o : N) (b : bytes) (d : SparseDevice) : option SparseDevice :=
  if sp_cap d <? o + N.of_nat (length b) then None else Some (mkSparse (sp_cap d) (writes d ++ [(o, b)])).

Definition sparse_read (o n : N) (d : SparseDevice) : option bytes :=
  if o + n <=? sp_cap d then Some (map (λ k, overlay_byte (writes d) (o + N.of_nat k) x00) (seq 0 (N.to_nat n))) else None.

#[export] Instance sparse_device : BlockDevice SparseDevice :=
  {| dev_write := sparse_write; dev_read := sparse_read; dev_sync d := Some d; dev_len := sp_cap |}.

#[export] Program Instance sparse_laws : BlockDeviceLaws SparseDevice := {|
  dbyte d i := overlay_byte (writes d) i x00; dcap := sp_cap; dinv _ := True; dsafe _ := True |}.
Next Obligation. done. Qed.
Next Obligation.
  intros d o b d' _. cbn [dev_write sparse_device]. unfold sparse_write. destruct (N.ltb_spec (sp_cap d) (o + N.of_nat (length b))); [done|].
  intros [= <-]. split_and!; [done|cbn; lia|cbn; lia|]. intros i. cbn [writes]. rewrite overlay_byte_app. done.
Qed.
Next Obligation. intros d o b _ Hle. cbn [dev_write sparse_device]. unfold sparse_write. cbn in Hle. rewrite (proj2 (N.ltb_ge _ _) Hle). by eexists. Qed.
Next Obligation. intros d d' _ _ [= <-]. done. Qed.
Next Obligation. intros d _. by eexists. Qed.
Next Obligation. intros d _. cbn. lia. Qed.

(** ** A codec *)

(** Run-length compression of constant data. *)
Definition rle_encode (d : bytes) : option bytes :=
  match d with
  | b :: _ => if bool_decide (d = replicate (length d) b) && (length d <? 256)%nat then Some [b; byte_of_N (N.of_nat (length d))] else None
  | [] => None
  end.

Definition rle_decode (z : bytes) : option bytes :=
  match z with [b; n] => Some (replicate (N.to_nat (Byte.to_N n)) b) | _ => None end.

Lemma rle_law d z : rle_encode d = Some z → rle_decode z = Some d.
Proof.
  destruct d as [|b d]; [done|]. unfold rle_encode. set (l := b :: d).
  destruct (bool_decide_reflect (l = replicate (length l) b)) as [He|]; [|done].
  destruct (Nat.ltb_spec (length l) 256) as [Hl|]; [|done]. intros [= <-]. cbn [rle_decode]. unfold l in Hl. cbn [length] in Hl.
  rewrite to_N_of_N, N.mod_small, Nat2N.id by lia. f_equal. symmetry. exact He.
Qed.

Definition enc_sb (sb : Superblock) : bytes :=
  be_bytes 4 (magic sb) ++ be_bytes 4 (version sb) ++ be_bytes 8 (sb_epoch sb) ++ be_bytes 32 (sb_root sb) ++
  be_bytes 8 (ck_offset (sb_checkpoint sb)) ++ be_bytes 4 (ck_len (sb_checkpoint sb)) ++ be_bytes 4 (ck_crc (sb_checkpoint sb)).

Definition dec_sb (b : bytes) : option Superblock :=
  if (length b =? 64)%nat
  then Some (mkSb (field b 0 4) (field b 4 4) (field b 8 8) (field b 16 32) (mkCkpt (field b 48 8) (field b 56 4) (field b 60 4)))
  else None.

(** CRC-32 stands in as a checksum of 32 bits. *)
Definition checksum (b : bytes) : N := wrap32 (fold_left (λ n x, 31 * n + Byte.to_N x) b 7).

Definition enc_geo (g : StoreGeometry) : bytes := be_bytes 4 (zone_count g) ++ be_bytes 8 (zone_size g) ++ be_bytes 4 (segment_size g).

Definition dec_geo (b : bytes) : option StoreGeometry :=
  if (length b =? 16)%nat then Some (mkGeo (field b 0 4) (field b 4 8) (field b 12 4)) else None.

#[export] Instance ref_codec : StoreCodec :=
  {| ser_sb := enc_sb; de_sb := dec_sb; ser_geo := enc_geo; de_geo := dec_geo; crc := checksum; zstd_encode := rle_encode; zstd_decode := rle_decode |}.

(** Reads the fields of a concatenation of fixed-width numbers. *)
Ltac read_fields :=
  repeat match goal with
  | |- context [field (be_bytes ?k ?x ++ ?r) 0 ?k] => rewrite (be_field_here k x r) by assumption
  | |- context [field (be_bytes ?k ?x ++ ?r) ?i ?n] => rewrite (be_field_skip k x r i n) by lia; cbn [Nat.sub]
  end.

#[export] Instance ref_codec_laws : StoreCodecLaws.
Proof.
  constructor.
  - intros sb (H1 & H2 & H3 & H4 & H5 & H6 & H7). cbn [de_sb ser_sb ref_codec]. unfold dec_sb.
    assert (length (enc_sb sb) = 64%nat) as -> by (unfold enc_sb; by rewrite !length_app, !length_be_bytes). cbn [Nat.eqb].
    unfold enc_sb. rewrite <- (app_nil_r (be_bytes 4 (ck_crc _))).
    change two32 with (256 ^ N.of_nat 4) in *. change two64 with (256 ^ N.of_nat 8) in *. change (2 ^ 256) with (256 ^ N.of_nat 32) in *.
    read_fields. destruct sb as [? ? ? ? []]. done.
  - intros sb. cbn [ser_sb ref_codec]. unfold enc_sb. rewrite !length_app, !length_be_bytes. lia.
  - intros g (H1 & H2 & H3). cbn [de_geo ser_geo ref_codec]. unfold dec_geo.
    assert (length (enc_geo g) = 16%nat) as -> by (unfold enc_geo; by rewrite !length_app, !length_be_bytes). cbn [Nat.eqb].
    unfold enc_geo. rewrite <- (app_nil_r (be_bytes 4 (segment_size _))).
    change two32 with (256 ^ N.of_nat 4) in *. change two64 with (256 ^ N.of_nat 8) in *. read_fields. by destruct g.
  - intros g. cbn [ser_geo ref_codec]. unfold enc_geo. rewrite !length_app, !length_be_bytes. lia.
  - intros b. apply wrap32_lt.
Qed.

(** ** A small store *)
#[export] Instance ref_hashing : Hashing := {| hash_of := checksum; serialize_body b := be_bytes 8 (b_content_hash b) ++ be_bytes 8 (b_timestamp_ns b) |}.

(** Two zones of four segments of sixteen bytes. *)
Definition ref_geo : StoreGeometry := mkGeo 2 64 16.
Definition ref_device : SparseDevice := mkSparse (total_size ref_geo) [].
Definition ref_store : Store SparseDevice := fresh_store ref_device ref_geo 0 0 ckpt_default.
