(* ===== verification/StoreSpec.v ===== *)
(** * What the extent store keeps (allocator and extents of [store.rs])

    The regions the store has given out and the ranges on its free lists never
    overlap and lie below the zone cursors, so every extent written keeps its
    bytes: the invariant, its preservation by [write_extent], and the run of
    writes that follows. *)
From S2P Require Import Prelude ClusterCore Devices StoreModel StoreRef.
From Stdlib Require Import NArith ZArith Lia Strings.Byte.
From stdpp Require Import base numbers gmap option list sorting.
#[local] Open Scope N_scope.

#[local] Abbreviation bytes := (list byte).

(** A byte range of a zone: zone, offset, length. *)
Record region := mkReg { r_zone : N; r_off : N; r_len : N }.

Definition r_end (r : region) : N := r_off r + r_len r.
Definition reg_disj (x y : region) : Prop := r_zone x ≠ r_zone y ∨ r_end x <= r_off y ∨ r_end y <= r_off x.

#[export] Instance reg_disj_sym : Symmetric reg_disj.
Proof. intros x y. unfold reg_disj. lia. Qed.

(** Pairwise disjoint. *)
Fixpoint pairwise (l : list region) : Prop :=
  match l with [] => True | x :: l => Forall (reg_disj x) l ∧ pairwise l end.

Lemma pairwise_app a b : pairwise (a ++ b) ↔ pairwise a ∧ pairwise b ∧ Forall (λ x, Forall (reg_disj x) b) a.
Proof.
  induction a as [|x a IH]; cbn [app pairwise]; [split; [by intros|by intros (_ & ? & _)]|].
  rewrite Forall_app, Forall_cons, IH. tauto.
Qed.

#[export] Instance pairwise_perm : Proper ((≡ₚ) ==> iff) pairwise.
Proof.
  intros a b Hp. induction Hp as [|x a b Hp IH|x y a|a b c _ IH1 _ IH2]; cbn [pairwise].
  - done.
  - by rewrite IH, Hp.
  - rewrite !Forall_cons. split; intros [[? ?] [? ?]]; split_and!; try done; by apply reg_disj_sym.
  - by rewrite IH1.
Qed.

Lemma pairwise_sublist a b : a `sublist_of` b → pairwise b → pairwise a.
Proof.
  induction 1 as [|x a b Hs IH|x a b Hs IH]; cbn [pairwise]; [done|intros [Hx Hb]; split; [|by apply IH]|intros [_ Hb]; by apply IH].
  rewrite Forall_forall in *. intros y Hy. apply Hx. eapply sublist_subseteq; [exact Hs|done].
Qed.

(** Cutting a region in two keeps the rest disjoint. *)
Lemma pairwise_split z o n k l : k <= n → pairwise (mkReg z o n :: l) → pairwise (mkReg z o k :: mkReg z (o + k) (n - k) :: l).
Proof.
  intros Hk [Hx Hl]. cbn [pairwise]. rewrite Forall_cons. split_and!; [right; left; unfold r_end; cbn [r_off r_len]; lia| | |done].
  - eapply Forall_impl; [exact Hx|]. unfold reg_disj, r_end. cbn [r_zone r_off r_len]. intros y. lia.
  - eapply Forall_impl; [exact Hx|]. unfold reg_disj, r_end. cbn [r_zone r_off r_len]. intros y. lia.
Qed.

Lemma pairwise_shrink z o n k l : k <= n → pairwise (mkReg z o n :: l) → pairwise (mkReg z o k :: l).
Proof. intros Hk [Hx Hl]. split; [|done]. eapply Forall_impl; [exact Hx|]. unfold reg_disj, r_end. cbn [r_zone r_off r_len]. intros y. lia. Qed.

(** The ranges on the free lists. *)
Definition zone_ranges (z : N) (l : list (N * N)) : list region := map (λ r, mkReg z (fst r) (snd r)) l.

Fixpoint free_from (z : N) (ls : list (list (N * N))) : list region :=
  match ls with [] => [] | l :: ls => zone_ranges z l ++ free_from (z + 1) ls end.

Definition free_regions (ls : list (list (N * N))) : list region := free_from 0 ls.

Lemma free_from_alter f z k ls l : ls !! k = Some l → ∃ rest,
  free_from z ls ≡ₚ zone_ranges (z + N.of_nat k) l ++ rest ∧ free_from z (alter f k ls) ≡ₚ zone_ranges (z + N.of_nat k) (f l) ++ rest.
Proof.
  revert z k. induction ls as [|l0 ls IH]; intros z [|k] Hk; cbn in Hk; simplify_eq.
  - exists (free_from (z + 1) ls). rewrite N.add_0_r. done.
  - destruct (IH (z + 1) k Hk) as (rest & H1 & H2). exists (zone_ranges z l0 ++ rest).
    change (alter f (S k) (l0 :: ls)) with (l0 :: alter f k ls). cbn [free_from].
    replace (z + N.of_nat (S k)) with (z + 1 + N.of_nat k) by lia. rewrite H1, H2. split; apply Permutation_app_swap_app.
Qed.

Lemma find_range_spec seg n ri0 l ri off : find_range seg n ri0 l = Some (ri, off) →
  ∃ len, (ri0 ≤ ri)%nat ∧ l !! (ri - ri0)%nat = Some (off, len) ∧ n <= len ∧ fits_one_segment seg off n = true.
Proof.
  revert ri0. induction l as [|[o len] l IH]; intros ri0; cbn [find_range]; [done|].
  destruct (N.leb_spec n len) as [Hle|]; [destruct (fits_one_segment seg o n) eqn:E|]; cbn [andb].
  - intros [= <- <-]. exists len. rewrite Nat.sub_diag. done.
  - intros Hf. destruct (IH _ Hf) as (len' & H1 & H2 & H3). exists len'. split; [lia|]. by replace (ri - ri0)%nat with (S (ri - S ri0)) by lia.
  - intros Hf. destruct (IH _ Hf) as (len' & H1 & H2 & H3). exists len'. split; [lia|]. by replace (ri - ri0)%nat with (S (ri - S ri0)) by lia.
Qed.

Lemma find_free_spec seg n z0 ls z ri off : find_free seg n z0 ls = Some (z, ri, off) →
  ∃ l len, (z0 ≤ z)%nat ∧ ls !! (z - z0)%nat = Some l ∧ l !! ri = Some (off, len) ∧ n <= len ∧ fits_one_segment seg off n = true.
Proof.
  revert z0. induction ls as [|l ls IH]; intros z0; cbn [find_free]; [done|].
  destruct (find_range seg n 0 l) as [[ri' off']|] eqn:E.
  - intros [= <- <- <-]. destruct (find_range_spec _ _ _ _ _ _ E) as (len & _ & H1 & H2 & H3). exists l, len.
    rewrite Nat.sub_diag. rewrite Nat.sub_0_r in H1. done.
  - intros Hf. destruct (IH _ Hf) as (l' & len & H1 & H2 & H3). exists l', len. split; [lia|].
    by replace (z - z0)%nat with (S (z - S z0)) by lia.
Qed.

Lemma carve_spec z n ri l off len : l !! ri = Some (off, len) → n <= len → off + len < two32 → ∃ rest,
  zone_ranges z l ≡ₚ mkReg z off len :: rest ∧
  (zone_ranges z (carve n ri l) ≡ₚ mkReg z (off + n) (len - n) :: rest ∨ (zone_ranges z (carve n ri l) ≡ₚ rest)).
Proof.
  intros Hl Hn Hw. exists (zone_ranges z (delete ri l)). unfold carve. rewrite Hl.
  assert (∀ x, zone_ranges z (<[ri := x]> l) ≡ₚ mkReg z (fst x) (snd x) :: zone_ranges z (delete ri l)) as Hins.
  { intros x. unfold zone_ranges. change (mkReg z (fst x) (snd x) :: map _ (delete ri l)) with (map (λ r, mkReg z (fst r) (snd r)) (x :: delete ri l)).
    apply Permutation_map. rewrite (insert_take_drop l ri x) by (by eapply lookup_lt_Some). rewrite delete_take_drop. by rewrite Permutation_middle. }
  split.
  - rewrite <- (list_insert_id l ri (off, len) Hl) at 1. apply (Hins (off, len)).
  - destruct (N.eqb_spec (len - n) 0); [by right|left]. rewrite Hins. cbn [fst snd]. rewrite wadd32_small; [done|lia].
Qed.

(** ** Allocation *)
Definition geo_ok (g : StoreGeometry) : Prop := 0 < zone_count g ∧ 0 < segment_size g ∧ zone_size g < two32.

Definition one_segment (seg off n : N) : Prop := off / seg = (off + n - 1) / seg.

Lemma fits_one_segment_spec seg off n : off + n < two32 → 0 < n → fits_one_segment seg off n = true ↔ one_segment seg off n.
Proof.
  intros Hw Hn. unfold fits_one_segment, one_segment. rewrite wadd32_small, wsub32_small by lia. apply N.eqb_eq.
Qed.

Lemma one_segment_start seg k n : 0 < n → n <= seg → one_segment seg (k * seg) n.
Proof.
  intros Hn Hs. unfold one_segment. rewrite N.div_mul by lia. apply (N.div_unique _ _ _ (n - 1)); lia.
Qed.

Lemma pick_zone_spec g ep cursors len n i z c :
  geo_ok g → len < two32 → (∀ k x, cursors !! k = Some x → x <= zone_size g) → length cursors = N.to_nat (zone_count g) →
  pick_zone n i g ep cursors len = Some (z, c) →
  ∃ old, cursors !! z = Some old ∧ old + len <= c ∧ c <= zone_size g ∧
    (0 < len → len <= segment_size g → one_segment (segment_size g) (c - len) len).
Proof.
  intros (Hz & Hs & Hw) Hlen Hcur Hl. revert i. induction n as [|n IH]; intros i; cbn [pick_zone]; [done|].
  set (zone := N.to_nat _). assert (zone < length cursors)%nat as Hzone.
  { unfold zone. rewrite Hl. pose proof (N.mod_lt (wadd64 ep i) (zone_count g)). lia. }
  destruct (lookup_lt_is_Some_2 _ _ Hzone) as [old Hold]. rewrite (nth_lookup_Some _ _ _ _ Hold). specialize (Hcur _ _ Hold).
  destruct (N.ltb_spec (zone_size g) (old + len)) as [|Hfit]; [apply IH|].
  rewrite wrap32_small by lia. destruct (fits_one_segment _ _ _) eqn:Ef.
  - intros [= <- <-]. exists old. split_and!; [done|lia|done|]. intros Hn _. replace (old + len - len) with old by lia.
    apply fits_one_segment_spec; [lia|done|done].
  - set (next := (old / segment_size g + 1) * segment_size g). destruct (N.ltb_spec (zone_size g) (next + len)) as [|Hfit']; [apply IH|].
    intros [= <- <-]. exists old. assert (old <= next) as Hnext.
    { unfold next. pose proof (N.div_mod old (segment_size g)). pose proof (N.mod_lt old (segment_size g)). lia. }
    split_and!; [done|lia|done|]. intros Hn Hle. replace (next + len - len) with next by lia. by apply one_segment_start.
Qed.

Section inv.
Context {D : Type} `{!BlockDevice D} `{!StoreCodec} `{!Hashing}.

Record alloc_inv (s : Store D) (R : list region) : Prop := {
  ai_cursors : length (zone_cursors s) = N.to_nat (zone_count (geo s));
  ai_free : length (free_lists s) = N.to_nat (zone_count (geo s));
  ai_open : length (open_segments s) = N.to_nat (zone_count (geo s));
  ai_cursor_le : ∀ z c, zone_cursors s !! z = Some c → c <= zone_size (geo s);
  ai_below : Forall (λ r, ∃ c, zone_cursors s !! N.to_nat (r_zone r) = Some c ∧ r_end r <= c) (R ++ free_regions (free_lists s));
  ai_disj : pairwise (R ++ free_regions (free_lists s))
}.

(** What allocation leaves alone. *)
Definition same_but_alloc (s s' : Store D) : Prop :=
  device s' = device s ∧ geo s' = geo s ∧ open_segments s' = open_segments s ∧ closed_segments s' = closed_segments s ∧
  refcounts s' = refcounts s ∧ epoch s' = epoch s ∧ root s' = root s ∧ ckpt s' = ckpt s.

(** Free ranges only shrink and cursors only grow. *)
Definition sub_region (r r' : region) : Prop := r_zone r' = r_zone r ∧ r_off r <= r_off r' ∧ r_end r' <= r_end r.
Definition free_shrinks (s s' : Store D) : Prop :=
  ∀ r', r' ∈ free_regions (free_lists s') → ∃ r, r ∈ free_regions (free_lists s) ∧ sub_region r r'.
Definition cursors_grow (s s' : Store D) : Prop :=
  ∀ z c, zone_cursors s !! z = Some c → ∃ c', zone_cursors s' !! z = Some c' ∧ c <= c'.

Lemma carve_shrinks s z ri n l off len : free_lists s !! z = Some l → l !! ri = Some (off, len) → n <= len → off + len < two32 →
  free_shrinks s (with_free (alter (carve n ri) z (free_lists s)) s).
Proof.
  intros Hl Hri Hn Hw r'. cbn [with_free free_lists]. destruct (free_from_alter (carve n ri) 0 z (free_lists s) l Hl) as (rest & Hp & Hp').
  unfold free_regions. intros Hin. rewrite Hp' in Hin. destruct (carve_spec (0 + N.of_nat z) n ri l off len Hri Hn Hw) as (rest' & Hq & Hq').
  assert (r' = mkReg (0 + N.of_nat z) (off + n) (len - n) ∨ r' ∈ rest' ++ rest) as [->|Hin'].
  { destruct Hq' as [Hq'|Hq']; rewrite Hq' in Hin; [|by right]. cbn [app] in Hin. apply elem_of_cons in Hin. tauto. }
  - exists (mkReg (0 + N.of_nat z) off len). rewrite Hp, Hq. split; [by left|]. unfold sub_region, r_end. cbn [r_zone r_off r_len]. lia.
  - exists r'. rewrite Hp, Hq. split; [by right|]. unfold sub_region. lia.
Qed.

Lemma allocate_free s R z ri off n :
  geo_ok (geo s) → alloc_inv s R → find_free (segment_size (geo s)) n 0 (free_lists s) = Some (z, ri, off) →
  alloc_inv (with_free (alter (carve n ri) z (free_lists s)) s) (mkReg (N.of_nat z) off n :: R) ∧
  off + n <= zone_size (geo s) ∧ (0 < n → one_segment (segment_size (geo s)) off n).
Proof.
  intros (Hz & Hs & Hw) [Hc Hf Ho Hcl Hb Hd] Hfind. destruct (find_free_spec _ _ _ _ _ _ _ Hfind) as (l & len & _ & Hl & Hri & Hn & Hfit).
  rewrite Nat.sub_0_r in Hl. destruct (free_from_alter (carve n ri) 0 z (free_lists s) l Hl) as (rest & Hp & Hp').
  rewrite N.add_0_l in Hp, Hp'. set (zn := N.of_nat z) in *.
  assert (∃ c, zone_cursors s !! z = Some c ∧ off + len <= c) as (c & Hzc & Hoc).
  { rewrite Forall_app in Hb. destruct Hb as [_ Hb]. unfold free_regions in Hb. rewrite Hp, Forall_app in Hb. destruct Hb as [Hb _].
    rewrite Forall_forall in Hb. destruct (Hb (mkReg zn off len)) as (c & H1 & H2).
    - unfold zone_ranges. apply list_elem_of_In, in_map_iff. exists (off, len). split; [done|]. apply list_elem_of_In. by eapply list_elem_of_lookup_2.
    - exists c. cbn [r_zone] in H1. unfold zn in H1. rewrite Nat2N.id in H1. done. }
  pose proof (Hcl _ _ Hzc) as Hcz. destruct (carve_spec zn n ri l off len Hri Hn) as (rest' & Hq & Hq'); [lia|].
  split_and!; [|lia|intros Hn0; apply fits_one_segment_spec; [lia|done|done]].
  unfold free_regions in Hb, Hd. rewrite Hp, Hq in Hb, Hd.
  assert (R ++ (mkReg zn off len :: rest') ++ rest ≡ₚ mkReg zn off len :: (R ++ rest' ++ rest)) as Hperm by (cbn [app]; symmetry; apply Permutation_middle).
  rewrite Hperm in Hb, Hd. apply Forall_cons in Hb as [_ Hb].
  assert (Forall (λ r, ∃ c0, zone_cursors s !! N.to_nat (r_zone r) = Some c0 ∧ r_end r <= c0) [mkReg zn off n; mkReg zn (off + n) (len - n)]) as Hnew.
  { repeat constructor; exists c; unfold zn, r_end; cbn [r_zone r_off r_len]; rewrite Nat2N.id; (split; [done|lia]). }
  apply Forall_cons in Hnew as [Hnew1 [Hnew2 _]%Forall_cons].
  constructor; cbn [with_free zone_cursors free_lists open_segments geo]; [done|by rewrite length_alter|done|done|..].
  - cbn [app]. constructor; [done|]. unfold free_regions. rewrite Hp'. destruct Hq' as [->| ->].
    + assert (R ++ (mkReg zn (off + n) (len - n) :: rest') ++ rest ≡ₚ mkReg zn (off + n) (len - n) :: (R ++ rest' ++ rest)) as ->
        by (cbn [app]; symmetry; apply Permutation_middle). by constructor.
    + done.
  - cbn [app]. unfold free_regions. rewrite Hp'. destruct Hq' as [->| ->].
    + assert (R ++ (mkReg zn (off + n) (len - n) :: rest') ++ rest ≡ₚ mkReg zn (off + n) (len - n) :: (R ++ rest' ++ rest)) as ->
        by (cbn [app]; symmetry; apply Permutation_middle). by apply pairwise_split.
    + eapply pairwise_shrink; [exact Hn|]. exact Hd.
Qed.

Lemma allocate_cursor s R z c n :
  geo_ok (geo s) → n < two32 → alloc_inv s R → pick_zone (N.to_nat (zone_count (geo s))) 0 (geo s) (epoch s) (zone_cursors s) n = Some (z, c) →
  alloc_inv (with_cursors (<[z := c]> (zone_cursors s)) s) (mkReg (N.of_nat z) (c - n) n :: R) ∧
  wsub32 (wrap32 c) n = c - n ∧ c - n + n <= zone_size (geo s) ∧ (z < length (zone_cursors s))%nat ∧
  (0 < n → n <= segment_size (geo s) → one_segment (segment_size (geo s)) (c - n) n) ∧ (∀ old, zone_cursors s !! z = Some old → old <= c).
Proof.
  intros Hg Hn [Hc Hf Ho Hcl Hb Hd] Hpick. destruct (pick_zone_spec _ _ _ _ _ _ _ _ Hg Hn Hcl Hc Hpick) as (old & Hold & Hle & Hcz & Hseg).
  destruct Hg as (Hz & Hs & Hw). pose proof (lookup_lt_Some _ _ _ Hold) as Hzl.
  split_and!; [|rewrite wrap32_small, wsub32_small by lia; done|lia|done|done|intros old' Ho'; simplify_eq; lia].
  constructor; cbn [with_cursors zone_cursors free_lists open_segments geo]; [by rewrite length_insert|done|done|..].
  - intros z' c'. rewrite list_lookup_insert. case_decide; [intros [= <-]; done|apply Hcl].
  - cbn [app]. constructor.
    + exists c. unfold r_end. cbn [r_zone r_off r_len]. rewrite Nat2N.id, list_lookup_insert_eq by done. split; [done|lia].
    + eapply Forall_impl; [exact Hb|]. cbn. intros r (c' & H1 & H2). rewrite list_lookup_insert. case_decide as Hz'; [|by exists c'].
      destruct Hz' as [Hz' _]. exists c. split; [done|]. assert (c' = old) by congruence. lia.
  - cbn [app pairwise]. split; [|done]. eapply Forall_impl; [exact Hb|]. cbn. intros r (c' & H1 & H2).
    destruct (decide (r_zone r = N.of_nat z)) as [He|He]; [|left; cbn; by intros ?].
    right. right. rewrite He, Nat2N.id in H1. simplify_eq. cbn [r_off]. lia.
Qed.

Lemma free_range_small s R z l ri off len : geo_ok (geo s) → alloc_inv s R → free_lists s !! z = Some l → l !! ri = Some (off, len) → off + len < two32.
Proof.
  intros (_ & _ & Hw) [_ _ _ Hcl Hb _] Hl Hri. apply Forall_app in Hb as [_ Hb].
  destruct (free_from_alter id 0 z (free_lists s) l Hl) as (rest & Hp & _). unfold free_regions in Hb. rewrite Hp in Hb.
  destruct (proj1 (Forall_forall _ _) Hb (mkReg (0 + N.of_nat z) off len)) as (c & H1 & H2).
  - apply elem_of_app. left. apply list_elem_of_In, in_map_iff. exists (off, len). split; [done|]. apply list_elem_of_In. by eapply list_elem_of_lookup_2.
  - specialize (Hcl _ _ H1). unfold r_end in H2. cbn [r_off r_len] in H2. lia.
Qed.

Lemma allocate_ok s R n : geo_ok (geo s) → n < two32 → alloc_inv s R →
  match allocate n s with
  | (None, s') => s' = s
  | (Some (z, off), s') =>
      alloc_inv s' (mkReg (N.of_nat z) off n :: R) ∧ same_but_alloc s s' ∧ free_shrinks s s' ∧ cursors_grow s s' ∧ N.of_nat z < zone_count (geo s) ∧ off + n <= zone_size (geo s) ∧
      (0 < n → n <= segment_size (geo s) → one_segment (segment_size (geo s)) off n)
  end.
Proof.
  intros Hg Hn Hi. unfold allocate. destruct (find_free _ _ _ _) as [[[z ri] off]|] eqn:Ef.
  - destruct (allocate_free s R z ri off n Hg Hi Ef) as (H1 & H2 & H3).
    destruct (find_free_spec _ _ _ _ _ _ _ Ef) as (l & len & _ & Hl & Hri & Hle & _). rewrite Nat.sub_0_r in Hl.
    split_and!; [done|by repeat split| |by intros z' c' Hz'; exists c'| |done|intros Hp _; by apply H3].
    + eapply carve_shrinks; [done..|]. by eapply free_range_small.
    + apply lookup_lt_Some in Hl. rewrite (ai_free _ _ Hi) in Hl. lia.
  - destruct (pick_zone _ _ _ _ _ _) as [[z c]|] eqn:Ep; [|done].
    destruct (allocate_cursor s R z c n Hg Hn Hi Ep) as (H1 & -> & H3 & H4 & H5 & H6).
    split_and!; [done|by repeat split|by intros r' Hr'; exists r'; unfold sub_region| | |done|done].
    + intros z' c' Hz'. cbn [with_cursors zone_cursors]. rewrite list_lookup_insert. case_decide as Hd; [|by exists c'].
      destruct Hd as [<- _]. exists c. split; [done|]. by apply H6.
    + rewrite (ai_cursors _ _ Hi) in H4. lia.
Qed.

(** ** Extents *)
Context `{!BlockDeviceLaws D}.

(** An extent the store holds: its descriptor, the hash it was filed under and
    the bytes on the device. *)
Record ext := mkExt { x_desc : ExtentDescriptor; x_hash : N; x_raw : bytes }.

Definition ext_region (x : ext) : region := mkReg (zone_id (x_desc x)) (offset_in_zone (x_desc x)) (dlength (x_desc x)).
Definition zone_base (g : StoreGeometry) (z : N) : N := data_start + z * zone_size g.

Definition on_device (s : Store D) (x : ext) : Prop :=
  zone_id (x_desc x) < zone_count (geo s) ∧ dlength (x_desc x) = N.of_nat (length (x_raw x)) ∧
  holds (device s) (zone_base (geo s) (zone_id (x_desc x)) + offset_in_zone (x_desc x)) (x_raw x).

(** The cleaner's bookkeeping lists the extent, in the open segment of its zone
    or in a closed segment whose index satisfies [Q]. *)
Definition recorded_in (Q : nat → Prop) (s : Store D) (x : ext) : Prop :=
  (∃ m, open_segments s !! N.to_nat (zone_id (x_desc x)) = Some (Some m) ∧ (x_desc x, x_hash x) ∈ extents m) ∨
  (∃ j m, Q j ∧ closed_segments s !! j = Some m ∧ (x_desc x, x_hash x) ∈ extents m).

Definition recorded : Store D → ext → Prop := recorded_in (λ _, True).

Record store_inv (s : Store D) (X : list ext) : Prop := {
  si_geo : geo_ok (geo s);
  si_dev : dinv (device s);
  si_cap : total_size (geo s) <= dcap (device s);
  si_alloc : alloc_inv s (map ext_region X);
  si_ext : Forall (on_device s) X;
  si_rec : Forall (recorded s) X
}.

(** What decompressing must do. *)
Definition zstd_law : Prop := ∀ d z, zstd_encode d = Some z → zstd_decode z = Some d.

Lemma encode_decode data c payload comp : zstd_law → encode_payload data c = (payload, comp) →
  decode_payload (compression_from_u8 (compression_to_u8 comp)) payload = inr data.
Proof.
  intros Hz. unfold encode_payload. destruct c; [|intros [= <- <-]; done].
  destruct (zstd_encode data) as [z|] eqn:E; [|intros [= <- <-]; done].
  case_match; intros [= <- <-]; [|done]. cbn. by rewrite (Hz _ _ E).
Qed.

Lemma on_device_read s x : dinv (device s) → on_device s x → read_raw (zone_id (x_desc x)) (offset_in_zone (x_desc x)) (dlength (x_desc x)) s = inr (x_raw x).
Proof.
  intros Hd (Hz & Hl & Hh). unfold read_raw, zone_offset. rewrite (proj2 (N.leb_gt _ _) Hz), Hl.
  apply holds_read in Hh; [|done]. unfold zone_base in Hh. by rewrite Hh.
Qed.

(** Disjoint regions of zones are disjoint ranges of the device. *)
Lemma zone_disjoint g x y : reg_disj x y → r_end x <= zone_size g → r_end y <= zone_size g →
  zone_base g (r_zone x) + r_end x <= zone_base g (r_zone y) + r_off y ∨ zone_base g (r_zone y) + r_end y <= zone_base g (r_zone x) + r_off x.
Proof.
  unfold reg_disj, zone_base. intros [Hz|Ho] Hx Hy; [|destruct (N.lt_trichotomy (r_zone x) (r_zone y)) as [?|[He|?]]; unfold r_end in *; try (rewrite He; lia); nia].
  destruct (N.lt_trichotomy (r_zone x) (r_zone y)) as [?|[He|?]]; unfold r_end in *; [left|done|right]; nia.
Qed.

Lemma track_recorded Q zone desc h s x : (zone < length (open_segments s))%nat → N.of_nat zone = zone_id desc → Q (length (closed_segments s)) →
  recorded_in Q s x ∨ (x_desc x = desc ∧ x_hash x = h) → recorded_in Q (track zone desc h s) x.
Proof.
  intros Hzl Hz HQ Hor. unfold track. set (fresh := mkSeg (zone_id desc) _ [] 0). set (seg := default fresh _).
  assert (∀ m, open_segments s !! zone = Some (Some m) → seg = m) as Hseg by (intros m Hm; unfold seg; by rewrite Hm).
  unfold recorded_in. destruct (segment_index seg =? _); cbn [with_segments open_segments closed_segments];
    destruct Hor as [[(m & Hm & Hin)|(j & m & Hj & Hm & Hin)]|[<- <-]].
  - left. destruct (decide (zone = N.to_nat (zone_id (x_desc x)))) as [->|Hne].
    + rewrite list_lookup_insert_eq by done. eexists. split; [done|]. cbn [extents]. rewrite elem_of_app. left. by rewrite (Hseg _ Hm).
    + rewrite list_lookup_insert_ne by done. by exists m.
  - right. by exists j, m.
  - left. rewrite <- Hz, Nat2N.id, list_lookup_insert_eq by done. eexists. split; [done|]. cbn [extents]. apply elem_of_app. right. by left.
  - destruct (decide (zone = N.to_nat (zone_id (x_desc x)))) as [->|Hne].
    + right. eexists (length (closed_segments s)), _. split; [done|]. rewrite lookup_app_r, Nat.sub_diag by done. split; [done|].
      cbn [extents]. by rewrite (Hseg _ Hm).
    + left. rewrite list_lookup_insert_ne by done. by exists m.
  - right. exists j, m. split_and!; [done|by apply lookup_app_l_Some|done].
  - left. rewrite <- Hz, Nat2N.id, list_lookup_insert_eq by done. eexists. split; [done|]. by left.
Qed.

Lemma track_same zone desc h (s : Store D) :
  device (track zone desc h s) = device s ∧ geo (track zone desc h s) = geo s ∧ zone_cursors (track zone desc h s) = zone_cursors s ∧
  refcounts (track zone desc h s) = refcounts s ∧ free_lists (track zone desc h s) = free_lists s ∧
  length (open_segments (track zone desc h s)) = length (open_segments s) ∧
  ∃ tail, closed_segments (track zone desc h s) = closed_segments s ++ tail.
Proof.
  unfold track. destruct (_ =? _); cbn [with_segments device geo zone_cursors refcounts free_lists open_segments closed_segments];
    rewrite length_insert; split_and!; try done; [exists []; by rewrite app_nil_r|by eexists].
Qed.

Lemma alloc_inv_regions (s : Store D) x R : alloc_inv s (x :: R) → Forall (λ y, reg_disj x y) R ∧ Forall (λ y, r_end y <= zone_size (geo s)) (x :: R).
Proof.
  intros [_ _ _ Hcl Hb Hd]. split.
  - cbn [app pairwise] in Hd. destruct Hd as [Hd _]. by apply Forall_app in Hd as [Hd _].
  - apply Forall_app in Hb as [Hb _]. eapply Forall_impl; [exact Hb|]. cbn. intros y (c & Hc & Hle). specialize (Hcl _ _ Hc). lia.
Qed.

Lemma alloc_inv_track (s : Store D) zone desc h R d : alloc_inv s R → alloc_inv (track zone desc h (with_device d s)) R.
Proof.
  intros [H1 H2 H3 H4 H5 H6]. destruct (track_same zone desc h (with_device d s)) as (_ & Hg & Hc & _ & Hf & Ho & _).
  constructor; rewrite ?Hg, ?Hc, ?Hf, ?Ho; done.
Qed.

(** What [write_extent] leaves alone. *)
Definition grows (s s' : Store D) : Prop :=
  geo s' = geo s ∧ refcounts s' = refcounts s ∧ epoch s' = epoch s ∧ (∃ tail, closed_segments s' = closed_segments s ++ tail) ∧
  free_shrinks s s' ∧ cursors_grow s s'.

(** Bookkeeping outside one closed segment is kept, and the new extent is in it. *)
Definition records (s s' : Store D) (new : ext) : Prop :=
  ∀ i, (i < length (closed_segments s))%nat → ∀ x, recorded_in (λ j, j ≠ i) s x ∨ x = new → recorded_in (λ j, j ≠ i) s' x.

Lemma on_device_step s s' x b d o : dinv (device s) → geo s' = geo s → device s' = d → dev_write o b (device s) = Some d →
  zone_base (geo s) (zone_id (x_desc x)) + r_end (ext_region x) <= o ∨ o + N.of_nat (length b) <= zone_base (geo s) (zone_id (x_desc x)) + offset_in_zone (x_desc x) →
  on_device s x → on_device s' x.
Proof.
  intros Hd Hg Hd' Hw Hor (Hz & Hl & Hh). unfold on_device. rewrite Hg, Hd'. split_and!; [done..|].
  destruct (write_holds _ _ _ _ Hd Hw) as (_ & _ & Hkeep). apply Hkeep; [|done]. unfold ext_region, r_end in Hor. cbn [r_off r_len] in Hor. rewrite Hl in Hor. lia.
Qed.

(** The extent after [allocate] chose [off] in [zone]. *)
Lemma carved_place_ok s s1 X zone off payload comp h (desc := mkDesc (prefix_u64 h) (N.of_nat zone) off (N.of_nat (length payload)) 0 comp 0) :
  store_inv s X → alloc_inv s1 (map ext_region (mkExt desc h payload :: X)) → same_but_alloc s s1 → free_shrinks s s1 → cursors_grow s s1 → N.of_nat zone < zone_count (geo s) →
  off + N.of_nat (length payload) <= zone_size (geo s) →
  ∃ d, dev_write (zone_base (geo s) (N.of_nat zone) + off) payload (device s1) = Some d ∧
    store_inv (track zone desc h (with_device d s1)) (mkExt desc h payload :: X) ∧ grows s (track zone desc h (with_device d s1)) ∧
    records s (track zone desc h (with_device d s1)) (mkExt desc h payload).
Proof.
  intros Hi Ha1 (Hd1 & Hg1 & Hop1 & Hcl1 & Hr1 & He1 & _) Hsh Hcg Hz Hoz.
  pose proof (si_dev _ _ Hi) as Hd. pose proof (si_cap _ _ Hi) as Hcap. rewrite Hd1.
  assert (zone_base (geo s) (N.of_nat zone) + off + N.of_nat (length payload) <= dcap (device s)) as Hfit.
  { etrans; [|exact Hcap]. unfold zone_base, total_size. nia. }
  destruct (write_ok _ (zone_base (geo s) (N.of_nat zone) + off) payload Hd Hfit) as [d Hw]. exists d. split; [done|].
  destruct (track_same zone desc h (with_device d s1)) as (Htd & Htg & Htcu & Htr & Htf & _ & tail & Htc).
  destruct (write_holds _ _ _ _ Hd Hw) as (Hd' & Hnew & Hkeep). destruct (write_spec _ _ _ _ Hd Hw) as (_ & Hcap' & _).
  assert (zone < length (open_segments (with_device d s1)))%nat as Hzl.
  { cbn [with_device open_segments]. rewrite (ai_open _ _ Ha1), Hg1. lia. }
  split; [|split; [split_and!; [by rewrite Htg|by rewrite Htr| |exists tail; rewrite Htc; cbn [with_device closed_segments]; by rewrite Hcl1| |]|]].
  2: { unfold track. by destruct (_ =? _). }
  2: { intros r'. rewrite Htf. apply Hsh. }
  2: { intros z' c'. rewrite Htcu. apply Hcg. }
  2: { intros i Hi' x Hx. apply track_recorded; [done|done|cbn [with_device closed_segments]; rewrite Hcl1; lia|].
       destruct Hx as [Hx| ->]; [left|by right]. unfold recorded_in in *. cbn [with_device open_segments closed_segments]. by rewrite Hop1, Hcl1. }
  change (alloc_inv s1 (ext_region (mkExt desc h payload) :: map ext_region X)) in Ha1.
  destruct (alloc_inv_regions _ _ _ Ha1) as [Hdisj Hends]. rewrite Hg1 in Hends. apply Forall_cons in Hends as [Hend Hends].
  constructor; rewrite ?Htd, ?Htg; cbn [with_device device geo]; rewrite ?Hg1; [apply Hi|done|lia|by apply alloc_inv_track|..].
  - constructor.
    + unfold on_device. cbn [x_desc x_raw desc zone_id dlength offset_in_zone]. rewrite Htd, Htg. cbn [with_device device geo]. rewrite Hg1.
      by split_and!.
    + pose proof (si_ext _ _ Hi) as Hext. rewrite Forall_forall in Hext |- *. intros x Hx.
      apply (on_device_step s _ x payload d (zone_base (geo s) (N.of_nat zone) + off)); [done|by rewrite Htg|by rewrite Htd|done| |by apply Hext].
      assert (ext_region x ∈ map ext_region X) as Hin by (apply list_elem_of_In, in_map_iff; exists x; split; [done|by apply list_elem_of_In]).
      destruct (zone_disjoint (geo s) (ext_region (mkExt desc h payload)) (ext_region x)) as [Hq|Hq]; [exact (proj1 (Forall_forall _ _) Hdisj _ Hin)|done|exact (proj1 (Forall_forall _ _) Hends _ Hin)|right|left];
        unfold r_end, ext_region in *; cbn [r_zone r_off r_len x_desc desc zone_id offset_in_zone dlength] in *; lia.
  - constructor; [by apply track_recorded; auto|]. pose proof (si_rec _ _ Hi) as Hrec. eapply Forall_impl; [exact Hrec|]. intros x Hx.
    apply track_recorded; [done..|]. left. unfold recorded, recorded_in in *. cbn [with_device open_segments closed_segments]. by rewrite Hop1, Hcl1.
Qed.

Lemma write_extent_inv s X data h c : store_inv s X → zstd_law → N.of_nat (length (fst (encode_payload data c))) < two32 →
  match write_extent data h c s with
  | (inl e, s') => e = Full (length (fst (encode_payload data c))) ∧ s' = s
  | (inr desc, s') =>
      store_inv s' (mkExt desc h (fst (encode_payload data c)) :: X) ∧ grows s s' ∧
      records s s' (mkExt desc h (fst (encode_payload data c))) ∧ read_extent desc s' = inr data ∧
      content_hash_prefix desc = prefix_u64 h ∧ ecc_group_id desc = 0 ∧ dlength desc = N.of_nat (length (fst (encode_payload data c))) ∧
      (0 < dlength desc → dlength desc <= segment_size (geo s) → one_segment (segment_size (geo s)) (offset_in_zone desc) (dlength desc))
  end.
Proof.
  intros Hi Hzl Hlen. unfold write_extent. destruct (encode_payload data c) as [payload comp] eqn:Ep. cbn [fst] in *.
  rewrite N.mod_small by done. pose proof (allocate_ok s _ _ (si_geo _ _ Hi) Hlen (si_alloc _ _ Hi)) as Ha.
  destruct (allocate _ s) as [[[zone off]|] s1]; [|by split]. destruct Ha as (Ha1 & Hsame & Hsh & Hcg & Hz & Hoz & Hseg).
  pose proof Hsame as (_ & Hg1 & _). unfold zone_offset. rewrite Hg1, (proj2 (N.leb_gt _ _) Hz). cbv zeta.
  destruct (carved_place_ok s s1 X zone off payload (compression_to_u8 comp) h Hi Ha1 Hsame Hsh Hcg Hz Hoz) as (d & Hw & Hi' & Hgr & Hrec).
  change (data_start + N.of_nat zone * zone_size (geo s)) with (zone_base (geo s) (N.of_nat zone)). rewrite Hw.
  split_and!; [done|done|done| |done..]. unfold read_extent.
  pose proof (si_ext _ _ Hi') as Hx. apply Forall_cons in Hx as [Hx _].
  pose proof (on_device_read _ _ (si_dev _ _ Hi') Hx) as Hr. cbn [x_desc x_raw zone_id offset_in_zone dlength compression_type] in *. rewrite Hr.
  by apply encode_decode with c.
Qed.

(** An extent held by the store reads as what was written. *)
Lemma held_reads s X x : store_inv s X → x ∈ X → read_extent (x_desc x) s = decode_payload (compression_from_u8 (compression_type (x_desc x))) (x_raw x).
Proof.
  intros Hi Hx. pose proof (si_ext _ _ Hi) as Hext. rewrite Forall_forall in Hext. unfold read_extent.
  by rewrite (on_device_read s x (si_dev _ _ Hi) (Hext x Hx)).
Qed.

(** ** A fresh store and a run of writes *)
Lemma fresh_store_inv d g e r c : geo_ok g → dinv d → total_size g <= dcap d → store_inv (fresh_store d g e r c) [].
Proof.
  intros Hg Hd Hc. assert (∀ n z, free_from z (replicate n []) = []) as Hfree by (intros n; induction n as [|n IH]; intros z; [done|apply IH]).
  constructor; [done..| |constructor|constructor].
  constructor; cbn [fresh_store zone_cursors free_lists open_segments geo map app]; rewrite ?length_replicate; try done.
  - intros z x Hx. apply lookup_replicate in Hx as [-> _]. lia.
  - unfold free_regions. rewrite Hfree. constructor.
  - unfold free_regions. by rewrite Hfree.
Qed.

Record write_op := mkOp { w_data : bytes; w_hash : N; w_compress : bool }.

Fixpoint run_writes (ops : list write_op) (s : Store D) : list (StoreError + ExtentDescriptor) * Store D :=
  match ops with
  | [] => ([], s)
  | o :: ops =>
      let '(r, s) := write_extent (w_data o) (w_hash o) (w_compress o) s in
      let '(rs, s) := run_writes ops s in (r :: rs, s)
  end.

Definition op_fits (o : write_op) : Prop := N.of_nat (length (fst (encode_payload (w_data o) (w_compress o)))) < two32.

(** The extents of a run: what each successful write left in the store. *)
Definition result_of (s : Store D) (X : list ext) (o : write_op) (r : StoreError + ExtentDescriptor) : Prop :=
  match r with
  | inl e => e = Full (length (fst (encode_payload (w_data o) (w_compress o))))
  | inr desc => mkExt desc (w_hash o) (fst (encode_payload (w_data o) (w_compress o))) ∈ X ∧
      content_hash_prefix desc = prefix_u64 (w_hash o) ∧ read_extent desc s = inr (w_data o)
  end.

Lemma result_of_held s s' X X' o r : store_inv s X → store_inv s' X' → X ⊆ X' → result_of s X o r → result_of s' X' o r.
Proof.
  intros Hi Hi' Hsub. destruct r as [e|desc]; cbn [result_of]; [done|]. intros (Hin & Hp & Hr). split_and!; [by apply Hsub|done|].
  pose proof (held_reads _ _ _ Hi' (Hsub _ Hin)) as H1. pose proof (held_reads _ _ _ Hi Hin) as H2. cbn [x_desc x_raw] in *. congruence.
Qed.

Lemma run_writes_inv ops s X : store_inv s X → zstd_law → Forall op_fits ops →
  let '(rs, s') := run_writes ops s in ∃ X', store_inv s' X' ∧ X ⊆ X' ∧ geo s' = geo s ∧ Forall2 (result_of s' X') ops rs.
Proof.
  intros Hi Hz Hops. revert s X Hi. induction Hops as [|o ops Ho Hops IH]; intros s X Hi; cbn [run_writes]; [exists X; split_and!; [done..|constructor]|].
  pose proof (write_extent_inv s X (w_data o) (w_hash o) (w_compress o) Hi Hz Ho) as Hw.
  destruct (write_extent _ _ _ s) as [[e|desc] s1].
  - destruct Hw as [-> ->]. specialize (IH s X Hi). destruct (run_writes ops s) as [rs s']. destruct IH as (X' & H1 & H2 & H3 & H4).
    exists X'. split_and!; [done..|]. by constructor.
  - destruct Hw as (Hi1 & (Hg1 & _) & _ & Hr & Hp & _). specialize (IH s1 _ Hi1). destruct (run_writes ops s1) as [rs s']. destruct IH as (X' & H1 & H2 & H3 & H4).
    exists X'. split_and!; [done|set_solver|congruence|]. constructor; [|done]. eapply (result_of_held s1); [exact Hi1|done|done|].
    cbn [result_of]. split_and!; [by left|done|done].
Qed.

(** C10: what the extent store returns it keeps. On a formatted device of good
    geometry, after any sequence of extent writes every write either failed for
    want of space or returned a descriptor that still reads back the data it
    was given, decompressed, and still verifies against its hash; no two of
    them overlap or leave their zones. *)
Theorem store_reads_back (d : D) (g : StoreGeometry) (ops : list write_op) :
  geo_ok g → dinv d → total_size g <= dcap d → zstd_law → Forall op_fits ops →
  let '(results, s) := run_writes ops (fresh_store d g 1 0 ckpt_default) in
  Forall2 (λ o r, match r with
                  | inl e => e = Full (length (fst (encode_payload (w_data o) (w_compress o))))
                  | inr desc => read_extent desc s = inr (w_data o) ∧
                                (w_hash o = hash_of (w_data o) → verify_extent desc (w_hash o) s = inr tt)
                  end) ops results ∧
  ∃ X, pairwise (map ext_region X) ∧ Forall (λ x, r_end (ext_region x) <= zone_size g) X ∧
    ∀ desc, inr desc ∈ results → ∃ x, x ∈ X ∧ x_desc x = desc.
Proof.
  intros Hg Hd Hc Hz Hops. pose proof (run_writes_inv ops _ [] (fresh_store_inv d g 1 0 ckpt_default Hg Hd Hc) Hz Hops) as Hrun.
  destruct (run_writes ops _) as [rs s]. destruct Hrun as (X & Hi & _ & Hgeo & Hall). cbn [fresh_store geo] in Hgeo. split.
  - eapply Forall2_impl; [exact Hall|]. intros o [e|desc]; cbn [result_of]; [done|]. intros (_ & Hp & Hr). split; [done|].
    intros Hh. unfold verify_extent. rewrite Hr, <- Hh, N.eqb_refl, Hp, N.eqb_refl. done.
  - exists X. destruct (si_alloc _ _ Hi) as [_ _ _ Hcl Hb Hdj]. apply pairwise_app in Hdj as [Hdj _]. apply Forall_app in Hb as [Hb _].
    split_and!; [done| |].
    + apply Forall_forall. intros x Hx. destruct (proj1 (Forall_forall _ _) Hb (ext_region x)) as (c & H1 & H2).
      { apply list_elem_of_In, in_map_iff. exists x. split; [done|by apply list_elem_of_In]. }
      specialize (Hcl _ _ H1). rewrite Hgeo in Hcl. lia.
    + intros desc [i Hl]%list_elem_of_lookup. destruct (Forall2_lookup_r _ _ _ _ _ Hall Hl) as (o & _ & Hin & _). eexists. by split; [exact Hin|].
Qed.

End inv.

(** ** A run in the reference environment *)

(** Three extents of ten bytes, the last one compressed: the second does not fit
    the first segment and is moved to the next. *)
Definition ref_ops : list write_op :=
  [mkOp [x01; x02; x03; x04; x05; x06; x07; x08; x09; x0a] 5 false; mkOp [x0b; x02; x03; x04; x05; x06; x07; x08; x09; x0a] 6 true;
   mkOp [x0c; x02; x03; x04; x05; x06; x07; x08; x09; x0a] 7 false; mkOp (replicate 9 x07) 8 true].

Lemma ref_geo_ok : geo_ok ref_geo.
Proof. by repeat split. Qed.

Lemma ref_zstd : zstd_law.
Proof. exact rle_law. Qed.

Lemma ref_ops_fit : Forall op_fits ref_ops.
Proof. repeat constructor; vm_compute; reflexivity. Qed.

Lemma store_reads_back_witness :
  let '(results, s) := run_writes ref_ops (fresh_store ref_device ref_geo 1 0 ckpt_default) in
  ∃ desc, results !! 3%nat = Some (inr desc) ∧ dlength desc = 2 ∧ read_extent desc s = inr (replicate 9 x07).
Proof.
  pose proof (store_reads_back ref_device ref_geo ref_ops ref_geo_ok I) as H.
  assert (match fst (run_writes ref_ops (fresh_store ref_device ref_geo 1 0 ckpt_default)) !! 3%nat with
          | Some (inr desc) => dlength desc =? 2 | _ => false end = true) as Hr by (vm_compute; reflexivity).
  destruct (run_writes ref_ops _) as [rs s]. cbn [fst] in Hr. destruct H as [H _].
  - cbn. lia.
  - exact ref_zstd.
  - exact ref_ops_fit.
  - destruct (rs !! 3%nat) as [[e|desc]|] eqn:E; [discriminate Hr| |discriminate Hr].
    destruct (Forall2_lookup_r _ _ _ _ _ H E) as (o & Ho & Hd & _). injection Ho as <-.
    exists desc. split; [reflexivity|]. split; [by apply N.eqb_eq|exact Hd].
Defined.
