(* ===== verification/StoreClean.v ===== *)
(** * Segment cleaning ([clean_segment] of [store.rs])

    The ranges the cleaner frees are the complement of the live ones, and a
    segment that lies below its zone's cursor and off the free lists is cleaned
    without losing a live extent. *)
From S2P Require Import Prelude ClusterCore Devices StoreModel StoreRef StoreSpec.
From Stdlib Require Import NArith ZArith Lia Strings.Byte.
From stdpp Require Import base numbers gmap option list sorting.
#[local] Open Scope N_scope.

#[local] Abbreviation bytes := (list byte).

(** ** Complements of ranges *)
Definition by_start : list (N * N) → Prop := StronglySorted (λ x y, fst x <= fst y).

Definition in_range (lo hi : N) (r : N * N) : Prop := lo <= fst r ∧ fst r <= snd r ∧ snd r <= hi.

Lemma sorted_by_start l : StronglySorted pair_le l → by_start l.
Proof. induction 1 as [|x l Hs IH Hx]; constructor; [done|]. eapply Forall_impl; [exact Hx|]. unfold pair_le. cbn. lia. Qed.

#[export] Instance pair_le_trans : Transitive pair_le.
Proof. intros x y z. unfold pair_le. lia. Qed.

#[export] Instance pair_le_total : Total pair_le.
Proof. intros x y. unfold pair_le. lia. Qed.

(** Merging keeps the order and covers every range it was given. *)
Lemma merge_ranges_spec l last lo hi : by_start (option_list last ++ l) → Forall (in_range lo hi) (option_list last ++ l) →
  by_start (merge_ranges last l) ∧ Forall (in_range lo hi) (merge_ranges last l) ∧
  Forall (λ r, ∃ m, m ∈ merge_ranges last l ∧ fst m <= fst r ∧ snd r <= snd m) (option_list last ++ l) ∧
  (∀ r, last = Some r → Forall (λ m, fst r <= fst m) (merge_ranges last l)).
Proof.
  revert last. induction l as [|[a b] l IH]; intros last Hs Hr; cbn [merge_ranges].
  - rewrite app_nil_r in *. destruct last as [r|]; cbn [option_list] in *; [|by repeat split; constructor].
    split_and!; [done|done|constructor; [|done]; exists r; split; [by left|done]|]. intros ? [= ->]. constructor; [done|constructor].
  - destruct last as [[c d]|]; cbn [option_list app] in *; [|destruct (IH (Some (a, b)) Hs Hr) as (H1 & H2 & H3 & _); by split_and!].
    apply StronglySorted_inv in Hs as [Hs Hc]. apply Forall_cons in Hr as [Hcd Hr].
    destruct (N.leb_spec a d) as [Hle|Hgt].
    + apply StronglySorted_inv in Hs as [Hs Ha]. apply Forall_cons in Hr as [Hab Hr]. apply Forall_cons in Hc as [Hca Hc]. cbn [fst] in *.
      destruct (IH (Some (c, N.max d b))) as (H1 & H2 & H3 & H4).
      { constructor; [done|]. exact Hc. }
      { constructor; [|done]. unfold in_range in *. cbn [fst snd] in *. lia. }
      cbn [option_list app] in H3. apply Forall_cons in H3 as [(m & Hm & Hm1 & Hm2) H3]. cbn [fst snd] in *.
      split_and!; [done|done| |intros r [= <-]; by apply (H4 _ eq_refl)]. repeat constructor; [..|done]; exists m; cbn [fst snd]; (split; [done|lia]).
    + destruct (IH (Some (a, b)) Hs Hr) as (H1 & H2 & H3 & H4). specialize (H4 _ eq_refl). apply Forall_cons in Hc as [Hca Hc]. cbn [fst] in *.
      assert (Forall (λ m : N * N, c <= fst m) (merge_ranges (Some (a, b)) l)) as Hall by (eapply Forall_impl; [exact H4|]; cbn; intros; lia).
      split_and!; [by constructor|by constructor| |intros r [= <-]; by constructor].
      constructor; [exists (c, d); split; [by left|done]|]. eapply Forall_impl; [exact H3|]. cbn. intros r (m & Hm & Hmr). exists m. split; [by right|done].
Qed.

Definition clear_of (r m : N * N) : Prop := fst r + snd r <= fst m ∨ snd m <= fst r.

Lemma gaps_spec z M c lo hi : by_start M → Forall (in_range lo hi) M → hi < two32 → c <= hi →
  Forall (λ r, c <= fst r ∧ 0 < snd r ∧ fst r + snd r <= hi ∧ Forall (clear_of r) M) (gaps c hi M) ∧ pairwise (zone_ranges z (gaps c hi M)).
Proof.
  intros Hs Hr Hhi. revert c. induction Hs as [|[a b] M Hs IH Hab]; intros c Hc; cbn [gaps].
  - destruct (N.ltb_spec c hi); [|done]. rewrite !wrap32_small by lia. split; [|done]. constructor; [|done]. cbn [fst snd]. split_and!; [lia..|done].
  - apply Forall_cons in Hr as [(Hal & Hb & Hbh) Hr]. cbn [fst snd] in *. destruct (IH Hr (N.max c b)) as [H1 H2]; [lia|].
    assert (Forall (λ r, c <= fst r ∧ 0 < snd r ∧ fst r + snd r <= hi ∧ Forall (clear_of r) ((a, b) :: M)) (gaps (N.max c b) hi M)) as Hrest.
    { eapply Forall_impl; [exact H1|]. cbn. intros r (Hr1 & Hr0 & Hr2 & Hr3). split_and!; [lia..|]. constructor; [|done]. right. cbn [snd]. lia. }
    destruct (N.ltb_spec c a); [|done]. rewrite !wrap32_small by lia. split.
    + constructor; [|done]. cbn [fst snd]. split_and!; [lia..|]. constructor; [left; cbn [fst snd]; lia|].
      eapply Forall_impl; [exact Hab|]. cbn. intros m Hm. left. cbn [fst snd]. lia.
    + cbn [zone_ranges map pairwise]. split; [|exact H2]. apply Forall_map. eapply Forall_impl; [exact H1|]. cbn. intros r (Hr1 & _).
      right. left. unfold r_end. cbn [r_off r_len]. lia.
Qed.

(** The dead ranges of [lo, hi): inside it, apart from each other and from every
    live range [L] gives. *)
Lemma dead_spec z L lo hi : Forall (in_range lo hi) L → lo <= hi → hi < two32 →
  let dead := gaps lo hi (merge_ranges None (merge_sort pair_le L)) in
  pairwise (zone_ranges z dead) ∧ Forall (λ r, lo <= fst r ∧ 0 < snd r ∧ fst r + snd r <= hi ∧ Forall (clear_of r) L) dead.
Proof.
  intros HL Hle Hhi dead.
  assert (by_start (merge_sort pair_le L)) as Hs by (apply sorted_by_start, StronglySorted_merge_sort; apply _).
  destruct (merge_ranges_spec (merge_sort pair_le L) None lo hi) as (H1 & H2 & H3 & _); [done|by rewrite merge_sort_Permutation|].
  cbn [option_list app] in H3. rewrite merge_sort_Permutation in H3.
  destruct (gaps_spec z _ lo lo hi H1 H2 Hhi Hle) as [H4 H5]. split; [done|]. eapply Forall_impl; [exact H4|]. cbn. intros r (Hr1 & Hr0 & Hr2 & Hr3).
  split_and!; [done..|]. rewrite Forall_forall in *. intros m Hm. destruct (H3 m Hm) as (m' & Hm' & Hle1 & Hle2). specialize (Hr3 m' Hm').
  unfold clear_of in *. lia.
Qed.

Section clean.
Context {D : Type} `{!BlockDevice D} `{!StoreCodec} `{!Hashing} `{!BlockDeviceLaws D}.

(** ** Moving the live extents *)

(** [x] holds what the descriptor [e] of the segment reads. *)
Definition held (X : list ext) (e : ExtentDescriptor * N) (x : ext) : Prop := x ∈ X ∧ x_desc x = fst e ∧ x_hash x = snd e.

Definition small (x : ext) : Prop :=
  ∀ data, decode_payload (compression_from_u8 (compression_type (x_desc x))) (x_raw x) = inr data → N.of_nat (length data) < two32.

Lemma grows_trans (s1 s2 s3 : Store D) : grows s1 s2 → grows s2 s3 → grows s1 s3.
Proof.
  intros (H1 & H2 & H3 & (t & H4) & H5 & H6) (G1 & G2 & G3 & (t' & G4) & G5 & G6). split_and!; [congruence..| | |].
  - exists (t ++ t'). by rewrite G4, H4, (assoc_L (++)).
  - intros r' Hr'. destruct (G5 _ Hr') as (r & Hr & Hs). destruct (H5 _ Hr) as (r0 & Hr0 & Hs0). exists r0. split; [done|].
    unfold sub_region in *. destruct Hs as (E1 & E2 & E3), Hs0 as (F1 & F2 & F3). split_and!; [congruence|lia|lia].
  - intros z c Hc. destruct (H6 _ _ Hc) as (c1 & Hc1 & Hle1). destruct (G6 _ _ Hc1) as (c2 & Hc2 & Hle2). exists c2. split; [done|lia].
Qed.

Lemma grows_refl (s : Store D) : grows s s.
Proof.
  split_and!; [done..| | |]; [exists []; by rewrite app_nil_r| |].
  - intros r Hr. exists r. split; [done|]. unfold sub_region. lia.
  - intros z c Hc. exists c. split; [done|lia].
Qed.

(** The new place of the extent [e]: what [e] read before, it reads now. *)
Definition moved_to (s s' : Store D) (Y : list ext) (moves : list (N * ExtentDescriptor)) (e : ExtentDescriptor * N) : Prop :=
  ∃ y data, y ∈ Y ∧ x_hash y = snd e ∧ (snd e, x_desc y) ∈ moves ∧ read_extent (fst e) s = inr data ∧ read_extent (x_desc y) s' = inr data.

Lemma move_live_inv l s X report moves :
  store_inv s X → zstd_law → (∀ e, e ∈ l → refcount (snd e) s ≠ 0 → ∃ x, held X e x ∧ small x) →
  let '(r, s') := move_live l s report moves in
  ∃ Y, store_inv s' (Y ++ X) ∧ grows s s' ∧
    (∀ i, (i < length (closed_segments s))%nat → ∀ x, recorded_in (λ j, j ≠ i) s x ∨ x ∈ Y → recorded_in (λ j, j ≠ i) s' x) ∧
    match r with
    | inl _ => True
    | inr (_, moves') => ∃ tail, moves' = moves ++ tail ∧ Forall (λ y, refcount (x_hash y) s ≠ 0) Y ∧
        ∀ e, e ∈ l → refcount (snd e) s ≠ 0 → moved_to s s' Y tail e
    end.
Proof.
  intros Hi Hz. revert s X report moves Hi. induction l as [|[desc h] l IH]; intros s X report moves Hi Hl; cbn [move_live].
  { exists []. split_and!; [done|apply grows_refl|by intros i _ x [?|?%elem_of_nil]|]. exists []. rewrite app_nil_r. split_and!; [done|constructor|]. by intros e ?%elem_of_nil. }
  destruct (N.eqb_spec (refcount h s) 0) as [Hdead|Hlive].
  { specialize (IH s X report moves Hi ltac:(intros e He; apply Hl; by right)).
    destruct (move_live l s report moves) as [r s']. destruct IH as (Y & H1 & H2 & H3 & H4). exists Y. split_and!; [done..|].
    destruct r as [|[rep moves']]; [done|]. destruct H4 as (tail & -> & Hr & Hm). exists tail. split_and!; [done..|].
    intros e [->|He]%elem_of_cons Hr'; [done|by apply Hm]. }
  destruct (negb _); [exists []; split_and!; [done|apply grows_refl|by intros i _ x [?|?%elem_of_nil]|done]|].
  destruct (Hl (desc, h)) as (x & (Hx & Hxd & Hxh) & Hsm); [by left|done|]. cbn [fst snd] in *. subst desc h.
  rewrite (held_reads s X x Hi Hx). destruct (decode_payload _ (x_raw x)) as [er|data] eqn:Ed.
  { exists []. split_and!; [done|apply grows_refl|by intros i _ y [?|?%elem_of_nil]|done]. }
  pose proof (write_extent_inv s X data (x_hash x) false Hi Hz (Hsm _ Ed)) as Hw. cbn [encode_payload fst] in Hw.
  destruct (write_extent data (x_hash x) false s) as [[er|nd] s1].
  { destruct Hw as [_ ->]. exists []. split_and!; [done|apply grows_refl|by intros i _ y [?|?%elem_of_nil]|done]. }
  destruct Hw as (Hi1 & Hg1 & Hrec1 & Hrd & _). set (y := mkExt nd (x_hash x) data) in *.
  assert (refcounts s1 = refcounts s) as Hrc by apply Hg1.
  set (rep' := mkReport _ _ _). specialize (IH s1 (y :: X) rep' (moves ++ [(x_hash x, nd)]) Hi1).
  assert (∀ e, e ∈ l → refcount (snd e) s1 ≠ 0 → ∃ x0, held (y :: X) e x0 ∧ small x0) as Hl1.
  { intros e He Hr. unfold refcount in Hr. rewrite Hrc in Hr. destruct (Hl e) as (x0 & (H1 & H2 & H3) & H4); [by right|done|].
    exists x0. split; [|done]. split_and!; [by right|done|done]. }
  specialize (IH Hl1). destruct (move_live l s1 rep' _) as [r s']. destruct IH as (Y & HY1 & HY2 & HY3 & HY4).
  exists (Y ++ [y]). rewrite <- (assoc_L (++)). cbn [app]. split_and!; [done|by eapply grows_trans| |].
  { intros i Hlt x0 Hx0. destruct Hg1 as (_ & _ & _ & (t & Hcl) & _).
    apply HY3; [rewrite Hcl, length_app; lia|]. destruct Hx0 as [Hx0|[Hx0|Hx0]%elem_of_app]; [left; apply Hrec1; auto|by right|left; apply Hrec1; [done|]].
    right. by apply list_elem_of_singleton in Hx0. }
  destruct r as [|[rep2 moves2]]; [done|]. destruct HY4 as (tail & -> & Hr & Hm). exists ((x_hash x, nd) :: tail).
  unfold refcount in *. rewrite Hrc in Hr, Hm. split_and!; [by rewrite <- (assoc_L (++))| |].
  - apply Forall_app. split; [done|]. constructor; [done|constructor].
  - intros e [->|He]%elem_of_cons Hr'.
    + exists y, data. cbn [fst snd]. split_and!; [apply elem_of_app; right; by left|done|by left|by rewrite (held_reads s X x Hi Hx)|].
      assert (y ∈ Y ++ y :: X) as Hy by (apply elem_of_app; right; by left). change nd with (x_desc y).
      rewrite (held_reads s' _ y HY1 Hy), <- Hrd. symmetry. apply (held_reads s1 (y :: X) y Hi1). by left.
    + destruct (Hm e He Hr') as (y0 & d0 & A1 & A2 & A3 & A4 & A5). exists y0, d0. split_and!; [apply elem_of_app; by left|done|by right| |done].
      destruct (Hl e) as (x0 & (B1 & B2 & B3) & _); [by right|done|]. rewrite <- B2 in A4 |- *.
      rewrite (held_reads s1 (y :: X) x0 Hi1 ltac:(by right)) in A4. by rewrite (held_reads s X x0 Hi B1).
Qed.

(** ** Freeing the dead ranges *)
Lemma alloc_inv_sublist (s : Store D) R R' : R' `sublist_of` R → alloc_inv s R → alloc_inv s R'.
Proof.
  intros Hsub [H1 H2 H3 H4 H5 H6]. constructor; [done..| |].
  - apply Forall_app. apply Forall_app in H5 as [H5 H5']. split; [|done]. rewrite Forall_forall in *. intros r Hr. apply H5.
    by eapply sublist_subseteq.
  - eapply pairwise_sublist; [|exact H6]. by apply sublist_app.
Qed.

Lemma alloc_inv_free (s : Store D) R z c dead lo hi :
  alloc_inv s R → zone_cursors s !! z = Some c → hi <= c → pairwise (zone_ranges (N.of_nat z) dead) →
  Forall (λ r, lo <= fst r ∧ fst r + snd r <= hi) dead →
  Forall (λ r, r_zone r = N.of_nat z → r_end r <= lo ∨ hi <= r_off r) (free_regions (free_lists s)) →
  Forall (λ r, Forall (reg_disj r) (zone_ranges (N.of_nat z) dead)) R →
  alloc_inv (with_free (alter (λ l, l ++ dead) z (free_lists s)) s) R.
Proof.
  intros [H1 H2 H3 H4 H5 H6] Hc Hle Hpd Hin Hfree Hdisj. pose proof (lookup_lt_Some _ _ _ Hc) as Hzl.
  destruct (lookup_lt_is_Some_2 (free_lists s) z) as [l Hl]; [congruence|].
  destruct (free_from_alter (λ l, l ++ dead) 0 z (free_lists s) l Hl) as (rest & Hp & Hp'). rewrite N.add_0_l in Hp, Hp'.
  assert (free_regions (alter (λ l, l ++ dead) z (free_lists s)) ≡ₚ zone_ranges (N.of_nat z) dead ++ free_regions (free_lists s)) as Hfr.
  { unfold free_regions. rewrite Hp', Hp. unfold zone_ranges. rewrite map_app, <- (assoc_L (++)). apply Permutation_app_swap_app. }
  constructor; cbn [with_free zone_cursors free_lists open_segments geo]; [done|by rewrite length_alter|done|done|..].
  - apply Forall_app in H5 as [H5 H5']. apply Forall_app. split; [done|]. rewrite Hfr. apply Forall_app. split; [|done].
    apply Forall_map. eapply Forall_impl; [exact Hin|]. cbn. intros r [_ Hr]. exists c. cbn [r_zone]. rewrite Nat2N.id. split; [done|].
    unfold r_end. cbn [r_off r_len]. lia.
  - apply pairwise_app in H6 as (P1 & P2 & P3). rewrite Hfr. apply pairwise_app. split_and!; [done| |].
    + apply pairwise_app. split_and!; [done..|]. apply Forall_map, Forall_forall. cbn. intros r Hr. apply Forall_forall. intros f Hf.
      destruct (proj1 (Forall_forall _ _) Hin r Hr) as [I1 I2]. destruct (decide (r_zone f = N.of_nat z)) as [He|He]; [|left; cbn; congruence].
      destruct (proj1 (Forall_forall _ _) Hfree f Hf He); right; unfold r_end; cbn [r_off r_len]; [right|left]; unfold r_end in *; lia.
    + apply Forall_forall. intros r Hr. apply Forall_app. split; [exact (proj1 (Forall_forall _ _) Hdisj r Hr)|exact (proj1 (Forall_forall _ _) P3 r Hr)].
Qed.

(** ** One segment *)
Definition seg_lo (s : Store D) (seg : SegmentMeta) : N := segment_index seg * segment_size (geo s).
Definition seg_hi (s : Store D) (seg : SegmentMeta) : N := seg_lo s seg + segment_size (geo s).

Definition all_live (s : Store D) (i : nat) (seg : SegmentMeta) : list (N * N) :=
  concat (map (live_ranges s (seg_lo s seg) (seg_hi s seg))
    (option_list (mjoin (open_segments s !! N.to_nat (sg_zone seg))) ++ delete i (closed_segments s))).

Lemma all_live_range s i seg : 0 < segment_size (geo s) → Forall (in_range (seg_lo s seg) (seg_hi s seg)) (all_live s i seg).
Proof.
  intros Hs. apply Forall_forall. intros r Hr. apply list_elem_of_In in Hr. unfold all_live in Hr. apply in_concat in Hr as (l & Hl & Hr). apply in_map_iff in Hl as (m & <- & _).
  apply list_elem_of_In, list_elem_of_omap in Hr as (e & _ & He). cbv zeta in He. destruct (_ =? 0); [done|].
  destruct (N.ltb_spec (seg_lo s seg) (offset_in_zone (fst e) + dlength (fst e))), (N.ltb_spec (offset_in_zone (fst e)) (seg_hi s seg)); cbn [andb] in He; try done.
  injection He as <-. unfold in_range, seg_hi in *. cbn [fst snd]. lia.
Qed.

(** A live extent on the books of another segment is covered or out of the way. *)
Lemma live_covered s i seg x : recorded_in (λ j, j ≠ i) s x → zone_id (x_desc x) = sg_zone seg → refcount (x_hash x) s ≠ 0 →
  r_end (ext_region x) <= seg_lo s seg ∨ seg_hi s seg <= r_off (ext_region x) ∨
  (N.max (offset_in_zone (x_desc x)) (seg_lo s seg), N.min (r_end (ext_region x)) (seg_hi s seg)) ∈ all_live s i seg.
Proof.
  intros Hrec Hz Hr. unfold ext_region, r_end. cbn [r_off r_len].
  destruct (N.ltb_spec (seg_lo s seg) (offset_in_zone (x_desc x) + dlength (x_desc x))) as [H1|]; [|auto].
  destruct (N.ltb_spec (offset_in_zone (x_desc x)) (seg_hi s seg)) as [H2|]; [|auto]. right; right.
  assert (∃ m, m ∈ option_list (mjoin (open_segments s !! N.to_nat (sg_zone seg))) ++ delete i (closed_segments s) ∧ (x_desc x, x_hash x) ∈ extents m)
    as (m & Hm & Hin).
  { destruct Hrec as [(m & Hm & Hin)|(j & m & Hj & Hm & Hin)]; exists m; (split; [|done]); apply elem_of_app; [left|right].
    - rewrite Hz in Hm. rewrite Hm. by left.
    - apply list_elem_of_lookup. destruct (Nat.lt_ge_cases j i).
      + exists j. by rewrite list_lookup_delete_lt.
      + exists (j - 1)%nat. rewrite list_lookup_delete_ge by lia. by replace (S (j - 1)) with j by lia. }
  apply list_elem_of_In, in_concat. eexists. split; [apply in_map_iff; exists m; split; [done|by apply list_elem_of_In]|].
  apply list_elem_of_In, list_elem_of_omap. exists (x_desc x, x_hash x). split; [done|]. cbn [fst snd].
  rewrite (proj2 (N.eqb_neq _ _) Hr), (proj2 (N.ltb_lt _ _) H1), (proj2 (N.ltb_lt _ _) H2). done.
Qed.

Lemma swap_remove_keeps {A} i (l : list A) j x : (i < length l)%nat → j ≠ i → l !! j = Some x → x ∈ swap_remove i l.
Proof.
  intros Hil Hne Hj. unfold swap_remove. destruct (list.last l) as [y|] eqn:Hy.
  2: { apply last_None in Hy as ->. done. }
  apply lookup_lt_Some in Hj as Hlt. destruct (decide (j = length l - 1)%nat) as [->|Hnl].
  - assert (y = x) as ->. { rewrite last_lookup in Hy. replace (Nat.pred (length l)) with (length l - 1)%nat in Hy by lia. congruence. }
    apply list_elem_of_lookup. exists i. rewrite lookup_take_lt by lia. by rewrite list_lookup_insert_eq.
  - apply list_elem_of_lookup. exists j. rewrite lookup_take_lt by lia. by rewrite list_lookup_insert_ne.
Qed.

(** The segment lies below its zone's cursor and no free range touches it. *)
Definition settled (s : Store D) (seg : SegmentMeta) : Prop :=
  (∃ c, zone_cursors s !! N.to_nat (sg_zone seg) = Some c ∧ seg_hi s seg <= c) ∧
  Forall (λ r, r_zone r = sg_zone seg → r_end r <= seg_lo s seg ∨ seg_hi s seg <= r_off r) (free_regions (free_lists s)).

Lemma settled_grows s s' seg : grows s s' → settled s seg → settled s' seg.
Proof.
  intros (Hg & _ & _ & _ & Hf & Hc) [(c & Hz & Hle) Hfr]. unfold settled, seg_hi, seg_lo in *. rewrite Hg. split.
  - destruct (Hc _ _ Hz) as (c' & Hc' & ?). exists c'. split; [done|lia].
  - apply Forall_forall. intros r' Hr' Hz'. destruct (Hf r' Hr') as (r & Hr & (E1 & E2 & E3)).
    destruct (proj1 (Forall_forall _ _) Hfr r Hr); [congruence|left; lia|right; lia].
Qed.

(** The live extents of [X] outside the segment. *)
Definition kept (s : Store D) (seg : SegmentMeta) (X : list ext) : list ext :=
  filter (λ x, refcount (x_hash x) s ≠ 0 ∧ (x_desc x, x_hash x) ∉ extents seg) X.

(** The last steps of the cleaner, once the live extents have moved. *)
Lemma free_segment s i seg Z : closed_segments s !! i = Some seg → store_inv s Z → settled s seg →
  Forall (λ x, refcount (x_hash x) s ≠ 0 ∧ recorded_in (λ j, j ≠ i) s x) Z →
  store_inv (with_segments (open_segments s) (swap_remove i (closed_segments s))
               (with_free (alter (λ l, l ++ dead_ranges s i seg) (N.to_nat (sg_zone seg)) (free_lists s)) s)) Z.
Proof.
  intros Hseg Hi [(c & Hc & Hle) Hfree] HZ. pose proof (si_geo _ _ Hi) as (Hz & Hsz & Hw).
  assert (seg_hi s seg < two32) as Hhi by (pose proof (ai_cursor_le _ _ (si_alloc _ _ Hi) _ _ Hc); lia).
  destruct (dead_spec (sg_zone seg) (all_live s i seg) (seg_lo s seg) (seg_hi s seg)) as [Hpd Hdead];
    [by apply all_live_range|unfold seg_hi; lia|done|].
  change (gaps _ _ _) with (dead_ranges s i seg) in Hpd, Hdead.
  constructor; cbn [with_segments with_free geo device]; [apply Hi..| | |].
  - assert (alloc_inv (with_free (alter (λ l, l ++ dead_ranges s i seg) (N.to_nat (sg_zone seg)) (free_lists s)) s) (map ext_region Z)) as Ha.
    { apply (alloc_inv_free s _ _ c _ (seg_lo s seg) (seg_hi s seg)); rewrite ?N2Nat.id; [apply Hi|done|done|done| |done|].
      - eapply Forall_impl; [exact Hdead|]. cbn. intros r (H1 & _ & H2 & _). done.
      - apply Forall_map, Forall_forall. cbn. intros x Hx. apply Forall_map, Forall_forall. cbn. intros r Hr.
        destruct (proj1 (Forall_forall _ _) HZ x Hx) as [Hlive Hrec]. destruct (proj1 (Forall_forall _ _) Hdead r Hr) as (R1 & R0 & R2 & R3).
        destruct (decide (zone_id (x_desc x) = sg_zone seg)) as [He|He]; [|left; done]. unfold reg_disj, r_end at 2. cbn [r_off r_len].
        destruct (live_covered s i seg x Hrec He Hlive) as [?|[?|Hin]]; [right; left; lia|right; right; lia|].
        apply (proj1 (Forall_forall _ _) R3) in Hin. unfold clear_of in Hin. cbn [fst snd] in Hin. unfold r_end, ext_region in *.
        cbn [r_off r_len] in *. lia. }
    destruct Ha as [A1 A2 A3 A4 A5 A6]. constructor; done.
  - eapply Forall_impl; [apply Hi|]. done.
  - eapply Forall_impl; [exact HZ|]. cbn. intros x [_ [?|(j & m & Hj & Hm & Hin)]]; [by left|right].
    destruct (proj1 (list_elem_of_lookup _ _) (swap_remove_keeps i _ j m (lookup_lt_Some _ _ _ Hseg) Hj Hm)) as [j' Hj']. by exists j', m.
Qed.

Lemma store_inv_sublist (s : Store D) X X' : X' `sublist_of` X → store_inv s X → store_inv s X'.
Proof.
  intros Hsub [H1 H2 H3 H4 H5 H6]. pose proof (sublist_subseteq _ _ Hsub) as Hs. constructor; [done..| | |].
  - eapply alloc_inv_sublist; [|exact H4]. clear -Hsub. induction Hsub; cbn [map]; by constructor.
  - apply Forall_forall. intros x Hx. exact (proj1 (Forall_forall _ _) H5 x (Hs x Hx)).
  - apply Forall_forall. intros x Hx. exact (proj1 (Forall_forall _ _) H6 x (Hs x Hx)).
Qed.

(** C19: cleaning a settled segment loses nothing that is live. If the cleaner
    succeeds, the store still keeps every live extent outside the segment, and
    each live extent of the segment reads at its new descriptor, the one the
    caller is told, what it read before; the ranges it freed overlap none of
    them. If it fails, every extent is still where it was. *)
Theorem clean_segment_safe (s : Store D) (X : list ext) (i : nat) (seg : SegmentMeta) :
  store_inv s X → zstd_law → closed_segments s !! i = Some seg → settled s seg →
  (∀ e, e ∈ extents seg → refcount (snd e) s ≠ 0 → ∃ x, held X e x ∧ small x) →
  match clean_segment i s with
  | (inl _, s') => store_inv s' X
  | (inr (_, moves), s') => ∃ Y, store_inv s' (Y ++ kept s seg X) ∧
      ∀ e, e ∈ extents seg → refcount (snd e) s ≠ 0 →
        ∃ y data, y ∈ Y ∧ (snd e, x_desc y) ∈ moves ∧ read_extent (fst e) s = inr data ∧ read_extent (x_desc y) s' = inr data
  end.
Proof.
  intros Hi Hz Hseg Hset Hlive. unfold clean_segment. rewrite Hseg.
  pose proof (move_live_inv (extents seg) s X (mkReport 0 0 0) [] Hi Hz Hlive) as Hm.
  destruct (move_live _ s _ _) as [[er|[rep moves]] s1]; destruct Hm as (Y & Hi1 & Hg1 & Hrec & Hm).
  { eapply store_inv_sublist; [|exact Hi1]. by apply sublist_inserts_l. }
  destruct Hm as (tail & -> & HY & Hmv). exists Y. pose proof Hg1 as (_ & Hrc & _ & (ct & Hcl) & _).
  assert (closed_segments s1 !! i = Some seg) as Hseg1 by (rewrite Hcl; by apply lookup_app_l_Some).
  set (Z := Y ++ kept s seg X).
  assert (store_inv s1 Z) as HiZ. { eapply store_inv_sublist; [|exact Hi1]. apply sublist_app; [done|]. apply sublist_filter. }
  pose proof (lookup_lt_Some _ _ _ Hseg) as Hilt.
  assert (Forall (λ x, refcount (x_hash x) s1 ≠ 0 ∧ recorded_in (λ j, j ≠ i) s1 x) Z) as HZ.
  { apply Forall_forall. intros x Hx. unfold refcount. rewrite Hrc. apply elem_of_app in Hx as [Hx|[[Hr Hn] Hx]%list_elem_of_filter].
    - split; [exact (proj1 (Forall_forall _ _) HY x Hx)|]. apply Hrec; auto.
    - split; [done|]. apply Hrec; [done|]. left. destruct (proj1 (Forall_forall _ _) (si_rec _ _ Hi) x Hx) as [?|(j & m & _ & Hm & Hin)]; [by left|right].
      exists j, m. split_and!; [|done|done]. intros ->. congruence. }
  pose proof (free_segment s1 i seg Z Hseg1 HiZ (settled_grows _ _ _ Hg1 Hset) HZ) as Hfin. split; [exact Hfin|].
  intros e He Hr. destruct (Hmv e He Hr) as (y & data & M1 & M2 & M3 & M4 & M5). exists y, data. split_and!; [done..|].
  rewrite (held_reads _ Z y Hfin) by (apply elem_of_app; by left). rewrite <- M5. symmetry. apply (held_reads s1 Z y HiZ). apply elem_of_app. by left.
Qed.

(** Counting references changes no extent. *)
Lemma store_inv_refcount (s : Store D) X h delta : store_inv s X → store_inv (refcount_add h delta s) X.
Proof. intros [H1 H2 H3 [A1 A2 A3 A4 A5 A6] H5 H6]. constructor; [done..|by constructor|done|done]. Qed.

End clean.

(** ** A cleaning in the reference environment *)

(** The reference run; hash 6, in the segment [16, 32) of zone 0, is live. *)
Definition ref_dirty : Store SparseDevice := refcount_add 6 1 (snd (run_writes ref_ops ref_store)).

Lemma ref_dirty_ok : ∃ X, store_inv ref_dirty X ∧ ∀ i o desc, ref_ops !! i = Some o →
  fst (run_writes ref_ops ref_store) !! i = Some (inr desc) → mkExt desc (w_hash o) (fst (encode_payload (w_data o) (w_compress o))) ∈ X.
Proof.
  assert (store_inv ref_store []) as Hi by (apply fresh_store_inv; [exact ref_geo_ok|done|cbn; lia]).
  pose proof (run_writes_inv ref_ops ref_store [] Hi ref_zstd ref_ops_fit) as Hrun. unfold ref_dirty.
  destruct (run_writes ref_ops ref_store) as [rs s]. destruct Hrun as (X & HX & _ & _ & Hall). cbn [fst snd].
  exists X. split; [by apply store_inv_refcount|]. intros i o desc Ho Hd. destruct (Forall2_lookup_lr _ _ _ _ _ _ Hall Ho Hd) as (Hin & _). done.
Qed.

Definition ref_desc : ExtentDescriptor := mkDesc (prefix_u64 6) 0 16 10 0 0 0.

Lemma clean_segment_safe_witness :
  match clean_segment 1 ref_dirty with
  | (inr (_, moves), s') => ∃ y data, (6, x_desc y) ∈ moves ∧ read_extent ref_desc ref_dirty = inr data ∧ read_extent (x_desc y) s' = inr data
  | _ => False
  end.
Proof.
  destruct ref_dirty_ok as (X & HX & Hin).
  assert (closed_segments ref_dirty !! 1%nat = Some (mkSeg 0 1 [(ref_desc, 6)] 1)) as Hseg by (vm_compute; reflexivity).
  assert (settled ref_dirty (mkSeg 0 1 [(ref_desc, 6)] 1)) as Hset.
  { split; [exists 44; split; [vm_compute; reflexivity|vm_compute; discriminate]|]. vm_compute. constructor. }
  pose proof (clean_segment_safe ref_dirty X 1 _ HX ref_zstd Hseg Hset) as H.
  assert (match clean_segment 1 ref_dirty with (inr _, _) => true | _ => false end = true) as Hok by (vm_compute; reflexivity).
  destruct (clean_segment 1 ref_dirty) as [[e|[rep moves]] s']; [discriminate Hok|].
  destruct H as (Y & _ & HY).
  - intros e He _. cbn [extents] in He. apply list_elem_of_singleton in He as ->.
    exists (mkExt ref_desc 6 [x0b; x02; x03; x04; x05; x06; x07; x08; x09; x0a]). split.
    + split; [|by split]. exact (Hin 1%nat _ ref_desc eq_refl ltac:(vm_compute; reflexivity)).
    + intros data [= <-]. vm_compute. reflexivity.
  - destruct (HY (ref_desc, 6)) as (y & data & _ & H1 & H2 & H3); [by left|vm_compute; discriminate|]. exists y, data. by split_and!.
Defined.
