(* ===== verification/StoreBoot.v ===== *)
(** * Superblocks, checkpoints and remount ([store.rs])

    A checkpoint leaves three self-verifying superblocks, the geometry header
    and the blob where [Store::open] and [load_checkpoint] look for them, and
    touches no extent; one intact copy is enough. *)
From S2P Require Import Prelude ClusterCore Devices StoreModel StoreRef StoreSpec.
From Stdlib Require Import NArith ZArith Lia Strings.Byte.
From stdpp Require Import base numbers gmap option list sorting.
#[local] Open Scope N_scope.

#[local] Abbreviation bytes := (list byte).

Section boot.
Context {D : Type} `{!BlockDevice D} {codec : StoreCodec} {hashing : Hashing} `{!BlockDeviceLaws D} `{!StoreCodecLaws}.

(** ** Framed headers *)
Lemma field_at (h r : bytes) o n x : o = length h → x < 256 ^ N.of_nat n → of_be (take n (drop o (h ++ be_bytes n x ++ r))) = x.
Proof. intros -> Hx. rewrite drop_app_length. exact (be_field_here n x r Hx). Qed.

Lemma body_at (h b r : bytes) o : o = length h → take (length b) (drop o (h ++ b ++ r)) = b.
Proof. intros ->. by rewrite drop_app_length, take_app_length. Qed.

(** A read that starts where [b] is held begins with [b]. *)
Lemma read_prefix d o b n : dinv d → holds d o b → N.of_nat (length b) <= n → o + n <= dcap d →
  ∃ rest, dev_read o n d = Some (b ++ rest) ∧ (length b + length rest)%nat = N.to_nat n.
Proof.
  intros Hd [Hc Hb] Hn Hcap. rewrite read_spec, (proj2 (N.leb_le _ _) Hcap) by done.
  exists (map (λ k, dbyte d (o + N.of_nat k)) (seq (length b) (N.to_nat n - length b))).
  rewrite length_map, length_seq. split; [|lia]. f_equal.
  replace (N.to_nat n) with (length b + (N.to_nat n - length b))%nat at 1 by lia. rewrite seq_app, map_app. f_equal.
  apply (nth_ext _ _ x00 x00); rewrite length_map, length_seq; [done|]. intros k Hk. rewrite nth_map_seq by done. by apply Hb.
Qed.

Lemma read_sb_copy_ok d i sb : dinv d → sb_ok sb → magic sb = SB_MAGIC → i * SB_COPY_SIZE + SB_COPY_SIZE <= dcap d →
  holds d (i * SB_COPY_SIZE) (sb_frame sb) → read_sb_copy d i = Some sb.
Proof.
  intros Hd Hok Hm Hc Hh. pose proof (sb_fits sb) as Hfit.
  assert (length (sb_frame sb) = 16 + length (ser_sb sb))%nat as Hlen by (unfold sb_frame; rewrite !length_app, !length_be_bytes; lia).
  destruct (read_prefix d _ _ SB_COPY_SIZE Hd Hh) as (rest & Hr & Hl); [rewrite Hlen; unfold SB_COPY_SIZE; lia|done|].
  assert (N.of_nat (length (ser_sb sb)) < two32) as Hsmall by (unfold two32; lia).
  unfold read_sb_copy. rewrite Hr. rewrite length_app, Hlen. unfold sb_frame. rewrite N.mod_small by done.
  set (b := ser_sb sb) in *. set (h1 := be_bytes 4 (N.of_nat (length b))). set (h2 := be_bytes 4 (crc b)). set (h3 := be_bytes 8 (sb_epoch sb)).
  destruct (Nat.ltb_spec (16 + length b + length rest) 16); [lia|]. rewrite <- !(assoc_L (++)).
  assert (of_be (take 4 (h1 ++ h2 ++ h3 ++ b ++ rest)) = N.of_nat (length b)) as -> by (by apply (field_at [] _ 0 4)). rewrite Nat2N.id.
  assert (of_be (take 4 (drop 4 (h1 ++ h2 ++ h3 ++ b ++ rest))) = crc b) as ->.
  { apply field_at; [unfold h1; by rewrite length_be_bytes|apply crc_small]. }
  destruct (Nat.ltb_spec (16 + length b + length rest) (16 + length b)); [lia|].
  rewrite !(assoc_L (++)), <- (assoc_L (++) _ b rest).
  rewrite body_at by (unfold h1, h2, h3; by rewrite !length_app, !length_be_bytes).
  rewrite N.eqb_refl. cbn [negb]. unfold b. rewrite (de_ser_sb sb Hok), Hm, N.eqb_refl. done.
Qed.

Definition geo_frame (g : StoreGeometry) : bytes :=
  be_bytes 4 (N.of_nat (length (ser_geo g)) mod two32) ++ be_bytes 4 (crc (ser_geo g)) ++ ser_geo g.

Lemma read_geometry_ok d g : dinv d → geo_widths g → geo_ok g → 0 < zone_size g → SB_COPY_SIZE * SB_COPIES + 4096 <= dcap d →
  holds d (SB_COPY_SIZE * SB_COPIES) (geo_frame g) → read_geometry d = inr g.
Proof.
  intros Hd Hgw (Hz & Hs & _) Hzs Hc Hh. pose proof (geo_fits g) as Hfit.
  assert (length (geo_frame g) = 8 + length (ser_geo g))%nat as Hlen by (unfold geo_frame; rewrite !length_app, !length_be_bytes; lia).
  destruct (read_prefix d _ _ 4096 Hd Hh) as (rest & Hr & Hl); [rewrite Hlen; lia|done|].
  assert (N.of_nat (length (ser_geo g)) < two32) as Hsmall by (unfold two32; lia).
  unfold read_geometry. rewrite Hr. rewrite length_app, Hlen. unfold geo_frame. rewrite N.mod_small by done.
  set (b := ser_geo g) in *. set (h1 := be_bytes 4 (N.of_nat (length b))). set (h2 := be_bytes 4 (crc b)).
  destruct (Nat.ltb_spec (8 + length b + length rest) 8); [lia|]. rewrite <- !(assoc_L (++)).
  assert (of_be (take 4 (h1 ++ h2 ++ b ++ rest)) = N.of_nat (length b)) as -> by (by apply (field_at [] _ 0 4)). rewrite Nat2N.id.
  assert (of_be (take 4 (drop 4 (h1 ++ h2 ++ b ++ rest))) = crc b) as ->.
  { apply field_at; [unfold h1; by rewrite length_be_bytes|apply crc_small]. }
  destruct (Nat.ltb_spec (8 + length b + length rest) (8 + length b)); [lia|].
  rewrite (assoc_L (++) h1). rewrite body_at by (unfold h1, h2; by rewrite !length_app, !length_be_bytes).
  rewrite N.eqb_refl. cbn [negb]. unfold b. rewrite (de_ser_geo g Hgw).
  rewrite !(proj2 (N.eqb_neq _ _)) by lia. done.
Qed.

Lemma newest_ok l sb : sb ∈ l → Forall (λ x, x = sb ∨ sb_epoch x < sb_epoch sb) l → newest l = Some sb.
Proof.
  intros Hin Hall. unfold newest.
  set (f := λ (best : option Superblock) x, match best with Some b => if sb_epoch x <? sb_epoch b then best else Some x | None => Some x end).
  enough (∀ best, (best = Some sb ∨ ((best = None ∨ ∃ b, best = Some b ∧ sb_epoch b < sb_epoch sb) ∧ sb ∈ l)) → fold_left f l best = Some sb) as He by (apply He; auto).
  clear Hin. induction Hall as [|x l Hx Hl IH]; intros best Hb; [by destruct Hb as [->|[_ ?%elem_of_nil]]|]. cbn [fold_left]. apply IH.
  destruct Hb as [->|[Hb Hin]]; cbn [f].
  - destruct Hx as [->|Hlt]; [|by rewrite (proj2 (N.ltb_lt _ _) Hlt); left]. rewrite N.ltb_irrefl. by left.
  - apply elem_of_cons in Hin as [<-|Hin].
    + left. destruct Hb as [->|(b & -> & Hb)]; cbn [f]; [done|]. by rewrite (proj2 (N.ltb_ge _ _)) by lia.
    + destruct Hx as [->|Hlt].
      * left. destruct Hb as [->|(b & -> & Hb)]; cbn [f]; [done|]. by rewrite (proj2 (N.ltb_ge _ _)) by lia.
      * right. split; [|done]. right. destruct Hb as [->|(b & -> & Hb)]; cbn [f]; [by exists x|]. case_match; eauto.
Qed.

(** ** Writing the headers *)
Definition header_end : N := SB_COPY_SIZE * SB_COPIES.

Lemma length_sb_frame sb : N.of_nat (length (sb_frame sb)) <= SB_COPY_SIZE.
Proof. unfold sb_frame. rewrite !length_app, !length_be_bytes. pose proof (sb_fits sb). unfold SB_COPY_SIZE. lia. Qed.

Lemma write_copies_ok l sb d : dinv d → header_end <= dcap d → NoDup l → Forall (λ i, i < SB_COPIES) l →
  ∃ d', write_copies l sb d = Some d' ∧ dinv d' ∧ dcap d <= dcap d' ∧ (∀ i, i ∈ l → holds d' (i * SB_COPY_SIZE) (sb_frame sb)) ∧
    ∀ o b, (header_end <= o ∨ ∃ i, (i ∉ l) ∧ o = i * SB_COPY_SIZE ∧ N.of_nat (length b) <= SB_COPY_SIZE) → holds d o b → holds d' o b.
Proof.
  revert d. induction l as [|i l IH]; intros d Hd Hc Hnd Hl; cbn [write_copies].
  { exists d. split_and!; [done|done|lia|by intros ? ?%elem_of_nil|done]. }
  apply NoDup_cons in Hnd as [Hni Hnd]. apply Forall_cons in Hl as [Hi Hl]. pose proof (length_sb_frame sb) as Hlen.
  assert (i * SB_COPY_SIZE + SB_COPY_SIZE <= header_end) as Hend by (unfold header_end, SB_COPY_SIZE, SB_COPIES in *; lia).
  unfold write_sb_copy. destruct (write_ok d (i * SB_COPY_SIZE) (sb_frame sb) Hd) as [d1 Hw]; [lia|]. rewrite Hw.
  destruct (write_holds _ _ _ _ Hd Hw) as (Hd1 & Hnew & Hkeep). destruct (write_spec _ _ _ _ Hd Hw) as (_ & Hc1 & _).
  destruct (IH d1 Hd1 ltac:(lia) Hnd Hl) as (d' & -> & Hd' & Hc' & Hall & Hrest). exists d'. split_and!; [done|done|lia| |].
  - intros j [->|Hj]%elem_of_cons; [|by apply Hall]. apply Hrest; [|done]. right. by exists i.
  - intros o b Ho Hb. destruct Ho as [Ho|(j & Hj & -> & Hbl)].
    + apply Hrest; [by left|]. apply Hkeep; [|done]. right. lia.
    + apply not_elem_of_cons in Hj as [Hji Hj]. apply Hrest; [right; by exists j|]. apply Hkeep; [|done].
      unfold SB_COPY_SIZE in *. destruct (N.lt_trichotomy j i) as [?|[?|?]]; [left; lia|done|right; lia].
Qed.

(** The headers a mounted store has on its device. *)
Definition headers (d : D) (g : StoreGeometry) (sb : Superblock) : Prop :=
  holds d header_end (geo_frame g) ∧ ∀ i, i ∈ copies → holds d (i * SB_COPY_SIZE) (sb_frame sb).

Definition with_blob (d : D) (blob : bytes) : Prop := holds d (checkpoint_offset + 8) blob.

Definition ckpt_sb (s : Store D) (r : N) (blob : bytes) : Superblock :=
  mkSb SB_MAGIC 1 (epoch s + 1) r (mkCkpt checkpoint_offset (N.of_nat (length blob)) (crc blob)).

(** The device just before the sync of a checkpoint. *)
Definition before_sync (s : Store D) (r : N) (blob : bytes) : option D :=
  match dev_write checkpoint_offset (be_bytes 4 (N.of_nat (length blob) mod two32) ++ be_bytes 4 (crc blob) ++ blob) (device s) with
  | Some d => write_copies copies (ckpt_sb s r blob) d
  | None => None
  end.

Lemma data_start_eq : data_start = header_end + zone_map_size + checkpoint_area_size.
Proof. reflexivity. Qed.

Lemma checkpoint_writes s r blob : dinv (device s) → data_start <= dcap (device s) → holds (device s) header_end (geo_frame (geo s)) →
  N.of_nat (length blob) + 8 <= checkpoint_area_size → epoch s + 1 < two64 → (∀ d, before_sync s r blob = Some d → dsafe d) →
  ∃ d, checkpoint r blob s = Some (with_device d (with_head (epoch s + 1) r (mkCkpt checkpoint_offset (N.of_nat (length blob)) (crc blob)) s)) ∧
    dinv d ∧ dcap (device s) <= dcap d ∧ headers d (geo s) (ckpt_sb s r blob) ∧ with_blob d blob ∧
    ∀ o b, data_start <= o → holds (device s) o b → holds d o b.
Proof.
  intros Hd Hc Hg Hb He Hsafe.
  assert (header_end + zone_map_size = checkpoint_offset ∧ checkpoint_offset + checkpoint_area_size = data_start) as [Ho1 Ho2] by done.
  assert (N.of_nat (length blob) < two32) as Hsm by (unfold checkpoint_area_size, two32 in *; lia).
  set (framed := be_bytes 4 (N.of_nat (length blob) mod two32) ++ be_bytes 4 (crc blob) ++ blob).
  assert (length framed = 8 + length blob)%nat as Hlf by (unfold framed; rewrite !length_app, !length_be_bytes; lia).
  destruct (write_ok (device s) checkpoint_offset framed Hd) as [d1 Hw1]; [lia|].
  destruct (write_holds _ _ _ _ Hd Hw1) as (Hd1 & Hnew1 & Hkeep1). destruct (write_spec _ _ _ _ Hd Hw1) as (_ & Hc1 & _).
  destruct (write_copies_ok copies (ckpt_sb s r blob) d1 Hd1) as (d2 & Hw2 & Hd2 & Hc2 & Hsb & Hkeep2);
    [unfold header_end, data_start in *; lia|by repeat constructor; set_solver|by repeat constructor|].
  destruct (sync_ok d2 Hd2) as [d3 Hs3].
  assert (dsafe d2) as Hsafe2. { apply Hsafe. unfold before_sync. fold framed. rewrite Hw1. done. }
  destruct (sync_spec _ _ Hd2 Hsafe2 Hs3) as (Hd3 & Hc3 & _). pose proof (sync_holds d2 d3) as Hsync. exists d3.
  assert (∀ o b, data_start <= o → holds (device s) o b → holds d2 o b) as Hdata.
  { intros o b Ho Hh. apply Hkeep2; [left; unfold header_end, data_start in *; lia|]. apply Hkeep1; [right; lia|done]. }
  split_and!; [|done|lia| | |].
  - unfold checkpoint, write_checkpoint_blob. fold framed. rewrite Hw1. unfold write_superblock. rewrite N.mod_small by done.
    cbn [with_head with_device device epoch]. rewrite wadd64_small by done. unfold ckpt_sb in Hw2. rewrite Hw2, Hs3. done.
  - split; [apply Hsync; [done..|]|intros i Hi; apply Hsync; [done..|by apply Hsb]].
    apply Hkeep2; [by left|]. apply Hkeep1; [left|done]. unfold geo_frame. rewrite !length_app, !length_be_bytes. pose proof (geo_fits (geo s)).
    unfold zone_map_size in *. lia.
  - apply Hsync; [done..|]. apply Hkeep2; [left; unfold checkpoint_offset, header_end; lia|]. destruct Hnew1 as [Hn1 Hn2].
    split; [lia|]. intros k Hk. replace (checkpoint_offset + 8 + N.of_nat k) with (checkpoint_offset + N.of_nat (8 + k)) by lia.
    rewrite Hn2 by lia. unfold framed. rewrite (assoc_L (++)), app_nth2 by (rewrite length_app, !length_be_bytes; lia).
    f_equal. rewrite length_app, !length_be_bytes. lia.
  - intros o b Ho Hh. apply Hsync; [done..|]. by apply Hdata.
Qed.

(** [d'] is [d] after its superblock area was damaged, with copy [i] intact and
    no newer superblock forged. *)
Definition one_copy_left (d d' : D) (i : N) (sb : Superblock) : Prop :=
  dinv d' ∧ dcap d' = dcap d ∧ (∀ k, header_end <= k → dbyte d' k = dbyte d k) ∧ i ∈ copies ∧
  (∀ k, i * SB_COPY_SIZE <= k → k < i * SB_COPY_SIZE + SB_COPY_SIZE → dbyte d' k = dbyte d k) ∧
  ∀ j x, j ∈ copies → read_sb_copy d' j = Some x → x = sb ∨ sb_epoch x < sb_epoch sb.

Lemma holds_dbyte_ext d d' o b : dcap d' = dcap d → (∀ k, o <= k → k < o + N.of_nat (length b) → dbyte d' k = dbyte d k) → holds d o b → holds d' o b.
Proof. intros Hc Hk [H1 H2]. split; [lia|]. intros k Hlt. rewrite Hk by lia. by apply H2. Qed.

Lemma store_open_ok d d' g i sb : dinv d → data_start <= dcap d → geo_widths g → sb_ok sb → geo_ok g → 0 < zone_size g → magic sb = SB_MAGIC → headers d g sb →
  one_copy_left d d' i sb → store_open d' = inr (fresh_store d' g (sb_epoch sb) (sb_root sb) (sb_checkpoint sb)).
Proof.
  intros Hd Hc Hgw Hok Hg Hz Hm [Hgeo Hsb] (Hd' & Hc' & Hk & Hi & Hki & Hold). unfold store_open.
  assert (i < SB_COPIES) as Hi3 by (unfold copies, SB_COPIES in *; set_solver by lia).
  assert (header_end + zone_map_size + checkpoint_area_size <= dcap d') as Hcap by (rewrite <- data_start_eq; lia).
  assert (i * SB_COPY_SIZE + SB_COPY_SIZE <= header_end) as Hend by (unfold header_end, SB_COPY_SIZE, SB_COPIES in *; lia).
  assert (read_sb_copy d' i = Some sb) as Hrd.
  { apply read_sb_copy_ok; [done|done|done|lia|]. apply (holds_dbyte_ext d); [done| |by apply Hsb]. intros k H2 H3. apply Hki; [done|].
    pose proof (length_sb_frame sb). lia. }
  rewrite (newest_ok _ sb).
  - rewrite (read_geometry_ok d' g); [done|done|done|done|done|unfold header_end, zone_map_size in *; lia|].
    apply (holds_dbyte_ext d); [done| |done]. intros k H2 _. by apply Hk.
  - apply list_elem_of_omap. exists i. done.
  - apply Forall_forall. intros x (j & Hj & Hx)%list_elem_of_omap. by apply (Hold j).
Qed.

(** ** Formatting *)

(** The device just before the sync of a format. *)
Definition format_sync (d : D) (g : StoreGeometry) : option D :=
  match (if dev_len d <? total_size g then dev_write (total_size g - 1) [x00] d else Some d) with
  | Some d => match write_geometry g d with Some d => write_copies copies (mkSb SB_MAGIC 1 1 0 ckpt_default) d | None => None end
  | None => None
  end.

(** A formatted store keeps the (empty) set of extents and has its headers on
    the device. *)
Theorem format_ok (d : D) (g : StoreGeometry) (s : Store D) :
  dinv d → geo_ok g → (∀ d', format_sync d g = Some d' → dsafe d') → format d (zone_count g) (zone_size g) (segment_size g) = Some s →
  store_inv s [] ∧ headers (device s) g (mkSb SB_MAGIC 1 1 0 ckpt_default) ∧ geo s = g ∧ epoch s = 1.
Proof.
  intros Hd Hg Hsafe. unfold format. replace (mkGeo (zone_count g) (zone_size g) (segment_size g)) with g by (by destruct g).
  unfold format_sync in Hsafe. destruct (if _ <? _ then _ else _) as [d1|] eqn:E1; [|done].
  assert (dinv d1 ∧ total_size g <= dcap d1) as [Hd1 Hc1].
  { pose proof (len_le d Hd) as Hlen. destruct (N.ltb_spec (dev_len d) (total_size g)); simplify_eq; [|split; [done|lia]].
    destruct (write_spec _ _ _ _ Hd E1) as (H1 & _ & H2 & _). split; [done|]. cbn [length] in H2. lia. }
  destruct (write_geometry g d1) as [d2|] eqn:E2; [|done]. unfold write_geometry in E2. fold (geo_frame g) header_end in E2.
  destruct (write_holds _ _ _ _ Hd1 E2) as (Hd2 & Hgeo & _). destruct (write_spec _ _ _ _ Hd1 E2) as (_ & Hc2 & _).
  destruct (write_copies_ok copies (mkSb SB_MAGIC 1 1 0 ckpt_default) d2 Hd2) as (d3 & Hw3 & Hd3 & Hc3 & Hsb & Hkeep);
    [unfold header_end, total_size, data_start in *; lia|by repeat constructor; set_solver|by repeat constructor|].
  unfold write_superblock. cbn [with_head fresh_store epoch device]. change (wadd64 0 1) with 1. rewrite Hw3.
  destruct (dev_sync d3) as [d4|] eqn:E4; [|done]. intros [= <-]. specialize (Hsafe _ Hw3).
  destruct (sync_spec _ _ Hd3 Hsafe E4) as (Hd4 & Hc4 & _). split_and!; [|split|done|done].
  - apply (fresh_store_inv d4 g 1 0 ckpt_default); [done|done|lia].
  - apply (sync_holds d3); [done..|]. apply Hkeep; [by left|done].
  - intros i Hi. apply (sync_holds d3); [done..|]. by apply Hsb.
Qed.


End boot.

(** ** A remount in the reference environment *)
Definition ref_formatted : option (Store SparseDevice) := format ref_device (zone_count ref_geo) (zone_size ref_geo) (segment_size ref_geo).

(** The copies a checkpoint of the formatted store leaves. *)
Lemma ref_copies : match ref_formatted with
  | Some s => match checkpoint 77 [x01; x02; x03] s with
              | Some s' => forallb (λ j, bool_decide (read_sb_copy (device s') j = Some (ckpt_sb s 77 [x01; x02; x03]))) copies
              | None => false
              end
  | None => false
  end = true.
Proof. vm_compute. reflexivity. Qed.

