(* ===== verification/StoreFaults.v ===== *)
(** * Where the extent store loses data ([store.rs])

    The conditions of StoreClean.v are needed, and the store does not establish
    them: cleaning a segment twice, cleaning one the cursor is still in, and
    cleaning after a remount each hand out bytes that a live extent holds. A
    checkpoint whose superblock is durable before its blob loses both blobs. *)
From S2P Require Import Prelude ClusterCore Devices StoreModel StoreRef StoreSpec StoreBoot.
From Stdlib Require Import NArith ZArith Lia Strings.Byte.
From stdpp Require Import base numbers gmap option list sorting.
#[local] Open Scope N_scope.

#[local] Abbreviation bytes := (list byte).

(** ** Runs *)
#[local] Instance byte_eq_dec : EqDecision byte := Byte.byte_eq_dec.

Inductive store_op := OWrite (data : bytes) (hash : N) | ORef (hash : N) (delta : Z) | OClean (i : nat) | ORemount.

Section runs.
Context {D : Type} `{!BlockDevice D} `{!StoreCodec} `{!Hashing}.

(** One operation: a write adds its descriptor to the log, a remount restores
    the saved state into a freshly opened store. [None] is an error. *)
Definition store_step (o : store_op) (c : list (N * bytes * ExtentDescriptor) * Store D) : option (list (N * bytes * ExtentDescriptor) * Store D) :=
  let '(log, s) := c in
  match o with
  | OWrite data h => match write_extent data h false s with (inr desc, s) => Some (log ++ [(h, data, desc)], s) | _ => None end
  | ORef h delta => Some (log, refcount_add h delta s)
  | OClean i => match clean_segment i s with (inr _, s) => Some (log, s) | _ => None end
  | ORemount =>
      match restore (state s) (fresh_store (device s) (geo s) (epoch s) (root s) (ckpt s)) with
      | (inr _, s) => Some (log, s)
      | _ => None
      end
  end.

Fixpoint store_run (ops : list store_op) (c : list (N * bytes * ExtentDescriptor) * Store D) : option (list (N * bytes * ExtentDescriptor) * Store D) :=
  match ops with [] => Some c | o :: ops => match store_step o c with Some c => store_run ops c | None => None end end.

(** A live extent of the log that no longer reads as it was written. *)
Definition clobbered (c : list (N * bytes * ExtentDescriptor) * Store D) : bool :=
  let '(log, s) := c in
  existsb (λ '(h, data, desc), (0 <? refcount h s) && match read_extent desc s with inr b => negb (bool_decide (b = data)) | inl _ => true end) log.

End runs.

Definition block (b : byte) (n : nat) : bytes := replicate n b.

(** Clean a segment, fill part of it, close it, clean it again: the range that
    was still free is freed twice and given to two live extents. *)
Definition run_freed_twice : list store_op :=
  [OWrite (block x01 10) 1; OWrite (block x02 10) 2; OClean 0; OWrite (block x03 10) 3; OWrite (block x04 10) 4; OClean 1;
   OWrite (block x05 6) 5; ORef 5 1; OWrite (block x06 16) 6; ORef 6 1].

(** Reusing a cleaned segment closes the one the cursor is in; cleaning that one
    frees it to its end, beyond the cursor, and the cursor gives the same bytes
    out again. *)
Definition run_past_cursor : list store_op :=
  [OWrite (block x01 10) 1; OWrite (block x02 10) 2; OClean 0; OWrite (block x03 10) 3; OClean 0;
   OWrite (block x04 12) 4; ORef 4 1; OWrite (block x05 4) 5; OWrite (block x06 6) 6; ORef 6 1].

(** The saved state has no open segments: after a remount the cleaner does not
    know the live extents in them. *)
Definition run_remount : list store_op :=
  [OWrite (block x01 10) 1; ORef 1 1; ORemount; OWrite (block x02 4) 2; OWrite (block x03 10) 3; OClean 0; OWrite (block x04 10) 4].

(** Without the condition that the segment is settled, cleaning destroys
    live data. In each of three runs of writes, cleanings and a remount every
    operation succeeds, and at the end an extent whose reference count is not
    zero no longer reads as it was written. *)
Theorem cleaning_clobbers_live_extents :
  Forall (λ ops, option_map clobbered (store_run ops ([], ref_store)) = Some true) [run_freed_twice; run_past_cursor; run_remount].
Proof. repeat constructor; vm_compute; reflexivity. Qed.

(** ** A checkpoint cut short *)
Section torn.
Context {D : Type} `{!BlockDevice D} {codec : StoreCodec} {hashing : Hashing} `{!BlockDeviceLaws D} `{!StoreCodecLaws}.

(** The checkpoint area has one slot. The file device writes its overlay
    back in the order of offsets, the superblocks before the blob. If a crash
    leaves the first new superblock on the device and the old blob in the slot,
    [Store::open] takes the new superblock, the blob fails its checksum, and
    the store comes up with the new root and an empty checkpoint: neither the
    old blob nor the new one is found. *)
Theorem torn_checkpoint_loses_both (s : Store D) (r : N) (blob old : bytes) (frame0 frame1 frame2 framed : bytes) :
  dinv (device s) → data_start <= dcap (device s) → geo_ok (geo s) → 0 < zone_size (geo s) → geo_widths (geo s) → r < 2 ^ 256 →
  holds (device s) header_end (geo_frame (geo s)) → N.of_nat (length blob) < two32 → epoch s + 1 < two64 →
  (∀ j x, j ∈ copies → read_sb_copy (device s) j = Some x → sb_epoch x <= epoch s) →
  holds (device s) (checkpoint_offset + 8) old → length old = length blob → blob ≠ [] → crc old ≠ crc blob →
  sort_by_offset [(checkpoint_offset, framed); (0, frame0); (SB_COPY_SIZE, frame1); (2 * SB_COPY_SIZE, frame2)]
    = [(0, frame0); (SB_COPY_SIZE, frame1); (2 * SB_COPY_SIZE, frame2); (checkpoint_offset, framed)] ∧
  ∃ d s2, write_sb_copy 0 (ckpt_sb s r blob) (device s) = Some d ∧ store_open d = inr s2 ∧ load_checkpoint s2 = (r, []).
Proof.
  intros Hd Hc Hg Hz Hgw Hr Hgeo Hsm He Hold Hblob Hlen Hne Hcrc. split; [reflexivity|]. set (sb := ckpt_sb s r blob).
  assert (sb_ok sb) as Hok.
  { unfold sb_ok, sb, ckpt_sb. cbn [magic version sb_epoch sb_root sb_checkpoint ck_offset ck_len ck_crc]. split_and!; try done. apply crc_small. }
  pose proof (length_sb_frame sb) as Hfl.
  assert (header_end <= checkpoint_offset ∧ checkpoint_offset + checkpoint_area_size = data_start ∧ SB_COPY_SIZE <= header_end ∧
    SB_COPY_SIZE * SB_COPIES + 4096 <= data_start) as (Ho1 & Ho2 & Ho3 & Ho4) by done.
  unfold write_sb_copy. destruct (write_ok (device s) (0 * SB_COPY_SIZE) (sb_frame sb) Hd) as [d Hw]; [lia|]. exists d.
  destruct (write_holds _ _ _ _ Hd Hw) as (Hd' & Hnew & Hkeep). destruct (write_spec _ _ _ _ Hd Hw) as (_ & Hc' & _ & Hbytes).
  assert (read_sb_copy d 0 = Some sb) as Hrd by (apply read_sb_copy_ok; [done|done|done|lia|done]).
  exists (fresh_store d (geo s) (sb_epoch sb) (sb_root sb) (sb_checkpoint sb)). split_and!; [done| |].
  - unfold store_open. rewrite (newest_ok _ sb).
    + rewrite (read_geometry_ok d (geo s)); [done|done|done|done|done|lia|]. apply Hkeep; [|done]. right. change (SB_COPY_SIZE * SB_COPIES) with header_end. lia.
    + apply list_elem_of_omap. exists 0. split; [by left|done].
    + apply Forall_forall. intros x (j & Hj & Hx)%list_elem_of_omap. destruct (decide (j = 0)) as [->|Hj0]; [left; congruence|right].
      assert (read_sb_copy (device s) j = Some x) as Hx'.
      { rewrite <- Hx. unfold read_sb_copy. assert (j < SB_COPIES) as Hj3 by (unfold copies, SB_COPIES in *; set_solver by lia).
        rewrite !read_spec by done. unfold SB_COPY_SIZE, SB_COPIES, header_end in *.
        rewrite !(proj2 (N.leb_le _ _)) by lia. erewrite map_ext_in; [reflexivity|]. intros k Hk. apply in_seq in Hk. cbn beta.
        rewrite Hbytes. destruct (N.ltb_spec (j * 4096 + N.of_nat k) (0 * 4096 + N.of_nat (length (sb_frame sb)))); [lia|]. by rewrite andb_false_r. }
      specialize (Hold j x Hj Hx'). cbn [sb ckpt_sb sb_epoch]. lia.
  - unfold load_checkpoint. cbn [fresh_store root ckpt sb ckpt_sb sb_root sb_checkpoint device ck_len ck_offset ck_crc]. f_equal.
    destruct blob as [|b0 blob']; [done|]. set (blob := b0 :: blob') in *. destruct (N.ltb_spec 0 (N.of_nat (length blob))); [|done].
    assert (holds d (checkpoint_offset + 8) old) as Hod by (apply Hkeep; [right; lia|done]).
    apply holds_read in Hod; [|done]. rewrite Hlen in Hod. rewrite Hod. by rewrite (proj2 (N.eqb_neq _ _) Hcrc).
Qed.

End torn.

(** Blob 9, 9, 9 over blob 1, 2, 3. *)
Lemma torn_checkpoint_loses_both_witness : ∃ s s', ref_formatted = Some s ∧ checkpoint 77 [x01; x02; x03] s = Some s' ∧
  ∃ d s2, write_sb_copy 0 (ckpt_sb s' 78 [x09; x09; x09]) (device s') = Some d ∧ store_open d = inr s2 ∧ load_checkpoint s2 = (78, []).
Proof.
  pose proof ref_copies as Hcop. unfold ref_formatted in *. destruct (format _ _ _ _) as [s|] eqn:E; [|discriminate Hcop].
  destruct (format_ok ref_device ref_geo s) as (Hi & [Hg _] & Hgeo & He); [exact I|exact ref_geo_ok|intros; exact I|exact E|].
  destruct (checkpoint_writes s 77 [x01; x02; x03]) as (d1 & Hck & Hd1 & Hc1 & [Hg1 _] & Hb1 & _).
  - exact I.
  - pose proof (si_cap _ _ Hi) as Hcap. unfold total_size in Hcap. lia.
  - rewrite Hgeo. exact Hg.
  - vm_compute. discriminate.
  - rewrite He. vm_compute. reflexivity.
  - intros; exact I.
  - rewrite Hck in Hcop. eexists s, _. split; [reflexivity|]. split; [exact Hck|].
    refine (proj2 (torn_checkpoint_loses_both _ 78 [x09; x09; x09] [x01; x02; x03] [] [] [] [] _ _ _ _ _ _ _ _ _ _ _ _ _ _)).
    + exact I.
    + cbn [with_device device]. pose proof (si_cap _ _ Hi) as Hcap. unfold total_size in Hcap. lia.
    + cbn [with_device with_head geo]. rewrite Hgeo. exact ref_geo_ok.
    + cbn [with_device with_head geo]. rewrite Hgeo. vm_compute. reflexivity.
    + cbn [with_device with_head geo]. rewrite Hgeo. by repeat split.
    + vm_compute. reflexivity.
    + exact Hg1.
    + vm_compute. reflexivity.
    + cbn [with_device with_head epoch]. rewrite He. vm_compute. reflexivity.
    + intros j x Hj Hx. rewrite forallb_forall in Hcop. apply list_elem_of_In, Hcop, bool_decide_eq_true in Hj. rewrite Hx in Hj.
      injection Hj as ->. cbn. lia.
    + exact Hb1.
    + reflexivity.
    + discriminate.
    + vm_compute. discriminate.
Defined.
