(* ===== verification/Namespace.v ===== *)
(** * The version namespace ([lionfs-cluster/src/dag.rs])

    Content-addressed version nodes, directories as hashed child maps, path
    resolution, the bottom-up rebuild of [set_path], snapshots, time travel and
    the pruned diff. The bincode form of a child map is an argument. *)
From S2P Require Import Prelude Clocks ClusterCore.
From Stdlib Require Import NArith Lia Strings.Byte Strings.String Strings.Ascii.
From stdpp Require Import base numbers gmap option list strings sorting.
#[local] Open Scope N_scope.

#[local] Abbreviation bytes := (list byte).
Abbreviation ChildMap := (gmap string N).

Inductive DagError := MissingNode (h : N) | PathNotFound | NotADirectory | TimeTravelAcrossMerge.

(** [bincode::serialize] of a child map. *)
Class DirCodec := serialize_children : ChildMap → bytes.

(** ** Paths *)

(** [path.trim_matches('/').split('/').filter(|s| !s.is_empty())]: leading and
    trailing separators only add empty parts. *)
Fixpoint split_slash (s : string) : list string :=
  match s with
  | EmptyString => [EmptyString]
  | String c s =>
      if Ascii.eqb c "/" then EmptyString :: split_slash s
      else match split_slash s with p :: l => String c p :: l | [] => [String c EmptyString] end
  end.

Fixpoint trim_start (s : string) : string :=
  match s with String c r => if Ascii.eqb c "/" then trim_start r else s | EmptyString => EmptyString end.

Fixpoint trim_end (s : string) : string :=
  match s with
  | EmptyString => EmptyString
  | String c r => match trim_end r with
                  | EmptyString => if Ascii.eqb c "/" then EmptyString else String c EmptyString
                  | r => String c r
                  end
  end.

Definition trim_matches (s : string) : string := trim_end (trim_start s).

Definition path_parts (path : string) : list string := filter (λ p, p ≠ EmptyString) (split_slash (trim_matches path)).

(** ** Nodes *)
Record Namespace := mkNs {
  repo : gmap N VersionNode; dirs : gmap N ChildMap; root_head : N; root_chain : list (N * N); snapshots : gmap string N;
  clock : N; node_id : N; created : list (VersionNode * option ChildMap)
}.

Section dag.
Context `{!Hashing} `{!DirCodec}.

Definition dir_content_hash (children : ChildMap) : N := hash_of (serialize_children children).

(** [NodeRepository::put] *)
Definition repo_put (n : VersionNode) (r : gmap N VersionNode) : (DagError + N) * gmap N VersionNode :=
  if negb (verify n) then (inl (MissingNode (self_hash n)), r) else (inr (self_hash n), <[self_hash n := n]> r).

Definition repo_get (r : gmap N VersionNode) (h : N) : DagError + VersionNode :=
  match r !! h with Some n => inr n | None => inl (MissingNode h) end.

(** [NodeRepository::from_bytes], after bincode. *)
Fixpoint repo_load (flat : list (N * VersionNode)) (r : gmap N VersionNode) : DagError + gmap N VersionNode :=
  match flat with
  | [] => inr r
  | (h, n) :: flat => if negb (self_hash n =? h) || negb (verify n) then inl (MissingNode h) else repo_load flat (<[h := n]> r)
  end.

Definition ns_new (node start_ts_ns : N) : (DagError + unit) * Namespace :=
  let content := dir_content_hash ∅ in
  let root := vnode_new content [] (vc_increment node vc_new) start_ts_ns KDirectory meta_default in
  match repo_put root ∅ with
  | (inl e, r) => (inl e, mkNs r ∅ 0 [] ∅ start_ts_ns node [])
  | (inr h, r) => (inr tt, mkNs r {[content := ∅]} h [(start_ts_ns, h)] ∅ start_ts_ns node [])
  end.

Definition children_of (ns : Namespace) (h : N) : DagError + ChildMap :=
  match repo_get (repo ns) h with
  | inl e => inl e
  | inr n =>
      if negb (bool_decide (kind n = KDirectory)) then inl NotADirectory
      else match dirs ns !! content_hash n with Some m => inr m | None => inl (MissingNode (content_hash n)) end
  end.

Definition with_nodes (r : gmap N VersionNode) (d : gmap N ChildMap) (c : list (VersionNode * option ChildMap)) (ns : Namespace) : Namespace :=
  mkNs r d (root_head ns) (root_chain ns) (snapshots ns) (clock ns) (node_id ns) c.

Definition new_dir_node (children : ChildMap) (parent ts : N) (ns : Namespace) : VersionNode :=
  let parent_clock := match repo ns !! parent with Some p => vclock p | None => vc_new end in
  vnode_new (dir_content_hash children) [parent] (vc_increment (node_id ns) parent_clock) ts KDirectory meta_default.

Definition new_dir_node_at (children : ChildMap) (parent ts : N) (ns : Namespace) : (DagError + N) * Namespace :=
  let node := new_dir_node children parent ts ns in
  let d := <[dir_content_hash children := children]> (dirs ns) in
  match repo_put node (repo ns) with
  | (inl e, r) => (inl e, with_nodes r d (created ns) ns)
  | (inr h, r) => (inr h, with_nodes r d (created ns ++ [(node, Some children)]) ns)
  end.

(** ** Resolution *)
Fixpoint resolve_parts (ns : Namespace) (cur : N) (parts : list string) : DagError + N :=
  match parts with
  | [] => inr cur
  | p :: parts =>
      match children_of ns cur with
      | inl e => inl e
      | inr children => match children !! p with Some c => resolve_parts ns c parts | None => inl PathNotFound end
      end
  end.

Definition resolve_under (ns : Namespace) (root : N) (path : string) : DagError + N := resolve_parts ns root (path_parts path).
Definition resolve (ns : Namespace) (path : string) : DagError + N := resolve_under ns (root_head ns) path.

(** ** Updates *)
Fixpoint set_path_recursive (parts : list string) (dir_hash file_head : N) (create : bool) (ts : N) (ns : Namespace) : (DagError + N) * Namespace :=
  match parts with
  | [] => (inl NotADirectory, ns)
  | p :: rest =>
      match children_of ns dir_hash with
      | inl e => (inl e, ns)
      | inr children =>
          let '(child_head, ns) :=
            match children !! p with
            | Some h =>
                match repo_get (repo ns) h with
                | inl e => (inl e, ns)
                | inr node =>
                    if negb (bool_decide (kind node = KDirectory)) then
                      match rest with [] => (inr h, ns) | _ => (inl NotADirectory, ns) end
                    else match rest with [] => (inr h, ns) | _ => set_path_recursive rest h file_head create ts ns end
                end
            | None =>
                match rest with
                | [] => (inr file_head, ns)
                | _ =>
                    if create then
                      match new_dir_node_at ∅ dir_hash ts ns with
                      | (inl e, ns) => (inl e, ns)
                      | (inr new_dir, ns) => set_path_recursive rest new_dir file_head create ts ns
                      end
                    else (inl PathNotFound, ns)
                end
            end in
          match child_head with
          | inl e => (inl e, ns)
          | inr child_head =>
              let entry_value := match rest with [] => file_head | _ => child_head end in
              new_dir_node_at (<[p := entry_value]> children) dir_hash ts ns
          end
      end
  end.

Definition set_root (root ts : N) (ns : Namespace) : Namespace :=
  mkNs (repo ns) (dirs ns) root (root_chain ns ++ [(ts, root)]) (snapshots ns) (clock ns) (node_id ns) (created ns).

Definition set_path_inner (path : string) (new_head : N) (create : bool) (ts : N) (ns : Namespace) : (DagError + N) * Namespace :=
  match path_parts path with
  | [] => (inl NotADirectory, ns)
  | parts =>
      match set_path_recursive parts (root_head ns) new_head create ts ns with
      | (inl e, ns) => (inl e, ns)
      | (inr new_root, ns) => (inr new_root, set_root new_root ts ns)
      end
  end.

Definition tick (ns : Namespace) : N * Namespace :=
  let c := wadd64 (clock ns) 1 in
  (c, mkNs (repo ns) (dirs ns) (root_head ns) (root_chain ns) (snapshots ns) c (node_id ns) (created ns)).

Definition set_path (path : string) (new_head : N) (ns : Namespace) : (DagError + N) * Namespace :=
  let '(ts, ns) := tick ns in set_path_inner path new_head false ts ns.

Definition set_path_create (path : string) (new_head : N) (ns : Namespace) : (DagError + N) * Namespace :=
  let '(ts, ns) := tick ns in set_path_inner path new_head true ts ns.

Definition set_path_at (path : string) (new_head ts_ns : N) (ns : Namespace) : (DagError + N) * Namespace :=
  set_path_inner path new_head true ts_ns ns.

(** ** Snapshots *)
Definition with_snapshots (m : gmap string N) (ns : Namespace) : Namespace :=
  mkNs (repo ns) (dirs ns) (root_head ns) (root_chain ns) m (clock ns) (node_id ns) (created ns).

Definition snapshot (name : string) (ns : Namespace) : N * Namespace :=
  (root_head ns, with_snapshots (<[name := root_head ns]> (snapshots ns)) ns).

Definition ns_restore (name : string) (ns : Namespace) : (DagError + N) * Namespace :=
  match snapshots ns !! name with
  | None => (inl PathNotFound, ns)
  | Some root =>
      match repo_get (repo ns) root with
      | inl e => (inl e, mkNs (repo ns) (dirs ns) root (root_chain ns) (snapshots ns) (clock ns) (node_id ns) (created ns))
      | inr n => (inr root, set_root root (timestamp_ns n) ns)
      end
  end.

(** ** Time travel *)

(** The newest entry of the chain with [ts <= t], scanning from the end. *)
Definition choose_root (chain : list (N * N)) (t : N) : option N :=
  match chain with
  | [] => None
  | (_, first) :: _ => Some (match List.find (λ e, fst e <=? t) (rev chain) with Some e => snd e | None => first end)
  end.

(** The guard: back along first parents to a root of time [t] or before, which
    must not be a merge. [None] is out of fuel. *)
Fixpoint walk_back (fuel : nat) (ns : Namespace) (cur t : N) : option (DagError + N) :=
  match fuel with
  | O => None
  | S fuel =>
      match repo_get (repo ns) cur with
      | inl e => Some (inl e)
      | inr node =>
          if t <? timestamp_ns node then
            match parents node with p :: _ => walk_back fuel ns p t | [] => Some (inl TimeTravelAcrossMerge) end
          else if (1 <? length (parents node))%nat then Some (inl TimeTravelAcrossMerge)
          else Some (inr cur)
      end
  end.

Definition resolve_at (fuel : nat) (ns : Namespace) (path : string) (t : N) : option (DagError + N) :=
  match choose_root (root_chain ns) t with
  | None => Some (inl (MissingNode (root_head ns)))
  | Some chosen =>
      match walk_back fuel ns chosen t with
      | None => None
      | Some (inl e) => Some (inl e)
      | Some (inr cur) => Some (resolve_under ns cur path)
      end
  end.

(** ** Diff *)
Inductive Change := Added | Removed | Modified.
Record DiffEntry := mkDiff { path : string; change : Change }.

(** The names below a prefix: a separator before each. *)
Definition show_prefix (prefix : list string) : string := fold_right (λ p r, String "/" (p +:+ r)) EmptyString prefix.

Definition str_le (a b : string) : Prop := String.leb a b = true.
#[local] Instance str_le_dec : RelDecision str_le.
Proof. intros a b. unfold str_le. apply _. Defined.

(** The sorted union of the names of two directories. *)
Definition names_of (ma mb : ChildMap) : list string := merge_sort str_le (elements (dom ma ∪ dom mb)).

Definition diff_root_path (prefix : list string) : string := match prefix with [] => "/" | _ => show_prefix prefix end.

Fixpoint diff_walk (fuel : nat) (ns : Namespace) (a b : N) (prefix : list string) (out : list DiffEntry) : option (DagError + list DiffEntry) :=
  match fuel with
  | O => None
  | S fuel =>
      if a =? b then Some (inr out)
      else match repo_get (repo ns) a, repo_get (repo ns) b with
      | inl e, _ => Some (inl e)
      | _, inl e => Some (inl e)
      | inr na, inr nb =>
          match kind na, kind nb with
          | KDirectory, KDirectory =>
              if content_hash na =? content_hash nb then Some (inr out)
              else match children_of ns a, children_of ns b with
              | inl e, _ => Some (inl e)
              | _, inl e => Some (inl e)
              | inr ma, inr mb =>
                  fold_left (λ acc name,
                    match acc with
                    | Some (inr out) =>
                        let p := prefix ++ [name] in
                        match ma !! name, mb !! name with
                        | Some ha, Some hb => diff_walk fuel ns ha hb p out
                        | Some _, None => Some (inr (out ++ [mkDiff (show_prefix p) Removed]))
                        | None, Some _ => Some (inr (out ++ [mkDiff (show_prefix p) Added]))
                        | None, None => Some (inr out)
                        end
                    | _ => acc
                    end) (names_of ma mb) (Some (inr out))
              end
          | _, _ =>
              if negb (content_hash na =? content_hash nb) || negb (bool_decide (kind na = kind nb))
              then Some (inr (out ++ [mkDiff (diff_root_path prefix) Modified]))
              else Some (inr out)
          end
      end
  end.

Definition diff (fuel : nat) (ns : Namespace) (a b : N) : option (DagError + list DiffEntry) := diff_walk fuel ns a b [] [].

(** ** Recovery hooks *)
Definition drain_created (ns : Namespace) : list (VersionNode * option ChildMap) * Namespace :=
  (created ns, with_nodes (repo ns) (dirs ns) [] ns).

Definition register_dir (content : N) (children : ChildMap) (ns : Namespace) : Namespace :=
  with_nodes (repo ns) (<[content := children]> (dirs ns)) (created ns) ns.

Definition set_root_from_recovery (root ts : N) (ns : Namespace) : Namespace :=
  if root_head ns =? root then ns else set_root root ts ns.

Definition snapshot_from_recovery (name : string) (root : N) (ns : Namespace) : Namespace :=
  with_snapshots (<[name := root]> (snapshots ns)) ns.

(** [clone_state] and [from_state]: everything but the nodes not yet drained. *)
Record NamespaceState := mkNsState {
  s_repo : list (N * VersionNode); s_dirs : list (N * ChildMap); s_root : N; s_chain : list (N * N); s_snapshots : gmap string N; s_clock : N; s_node : N
}.

Definition clone_state (ns : Namespace) : NamespaceState :=
  mkNsState (map_to_list (repo ns)) (map_to_list (dirs ns)) (root_head ns) (root_chain ns) (snapshots ns) (clock ns) (node_id ns).

Definition from_state (st : NamespaceState) : DagError + Namespace :=
  match repo_load (s_repo st) ∅ with
  | inl e => inl e
  | inr r => inr (mkNs r (list_to_map (rev (s_dirs st))) (s_root st) (s_chain st) (s_snapshots st) (s_clock st) (s_node st) [])
  end.

End dag.
