(* ===== verification/NamespaceSpec.v ===== *)
(** * What the version namespace keeps ([dag.rs])

    Nodes are never changed once stored, so every old root resolves as before;
    [set_path] installs one entry and leaves every unrelated path alone;
    snapshots restore; time travel picks the last root of its time. Hashes are
    assumed free of collisions. *)
From S2P Require Import Prelude Clocks ClusterCore Namespace.
From Stdlib Require Import NArith Lia Strings.Byte Strings.String.
From stdpp Require Import base numbers gmap option list strings sorting.
#[local] Open Scope N_scope.

(** No two node bodies and no two child maps share a hash. *)
Class CollisionFree `{!Hashing} `{!DirCodec} := {
  body_inj : ∀ x y, hash_of (serialize_body x) = hash_of (serialize_body y) → x = y;
  dir_inj : ∀ x y, dir_content_hash x = dir_content_hash y → x = y
}.

Section spec.
Context {hashing : Hashing} {codec : DirCodec} {cf : CollisionFree}.

Lemma node_unique x y : verify x = true → verify y = true → self_hash x = self_hash y → x = y.
Proof.
  unfold verify, compute_hash, body_bytes. intros Hx%N.eqb_eq Hy%N.eqb_eq Hh. rewrite <- Hx, <- Hy in Hh.
  apply body_inj in Hh. destruct x, y. cbn in *. by simplify_eq.
Qed.

(** ** The invariant *)

(** Nodes are filed under their hashes and verify; maps are filed under theirs;
    a directory has its map, and every child is stored. *)
Record ns_wf (ns : Namespace) : Prop := {
  nw_repo : ∀ h n, repo ns !! h = Some n → self_hash n = h ∧ verify n = true;
  nw_dirs : ∀ c m, dirs ns !! c = Some m → dir_content_hash m = c;
  nw_maps : ∀ h n, repo ns !! h = Some n → kind n = KDirectory → is_Some (dirs ns !! content_hash n);
  nw_children : ∀ c m p h, dirs ns !! c = Some m → m !! p = Some h → is_Some (repo ns !! h)
}.

(** Nothing stored is lost. *)
Definition extends (ns ns' : Namespace) : Prop := repo ns ⊆ repo ns' ∧ dirs ns ⊆ dirs ns'.

#[local] Instance extends_pre : PreOrder extends.
Proof. split; [done|]. intros a b c [H1 H2] [H3 H4]. split; by etrans. Qed.

Definition same_head (ns ns' : Namespace) : Prop :=
  root_head ns' = root_head ns ∧ root_chain ns' = root_chain ns ∧ snapshots ns' = snapshots ns ∧ clock ns' = clock ns ∧ node_id ns' = node_id ns.

Lemma children_of_ext ns ns' h : extends ns ns' → ns_wf ns → is_Some (repo ns !! h) → children_of ns' h = children_of ns h.
Proof.
  intros [Hr Hd] Hw [n Hn]. unfold children_of, repo_get. rewrite Hn, (lookup_weaken _ _ _ _ Hn Hr).
  destruct (bool_decide_reflect (kind n = KDirectory)) as [Hk|]; [|done]. cbn [negb].
  destruct (nw_maps _ Hw _ _ Hn Hk) as [m Hm]. by rewrite Hm, (lookup_weaken _ _ _ _ Hm Hd).
Qed.

Lemma children_stored ns h m p c : ns_wf ns → children_of ns h = inr m → m !! p = Some c → is_Some (repo ns !! c).
Proof.
  intros Hw. unfold children_of, repo_get. destruct (repo ns !! h) as [n|]; [|done]. destruct (negb _); [done|].
  destruct (dirs ns !! content_hash n) as [m'|] eqn:Hm; [|done]. intros [= ->]. by apply (nw_children _ Hw _ _ _ _ Hm).
Qed.

Lemma children_of_cases ns h : ns_wf ns → is_Some (repo ns !! h) →
  (∃ m, children_of ns h = inr m) ∨ children_of ns h = inl NotADirectory.
Proof.
  intros Hw [n Hn]. unfold children_of, repo_get. rewrite Hn. destruct (bool_decide_reflect (kind n = KDirectory)) as [Hk|]; [|by right].
  cbn [negb]. destruct (nw_maps _ Hw _ _ Hn Hk) as [m Hm]. rewrite Hm. eauto.
Qed.

(** Versions are immutable: once a node is stored, every path below it
    resolves to the same node, or fails in the same way, in every later
    namespace that has lost nothing. *)
Lemma resolve_ext ns ns' r q : extends ns ns' → ns_wf ns → is_Some (repo ns !! r) → resolve_parts ns' r q = resolve_parts ns r q.
Proof.
  intros He Hw. revert r. induction q as [|p q IH]; intros r Hr; [done|]. cbn [resolve_parts]. rewrite (children_of_ext ns ns') by done.
  destruct (children_of ns r) as [e|m] eqn:Hm; [done|]. destruct (m !! p) as [c|] eqn:Hc; [|done]. apply IH. by eapply children_stored.
Qed.

Lemma resolve_stored ns r q h : ns_wf ns → is_Some (repo ns !! r) → resolve_parts ns r q = inr h → is_Some (repo ns !! h).
Proof.
  intros Hw. revert r. induction q as [|p q IH]; intros r Hr; cbn [resolve_parts]; [intros [= <-]; done|].
  destruct (children_of ns r) as [e|m] eqn:Hm; [done|]. destruct (m !! p) as [c|] eqn:Hc; [|done]. apply IH. by eapply children_stored.
Qed.

(** ** New directories *)
Lemma new_dir_node_at_ok ns children parent ts : ns_wf ns → (∀ p h, children !! p = Some h → is_Some (repo ns !! h)) →
  ∃ h ns', new_dir_node_at children parent ts ns = (inr h, ns') ∧ ns_wf ns' ∧ extends ns ns' ∧ same_head ns ns' ∧
    children_of ns' h = inr children ∧ ∃ n, repo ns' !! h = Some n ∧ timestamp_ns n = ts ∧ parents n = [parent].
Proof.
  intros Hw Hc. unfold new_dir_node_at. set (node := new_dir_node children parent ts ns). unfold repo_put.
  assert (verify node = true) as Hv by apply vnode_new_verifies. rewrite Hv. cbn [negb].
  assert (repo ns ⊆ <[self_hash node := node]> (repo ns)) as Hsub.
  { apply map_subseteq_spec. intros h n Hn. destruct (decide (h = self_hash node)) as [->|Hne]; [|by rewrite lookup_insert_ne].
    rewrite lookup_insert_eq. f_equal. destruct (nw_repo _ Hw _ _ Hn) as [Hh Hvn]. symmetry. by apply node_unique. }
  assert (dirs ns ⊆ <[dir_content_hash children := children]> (dirs ns)) as Hsubd.
  { apply map_subseteq_spec. intros c m Hm. destruct (decide (c = dir_content_hash children)) as [->|Hne]; [|by rewrite lookup_insert_ne].
    rewrite lookup_insert_eq. f_equal. symmetry. by apply dir_inj, (nw_dirs _ Hw). }
  eexists _, _. split; [done|]. split_and!; [|by split|done| |].
  - constructor; cbn [with_nodes repo dirs].
    + intros h n. destruct (decide (h = self_hash node)) as [->|Hne]; [rewrite lookup_insert_eq; intros [= <-]; done|].
      rewrite lookup_insert_ne by done. apply (nw_repo _ Hw).
    + intros c m. destruct (decide (c = dir_content_hash children)) as [->|Hne]; [rewrite lookup_insert_eq; intros [= <-]; done|].
      rewrite lookup_insert_ne by done. apply (nw_dirs _ Hw).
    + intros h n. destruct (decide (h = self_hash node)) as [->|Hne].
      * rewrite lookup_insert_eq. intros [= <-] _. change (content_hash node) with (dir_content_hash children). rewrite lookup_insert_eq. eauto.
      * rewrite lookup_insert_ne by done. intros Hn Hk. destruct (nw_maps _ Hw _ _ Hn Hk) as [m Hm]. exists m. by eapply lookup_weaken.
    + intros c m p h Hm Hp. assert (is_Some (repo ns !! h)) as [n Hn].
      { destruct (decide (c = dir_content_hash children)) as [->|Hne].
        - rewrite lookup_insert_eq in Hm. simplify_eq. by eapply Hc.
        - rewrite lookup_insert_ne in Hm by done. by eapply (nw_children _ Hw). }
      exists n. by eapply lookup_weaken.
  - unfold children_of, repo_get. cbn [with_nodes repo dirs]. rewrite lookup_insert_eq. rewrite bool_decide_true by done. cbn [negb].
    change (content_hash node) with (dir_content_hash children). by rewrite lookup_insert_eq.
  - cbn [with_nodes repo]. rewrite lookup_insert_eq. by eexists.
Qed.

(** ** Setting a path *)

(** Neither path goes through the other. *)
Definition unrelated (parts q : list string) : Prop := ¬ parts `prefix_of` q ∧ ¬ q `prefix_of` parts.

Lemma unrelated_cons p rest q : unrelated (p :: rest) q → ∃ p' q', q = p' :: q' ∧ (p' ≠ p ∨ (p' = p ∧ unrelated rest q')).
Proof.
  intros [H1 H2]. destruct q as [|p' q']; [destruct H2; apply prefix_nil|]. exists p', q'. split; [done|].
  destruct (decide (p' = p)) as [->|]; [right|by left]. split; [done|]. split; intros Hp; [apply H1|apply H2]; by apply prefix_cons.
Qed.

(** What one call of the rebuild promises: [nr] is a directory of time [ts]
    that has [fh] at [parts] and agrees with [d] off that path. *)
Definition rebuilt (ns ns' : Namespace) (d nr fh ts : N) (parts : list string) : Prop :=
  (∃ n, repo ns' !! nr = Some n ∧ timestamp_ns n = ts ∧ length (parents n) = 1%nat) ∧ resolve_parts ns' nr parts = inr fh ∧
  ∀ q, unrelated parts q → resolve_parts ns' nr q = resolve_parts ns d q.

Definition set_ok (ns ns' : Namespace) (create : bool) (d fh ts : N) (parts : list string) (r : DagError + N) : Prop :=
  ns_wf ns' ∧ extends ns ns' ∧ same_head ns ns' ∧
  match r with
  | inl e => e = NotADirectory ∨ (e = PathNotFound ∧ create = false)
  | inr nr => rebuilt ns ns' d nr fh ts parts
  end.

Lemma same_head_trans a b c : same_head a b → same_head b c → same_head a c.
Proof. unfold same_head. intros (A1 & A2 & A3 & A4 & A5) (B1 & B2 & B3 & B4 & B5). split_and!; congruence. Qed.

(** The last step: a copy of directory [d] with one entry changed. *)
Lemma install_entry ns0 ns create d fh ts p rest v children :
  ns_wf ns0 → ns_wf ns → extends ns0 ns → same_head ns0 ns → is_Some (repo ns0 !! d) → children_of ns0 d = inr children → is_Some (repo ns !! v) →
  resolve_parts ns v rest = inr fh →
  (∀ q, unrelated rest q → resolve_parts ns v q = match children !! p with Some h => resolve_parts ns0 h q | None => inl PathNotFound end) →
  let '(r, ns') := new_dir_node_at (<[p := v]> children) d ts ns in set_ok ns0 ns' create d fh ts (p :: rest) r.
Proof.
  intros Hw0 Hw He Hs Hd Hch Hv Hfh Hq.
  assert (∀ p' h, <[p := v]> children !! p' = Some h → is_Some (repo ns !! h)) as Hall.
  { intros p' h. destruct (decide (p' = p)) as [->|Hne]; [rewrite lookup_insert_eq; intros [= <-]; done|]. rewrite lookup_insert_ne by done.
    intros Hp'. destruct (children_stored _ _ _ _ _ Hw0 Hch Hp') as [n Hn]. exists n. eapply lookup_weaken; [done|apply He]. }
  destruct (new_dir_node_at_ok ns _ d ts Hw Hall) as (nr & ns' & -> & Hw' & He' & Hs' & Hch' & n & Hn & Hts & Hps).
  split_and!; [done|by etrans|by eapply same_head_trans|]. split_and!; [exists n; by rewrite Hps| |].
  - cbn [resolve_parts]. rewrite Hch', lookup_insert_eq, (resolve_ext ns ns') by done. done.
  - intros q (p' & q' & -> & Hor)%unrelated_cons. cbn [resolve_parts]. rewrite Hch', Hch. destruct (decide (p' = p)) as [->|Hne].
    + rewrite lookup_insert_eq, (resolve_ext ns ns') by done. destruct Hor as [|[_ Hun]]; [done|]. by apply Hq.
    + rewrite lookup_insert_ne by done. destruct (children !! p') as [h|] eqn:Hp'; [|done].
      apply (resolve_ext ns0 ns'); [by etrans|done|]. by eapply children_stored.
Qed.

Lemma unrelated_nil q : ¬ unrelated [] q.
Proof. intros [H _]. apply H, prefix_nil. Qed.

Lemma set_path_recursive_ok parts create fh ts : parts ≠ [] → ∀ d ns, ns_wf ns → is_Some (repo ns !! fh) → is_Some (repo ns !! d) →
  let '(r, ns') := set_path_recursive parts d fh create ts ns in set_ok ns ns' create d fh ts parts r.
Proof.
  induction parts as [|p rest IH]; [done|]. intros _ d ns Hw Hfh Hd. cbn [set_path_recursive].
  assert (∀ e, e = NotADirectory ∨ (e = PathNotFound ∧ create = false) → set_ok ns ns create d fh ts (p :: rest) (inl e)) as Herr by done.
  destruct (children_of_cases ns d Hw Hd) as [[m Hm]| ->]; [rewrite Hm|apply Herr; by left].
  destruct (decide (rest = [])) as [->|Hrest].
  - (* the entry itself *)
    destruct (m !! p) as [h|] eqn:Hp.
    + destruct (children_stored _ _ _ _ _ Hw Hm Hp) as [n Hn]. unfold repo_get. rewrite Hn.
      destruct (negb _); apply install_entry; try done; intros q Hq; by destruct (unrelated_nil q).
    + apply install_entry; try done. intros q Hq. by destruct (unrelated_nil q).
  - destruct rest as [|p2 rest]; [done|]. specialize (IH ltac:(done)). set (r2 := p2 :: rest) in *. destruct (m !! p) as [h|] eqn:Hp.
    + (* below an existing entry *)
      destruct (children_stored _ _ _ _ _ Hw Hm Hp) as [n Hn]. unfold repo_get. rewrite Hn. destruct (negb _); [apply Herr; by left|].
      specialize (IH h ns Hw Hfh ltac:(by exists n)). destruct (set_path_recursive r2 h fh create ts ns) as [[e|nr] ns1].
      { destruct IH as (H1 & H2 & H3 & H4). by split_and!. }
      destruct IH as (Hw1 & He1 & Hs1 & ((n1 & Hn1 & _) & Hres & Hun)).
      apply install_entry; try done; try (by eexists). rewrite Hp. exact Hun.
    + (* below a new directory *)
      destruct create; [|apply Herr; by right].
      destruct (new_dir_node_at_ok ns ∅ d ts Hw) as (nd & ns1 & -> & Hw1 & He1 & Hs1 & Hch1 & n1 & Hn1 & _); [done|].
      assert (is_Some (repo ns1 !! fh)) as Hfh1 by (destruct Hfh as [n Hn]; exists n; eapply lookup_weaken; [done|apply He1]).
      specialize (IH nd ns1 Hw1 Hfh1 ltac:(by exists n1)). destruct (set_path_recursive r2 nd fh true ts ns1) as [[e|nr] ns2].
      { destruct IH as (H1 & H2 & H3 & H4). split_and!; [done|by etrans|by eapply same_head_trans|done]. }
      destruct IH as (Hw2 & He2 & Hs2 & ((n2 & Hn2 & _) & Hres & Hun)).
      apply install_entry; try done; try (by eexists); [by etrans|by eapply same_head_trans|]. rewrite Hp. intros q Hq. rewrite Hun by done.
      destruct (unrelated_cons _ _ _ Hq) as (p' & q' & -> & _). cbn [resolve_parts]. by rewrite Hch1.
Qed.

(** ** Namespaces *)
Record ns_inv (ns : Namespace) : Prop := {
  ni_wf : ns_wf ns;
  ni_root : ∃ n, repo ns !! root_head ns = Some n ∧ (length (parents n) ≤ 1)%nat;
  ni_chain : ∀ ts h, (ts, h) ∈ root_chain ns → ∃ n, repo ns !! h = Some n ∧ timestamp_ns n = ts ∧ (length (parents n) ≤ 1)%nat;
  ni_snapshots : ∀ name h, snapshots ns !! name = Some h → ∃ n, repo ns !! h = Some n ∧ (length (parents n) ≤ 1)%nat
}.

Lemma ns_inv_extends ns ns' : ns_inv ns → ns_wf ns' → extends ns ns' → same_head ns ns' → ns_inv ns'.
Proof.
  intros [Hw Hr Hc Hsn] Hw' [He _] (E1 & E2 & E3 & _). constructor; [done|..].
  - rewrite E1. destruct Hr as (n & Hn & ?). exists n. split; [by eapply lookup_weaken|done].
  - intros ts' h. rewrite E2. intros (n & Hn & ?)%Hc. exists n. split; [by eapply lookup_weaken|done].
  - intros name h. rewrite E3. intros (n & Hn & ?)%Hsn. exists n. split; [by eapply lookup_weaken|done].
Qed.

Lemma ns_inv_set_root ns root ts n : ns_inv ns → repo ns !! root = Some n → timestamp_ns n = ts → (length (parents n) ≤ 1)%nat →
  ns_inv (set_root root ts ns).
Proof.
  intros [[W1 W2 W3 W4] Hr Hc Hsn] Hn Hts Hps. constructor; cbn [set_root repo root_head root_chain snapshots]; [by constructor|by exists n| |done].
  intros ts' h [Hin|Hin]%elem_of_app; [by apply Hc|]. apply list_elem_of_singleton in Hin. simplify_eq. by exists n.
Qed.

Lemma resolve_same ns ns' r q : repo ns' = repo ns → dirs ns' = dirs ns → resolve_parts ns' r q = resolve_parts ns r q.
Proof.
  intros Hr Hd. revert r. induction q as [|p q IH]; intros r; [done|]. cbn [resolve_parts].
  assert (children_of ns' r = children_of ns r) as -> by (unfold children_of; by rewrite Hr, Hd).
  destruct (children_of ns r) as [|m]; [done|]. by destruct (m !! p).
Qed.

Lemma root_stored ns : ns_inv ns → is_Some (repo ns !! root_head ns).
Proof. intros Hi. destruct (ni_root _ Hi) as (n & Hn & _). by exists n. Qed.

Lemma set_path_inner_ok (ns : Namespace) (path : string) (new_head ts : N) (create : bool) :
  ns_inv ns → is_Some (repo ns !! new_head) → path_parts path ≠ [] →
  let '(r, ns') := set_path_inner path new_head create ts ns in
  ns_inv ns' ∧ (∀ h q, is_Some (repo ns !! h) → resolve_parts ns' h q = resolve_parts ns h q) ∧ snapshots ns' = snapshots ns ∧
  match r with
  | inr root => root_head ns' = root ∧ root_chain ns' = root_chain ns ++ [(ts, root)] ∧
      resolve ns' path = inr new_head ∧
      ∀ q, unrelated (path_parts path) q → resolve_parts ns' root q = resolve_parts ns (root_head ns) q
  | inl e => root_head ns' = root_head ns ∧ root_chain ns' = root_chain ns ∧ (e = NotADirectory ∨ (e = PathNotFound ∧ create = false))
  end.
Proof.
  intros Hi Hh Hp. unfold set_path_inner. destruct (path_parts path) as [|p rest] eqn:Epath; [done|]. set (parts := p :: rest) in *.
  pose proof (set_path_recursive_ok parts create new_head ts Hp (root_head ns) ns (ni_wf _ Hi) Hh (root_stored _ Hi)) as Hset.
  destruct (set_path_recursive parts (root_head ns) new_head create ts ns) as [[e|root] ns1].
  - destruct Hset as (Hw & He & Hs & Herr). split_and!; [by eapply ns_inv_extends| |apply Hs|apply Hs|apply Hs|done].
    intros h q Hin. by apply resolve_ext; [|apply Hi|].
  - destruct Hset as (Hw & He & Hs & (n & Hn & Hts & Hps) & Hres & Hun). pose proof Hs as (_ & Hch & Hsn & _).
    split_and!; [|intros h q Hin; rewrite (resolve_same ns1) by done; by apply resolve_ext; [|apply Hi|]|done|done|by cbn; rewrite Hch| |].
    + apply (ns_inv_set_root _ _ _ n); [by eapply ns_inv_extends|done|done|lia].
    + unfold resolve, resolve_under. rewrite Epath. cbn [set_root root_head]. by rewrite (resolve_same ns1) by done.
    + intros q Hq. rewrite (resolve_same ns1) by done. by apply Hun.
Qed.

(** C11: [set_path] sets one path. On a sound namespace it fails only because a
    component on the way is a file, or is missing and may not be created, and
    then the root stays; otherwise the new root resolves the path to the new
    head and every unrelated path as before, and is appended to the history.
    In both cases every stored node, so every earlier version and snapshot,
    resolves as before. *)
Theorem set_path_spec (ns : Namespace) (path : string) (new_head ts : N) (create : bool) :
  ns_inv ns → is_Some (repo ns !! new_head) → path_parts path ≠ [] →
  let '(r, ns') := set_path_inner path new_head create ts ns in
  ns_inv ns' ∧ (∀ h q, is_Some (repo ns !! h) → resolve_parts ns' h q = resolve_parts ns h q) ∧ snapshots ns' = snapshots ns ∧
  match r with
  | inr root => root_head ns' = root ∧ root_chain ns' = root_chain ns ++ [(ts, root)] ∧
      resolve ns' path = inr new_head ∧
      ∀ q, unrelated (path_parts path) q → resolve_parts ns' root q = resolve_parts ns (root_head ns) q
  | inl e => root_head ns' = root_head ns ∧ root_chain ns' = root_chain ns ∧ (e = NotADirectory ∨ (e = PathNotFound ∧ create = false))
  end.
Proof. apply set_path_inner_ok. Qed.

(** ** Snapshots *)
Inductive ns_op := NSet (path : string) (new_head ts : N) (create : bool) | NSnapshot (name : string) | NRestore (name : string).

Definition ns_step (o : ns_op) (ns : Namespace) : Namespace :=
  match o with
  | NSet path h ts create => snd (set_path_inner path h create ts ns)
  | NSnapshot name => snd (snapshot name ns)
  | NRestore name => snd (ns_restore name ns)
  end.

Lemma ns_step_inv o ns : ns_inv ns → (∀ path h ts create, o = NSet path h ts create → is_Some (repo ns !! h)) →
  ns_inv (ns_step o ns) ∧ (∀ h n, repo ns !! h = Some n → repo (ns_step o ns) !! h = Some n) ∧
  (∀ h q, is_Some (repo ns !! h) → resolve_parts (ns_step o ns) h q = resolve_parts ns h q) ∧
  (∀ name, o ≠ NSnapshot name → snapshots (ns_step o ns) !! name = snapshots ns !! name).
Proof.
  intros Hi Ho. destruct o as [path h ts create|name|name]; cbn [ns_step].
  - destruct (decide (path_parts path = [])) as [E|Hne]; [unfold set_path_inner; by rewrite E|].
    pose proof (set_path_inner_ok ns path h ts create Hi (Ho _ _ _ _ eq_refl) Hne) as Hspec.
    pose proof (set_path_recursive_ok _ create h ts Hne (root_head ns) ns (ni_wf _ Hi) (Ho _ _ _ _ eq_refl) (root_stored _ Hi)) as Hrec.
    unfold set_path_inner in *. destruct (path_parts path) as [|p rest]; [done|].
    destruct (set_path_recursive (p :: rest) (root_head ns) h create ts ns) as [[e|root] ns1]; cbn [snd];
      destruct Hspec as (H1 & H2 & H3 & _), Hrec as (_ & [He _] & _); (split_and!; [done| |done|]); [intros h' n Hn; by eapply lookup_weaken|intros name _; by rewrite H3|..];
      [intros h' n Hn; by eapply lookup_weaken|intros name _; by rewrite H3].
  - split_and!; [|done|intros h q _; by apply resolve_same|].
    2: { intros name' Hne. cbn [snapshot snd with_snapshots snapshots]. rewrite lookup_insert_ne; [done|]. congruence. }
    destruct Hi as [[W1 W2 W3 W4] Hr Hc Hsn]. constructor; cbn [snapshot snd with_snapshots repo root_head root_chain snapshots]; [by constructor|done|done|].
    intros name' h. destruct (decide (name' = name)) as [->|Hn]; [rewrite lookup_insert_eq; intros [= <-]; done|].
    rewrite lookup_insert_ne by done. apply Hsn.
  - unfold ns_restore. destruct (snapshots ns !! name) as [root|] eqn:E; [|done].
    destruct (ni_snapshots _ Hi _ _ E) as (n & Hn & Hps). unfold repo_get. rewrite Hn. cbn [snd].
    split_and!; [by apply (ns_inv_set_root _ _ _ n)|done| |done]. intros h q _. by apply resolve_same.
Qed.

(** The heads set during a run are stored when they are set. *)
Fixpoint heads_stored (ops : list ns_op) (ns : Namespace) : Prop :=
  match ops with
  | [] => True
  | o :: ops => (∀ path h ts create, o = NSet path h ts create → is_Some (repo ns !! h)) ∧ heads_stored ops (ns_step o ns)
  end.

Definition ns_run (ops : list ns_op) (ns : Namespace) : Namespace := fold_left (λ ns o, ns_step o ns) ops ns.

Lemma ns_run_inv ops ns : ns_inv ns → heads_stored ops ns →
  ns_inv (ns_run ops ns) ∧ (∀ h n, repo ns !! h = Some n → repo (ns_run ops ns) !! h = Some n) ∧
  (∀ h q, is_Some (repo ns !! h) → resolve_parts (ns_run ops ns) h q = resolve_parts ns h q) ∧
  (∀ name, NSnapshot name ∉ ops → snapshots (ns_run ops ns) !! name = snapshots ns !! name).
Proof.
  revert ns. induction ops as [|o ops IH]; intros ns Hi Hs; [done|]. destruct Hs as [Ho Hs].
  destruct (ns_step_inv o ns Hi Ho) as (Hi1 & Hk1 & Hr1 & Hn1). destruct (IH _ Hi1 Hs) as (Hi2 & Hk2 & Hr2 & Hn2).
  unfold ns_run in *. cbn [fold_left]. split_and!; [done|by auto| |].
  - intros h q Hh. rewrite Hr2; [by apply Hr1|]. destruct Hh as [n Hn]. eauto.
  - intros name [Hne Hnin]%not_elem_of_cons. rewrite Hn2 by done. apply Hn1. congruence.
Qed.

(** A snapshot is a copy of the whole tree. Take a snapshot, then set any
    paths, take other snapshots, restore others: restoring the snapshot
    succeeds, and every path resolves as it did when it was taken. *)
Theorem snapshot_restores (ns : Namespace) (name : string) (ops : list ns_op) :
  ns_inv ns → NSnapshot name ∉ ops → heads_stored ops (snd (snapshot name ns)) →
  let '(r, ns') := ns_restore name (ns_run ops (snd (snapshot name ns))) in
  r = inr (root_head ns) ∧ ns_inv ns' ∧ ∀ path, resolve ns' path = resolve ns path.
Proof.
  intros Hi Hnin Hs. destruct (ns_step_inv (NSnapshot name) ns Hi) as (Hi1 & Hk1 & Hr1 & _); [done|]. cbn [ns_step] in *.
  destruct (ns_run_inv ops _ Hi1 Hs) as (Hi2 & Hk2 & Hr2 & Hn2). set (ns2 := ns_run ops _) in *.
  destruct (ni_root _ Hi) as (n & Hn & Hps). pose proof (Hk2 _ _ (Hk1 _ _ Hn)) as Hn'.
  assert (snapshots ns2 !! name = Some (root_head ns)) as Hsnap.
  { rewrite Hn2 by done. cbn [snapshot snd with_snapshots snapshots]. by rewrite lookup_insert_eq. }
  unfold ns_restore. rewrite Hsnap. unfold repo_get. rewrite Hn'. split_and!; [done|by apply (ns_inv_set_root _ _ _ n)|].
  intros path. unfold resolve, resolve_under. cbn [set_root root_head]. rewrite (resolve_same ns2) by done.
  rewrite Hr2, Hr1; [done|by exists n|]. exists n. by apply Hk1.
Qed.

(** ** Time travel *)
Lemma choose_root_last pre post ts root t : ts <= t → Forall (λ e : N * N, t < fst e) post →
  choose_root (pre ++ (ts, root) :: post) t = Some root.
Proof.
  intros Hts Hpost. unfold choose_root. rewrite rev_app_distr. cbn [rev]. rewrite <- (assoc_L (++)), find_app.
  assert (List.find (λ e : N * N, fst e <=? t) (rev post) = None) as ->.
  { destruct (List.find _ (rev post)) as [e|] eqn:E; [|done]. apply find_some in E as [Hin Hle]. apply in_rev, list_elem_of_In in Hin.
    pose proof (proj1 (Forall_forall _ _) Hpost e Hin) as Hlt. cbn in Hlt. apply N.leb_le in Hle. lia. }
  cbn. rewrite (proj2 (N.leb_le _ _) Hts). by destruct pre as [|[] ?].
Qed.

Lemma resolve_at_last ns pre post ts root path t fuel : ns_inv ns → root_chain ns = pre ++ (ts, root) :: post → ts <= t →
  Forall (λ e : N * N, t < fst e) post → resolve_at (S fuel) ns path t = Some (resolve_under ns root path).
Proof.
  intros Hi Hch Hts Hpost. unfold resolve_at. rewrite Hch, choose_root_last by done.
  destruct (ni_chain _ Hi ts root) as (n & Hn & Ht & Hps); [rewrite Hch; apply elem_of_app; right; by left|].
  cbn [walk_back]. unfold repo_get. rewrite Hn, Ht. rewrite (proj2 (N.ltb_ge _ _) Hts).
  destruct (Nat.ltb_spec 1 (length (parents n))); [lia|]. done.
Qed.

(** C27: time travel shows the past. Set a path at time [ts], then do anything
    whose entries in the history are later than [t], [t] at or after [ts]:
    resolving any path as of [t] gives what it resolved to right after the
    write at [ts]. *)
Theorem time_travel_shows_past (ns : Namespace) (path q : string) (new_head ts t : N) (create : bool) (ops : list ns_op) (root : N) (post : list (N * N)) :
  ns_inv ns → is_Some (repo ns !! new_head) → path_parts path ≠ [] → fst (set_path_inner path new_head create ts ns) = inr root →
  let ns1 := snd (set_path_inner path new_head create ts ns) in
  heads_stored ops ns1 → root_chain (ns_run ops ns1) = root_chain ns1 ++ post → ts <= t → Forall (λ e, t < fst e) post →
  resolve_at 1 (ns_run ops ns1) q t = Some (resolve ns1 q).
Proof.
  intros Hi Hh Hp Hroot ns1 Hs Hch Hts Hpost. pose proof (set_path_inner_ok ns path new_head ts create Hi Hh Hp) as Hset.
  subst ns1. destruct (set_path_inner path new_head create ts ns) as [r ns1]. cbn [fst snd] in *. subst r.
  destruct Hset as (Hi1 & _ & _ & Hrh & Hchain & _). destruct (ns_run_inv ops ns1 Hi1 Hs) as (Hi2 & _ & Hr2 & _).
  rewrite (resolve_at_last _ (root_chain ns) post ts root); [|done| |done|done].
  - unfold resolve, resolve_under. rewrite Hrh. f_equal. apply Hr2. rewrite <- Hrh. by apply root_stored.
  - by rewrite Hch, Hchain, <- (assoc_L (++)).
Qed.

(** A restore rewrites the past. It appends the restored root to the history
    under the time the root was made, not the time of the restore, and time
    travel takes the last entry that is old enough: from then on every time [t]
    after the snapshot resolves in the restored root, whatever was written
    between the snapshot and [t]. *)
Theorem restore_rewrites_past (ns : Namespace) (name : string) (root t : N) (n : VersionNode) (path : string) :
  ns_inv ns → snapshots ns !! name = Some root → repo ns !! root = Some n → timestamp_ns n <= t →
  resolve_at 1 (snd (ns_restore name ns)) path t = Some (resolve_under ns root path).
Proof.
  intros Hi Hsn Hn Ht. destruct (ni_snapshots _ Hi _ _ Hsn) as (n' & Hn' & Hps). simplify_eq.
  unfold ns_restore, repo_get. rewrite Hsn, Hn. cbn [snd].
  rewrite (resolve_at_last _ (root_chain ns) [] (timestamp_ns n) root); [|by apply (ns_inv_set_root _ _ _ n)|done|done|done].
  f_equal. unfold resolve_under. by apply resolve_same.
Qed.

(** ** Diff *)

(** What the entry [c] at the path [p] between two roots means. *)
Definition changed (ns : Namespace) (a b : N) (p : list string) (c : Change) : Prop :=
  match c with
  | Modified => ∃ ha hb na nb, resolve_parts ns a p = inr ha ∧ resolve_parts ns b p = inr hb ∧ repo ns !! ha = Some na ∧ repo ns !! hb = Some nb ∧
      ¬ (kind na = KDirectory ∧ kind nb = KDirectory) ∧ (content_hash na ≠ content_hash nb ∨ kind na ≠ kind nb)
  | Removed => ∃ q x ha hb, p = q ++ [x] ∧ resolve_parts ns a p = inr ha ∧ resolve_parts ns b q = inr hb ∧ resolve_parts ns b p = inl PathNotFound
  | Added => ∃ q x ha hb, p = q ++ [x] ∧ resolve_parts ns b p = inr hb ∧ resolve_parts ns a q = inr ha ∧ resolve_parts ns a p = inl PathNotFound
  end.

Lemma changed_nil ns a b c : changed ns a b [] c ↔ c = Modified ∧ ∃ na nb, repo ns !! a = Some na ∧ repo ns !! b = Some nb ∧
  ¬ (kind na = KDirectory ∧ kind nb = KDirectory) ∧ (content_hash na ≠ content_hash nb ∨ kind na ≠ kind nb).
Proof.
  destruct c; cbn [changed resolve_parts]; split; try (by intros [? _]).
  - intros (q & x & ? & ? & Hnil & _). by destruct q.
  - intros (q & x & ? & ? & Hnil & _). by destruct q.
  - intros (ha & hb & na & nb & [= <-] & [= <-] & ?). split; [done|]. by exists na, nb.
  - intros (_ & na & nb & ?). by exists a, b, na, nb.
Qed.

Lemma snoc_cons_inv {A} (x : A) p q y : x :: p = q ++ [y] → (q = [] ∧ p = [] ∧ x = y) ∨ ∃ q', q = x :: q' ∧ p = q' ++ [y].
Proof. destruct q as [|z q]; cbn; intros [= -> ->]; [by left|right; by exists q]. Qed.

Lemma changed_cons ns a b ma mb x p c : children_of ns a = inr ma → children_of ns b = inr mb →
  changed ns a b (x :: p) c ↔
  match ma !! x, mb !! x with
  | Some ha, Some hb => changed ns ha hb p c
  | Some _, None => p = [] ∧ c = Removed
  | None, Some _ => p = [] ∧ c = Added
  | None, None => False
  end.
Proof.
  intros Ha Hb. destruct c; cbn [changed resolve_parts]; rewrite ?Ha, ?Hb.
  - split.
    + intros (q & y & ha & hb & Hq & H1 & H2 & H3). destruct (ma !! x) as [hx|] eqn:Ea, (mb !! x) as [hy|] eqn:Eb; try done.
      * apply snoc_cons_inv in Hq as [(-> & -> & <-)|(q' & -> & ->)]; [done|]. cbn [resolve_parts] in H2. rewrite Ha, Ea in H2. by exists q', y, ha, hb.
      * apply snoc_cons_inv in Hq as [(-> & -> & <-)|(q' & -> & ->)]; [done|]. cbn [resolve_parts] in H2. by rewrite Ha, Ea in H2.
    + destruct (ma !! x) as [hx|] eqn:Ea, (mb !! x) as [hy|] eqn:Eb; try done; [|by intros [_ ?]|].
      * intros (q & y & ha & hb & -> & H1 & H2 & H3). exists (x :: q), y, ha, hb. split_and!; [done|done| |done]. cbn [resolve_parts]. by rewrite Ha, Ea.
      * intros [-> _]. by exists [], x, a, hy.
  - split.
    + intros (q & y & ha & hb & Hq & H1 & H2 & H3). destruct (ma !! x) as [hx|] eqn:Ea, (mb !! x) as [hy|] eqn:Eb; try done.
      * apply snoc_cons_inv in Hq as [(-> & -> & <-)|(q' & -> & ->)]; [done|]. cbn [resolve_parts] in H2. rewrite Hb, Eb in H2. by exists q', y, ha, hb.
      * apply snoc_cons_inv in Hq as [(-> & -> & <-)|(q' & -> & ->)]; [done|]. cbn [resolve_parts] in H2. by rewrite Hb, Eb in H2.
    + destruct (ma !! x) as [hx|] eqn:Ea, (mb !! x) as [hy|] eqn:Eb; try done; [| |by intros [_ ?]].
      * intros (q & y & ha & hb & -> & H1 & H2 & H3). exists (x :: q), y, ha, hb. split_and!; [done|done| |done]. cbn [resolve_parts]. by rewrite Hb, Eb.
      * intros [-> _]. by exists [], x, hx, b.
  - destruct (ma !! x) as [hx|] eqn:Ea, (mb !! x) as [hy|] eqn:Eb; [done|..].
    all: split; [by intros (? & ? & ? & ? & ? & ? & _)|by intros []].
Qed.

(** Roots that resolve alike have no differences. *)
Lemma changed_same ns a b p c : (∀ q, q ≠ [] → resolve_parts ns a q = resolve_parts ns b q) → p ≠ [] → ¬ changed ns a b p c.
Proof.
  intros Hs Hp Hc. destruct c; cbn [changed] in Hc.
  - destruct Hc as (q & x & ha & hb & -> & H1 & _ & H2). rewrite Hs in H2 by done. congruence.
  - destruct Hc as (q & x & ha & hb & -> & H1 & _ & H2). rewrite Hs in H1 by done. congruence.
  - destruct Hc as (ha & hb & na & nb & H1 & H2 & H3 & H4 & H5 & H6). rewrite Hs in H1 by done. simplify_eq. destruct H6; congruence.
Qed.

(** Below two nodes that are not both directories there is nothing to compare. *)
Lemma changed_files ns a b na nb p c : repo ns !! a = Some na → repo ns !! b = Some nb → ¬ (kind na = KDirectory ∧ kind nb = KDirectory) →
  p ≠ [] → ¬ changed ns a b p c.
Proof.
  intros Ha Hb Hk Hp. destruct p as [|x p]; [done|].
  assert (∀ h n, repo ns !! h = Some n → kind n ≠ KDirectory → ∀ q y, resolve_parts ns h (y :: q) = inl NotADirectory) as Hfile.
  { intros h n Hn Hkn q y. cbn [resolve_parts]. unfold children_of, repo_get. by rewrite Hn, bool_decide_false by done. }
  assert (kind na ≠ KDirectory ∨ kind nb ≠ KDirectory) as Hor by (destruct (decide (kind na = KDirectory)); tauto).
  intros Hc. destruct Hor as [Hka|Hkb].
  - pose proof (Hfile _ _ Ha Hka) as Hf. destruct c; cbn [changed] in Hc.
    + destruct Hc as (q & y & ha & hb & _ & _ & _ & H4). by rewrite Hf in H4.
    + destruct Hc as (q & y & ha & hb & _ & H4 & _). by rewrite Hf in H4.
    + destruct Hc as (ha & hb & ? & ? & H4 & _). by rewrite Hf in H4.
  - pose proof (Hfile _ _ Hb Hkb) as Hf. destruct c; cbn [changed] in Hc.
    + destruct Hc as (q & y & ha & hb & _ & H4 & _). by rewrite Hf in H4.
    + destruct Hc as (q & y & ha & hb & _ & _ & _ & H4). by rewrite Hf in H4.
    + destruct Hc as (ha & hb & ? & ? & _ & H4 & _). by rewrite Hf in H4.
Qed.

Definition show_changes (prefix : list string) (l : list (list string * Change)) : list DiffEntry :=
  map (λ e, mkDiff (diff_root_path (prefix ++ fst e)) (snd e)) l.

(** [out] grew by the changes between [a] and [b]. *)
Definition diff_ok (ns : Namespace) (a b : N) (prefix : list string) (out out' : list DiffEntry) : Prop :=
  ∃ L, out' = out ++ show_changes prefix L ∧ ∀ p c, (p, c) ∈ L ↔ changed ns a b p c.

Lemma diff_none ns a b prefix out : (∀ p c, ¬ changed ns a b p c) → diff_ok ns a b prefix out out.
Proof. intros Hn. exists []. split; [by rewrite app_nil_r|]. intros p c. split; [by intros ?%elem_of_nil|]. intros Hc. by destruct (Hn p c). Qed.

Lemma show_changes_below prefix x l : show_changes (prefix ++ [x]) l = show_changes prefix (map (λ e, (x :: fst e, snd e)) l).
Proof. unfold show_changes. rewrite map_map. apply map_ext. intros [p c]. cbn [fst snd]. by rewrite <- (assoc_L (++)). Qed.

Lemma show_nonempty prefix x : diff_root_path (prefix ++ [x]) = show_prefix (prefix ++ [x]).
Proof. unfold diff_root_path. destruct (prefix ++ [x]) eqn:E; [by destruct prefix|done]. Qed.

(** The loop over the names of two directories. *)
Definition diff_names (walk : N → N → list string → list DiffEntry → option (DagError + list DiffEntry)) (ma mb : ChildMap) (prefix : list string)
    (names : list string) (acc : option (DagError + list DiffEntry)) : option (DagError + list DiffEntry) :=
  fold_left (λ acc name,
    match acc with
    | Some (inr out) =>
        let p := prefix ++ [name] in
        match ma !! name, mb !! name with
        | Some ha, Some hb => walk ha hb p out
        | Some _, None => Some (inr (out ++ [mkDiff (show_prefix p) Removed]))
        | None, Some _ => Some (inr (out ++ [mkDiff (show_prefix p) Added]))
        | None, None => Some (inr out)
        end
    | _ => acc
    end) names acc.

Lemma diff_names_stuck walk ma mb prefix names acc : (∀ out, acc ≠ Some (inr out)) → diff_names walk ma mb prefix names acc = acc.
Proof.
  intros Ha. unfold diff_names. induction names as [|x names IH]; [done|]. cbn [fold_left].
  destruct acc as [[e|out]|]; [apply IH|by destruct (Ha out)|apply IH].
Qed.

Lemma diff_names_cons walk ma mb prefix x names out : diff_names walk ma mb prefix (x :: names) (Some (inr out)) =
  diff_names walk ma mb prefix names
    match ma !! x, mb !! x with
    | Some ha, Some hb => walk ha hb (prefix ++ [x]) out
    | Some _, None => Some (inr (out ++ [mkDiff (show_prefix (prefix ++ [x])) Removed]))
    | None, Some _ => Some (inr (out ++ [mkDiff (show_prefix (prefix ++ [x])) Added]))
    | None, None => Some (inr out)
    end.
Proof. done. Qed.

Lemma diff_names_ok ns walk a b ma mb prefix names out out' :
  children_of ns a = inr ma → children_of ns b = inr mb → NoDup names →
  (∀ x ha hb o o', ma !! x = Some ha → mb !! x = Some hb → walk ha hb (prefix ++ [x]) o = Some (inr o') → diff_ok ns ha hb (prefix ++ [x]) o o') →
  diff_names walk ma mb prefix names (Some (inr out)) = Some (inr out') →
  ∃ L, out' = out ++ show_changes prefix L ∧ ∀ p c, (p, c) ∈ L ↔ ∃ x p', p = x :: p' ∧ x ∈ names ∧ changed ns a b p c.
Proof.
  intros Ha Hb Hnd Hwalk. revert out. induction names as [|x names IH]; intros out Hf.
  { injection Hf as <-. exists []. split; [by rewrite app_nil_r|]. intros p c. split; [by intros ?%elem_of_nil|]. by intros (? & ? & _ & ?%elem_of_nil & _). }
  apply NoDup_cons in Hnd as [Hx Hnd]. rewrite diff_names_cons in Hf.
  assert (∃ o1 L1, diff_names walk ma mb prefix names (Some (inr o1)) = Some (inr out') ∧ o1 = out ++ show_changes prefix L1 ∧
    ∀ p c, (p, c) ∈ L1 ↔ ∃ p', p = x :: p' ∧ changed ns a b p c) as (o1 & L1 & Hf1 & -> & HL1).
  { pose proof (λ p c, changed_cons ns a b ma mb x p c Ha Hb) as Hcc. destruct (ma !! x) as [hx|] eqn:Ea, (mb !! x) as [hy|] eqn:Eb.
    - destruct (walk hx hy (prefix ++ [x]) out) as [[e|o1]|] eqn:Ew; [..|].
      1, 3: rewrite diff_names_stuck in Hf; done.
      destruct (Hwalk x hx hy out o1 Ea Eb Ew) as (L & -> & HL). eexists _, _. split; [done|]. split; [by rewrite show_changes_below|].
      intros p c. rewrite list_elem_of_In, in_map_iff. split.
      + intros ([p' c'] & [= <- <-] & Hin). exists p'. split; [done|]. apply Hcc, HL, list_elem_of_In. done.
      + intros (p' & -> & Hc%Hcc). exists (p', c). split; [done|]. by apply list_elem_of_In, HL.
    - eexists _, [([x], Removed)]. split; [done|]. split; [unfold show_changes; cbn [map fst snd]; by rewrite show_nonempty|].
      intros p c. rewrite list_elem_of_singleton. split; [intros [= -> ->]; exists []; split; [done|by apply Hcc]|].
      intros (p' & -> & [-> ->]%Hcc). done.
    - eexists _, [([x], Added)]. split; [done|]. split; [unfold show_changes; cbn [map fst snd]; by rewrite show_nonempty|].
      intros p c. rewrite list_elem_of_singleton. split; [intros [= -> ->]; exists []; split; [done|by apply Hcc]|].
      intros (p' & -> & [-> ->]%Hcc). done.
    - eexists _, []. split; [done|]. split; [by rewrite app_nil_r|]. intros p c. split; [by intros ?%elem_of_nil|]. by intros (p' & -> & ?%Hcc). }
  destruct (IH Hnd _ Hf1) as (L2 & -> & HL2). exists (L1 ++ L2). split; [unfold show_changes; by rewrite map_app, (assoc_L (++))|].
  intros p c. rewrite elem_of_app, HL1, HL2. split.
  - intros [(p' & -> & Hc)|(y & p' & -> & Hy & Hc)]; [exists x, p'|exists y, p']; (split_and!; [done| |done]); [by left|by right].
  - intros (y & p' & -> & [->|Hy]%elem_of_cons & Hc); [left; by exists p'|right; by exists y, p'].
Qed.

Lemma names_of_elem ma mb x : x ∈ names_of ma mb ↔ is_Some (ma !! x) ∨ is_Some (mb !! x).
Proof. unfold names_of. rewrite merge_sort_Permutation, elem_of_elements, elem_of_union, !elem_of_dom. done. Qed.

Lemma diff_files ns a b na nb prefix out out' : repo ns !! a = Some na → repo ns !! b = Some nb → ¬ (kind na = KDirectory ∧ kind nb = KDirectory) →
  (if negb (content_hash na =? content_hash nb) || negb (bool_decide (kind na = kind nb))
   then Some (inr (out ++ [mkDiff (diff_root_path prefix) Modified])) else Some (inr out) : option (DagError + list DiffEntry)) = Some (inr out') →
  diff_ok ns a b prefix out out'.
Proof.
  intros Hna Hnb Hk. assert (∀ p c, p ≠ [] → ¬ changed ns a b p c) as Hcons by (intros p c; by apply (changed_files ns a b na nb)).
  destruct (decide (content_hash na ≠ content_hash nb ∨ kind na ≠ kind nb)) as [Hd|Hd].
  - replace (negb (content_hash na =? content_hash nb) || negb (bool_decide (kind na = kind nb))) with true.
    2: { symmetry. apply orb_true_iff. rewrite !negb_true_iff, N.eqb_neq, bool_decide_eq_false. done. }
    intros [= <-]. exists [([], Modified)]. split; [unfold show_changes; cbn [map fst snd]; by rewrite app_nil_r|].
    intros p c. rewrite list_elem_of_singleton. split.
    + intros [= -> ->]. apply changed_nil. split; [done|]. by exists na, nb.
    + intros Hch. destruct p as [|x p]; [|by destruct (Hcons (x :: p) c)]. by apply changed_nil in Hch as [-> _].
  - replace (negb (content_hash na =? content_hash nb) || negb (bool_decide (kind na = kind nb))) with false.
    2: { symmetry. apply orb_false_iff. rewrite !negb_false_iff, N.eqb_eq, bool_decide_eq_true. split; apply dec_stable; tauto. }
    intros [= <-]. apply diff_none. intros [|x p] c; [|by apply Hcons]. rewrite changed_nil. intros (_ & na' & nb' & H1 & H2 & _ & H3).
    simplify_eq. tauto.
Qed.

Lemma diff_walk_ok fuel ns a b prefix out out' : ns_wf ns → is_Some (repo ns !! a) → is_Some (repo ns !! b) →
  diff_walk fuel ns a b prefix out = Some (inr out') → diff_ok ns a b prefix out out'.
Proof.
  intros Hw. revert a b prefix out out'. induction fuel as [|fuel IH]; intros a b prefix out out' Ha Hb; cbn [diff_walk]; [done|].
  destruct (N.eqb_spec a b) as [->|Hne].
  { intros [= <-]. apply diff_none. intros [|x p] c; [|by apply changed_same]. rewrite changed_nil. intros (_ & na & nb & H1 & H2 & _ & H3). simplify_eq. destruct H3; congruence. }
  destruct Ha as [na Hna], Hb as [nb Hnb]. unfold repo_get. rewrite Hna, Hnb.
  destruct (decide (kind na = KDirectory ∧ kind nb = KDirectory)) as [[Ka Kb]|Hk].
  - rewrite Ka, Kb. destruct (children_of_cases ns a Hw ltac:(by exists na)) as [[ma Hma]|Hma].
    2: { unfold children_of, repo_get in Hma. rewrite Hna, bool_decide_true in Hma by done. cbn [negb] in Hma. by case_match. }
    destruct (children_of_cases ns b Hw ltac:(by exists nb)) as [[mb Hmb]|Hmb].
    2: { unfold children_of, repo_get in Hmb. rewrite Hnb, bool_decide_true in Hmb by done. cbn [negb] in Hmb. by case_match. }
    assert (∀ c, ¬ changed ns a b [] c) as Hnil.
    { intros c. rewrite changed_nil. intros (_ & na' & nb' & H1 & H2 & H3 & _). simplify_eq. by destruct H3. }
    destruct (N.eqb_spec (content_hash na) (content_hash nb)) as [Hc|Hc].
    + intros [= <-]. apply diff_none. intros [|x p] c; [apply Hnil|]. apply changed_same; [|done]. intros [|y q] Hq; [done|]. cbn [resolve_parts].
      assert (children_of ns a = children_of ns b) as ->; [|done]. unfold children_of, repo_get. by rewrite Hna, Hnb, Ka, Kb, Hc.
    + rewrite Hma, Hmb. intros Hf. destruct (diff_names_ok ns (diff_walk fuel ns) a b ma mb prefix (names_of ma mb) out out') as (L & -> & HL); try done.
      * unfold names_of. rewrite merge_sort_Permutation. apply NoDup_elements.
      * intros x ha hb o o' Hx Hy. apply IH; [exact (children_stored ns a ma x ha Hw Hma Hx)|exact (children_stored ns b mb x hb Hw Hmb Hy)].
      * exists L. split; [done|]. intros p c. rewrite HL. split; [by intros (? & ? & _ & _ & ?)|]. intros Hch.
        destruct p as [|x p]; [by destruct (Hnil c)|]. exists x, p. split_and!; [done| |done]. apply names_of_elem.
        apply (changed_cons ns a b ma mb x p c Hma Hmb) in Hch. destruct (ma !! x), (mb !! x); eauto; done.
  - pose proof (diff_files ns a b na nb prefix out out' Hna Hnb Hk) as Hfile.
    destruct (kind na), (kind nb); try exact Hfile. by destruct Hk.
Qed.

(** ** Termination of the diff *)

(** A child is of lower rank than its directory. *)
Definition ranked (ns : Namespace) (rank : N → nat) : Prop :=
  ∀ a m x h, children_of ns a = inr m → m !! x = Some h → (rank h < rank a)%nat.

Lemma diff_names_total (walk : N → N → list string → list DiffEntry → option (DagError + list DiffEntry)) ma mb prefix names out :
  (∀ x ha hb o, ma !! x = Some ha → mb !! x = Some hb → ∃ o', walk ha hb (prefix ++ [x]) o = Some (inr o')) →
  ∃ out', diff_names walk ma mb prefix names (Some (inr out)) = Some (inr out').
Proof.
  intros Hw. revert out. induction names as [|x names IH]; intros out; [by eexists|]. rewrite diff_names_cons.
  destruct (ma !! x) as [ha|] eqn:Ea, (mb !! x) as [hb|] eqn:Eb; try apply IH. destruct (Hw x ha hb out Ea Eb) as [o' ->]. apply IH.
Qed.

Lemma diff_walk_total fuel ns rank a b prefix out : ns_wf ns → ranked ns rank → is_Some (repo ns !! a) → is_Some (repo ns !! b) →
  (rank a < fuel)%nat → ∃ out', diff_walk fuel ns a b prefix out = Some (inr out').
Proof.
  intros Hw Hr. revert a b prefix out. induction fuel as [|fuel IH]; intros a b prefix out Ha Hb Hf; [lia|]. cbn [diff_walk].
  destruct (N.eqb_spec a b); [by eexists|]. pose proof Ha as [na Hna]. pose proof Hb as [nb Hnb]. unfold repo_get. rewrite Hna, Hnb.
  assert (∀ o : list DiffEntry, ∃ out', (if negb (content_hash na =? content_hash nb) || negb (bool_decide (kind na = kind nb))
    then Some (inr (o ++ [mkDiff (diff_root_path prefix) Modified])) else Some (inr o) : option (DagError + list DiffEntry)) = Some (inr out')) as Hfile
    by (intros o; destruct (_ || _); by eexists).
  destruct (kind na) eqn:Ka; try apply Hfile. destruct (kind nb) eqn:Kb; try apply Hfile. destruct (_ =? _); [by eexists|].
  destruct (children_of_cases ns a Hw Ha) as [[ma Hma]|Hma].
  2: { unfold children_of, repo_get in Hma. rewrite Hna, bool_decide_true in Hma by done. cbn [negb] in Hma. by case_match. }
  destruct (children_of_cases ns b Hw Hb) as [[mb Hmb]|Hmb].
  2: { unfold children_of, repo_get in Hmb. rewrite Hnb, bool_decide_true in Hmb by done. cbn [negb] in Hmb. by case_match. }
  rewrite Hma, Hmb. destruct (diff_names_total (diff_walk fuel ns) ma mb prefix (names_of ma mb) out) as [out' Hout]; [|by exists out'].
  intros x ha hb o Hx Hy. apply IH; [exact (children_stored ns a ma x ha Hw Hma Hx)|exact (children_stored ns b mb x hb Hw Hmb Hy)|]. specialize (Hr _ _ _ _ Hma Hx). lia.
Qed.


(** ** A fresh namespace *)
Lemma ns_new_ok node ts : ∃ ns, ns_new node ts = (inr tt, ns) ∧ ns_inv ns ∧ children_of ns (root_head ns) = inr ∅ ∧
  (∀ h, is_Some (repo ns !! h) → h = root_head ns) ∧ ∃ n, repo ns !! root_head ns = Some n ∧ timestamp_ns n = ts.
Proof.
  unfold ns_new. set (root := vnode_new _ _ _ _ _ _). unfold repo_put.
  assert (verify root = true) as Hv by apply vnode_new_verifies. rewrite Hv. cbn [negb]. eexists. split; [done|].
  assert (∀ h n, <[self_hash root := root]> (∅ : gmap N VersionNode) !! h = Some n → h = self_hash root ∧ n = root) as Hone.
  { intros h n. rewrite lookup_insert_Some, lookup_empty. intros [[<- <-]|[_ ?]]; done. }
  split_and!.
  - constructor; cbn [repo root_head root_chain snapshots].
    + constructor; cbn [repo dirs].
      * by intros h n [-> ->]%Hone.
      * intros c m [<- <-]%lookup_singleton_Some. done.
      * intros h n [-> ->]%Hone _. change (content_hash root) with (dir_content_hash ∅). rewrite lookup_singleton_eq. eauto.
      * intros c m p h [<- <-]%lookup_singleton_Some. by rewrite lookup_empty.
    + exists root. rewrite lookup_insert_eq. split; [done|cbn; lia].
    + intros ts' h [= -> ->]%list_elem_of_singleton. exists root. rewrite lookup_insert_eq. split_and!; [done|done|cbn; lia].
    + by intros name h.
  - unfold children_of, repo_get. cbn [repo root_head dirs]. rewrite lookup_insert_eq, bool_decide_true by done. cbn [negb].
    change (content_hash root) with (dir_content_hash ∅). by rewrite lookup_singleton_eq.
  - by intros h [n [-> _]%Hone].
  - exists root. cbn [repo root_head]. by rewrite lookup_insert_eq.
Qed.

(** ** Checkpoints *)
Lemma repo_load_ok flat r : NoDup flat.*1 → (∀ h n, (h, n) ∈ flat → self_hash n = h ∧ verify n = true) →
  repo_load flat r = inr (list_to_map flat ∪ r).
Proof.
  revert r. induction flat as [|[h n] flat IH]; intros r Hnd Hok; cbn [repo_load].
  { by rewrite list_to_map_nil, (left_id_L ∅ (∪)). }
  rewrite fmap_cons in Hnd. apply NoDup_cons in Hnd as [Hh Hnd].
  destruct (Hok h n ltac:(by left)) as [-> ->]. rewrite N.eqb_refl. cbn [negb orb]. rewrite IH; [|done|by intros h' n' ?; apply Hok; right].
  rewrite list_to_map_cons, <- insert_union_l, <- insert_union_r; [done|]. by apply not_elem_of_list_to_map_1.
Qed.

(** Loading the state that was saved gives the namespace back, without the
    nodes waiting to be logged. *)
Lemma from_clone_state ns : ns_wf ns → from_state (clone_state ns) =
  inr (mkNs (repo ns) (dirs ns) (root_head ns) (root_chain ns) (snapshots ns) (clock ns) (node_id ns) []).
Proof.
  intros Hw. unfold from_state, clone_state. cbn [s_repo s_dirs s_root s_chain s_snapshots s_clock s_node].
  rewrite repo_load_ok; [|apply NoDup_fst_map_to_list|intros h n Hin; apply (nw_repo _ Hw); by apply elem_of_map_to_list].
  rewrite list_to_map_to_list, (right_id_L ∅ (∪)). do 2 f_equal.
  rewrite <- (list_to_map_to_list (dirs ns)) at 2. symmetry. apply list_to_map_proper; [apply NoDup_fst_map_to_list|apply Permutation_rev].
Qed.

(** C17: a namespace stays well formed. Start one, then set paths to stored
    heads, take snapshots and restore them in any order, and whether or not
    these calls succeed: every node is filed under its hash and verifies, every
    directory has its map and all its children, and the head, the history and
    the snapshots name stored roots; a checkpoint of it loads, and loads to the
    same namespace. *)
Theorem namespace_well_formed (node ts : N) (ops : list ns_op) :
  heads_stored ops (snd (ns_new node ts)) →
  let ns := ns_run ops (snd (ns_new node ts)) in
  fst (ns_new node ts) = inr tt ∧ ns_inv ns ∧
  from_state (clone_state ns) = inr (mkNs (repo ns) (dirs ns) (root_head ns) (root_chain ns) (snapshots ns) (clock ns) (node_id ns) []).
Proof.
  intros Hs ns. destruct (ns_new_ok node ts) as (ns0 & E & Hi & _). unfold ns. rewrite E in *. cbn [fst snd] in *.
  destruct (ns_run_inv ops ns0 Hi Hs) as [Hi' _]. split_and!; [done..|]. apply from_clone_state, Hi'.
Qed.

(** Setting a name in the empty root of a fresh namespace succeeds. *)
Lemma set_fresh ns path x h ts : ns_inv ns → children_of ns (root_head ns) = inr ∅ → is_Some (repo ns !! h) → path_parts path = [x] →
  ∃ root, fst (set_path_inner path h true ts ns) = inr root.
Proof.
  intros Hi Hc Hh Hp. unfold set_path_inner. rewrite Hp. cbn [set_path_recursive]. rewrite Hc, lookup_empty.
  destruct (new_dir_node_at_ok ns (<[x := h]> ∅) (root_head ns) ts (ni_wf _ Hi)) as (nr & ns' & -> & _).
  - intros p h' [[<- <-]|[_ ?]]%lookup_insert_Some; done.
  - by exists nr.
Qed.

End spec.

(** ** Examples *)

(** Injective codes: bits for bytes, and the code of a list of bytes as its
    hash. *)
Fixpoint bits (p : positive) : list byte := match p with xH => [x02] | xO p => x00 :: bits p | xI p => x01 :: bits p end.

Lemma bits_inj p q : bits p = bits q → p = q.
Proof. revert q. induction p as [p IH|p IH|]; intros [q|q|]; cbn; intros Heq; simplify_eq; try done; f_equal; by apply IH. Qed.

Definition code_hash (l : list byte) : N := Npos (encode (map Byte.to_N l)).

Lemma code_hash_inj a b : code_hash a = code_hash b → a = b.
Proof.
  unfold code_hash. intros [= Heq%(inj encode)]. revert b Heq. induction a as [|x a IH]; intros [|y b] Heq; try done. cbn in Heq.
  injection Heq as Hx Hr. f_equal; [|by apply IH]. by rewrite <- (byte_of_to_N x), Hx, byte_of_to_N.
Qed.

#[local] Instance kind_countable : Countable NodeKind :=
  inj_countable' (λ k, match k with KFile => 0%N | KDirectory => 1%N | KTombstone => 2%N end) (λ n, match n with 0%N => KFile | 1%N => KDirectory | _ => KTombstone end) ltac:(by intros []).

Definition flat_meta (m : FileMetadata) : N * N * N * list (string * list N) :=
  (owner m, group m, permissions m, map (λ e, (fst e, map Byte.to_N (snd e))) (map_to_list (xattrs m))).

Definition flat_body (b : VersionNodeBody) :=
  (b_content_hash b, b_parents b, b_vclock b, b_timestamp_ns b, b_kind b, flat_meta (b_meta b)).

#[local] Instance code_hashing : Hashing := {| hash_of := code_hash; serialize_body b := bits (encode (flat_body b)) |}.
#[local] Instance code_dirs : DirCodec := λ m, bits (encode m).

Lemma map_inj {A B} (f : A → B) l1 l2 : (∀ x y, f x = f y → x = y) → map f l1 = map f l2 → l1 = l2.
Proof. intros Hf. revert l2. induction l1 as [|x l1 IH]; intros [|y l2] Heq; try done. cbn in Heq. injection Heq as Hx Hr. f_equal; auto. Qed.

Lemma flat_meta_inj x y : flat_meta x = flat_meta y → x = y.
Proof.
  destruct x as [o g p xa], y as [o' g' p' ya]. unfold flat_meta. cbn [owner group permissions xattrs]. intros [= -> -> -> Hm]. f_equal.
  apply map_to_list_inj. apply reflexive_eq. revert Hm. apply map_inj. intros [k v] [k' v'] [= -> Hv]. f_equal.
  revert Hv. apply map_inj. intros a b Hab. by rewrite <- (byte_of_to_N a), Hab, byte_of_to_N.
Qed.

#[local] Instance code_free : CollisionFree.
Proof.
  constructor.
  - intros x y Hc. apply code_hash_inj, bits_inj, (inj encode) in Hc. pose proof (f_equal snd Hc) as Hm. destruct x as [c1 p1 v1 t1 k1 m1], y as [c2 p2 v2 t2 k2 m2]. unfold flat_body in *.
    cbn [b_content_hash b_parents b_vclock b_timestamp_ns b_kind b_meta snd] in *. apply flat_meta_inj in Hm. by simplify_eq.
  - intros x y Hc. unfold dir_content_hash in Hc. apply code_hash_inj, bits_inj, (inj encode) in Hc. done.
Qed.

Lemma set_path_spec_witness : ∃ ns root, ns_new 1 10 = (inr tt, ns) ∧ fst (set_path_inner "/a" (root_head ns) true 20 ns) = inr root ∧
  resolve (snd (set_path_inner "/a" (root_head ns) true 20 ns)) "/a" = inr (root_head ns).
Proof.
  destruct (ns_new_ok 1 10) as (ns & Hnew & Hi & Hc & _). destruct (set_fresh ns "/a" "a" (root_head ns) 20 Hi Hc) as [root Hroot].
  - by apply root_stored.
  - vm_compute. reflexivity.
  - exists ns, root. split; [exact Hnew|]. split; [exact Hroot|].
    pose proof (set_path_spec ns "/a" (root_head ns) 20 true Hi) as H. destruct (set_path_inner "/a" (root_head ns) true 20 ns) as [r ns'].
    cbn [fst snd] in *. rewrite Hroot in H. apply H; [by apply root_stored|vm_compute; discriminate].
Defined.

Lemma namespace_well_formed_witness : ∃ ns, ns_new 1 10 = (inr tt, ns) ∧
  ns_inv (ns_run [NSnapshot "s"; NSet "/a/b" (root_head ns) 20 true; NRestore "s"] ns).
Proof.
  destruct (ns_new_ok 1 10) as (ns & Hnew & Hi & _). exists ns. split; [exact Hnew|].
  pose proof (namespace_well_formed 1 10 [NSnapshot "s"; NSet "/a/b" (root_head ns) 20 true; NRestore "s"]) as H.
  rewrite Hnew in H. apply H. cbn [snd]. split; [intros ? ? ? ? Heq; discriminate Heq|].
  split; [|split; [intros ? ? ? ? Heq; discriminate Heq|exact I]].
  intros path h ts create Heq. injection Heq as <- <- <- <-. exact (root_stored ns Hi).
Defined.

Lemma snapshot_restores_witness : ∃ ns, ns_new 1 10 = (inr tt, ns) ∧
  let ns2 := ns_run [NSet "/a/b" (root_head ns) 20 true; NSnapshot "later"] (snd (snapshot "first" ns)) in
  fst (ns_restore "first" ns2) = inr (root_head ns) ∧ resolve (snd (ns_restore "first" ns2)) "/a" = resolve ns "/a".
Proof.
  destruct (ns_new_ok 1 10) as (ns & Hnew & Hi & Hc & _). exists ns. split; [exact Hnew|]. intros ns2.
  pose proof (snapshot_restores ns "first" [NSet "/a/b" (root_head ns) 20 true; NSnapshot "later"] Hi) as H. fold ns2 in H.
  destruct (ns_restore "first" ns2) as [r ns']. destruct H as (H1 & _ & H2).
  - intros [?|[?|?%elem_of_nil]%elem_of_cons]%elem_of_cons; [discriminate|discriminate|done].
  - split; [|split; [|exact I]]; intros path h ts create Heq; [|discriminate Heq]. injection Heq as <- <- <- <-.
    exact (root_stored ns Hi).
  - split; [exact H1|apply H2].
Defined.

Lemma time_travel_shows_past_witness : ∃ ns, ns_new 1 10 = (inr tt, ns) ∧
  resolve_at 1 (snd (set_path_inner "/a" (root_head ns) true 20 ns)) "/a" 25 = Some (resolve (snd (set_path_inner "/a" (root_head ns) true 20 ns)) "/a").
Proof.
  destruct (ns_new_ok 1 10) as (ns & Hnew & Hi & Hc & _). exists ns. split; [exact Hnew|].
  destruct (set_fresh ns "/a" "a" (root_head ns) 20 Hi Hc) as [root Hroot]; [by apply root_stored|vm_compute; reflexivity|].
  refine (time_travel_shows_past ns "/a" "/a" (root_head ns) 20 25 true [] root [] Hi _ _ Hroot _ _ _ _).
  - by apply root_stored.
  - vm_compute. discriminate.
  - exact I.
  - by rewrite app_nil_r.
  - vm_compute. discriminate.
  - constructor.
Defined.

Lemma restore_rewrites_past_witness : ∃ ns, ns_new 1 10 = (inr tt, ns) ∧
  let ns1 := snd (set_path_inner "/a" (root_head ns) true 20 (snd (snapshot "s" ns))) in
  resolve_at 1 (snd (ns_restore "s" ns1)) "/a" 25 = Some (resolve_under ns1 (root_head ns) "/a").
Proof.
  destruct (ns_new_ok 1 10) as (ns & Hnew & Hi & Hc & _ & n & Hn & Hts). exists ns. split; [exact Hnew|].
  destruct (ns_step_inv (NSnapshot "s") ns Hi) as (Hi1 & Hk1 & _); [done|].
  destruct (ns_step_inv (NSet "/a" (root_head ns) 20 true) (ns_step (NSnapshot "s") ns) Hi1) as (Hi2 & Hk2 & _ & Hs2).
  { intros path h ts create [= <- <- <- <-]. by exists n. }
  refine (restore_rewrites_past _ "s" (root_head ns) 25 n "/a" Hi2 _ _ _).
  - rewrite Hs2 by done. cbn [ns_step snapshot snd with_snapshots snapshots]. by rewrite lookup_insert_eq.
  - by apply Hk2, Hk1.
  - rewrite Hts. vm_compute. discriminate.
Defined.

