(* ===== verification/Engine.v ===== *)
(** * The storage engine of the cluster ([lionfs-cluster/src/engine.rs])

    Chunking, deduplication, compression, encryption, extents, version graph,
    path index and write-ahead log as the engine wires them together. The
    state is a record of the states of the parts; an operation is a function in
    the error-and-state monad, where [EPanic] is an index out of range and the
    state of a failed operation keeps what was done before the failure. The
    wall clock and what the log device does are arguments of the operations
    that use them. bincode, zstd, BLAKE3 and the ciphers are arguments; the
    order in which a hash map yields its keys and the comparisons of
    floating-point fractions are too. A failed device call leaves the device
    as it was. *)
From S2P Require Import Prelude Clocks Cdc ClusterCore Crypto Dedup Ecc BeTree Wal Devices StoreModel Namespace.
From Stdlib Require Import NArith ZArith Lia Strings.Byte Strings.String.
From stdpp Require Import base numbers gmap option list strings sorting.
#[local] Open Scope N_scope.

#[local] Abbreviation bytes := (list byte).

Inductive EngineError :=
  | EDag (e : DagError) | EStore (e : StoreError) | EWal (e : WalError) | ECdc (e : CdcError) | ECrypto (e : CryptoError)
  | EEcc (e : EccError) | ECodec | ENotFound | ECorruption | EOther | EPanic.

Inductive WalMode := Full | MetadataOnly.
#[export] Instance wal_mode_eq_dec : EqDecision WalMode.
Proof. solve_decision. Defined.

(** The fields the engine reads; the threshold of the cleaner is in
    [EngineEnv]. *)
Record EngineConfig := mkConfig {
  chunk_avg_bytes : nat; chunk_min_bytes : nat; chunk_max_bytes : nat; ec_k : nat; ec_m : nat; wal_mode : WalMode
}.

Record EngineStats := mkEStats {
  files_written : N; bytes_logical : N; bytes_physical : N; chunk_hits : N; chunk_misses : N; wal_records : N; wal_fsyncs : N;
  scrubs : N; heals : N
}.
Definition estats_default : EngineStats := mkEStats 0 0 0 0 0 0 0 0 0.

Record GcReport := mkGc { segments_cleaned : N; gc_moved : N; gc_bytes_moved : N; gc_reclaimed : N; free_bytes_now : N }.
Record ScrubReport := mkScrub { extents_checked : N; corruptions_found : N; healed : N; unhealable : N }.

Record EcGroup := mkGroup { shards : list N; shard_len : nat }.

Record StoredChunk := mkStored { desc : ExtentDescriptor; stored : N }.

(** The engine; the paths of its files are left out. *)
Record ClusterEngine (D : Type) := mkEngine {
  e_config : EngineConfig; e_ns : Namespace; e_store : StoreModel.Store D; e_wal : Wal; e_dedup : DedupIndex; e_chunker : Chunker;
  e_keys : KeyTree; e_domain_key : bytes; e_domain : DomainId; e_cipher : Cipher; chunk_map : gmap N StoredChunk;
  ec_groups : gmap N EcGroup; next_ec_group : N; e_ec : option RsCodec; path_index : BeTree bytes; e_vclock : VectorClock;
  e_hlc : Hlc; e_node : N; e_stats : EngineStats
}.
Arguments mkEngine {D}.
Arguments e_config {D}.
Arguments e_ns {D}.
Arguments e_store {D}.
Arguments e_wal {D}.
Arguments e_dedup {D}.
Arguments e_chunker {D}.
Arguments e_keys {D}.
Arguments e_domain_key {D}.
Arguments e_domain {D}.
Arguments e_cipher {D}.
Arguments chunk_map {D}.
Arguments ec_groups {D}.
Arguments next_ec_group {D}.
Arguments e_ec {D}.
Arguments path_index {D}.
Arguments e_vclock {D}.
Arguments e_hlc {D}.
Arguments e_node {D}.
Arguments e_stats {D}.

(** What a checkpoint saves. *)
Record CheckpointState := mkCheckpoint {
  ck_namespace : NamespaceState; ck_dedup : DedupState; ck_chunk_map : gmap N StoredChunk; ck_ec_groups : gmap N EcGroup;
  ck_next_ec_group : N; ck_path_index : BeTree bytes; ck_vclock : VectorClock; ck_hlc : Hlc; ck_node : N; ck_master : bytes;
  ck_domain : DomainId; ck_cipher : Cipher; ck_stats : EngineStats; ck_store : StoreState
}.

(** bincode of deduplication keys, chunk lists, version nodes and checkpoints;
    the keys of a [HashMap] in the order it yields them; [live_fraction <
    gc_utilization_threshold] and the comparison of two live fractions. *)
Class EngineEnv := {
  serialize_key : DomainId * N → bytes;
  ser_hashes : list N → option bytes; de_hashes : bytes → option (list N);
  vnode_to_bytes : VersionNode → bytes; vnode_from_bytes : bytes → option VersionNode;
  ser_state : CheckpointState → option bytes; de_state : bytes → option CheckpointState;
  keys_of : gmap N StoredChunk → list N;
  below_threshold : SegmentInfo → bool; less_live : SegmentInfo → SegmentInfo → bool
}.

(** The geometry of the prototype. *)
Definition GEO_ZONES : N := 8.
Definition GEO_ZONE_SIZE : N := 4 * 1024 * 1024.
Definition GEO_SEGMENT : N := 512 * 1024.
Definition MIN_TS_NS : N := 1000000000.
Definition index_config : TreeConfig := mkTreeConfig 8 32 32.

(** [Vec::resize(n, 0)] *)
Definition vec_resize (n : nat) (l : bytes) : bytes := take n l ++ replicate (n - length l) x00.

(** [slice::chunks(k)] *)
Fixpoint chunks_of {A} (fuel k : nat) (l : list A) : list (list A) :=
  match fuel, l with
  | S fuel, _ :: _ => take k l :: chunks_of fuel k (drop k l)
  | _, _ => []
  end.

(** A [BTreeMap] in order. *)
Definition name_le (a b : string * N) : Prop := str_le (fst a) (fst b).
#[export] Instance name_le_dec : RelDecision name_le.
Proof. intros a b. unfold name_le, str_le. apply _. Defined.
Definition children_list (m : ChildMap) : list (string * N) := merge_sort name_le (map_to_list m).

(** Compression with a tag byte: 0 is raw, 1 is zstd. *)
Definition zstd_compress `{!StoreCodec} (data : bytes) : bytes :=
  match zstd_encode data with
  | Some z => if (length z + 1 <? length data)%nat then x01 :: z else x00 :: data
  | None => x00 :: data
  end.

Definition zstd_decompress `{!StoreCodec} (data : bytes) : EngineError + bytes :=
  match data with
  | tag :: rest =>
      if Byte.eqb tag x00 then inr rest
      else if Byte.eqb tag x01 then match zstd_decode rest with Some d => inr d | None => inl ECorruption end
      else inl ECorruption
  | [] => inl ECorruption
  end.

Section engine.
Context {D : Type} `{!BlockDevice D} `{!StoreCodec} `{!Hashing} `{!DirCodec} `{!WalCodec} `{!CryptoPrims} `{!EngineEnv}.
#[local] Abbreviation Engine := (ClusterEngine D).
#[local] Abbreviation M := (EM EngineError Engine).

(** ** Field updates *)
Definition set_ns (x : Namespace) (e : Engine) : Engine :=
  mkEngine (e_config e) x (e_store e) (e_wal e) (e_dedup e) (e_chunker e) (e_keys e) (e_domain_key e) (e_domain e) (e_cipher e) (chunk_map e)
    (ec_groups e) (next_ec_group e) (e_ec e) (path_index e) (e_vclock e) (e_hlc e) (e_node e) (e_stats e).
Definition set_store (x : StoreModel.Store D) (e : Engine) : Engine :=
  mkEngine (e_config e) (e_ns e) x (e_wal e) (e_dedup e) (e_chunker e) (e_keys e) (e_domain_key e) (e_domain e) (e_cipher e) (chunk_map e)
    (ec_groups e) (next_ec_group e) (e_ec e) (path_index e) (e_vclock e) (e_hlc e) (e_node e) (e_stats e).
Definition set_wal (x : Wal) (e : Engine) : Engine :=
  mkEngine (e_config e) (e_ns e) (e_store e) x (e_dedup e) (e_chunker e) (e_keys e) (e_domain_key e) (e_domain e) (e_cipher e) (chunk_map e)
    (ec_groups e) (next_ec_group e) (e_ec e) (path_index e) (e_vclock e) (e_hlc e) (e_node e) (e_stats e).
Definition set_dedup (x : DedupIndex) (e : Engine) : Engine :=
  mkEngine (e_config e) (e_ns e) (e_store e) (e_wal e) x (e_chunker e) (e_keys e) (e_domain_key e) (e_domain e) (e_cipher e) (chunk_map e)
    (ec_groups e) (next_ec_group e) (e_ec e) (path_index e) (e_vclock e) (e_hlc e) (e_node e) (e_stats e).
Definition set_chunker (x : Chunker) (e : Engine) : Engine :=
  mkEngine (e_config e) (e_ns e) (e_store e) (e_wal e) (e_dedup e) x (e_keys e) (e_domain_key e) (e_domain e) (e_cipher e) (chunk_map e)
    (ec_groups e) (next_ec_group e) (e_ec e) (path_index e) (e_vclock e) (e_hlc e) (e_node e) (e_stats e).
Definition set_chunk_map (x : gmap N StoredChunk) (e : Engine) : Engine :=
  mkEngine (e_config e) (e_ns e) (e_store e) (e_wal e) (e_dedup e) (e_chunker e) (e_keys e) (e_domain_key e) (e_domain e) (e_cipher e) x
    (ec_groups e) (next_ec_group e) (e_ec e) (path_index e) (e_vclock e) (e_hlc e) (e_node e) (e_stats e).
Definition set_groups (x : gmap N EcGroup) (n : N) (e : Engine) : Engine :=
  mkEngine (e_config e) (e_ns e) (e_store e) (e_wal e) (e_dedup e) (e_chunker e) (e_keys e) (e_domain_key e) (e_domain e) (e_cipher e) (chunk_map e)
    x n (e_ec e) (path_index e) (e_vclock e) (e_hlc e) (e_node e) (e_stats e).
Definition set_index (x : BeTree bytes) (e : Engine) : Engine :=
  mkEngine (e_config e) (e_ns e) (e_store e) (e_wal e) (e_dedup e) (e_chunker e) (e_keys e) (e_domain_key e) (e_domain e) (e_cipher e) (chunk_map e)
    (ec_groups e) (next_ec_group e) (e_ec e) x (e_vclock e) (e_hlc e) (e_node e) (e_stats e).
Definition set_clocks (v : VectorClock) (h : Hlc) (e : Engine) : Engine :=
  mkEngine (e_config e) (e_ns e) (e_store e) (e_wal e) (e_dedup e) (e_chunker e) (e_keys e) (e_domain_key e) (e_domain e) (e_cipher e) (chunk_map e)
    (ec_groups e) (next_ec_group e) (e_ec e) (path_index e) v h (e_node e) (e_stats e).
Definition set_stats (x : EngineStats) (e : Engine) : Engine :=
  mkEngine (e_config e) (e_ns e) (e_store e) (e_wal e) (e_dedup e) (e_chunker e) (e_keys e) (e_domain_key e) (e_domain e) (e_cipher e) (chunk_map e)
    (ec_groups e) (next_ec_group e) (e_ec e) (path_index e) (e_vclock e) (e_hlc e) (e_node e) x.

(** ** Effects *)
Definition ask : M Engine := λ e, (inr e, e).
Definition modify (f : Engine → Engine) : M unit := λ e, (inr tt, f e).
Definition or_panic {A} (x : option A) : M A := match x with Some a => mret a | None => fail_with EPanic end.
Definition or_error {A E} (err : E → EngineError) (x : E + A) : M A := match x with inr a => mret a | inl e => fail_with (err e) end.

(** Calls that change one part. *)
Definition on_store {A} (f : StoreModel.Store D → (StoreError + A) * StoreModel.Store D) : M A :=
  λ e, let '(r, s) := f (e_store e) in or_error EStore r (set_store s e).
Definition on_ns {A} (f : Namespace → (DagError + A) * Namespace) : M A :=
  λ e, let '(r, ns) := f (e_ns e) in or_error EDag r (set_ns ns e).
Definition refcount_by (h : N) (delta : Z) : M unit := modify (λ e, set_store (refcount_add h delta (e_store e)) e).
Definition put_node (n : VersionNode) : M N :=
  on_ns (λ ns, let '(r, nodes) := repo_put n (repo ns) in (r, Namespace.with_nodes nodes (dirs ns) (created ns) ns)).

(** Counters. *)
Definition count_hit (s : EngineStats) : EngineStats :=
  mkEStats (files_written s) (bytes_logical s) (bytes_physical s) (wadd64 (chunk_hits s) 1) (chunk_misses s) (wal_records s) (wal_fsyncs s) (scrubs s) (heals s).
Definition count_miss (s : EngineStats) : EngineStats :=
  mkEStats (files_written s) (bytes_logical s) (bytes_physical s) (chunk_hits s) (wadd64 (chunk_misses s) 1) (wal_records s) (wal_fsyncs s) (scrubs s) (heals s).
Definition count_physical (n : N) (s : EngineStats) : EngineStats :=
  mkEStats (files_written s) (bytes_logical s) (wadd64 (bytes_physical s) n) (chunk_hits s) (chunk_misses s) (wal_records s) (wal_fsyncs s) (scrubs s) (heals s).
Definition count_commit (n : N) (s : EngineStats) : EngineStats :=
  mkEStats (files_written s) (bytes_logical s) (bytes_physical s) (chunk_hits s) (chunk_misses s) (wadd64 (wal_records s) n) (wadd64 (wal_fsyncs s) 1) (scrubs s) (heals s).
Definition count_file (n : N) (s : EngineStats) : EngineStats :=
  mkEStats (wadd64 (files_written s) 1) (wadd64 (bytes_logical s) n) (bytes_physical s) (chunk_hits s) (chunk_misses s) (wal_records s) (wal_fsyncs s) (scrubs s) (heals s).
Definition count_scrub (s : EngineStats) : EngineStats :=
  mkEStats (files_written s) (bytes_logical s) (bytes_physical s) (chunk_hits s) (chunk_misses s) (wal_records s) (wal_fsyncs s) (wadd64 (scrubs s) 1) (heals s).
Definition count_heal (s : EngineStats) : EngineStats :=
  mkEStats (files_written s) (bytes_logical s) (bytes_physical s) (chunk_hits s) (chunk_misses s) (wal_records s) (wal_fsyncs s) (scrubs s) (wadd64 (heals s) 1).
Definition counting (f : EngineStats → EngineStats) : M unit := modify (λ e, set_stats (f (e_stats e)) e).

Definition now (wall : N) : M N :=
  λ e, let '(ts, h) := tick_ns (N.max wall MIN_TS_NS) (e_hlc e) in (inr ts, set_clocks (e_vclock e) h e).

(** ** Writing *)
Definition ref_op (h : N) (delta : Z) (sc : StoredChunk) : WalRecord :=
  RRefOp h delta (zone_id (desc sc)) (offset_in_zone (desc sc)) (dlength (desc sc)) (stored sc).

Definition loc_of (d : ExtentDescriptor) : ChunkLocation := mkLoc (zone_id d) (offset_in_zone d) (dlength d).

(** Compress, encrypt, log (in [Full] mode) and store one chunk under the hash
    of its plaintext: the payload and its log records. *)
Definition stage_chunk (h : N) (plain : bytes) : M (bytes * list WalRecord) :=
  e ← ask;
  payload ← or_error ECrypto (encrypt_extent (e_domain_key e) h (zstd_compress plain) (e_cipher e));
  let data := if bool_decide (wal_mode (e_config e) = Full) then [RData h payload] else [] in
  let stored_hash := hash_of payload in
  d ← on_store (write_extent payload h false);
  let sc := mkStored d stored_hash in
  modify (λ e, set_chunk_map (<[h := sc]> (chunk_map e)) e) ;;
  refcount_by h 1 ;;
  e ← ask;
  ix ← or_panic (insert_new serialize_key (e_domain e) h (loc_of d) (N.of_nat (length plain)) (e_dedup e));
  modify (set_dedup ix) ;;
  mret (payload, data ++ [ref_op h 1 sc]).

(** One turn of the loop over the chunks. *)
Definition put_chunk (chunk : bytes) (acc : list N * list WalRecord) : M (list N * list WalRecord) :=
  let h := hash_of chunk in
  let hashes := fst acc ++ [h] in
  e ← ask;
  let '(loc, ix) := dedup_lookup (e_domain e) h (e_dedup e) in
  modify (set_dedup ix) ;;
  match loc with
  | Some _ =>
      counting count_hit ;;
      refcount_by h 1 ;;
      sc ← or_panic (chunk_map e !! h);
      modify (λ e, set_dedup (account_duplicate (N.of_nat (length chunk)) (e_dedup e)) e) ;;
      mret (hashes, snd acc ++ [ref_op h 1 sc])
  | None =>
      counting count_miss ;;
      '(payload, recs) ← stage_chunk h chunk;
      counting (count_physical (N.of_nat (length payload))) ;;
      mret (hashes, snd acc ++ recs)
  end.

Fixpoint put_chunks (chunks : list bytes) (acc : list N * list WalRecord) : M (list N * list WalRecord) :=
  match chunks with [] => mret acc | c :: chunks => acc ← put_chunk c acc; put_chunks chunks acc end.

(** The chunk list, itself stored under its hash. *)
Definition put_meta (hashes : list N) : M (N * list WalRecord) :=
  meta ← or_error (λ _ : unit, ECodec) (match ser_hashes hashes with Some b => inr b | None => inl tt end);
  let meta_hash := hash_of meta in
  e ← ask;
  match chunk_map e !! meta_hash with
  | None => '(_, recs) ← stage_chunk meta_hash meta; mret (meta_hash, recs)
  | Some sc =>
      refcount_by meta_hash 1 ;;
      modify (λ e, set_dedup (account_duplicate (N.of_nat (length meta)) (snd (dedup_lookup (e_domain e) meta_hash (e_dedup e)))) e) ;;
      mret (meta_hash, [ref_op meta_hash 1 sc])
  end.

(** The records of the directories an update made. *)
Definition created_records (l : list (VersionNode * option ChildMap)) : list WalRecord :=
  concat (map (λ '(n, children), RVNode (vnode_to_bytes n) ::
                 match children with Some m => [RDirMap (content_hash n) (children_list m)] | None => [] end) l).

Definition drain : M (list WalRecord) :=
  λ e, let '(l, ns) := drain_created (e_ns e) in (inr (created_records l), set_ns ns e).

(** [store_sync]: its result is dropped. *)
Definition store_sync : M unit :=
  modify (λ e, match checkpoint_noop (root_head (e_ns e)) (e_store e) with Some s => set_store s e | None => e end).

Definition commit (recs : list WalRecord) (o : io) : M unit :=
  λ e, match commit_batch recs o (e_wal e) with
       | (inr _, w) => (inr tt, set_wal w e)
       | (inl er, w) => (inl (EWal er), set_wal w e)
       end.

Definition path_bytes (path : string) : bytes := list_byte_of_string path.

(** A new version node, linked at the path: its hash and the log records up to
    the new head. *)
Definition link_node (path : string) (ps : list N) (content : N) (k : NodeKind) (m : FileMetadata) (ts : N) : M (N * list WalRecord) :=
  modify (λ e, set_clocks (vc_increment (e_node e) (e_vclock e)) (e_hlc e) e) ;;
  e ← ask;
  let node := vnode_new content ps (e_vclock e) ts k m in
  node_hash ← put_node node;
  new_root ← on_ns (set_path_at path node_hash ts);
  made ← drain;
  mret (node_hash, RVNode (vnode_to_bytes node) :: made ++ [RHeadOp new_root ts]).

(** The chunks of a file and its chunk list. *)
Definition stage_file (data : bytes) : M (N * list WalRecord) :=
  e ← ask;
  '(chunks, c) ← or_panic (chunk (e_chunker e) data);
  modify (set_chunker c) ;;
  '(hashes, recs) ← put_chunks chunks ([], []);
  '(meta_hash, mrecs) ← put_meta hashes;
  mret (meta_hash, recs ++ mrecs).

(** Sync in [MetadataOnly] mode, commit, statistics and path index. *)
Definition finish_put (path : string) (data : bytes) (o : io) (sync : bool) (recs : list WalRecord) (h : N) : M N :=
  (if sync then store_sync else mret tt) ;;
  commit recs o ;;
  counting (count_commit (N.of_nat (length recs))) ;;
  counting (count_file (N.of_nat (length data))) ;;
  e ← ask;
  t ← or_panic (be_insert (path_bytes path) (hash_bytes h) (path_index e));
  modify (set_index t) ;;
  mret h.

Definition put (path : string) (data : bytes) (wall : N) (o : io) : M N :=
  ts ← now wall;
  '(meta_hash, recs) ← stage_file data;
  e ← ask;
  let ps := match resolve (e_ns e) path with inr h => [h] | inl _ => [] end in
  '(node_hash, nrecs) ← link_node path ps meta_hash KFile meta_default ts;
  finish_put path data o (bool_decide (wal_mode (e_config e) = MetadataOnly)) (recs ++ nrecs) node_hash.

(** ** Reading *)
Definition fetch_and_verify (e : Engine) (sc : StoredChunk) : EngineError + bytes :=
  match read_extent (desc sc) (e_store e) with
  | inl er => inl (EStore er)
  | inr payload => if negb (stored sc =? hash_zero) && negb (hash_of payload =? stored sc) then inl ECorruption else inr payload
  end.

Definition decrypt_decompress (e : Engine) (h : N) (payload : bytes) : EngineError + bytes :=
  match decrypt_extent (e_domain_key e) h payload (e_cipher e) with
  | inl er => inl (ECrypto er)
  | inr compressed => zstd_decompress compressed
  end.

(** The shards of a group that can be read and verify, at full length. *)
Definition gather (e : Engine) (g : EcGroup) : list (option bytes) :=
  map (λ sh, match chunk_map e !! sh with
             | Some d => match fetch_and_verify e d with inr p => Some (vec_resize (shard_len g) p) | inl _ => None end
             | None => None
             end) (shards g).

Definition heal_chunk (h : N) : M bytes :=
  counting count_heal ;;
  e ← ask;
  sc ← or_error (λ _ : unit, ENotFound) (match chunk_map e !! h with Some sc => inr sc | None => inl tt end);
  group ← or_error (λ _ : unit, ECorruption) (match ec_groups e !! ecc_group_id (desc sc) with Some g => inr g | None => inl tt end);
  codec ← or_error (λ _ : unit, EOther) (match e_ec e with Some c => inr c | None => inl tt end);
  recovered ← or_error EEcc (codec_decode codec (gather e group));
  idx ← or_error (λ _ : unit, ECorruption) (match list_find (λ x, x = h) (shards group) with Some (i, _) => inr i | None => inl tt end);
  row ← or_panic (recovered !! idx);
  let healed := take (N.to_nat (dlength (desc sc))) row in
  on_store (write_raw (zone_id (desc sc)) (offset_in_zone (desc sc)) healed) ;;
  mret healed.

Definition read_chunk (h : N) : M bytes :=
  e ← ask;
  sc ← or_error (λ _ : unit, ENotFound) (match chunk_map e !! h with Some sc => inr sc | None => inl tt end);
  payload ← (match fetch_and_verify e sc with inr payload => mret payload | inl _ => heal_chunk h end);
  e ← ask;
  plain ← or_error id (decrypt_decompress e h payload);
  if negb (hash_of plain =? h) then fail_with ECorruption else mret plain.

Fixpoint read_chunks (hs : list N) (out : bytes) : M bytes :=
  match hs with [] => mret out | h :: hs => p ← read_chunk h; read_chunks hs (out ++ p) end.

Definition de_chunk_list (meta : bytes) : M (list N) :=
  or_error (λ _ : unit, ECodec) (match de_hashes meta with Some l => inr l | None => inl tt end).

Definition node_of (h : N) : M VersionNode := e ← ask; or_error EDag (repo_get (repo (e_ns e)) h).

Definition read_version (head : N) : M bytes :=
  node ← node_of head;
  if bool_decide (kind node = KTombstone) then fail_with ENotFound
  else meta ← read_chunk (content_hash node); hs ← de_chunk_list meta; read_chunks hs [].

(** The walk to an older root ends within the nodes there are. *)
Definition get_at (path : string) (t : N) : M bytes :=
  e ← ask;
  head ← or_panic (resolve_at (S (size (repo (e_ns e)))) (e_ns e) path t);
  head ← or_error EDag head;
  read_version head.

Definition get_file (path : string) : M bytes := get_at path u64_max.

Definition chunk_hashes_of (path : string) : M (list N) :=
  e ← ask;
  head ← or_error EDag (resolve (e_ns e) path);
  node ← node_of head;
  meta ← read_chunk (content_hash node);
  de_chunk_list meta.

(** ** Erasure coding *)

(** The data shards of a group: payloads padded to the longest. *)
Fixpoint data_shards_of (e : Engine) (len : nat) (hs : list N) : EngineError + list bytes :=
  match hs with
  | [] => inr []
  | h :: hs =>
      match chunk_map e !! h with
      | None => inl EPanic
      | Some sc =>
          match fetch_and_verify e sc with
          | inl er => inl er
          | inr p => match data_shards_of e len hs with inl er => inl er | inr l => inr (vec_resize len p :: l) end
          end
      end
  end.

Definition with_group (g : N) (d : ExtentDescriptor) : ExtentDescriptor :=
  mkDesc (content_hash_prefix d) (zone_id d) (offset_in_zone d) (dlength d) g (compression_type d) (dflags d).

(** Mark the members. *)
Definition join_group (g : N) (h : N) (e : Engine) : Engine :=
  match chunk_map e !! h with
  | Some sc => set_chunk_map (<[h := mkStored (with_group g (desc sc)) (stored sc)]> (chunk_map e)) e
  | None => e
  end.

Definition store_parity (g : N) (p : bytes) : M N :=
  let ph := hash_of p in
  d ← on_store (write_extent p ph false);
  modify (λ e, set_chunk_map (<[ph := mkStored (with_group g d) ph]> (chunk_map e)) e) ;;
  refcount_by ph 1 ;;
  mret ph.

Fixpoint store_parities (g : N) (ps : list bytes) : M (list N) :=
  match ps with [] => mret [] | p :: ps => h ← store_parity g p; hs ← store_parities g ps; mret (h :: hs) end.

Definition encode_group (codec : RsCodec) (hs : list N) : M unit :=
  e ← ask;
  let len := foldr max 0%nat (omap (λ h, (λ sc, N.to_nat (dlength (desc sc))) <$> chunk_map e !! h) hs) in
  data ← or_error id (data_shards_of e len hs);
  parity ← or_error EEcc (codec_encode codec data);
  let g := next_ec_group e in
  modify (set_groups (ec_groups e) ((g + 1) mod 256)) ;;
  modify (λ e, foldl (λ e h, join_group g h e) e hs) ;;
  phs ← store_parities g parity;
  modify (λ e, set_groups (<[g := mkGroup (hs ++ phs) len]> (ec_groups e)) (next_ec_group e) e).

Fixpoint encode_groups (codec : RsCodec) (k : nat) (groups : list (list N)) (made : N) : M N :=
  match groups with
  | [] => mret made
  | hs :: groups =>
      if (length hs <? k)%nat then encode_groups codec k groups made
      else (encode_group codec hs ;; encode_groups codec k groups (made + 1))
  end.

(** Data chunks that are in no group yet and still referenced. *)
Definition candidates (e : Engine) : list N :=
  let grouped := concat (map (λ g, take (ec_k (e_config e)) (shards (snd g))) (map_to_list (ec_groups e))) in
  filter (λ h, (h ∉ grouped) ∧ 0 < refcount h (e_store e)) (keys_of (chunk_map e)).

Definition encode_ec_groups : M N :=
  e ← ask;
  match e_ec e with
  | None => mret 0
  | Some codec =>
      let k := ec_k (e_config e) in
      if (k =? 0)%nat then fail_with EPanic
      else encode_groups codec k (chunks_of (length (candidates e)) k (candidates e)) 0
  end.

(** ** Deletion *)

(** Give back one reference: the log record. *)
Definition release_chunk (h : N) : M WalRecord :=
  refcount_by h (-1) ;;
  e ← ask;
  (if 0 <? dedup_refcount (e_domain e) h (e_dedup e)
   then modify (set_dedup (snd (dedup_release (e_domain e) h (e_dedup e))))
   else mret tt) ;;
  sc ← or_panic (chunk_map e !! h);
  mret (ref_op h (-1) sc).

Fixpoint release_chunks (hs : list N) : M (list WalRecord) :=
  match hs with [] => mret [] | h :: hs => r ← release_chunk h; rs ← release_chunks hs; mret (r :: rs) end.

Definition release_file (node : VersionNode) : M (list WalRecord) :=
  if bool_decide (kind node = KFile) then
    meta ← read_chunk (content_hash node);
    hs ← de_chunk_list meta;
    rs ← release_chunks hs;
    r ← release_chunk (content_hash node);
    mret (rs ++ [r])
  else mret [].

Definition finish_delete (path : string) (o : io) (recs : list WalRecord) (h : N) : M N :=
  commit recs o ;;
  counting (count_commit (N.of_nat (length recs))) ;;
  e ← ask;
  t ← or_panic (be_delete (path_bytes path) (path_index e));
  modify (set_index t) ;;
  mret h.

Definition delete_file (path : string) (wall : N) (o : io) : M N :=
  ts ← now wall;
  e ← ask;
  parent ← or_error EDag (resolve (e_ns e) path);
  node ← node_of parent;
  recs ← release_file node;
  '(tomb_hash, nrecs) ← link_node path [parent] (content_hash node) KTombstone (meta node) ts;
  finish_delete path o (recs ++ nrecs) tomb_hash.

(** ** Checkpoints *)
Definition state_of (e : Engine) : CheckpointState :=
  mkCheckpoint (clone_state (e_ns e)) (dedup_clone_state (e_dedup e)) (chunk_map e) (ec_groups e) (next_ec_group e) (path_index e)
    (e_vclock e) (e_hlc e) (e_node e) (master (e_keys e)) (e_domain e) (e_cipher e) (e_stats e) (state (e_store e)).

Definition flush_index : M unit :=
  e ← ask; t ← or_panic (flush_all (path_index e)); modify (set_index t).

Definition checkpoint_engine : M unit :=
  flush_index ;;
  e ← ask;
  blob ← or_error (λ _ : unit, ECodec) (match ser_state (state_of e) with Some b => inr b | None => inl tt end);
  s ← or_error EStore (match checkpoint (root_head (e_ns e)) blob (e_store e) with Some s => inr s | None => inl SIo end);
  modify (set_store s) ;;
  modify (λ e, set_wal (reset (e_wal e)) e).

(** ** Garbage collection *)

(** The dirtiest segment worth cleaning: the first of the least live ones. *)
Definition pick_segment (infos : list SegmentInfo) : option SegmentInfo :=
  foldl (λ best info,
           if has_ec_extents info then best
           else if (total_bytes info =? 0) || negb (below_threshold info) then best
           else match best with Some b => if less_live info b then Some info else best | None => Some info end) None infos.

(** Point the indexes at a moved extent. *)
Definition relocate_chunk (e : Engine) (mv : N * ExtentDescriptor) : Engine :=
  let '(h, d) := mv in
  let e := match chunk_map e !! h with
           | Some sc => set_chunk_map (<[h := mkStored (with_group (ecc_group_id (desc sc)) d) (stored sc)]> (chunk_map e)) e
           | None => e
           end in
  set_dedup (relocate (e_domain e) h (loc_of d) (e_dedup e)) e.

(** The loop; out of fuel is a loop that has not ended. *)
Fixpoint gc_loop (fuel : nat) (r : GcReport) : M GcReport :=
  match fuel with
  | O => fail_with EPanic
  | S fuel =>
      e ← ask;
      match pick_segment (segment_infos (e_store e)) with
      | None => mret r
      | Some info =>
          '(cleaned, moves) ← on_store (clean_segment (seg_idx info));
          modify (λ e, foldl relocate_chunk e moves) ;;
          gc_loop fuel (mkGc (segments_cleaned r + 1) (gc_moved r + extents_moved cleaned) (gc_bytes_moved r + bytes_moved cleaned)
                          (gc_reclaimed r + bytes_reclaimed cleaned) (free_bytes_now r))
      end
  end.

Definition gc (fuel : nat) : M GcReport :=
  checkpoint_engine ;;
  r ← gc_loop fuel (mkGc 0 0 0 0 0);
  modify (λ e, set_chunk_map (filter (λ x, refcount (fst x) (e_store e) ≠ 0) (chunk_map e)) e) ;;
  (if 0 <? segments_cleaned r then checkpoint_engine else mret tt) ;;
  e ← ask;
  mret (mkGc (segments_cleaned r) (gc_moved r) (gc_bytes_moved r) (gc_reclaimed r) (free_bytes (e_store e))).

(** ** Snapshots and the path index *)

(** A commit whose result is dropped. *)
Definition commit_quietly (recs : list WalRecord) (o : io) : M unit :=
  modify (λ e, set_wal (snd (commit_batch recs o (e_wal e))) e) ;;
  counting (λ s, mkEStats (files_written s) (bytes_logical s) (bytes_physical s) (chunk_hits s) (chunk_misses s) (wal_records s)
                   (wadd64 (wal_fsyncs s) 1) (scrubs s) (heals s)).

Definition take_snapshot (name : string) (o : io) : M N :=
  root ← on_ns (λ ns, let '(r, ns) := snapshot name ns in (inr r, ns));
  commit_quietly [RSnapshotOp name root] o ;;
  mret root.

(** The entries of one directory: files into the index, directories on the
    stack. *)
Fixpoint index_children (cs : list (string * N)) (prefix : string) (stack : list (N * string)) : M (list (N * string)) :=
  match cs with
  | [] => mret stack
  | (name, child) :: cs =>
      let path := (prefix +:+ "/" +:+ name)%string in
      n ← node_of child;
      match kind n with
      | KDirectory => index_children cs prefix ((child, path) :: stack)
      | KFile =>
          e ← ask;
          t ← or_panic (be_insert (path_bytes path) (hash_bytes child) (path_index e));
          modify (set_index t) ;;
          index_children cs prefix stack
      | KTombstone => index_children cs prefix stack
      end
  end.

Fixpoint walk_index (fuel : nat) (stack : list (N * string)) : M unit :=
  match fuel, stack with
  | _, [] => mret tt
  | O, _ => fail_with EPanic
  | S fuel, (dir, prefix) :: stack =>
      n ← node_of dir;
      if negb (bool_decide (kind n = KDirectory)) then walk_index fuel stack
      else
        e ← ask;
        m ← or_error EDag (children_of (e_ns e) dir);
        stack ← index_children (children_list m) prefix stack;
        walk_index fuel stack
  end.

Definition rebuild_path_index (fuel : nat) : M unit :=
  t ← or_panic (be_new index_config);
  modify (set_index t) ;;
  e ← ask;
  walk_index fuel [(root_head (e_ns e), EmptyString)].

Definition restore_snapshot (fuel : nat) (name : string) (o : io) : M N :=
  root ← on_ns (ns_restore name);
  rebuild_path_index fuel ;;
  n ← node_of root;
  commit_quietly [RHeadOp root (timestamp_ns n)] o ;;
  mret root.

Definition diff_snapshots (fuel : nat) (a b : string) (e : Engine) : EngineError + list DiffEntry :=
  match snapshots (e_ns e) !! a, snapshots (e_ns e) !! b with
  | Some ra, Some rb => match diff fuel (e_ns e) ra rb with Some (inr l) => inr l | Some (inl er) => inl (EDag er) | None => inl EPanic end
  | _, _ => inl ENotFound
  end.

(** The bounds of a listing: the prefix, and the prefix with one added to its
    last byte. *)
Definition list_bounds (prefix : option string) : option bytes * option bytes :=
  match prefix with
  | None => (None, None)
  | Some p =>
      let lo := path_bytes p in
      (Some lo, Some (match list.last lo with Some b => take (length lo - 1) lo ++ [byte_of_N (Byte.to_N b + 1)] | None => lo end))
  end.

Definition list_paths (prefix : option string) : M (list string) :=
  flush_index ;;
  e ← ask;
  let '(lo, hi) := list_bounds prefix in
  l ← or_panic (scan lo hi (path_index e));
  mret (map (λ kv, string_of_list_byte (fst kv)) l).

(** ** Scrubbing *)
Definition try_heal (h : N) : M bool :=
  λ e, match heal_chunk h e with
       | (inr _, e) => (inr true, e)
       | (inl EPanic, e) => (inl EPanic, e)
       | (inl _, e) => (inr false, e)
       end.

Fixpoint scrub_chunks (hs : list N) (r : ScrubReport) : M ScrubReport :=
  match hs with
  | [] => mret r
  | h :: hs =>
      e ← ask;
      sc ← or_panic (chunk_map e !! h);
      let r := mkScrub (extents_checked r + 1) (corruptions_found r) (healed r) (unhealable r) in
      match fetch_and_verify e sc with
      | inr _ => scrub_chunks hs r
      | inl _ =>
          let r := mkScrub (extents_checked r) (corruptions_found r + 1) (healed r) (unhealable r) in
          let bad := mkScrub (extents_checked r) (corruptions_found r) (healed r) (unhealable r + 1) in
          if bool_decide (is_Some (e_ec e) ∧ is_Some (ec_groups e !! ecc_group_id (desc sc))) then
            ok ← try_heal h;
            scrub_chunks hs (if (ok : bool) then mkScrub (extents_checked r) (corruptions_found r) (healed r + 1) (unhealable r) else bad)
          else scrub_chunks hs bad
      end
  end.

Definition scrub : M ScrubReport :=
  counting count_scrub ;;
  e ← ask;
  scrub_chunks (keys_of (chunk_map e)) (mkScrub 0 0 0 0).

(** The test hook that damages a chunk on the device. *)
Definition corrupt_chunk (h : N) : M unit :=
  e ← ask;
  sc ← or_error (λ _ : unit, ENotFound) (match chunk_map e !! h with Some sc => inr sc | None => inl tt end);
  payload ← or_error EStore (read_extent (desc sc) (e_store e));
  let corrupted := match payload with [] => [x01; x02; x03] | b :: p => bxor b xff :: p end in
  on_store (write_raw (zone_id (desc sc)) (offset_in_zone (desc sc)) corrupted).

(** ** Recovery *)
Definition apply_wal_record (r : WalRecord) : M unit :=
  e ← ask;
  match r with
  | RData h payload =>
      match chunk_map e !! h with
      | Some _ => mret tt
      | None =>
          d ← on_store (write_extent payload h false);
          modify (λ e, set_chunk_map (<[h := mkStored d (hash_of payload)]> (chunk_map e)) e)
      end
  | RVNode b => match vnode_from_bytes b with Some n => put_node n ;; mret tt | None => mret tt end
  | RDirMap content children => modify (λ e, set_ns (register_dir content (list_to_map (rev children)) (e_ns e)) e)
  | RRefOp h delta zone offset len st =>
      let sc := default (mkStored (mkDesc (prefix_u64 h) zone offset len 0 0 0) st) (chunk_map e !! h) in
      modify (set_chunk_map (<[h := sc]> (chunk_map e))) ;;
      refcount_by h delta ;;
      modify (λ e, if (0 <? delta)%Z then set_dedup (replay_acquire (e_domain e) h (e_dedup e)) e
                   else if (delta <? 0)%Z then set_dedup (replay_release (e_domain e) h (e_dedup e)) e
                   else e)
  | RHeadOp root ts => modify (λ e, set_ns (set_root_from_recovery root ts (e_ns e)) e)
  | RSnapshotOp name root => modify (λ e, set_ns (snapshot_from_recovery name root (e_ns e)) e)
  | RCommit _ => mret tt
  end.

(** Replay the log file; whether anything was applied. *)
Definition replay_wal : M bool :=
  e ← ask;
  let recs := concat (map snd (Wal.replay (durable (e_wal e) ++ cached (e_wal e)))) in
  for_each apply_wal_record recs ;;
  mret (match recs with [] => false | _ => true end).

(** ** Life cycle *)
Definition codec_for (cfg : EngineConfig) : EngineError + option RsCodec :=
  if (0 <? ec_m cfg)%nat then match codec_new (ec_k cfg) (ec_m cfg) with inr c => inr (Some c) | inl er => inl (EEcc er) end else inr None.

Definition chunker_for (cfg : EngineConfig) : EngineError + Chunker :=
  match chunker_new (mkChunkerConfig (chunk_avg_bytes cfg) (chunk_min_bytes cfg) (chunk_max_bytes cfg)) with
  | Some (inr c) => inr c
  | Some (inl er) => inl (ECdc er)
  | None => inl EPanic
  end.

(** An engine with nothing in it, over a store and a log. *)
Definition empty_engine (cfg : EngineConfig) (s : StoreModel.Store D) (w : Wal) (key : bytes) (ec : option RsCodec) (c : Chunker) : EngineError + Engine :=
  match ns_new 1 1000000000 with
  | (inl er, _) => inl (EDag er)
  | (inr _, ns) =>
      match be_new index_config with
      | None => inl EPanic
      | Some t =>
          let keys := mkKeyTree key in
          inr (mkEngine cfg ns s w index_new c keys (domain_key keys domain_root) domain_root Aes256Gcm ∅ ∅ 0 ec t
                 (vc_increment 1 vc_new) EPOCH 1 estats_default)
      end
  end.

(** [build], which [create] and [create_mem_in] call with a new device; [key] is
    the random master key. *)
Definition build (d : D) (cfg : EngineConfig) (key : bytes) : EngineError + Engine :=
  match format d GEO_ZONES GEO_ZONE_SIZE GEO_SEGMENT with
  | None => inl (EStore SIo)
  | Some s =>
      match codec_for cfg with
      | inl er => inl er
      | inr ec => match chunker_for cfg with inl er => inl er | inr c => empty_engine cfg s create key ec c end
      end
  end.

Definition engine_from_state (st : CheckpointState) (s : StoreModel.Store D) (w : Wal) (cfg : EngineConfig) : EngineError + Engine :=
  match codec_for cfg with
  | inl er => inl er
  | inr ec =>
      match chunker_for cfg with
      | inl er => inl er
      | inr c =>
          let keys := mkKeyTree (ck_master st) in
          match restore (ck_store st) s with
          | (inl er, _) => inl (EStore er)
          | (inr _, s) =>
              match Namespace.from_state (ck_namespace st) with
              | inl er => inl (EDag er)
              | inr ns =>
                  match dedup_from_state serialize_key (ck_dedup st) with
                  | None => inl EPanic
                  | Some ix =>
                      inr (mkEngine cfg ns s w ix c keys (domain_key keys (ck_domain st)) (ck_domain st) (ck_cipher st) (ck_chunk_map st)
                             (ck_ec_groups st) (ck_next_ec_group st) ec (ck_path_index st) (ck_vclock st) (ck_hlc st) (ck_node st) (ck_stats st))
                  end
              end
          end
      end
  end.

(** The engine before replay: from the checkpoint if there is one. *)
Definition boot (d : D) (log key : bytes) (cfg : EngineConfig) : EngineError + Engine :=
  match store_open d with
  | inl er => inl (EStore er)
  | inr s =>
      if negb (length key =? 32)%nat then inl ECorruption
      else
        match codec_for cfg with
        | inl er => inl er
        | inr ec =>
            match chunker_for cfg with
            | inl er => inl er
            | inr c =>
                match snd (load_checkpoint s) with
                | [] => empty_engine cfg s (wal_open log) key ec c
                | blob => match de_state blob with Some st => engine_from_state st s (wal_open log) cfg | None => inl ECorruption end
                end
            end
        end
  end.

(** [mount]: what the device, the log file and the key file hold. *)
Definition recover (fuel : nat) : M unit :=
  applied ← replay_wal;
  (if (applied : bool) then
     rebuild_path_index fuel ;;
     modify (λ e, set_store (bump_cursors_past (map (λ x, desc (snd x)) (map_to_list (chunk_map e))) (e_store e)) e)
   else mret tt) ;;
  checkpoint_engine.

Definition mount (fuel : nat) (d : D) (log key : bytes) (cfg : EngineConfig) : EngineError + Engine :=
  match boot d log key cfg with
  | inl er => inl er
  | inr e => match recover fuel e with (inr _, e) => inr e | (inl er, _) => inl er end
  end.

End engine.
