(* ===== verification/EngineInv.v ===== *)
(** * What the storage engine keeps ([lionfs-cluster/src/engine.rs])

    The invariant that ties the parts of the engine together, and what writes,
    deletions, snapshots, checkpoints and reads do on a state that has it. *)
From S2P Require Import Prelude Clocks Cdc ClusterCore Crypto Dedup Ecc BeTree BeTreeSpec BeTreeFlow BeTreeRefine BeTreeScan Wal Devices StoreModel StoreRef StoreSpec StoreBoot Namespace NamespaceSpec Engine.
From Stdlib Require Import NArith ZArith Lia Strings.Byte Strings.String.
From stdpp Require Import base numbers gmap option list strings sorting.
#[local] Open Scope N_scope.

#[local] Abbreviation bytes := (list byte).

(** What the engine relies on beyond the laws of its parts: BLAKE3 without
    collisions and with no input that hashes to zero, bincode of a chunk list read back and its length, zstd read
    back, a device whose sync keeps what was written. *)
Class EngineLaws {D} `{!BlockDevice D} `{!BlockDeviceLaws D} `{!StoreCodec} `{!Hashing} `{!EngineEnv} := {
  hash_inj : ∀ a b, hash_of a = hash_of b → a = b;
  hash_nonzero : ∀ a, hash_of a ≠ hash_zero;
  de_ser_hashes : ∀ l b, ser_hashes l = Some b → de_hashes b = Some l;
  ser_hashes_length : ∀ l b, ser_hashes l = Some b → length b = (8 + 32 * length l)%nat;
  zstd_back : zstd_law;
  always_safe : ∀ d : D, dsafe d
}.

(** ** Results of an operation *)
Definition wp {E S A} (m : EM E S A) (s : S) (Q : E + A → S → Prop) : Prop := Q (fst (m s)) (snd (m s)).

Lemma wp_mono {E S A} (m : EM E S A) s (Q Q' : E + A → S → Prop) : wp m s Q → (∀ r s', Q r s' → Q' r s') → wp m s Q'.
Proof. unfold wp. auto. Qed.

Lemma wp_bind {E S A B} (m : EM E S A) (f : A → EM E S B) s Q :
  wp m s (λ r s', match r with inr x => wp (f x) s' Q | inl e => Q (inl e) s' end) → wp (m ≫= f) s Q.
Proof. unfold wp, mbind, EM_bind. by destruct (m s) as [[e|x] s']. Qed.

Section spec.
Context {D : Type} `{!BlockDevice D} `{!BlockDeviceLaws D} {codec : StoreCodec} {claws : StoreCodecLaws} {hashing : Hashing} {dcodec : DirCodec}
  {cf : CollisionFree} {wcodec : WalCodec} {prims : CryptoPrims} {aead : AeadLaws} {env : EngineEnv} {laws : EngineLaws (D := D)}.
#[local] Abbreviation Engine := (ClusterEngine D).
#[local] Abbreviation M := (EM EngineError Engine).

(** ** The store below the engine *)
Definition has_header (s : StoreModel.Store D) : Prop := holds (device s) header_end (geo_frame (geo s)).

Lemma refcount_add_inv s X h d : store_inv s X → store_inv (refcount_add h d s) X.
Proof. intros [I1 I2 I3 [A1 A2 A3 A4 A5 A6] I5 I6]. constructor; [done|done|done|by constructor|exact I5|exact I6]. Qed.

Lemma header_below g : header_end + N.of_nat (length (geo_frame g)) <= data_start.
Proof. unfold geo_frame. rewrite !length_app, !length_be_bytes. pose proof (geo_fits g). unfold header_end, data_start, SB_COPY_SIZE, SB_COPIES, zone_map_size. lia. Qed.

(** A new extent leaves the headers alone. *)
Lemma write_extent_header s X data h c : store_inv s X → has_header s → has_header (snd (write_extent data h c s)).
Proof.
  intros Hi Hh. unfold write_extent. destruct (encode_payload data c) as [payload comp]. cbv zeta. set (n := N.of_nat (length payload) mod two32).
  assert (n < two32) as Hn by (by apply N.mod_lt). pose proof (allocate_ok s _ n (si_geo _ _ Hi) Hn (si_alloc _ _ Hi)) as Ha.
  destruct (allocate n s) as [[[zone off]|] s1]; cbn [snd]; [|by subst]. destruct Ha as (_ & (Hd1 & Hg1 & _) & _).
  assert (has_header s1) as Hh1 by (unfold has_header in *; by rewrite Hd1, Hg1).
  unfold zone_offset. destruct (_ <=? _); [done|]. destruct (dev_write _ payload (device s1)) as [d|] eqn:Hw; [|done]. cbn [snd].
  unfold has_header. destruct (track_same zone (mkDesc (prefix_u64 h) (N.of_nat zone) off n 0 (compression_to_u8 comp) 0) h (with_device d s1)) as (-> & -> & _).
  cbn [with_device device geo]. pose proof (header_below (geo s1)). assert (dinv (device s1)) as Hdi by (rewrite Hd1; apply Hi).
  destruct (write_holds _ _ _ _ Hdi Hw) as (_ & _ & Hk). apply Hk; [lia|exact Hh1].
Qed.

(** A superblock or a checkpoint keeps the extents and the headers. *)
Definition kept (s s' : StoreModel.Store D) (X : list ext) : Prop :=
  store_inv s' X ∧ has_header s' ∧ geo s' = geo s ∧ epoch s' = epoch s + 1.

Lemma kept_intro s s' X d : store_inv s X → device s' = d → dinv d → dcap (device s) <= dcap d → geo s' = geo s → epoch s' = epoch s + 1 →
  open_segments s' = open_segments s → closed_segments s' = closed_segments s → zone_cursors s' = zone_cursors s → free_lists s' = free_lists s →
  holds d header_end (geo_frame (geo s)) → (∀ o b, data_start <= o → holds (device s) o b → holds d o b) → kept s s' X.
Proof.
  intros [I1 I2 I3 [A1 A2 A3 A4 A5 A6] I5 I6] Hd Hdi Hcap Hg He Ho Hc Hz Hf Hh Hk. split_and!; [|unfold has_header; by rewrite Hd, Hg|done|done].
  constructor; rewrite ?Hg, ?Hd; [done|done|lia| | |].
  - constructor; rewrite ?Hz, ?Hf, ?Ho, ?Hg; done.
  - eapply Forall_impl; [exact I5|]. intros x (H1 & H2 & H3). unfold on_device. rewrite Hg, Hd. split_and!; [done..|].
    apply Hk; [unfold zone_base; lia|done].
  - eapply Forall_impl; [exact I6|]. intros x. unfold recorded, recorded_in. by rewrite Ho, Hc.
Qed.

Lemma checkpoint_keeps s X r blob : store_inv s X → has_header s → N.of_nat (length blob) + 8 <= checkpoint_area_size → epoch s + 1 < two64 →
  ∃ s', checkpoint r blob s = Some s' ∧ kept s s' X.
Proof.
  intros Hi Hh Hb He. pose proof (si_cap _ _ Hi) as Hcap.
  destruct (checkpoint_writes s r blob) as (d & Hck & Hd & Hc & [Hg _] & _ & Hk); [apply Hi|unfold total_size in Hcap; lia|done..|intros; apply always_safe|].
  eexists. split; [exact Hck|]. by apply (kept_intro s _ X d).
Qed.

Lemma superblock_keeps s X r c : store_inv s X → has_header s → epoch s + 1 < two64 → ∃ s', write_superblock r c s = Some s' ∧ kept s s' X.
Proof.
  intros Hi Hh He. pose proof (si_cap _ _ Hi) as Hcap. pose proof (si_dev _ _ Hi) as Hd.
  assert (header_end <= dcap (device s)) as Hc by (unfold total_size, header_end, data_start in *; lia).
  destruct (write_copies_ok copies (mkSb SB_MAGIC 1 (wadd64 (epoch s) 1) r c) (device s) Hd Hc) as (d & Hw & Hd1 & Hc1 & _ & Hk);
    [by repeat constructor; set_solver|by repeat constructor|].
  destruct (sync_ok d Hd1) as [d' Hs]. destruct (sync_spec d d' Hd1 (always_safe d) Hs) as (Hd2 & Hc2 & _).
  unfold write_superblock. cbn [with_head device epoch]. rewrite Hw, Hs. eexists. split; [done|].
  assert (∀ o b, header_end <= o → holds (device s) o b → holds d' o b) as Hall.
  { intros o b Ho Hb. apply (sync_holds d d'); [done|apply always_safe|done|]. apply Hk; [by left|done]. }
  apply (kept_intro s _ X d'); try done; [lia|cbn; by rewrite wadd64_small|by apply Hall|].
  intros o b Ho. apply Hall. unfold data_start, header_end in *. lia.
Qed.
(** ** Readable chunks *)

(** The chunk filed under [h] is an extent [X] holds, undamaged, that decrypts
    to [plain]. *)
Definition reads_as (e : Engine) (X : list ext) (h : N) (plain : bytes) : Prop :=
  hash_of plain = h ∧ ∃ sc x, chunk_map e !! h = Some sc ∧ x ∈ X ∧ (∃ g, desc sc = with_group g (x_desc x)) ∧
    decode_payload (compression_from_u8 (compression_type (x_desc x))) (x_raw x) = inr (x_raw x) ∧
    stored sc = hash_of (x_raw x) ∧ decrypt_decompress e h (x_raw x) = inr plain.

(** A version node whose chunk list and chunks can be read. *)
Definition version_reads (e : Engine) (X : list ext) (n : VersionNode) (data : bytes) : Prop :=
  ∃ meta hs ps, reads_as e X (content_hash n) meta ∧ de_hashes meta = Some hs ∧ Forall2 (reads_as e X) hs ps ∧ concat ps = data.

Lemma reads_as_unique e X e' X' h p p' : reads_as e X h p → reads_as e' X' h p' → p = p'.
Proof. intros [H1 _] [H2 _]. apply hash_inj. congruence. Qed.

Lemma read_chunk_reads e X h plain : store_inv (e_store e) X → reads_as e X h plain → read_chunk h e = (inr plain, e).
Proof.
  intros Hi (Hh & sc & x & Hsc & Hx & (g & Hg) & Hdec & Hst & Hpl). unfold read_chunk, ask, mbind, EM_bind. rewrite Hsc. cbn [or_error mret EM_ret].
  assert (fetch_and_verify e sc = inr (x_raw x)) as ->.
  { unfold fetch_and_verify. rewrite Hg. change (read_extent (with_group g (x_desc x)) (e_store e)) with (read_extent (x_desc x) (e_store e)).
    rewrite (held_reads _ X), Hdec by done. by rewrite Hst, N.eqb_refl, andb_false_r. }
  cbn [mret EM_ret]. rewrite Hpl. cbn [or_error mret EM_ret]. by rewrite Hh, N.eqb_refl.
Qed.

Lemma read_chunks_ok e X hs ps out : store_inv (e_store e) X → Forall2 (reads_as e X) hs ps → read_chunks hs out e = (inr (out ++ concat ps), e).
Proof.
  intros Hi Hall. revert out. induction Hall as [|h p hs ps Hh _ IH]; intros out; cbn [read_chunks concat]; [by rewrite app_nil_r|].
  erewrite em_bind_ok by by apply (read_chunk_reads e X). by rewrite IH, <- (assoc_L (++)).
Qed.

Lemma read_version_ok e X h n data : store_inv (e_store e) X → repo (e_ns e) !! h = Some n → kind n = KFile → version_reads e X n data →
  read_version h e = (inr data, e).
Proof.
  intros Hi Hn Hk (m & hs & ps & Hm & Hhs & Hps & <-). unfold read_version, node_of, repo_get.
  erewrite em_bind_ok by (erewrite em_bind_ok by done; rewrite Hn; done). rewrite Hk. cbn [bool_decide decide].
  rewrite bool_decide_false by done. erewrite em_bind_ok by by apply (read_chunk_reads e X). unfold de_chunk_list. rewrite Hhs.
  erewrite em_bind_ok by done. by rewrite (read_chunks_ok e X hs ps).
Qed.

(** ** The invariant

    Every chunk of the map can be read; the deduplication index names only
    chunks of the map; every file version of the graph is readable; the parts
    are in order, and [n] operations have moved the counters at most that
    far. *)
Record engine_inv (n : N) (e : Engine) (X : list ext) : Prop := {
  ei_store : store_inv (e_store e) X;
  ei_header : has_header (e_store e);
  ei_epoch : epoch (e_store e) <= n + 1;
  ei_chunks : ∀ h, is_Some (chunk_map e !! h) → ∃ plain, reads_as e X h plain;
  ei_dedup : ∀ h, is_Some (entries (e_dedup e) !! (e_domain e, h)) → is_Some (chunk_map e !! h);
  ei_bloom : bloom_wf (bloom (e_dedup e));
  ei_ns : ns_inv (e_ns e);
  ei_head : ∃ pre ts, root_chain (e_ns e) = pre ++ [(ts, root_head (e_ns e))] ∧ ts <= u64_max;
  ei_files : ∀ h v, repo (e_ns e) !! h = Some v → kind v = KFile → ∃ data, version_reads e X v data;
  ei_chunker : chunker_ok (e_chunker e);
  ei_index : ∃ g, tree_good (path_index e) g;
  ei_seq : next_seq (path_index e) <= n
}.

(** Nothing that could be read is lost. *)
Record evolves (e : Engine) (X : list ext) (e' : Engine) (X' : list ext) : Prop := {
  ev_reads : ∀ h plain, reads_as e X h plain → reads_as e' X' h plain;
  ev_repo : repo (e_ns e) ⊆ repo (e_ns e');
  ev_resolve : ∀ r q, is_Some (repo (e_ns e) !! r) → resolve_parts (e_ns e') r q = resolve_parts (e_ns e) r q;
  ev_config : e_config e' = e_config e
}.

Lemma evolves_refl e X : evolves e X e X.
Proof. by constructor. Qed.

Lemma evolves_trans e1 X1 e2 X2 e3 X3 : evolves e1 X1 e2 X2 → evolves e2 X2 e3 X3 → evolves e1 X1 e3 X3.
Proof.
  intros [A1 A2 A3 A4] [B1 B2 B3 B4]. constructor; [auto|by etrans| |congruence].
  intros r q Hr. rewrite B3; [by apply A3|]. destruct Hr as [n Hn]. exists n. by eapply lookup_weaken.
Qed.

Lemma version_reads_mono e X e' X' v data : (∀ h p, reads_as e X h p → reads_as e' X' h p) → version_reads e X v data → version_reads e' X' v data.
Proof.
  intros Hr (m & hs & ps & H1 & H2 & H3 & H4). exists m, hs, ps. split_and!; [by apply Hr|done| |done].
  eapply Forall2_impl; [exact H3|]. intros h p. apply Hr.
Qed.

(** The parts the invariant looks at. *)
Definition core (e : Engine) :=
  (e_store e, chunk_map e, e_dedup e, e_domain e, e_ns e, e_chunker e, path_index e, (e_domain_key e, e_cipher e, e_config e)).

Lemma reads_as_frame e e' X h p : core e' = core e → reads_as e X h p → reads_as e' X h p.
Proof.
  unfold core. intros [= _ Hc _ _ _ _ _ Hk Hci _] (Hh & sc & x & H1 & H2 & H3 & H4 & H5 & H6). split; [done|].
  exists sc, x. rewrite Hc. split_and!; [done..|]. unfold decrypt_decompress in *. by rewrite Hk, Hci.
Qed.

Lemma engine_frame n e e' X : core e' = core e → engine_inv n e X → engine_inv n e' X ∧ evolves e X e' X.
Proof.
  intros Hcore Hi. pose proof (λ h p, reads_as_frame e e' X h p Hcore) as Hr. pose proof Hcore as Hc. unfold core in Hc.
  injection Hc as Es Ec Ed Edo En Ech Ep Ek Eci Ecf. split.
  - destruct Hi. constructor; rewrite ?Es, ?Ec, ?Ed, ?Edo, ?En, ?Ech, ?Ep; try done.
    + intros h Hh. destruct (ei_chunks0 h Hh) as [p Hp]. eauto.
    + intros h v Hv Hk. destruct (ei_files0 h v Hv Hk) as [d Hd]. exists d. by eapply version_reads_mono.
  - constructor; [done|by rewrite En|by rewrite En|done].
Qed.
(** ** Storing a chunk *)

(** What the chunk phase of a write leaves alone. *)
Definition stays (e e' : Engine) : Prop :=
  e_ns e' = e_ns e ∧ path_index e' = path_index e ∧ e_chunker e' = e_chunker e ∧ e_config e' = e_config e ∧ epoch (e_store e') = epoch (e_store e).

Lemma stays_trans a b c : stays a b → stays b c → stays a c.
Proof. unfold stays. intros (?&?&?&?&?) (?&?&?&?&?). split_and!; congruence. Qed.

Definition step_ok (n : N) (e : Engine) (X : list ext) (e' : Engine) (X' : list ext) : Prop :=
  engine_inv n e' X' ∧ evolves e X e' X' ∧ stays e e'.

Lemma estep_refl n e X : engine_inv n e X → step_ok n e X e X.
Proof. intros Hi. split_and!; [done|apply evolves_refl|done..]. Qed.

Lemma estep_trans n e1 X1 e2 X2 e3 X3 : step_ok n e1 X1 e2 X2 → step_ok n e2 X2 e3 X3 → step_ok n e1 X1 e3 X3.
Proof. intros (_ & E1 & S1) (I2 & E2 & S2). split_and!; [done|by eapply evolves_trans|by eapply stays_trans..]. Qed.

(** Counters, log and clocks do not matter. *)
Lemma step_frame n e e' X : core e' = core e → engine_inv n e X → step_ok n e X e' X.
Proof.
  intros Hc Hi. destruct (engine_frame n e e' X Hc Hi) as [H1 H2]. split_and!; [done|done|..].
  unfold core in Hc. injection Hc as Es _ _ _ En Ech Ep _ _ Ecf. unfold stays. rewrite Es. by split_and!.
Qed.

Lemma step_refcount n e X h d : engine_inv n e X → step_ok n e X (set_store (refcount_add h d (e_store e)) e) X.
Proof.
  intros []. split_and!; [|by constructor|by split_and!]. constructor; try done. by apply refcount_add_inv.
Qed.

(** Changes of the deduplication index that drop entries or keep their keys. *)
Lemma step_dedup n e X ix : engine_inv n e X → bloom_wf (bloom ix) →
  (∀ h, is_Some (entries ix !! (e_domain e, h)) → is_Some (chunk_map e !! h)) → step_ok n e X (set_dedup ix e) X.
Proof. intros [] Hw Hd. split_and!; [|by constructor|by split_and!]. by constructor. Qed.

(** A new extent for a chunk that decrypts to the plaintext of its hash. *)
Lemma step_chunk n e X h plain d payload s' (sc := mkStored d (hash_of payload)) (x := mkExt d h payload) :
  engine_inv n e X → store_inv s' (x :: X) → has_header s' → epoch s' = epoch (e_store e) →
  decode_payload (compression_from_u8 (compression_type d)) payload = inr payload → hash_of plain = h →
  decrypt_decompress e h payload = inr plain →
  let e' := set_chunk_map (<[h := sc]> (chunk_map e)) (set_store s' e) in step_ok n e X e' (x :: X) ∧ reads_as e' (x :: X) h plain.
Proof.
  intros Hi Hs Hh He Hdec Hpl Hdd e'.
  assert (reads_as e' (x :: X) h plain) as Hnew.
  { split; [done|]. exists sc, x. cbn [chunk_map e' set_chunk_map]. rewrite lookup_insert_eq.
    split_and!; [done|by left|exists (ecc_group_id d); by destruct d|done..]. }
  assert (∀ h' p, reads_as e X h' p → reads_as e' (x :: X) h' p) as Hr.
  { intros h' p Hp. destruct (decide (h' = h)) as [->|Hne].
    - rewrite <- (reads_as_unique _ _ _ _ _ _ _ Hnew Hp). exact Hnew.
    - destruct Hp as (H1 & sc' & x' & H2 & H3 & H4). split; [done|]. exists sc', x'. cbn [chunk_map e' set_chunk_map]. rewrite lookup_insert_ne by done.
      split_and!; [done|by right|apply H4..]. }
  split; [|done]. split_and!; [|by constructor|by split_and!].
  destruct Hi. constructor; try done.
  - cbn. by rewrite He.
  - intros h' Hh'. destruct (decide (h' = h)) as [->|Hne]; [by exists plain|]. cbn [chunk_map e' set_chunk_map] in Hh'. rewrite lookup_insert_ne in Hh' by done.
    destruct (ei_chunks0 h' Hh') as [p Hp]. eauto.
  - intros h' Hh'. cbn [chunk_map e' set_chunk_map]. destruct (decide (h' = h)) as [->|Hne]; [rewrite lookup_insert_eq; by eexists|].
    rewrite lookup_insert_ne by done. by apply ei_dedup0.
  - intros h' v Hv Hk. destruct (ei_files0 h' v Hv Hk) as [data Hdt]. exists data. by eapply version_reads_mono.
Qed.
Lemma compress_back d : zstd_decompress (zstd_compress d) = inr d ∧ (length (zstd_compress d) ≤ length d + 1)%nat.
Proof.
  unfold zstd_compress. destruct (zstd_encode d) as [z|] eqn:E; [|split; [done|cbn; lia]].
  destruct (Nat.ltb_spec (length z + 1) (length d)); [|split; [done|cbn; lia]]. split; [|cbn; lia].
  cbn. by rewrite (zstd_back d z E).
Qed.

(** Errors of staging: no space, no encryption, no encoding. *)
Definition stage_error (er : EngineError) : Prop := (∃ k, er = EStore (StoreModel.Full k)) ∨ er = ECrypto Encryption ∨ er = ECodec.

(** Errors of a write: those, a file where a directory is needed, the log. *)
Definition write_error (er : EngineError) : Prop := stage_error er ∨ er = EDag NotADirectory ∨ ∃ w, er = EWal w.

Lemma insert_new_ok ix dom h loc k : bloom_wf (bloom ix) → ∃ ix', insert_new serialize_key dom h loc k ix = Some ix' ∧ bloom_wf (bloom ix') ∧
  entries ix' = <[(dom, h) := mkEntry loc 1]> (entries ix).
Proof.
  intros Hw. unfold insert_new. destruct (bloom_add_ok _ (serialize_key (dom, h)) Hw) as (b & -> & Hb & _). cbn [mbind option_bind]. eauto.
Qed.

Lemma stage_chunk_ok n e X h plain : engine_inv n e X → hash_of plain = h → (length plain + 17 < N.to_nat two32)%nat →
  wp (stage_chunk h plain) e (λ r e', ∃ X', step_ok n e X e' X' ∧
    match r with inl er => stage_error er | inr _ => reads_as e' X' h plain end).
Proof.
  intros Hi Hh Hlen. unfold wp, stage_chunk, ask, mbind, EM_bind.
  destruct (encrypt_extent (e_domain_key e) h (zstd_compress plain) (e_cipher e)) as [er|payload] eqn:Ee; cbn [or_error mret EM_ret fail_with fst snd].
  { exists X. split; [by apply estep_refl|]. unfold encrypt_extent in Ee. destruct (extent_key _ _), (aead_seal _ _ _ _ _); simplify_eq. right. by left. }
  destruct (decrypt_encrypt _ _ _ _ _ Ee) as [Hdec Hpl]. destruct (compress_back plain) as [Hback Hcl].
  assert (N.of_nat (length payload) < two32) as Hsmall by lia.
  pose proof (write_extent_inv (e_store e) X payload h false (ei_store _ _ _ Hi) zstd_back Hsmall) as Hw.
  pose proof (write_extent_header (e_store e) X payload h false (ei_store _ _ _ Hi) (ei_header _ _ _ Hi)) as Hhd.
  unfold on_store. destruct (write_extent payload h false (e_store e)) as [[er|d] s'] eqn:Ew; cbn [or_error mret EM_ret fail_with fst snd] in *.
  { destruct Hw as [-> ->]. exists X. split; [|left; by eexists]. by apply step_frame; [destruct e|]. }
  destruct Hw as (Hs' & (Hgeo & _ & Hep & _) & _ & _ & Hcp & Hgid & Hdl & _).
  assert (compression_type d = compression_to_u8 ClusterCore.Store) as Hct.
  { unfold write_extent in Ew. cbn [encode_payload] in Ew. destruct (allocate _ _) as [[[z o]|] s1]; [|done]. unfold zone_offset in Ew.
    destruct (_ <=? _); [done|]. destruct (dev_write _ _ _); [|done]. by injection Ew as <- _. }
  destruct (step_chunk n e X h plain d payload s') as [Hst Hr]; try done; [by rewrite Hct|unfold decrypt_decompress; by rewrite Hdec|].
  unfold modify, refcount_by. cbn [fst snd].
  set (e1 := set_chunk_map _ (set_store s' e)) in *. set (x := mkExt d h payload) in *.
  pose proof (step_refcount n e1 (x :: X) h 1 (proj1 Hst)) as Hst2. set (e2 := set_store _ e1) in *.
  destruct (insert_new_ok (e_dedup e2) (e_domain e2) h (loc_of d) (N.of_nat (length plain))) as (ix & Hix & Hbw & Hent); [apply (proj1 Hst2)|].
  unfold modify. cbn [fst snd]. fold e2. rewrite Hix. cbn [or_panic mret EM_ret fst snd].
  exists (x :: X). assert (step_ok n e2 (x :: X) (set_dedup ix e2) (x :: X)) as Hst3.
  { apply step_dedup; [apply Hst2|done|]. intros h'. rewrite Hent. cbn [chunk_map e2 set_store e1 set_chunk_map].
    destruct (decide (h' = h)) as [->|Hne]; [rewrite !lookup_insert_eq; by eexists|]. rewrite lookup_insert_ne by congruence. rewrite lookup_insert_ne by done.
    apply (ei_dedup _ _ _ Hi). }
  split; [eapply estep_trans; [exact Hst|]; by eapply estep_trans|]. apply (ev_reads _ _ _ _ (proj1 (proj2 Hst3))), (ev_reads _ _ _ _ (proj1 (proj2 Hst2))), Hr.
Qed.
(** A hit keeps the keys of the index. *)
Lemma lookup_step n e X h k : engine_inv n e X → let ix := account_duplicate k (snd (dedup_lookup (e_domain e) h (e_dedup e))) in step_ok n e X (set_dedup ix e) X.
Proof.
  intros Hi ix. unfold ix, dedup_lookup. destruct (entries (e_dedup e) !! (e_domain e, h)) as [en|] eqn:E; cbn [fst snd].
  - apply step_dedup; [done|apply Hi|]. intros h'. cbn [entries account_duplicate]. destruct (decide (h' = h)) as [->|Hne].
    + intros _. apply (ei_dedup _ _ _ Hi). by exists en.
    + rewrite lookup_insert_ne by congruence. apply (ei_dedup _ _ _ Hi).
  - apply step_dedup; [done|apply Hi|apply (ei_dedup _ _ _ Hi)].
Qed.

Lemma chunk_reads n e X plain : engine_inv n e X → is_Some (chunk_map e !! hash_of plain) → reads_as e X (hash_of plain) plain.
Proof. intros Hi Hs. destruct (ei_chunks _ _ _ Hi _ Hs) as [p Hp]. pose proof Hp as [Hh _]. by apply hash_inj in Hh as ->. Qed.

Lemma put_chunk_ok n e X c acc : engine_inv n e X → (length c + 17 < N.to_nat two32)%nat →
  wp (put_chunk c acc) e (λ r e', ∃ X', step_ok n e X e' X' ∧
    match r with inl er => stage_error er | inr acc' => fst acc' = fst acc ++ [hash_of c] ∧ reads_as e' X' (hash_of c) c end).
Proof.
  intros Hi Hlen. unfold put_chunk. apply wp_bind. change (wp ask e ?Q) with (Q (inr e) e). cbv beta iota.
  destruct (entries (e_dedup e) !! (e_domain e, hash_of c)) as [en|] eqn:E.
  - pose proof (lookup_step n e X (hash_of c) (N.of_nat (length c)) Hi) as Hst. cbv zeta in Hst.
    destruct (ei_dedup _ _ _ Hi (hash_of c)) as [sc Hsc]; [by exists en|]. pose proof (chunk_reads n e X c Hi ltac:(by exists sc)) as Hr.
    destruct (dedup_lookup (e_domain e) (hash_of c) (e_dedup e)) as [loc ix] eqn:El. unfold dedup_lookup in El. rewrite E in El. injection El as <- Eix.
    unfold wp, mbind, EM_bind, modify, counting, refcount_by. cbn [fst snd]. unfold modify. cbn [fst snd]. rewrite Hsc. cbn [or_panic mret EM_ret fst snd] in *.
    rename Hst into Hst0. set (e1 := set_dedup _ e) in Hst0.
    pose proof (step_refcount n e1 X (hash_of c) 1 (proj1 Hst0)) as Hst1.
    match goal with |- ∃ X', step_ok _ _ _ ?ef _ ∧ _ => assert (step_ok n (set_store (refcount_add (hash_of c) 1 (e_store e1)) e1) X ef X) as Hst2 by (apply step_frame; [done|apply Hst1]) end.
    exists X. split; [eapply estep_trans; [exact Hst0|]; by eapply estep_trans|]. split; [done|].
    apply (ev_reads _ _ _ _ (proj1 (proj2 Hst2))), (ev_reads _ _ _ _ (proj1 (proj2 Hst1))), (ev_reads _ _ _ _ (proj1 (proj2 Hst0))), Hr.
  - destruct (dedup_lookup (e_domain e) (hash_of c) (e_dedup e)) as [loc ix] eqn:El. unfold dedup_lookup in El. rewrite E in El. injection El as <- <-.
    apply wp_bind. unfold modify at 1, wp at 1. cbn [fst snd]. apply wp_bind. unfold counting at 1, modify at 1, wp at 1. cbn [fst snd].
    set (e1 := set_stats _ (set_dedup _ e)). assert (step_ok n e X e1 X) as Hst0 by (apply step_frame; [by destruct e|done]).
    apply wp_bind. eapply wp_mono; [by apply (stage_chunk_ok n e1 X); [apply Hst0|done|]|]. cbv beta. intros [er|[payload recs]] e2 (X2 & Hst & Hres).
    + exists X2. split; [by eapply estep_trans|done].
    + unfold wp, mbind, EM_bind, counting, modify. cbn [mret EM_ret fst snd]. exists X2.
      match goal with |- step_ok _ _ _ ?ef _ ∧ _ => assert (step_ok n e2 X2 ef X2) as Hst2 by (apply step_frame; [done|apply Hst]) end.
      split; [eapply estep_trans; [exact Hst0|]; by eapply estep_trans|]. split; [done|]. apply (ev_reads _ _ _ _ (proj1 (proj2 Hst2))), Hres.
Qed.

Lemma put_chunks_ok n cs : ∀ e X acc, engine_inv n e X → Forall (λ c : bytes, (length c + 17 < N.to_nat two32)%nat) cs →
  wp (put_chunks cs acc) e (λ r e', ∃ X', step_ok n e X e' X' ∧
    match r with inl er => stage_error er | inr acc' => fst acc' = fst acc ++ map hash_of cs ∧ Forall (λ c, reads_as e' X' (hash_of c) c) cs end).
Proof.
  induction cs as [|c cs IH]; intros e X acc Hi Hlen; cbn [put_chunks].
  { exists X. split; [by apply estep_refl|]. cbn. by rewrite app_nil_r. }
  apply Forall_cons in Hlen as [Hc Hlen]. apply wp_bind. eapply wp_mono; [by apply (put_chunk_ok n e X)|]. cbv beta.
  intros [er|acc1] e1 (X1 & Hst1 & Hres1); [by exists X1|]. destruct Hres1 as [Hf1 Hr1].
  eapply wp_mono; [apply (IH e1 X1); [apply Hst1|done]|]. cbv beta. intros [er|acc2] e2 (X2 & Hst2 & Hres2); (exists X2; split; [by eapply estep_trans|]); [done|].
  destruct Hres2 as [Hf2 Hr2]. split; [by rewrite Hf2, Hf1, <- (assoc_L (++))|]. constructor; [|done]. by apply (ev_reads _ _ _ _ (proj1 (proj2 Hst2))).
Qed.

Lemma put_meta_ok n e X hs : engine_inv n e X → (32 * length hs + 25 < N.to_nat two32)%nat →
  wp (put_meta hs) e (λ r e', ∃ X', step_ok n e X e' X' ∧
    match r with inl er => stage_error er | inr mr => ∃ meta, reads_as e' X' (fst mr) meta ∧ de_hashes meta = Some hs end).
Proof.
  intros Hi Hlen. unfold put_meta. apply wp_bind. destruct (ser_hashes hs) as [m|] eqn:E; unfold wp at 1; cbn [or_error fail_with mret EM_ret fst snd].
  2: { exists X. split; [by apply estep_refl|]. right. by right. }
  apply wp_bind. change (wp ask e ?Q) with (Q (inr e) e). cbv beta iota. pose proof (ser_hashes_length _ _ E) as Hml.
  destruct (chunk_map e !! hash_of m) as [sc|] eqn:Hsc.
  - pose proof (chunk_reads n e X m Hi ltac:(by exists sc)) as Hr.
    unfold wp, mbind, EM_bind, modify, refcount_by. cbn [fst snd]. unfold modify. cbn [mret EM_ret fst snd].
    pose proof (step_refcount n e X (hash_of m) 1 Hi) as Hst0. set (e1 := set_store _ e) in Hst0 |- *.
    pose proof (lookup_step n e1 X (hash_of m) (N.of_nat (length m)) (proj1 Hst0)) as Hst1. cbv zeta in Hst1. exists X.
    split; [by eapply estep_trans|]. exists m. split; [|by apply de_ser_hashes].
    apply (ev_reads _ _ _ _ (proj1 (proj2 Hst1))), (ev_reads _ _ _ _ (proj1 (proj2 Hst0))), Hr.
  - apply wp_bind. eapply wp_mono; [apply (stage_chunk_ok n e X); [done|done|lia]|]. cbv beta. intros [er|[payload recs]] e1 (X1 & Hst & Hres); [by exists X1|].
    exists X1. split; [done|]. exists m. split; [done|by apply de_ser_hashes].
Qed.
(** ** Linking a version *)

(** A namespace that grew, with the file versions in it readable. *)
Lemma engine_set_ns n e X ns : engine_inv n e X → ns_inv ns → repo (e_ns e) ⊆ repo ns →
  (∀ r q, is_Some (repo (e_ns e) !! r) → resolve_parts ns r q = resolve_parts (e_ns e) r q) →
  (∃ pre ts, root_chain ns = pre ++ [(ts, root_head ns)] ∧ ts <= u64_max) →
  (∀ h v, repo ns !! h = Some v → kind v = KFile → ∃ data, version_reads e X v data) →
  engine_inv n (set_ns ns e) X ∧ evolves e X (set_ns ns e) X.
Proof. intros [] Hn Hr Hres Hh Hf. split; [by constructor|]. by constructor. Qed.

Lemma repo_put_ok ns v : ns_inv ns → verify v = true → kind v ≠ KDirectory →
  let ns' := Namespace.with_nodes (<[self_hash v := v]> (repo ns)) (dirs ns) (created ns) ns in
  ns_inv ns' ∧ extends ns ns'.
Proof.
  intros Hi Hv Hk ns'. pose proof (ni_wf _ Hi) as Hw.
  assert (extends ns ns') as He.
  { split; [|done]. apply map_subseteq_spec. intros h w Hh. cbn [ns' Namespace.with_nodes repo].
    destruct (decide (h = self_hash v)) as [->|]; [|by rewrite lookup_insert_ne]. rewrite lookup_insert_eq. f_equal.
    destruct (nw_repo _ Hw _ _ Hh) as [Hs Hvw]. symmetry. by apply node_unique. }
  split; [|done]. apply (ns_inv_extends ns); [done| |done|done]. destruct Hw as [W1 W2 W3 W4].
  constructor; cbn [ns' Namespace.with_nodes repo dirs]; [| |intros h w|].
  - intros h w. destruct (decide (h = self_hash v)) as [->|]; [rewrite lookup_insert_eq; by intros [= <-]|]. rewrite lookup_insert_ne by done. apply W1.
  - exact W2.
  - destruct (decide (h = self_hash v)) as [->|]; [rewrite lookup_insert_eq; by intros [= <-]|]. rewrite lookup_insert_ne by done. apply W3.
  - intros c m p h Hm Hp. destruct (W4 c m p h Hm Hp) as [w Hh]. exists w. eapply lookup_weaken; [done|apply He].
Qed.

(** [set_path] keeps the nodes; the ones it adds are directories. *)
Lemma set_path_adds parts fh create ts : ∀ d ns, let ns' := snd (set_path_recursive parts d fh create ts ns) in
  ∀ h v, repo ns' !! h = Some v → repo ns !! h = Some v ∨ kind v = KDirectory.
Proof.
  assert (∀ m d ns h v, repo (snd (new_dir_node_at m d ts ns)) !! h = Some v → repo ns !! h = Some v ∨ kind v = KDirectory) as Hnew.
  { intros m d ns h v. unfold new_dir_node_at, repo_put. destruct (negb _); cbn [snd Namespace.with_nodes repo]; [by left|].
    set (w := new_dir_node m d ts ns). destruct (decide (h = self_hash w)) as [->|Hne]; [rewrite lookup_insert_eq; intros [= <-]; by right|].
    rewrite lookup_insert_ne by done. by left. }
  induction parts as [|p rest IH]; intros d ns; cbv zeta; [by left|]. cbn [set_path_recursive]. intros h v.
  destruct (children_of ns d) as [er|m]; [by left|].
  assert (∀ r ns1, (∀ h v, repo ns1 !! h = Some v → repo ns !! h = Some v ∨ kind v = KDirectory) →
     repo (snd (match r : DagError + N with inl e => (inl e, ns1) | inr c => new_dir_node_at (<[p := match rest with [] => fh | _ => c end]> m) d ts ns1 end)) !! h = Some v →
     repo ns !! h = Some v ∨ kind v = KDirectory) as Hlast.
  { intros [er|c] ns1 H1 H2; cbn [snd] in H2; [by apply H1|]. apply Hnew in H2 as [H2|]; [by apply H1|by right]. }
  destruct (m !! p) as [c|].
  - destruct (repo_get (repo ns) c) as [er|node]; [intros Hh; by left|]. destruct (negb _); [destruct rest; [apply (Hlast (inr c)); by left|apply (Hlast (inl NotADirectory)); by left]|].
    destruct rest as [|p2 rest]; [apply (Hlast (inr c)); by left|]. pose proof (IH c ns) as IHc. destruct (set_path_recursive (p2 :: rest) c fh create ts ns) as [r ns1].
    apply (Hlast r). exact IHc.
  - destruct rest as [|p2 rest]; [apply (Hlast (inr fh)); by left|]. destruct create; [|apply (Hlast (inl PathNotFound)); by left].
    pose proof (Hnew ∅ d ns) as Hn1. destruct (new_dir_node_at ∅ d ts ns) as [[er|nd] ns1]; cbn [snd] in Hn1; [apply (Hlast (inl er)); exact Hn1|].
    pose proof (IH nd ns1) as IHd. destruct (set_path_recursive (p2 :: rest) nd fh true ts ns1) as [r ns2]. apply (Hlast r). cbn [snd] in IHd.
    intros h' v' Hh'. destruct (IHd h' v' Hh') as [H1|]; [by apply Hn1|by right].
Qed.

Lemma set_path_inner_adds path fh create ts ns h v :
  repo (snd (set_path_inner path fh create ts ns)) !! h = Some v → repo ns !! h = Some v ∨ kind v = KDirectory.
Proof.
  unfold set_path_inner. destruct (path_parts path) as [|p rest]; [by left|]. pose proof (set_path_adds (p :: rest) fh create ts (root_head ns) ns) as Ha.
  destruct (set_path_recursive (p :: rest) (root_head ns) fh create ts ns) as [[er|r] ns1]; exact (Ha h v).
Qed.
(** What a linked version changes: one path. *)
Definition linked (e e' : Engine) (path : string) (h : N) (k : NodeKind) (content : N) : Prop :=
  (∃ v, repo (e_ns e') !! h = Some v ∧ kind v = k ∧ content_hash v = content) ∧ resolve (e_ns e') path = inr h ∧
  ∀ q, unrelated (path_parts path) q → resolve_parts (e_ns e') (root_head (e_ns e')) q = resolve_parts (e_ns e) (root_head (e_ns e)) q.

(** What a version that could not be linked changes: nothing that is reachable. *)
Definition same_tree (e e' : Engine) : Prop :=
  root_head (e_ns e') = root_head (e_ns e) ∧ ∀ q, resolve_parts (e_ns e') (root_head (e_ns e')) q = resolve_parts (e_ns e) (root_head (e_ns e)) q.

(** Outside the namespace and the clocks. *)
Definition rest_stays (e e' : Engine) : Prop :=
  path_index e' = path_index e ∧ e_chunker e' = e_chunker e ∧ e_config e' = e_config e ∧ e_store e' = e_store e.

Lemma link_node_ok n e X path ps content k m ts : engine_inv n e X → k ≠ KDirectory → ts <= u64_max →
  (k = KFile → ∀ v, content_hash v = content → ∃ data, version_reads e X v data) →
  wp (link_node path ps content k m ts) e (λ r e', engine_inv n e' X ∧ evolves e X e' X ∧ rest_stays e e' ∧
    match r with inl er => er = EDag NotADirectory ∧ same_tree e e' | inr hr => linked e e' path (fst hr) k content end).
Proof.
  intros Hi Hk Hts Hf. unfold link_node. apply wp_bind. unfold modify at 1, wp at 1. cbn [fst snd]. apply wp_bind.
  set (e1 := set_clocks _ _ e). change (wp ask e1 ?Q) with (Q (inr e1) e1). cbv beta iota.
  destruct (engine_frame n e e1 X eq_refl Hi) as [Hi1 Hev1].
  set (v := vnode_new content ps (e_vclock e1) ts k m). assert (verify v = true) as Hv by apply vnode_new_verifies.
  apply wp_bind. unfold put_node, on_ns, wp at 1, repo_put. rewrite Hv. cbn [negb or_error mret EM_ret fst snd].
  destruct (repo_put_ok (e_ns e1) v (ei_ns _ _ _ Hi1) Hv Hk) as [Hn1 Hx1]. set (ns1 := Namespace.with_nodes _ _ _ (e_ns e1)) in *.
  assert (∀ h w, repo ns1 !! h = Some w → kind w = KFile → ∃ data, version_reads e1 X w data) as Hf1.
  { intros h w. cbn [ns1 Namespace.with_nodes repo]. destruct (decide (h = self_hash v)) as [->|Hne].
    - rewrite lookup_insert_eq. intros [= <-] Hkf. exact (Hf Hkf v eq_refl).
    - rewrite lookup_insert_ne by done. apply (ei_files _ _ _ Hi1). }
  assert (∀ r q, is_Some (repo (e_ns e1) !! r) → resolve_parts ns1 r q = resolve_parts (e_ns e1) r q) as Hres1
    by (intros r q Hr; apply resolve_ext; [done|apply Hi1|done]).
  destruct (engine_set_ns n e1 X ns1 Hi1 Hn1 (proj1 Hx1) Hres1 (ei_head _ _ _ Hi1) Hf1) as [Hi2 Hev2]. set (e2 := set_ns ns1 e1) in *.
  assert (is_Some (repo ns1 !! self_hash v)) as Hst by (cbn [ns1 Namespace.with_nodes repo]; rewrite lookup_insert_eq; by eexists).
  apply wp_bind. unfold on_ns, wp at 1, set_path_at. cbn [e_ns e2 set_ns].
  assert (∀ q, resolve_parts ns1 (root_head ns1) q = resolve_parts (e_ns e) (root_head (e_ns e)) q) as Hroot by (intros q; apply Hres1, root_stored, Hi1).
  destruct (decide (path_parts path = [])) as [Hnil|Hne].
  { unfold set_path_inner. rewrite Hnil. cbn [or_error fail_with fst snd]. split_and!; [done|eapply evolves_trans; [exact Hev1|exact Hev2]|done..|split; [done|exact Hroot]]. }
  pose proof (set_path_inner_ok ns1 path (self_hash v) ts true Hn1 Hst Hne) as Hset.
  pose proof (set_path_inner_adds path (self_hash v) true ts ns1) as Hadds.
  assert (repo ns1 ⊆ repo (snd (set_path_inner path (self_hash v) true ts ns1))) as Hsub.
  { destruct (ns_step_inv (NSet path (self_hash v) ts true) ns1 Hn1) as (_ & Hk1 & _); [by intros ???? [= _ <- _ _]|]. apply map_subseteq_spec. exact Hk1. }
  destruct (set_path_inner path (self_hash v) true ts ns1) as [r ns2]. cbn [snd] in Hadds, Hsub. destruct Hset as (Hn2 & Hres2 & _ & Hr).
  assert (∀ h w, repo ns2 !! h = Some w → kind w = KFile → ∃ data, version_reads e2 X w data) as Hf2.
  { intros h w Hh Hkf. destruct (Hadds h w Hh) as [Hh1|]; [|congruence]. by apply (ei_files _ _ _ Hi2 h w Hh1). }
  assert (∃ pre t, root_chain ns2 = pre ++ [(t, root_head ns2)] ∧ t <= u64_max) as Hhead.
  { destruct r as [er|root]; destruct Hr as (Hrh & Hch & _); [|exists (root_chain ns1), ts; by rewrite Hch, Hrh]. rewrite Hch, Hrh. apply (ei_head _ _ _ Hi1). }
  destruct (engine_set_ns n e2 X ns2 Hi2 Hn2 Hsub Hres2 Hhead Hf2) as [Hi3 Hev3]. set (e3 := set_ns ns2 e2) in *.
  assert (evolves e X e3 X) as Hev by (eapply evolves_trans; [exact Hev1|]; eapply evolves_trans; [exact Hev2|exact Hev3]).
  destruct r as [er|root]; cbn [or_error fail_with mret EM_ret fst snd].
  - destruct Hr as (Hrh & _ & Her). split_and!; [done|done|done|destruct Her as [->|[_ ?]]; done|]. split; [done|]. intros q. cbn [e3 set_ns e_ns]. rewrite Hrh, Hres2; [apply Hroot|]. by apply root_stored.
  - destruct Hr as (Hrh & _ & Hrp & Hun). unfold wp, mbind, EM_bind, drain. cbn [fst snd mret EM_ret drain_created].
    destruct (engine_set_ns n e3 X (snd (drain_created ns2)) Hi3) as [Hi4 Hev4]; [destruct Hn2 as [[]]; constructor; [by constructor|done..]|done|intros; by apply resolve_same|done|done|].
    split; [exact Hi4|]. split; [by eapply evolves_trans|]. split; [done|]. destruct Hst as [w Hw]. pose proof (lookup_weaken _ _ _ _ Hw Hsub) as Hw2.
    split_and!; [|unfold resolve, resolve_under in *; by rewrite (resolve_same ns2)|].
    + exists w. cbn [ns1 Namespace.with_nodes repo] in Hw. rewrite lookup_insert_eq in Hw. injection Hw as <-. done.
    + intros q Hq. transitivity (resolve_parts ns2 (root_head ns2) q); [by apply resolve_same|]. rewrite Hrh, Hun by done. apply Hroot.
Qed.
(** ** Writing a file *)
Lemma engine_inv_le n m e X : n <= m → engine_inv n e X → engine_inv m e X.
Proof. intros Hle []. constructor; try done; lia. Qed.

Lemma store_sync_ok n e X : engine_inv n e X → n + 2 < two64 →
  wp store_sync e (λ r e', r = inr tt ∧ engine_inv (n + 1) e' X ∧ evolves e X e' X ∧ e_ns e' = e_ns e ∧ path_index e' = path_index e).
Proof.
  intros Hi Hn. pose proof (ei_epoch _ _ _ Hi). unfold store_sync, modify, wp, checkpoint_noop. cbn [fst snd].
  destruct (superblock_keeps (e_store e) X (root_head (e_ns e)) (ckpt (e_store e))) as (s & -> & Hs & Hh & Hg & Hep); [apply Hi|apply Hi|lia|].
  split_and!; [done| |by constructor|done..]. apply (engine_inv_le n (n + 1)) in Hi; [|lia]. destruct Hi. constructor; try done. cbn. lia.
Qed.

(** One message into the path index. *)
Lemma path_index_ok m e X op : engine_inv m e X → next_seq (path_index e) + 1 <= m → m < two64 →
  ∃ t, tree_step op (path_index e) = Some t ∧ engine_inv m (set_index t e) X ∧ evolves e X (set_index t e) X.
Proof.
  intros Hi Hs Hm. destruct (ei_index _ _ _ Hi) as [g Hg]. destruct (tree_step_ok op _ g Hg) as (t & g' & Et & Hg' & Hn & _); [rewrite two64_pow in Hm; lia|].
  exists t. split_and!; [done| |by constructor]. destruct Hi. constructor; try done; [by exists g'|cbn; lia].
Qed.

Lemma chunk_sizes (ps : list bytes) : Forall (λ p, p ≠ []) ps → (length ps ≤ length (concat ps))%nat ∧ Forall (λ p, (length p ≤ length (concat ps))%nat) ps.
Proof.
  induction 1 as [|p ps Hp Hps [IH1 IH2]]; [done|]. cbn [concat length]. rewrite length_app. assert (0 < length p)%nat by (destruct p; [done|cbn; lia]).
  split; [lia|]. constructor; [lia|]. eapply Forall_impl; [exact IH2|]. cbn. lia.
Qed.

Lemma chunk_step n e X data : engine_inv n e X → ∃ ps c, chunk (e_chunker e) data = Some (ps, c) ∧ concat ps = data ∧
  (length ps ≤ length data)%nat ∧ Forall (λ p, (length p ≤ length data)%nat) ps ∧ engine_inv n (set_chunker c e) X ∧ evolves e X (set_chunker c e) X.
Proof.
  intros Hi. destruct (chunk_pieces (e_chunker e) data (ei_chunker _ _ _ Hi)) as (c & Hc & Hok & _).
  destruct (pieces_ok (length data) (chunker_reset (e_chunker e)) data) as (ps & Hp & Hcat & Hps); [apply reset_ok, Hi|done|].
  rewrite Hp in Hc. exists ps, c. destruct (chunk_sizes ps) as [H1 H2].
  { apply Forall_lookup. intros i p Hip. by apply (Hps i p). }
  rewrite Hcat in H1, H2. split_and!; [done..| |by constructor]. destruct Hi. by constructor.
Qed.

(** What a write that reached the namespace leaves. *)
Definition wrote (e e' : Engine) (X' : list ext) (path : string) (h : N) (data : bytes) : Prop :=
  ∃ c, linked e e' path h KFile c ∧ ∀ v, content_hash v = c → version_reads e' X' v data.

Lemma now_ok n e X wall : engine_inv n e X → wp (now wall) e (λ r e', ∃ ts, r = inr ts ∧ ts <= u64_max ∧ core e' = core e).
Proof.
  intros _. unfold wp, now, tick_ns. cbn [fst snd]. eexists. split_and!; [done| |done]. unfold as_ns.
  pose proof (wrap64_lt (physical (hlc_tick (N.max wall MIN_TS_NS) (e_hlc e)) + logical (hlc_tick (N.max wall MIN_TS_NS) (e_hlc e)))).
  unfold wadd64, two64, u64_max in *. lia.
Qed.
Lemma wrote_frame e0 e1 e e' X X' path h data : e_ns e1 = e_ns e0 → e_ns e' = e_ns e → (∀ h p, reads_as e X h p → reads_as e' X' h p) →
  wrote e1 e X path h data → wrote e0 e' X' path h data.
Proof.
  intros H1 H2 Hr (c & (Hv & Hres & Hun) & Hd). exists c. split; [|intros v Hc; eapply version_reads_mono; [exact Hr|by apply Hd]].
  unfold linked. rewrite H2, <- H1. by split_and!.
Qed.

Lemma finish_put_ok n e X path data o sync recs h : engine_inv n e X → n + 2 < two64 →
  wp (finish_put path data o sync recs h) e (λ r e', engine_inv (n + 1) e' X ∧ evolves e X e' X ∧ e_ns e' = e_ns e ∧
    match r with inl er => ∃ w, er = EWal w | inr h' => h' = h end).
Proof.
  intros Hi Hn. pose proof (ei_seq _ _ _ Hi) as Hseq. unfold finish_put. apply wp_bind.
  assert (wp (if sync then store_sync else mret tt) e (λ r e', r = inr tt ∧ engine_inv (n + 1) e' X ∧ evolves e X e' X ∧ e_ns e' = e_ns e ∧ path_index e' = path_index e)) as H0.
  { destruct sync; [by apply store_sync_ok|]. split_and!; [done|by apply (engine_inv_le n); [lia|]|apply evolves_refl|done..]. }
  eapply wp_mono; [exact H0|]. intros r e1 (-> & Hi1 & Hev1 & Hns1 & Hpi1). apply wp_bind. unfold commit, wp at 1.
  destruct (commit_batch recs o (e_wal e1)) as [[er|txn] w]; cbn [fst snd].
  { destruct (engine_frame _ e1 (set_wal w e1) X eq_refl Hi1) as [H2 H3]. split_and!; [done|by eapply evolves_trans|done|by exists er]. }
  apply wp_bind. unfold counting at 1, modify at 1, wp at 1. cbn [fst snd]. apply wp_bind. unfold counting at 1, modify at 1, wp at 1. cbn [fst snd].
  apply wp_bind. set (e2 := set_stats _ (set_stats _ _)). change (wp ask e2 ?Q) with (Q (inr e2) e2). cbv beta iota.
  destruct (engine_frame _ e1 e2 X eq_refl Hi1) as [Hi2 Hev2].
  destruct (path_index_ok (n + 1) e2 X (TInsert (path_bytes path) (hash_bytes h)) Hi2) as (t & Et & Hi3 & Hev3); [cbn; rewrite Hpi1; lia|lia|].
  cbn [tree_step] in Et. rewrite Et. unfold wp, mbind, EM_bind, modify. cbn [or_panic mret EM_ret fst snd].
  split_and!; [done| |done|done]. eapply evolves_trans; [exact Hev1|]. by eapply evolves_trans.
Qed.

Lemma stage_file_ok n e X data : engine_inv n e X → (32 * length data + 25 < N.to_nat two32)%nat →
  wp (stage_file data) e (λ r e', ∃ X', engine_inv n e' X' ∧ evolves e X e' X' ∧ e_ns e' = e_ns e ∧
    match r with inl er => stage_error er | inr mr => ∀ v, content_hash v = fst mr → version_reads e' X' v data end).
Proof.
  intros Hi Hlen. unfold stage_file. apply wp_bind. change (wp ask e ?Q) with (Q (inr e) e). cbv beta iota.
  destruct (chunk_step n e X data Hi) as (ps & c & Hc & Hcat & Hnum & Hsz & Hi2 & Hev2). apply wp_bind. rewrite Hc.
  unfold wp at 1. cbn [or_panic mret EM_ret fst snd]. apply wp_bind. unfold modify at 1, wp at 1. cbn [fst snd]. set (e2 := set_chunker c e) in *.
  assert (∀ e3 X3, step_ok n e2 X e3 X3 → engine_inv n e3 X3 ∧ evolves e X e3 X3 ∧ e_ns e3 = e_ns e) as Hstep.
  { intros e3 X3 (Hi3 & Hev3 & Hs & _). split_and!; [done|by eapply evolves_trans|by rewrite Hs]. }
  apply wp_bind. eapply wp_mono; [apply (put_chunks_ok n ps e2 X); [done|eapply Forall_impl; [exact Hsz|]; cbn; lia]|].
  cbv beta. intros [er|[hs recs]] e3 (X3 & Hst3 & Hr3); [exists X3; destruct (Hstep e3 X3 Hst3) as (? & ? & ?); by split_and!|].
  destruct Hr3 as [Hhs Hreads]. cbn [fst app] in Hhs. subst hs.
  apply wp_bind. eapply wp_mono; [apply (put_meta_ok n e3 X3); [apply Hst3|rewrite length_map; lia]|]. cbv beta.
  intros r e4 (X4 & Hst4 & Hr4). destruct (Hstep e4 X4) as (H1 & H2 & H3); [by eapply estep_trans|].
  destruct r as [er|[mh mrecs]]; [by exists X4|]. destruct Hr4 as (meta & Hmeta & Hde). exists X4. split_and!; [done..|]. intros v Hv.
  exists meta, (map hash_of ps), ps. rewrite Hv. split_and!; [done..| |done]. apply Forall2_fmap_l, Forall_Forall2_diag.
  eapply Forall_impl; [exact Hreads|]. intros p. apply (ev_reads _ _ _ _ (proj1 (proj2 Hst4))).
Qed.

Lemma put_ok n e X path data wall o : engine_inv n e X → n + 2 < two64 → (32 * length data + 25 < N.to_nat two32)%nat →
  wp (put path data wall o) e (λ r e', ∃ X', engine_inv (n + 1) e' X' ∧ evolves e X e' X' ∧
    match r with
    | inr h => wrote e e' X' path h data
    | inl er => write_error er ∧ (same_tree e e' ∧ (∀ w, er ≠ EWal w) ∨ (∃ w, er = EWal w) ∧ ∃ h, wrote e e' X' path h data)
    end).
Proof.
  intros Hi Hn Hlen. unfold put. apply wp_bind. eapply wp_mono; [by apply (now_ok n e X wall)|]. cbv beta. intros r e1 (ts & -> & Hts & Hcore).
  destruct (engine_frame n e e1 X Hcore Hi) as [Hi1 Hev1]. assert (e_ns e1 = e_ns e) as Hns1 by (by injection Hcore).
  apply wp_bind. eapply wp_mono; [by apply (stage_file_ok n e1 X)|]. cbv beta.
  intros r e2 (X2 & Hi2 & Hev2 & Hns2 & Hr2). apply (evolves_trans _ _ _ _ _ _ Hev1) in Hev2. rewrite Hns1 in Hns2.
  destruct r as [er|[mh recs]].
  { exists X2. split_and!; [by apply (engine_inv_le n); [lia|]|done|by left|]. left. unfold same_tree. rewrite Hns2. split; [done|].
    intros w ->. by destruct Hr2 as [[k ?]|[?|?]]. }
  apply wp_bind. change (wp ask e2 ?Q) with (Q (inr e2) e2). cbv beta iota zeta.
  apply wp_bind. eapply wp_mono; [apply (link_node_ok n e2 X2); [done|done|done|intros _ v Hv; by eexists (_); apply Hr2]|]. cbv beta.
  intros r e3 (Hi3 & Hev3 & _ & Hr3). pose proof (evolves_trans _ _ _ _ _ _ Hev2 Hev3) as Hev. destruct r as [er|[h nrecs]].
  { destruct Hr3 as [-> Hsame]. exists X2. split_and!; [by apply (engine_inv_le n); [lia|]|done|right; by left|].
    left. unfold same_tree in *. by rewrite Hns2 in Hsame. }
  assert (wrote e2 e3 X2 path h data) as Hw.
  { exists mh. split; [done|]. intros v Hv. eapply version_reads_mono; [apply Hev3|]. by apply Hr2. }
  eapply wp_mono; [by apply (finish_put_ok n e3 X2)|]. cbv beta. intros r e4 (Hi4 & Hev4 & Hns4 & Hr4).
  assert (wrote e e4 X2 path h data) as Hw4 by (by apply (wrote_frame e e2 e3 e4 X2 X2); [| |apply Hev4|]).
  exists X2. split_and!; [done|by eapply evolves_trans|]. destruct r as [er|h']; [|by subst]. split; [|right; split; [done|by exists h]].
  right. by right.
Qed.
(** ** Deleting a file *)
Lemma release_chunk_ok n e X h : engine_inv n e X → is_Some (chunk_map e !! h) →
  wp (release_chunk h) e (λ r e', step_ok n e X e' X ∧ chunk_map e' = chunk_map e ∧ ∃ rec, r = inr rec).
Proof.
  intros Hi [sc Hsc]. unfold release_chunk, refcount_by. pose proof (step_refcount n e X h (-1) Hi) as Hst. apply wp_bind. unfold modify at 1, wp at 1. cbn [fst snd].
  set (e1 := set_store _ e) in *. apply wp_bind. change (wp ask e1 ?Q) with (Q (inr e1) e1). cbv beta iota. apply wp_bind.
  assert (step_ok n e1 X (set_dedup (snd (dedup_release (e_domain e1) h (e_dedup e1))) e1) X) as Hst2.
  { pose proof (ei_bloom _ _ _ (proj1 Hst)) as Hb. pose proof (ei_dedup _ _ _ (proj1 Hst)) as Hd. unfold dedup_release.
    destruct (entries (e_dedup e1) !! (e_domain e1, h)) as [en|] eqn:E; [|by apply step_dedup; [apply Hst|..]].
    destruct (_ =? 0); [by apply step_dedup; [apply Hst|..]|]. destruct (_ =? 0); cbn [snd]; (apply step_dedup; [apply Hst|done|]); intros h' Hh'; cbn [entries] in Hh'.
    - destruct (decide (h' = h)) as [->|Hne]; [by rewrite lookup_delete_eq in Hh'; destruct Hh'|]. rewrite lookup_delete_ne in Hh' by congruence. by apply Hd.
    - destruct (decide (h' = h)) as [->|Hne]; [apply Hd; by exists en|]. rewrite lookup_insert_ne in Hh' by congruence. by apply Hd. }
  change (chunk_map e !! h) with (chunk_map e1 !! h) in Hsc. rewrite Hsc.
  destruct (_ <? _); unfold wp, mbind, EM_bind, modify; cbn [or_panic mret EM_ret fst snd]; (split_and!; [|done|by eexists]); [by eapply estep_trans|done].
Qed.

Lemma release_chunks_ok n X hs : ∀ e, engine_inv n e X → Forall (λ h, is_Some (chunk_map e !! h)) hs →
  wp (release_chunks hs) e (λ r e', step_ok n e X e' X ∧ chunk_map e' = chunk_map e ∧ ∃ recs, r = inr recs).
Proof.
  induction hs as [|h hs IH]; intros e Hi Hhs; cbn [release_chunks]; [split_and!; [by apply estep_refl|done|by eexists]|].
  apply Forall_cons in Hhs as [Hh Hhs]. apply wp_bind. eapply wp_mono; [by apply (release_chunk_ok n e X h)|]. cbv beta. intros r e1 (Hst1 & Hm1 & rec & ->).
  apply wp_bind. eapply wp_mono; [apply (IH e1); [apply Hst1|by rewrite Hm1]|]. cbv beta. intros r e2 (Hst2 & Hm2 & recs & ->).
  split_and!; [by eapply estep_trans|cbn; congruence|by eexists].
Qed.

Lemma reads_mapped e X h p : reads_as e X h p → is_Some (chunk_map e !! h).
Proof. intros (_ & sc & x & H & _). by exists sc. Qed.

Lemma release_file_ok n e X h v : engine_inv n e X → repo (e_ns e) !! h = Some v →
  wp (release_file v) e (λ r e', step_ok n e X e' X ∧ ∃ recs, r = inr recs).
Proof.
  intros Hi Hv. unfold release_file. destruct (bool_decide_reflect (kind v = KFile)) as [Hk|]; [|split; [by apply estep_refl|by eexists]].
  destruct (ei_files _ _ _ Hi h v Hv Hk) as (data & m & hs & ps & Hm & Hde & Hps & _).
  apply wp_bind. unfold wp at 1. rewrite (read_chunk_reads e X _ m) by (done || apply Hi). cbn [fst snd].
  apply wp_bind. unfold wp at 1, de_chunk_list. rewrite Hde. cbn [or_error mret EM_ret fst snd].
  assert (Forall (λ h, is_Some (chunk_map e !! h)) hs) as Hhs.
  { apply Forall_lookup. intros i h' Hi'. destruct (Forall2_lookup_l _ _ _ _ _ Hps Hi') as (p & _ & Hp). by eapply reads_mapped. }
  apply wp_bind. eapply wp_mono; [by apply (release_chunks_ok n X hs e)|]. cbv beta. intros r e1 (Hst1 & Hm1 & recs & ->).
  apply wp_bind. eapply wp_mono; [apply (release_chunk_ok n e1 X); [apply Hst1|rewrite Hm1; by eapply reads_mapped]|]. cbv beta. intros r e2 (Hst2 & _ & rec & ->).
  split; [by eapply estep_trans|by eexists].
Qed.

Lemma finish_delete_ok n e X path o recs h : engine_inv n e X → n + 2 < two64 →
  wp (finish_delete path o recs h) e (λ r e', engine_inv (n + 1) e' X ∧ evolves e X e' X ∧ e_ns e' = e_ns e ∧
    match r with inl er => ∃ w, er = EWal w | inr h' => h' = h end).
Proof.
  intros Hi Hn. pose proof (ei_seq _ _ _ Hi) as Hseq. apply (engine_inv_le n (n + 1)) in Hi; [|lia]. unfold finish_delete. apply wp_bind. unfold commit, wp at 1.
  destruct (commit_batch recs o (e_wal e)) as [[er|txn] w]; cbn [fst snd].
  { destruct (engine_frame _ e (set_wal w e) X eq_refl Hi) as [H2 H3]. split_and!; [done|done|done|by exists er]. }
  apply wp_bind. unfold counting at 1, modify at 1, wp at 1. cbn [fst snd].
  apply wp_bind. set (e2 := set_stats _ _). change (wp ask e2 ?Q) with (Q (inr e2) e2). cbv beta iota.
  destruct (engine_frame _ e e2 X eq_refl Hi) as [Hi2 Hev2].
  destruct (path_index_ok (n + 1) e2 X (TDelete (path_bytes path)) Hi2) as (t & Et & Hi3 & Hev3); [cbn; lia|lia|].
  cbn [tree_step] in Et. rewrite Et. unfold wp, mbind, EM_bind, modify. cbn [or_panic mret EM_ret fst snd].
  split_and!; [done|by eapply evolves_trans|done|done].
Qed.

Definition removed (e e' : Engine) (path : string) : Prop := ∃ h c, linked e e' path h KTombstone c.

Lemma delete_ok n e X path wall o : engine_inv n e X → n + 2 < two64 →
  wp (delete_file path wall o) e (λ r e', engine_inv (n + 1) e' X ∧ evolves e X e' X ∧
    match r with
    | inr h => removed e e' path
    | inl er => (∃ d, er = EDag d) ∧ same_tree e e' ∨ (∃ w, er = EWal w) ∧ removed e e' path
    end).
Proof.
  intros Hi Hn. unfold delete_file. apply wp_bind. eapply wp_mono; [by apply (now_ok n e X wall)|]. cbv beta. intros r e1 (ts & -> & Hts & Hcore).
  destruct (engine_frame n e e1 X Hcore Hi) as [Hi1 Hev1]. assert (e_ns e1 = e_ns e) as Hns1 by (by injection Hcore).
  apply wp_bind. change (wp ask e1 ?Q) with (Q (inr e1) e1). cbv beta iota. apply wp_bind.
  destruct (resolve (e_ns e1) path) as [er|parent] eqn:Er; unfold wp at 1; cbn [or_error fail_with mret EM_ret fst snd].
  { split_and!; [by apply (engine_inv_le n); [lia|]|done|]. left. split; [by eexists|]. unfold same_tree. by rewrite Hns1. }
  destruct (resolve_stored (e_ns e1) (root_head (e_ns e1)) (path_parts path) parent) as [v Hv]; [apply Hi1|apply root_stored, Hi1|done|].
  apply wp_bind. unfold node_of, wp at 1. erewrite em_bind_ok by done. unfold repo_get. rewrite Hv. cbn [or_error mret EM_ret fst snd].
  apply wp_bind. eapply wp_mono; [by apply (release_file_ok n e1 X parent v)|]. cbv beta. intros r e2 ((Hi2 & Hev2 & Hns2 & _) & recs & ->).
  apply (evolves_trans _ _ _ _ _ _ Hev1) in Hev2. rewrite Hns1 in Hns2.
  apply wp_bind. eapply wp_mono; [by apply (link_node_ok n e2 X)|]. cbv beta.
  intros r e3 (Hi3 & Hev3 & _ & Hr3). pose proof (evolves_trans _ _ _ _ _ _ Hev2 Hev3) as Hev. destruct r as [er|[h nrecs]].
  { destruct Hr3 as [-> Hsame]. split_and!; [by apply (engine_inv_le n); [lia|]|done|]. left. split; [by eexists|]. unfold same_tree in *. by rewrite Hns2 in Hsame. }
  eapply wp_mono; [by apply (finish_delete_ok n e3 X)|]. cbv beta. intros r e4 (Hi4 & Hev4 & Hns4 & Hr4).
  assert (removed e e4 path) as Hw by (exists h, (content_hash v); unfold linked in *; rewrite Hns4, <- Hns2; exact Hr3).
  split_and!; [done|by eapply evolves_trans|]. destruct r as [er|h']; [|done]. right. done.
Qed.
(** ** Snapshots and checkpoints *)
Lemma same_tree_ns e e' : repo (e_ns e') = repo (e_ns e) → dirs (e_ns e') = dirs (e_ns e) → root_head (e_ns e') = root_head (e_ns e) → same_tree e e'.
Proof. intros H1 H2 H3. split; [done|]. intros q. rewrite H3. by apply resolve_same. Qed.

Lemma take_snapshot_ok n e X name o : engine_inv n e X →
  wp (take_snapshot name o) e (λ r e', engine_inv n e' X ∧ evolves e X e' X ∧ same_tree e e' ∧ ∃ root, r = inr root).
Proof.
  intros Hi. unfold take_snapshot. apply wp_bind. unfold on_ns, wp at 1. cbn [snapshot or_error mret EM_ret fst snd].
  destruct (ns_step_inv (NSnapshot name) (e_ns e) (ei_ns _ _ _ Hi)) as (Hn & _ & Hres & _); [done|]. cbn [ns_step snapshot snd] in *. set (ns' := with_snapshots _ _) in *.
  destruct (engine_set_ns n e X ns' Hi Hn) as [Hi1 Hev1]; [done|intros r q Hr; by apply Hres|apply Hi|apply (ei_files _ _ _ Hi)|].
  unfold wp, mbind, EM_bind, commit_quietly, modify, counting. cbn [mret EM_ret fst snd]. unfold mbind, EM_bind, modify. cbn [mret EM_ret fst snd].
  match goal with |- engine_inv _ ?ef _ ∧ _ => destruct (engine_frame n (set_ns ns' e) ef X eq_refl Hi1) as [Hi2 Hev2] end.
  split_and!; [done|by eapply evolves_trans|by apply same_tree_ns|by eexists].
Qed.

(** The blob a checkpoint of [e] writes fits its area. *)
Definition blob_fits (e : Engine) : Prop :=
  ∀ t b, flush_all (path_index e) = Some t → ser_state (state_of (set_index t e)) = Some b → N.of_nat (length b) + 8 <= checkpoint_area_size.

Lemma checkpoint_ok n e X : engine_inv n e X → n + 2 < two64 → blob_fits e →
  wp checkpoint_engine e (λ r e', engine_inv (n + 1) e' X ∧ evolves e X e' X ∧ same_tree e e' ∧ match r with inl er => er = ECodec | inr _ => True end).
Proof.
  intros Hi Hn Hfit. pose proof (ei_seq _ _ _ Hi) as Hseq. pose proof (ei_epoch _ _ _ Hi) as Hep. apply (engine_inv_le n (n + 1)) in Hi; [|lia].
  unfold checkpoint_engine. apply wp_bind. destruct (path_index_ok (n + 1) e X TFlushAll Hi) as (t & Et & Hi1 & Hev1); [lia|lia|]. cbn [tree_step] in Et.
  unfold flush_index, wp at 1. erewrite em_bind_ok by done. rewrite Et. cbn [or_panic]. unfold mbind, EM_bind, modify. cbn [mret EM_ret fst snd].
  set (e1 := set_index t e) in *. apply wp_bind. change (wp ask e1 ?Q) with (Q (inr e1) e1). cbv beta iota. apply wp_bind.
  destruct (ser_state (state_of e1)) as [b|] eqn:Eb; unfold wp at 1; cbn [or_error fail_with mret EM_ret fst snd].
  2: { split_and!; [done|done|by apply same_tree_ns|done]. }
  apply wp_bind. destruct (checkpoint_keeps (e_store e1) X (root_head (e_ns e1)) b) as (s & -> & Hs & Hh & Hg & Hep');
    [apply Hi1|apply Hi1|by apply (Hfit t b)|cbn [e1 set_index e_store]; lia|].
  unfold wp at 1. cbn [or_error mret EM_ret fst snd]. unfold wp, mbind, EM_bind, modify. cbn [fst snd].
  split_and!; [|eapply evolves_trans; [exact Hev1|by constructor]|by apply same_tree_ns|done].
  destruct Hi1. constructor; try done. cbn in *. lia.
Qed.

(** ** Reading by path *)
Definition found (e : Engine) (X : list ext) (q : list string) (c : option bytes) : Prop :=
  ∃ h v, resolve_parts (e_ns e) (root_head (e_ns e)) q = inr h ∧ repo (e_ns e) !! h = Some v ∧
    match c with Some data => kind v = KFile ∧ version_reads e X v data | None => kind v = KTombstone end.

Lemma get_found n e X path c : engine_inv n e X → found e X (path_parts path) c →
  get_file path e = (match c with Some data => inr data | None => inl ENotFound end, e).
Proof.
  intros Hi (h & v & Hres & Hv & Hc). destruct (ei_head _ _ _ Hi) as (pre & ts & Hch & Hts). unfold get_file, get_at. erewrite em_bind_ok by done.
  rewrite (resolve_at_last (e_ns e) pre [] ts (root_head (e_ns e))); [|apply Hi|done|done|done].
  erewrite em_bind_ok by done. unfold resolve_under. rewrite Hres. erewrite em_bind_ok by done.
  destruct c as [data|]; [destruct Hc; by apply (read_version_ok e X h v); [apply Hi|..]|].
  unfold read_version, node_of. erewrite em_bind_ok by (erewrite em_bind_ok by done; unfold repo_get; by rewrite Hv).
  by rewrite bool_decide_true.
Qed.
End spec.
