(* ===== verification/EngineSpec.v ===== *)
(** * The engine is a store of files

    Runs of the operations of the engine ([lionfs-cluster/src/engine.rs])
    against what is known of each path, and an environment in which the theorem
    is applied: a sparse device of the prototype's size, the reference codecs
    of the store and the ciphers, a hash without collisions and a bincode of
    chunk lists. *)
From S2P Require Import Prelude Clocks Cdc ClusterCore Crypto Dedup Ecc BeTree BeTreeSpec BeTreeFlow BeTreeRefine BeTreeScan Wal Devices StoreModel StoreRef StoreSpec StoreBoot Namespace NamespaceSpec Engine EngineInv.
From Stdlib Require Import NArith ZArith Lia Strings.Byte Strings.String.
From stdpp Require Import base numbers gmap option list strings sorting.
#[local] Open Scope N_scope.

#[local] Abbreviation bytes := (list byte).

Section spec.
Context {D : Type} `{!BlockDevice D} `{!BlockDeviceLaws D} {codec : StoreCodec} {claws : StoreCodecLaws} {hashing : Hashing} {dcodec : DirCodec}
  {cf : CollisionFree} {wcodec : WalCodec} {prims : CryptoPrims} {aead : AeadLaws} {env : EngineEnv} {laws : EngineLaws (D := D)}.
#[local] Abbreviation Engine := (ClusterEngine D).
#[local] Abbreviation M := (EM EngineError Engine).

(** ** Runs *)
Inductive engine_op :=
  | EPut (path : string) (data : bytes) (wall : N) (o : io)
  | EDelete (path : string) (wall : N) (o : io)
  | ESnapshot (name : string) (o : io)
  | ECheckpoint.

Definition engine_step (op : engine_op) : M N :=
  match op with
  | EPut path data wall o => put path data wall o
  | EDelete path wall o => delete_file path wall o
  | ESnapshot name o => take_snapshot name o
  | ECheckpoint => checkpoint_engine ;; mret 0
  end.

Fixpoint engine_run (ops : list engine_op) (e : Engine) : list (EngineError + N) * Engine :=
  match ops with
  | [] => ([], e)
  | op :: ops => let '(r, e) := engine_step op e in let '(rs, e) := engine_run ops e in (r :: rs, e)
  end.

(** Files stay below the width of an extent length (2^27 bytes do), and the
    blob of every checkpoint fits its area. *)
Definition op_ok (op : engine_op) (e : Engine) : Prop :=
  match op with
  | EPut _ data _ _ => (32 * length data + 25 < N.to_nat two32)%nat
  | ECheckpoint => blob_fits e
  | _ => True
  end.

Fixpoint run_ok (ops : list engine_op) (e : Engine) : Prop :=
  match ops with [] => True | op :: ops => op_ok op e ∧ run_ok ops (snd (engine_step op e)) end.

(** The errors an operation may return. *)
Definition op_error (op : engine_op) (er : EngineError) : Prop :=
  match op with
  | EPut _ _ _ _ => write_error er
  | EDelete _ _ _ => (∃ d, er = EDag d) ∨ ∃ w, er = EWal w
  | ESnapshot _ _ => False
  | ECheckpoint => er = ECodec
  end.

(** ** The specification: what is known of each path

    [Some (Some data)] is a file with these bytes, [Some None] a deleted file,
    [None] a path nothing is said about. A write or deletion that succeeds, or
    only fails to reach the log, settles its path and leaves unrelated paths
    alone. *)
Definition took_effect (r : EngineError + N) : bool := match r with inr _ => true | inl (EWal _) => true | inl _ => false end.

Definition settle (path : string) (c : option bytes) (f : list string → option (option bytes)) (q : list string) : option (option bytes) :=
  if decide (q = path_parts path) then Some c
  else if decide (path_parts path `prefix_of` q ∨ q `prefix_of` path_parts path) then None else f q.

Definition expect_step (op : engine_op) (r : EngineError + N) (f : list string → option (option bytes)) : list string → option (option bytes) :=
  match op with
  | EPut path data _ _ => if took_effect r then settle path (Some data) f else f
  | EDelete path _ _ => if took_effect r then settle path None f else f
  | _ => f
  end.

Fixpoint expect (ops : list engine_op) (rs : list (EngineError + N)) (f : list string → option (option bytes)) : list string → option (option bytes) :=
  match ops, rs with op :: ops, r :: rs => expect ops rs (expect_step op r f) | _, _ => f end.

Definition knows (e : Engine) (X : list ext) (f : list string → option (option bytes)) : Prop := ∀ q c, f q = Some c → found e X q c.

Lemma found_same (e : Engine) X (e' : Engine) X' q c : evolves e X e' X' → same_tree e e' → found e X q c → found e' X' q c.
Proof.
  intros Hev [Hr Hs] (h & v & Hres & Hv & Hc). exists h, v. rewrite Hs. split_and!; [done|by eapply lookup_weaken; [|apply Hev]|].
  destruct c; [|done]. destruct Hc. split; [done|]. by eapply version_reads_mono; [apply Hev|].
Qed.

Lemma knows_same (e : Engine) X (e' : Engine) X' f : evolves e X e' X' → same_tree e e' → knows e X f → knows e' X' f.
Proof. intros Hev Hs Hk q c Hq. eapply found_same; [done..|by apply Hk]. Qed.

Lemma knows_settle (e : Engine) X (e' : Engine) X' f path h k c content : evolves e X e' X' → linked e e' path h k content → knows e X f →
  match c with Some data => k = KFile ∧ ∀ v, content_hash v = content → version_reads e' X' v data | None => k = KTombstone end →
  knows e' X' (settle path c f).
Proof.
  intros Hev ((v & Hv & Hkv & Hcv) & Hres & Hun) Hk Hc q c'. unfold settle. destruct (decide (q = path_parts path)) as [->|Hne].
  - intros [= <-]. exists h, v. split_and!; [done..|]. destruct c as [data|]; [destruct Hc as [-> Hd]; split; [done|by apply Hd]|by subst].
  - destruct (decide _) as [|Hrel]; [done|]. intros Hq%Hk. destruct Hq as (h' & v' & Hres' & Hv' & Hc'). exists h', v'.
    split_and!; [rewrite Hun; [done|split; intros ?; apply Hrel; [by left|by right]]|by eapply lookup_weaken; [|apply Hev]|].
    destruct c'; [|done]. destruct Hc'. split; [done|]. by eapply version_reads_mono; [apply Hev|].
Qed.
(** What one operation does to what is known, to the versions, and its result. *)
Lemma engine_step_ok n (e : Engine) X op f : engine_inv n e X → n + 2 < two64 → op_ok op e → knows e X f →
  wp (engine_step op) e (λ r e', ∃ X', engine_inv (n + 1) e' X' ∧ evolves e X e' X' ∧ knows e' X' (expect_step op r f) ∧
    match r with
    | inl er => op_error op er
    | inr h => match op with EPut _ data _ _ => ∃ v, repo (e_ns e') !! h = Some v ∧ kind v = KFile ∧ version_reads e' X' v data | _ => True end
    end).
Proof.
  intros Hi Hn Hop Hk. destruct op as [path data wall o|path wall o|name o|]; cbn [engine_step op_ok] in *.
  - eapply wp_mono; [by apply (put_ok n e X)|]. cbv beta. intros [er|h] e' (X' & Hi' & Hev & Hr); exists X'; (split_and!; [done|done|..]); cbn [expect_step].
    + destruct Hr as [_ [[Hs Hw]|[[w ->] (h & c & Hl & Hd)]]]; [|by eapply (knows_settle e X)].
      assert (took_effect (inl er) = false) as -> by (destruct er; try done; by edestruct Hw). by eapply knows_same.
    + apply Hr.
    + destruct Hr as (c & Hl & Hd). by eapply (knows_settle e X).
    + destruct Hr as (c & ((v & Hv & Hkv & Hcv) & _) & Hd). exists v. split_and!; [done..|by apply Hd].
  - eapply wp_mono; [by apply (delete_ok n e X)|]. cbv beta. intros [er|h] e' (Hi' & Hev & Hr); exists X; (split_and!; [done|done|..]); cbn [expect_step]; try done.
    + destruct Hr as [[[d ->] Hs]|[[w ->] (h & c & Hl)]]; cbn [took_effect]; [by eapply knows_same|by eapply (knows_settle e X)].
    + cbn [op_error]. destruct Hr as [[? _]|[? _]]; [by left|by right].
    + destruct Hr as (h' & c & Hl). by eapply (knows_settle e X).
  - eapply wp_mono; [by apply (take_snapshot_ok n e X)|]. cbv beta. intros r e' (Hi' & Hev & Hs & root & ->). exists X.
    split_and!; [by apply (engine_inv_le n); [lia|]|done|by eapply knows_same|done].
  - apply wp_bind. eapply wp_mono; [by apply (checkpoint_ok n e X)|]. cbv beta. intros [er|u] e' (Hi' & Hev & Hs & Hr); exists X; (split_and!; [done|done|by eapply knows_same|done]).
Qed.
Lemma engine_run_ok ops : ∀ n (e : Engine) X f, engine_inv n e X → n + N.of_nat (length ops) + 2 < two64 → run_ok ops e → knows e X f →
  let '(rs, e') := engine_run ops e in ∃ X', engine_inv (n + N.of_nat (length ops)) e' X' ∧ evolves e X e' X' ∧ knows e' X' (expect ops rs f) ∧
    Forall2 (λ op r, match r with
                     | inl er => op_error op er
                     | inr h => match op with EPut _ data _ _ => ∃ v, repo (e_ns e') !! h = Some v ∧ kind v = KFile ∧ version_reads e' X' v data | _ => True end
                     end) ops rs.
Proof.
  induction ops as [|op ops IH]; intros n e X f Hi Hn Hok Hk; cbn [engine_run run_ok length] in *.
  { exists X. rewrite N.add_0_r. split_and!; [done|apply evolves_refl|done|constructor]. }
  destruct Hok as [Hop Hok]. pose proof (engine_step_ok n e X op f Hi ltac:(lia) Hop Hk) as Hst. unfold wp in Hst.
  destruct (engine_step op e) as [r e1]. cbn [fst snd] in *. destruct Hst as (X1 & Hi1 & Hev1 & Hk1 & Hr1).
  specialize (IH (n + 1) e1 X1 (expect_step op r f) Hi1 ltac:(lia) Hok Hk1). destruct (engine_run ops e1) as [rs e2].
  destruct IH as (X2 & Hi2 & Hev2 & Hk2 & Hall). exists X2. split_and!; [by replace (n + N.of_nat (S (length ops))) with (n + 1 + N.of_nat (length ops)) by lia|by eapply evolves_trans|done|].
  constructor; [|done]. destruct r as [er|h]; [done|]. destruct op; try done. destruct Hr1 as (v & Hv & Hkv & Hd). exists v.
  split_and!; [by eapply lookup_weaken; [|apply Hev2]|done|]. by eapply version_reads_mono; [apply Hev2|].
Qed.

(** ** A new engine *)
Definition proto_geo : StoreGeometry := mkGeo GEO_ZONES GEO_ZONE_SIZE GEO_SEGMENT.

Lemma empty_engine_ok cfg s key ec c (e : Engine) w : store_inv s [] → has_header s → epoch s = 1 → chunker_ok c → empty_engine cfg s w key ec c = inr e →
  engine_inv 0 e [].
Proof.
  intros Hs Hh He Hc. unfold empty_engine. destruct (ns_new_ok 1 1000000000) as (ns & En & Hn & _ & Hone & v & Hv & Hts).
  assert (root_chain ns = [(1000000000, root_head ns)] ∧ kind v = KDirectory) as [Hch Hkv].
  { unfold ns_new, repo_put in En. destruct (negb _) in En; [done|]. injection En as <-. split; [done|]. cbn [repo root_head] in Hv.
    rewrite lookup_insert_eq in Hv. by injection Hv as <-. }
  rewrite En. destruct (be_new index_config) as [t|] eqn:Et; [|done]. destruct (be_new_good _ t Et) as (g & Hg & Hseq & _). intros [= <-].
  constructor; cbn [e_store chunk_map e_dedup e_domain e_ns e_chunker path_index]; try done.
  - by rewrite He.
  - intros h [sc Hsc]. by rewrite lookup_empty in Hsc.
  - intros h [en Hen]. cbn [entries index_new] in Hen. by rewrite lookup_empty in Hen.
  - exists [], 1000000000. by rewrite Hch.
  - intros h w' Hw Hk. assert (h = root_head ns) as -> by (apply Hone; by eexists). congruence.
  - by exists g.
  - by rewrite Hseq.
Qed.

Lemma build_ok (d : D) cfg key e : dinv d → build d cfg key = inr e → engine_inv 0 e [].
Proof.
  intros Hd. unfold build. destruct (format d GEO_ZONES GEO_ZONE_SIZE GEO_SEGMENT) as [s|] eqn:Ef; [|done].
  destruct (format_ok d proto_geo s) as (Hs & [Hh _] & Hg & He); [done|by split_and!|intros; apply always_safe|done|].
  destruct (codec_for cfg) as [er|ec]; [done|]. unfold chunker_for. destruct (chunker_new_ok (mkChunkerConfig (chunk_avg_bytes cfg) (chunk_min_bytes cfg) (chunk_max_bytes cfg)))
    as [E|(c & E & _ & _ & Hc)]; rewrite E; [done|]. intros Hb. eapply empty_engine_ok; [done| |done|done|exact Hb]. unfold has_header. by rewrite Hg.
Qed.

End spec.

(** ** A reference environment *)
#[local] Existing Instance code_hashing.
#[local] Existing Instance code_dirs.
#[local] Existing Instance code_free.

Definition test_device : SparseDevice := mkSparse (total_size proto_geo) [].
Definition engine_cfg : EngineConfig := mkConfig 1024 512 600 0 0 Full.
Definition test_key : bytes := replicate 32 x07.

(** A chunk list as its length in 8 bytes and 32 bytes per hash. *)
Definition enc_hashes (l : list N) : option bytes :=
  if forallb (λ h, h <? 256 ^ 32) l then Some (be_bytes 8 (N.of_nat (length l)) ++ concat (map (be_bytes 32) l)) else None.

Fixpoint dec_fixed (fuel : nat) (b : bytes) : list N :=
  match fuel, b with S fuel, _ :: _ => of_be (take 32 b) :: dec_fixed fuel (drop 32 b) | _, _ => [] end.
Definition dec_hashes (b : bytes) : option (list N) := Some (dec_fixed (length b) (drop 8 b)).

Lemma dec_fixed_ok l fuel : Forall (λ h, h < 256 ^ 32) l → (length l ≤ fuel)%nat → dec_fixed fuel (concat (map (be_bytes 32) l)) = l.
Proof.
  intros Hl. revert fuel. induction Hl as [|h l Hh Hl IH]; intros fuel Hf; [by destruct fuel|]. destruct fuel as [|fuel]; [cbn in Hf; lia|]. cbn [map concat length] in *.
  pose proof (length_be_bytes 32 h) as Hb. set (rest := concat (map (be_bytes 32) l)) in *.
  assert (∃ x r, be_bytes 32 h ++ rest = x :: r) as (x & r & E) by (destruct (be_bytes 32 h); [done|by eexists _, _]).
  assert (of_be (take 32 (be_bytes 32 h ++ rest)) = h ∧ drop 32 (be_bytes 32 h ++ rest) = rest) as [H1 H2].
  { split; [by apply be_field_here|]. rewrite <- Hb at 1. apply drop_app_length. }
  rewrite E in *. cbn [dec_fixed]. rewrite H1, H2. f_equal. apply IH. lia.
Qed.

#[local] Instance test_env : EngineEnv := {|
  serialize_key k := fst k ++ be_bytes 8 (snd k);
  ser_hashes := enc_hashes; de_hashes := dec_hashes;
  vnode_to_bytes _ := []; vnode_from_bytes _ := None; ser_state _ := None; de_state _ := None;
  keys_of m := map fst (map_to_list m); below_threshold _ := false; less_live _ _ := false |}.
#[local] Instance nul_wal : WalCodec := {| ser _ := Some []; de _ := None; crc32 _ := 0 |}.

#[local] Instance test_laws : EngineLaws (D := SparseDevice).
Proof.
  constructor; cbn [ser_hashes de_hashes test_env]; [apply code_hash_inj|done|..|exact rle_law|done]; unfold enc_hashes, dec_hashes; intros l b;
    (destruct (forallb _ l) eqn:Hl; [|done]); intros He; apply (inj Some) in He as <-.
  - f_equal. rewrite length_app, length_be_bytes. rewrite drop_app_length' by (by rewrite length_be_bytes). apply dec_fixed_ok.
    + apply Forall_forall. intros h Hh. rewrite forallb_forall in Hl. apply N.ltb_lt, Hl. by apply list_elem_of_In.
    + assert (length l ≤ length (concat (map (be_bytes 32) l)))%nat; [|lia]. clear. induction l as [|h l IH]; [done|]. cbn [map concat length].
      rewrite length_app, length_be_bytes. lia.
  - rewrite length_app, length_be_bytes. f_equal. clear. induction l as [|h l IH]; [done|]. cbn [map concat length].
    rewrite length_app, length_be_bytes, IH. lia.
Qed.

(** A new engine on the sparse device. *)
Lemma test_build : ∃ e, build test_device engine_cfg test_key = inr e.
Proof.
  unfold build. destruct (format test_device GEO_ZONES GEO_ZONE_SIZE GEO_SEGMENT) as [s|] eqn:Ef; [|exfalso; vm_compute in Ef; discriminate].
  change (codec_for engine_cfg) with (@inr EngineError (option RsCodec) None). unfold chunker_for.
  change (mkChunkerConfig (chunk_avg_bytes engine_cfg) (chunk_min_bytes engine_cfg) (chunk_max_bytes engine_cfg)) with test_config. rewrite test_chunker_new.
  unfold empty_engine. destruct (ns_new_ok 1 1000000000) as (ns & -> & _). cbn. by eexists.
Qed.

Definition engine_ops : list engine_op :=
  [EPut "/a/b" [x01; x02] 5 IoOk; ESnapshot "s" IoOk; EPut "/c" [x01; x02] 6 SyncFails; EDelete "/a/b" 7 IoOk].

