(* ===== verification/EngineHeal.v ===== *)
(** * Self-healing of the engine ([heal_chunk], [scrub] of [engine.rs])

    Chunks encoded into a stripe stay readable when the device damages any
    shards of it, as long as as many verify as the stripe has data shards; a
    damaged parity shard makes the scrubber panic. *)
From S2P Require Import Prelude Clocks Cdc ClusterCore Crypto Dedup GF256 Erasure Ecc BeTree Wal Devices StoreModel StoreRef StoreSpec StoreBoot Namespace NamespaceSpec Engine EngineInv EngineSpec.
From Stdlib Require Import NArith ZArith Lia Strings.Byte.
From stdpp Require Import base numbers gmap option list strings sorting.
#[local] Open Scope N_scope.

#[local] Abbreviation bytes := (list byte).

Lemma vec_resize_length n l : length (vec_resize n l) = n.
Proof. unfold vec_resize. rewrite length_app, length_take, length_replicate. lia. Qed.

Lemma vec_resize_id n l : length l = n → vec_resize n l = l.
Proof. intros <-. unfold vec_resize. by rewrite firstn_all, Nat.sub_diag, app_nil_r. Qed.

Lemma take_resize n l : (length l ≤ n)%nat → take (length l) (vec_resize n l) = l.
Proof. intros Hl. unfold vec_resize. rewrite (take_ge l) by done. apply take_app_length. Qed.

Section heal.
Context {D : Type} `{!BlockDevice D} `{!BlockDeviceLaws D} {codec : StoreCodec} {claws : StoreCodecLaws} {hashing : Hashing} {dcodec : DirCodec}
  {cf : CollisionFree} {wcodec : WalCodec} {prims : CryptoPrims} {aead : AeadLaws} {env : EngineEnv} {laws : EngineLaws (D := D)}.
#[local] Abbreviation Engine := (ClusterEngine D).

(** ** What is read back is what was stored *)
Lemma fetch_unique (e : Engine) sc p payload : stored sc = hash_of payload → fetch_and_verify e sc = inr p → p = payload.
Proof.
  intros Hs. unfold fetch_and_verify. destruct (read_extent _ _) as [|q]; [done|]. rewrite Hs.
  destruct (N.eqb_spec (hash_of payload) hash_zero) as [Hz|_]; [by destruct (hash_nonzero (D := D) payload)|]. cbn [negb andb].
  destruct (N.eqb_spec (hash_of q) (hash_of payload)) as [Hh|]; [|done]. intros [= <-]. by apply (hash_inj (D := D)).
Qed.

Lemma data_shards_spec (e : Engine) len hs data : data_shards_of e len hs = inr data →
  Forall2 (λ h r, ∃ sc p, chunk_map e !! h = Some sc ∧ fetch_and_verify e sc = inr p ∧ r = vec_resize len p) hs data.
Proof.
  revert data. induction hs as [|h hs IH]; intros data; cbn [data_shards_of]; [intros [= <-]; constructor|].
  destruct (chunk_map e !! h) as [sc|] eqn:Hsc; [|done]. destruct (fetch_and_verify e sc) as [|p] eqn:Hp; [done|].
  destruct (data_shards_of e len hs) as [|l]; [done|]. intros [= <-]. constructor; [by exists sc, p|by apply IH].
Qed.

(** ** A stripe *)

(** What encoding leaves alone. *)
Definition same_env (e e' : Engine) : Prop :=
  e_ec e' = e_ec e ∧ e_domain_key e' = e_domain_key e ∧ e_cipher e' = e_cipher e ∧ geo (e_store e') = geo (e_store e).

Lemma same_env_trans a b c : same_env a b → same_env b c → same_env a c.
Proof. unfold same_env. intros (?&?&?&?) (?&?&?&?). split_and!; congruence. Qed.

Lemma write_extent_geo data h c (s : StoreModel.Store D) : geo (snd (write_extent data h c s)) = geo s.
Proof.
  unfold write_extent. destruct (encode_payload data c) as [payload comp]. cbv zeta. set (n := _ mod two32).
  assert (geo (snd (allocate n s)) = geo s) as Hg.
  { unfold allocate. destruct (find_free _ _ _ _) as [[[z ri] off]|]; [done|]. by destruct (pick_zone _ _ _ _ _ _) as [[z c']|]. }
  destruct (allocate n s) as [[[zone off]|] s1]; [|done]. cbn [snd] in Hg. destruct (zone_offset _ _); [done|]. destruct (dev_write _ _ _); [|done].
  cbn [snd]. destruct (track_same zone (mkDesc (prefix_u64 h) (N.of_nat zone) off n 0 (compression_to_u8 comp) 0) h (with_device d s1)) as (_ & -> & _). done.
Qed.

Lemma join_spec g hs : ∀ e : Engine, let e' := foldl (λ e h, join_group g h e) e hs in
  same_env e e' ∧ ec_groups e' = ec_groups e ∧ next_ec_group e' = next_ec_group e ∧
  (∀ h sc, chunk_map e !! h = Some sc → ∃ g', chunk_map e' !! h = Some (mkStored (with_group g' (desc sc)) (stored sc)) ∧ (h ∈ hs → g' = g)).
Proof.
  induction hs as [|h0 hs IH]; intros e; cbn [foldl].
  { split_and!; [done..|]. intros h sc Hsc. exists (ecc_group_id (desc sc)). split; [|by intros ?%elem_of_nil]. rewrite Hsc. f_equal. by destruct sc as [[] ?]. }
  destruct (IH (join_group g h0 e)) as (H1 & H2 & H3 & H4). set (e' := foldl _ _ _) in *.
  assert (same_env e (join_group g h0 e) ∧ ec_groups (join_group g h0 e) = ec_groups e ∧ next_ec_group (join_group g h0 e) = next_ec_group e) as (A1 & A2 & A3)
    by (unfold join_group; by destruct (chunk_map e !! h0)).
  split_and!; [by eapply same_env_trans|congruence|congruence|]. intros h sc Hsc. destruct (decide (h = h0)) as [->|Hne].
  - destruct (H4 h0 (mkStored (with_group g (desc sc)) (stored sc))) as (g' & Hg' & Hin); [unfold join_group; rewrite Hsc; cbn; by rewrite lookup_insert_eq|].
    destruct (decide (h0 ∈ hs)) as [Hh|Hh]; [exists g'; by rewrite (Hin Hh) in *|]. exists g'. split; [done|]. intros _.
    assert (∀ l (e2 : Engine), h0 ∉ l → chunk_map (foldl (λ e h, join_group g h e) e2 l) !! h0 = chunk_map e2 !! h0) as Hout.
    { induction l as [|x l IHl]; intros e2; cbn [foldl]; [done|]. intros [Hx Hl]%not_elem_of_cons. rewrite IHl by done. unfold join_group.
      destruct (chunk_map e2 !! x); [|done]. cbn. by rewrite lookup_insert_ne. }
    unfold e' in Hg'. rewrite Hout in Hg' by done. unfold join_group in Hg'. rewrite Hsc in Hg'. cbn in Hg'. rewrite lookup_insert_eq in Hg'. by injection Hg'.
  - destruct (H4 h sc) as (g' & Hg' & Hin).
    { unfold join_group. destruct (chunk_map e !! h0); [|done]. cbn. by rewrite lookup_insert_ne. }
    exists g'. split; [done|]. intros [->|Hh]%elem_of_cons; [done|by apply Hin].
Qed.

Lemma store_parities_spec g ps : ∀ (e : Engine) hs e', store_parities g ps e = (inr hs, e') →
  hs = map hash_of ps ∧ same_env e e' ∧ ec_groups e' = ec_groups e ∧ (∀ h, h ∉ hs → chunk_map e' !! h = chunk_map e !! h) ∧
  (∀ p, p ∈ ps → ∃ d, chunk_map e' !! hash_of p = Some (mkStored (with_group g d) (hash_of p))).
Proof.
  induction ps as [|p ps IH]; intros e hs e'; cbn [store_parities].
  { intros [= <- <-]. split_and!; [done..|]. by intros p ?%elem_of_nil. }
  unfold mbind, EM_bind. unfold store_parity at 1. unfold mbind, EM_bind, on_store, refcount_by, modify.
  pose proof (write_extent_geo p (hash_of p) false (e_store e)) as Hg. destruct (write_extent p (hash_of p) false (e_store e)) as [[er|d] s]; [done|].
  cbn [or_error mret EM_ret fst snd] in *. set (e1 := set_store _ (set_chunk_map _ _)).
  destruct (store_parities g ps e1) as [[er|hs1] e2] eqn:E; [done|]. intros [= <- <-]. destruct (IH e1 hs1 e2 E) as (-> & H1 & H2 & H3 & H4).
  assert (same_env e e1) as Hs1 by done. split_and!; [done|by eapply same_env_trans|done| |].
  - intros h [Hh Hn]%not_elem_of_cons. rewrite H3 by done. cbn. by rewrite lookup_insert_ne.
  - intros p' [->|Hp]%elem_of_cons; [|by apply H4]. destruct (decide (hash_of p ∈ map hash_of ps)) as [Hin|Hn].
    + apply list_elem_of_In, in_map_iff in Hin as (q & Hq & Hin%list_elem_of_In). rewrite <- Hq. destruct (H4 q Hin) as [dq Hdq]. by exists dq.
    + exists d. rewrite H3 by done. cbn. by rewrite lookup_insert_eq.
Qed.
(** A stripe in the engine [e1]: data rows and their parity, every member filed
    under the stripe with the hash of its bytes. *)
Record stripe_of (e e1 : Engine) (c : RsCodec) (hs : list N) (g : N) (len : nat) (data parity : list bytes) : Prop := {
  so_data : data_shards_of e len hs = inr data;
  so_parity : codec_encode c data = inr parity;
  so_group : ec_groups e1 !! g = Some (mkGroup (hs ++ map hash_of parity) len);
  so_env : same_env e e1;
  so_fits : ∀ h sc, h ∈ hs → chunk_map e !! h = Some sc → (N.to_nat (dlength (desc sc)) ≤ len)%nat;
  so_members : ∀ h sc, h ∈ hs → h ∉ map hash_of parity → chunk_map e !! h = Some sc →
    chunk_map e1 !! h = Some (mkStored (with_group g (desc sc)) (stored sc));
  so_shards : ∀ p, p ∈ parity → ∃ d, chunk_map e1 !! hash_of p = Some (mkStored (with_group g d) (hash_of p))
}.

Lemma foldr_max_le {A} (f : A → option nat) l x n : x ∈ l → f x = Some n → (n ≤ foldr max 0%nat (omap f l))%nat.
Proof.
  induction l as [|y l IH]; [by intros ?%elem_of_nil|]. intros [->|Hx]%elem_of_cons Hn; cbn; [rewrite Hn; cbn; lia|].
  specialize (IH Hx Hn). destruct (f y); cbn; lia.
Qed.

Lemma encode_group_spec c hs (e : Engine) e1 : encode_group c hs e = (inr tt, e1) → ∃ g len data parity, stripe_of e e1 c hs g len data parity.
Proof.
  unfold encode_group, mbind, EM_bind, ask. set (len := foldr max 0%nat _). destruct (data_shards_of e len hs) as [er|data] eqn:Hd; [done|].
  cbn [or_error mret EM_ret]. destruct (codec_encode c data) as [er|parity] eqn:Hp; [done|]. cbn [or_error mret EM_ret]. unfold modify.
  set (g := next_ec_group e). set (e2 := set_groups _ _ e). destruct (join_spec g hs e2) as (J1 & J2 & J3 & J4). set (e3 := foldl _ e2 hs) in *.
  destruct (store_parities g parity e3) as [[er|phs] e4] eqn:Hsp; [done|]. intros [= <-]. destruct (store_parities_spec g parity e3 phs e4 Hsp) as (-> & S1 & S2 & S3 & S4).
  exists g, len, data, parity. constructor; try done.
  - cbn. by rewrite lookup_insert_eq.
  - assert (same_env e e2) as H0 by done. assert (same_env e4 (set_groups (<[g:=mkGroup (hs ++ map hash_of parity) len]> (ec_groups e4)) (next_ec_group e4) e4)) as H5 by done.
    eapply same_env_trans; [exact H0|]. eapply same_env_trans; [exact J1|]. by eapply same_env_trans.
  - intros h sc Hh Hsc. unfold len. eapply foldr_max_le; [exact Hh|]. by rewrite Hsc.
  - intros h sc Hh Hn Hsc. cbn. rewrite S3 by done. destruct (J4 h sc Hsc) as (g' & Hg' & Hin). by rewrite (Hin Hh) in Hg'.
Qed.

(** ** Damage *)

(** The engine with anything on its device. *)
Definition damaged (d : D) (e : Engine) : Engine := set_store (with_device d (e_store e)) e.

Definition shard_verifies (e : Engine) (h : N) : bool :=
  match chunk_map e !! h with Some sc => match fetch_and_verify e sc with inr _ => true | inl _ => false end | None => false end.

Lemma survivors_count (l : list (option bytes)) i : length (survivors_of i l) = length (filter (λ x, is_Some x) l).
Proof.
  revert i. induction l as [|[x|] l IH]; intros i; cbn [survivors_of]; [done|..].
  - rewrite filter_cons_True by done. cbn. f_equal. apply IH.
  - rewrite filter_cons_False by (by intros [? ?]). apply IH.
Qed.

Lemma gather_count (e : Engine) g : length (survivors_of 0 (gather e g)) = length (filter (λ h, shard_verifies e h = true) (shards g)).
Proof.
  rewrite survivors_count. unfold gather. induction (shards g) as [|h l IH]; [done|]. cbn [map].
  destruct (chunk_map e !! h) as [sc|] eqn:Hsc; [destruct (fetch_and_verify e sc) as [er|p] eqn:Hf|].
  - rewrite filter_cons_False by (by intros [? ?]). rewrite filter_cons_False by (unfold shard_verifies; by rewrite Hsc, Hf). exact IH.
  - rewrite filter_cons_True by done. rewrite filter_cons_True by (unfold shard_verifies; by rewrite Hsc, Hf). cbn. by rewrite IH.
  - rewrite filter_cons_False by (by intros [? ?]). rewrite filter_cons_False by (unfold shard_verifies; by rewrite Hsc). exact IH.
Qed.
Section stripe.
Context (n : N) (e e1 : Engine) (X : list ext) (c : RsCodec) (k m : nat) (hs : list N) (g : N) (len : nat) (data parity : list bytes).
Hypothesis Hi : engine_inv n e X.
Hypothesis Hnew : codec_new k m = inr c.
Hypothesis Hso : stripe_of e e1 c hs g len data parity.
Hypothesis Hclash : ∀ p, p ∈ parity → hash_of p ∉ hs.

(** A member: its entry before and after, and the bytes stored for it. *)
Lemma member i h : hs !! i = Some h → ∃ plain sc x, reads_as e X h plain ∧ chunk_map e !! h = Some sc ∧ x ∈ X ∧ (∃ g', desc sc = with_group g' (x_desc x)) ∧
  decrypt_decompress e h (x_raw x) = inr plain ∧ stored sc = hash_of (x_raw x) ∧ N.to_nat (dlength (desc sc)) = length (x_raw x) ∧ (length (x_raw x) ≤ len)%nat ∧
  chunk_map e1 !! h = Some (mkStored (with_group g (desc sc)) (stored sc)) ∧ data !! i = Some (vec_resize len (x_raw x)).
Proof.
  intros Hh. pose proof (data_shards_spec e len hs data (so_data _ _ _ _ _ _ _ _ Hso)) as Hds.
  destruct (Forall2_lookup_l _ _ _ _ _ Hds Hh) as (r & Hr & sc & p & Hsc & Hf & ->).
  destruct (ei_chunks _ _ _ Hi h ltac:(by exists sc)) as [plain Hpl]. pose proof Hpl as (Hph & sc' & x & Hsc' & Hx & (g' & Hg') & _ & Hst & Hdd). simplify_eq.
  pose proof (fetch_unique e sc p (x_raw x) Hst Hf) as ->. pose proof (list_elem_of_lookup_2 _ _ _ Hh) as Hin.
  assert (dlength (desc sc) = N.of_nat (length (x_raw x))) as Hdl.
  { pose proof (proj1 (Forall_forall _ _) (si_ext _ _ (ei_store _ _ _ Hi)) x Hx) as (_ & Hl & _). by rewrite Hg'. }
  pose proof (so_fits _ _ _ _ _ _ _ _ Hso _ sc Hin Hsc) as Hle.
  exists plain, sc, x. split_and!; [done|done|done|by exists g'|done|done|lia|lia| |done].
  apply (so_members _ _ _ _ _ _ _ _ Hso); [done| |done]. intros (q & Hq & Hq'%list_elem_of_In)%list_elem_of_In%in_map_iff. apply (Hclash q Hq'). by rewrite Hq.
Qed.

Lemma stripe_dims : length data = k ∧ length parity = m ∧ Forall (λ p, length p = len) parity ∧ length hs = k ∧ (0 < k)%nat.
Proof.
  pose proof (codec_new_spec k m c Hnew) as Hc. destruct (parity_wf k m c data parity Hc (so_parity _ _ _ _ _ _ _ _ Hso)) as [Hl [Hm Hrows]].
  pose proof (data_shards_spec e len hs data (so_data _ _ _ _ _ _ _ _ Hso)) as Hds. pose proof (Forall2_length _ _ _ Hds) as Hlen.
  destruct (cd_dims _ _ _ Hc) as (Hk & _). split_and!; [done|done| |lia|lia]. eapply Forall_impl; [exact Hrows|]. cbn. intros p ->.
  destruct data as [|r data']; [cbn in Hl; lia|]. cbn. inversion Hds as [|h r' hs' data'' (sc & q & _ & _ & ->)]; subst. apply vec_resize_length.
Qed.

(** Whatever the device holds, a shard that verifies is the row of the stripe. *)
Lemma gather_agrees d i r : gather (damaged d e1) (mkGroup (hs ++ map hash_of parity) len) !! i = Some (Some r) → (data ++ parity) !! i = Some r.
Proof.
  destruct stripe_dims as (Hd & Hm & Hrows & Hk & _). unfold gather. cbn [shards shard_len]. intros Hi'. apply list_lookup_fmap_Some in Hi' as (h & Hr & Hh).
  apply lookup_app_Some in Hh as [Hh|[Hge Hh]].
  - destruct (member i h Hh) as (plain & sc & x & _ & _ & _ & _ & _ & Hst & _ & _ & He1 & Hdi). change (chunk_map (damaged d e1)) with (chunk_map e1) in Hr.
    rewrite He1 in Hr. destruct (fetch_and_verify (damaged d e1) _) as [|p] eqn:Hf; [done|]. apply (fetch_unique _ _ _ (x_raw x)) in Hf as ->; [|done].
    injection Hr as ->. rewrite lookup_app_l by (apply lookup_lt_Some in Hdi; lia). done.
  - apply list_lookup_fmap_Some in Hh as (p & -> & Hp). pose proof (list_elem_of_lookup_2 _ _ _ Hp) as Hin.
    destruct (so_shards _ _ _ _ _ _ _ _ Hso p Hin) as [dp Hdp]. change (chunk_map (damaged d e1)) with (chunk_map e1) in Hr. rewrite Hdp in Hr.
    destruct (fetch_and_verify (damaged d e1) _) as [|q] eqn:Hf; [done|]. apply (fetch_unique _ _ _ p) in Hf as ->; [|done]. injection Hr as ->.
    rewrite lookup_app_r by lia. rewrite Hd, <- Hk, Hp. f_equal. symmetry. apply vec_resize_id. by apply (proj1 (Forall_forall _ _) Hrows).
Qed.

Lemma stripe_decodes d : (k ≤ length (filter (λ h, shard_verifies (damaged d e1) h = true) (hs ++ map hash_of parity)))%nat →
  codec_decode c (gather (damaged d e1) (mkGroup (hs ++ map hash_of parity) len)) = inr data.
Proof.
  intros Hn. destruct stripe_dims as (Hd & Hm & _ & Hk & _). apply (decode_stripe k m c data parity); [done|apply Hso| |apply gather_agrees|by rewrite gather_count].
  unfold gather. cbn [shards]. by rewrite length_map, length_app, length_map, Hm, Hk.
Qed.

Lemma find_member h : h ∈ hs → ∃ i, hs !! i = Some h ∧ list_find (λ x, x = h) (hs ++ map hash_of parity) = Some (i, h).
Proof.
  intros Hh. destruct (list_find_elem_of (λ x, x = h) hs h Hh eq_refl) as [[i x] Hf]. pose proof Hf as (Hi' & -> & _)%list_find_Some. exists i. split; [done|].
  by apply list_find_app_l.
Qed.

(** The bytes of a member are restored from the rest of the stripe. *)
Lemma heal_member d h : e_ec e = Some c → h ∈ hs → dinv d → dcap (device (e_store e)) <= dcap d →
  (k ≤ length (filter (λ h, shard_verifies (damaged d e1) h = true) (hs ++ map hash_of parity)))%nat →
  ∃ plain sc x e3, reads_as e X h plain ∧ chunk_map (damaged d e1) !! h = Some sc ∧ stored sc = hash_of (x_raw x) ∧ decrypt_decompress e h (x_raw x) = inr plain ∧
    heal_chunk h (damaged d e1) = (inr (x_raw x), e3) ∧ e_domain_key e3 = e_domain_key e ∧ e_cipher e3 = e_cipher e.
Proof.
  intros Hec Hh Hd Hcap Hgood. destruct (find_member h Hh) as (i & Hhi & Hfind).
  destruct (member i h Hhi) as (plain & sc & x & Hpl & Hsc & Hx & (g' & Hg') & Hdd & Hst & Hdl & Hle & He1 & Hdi).
  destruct (so_env _ _ _ _ _ _ _ _ Hso) as (Eec & Ek & Eci & Egeo).
  pose proof (proj1 (Forall_forall _ _) (si_ext _ _ (ei_store _ _ _ Hi)) x Hx) as (Hz & Hxl & Hhold & _).
  destruct (write_ok d (data_start + zone_id (x_desc x) * zone_size (geo (e_store e)) + offset_in_zone (x_desc x)) (x_raw x) Hd) as [d' Hw];
    [unfold zone_base in Hhold; lia|].
  eexists plain, (mkStored (with_group g (desc sc)) (stored sc)), x, _. split_and!; [done|exact He1|done|done|..].
  - unfold heal_chunk, counting, modify, mbind, EM_bind, ask. cbn [fst snd]. set (e2 := set_stats _ (damaged d e1)).
    change (chunk_map e2) with (chunk_map e1). rewrite He1. cbn [or_error mret EM_ret desc with_group ecc_group_id].
    change (ec_groups e2) with (ec_groups e1). rewrite (so_group _ _ _ _ _ _ _ _ Hso). cbn [or_error mret EM_ret].
    change (e_ec e2) with (e_ec e1). rewrite Eec, Hec. cbn [or_error mret EM_ret].
    change (gather e2) with (gather (damaged d e1)). rewrite (stripe_decodes d Hgood). cbn [or_error mret EM_ret shards]. rewrite Hfind. cbn [or_error mret EM_ret].
    rewrite Hdi. cbn [or_panic mret EM_ret]. change (dlength (with_group g (desc sc))) with (dlength (desc sc)).
    change (zone_id (with_group g (desc sc))) with (zone_id (desc sc)). change (offset_in_zone (with_group g (desc sc))) with (offset_in_zone (desc sc)). rewrite Hdl, take_resize by done. unfold on_store, write_raw.
    change (e_store e2) with (with_device d (e_store e1)). cbn [with_device geo device]. rewrite Egeo. unfold zone_offset. rewrite Hg'. cbn [with_group zone_id offset_in_zone].
    rewrite (proj2 (N.leb_gt _ _) Hz), Hw. cbn [or_error mret EM_ret]. done.
  - exact Ek.
  - exact Eci.
Qed.

Lemma read_member d h plain : e_ec e = Some c → h ∈ hs → reads_as e X h plain → dinv d → dcap (device (e_store e)) <= dcap d →
  (k ≤ length (filter (λ h, shard_verifies (damaged d e1) h = true) (hs ++ map hash_of parity)))%nat →
  fst (read_chunk h (damaged d e1)) = inr plain.
Proof.
  intros Hec Hh Hpl Hd Hcap Hgood. destruct (heal_member d h Hec Hh Hd Hcap Hgood) as (plain' & sc & x & e3 & Hpl' & Hsc & Hst & Hdd & Hheal & Ek3 & Eci3).
  pose proof (reads_as_unique _ _ _ _ _ _ _ Hpl' Hpl) as ->. destruct (so_env _ _ _ _ _ _ _ _ Hso) as (_ & Ek & Eci & _).
  unfold read_chunk, mbind, EM_bind, ask. rewrite Hsc. cbn [or_error mret EM_ret].
  assert (∀ e' : Engine, e_domain_key e' = e_domain_key e → e_cipher e' = e_cipher e → decrypt_decompress e' h (x_raw x) = inr plain) as Hdec.
  { intros e' E1 E2. unfold decrypt_decompress in *. by rewrite E1, E2. }
  pose proof Hpl as [Hph _]. destruct (fetch_and_verify (damaged d e1) sc) as [er|p] eqn:Hf.
  - rewrite Hheal. cbn [mret EM_ret]. rewrite (Hdec e3 Ek3 Eci3). cbn [or_error mret EM_ret]. by rewrite Hph, N.eqb_refl.
  - cbn [mret EM_ret]. pose proof (fetch_unique _ sc p (x_raw x) Hst Hf) as ->. rewrite (Hdec (damaged d e1)) by done. cbn [or_error mret EM_ret].
    by rewrite Hph, N.eqb_refl.
Qed.
End stripe.

(** C9: striped chunks survive damage. On an engine whose chunks are all readable
    encode a group of them into a stripe, and let the device change in any way
    that leaves at least as many shards of the stripe intact as it has data
    shards: every chunk of the group still reads as its plaintext, restored
    from the other shards where its own bytes are damaged. No parity shard may
    equal the plaintext of a chunk of the group, byte for byte. *)
Theorem stripe_heals (n : N) (e e1 : Engine) (X : list ext) (c : RsCodec) (k m : nat) (hs : list N) (d : D) :
  engine_inv n e X → codec_new k m = inr c → e_ec e = Some c → encode_group c hs e = (inr tt, e1) → dinv d → dcap (device (e_store e)) <= dcap d →
  (∀ g grp, ec_groups e1 !! g = Some grp → hs `prefix_of` shards grp →
     Forall (λ h, h ∉ hs) (drop (length hs) (shards grp)) ∧ (k ≤ length (filter (λ h, shard_verifies (damaged d e1) h = true) (shards grp)))%nat) →
  ∀ h plain, h ∈ hs → reads_as e X h plain → fst (read_chunk h (damaged d e1)) = inr plain.
Proof.
  intros Hi Hnew Hec Henc Hd Hcap Hgood h plain Hh Hpl. destruct (encode_group_spec c hs e e1 Henc) as (g & len & data & parity & Hso).
  destruct (Hgood g _ (so_group _ _ _ _ _ _ _ _ Hso)) as [Hclash Hk]; [cbn; by apply prefix_app_r|]. cbn [shards] in *.
  eapply read_member; try done. intros p Hp. rewrite drop_app_length in Hclash. rewrite Forall_forall in Hclash. apply Hclash.
  apply list_elem_of_In, in_map, list_elem_of_In, Hp.
Qed.

(** ** Scrubbing a parity shard *)

(** Healing looks the shard up among the decoded data rows: for a parity shard
    the index is past them. *)
Lemma heal_parity_panics (e : Engine) sc grp c k m rows i h : chunk_map e !! h = Some sc → ec_groups e !! ecc_group_id (desc sc) = Some grp → e_ec e = Some c →
  codec_new k m = inr c → codec_decode c (gather e grp) = inr rows → list_find (λ x, x = h) (shards grp) = Some (i, h) → (k ≤ i)%nat →
  fst (heal_chunk h e) = inl EPanic.
Proof.
  intros Hsc Hg Hec Hnew Hdec Hf Hki. assert (length rows = k) as Hr.
  { unfold codec_decode in Hdec. destruct (cd_dims _ _ _ (codec_new_spec k m c Hnew)) as (_ & Ek & _). rewrite Ek in Hdec.
    destruct (negb _); [done|]. destruct (_ <? _)%nat; [done|]. destruct (List.find _ _); [done|]. destruct (invert_matrix _) as [|t]; [done|]. injection Hdec as <-.
    by rewrite length_map, length_seq. }
  unfold heal_chunk, counting, modify, mbind, EM_bind, ask. cbn [fst snd]. set (e2 := set_stats _ e). change (chunk_map e2) with (chunk_map e). rewrite Hsc.
  cbn [or_error mret EM_ret]. change (ec_groups e2) with (ec_groups e). rewrite Hg. cbn [or_error mret EM_ret]. change (e_ec e2) with (e_ec e). rewrite Hec.
  cbn [or_error mret EM_ret]. change (gather e2) with (gather e). rewrite Hdec. cbn [or_error mret EM_ret]. rewrite Hf. cbn [or_error mret EM_ret].
  by rewrite lookup_ge_None_2 by lia.
Qed.
End heal.

(** ** A stripe in the reference environment *)
#[local] Existing Instance code_hashing.
#[local] Existing Instance code_dirs.
#[local] Existing Instance code_free.
#[local] Existing Instance test_env.
#[local] Existing Instance nul_wal.
#[local] Existing Instance test_laws.

Definition heal_cfg : EngineConfig := mkConfig 1024 512 600 2 1 Full.
Definition demo_chunks : list N := [hash_of [x01]; hash_of [x02; x03]].

(** A stripe made in three steps, and what its evaluation says of each. *)
Definition run_of {A B C E E' R} (new : option A) (stage : A → option B) (codec : E + C) (encode : C → B → (E' + unit) * B) (z : R) (f : C → B → B → R) : R :=
  match new with
  | Some a =>
      match stage a, codec with
      | Some b, inr c => match encode c b with (inr tt, b1) => f c b b1 | _ => z end
      | _, _ => z
      end
  | None => z
  end.

Lemma run_inv {A B C E E'} (new : option A) (stage : A → option B) (codec : E + C) (encode : C → B → (E' + unit) * B) (ok : B → B → bool) (ec : B → option C) :
  run_of new stage codec encode false (λ _ b b1, ok b b1) = true →
  run_of new stage codec encode None (λ _ b _, ec b) = match codec with inr c => Some c | inl _ => None end →
  ∃ c a b b1, new = Some a ∧ stage a = Some b ∧ codec = inr c ∧ encode c b = (inr tt, b1) ∧ ok b b1 = true ∧ ec b = Some c.
Proof.
  unfold run_of. destruct new as [a|]; [|done]. destruct (stage a) as [b|] eqn:Hs; [|done]. destruct codec as [|c]; [done|].
  destruct (encode c b) as [[|[]] b1] eqn:He; [done|]. intros Hok Hec. by exists c, a, b, b1.
Qed.

Section demo.
Context (ns : Namespace) (c : Chunker).

(** A new engine with the namespace [ns] and the chunker [c]. *)
Definition demo_new : option (ClusterEngine SparseDevice) :=
  match format test_device GEO_ZONES GEO_ZONE_SIZE GEO_SEGMENT, codec_for heal_cfg, be_new index_config with
  | Some s, inr ec, Some t =>
      let keys := mkKeyTree test_key in
      Some (mkEngine heal_cfg ns s create index_new c keys (domain_key keys domain_root) domain_root Aes256Gcm ∅ ∅ 0 ec t (vc_increment 1 vc_new) EPOCH 1 estats_default)
  | _, _, _ => None
  end.

Definition demo_stage (e : ClusterEngine SparseDevice) : option (ClusterEngine SparseDevice) :=
  match stage_chunk (hash_of [x01]) [x01] e with
  | (inr _, e) => match stage_chunk (hash_of [x02; x03]) [x02; x03] e with (inr _, e) => Some e | _ => None end
  | _ => None
  end.

(** The device after the bytes of the first chunk are overwritten. *)
Definition demo_device (e : ClusterEngine SparseDevice) : SparseDevice :=
  match chunk_map e !! hash_of [x01] with
  | Some sc =>
      match dev_write (zone_base (geo (e_store e)) (zone_id (desc sc)) + offset_in_zone (desc sc)) (replicate (N.to_nat (dlength (desc sc))) xff) (device (e_store e)) with
      | Some d => d
      | None => device (e_store e)
      end
  | None => device (e_store e)
  end.

(** Two of the three shards of every group verify, the first chunk does not. *)
Definition demo_survives (e : ClusterEngine SparseDevice) : bool :=
  forallb (λ '(_, grp), forallb (λ h, negb (existsb (N.eqb h) demo_chunks)) (drop 2 (shards grp)) &&
    (2 <=? length (filter (λ h, shard_verifies (damaged (demo_device e) e) h = true) (shards grp)))%nat) (map_to_list (ec_groups e)) &&
  negb (shard_verifies (damaged (demo_device e) e) (hash_of [x01])).

Definition demo_ok (e e1 : ClusterEngine SparseDevice) : bool := demo_survives e1 && (dcap (device (e_store e)) <=? dcap (demo_device e1)).

(** The run: build, stage, encode. *)
Lemma demo_evaluates : run_of demo_new demo_stage (codec_new 2 1) (λ rs, encode_group rs demo_chunks) false (λ _ e e1, demo_ok e e1) = true.
Proof. vm_compute. reflexivity. Qed.

Lemma demo_codec : run_of demo_new demo_stage (codec_new 2 1) (λ rs, encode_group rs demo_chunks) None (λ _ e _, e_ec e) =
  match codec_new 2 1 with inr rs => Some rs | inl _ => None end.
Proof. vm_compute. reflexivity. Qed.

Lemma demo_exists : ∃ rs e0 e e1, demo_new = Some e0 ∧ demo_stage e0 = Some e ∧ codec_new 2 1 = inr rs ∧
  encode_group rs demo_chunks e = (inr tt, e1) ∧ demo_ok e e1 = true ∧ e_ec e = Some rs.
Proof. exact (run_inv demo_new demo_stage (codec_new 2 1) (λ rs, encode_group rs demo_chunks) demo_ok e_ec demo_evaluates demo_codec). Qed.
End demo.

(** The staged chunks of a new engine can be read. *)
Lemma demo_stage_ok (e0 e : ClusterEngine SparseDevice) : engine_inv 0 e0 [] → demo_stage e0 = Some e → ∃ X, engine_inv 0 e X ∧ reads_as e X (hash_of [x01]) [x01].
Proof.
  intros Hi. unfold demo_stage. pose proof (stage_chunk_ok 0 e0 [] (hash_of [x01]) [x01] Hi eq_refl ltac:(cbn; unfold two32; lia)) as H1. unfold wp in H1.
  destruct (stage_chunk (hash_of [x01]) [x01] e0) as [[er|r] e1]; [discriminate|]. cbn [fst snd] in H1. destruct H1 as (X1 & Hs1 & Hr1).
  pose proof (stage_chunk_ok 0 e1 X1 (hash_of [x02; x03]) [x02; x03] (proj1 Hs1) eq_refl ltac:(cbn; unfold two32; lia)) as H2. unfold wp in H2.
  destruct (stage_chunk (hash_of [x02; x03]) [x02; x03] e1) as [[er|r'] e2]; [discriminate|]. cbn [fst snd] in H2. destruct H2 as (X2 & Hs2 & Hr2).
  intros He. apply (inj Some) in He as <-. exists X2. split; [apply Hs2|]. by apply (ev_reads _ _ _ _ (proj1 (proj2 Hs2))).
Qed.

Lemma heal_chunker : ∃ c, chunker_for heal_cfg = inr c.
Proof.
  unfold chunker_for. change (mkChunkerConfig (chunk_avg_bytes heal_cfg) (chunk_min_bytes heal_cfg) (chunk_max_bytes heal_cfg)) with test_config.
  rewrite test_chunker_new. by eexists.
Qed.

Lemma build_parts (d : SparseDevice) cfg key s ec c ns t : format d GEO_ZONES GEO_ZONE_SIZE GEO_SEGMENT = Some s → codec_for cfg = inr ec → chunker_for cfg = inr c →
  ns_new 1 1000000000 = (inr tt, ns) → be_new index_config = Some t →
  build d cfg key = inr (mkEngine cfg ns s create index_new c (mkKeyTree key) (domain_key (mkKeyTree key) domain_root) domain_root Aes256Gcm ∅ ∅ 0 ec t
    (vc_increment 1 vc_new) EPOCH 1 estats_default).
Proof. unfold build, empty_engine. by intros -> -> -> -> ->. Qed.

Lemma demo_new_ok : ∃ ns c, ∀ e0, demo_new ns c = Some e0 → engine_inv 0 e0 [].
Proof.
  destruct (ns_new_ok 1 1000000000) as (ns & Hns & _). destruct heal_chunker as [c Hc]. exists ns, c. intros e0. unfold demo_new.
  destruct (format _ _ _ _) as [s|] eqn:Hs; [|discriminate]. destruct (codec_for heal_cfg) as [er|ec] eqn:Hec; [discriminate|].
  destruct (be_new index_config) as [t|] eqn:Ht; [|discriminate]. intros He0. apply (inj Some) in He0 as <-.
  exact (build_ok test_device heal_cfg test_key _ I (build_parts test_device heal_cfg test_key s ec c ns t Hs Hec Hc Hns Ht)).
Qed.

Lemma stripe_heals_witness : ∃ e1 : ClusterEngine SparseDevice,
  shard_verifies (damaged (demo_device e1) e1) (hash_of [x01]) = false ∧ fst (read_chunk (hash_of [x01]) (damaged (demo_device e1) e1)) = inr [x01].
Proof.
  destruct demo_new_ok as (ns & c & Hnew). destruct (demo_exists ns c) as (rs & e0 & e & e1 & E0 & E & Hrs & Henc & [Hok Hcap%N.leb_le]%andb_true_iff & Hec).
  apply andb_true_iff in Hok as [Hsurv Hbad].
  destruct (demo_stage_ok e0 e (Hnew e0 E0) E) as (X & Hi & Hr). exists e1. split; [by apply negb_true_iff|].
  apply (stripe_heals 0 e e1 X rs 2 1 demo_chunks (demo_device e1) Hi Hrs Hec Henc I Hcap); [|apply list_elem_of_here|exact Hr].
  intros g grp Hg _. rewrite forallb_forall in Hsurv. specialize (Hsurv (g, grp)). cbv beta iota in Hsurv.
  apply andb_true_iff in Hsurv as [Hc Hk%Nat.leb_le]; [|by apply list_elem_of_In, elem_of_map_to_list]. split; [|exact Hk].
  apply Forall_forall. intros h Hh Hin. rewrite forallb_forall in Hc. specialize (Hc h (proj1 (list_elem_of_In _ _) Hh)). apply negb_true_iff in Hc.
  apply not_true_iff_false in Hc. apply Hc, existsb_exists. exists h. split; [by apply list_elem_of_In|apply N.eqb_refl].
Defined.
