(* ===== verification/Extents.v ===== *)
(** * Extents ([lionfs/src/extents])

    An extent maps a run of logical blocks to a run of physical blocks. The
    operations of [extent.rs], [mapping.rs], [merge.rs] and [split.rs], and the
    vocabulary the file layer shares: what a list of extents covers and maps,
    and when two lists describe the same mapping. *)
From S2P Require Import Prelude.
From Stdlib Require Import NArith ZArith Lia Sorting.Sorted.
From stdpp Require Import base numbers option list.
#[local] Open Scope N_scope.

Record Extent := mkExt { logical_start : N; physical_start : N; ext_len : N }.

#[export] Instance Extent_eq_dec : EqDecision Extent.
Proof. solve_decision. Defined.

(** ** [extent.rs] *)
Definition logical_end (e : Extent) : N := wadd64 (logical_start e) (ext_len e).
Definition physical_end (e : Extent) : N := wadd64 (physical_start e) (ext_len e).

Definition contains_logical (e : Extent) (logical_block : N) : bool :=
  (logical_start e <=? logical_block) && (logical_block <? logical_end e).

Definition is_adjacent_to (e other : Extent) : bool :=
  (logical_end e =? logical_start other) && (physical_end e =? physical_start other).

Inductive extent_error := ZeroLength | LogicalWraps | PhysicalWraps | BeyondDevice.

Definition validate (e : Extent) (total_blocks : N) : extent_error + unit :=
  if ext_len e =? 0 then inl ZeroLength
  else if logical_end e <? logical_start e then inl LogicalWraps
  else if physical_end e <? physical_start e then inl PhysicalWraps
  else if total_blocks <? physical_end e then inl BeyondDevice
  else inr ().

Definition physical_ranges_overlap (a b : Extent) : bool :=
  (physical_start a <? physical_end b) && (physical_start b <? physical_end a).

(** ** [mapping.rs], on the used slots of the inline array *)
Definition map_logical_to_physical (extents : list Extent) (logical_block : N) : option N :=
  (λ e, wadd64 (physical_start e) (wsub64 logical_block (logical_start e))) <$>
    List.find (λ e, contains_logical e logical_block) extents.

Definition allocated_block_count (extents : list Extent) : N := foldl N.max 0 (map logical_end extents).

Definition all_physical_blocks (extents : list Extent) : list N :=
  concat (map (λ e, map (λ i, wadd64 (physical_start e) (N.of_nat i)) (seq 0 (N.to_nat (ext_len e)))) extents).

(** ** [merge.rs]: [sort_by_key] is stable *)
Fixpoint sort_insert (e : Extent) (l : list Extent) : list Extent :=
  match l with
  | [] => [e]
  | e' :: l' => if logical_start e <=? logical_start e' then e :: l else e' :: sort_insert e l'
  end.
Definition sort_by_start (l : list Extent) : list Extent := foldr sort_insert [] l.

(** The loop, with the last extent of [out] apart. *)
Fixpoint merge_from (last : Extent) (l : list Extent) : list Extent :=
  match l with
  | [] => [last]
  | e :: l =>
      if is_adjacent_to last e
      then merge_from (mkExt (logical_start last) (physical_start last) (wadd64 (ext_len last) (ext_len e))) l
      else last :: merge_from e l
  end.

Definition coalesce (extents : list Extent) : list Extent :=
  match sort_by_start extents with [] => [] | e :: l => merge_from e l end.

(** ** [split.rs] *)
Definition split_at (e : Extent) (logical_block : N) : option (Extent * Extent) :=
  if (logical_block <=? logical_start e) || (logical_end e <=? logical_block) then None
  else
    let offset := wsub64 logical_block (logical_start e) in
    Some (mkExt (logical_start e) (physical_start e) offset,
          mkExt logical_block (wadd64 (physical_start e) offset) (wsub64 (ext_len e) offset)).

Definition remove_range (e : Extent) (start end_ : N) : list Extent :=
  (if logical_start e <? start
   then [mkExt (logical_start e) (physical_start e) (N.min (wsub64 start (logical_start e)) (ext_len e))] else []) ++
  (if end_ <? logical_end e then
     let clipped_end := N.max end_ (logical_start e) in
     let offset := wsub64 clipped_end (logical_start e) in
     [mkExt clipped_end (wadd64 (physical_start e) offset) (wsub64 (ext_len e) offset)]
   else []).

(** ** What extents cover and map *)
Definition ext_ok (e : Extent) : Prop :=
  0 < ext_len e ∧ logical_start e + ext_len e < two64 ∧ physical_start e + ext_len e < two64.

Definition in_log (e : Extent) (x : N) : bool := (logical_start e <=? x) && (x <? logical_start e + ext_len e).
Definition in_phys (e : Extent) (y : N) : bool := (physical_start e <=? y) && (y <? physical_start e + ext_len e).

(** How many extents cover a block. *)
Definition covl (l : list Extent) (x : N) : nat := sum_list_with (λ e, Nat.b2n (in_log e x)) l.
Definition covp (l : list Extent) (y : N) : nat := sum_list_with (λ e, Nat.b2n (in_phys e y)) l.

Definition maps (l : list Extent) (x y : N) : Prop :=
  ∃ e, e ∈ l ∧ in_log e x = true ∧ y = physical_start e + (x - logical_start e).

(** Two lists with one mapping. *)
Record same_cover (l l' : list Extent) : Prop := mkSame {
  same_l : ∀ x, covl l x = covl l' x;
  same_p : ∀ y, covp l y = covp l' y;
  same_m : ∀ x y, maps l x y ↔ maps l' x y
}.

#[export] Instance same_cover_equiv : Equivalence same_cover.
Proof.
  split.
  - intros l. by split.
  - intros l l' [H1 H2 H3]. split; intros; [by rewrite H1|by rewrite H2|by rewrite H3].
  - intros l l' l'' [H1 H2 H3] [H1' H2' H3']. split; intros; [by rewrite H1|by rewrite H2|by rewrite H3].
Qed.

Lemma in_log_iff e x : in_log e x = true ↔ logical_start e <= x < logical_start e + ext_len e.
Proof. unfold in_log. rewrite andb_true_iff, N.leb_le, N.ltb_lt. done. Qed.
Lemma in_phys_iff e y : in_phys e y = true ↔ physical_start e <= y < physical_start e + ext_len e.
Proof. unfold in_phys. rewrite andb_true_iff, N.leb_le, N.ltb_lt. done. Qed.

Lemma covl_app l l' x : covl (l ++ l') x = (covl l x + covl l' x)%nat.
Proof. apply sum_list_with_app. Qed.
Lemma covp_app l l' y : covp (l ++ l') y = (covp l y + covp l' y)%nat.
Proof. apply sum_list_with_app. Qed.
Lemma maps_app l l' x y : maps (l ++ l') x y ↔ maps l x y ∨ maps l' x y.
Proof. unfold maps. setoid_rewrite elem_of_app. naive_solver. Qed.
Lemma maps_cons e l x y : maps (e :: l) x y ↔ maps [e] x y ∨ maps l x y.
Proof. apply (maps_app [e]). Qed.
Lemma maps_one e x y : maps [e] x y ↔ in_log e x = true ∧ y = physical_start e + (x - logical_start e).
Proof. unfold maps. setoid_rewrite list_elem_of_singleton. naive_solver. Qed.
Lemma maps_nil x y : ¬ maps [] x y.
Proof. intros (e & ?%not_elem_of_nil & _). done. Qed.

#[export] Instance same_cover_app : Proper (same_cover ==> same_cover ==> same_cover) app.
Proof.
  intros l1 l1' [H1 H2 H3] l2 l2' [H1' H2' H3']. split; intros.
  - by rewrite !covl_app, H1, H1'.
  - by rewrite !covp_app, H2, H2'.
  - by rewrite !maps_app, H3, H3'.
Qed.

#[export] Instance same_cover_cons e : Proper (same_cover ==> same_cover) (cons e).
Proof. intros l l' H. change (same_cover ([e] ++ l) ([e] ++ l')). by rewrite H. Qed.

Lemma perm_same l l' : l ≡ₚ l' → same_cover l l'.
Proof.
  intros H. split; intros.
  - by apply sum_list_with_Permutation_proper.
  - by apply sum_list_with_Permutation_proper.
  - unfold maps. by setoid_rewrite H.
Qed.

#[export] Instance covl_proper : Proper ((≡ₚ) ==> (=) ==> (=)) covl.
Proof. intros l l' Hp x _ <-. apply (same_l _ _ (perm_same _ _ Hp)). Qed.
#[export] Instance covp_proper : Proper ((≡ₚ) ==> (=) ==> (=)) covp.
Proof. intros l l' Hp y _ <-. apply (same_p _ _ (perm_same _ _ Hp)). Qed.

(** ** Joining and cutting *)
Lemma in_range_split s n n' x :
  Nat.b2n ((s <=? x) && (x <? s + (n + n'))) =
    Nat.add (Nat.b2n ((s <=? x) && (x <? s + n))) (Nat.b2n ((s + n <=? x) && (x <? s + n + n'))).
Proof.
  destruct (N.leb_spec s x), (N.ltb_spec x (s + (n + n'))), (N.ltb_spec x (s + n)), (N.leb_spec (s + n) x), (N.ltb_spec x (s + n + n'));
    cbn; lia.
Qed.

Lemma cut_same ls ps n n' : same_cover [mkExt ls ps (n + n')] [mkExt ls ps n; mkExt (ls + n) (ps + n) n'].
Proof.
  split.
  - intros x. unfold covl, in_log. cbn [sum_list_with logical_start ext_len]. rewrite in_range_split. lia.
  - intros y. unfold covp, in_phys. cbn [sum_list_with physical_start ext_len]. rewrite in_range_split. lia.
  - intros x y. rewrite (maps_cons (mkExt ls ps n)), !maps_one, !in_log_iff. cbn [logical_start physical_start ext_len]. lia.
Qed.

Lemma adjacent_iff e o :
  ext_ok e → is_adjacent_to e o = true ↔
  logical_start o = logical_start e + ext_len e ∧ physical_start o = physical_start e + ext_len e.
Proof.
  intros (? & ? & ?). unfold is_adjacent_to, logical_end, physical_end. rewrite !wadd64_small by done.
  rewrite andb_true_iff, !N.eqb_eq. naive_solver.
Qed.

Lemma join_same e o :
  ext_ok e → ext_ok o → is_adjacent_to e o = true →
  ext_ok (mkExt (logical_start e) (physical_start e) (wadd64 (ext_len e) (ext_len o))) ∧
  same_cover [mkExt (logical_start e) (physical_start e) (wadd64 (ext_len e) (ext_len o))] [e; o].
Proof.
  intros He Ho Ha. apply adjacent_iff in Ha as [Hl Hp]; [|done]. destruct e as [ls ps n], o as [ls' ps' n'].
  unfold ext_ok in *. cbn [logical_start physical_start ext_len] in *. subst ls' ps'. rewrite wadd64_small by lia. split; [lia|]. apply cut_same.
Qed.

(** ** Lookup *)
Lemma contains_in_log e x : ext_ok e → contains_logical e x = in_log e x.
Proof. intros (? & ? & ?). unfold contains_logical, logical_end, in_log. by rewrite wadd64_small. Qed.

Lemma in_log_bound e x : ext_ok e → in_log e x = true → x < two64 ∧ physical_start e + (x - logical_start e) < two64.
Proof. intros (? & ? & ?) ?%in_log_iff. lia. Qed.

Lemma covl_maps l x : covl l x = 0%nat ↔ ∀ y, ¬ maps l x y.
Proof.
  induction l as [|e l IH]; [split; [intros _ y; apply maps_nil|done]|].
  unfold covl in *. cbn [sum_list_with]. setoid_rewrite maps_cons. setoid_rewrite maps_one. destruct (in_log e x) eqn:E; cbn [Nat.b2n].
  - split; [lia|]. intros H. destruct (H _ (or_introl (conj eq_refl eq_refl))).
  - rewrite Nat.add_0_l, IH. naive_solver.
Qed.

Lemma covp_maps l y : covp l y = 0%nat ↔ ∀ x, ¬ maps l x y.
Proof.
  induction l as [|e l IH]; [split; [intros _ x; apply maps_nil|done]|].
  unfold covp in *. cbn [sum_list_with]. setoid_rewrite maps_cons. setoid_rewrite maps_one. destruct (in_phys e y) eqn:E; cbn [Nat.b2n].
  - split; [lia|]. intros H. apply in_phys_iff in E. destruct (H (logical_start e + (y - physical_start e))). left.
    rewrite in_log_iff. lia.
  - rewrite Nat.add_0_l, IH. split; [|naive_solver]. intros H x [[Hx ->]|?]; [|naive_solver]. apply in_log_iff in Hx.
    assert (in_phys e (physical_start e + (x - logical_start e)) = true) as E' by (apply in_phys_iff; lia). congruence.
Qed.

Lemma maps_lookup l x y :
  Forall ext_ok l → (covl l x <= 1)%nat → map_logical_to_physical l x = Some y ↔ maps l x y.
Proof.
  unfold map_logical_to_physical. induction l as [|e l IH]; intros Hok Hc.
  { cbn. split; [done|by intros ?%maps_nil]. }
  apply Forall_cons in Hok as [He Hok]. rewrite maps_cons, maps_one. cbn [List.find]. rewrite contains_in_log by done.
  unfold covl in *. cbn [sum_list_with] in Hc. destruct (in_log e x) eqn:E; cbn [Nat.b2n] in Hc.
  - cbn [fmap option_fmap option_map]. destruct (in_log_bound _ _ He E) as [Hx Hy]. apply in_log_iff in E.
    rewrite wsub64_small, wadd64_small by lia. assert (∀ y, ¬ maps l x y) as Hn by (apply covl_maps; unfold covl; lia).
    split; [intros [= <-]; by left|]. intros [[_ ->]|H]; [done|by destruct (Hn y)].
  - rewrite IH by (done || lia). naive_solver.
Qed.

Lemma maps_fun l x y y' : (covl l x <= 1)%nat → maps l x y → maps l x y' → y = y'.
Proof.
  induction l as [|e l IH]; intros Hc H H'; [by apply maps_nil in H|]. unfold covl in *. cbn [sum_list_with] in Hc.
  rewrite maps_cons, maps_one in H, H'. destruct (in_log e x) eqn:E; cbn [Nat.b2n] in Hc.
  - assert (∀ y, ¬ maps l x y) as Hn by (apply covl_maps; unfold covl; lia). naive_solver.
  - apply IH; [lia| |]; naive_solver.
Qed.

Lemma maps_inj l x x' y : (covp l y <= 1)%nat → maps l x y → maps l x' y → x = x'.
Proof.
  induction l as [|e l IH]; intros Hc H H'; [by apply maps_nil in H|]. unfold covp in *. cbn [sum_list_with] in Hc.
  rewrite maps_cons, maps_one, in_log_iff in H, H'. destruct (in_phys e y) eqn:E; cbn [Nat.b2n] in Hc.
  - assert (∀ x, ¬ maps l x y) as Hn by (apply covp_maps; unfold covp; lia). apply in_phys_iff in E.
    destruct H as [[H ->]|H]; [|by destruct (Hn x)]. destruct H' as [[H' H'']|H']; [lia|by destruct (Hn x')].
  - assert (¬ in_phys e y = true) as Hn by congruence. rewrite in_phys_iff in Hn. apply IH; [lia| |].
    + destruct H as [[H ->]|H]; [lia|done].
    + destruct H' as [[H' ->]|H']; [lia|done].
Qed.

(** ** Coalescing *)
Lemma sort_insert_perm e l : sort_insert e l ≡ₚ e :: l.
Proof.
  induction l as [|e' l IH]; cbn; [done|]. destruct (_ <=? _); [done|]. rewrite IH. constructor.
Qed.

Lemma sort_by_start_perm l : sort_by_start l ≡ₚ l.
Proof. induction l as [|e l IH]; cbn; [done|]. by rewrite sort_insert_perm, IH. Qed.

Abbreviation by_start := (StronglySorted (λ a b, logical_start a <= logical_start b)).

Lemma sort_insert_sorted e l : by_start l → by_start (sort_insert e l).
Proof.
  induction 1 as [|e' l Hl IH Hle]; cbn; [by repeat constructor|]. destruct (N.leb_spec (logical_start e) (logical_start e')).
  - constructor; [by constructor|]. constructor; [done|]. eapply Forall_impl; [exact Hle|]. intros ? ?. cbn in *. lia.
  - constructor; [done|]. rewrite sort_insert_perm. constructor; [lia|done].
Qed.

Lemma sort_by_start_sorted l : by_start (sort_by_start l).
Proof. induction l as [|e l IH]; cbn; [constructor|]. by apply sort_insert_sorted. Qed.

Lemma merge_from_same last l :
  Forall ext_ok (last :: l) → Forall ext_ok (merge_from last l) ∧ same_cover (merge_from last l) (last :: l) ∧
  (length (merge_from last l) <= S (length l))%nat.
Proof.
  revert last. induction l as [|e l IH]; intros last Hok; cbn [merge_from]; [done|].
  apply Forall_cons in Hok as [Hlast Hok]. pose proof Hok as [He Hl]%Forall_cons. destruct (is_adjacent_to last e) eqn:Ea.
  - destruct (join_same last e Hlast He Ea) as [Hok' Hs]. destruct (IH _ (Forall_cons_2 _ _ _ Hok' Hl)) as (H1 & H2 & H3).
    split_and!; [done| |cbn [length]; lia]. rewrite H2. change (last :: e :: l) with ([last; e] ++ l). by rewrite <- Hs.
  - destruct (IH e Hok) as (H1 & H2 & H3). split_and!; [by constructor|by rewrite H2|cbn [length]; lia].
Qed.

(** Every logical block at most once. *)
Definition single (l : list Extent) : Prop := ∀ x, (covl l x <= 1)%nat.

Lemma single_before a b l : single (a :: b :: l) → ext_ok a → ext_ok b → logical_start a <= logical_start b → logical_start a + ext_len a <= logical_start b.
Proof.
  intros Hs (Ha & _) (Hb & _) Hle. destruct (N.le_gt_cases (logical_start a + ext_len a) (logical_start b)) as [|Hgt]; [done|].
  specialize (Hs (logical_start b)). unfold covl in Hs. cbn [sum_list_with] in Hs.
  rewrite (proj2 (in_log_iff a _)), (proj2 (in_log_iff b _)) in Hs by lia. cbn in Hs. lia.
Qed.

(** The first extent of the output starts where the run does. *)
Lemma merge_from_first last l : ∃ n r, merge_from last l = mkExt (logical_start last) (physical_start last) n :: r ∧
  ∀ e, e ∈ r → ∃ e', e' ∈ l ∧ logical_start e = logical_start e'.
Proof.
  revert last. induction l as [|e l IH]; intros last; cbn [merge_from].
  { exists (ext_len last), []. split; [by destruct last|]. by intros e ?%not_elem_of_nil. }
  destruct (is_adjacent_to last e).
  - destruct (IH (mkExt (logical_start last) (physical_start last) (wadd64 (ext_len last) (ext_len e)))) as (n & r & E & Hr).
    exists n, r. split; [done|]. intros e' He'. destruct (Hr e' He') as (e'' & ? & ?). exists e''. split; [by right|done].
  - destruct (IH e) as (n & r & E & Hr). exists (ext_len last), (merge_from e l). split; [by destruct last|].
    rewrite E. intros e' [->|He']%elem_of_cons; [exists e; split; [by left|done]|].
    destruct (Hr e' He') as (e'' & ? & ?). exists e''. split; [by right|done].
Qed.

Lemma single_tail e l : single (e :: l) → single l.
Proof. intros H x. specialize (H x). unfold covl in *. cbn [sum_list_with] in H. lia. Qed.

Lemma single_same l l' : same_cover l l' → single l → single l'.
Proof. intros H Hs x. by rewrite <- (same_l _ _ H). Qed.

Lemma self_apart e : ext_ok e → is_adjacent_to e e = false.
Proof. intros He. destruct (is_adjacent_to e e) eqn:E; [|done]. rewrite adjacent_iff in E by done. destruct He. lia. Qed.

Lemma merge_from_apart last l :
  Forall ext_ok (last :: l) → by_start (last :: l) → single (last :: l) →
  ∀ a b, a ∈ merge_from last l → b ∈ merge_from last l → is_adjacent_to a b = false.
Proof.
  revert last. induction l as [|e l IH]; intros last Hok Hsort Hs; cbn [merge_from].
  { intros a b ->%list_elem_of_singleton ->%list_elem_of_singleton. by apply self_apart, Forall_singleton. }
  pose proof Hok as [Hlast [He Hl]%Forall_cons]%Forall_cons. apply StronglySorted_inv in Hsort as [Hsort Hle].
  apply Forall_cons in Hle as [Hle1 Hle]. pose proof Hsort as [Hsort' Hle']%StronglySorted_inv.
  destruct (is_adjacent_to last e) eqn:Ea.
  - destruct (join_same last e Hlast He Ea) as [Hok' Hsame]. apply IH; [by constructor| |].
    + by constructor.
    + eapply single_same; [|exact Hs]. change (last :: e :: l) with ([last; e] ++ l). by rewrite <- Hsame.
  - pose proof (single_tail _ _ Hs) as Hs'. pose proof (IH e (Forall_cons_2 _ _ _ He Hl) Hsort Hs') as Hap.
    destruct (merge_from_first e l) as (n & r & E & Hr). pose proof (single_before last e l Hs Hlast He Hle1) as Hend.
    assert (∀ o, o ∈ merge_from e l → logical_start e <= logical_start o ∧ is_adjacent_to last o = false) as Hbelow.
    { rewrite E. intros o [->|Ho]%elem_of_cons; [split; [cbn [logical_start]; lia|exact Ea]|].
      destruct (Hr o Ho) as (o' & Ho' & Hlo). rewrite Forall_forall in Hle'. specialize (Hle' o' Ho'). split; [lia|].
      destruct (is_adjacent_to last o) eqn:Eo; [|done]. apply adjacent_iff in Eo as [Eo _]; [|done].
      (* [e] lies strictly between *)
      rewrite Forall_forall in Hl. pose proof (Hl o' Ho') as (Hn & _). destruct He as (Hn' & _).
      assert (logical_start o' = logical_start e) as Hlo' by lia. exfalso.
      assert (covl (e :: l) (logical_start e) <= 1)%nat as Hc by apply Hs'. unfold covl in Hc. cbn [sum_list_with] in Hc.
      rewrite (proj2 (in_log_iff e _)) in Hc by lia. cbn in Hc. assert (covl l (logical_start e) = 0)%nat as Hz by (unfold covl; lia).
      apply (proj1 (covl_maps _ _) Hz (physical_start o')). exists o'. split; [done|]. rewrite in_log_iff. lia. }
    intros a b [->|Ha]%elem_of_cons [->|Hb]%elem_of_cons.
    + by apply self_apart.
    + by apply Hbelow.
    + destruct (is_adjacent_to a last) eqn:E'; [|done]. destruct (Hbelow a Ha) as [H1 _].
      pose proof (merge_from_same e l (Forall_cons_2 _ _ _ He Hl)) as (Hok' & _). rewrite Forall_forall in Hok'.
      apply adjacent_iff in E' as [E' _]; [|by apply Hok']. destruct (Hok' a Ha). destruct Hlast. lia.
    + by apply Hap.
Qed.

Lemma coalesce_same l :
  Forall ext_ok l → Forall ext_ok (coalesce l) ∧ same_cover (coalesce l) l ∧ (length (coalesce l) <= length l)%nat.
Proof.
  intros Hok. pose proof (sort_by_start_perm l) as Hp. rewrite <- Hp in Hok. unfold coalesce.
  apply Permutation_length in Hp as Hlen. apply perm_same in Hp. destruct (sort_by_start l) as [|e s]; [split_and!; [done|done|cbn; lia]|].
  destruct (merge_from_same e s Hok) as (H1 & H2 & H3). split_and!; [done|by rewrite H2|cbn [length] in Hlen; lia].
Qed.

Lemma maps_same_lookup l l' x :
  same_cover l l' → Forall ext_ok l → Forall ext_ok l' → single l → map_logical_to_physical l x = map_logical_to_physical l' x.
Proof.
  intros Hs Hok Hok' Hsg. pose proof (single_same _ _ Hs Hsg) as Hsg'. apply option_eq. intros y.
  by rewrite !maps_lookup, (same_m _ _ Hs) by done.
Qed.



(** cutting. [split_at] succeeds exactly strictly inside the extent, and
    coalescing its halves gives the extent back; [remove_range] keeps exactly
    the mappings outside the range. *)
Theorem split_and_remove (e : Extent) :
  ext_ok e →
  (∀ b, match split_at e b with
        | Some (before, after) => logical_start e < b < logical_start e + ext_len e ∧ coalesce [before; after] = [e]
        | None => b <= logical_start e ∨ logical_start e + ext_len e <= b
        end) ∧
  ∀ s t, s <= t → t < two64 → Forall ext_ok (remove_range e s t) ∧
    ∀ x y, maps (remove_range e s t) x y ↔ maps [e] x y ∧ ¬ (s <= x < t).
Proof.
  intros (H1 & H2 & H3). destruct e as [ls ps n]. cbn [logical_start physical_start ext_len] in *. split.
  - intros b. unfold split_at, logical_end. cbn [logical_start physical_start ext_len]. rewrite wadd64_small by done.
    destruct (N.leb_spec b ls); [by left|]. destruct (N.leb_spec (ls + n) b); [by right|]. cbn [orb]. split; [done|].
    rewrite (wsub64_small b ls), (wsub64_small n), wadd64_small by lia. unfold coalesce, sort_by_start.
    cbn [foldr sort_insert logical_start]. rewrite (proj2 (N.leb_le ls b)) by lia. cbn [merge_from].
    assert (is_adjacent_to (mkExt ls ps (b - ls)) (mkExt b (ps + (b - ls)) (n - (b - ls))) = true) as ->.
    { apply adjacent_iff; unfold ext_ok; cbn [logical_start physical_start ext_len]; lia. }
    cbn [logical_start physical_start ext_len].
    rewrite wadd64_small by lia. by replace (b - ls + (n - (b - ls))) with n by lia.
  - intros s t Hst Ht. unfold remove_range, logical_end. cbn [logical_start physical_start ext_len]. rewrite wadd64_small by done.
    rewrite (wsub64_small (N.max t ls)) by lia. split.
    + apply Forall_app. split.
      * destruct (N.ltb_spec ls s); [|constructor]. rewrite wsub64_small by lia. apply Forall_singleton. unfold ext_ok.
        cbn [logical_start physical_start ext_len]. lia.
      * destruct (N.ltb_spec t (ls + n)); [|constructor]. rewrite wsub64_small, wadd64_small by lia. apply Forall_singleton.
        unfold ext_ok. cbn [logical_start physical_start ext_len]. lia.
    + intros x y. rewrite maps_app, maps_one, in_log_iff. cbn [logical_start physical_start ext_len].
      destruct (N.ltb_spec ls s), (N.ltb_spec t (ls + n)); rewrite ?wsub64_small, ?wadd64_small by lia;
        rewrite ?maps_one, ?in_log_iff; cbn [logical_start physical_start ext_len];
        pose proof (maps_nil x y); intuition lia.
Qed.

Lemma split_and_remove_witness : maps (remove_range (mkExt 0 100 10) 3 6) 7 107.
Proof.
  destruct (split_and_remove (mkExt 0 100 10)) as [_ H]; [done|]. apply H; [done|done|]. split; [|lia].
  by apply maps_one.
Defined.
