(* ===== verification/Hamt.v ===== *)
(** * The persistent hash array mapped trie ([lionfs/src/hamt/mod.rs])

    The inode-number map: [u128] keys under a splitmix64 hash
    ([io_engine/shard.rs]), 32-way bitmap-compressed branches. [insert] and
    [get] refine a finite map; [remove] does so as long as the collapse of a
    one-slot branch does not lift another branch. A slice index out of range
    is [None], here and in the recursive functions' results. *)
From S2P Require Import Prelude.
From Stdlib Require Import NArith ZArith Lia.
From stdpp Require Import base numbers gmap option list.
#[local] Open Scope nat_scope.

Definition splitmix64 (x : N) : N :=
  let x := wadd64 x 0x9E3779B97F4A7C15 in
  let z := x in
  let z := wmul64 (N.lxor z (N.shiftr z 30)) 0xBF58476D1CE4E5B9 in
  let z := wmul64 (N.lxor z (N.shiftr z 27)) 0x94D049BB133111EB in
  N.lxor z (N.shiftr z 31).

Definition two128 : N := 340282366920938463463374607431768211456.

Definition hash128 (key : N) : N :=
  let lo := splitmix64 (wrap64 key) in
  let hi := splitmix64 (N.lxor (wrap64 (N.shiftr key 64)) lo) in
  N.lor (N.shiftl hi 64) lo.

Definition FANOUT_BITS : N := 5.

Definition nibble (hash : N) (level : nat) : nat :=
  N.to_nat (N.land (N.shiftr hash (N.of_nat level * FANOUT_BITS)) 31).

Inductive Node (V : Type) :=
  | Branch (map : N) (slots : list (Node V))
  | Collision (hash : N) (entries : list (N * V))
  | Leaf (hash key : N) (value : V).
Arguments Branch {V}.
Arguments Collision {V}.
Arguments Leaf {V}.

Record Hamt (V : Type) := mkHamt { root : Node V; hlen : nat; depth_max : nat }.
Arguments mkHamt {V}.
Arguments root {V}.
Arguments hlen {V}.
Arguments depth_max {V}.

(** [count_ones] *)
Fixpoint pos_ones (p : positive) : nat :=
  match p with xI p => S (pos_ones p) | xO p => pos_ones p | xH => 1 end.
Definition count_ones (x : N) : nat := match x with N0 => 0 | Npos p => pos_ones p end.

(** [1u32 << idx], [map & bit == 0] and the compressed slot of a nibble. *)
Definition bit (idx : nat) : N := N.shiftl 1 (N.of_nat idx).
Definition absent (map : N) (idx : nat) : bool := N.eqb (N.land map (bit idx)) 0.
Definition slot_of (map : N) (idx : nat) : nat := count_ones (N.land map (bit idx - 1)).

(** [Vec::insert] *)
Definition vec_insert {A} (i : nat) (x : A) (l : list A) : list A := take i l ++ x :: drop i l.

Section ops.
Context {V : Type}.

Definition hamt_new : Hamt V := mkHamt (Branch 0 []) 0 0.

Fixpoint get_node (key hash : N) (node : Node V) (level : nat) : option (option V) :=
  match node with
  | Branch map slots =>
      let idx := nibble hash level in
      if absent map idx then Some None
      else
        (fix at_slot (l : list (Node V)) (i : nat) : option (option V) :=
           match l, i with
           | [], _ => None
           | c :: _, O => get_node key hash c (S level)
           | _ :: l', S i' => at_slot l' i'
           end) slots (slot_of map idx)
  | Leaf h k value => Some (if (N.eqb h hash && N.eqb k key)%bool then Some value else None)
  | Collision h entries =>
      Some (if negb (N.eqb h hash) then None
            else snd <$> find (λ e, N.eqb e.1 key) entries)
  end.

Definition hamt_get (t : Hamt V) (key : N) : option (option V) := get_node key (hash128 key) (root t) 0.

(** [None]: the recursion passed level 26, beyond the hash. *)
Fixpoint widen (fuel : nat) (node : Node V) (key : N) (value : V) (new_hash old_hash : N) (level : nat)
    : option (Node V * bool * nat) :=
  match fuel with
  | O => None
  | S fuel =>
      let old_idx := nibble old_hash level in
      let new_idx := nibble new_hash level in
      if old_idx =? new_idx then
        match widen fuel node key value new_hash old_hash (S level) with
        | Some (inner, added, depth) => Some (Branch (bit new_idx) [inner], added, depth)
        | None => None
        end
      else
        let leaf := Leaf new_hash key value in
        Some (Branch (N.lor (bit old_idx) (bit new_idx))
                (if old_idx <? new_idx then [node; leaf] else [leaf; node]), true, level)
  end.

Fixpoint insert_node (key : N) (value : V) (hash : N) (node : Node V) (level : nat)
    : option (Node V * bool * nat) :=
  match node with
  | Branch map slots =>
      let idx := nibble hash level in
      let slot := slot_of map idx in
      if absent map idx then
        if length slots <? slot then None
        else Some (Branch (N.lor map (bit idx)) (vec_insert slot (Leaf hash key value) slots), true, level)
      else
        match (fix at_slot (l : list (Node V)) (i : nat) : option (Node V * bool * nat) :=
                 match l, i with
                 | [], _ => None
                 | c :: _, O => insert_node key value hash c (S level)
                 | _ :: l', S i' => at_slot l' i'
                 end) slots slot with
        | Some (child, added, depth) => Some (Branch map (<[slot := child]> slots), added, depth)
        | None => None
        end
  | Leaf h k v =>
      if (N.eqb h hash && N.eqb k key)%bool then Some (Leaf hash key value, false, level)
      else if N.eqb h hash then Some (Collision hash [(k, v); (key, value)], true, level)
      else widen (26 - level) node key value hash h level
  | Collision h entries =>
      if negb (N.eqb h hash) then widen (26 - level) node key value hash h level
      else match list_find (λ e, e.1 = key) entries with
           | Some (pos, _) => Some (Collision hash (<[pos := (key, value)]> entries), false, level)
           | None => Some (Collision h (entries ++ [(key, value)]), true, level)
           end
  end.

Definition hamt_insert (t : Hamt V) (key : N) (value : V) : option (Hamt V) :=
  match insert_node key value (hash128 key) (root t) 0 with
  | Some (root', added, depth) =>
      Some (mkHamt root' (hlen t + if added then 1 else 0) (Nat.max (depth_max t) depth))
  | None => None
  end.

Inductive RemoveResult :=
  | Missing
  | Removed (node : Node V) (value : V)
  | Replace (node : Node V) (value : V).

(** [matches!(&n, Node::Branch { slots: cs, .. } if cs.is_empty())] *)
Definition is_empty_branch (n : Node V) : bool := match n with Branch _ [] => true | _ => false end.

Fixpoint remove_node (key hash : N) (node : Node V) (level : nat) : option RemoveResult :=
  match node with
  | Branch map slots =>
      let idx := nibble hash level in
      let slot := slot_of map idx in
      if absent map idx then Some Missing
      else
        match (fix at_slot (l : list (Node V)) (i : nat) : option RemoveResult :=
                 match l, i with
                 | [], _ => None
                 | c :: _, O => remove_node key hash c (S level)
                 | _ :: l', S i' => at_slot l' i'
                 end) slots slot with
        | None => None
        | Some Missing => Some Missing
        | Some (Replace n v) => Some (Replace (Branch map (<[slot := n]> slots)) v)
        | Some (Removed n v) =>
            if is_empty_branch n then
              match delete slot slots with
              | [] => Some (Removed (Branch 0 []) v)
              | [only] => Some (Removed only v)
              | new_slots => Some (Removed (Branch (N.ldiff map (bit idx)) new_slots) v)
              end
            else Some (Removed (Branch map (<[slot := n]> slots)) v)
        end
  | Leaf h k value =>
      Some (if (N.eqb h hash && N.eqb k key)%bool then Removed (Branch 0 []) value else Missing)
  | Collision h entries =>
      Some (if negb (N.eqb h hash) then Missing
            else match list_find (λ e, e.1 = key) entries with
                 | None => Missing
                 | Some (pos, (_, value)) =>
                     match delete pos entries with
                     | [(k, v)] => Replace (Leaf h k v) value
                     | new_entries => Replace (Collision h new_entries) value
                     end
                 end)
  end.

Definition hamt_remove (t : Hamt V) (key : N) : option (Hamt V * option V) :=
  match remove_node key (hash128 key) (root t) 0 with
  | None => None
  | Some Missing => Some (t, None)
  | Some (Removed node value) => Some (mkHamt node (hlen t - 1) (depth_max t), Some value)
  | Some (Replace node value) => Some (mkHamt node (hlen t) (depth_max t), Some value)
  end.

(** The pairs [for_each] visits, in order. *)
Fixpoint walk (node : Node V) : list (N * V) :=
  match node with
  | Branch _ slots => flat_map walk slots
  | Leaf _ key value => [(key, value)]
  | Collision _ entries => entries
  end.

End ops.
Arguments RemoveResult : clear implicits.

(** ** The hash is a bijection on its width *)

Lemma xorshift_inj s z z' :
  (0 < s)%N → N.lxor z (N.shiftr z s) = N.lxor z' (N.shiftr z' s) → z = z'.
Proof.
  intros Hs Heq. apply N.lxor_eq.
  assert (N.lxor (N.lxor z z') (N.shiftr (N.lxor z z') s) = 0%N) as Hw.
  { rewrite N.shiftr_lxor. apply N.bits_inj. intros i. apply (f_equal (λ x, N.testbit x i)) in Heq.
    rewrite N.bits_0. rewrite !N.lxor_spec in *. destruct (N.testbit z i), (N.testbit z' i),
      (N.testbit (N.shiftr z s) i), (N.testbit (N.shiftr z' s) i); done. }
  apply N.lxor_eq in Hw. revert Hw. generalize (N.lxor z z'). intros w Hw.
  destruct (N.eq_dec w 0%N) as [->|Hnz]; [done|]. exfalso.
  rewrite N.shiftr_div_pow2 in Hw. pose proof (N.pow_gt_1 2%N s ltac:(lia) ltac:(lia)).
  pose proof (N.div_lt w (2 ^ s)%N). lia.
Qed.

Lemma wmul_inj a b z z' :
  wmul64 a b = 1%N → (z < two64)%N → (z' < two64)%N → wmul64 z a = wmul64 z' a → z = z'.
Proof.
  assert (∀ x, wmul64 a b = 1%N → (x < two64)%N → wmul64 (wmul64 x a) b = x) as Hinv.
  { intros x Hab Hx. unfold wmul64, wrap64 in *. rewrite N.Div0.mul_mod_idemp_l, <- N.mul_assoc.
    rewrite <- N.Div0.mul_mod_idemp_r, Hab, N.mul_1_r. by apply N.mod_small. }
  intros Hab Hz Hz' Heq. rewrite <- (Hinv z), <- (Hinv z') by done. by rewrite Heq.
Qed.

Lemma wadd_inj c z z' :
  (c < two64)%N → (z < two64)%N → (z' < two64)%N → wadd64 z c = wadd64 z' c → z = z'.
Proof.
  intros Hc Hz Hz' Heq. unfold wadd64, wrap64 in Heq.
  pose proof (N.div_mod (z + c)%N two64 ltac:(done)). pose proof (N.div_mod (z' + c)%N two64 ltac:(done)).
  assert ((z + c) / two64 < 2)%N by (apply N.Div0.div_lt_upper_bound; lia).
  assert ((z' + c) / two64 < 2)%N by (apply N.Div0.div_lt_upper_bound; lia).
  unfold two64 in *. nia.
Qed.

Lemma xorshift_lt s z : (z < two64)%N → (N.lxor z (N.shiftr z s) < two64)%N.
Proof.
  intros Hz. rewrite two64_pow in *. apply lxor_lt_pow2; [done|].
  rewrite N.shiftr_div_pow2. apply N.Div0.div_lt_upper_bound.
  pose proof (N.pow_nonzero 2%N s ltac:(done)). nia.
Qed.

Lemma splitmix64_lt x : (splitmix64 x < two64)%N.
Proof. apply xorshift_lt, wrap64_lt. Qed.

Lemma splitmix64_inj x y : (x < two64)%N → (y < two64)%N → splitmix64 x = splitmix64 y → x = y.
Proof.
  intros Hx Hy Heq. unfold splitmix64 in Heq. cbv zeta in Heq.
  apply xorshift_inj in Heq; [|done].
  apply (wmul_inj _ 0x319642b2d24d8ec3) in Heq; [|reflexivity|apply xorshift_lt, wrap64_lt..].
  apply xorshift_inj in Heq; [|done].
  apply (wmul_inj _ 0x96de1b173f119089) in Heq; [|reflexivity|apply xorshift_lt, wrap64_lt..].
  apply xorshift_inj in Heq; [|done].
  by apply wadd_inj in Heq.
Qed.

Lemma lor_shift_add hi lo : (lo < two64)%N → N.lor (N.shiftl hi 64) lo = (hi * two64 + lo)%N.
Proof.
  intros Hlo. rewrite two64_pow in *. rewrite <- N.lxor_lor, <- N.add_nocarry_lxor.
  1: by rewrite N.shiftl_mul_pow2.
  all: apply N.bits_inj; intros i; rewrite N.land_spec, N.bits_0; destruct (N.ltb_spec i 64%N).
  1,3: by rewrite N.shiftl_spec_low.
  all: apply andb_false_iff; right; destruct (N.eq_dec lo 0%N) as [->|]; [apply N.bits_0|];
    apply N.bits_above_log2; pose proof (proj1 (N.log2_lt_pow2 lo 64%N ltac:(lia)) Hlo); lia.
Qed.

Lemma hash128_lt k : (hash128 k < two128)%N.
Proof.
  unfold hash128. cbv zeta. rewrite lor_shift_add by apply splitmix64_lt.
  match goal with |- (splitmix64 ?a * _ + splitmix64 ?b < _)%N =>
    pose proof (splitmix64_lt a); pose proof (splitmix64_lt b) end.
  unfold two128, two64 in *. lia.
Qed.

Lemma hash128_inj k k' : (k < two128)%N → (k' < two128)%N → hash128 k = hash128 k' → k = k'.
Proof.
  intros Hk Hk' Heq. unfold hash128 in Heq. cbv zeta in Heq. rewrite !lor_shift_add in Heq by apply splitmix64_lt.
  assert (∀ a b c d, (b < two64)%N → (d < two64)%N → (a * two64 + b = c * two64 + d)%N → a = c ∧ b = d) as Hsplit.
  { intros a b c d Hb Hd H. unfold two64 in *. lia. }
  apply Hsplit in Heq as [Hhi Hlo]; [|apply splitmix64_lt..].
  apply splitmix64_inj in Hlo; [|apply wrap64_lt..].
  assert (∀ x, (x < two128)%N → (wrap64 (N.shiftr x 64) = x / two64)%N) as Hhigh.
  { intros x Hx. rewrite N.shiftr_div_pow2, <- two64_pow. apply wrap64_small.
    apply N.Div0.div_lt_upper_bound. exact Hx. }
  rewrite <- Hlo in Hhi. apply splitmix64_inj in Hhi.
  2,3: rewrite two64_pow; apply lxor_lt_pow2; rewrite <- two64_pow; [apply wrap64_lt|apply splitmix64_lt].
  rewrite !Hhigh in Hhi by done.
  apply (f_equal (λ x, N.lxor x (splitmix64 (wrap64 k)))) in Hhi.
  rewrite !N.lxor_assoc, !N.lxor_nilpotent, !N.lxor_0_r in Hhi.
  rewrite (N.div_mod k two64), (N.div_mod k' two64) by done. unfold wrap64 in Hlo. by rewrite Hhi, Hlo.
Qed.

(** ** Hash prefixes *)

(** The nibbles of the first [l] levels. *)
Definition pre (h : N) (l : nat) : N := (h mod 2 ^ (5 * N.of_nat l))%N.

Lemma nibble_spec h l : N.of_nat (nibble h l) = ((h / 2 ^ (5 * N.of_nat l)) mod 32)%N.
Proof.
  unfold nibble, FANOUT_BITS. rewrite N2Nat.id, N.shiftr_div_pow2, N.mul_comm.
  change 31%N with (N.ones 5). by rewrite N.land_ones.
Qed.

Lemma nibble_lt h l : nibble h l < 32.
Proof.
  assert (N.of_nat (nibble h l) < 32)%N; [|lia]. rewrite nibble_spec. by apply N.mod_lt.
Qed.

Lemma pre_S h l : pre h (S l) = (pre h l + N.of_nat (nibble h l) * 2 ^ (5 * N.of_nat l))%N.
Proof.
  unfold pre. rewrite nibble_spec. replace (5 * N.of_nat (S l))%N with (5 * N.of_nat l + 5)%N by (rewrite Nat2N.inj_succ; lia).
  rewrite N.pow_add_r. rewrite N.Div0.mod_mul_r. change (2 ^ 5)%N with 32%N. f_equal. apply N.mul_comm.
Qed.

Lemma pre_lt h l : (pre h l < 2 ^ (5 * N.of_nat l))%N.
Proof. apply N.mod_lt, N.pow_nonzero. done. Qed.

Lemma pre_S_eq h l p i :
  (p < 2 ^ (5 * N.of_nat l))%N → pre h (S l) = (p + i * 2 ^ (5 * N.of_nat l))%N →
  pre h l = p ∧ N.of_nat (nibble h l) = i.
Proof.
  intros Hp Heq. rewrite pre_S in Heq. pose proof (pre_lt h l).
  destruct (N.div_mod_unique (2 ^ (5 * N.of_nat l)) (N.of_nat (nibble h l)) i (pre h l) p); [done|done|lia|done].
Qed.

Lemma pre_full h h' l : 26 ≤ l → (h < two128)%N → (h' < two128)%N → pre h l = pre h' l → h = h'.
Proof.
  intros Hl Hh Hh'. assert (two128 <= 2 ^ (5 * N.of_nat l))%N.
  { transitivity (2 ^ 128)%N; [done|]. apply N.pow_le_mono_r; [done|lia]. }
  unfold pre. rewrite !N.mod_small; [done|lia..].
Qed.

(** ** Bitmap ranks *)

(** The number of bits of [map] set below [idx]. *)
Fixpoint rank (map : N) (idx : nat) : nat :=
  match idx with
  | O => 0
  | S i => rank map i + if N.testbit map (N.of_nat i) then 1 else 0
  end.

Lemma rank_ext map map' idx :
  (∀ i, i < idx → N.testbit map (N.of_nat i) = N.testbit map' (N.of_nat i)) → rank map idx = rank map' idx.
Proof.
  induction idx as [|idx IH]; intros Hbits; [done|]. cbn.
  rewrite IH, (Hbits idx); [done|lia|]. intros i Hi. apply Hbits. lia.
Qed.

Lemma rank_div2 map k : rank map (S k) = (if N.testbit map 0 then 1 else 0) + rank (N.div2 map) k.
Proof.
  induction k as [|k IH]; [by rewrite Nat.add_0_r|].
  change (rank map (S (S k))) with (rank map (S k) + if N.testbit map (N.of_nat (S k)) then 1 else 0).
  rewrite IH. cbn [rank]. rewrite N.testbit_div2. replace (N.succ (N.of_nat k)) with (N.of_nat (S k)) by lia. lia.
Qed.

Lemma count_ones_rank x k : (x < 2 ^ N.of_nat k)%N → count_ones x = rank x k.
Proof.
  revert x. induction k as [|k IH]; intros x Hx.
  { by replace x with 0%N by (cbn in Hx; lia). }
  rewrite rank_div2, <- IH.
  - destruct x as [|[]]; done.
  - rewrite N.div2_div. apply N.Div0.div_lt_upper_bound.
    rewrite Nat2N.inj_succ, N.pow_succ_r' in Hx. done.
Qed.

Lemma bit_pow2 idx : bit idx = (2 ^ N.of_nat idx)%N.
Proof. unfold bit. by rewrite N.shiftl_1_l. Qed.

Lemma testbit_bit i j : N.testbit (bit i) (N.of_nat j) = bool_decide (i = j).
Proof.
  rewrite bit_pow2, N.pow2_bits_eqb. case_bool_decide as Hij.
  - subst. apply N.eqb_refl.
  - apply N.eqb_neq. lia.
Qed.

Lemma slot_of_rank map idx : slot_of map idx = rank map idx.
Proof.
  unfold slot_of. rewrite bit_pow2, <- N.pred_sub, <- N.ones_equiv.
  rewrite (count_ones_rank _ idx) by (rewrite N.land_ones; apply N.mod_lt, N.pow_nonzero; done).
  apply rank_ext. intros i Hi. rewrite N.land_spec, N.ones_spec_low by lia. apply andb_true_r.
Qed.

Lemma absent_testbit map idx : absent map idx = negb (N.testbit map (N.of_nat idx)).
Proof.
  unfold absent. destruct (N.testbit map (N.of_nat idx)) eqn:E; cbn.
  - apply N.eqb_neq. intros H0. apply (f_equal (λ x, N.testbit x (N.of_nat idx))) in H0.
    rewrite N.land_spec, E, testbit_bit, bool_decide_true in H0; done.
  - apply N.eqb_eq, N.bits_inj. intros i. rewrite N.land_spec, N.bits_0.
    rewrite <- (N2Nat.id i), testbit_bit. case_bool_decide; [subst; by rewrite E|apply andb_false_r].
Qed.

Lemma rank_mono map i j : i ≤ j → rank map i ≤ rank map j.
Proof. induction 1; cbn; lia. Qed.

Lemma rank_lt map i j : i < j → N.testbit map (N.of_nat i) = true → rank map i < rank map j.
Proof. intros Hij Hi. pose proof (rank_mono map (S i) j Hij) as Hm. cbn in Hm. rewrite Hi in Hm. lia. Qed.

Lemma rank_set map idx j :
  N.testbit map (N.of_nat idx) = false →
  rank (N.lor map (bit idx)) j = rank map j + if idx <? j then 1 else 0.
Proof.
  intros Hidx. induction j as [|j IH]; [done|]. cbn [rank]. rewrite IH, N.lor_spec, testbit_bit.
  case_bool_decide as Hj.
  - subst j. rewrite Hidx, orb_true_r.
    destruct (Nat.ltb_spec idx idx), (Nat.ltb_spec idx (S idx)); lia.
  - rewrite orb_false_r. destruct (Nat.ltb_spec idx j), (Nat.ltb_spec idx (S j)); lia.
Qed.

Lemma rank_clear map idx j :
  N.testbit map (N.of_nat idx) = true →
  rank (N.ldiff map (bit idx)) j + (if idx <? j then 1 else 0) = rank map j.
Proof.
  intros Hidx. induction j as [|j IH]; [done|]. cbn [rank]. rewrite N.ldiff_spec, testbit_bit.
  case_bool_decide as Hj.
  - subst j. rewrite Hidx, andb_false_r.
    destruct (Nat.ltb_spec idx idx), (Nat.ltb_spec idx (S idx)); lia.
  - rewrite andb_true_r. destruct (Nat.ltb_spec idx j), (Nat.ltb_spec idx (S j)); lia.
Qed.

(** ** Well-formed tries *)

Lemma at_slot_lookup {A B} (f : A → option B) (l : list A) (i : nat) :
  (fix at_slot (l : list A) (i : nat) : option B :=
     match l, i with [], _ => None | c :: _, O => f c | _ :: l', S i' => at_slot l' i' end) l i
  = (l !! i) ≫= f.
Proof. revert i. induction l as [|c l IH]; intros [|i]; cbn; done. Qed.

Section refinement.
Context {V : Type}.
Implicit Types (node : Node V) (slots : list (Node V)).

(** [wf l p node]: [node] sits at level [l] below the path [p]. There are no
    collision nodes: the hash is injective. *)
Inductive wf : nat → N → Node V → Prop :=
  | wf_leaf l p k v :
      (k < two128)%N → pre (hash128 k) l = p → wf l p (Leaf (hash128 k) k v)
  | wf_branch l p map slots :
      (p < 2 ^ (5 * N.of_nat l))%N → length slots = rank map 32 →
      (∀ idx c, idx < 32 → N.testbit map (N.of_nat idx) = true → slots !! rank map idx = Some c →
         wf (S l) (p + N.of_nat idx * 2 ^ (5 * N.of_nat l)) c) →
      wf l p (Branch map slots).

Definition getk (k : N) (node : Node V) (l : nat) : option (option V) := get_node k (hash128 k) node l.

Lemma get_branch k map slots l :
  getk k (Branch map slots) l =
    if N.testbit map (N.of_nat (nibble (hash128 k) l)) then
      slots !! rank map (nibble (hash128 k) l) ≫= λ c, getk k c (S l)
    else Some None.
Proof.
  unfold getk. cbn [get_node]. rewrite absent_testbit, at_slot_lookup, slot_of_rank.
  by destruct (N.testbit _ _).
Qed.

Lemma insert_branch k v h map slots l :
  insert_node k v h (Branch map slots) l =
    let idx := nibble h l in
    if N.testbit map (N.of_nat idx) then
      match slots !! rank map idx ≫= λ c, insert_node k v h c (S l) with
      | Some (child, added, depth) => Some (Branch map (<[rank map idx := child]> slots), added, depth)
      | None => None
      end
    else if length slots <? rank map idx then None
         else Some (Branch (N.lor map (bit idx)) (vec_insert (rank map idx) (Leaf h k v) slots), true, l).
Proof.
  cbn [insert_node]. rewrite absent_testbit, at_slot_lookup, slot_of_rank. by destruct (N.testbit _ _).
Qed.

Lemma remove_branch k h map slots l :
  remove_node k h (Branch map slots) l =
    let idx := nibble h l in
    let slot := rank map idx in
    if N.testbit map (N.of_nat idx) then
      match slots !! slot ≫= λ c, remove_node k h c (S l) with
      | None => None
      | Some Missing => Some Missing
      | Some (Replace n v) => Some (Replace (Branch map (<[slot := n]> slots)) v)
      | Some (Removed n v) =>
          if is_empty_branch n then
            match delete slot slots with
            | [] => Some (Removed (Branch 0 []) v)
            | [only] => Some (Removed only v)
            | new_slots => Some (Removed (Branch (N.ldiff map (bit idx)) new_slots) v)
            end
          else Some (Removed (Branch map (<[slot := n]> slots)) v)
      end
    else Some Missing.
Proof.
  cbn [remove_node]. rewrite absent_testbit, at_slot_lookup, slot_of_rank. by destruct (N.testbit _ _).
Qed.

(** The child of a set bit exists, and is well-formed on its path. *)
Lemma wf_child l p map slots idx :
  wf l p (Branch map slots) → idx < 32 → N.testbit map (N.of_nat idx) = true →
  ∃ c, slots !! rank map idx = Some c ∧ wf (S l) (p + N.of_nat idx * 2 ^ (5 * N.of_nat l)) c.
Proof.
  intros Hwf Hidx Hbit. inversion Hwf as [|? ? ? ? Hp Hlen Hch]; subst.
  destruct (lookup_lt_is_Some_2 slots (rank map idx)) as [c Hc].
  { rewrite Hlen. by apply rank_lt. }
  exists c. split; [done|]. by apply Hch.
Qed.

Lemma wf_path_lt l p node : wf l p node → (p < 2 ^ (5 * N.of_nat l))%N.
Proof. destruct 1 as [? ? ? ? ? <-|]; [apply pre_lt|done]. Qed.

(** A lookup below the path never panics. *)
Lemma get_total k l p node : wf l p node → ∃ r, getk k node l = Some r.
Proof.
  induction 1 as [l p k' v Hk Hp|l p map slots Hp Hlen Hch IH]; [eexists; reflexivity|].
  rewrite get_branch. destruct (N.testbit _ _) eqn:E; [|eexists; reflexivity].
  pose proof (nibble_lt (hash128 k) l) as Hn.
  destruct (wf_child l p map slots (nibble (hash128 k) l)) as (c & Hc & _); [by constructor|done|done|].
  rewrite Hc. by eapply IH.
Qed.

Lemma leaf_get k k' v l :
  (k < two128)%N → getk k (Leaf (hash128 k') k' v) l = Some (if N.eqb k' k then Some v else None).
Proof.
  intros Hk. unfold getk. cbn. destruct (N.eqb_spec k' k) as [->|]; [by rewrite N.eqb_refl|].
  by rewrite andb_false_r.
Qed.

(** What an update of one key does to a subtrie. *)
Definition updates (k : N) (o : option V) (l : nat) (p : N) (node node' : Node V) : Prop :=
  wf l p node' ∧ getk k node' l = Some o ∧
  ∀ k', (k' < two128)%N → k' ≠ k → pre (hash128 k') l = p → getk k' node' l = getk k' node l.

Lemma bit_one_testbit idx i : N.testbit (bit idx) (N.of_nat i) = true ↔ i = idx.
Proof. rewrite testbit_bit, bool_decide_eq_true. done. Qed.

Lemma rank_bit idx j : rank (bit idx) j = if idx <? j then 1 else 0.
Proof.
  rewrite <- (N.lor_0_l (bit idx)), rank_set by apply N.bits_0.
  assert (rank 0 j = 0) as ->; [|done]. induction j as [|j IH]; [done|]. cbn [rank]. by rewrite IH, N.bits_0.
Qed.

(** Descending a singleton branch. *)
Lemma singleton_updates k o l p c c' :
  (p < 2 ^ (5 * N.of_nat l))%N → pre (hash128 k) l = p →
  (∀ k', getk k' c (S l) = getk k' c l) →
  (∀ k', (k' < two128)%N → pre (hash128 k') l = p → nibble (hash128 k') l ≠ nibble (hash128 k) l → getk k' c l = Some None) →
  updates k o (S l) (pre (hash128 k) (S l)) c c' →
  updates k o l p c (Branch (bit (nibble (hash128 k) l)) [c']).
Proof.
  intros Hp Hk Hlvl Hmiss (Hwf & Hget & Hoth). set (i := nibble (hash128 k) l) in *.
  assert (rank (bit i) i = 0) as Hr by (rewrite rank_bit, Nat.ltb_irrefl; done).
  pose proof (nibble_lt (hash128 k) l) as Hn. fold i in Hn.
  split; [|split].
  - constructor; [done| |].
    + rewrite rank_bit. by rewrite (proj2 (Nat.ltb_lt _ _)).
    + intros idx c0 _ ->%bit_one_testbit. rewrite Hr. intros [= <-].
      rewrite pre_S, Hk in Hwf. done.
  - rewrite get_branch. fold i. rewrite (proj2 (bit_one_testbit i i) eq_refl), Hr. done.
  - intros k' Hk' Hne Hpre. rewrite get_branch. destruct (N.testbit _ _) eqn:E.
    + apply bit_one_testbit in E. rewrite E, Hr. cbn. rewrite Hoth, Hlvl; [done|done|done|].
      rewrite !pre_S, Hpre, E, Hk. done.
    + rewrite Hmiss; [done|done|done|]. intros Heq. fold i in Heq. rewrite Heq in E.
      by rewrite (proj2 (bit_one_testbit i i) eq_refl) in E.
Qed.

(** A branch that separates two leaves. *)
Definition fork (o i : nat) (old new : Node V) : Node V :=
  Branch (N.lor (bit o) (bit i)) (if o <? i then [old; new] else [new; old]).

Lemma fork_bits o i j :
  N.testbit (N.lor (bit o) (bit i)) (N.of_nat j) = bool_decide (o = j) || bool_decide (i = j).
Proof. by rewrite N.lor_spec, !testbit_bit. Qed.

Lemma fork_rank o i j :
  o ≠ i → rank (N.lor (bit o) (bit i)) j = (if o <? j then 1 else 0) + if i <? j then 1 else 0.
Proof.
  intros Hne. rewrite rank_set, rank_bit; [done|]. rewrite testbit_bit. by apply bool_decide_eq_false.
Qed.

Lemma fork_slots o i (old new : Node V) :
  o ≠ i → let slots := if o <? i then [old; new] else [new; old] in
  slots !! rank (N.lor (bit o) (bit i)) o = Some old ∧ slots !! rank (N.lor (bit o) (bit i)) i = Some new.
Proof.
  intros Hne. cbv zeta. rewrite !fork_rank by done.
  destruct (Nat.ltb_spec o i), (Nat.ltb_spec i o), (Nat.ltb_spec i i), (Nat.ltb_spec o o); try lia; done.
Qed.

Lemma fork_updates k v k0 v0 l p :
  (k < two128)%N → (k0 < two128)%N → pre (hash128 k) l = p → pre (hash128 k0) l = p →
  nibble (hash128 k0) l ≠ nibble (hash128 k) l →
  updates k (Some v) l p (Leaf (hash128 k0) k0 v0)
    (fork (nibble (hash128 k0) l) (nibble (hash128 k) l) (Leaf (hash128 k0) k0 v0) (Leaf (hash128 k) k v)).
Proof.
  intros Hk Hk0 Hp Hp0 Hne. pose proof (nibble_lt (hash128 k) l). pose proof (nibble_lt (hash128 k0) l).
  assert (p < 2 ^ (5 * N.of_nat l))%N as Hplt by (rewrite <- Hp; apply pre_lt).
  assert (∀ k', pre (hash128 k') l = p → pre (hash128 k') (S l) = (p + N.of_nat (nibble (hash128 k') l) * 2 ^ (5 * N.of_nat l))%N) as HpS.
  { intros k' <-. apply pre_S. }
  destruct (fork_slots (nibble (hash128 k0) l) (nibble (hash128 k) l) (Leaf (hash128 k0) k0 v0) (Leaf (hash128 k) k v) Hne)
    as [Hso Hsi].
  unfold fork. split; [|split].
  - constructor; [done| |].
    + rewrite fork_rank by done. destruct (Nat.ltb_spec (nibble (hash128 k0) l) 32), (Nat.ltb_spec (nibble (hash128 k) l) 32); try lia.
      by case_match.
    + intros idx c _ Hb Hc. rewrite fork_bits in Hb. apply orb_prop in Hb as [<-%bool_decide_eq_true|<-%bool_decide_eq_true].
      * rewrite Hso in Hc. injection Hc as <-. constructor; [done|]. by apply HpS.
      * rewrite Hsi in Hc. injection Hc as <-. constructor; [done|]. by apply HpS.
  - rewrite get_branch, fork_bits, (bool_decide_true (nibble (hash128 k) l = _)), orb_true_r by done.
    rewrite Hsi. cbn [mbind option_bind]. by rewrite leaf_get, N.eqb_refl.
  - intros k' Hk' Hne' Hpre. rewrite get_branch, leaf_get, fork_bits by done.
    case_bool_decide as Ho; [rewrite <- Ho, Hso; cbn [orb mbind option_bind]; by rewrite leaf_get|].
    case_bool_decide as Hi; cbn [orb].
    + rewrite <- Hi, Hsi. cbn [mbind option_bind]. rewrite leaf_get by done.
      destruct (N.eqb_spec k k'), (N.eqb_spec k0 k'); congruence.
    + destruct (N.eqb_spec k0 k'); [subst; done|done].
Qed.

Lemma widen_spec fuel k v k0 v0 : ∀ l p,
  (k < two128)%N → (k0 < two128)%N → k0 ≠ k → pre (hash128 k) l = p → pre (hash128 k0) l = p →
  fuel = 26 - l →
  ∃ node' d, widen fuel (Leaf (hash128 k0) k0 v0) k v (hash128 k) (hash128 k0) l = Some (node', true, d) ∧
    updates k (Some v) l p (Leaf (hash128 k0) k0 v0) node'.
Proof.
  induction fuel as [|fuel IH]; intros l p Hk Hk0 Hne Hp Hp0 Hfuel.
  { exfalso. apply Hne. apply hash128_inj; [done..|]. apply (pre_full _ _ l); [lia|apply hash128_lt..|congruence]. }
  assert (p < 2 ^ (5 * N.of_nat l))%N as Hplt by (rewrite <- Hp; apply pre_lt).
  cbn [widen]. destruct (Nat.eqb_spec (nibble (hash128 k0) l) (nibble (hash128 k) l)) as [Heq|Hnib].
  - destruct (IH (S l) (pre (hash128 k) (S l))) as (node' & d & -> & Hupd); [done|done|done|done| |lia|].
    { rewrite !pre_S. congruence. }
    eexists _, _. split; [done|]. apply singleton_updates; [done|done|done| |done].
    intros k' Hk' _ Hn. rewrite leaf_get by done. destruct (N.eqb_spec k0 k'); [subst; done|done].
  - eexists _, _. split; [done|]. by apply fork_updates.
Qed.

(** The three ways a branch changes: a child is replaced, added, dropped. *)
Lemma replace_child k o l p map slots c c' :
  wf l p (Branch map slots) → pre (hash128 k) l = p →
  N.testbit map (N.of_nat (nibble (hash128 k) l)) = true →
  slots !! rank map (nibble (hash128 k) l) = Some c →
  updates k o (S l) (p + N.of_nat (nibble (hash128 k) l) * 2 ^ (5 * N.of_nat l)) c c' →
  updates k o l p (Branch map slots) (Branch map (<[rank map (nibble (hash128 k) l) := c']> slots)).
Proof.
  intros Hwf Hp Hbit Hc (Hwf' & Hget & Hoth). set (i := nibble (hash128 k) l) in *.
  inversion Hwf as [|? ? ? ? Hplt Hlen Hch]; subst p0 l0 map0 slots0.
  assert (rank map i < length slots) as Hlt by by eapply lookup_lt_Some.
  assert (∀ j, j ≠ i → N.testbit map (N.of_nat j) = true → rank map j ≠ rank map i) as Hinj.
  { intros j Hj Hb. destruct (Nat.lt_total j i) as [Hlt'|[->|Hlt']]; [|done|].
    - pose proof (rank_lt map j i Hlt' Hb). lia.
    - pose proof (rank_lt map i j Hlt' Hbit). lia. }
  split; [|split].
  - constructor; [done|by rewrite length_insert|]. intros j d Hj Hb.
    destruct (decide (j = i)) as [->|Hne].
    + rewrite list_lookup_insert_eq by done. intros [= <-]. done.
    + rewrite list_lookup_insert_ne by (by apply not_eq_sym, Hinj). by apply Hch.
  - rewrite get_branch. fold i. rewrite Hbit, list_lookup_insert_eq by done. done.
  - intros k' Hk' Hne Hpre. rewrite !get_branch. destruct (N.testbit map (N.of_nat (nibble (hash128 k') l))) eqn:E; [|done].
    destruct (decide (nibble (hash128 k') l = i)) as [Heq|Hnei].
    + rewrite Heq, list_lookup_insert_eq, Hc by done. cbn. apply Hoth; [done..|]. by rewrite pre_S, Hpre, Heq.
    + by rewrite list_lookup_insert_ne by (by apply not_eq_sym, Hinj).
Qed.

Lemma vec_insert_lookup {A} (l : list A) r x :
  r ≤ length l → vec_insert r x l !! r = Some x ∧
  (∀ j, j < r → vec_insert r x l !! j = l !! j) ∧ (∀ j, r ≤ j → vec_insert r x l !! S j = l !! j).
Proof.
  intros Hr. unfold vec_insert. assert (length (take r l) = r) as Hlen by (rewrite length_take; lia).
  split; [|split].
  - rewrite lookup_app_r by lia. by rewrite Hlen, Nat.sub_diag.
  - intros j Hj. rewrite lookup_app_l by lia. by rewrite lookup_take_lt.
  - intros j Hj. rewrite lookup_app_r by lia. rewrite Hlen. replace (S j - r) with (S (j - r)) by lia.
    change ((x :: drop r l) !! S (j - r)) with (drop r l !! (j - r)). rewrite lookup_drop. f_equal. lia.
Qed.

Lemma add_child k v l p map slots :
  wf l p (Branch map slots) → (k < two128)%N → pre (hash128 k) l = p →
  N.testbit map (N.of_nat (nibble (hash128 k) l)) = false →
  rank map (nibble (hash128 k) l) ≤ length slots ∧
  updates k (Some v) l p (Branch map slots)
    (Branch (N.lor map (bit (nibble (hash128 k) l)))
       (vec_insert (rank map (nibble (hash128 k) l)) (Leaf (hash128 k) k v) slots)).
Proof.
  intros Hwf Hk Hp Hbit. set (i := nibble (hash128 k) l) in *.
  inversion Hwf as [|? ? ? ? Hplt Hlen Hch]; subst p0 l0 map0 slots0.
  pose proof (nibble_lt (hash128 k) l : i < 32) as Hi.
  assert (rank map i ≤ length slots) as Hle by (rewrite Hlen; apply rank_mono; lia). split; [done|].
  destruct (vec_insert_lookup slots (rank map i) (Leaf (hash128 k) k v) Hle) as (Hat & Hlow & Hhigh).
  assert (∀ j, N.testbit (N.lor map (bit i)) (N.of_nat j) = N.testbit map (N.of_nat j) || bool_decide (i = j)) as Hb.
  { intros j. by rewrite N.lor_spec, testbit_bit. }
  assert (rank (N.lor map (bit i)) i = rank map i) as Hri by (rewrite rank_set, Nat.ltb_irrefl by done; lia).
  assert (∀ j, j ≠ i → N.testbit map (N.of_nat j) = true →
    vec_insert (rank map i) (Leaf (hash128 k) k v) slots !! rank (N.lor map (bit i)) j = slots !! rank map j) as Hj.
  { intros j Hne Hbj. rewrite rank_set by done. destruct (Nat.ltb_spec i j).
    - rewrite Nat.add_1_r. apply Hhigh, rank_mono. lia.
    - rewrite Nat.add_0_r. apply Hlow, rank_lt; [lia|done]. }
  split; [|split].
  - constructor; [done| |].
    + unfold vec_insert. rewrite rank_set by done. rewrite (proj2 (Nat.ltb_lt _ _)) by done.
      rewrite length_app, length_take. cbn [length]. rewrite length_drop. lia.
    + intros j d Hj32. rewrite Hb. case_bool_decide as Hij.
      * subst j. intros _. rewrite Hri, Hat. intros [= <-]. constructor; [done|]. by rewrite pre_S, Hp.
      * rewrite orb_false_r. intros Hbj. rewrite Hj by (congruence || done). by apply Hch.
  - rewrite get_branch. fold i. rewrite Hb, (bool_decide_true (i = i)), orb_true_r by done.
    rewrite Hri, Hat. cbn [mbind option_bind]. by rewrite leaf_get, N.eqb_refl.
  - intros k' Hk' Hne Hpre. rewrite !get_branch, Hb. case_bool_decide as Hij.
    + rewrite orb_true_r, <- Hij, Hri, Hat, Hbit. cbn [mbind option_bind]. rewrite leaf_get by done.
      destruct (N.eqb_spec k k'); congruence.
    + rewrite orb_false_r. destruct (N.testbit map (N.of_nat (nibble (hash128 k') l))) eqn:E; [|done]. by rewrite Hj by congruence || done.
Qed.

Lemma insert_spec k v l p node :
  wf l p node → (k < two128)%N → pre (hash128 k) l = p →
  ∃ node' added d, insert_node k v (hash128 k) node l = Some (node', added, d) ∧
    updates k (Some v) l p node node' ∧
    added = match getk k node l with Some None => true | _ => false end.
Proof.
  intros Hwf Hk. revert v. induction Hwf as [l p k0 v0 Hk0 Hp0|l p map slots Hp Hlen Hch IH]; intros v Hpk.
  - cbn [insert_node]. rewrite leaf_get by done. destruct (N.eqb_spec k0 k) as [->|Hne].
    + rewrite N.eqb_refl. cbn [andb]. eexists _, _, _. split; [done|]. split; [|done].
      split; [by constructor|]. split; [by rewrite leaf_get, N.eqb_refl|].
      intros k' Hk' Hne Hpre. rewrite !leaf_get by done. destruct (N.eqb_spec k k'); congruence.
    + rewrite andb_false_r. destruct (N.eqb_spec (hash128 k0) (hash128 k)) as [Heq|_].
      { exfalso. apply Hne. by apply hash128_inj. }
      destruct (widen_spec (26 - l) k v k0 v0 l p) as (node' & d & -> & Hupd); [done..|]. eauto 10.
  - rewrite insert_branch. cbv zeta. rewrite get_branch.
    pose proof (wf_branch _ _ _ _ Hp Hlen Hch) as Hwf. pose proof (nibble_lt (hash128 k) l) as Hn.
    destruct (N.testbit _ _) eqn:E.
    + destruct (wf_child _ _ _ _ _ Hwf Hn E) as (c & Hc & _). rewrite Hc. cbn [mbind option_bind].
      destruct (IH _ _ Hn E Hc v) as (c' & added & d & -> & Hupd & Hadd); [by rewrite pre_S, Hpk|].
      eexists _, _, _. split; [done|]. split; [|done]. by eapply replace_child.
    + destruct (add_child k v l p map slots Hwf Hk Hpk E) as [Hle Hupd].
      rewrite (proj2 (Nat.ltb_ge _ _)) by done. eauto 10.
Qed.

(** Does the removal of the key hoist a branch into a branch's place? *)
Fixpoint lifts_branch (k : N) (node : Node V) (l : nat) : bool :=
  match node with
  | Branch map slots =>
      let slot := rank map (nibble (hash128 k) l) in
      if N.testbit map (N.of_nat (nibble (hash128 k) l)) then
        ((fix at_slot (s : list (Node V)) (i : nat) : bool :=
            match s, i with [], _ => false | c :: _, O => lifts_branch k c (S l) | _ :: s', S i' => at_slot s' i' end)
           slots slot ||
         match slots !! slot ≫= λ c, remove_node k (hash128 k) c (S l) with
         | Some (Removed n _) =>
             is_empty_branch n && match delete slot slots with [Branch _ _] => true | _ => false end
         | _ => false
         end)%bool
      else false
  | _ => false
  end.

Lemma lifts_child k map slots l c :
  N.testbit map (N.of_nat (nibble (hash128 k) l)) = true → slots !! rank map (nibble (hash128 k) l) = Some c →
  lifts_branch k (Branch map slots) l = false → lifts_branch k c (S l) = false.
Proof.
  intros Hb Hc Hl. cbn [lifts_branch] in Hl. rewrite Hb in Hl. apply orb_false_iff in Hl as [Hl _].
  revert Hl Hc. generalize (rank map (nibble (hash128 k) l)). induction slots as [|c0 slots IH]; intros [|r]; cbn; try done.
  - congruence.
  - apply IH.
Qed.

Lemma remove_value k l p node :
  wf l p node → (k < two128)%N →
  match getk k node l with
  | Some (Some v) => ∃ n, remove_node k (hash128 k) node l = Some (Removed n v)
  | Some None => remove_node k (hash128 k) node l = Some Missing
  | None => False
  end.
Proof.
  intros Hwf Hk. induction Hwf as [l p k0 v0 Hk0 Hp0|l p map slots Hp Hlen Hch IH].
  - rewrite leaf_get by done. cbn. destruct (N.eqb_spec k0 k) as [->|Hne]; [rewrite N.eqb_refl; by eexists|].
    by rewrite andb_false_r.
  - rewrite remove_branch, get_branch. cbv zeta. destruct (N.testbit _ _) eqn:E; [|done].
    pose proof (nibble_lt (hash128 k) l) as Hn.
    destruct (wf_child l p map slots _ ltac:(by constructor) Hn E) as (c & Hc & _). rewrite Hc. cbn [mbind option_bind].
    specialize (IH _ _ Hn E Hc). destruct (getk k c (S l)) as [[v|]|]; [|by rewrite IH|done].
    destruct IH as [n ->]. destruct (is_empty_branch n); [|by eexists].
    destruct (delete _ slots) as [|? [|? ?]]; by eexists.
Qed.

Lemma rank_zero_bits map j i : rank map j = 0 → i < j → N.testbit map (N.of_nat i) = false.
Proof.
  intros Hr Hi. destruct (N.testbit map (N.of_nat i)) eqn:E; [|done]. pose proof (rank_lt map i j Hi E). lia.
Qed.

Lemma rank_some_bit map j : 0 < rank map j → ∃ i, i < j ∧ N.testbit map (N.of_nat i) = true.
Proof.
  induction j as [|j IH]; cbn; [lia|]. destruct (N.testbit map (N.of_nat j)) eqn:E; [by exists j; split; [lia|]|].
  rewrite Nat.add_0_r. intros (i & Hi & Hb)%IH. exists i. split; [lia|done].
Qed.

Lemma empty_branch_get k l p node : wf l p node → is_empty_branch node = true → getk k node l = Some None.
Proof.
  intros Hwf He. destruct node as [map [|]| |]; try done. inversion Hwf as [|? ? ? ? ? Hlen _]; subst.
  rewrite get_branch, (rank_zero_bits map 32); [done|done|apply nibble_lt].
Qed.

Lemma drop_child k l p map slots c :
  wf l p (Branch map slots) → pre (hash128 k) l = p →
  N.testbit map (N.of_nat (nibble (hash128 k) l)) = true →
  slots !! rank map (nibble (hash128 k) l) = Some c →
  (∀ k', (k' < two128)%N → k' ≠ k →
     pre (hash128 k') (S l) = (p + N.of_nat (nibble (hash128 k) l) * 2 ^ (5 * N.of_nat l))%N →
     getk k' c (S l) = Some None) →
  updates k None l p (Branch map slots)
    (Branch (N.ldiff map (bit (nibble (hash128 k) l))) (delete (rank map (nibble (hash128 k) l)) slots)).
Proof.
  intros Hwf Hp Hbit Hc Hnone. set (i := nibble (hash128 k) l) in *.
  inversion Hwf as [|? ? ? ? Hplt Hlen Hch]; subst p0 l0 map0 slots0.
  pose proof (nibble_lt (hash128 k) l : i < 32) as Hi.
  assert (∀ j, N.testbit (N.ldiff map (bit i)) (N.of_nat j) = N.testbit map (N.of_nat j) && negb (bool_decide (i = j))) as Hb.
  { intros j. by rewrite N.ldiff_spec, testbit_bit. }
  assert (∀ j, j ≠ i → N.testbit map (N.of_nat j) = true →
    delete (rank map i) slots !! rank (N.ldiff map (bit i)) j = slots !! rank map j) as Hj.
  { intros j Hne Hbj. pose proof (rank_clear map i j Hbit) as Hr. destruct (Nat.ltb_spec i j) as [Hij|Hij].
    - pose proof (rank_lt map i j Hij Hbit). rewrite list_lookup_delete_ge by lia. f_equal. lia.
    - pose proof (rank_lt map j i ltac:(lia) Hbj). rewrite list_lookup_delete_lt by lia. f_equal. lia. }
  split; [|split].
  - constructor; [done| |].
    + pose proof (rank_clear map i 32 Hbit) as Hr. rewrite (proj2 (Nat.ltb_lt _ _)) in Hr by done.
      rewrite length_delete by by eexists. lia.
    + intros j d Hj32. rewrite Hb. case_bool_decide as Hij; [by rewrite andb_false_r|]. rewrite andb_true_r.
      intros Hbj. rewrite Hj by (congruence || done). by apply Hch.
  - rewrite get_branch. fold i. by rewrite Hb, (bool_decide_true (i = i)), andb_false_r.
  - intros k' Hk' Hne Hpre. rewrite !get_branch, Hb. case_bool_decide as Hij.
    + rewrite andb_false_r, <- Hij, Hbit, Hc. cbn [mbind option_bind]. symmetry. apply Hnone; [done..|].
      by rewrite pre_S, Hpre, Hij.
    + rewrite andb_true_r. destruct (N.testbit map (N.of_nat (nibble (hash128 k') l))) eqn:E; [|done].
      by rewrite Hj by congruence || done.
Qed.

(** A branch without slots, or with one leaf, may be replaced by its content. *)
Lemma updates_empty k l p node map :
  updates k None l p node (Branch map []) → updates k None l p node (Branch 0 []).
Proof.
  intros (Hwf & Hget & Hoth). split; [|split]; [|done|].
  - inversion Hwf; subst. by constructor.
  - intros k' Hk' Hne Hpre. rewrite <- Hoth by done. rewrite (empty_branch_get k' l p _ Hwf) by done. done.
Qed.

Lemma updates_leaf k l p node map k1 v1 :
  (k < two128)%N → pre (hash128 k) l = p →
  updates k None l p node (Branch map [Leaf (hash128 k1) k1 v1]) → updates k None l p node (Leaf (hash128 k1) k1 v1).
Proof.
  intros Hk Hpk (Hwf & Hget & Hoth). inversion Hwf as [|? ? ? ? Hp Hlen Hch]; subst p0 l0 map0 slots.
  assert (∀ j, j < 32 → N.testbit map (N.of_nat j) = true → rank map j = 0) as Hr0.
  { intros j Hj Hb. pose proof (rank_lt map j 32 Hj Hb). cbn [length] in Hlen. lia. }
  assert (∃ j, j < 32 ∧ N.testbit map (N.of_nat j) = true) as (j & Hj & Hb).
  { apply rank_some_bit. rewrite <- Hlen. cbn. lia. }
  assert (wf (S l) (p + N.of_nat j * 2 ^ (5 * N.of_nat l)) (Leaf (hash128 k1) k1 v1)) as Hwl.
  { apply (Hch j); [done..|]. by rewrite Hr0. }
  inversion Hwl as [? ? ? ? Hk1 Hp1|]; subst. destruct (pre_S_eq _ _ _ _ Hp Hp1) as [Hpl Hnib].
  assert (∀ k', (k' < two128)%N → pre (hash128 k') l = pre (hash128 k) l →
    getk k' (Branch map [Leaf (hash128 k1) k1 v1]) l = getk k' (Leaf (hash128 k1) k1 v1) l) as Heq.
  { intros k' Hk' Hpre. rewrite get_branch. destruct (N.testbit map (N.of_nat (nibble (hash128 k') l))) eqn:E.
    - rewrite Hr0 by (apply nibble_lt || done). done.
    - rewrite leaf_get by done. destruct (N.eqb_spec k1 k') as [->|]; [|done].
      replace (nibble (hash128 k') l) with j in E by lia. congruence. }
  split; [by constructor|]. split; [by rewrite <- Heq|]. intros k' Hk' Hne Hpre. by rewrite <- Heq, Hoth.
Qed.

(** The only child of a branch that is not itself a branch is a leaf. *)
Lemma only_child_leaf l p map only :
  wf l p (Branch map [only]) → match only with Branch _ _ => False | _ => True end →
  ∃ k1 v1, only = Leaf (hash128 k1) k1 v1.
Proof.
  intros Hwf Honly. inversion Hwf as [|? ? ? ? Hp Hlen Hch]; subst.
  assert (∃ j, j < 32 ∧ N.testbit map (N.of_nat j) = true) as (j & Hj & Hb).
  { apply rank_some_bit. rewrite <- Hlen. cbn. lia. }
  pose proof (rank_lt map j 32 Hj Hb) as Hr. cbn [length] in Hlen.
  assert (wf (S l) (p + N.of_nat j * 2 ^ (5 * N.of_nat l)) only) as Hwo.
  { apply (Hch j); [done..|]. by replace (rank map j) with 0 by lia. }
  inversion Hwo; subst; [by eexists _, _|done].
Qed.

Lemma remove_spec k v l p node :
  wf l p node → (k < two128)%N → pre (hash128 k) l = p → lifts_branch k node l = false →
  getk k node l = Some (Some v) →
  ∃ n, remove_node k (hash128 k) node l = Some (Removed n v) ∧ updates k None l p node n.
Proof.
  intros Hwf Hk. induction Hwf as [l p k0 v0 Hk0 Hp0|l p map slots Hp Hlen Hch IH]; intros Hpk Hlift Hget.
  - rewrite leaf_get in Hget by done. destruct (N.eqb_spec k0 k) as [->|]; [|done]. injection Hget as <-.
    cbn [remove_node]. rewrite !N.eqb_refl. cbn [andb]. eexists. split; [done|].
    split; [|split; [done|]].
    + subst p. constructor; [apply pre_lt|done|]. intros idx c _. by rewrite N.bits_0.
    + intros k' Hk' Hne Hpre. rewrite leaf_get, get_branch, N.bits_0 by done. destruct (N.eqb_spec k k'); congruence.
  - pose proof (wf_branch _ _ _ _ Hp Hlen Hch) as Hwf. pose proof (nibble_lt (hash128 k) l) as Hn.
    rewrite get_branch in Hget. rewrite remove_branch. cbv zeta.
    destruct (N.testbit _ _) eqn:E; [|done].
    destruct (wf_child _ _ _ _ _ Hwf Hn E) as (c & Hc & _). rewrite Hc in *. cbn [mbind option_bind] in *.
    destruct (IH _ _ Hn E Hc) as (n & Hrem & Hupd); [by rewrite pre_S, Hpk|by eapply lifts_child|done|].
    rewrite Hrem. destruct (is_empty_branch n) eqn:Hempty; [|eexists; split; [done|by eapply replace_child]].
    destruct Hupd as (Hwn & Hgn & Hon).
    unshelve epose proof (drop_child k l p map slots c Hwf Hpk E Hc _) as Hdrop.
    { intros k' Hk' Hne Hpre. rewrite <- Hon by done. by eapply empty_branch_get. }
    cbn [lifts_branch] in Hlift. rewrite E, Hc in Hlift. cbn [mbind option_bind] in Hlift.
    rewrite Hrem, Hempty in Hlift. apply orb_false_iff in Hlift as [_ Hlift].
    destruct (delete _ slots) as [|only [|]] eqn:Hdel; (eexists; split; [done|]).
    + by eapply updates_empty.
    + destruct (only_child_leaf l p _ only (proj1 Hdrop)) as (k1 & v1 & ->); [by destruct only|].
      by eapply updates_leaf.
    + done.
Qed.

(** ** Visiting every entry *)

Lemma rank_surj map n r : r < rank map n → ∃ i, i < n ∧ N.testbit map (N.of_nat i) = true ∧ rank map i = r.
Proof.
  induction n as [|n IH]; cbn [rank]; [lia|]. intros Hr. destruct (decide (r < rank map n)) as [Hlt|Hge].
  - destruct (IH Hlt) as (i & Hi & ?). exists i. split; [lia|done].
  - destruct (N.testbit map (N.of_nat n)) eqn:E; [|lia]. exists n. split; [lia|]. split; [done|lia].
Qed.

Lemma NoDup_flat_map {A B} (f : A → list B) (l : list A) :
  (∀ i c, l !! i = Some c → NoDup (f c)) →
  (∀ i j c d y, l !! i = Some c → l !! j = Some d → y ∈ f c → y ∈ f d → i = j) → NoDup (flat_map f l).
Proof.
  induction l as [|x l IH]; intros Hnd Hdisj; cbn; [constructor|]. apply NoDup_app. split; [by apply (Hnd 0)|]. split.
  - intros y Hy Hy'. apply list_elem_of_In, in_flat_map in Hy' as (c & Hc & Hyc).
    apply list_elem_of_In, list_elem_of_lookup in Hc as [j Hj]. apply list_elem_of_In in Hyc.
    discriminate (Hdisj 0 (S j) x c y eq_refl Hj Hy Hyc).
  - apply IH; [intros i c; apply (Hnd (S i))|]. intros i j c d y Hi Hj Hc Hd.
    by injection (Hdisj (S i) (S j) c d y Hi Hj Hc Hd).
Qed.

Lemma fmap_flat_map {A B C} (g : B → C) (f : A → list B) (l : list A) :
  g <$> flat_map f l = flat_map (λ x, g <$> f x) l.
Proof. induction l as [|x l IH]; [done|]. cbn [flat_map]. by rewrite fmap_app, IH. Qed.

Lemma walk_spec l p node :
  wf l p node →
  (∀ k v, (k, v) ∈ walk node ↔ (k < two128)%N ∧ pre (hash128 k) l = p ∧ getk k node l = Some (Some v)) ∧
  NoDup (walk node).*1.
Proof.
  induction 1 as [l p k0 v0 Hk0 Hp0|l p map slots Hp Hlen Hch IH].
  - split; [|apply NoDup_singleton]. intros k v. cbn [walk]. rewrite list_elem_of_singleton. split.
    + intros [= -> ->]. by rewrite leaf_get, N.eqb_refl.
    + intros (Hk & Hpk & Hg). rewrite leaf_get in Hg by done. destruct (N.eqb_spec k0 k); congruence.
  - assert (∀ r c, slots !! r = Some c → ∃ i, i < 32 ∧ N.testbit map (N.of_nat i) = true ∧ rank map i = r ∧
      (∀ k v, (k, v) ∈ walk c → nibble (hash128 k) l = i)) as Hidx.
    { intros r c Hc. destruct (rank_surj map 32 r) as (i & Hi & Hb & <-).
      { rewrite <- Hlen. by eapply lookup_lt_Some. }
      exists i. split_and!; [done..|]. intros k v (_ & Hpk & _)%(IH i c Hi Hb Hc).
      apply pre_S_eq in Hpk as [_ ?]; [lia|done]. }
    split.
    + intros k v. cbn [walk]. rewrite list_elem_of_In, in_flat_map, get_branch. split.
      * intros (c & Hin & Hkv). apply list_elem_of_In in Hkv. apply list_elem_of_In, list_elem_of_lookup in Hin as [r Hc].
        destruct (Hidx r c Hc) as (i & Hi & Hb & <- & Hnib). pose proof (Hnib k v Hkv) as Hn.
        apply (IH i c Hi Hb Hc) in Hkv as (Hk & Hpk & Hg). apply pre_S_eq in Hpk as [Hpl _]; [|done].
        split_and!; [done|done|]. by rewrite Hn, Hb, Hc.
      * intros (Hk & Hpk & Hg). destruct (N.testbit _ _) eqn:E; [|done]. pose proof (nibble_lt (hash128 k) l) as Hn.
        destruct (slots !! _) as [c|] eqn:Hc; [|done]. exists c. split; [by eapply list_elem_of_In, list_elem_of_lookup_2|].
        apply list_elem_of_In, (IH _ c Hn E Hc). split_and!; [done| |done]. by rewrite pre_S, Hpk.
    + cbn [walk]. rewrite fmap_flat_map. apply NoDup_flat_map.
      * intros r c Hc. destruct (Hidx r c Hc) as (i & Hi & Hb & <- & _). apply (IH i c Hi Hb Hc).
      * intros r r' c c' k Hc Hc' Hk Hk'.
        destruct (Hidx r c Hc) as (i & Hi & Hb & <- & Hnib), (Hidx r' c' Hc') as (i' & Hi' & Hb' & <- & Hnib').
        apply list_elem_of_fmap in Hk as ([k1 v] & -> & Hk), Hk' as ([k1' v'] & [= ->] & Hk').
        by rewrite <- (Hnib _ _ Hk), <- (Hnib' _ _ Hk').
Qed.

(** ** The trie as a finite map *)

Definition represents (t : Hamt V) (m : gmap N V) : Prop :=
  wf 0 0 (root t) ∧ (∀ k, (k < two128)%N → hamt_get t k = Some (m !! k)) ∧
  (∀ k v, m !! k = Some v → (k < two128)%N) ∧ hlen t = size m.

Lemma pre_0 h : pre h 0 = 0%N.
Proof. apply N.mod_1_r. Qed.

Lemma represents_new : represents hamt_new ∅.
Proof.
  split; [|done]. constructor; [done|done|]. intros idx c _. by rewrite N.bits_0.
Qed.

Lemma represents_insert t m k v :
  represents t m → (k < two128)%N → ∃ t', hamt_insert t k v = Some t' ∧ represents t' (<[k := v]> m).
Proof.
  intros (Hwf & Hget & Hdom & Hlen) Hk. unfold hamt_insert.
  destruct (insert_spec k v 0 0 (root t) Hwf Hk (pre_0 _)) as (n & added & d & -> & (Hwf' & Hgk & Hoth) & Hadd).
  eexists. split; [done|]. unfold getk in *. split; [done|]. split; [|split].
  - intros k' Hk'. unfold hamt_get. cbn [root]. destruct (decide (k' = k)) as [->|Hne].
    + by rewrite lookup_insert_eq.
    + rewrite lookup_insert_ne by done. rewrite Hoth by (done || apply pre_0). by apply Hget.
  - intros k' v' Hm. destruct (decide (k' = k)) as [->|Hne]; [done|]. rewrite lookup_insert_ne in Hm by done. by eapply Hdom.
  - cbn [hlen]. rewrite map_size_insert, Hlen, Hadd. pose proof (Hget k Hk) as Hg. unfold hamt_get in Hg. rewrite Hg.
    destruct (m !! k); cbn; lia.
Qed.

Lemma represents_remove t m k :
  represents t m → (k < two128)%N → lifts_branch k (root t) 0 = false →
  ∃ t', hamt_remove t k = Some (t', m !! k) ∧ represents t' (delete k m).
Proof.
  intros (Hwf & Hget & Hdom & Hlen) Hk Hlift. unfold hamt_remove.
  pose proof (remove_value k 0 0 (root t) Hwf Hk) as Hval. pose proof (Hget k Hk) as Hg. unfold hamt_get in Hg.
  unfold getk in Hval. rewrite Hg in Hval. destruct (m !! k) as [v|] eqn:Em.
  - destruct (remove_spec k v 0 0 (root t) Hwf Hk (pre_0 _) Hlift Hg) as (n & -> & Hwf' & Hgk & Hoth).
    eexists. split; [done|]. split; [done|]. split; [|split].
    + intros k' Hk'. unfold hamt_get. cbn [root]. destruct (decide (k' = k)) as [->|Hne].
      * by rewrite lookup_delete_eq.
      * rewrite lookup_delete_ne by done. unfold getk in Hoth. rewrite Hoth by (done || apply pre_0). by apply Hget.
    + intros k' v' [_ ?]%lookup_delete_Some. by eapply Hdom.
    + cbn [hlen]. rewrite map_size_delete, Em, Hlen. lia.
  - rewrite Hval. exists t. split; [done|]. rewrite delete_id by done. done.
Qed.
End refinement.

(** The hash is injective on 128-bit keys, so two different keys never meet
    in a collision node. *)
Theorem hash128_injective (k k' : N) :
  (k < two128)%N → (k' < two128)%N → hash128 k = hash128 k' → k = k'.
Proof. apply hash128_inj. Qed.

Lemma hash128_injective_witness : hash128 7 = hash128 (3 + 4) ∧ (7 = 3 + 4)%N.
Proof. split; [reflexivity|]. apply (hash128_injective 7 (3 + 4)); reflexivity. Defined.

(** C38: [insert] refines map insertion. On a trie that represents [m], it
    returns (no index out of range, no widening past the hash) a trie that
    represents [<[k := v]> m], its cached length included. *)
Theorem insert_refines {V} (t : Hamt V) (m : gmap N V) (k : N) (v : V) :
  represents t m → (k < two128)%N → ∃ t', hamt_insert t k v = Some t' ∧ represents t' (<[k := v]> m).
Proof. apply represents_insert. Qed.

Lemma insert_refines_witness :
  represents (V := bool) hamt_new ∅ ∧ ∃ t', hamt_insert hamt_new 5 true = Some t' ∧ represents t' (<[5%N := true]> ∅).
Proof. split; [apply represents_new|]. apply (insert_refines hamt_new ∅ 5 true); [apply represents_new|reflexivity]. Defined.

(** [remove] refines map deletion and returns the bound value, provided the
    collapse of one-slot branches does not lift a branch. *)
Theorem remove_refines {V} (t : Hamt V) (m : gmap N V) (k : N) :
  represents t m → (k < two128)%N → lifts_branch k (root t) 0 = false →
  ∃ t', hamt_remove t k = Some (t', m !! k) ∧ represents t' (delete k m).
Proof. apply represents_remove. Qed.

(** Inserting a list of keys, each bound to itself. *)
Definition hamt_of (ks : list N) : option (Hamt N) :=
  foldl (λ t k, match t with Some t => hamt_insert t k k | None => None end) (Some hamt_new) ks.

Lemma hamt_of_represents ks :
  Forall (λ k, (k < two128)%N) ks → ∃ t m, hamt_of ks = Some t ∧ represents t m.
Proof.
  induction ks as [|k ks IH] using rev_ind; intros Hks; [eexists _, _; split; [done|apply represents_new]|].
  apply Forall_app in Hks as [Hks [Hk _]%Forall_cons_iff]. destruct (IH Hks) as (t & m & Ht & Hr).
  unfold hamt_of in *. rewrite foldl_app, Ht. cbn. destruct (represents_insert t m k k Hr Hk) as (t' & ? & ?). eauto.
Qed.

Lemma remove_refines_witness :
  ∃ t m, hamt_of [4; 10]%N = Some t ∧ represents t m ∧
    ∃ t', hamt_remove t 4 = Some (t', m !! 4%N) ∧ represents t' (delete 4%N m).
Proof.
  destruct (hamt_of_represents [4; 10]%N) as (t & m & Ht & Hr); [by repeat constructor|].
  exists t, m. split; [exact Ht|]. split; [exact Hr|].
  apply (remove_refines t m 4 Hr); [reflexivity|]. vm_compute in Ht. injection Ht as <-. vm_compute. reflexivity.
Defined.

(** [for_each] visits every binding exactly once. *)
Theorem walk_visits_all {V} (t : Hamt V) (m : gmap N V) :
  represents t m → walk (root t) ≡ₚ map_to_list m.
Proof.
  intros (Hwf & Hget & Hdom & _). destruct (walk_spec 0 0 (root t) Hwf) as [Hin Hnd].
  apply NoDup_Permutation; [by eapply NoDup_fmap_1|apply NoDup_map_to_list|].
  intros [k v]. rewrite Hin, elem_of_map_to_list. unfold getk, hamt_get in *. split.
  - intros (Hk & _ & Hg). rewrite Hget in Hg by done. congruence.
  - intros Hm. assert (k < two128)%N as Hk by by eapply Hdom.
    split_and!; [done|apply pre_0|]. rewrite Hget by done. congruence.
Qed.

Lemma walk_visits_all_witness : walk (V := bool) (root hamt_new) ≡ₚ map_to_list (∅ : gmap N bool).
Proof. apply (walk_visits_all hamt_new ∅). apply represents_new. Defined.

(** The collapse of a one-slot branch loses keys. Keys 4 and 10 share the
    first nibble and sit in a branch below the root; removing key 1 lifts that
    branch into the root, where it is indexed by the wrong nibble: both keys
    become unreachable though [len] still counts them. *)
Theorem remove_loses_keys :
  ∃ t t', hamt_of [4; 10; 1]%N = Some t ∧ hamt_get t 4 = Some (Some 4%N) ∧ hamt_get t 10 = Some (Some 10%N) ∧
    hamt_remove t 1 = Some (t', Some 1%N) ∧ hlen t' = 2 ∧ hamt_get t' 4 = Some None ∧ hamt_get t' 10 = Some None.
Proof. eexists _, _. vm_compute. split_and!; reflexivity. Qed.
