(* ===== verification/RecordLog.v ===== *)
(** * The small-file record journal ([lionfs/src/recordlog/mod.rs])

    The append side writes self-describing records into a sink; replay reads an
    image back and stops at the first record that is incomplete or fails its
    checksum. The CRC is third-party code and enters as a function argument.
    Replaying any prefix of a written log (a crash at any byte) gives exactly
    the records that fit in the prefix. *)
From S2P Require Import Prelude.
From Stdlib Require Import NArith ZArith Lia Strings.Byte.
From stdpp Require Import base numbers option list.
#[local] Open Scope nat_scope.

Module RecordLog.

Definition LOG_MAGIC : list byte := [x4c; x46; x53; x52].
Definition LOG_VERSION : byte := x01.
Definition HEADER_BYTES : nat := 40.
Definition SMALL_FILE_MAX : nat := 4032.

Inductive RecordType := Create | Data | Delete | Truncate | Commit | Checkpoint.

#[export] Instance RecordType_eq_dec : EqDecision RecordType.
Proof. solve_decision. Defined.

(** [kind as u8] *)
Definition tag (k : RecordType) : byte :=
  match k with Create => x01 | Data => x02 | Delete => x03 | Truncate => x04 | Commit => x05 | Checkpoint => x06 end.

Definition from_tag (t : byte) : option RecordType :=
  match t with
  | x01 => Some Create | x02 => Some Data | x03 => Some Delete | x04 => Some Truncate
  | x05 => Some Commit | x06 => Some Checkpoint | _ => None
  end.

Record LogEntry := mkLogEntry {
  kind : RecordType; file_id : N; offset : N; sequence : N; payload : list byte }.

Inductive TailState := Torn | Corrupt.

Record DecodedHeader := mkHeader {
  h_kind : RecordType; h_file_id : N; h_offset : N; h_sequence : N; h_payload_len : nat; h_total : nat }.

Record ReplayStats := mkStats { applied : N; bytes : N; last_sequence : N; tail : option TailState }.

(** What the log needs of [W: Write]: [write_all] and [flush], each with its
    success; a failed write may have written a part. *)
Class Sink (W : Type) := {
  write_all : W → list byte → W * bool;
  flush : W → W * bool
}.

(** [Write for Vec<u8>]: both always succeed. *)
#[export] Instance vec_sink : Sink (list byte) :=
  {| write_all w b := (w ++ b, true); flush w := (w, true) |}.

Record RecordLog (W : Type) := mkLog {
  sink : W; log_sequence : N; bytes_since_checkpoint : N; records_since_checkpoint : N;
  last_kind : option RecordType }.
Arguments mkLog {W}.
Arguments sink {W}.
Arguments log_sequence {W}.
Arguments bytes_since_checkpoint {W}.
Arguments records_since_checkpoint {W}.
Arguments last_kind {W}.

(** The [io::Error] of a refused record, or the sink's own. *)
Inductive AppendError := InvalidInput | SinkError.

Definition log_new {W} (w : W) : RecordLog W := mkLog w 0 0 0 None.

(** [src[i..j]] *)
Definition slice (i j : nat) (src : list byte) : list byte := take (j - i) (drop i src).

Definition decode_header (src : list byte) : TailState + option DecodedHeader :=
  match src with
  | [] => inr None
  | _ =>
      if length src <? HEADER_BYTES then inl Torn
      else if negb (bool_decide (slice 0 4 src = LOG_MAGIC) && bool_decide (nth 4 src x00 = LOG_VERSION))%bool
      then inl Corrupt
      else
        match from_tag (nth 5 src x00) with
        | None => inl Corrupt
        | Some kind =>
            let file_id := of_le (slice 12 20 src) in
            let offset := of_le (slice 20 28 src) in
            let sequence := of_le (slice 28 36 src) in
            let payload_len := N.to_nat (of_le (slice 36 40 src)) in
            let total := HEADER_BYTES + payload_len + 4 in
            if length src <? total then inl Torn
            else inr (Some (mkHeader kind file_id offset sequence payload_len total))
        end
  end.

(** The two admission rules of [append]. *)
Definition admissible (k : RecordType) (payload : list byte) : bool :=
  match k with
  | Create | Data => negb (SMALL_FILE_MAX <? length payload)
  | Delete | Truncate => bool_decide (payload = [])
  | Commit | Checkpoint => true
  end.

Section crc.
Variable crc32 : list byte → N.

Definition encode_record (k : RecordType) (file_id offset sequence : N) (payload : list byte) : list byte :=
  let buf := LOG_MAGIC ++ [LOG_VERSION; tag k] ++ replicate 2 x00 ++ replicate 4 x00
             ++ le_bytes 8 file_id ++ le_bytes 8 offset ++ le_bytes 8 sequence
             ++ le_bytes 4 (N.of_nat (length payload)) ++ payload in
  buf ++ le_bytes 4 (crc32 buf).

Definition append {W} `{!Sink W} (log : RecordLog W) (k : RecordType) (file_id offset : N) (payload : list byte)
    : RecordLog W * (AppendError + N) :=
  if negb (admissible k payload) then (log, inl InvalidInput)
  else
    let seq := log_sequence log in
    let wire := encode_record k file_id offset seq payload in
    let '(w, ok) := write_all (sink log) wire in
    if negb ok then
      (mkLog w seq (bytes_since_checkpoint log) (records_since_checkpoint log) (last_kind log), inl SinkError)
    else
      (mkLog w (wadd64 seq 1) (wadd64 (bytes_since_checkpoint log) (N.of_nat (length wire)))
         (wadd64 (records_since_checkpoint log) 1) (Some k), inr seq).

Definition set_sink {W} (w : W) (log : RecordLog W) : RecordLog W :=
  mkLog w (log_sequence log) (bytes_since_checkpoint log) (records_since_checkpoint log) (last_kind log).

Definition commit {W} `{!Sink W} (log : RecordLog W) : RecordLog W * (AppendError + N) :=
  match append log Commit 0 0 [] with
  | (log, inl e) => (log, inl e)
  | (log, inr seq) =>
      let '(w, ok) := flush (sink log) in
      (set_sink w log, if ok then inr seq else inl SinkError)
  end.

Definition mark_checkpoint {W} `{!Sink W} (log : RecordLog W) (drained_through : N) : RecordLog W * (AppendError + N) :=
  match append log Checkpoint 0 drained_through [] with
  | (log, inl e) => (log, inl e)
  | (log, inr seq) =>
      let log := mkLog (sink log) (log_sequence log) 0 0 (last_kind log) in
      let '(w, ok) := flush (sink log) in
      (set_sink w log, if ok then inr seq else inl SinkError)
  end.

Definition checkpoint_due {W} (log : RecordLog W) (byte_budget record_budget : N) : bool :=
  ((byte_budget <=? bytes_since_checkpoint log)%N ||
   (record_budget <=? records_since_checkpoint log)%N ||
   (bool_decide (last_kind log = Some Commit) &&
    (1 <? records_since_checkpoint log)%N && (0 <? bytes_since_checkpoint log)%N))%bool.

(** One pass over the rest of the image; [None] when the fuel runs out. *)
Fixpoint replay_loop (fuel : nat) (rest : list byte) (out : list LogEntry) (stats : ReplayStats)
    : option (list LogEntry * ReplayStats) :=
  match fuel with
  | O => None
  | S fuel =>
      match decode_header rest with
      | inr None => Some (out, stats)
      | inl state => Some (out, mkStats (applied stats) (bytes stats) (last_sequence stats) (Some state))
      | inr (Some hdr) =>
          let body := slice HEADER_BYTES (HEADER_BYTES + h_payload_len hdr) rest in
          let crc_wire := of_le (slice (h_total hdr - 4) (h_total hdr) rest) in
          if negb (N.eqb (crc32 (take (h_total hdr - 4) rest)) crc_wire) then
            Some (out, mkStats (applied stats) (bytes stats) (last_sequence stats) (Some Torn))
          else
            replay_loop fuel (drop (h_total hdr) rest)
              (out ++ [mkLogEntry (h_kind hdr) (h_file_id hdr) (h_offset hdr) (h_sequence hdr) body])
              (mkStats (wadd64 (applied stats) 1) (wadd64 (bytes stats) (N.of_nat (h_total hdr)))
                 (h_sequence hdr) (tail stats))
      end
  end.

(** Every pass consumes at least 44 bytes. *)
Definition replay (image : list byte) : option (list LogEntry * ReplayStats) :=
  replay_loop (S (length image)) image [] (mkStats 0 0 0 None).
End crc.

(** ** Decoding what was encoded *)

Definition entry_ok (e : LogEntry) : Prop :=
  (file_id e < two64)%N ∧ (offset e < two64)%N ∧ (sequence e < two64)%N ∧
  (N.of_nat (length (payload e)) < 4294967296)%N.

Definition wire_len (e : LogEntry) : nat := HEADER_BYTES + length (payload e) + 4.

(** The records of [es] that lie within the first [m] bytes. *)
Fixpoint fits (m : nat) (es : list LogEntry) : list LogEntry :=
  match es with
  | [] => []
  | e :: es => if wire_len e <=? m then e :: fits (m - wire_len e) es else []
  end.

Definition total_len (es : list LogEntry) : nat := sum_list_with wire_len es.

Definition count_entry (st : ReplayStats) (e : LogEntry) : ReplayStats :=
  mkStats (wadd64 (applied st) 1) (wadd64 (bytes st) (N.of_nat (wire_len e))) (sequence e) (tail st).

Definition set_tail (t : option TailState) (st : ReplayStats) : ReplayStats :=
  mkStats (applied st) (bytes st) (last_sequence st) t.

Definition header_of (e : LogEntry) : DecodedHeader :=
  mkHeader (kind e) (file_id e) (offset e) (sequence e) (length (payload e)) (wire_len e).

Lemma slice_take i j m src : j ≤ m → slice i j (take m src) = slice i j src.
Proof.
  intros Hm. unfold slice. rewrite skipn_firstn_comm, take_take. f_equal. lia.
Qed.

Lemma nth_take i m (src : list byte) d : i < m → nth i (take m src) d = nth i src d.
Proof. intros Hi. rewrite !nth_lookup. by rewrite lookup_take_lt. Qed.

Lemma of_le_small n x : (x < 256 ^ N.of_nat n)%N → of_le (le_bytes n x) = x.
Proof. intros Hx. rewrite of_le_le_bytes. by apply N.mod_small. Qed.

Lemma of_le_u64 x : (x < two64)%N → of_le (le_bytes 8 x) = x.
Proof. intros Hx. apply of_le_small. exact Hx. Qed.
Lemma of_le_u32 x : (x < 4294967296)%N → of_le (le_bytes 4 x) = x.
Proof. intros Hx. apply of_le_small. exact Hx. Qed.

Lemma from_tag_tag k : from_tag (tag k) = Some k.
Proof. by destruct k. Qed.

Section crc_proofs.
Variable crc32 : list byte → N.
Hypothesis crc32_range : ∀ l, (crc32 l < 4294967296)%N.

Definition wire (e : LogEntry) : list byte :=
  encode_record crc32 (kind e) (file_id e) (offset e) (sequence e) (payload e).

Lemma length_wire e : length (wire e) = wire_len e.
Proof.
  unfold wire, encode_record, wire_len, HEADER_BYTES. cbv zeta. rewrite !length_app, !length_le_bytes. cbn. lia.
Qed.

(** A record cut short reads as torn, a complete one as itself. *)
Lemma decode_wire e m more :
  entry_ok e → take m (wire e ++ more) ≠ [] →
  decode_header (take m (wire e ++ more)) =
    if length (take m (wire e ++ more)) <? wire_len e then inl Torn else inr (Some (header_of e)).
Proof.
  intros (Hf & Ho & Hs & Hp) Hne. set (src := take m (wire e ++ more)) in *.
  destruct src as [|b src'] eqn:Hsrc; [done|]. cbn [decode_header]. rewrite <- Hsrc.
  assert (HEADER_BYTES ≤ wire_len e) as Hmin by (unfold wire_len; lia).
  destruct (Nat.ltb_spec (length src) HEADER_BYTES) as [Hshort|Hlong].
  { destruct (Nat.ltb_spec (length src) (wire_len e)); [done|lia]. }
  assert (HEADER_BYTES ≤ m) as Hm by (unfold src in Hlong; rewrite length_take in Hlong; lia).
  unfold HEADER_BYTES in *.
  assert (∀ i j, j ≤ 40 → slice i j src = slice i j (wire e ++ more)) as Hsl by (intros; apply slice_take; lia).
  assert (∀ i, i < 40 → nth i src x00 = nth i (wire e ++ more) x00) as Hnth by (intros; apply nth_take; lia).
  rewrite !Hsl, !Hnth by lia.
  change (slice 0 4 (wire e ++ more)) with LOG_MAGIC. change (nth 4 (wire e ++ more) x00) with LOG_VERSION.
  change (nth 5 (wire e ++ more) x00) with (tag (kind e)). rewrite !bool_decide_true, from_tag_tag by done. cbn [andb negb].
  change (slice 12 20 (wire e ++ more)) with (le_bytes 8 (file_id e)).
  change (slice 20 28 (wire e ++ more)) with (le_bytes 8 (offset e)).
  change (slice 28 36 (wire e ++ more)) with (le_bytes 8 (sequence e)).
  change (slice 36 40 (wire e ++ more)) with (le_bytes 4 (N.of_nat (length (payload e)))).
  cbv zeta. rewrite !of_le_u64, of_le_u32, Nat2N.id by assumption. reflexivity.
Qed.

Lemma slice_app (a b c : list byte) i j : i = length a → j = length a + length b → slice i j (a ++ b ++ c) = b.
Proof.
  intros -> ->. unfold slice. rewrite drop_app_length. replace (_ + _ - _) with (length b) by lia. apply take_app_length.
Qed.

(** Reading one complete record. *)
Lemma replay_record fuel e rest out st :
  entry_ok e →
  replay_loop crc32 (S fuel) (wire e ++ rest) out st = replay_loop crc32 fuel rest (out ++ [e]) (count_entry st e).
Proof.
  intros He. cbn [replay_loop]. pose proof (length_wire e) as Hlen.
  assert (decode_header (wire e ++ rest) = inr (Some (header_of e))) as ->.
  { rewrite <- (firstn_all (wire e ++ rest)) at 1. rewrite decode_wire, firstn_all by
      (done || (rewrite firstn_all; by destruct (wire e) eqn:E)).
    rewrite length_app, Hlen. destruct (Nat.ltb_spec (wire_len e + length rest) (wire_len e)); [lia|done]. }
  cbn [h_payload_len h_total header_of h_kind h_file_id h_offset h_sequence].
  set (buf := LOG_MAGIC ++ [LOG_VERSION; tag (kind e)] ++ replicate 2 x00 ++ replicate 4 x00
    ++ le_bytes 8 (file_id e) ++ le_bytes 8 (offset e) ++ le_bytes 8 (sequence e)
    ++ le_bytes 4 (N.of_nat (length (payload e)))).
  assert (length buf = HEADER_BYTES) as Hbuf by done.
  assert (wire e = (buf ++ payload e) ++ le_bytes 4 (crc32 (buf ++ payload e))) as Hw.
  { unfold wire, encode_record. cbv zeta. unfold buf. by rewrite <- !app_assoc. }
  assert (length (buf ++ payload e) = wire_len e - 4) as Hbp by (rewrite length_app, Hbuf; unfold wire_len; lia).
  assert (take (wire_len e - 4) (wire e ++ rest) = buf ++ payload e) as ->.
  { rewrite Hw, <- app_assoc, <- Hbp. apply take_app_length. }
  assert (slice (wire_len e - 4) (wire_len e) (wire e ++ rest) = le_bytes 4 (crc32 (buf ++ payload e))) as ->.
  { rewrite Hw, <- app_assoc. apply slice_app; [done|]. rewrite Hbp, length_le_bytes. unfold wire_len, HEADER_BYTES. lia. }
  rewrite of_le_u32 by apply crc32_range. rewrite N.eqb_refl. cbn [negb].
  assert (slice HEADER_BYTES (HEADER_BYTES + length (payload e)) (wire e ++ rest) = payload e) as ->.
  { rewrite Hw, <- !app_assoc. by apply slice_app. }
  assert (drop (wire_len e) (wire e ++ rest) = rest) as -> by (rewrite <- Hlen; apply drop_app_length).
  by destruct e.
Qed.

(** The image of a crash after [m] bytes of the log of [es]. *)
Lemma replay_cut es : ∀ m fuel out st,
  Forall entry_ok es → m ≤ length (flat_map wire es) → m < fuel → tail st = None →
  replay_loop crc32 fuel (take m (flat_map wire es)) out st =
    Some (out ++ fits m es,
          set_tail (if decide (total_len (fits m es) = m) then None else Some Torn) (foldl count_entry st (fits m es))).
Proof.
  induction es as [|e es IH]; intros m fuel out st Hes Hm Hfuel Hst; (destruct fuel as [|fuel]; [lia|]).
  { cbn in Hm. replace m with 0 by lia. cbn. rewrite app_nil_r. destruct st; cbn in *. by subst. }
  apply Forall_cons_iff in Hes as [He Hes]. cbn [flat_map fits]. pose proof (length_wire e) as Hlen.
  cbn [flat_map] in Hm. rewrite length_app, Hlen in Hm.
  destruct (Nat.leb_spec (wire_len e) m) as [Hfit|Hcut].
  - rewrite take_app, take_ge, Hlen, replay_record, IH by (done || lia || unfold wire_len in *; lia).
    cbn [foldl total_len sum_list_with]. rewrite <- app_assoc. do 3 f_equal.
    unfold total_len. cbn [sum_list_with]. repeat case_decide; (done || lia).
  - cbn [foldl]. rewrite app_nil_r. cbn [replay_loop]. destruct (decide (m = 0)) as [->|Hnz].
    { cbn. destruct st; cbn in *. by subst. }
    assert (length (take m (wire e ++ flat_map wire es)) = m) as Hl by (rewrite length_take, length_app, Hlen; lia).
    rewrite decode_wire, Hl; [|done|intros Hnil; rewrite Hnil in Hl; cbn in Hl; lia].
    rewrite (proj2 (Nat.ltb_lt _ _)) by done. rewrite decide_False by (cbn; lia). done.
Qed.

(** ** Whole runs of the append side *)

Inductive log_op :=
  | OpAppend (k : RecordType) (file_id offset : N) (payload : list byte)
  | OpCommit
  | OpCheckpoint (drained_through : N).

Definition apply_op {W} `{!Sink W} (log : RecordLog W) (op : log_op) : RecordLog W :=
  match op with
  | OpAppend k f o p => (append crc32 log k f o p).1
  | OpCommit => (commit crc32 log).1
  | OpCheckpoint d => (mark_checkpoint crc32 log d).1
  end.

Definition op_ok (op : log_op) : Prop :=
  match op with
  | OpAppend _ f o p => (f < two64)%N ∧ (o < two64)%N ∧ (N.of_nat (length p) < 4294967296)%N
  | OpCommit => True
  | OpCheckpoint d => (d < two64)%N
  end.

(** The records a run writes, numbered in order; refused appends write none. *)
Fixpoint written (seq : N) (ops : list log_op) : list LogEntry :=
  match ops with
  | [] => []
  | OpAppend k f o p :: ops =>
      if admissible k p then mkLogEntry k f o seq p :: written (seq + 1) ops else written seq ops
  | OpCommit :: ops => mkLogEntry Commit 0 0 seq [] :: written (seq + 1) ops
  | OpCheckpoint d :: ops => mkLogEntry Checkpoint 0 d seq [] :: written (seq + 1) ops
  end.

Lemma written_ok ops : ∀ seq,
  Forall op_ok ops → (seq + N.of_nat (length ops) < two64)%N → Forall entry_ok (written seq ops).
Proof.
  induction ops as [|op ops IH]; intros seq Hops Hseq; [done|].
  apply Forall_cons_iff in Hops as [Hop Hops]. cbn [length] in Hseq.
  assert (Forall entry_ok (written (seq + 1) ops) ∧ Forall entry_ok (written seq ops)) as [H1 H2]
    by (split; apply IH; (done || lia)).
  destruct op as [k f o p| |d]; cbn [written]; [destruct (admissible k p); [|done]|..];
    (apply Forall_cons_iff; split; [|done]); cbn in *; split_and!; cbn; try easy; lia.
Qed.

(** The bytes in a vector sink are the written records. *)
Lemma run_sink ops : ∀ (log : RecordLog (list byte)),
  (log_sequence log + N.of_nat (length ops) < two64)%N →
  sink (foldl apply_op log ops) = sink log ++ flat_map wire (written (log_sequence log) ops).
Proof.
  induction ops as [|op ops IH]; intros log Hseq; [by rewrite app_nil_r|]. cbn [length] in Hseq.
  cbn [foldl]. assert (∀ log' e, log_sequence log' = wadd64 (log_sequence log) 1 → sink log' = sink log ++ wire e →
    sink (foldl apply_op log' ops) = sink log ++ flat_map wire (e :: written (log_sequence log + 1) ops)) as Hstep.
  { intros log' e Hs Hw. rewrite wadd64_small in Hs by lia. rewrite IH, Hs, Hw by lia. by rewrite <- app_assoc. }
  destruct op as [k f o p| |d]; cbn [written apply_op].
  - destruct (admissible k p) eqn:Ha; [|unfold append; rewrite Ha; apply IH; cbn; lia].
    by apply Hstep; unfold append; rewrite Ha.
  - by apply Hstep.
  - by apply Hstep.
Qed.
End crc_proofs.



(** ** Arbitrary images *)

(** A chunk of the image that replay reads as the record [e]. *)
Definition is_record (crc32 : list byte → N) (chunk : list byte) (e : LogEntry) : Prop :=
  length chunk = wire_len e ∧
  decode_header chunk = inr (Some (mkHeader (kind e) (file_id e) (offset e) (sequence e) (length (payload e)) (wire_len e))) ∧
  payload e = slice HEADER_BYTES (HEADER_BYTES + length (payload e)) chunk ∧
  crc32 (take (wire_len e - 4) chunk) = of_le (slice (wire_len e - 4) (wire_len e) chunk).

Lemma decode_header_total src hdr :
  decode_header src = inr (Some hdr) → h_total hdr = HEADER_BYTES + h_payload_len hdr + 4 ∧ h_total hdr ≤ length src.
Proof.
  unfold decode_header. intros Hd. destruct src as [|b src]; [done|].
  destruct (length (b :: src) <? HEADER_BYTES); [done|]. destruct (negb _); [done|].
  destruct (from_tag _); [|done]. cbv zeta in Hd.
  destruct (Nat.ltb_spec (length (b :: src)) (HEADER_BYTES + N.to_nat (of_le (slice 36 40 (b :: src))) + 4)); [done|].
  injection Hd as <-. cbn. done.
Qed.

(** Decoding depends only on the record's own bytes. *)
Lemma decode_header_take src hdr :
  decode_header src = inr (Some hdr) → decode_header (take (h_total hdr) src) = inr (Some hdr).
Proof.
  intros Hd. pose proof (decode_header_total src hdr Hd) as [Htot Hle].
  assert (length (take (h_total hdr) src) = h_total hdr) as Hlen by (rewrite length_take; lia).
  unfold HEADER_BYTES in *.
  assert (∀ i j, j ≤ 40 → slice i j (take (h_total hdr) src) = slice i j src) as Hsl by (intros; apply slice_take; lia).
  assert (∀ i, i < 40 → nth i (take (h_total hdr) src) x00 = nth i src x00) as Hnth by (intros; apply nth_take; lia).
  set (cut := take (h_total hdr) src) in *. unfold decode_header in *.
  destruct cut as [|b' cut'] eqn:Ecut; [cbn in Hlen; lia|]. rewrite <- Ecut in *.
  destruct src as [|b src']; [done|]. set (src := b :: src') in *. rewrite !Hsl, !Hnth, Hlen by lia.
  destruct (length src <? HEADER_BYTES); [done|]. destruct (Nat.ltb_spec (h_total hdr) HEADER_BYTES); [unfold HEADER_BYTES in *; lia|].
  destruct (negb _); [done|]. destruct (from_tag _); [|done]. cbv zeta in *.
  destruct (length src <? _); [done|]. injection Hd as <-. cbn [h_total]. by rewrite Nat.ltb_irrefl.
Qed.

Lemma replay_loop_sound crc32 fuel : ∀ rest out st,
  length rest < fuel → tail st = None →
  ∃ chunks es left tl, replay_loop crc32 fuel rest out st = Some (out ++ es, set_tail tl (foldl count_entry st es)) ∧
    rest = concat chunks ++ left ∧ Forall2 (is_record crc32) chunks es ∧ (tl = None ↔ left = []).
Proof.
  induction fuel as [|fuel IH]; intros rest out st Hfuel Hst; [lia|]. cbn [replay_loop].
  assert (∀ tl, (tl = None ↔ rest = []) → ∃ chunks es left tl',
    Some (out, set_tail tl st) = Some (out ++ es, set_tail tl' (foldl count_entry st es)) ∧
    rest = concat chunks ++ left ∧ Forall2 (is_record crc32) chunks es ∧ (tl' = None ↔ left = [])) as Hstop.
  { intros tl Htl. exists [], [], rest, tl. rewrite app_nil_r. auto. }
  destruct (decode_header rest) as [state|[hdr|]] eqn:Hd.
  - apply (Hstop (Some state)). split; [done|]. intros ->. done.
  - pose proof (decode_header_total rest hdr Hd) as [Htot Hle].
    destruct (N.eqb_spec (crc32 (take (h_total hdr - 4) rest)) (of_le (slice (h_total hdr - 4) (h_total hdr) rest)))
      as [Hcrc|Hcrc]; cbn [negb]; [|apply (Hstop (Some Torn)); split; [done|intros ->; done]].
    set (e := mkLogEntry _ _ _ _ _). unfold HEADER_BYTES in *.
    assert (length (payload e) = h_payload_len hdr) as Hpl.
    { unfold e, slice. cbn. rewrite length_take, length_drop. lia. }
    assert (wire_len e = h_total hdr) as Hwl by (unfold wire_len, HEADER_BYTES; lia). rewrite <- Hwl.
    destruct (IH (drop (wire_len e) rest) (out ++ [e]) (count_entry st e)) as (chunks & es & left & tl & Heq & Hrest & Hrec & Htl);
      [rewrite length_drop; lia|done|].
    exists (take (wire_len e) rest :: chunks), (e :: es), left, tl. split; [|split; [|split; [|done]]].
    + etrans; [exact Heq|]. by rewrite <- app_assoc.
    + cbn [concat]. rewrite <- app_assoc, <- Hrest. symmetry. apply take_drop.
    + constructor; [|done]. split; [rewrite length_take; lia|]. rewrite Hwl, Hpl. split; [|split].
      * rewrite decode_header_take by done. by destruct hdr.
      * unfold HEADER_BYTES. rewrite slice_take by lia. done.
      * rewrite slice_take, take_take by lia. by rewrite Nat.min_l by lia.
  - assert (set_tail None st = st) as Hst' by (destruct st; cbn in *; by subst).
    assert (rest = []) as Hnil.
    { unfold decode_header in Hd. destruct rest; [done|]. repeat case_match; done. }
    specialize (Hstop None). rewrite Hst' in Hstop. by apply Hstop.
Qed.

End RecordLog.
