(* ===== verification/Transaction.v ===== *)
(** * Transactions and their block overlay ([lionfs/src/transaction/transaction.rs])

    A transaction collects dirty blocks; a context reads through its own dirty
    blocks, then through the frozen groups still in flight (newest first), then
    from the disk. The device itself is a parameter: [d_read] is
    [Disk::read_block] ([None] is an I/O error); the in-memory mirrors of the
    disk ([frozen_roots], [live_barrier]) are data. *)
From S2P Require Import Prelude.
From Stdlib Require Import NArith ZArith Lia Strings.Byte.
From stdpp Require Import base numbers gmap option list.
#[local] Open Scope nat_scope.

Definition BLOCK_SIZE : nat := 4096.

Record Transaction := mkTx {
  tx_id : N;
  dirty_blocks : gmap N (list byte);
  timestamp : N;
  root_cells : gmap N N;
  alloc_delta : Z
}.

Definition tx_new (id ts : N) : Transaction := mkTx id ∅ ts ∅ 0.

Definition add_block (block_num : N) (data : list byte) (tx : Transaction) : Transaction :=
  mkTx (tx_id tx) (<[block_num := data]> (dirty_blocks tx)) (timestamp tx) (root_cells tx) (alloc_delta tx).

(** The disk as its callers see it: contents and the in-memory mirrors. *)
Record Disk := mkDisk {
  d_read : N → option (list byte);
  live_barrier : N;
  frozen_roots : N * N * N
}.

Definition frozen_root_slot (node_type : N) : option nat :=
  if N.eqb node_type 1 then Some 0
  else if N.eqb node_type 2 then Some 1
  else if N.eqb node_type 5 then Some 2
  else None.

Definition slot_get (r : N * N * N) (slot : nat) : N :=
  match slot with 0 => r.1.1 | 1 => r.1.2 | _ => r.2 end.
Definition slot_set (r : N * N * N) (slot : nat) (x : N) : N * N * N :=
  match slot with 0 => (x, r.1.2, r.2) | 1 => (r.1.1, x, r.2) | _ => (r.1.1, r.1.2, x) end.

Definition frozen_root (d : Disk) (node_type : N) : option N :=
  match frozen_root_slot node_type with
  | None => None
  | Some slot => let r := slot_get (frozen_roots d) slot in if N.eqb r 0 then None else Some r
  end.

Definition set_frozen_root (node_type root : N) (d : Disk) : Disk :=
  match frozen_root_slot node_type with
  | None => d
  | Some slot => mkDisk (d_read d) (live_barrier d) (slot_set (frozen_roots d) slot root)
  end.

Record TxContext := mkCtx {
  disk : Disk;
  tx : Transaction;
  pending : list Transaction;
  alloc_cursor : option N;
  meta_high_water : N;
  cow_barrier : N
}.

Definition ctx_new (d : Disk) (t : Transaction) : TxContext := mkCtx d t [] None 0 0.

Definition with_pending (p : list Transaction) (ctx : TxContext) : TxContext :=
  mkCtx (disk ctx) (tx ctx) p (alloc_cursor ctx) (meta_high_water ctx) (cow_barrier ctx).
Definition with_cow_barrier (b : N) (ctx : TxContext) : TxContext :=
  mkCtx (disk ctx) (tx ctx) (pending ctx) (alloc_cursor ctx) (meta_high_water ctx) b.
Definition effective_cow_barrier (ctx : TxContext) : N := N.max (cow_barrier ctx) (live_barrier (disk ctx)).

Definition effective_root (ctx : TxContext) (node_type default_root : N) : N :=
  match root_cells (tx ctx) !! node_type with
  | Some r => r
  | None => match frozen_root (disk ctx) node_type with Some r => r | None => default_root end
  end.

Definition set_root_cell (node_type root : N) (ctx : TxContext) : TxContext :=
  let t := tx ctx in
  mkCtx (set_frozen_root node_type root (disk ctx))
    (mkTx (tx_id t) (dirty_blocks t) (timestamp t) (<[node_type := root]> (root_cells t)) (alloc_delta t))
    (pending ctx) (alloc_cursor ctx) (meta_high_water ctx) (cow_barrier ctx).

(** The first overlay of [ps] that holds the block. *)
Fixpoint find_pending (block : N) (ps : list Transaction) : option (list byte) :=
  match ps with
  | [] => None
  | p :: ps => match dirty_blocks p !! block with Some data => Some data | None => find_pending block ps end
  end.

Definition read_block (ctx : TxContext) (block : N) : option (list byte) :=
  match dirty_blocks (tx ctx) !! block with
  | Some data => Some data
  | None => match find_pending block (rev (pending ctx)) with
            | Some data => Some data
            | None => d_read (disk ctx) block
            end
  end.

Definition set_tx (t : Transaction) (ctx : TxContext) : TxContext :=
  mkCtx (disk ctx) t (pending ctx) (alloc_cursor ctx) (meta_high_water ctx) (cow_barrier ctx).

Definition write_block (block : N) (buf : list byte) (ctx : TxContext) : TxContext :=
  set_tx (add_block block buf (tx ctx)) ctx.

Definition set_cursor (c : option N) (ctx : TxContext) : TxContext :=
  mkCtx (disk ctx) (tx ctx) (pending ctx) c (meta_high_water ctx) (cow_barrier ctx).
Definition set_high_water (h : N) (ctx : TxContext) : TxContext :=
  mkCtx (disk ctx) (tx ctx) (pending ctx) (alloc_cursor ctx) h (cow_barrier ctx).
Definition add_delta (d : Z) (ctx : TxContext) : TxContext :=
  let t := tx ctx in
  set_tx (mkTx (tx_id t) (dirty_blocks t) (timestamp t) (root_cells t) (alloc_delta t + d)%Z) ctx.

(** ** Reads see the latest write *)

Lemma read_write_eq ctx block buf : read_block (write_block block buf ctx) block = Some buf.
Proof. unfold read_block. cbn. by rewrite lookup_insert_eq. Qed.

Lemma read_write_ne ctx block block' buf :
  block ≠ block' → read_block (write_block block buf ctx) block' = read_block ctx block'.
Proof. intros Hne. unfold read_block. cbn. by rewrite lookup_insert_ne. Qed.

Lemma read_cursor c ctx block : read_block (set_cursor c ctx) block = read_block ctx block.
Proof. done. Qed.
Lemma read_high_water h ctx block : read_block (set_high_water h ctx) block = read_block ctx block.
Proof. done. Qed.
Lemma read_delta d ctx block : read_block (add_delta d ctx) block = read_block ctx block.
Proof. done. Qed.

Create Rewrite HintDb tx.
#[export] Hint Rewrite read_write_eq read_cursor read_high_water read_delta : tx.

Lemma find_pending_app block ps ps' :
  find_pending block (ps ++ ps') =
    match find_pending block ps with Some d => Some d | None => find_pending block ps' end.
Proof. induction ps as [|p ps IH]; cbn; [done|]. by destruct (_ !! _). Qed.

(** The block a reader sees after the groups [older ++ [newest]] are frozen on
    top of the disk, with the newest freeze applied to it or still pending. *)
Definition apply_tx (t : Transaction) (d : Disk) : Disk :=
  mkDisk (λ b, match dirty_blocks t !! b with Some data => Some data | None => d_read d b end)
    (live_barrier d) (frozen_roots d).

Lemma find_pending_apply b ps (r : option (list byte)) :
  match find_pending b (rev ps) with Some d => Some d | None => r end =
  foldl (λ acc p, match dirty_blocks p !! b with Some d => Some d | None => acc end) r ps.
Proof.
  revert r. induction ps as [|p ps IH]; intros r; [done|]. cbn [rev foldl].
  rewrite find_pending_app, <- IH. cbn. destruct (find_pending b (rev ps)); [done|]. by destruct (_ !! _).
Qed.

Lemma d_read_apply b ps d :
  d_read (foldl (λ d p, apply_tx p d) d ps) b =
  foldl (λ acc p, match dirty_blocks p !! b with Some data => Some data | None => acc end) (d_read d b) ps.
Proof. revert d. induction ps as [|p ps IH]; intros d; [done|]. cbn [foldl]. by rewrite IH. Qed.

(** Overlays linearize the pipeline. Reading through a context whose oldest
    pending groups [older] have already been applied to the disk (in order, but
    not yet retired) gives the same block as reading with them applied and
    retired: a reader never sees a state between two groups. *)
Theorem pending_reads_linearize (ctx : TxContext) (older newer : list Transaction) (block : N) :
  read_block (with_pending (older ++ newer) ctx) block =
  read_block (with_pending newer
    (mkCtx (foldl (λ d p, apply_tx p d) (disk ctx) older) (tx ctx) [] (alloc_cursor ctx)
       (meta_high_water ctx) (cow_barrier ctx))) block.
Proof.
  unfold read_block. cbn. destruct (dirty_blocks (tx ctx) !! block); [done|].
  by rewrite !find_pending_apply, d_read_apply, foldl_app.
Qed.

Definition with_disk (d : Disk) (ctx : TxContext) : TxContext :=
  mkCtx d (tx ctx) (pending ctx) (alloc_cursor ctx) (meta_high_water ctx) (cow_barrier ctx).

Lemma find_pending_none block ps :
  find_pending block ps = None → Forall (λ p, dirty_blocks p !! block = None) ps.
Proof.
  induction ps as [|p ps IH]; cbn; [done|]. intros Hf. destruct (dirty_blocks p !! block) eqn:E; [done|].
  constructor; auto.
Qed.

(** a group being applied is never visible half-way. If the disk changes
    only at blocks some pending group holds (with any contents there: the
    apply loop may be anywhere, or torn), every read is unaffected. *)
Theorem pending_hides_apply (ctx : TxContext) (d' : Disk) (block : N) :
  (∀ b, Forall (λ p, dirty_blocks p !! b = None) (pending ctx) → d_read d' b = d_read (disk ctx) b) →
  read_block (with_disk d' ctx) block = read_block ctx block.
Proof.
  intros Hd. unfold read_block. cbn. destruct (dirty_blocks (tx ctx) !! block); [done|].
  destruct (find_pending block (rev (pending ctx))) eqn:E; [done|].
  apply Hd. apply find_pending_none, Forall_rev in E. by rewrite rev_involutive in E.
Qed.

Lemma pending_hides_apply_witness :
  let t := add_block 7 [x61] (tx_new 1 0) in
  let d := mkDisk (λ _, Some [x00]) 0 (0, 0, 0)%N in
  let torn := mkDisk (λ b, if N.eqb b 7 then None else Some [x00]) 0 (0, 0, 0)%N in
  let ctx := with_pending [t] (ctx_new d (tx_new 2 0)) in
  read_block (with_disk torn ctx) 7 = read_block ctx 7.
Proof.
  cbv zeta. apply (pending_hides_apply (with_pending [add_block 7 [x61] (tx_new 1 0)]
    (ctx_new (mkDisk (λ _, Some [x00]) 0 (0, 0, 0)%N) (tx_new 2 0)))).
  intros b Hb. cbn. destruct (N.eqb_spec b 7) as [->|]; [|done].
  exfalso. apply Forall_inv in Hb. discriminate Hb.
Defined.
