(* ===== verification/Journal.v ===== *)
(** * The transaction journal: commit and recovery
    ([lionfs/src/transaction/manager.rs], [lionfs/src/recovery/recovery.rs],
    [lionfs/src/recovery/replay.rs])

    [commit] writes a transaction's blocks to the journal, syncs, writes them
    in place and syncs again; [recover] scans the journal and replays the
    newest run of consecutive transactions. The disk is what survives
    ([stable]) and the writes since the last sync ([cache]); a crash keeps any
    subset of those, block by block. [compute_checksum] is crc32fast's and a
    parameter. *)
From S2P Require Import Prelude OrdMap Transaction.
From Stdlib Require Import NArith ZArith Lia Strings.Byte Sorting.Sorted.
From stdpp Require Import base numbers gmap option sorting list.
#[local] Open Scope N_scope.

#[local] Abbreviation block := (list byte).

(** ** The disk and its crashes *)
Inductive dop := DWrite (b : N) (v : block) | DSync.

Record JDisk := mkJD { stable : N → block; cache : list (N * block) }.

Fixpoint cached (b : N) (c : list (N * block)) : option block :=
  match c with [] => None | (b', v) :: c => if b' =? b then Some v else cached b c end.

Definition view (d : JDisk) (b : N) : block := default (stable d b) (cached b (cache d)).

Definition exec (d : JDisk) (o : dop) : JDisk :=
  match o with
  | DWrite b v => mkJD (stable d) ((b, v) :: cache d)
  | DSync => mkJD (view d) []
  end.

Abbreviation run_ops := (foldl exec).

(** What may be on the disk after a crash. *)
Definition crashed (d : JDisk) (c : N → block) : Prop := ∀ b, c b = stable d b ∨ (b, c b) ∈ cache d.

(** [write_contiguous_run] of whole blocks. *)
Fixpoint write_run (start : N) (bufs : list block) : list dop :=
  match bufs with [] => [] | v :: bufs => DWrite start v :: write_run (start + 1) bufs end.

(** ** On-disk structures *)
Record Superblock := mkSb { journal_start : N; journal_blocks : N; generation : N }.

Definition JOURNAL_MAGIC : N := 0x4A4F55524E414C31.

Record JournalHeader := mkHeader {
  jh_magic : N; jh_version : N; jh_entry_count : N; jh_tx_id : N; jh_timestamp : N; jh_checksum : N;
  jh_padding_csum : N; jh_padding : list byte
}.

Record JournalRecordHeader := mkRecHeader {
  jr_tx_id : N; jr_physical_block : N; jr_checksum : N; jr_padding : N; jr_padding2 : list byte
}.

Record JournalFooter := mkFooter {
  jf_magic : N; jf_tx_id : N; jf_total_records : N; jf_checksum : N; jf_padding : list byte
}.

(** [bytes_of] *)
Definition header_bytes (h : JournalHeader) : block :=
  le_bytes 8 (jh_magic h) ++ le_bytes 4 (jh_version h) ++ le_bytes 4 (jh_entry_count h) ++ le_bytes 8 (jh_tx_id h) ++
  le_bytes 8 (jh_timestamp h) ++ le_bytes 4 (jh_checksum h) ++ le_bytes 4 (jh_padding_csum h) ++ jh_padding h.

Definition rec_header_bytes (r : JournalRecordHeader) : block :=
  le_bytes 8 (jr_tx_id r) ++ le_bytes 8 (jr_physical_block r) ++ le_bytes 4 (jr_checksum r) ++ le_bytes 4 (jr_padding r) ++ jr_padding2 r.

Definition footer_bytes (f : JournalFooter) : block :=
  le_bytes 8 (jf_magic f) ++ le_bytes 8 (jf_tx_id f) ++ le_bytes 4 (jf_total_records f) ++ le_bytes 4 (jf_checksum f) ++ jf_padding f.

(** [pod_read_unaligned] *)
Definition field (off n : nat) (b : block) : N := of_le (take n (drop off b)).

Definition read_header (b : block) : JournalHeader :=
  mkHeader (field 0 8 b) (field 8 4 b) (field 12 4 b) (field 16 8 b) (field 24 8 b) (field 32 4 b) (field 36 4 b) (drop 40 b).
Definition read_rec_header (b : block) : JournalRecordHeader :=
  mkRecHeader (field 0 8 b) (field 8 8 b) (field 16 4 b) (field 20 4 b) (drop 24 b).
Definition read_footer (b : block) : JournalFooter :=
  mkFooter (field 0 8 b) (field 8 8 b) (field 16 4 b) (field 20 4 b) (drop 24 b).

Definition set_h_checksum (c : N) (h : JournalHeader) : JournalHeader :=
  mkHeader (jh_magic h) (jh_version h) (jh_entry_count h) (jh_tx_id h) (jh_timestamp h) c (jh_padding_csum h) (jh_padding h).
Definition set_f_checksum (c : N) (f : JournalFooter) : JournalFooter :=
  mkFooter (jf_magic f) (jf_tx_id f) (jf_total_records f) c (jf_padding f).

Definition zero_bytes (n : nat) : list byte := replicate n x00.

(** [slice::chunks], for a positive size. *)
Fixpoint chunks {A} (fuel : nat) (n : nat) (l : list A) : list (list A) :=
  match fuel, l with
  | S fuel, _ :: _ => take n l :: chunks fuel n (drop n l)
  | _, _ => []
  end.

Section journal.
Context (compute_checksum : list byte → N).

(** ** Commit *)
Definition journal_header (tx : Transaction) (entry_count : N) : JournalHeader :=
  let h := mkHeader JOURNAL_MAGIC 1 entry_count (tx_id tx) (timestamp tx) 0 0 (zero_bytes (BLOCK_SIZE - 40)) in
  set_h_checksum (compute_checksum (header_bytes h)) h.

Definition record_header (tx : Transaction) (p_block : N) (data : block) : JournalRecordHeader :=
  mkRecHeader (tx_id tx) p_block (compute_checksum data) 0 (zero_bytes (BLOCK_SIZE - 24)).

Definition journal_footer (tx : Transaction) (total : N) : JournalFooter :=
  let f := mkFooter JOURNAL_MAGIC (tx_id tx) total 0 (zero_bytes (BLOCK_SIZE - 24)) in
  set_f_checksum (compute_checksum (footer_bytes f)) f.

Definition block_of (tx : Transaction) (p_block : N) : block := default [] (dirty_blocks tx !! p_block).

(** The journal blocks of one chunk of keys; [le_bytes 4] makes its count the
    [u32] of the code, and [write_chunk] wraps the number of blocks. *)
Definition chunk_payload (tx : Transaction) (chunk : list N) : list block :=
  let n := N.of_nat (length chunk) in
  header_bytes (journal_header tx n) ::
  concat (map (λ p_block, [rec_header_bytes (record_header tx p_block (block_of tx p_block)); block_of tx p_block]) chunk) ++
  [footer_bytes (journal_footer tx n)].

Definition write_chunk (sb : Superblock) (payload : list block) (current_j_block : N) : list dop * N :=
  let total_journal_blocks := N.of_nat (length payload) mod 2 ^ 32 in
  if 0 <? journal_blocks sb then
    let start_idx := current_j_block mod journal_blocks sb in
    let blocks_to_end := journal_blocks sb - start_idx in
    (if total_journal_blocks <=? blocks_to_end then write_run (journal_start sb + start_idx) payload
     else write_run (journal_start sb + start_idx) (take (N.to_nat blocks_to_end) payload) ++
          write_run (journal_start sb) (drop (N.to_nat blocks_to_end) payload),
     current_j_block + total_journal_blocks)
  else ([], current_j_block).

Fixpoint write_chunks (sb : Superblock) (tx : Transaction) (cs : list (list N)) (current_j_block : N) : list dop * N :=
  match cs with
  | [] => ([], current_j_block)
  | c :: cs =>
      let '(ops, j) := write_chunk sb (chunk_payload tx c) current_j_block in
      let '(ops', j') := write_chunks sb tx cs j in
      (ops ++ ops', j')
  end.

(** The runs of consecutive keys of the in-place phase. *)
Fixpoint take_run (prev : N) (keys : list N) : list N * list N :=
  match keys with
  | [] => ([], [])
  | k :: keys' =>
      if k =? wadd64 prev 1 then let '(run, rest) := take_run k keys' in (k :: run, rest) else ([], keys)
  end.

Fixpoint apply_runs (fuel : nat) (tx : Transaction) (keys : list N) : list dop :=
  match fuel, keys with
  | S fuel, run_start :: keys =>
      let '(run, rest) := take_run run_start keys in
      match run with
      | [] => [DWrite run_start (block_of tx run_start)]
      | _ => write_run run_start (map (block_of tx) (run_start :: run))
      end ++ apply_runs fuel tx rest
  | _, _ => []
  end.

Definition sorted_keys (tx : Transaction) : list N := merge_sort N.le (map fst (map_to_list (dirty_blocks tx))).

Definition max_records (sb : Superblock) : nat :=
  if 2 <? journal_blocks sb then N.to_nat ((journal_blocks sb - 2) / 2) else 1.

(** The disk operations of [commit] and the next journal block. [None] is the
    panic of [chunks] at size 0. *)
Definition commit (sb : Superblock) (next_journal_block : N) (tx : Transaction) : option (list dop * N) :=
  if bool_decide (dirty_blocks tx = ∅) then Some ([], next_journal_block)
  else
    let keys := sorted_keys tx in
    if (max_records sb =? 0)%nat then None
    else
      let '(jops, current_j_block) := write_chunks sb tx (chunks (length keys) (max_records sb) keys) next_journal_block in
      let next := if 0 <? journal_blocks sb then current_j_block mod journal_blocks sb else next_journal_block in
      Some (jops ++ [DSync] ++ apply_runs (length keys) tx keys ++ [DSync], next).

(** ** Recovery *)
Definition header_ok (b : block) : bool :=
  (field 0 8 b =? JOURNAL_MAGIC) &&
  (let h := read_header b in compute_checksum (header_bytes (set_h_checksum 0 h)) =? jh_checksum h).

Definition footer_ok (id : N) (b : block) : bool :=
  let f := read_footer b in
  (jf_magic f =? JOURNAL_MAGIC) && (jf_tx_id f =? id) &&
  (compute_checksum (footer_bytes (set_f_checksum 0 f)) =? jf_checksum f).

(** The record loop: the records and the block after them, or [None] when it
    runs past the journal or a checksum does not match. *)
Fixpoint scan_records (fuel : nat) (jb : N) (J : N → block) (count temp_block : N) : option (list (N * block) * N) :=
  if count =? 0 then Some ([], temp_block)
  else
    match fuel with
    | O => None
    | S fuel =>
        if jb <=? temp_block then None
        else
          let rec_header := read_rec_header (J temp_block) in
          let temp_block := temp_block + 1 in
          if jb <=? temp_block then None
          else
            let data_buf := J temp_block in
            let temp_block := temp_block + 1 in
            if compute_checksum data_buf =? jr_checksum rec_header then
              '(records, t) ← scan_records fuel jb J (count - 1) temp_block;
              Some ((jr_physical_block rec_header, data_buf) :: records, t)
            else None
    end.

(** A complete transaction at [current_block]: id, records, its footer. *)
Definition scan_tx (jb : N) (J : N → block) (current_block : N) : option (N * list (N * block) * N) :=
  if header_ok (J current_block) then
    let header := read_header (J current_block) in
    '(records, t) ← scan_records (N.to_nat jb) jb J (jh_entry_count header) (current_block + 1);
    if (t <? jb) && footer_ok (jh_tx_id header) (J t) then Some (jh_tx_id header, records, t) else None
  else None.

Definition or_insert (id : N) (records : list (N * block)) (m : list (N * list (N * block))) : list (N * list (N * block)) :=
  match om_get id m with Some _ => m | None => om_insert id records m end.

(** The scan of the journal: the transactions found and the highest id. *)
Fixpoint scan (fuel : nat) (jb : N) (J : N → block) (current_block : N) (m : list (N * list (N * block))) (highest : N) :
    list (N * list (N * block)) * N :=
  match fuel with
  | O => (m, highest)
  | S fuel =>
      if current_block <? jb then
        match scan_tx jb J current_block with
        | Some (id, records, t) => scan fuel jb J (t + 1) (or_insert id records m) (if highest <? id then id else highest)
        | None => scan fuel jb J (current_block + 1) m highest
        end
      else (m, highest)
  end.

(** The consecutive ids at the end, from the reversed list. *)
Fixpoint consecutive (ids : list N) : list N :=
  match ids with
  | x :: (y :: _) as ids' => if wadd64 y 1 =? x then x :: consecutive ids' else [x]
  | _ => ids
  end.

Definition replay_ids (sb : Superblock) (m : list (N * list (N * block))) : list N :=
  rev (consecutive (rev (base.filter (λ id, generation sb < id) (map fst m)))).

Definition journal_of (sb : Superblock) (c : N → block) (i : N) : block := c (journal_start sb + i).

Definition found (sb : Superblock) (c : N → block) : list (N * list (N * block)) * N :=
  scan (N.to_nat (journal_blocks sb)) (journal_blocks sb) (journal_of sb c) 0 [] (generation sb).

(** The records replayed, in order. *)
Definition replayed (sb : Superblock) (c : N → block) : list (N * block) :=
  let m := (found sb c).1 in concat (map (λ id, default [] (om_get id m)) (replay_ids sb m)).

Definition apply_records (records : list (N * block)) : list dop := map (λ r, DWrite r.1 r.2) records.

(** [recover] on a disk that holds [c]: the highest id and its writes. *)
Definition recover (sb : Superblock) (c : N → block) : N * list dop :=
  if journal_blocks sb =? 0 then (0, [])
  else
    let '(m, highest) := found sb c in
    (highest, apply_records (replayed sb c) ++ if (0 <? length (replay_ids sb m))%nat then [DSync] else []).
End journal.

(** ** Fields *)
Lemma field_skip k x r off n : (k ≤ off)%nat → field off n (le_bytes k x ++ r) = field (off - k) n r.
Proof.
  intros Hk. unfold field. rewrite drop_app, (drop_ge (le_bytes k x)) by (rewrite length_le_bytes; lia). by rewrite length_le_bytes.
Qed.

Lemma field_head n x r : field 0 n (le_bytes n x ++ r) = x mod 256 ^ N.of_nat n.
Proof. unfold field. rewrite drop_0, take_app_length' by (symmetry; apply length_le_bytes). apply of_le_le_bytes. Qed.

Ltac fields :=
  repeat (rewrite field_skip by lia);
  cbn [Nat.sub]; rewrite ?field_head; rewrite ?N.mod_small by (cbn; lia).

Lemma read_header_bytes h :
  jh_magic h < two64 → jh_version h < 2 ^ 32 → jh_entry_count h < 2 ^ 32 → jh_tx_id h < two64 → jh_timestamp h < two64 →
  jh_checksum h < 2 ^ 32 → jh_padding_csum h < 2 ^ 32 → read_header (header_bytes h) = h.
Proof.
  unfold two64. intros H1 H2 H3 H4 H5 H6 H7. destruct h as [m v c i t k p z]. unfold read_header, header_bytes.
  cbn [jh_magic jh_version jh_entry_count jh_tx_id jh_timestamp jh_checksum jh_padding_csum jh_padding] in *.
  f_equal; fields; done.
Qed.

Lemma read_rec_header_bytes r :
  jr_tx_id r < two64 → jr_physical_block r < two64 → jr_checksum r < 2 ^ 32 → jr_padding r < 2 ^ 32 →
  read_rec_header (rec_header_bytes r) = r.
Proof.
  unfold two64. intros H1 H2 H3 H4. destruct r as [i p c q z]. unfold read_rec_header, rec_header_bytes.
  cbn [jr_tx_id jr_physical_block jr_checksum jr_padding jr_padding2] in *.
  f_equal; fields; done.
Qed.

Lemma read_footer_bytes f :
  jf_magic f < two64 → jf_tx_id f < two64 → jf_total_records f < 2 ^ 32 → jf_checksum f < 2 ^ 32 →
  read_footer (footer_bytes f) = f.
Proof.
  unfold two64. intros H1 H2 H3 H4. destruct f as [m i t c z]. unfold read_footer, footer_bytes.
  cbn [jf_magic jf_tx_id jf_total_records jf_checksum jf_padding] in *.
  f_equal; fields; done.
Qed.

(** ** Journal areas *)
Definition zero_block : block := zero_bytes BLOCK_SIZE.

(** Consecutive journal blocks hold [bs]; each holds its block of [bs] or is
    still zero. *)
Fixpoint holds (J : N → block) (p : N) (bs : list block) : Prop :=
  match bs with [] => True | b :: bs => J p = b ∧ holds J (p + 1) bs end.
Fixpoint partial (J : N → block) (p : N) (bs : list block) : Prop :=
  match bs with [] => True | b :: bs => (J p = zero_block ∨ J p = b) ∧ partial J (p + 1) bs end.

Lemma holds_app J p bs bs' : holds J p (bs ++ bs') ↔ holds J p bs ∧ holds J (p + N.of_nat (length bs)) bs'.
Proof.
  revert p. induction bs as [|b bs IH]; intros p; cbn [app holds length]; [change (N.of_nat 0) with 0; rewrite N.add_0_r; tauto|].
  rewrite IH. replace (p + 1 + N.of_nat (length bs)) with (p + N.of_nat (S (length bs))) by lia. tauto.
Qed.

Lemma partial_app J p bs bs' : partial J p (bs ++ bs') ↔ partial J p bs ∧ partial J (p + N.of_nat (length bs)) bs'.
Proof.
  revert p. induction bs as [|b bs IH]; intros p; cbn [app partial length]; [change (N.of_nat 0) with 0; rewrite N.add_0_r; tauto|].
  rewrite IH. replace (p + 1 + N.of_nat (length bs)) with (p + N.of_nat (S (length bs))) by lia. tauto.
Qed.

Lemma holds_at J p bs i :
  holds J p bs → p ≤ i < p + N.of_nat (length bs) → ∃ b, b ∈ bs ∧ J i = b.
Proof.
  revert p. induction bs as [|b bs IH]; intros p; cbn [holds length]; [lia|]. intros [Hb Hbs] Hi.
  destruct (decide (i = p)) as [->|Hne]; [exists b; split; [by left|done]|].
  destruct (IH (p + 1) Hbs ltac:(lia)) as (b' & Hin & HJ). exists b'. split; [by right|done].
Qed.

Lemma partial_at J p bs i :
  partial J p bs → p ≤ i < p + N.of_nat (length bs) → J i = zero_block ∨ ∃ b, b ∈ bs ∧ J i = b.
Proof.
  revert p. induction bs as [|b bs IH]; intros p; cbn [partial length]; [lia|]. intros [Hb Hbs] Hi.
  destruct (decide (i = p)) as [->|Hne]; [destruct Hb as [?|?]; [by left|right; exists b; split; [by left|done]]|].
  destruct (IH (p + 1) Hbs ltac:(lia)) as [?|(b' & Hin & HJ)]; [by left|]. right. exists b'. split; [by right|done].
Qed.

Lemma holds_ext J J' p bs :
  (∀ i, p ≤ i < p + N.of_nat (length bs) → J' i = J i) → holds J p bs → holds J' p bs.
Proof.
  revert p. induction bs as [|b bs IH]; intros p HJ; cbn [holds length] in *; [done|]. intros [Hb Hbs].
  split; [rewrite HJ by lia; done|]. apply IH; [|done]. intros i Hi. apply HJ. lia.
Qed.

Section scans.
Context (crc : list byte → N) (crc_lt : ∀ b, crc b < 2 ^ 32).

Definition rb (tx : Transaction) (k : N) : list block :=
  [rec_header_bytes (record_header crc tx k (block_of tx k)); block_of tx k].
Definition recs (tx : Transaction) : list (N * block) := map (λ k, (k, block_of tx k)) (sorted_keys tx).
Definition payload (tx : Transaction) : list block := chunk_payload crc tx (sorted_keys tx).

Lemma header_of tx n :
  tx_id tx < two64 → timestamp tx < two64 → n < 2 ^ 32 →
  header_ok crc (header_bytes (journal_header crc tx n)) = true ∧
  read_header (header_bytes (journal_header crc tx n)) = journal_header crc tx n.
Proof.
  intros H1 H2 H3.
  assert (read_header (header_bytes (journal_header crc tx n)) = journal_header crc tx n) as Hr.
  { by apply read_header_bytes; [done|done|done|done|done|apply crc_lt|done]. }
  split; [|done]. unfold header_ok. rewrite Hr.
  change (field 0 8 (header_bytes (journal_header crc tx n))) with (jh_magic (read_header (header_bytes (journal_header crc tx n)))).
  rewrite Hr. cbn [journal_header set_h_checksum jh_magic jh_checksum]. rewrite N.eqb_refl. apply N.eqb_refl.
Qed.

Lemma footer_of tx n :
  tx_id tx < two64 → n < 2 ^ 32 → footer_ok crc (tx_id tx) (footer_bytes (journal_footer crc tx n)) = true.
Proof.
  intros H1 H2. unfold footer_ok. rewrite read_footer_bytes; [|done|done|done|apply crc_lt].
  cbn [journal_footer set_f_checksum jf_magic jf_tx_id jf_checksum]. rewrite !N.eqb_refl. done.
Qed.

Lemma rec_of tx k :
  tx_id tx < two64 → k < two64 → read_rec_header (rec_header_bytes (record_header crc tx k (block_of tx k))) = record_header crc tx k (block_of tx k).
Proof. intros H1 H2. by apply read_rec_header_bytes; [done|done|apply crc_lt|done]. Qed.

Lemma scan_records_ok tx jb J fuel keys temp :
  tx_id tx < two64 → Forall (λ k, k < two64) keys → holds J temp (concat (map (rb tx) keys)) →
  temp + 2 * N.of_nat (length keys) ≤ jb → (length keys ≤ fuel)%nat →
  scan_records crc fuel jb J (N.of_nat (length keys)) temp =
    Some (map (λ k, (k, block_of tx k)) keys, temp + 2 * N.of_nat (length keys)).
Proof.
  intros Hid Hk. revert fuel temp. induction Hk as [|k keys Hk _ IH]; intros fuel temp Hh Hjb Hf.
  { destruct fuel; cbn; by rewrite N.add_0_r. }
  cbn [length] in *. destruct fuel as [|fuel]; [lia|]. cbn [scan_records map].
  rewrite (proj2 (N.eqb_neq _ 0)) by lia. rewrite (proj2 (N.leb_gt jb temp)) by lia. rewrite (proj2 (N.leb_gt jb (temp + 1))) by lia.
  cbn [map concat rb app holds] in Hh. destruct Hh as (H1 & H2 & Hh). rewrite H1, H2, rec_of by done.
  cbn [record_header jr_checksum jr_physical_block]. rewrite N.eqb_refl.
  replace (N.of_nat (S (length keys)) - 1) with (N.of_nat (length keys)) by lia.
  rewrite IH; [|done|lia|lia]. cbn [mbind option_bind].
  by replace (temp + 1 + 1 + 2 * N.of_nat (length keys)) with (temp + 2 * N.of_nat (S (length keys))) by lia.
Qed.

Lemma length_payload tx : length (payload tx) = (2 * length (sorted_keys tx) + 2)%nat.
Proof.
  unfold payload, chunk_payload. cbn [length]. rewrite length_app. cbn [length].
  assert (∀ keys, length (concat (map (rb tx) keys)) = (2 * length keys)%nat) as E; [|unfold rb in E; rewrite E; lia].
  induction keys as [|k keys IH]; [done|]. cbn [map concat length]. rewrite length_app, IH. cbn [rb length]. lia.
Qed.

(** Nothing tells the journal's zero blocks from a checksummed block but the
    checksum itself. *)
Definition clean_data (d : block) : Prop := crc d ≠ 0 ∧ (crc zero_block = crc d → zero_block = d).

Lemma zero_not_header : header_ok crc zero_block = false.
Proof. unfold header_ok. assert ((field 0 8 zero_block =? JOURNAL_MAGIC) = false) as -> by by vm_compute. done. Qed.

Lemma zero_not_footer id : footer_ok crc id zero_block = false.
Proof.
  unfold footer_ok. assert ((jf_magic (read_footer zero_block) =? JOURNAL_MAGIC) = false) as -> by by vm_compute. done.
Qed.

Lemma zero_record : jr_checksum (read_rec_header zero_block) = 0.
Proof. by vm_compute. Qed.

Lemma scan_records_partial tx jb J fuel keys temp r t :
  crc zero_block ≠ 0 → tx_id tx < two64 → Forall (λ k, k < two64 ∧ clean_data (block_of tx k)) keys → partial J temp (concat (map (rb tx) keys)) →
  scan_records crc fuel jb J (N.of_nat (length keys)) temp = Some (r, t) →
  holds J temp (concat (map (rb tx) keys)) ∧ t = temp + 2 * N.of_nat (length keys).
Proof.
  intros crc_zero Hid Hk. revert fuel temp r t. induction Hk as [|k keys [Hk [Hc1 Hc2]] _ IH]; intros fuel temp r t Hp Hs.
  { destruct fuel; cbn in Hs; injection Hs as _ <-; split; (done || (cbn; lia)). }
  cbn [length] in *. destruct fuel as [|fuel]; cbn [scan_records] in Hs; rewrite (proj2 (N.eqb_neq _ 0)) in Hs by lia; [done|].
  destruct (jb <=? temp); [done|]. destruct (jb <=? temp + 1); [done|].
  cbn [map concat rb app partial] in Hp. destruct Hp as (H1 & H2 & Hp).
  destruct (N.eqb_spec (crc (J (temp + 1))) (jr_checksum (read_rec_header (J temp)))) as [Heq|]; [|done].
  assert (J temp = rec_header_bytes (record_header crc tx k (block_of tx k)) ∧ J (temp + 1) = block_of tx k) as [E1 E2].
  { destruct H1 as [H1|H1]; rewrite H1 in Heq.
    - rewrite zero_record in Heq. by destruct H2 as [H2|H2]; rewrite H2 in Heq.
    - split; [done|]. destruct H2 as [H2|H2]; [|done]. rewrite H2 in *. rewrite rec_of in Heq by done. by apply Hc2. }
  replace (N.of_nat (S (length keys)) - 1) with (N.of_nat (length keys)) in Hs by lia.
  destruct (scan_records crc fuel jb J (N.of_nat (length keys)) (temp + 1 + 1)) as [[r' t']|] eqn:Er; [|done].
  cbn in Hs. injection Hs as _ <-. destruct (IH fuel _ _ _ Hp Er) as [Hh ->]. split; [|lia].
  cbn [map concat rb app holds]. by split_and!.
Qed.

(** ** Transactions the journal can hold *)
Record tx_ok (sb : Superblock) (tx : Transaction) : Prop := {
  ok_id : tx_id tx < two64;
  ok_time : timestamp tx < two64;
  ok_new : generation sb < tx_id tx;
  ok_some : dirty_blocks tx ≠ ∅;
  ok_count : 2 * N.of_nat (length (sorted_keys tx)) + 2 < 2 ^ 32;
  ok_keys : Forall (λ k, k < two64 ∧ clean_data (block_of tx k)) (sorted_keys tx);
  ok_place : Forall (λ k, k < journal_start sb ∨ journal_start sb + journal_blocks sb ≤ k) (sorted_keys tx);
  (* no block after its first imitates a journal header *)
  ok_plain : Forall (λ b, header_ok crc b = false) (tail (payload tx))
}.

Lemma payload_split tx :
  payload tx = header_bytes (journal_header crc tx (N.of_nat (length (sorted_keys tx)))) ::
    concat (map (rb tx) (sorted_keys tx)) ++ [footer_bytes (journal_footer crc tx (N.of_nat (length (sorted_keys tx))))].
Proof. done. Qed.

Lemma length_rbs tx keys : N.of_nat (length (concat (map (rb tx) keys))) = 2 * N.of_nat (length keys).
Proof. induction keys as [|k keys IH]; [done|]. cbn [map concat]. rewrite length_app. cbn [rb length]. lia. Qed.

Lemma ok_count32 sb tx : tx_ok sb tx → N.of_nat (length (sorted_keys tx)) < 2 ^ 32.
Proof. intros Hok. pose proof (ok_count _ _ Hok). lia. Qed.

Lemma scan_tx_holds sb tx jb J p :
  tx_ok sb tx → holds J p (payload tx) → p + N.of_nat (length (payload tx)) ≤ jb →
  scan_tx crc jb J p = Some (tx_id tx, recs tx, p + N.of_nat (length (payload tx)) - 1).
Proof.
  intros Hok Hh Hjb. rewrite length_payload in *. rewrite payload_split in Hh. cbn [holds] in Hh. destruct Hh as [H0 Hh].
  apply holds_app in Hh as [Hr [Hf _]]. rewrite length_rbs in Hf.
  destruct (header_of tx (N.of_nat (length (sorted_keys tx))) (ok_id _ _ Hok) (ok_time _ _ Hok) (ok_count32 _ _ Hok)) as [Hhk Hrd].
  unfold scan_tx. rewrite H0, Hhk, Hrd. cbn [journal_header set_h_checksum jh_entry_count jh_tx_id].
  rewrite (scan_records_ok tx) by (apply Hok || done || lia || (eapply Forall_impl; [apply (ok_keys _ _ Hok)|]; by intros ? [? _])).
  cbn [mbind option_bind]. rewrite Hf, footer_of by (by apply Hok || apply (ok_count32 _ _ Hok)). rewrite (proj2 (N.ltb_lt _ jb)) by lia. cbn [andb].
  unfold recs. by replace (p + 1 + 2 * N.of_nat (length (sorted_keys tx))) with (p + N.of_nat (2 * length (sorted_keys tx) + 2) - 1) by lia.
Qed.

Lemma scan_tx_partial sb tx jb J p :
  crc zero_block ≠ 0 → tx_ok sb tx → partial J p (payload tx) → scan_tx crc jb J p = None ∨ holds J p (payload tx).
Proof.
  intros crc_zero Hok Hp. rewrite payload_split in *. cbn [partial] in Hp. destruct Hp as [H0 Hp].
  destruct (scan_tx crc jb J p) as [[[id r] t]|] eqn:Es; [right|by left]. unfold scan_tx in Es.
  destruct (header_ok crc (J p)) eqn:Eh; [|done].
  destruct H0 as [H0|H0]; [by rewrite H0, zero_not_header in Eh|].
  apply partial_app in Hp as [Hr [Hf _]]. rewrite length_rbs in Hf.
  destruct (header_of tx (N.of_nat (length (sorted_keys tx))) (ok_id _ _ Hok) (ok_time _ _ Hok) (ok_count32 _ _ Hok)) as [_ Hrd].
  rewrite H0, Hrd in Es. cbn [journal_header set_h_checksum jh_entry_count jh_tx_id] in Es.
  destruct (scan_records crc (N.to_nat jb) jb J _ (p + 1)) as [[r' t']|] eqn:Er; [|done]. cbn in Es.
  destruct (scan_records_partial tx jb J _ _ _ _ _ crc_zero (ok_id _ _ Hok) (ok_keys _ _ Hok) Hr Er) as [Hh ->].
  cbn [holds]. split; [done|]. apply holds_app. split; [done|]. rewrite length_rbs. cbn [holds]. split; [|done].
  destruct Hf as [Hf|Hf]; [|done]. rewrite Hf, zero_not_footer, andb_false_r in Es. done.
Qed.

Lemma scan_tx_plain jb J p : header_ok crc (J p) = false → scan_tx crc jb J p = None.
Proof. intros H. unfold scan_tx. by rewrite H. Qed.

(** ** The scan of a whole journal *)
Lemma scan_records_ge jb J fuel count temp r t : scan_records crc fuel jb J count temp = Some (r, t) → temp ≤ t.
Proof.
  revert count temp r t. induction fuel as [|fuel IH]; intros count temp r t; cbn [scan_records]; destruct (count =? 0);
    try (intros [= _ <-]; lia); try done.
  destruct (jb <=? temp), (jb <=? temp + 1); try done. destruct (_ =? _); [|done].
  destruct (scan_records crc fuel jb J _ _) as [[r' t']|] eqn:E; [|done]. cbn. intros [= _ <-]. apply IH in E. lia.
Qed.

Lemma scan_tx_lt jb J p id r t : scan_tx crc jb J p = Some (id, r, t) → p < t.
Proof.
  unfold scan_tx. destruct (header_ok crc (J p)); [|done].
  destruct (scan_records _ _ _ _ _ _) as [[r' t']|] eqn:E; [|done]. cbn. destruct (_ && _); [|done]. intros [= _ _ <-].
  apply scan_records_ge in E. lia.
Qed.

(** Enough fuel is as good as any. *)
Lemma scan_fuel jb J f f' p m h :
  (N.to_nat (jb - p) ≤ f)%nat → (N.to_nat (jb - p) ≤ f')%nat → scan crc f jb J p m h = scan crc f' jb J p m h.
Proof.
  revert f' p m h. induction f as [|f IH]; intros f' p m h Hf Hf'.
  { destruct f' as [|f']; cbn [scan]; [done|]. by rewrite (proj2 (N.ltb_ge p jb)) by lia. }
  destruct f' as [|f']; cbn [scan]; [by rewrite (proj2 (N.ltb_ge p jb)) by lia|]. destruct (N.ltb_spec p jb); [|done].
  destruct (scan_tx crc jb J p) as [[[id r] t]|] eqn:E; [|apply IH; lia]. apply scan_tx_lt in E. apply IH; lia.
Qed.

Abbreviation full_scan jb J := (scan crc (N.to_nat jb) jb J).

Lemma scan_step jb J p m h :
  p < jb →
  full_scan jb J p m h =
    match scan_tx crc jb J p with
    | Some (id, r, t) => full_scan jb J (t + 1) (or_insert id r m) (if h <? id then id else h)
    | None => full_scan jb J (p + 1) m h
    end.
Proof.
  intros Hp. rewrite (scan_fuel jb J _ (S (N.to_nat jb))) by lia. cbn [scan]. rewrite (proj2 (N.ltb_lt p jb) Hp).
  done.
Qed.

Lemma scan_end jb J p m h : jb ≤ p → full_scan jb J p m h = (m, h).
Proof. intros Hp. rewrite (scan_fuel jb J _ 0) by lia. done. Qed.

Lemma scan_none jb J p m h : (∀ i, p ≤ i < jb → scan_tx crc jb J i = None) → full_scan jb J p m h = (m, h).
Proof.
  remember (N.to_nat (jb - p)) as n eqn:Hn. revert p Hn. induction n as [|n IH]; intros p Hn Hnone; [apply scan_end; lia|].
  rewrite scan_step by lia. rewrite Hnone by lia. apply IH; [lia|]. intros i Hi. apply Hnone. lia.
Qed.

Definition entries (txs : list Transaction) : list (N * list (N * block)) := map (λ tx, (tx_id tx, recs tx)) txs.
Definition log (txs : list Transaction) : list block := concat (map payload txs).
Definition log_len (txs : list Transaction) : N := N.of_nat (length (log txs)).
Definition ids_up (txs : list Transaction) : Prop := StronglySorted (λ a b, tx_id a < tx_id b) txs.

Lemma log_app txs txs' : log (txs ++ txs') = log txs ++ log txs'.
Proof. unfold log. by rewrite map_app, concat_app. Qed.

Lemma log_len_app txs txs' : log_len (txs ++ txs') = log_len txs + log_len txs'.
Proof. unfold log_len. rewrite log_app, length_app. lia. Qed.

Lemma log_len_one tx : log_len [tx] = N.of_nat (length (payload tx)).
Proof. unfold log_len, log. cbn. by rewrite app_nil_r. Qed.

Lemma payload_pos tx : 0 < N.of_nat (length (payload tx)).
Proof. rewrite length_payload. lia. Qed.

Lemma or_insert_last id r m : Forall (λ p : N * list (N * block), p.1 < id) m → or_insert id r m = m ++ [(id, r)].
Proof.
  intros Hm. unfold or_insert. assert (om_get id m = None ∧ om_insert id r m = m ++ [(id, r)]) as [-> ->]; [|done].
  induction Hm as [|[k v] m Hk _ [IH1 IH2]]; [done|]. cbn [fst] in Hk. cbn [om_get om_insert app].
  assert (kcmp id k = Gt) as -> by (apply N.compare_gt_iff; lia). by rewrite IH1, IH2.
Qed.

Lemma scan_log sb jb J p txs m h :
  Forall (tx_ok sb) txs → ids_up txs → Forall (λ e : N * list (N * block), Forall (λ tx, e.1 < tx_id tx) txs) m →
  holds J p (log txs) → p + log_len txs ≤ jb →
  full_scan jb J p m h = full_scan jb J (p + log_len txs) (m ++ entries txs) (foldl (λ h tx, if h <? tx_id tx then tx_id tx else h) h txs).
Proof.
  intros Hok Hup. revert p m h. induction Hup as [|tx txs Hup IH Hlt]; intros p m h Hm Hh Hjb.
  { unfold entries, log_len. cbn. by rewrite app_nil_r, N.add_0_r. }
  apply Forall_cons in Hok as [Htx Hok]. change (tx :: txs) with ([tx] ++ txs) in Hh, Hjb |- *. rewrite log_len_app in *.
  rewrite log_app in Hh. apply holds_app in Hh as [Hh1 Hh2]. rewrite log_len_one in *.
  replace (log [tx]) with (payload tx) in Hh1, Hh2 by (unfold log; cbn; by rewrite app_nil_r).
  pose proof (payload_pos tx). rewrite scan_step by lia. rewrite (scan_tx_holds sb tx) by (done || lia).
  replace (p + N.of_nat (length (payload tx)) - 1 + 1) with (p + N.of_nat (length (payload tx))) by lia.
  rewrite or_insert_last by (eapply Forall_impl; [exact Hm|]; intros e He; by apply Forall_cons in He as [? _]).
  rewrite IH; [|done| |done|lia].
  - rewrite <- app_assoc, N.add_assoc. done.
  - apply Forall_app. split; [eapply Forall_impl; [exact Hm|]; intros e He; by apply Forall_cons in He as [_ ?]|].
    apply Forall_singleton. done.
Qed.

(** ** What is replayed *)
Lemma consecutive_prefix ids : ∃ rest, ids = consecutive ids ++ rest ∧ (ids ≠ [] → consecutive ids ≠ []).
Proof.
  induction ids as [|x [|y ids] IH]; [by exists []|by exists []|].
  change (consecutive (x :: y :: ids)) with (if wadd64 y 1 =? x then x :: consecutive (y :: ids) else [x]). destruct (wadd64 y 1 =? x).
  - destruct IH as (rest & IH & _). exists rest. split; [|done]. cbn [app]. by rewrite <- IH.
  - by exists (y :: ids).
Qed.

Lemma entries_ids txs : ids_up txs → om_ok (entries txs).
Proof.
  induction 1 as [|tx txs _ IH Hlt]; [constructor|]. apply om_ok_cons. split; [|done].
  apply Forall_map. eapply Forall_impl; [exact Hlt|]. intros tx' H. by apply N.compare_lt_iff.
Qed.

Lemma replayed_suffix sb c txs :
  (found crc sb c).1 = entries txs → ids_up txs → Forall (tx_ok sb) txs →
  ∃ P S, txs = P ++ S ∧ (txs ≠ [] → S ≠ []) ∧ replayed crc sb c = concat (map recs S).
Proof.
  intros Hf Hup Hok. unfold replayed, replay_ids. rewrite Hf.
  assert (map fst (entries txs) = map tx_id txs) as -> by (unfold entries; by rewrite map_map).
  rewrite filter_all_id.
  2:{ intros id (tx & -> & Htx)%list_elem_of_fmap. rewrite Forall_forall in Hok. apply (ok_new _ _ (Hok tx Htx)). }
  destruct (consecutive_prefix (rev (map tx_id txs))) as (rest & Hsplit & Hne).
  set (ids := consecutive _) in *.
  assert (map tx_id txs = rev rest ++ rev ids) as Hids by (by rewrite <- rev_app_distr, <- Hsplit, rev_involutive).
  exists (take (length (rev rest)) txs), (drop (length (rev rest)) txs). split_and!; [by rewrite take_drop| |].
  - intros Hnil E. apply (f_equal (map tx_id)) in E. rewrite <- skipn_map, Hids, drop_app_length in E. cbn in E.
    apply Hne; [|apply (f_equal (@rev N)) in E; by rewrite rev_involutive in E]. intros E'. apply Hnil.
    apply (f_equal (@length N)) in E'. rewrite length_rev, length_map in E'. by destruct txs.
  - assert (rev ids = map tx_id (drop (length (rev rest)) txs)) as ->.
    { rewrite <- skipn_map, Hids. symmetry. by apply drop_app_length. }
    rewrite map_map. f_equal. apply map_ext_in. intros tx Htx%list_elem_of_In.
    assert (tx ∈ txs) as Hin by (rewrite <- (take_drop (length (rev rest)) txs); apply elem_of_app; by right).
    assert (om_get (tx_id tx) (entries txs) = Some (recs tx)) as ->; [|done].
    apply om_get_elem; [by apply entries_ids|]. unfold entries. apply list_elem_of_fmap. by exists tx.
Qed.

(** ** Overlays *)
Definition overlay (rs : list (N * block)) (f : N → block) (b : N) : block := default (f b) (cached b (rev rs)).

Lemma cached_app b l l' : cached b (l ++ l') = match cached b l with Some v => Some v | None => cached b l' end.
Proof. induction l as [|[k v] l IH]; cbn; [done|]. by destruct (k =? b). Qed.

Lemma cached_none b l : cached b l = None ↔ b ∉ map fst l.
Proof.
  induction l as [|[k v] l IH]; cbn; [split; [intros _; apply not_elem_of_nil|done]|]. rewrite not_elem_of_cons.
  destruct (N.eqb_spec k b) as [->|Hne]; [split; [done|by intros [? _]]|]. rewrite IH. naive_solver.
Qed.

Lemma overlay_app rs rs' f b :
  overlay (rs ++ rs') f b = match cached b (rev rs') with Some v => v | None => overlay rs f b end.
Proof. unfold overlay. rewrite rev_app_distr, cached_app. by destruct (cached b (rev rs')). Qed.

Lemma overlay_out rs f b : b ∉ map fst rs → overlay rs f b = f b.
Proof.
  intros H. unfold overlay. assert (cached b (rev rs) = None) as ->; [|done]. apply cached_none. rewrite map_rev.
  intros Hin. apply H. apply list_elem_of_In, in_rev, list_elem_of_In, Hin.
Qed.

(** Replaying the last part of what was applied gives the same disk. *)
Lemma overlay_suffix P S f g b :
  (b ∉ map fst S → g b = overlay (P ++ S) f b) → overlay S g b = overlay (P ++ S) f b.
Proof.
  intros H. rewrite overlay_app. unfold overlay at 1. destruct (cached b (rev S)) as [v|] eqn:E; [done|]. cbn.
  assert (b ∉ map fst S) as Hout.
  { apply cached_none in E. rewrite map_rev in E. intros Hin. apply E. apply list_elem_of_In, in_rev. rewrite rev_involutive.
    by apply list_elem_of_In. }
  rewrite (H Hout), overlay_app, E. done.
Qed.
End scans.
