(* ===== verification/JournalSpec.v ===== *)
(** * What the journal promises

    On a fresh journal, as [mkfs] leaves it, a commit is atomic: after a crash
    at any point, and any number of crashes during recovery, recovery leaves
    the disk before the transaction or after it. Two faults: a transaction that
    wraps around the end of the journal is not found again, and a stale record
    of an earlier transaction is accepted as part of a new one. *)
From S2P Require Import Prelude OrdMap Transaction Journal.
From Stdlib Require Import NArith ZArith Lia Strings.Byte Sorting.Sorted.
From stdpp Require Import base numbers gmap option sorting list.
#[local] Open Scope N_scope.

#[local] Abbreviation block := (list byte).

(** ** Runs of disk operations *)
Fixpoint written (ops : list dop) : list N :=
  match ops with [] => [] | DWrite b _ :: ops => b :: written ops | DSync :: ops => written ops end.

Lemma written_app ops ops' : written (ops ++ ops') = written ops ++ written ops'.
Proof. induction ops as [|[b v|] ops IH]; cbn; [done|by rewrite IH|done]. Qed.

Lemma written_records rs : written (apply_records rs) = map fst rs.
Proof. induction rs as [|[b v] rs IH]; cbn; [done|]. by rewrite <- IH. Qed.

(** A run changes, in every crash, only blocks it writes. *)
Lemma crash_written f ops c :
  crashed (run_ops (mkJD f []) ops) c → ∀ b, c b = f b ∨ b ∈ written ops.
Proof.
  assert ((∀ b, stable (run_ops (mkJD f []) ops) b = f b ∨ b ∈ written ops) ∧
          ∀ p, p ∈ cache (run_ops (mkJD f []) ops) → p.1 ∈ written ops) as [H1 H2].
  { induction ops as [|o ops [IH1 IH2]] using rev_ind.
    { split; [by left|]. intros p ?%not_elem_of_nil. done. }
    rewrite foldl_app, written_app. cbn [foldl]. destruct o as [b v|]; cbn [exec stable cache written].
    - split.
      + intros b'. rewrite elem_of_app. destruct (IH1 b'); tauto.
      + intros p [->|Hp]%elem_of_cons; rewrite elem_of_app; [right; by left|left; by apply IH2].
    - rewrite app_nil_r. split; [|intros p ?%not_elem_of_nil; done]. intros b. unfold view.
      destruct (cached b (cache (run_ops (mkJD f []) ops))) as [v|] eqn:E; [|apply IH1]. right.
      destruct (decide (b ∈ map fst (cache (run_ops (mkJD f []) ops)))) as [Hin|Hout]; [|apply cached_none in Hout; congruence].
      apply list_elem_of_fmap in Hin as (p & -> & Hp). by apply IH2. }
  intros Hc b. destruct (Hc b) as [Hb|Hb]; [rewrite Hb; apply H1|]. right. by apply (H2 (b, c b)).
Qed.

Lemma apply_records_app rs rs' : apply_records (rs ++ rs') = apply_records rs ++ apply_records rs'.
Proof. apply map_app. Qed.

Lemma run_records d rs : run_ops d (apply_records rs) = mkJD (stable d) (rev rs ++ cache d).
Proof.
  revert d. induction rs as [|[b v] rs IH]; intros d; cbn; [by destruct d|]. fold (apply_records rs). rewrite IH. cbn.
  by rewrite <- app_assoc.
Qed.

Lemma view_records f rs b : view (run_ops (mkJD f []) (apply_records rs)) b = overlay rs f b.
Proof. rewrite run_records. unfold view, overlay. cbn. by rewrite app_nil_r. Qed.

(** The blocks of a contiguous write. *)
Fixpoint place (s : N) (bs : list block) : list (N * block) :=
  match bs with [] => [] | v :: bs => (s, v) :: place (s + 1) bs end.

Lemma write_run_place s bs : write_run s bs = apply_records (place s bs).
Proof. revert s. induction bs as [|v bs IH]; intros s; cbn; [done|]. by rewrite IH. Qed.

Lemma place_elem s bs b v : (b, v) ∈ place s bs → ∃ k : nat, bs !! k = Some v ∧ b = s + N.of_nat k.
Proof.
  revert s. induction bs as [|w bs IH]; intros s; cbn [place]; [by intros ?%not_elem_of_nil|].
  intros [[= -> ->]|H]%elem_of_cons; [exists 0%nat; split; [done|lia]|]. destruct (IH _ H) as (k & Hk & ->).
  exists (Datatypes.S k). split; [done|lia].
Qed.

Lemma place_keys s bs b : b ∈ map fst (place s bs) ↔ s ≤ b < s + N.of_nat (length bs).
Proof.
  revert s. induction bs as [|v bs IH]; intros s; cbn [place map length]; [split; [by intros ?%not_elem_of_nil|lia]|].
  rewrite elem_of_cons, IH. cbn. lia.
Qed.

Lemma overlay_place s bs f k v : bs !! k = Some v → overlay (place s bs) f (s + N.of_nat k) = v.
Proof.
  revert s k. induction bs as [|w bs IH]; intros s k Hk; [done|]. cbn [place].
  change ((s, w) :: place (s + 1) bs) with ([(s, w)] ++ place (s + 1) bs). rewrite overlay_app. destruct k as [|k].
  - cbn in Hk. injection Hk as ->. change (N.of_nat 0) with 0. rewrite N.add_0_r.
    assert (cached s (rev (place (s + 1) bs)) = None) as ->.
    { apply cached_none. rewrite map_rev. intros Hin. apply list_elem_of_In, in_rev, list_elem_of_In, place_keys in Hin. lia. }
    unfold overlay. cbn. by rewrite N.eqb_refl.
  - cbn in Hk. replace (s + N.of_nat (Datatypes.S k)) with (s + 1 + N.of_nat k) by lia.
    pose proof (IH (s + 1) k Hk) as H. unfold overlay in H. destruct (cached _ _) as [v'|] eqn:E; [done|]. exfalso.
    apply cached_none in E. apply E. rewrite map_rev. apply list_elem_of_In, in_rev. rewrite rev_involutive.
    apply list_elem_of_In, place_keys. apply lookup_lt_Some in Hk. lia.
Qed.

Lemma holds_lookup J p bs : (∀ k v, bs !! k = Some v → J (p + N.of_nat k) = v) → holds J p bs.
Proof.
  revert p. induction bs as [|b bs IH]; intros p H; cbn [holds]; [done|]. split.
  - rewrite <- (H 0%nat b eq_refl). f_equal. lia.
  - apply IH. intros k v Hk. rewrite <- (H (Datatypes.S k) v Hk). f_equal. lia.
Qed.

Lemma partial_lookup J p bs :
  (∀ k v, bs !! k = Some v → J (p + N.of_nat k) = zero_block ∨ J (p + N.of_nat k) = v) → partial J p bs.
Proof.
  revert p. induction bs as [|b bs IH]; intros p H; cbn [partial]; [done|]. split.
  - replace p with (p + N.of_nat 0) by lia. by apply H.
  - apply IH. intros k v Hk. replace (p + 1 + N.of_nat k) with (p + N.of_nat (Datatypes.S k)) by lia. by apply H.
Qed.

(** ** The shape of a commit *)
Lemma chunks_one {A} fuel n (l : list A) : (length l ≤ n)%nat → l ≠ [] → (0 < fuel)%nat → chunks fuel n l = [l].
Proof.
  intros Hn Hl Hf. destruct fuel as [|fuel]; [lia|]. destruct l as [|x l]; [done|]. cbn [chunks].
  rewrite take_ge, drop_ge by done. by destruct fuel.
Qed.

Lemma take_run_spec prev keys run rest :
  take_run prev keys = (run, rest) → Sorted N.le (prev :: keys) → Forall (λ k, k < two64) keys → prev < two64 →
  keys = run ++ rest ∧ ∀ tx, apply_records (place (prev + 1) (map (block_of tx) run)) = apply_records (map (λ k, (k, block_of tx k)) run).
Proof.
  revert prev run rest. induction keys as [|k keys IH]; intros prev run rest; cbn [take_run]; [by intros [= <- <-]|].
  intros Ht Hs Hk Hp. apply Forall_cons in Hk as [Hk1 Hk2]. apply Sorted_inv in Hs as [Hs Hle]. apply HdRel_inv in Hle.
  destruct (N.eqb_spec k (wadd64 prev 1)) as [Heq|]; [|by injection Ht as <- <-].
  destruct (take_run k keys) as [run' rest'] eqn:E. injection Ht as <- <-.
  destruct (IH _ _ _ E Hs Hk2 Hk1) as [-> Hrun]. split; [done|]. intros tx. cbn [map place apply_records]. rewrite <- Hrun.
  assert (k = prev + 1) as ->; [|done]. destruct (decide (prev + 1 < two64)) as [Hlt|Hge]; [by rewrite Heq, wadd64_small|].
  exfalso. assert (prev + 1 = two64) as E1 by lia. unfold wadd64, wrap64 in Heq. rewrite E1, N.Div0.mod_same in Heq. unfold two64 in *. lia.
Qed.

Lemma apply_runs_records fuel tx keys :
  Sorted N.le keys → Forall (λ k, k < two64) keys → (length keys ≤ fuel)%nat →
  apply_runs fuel tx keys = apply_records (map (λ k, (k, block_of tx k)) keys).
Proof.
  revert keys. induction fuel as [|fuel IH]; intros keys Hs Hk Hf; [destruct keys; cbn in Hf; [done|lia]|].
  destruct keys as [|k keys]; [done|]. cbn [apply_runs length] in *. destruct (take_run k keys) as [run rest] eqn:E.
  apply Forall_cons in Hk as [Hk1 Hk2]. destruct (take_run_spec _ _ _ _ E Hs Hk2 Hk1) as [-> Hrun].
  assert (Sorted N.le rest) as Hsr.
  { apply Sorted_inv in Hs as [Hs _]. clear -Hs. induction run as [|r run IH]; [done|]. apply Sorted_inv in Hs as [Hs _]. by apply IH. }
  rewrite IH; [|done|by apply Forall_app in Hk2 as [_ ?]|rewrite length_app in Hf; lia].
  change (k :: run ++ rest) with ((k :: run) ++ rest). rewrite map_app, apply_records_app. f_equal.
  destruct run as [|r run]; [done|]. rewrite write_run_place.
  change (DWrite k (block_of tx k) :: apply_records (place (k + 1) (map (block_of tx) (r :: run))) =
          DWrite k (block_of tx k) :: apply_records (map (λ k, (k, block_of tx k)) (r :: run))).
  by rewrite (Hrun tx).
Qed.

Section promise.
Context (crc : list byte → N) (crc_lt : ∀ b, crc b < 2 ^ 32) (crc_zero : crc zero_block ≠ 0).
Context (sb : Superblock).
#[local] Abbreviation tx_fits := (tx_ok crc sb).
#[local] Abbreviation jb := (journal_blocks sb).
#[local] Abbreviation js := (journal_start sb).

Lemma sorted_keys_sorted tx : Sorted N.le (sorted_keys tx).
Proof. apply Sorted_merge_sort. intros a b. lia. Qed.

Lemma sorted_keys_some tx : dirty_blocks tx ≠ ∅ → sorted_keys tx ≠ [].
Proof.
  intros Hne E. apply Hne. apply map_to_list_empty_iff. pose proof (merge_sort_Permutation N.le (map fst (map_to_list (dirty_blocks tx)))) as Hp.
  unfold sorted_keys in E. rewrite E in Hp. apply Permutation_nil in Hp. by apply map_eq_nil in Hp.
Qed.

Lemma commit_shape tx p :
  tx_fits tx → p + N.of_nat (length (payload crc tx)) ≤ jb →
  commit crc sb p tx = Some (apply_records (place (js + p) (payload crc tx)) ++ [DSync] ++ apply_records (recs tx) ++ [DSync],
                             (p + N.of_nat (length (payload crc tx))) mod jb).
Proof.
  intros Hok Hp. pose proof (sorted_keys_some tx (ok_some _ _ _ Hok)) as Hne. rewrite length_payload in Hp.
  unfold commit. rewrite bool_decide_eq_false_2 by apply Hok.
  assert (length (sorted_keys tx) ≤ max_records sb)%nat as Hmax.
  { unfold max_records. destruct (N.ltb_spec 2 jb); [|destruct (sorted_keys tx); cbn in *; [done|lia]].
    assert (N.of_nat (length (sorted_keys tx)) ≤ (jb - 2) / 2) by (apply N.div_le_lower_bound; lia). lia. }
  assert (0 < length (sorted_keys tx))%nat as Hpos by (destruct (sorted_keys tx); [done|cbn; lia]).
  rewrite (proj2 (Nat.eqb_neq (max_records sb) 0)) by lia.
  rewrite chunks_one by done. cbn [write_chunks]. fold (payload crc tx). unfold write_chunk. rewrite length_payload.
  pose proof (ok_count _ _ _ Hok) as Hcount. rewrite (N.mod_small (N.of_nat _) (2 ^ 32)) by lia.
  rewrite (proj2 (N.ltb_lt 0 jb)) by lia. rewrite (N.mod_small p jb) by lia. rewrite (proj2 (N.leb_le _ (jb - p))) by lia.
  rewrite write_run_place, app_nil_r. rewrite apply_runs_records; [done|apply sorted_keys_sorted| |done].
  eapply Forall_impl; [apply (ok_keys _ _ _ Hok)|]. by intros k [? _].
Qed.

(** ** The journal and the disk around it *)
Definition outside (b : N) : Prop := b < js ∨ js + jb ≤ b.

Definition after (f : N → block) (txs : list Transaction) : N → block := overlay (concat (map recs txs)) f.

(** [txs] fill the journal from its start, the rest of it is zero, and the
    disk outside holds [f] after [txs]. *)
Record at_log (f : N → block) (txs : list Transaction) (c : N → block) : Prop := {
  al_log : holds (journal_of sb c) 0 (log crc txs);
  al_rest : ∀ i, log_len crc txs ≤ i < jb → journal_of sb c i = zero_block;
  al_data : ∀ b, outside b → c b = after f txs b
}.

(** Recovery from [c] leads to [t]. *)
Definition recoverable (c t : N → block) : Prop :=
  Forall outside (map fst (replayed crc sb c)) ∧ ∀ b, outside b → overlay (replayed crc sb c) c b = t b.

Lemma found_log c txs :
  Forall tx_fits txs → ids_up txs → holds (journal_of sb c) 0 (log crc txs) → log_len crc txs ≤ jb →
  (∀ i, log_len crc txs ≤ i < jb → scan_tx crc jb (journal_of sb c) i = None) → (found crc sb c).1 = entries txs.
Proof.
  intros Hok Hup Hh Hjb Hnone. unfold found. rewrite (scan_log crc crc_lt sb jb _ 0 txs [] _ Hok Hup) by (done || (rewrite ?N.add_0_l; done)).
  rewrite scan_none; [done|]. intros i. rewrite N.add_0_l. apply Hnone.
Qed.

Lemma recs_outside txs : Forall tx_fits txs → Forall outside (map fst (concat (map recs txs))).
Proof.
  induction 1 as [|tx txs Htx _ IH]; cbn; [done|]. rewrite map_app. apply Forall_app. split; [|done].
  unfold recs. rewrite map_map. cbn. rewrite map_id. apply Htx.
Qed.

Lemma found_recoverable c f txs :
  (found crc sb c).1 = entries txs → Forall tx_fits txs → ids_up txs →
  (∀ b, outside b → c b = after f txs b ∨ ∃ T, last txs = Some T ∧ b ∈ map fst (recs T)) → recoverable c (after f txs).
Proof.
  intros Hf Hok Hup Hc. destruct (replayed_suffix crc sb c txs Hf Hup Hok) as (P & S & -> & Hne & Hr).
  apply Forall_app in Hok as [HokP HokS]. unfold recoverable. rewrite Hr. split; [by apply recs_outside|].
  intros b Hb. unfold after. rewrite map_app, concat_app. apply overlay_suffix. intros Hout.
  destruct (Hc b Hb) as [Hcb|(T & HT & HbT)]; [rewrite Hcb; unfold after; by rewrite map_app, concat_app|]. destruct Hout.
  assert (S ≠ []) as HS by (apply Hne; intros E; by rewrite E in HT). destruct S as [|T' S' _] using rev_ind; [done|].
  rewrite app_assoc, last_snoc in HT. injection HT as <-. rewrite map_app, concat_app, map_app. apply elem_of_app. right.
  cbn. by rewrite app_nil_r.
Qed.

Section one_commit.
Context (f c0 : N → block) (txs : list Transaction) (T : Transaction).
Context (Hlog : at_log f txs c0) (Hok : Forall tx_fits (txs ++ [T])) (Hup : ids_up (txs ++ [T])).
Context (Hfit : log_len crc (txs ++ [T]) ≤ jb).
#[local] Abbreviation p := (log_len crc txs).
#[local] Abbreviation pay := (payload crc T).

Lemma fit_T : p + N.of_nat (length pay) ≤ jb.
Proof. rewrite log_len_app, log_len_one in Hfit. done. Qed.

Lemma ok_T : tx_fits T.
Proof. pose proof Hok as H. rewrite Forall_app, Forall_singleton in H. apply H. Qed.

Lemma ok_txs : Forall tx_fits txs ∧ ids_up txs.
Proof.
  apply Forall_app in Hok as [H _]. split; [done|]. clear -Hup. induction txs as [|t ts IH]; [constructor|].
  apply StronglySorted_inv in Hup as [H1 H2]. constructor; [by apply IH|]. by apply Forall_app in H2 as [? _].
Qed.

Lemma after_snoc b : after f (txs ++ [T]) b = overlay (recs T) (after f txs) b.
Proof.
  unfold after. rewrite map_app, concat_app. cbn. rewrite app_nil_r, overlay_app. unfold overlay at 2. by destruct (cached b _).
Qed.

(** Only the place of [T] in the journal changed. *)
Lemma journal_intact c :
  (∀ b, c b = c0 b ∨ js + p ≤ b < js + p + N.of_nat (length pay) ∨ outside b) →
  holds (journal_of sb c) 0 (log crc txs) ∧ ∀ i, p + N.of_nat (length pay) ≤ i < jb → journal_of sb c i = zero_block.
Proof.
  intros Hc. pose proof fit_T as Hf. assert (∀ i, i < jb → i < p ∨ p + N.of_nat (length pay) ≤ i → journal_of sb c i = journal_of sb c0 i) as Hsame.
  { intros i Hi Hout. unfold journal_of. destruct (Hc (js + i)) as [?|[?|Ho]]; [done|lia|unfold outside in Ho; lia]. }
  split.
  - eapply holds_ext; [|apply (al_log _ _ _ Hlog)]. intros i Hi. fold p in Hi. apply Hsame; unfold log_len in *; lia.
  - intros i Hi. rewrite Hsame by lia. apply (al_rest _ _ _ Hlog). lia.
Qed.

(** With all of [T] in the journal, recovery completes it. *)
Lemma journaled_recoverable c :
  (∀ b, c b = c0 b ∨ js + p ≤ b < js + p + N.of_nat (length pay) ∨ b ∈ map fst (recs T)) →
  holds (journal_of sb c) p pay → recoverable c (after f (txs ++ [T])).
Proof.
  intros Hc HT. pose proof ok_T as HokT.
  assert (∀ b, b ∈ map fst (recs T) → outside b) as HoutT.
  { intros b Hb. pose proof (recs_outside [T]) as Hr. cbn in Hr. rewrite app_nil_r in Hr.
    specialize (Hr ltac:(by constructor)). rewrite Forall_forall in Hr. by apply Hr. }
  destruct (journal_intact c) as [Hh Hz]. { intros b. destruct (Hc b) as [?|[?|?]]; [by left|by right; left|right; right; by apply HoutT]. }
  apply found_recoverable; [|done|done|].
  - apply found_log; [done|done| |done|].
    + rewrite log_app. apply holds_app. split; [done|]. rewrite N.add_0_l. unfold log. cbn. by rewrite app_nil_r.
    + rewrite log_len_app, log_len_one. intros i Hi. apply scan_tx_plain. rewrite Hz by done. apply zero_not_header.
  - intros b Hb. rewrite last_snoc. destruct (decide (b ∈ map fst (recs T))) as [Hin|Hni]; [right; by exists T|left].
    rewrite after_snoc, overlay_out by done. rewrite <- (al_data _ _ _ Hlog b Hb). pose proof fit_T.
    destruct (Hc b) as [?|[?|?]]; [done|unfold outside in Hb; lia|done].
Qed.

Lemma recs_T_outside b : b ∈ map fst (recs T) → outside b.
Proof.
  intros Hb. pose proof (recs_outside [T] ltac:(constructor; [apply ok_T|constructor])) as Hr. cbn in Hr. rewrite app_nil_r in Hr.
  rewrite Forall_forall in Hr. by apply Hr.
Qed.

(** A crash before the first sync. *)
Lemma journaling_recoverable c :
  (∀ b, c b = c0 b ∨ (b, c b) ∈ place (js + p) pay) →
  recoverable c (after f txs) ∨ recoverable c (after f (txs ++ [T])).
Proof.
  intros Hc. pose proof fit_T as Hf. pose proof ok_T as HokT. destruct ok_txs as [Hok1 Hup1].
  assert (∀ b, c b = c0 b ∨ js + p ≤ b < js + p + N.of_nat (length pay)) as Hc'.
  { intros b. destruct (Hc b) as [?|Hb]; [by left|right]. apply place_keys. by apply (list_elem_of_fmap_2 fst) in Hb. }
  destruct (journal_intact c) as [Hh Hz]. { intros b. destruct (Hc' b); [by left|by right; left]. }
  assert (partial (journal_of sb c) p pay) as Hpart.
  { apply partial_lookup. intros k v Hk. unfold journal_of. pose proof (lookup_lt_Some _ _ _ Hk).
    destruct (Hc (js + (p + N.of_nat k))) as [E|E].
    - left. rewrite E. apply (al_rest _ _ _ Hlog). lia.
    - right. apply place_elem in E as (k' & Hk' & E). assert (k' = k) as -> by lia. congruence. }
  destruct (scan_tx_partial crc crc_lt sb T jb _ p crc_zero HokT Hpart) as [Hnone|HT]; [left|right].
  - apply found_recoverable; [|done|done|].
    + apply found_log; [done|done|done|lia|]. intros i Hi. destruct (decide (i = p)) as [->|Hne]; [done|]. apply scan_tx_plain.
      destruct (decide (i < p + N.of_nat (length pay))) as [Hlt|Hge]; [|rewrite Hz by lia; apply zero_not_header].
      rewrite payload_split in Hpart. cbn [partial] in Hpart. destruct Hpart as [_ Hpart].
      pose proof (ok_plain _ _ _ HokT) as Hpl. rewrite payload_split in Hpl, Hlt. cbn [tail length] in Hpl, Hlt.
      destruct (partial_at _ _ _ i Hpart ltac:(lia)) as [->|(b & Hb & ->)]; [apply zero_not_header|].
      rewrite Forall_forall in Hpl. by apply Hpl.
    + intros b Hb. left. rewrite <- (al_data _ _ _ Hlog b Hb). destruct (Hc' b); [done|unfold outside in Hb; lia].
  - apply journaled_recoverable; [|done]. intros b. destruct (Hc' b); [by left|by right; left].
Qed.

Lemma journal_written c :
  (∀ b, b < js + jb → js ≤ b → c b = overlay (place (js + p) pay) c0 b) → holds (journal_of sb c) p pay.
Proof.
  intros Hc. pose proof fit_T. apply holds_lookup. intros k v Hk. unfold journal_of. pose proof (lookup_lt_Some _ _ _ Hk).
  rewrite Hc by lia. rewrite N.add_assoc. by apply overlay_place.
Qed.

Lemma place_overlay b : overlay (place (js + p) pay) c0 b = c0 b ∨ js + p ≤ b < js + p + N.of_nat (length pay).
Proof.
  destruct (decide (b ∈ map fst (place (js + p) pay))) as [Hin|Hni]; [right; by apply place_keys|left; by apply overlay_out].
Qed.

(** After the first sync. *)
Lemma applying_recoverable c :
  (∀ b, c b = overlay (place (js + p) pay) c0 b ∨ b ∈ map fst (recs T)) → recoverable c (after f (txs ++ [T])).
Proof.
  intros Hc. apply journaled_recoverable.
  - intros b. destruct (Hc b) as [->|?]; [|by right; right]. destruct (place_overlay b); [by left|by right; left].
  - apply journal_written. intros b H1 H2. destruct (Hc b) as [?|Hb]; [done|]. apply recs_T_outside in Hb. unfold outside in Hb. lia.
Qed.

(** After the whole commit. *)
Lemma committed_log : at_log f (txs ++ [T]) (overlay (recs T) (overlay (place (js + p) pay) c0)).
Proof.
  set (c := overlay (recs T) _). pose proof fit_T as Hf.
  assert (∀ b, ¬ outside b → c b = overlay (place (js + p) pay) c0 b) as Hin.
  { intros b Hb. apply overlay_out. intros H. by apply Hb, recs_T_outside. }
  destruct (journal_intact c) as [Hh Hz].
  { intros b. destruct (decide (b ∈ map fst (recs T))) as [H|H]; [right; right; by apply recs_T_outside|].
    unfold c. rewrite overlay_out by done. destruct (place_overlay b); [by left|by right; left]. }
  split.
  - rewrite log_app. apply holds_app. split; [done|]. rewrite N.add_0_l. unfold log at 2. cbn. rewrite app_nil_r.
    apply journal_written. intros b H1 H2. apply Hin. unfold outside. lia.
  - rewrite log_len_app, log_len_one. done.
  - intros b Hb. rewrite after_snoc. unfold c, overlay at 1 3. destruct (cached b (rev (recs T))); [done|]. cbn.
    rewrite <- (al_data _ _ _ Hlog b Hb). destruct (place_overlay b); [done|unfold outside in Hb; lia].
Qed.
End one_commit.

(** ** Recovery *)
Lemma scan_records_ext J J' fuel count temp :
  (∀ i, i < jb → J i = J' i) → scan_records crc fuel jb J count temp = scan_records crc fuel jb J' count temp.
Proof.
  intros HJ. revert count temp. induction fuel as [|fuel IH]; intros count temp; cbn [scan_records]; [done|].
  destruct (count =? 0); [done|]. destruct (N.leb_spec jb temp); [done|]. destruct (N.leb_spec jb (temp + 1)); [done|].
  rewrite !HJ, IH by done. done.
Qed.

Lemma scan_ext J J' fuel q m h : (∀ i, i < jb → J i = J' i) → scan crc fuel jb J q m h = scan crc fuel jb J' q m h.
Proof.
  intros HJ. revert q m h. induction fuel as [|fuel IH]; intros q m h; cbn [scan]; [done|]. destruct (N.ltb_spec q jb); [|done].
  assert (scan_tx crc jb J q = scan_tx crc jb J' q) as ->.
  { unfold scan_tx. rewrite HJ by done. destruct (header_ok crc (J' q)); [|done]. rewrite (scan_records_ext J J') by done.
    destruct (scan_records _ _ _ _ _ _) as [[r t]|]; [|done]. cbn. destruct (N.ltb_spec t jb); [|done]. by rewrite HJ. }
  destruct (scan_tx crc jb J' q) as [[[id r] t]|]; apply IH.
Qed.

Lemma replayed_ext c c' : (∀ b, ¬ outside b → c' b = c b) → replayed crc sb c' = replayed crc sb c.
Proof.
  intros Hc. unfold replayed, found. rewrite (scan_ext (journal_of sb c') (journal_of sb c)); [done|]. intros i Hi.
  apply Hc. unfold outside. lia.
Qed.

Lemma recover_ops c : ∃ tl, (recover crc sb c).2 = apply_records (replayed crc sb c) ++ tl ∧ (tl = [] ∨ tl = [DSync]).
Proof.
  unfold recover. destruct (N.eqb_spec jb 0) as [E|].
  - exists []. split; [|by left]. unfold replayed, found. by rewrite E.
  - destruct (found crc sb c) as [m h]. eexists. split; [done|]. destruct (0 <? _)%nat; [by right|by left].
Qed.

Lemma recover_ends c t : recoverable c t → ∀ b, outside b → view (run_ops (mkJD c []) (recover crc sb c).2) b = t b.
Proof.
  intros [_ Ht] b Hb. rewrite <- (Ht b Hb), <- view_records. destruct (recover_ops c) as (tl & -> & [-> | ->]).
  - by rewrite app_nil_r.
  - rewrite foldl_app. done.
Qed.

Lemma recover_crash c t ops ops' c' :
  recoverable c t → (recover crc sb c).2 = ops ++ ops' → crashed (run_ops (mkJD c []) ops) c' → recoverable c' t.
Proof.
  intros [Hout Ht] Hops Hc. pose proof (crash_written c ops c' Hc) as Hw.
  assert (∀ b, b ∈ written ops → b ∈ map fst (replayed crc sb c)) as Hsub.
  { intros b Hb. destruct (recover_ops c) as (tl & E & Htl). rewrite Hops in E. apply (f_equal written) in E.
    rewrite !written_app, written_records in E. assert (written tl = []) as E' by (by destruct Htl as [-> | ->]).
    rewrite E', app_nil_r in E. rewrite <- E. apply elem_of_app. by left. }
  rewrite Forall_forall in Hout. assert (replayed crc sb c' = replayed crc sb c) as E.
  { apply replayed_ext. intros b Hb. destruct (Hw b) as [?|H]; [done|]. destruct Hb. by apply Hout, Hsub. }
  unfold recoverable. rewrite E. split; [by apply Forall_forall|]. intros b Hb. rewrite <- (Ht b Hb).
  destruct (decide (b ∈ map fst (replayed crc sb c))) as [Hin|Hni].
  - unfold overlay. destruct (cached b (rev (replayed crc sb c))) as [v|] eqn:Ec; [done|]. apply cached_none in Ec. destruct Ec.
    rewrite map_rev. apply list_elem_of_In, in_rev. rewrite rev_involutive. by apply list_elem_of_In.
  - rewrite !overlay_out by done. destruct (Hw b) as [?|H]; [done|]. by destruct Hni; apply Hsub.
Qed.

(** Recovery started on [c], interrupted by any number of crashes and started
    again, ends with the disk [v]. *)
Inductive recovers : (N → block) → (N → block) → Prop :=
  | recovers_done c : recovers c (view (run_ops (mkJD c []) (recover crc sb c).2))
  | recovers_crash c ops ops' c' v :
      (recover crc sb c).2 = ops ++ ops' → crashed (run_ops (mkJD c []) ops) c' → recovers c' v → recovers c v.

Lemma recovers_target c v t : recovers c v → recoverable c t → ∀ b, outside b → v b = t b.
Proof.
  induction 1 as [c|c ops ops' c' v E Hc Hr IH]; intros Ht; [by apply recover_ends|]. apply IH. by eapply recover_crash.
Qed.

(** ** Sequences of commits *)
Fixpoint commits (j : N) (d : JDisk) (txs : list Transaction) : option (JDisk * N) :=
  match txs with
  | [] => Some (d, j)
  | tx :: txs => '(ops, j') ← commit crc sb j tx; commits j' (run_ops d ops) txs
  end.

Lemma commits_snoc j d txs tx :
  commits j d (txs ++ [tx]) = '(d', j') ← commits j d txs; '(ops, j'') ← commit crc sb j' tx; Some (run_ops d' ops, j'').
Proof.
  revert j d. induction txs as [|t txs IH]; intros j d; cbn [app commits mbind option_bind].
  - destruct (commit crc sb j tx) as [[ops j']|]; done.
  - destruct (commit crc sb j t) as [[ops j']|]; [|done]. apply IH.
Qed.

Lemma at_log_ext f txs c c' : (∀ b, c' b = c b) → at_log f txs c → at_log f txs c'.
Proof.
  intros Hc [H1 H2 H3]. split.
  - eapply holds_ext; [|exact H1]. intros i _. apply Hc.
  - intros i Hi. unfold journal_of. rewrite Hc. by apply H2.
  - intros b Hb. rewrite Hc. by apply H3.
Qed.

Lemma run_commit d W R b :
  cache d = [] →
  let d' := run_ops d (apply_records W ++ [DSync] ++ apply_records R ++ [DSync]) in
  cache d' = [] ∧ stable d' b = overlay R (overlay W (stable d)) b.
Proof.
  intros Hd. destruct d as [f c]. cbn in Hd. subst c. cbv zeta. rewrite foldl_app, run_records. cbn [app foldl exec stable cache].
  rewrite foldl_app, run_records. cbn [foldl exec stable cache]. split; [done|].
  unfold view, overlay. cbn [stable cache]. by rewrite !app_nil_r.
Qed.

Lemma commits_log f txs :
  (∀ i, i < jb → f (js + i) = zero_block) → Forall tx_fits txs → ids_up txs → log_len crc txs ≤ jb →
  ∃ d, commits 0 (mkJD f []) txs = Some (d, log_len crc txs mod jb) ∧ cache d = [] ∧ at_log f txs (stable d).
Proof.
  intros Hz. induction txs as [|T txs IH] using rev_ind; intros Hok Hup Hfit.
  { exists (mkJD f []). split_and!; [cbn; by rewrite N.Div0.mod_0_l|done|]. split; [done| |done]. intros i Hi. apply Hz. lia. }
  destruct (ok_txs txs T Hok Hup) as [Hok1 Hup1]. pose proof (fit_T txs T Hfit) as HfT. pose proof (payload_pos crc T).
  destruct IH as (d & Hd & Hc & Hlog); [done|done|lia|]. rewrite N.mod_small in Hd by lia.
  rewrite commits_snoc, Hd. cbn [mbind option_bind]. rewrite commit_shape by (done || by apply (ok_T txs)). cbn [mbind option_bind].
  eexists. split; [by rewrite log_len_app, log_len_one|]. split; [by apply (run_commit d _ _ 0)|].
  eapply at_log_ext; [intros b; by apply run_commit|]. by apply committed_log.
Qed.

(** C6: a commit is atomic and durable on a fresh journal. Commit any
    transactions [txs] in order of their ids, as many as fit the journal, then
    crash at any point of the commit of [T], losing any of the writes since
    the last sync, and let recovery run, itself interrupted by any number of
    such crashes: the blocks outside the journal are those after [txs] or
    those after [txs] and [T], and always the latter when the commit had
    returned. The checksum is trusted to tell a zero block from a block of the
    transactions, and no such block imitates a journal header. *)
Theorem commit_atomic f txs T :
  (∀ i, i < jb → f (js + i) = zero_block) → Forall tx_fits (txs ++ [T]) → ids_up (txs ++ [T]) →
  log_len crc (txs ++ [T]) ≤ jb →
  ∃ d j ops j', commits 0 (mkJD f []) txs = Some (d, j) ∧ commit crc sb j T = Some (ops, j') ∧
    ∀ ops1 ops2 c v, ops = ops1 ++ ops2 → crashed (run_ops d ops1) c → recovers c v →
      ((∀ b, outside b → v b = after f txs b) ∨ (∀ b, outside b → v b = after f (txs ++ [T]) b)) ∧
      (ops2 = [] → ∀ b, outside b → v b = after f (txs ++ [T]) b).
Proof.
  intros Hz Hok Hup Hfit. destruct (ok_txs txs T Hok Hup) as [Hok1 Hup1]. pose proof (fit_T txs T Hfit) as HfT. pose proof (payload_pos crc T).
  destruct (commits_log f txs Hz Hok1 Hup1 ltac:(lia)) as (d & Hd & Hc & Hlog). rewrite N.mod_small in Hd by lia.
  eexists d, _, _, _. split; [exact Hd|]. split; [apply commit_shape; [by apply (ok_T txs)|done]|].
  intros ops1 ops2 c v Hops Hcr Hrec. destruct d as [c0 cc]. cbn in Hc, Hlog. subst cc.
  set (W := place _ _) in *. set (R := recs T) in *.
  assert ((∃ W1 W2, W = W1 ++ W2 ∧ ops1 = apply_records W1 ∧ ops2 ≠ []) ∨
          ∃ k, ops1 = apply_records W ++ DSync :: k ∧ apply_records R ++ [DSync] = k ++ ops2) as [(W1 & W2 & HW & -> & Hne)|(k & -> & Hk)].
  { apply app_eq_inv in Hops as [(k & E1 & E2)|(k & E1 & E2)].
    - left. apply map_eq_app in E1 as (W1 & W2 & -> & <- & <-). exists W1, W2. split_and!; [done|done|]. rewrite E2. by destruct W2.
    - destruct k as [|o k].
      + left. rewrite app_nil_r in E1. exists W, []. rewrite app_nil_r. cbn in E2. split_and!; [done|done|]. by rewrite <- E2.
      + right. injection E2 as <- E2. exists k. by split. }
  - rewrite run_records in Hcr. cbn [cache stable] in Hcr. rewrite app_nil_r in Hcr.
    split; [|done]. destruct (journaling_recoverable f c0 txs T Hlog Hok Hup Hfit c) as [Hr|Hr].
    + intros b. destruct (Hcr b) as [?|Hb]; [by left|right]. fold W. rewrite HW. apply elem_of_app. left.
      by apply list_elem_of_In, in_rev, list_elem_of_In.
    + left. by apply (recovers_target c).
    + right. by apply (recovers_target c).
  - assert (recoverable c (after f (txs ++ [T]))) as Hr; [|split; [right|intros _]; by apply (recovers_target c)].
    apply (applying_recoverable f c0); [done|done|done|done|]. intros b. fold W R.
    rewrite foldl_app, run_records in Hcr. cbn [foldl exec] in Hcr.
    destruct (crash_written _ _ _ Hcr b) as [Hb|Hb].
    + left. rewrite Hb. unfold view, overlay. cbn. by rewrite app_nil_r.
    + right. rewrite <- written_records. apply (f_equal written) in Hk. rewrite !written_app in Hk. cbn in Hk. rewrite app_nil_r in Hk.
      rewrite Hk. apply elem_of_app. by left.
Qed.
End promise.

(** ** Faults, with the CRC-32 of [crc32fast] *)
Definition crc32_bit (c : N) : N := if N.odd c then N.lxor (N.div2 c) 0xEDB88320 else N.div2 c.
Definition crc32_byte (c : N) (b : byte) : N := Nat.iter 8 crc32_bit (N.lxor c (Byte.to_N b)).
Definition crc32 (bs : list byte) : N := N.lxor (foldl crc32_byte 0xFFFFFFFF bs) 0xFFFFFFFF mod 2 ^ 32.

Lemma crc32_lt bs : crc32 bs < 2 ^ 32.
Proof. by apply N.mod_lt. Qed.

Definition data (b : byte) : block := replicate BLOCK_SIZE b.
Definition test_tx (id : N) (blocks : list (N * byte)) : Transaction :=
  mkTx id (list_to_map (map (λ p, (p.1, data p.2)) blocks)) 0 ∅ 0.
Definition test_sb (blocks gen : N) : Superblock := mkSb 100 blocks gen.
Definition empty_disk : N → block := λ _, zero_block.
Definition at5 (d : JDisk) : byte := nth 0 (view d 5) x00.
Definition recovered (sb : Superblock) (d : JDisk) : JDisk := run_ops d (recover crc32 sb (stable d)).2.

(** A committed transaction is lost when it wraps around the end of the
    journal. Three commits on a journal of 12 blocks: the third is written
    across the end of the journal and in place, and synced. Recovery does not
    find it, and replays the second over it. *)
Theorem wrapped_commit_lost :
  let sb := test_sb 12 0 in
  let txs := [test_tx 1 [(5, x01)]; test_tx 2 [(5, x02)]; test_tx 3 [(5, x03); (6, x04)]] in
  (λ '(d, j), (j, cache d, at5 d, at5 (recovered sb d))) <$> commits crc32 sb 0 (mkJD empty_disk []) txs =
    Some (2, [], x03, x02).
Proof. by vm_compute. Qed.

(** A crash that keeps the newest of some blocks. *)
Definition crash_keep (keep : N → bool) (d : JDisk) (b : N) : block := if keep b then view d b else stable d b.

Lemma crash_keep_crashed keep d : crashed d (crash_keep keep d).
Proof.
  intros b. unfold crash_keep. destruct (keep b); [|by left]. unfold view.
  destruct (cached b (cache d)) as [v|] eqn:E; cbn [from_option]; [right|by left].
  induction (cache d) as [|[b' v'] c IH]; [done|]. cbn [cached] in E. destruct (N.eqb_spec b' b) as [->|]; [|right; by apply IH].
  injection E as ->. by left.
Qed.

(** A record of an earlier session is accepted as part of a new
    transaction. Session one commits block 5 twice. The next mount starts the
    journal over; transaction 3, which does not touch block 5, is interrupted
    with its header and footer on disk and its record not. The record of
    transaction 1 is still between them, recovery takes it for transaction
    3's, and block 5 goes back to its first version. *)
Theorem stale_record_accepted :
  ∃ d j ops j', let sb := test_sb 12 2 in let t := test_tx 3 [(9, x03)] in
    let c := crash_keep (λ b, (b =? 100) || (b =? 103)) (run_ops d (take 4 ops)) in
    commits crc32 (test_sb 12 0) 0 (mkJD empty_disk []) [test_tx 1 [(5, x01)]; test_tx 2 [(5, x02)]] = Some (d, j) ∧
    commit crc32 sb 0 t = Some (ops, j') ∧ dirty_blocks t !! 5 = None ∧
    crashed (run_ops d (take 4 ops)) c ∧ at5 d = x02 ∧ at5 (recovered sb (mkJD c [])) = x01.
Proof.
  set (keep := λ b, (b =? 100) || (b =? 103)).
  assert (('(d, j) ← commits crc32 (test_sb 12 0) 0 (mkJD empty_disk []) [test_tx 1 [(5, x01)]; test_tx 2 [(5, x02)]];
           '(ops, j') ← commit crc32 (test_sb 12 2) 0 (test_tx 3 [(9, x03)]);
           Some (at5 d, at5 (recovered (test_sb 12 2) (mkJD (crash_keep keep (run_ops d (take 4 ops))) [])))) = Some (x02, x01)) as E
    by by vm_compute.
  destruct (commits _ _ _ _ _) as [[d j]|] eqn:E1; [|done]. cbn [mbind option_bind] in E.
  destruct (commit _ _ _ _) as [[ops j']|] eqn:E2; [|done]. cbn [mbind option_bind] in E. injection E as E3 E4.
  exists d, j, ops, j'. cbv zeta. split_and!; [done|done|by vm_compute|apply crash_keep_crashed|done|done].
Qed.

(** [tx_ok], executable. *)
Definition tx_okb (crc : list byte → N) (sb : Superblock) (tx : Transaction) : bool :=
  let keys := sorted_keys tx in
  (tx_id tx <? two64) && (timestamp tx <? two64) && (generation sb <? tx_id tx) && (0 <? length keys)%nat &&
  (2 * N.of_nat (length keys) + 2 <? 2 ^ 32) &&
  forallb (λ k, (k <? two64) && negb (crc (block_of tx k) =? 0) && negb (crc zero_block =? crc (block_of tx k))) keys &&
  forallb (λ k, (k <? journal_start sb) || (journal_start sb + journal_blocks sb <=? k)) keys &&
  forallb (λ b, negb (header_ok crc b)) (tail (payload crc tx)).

Lemma tx_okb_ok crc sb tx : tx_okb crc sb tx = true → tx_ok crc sb tx.
Proof.
  unfold tx_okb. rewrite !andb_true_iff, !N.ltb_lt, Nat.ltb_lt, !forallb_forall.
  intros (((((((H1 & H2) & H3) & H4) & H5) & H6) & H7) & H8). split; try done; try apply List.Forall_forall.
  - intros E. unfold sorted_keys in H4. rewrite E, map_to_list_empty in H4. by apply (Nat.lt_irrefl 0).
  - intros k Hk. specialize (H6 k Hk). rewrite !andb_true_iff, !negb_true_iff, N.ltb_lt, !N.eqb_neq in H6.
    destruct H6 as [[? ?] ?]. split; [done|]. by split.
  - intros k Hk. specialize (H7 k Hk). by rewrite orb_true_iff, N.ltb_lt, N.leb_le in H7.
  - intros b Hb. specialize (H8 b Hb). by rewrite negb_true_iff in H8.
Qed.

Lemma commit_atomic_witness :
  let sb := test_sb 12 0 in let txs := [test_tx 1 [(5, x01)]] in let T := test_tx 2 [(5, x02); (6, x03)] in
  ∃ d j ops j', commits crc32 sb 0 (mkJD empty_disk []) txs = Some (d, j) ∧ commit crc32 sb j T = Some (ops, j') ∧
    ∀ ops1 ops2 c v, ops = ops1 ++ ops2 → crashed (run_ops d ops1) c → recovers crc32 sb c v →
      ((∀ b, outside sb b → v b = after empty_disk txs b) ∨ (∀ b, outside sb b → v b = after empty_disk (txs ++ [T]) b)) ∧
      (ops2 = [] → ∀ b, outside sb b → v b = after empty_disk (txs ++ [T]) b).
Proof.
  cbv zeta. apply (commit_atomic crc32 crc32_lt).
  - by vm_compute.
  - done.
  - apply Forall_app, conj; apply Forall_singleton, tx_okb_ok; by vm_compute.
  - repeat constructor.
  - by vm_compute.
Defined.
