(* ===== verification/Allocator.v ===== *)
(** * The block bitmap allocator ([lionfs/src/allocator/bitmap.rs])

    First-fit over the bits of a group's bitmap blocks, read and written
    through the transaction overlay. [scan_free_run] keeps the loop structure
    of the source: bitmap blocks, bytes (full bytes skipped), bits. *)
From S2P Require Import Prelude Transaction.
From Stdlib Require Import NArith ZArith Lia Strings.Byte.
From stdpp Require Import base numbers gmap option list.
#[local] Open Scope N_scope.

(** Bits per bitmap block. *)
Definition BITS : N := 32768.

Inductive AllocError := InvalidInput | OutOfMemory | IoError.

(** [byte & (1 << bit) == 0] *)
Definition bit_clear (b : byte) (bit : N) : bool := negb (N.testbit (Byte.to_N b) bit).

(** The inner loop: [inl start] found a run; [inr (current_run, run_start_block)]
    otherwise, also after the break at the end of the group. *)
Fixpoint scan_bits (n : nat) (b : byte) (base bit_idx : N) (bpg count run start : N) : N + N * N :=
  match n with
  | O => inr (run, start)
  | S n =>
      let absolute_block := base + bit_idx in
      if bpg <=? absolute_block then inr (run, start)
      else if bit_clear b bit_idx then
        let start := if run =? 0 then absolute_block else start in
        let run := run + 1 in
        if run =? count then inl start
        else scan_bits n b base (bit_idx + 1) bpg count run start
      else scan_bits n b base (bit_idx + 1) bpg count 0 start
  end.

(** The byte loop; [base] is the absolute block of the first byte's bit 0 and
    [start_bit] applies to the first byte only. *)
Fixpoint scan_bytes (bytes : list byte) (base start_bit : N) (bpg count run start : N) : N + N * N :=
  match bytes with
  | [] => inr (run, start)
  | b :: bytes =>
      if bool_decide (b = xff) then scan_bytes bytes (base + 8) 0 bpg count 0 start
      else match scan_bits (N.to_nat (8 - start_bit)) b base start_bit bpg count run start with
           | inl s => inl s
           | inr (run, start) => scan_bytes bytes (base + 8) 0 bpg count run start
           end
  end.

(** The loop over bitmap blocks; [None]: a bitmap block cannot be read. *)
Fixpoint scan_blocks (n : nat) (ctx : TxContext) (bitmap bm_idx start_byte start_bit : N)
    (bpg count run start : N) : option (N + N * N) :=
  match n with
  | O => Some (inr (run, start))
  | S n =>
      match read_block ctx (bitmap + bm_idx) with
      | None => None
      | Some buf =>
          match scan_bytes (drop (N.to_nat start_byte) buf) (bm_idx * BITS + start_byte * 8) start_bit bpg count run start with
          | inl s => Some (inl s)
          | inr (run, start) => scan_blocks n ctx bitmap (bm_idx + 1) 0 0 bpg count run start
          end
      end
  end.

Definition set_bit (set : bool) (bit : N) (b : byte) : byte :=
  byte_of_N (if set then N.lor (Byte.to_N b) (N.shiftl 1 bit) else N.ldiff (Byte.to_N b) (N.shiftl 1 bit)).

(** [modify_blocks]'s loop: the bitmap block held in [cur] is written back when
    the next bit lies in another one. The flag is the result: a block that
    cannot be read ends the loop, earlier blocks staying modified. *)
Fixpoint modify_loop (n : nat) (bitmap block : N) (set : bool) (cur : option (N * list byte)) (ctx : TxContext)
    : TxContext * bool :=
  match n with
  | O => (match cur with Some (bm, buf) => write_block (bitmap + bm) buf ctx | None => ctx end, true)
  | S n =>
      let bm_idx := block / BITS in
      let byte_idx := N.to_nat (block mod BITS / 8) in
      let bit_idx := block mod 8 in
      let step ctx buf :=
        modify_loop n bitmap (block + 1) set
          (Some (bm_idx, <[byte_idx := set_bit set bit_idx (nth byte_idx buf x00)]> buf)) ctx in
      let load ctx :=
        match read_block ctx (bitmap + bm_idx) with None => (ctx, false) | Some buf => step ctx buf end in
      match cur with
      | Some (bm, buf) => if bm =? bm_idx then step ctx buf else load (write_block (bitmap + bm) buf ctx)
      | None => load ctx
      end
  end.

Definition modify_blocks (ctx : TxContext) (bitmap start count : N) (set : bool) : TxContext * bool :=
  modify_loop (N.to_nat count) bitmap start set None ctx.

Definition mark_blocks_used (ctx : TxContext) (bitmap start count : N) : TxContext * bool :=
  modify_blocks ctx bitmap start count true.
Definition mark_blocks_free (ctx : TxContext) (bitmap start count : N) : TxContext * bool :=
  modify_blocks ctx bitmap start count false.

Definition div_ceil (a b : N) : N := (a + b - 1) / b.

Definition scan_free_run (ctx : TxContext) (bitmap bpg count from_bit mark_count : N) : TxContext * option N :=
  let total_bitmap_blocks := div_ceil bpg BITS in
  let start_bm_idx := N.min (from_bit / BITS) (total_bitmap_blocks - 1) in
  let start_byte := from_bit mod BITS / 8 in
  let start_bit := from_bit mod 8 in
  match scan_blocks (N.to_nat (total_bitmap_blocks - start_bm_idx)) ctx bitmap start_bm_idx start_byte start_bit
          bpg count 0 0 with
  | Some (inl run_start_block) =>
      let '(ctx, ok) := mark_blocks_used ctx bitmap run_start_block mark_count in
      (ctx, if ok then Some run_start_block else None)
  | _ => (ctx, None)
  end.

(** [Option::or_else] over the context. *)
Definition or_else (r : TxContext * option N) (f : TxContext → TxContext * option N) : TxContext * option N :=
  match r with (ctx, Some s) => (ctx, Some s) | (ctx, None) => f ctx end.

Definition preferred_search_start (last : option N) (bpg : N) : N :=
  N.min (match last with Some last => wadd64 last 1 | None => 0 end) bpg.

Definition allocate_extents (ctx : TxContext) (bitmap bpg count : N) : TxContext * (AllocError + N) :=
  if count =? 0 then (ctx, inl InvalidInput)
  else
    let scan from ctx := scan_free_run ctx bitmap bpg count from count in
    let '(ctx, run) :=
      match alloc_cursor ctx with
      | Some cursor => or_else (scan cursor ctx) (scan 0)
      | None => scan 0 ctx
      end in
    match run with
    | Some start => (add_delta (Z.of_N count) (set_cursor (Some (wadd64 start count)) ctx), inr start)
    | None => (ctx, inl OutOfMemory)
    end.

Definition allocate_extents_hinted (ctx : TxContext) (bitmap bpg count hint : N) : TxContext * (AllocError + N) :=
  if count =? 0 then (ctx, inl InvalidInput)
  else
    let clamped_hint := preferred_search_start (Some hint) bpg in
    let scan from ctx := scan_free_run ctx bitmap bpg count from count in
    let '(ctx, run) :=
      or_else (or_else (scan clamped_hint ctx)
        (λ ctx, match alloc_cursor ctx with Some cursor => scan cursor ctx | None => (ctx, None) end))
        (scan 0) in
    match run with
    | Some start => (add_delta (Z.of_N count) (set_cursor (Some (wadd64 start count)) ctx), inr start)
    | None => (ctx, inl OutOfMemory)
    end.

Definition allocate_extents_meta (ctx : TxContext) (bitmap bpg count : N) : TxContext * (AllocError + N) :=
  if count =? 0 then (ctx, inl InvalidInput)
  else
    let end_zone_start := bpg - wadd64 1 (meta_high_water ctx) in
    let upper_half := bpg / 2 in
    let scan from ctx := scan_free_run ctx bitmap bpg count from count in
    let '(ctx, run) := or_else (or_else (scan end_zone_start ctx) (scan upper_half)) (scan 0) in
    match run with
    | Some run =>
        (add_delta (Z.of_N count)
           (set_high_water (wsub64 (wadd64 (N.max (bpg - run) (meta_high_water ctx)) count) 1) ctx), inr run)
    | None => (ctx, inl OutOfMemory)
    end.

Definition allocate_extents_reserved (ctx : TxContext) (bitmap bpg want mark : N) (hint : option N)
    : TxContext * (AllocError + N) :=
  if ((mark =? 0) || (want <? mark))%bool then (ctx, inl InvalidInput)
  else
    let scan n from ctx := scan_free_run ctx bitmap bpg n from mark in
    let want_run ctx :=
      match hint, alloc_cursor ctx with
      | Some h, _ => or_else (scan want (preferred_search_start (Some h) bpg) ctx) (scan want 0)
      | None, Some c => or_else (scan want c ctx) (scan want 0)
      | None, None => scan want 0 ctx
      end in
    let '(ctx, run) := or_else (want_run ctx) (scan mark 0) in
    match run with
    | Some start => (add_delta (Z.of_N mark) (set_cursor (Some (wadd64 start mark)) ctx), inr start)
    | None => (ctx, inl OutOfMemory)
    end.

Definition free_extents (ctx : TxContext) (bitmap start count : N) : TxContext * (AllocError + unit) :=
  let ctx := add_delta (- Z.of_N count) ctx in
  let '(ctx, ok) := mark_blocks_free ctx bitmap start count in
  (ctx, if ok then inr () else inl IoError).

(** The bits of one bitmap block, and the loop over blocks. *)
Definition count_block (buf : list byte) (bits : N) : N :=
  N.of_nat (length (filter (λ i, bit_clear (nth (N.to_nat (N.of_nat i / 8)) buf x00) (N.of_nat i mod 8) = true)
                      (seq 0 (N.to_nat bits)))).

Fixpoint count_loop (fuel : nat) (ctx : TxContext) (bitmap bm_idx remaining free : N) : option N :=
  if remaining =? 0 then Some free
  else match fuel with
       | O => None
       | S fuel =>
           match read_block ctx (bitmap + bm_idx) with
           | None => None
           | Some buf =>
               let bits_this_block := N.min remaining BITS in
               count_loop fuel ctx bitmap (bm_idx + 1) (remaining - bits_this_block) (free + count_block buf bits_this_block)
           end
       end.

Definition count_free_blocks (ctx : TxContext) (bitmap total_blocks : N) : option N :=
  count_loop (N.to_nat (div_ceil total_blocks BITS)) ctx bitmap 0 total_blocks 0.

(** ** What the bitmap says *)

Definition used (ctx : TxContext) (bitmap b : N) : bool :=
  match read_block ctx (bitmap + b / BITS) with
  | Some buf => N.testbit (Byte.to_N (nth (N.to_nat (b mod BITS / 8)) buf x00)) (b mod 8)
  | None => true
  end.

Definition bitmap_ok (ctx : TxContext) (bitmap bpg : N) : Prop :=
  ∀ i, i < div_ceil bpg BITS → ∃ buf, read_block ctx (bitmap + i) = Some buf ∧ length buf = BLOCK_SIZE.

(** No [count] consecutive free blocks in [[e, hi)]. *)
Definition no_run (U : N → bool) (e hi count : N) : Prop :=
  ∀ s, e <= s → s + count <= hi → ∃ x, s <= x < s + count ∧ U x = true.

(** [s] starts the first run of [count] free blocks at or after [e]. *)
Definition first_run (U : N → bool) (e bpg count s : N) : Prop :=
  e <= s ∧ s + count <= bpg ∧ (∀ x, s <= x < s + count → U x = false) ∧
  ∀ s', e <= s' < s → s' + count <= bpg → ∃ x, s' <= x < s' + count ∧ U x = true.

(** The scan has reached block [b]. *)
Definition scan_inv (U : N → bool) (e bpg count b run start : N) : Prop :=
  no_run U e (N.min b bpg) count ∧ e <= b ∧
  (b <= bpg → run < count ∧ e + run <= b ∧ (∀ x, b - run <= x < b → U x = false) ∧
              (run ≠ 0 → start = b - run) ∧ (b - run = e ∨ U (b - run - 1) = true)).

Definition scan_ok (U : N → bool) (e bpg count b : N) (r : N + N * N) : Prop :=
  match r with
  | inl s => first_run U e bpg count s
  | inr (run, start) => scan_inv U e bpg count b run start
  end.

Lemma scan_free_step U e bpg count b run start :
  scan_inv U e bpg count b run start → b < bpg → U b = false →
  let start' := if run =? 0 then b else start in
  if run + 1 =? count then first_run U e bpg count start' else scan_inv U e bpg count (b + 1) (run + 1) start'.
Proof.
  intros (Hno & He & Hrun) Hb Hfree. destruct Hrun as (Hlt & Her & Hfr & Hst & Hedge); [lia|]. cbv zeta.
  assert ((if run =? 0 then b else start) = b - run) as -> by (destruct (N.eqb_spec run 0); [lia|by apply Hst]).
  assert (∀ x, b - run <= x < b + 1 → U x = false) as Hfr'.
  { intros x Hx. destruct (N.eq_dec x b) as [->|]; [done|]. apply Hfr. lia. }
  destruct (N.eqb_spec (run + 1) count) as [<-|Hne].
  - split; [lia|]. split; [lia|]. split; [intros x Hx; apply Hfr'; lia|].
    intros s' Hs' Hs2. destruct (N.le_gt_cases (s' + (run + 1)) b) as [Hle|Hgt]; [apply Hno; lia|].
    destruct Hedge as [Hedge|Hedge]; [lia|]. exists (b - run - 1). split; [lia|done].
  - split; [|split; [lia|]].
    + intros s Hs Hs2. destruct (N.le_gt_cases (s + count) b) as [Hle|Hgt]; [apply Hno; lia|].
      destruct Hedge as [Hedge|Hedge]; [lia|]. exists (b - run - 1). split; [lia|done].
    + intros _. split_and!; [lia|lia| |lia|].
      * intros x Hx. apply Hfr'. lia.
      * replace (b + 1 - (run + 1)) with (b - run) by lia. done.
Qed.

Lemma scan_used_step U e bpg count b run start start' :
  scan_inv U e bpg count b run start → b < bpg → U b = true → scan_inv U e bpg count (b + 1) 0 start'.
Proof.
  intros (Hno & He & Hrun) Hb Hused. destruct Hrun as (Hlt & Her & _); [lia|]. split; [|split; [lia|]].
  - intros s Hs Hs2. destruct (N.le_gt_cases (s + count) b) as [Hle|Hgt]; [apply Hno; lia|].
    exists b. split; [lia|done].
  - intros _. split_and!; [lia|lia|lia|lia|]. right. by replace (b + 1 - 0 - 1) with b by lia.
Qed.

Lemma scan_past U e bpg count b b' run start run' start' :
  scan_inv U e bpg count b run start → bpg <= b → b <= b' → (b' <= bpg → b' = b ∧ run' = run ∧ start' = start) →
  scan_inv U e bpg count b' run' start'.
Proof.
  intros (Hno & He & Hrun) Hb Hb' Heq. split; [|split; [lia|]].
  - replace (N.min b' bpg) with (N.min b bpg) by lia. done.
  - intros Hle. destruct (Heq Hle) as (-> & -> & ->). auto.
Qed.

Lemma scan_bits_ok U e bpg count b base n : ∀ bit run start,
  scan_inv U e bpg count (base + bit) run start → bit + N.of_nat n = 8 →
  (∀ j, bit <= j < 8 → U (base + j) = N.testbit (Byte.to_N b) j) →
  scan_ok U e bpg count (base + 8) (scan_bits n b base bit bpg count run start).
Proof.
  induction n as [|n IH]; intros bit run start Hinv Hbit HU.
  { cbn. replace 8 with bit by lia. done. }
  cbn [scan_bits]. cbv zeta. destruct (N.leb_spec bpg (base + bit)) as [Hpast|Hin].
  { eapply scan_past; [exact Hinv|done|lia|]. lia. }
  unfold bit_clear. rewrite <- HU by lia. destruct (U (base + bit)) eqn:E; cbn [negb].
  - apply IH; [|lia|intros j Hj; apply HU; lia]. rewrite N.add_assoc. by eapply scan_used_step.
  - pose proof (scan_free_step _ _ _ _ _ _ _ Hinv Hin E) as Hstep. cbv zeta in Hstep.
    destruct (run + 1 =? count); [done|]. apply IH; [by rewrite N.add_assoc|lia|]. intros j Hj. apply HU. lia.
Qed.

(** Eight used bits at once. *)
Lemma scan_full_byte U e bpg count base k : ∀ bit run start,
  scan_inv U e bpg count (base + bit) run start → bit + N.of_nat k = 8 → (0 < k)%nat →
  (∀ j, bit <= j < 8 → U (base + j) = true) → scan_inv U e bpg count (base + 8) 0 start.
Proof.
  induction k as [|k IH]; intros bit run start Hinv Hbit Hk HU; [lia|].
  destruct (N.le_gt_cases bpg (base + bit)) as [Hpast|Hin].
  { eapply scan_past; [exact Hinv|done|lia|]. lia. }
  apply (scan_used_step _ _ _ _ _ _ _ start) in Hinv; [|done|apply HU; lia].
  destruct k as [|k]; [by replace 8 with (bit + 1) by lia; rewrite N.add_assoc|].
  apply (IH (bit + 1) 0); [by rewrite N.add_assoc|lia|lia|]. intros j Hj. apply HU. lia.
Qed.

Lemma xff_bits j : j < 8 → N.testbit (Byte.to_N xff) j = true.
Proof. intros Hj. change (Byte.to_N xff) with (N.ones 8). by apply N.ones_spec_low. Qed.

Lemma scan_bytes_ok U e bpg count bytes : ∀ base bit run start,
  scan_inv U e bpg count (base + bit) run start → bit < 8 → (bytes = [] → bit = 0) →
  (∀ i j, (i < length bytes)%nat → j < 8 → (i = 0%nat → bit <= j) →
     U (base + N.of_nat i * 8 + j) = N.testbit (Byte.to_N (nth i bytes x00)) j) →
  scan_ok U e bpg count (base + N.of_nat (length bytes) * 8) (scan_bytes bytes base bit bpg count run start).
Proof.
  induction bytes as [|b bytes IH]; intros base bit run start Hinv Hbit Hnil HU.
  { cbn. rewrite (Hnil eq_refl) in Hinv. by rewrite N.add_0_r in *. }
  cbn [scan_bytes length]. replace (base + N.of_nat (S (length bytes)) * 8) with (base + 8 + N.of_nat (length bytes) * 8) by lia.
  assert (∀ j, bit <= j < 8 → U (base + j) = N.testbit (Byte.to_N b) j) as HU0.
  { intros j Hj. specialize (HU 0%nat j). cbn in HU. rewrite N.add_0_r in HU. apply HU; lia. }
  assert (∀ i j, (i < length bytes)%nat → j < 8 → (i = 0%nat → 0 <= j) →
    U (base + 8 + N.of_nat i * 8 + j) = N.testbit (Byte.to_N (nth i bytes x00)) j) as HU'.
  { intros i j Hi Hj _. specialize (HU (S i) j). cbn [nth length] in HU. rewrite <- HU by lia. f_equal. lia. }
  case_bool_decide as Hff.
  - subst b. apply IH; [|lia|done|done]. rewrite N.add_0_r.
    apply (scan_full_byte U e bpg count base (N.to_nat (8 - bit)) bit run start); [done|lia|lia|].
    intros j Hj. rewrite HU0 by done. apply xff_bits. lia.
  - pose proof (scan_bits_ok U e bpg count b base (N.to_nat (8 - bit)) bit run start Hinv ltac:(lia) HU0) as Hbits.
    destruct (scan_bits _ _ _ _ _ _ _ _) as [s|[run' start']]; [done|].
    apply IH; [by rewrite N.add_0_r|lia|done|done].
Qed.

(** ** The block loop *)

Lemma block_coords q i j :
  i < 4096 → j < 8 →
  (q * BITS + i * 8 + j) / BITS = q ∧ (q * BITS + i * 8 + j) mod BITS / 8 = i ∧ (q * BITS + i * 8 + j) mod 8 = j.
Proof.
  intros Hi Hj. unfold BITS.
  assert ((q * 32768 + i * 8 + j) / 32768 = q) as Hq by (symmetry; apply (N.div_unique _ _ _ (i * 8 + j)); lia).
  assert ((q * 32768 + i * 8 + j) mod 32768 = i * 8 + j) as Hr by (symmetry; apply (N.mod_unique _ _ q); lia).
  rewrite Hq, Hr. split; [done|]. split.
  - symmetry. apply (N.div_unique _ _ _ j); lia.
  - symmetry. apply (N.mod_unique _ _ (q * 4096 + i)); lia.
Qed.

Lemma div_ceil_le bpg : bpg <= div_ceil bpg BITS * BITS.
Proof.
  unfold div_ceil, BITS. pose proof (N.div_mod (bpg + 32768 - 1) 32768 ltac:(done)).
  pose proof (N.mod_lt (bpg + 32768 - 1) 32768 ltac:(done)). lia.
Qed.

Lemma used_at ctx bitmap q buf i j :
  read_block ctx (bitmap + q) = Some buf → i < 4096 → j < 8 →
  used ctx bitmap (q * BITS + i * 8 + j) = N.testbit (Byte.to_N (nth (N.to_nat i) buf x00)) j.
Proof.
  intros Hread Hi Hj. destruct (block_coords q i j Hi Hj) as (Hq & Hb & Hr).
  unfold used. by rewrite Hq, Hb, Hr, Hread.
Qed.

Lemma scan_blocks_ok ctx bitmap bpg e count n : ∀ bm_idx sb bit run start,
  bitmap_ok ctx bitmap bpg → (n = 0%nat ∨ bm_idx + N.of_nat n = div_ceil bpg BITS) →
  (n = 0%nat → div_ceil bpg BITS <= bm_idx) → sb < 4096 → bit < 8 →
  scan_inv (used ctx bitmap) e bpg count (bm_idx * BITS + sb * 8 + bit) run start →
  match scan_blocks n ctx bitmap bm_idx sb bit bpg count run start with
  | Some (inl s) => first_run (used ctx bitmap) e bpg count s
  | Some (inr _) => no_run (used ctx bitmap) e bpg count
  | None => False
  end.
Proof.
  induction n as [|n IH]; intros bm_idx sb bit run start Hok Hn Hn0 Hsb Hbit Hinv.
  { cbn. destruct Hinv as (Hno & _). pose proof (div_ceil_le bpg). specialize (Hn0 eq_refl).
    assert (bpg <= bm_idx * BITS) by (unfold BITS in *; lia). by rewrite N.min_r in Hno by lia. }
  cbn [scan_blocks]. destruct Hn as [|Hn]; [done|].
  destruct (Hok bm_idx) as (buf & Hread & Hlen); [lia|]. rewrite Hread. unfold BLOCK_SIZE in Hlen.
  assert (length (drop (N.to_nat sb) buf) = (4096 - N.to_nat sb)%nat) as Hdl by by rewrite length_drop, Hlen.
  pose proof (scan_bytes_ok (used ctx bitmap) e bpg count (drop (N.to_nat sb) buf) (bm_idx * BITS + sb * 8) bit run start Hinv Hbit)
    as Hbytes.
  unshelve epose proof (Hbytes _ _) as Hres; [|intros i j Hi Hj _|clear Hbytes].
  - intros Hnil. apply (f_equal length) in Hnil. rewrite Hdl in Hnil. cbn in Hnil. lia.
  - rewrite Hdl in Hi. replace (bm_idx * BITS + sb * 8 + N.of_nat i * 8 + j) with (bm_idx * BITS + (sb + N.of_nat i) * 8 + j) by lia.
    rewrite (used_at _ _ _ buf) by (done || lia). rewrite !nth_lookup, lookup_drop.
    by replace (N.to_nat (sb + N.of_nat i)) with (N.to_nat sb + i)%nat by lia.
  - destruct (scan_bytes _ _ _ _ _ _ _) as [s|[run' start']]; [done|]. cbn in Hres. rewrite Hdl in Hres.
    apply IH; [done| |lia|lia|lia|].
    + destruct n; [by left|]. right. lia.
    + replace ((bm_idx + 1) * BITS + 0 * 8 + 0) with (bm_idx * BITS + sb * 8 + N.of_nat (4096 - N.to_nat sb) * 8)
        by (unfold BITS; lia). done.
Qed.

(** Where a scan from [from] really starts. *)
Definition eff_start (bpg from : N) : N :=
  N.min (from / BITS) (div_ceil bpg BITS - 1) * BITS + from mod BITS.

Lemma eff_start_in bpg from : from < div_ceil bpg BITS * BITS → eff_start bpg from = from.
Proof.
  intros Hf. unfold eff_start. pose proof (N.div_mod from BITS ltac:(done)).
  assert (from / BITS < div_ceil bpg BITS) by (apply N.Div0.div_lt_upper_bound; lia).
  rewrite N.min_l by lia. lia.
Qed.

Lemma scan_inv_init U e bpg count : 0 < count → scan_inv U e bpg count e 0 0.
Proof.
  intros Hc. split; [|split; [lia|]].
  - intros s Hs Hs2. lia.
  - intros _. split_and!; [lia|lia|lia|lia|]. left. lia.
Qed.

Lemma scan_total ctx bitmap bpg count from :
  bitmap_ok ctx bitmap bpg → 0 < count →
  match scan_blocks (N.to_nat (div_ceil bpg BITS - N.min (from / BITS) (div_ceil bpg BITS - 1))) ctx bitmap
          (N.min (from / BITS) (div_ceil bpg BITS - 1)) (from mod BITS / 8) (from mod 8) bpg count 0 0 with
  | Some (inl s) => first_run (used ctx bitmap) (eff_start bpg from) bpg count s
  | Some (inr _) => no_run (used ctx bitmap) (eff_start bpg from) bpg count
  | None => False
  end.
Proof.
  intros Hok Hc. assert (from mod BITS < BITS) as Hmod by by apply N.mod_lt.
  assert (from mod 8 = (from mod BITS) mod 8) as Hm8.
  { change BITS with (8 * 4096). rewrite N.Div0.mod_mul_r. rewrite N.mul_comm, N.Div0.mod_add. by rewrite N.Div0.mod_mod. }
  pose proof (N.div_mod (from mod BITS) 8 ltac:(done)) as Hdm.
  apply scan_blocks_ok; [done|lia|lia| | |].
  - apply N.Div0.div_lt_upper_bound. exact Hmod.
  - by apply N.mod_lt.
  - replace (_ + _ + _) with (eff_start bpg from); [by apply scan_inv_init|]. unfold eff_start. rewrite Hm8. lia.
Qed.

(** ** Setting and clearing bits *)

(** Only dirty blocks differ. *)
Definition frame (ctx ctx' : TxContext) : Prop :=
  ∃ D, ctx' = set_tx (mkTx (tx_id (tx ctx)) D (timestamp (tx ctx)) (root_cells (tx ctx)) (alloc_delta (tx ctx))) ctx.

Lemma frame_refl ctx : frame ctx ctx.
Proof. exists (dirty_blocks (tx ctx)). by destruct ctx as [? [] ? ? ? ?]. Qed.

Lemma frame_write ctx block buf : frame ctx (write_block block buf ctx).
Proof. by eexists. Qed.

Lemma frame_trans c1 c2 c3 : frame c1 c2 → frame c2 c3 → frame c1 c3.
Proof. intros [D ->] [D' ->]. by exists D'. Qed.

(** The bitmap as the loop sees it: the block it holds is ahead of the overlay. *)
Definition bview (cur : option (N * list byte)) (ctx : TxContext) (bitmap i : N) : option (list byte) :=
  match cur with
  | Some (c, buf) => if c =? i then Some buf else read_block ctx (bitmap + i)
  | None => read_block ctx (bitmap + i)
  end.

Definition vused (cur : option (N * list byte)) (ctx : TxContext) (bitmap b : N) : bool :=
  match bview cur ctx bitmap (b / BITS) with
  | Some buf => N.testbit (Byte.to_N (nth (N.to_nat (b mod BITS / 8)) buf x00)) (b mod 8)
  | None => true
  end.

Lemma set_bit_spec set bit b j :
  bit < 8 → j < 8 → N.testbit (Byte.to_N (set_bit set bit b)) j = if j =? bit then set else N.testbit (Byte.to_N b) j.
Proof.
  intros Hbit Hj. unfold set_bit. rewrite to_N_of_N. change 256 with (2 ^ 8). rewrite N.mod_pow2_bits_low by done.
  rewrite N.shiftl_1_l. destruct set; [rewrite N.lor_spec|rewrite N.ldiff_spec]; rewrite N.pow2_bits_eqb, N.eqb_sym;
    destruct (j =? bit); by rewrite ?orb_true_r, ?orb_false_r, ?andb_false_r, ?andb_true_r.
Qed.

Lemma block_bits b : b mod BITS / 8 < 4096 ∧ b mod 8 < 8 ∧ b = b / BITS * BITS + b mod BITS / 8 * 8 + b mod 8.
Proof.
  assert (b mod BITS < BITS) by by apply N.mod_lt. assert (b mod 8 < 8) by by apply N.mod_lt.
  assert (b mod 8 = (b mod BITS) mod 8) as Hm8.
  { change BITS with (8 * 4096). rewrite N.Div0.mod_mul_r. rewrite (N.mul_comm 8), N.Div0.mod_add. by rewrite N.Div0.mod_mod. }
  split; [by apply N.Div0.div_lt_upper_bound|]. split; [done|].
  pose proof (N.div_mod b BITS ltac:(done)). pose proof (N.div_mod (b mod BITS) 8 ltac:(done)). rewrite Hm8. lia.
Qed.

(** Flipping one bit of the viewed block. *)
Lemma vused_flip set block buf cur ctx cur' ctx' bitmap x :
  bview cur ctx bitmap (block / BITS) = Some buf → length buf = BLOCK_SIZE →
  (∀ i, bview cur' ctx' bitmap i =
     if block / BITS =? i
     then Some (<[N.to_nat (block mod BITS / 8) := set_bit set (block mod 8) (nth (N.to_nat (block mod BITS / 8)) buf x00)]> buf)
     else bview cur ctx bitmap i) →
  vused cur' ctx' bitmap x = if x =? block then set else vused cur ctx bitmap x.
Proof.
  intros Hview Hlen Hnew. unfold vused. rewrite Hnew.
  destruct (block_bits block) as (Hb1 & Hb2 & Hb3), (block_bits x) as (Hx1 & Hx2 & Hx3). unfold BLOCK_SIZE in Hlen.
  destruct (N.eqb_spec (block / BITS) (x / BITS)) as [Hq|Hq].
  - rewrite <- Hq, Hview. rewrite !nth_lookup.
    destruct (N.eq_dec (block mod BITS / 8) (x mod BITS / 8)) as [Hi|Hi].
    + rewrite <- Hi, list_lookup_insert_eq by lia. cbn [from_option id]. rewrite set_bit_spec by done. rewrite ?nth_lookup.
      destruct (N.eqb_spec (x mod 8) (block mod 8)), (N.eqb_spec x block); try done; [|subst; done].
      exfalso. lia.
    + rewrite list_lookup_insert_ne by lia. destruct (N.eqb_spec x block); [subst; done|done].
  - destruct (N.eqb_spec x block); [subst; done|done].
Qed.

(** The final write-back makes the overlay agree with the view. *)
Lemma flush_view bitmap cur ctx i :
  read_block (match cur with Some (bm, buf) => write_block (bitmap + bm) buf ctx | None => ctx end) (bitmap + i)
  = bview cur ctx bitmap i.
Proof.
  destruct cur as [[c buf]|]; [|done]. cbn [bview]. destruct (N.eqb_spec c i) as [->|].
  - apply read_write_eq.
  - apply read_write_ne. lia.
Qed.

(** One iteration: the loop goes on with the flipped block in hand and an
    overlay that shows the other bitmap blocks unchanged. *)
Lemma modify_step bitmap tot set n block cur ctx buf :
  bview cur ctx bitmap (block / BITS) = Some buf → (∀ c b, cur = Some (c, b) → c < tot) →
  let buf' := <[N.to_nat (block mod BITS / 8) := set_bit set (block mod 8) (nth (N.to_nat (block mod BITS / 8)) buf x00)]> buf in
  ∃ ctx1, frame ctx ctx1 ∧
    modify_loop (S n) bitmap block set cur ctx = modify_loop n bitmap (block + 1) set (Some (block / BITS, buf')) ctx1 ∧
    (∀ i, bview (Some (block / BITS, buf')) ctx1 bitmap i = if block / BITS =? i then Some buf' else bview cur ctx bitmap i) ∧
    (∀ y, (∀ i, i < tot → y ≠ bitmap + i) → read_block ctx1 y = read_block ctx y).
Proof.
  intros Hbuf Hcur buf'. cbn [modify_loop]. cbv zeta. destruct cur as [[c cbuf]|]; cbn [bview] in Hbuf.
  - destruct (N.eqb_spec c (block / BITS)) as [->|Hne].
    + injection Hbuf as ->. exists ctx. split; [apply frame_refl|]. split; [done|]. split; [|done].
      intros i. cbn [bview]. by destruct (block / BITS =? i).
    + exists (write_block (bitmap + c) cbuf ctx). split; [apply frame_write|].
      rewrite read_write_ne, Hbuf by lia. split; [done|]. split.
      * intros i. cbn [bview]. destruct (N.eqb_spec (block / BITS) i); [done|].
        destruct (N.eqb_spec c i) as [->|]; [apply read_write_eq|apply read_write_ne; lia].
      * intros y Hy. apply read_write_ne. apply not_eq_sym, Hy. by eapply Hcur.
  - rewrite Hbuf. exists ctx. split; [apply frame_refl|]. done.
Qed.

Lemma modify_loop_ok bitmap tot set n : ∀ block cur ctx,
  (∀ i, i < tot → ∃ buf, bview cur ctx bitmap i = Some buf ∧ length buf = BLOCK_SIZE) →
  block + N.of_nat n <= tot * BITS → (∀ c buf, cur = Some (c, buf) → c < tot) →
  ∃ ctx', modify_loop n bitmap block set cur ctx = (ctx', true) ∧ frame ctx ctx' ∧
    (∀ i, i < tot → ∃ buf, read_block ctx' (bitmap + i) = Some buf ∧ length buf = BLOCK_SIZE) ∧
    (∀ x, used ctx' bitmap x =
       if ((block <=? x) && (x <? block + N.of_nat n))%bool then set else vused cur ctx bitmap x) ∧
    (∀ y, (∀ i, i < tot → y ≠ bitmap + i) → read_block ctx' y = read_block ctx y).
Proof.
  induction n as [|n IH]; intros block cur ctx Hview Hblk Hcur.
  - cbn [modify_loop]. eexists. split; [done|]. split; [|split; [|split]].
    + destruct cur as [[c buf]|]; [apply frame_write|apply frame_refl].
    + intros i Hi. rewrite flush_view. by apply Hview.
    + intros x. destruct (N.leb_spec block x), (N.ltb_spec x (block + N.of_nat 0)); cbn [andb]; try lia;
        unfold used, vused; by rewrite flush_view.
    + intros y Hy. destruct cur as [[c buf]|]; [|done]. apply read_write_ne. apply not_eq_sym, Hy. by eapply Hcur.
  - assert (block / BITS < tot) as Hbm by (apply N.Div0.div_lt_upper_bound; lia).
    destruct (Hview _ Hbm) as (buf & Hbuf & Hlen).
    destruct (modify_step bitmap tot set n block cur ctx buf Hbuf Hcur) as (ctx1 & Hf1 & -> & Hv1 & Hy1).
    match goal with |- context [Some (_, ?b)] => set (buf' := b) in * end.
    destruct (IH (block + 1) (Some (block / BITS, buf')) ctx1) as (ctx' & Heq & Hf & Hok & Hused & Hy).
    { intros i Hi. rewrite Hv1. destruct (N.eqb_spec (block / BITS) i); [|by apply Hview].
      eexists. split; [done|]. unfold buf'. by rewrite length_insert. }
    { lia. }
    { by intros c b [= <- _]. }
    exists ctx'. split; [done|]. split; [by eapply frame_trans|]. split; [done|]. split.
    + intros x. rewrite Hused, (vused_flip set block buf cur ctx _ ctx1) by done.
      destruct (N.leb_spec (block + 1) x), (N.ltb_spec x (block + 1 + N.of_nat n)), (N.leb_spec block x),
        (N.ltb_spec x (block + N.of_nat (S n))), (N.eqb_spec x block); cbn [andb]; try lia; done.
    + intros y Hy0. rewrite Hy by done. by apply Hy1.
Qed.

(** ** The operations *)

Definition in_range (s n x : N) : bool := ((s <=? x) && (x <? s + n))%bool.

(** The bits of [[s, s+n)] have become [set], nothing else has changed. *)
Definition flipped (ctx ctx' : TxContext) (bitmap bpg s n : N) (set : bool) : Prop :=
  frame ctx ctx' ∧ bitmap_ok ctx' bitmap bpg ∧
  (∀ x, used ctx' bitmap x = if in_range s n x then set else used ctx bitmap x) ∧
  (∀ y, (∀ i, i < div_ceil bpg BITS → y ≠ bitmap + i) → read_block ctx' y = read_block ctx y).

Lemma modify_blocks_ok ctx bitmap bpg s n set :
  bitmap_ok ctx bitmap bpg → s + n <= bpg →
  ∃ ctx', modify_blocks ctx bitmap s n set = (ctx', true) ∧ flipped ctx ctx' bitmap bpg s n set.
Proof.
  intros Hok Hs. pose proof (div_ceil_le bpg). unfold modify_blocks.
  destruct (modify_loop_ok bitmap (div_ceil bpg BITS) set (N.to_nat n) s None ctx) as (ctx' & -> & Hf & Hok' & Hu & Hy);
    [done|lia|done|].
  exists ctx'. split; [done|]. split; [done|]. split; [done|]. split; [|done].
  intros x. rewrite Hu. unfold in_range. by rewrite N2Nat.id.
Qed.

Lemma scan_free_run_ok ctx bitmap bpg count from mark :
  bitmap_ok ctx bitmap bpg → 0 < count → mark <= count →
  match scan_free_run ctx bitmap bpg count from mark with
  | (ctx', Some s) => first_run (used ctx bitmap) (eff_start bpg from) bpg count s ∧ flipped ctx ctx' bitmap bpg s mark true
  | (ctx', None) => ctx' = ctx ∧ no_run (used ctx bitmap) (eff_start bpg from) bpg count
  end.
Proof.
  intros Hok Hc Hm. pose proof (scan_total ctx bitmap bpg count from Hok Hc) as Hscan. unfold scan_free_run. cbv zeta.
  destruct (scan_blocks _ _ _ _ _ _ _ _ _ _) as [[s|]|]; [|done|done].
  destruct (modify_blocks_ok ctx bitmap bpg s mark true Hok) as (ctx' & Heq & Hfl); [destruct Hscan as (_ & ? & _); lia|].
  unfold mark_blocks_used. rewrite Heq. done.
Qed.

Lemma eff_start_zero bpg : eff_start bpg 0 = 0.
Proof. unfold eff_start. rewrite N.Div0.div_0_l, N.Div0.mod_0_l, N.min_0_l. done. Qed.

(** What a chain of scans that marks [n] blocks returns. *)
Definition scan_result (ctx : TxContext) (bitmap bpg n : N) (r : TxContext * option N) : Prop :=
  match r with
  | (ctx', Some s) => s + n <= bpg ∧ (∀ x, in_range s n x = true → used ctx bitmap x = false) ∧
                      flipped ctx ctx' bitmap bpg s n true
  | (ctx', None) => ctx' = ctx
  end.

(** The chain fails only if no [n] consecutive blocks are free. *)
Definition complete (ctx : TxContext) (bitmap bpg n : N) (r : TxContext * option N) : Prop :=
  r.2 = None → no_run (used ctx bitmap) 0 bpg n.

Lemma in_range_iff s n x : in_range s n x = true ↔ s <= x < s + n.
Proof. unfold in_range. rewrite andb_true_iff, N.leb_le, N.ltb_lt. done. Qed.

Section chains.
Context (ctx : TxContext) (bitmap bpg : N) (Hok : bitmap_ok ctx bitmap bpg).

Lemma scan_result_scan count from n :
  0 < count → n <= count → scan_result ctx bitmap bpg n (scan_free_run ctx bitmap bpg count from n).
Proof.
  intros Hc Hn. pose proof (scan_free_run_ok ctx bitmap bpg count from n Hok Hc Hn) as Hs.
  destruct (scan_free_run _ _ _ _ _ _) as [ctx' [s|]]; [|by destruct Hs].
  destruct Hs as [(_ & Hle & Hfree & _) Hfl]. split; [lia|]. split; [|done].
  intros x Hx%in_range_iff. apply Hfree. lia.
Qed.

Lemma scan_result_or_else n r f :
  scan_result ctx bitmap bpg n r → scan_result ctx bitmap bpg n (f ctx) → scan_result ctx bitmap bpg n (or_else r f).
Proof. destruct r as [ctx' [s|]]; [done|]. cbn. by intros ->. Qed.

Lemma complete_scan count : 0 < count → complete ctx bitmap bpg count (scan_free_run ctx bitmap bpg count 0 count).
Proof.
  intros Hc Hnone. pose proof (scan_free_run_ok ctx bitmap bpg count 0 count Hok Hc ltac:(lia)) as Hs.
  destruct (scan_free_run _ _ _ _ _ _) as [ctx' [s|]]; [done|]. rewrite eff_start_zero in Hs. by destruct Hs.
Qed.

Lemma complete_or_else n r f :
  scan_result ctx bitmap bpg n r → complete ctx bitmap bpg n (f ctx) → complete ctx bitmap bpg n (or_else r f).
Proof. destruct r as [ctx' [s|]]; [done|]. cbn. by intros ->. Qed.

Lemma scan_result_none n : scan_result ctx bitmap bpg n (ctx, None).
Proof. done. Qed.
End chains.

Create HintDb alloc discriminated.
#[export] Hint Resolve scan_result_scan scan_result_or_else complete_scan complete_or_else scan_result_none : alloc.

(** One request to the allocator. *)
Inductive alloc_req :=
  | Plain (count : N)
  | Hinted (count hint : N)
  | Meta (count : N)
  | Reserved (want mark : N) (hint : option N).

Definition run_req (ctx : TxContext) (bitmap bpg : N) (req : alloc_req) : TxContext * (AllocError + N) :=
  match req with
  | Plain count => allocate_extents ctx bitmap bpg count
  | Hinted count hint => allocate_extents_hinted ctx bitmap bpg count hint
  | Meta count => allocate_extents_meta ctx bitmap bpg count
  | Reserved want mark hint => allocate_extents_reserved ctx bitmap bpg want mark hint
  end.

(** The number of blocks a request owns when it succeeds. *)
Definition req_blocks (req : alloc_req) : N :=
  match req with Plain c | Hinted c _ | Meta c => c | Reserved _ m _ => m end.

Definition req_valid (req : alloc_req) : Prop :=
  match req with Plain c | Hinted c _ | Meta c => 0 < c | Reserved w m _ => 0 < m <= w end.

(** The contract of an allocation. *)
Definition alloc_spec (ctx : TxContext) (bitmap bpg : N) (req : alloc_req) (r : TxContext * (AllocError + N)) : Prop :=
  let n := req_blocks req in
  match r with
  | (ctx', inr s) =>
      req_valid req ∧ s + n <= bpg ∧ (∀ x, in_range s n x = true → used ctx bitmap x = false) ∧
      (∀ x, used ctx' bitmap x = (in_range s n x || used ctx bitmap x)%bool) ∧
      bitmap_ok ctx' bitmap bpg ∧ alloc_delta (tx ctx') = (alloc_delta (tx ctx) + Z.of_N n)%Z ∧
      (∀ y, (∀ i, i < div_ceil bpg BITS → y ≠ bitmap + i) → read_block ctx' y = read_block ctx y)
  | (ctx', inl InvalidInput) => ctx' = ctx ∧ ¬ req_valid req
  | (ctx', inl OutOfMemory) => ctx' = ctx ∧ req_valid req ∧ no_run (used ctx bitmap) 0 bpg n
  | (_, inl IoError) => False
  end.

(** The common end of the four allocators: [f] moves the cursor or the high
    water mark. *)
Lemma alloc_finish ctx bitmap bpg req r (f : N → TxContext → TxContext) :
  req_valid req → scan_result ctx bitmap bpg (req_blocks req) r → complete ctx bitmap bpg (req_blocks req) r →
  (∀ s c y, read_block (f s c) y = read_block c y) → (∀ s c, alloc_delta (tx (f s c)) = alloc_delta (tx c)) →
  alloc_spec ctx bitmap bpg req
    (let '(c, run) := r in
     match run with
     | Some s => (add_delta (Z.of_N (req_blocks req)) (f s c), inr s)
     | None => (c, inl OutOfMemory)
     end).
Proof.
  intros Hv Hr Hc Hread Hdelta. destruct r as [ctx' [s|]]; [|cbn in *; auto].
  destruct Hr as (Hs & Hfree & Hframe & Hok & Hused & Hother). cbn. split; [done|]. split; [done|]. split; [done|].
  assert (∀ y, read_block (add_delta (Z.of_N (req_blocks req)) (f s ctx')) y = read_block ctx' y) as Hr'.
  { intros y. rewrite read_delta. apply Hread. }
  split_and!.
  - intros x. unfold used at 1. rewrite Hr'. fold (used ctx' bitmap x). rewrite Hused. by destruct (in_range _ _ _).
  - intros i Hi. rewrite Hr'. by apply Hok.
  - rewrite Hdelta. destruct Hframe as [D ->]. done.
  - intros y Hy. rewrite Hr'. by apply Hother.
Qed.

Lemma request_ok ctx bitmap bpg req :
  bitmap_ok ctx bitmap bpg → alloc_spec ctx bitmap bpg req (run_req ctx bitmap bpg req).
Proof.
  intros Hok. assert (∀ c : N, c <= c) as Hrefl by lia.
  destruct req as [count|count hint|count|want mark hint]; cbn [run_req].
  - unfold allocate_extents. destruct (N.eqb_spec count 0) as [->|Hnz]; [cbn; split; [done|lia]|].
    assert (0 < count) by lia. cbv zeta.
    apply (alloc_finish ctx bitmap bpg (Plain count) _ (λ s c, set_cursor (Some (wadd64 s count)) c));
      [done| | |done|done]; destruct (alloc_cursor ctx); cbn [req_blocks]; auto with alloc.
  - unfold allocate_extents_hinted. destruct (N.eqb_spec count 0) as [->|Hnz]; [cbn; split; [done|lia]|].
    assert (0 < count) by lia. cbv zeta.
    apply (alloc_finish ctx bitmap bpg (Hinted count hint) _ (λ s c, set_cursor (Some (wadd64 s count)) c));
      [done| | |done|done]; cbn [req_blocks]; destruct (alloc_cursor ctx) eqn:Ec;
      repeat (apply scan_result_or_else || apply complete_or_else); rewrite ?Ec; auto with alloc.
  - unfold allocate_extents_meta. destruct (N.eqb_spec count 0) as [->|Hnz]; [cbn; split; [done|lia]|].
    assert (0 < count) by lia. cbv zeta.
    apply (alloc_finish ctx bitmap bpg (Meta count) _
      (λ s c, set_high_water (wsub64 (wadd64 (N.max (bpg - s) (meta_high_water c)) count) 1) c));
      [done| | |done|done]; cbn [req_blocks]; auto 7 with alloc.
  - unfold allocate_extents_reserved. destruct (N.eqb_spec mark 0) as [->|Hnz]; [cbn; split; [done|lia]|].
    destruct (N.ltb_spec want mark) as [Hlt|Hge]; [cbn; split; [done|lia]|]. cbn [orb].
    assert (0 < mark) by lia. assert (0 < want) by lia. cbv zeta.
    apply (alloc_finish ctx bitmap bpg (Reserved want mark hint) _ (λ s c, set_cursor (Some (wadd64 s mark)) c));
      [cbn; lia| | |done|done]; cbn [req_blocks];
      repeat (apply scan_result_or_else || apply complete_or_else); auto with alloc;
      destruct hint, (alloc_cursor ctx); auto with alloc.
Qed.

(** ** Counting free blocks *)

(** Free blocks among the [len] blocks from [lo]. *)
Definition free_from (U : N → bool) (lo : N) (len : nat) : N :=
  N.of_nat (length (filter (λ i, U (lo + N.of_nat i) = false) (seq 0 len))).

Lemma free_from_S U lo len :
  free_from U lo (S len) = free_from U lo len + if U (lo + N.of_nat len) then 0 else 1.
Proof.
  unfold free_from. rewrite seq_S, filter_app, length_app, Nat2N.inj_add. f_equal.
  rewrite filter_cons, filter_nil. cbn [Nat.add]. by destruct (U (lo + N.of_nat len)).
Qed.

Lemma free_from_app U lo a b : free_from U lo (a + b) = free_from U lo a + free_from U (lo + N.of_nat a) b.
Proof.
  induction b as [|b IH]; [by rewrite Nat.add_0_r, N.add_0_r|]. rewrite Nat.add_succ_r, !free_from_S, IH.
  replace (lo + N.of_nat (a + b)) with (lo + N.of_nat a + N.of_nat b) by lia. lia.
Qed.

Lemma free_from_ext U U' lo len :
  (∀ i, (i < len)%nat → U (lo + N.of_nat i) = U' (lo + N.of_nat i)) → free_from U lo len = free_from U' lo len.
Proof.
  induction len as [|len IH]; intros HU; [done|]. rewrite !free_from_S, IH, (HU len); [done|lia|].
  intros i Hi. apply HU. lia.
Qed.

Lemma free_from_const (c : bool) lo len : free_from (λ _, c) lo len = if c then 0 else N.of_nat len.
Proof. induction len as [|len IH]; [by destruct c|]. rewrite free_from_S, IH. destruct c; lia. Qed.

(** Flipping a range inside the group moves its length. *)
Lemma free_from_flip U U' s n bpg c :
  s + n <= bpg → (∀ x, in_range s n x = true → U x = negb c) → (∀ x, U' x = if in_range s n x then c else U x) →
  free_from U' 0 (N.to_nat bpg) + (if c then n else 0) = free_from U 0 (N.to_nat bpg) + (if c then 0 else n).
Proof.
  intros Hs HU HU'. replace (N.to_nat bpg) with (N.to_nat s + (N.to_nat n + N.to_nat (bpg - s - n)))%nat by lia.
  rewrite !free_from_app.
  rewrite (free_from_ext U' U 0 (N.to_nat s)), (free_from_ext U' U _ (N.to_nat (bpg - s - n))).
  - rewrite (free_from_ext U' (λ _, c) _ (N.to_nat n)), (free_from_ext U (λ _, negb c) _ (N.to_nat n)), !free_from_const.
    + destruct c; cbn [negb]; lia.
    + intros i Hi. apply HU, in_range_iff. lia.
    + intros i Hi. rewrite HU', (proj2 (in_range_iff _ _ _)); [done|lia].
  - intros i Hi. rewrite HU'. destruct (in_range _ _ _) eqn:E; [apply in_range_iff in E; lia|done].
  - intros i Hi. rewrite HU'. destruct (in_range _ _ _) eqn:E; [apply in_range_iff in E; lia|done].
Qed.

Lemma filter_ext_Forall {A} (P Q : A → Prop) `{!∀ x, Decision (P x), !∀ x, Decision (Q x)} (l : list A) :
  Forall (λ x, P x ↔ Q x) l → filter P l = filter Q l.
Proof.
  induction 1 as [|x l Hx _ IH]; [done|]. rewrite !filter_cons, IH. repeat case_decide; tauto || done.
Qed.

Lemma count_block_ok ctx bitmap q buf bits :
  read_block ctx (bitmap + q) = Some buf → bits <= BITS →
  count_block buf bits = free_from (used ctx bitmap) (q * BITS) (N.to_nat bits).
Proof.
  intros Hread Hbits. unfold count_block, free_from. do 2 f_equal. apply filter_ext_Forall.
  apply Forall_forall. intros i Hi%elem_of_seq. unfold BITS in *.
  pose proof (N.div_mod (N.of_nat i) 8 ltac:(done)) as Hdm.
  assert (N.of_nat i / 8 < 4096) by (apply N.Div0.div_lt_upper_bound; lia).
  assert (N.of_nat i mod 8 < 8) by by apply N.mod_lt.
  replace (q * 32768 + N.of_nat i) with (q * BITS + (N.of_nat i / 8) * 8 + N.of_nat i mod 8) by (unfold BITS; lia).
  rewrite (used_at _ _ _ buf) by done. unfold bit_clear. by rewrite negb_true_iff.
Qed.

Lemma count_loop_ok ctx bitmap bpg fuel : ∀ q remaining free,
  bitmap_ok ctx bitmap bpg → (remaining = 0 ∨ q * BITS + remaining = bpg) → remaining <= N.of_nat fuel * BITS →
  count_loop fuel ctx bitmap q remaining free = Some (free + free_from (used ctx bitmap) (q * BITS) (N.to_nat remaining)).
Proof.
  induction fuel as [|fuel IH]; intros q remaining free Hok Hrem Hfuel.
  { replace remaining with 0 by lia. cbn. by rewrite N.add_0_r. }
  cbn [count_loop]. destruct (N.eqb_spec remaining 0) as [->|Hnz]; [cbn; by rewrite N.add_0_r|].
  destruct Hrem as [|Hrem]; [done|]. pose proof (div_ceil_le bpg) as Hceil.
  destruct (Hok q) as (buf & Hread & _). { unfold BITS in *. nia. }
  rewrite Hread. rewrite (count_block_ok ctx bitmap q) by (done || lia).
  set (bits := N.min remaining BITS) in *.
  rewrite IH; [|done| |unfold bits, BITS in *; lia].
  - replace (N.to_nat remaining) with (N.to_nat bits + N.to_nat (remaining - bits))%nat by (unfold bits; lia).
    rewrite free_from_app. f_equal. rewrite <- N.add_assoc. do 2 f_equal.
    destruct (N.eq_dec (remaining - bits) 0) as [->|]; [done|]. f_equal. unfold bits, BITS in *. lia.
  - destruct (N.eq_dec (remaining - bits) 0); [by left|]. right. unfold bits, BITS in *. lia.
Qed.

Lemma count_free_ok ctx bitmap bpg :
  bitmap_ok ctx bitmap bpg →
  count_free_blocks ctx bitmap bpg = Some (free_from (used ctx bitmap) 0 (N.to_nat bpg)).
Proof.
  intros Hok. unfold count_free_blocks. pose proof (div_ceil_le bpg).
  rewrite (count_loop_ok ctx bitmap bpg); [done|done|by right|]. by rewrite N2Nat.id.
Qed.

(** ** Runs of the allocator *)

(** A caller allocates, and frees ranges it owns (by position). *)
Inductive alloc_op := DoAlloc (req : alloc_req) | DoFree (i : nat).

Definition step_op (bitmap bpg : N) (st : TxContext * list (N * N)) (op : alloc_op) : TxContext * list (N * N) :=
  let '(ctx, owned) := st in
  match op with
  | DoAlloc req =>
      match run_req ctx bitmap bpg req with
      | (ctx, inr s) => (ctx, (s, req_blocks req) :: owned)
      | (ctx, inl _) => (ctx, owned)
      end
  | DoFree i =>
      match owned !! i with
      | Some (s, n) => ((free_extents ctx bitmap s n).1, delete i owned)
      | None => (ctx, owned)
      end
  end.

(** How many owned ranges contain a block. *)
Definition owners (owned : list (N * N)) (x : N) : nat :=
  sum_list_with (λ r, if in_range r.1 r.2 x then 1 else 0)%nat owned.

Definition run_inv (ctx0 : TxContext) (bitmap bpg : N) (st : TxContext * list (N * N)) : Prop :=
  let '(ctx, owned) := st in
  bitmap_ok ctx bitmap bpg ∧ Forall (λ r, r.1 + r.2 <= bpg) owned ∧
  (∀ x, (owners owned x + (if used ctx0 bitmap x then 1 else 0) <= 1)%nat ∧
        used ctx bitmap x = ((0 <? owners owned x)%nat || used ctx0 bitmap x)%bool) ∧
  (Z.of_N (free_from (used ctx bitmap) 0 (N.to_nat bpg)) + alloc_delta (tx ctx) =
   Z.of_N (free_from (used ctx0 bitmap) 0 (N.to_nat bpg)) + alloc_delta (tx ctx0))%Z.

Lemma owners_delete owned i s n x :
  owned !! i = Some (s, n) →
  owners owned x = ((if in_range s n x then 1 else 0) + owners (delete i owned) x)%nat.
Proof.
  intros Hi. unfold owners. exact (sum_list_with_Permutation_proper _ _ _ (delete_Permutation _ _ _ Hi)).
Qed.

Lemma free_extents_ok ctx bitmap bpg s n :
  bitmap_ok ctx bitmap bpg → s + n <= bpg →
  ∃ ctx', free_extents ctx bitmap s n = (ctx', inr ()) ∧
    flipped (add_delta (- Z.of_N n) ctx) ctx' bitmap bpg s n false.
Proof.
  intros Hok Hs. unfold free_extents, mark_blocks_free. cbv zeta.
  destruct (modify_blocks_ok (add_delta (- Z.of_N n) ctx) bitmap bpg s n false) as (ctx' & -> & Hfl); [done|done|].
  eauto.
Qed.

Lemma step_alloc ctx0 bitmap bpg ctx owned req :
  run_inv ctx0 bitmap bpg (ctx, owned) → run_inv ctx0 bitmap bpg (step_op bitmap bpg (ctx, owned) (DoAlloc req)).
Proof.
  intros (Hok & Hin & Hown & Hsum). cbn. pose proof (request_ok ctx bitmap bpg req Hok) as Hspec.
  destruct (run_req ctx bitmap bpg req) as [ctx' [err|s]].
  { assert (ctx' = ctx) as -> by (destruct err; [by destruct Hspec|by destruct Hspec|done]). by split_and!. }
  destruct Hspec as (_ & Hs & Hfree & Hused & Hok' & Hdelta & _).
  split; [done|]. split; [by constructor|]. split.
  - intros x. destruct (Hown x) as [Hle Hu]. rewrite Hused, Hu. unfold owners in *. cbn [sum_list_with fst snd].
    destruct (in_range s (req_blocks req) x) eqn:E; [|by rewrite Nat.add_0_l].
    pose proof (Hfree x E) as Hf. rewrite Hu in Hf. apply orb_false_iff in Hf as [Hf ->].
    apply Nat.ltb_ge in Hf. split; [lia|done].
  - assert (∀ x, used ctx' bitmap x = if in_range s (req_blocks req) x then true else used ctx bitmap x) as Hused'.
    { intros x. rewrite Hused. by destruct (in_range _ _ _). }
    pose proof (free_from_flip (used ctx bitmap) (used ctx' bitmap) s (req_blocks req) bpg true Hs Hfree Hused') as Hflip.
    cbv iota in Hflip. rewrite Hdelta. lia.
Qed.

Lemma step_free ctx0 bitmap bpg ctx owned i :
  run_inv ctx0 bitmap bpg (ctx, owned) → run_inv ctx0 bitmap bpg (step_op bitmap bpg (ctx, owned) (DoFree i)).
Proof.
  intros (Hok & Hin & Hown & Hsum). cbn. destruct (owned !! i) as [[s n]|] eqn:Ei; [|by split_and!].
  assert (s + n <= bpg) as Hs by (rewrite Forall_lookup in Hin; exact (Hin _ _ Ei)).
  destruct (free_extents_ok ctx bitmap bpg s n Hok Hs) as (ctx' & -> & Hframe & Hok' & Hused & _).
  assert (∀ x, in_range s n x = true → used ctx bitmap x = true) as Hwas.
  { intros x Hx. destruct (Hown x) as [_ ->]. rewrite (owners_delete _ _ _ _ x Ei), Hx. done. }
  split; [done|]. split; [by apply Forall_delete|]. split.
  - intros x. destruct (Hown x) as [Hle Hu]. rewrite Hused. rewrite (owners_delete _ _ _ _ x Ei) in Hle, Hu.
    change (used (add_delta (- Z.of_N n) ctx) bitmap x) with (used ctx bitmap x).
    destruct (in_range s n x); [|rewrite Nat.add_0_l in *; done].
    cbv iota in Hle. split; [lia|]. destruct (used ctx0 bitmap x); cbv iota in Hle; [lia|].
    assert (owners (delete i owned) x = 0%nat) as -> by lia. done.
  - pose proof (free_from_flip (used ctx bitmap) (used ctx' bitmap) s n bpg false Hs Hwas Hused) as Hflip.
    cbv iota in Hflip.
    destruct Hframe as [D HD]. assert (alloc_delta (tx ctx') = alloc_delta (tx ctx) - Z.of_N n)%Z as Hd by by subst ctx'.
    cbn [fst]. lia.
Qed.

Lemma run_inv_all ctx0 bitmap bpg ops : ∀ st,
  run_inv ctx0 bitmap bpg st → run_inv ctx0 bitmap bpg (foldl (step_op bitmap bpg) st ops).
Proof.
  induction ops as [|op ops IH]; intros [ctx owned] Hst; [done|]. apply IH.
  destruct op; [by apply step_alloc|by apply step_free].
Qed.

Lemma run_inv_init ctx bitmap bpg : bitmap_ok ctx bitmap bpg → run_inv ctx bitmap bpg (ctx, []).
Proof. intros Hok. split; [done|]. split; [done|]. split; [|done]. intros x.
  change (owners [] x) with 0%nat. destruct (used ctx bitmap x); (split; [lia|done]).
Qed.


(** A disk whose every block is zero. *)
Definition zero_disk : Disk := mkDisk (λ _, Some (replicate BLOCK_SIZE x00)) 0 (0, 0, 0).

Lemma zero_bitmap_ok t bitmap bpg : dirty_blocks t = ∅ → bitmap_ok (ctx_new zero_disk t) bitmap bpg.
Proof.
  intros Ht i _. exists (replicate BLOCK_SIZE x00). split; [|apply length_replicate].
  unfold read_block. cbn. by rewrite Ht, lookup_empty.
Qed.


(** C31: no block is handed out twice, and the space accounting balances. After
    any sequence of allocations (of any variant) and frees of owned ranges, no
    block lies in two owned ranges or in one that was in use at the start, the
    used blocks are exactly those plus the ones used at the start, and
    [count_free_blocks] plus the transaction's [alloc_delta] is unchanged. *)
Theorem allocator_run (ctx0 : TxContext) (bitmap bpg : N) (ops : list alloc_op) :
  bitmap_ok ctx0 bitmap bpg →
  let '(ctx, owned) := foldl (step_op bitmap bpg) (ctx0, []) ops in
  (∀ x, (owners owned x <= 1)%nat ∧ (owners owned x = 1%nat → used ctx0 bitmap x = false) ∧
        used ctx bitmap x = ((0 <? owners owned x)%nat || used ctx0 bitmap x)%bool) ∧
  ∃ f0 f, count_free_blocks ctx0 bitmap bpg = Some f0 ∧ count_free_blocks ctx bitmap bpg = Some f ∧
    (Z.of_N f + alloc_delta (tx ctx) = Z.of_N f0 + alloc_delta (tx ctx0))%Z.
Proof.
  intros Hok. pose proof (run_inv_all ctx0 bitmap bpg ops (ctx0, []) (run_inv_init _ _ _ Hok)) as Hinv.
  destruct (foldl _ _ _) as [ctx owned]. destruct Hinv as (Hok' & _ & Hown & Hsum). split.
  - intros x. destruct (Hown x) as [Hle Hu]. split; [lia|]. split; [|done].
    intros H1. destruct (used ctx0 bitmap x); [lia|done].
  - eexists _, _. rewrite !count_free_ok by done. done.
Qed.

Lemma allocator_run_witness :
  let '(ctx, owned) := foldl (step_op 8 100) (ctx_new zero_disk (tx_new 1 0), [])
    [DoAlloc (Plain 3); DoAlloc (Hinted 2 40); DoFree 1; DoAlloc (Meta 1)] in
  (∀ x, (owners owned x <= 1)%nat ∧ (owners owned x = 1%nat → used (ctx_new zero_disk (tx_new 1 0)) 8 x = false) ∧
        used ctx 8 x = ((0 <? owners owned x)%nat || used (ctx_new zero_disk (tx_new 1 0)) 8 x)%bool) ∧
  ∃ f0 f, count_free_blocks (ctx_new zero_disk (tx_new 1 0)) 8 100 = Some f0 ∧ count_free_blocks ctx 8 100 = Some f ∧
    (Z.of_N f + alloc_delta (tx ctx) = Z.of_N f0 + 0)%Z.
Proof.
  exact (allocator_run (ctx_new zero_disk (tx_new 1 0)) 8 100
    [DoAlloc (Plain 3); DoAlloc (Hinted 2 40); DoFree 1; DoAlloc (Meta 1)] (zero_bitmap_ok (tx_new 1 0) 8 100 eq_refl)).
Defined.

(** The locality hint skips a block. The callers pass the block after the
    last one they own, and the search starts one further: with the hinted
    block and the next both free, a one-block request returns the next one. *)
Theorem hint_skips_block (ctx : TxContext) (bitmap bpg hint : N) :
  bitmap_ok ctx bitmap bpg → hint + 1 < bpg → bpg < 4294967296 →
  used ctx bitmap hint = false → used ctx bitmap (hint + 1) = false →
  (allocate_extents_hinted ctx bitmap bpg 1 hint).2 = inr (hint + 1).
Proof.
  intros Hok Hh Hbpg _ Hfree. unfold allocate_extents_hinted. cbn [N.eqb]. cbv zeta.
  assert (preferred_search_start (Some hint) bpg = hint + 1) as ->.
  { unfold preferred_search_start. rewrite wadd64_small by (unfold two64; lia). lia. }
  pose proof (scan_free_run_ok ctx bitmap bpg 1 (hint + 1) 1 Hok ltac:(lia) ltac:(lia)) as Hs.
  pose proof (div_ceil_le bpg). rewrite eff_start_in in Hs by lia.
  destruct (scan_free_run ctx bitmap bpg 1 (hint + 1) 1) as [ctx' [s|]].
  - cbn. destruct Hs as [(Hge & _ & _ & Hmin) _]. f_equal. destruct (N.eq_dec s (hint + 1)) as [|Hne]; [done|].
    destruct (Hmin (hint + 1)) as (x & Hx & Hux); [lia|lia|]. replace x with (hint + 1) in Hux by lia. congruence.
  - destruct Hs as [_ Hno]. destruct (Hno (hint + 1)) as (x & Hx & Hux); [lia|lia|].
    replace x with (hint + 1) in Hux by lia. congruence.
Qed.

Lemma hint_skips_block_witness :
  (allocate_extents_hinted (ctx_new zero_disk (tx_new 1 0)) 8 100 1 5).2 = inr 6.
Proof.
  apply (hint_skips_block (ctx_new zero_disk (tx_new 1 0)) 8 100 5); [by apply zero_bitmap_ok|reflexivity..].
Defined.
