(* ===== verification/FileModel.v ===== *)
(** * Files ([lionfs/src/file/writer.rs], [truncate.rs], [resize.rs])

    [FileManager] over a transaction context and an inode: block mapping with
    inline and spilled extents, reads, writes (one range or batched runs) with
    copy-on-write of pinned blocks, truncation, hole punching, preallocation.

    The bitmap allocator and the block overlay are the modelled ones. The trees
    the code calls through a root block (extent tree, checksum tree, reference
    coverage, dedup index), the block cipher and the cluster path of compressed
    inodes are an interface, [FileEnv]. Readahead, off by default, is left
    out. The inode is part of the state: it keeps what an operation changed
    before it failed. *)
From S2P Require Import Prelude OrdMap Transaction Allocator Extents.
From Stdlib Require Import NArith ZArith Lia Strings.Byte.
From stdpp Require Import base numbers gmap option list.
#[local] Open Scope N_scope.

#[local] Abbreviation block := (list byte).
#[local] Abbreviation BS := 4096.

Inductive file_error :=
  | FAlloc (e : AllocError)
  | FIo
  | FNotFound          (* remap_block: logical block is not mapped *)
  | FChecksum          (* checksum mismatch on read *)
  | FUnsupported
  | FNoSlots           (* no free inline extent slot *)
  | FPanic             (* an index out of range *)
  | FEnv.              (* an error of a tree or of the cipher *)

(** The fields of the inode the file layer uses; [extents] are the first
    [extent_count] slots of the array of 7. *)
Record Inode := mkInode {
  ino : N; isize : N; compression_algo : N; encryption_algo : N;
  extents : list Extent; spill_extent_root : N
}.

Definition MAX_INLINE_EXTENTS : nat := 7.

(** [ExtentTreeValue] *)
Record ETV := mkETV { etv_phys : N; etv_len : N }.

Record FState (X : Type) := mkFS { fctx : TxContext; finode : Inode; fenv : X }.
Arguments mkFS {X} _ _ _.
Arguments fctx {X} _.
Arguments finode {X} _.
Arguments fenv {X} _.

Abbreviation FM X := (EM file_error (FState X)).

(** What the file layer calls by root block. [X] holds what these components
    keep outside the context. *)
Class FileEnv (X CS H : Type) := {
  et_init : N → FM X unit;
  et_floor : N → N → FM X (option (N * ETV));
  et_insert : bool → N → N → ETV → FM X unit;   (* [true]: nodes from the metadata zone *)
  et_remove : N → N → FM X bool;
  et_iter : N → FM X (list (N * ETV));
  ct_lookup : N → N → N → FM X (option CS);     (* checksum record of (ino, logical block) *)
  ct_store : N → N → N → N → block → FM X unit;
  cs_phys : CS → N;
  cs_generation : CS → N;
  cs_verify : CS → block → bool;
  bb_mark : N → N → N → FM X unit;
  rc_is_pinned : N → N → FM X bool;
  rc_is_range_pinned : N → N → N → FM X bool;
  rc_coverage : N → N → FM X N;
  rc_pin : N → N → N → FM X unit;
  bc_decode : N → block → FM X block;
  bc_encode : N → block → FM X block;
  dd_hash : block → H;
  dd_hash_eqb : H → H → bool;
  dd_find : N → H → FM X (option N);
  dd_incr : N → H → FM X unit;
  dd_insert : N → H → N → FM X unit;
  cl_read : N → N → FM X block;                 (* the cluster path of compressed inodes *)
  cl_write : N → block → FM X unit;
  cl_truncate : N → FM X unit
}.

(** [min(a, b)] etc. are [N.min]; [splice] is a slice assignment. *)
Definition splice (off : nat) (new old : block) : block := take off old ++ new ++ drop (off + length new) old.

Definition blocks_needed (bytes bs : N) : N := div_ceil bytes bs.

Definition size_for_request (requested_bytes block_size : N) (looks_sequential : bool) : N :=
  let base := blocks_needed requested_bytes block_size in
  if looks_sequential then base + N.max (base / 4) 1 else base.

Definition is_sequential_write (offset current_file_size : N) : bool := offset =? current_file_size.

Section file.
Context {X CS H : Type} `{!FileEnv X CS H}.
Context (bitmap bpg : N).
#[local] Abbreviation F := (FM X).

Definition gets {A} (f : FState X → A) : F A := λ s, (inr (f s), s).
Definition get_inode : F Inode := gets finode.
Definition set_inode (f : Inode → Inode) : F unit := λ s, (inr (), mkFS (fctx s) (f (finode s)) (fenv s)).

Definition with_extents (l : list Extent) (i : Inode) : Inode :=
  mkInode (ino i) (isize i) (compression_algo i) (encryption_algo i) l (spill_extent_root i).
Definition with_root (r : N) (i : Inode) : Inode :=
  mkInode (ino i) (isize i) (compression_algo i) (encryption_algo i) (extents i) r.
Definition with_size (n : N) (i : Inode) : Inode :=
  mkInode (ino i) n (compression_algo i) (encryption_algo i) (extents i) (spill_extent_root i).

(** [ctx.read_block], [ctx.write_block], the allocator *)
Definition fread (b : N) : F block := λ s,
  (match read_block (fctx s) b with Some buf => inr buf | None => inl FIo end, s).
Definition fwrite (b : N) (buf : block) : F unit := λ s,
  (inr (), mkFS (write_block b buf (fctx s)) (finode s) (fenv s)).
Definition lift_alloc {A} (f : TxContext → TxContext * (AllocError + A)) : F A := λ s,
  let '(c, r) := f (fctx s) in
  (match r with inl e => inl (FAlloc e) | inr x => inr x end, mkFS c (finode s) (fenv s)).
Definition falloc (req : alloc_req) : F N := lift_alloc (λ c, run_req c bitmap bpg req).
Definition ffree (start n : N) : F unit := lift_alloc (λ c, free_extents c bitmap start n).

(** [.unwrap_or(..)], [.ok()]: an error becomes [None]; a panic stays one. *)
Definition fattempt {A} (m : F A) : F (option A) := λ s,
  match m s with
  | (inr x, s') => (inr (Some x), s')
  | (inl FPanic, s') => (inl FPanic, s')
  | (inl _, s') => (inr None, s')
  end.

(** ** The block mapping *)
Definition lookup_covering (root logical_block : N) : F (option (N * N * N)) :=
  r ← et_floor root logical_block;
  mret (match r with
        | Some (key, v) =>
            if logical_block <? wadd64 key (etv_len v) then Some (etv_phys v, etv_len v, key) else None
        | None => None
        end).

(** 0 is a hole. *)
Definition get_physical_block (logical_block : N) : F N :=
  i ← get_inode;
  match List.find (λ e, contains_logical e logical_block) (extents i) with
  | Some e => mret (wadd64 (physical_start e) (wsub64 logical_block (logical_start e)))
  | None =>
      if spill_extent_root i =? 0 then mret 0
      else
        r ← lookup_covering (spill_extent_root i) logical_block;
        mret (match r with
              | Some (phys_start, _, log_start) => wadd64 phys_start (wsub64 logical_block log_start)
              | None => 0
              end)
  end.

Definition last_physical_end : F (option N) :=
  i ← get_inode;
  mret (foldl (λ end_ e, Some (match end_ with Some cur => N.max cur (physical_end e) | None => physical_end e end))
          None (extents i)).

(** The merge loop over the inline extents. *)
Fixpoint merge_inline (l : list Extent) (logical_block physical_block length_ : N) : option (list Extent) :=
  match l with
  | [] => None
  | e :: l =>
      if (wadd64 (logical_start e) (ext_len e) =? logical_block) && (wadd64 (physical_start e) (ext_len e) =? physical_block)
      then Some (mkExt (logical_start e) (physical_start e) (wadd64 (ext_len e) length_) :: l)
      else if (wadd64 logical_block length_ =? logical_start e) && (wadd64 physical_block length_ =? physical_start e)
      then Some (mkExt logical_block physical_block (wadd64 (ext_len e) length_) :: l)
      else cons e <$> merge_inline l logical_block physical_block length_
  end.

(** [add_extent], the branch with all inline slots taken. *)
Definition spill_extent (logical_block physical_block length_ : N) : F unit :=
  i ← get_inode;
  (if spill_extent_root i =? 0 then
     root ← falloc (Meta 1);
     et_init root ;;
     set_inode (with_root root)
   else mret ()) ;;
  i ← get_inode;
  let root := spill_extent_root i in
  r ← et_floor root logical_block;
  match r with
  | Some (k, v) =>
      if (wadd64 k (etv_len v) =? logical_block) && (wadd64 (etv_phys v) (etv_len v) =? physical_block)
      then et_insert true root k (mkETV (etv_phys v) (wadd64 (etv_len v) length_))
      else et_insert true root logical_block (mkETV physical_block length_)
  | None => et_insert true root logical_block (mkETV physical_block length_)
  end.

Definition add_extent (logical_block physical_block length_ : N) : F unit :=
  i ← get_inode;
  match merge_inline (extents i) logical_block physical_block length_ with
  | Some l => set_inode (with_extents l)
  | None =>
      if (length (extents i) <? MAX_INLINE_EXTENTS)%nat
      then set_inode (with_extents (extents i ++ [mkExt logical_block physical_block length_]))
      else spill_extent logical_block physical_block length_
  end.

(** The inline extent that covers a block, with the ones around it. *)
Fixpoint inline_covering (l : list Extent) (logical_block : N) : option (list Extent * Extent * list Extent) :=
  match l with
  | [] => None
  | e :: l' =>
      if (logical_start e <=? logical_block) && (wsub64 logical_block (logical_start e) <? ext_len e) then Some ([], e, l')
      else (λ '(a, x, b), (e :: a, x, b)) <$> inline_covering l' logical_block
  end.

(** Left, block and right of a split. *)
Definition pieces_around (e : Extent) (logical_block new_physical : N) : list Extent :=
  let off := wsub64 logical_block (logical_start e) in
  (if 0 <? off then [mkExt (logical_start e) (physical_start e) off] else []) ++
  [mkExt logical_block new_physical 1] ++
  (if off + 1 <? ext_len e
   then [mkExt (logical_block + 1) (physical_start e + off + 1) (ext_len e - off - 1)] else []).

Definition remap_spilled (logical_block new_physical : N) : F unit :=
  i ← get_inode;
  let root := spill_extent_root i in
  if root =? 0 then fail_with FNotFound
  else
    r ← et_floor root logical_block;
    match r with
    | Some (log_start, val) =>
        if (log_start <=? logical_block) && (logical_block <? wadd64 log_start (etv_len val)) then
          et_remove root log_start ;;
          for_each (λ p, et_insert false root (logical_start p) (mkETV (physical_start p) (ext_len p)))
            (pieces_around (mkExt log_start (etv_phys val) (etv_len val)) logical_block new_physical)
        else fail_with FNotFound
    | None => fail_with FNotFound
    end.

Definition remap_block (logical_block new_physical : N) : F unit :=
  i ← get_inode;
  match inline_covering (extents i) logical_block with
  | Some (before, e, after) =>
      if ext_len e =? 1 then
        set_inode (with_extents (before ++ mkExt (logical_start e) new_physical 1 :: after))
      else
        let surviving := before ++ after ++ pieces_around e logical_block new_physical in
        set_inode (with_extents []) ;;
        for_each (λ p, add_extent (logical_start p) (physical_start p) (ext_len p)) surviving
  | None => remap_spilled logical_block new_physical
  end.

(** ** Reading *)
(** The bytes [off, off + n) of a block. *)
Definition bslice (off n : nat) (b : block) : block := take n (drop off b).

Section config.
Context (checksum_tree_root bad_blocks_root refcount_tree_root dedupe_tree_root : N).
Context (cipher_active dedup_enabled : bool).

(** The checksum check of a block that was read. *)
Definition verify_read (logical_block physical_block : N) (buf : block) : F unit :=
  if checksum_tree_root =? 0 then mret ()
  else
    i ← get_inode;
    r ← fattempt (ct_lookup checksum_tree_root (ino i) logical_block);
    match mjoin r with
    | Some v =>
        if cs_verify v buf then mret ()
        else
          (if bad_blocks_root =? 0 then mret ()
           else fattempt (bb_mark bad_blocks_root physical_block (ino i)) ;; mret ()) ;;
          fail_with FChecksum
    | None => mret ()
    end.

Definition read_chunk (logical_block : N) (block_offset chunk_size : nat) : F block :=
  physical_block ← get_physical_block logical_block;
  if physical_block =? 0 then mret (replicate chunk_size x00)
  else
    buf ← fread physical_block;
    verify_read logical_block physical_block buf ;;
    plain ← (if cipher_active then bc_decode physical_block buf else mret buf);
    mret (bslice block_offset chunk_size plain).

(** The loop; each round reads at least one byte. *)
Fixpoint read_loop (fuel : nat) (current_offset : N) (remaining : N) : F block :=
  match fuel with
  | O => mret []
  | S fuel =>
      if remaining =? 0 then mret []
      else
        let logical_block := current_offset / BS in
        let block_offset := current_offset mod BS in
        let chunk_size := N.min (BS - block_offset) remaining in
        chunk ← read_chunk logical_block (N.to_nat block_offset) (N.to_nat chunk_size);
        rest ← read_loop fuel (current_offset + chunk_size) (remaining - chunk_size);
        mret (chunk ++ rest)
  end.

Definition read_file (offset size : N) : F block :=
  i ← get_inode;
  if isize i <=? offset then mret []
  else if negb (compression_algo i =? 0) then cl_read offset size
  else
    let read_size := N.min size (isize i - offset) in
    read_loop (N.to_nat read_size) offset read_size.

(** ** Writing *)
(** A mapped block that a share pins, or that a live snapshot may still see,
    is replaced by a copy before it is written. *)
Definition redirect (logical_block physical_block : N) : F N :=
  barrier ← gets (λ s, effective_cow_barrier (fctx s));
  if negb (physical_block =? 0) && (negb (refcount_tree_root =? 0) || (0 <? barrier)) then
    i ← get_inode;
    pinned ← (if refcount_tree_root =? 0 then mret false else rc_is_pinned refcount_tree_root physical_block);
    birth_protected ←
      (if negb pinned && (0 <? barrier) && negb (checksum_tree_root =? 0) then
         r ← fattempt (ct_lookup checksum_tree_root (ino i) logical_block);
         mret (match mjoin r with
               | Some v => (cs_phys v =? physical_block) && (cs_generation v <=? barrier)
               | None => false
               end)
       else mret false);
    if (pinned || birth_protected : bool) then
      new_block ← falloc (Plain 1);
      old ← fread physical_block;
      old_plain ← (if cipher_active then bc_decode physical_block old else mret old);
      (if cipher_active then disk_bytes ← bc_encode new_block old_plain; fwrite new_block disk_bytes
       else fwrite new_block old_plain) ;;
      remap_block logical_block new_block ;;
      mret new_block
    else mret physical_block
  else mret physical_block.

(** The locals of the write loop: offset, data left, allocation hint and the
    checksums noted so far ([D]). *)
Record wloc (D : Type) := mkWL { w_offset : N; w_data : block; w_hint : option N; w_notes : D }.
Arguments mkWL {D} _ _ _ _.
Arguments w_offset {D} _.
Arguments w_data {D} _.
Arguments w_hint {D} _.
Arguments w_notes {D} _.

Section write_loop.
Context {D : Type} (note : N → N → block → D → F D).
Context (dedup_on append_write : bool) (last_block : N).

(** The dedup probe: the block shared, if any. *)
Definition dedup_probe (logical_block : N) (data : block) (notes : D) : F (option D) :=
  let hash := dd_hash (take 4096 data) in
  r ← dd_find dedupe_tree_root hash;
  match r with
  | None => mret None
  | Some phys =>
      p ← fattempt (fread phys);
      match p with
      | Some probe =>
          if dd_hash_eqb (dd_hash probe) hash then
            add_extent logical_block phys 1 ;;
            dd_incr dedupe_tree_root hash ;;
            (if refcount_tree_root =? 0 then mret ()
             else
               c ← rc_coverage refcount_tree_root phys;
               if c =? 0 then rc_pin refcount_tree_root phys 1 else mret ()) ;;
            d ← note logical_block phys probe notes;
            mret (Some d)
          else mret None
      | None => mret None
      end
  end.

(** A hole gets a block: one run for the rest of an append, one block
    otherwise. *)
Definition allocate_for (logical_block : N) (hint : option N) : F (N * option N) :=
  if append_write then
    let mark := last_block - logical_block + 1 in
    let want := N.max (size_for_request (mark * BS) BS true) mark in
    physical_block ← falloc (Reserved want mark hint);
    add_extent logical_block physical_block mark ;;
    mret (physical_block, Some (physical_block + mark))
  else
    physical_block ← falloc (match hint with Some h => Hinted 1 h | None => Plain 1 end);
    add_extent logical_block physical_block 1 ;;
    mret (physical_block, Some (physical_block + 1)).

(** The chunk merged into its block and written. *)
Definition store_chunk (logical_block physical_block : N) (block_offset : nat) (chunk : block) (notes : D) : F D :=
  buf ← (if ((length chunk <? 4096)%nat && negb (physical_block =? 0)) then
           disk_buf ← fread physical_block;
           if cipher_active then bc_decode physical_block disk_buf else mret disk_buf
         else mret (replicate 4096 x00));
  let buf := splice block_offset chunk buf in
  if cipher_active then
    disk_bytes ← bc_encode physical_block buf;
    fwrite physical_block disk_bytes ;;
    note logical_block physical_block disk_bytes notes
  else
    fwrite physical_block buf ;;
    (if dedup_on && (length chunk =? 4096)%nat && (block_offset =? 0)%nat then
       r ← dd_find dedupe_tree_root (dd_hash buf);
       match r with
       | None => dd_insert dedupe_tree_root (dd_hash buf) physical_block
       | Some _ => mret ()
       end
     else mret ()) ;;
    note logical_block physical_block buf notes.

(** One round. *)
Definition write_step (w : wloc D) : F (wloc D) :=
  let logical_block := w_offset w / BS in
  let block_offset := w_offset w mod BS in
  let chunk_size := N.min (BS - block_offset) (N.of_nat (length (w_data w))) in
  let next w' hint notes :=
    mkWL (wadd64 (w_offset w) w') (drop (N.to_nat w') (w_data w)) hint notes in
  r ← fattempt (get_physical_block logical_block);
  physical_block ← redirect logical_block (default 0 r);
  shared ←
    (if (physical_block =? 0) && dedup_on && (block_offset =? 0) && (4096 <=? length (w_data w))%nat
     then dedup_probe logical_block (w_data w) (w_notes w) else mret None);
  match shared with
  | Some notes => mret (next BS (w_hint w) notes)
  | None =>
      '(physical_block, hint) ←
        (if physical_block =? 0 then allocate_for logical_block (w_hint w) else mret (physical_block, w_hint w));
      notes ← store_chunk logical_block physical_block (N.to_nat block_offset)
                (take (N.to_nat chunk_size) (w_data w)) (w_notes w);
      mret (next chunk_size hint notes)
  end.

Fixpoint write_loop (fuel : nat) (w : wloc D) : F (wloc D) :=
  match fuel, w_data w with
  | S fuel, _ :: _ => w' ← write_step w; write_loop fuel w'
  | _, _ => mret w
  end.
End write_loop.

Definition grow_size (end_ : N) : F unit := set_inode (λ i, if isize i <? end_ then with_size end_ i else i).

(** One contiguous range, as [write_file] and each run of [write_file_runs]
    write it. *)
Definition write_range {D} (note : N → N → block → D → F D) (offset : N) (data : block) (hint : option N) (notes : D)
    : F (option N * D) :=
  i ← get_inode;
  let append_write := negb (length data =? 0)%nat && is_sequential_write offset (isize i) in
  let dedup_on := negb (dedupe_tree_root =? 0) && negb cipher_active && dedup_enabled in
  w ← write_loop note dedup_on append_write (wsub64 (wadd64 offset (N.of_nat (length data))) 1 / BS) (length data)
        (mkWL offset data hint notes);
  grow_size (wadd64 offset (N.of_nat (length data))) ;;
  mret (w_hint w, w_notes w).

Definition store_block_checksum (logical_block physical_block : N) (disk_bytes : block) : F unit :=
  i ← get_inode;
  if checksum_tree_root =? 0 then mret ()
  else ct_store checksum_tree_root (ino i) logical_block physical_block disk_bytes.

(** [last_physical_end(..).unwrap_or(None)] *)
Definition locality_hint : F (option N) := r ← fattempt last_physical_end; mret (default None r).

Definition write_file (offset : N) (data : block) : F unit :=
  i ← get_inode;
  if negb (compression_algo i =? 0) then
    if negb (encryption_algo i =? 0) then fail_with FUnsupported else cl_write offset data
  else
    hint ← locality_hint;
    write_range (λ lb pb bytes _, store_block_checksum lb pb bytes) offset data hint () ;;
    mret ().

(** [write_file_runs]: checksums are noted in an ordered map and stored in
    block order at the end. *)
Definition note_deferred (lb pb : N) (bytes : block) (m : list (N * (N * block))) : F (list (N * (N * block))) :=
  if checksum_tree_root =? 0 then mret m else mret (om_insert lb (pb, take 4096 bytes ++ replicate (4096 - length bytes) x00) m).

Fixpoint write_runs (runs : list (N * block)) (hint : option N) (m : list (N * (N * block))) : F (list (N * (N * block))) :=
  match runs with
  | [] => mret m
  | (start_block, data) :: runs =>
      '(hint, m) ← write_range note_deferred (wmul64 start_block BS) data hint m;
      write_runs runs hint m
  end.

Definition write_file_runs (runs : list (N * block)) : F unit :=
  match runs with
  | [] => mret ()
  | _ =>
      i ← get_inode;
      if negb (compression_algo i =? 0) then for_each (λ r : N * block, write_file (wmul64 r.1 BS) r.2) runs
      else
        hint ← locality_hint;
        m ← write_runs runs hint [];
        for_each (λ p : N * (N * block), store_block_checksum p.1 p.2.1 p.2.2) m
  end.

(** ** Truncation *)
Definition free_pinned_checked (start n : N) : F unit :=
  if refcount_tree_root =? 0 then ffree start n
  else
    r ← fattempt (rc_is_range_pinned refcount_tree_root start n);
    if default true r then mret () else ffree start n.

(** The birth scan; [run] is the pending run of freeable blocks. *)
Fixpoint birth_scan (fuel : nat) (barrier ino_ logical phys : N) (run : option (N * N)) : F unit :=
  match fuel with
  | O => match run with Some (s, l) => free_pinned_checked s l | None => mret () end
  | S fuel =>
      r ← ct_lookup checksum_tree_root ino_ logical;
      let birth := from_option cs_generation 0 r in
      if barrier <? birth then
        birth_scan fuel barrier ino_ (logical + 1) (phys + 1)
          (Some (match run with Some (s, l) => (s, l + 1) | None => (phys, 1) end))
      else
        (match run with Some (s, l) => free_pinned_checked s l | None => mret () end) ;;
        birth_scan fuel barrier ino_ (logical + 1) (phys + 1) None
  end.

Definition free_range_birth_aware (logical_start_ ps len : N) : F unit :=
  barrier ← gets (λ s, effective_cow_barrier (fctx s));
  i ← get_inode;
  if (barrier =? 0) || (checksum_tree_root =? 0) || (len =? 0) then free_pinned_checked ps len
  else birth_scan (N.to_nat len) barrier (ino i) logical_start_ ps None.

(** The inline extents: what survives. *)
Fixpoint truncate_inline (new_blocks : N) (l : list Extent) : F (list Extent) :=
  match l with
  | [] => mret []
  | e :: l =>
      if new_blocks <=? logical_start e then
        free_range_birth_aware (logical_start e) (physical_start e) (ext_len e) ;;
        truncate_inline new_blocks l
      else if new_blocks <? wadd64 (logical_start e) (ext_len e) then
        let keep := new_blocks - logical_start e in
        free_range_birth_aware (logical_start e + keep) (wadd64 (physical_start e) keep) (ext_len e - keep) ;;
        rest ← truncate_inline new_blocks l;
        mret (mkExt (logical_start e) (physical_start e) keep :: rest)
      else
        rest ← truncate_inline new_blocks l;
        mret (e :: rest)
  end.

(** The spilled extents: the blocks are freed; an extent cut short is
    re-inserted, one past the end stays in the tree. *)
Definition truncate_spilled (root new_blocks : N) (p : N * ETV) : F unit :=
  let '(log_start, val) := p in
  if new_blocks <=? log_start then free_range_birth_aware log_start (etv_phys val) (etv_len val)
  else if new_blocks <? wadd64 log_start (etv_len val) then
    let keep := new_blocks - log_start in
    free_range_birth_aware (log_start + keep) (wadd64 (etv_phys val) keep) (etv_len val - keep) ;;
    et_remove root log_start ;;
    et_insert false root log_start (mkETV (etv_phys val) keep)
  else mret ().

Definition truncate_file (new_size : N) : F unit :=
  i ← get_inode;
  if negb (compression_algo i =? 0) then cl_truncate new_size
  else if isize i <=? new_size then set_inode (with_size new_size)
  else
    let new_blocks := div_ceil new_size BS in
    surviving ← truncate_inline new_blocks (extents i);
    (if spill_extent_root i =? 0 then mret ()
     else
       spilled ← et_iter (spill_extent_root i);
       for_each (truncate_spilled (spill_extent_root i) new_blocks) spilled) ;;
    set_inode (λ i, with_size new_size (with_extents surviving i)).
End config.

(** ** Holes and preallocation ([truncate.rs], [resize.rs]) *)
Fixpoint punch_inline (start_block end_block : N) (l : list Extent) : F (list Extent) :=
  match l with
  | [] => mret []
  | e :: l =>
      let e_end := wadd64 (logical_start e) (ext_len e) in
      if (start_block <? e_end) && (logical_start e <? end_block) then
        let overlap_start := N.max start_block (logical_start e) in
        let overlap_end := N.min end_block e_end in
        ffree (wadd64 (physical_start e) (overlap_start - logical_start e)) (overlap_end - overlap_start) ;;
        rest ← punch_inline start_block end_block l;
        mret (remove_range e start_block end_block ++ rest)
      else
        rest ← punch_inline start_block end_block l;
        mret (e :: rest)
  end.

(** The panic is the eighth slot of the inline array. *)
Definition punch_hole (start_block end_block : N) : F unit :=
  if end_block <=? start_block then mret ()
  else
    i ← get_inode;
    surviving ← punch_inline start_block end_block (extents i);
    if (MAX_INLINE_EXTENTS <? length surviving)%nat then fail_with FPanic
    else set_inode (with_extents surviving).

Definition punch_hole_bytes (start_byte length_bytes : N) : F unit :=
  punch_hole (start_byte / BS) (div_ceil (wadd64 start_byte length_bytes) BS).

Definition has_backing (l : list Extent) (logical_block : N) : bool :=
  existsb (λ e, (logical_start e <=? logical_block) && (logical_block <? wadd64 (logical_start e) (ext_len e))) l.

Fixpoint extend_inline (l : list Extent) (logical_block physical_block : N) : option (list Extent) :=
  match l with
  | [] => None
  | e :: l =>
      if (wadd64 (logical_start e) (ext_len e) =? logical_block) && (wadd64 (physical_start e) (ext_len e) =? physical_block)
      then Some (mkExt (logical_start e) (physical_start e) (wadd64 (ext_len e) 1) :: l)
      else cons e <$> extend_inline l logical_block physical_block
  end.

Definition add_or_extend (logical_block physical_block : N) : F unit :=
  i ← get_inode;
  match extend_inline (extents i) logical_block physical_block with
  | Some l => set_inode (with_extents l)
  | None =>
      if (length (extents i) <? MAX_INLINE_EXTENTS)%nat
      then set_inode (with_extents (extents i ++ [mkExt logical_block physical_block 1]))
      else fail_with FNoSlots
  end.

Fixpoint preallocate_loop (n : nat) (logical : N) : F unit :=
  match n with
  | O => mret ()
  | S n =>
      i ← get_inode;
      (if has_backing (extents i) logical then mret ()
       else
         physical ← falloc (Plain 1);
         fwrite physical (replicate 4096 x00) ;;
         add_or_extend logical physical) ;;
      preallocate_loop n (logical + 1)
  end.

Definition preallocate (start_block end_block : N) : F unit :=
  if end_block <=? start_block then mret ()
  else
    preallocate_loop (N.to_nat (end_block - start_block)) start_block ;;
    set_inode (λ i, if isize i <? wmul64 end_block BS then with_size (wmul64 end_block BS) i else i).
End file.

#[global] Arguments mkWL {D} _ _ _ _.
#[global] Arguments w_offset {D} _.
#[global] Arguments w_data {D} _.
#[global] Arguments w_hint {D} _.
#[global] Arguments w_notes {D} _.
