(* ===== verification/FileSpec.v ===== *)
(** * What the file layer relies on

    [FileEnvSpec] states what the trees below a file promise: the extent tree
    is an ordered map, an operation on metadata leaves the data blocks of the
    files alone and takes its nodes from free blocks. The block overlay and the
    allocator discharge their part here, from their own theorems. *)
From S2P Require Import Prelude OrdMap Transaction Allocator Extents FileModel.
From Stdlib Require Import NArith ZArith Lia Strings.Byte.
From stdpp Require Import base numbers gmap option list.
#[local] Open Scope N_scope.

#[local] Abbreviation block := (list byte).

(** ** The context below the blocks *)
Definition ctx_env (c : TxContext) : Disk * list Transaction * N * gmap N N :=
  (disk c, pending c, cow_barrier c, root_cells (tx c)).

Lemma barrier_env c c' : ctx_env c' = ctx_env c → effective_cow_barrier c' = effective_cow_barrier c.
Proof. unfold ctx_env, effective_cow_barrier. intros [= -> _ -> _]. done. Qed.

Lemma modify_loop_env n : ∀ bm b set cur c, ctx_env (modify_loop n bm b set cur c).1 = ctx_env c.
Proof.
  induction n as [|n IH]; intros bm b set cur c; cbn [modify_loop]; [by destruct cur as [[? ?]|]|]. cbv zeta.
  destruct cur as [[i buf]|]; [destruct (_ =? _); [apply IH|]|]; (destruct (read_block _ _); [|done]); by rewrite IH.
Qed.

Lemma scan_free_run_env c bm g n from mark : ctx_env (scan_free_run c bm g n from mark).1 = ctx_env c.
Proof.
  unfold scan_free_run. cbv zeta. destruct (scan_blocks _ _ _ _ _ _ _ _ _ _) as [[s|]|]; [|done|done].
  unfold mark_blocks_used, modify_blocks. pose proof (modify_loop_env (N.to_nat mark) bm s true None c) as H.
  by destruct (modify_loop _ _ _ _ _ _) as [c' []].
Qed.

Lemma or_else_env r f e : ctx_env r.1 = e → (∀ c, ctx_env c = e → ctx_env (f c).1 = e) → ctx_env (or_else r f).1 = e.
Proof. destruct r as [c [s|]]; cbn; auto. Qed.

Create HintDb cenv discriminated.
#[export] Hint Resolve or_else_env : cenv.
#[export] Hint Extern 4 (ctx_env (scan_free_run _ _ _ _ _ _).1 = _) => rewrite scan_free_run_env : cenv.
#[export] Hint Extern 1 (ctx_env _ = _) => done : cenv.

Lemma run_req_env c bm g req : ctx_env (run_req c bm g req).1 = ctx_env c.
Proof.
  assert (∀ (r : TxContext * option N) (f : N → TxContext → TxContext) e,
    ctx_env r.1 = e → (∀ s c, ctx_env (f s c) = ctx_env c) →
    ctx_env (let '(c, run) := r in match run with Some s => (f s c, inr s : AllocError + N) | None => (c, inl OutOfMemory) end).1 = e) as Hend.
  { intros [c' [s|]] f e Hr Hf; [|done]. cbn. rewrite Hf. done. }
  destruct req as [n|n h|n|w m h]; cbn [run_req].
  - unfold allocate_extents. destruct (n =? 0); [done|]. cbv zeta.
    apply (Hend _ (λ s c, add_delta (Z.of_N n) (set_cursor (Some (wadd64 s n)) c))); [|done].
    destruct (alloc_cursor c); auto with cenv.
  - unfold allocate_extents_hinted. destruct (n =? 0); [done|]. cbv zeta.
    apply (Hend _ (λ s c, add_delta (Z.of_N n) (set_cursor (Some (wadd64 s n)) c))); [|done].
    apply or_else_env; [apply or_else_env|]; [auto with cenv|intros c' ?; destruct (alloc_cursor c'); auto with cenv|auto with cenv].
  - unfold allocate_extents_meta. destruct (n =? 0); [done|]. cbv zeta.
    apply (Hend _ (λ s c, add_delta (Z.of_N n) (set_high_water (wsub64 (wadd64 (N.max (g - s) (meta_high_water c)) n) 1) c))); [|done].
    auto with cenv.
  - unfold allocate_extents_reserved. destruct (_ || _)%bool; [done|]. cbv zeta.
    apply (Hend _ (λ s c, add_delta (Z.of_N m) (set_cursor (Some (wadd64 s m)) c))); [|done].
    apply or_else_env; [|auto with cenv]. destruct h, (alloc_cursor c); auto with cenv.
Qed.

(** ** States the file layer works on *)
Definition oom (e : file_error) : Prop := e = FAlloc OutOfMemory.

Section states.
Context {X : Type} (bitmap bpg : N).
(** Blocks that hold metadata (bitmap, superblock, tree nodes), and blocks a
    share or snapshot pins. *)
Context (meta : FState X → N → Prop) (pinned : FState X → N → bool).

Definition area (b : N) : Prop := ∃ i, i < div_ceil bpg BITS ∧ b = bitmap + i.

Abbreviation fused s b := (used (fctx s) bitmap b).
Abbreviation rd s b := (read_block (fctx s) b).

Record env_ok (s : FState X) : Prop := {
  eo_bitmap : bitmap_ok (fctx s) bitmap bpg;
  eo_readable : ∀ b, b < bpg → ∃ buf, rd s b = Some buf ∧ length buf = BLOCK_SIZE;
  eo_meta : ∀ b, meta s b → b < bpg ∧ fused s b = true;
  eo_area : ∀ b, area b → meta s b;
  eo_zero : meta s 0;
  eo_pinned : ∀ b, pinned s b = true → b < bpg ∧ fused s b = true;
  eo_barrier : effective_cow_barrier (fctx s) = 0;
  eo_bpg : bpg < two64
}.

(** A block that holds file data. *)
Definition data_block (s : FState X) (b : N) : Prop := b < bpg ∧ fused s b = true ∧ ¬ meta s b.

(** A step that overwrites no data block but those of [P]. *)
Record fstep (P : N → Prop) (s s' : FState X) : Prop := {
  fs_ok : env_ok s';
  fs_used : ∀ b, b < bpg → fused s b = true → fused s' b = true;
  fs_meta : ∀ b, meta s' b → meta s b ∨ fused s b = false;
  fs_data : ∀ b, data_block s b → ¬ P b → rd s' b = rd s b;
  fs_pinned : ∀ b, pinned s' b = pinned s b
}.

(** A step of a metadata component. *)
Definition mstep (s s' : FState X) : Prop := fstep (λ _, False) s s' ∧ finode s' = finode s.

Lemma fstep_data_block P s s' b : fstep P s s' → data_block s b → data_block s' b.
Proof.
  intros Hm (H1 & H2 & H3). split_and!; [done|by apply (fs_used _ _ _ Hm)|].
  intros H. apply (fs_meta _ _ _ Hm) in H as [?|?]; [done|congruence].
Qed.

Lemma fstep_refl P s : env_ok s → fstep P s s.
Proof. intros H. split; [done|done| |done|done]. by left. Qed.

Lemma fstep_trans P Q s1 s2 s3 : fstep P s1 s2 → fstep Q s2 s3 → fstep (λ b, P b ∨ Q b) s1 s3.
Proof.
  intros H1 H2. pose proof H1 as [O1 U1 M1 D1 P1]. destruct H2 as [O2 U2 M2 D2 P2].
  split; [done|by auto| | |].
  - intros b Hm. destruct (eo_meta _ O2 b Hm) as [Hlt _]. destruct (M2 b Hm) as [Hb|Hb]; [by apply M1|]. right.
    destruct (fused s1 b) eqn:E; [|done]. apply U1 in E; [congruence|done].
  - intros b Hb Hn. rewrite D2 by (tauto || by eapply fstep_data_block). apply D1; tauto.
  - intros b. by rewrite P2, P1.
Qed.

Lemma fstep_weaken (P Q : N → Prop) s s' : fstep P s s' → (∀ b, data_block s b → P b → Q b) → fstep Q s s'.
Proof. intros [O U M D Pn] Hw. split; [done|done|done| |done]. intros b Hb Hn. apply D; auto. Qed.

Lemma fstep_trans_same P s1 s2 s3 : fstep P s1 s2 → fstep P s2 s3 → fstep P s1 s3.
Proof. intros H1 H2. eapply fstep_weaken; [by eapply fstep_trans|]. intros b _ [?|?]; done. Qed.
End states.

(** ** The interface *)
Class FileEnvSpec (X CS H : Type) `{!FileEnv X CS H} (bitmap bpg : N)
    (meta : FState X → N → Prop) (pinned : FState X → N → bool)
    (et_rep : FState X → N → list (N * ETV) → Prop) : Prop := {
  (* what these components keep depends on their own blocks only *)
  env_frame s c i :
    (∀ b, meta s b → ¬ area bitmap bpg b → read_block c b = read_block (fctx s) b) → ctx_env c = ctx_env (fctx s) →
    (∀ b, meta (mkFS c i (fenv s)) b ↔ meta s b) ∧ (∀ b, pinned (mkFS c i (fenv s)) b = pinned s b) ∧
    ∀ r m, et_rep s r m → et_rep (mkFS c i (fenv s)) r m;
  et_rep_ok s r m : et_rep s r m → om_ok m;
  et_floor_spec s r m k : env_ok bitmap bpg meta pinned s → et_rep s r m → et_floor r k s = (inr (om_floor k m), s);
  et_iter_spec s r m : env_ok bitmap bpg meta pinned s → et_rep s r m → et_iter r s = (inr m, s);
  et_insert_spec s z r m k v :
    env_ok bitmap bpg meta pinned s → et_rep s r m →
    ends oom (et_insert z r k v) s (λ _ s', mstep bitmap bpg meta pinned s s' ∧ et_rep s' r (om_insert k v m));
  et_remove_spec s r m k :
    env_ok bitmap bpg meta pinned s → et_rep s r m →
    ends oom (et_remove r k) s (λ _ s', mstep bitmap bpg meta pinned s s' ∧ et_rep s' r (om_remove k m));
  (* the node of a new tree goes to the block the caller allocated *)
  et_init_spec s r :
    env_ok bitmap bpg meta pinned s → data_block bitmap bpg meta s r → pinned s r = false →
    ∃ s', et_init r s = (inr (), s') ∧ env_ok bitmap bpg meta pinned s' ∧ finode s' = finode s ∧
      (∀ b, used (fctx s') bitmap b = used (fctx s) bitmap b) ∧ (∀ b, meta s' b ↔ meta s b ∨ b = r) ∧
      (∀ b, data_block bitmap bpg meta s b → b ≠ r → read_block (fctx s') b = read_block (fctx s) b) ∧
      (∀ b, pinned s' b = pinned s b) ∧ et_rep s' r [];
  ct_lookup_spec s r o lb : env_ok bitmap bpg meta pinned s → ∃ v, ct_lookup r o lb s = (inr v, s);
  ct_store_spec s r o lb pb bytes :
    env_ok bitmap bpg meta pinned s →
    ends oom (ct_store r o lb pb bytes) s (λ _ s', mstep bitmap bpg meta pinned s s' ∧ ∀ r' m, et_rep s r' m → et_rep s' r' m);
  rc_is_pinned_spec s r b : env_ok bitmap bpg meta pinned s → rc_is_pinned r b s = (inr (pinned s b), s);
  (* every block of the range is pinned *)
  rc_is_range_pinned_spec s r b n :
    env_ok bitmap bpg meta (λ _ _, false) s →
    ∃ v, rc_is_range_pinned r b n s = (inr v, s) ∧ (v = true ↔ n ≠ 0 ∧ ∀ x, b <= x < b + n → pinned s x = true)
}.

Section primitives.
Context {X CS H : Type} `{!FileEnv X CS H} (bitmap bpg : N).
Context (meta : FState X → N → Prop) (pinned : FState X → N → bool) (et_rep : FState X → N → list (N * ETV) → Prop).
Context `{!FileEnvSpec X CS H bitmap bpg meta pinned et_rep}.
#[local] Abbreviation ok := (env_ok bitmap bpg meta pinned).
#[local] Abbreviation data_b := (data_block bitmap bpg meta).
#[local] Abbreviation step := (fstep bitmap bpg meta pinned).

Definition keeps_trees (s s' : FState X) : Prop := ∀ r m, et_rep s r m → et_rep s' r m.

Lemma set_inode_ok s f :
  ok s → let s' := mkFS (fctx s) (f (finode s)) (fenv s) in step (λ _, False) s s' ∧ keeps_trees s s' ∧ ∀ b, meta s' b ↔ meta s b.
Proof.
  intros Hok s'. destruct (env_frame s (fctx s) (f (finode s)) ltac:(done) eq_refl) as (Hm & Hp & Hr).
  split; [|split; [exact Hr|exact Hm]]. destruct Hok. split; [|done|intros b Hb; left; by apply Hm|done|done].
  split; [done|done|intros b ?%Hm; auto|intros b Hb; apply Hm; auto|by apply Hm| |done|done]. intros b. rewrite Hp. auto.
Qed.

Lemma fread_ok s b : ok s → b < bpg → ∃ buf, fread b s = (inr buf, s) ∧ read_block (fctx s) b = Some buf ∧ length buf = BLOCK_SIZE.
Proof. intros Hok Hb. destruct (eo_readable _ _ _ _ _ Hok b Hb) as (buf & E & Hl). exists buf. unfold fread. by rewrite E. Qed.

Lemma used_write b buf s x : ok s → data_b s b → x < bpg → used (write_block b buf (fctx s)) bitmap x = used (fctx s) bitmap x.
Proof.
  intros Hok (Hb & _ & Hnm) Hx. unfold used.
  rewrite read_write_ne; [done|]. intros E. apply Hnm. apply (eo_area _ _ _ _ _ Hok). exists (x / BITS). split; [|done].
  pose proof (div_ceil_le bpg). apply N.Div0.div_lt_upper_bound. lia.
Qed.

Lemma fwrite_ok s b buf :
  ok s → data_b s b → length buf = BLOCK_SIZE →
  ∃ s', fwrite b buf s = (inr (), s') ∧ step (eq b) s s' ∧ keeps_trees s s' ∧ finode s' = finode s ∧
    read_block (fctx s') b = Some buf ∧ ∀ y, y ≠ b → read_block (fctx s') y = read_block (fctx s) y.
Proof.
  intros Hok Hb Hl. eexists. split; [done|]. cbn [fctx finode].
  destruct (env_frame s (write_block b buf (fctx s)) (finode s)) as (Hm & Hp & Hr).
  { intros x Hx _. apply read_write_ne. intros <-. by destruct Hb as (_ & _ & ?). }
  { done. }
  assert (∀ x, x < bpg → used (write_block b buf (fctx s)) bitmap x = used (fctx s) bitmap x) as Hu by (intros; by apply used_write).
  split_and!; [|exact Hr|done|apply read_write_eq|intros; by apply read_write_ne].
  pose proof Hok as [O1 O2 O3 O4 O5 O6 O7 O8].
  split; cbn [fctx]; [|intros x Hx; by rewrite Hu|intros x Hx; left; by apply Hm|intros; by apply read_write_ne|done].
  split; cbn [fctx]; [| | | | | |done|done].
  - intros i Hi. destruct (decide (bitmap + i = b)) as [<-|Hne]; [exists buf; split; [apply read_write_eq|done]|].
    rewrite read_write_ne by done. by apply O1.
  - intros x Hx. destruct (decide (x = b)) as [->|Hne]; [exists buf; split; [apply read_write_eq|done]|].
    rewrite read_write_ne by done. by apply O2.
  - intros x Hx%Hm. destruct (O3 x Hx). split; [done|]. by rewrite Hu.
  - intros x Hx. apply Hm. by apply O4.
  - by apply Hm.
  - intros x. rewrite Hp. intros Hx. destruct (O6 x Hx). split; [done|]. by rewrite Hu.
Qed.

Lemma falloc_ok s req :
  ok s → req_valid req →
  ends oom (falloc bitmap bpg req) s (λ p s',
    step (λ _, False) s s' ∧ keeps_trees s s' ∧ finode s' = finode s ∧ p + req_blocks req <= bpg ∧
    (∀ b, meta s' b ↔ meta s b) ∧
    ∀ x, p <= x < p + req_blocks req → used (fctx s) bitmap x = false ∧ used (fctx s') bitmap x = true).
Proof.
  intros Hok Hv. unfold ends, falloc, lift_alloc. pose proof (request_ok (fctx s) bitmap bpg req (eo_bitmap _ _ _ _ _ Hok)) as Hr.
  pose proof (run_req_env (fctx s) bitmap bpg req) as Henv.
  destruct (run_req (fctx s) bitmap bpg req) as [c [[]|p]]; cbn in Hr; [naive_solver|done|done|].
  destruct Hr as (_ & Hp & Hfree & Hu & Hb & _ & Hrd). cbn [fst] in Henv.
  assert (∀ y, ¬ area bitmap bpg y → read_block c y = read_block (fctx s) y) as Hrd'.
  { intros y Hy. apply Hrd. intros i Hi ->. apply Hy. by exists i. }
  destruct (env_frame s c (finode s)) as (Hm & Hpn & Hr); [intros b _; apply Hrd'|done|].
  pose proof Hok as [O1 O2 O3 O4 O5 O6 O7 O8].
  split_and!; [|exact Hr|done|done|exact Hm|].
  - split; cbn [fctx]; [|intros x Hx; rewrite Hu; intros ->; by rewrite orb_true_r|intros x Hx; left; by apply Hm| |done].
    + split; cbn [fctx]; [done| | | | | | |done].
      * intros x Hx. destruct (decide (x < div_ceil bpg BITS + bitmap ∧ bitmap <= x)) as [[H1 H2]|Hn].
        -- destruct (Hb (x - bitmap)) as (buf & E & Hl); [lia|]. replace (bitmap + (x - bitmap)) with x in E by lia. by exists buf.
        -- rewrite Hrd'; [by apply O2|]. intros (i & Hi & ->). lia.
      * intros x Hx%Hm. destruct (O3 x Hx) as [? Hux]. split; [done|]. by rewrite Hu, Hux, orb_true_r.
      * intros x Hx. apply Hm. by apply O4.
      * by apply Hm.
      * intros x. rewrite Hpn. intros Hx. destruct (O6 x Hx) as [? Hux]. split; [done|]. by rewrite Hu, Hux, orb_true_r.
      * by rewrite (barrier_env _ _ Henv).
    + intros x (Hx & _ & Hnm) _. apply Hrd'. intros Ha. apply Hnm. by apply O4.
  - intros x Hx. cbn [fctx]. rewrite Hu, (proj2 (in_range_iff p _ x)) by done. split; [|done]. apply Hfree. by apply in_range_iff.
Qed.
End primitives.
