(* ===== verification/FileRef.v ===== *)
(** * A reference environment for files

    The trees below a file as maps held in memory: the extent trees, the
    checksum records, the set of pinned blocks. It satisfies [FileEnvSpec], and
    the operations on files run on it. *)
From S2P Require Import Prelude OrdMap Transaction Allocator Extents FileModel FileSpec.
From Stdlib Require Import NArith ZArith Lia Strings.Byte.
From stdpp Require Import base numbers gmap option list.
#[local] Open Scope N_scope.

#[local] Abbreviation block := (list byte).

Record REnv := mkREnv { trees : gmap N (list (N * ETV)); sums : list (N * N * (N * block)); pins : list N }.

#[local] Abbreviation R := (FM REnv).

Definition on_env {A} (f : REnv → A * REnv) : R A := λ s,
  let '(x, e) := f (fenv s) in (inr x, mkFS (fctx s) (finode s) e).
Definition on_tree {A} (r : N) (f : list (N * ETV) → A * list (N * ETV)) : R A := λ s,
  match trees (fenv s) !! r with
  | Some m => let '(x, m') := f m in (inr x, mkFS (fctx s) (finode s) (mkREnv (<[r := m']> (trees (fenv s))) (sums (fenv s)) (pins (fenv s))))
  | None => (inl FEnv, s)
  end.
Definition from_tree {A} (r : N) (f : list (N * ETV) → A) : R A := λ s,
  match trees (fenv s) !! r with Some m => (inr (f m), s) | None => (inl FEnv, s) end.

Definition find_sum (l : list (N * N * (N * block))) (o lb : N) : option (N * block) :=
  snd <$> List.find (λ p, (p.1.1 =? o) && (p.1.2 =? lb)) l.

#[export] Instance ref_env : FileEnv REnv (N * block) block := {
  et_init r := on_env (λ e, ((), mkREnv (<[r := []]> (trees e)) (sums e) (pins e)));
  et_floor r k := from_tree r (om_floor k);
  et_insert _ r k v := on_tree r (λ m, ((), om_insert k v m));
  et_remove r k := on_tree r (λ m, (true, om_remove k m));
  et_iter r := from_tree r id;
  ct_lookup _ o lb := gets (λ s, find_sum (sums (fenv s)) o lb);
  ct_store _ o lb pb bytes := on_env (λ e, ((), mkREnv (trees e) ((o, lb, (pb, bytes)) :: sums e) (pins e)));
  cs_phys v := v.1;
  cs_generation _ := 0;
  cs_verify v buf := bool_decide (v.2 = buf);
  bb_mark _ _ _ := mret ();
  rc_is_pinned _ b := gets (λ s, existsb (N.eqb b) (pins (fenv s)));
  rc_is_range_pinned _ b n := gets (λ s, negb (n =? 0) &&
    forallb (λ i, existsb (N.eqb (b + N.of_nat i)) (pins (fenv s))) (seq 0 (N.to_nat n)));
  rc_coverage _ b := gets (λ s, if existsb (N.eqb b) (pins (fenv s)) then 1 else 0);
  rc_pin _ b n := on_env (λ e, ((), mkREnv (trees e) (sums e) (map (λ i, b + N.of_nat i) (seq 0 (N.to_nat n)) ++ pins e)));
  bc_decode _ b := mret b;
  bc_encode _ b := mret b;
  dd_hash b := b;
  dd_hash_eqb a b := bool_decide (a = b);
  dd_find _ _ := mret None;
  dd_incr _ _ := mret ();
  dd_insert _ _ _ := mret ();
  cl_read _ _ := fail_with FUnsupported;
  cl_write _ _ := fail_with FUnsupported;
  cl_truncate _ := fail_with FUnsupported
}.

Section ref.
Context (bitmap bpg : N).

Definition ref_meta (s : FState REnv) (b : N) : Prop := area bitmap bpg b ∨ b = 0 ∨ is_Some (trees (fenv s) !! b).
Definition ref_pinned (s : FState REnv) (b : N) : bool := existsb (N.eqb b) (pins (fenv s)).
Definition ref_rep (s : FState REnv) (r : N) (m : list (N * ETV)) : Prop := trees (fenv s) !! r = Some m ∧ om_ok m.

#[local] Abbreviation ok := (env_ok bitmap bpg ref_meta ref_pinned).

(** A change of the maps that keeps the set of roots and the pins. *)
Lemma ref_mstep s e :
  ok s → (∀ b, is_Some (trees e !! b) ↔ is_Some (trees (fenv s) !! b)) → pins e = pins (fenv s) →
  mstep bitmap bpg ref_meta ref_pinned s (mkFS (fctx s) (finode s) e).
Proof.
  intros [O1 O2 O3 O4 O5 O6 O7 O8] Ht Hp. set (s' := mkFS (fctx s) (finode s) e).
  assert (∀ b, ref_meta s' b ↔ ref_meta s b) as Hm by (intros b; unfold ref_meta; cbn [fenv s']; by rewrite Ht).
  assert (∀ b, ref_pinned s' b = ref_pinned s b) as Hpn by (intros b; unfold ref_pinned; cbn [fenv s']; by rewrite Hp).
  split; [|done]. split; [|done|intros b Hb; left; by apply Hm|done|done].
  split; [done|done|intros b ?%Hm; auto|intros b Hb; apply Hm; auto|by apply Hm|intros b; rewrite Hpn; auto|done|done].
Qed.

Lemma ref_tree_step {A} s r m (f : list (N * ETV) → A * list (N * ETV)) :
  ok s → ref_rep s r m → om_ok (f m).2 →
  ends oom (on_tree r f) s (λ _ s', mstep bitmap bpg ref_meta ref_pinned s s' ∧ ref_rep s' r (f m).2).
Proof.
  intros Hok [Hr Hm] Hf. unfold ends, on_tree. rewrite Hr. destruct (f m) as [x m'] eqn:E. cbn [snd] in *. split.
  - apply ref_mstep; [done| |done]. intros b. cbn [trees]. destruct (decide (b = r)) as [->|]; [rewrite lookup_insert_eq, Hr|by rewrite lookup_insert_ne].
    split; by eexists.
  - split; [|done]. cbn. by rewrite lookup_insert_eq.
Qed.

Lemma ref_init s r :
  ok s → data_block bitmap bpg ref_meta s r →
  ∃ s', et_init r s = (inr (), s') ∧ ok s' ∧ finode s' = finode s ∧ fctx s' = fctx s ∧ (∀ b, ref_meta s' b ↔ ref_meta s b ∨ b = r) ∧
    (∀ b, ref_pinned s' b = ref_pinned s b) ∧ ref_rep s' r [].
Proof.
  intros [O1 O2 O3 O4 O5 O6 O7 O8] (Hr & Hu & Hnm). eexists. split; [done|].
  set (s' := mkFS _ _ _). assert (∀ b, ref_meta s' b ↔ ref_meta s b ∨ b = r) as Hm.
  { intros b. unfold ref_meta. cbn [fenv s' trees]. destruct (decide (b = r)) as [->|].
    - rewrite lookup_insert_eq. split; [tauto|]. intros _. right. right. by eexists.
    - rewrite lookup_insert_ne by done. tauto. }
  split_and!; [|done|done|done|done|split; [cbn; by rewrite lookup_insert_eq|constructor]].
  split; [done|done| | | |done|done|done].
  - intros b [Hb| ->]%Hm; [by apply O3|done].
  - intros b Hb. apply Hm. left. by apply O4.
  - apply Hm. by left.
Qed.

#[export] Instance ref_spec : FileEnvSpec REnv (N * block) block bitmap bpg ref_meta ref_pinned ref_rep.
Proof.
  split.
  - intros s c i _ _. done.
  - by intros s r m [_ ?].
  - intros s r m k _ [E _]. cbn. unfold from_tree. by rewrite E.
  - intros s r m _ [E _]. cbn. unfold from_tree. by rewrite E.
  - intros s z r m k v Hok Hr. apply (ref_tree_step s r m (λ m, ((), om_insert k v m)) Hok Hr). by apply om_insert_ok, Hr.
  - intros s r m k Hok Hr. apply (ref_tree_step s r m (λ m, (true, om_remove k m)) Hok Hr). by apply om_remove_ok, Hr.
  - intros s r Hok Hd _. destruct (ref_init s r Hok Hd) as (s' & E & H1 & H2 & H3 & H4 & H5 & H6).
    exists s'. rewrite H3. done.
  - intros s r o lb _. by eexists.
  - intros s r o lb pb bytes Hok. split; [by apply ref_mstep|by intros r' m' ?].
  - done.
  - intros s r b n _. eexists. split; [done|]. rewrite andb_true_iff, negb_true_iff, N.eqb_neq, forallb_forall. unfold ref_pinned.
    split; intros [Hn Hall]; (split; [done|]).
    + intros x Hx. specialize (Hall (N.to_nat (x - b))). rewrite in_seq in Hall.
      replace (b + N.of_nat (N.to_nat (x - b))) with x in Hall by lia. apply Hall. lia.
    + intros i Hi%in_seq. apply Hall. lia.
Qed.
End ref.

(** A group of 16 blocks with its bitmap in block 1; the free blocks hold what
    was there before. *)
Definition old_block : block := replicate BLOCK_SIZE x5a.
Definition test_disk : Disk := mkDisk (λ b, Some (if b =? 1 then x03 :: replicate 4095 x00 else old_block)) 0 (0, 0, 0).
Definition test_file : FState REnv := mkFS (ctx_new test_disk (tx_new 1 0)) (mkInode 5 0 0 0 [] 0) (mkREnv ∅ [] []).

Lemma test_env_ok : env_ok 1 16 (ref_meta 1 16) ref_pinned test_file.
Proof.
  assert (∀ b, ∃ buf, read_block (fctx test_file) b = Some buf ∧ length buf = BLOCK_SIZE) as Hrd.
  { intros b. exists (if b =? 1 then x03 :: replicate 4095 x00 else old_block). split; [done|].
    destruct (b =? 1); [done|apply length_replicate]. }
  split; [intros i _; apply Hrd|intros b _; apply Hrd| |by left|by right; left|done|done|done].
  intros b [(i & Hi & ->)|[->|[m Hm]]]; [|done|done]. assert (i = 0) as -> by (change (div_ceil 16 BITS) with 1 in Hi; lia). done.
Qed.
