(* ===== verification/FileMap.v ===== *)
(** * The block mapping of a file

    Inline extents and the spill tree together are one map from logical to
    physical blocks: lookups read it, [add_extent] adds a run to it and
    [remap_block] changes one block of it, whatever was merged, split or
    spilled on the way. *)
From S2P Require Import Prelude OrdMap Transaction Allocator Extents FileModel FileSpec FileRef.
From Stdlib Require Import NArith ZArith Lia Strings.Byte.
From stdpp Require Import base numbers gmap option list.
#[local] Open Scope N_scope.

#[local] Abbreviation block := (list byte).

Definition ext_of (p : N * ETV) : Extent := mkExt p.1 (etv_phys p.2) (etv_len p.2).

(** All extents of an inode whose spill tree holds [m]. *)
Definition all_exts (i : Inode) (m : list (N * ETV)) : list Extent := extents i ++ map ext_of m.

(** ** Lists of extents *)
Record exts_ok (l : list Extent) : Prop := {
  xo_ok : Forall ext_ok l;
  xo_log : single l;
  xo_phys : ∀ y, (covp l y <= 1)%nat
}.

Lemma exts_ok_same l l' : same_cover l l' → Forall ext_ok l' → exts_ok l → exts_ok l'.
Proof.
  intros Hs Hok [H1 H2 H3]. split; [done|by eapply single_same|]. intros y. by rewrite <- (same_p _ _ Hs).
Qed.

Lemma exts_ok_perm l l' : l ≡ₚ l' → exts_ok l → exts_ok l'.
Proof. intros Hp H. apply (exts_ok_same l); [by apply perm_same|rewrite <- Hp; apply H|done]. Qed.

Lemma exts_ok_app_r l l' : exts_ok (l ++ l') → exts_ok l'.
Proof.
  intros [H1 H2 H3]. apply Forall_app in H1 as [_ H1]. split; [done| |].
  - intros x. specialize (H2 x). rewrite covl_app in H2. lia.
  - intros y. specialize (H3 y). rewrite covp_app in H3. lia.
Qed.

Lemma covl_one e x : covl [e] x = Nat.b2n (in_log e x).
Proof. unfold covl. cbn [sum_list_with]. lia. Qed.
Lemma covp_one e y : covp [e] y = Nat.b2n (in_phys e y).
Proof. unfold covp. cbn [sum_list_with]. lia. Qed.
Lemma covl_cons e l x : covl (e :: l) x = (Nat.b2n (in_log e x) + covl l x)%nat.
Proof. done. Qed.
Lemma covp_cons e l y : covp (e :: l) y = (Nat.b2n (in_phys e y) + covp l y)%nat.
Proof. done. Qed.

(** A run that touches nothing mapped can be added. *)
Lemma exts_ok_cons e l :
  exts_ok l → ext_ok e → (∀ x, in_log e x = true → covl l x = 0%nat) → (∀ y, in_phys e y = true → covp l y = 0%nat) →
  exts_ok (e :: l).
Proof.
  intros [H1 H2 H3] He Hl Hp. split; [by constructor| |].
  - intros x. rewrite covl_cons. destruct (in_log e x) eqn:E; [rewrite (Hl x E); cbn; lia|apply H2].
  - intros y. rewrite covp_cons. destruct (in_phys e y) eqn:E; [rewrite (Hp y E); cbn; lia|apply H3].
Qed.

Lemma maps_phys l x y : maps l x y → (1 <= covp l y)%nat.
Proof. intros Hm. destruct (covp l y) eqn:E; [|lia]. exfalso. by apply (proj1 (covp_maps l y) E x). Qed.
Lemma maps_log l x y : maps l x y → (1 <= covl l x)%nat.
Proof. intros Hm. destruct (covl l x) eqn:E; [|lia]. exfalso. by apply (proj1 (covl_maps l x) E y). Qed.

(** The inline merge is a regrouping. *)
Lemma merge_inline_same l lb pb n l' :
  Forall ext_ok l → ext_ok (mkExt lb pb n) → merge_inline l lb pb n = Some l' →
  Forall ext_ok l' ∧ same_cover l' (mkExt lb pb n :: l) ∧ length l' = length l.
Proof.
  intros Hok Hn. revert l'. induction Hok as [|e l He Hl IH]; intros l'; cbn [merge_inline]; [done|].
  destruct (_ && _) eqn:E1.
  { intros [= <-]. destruct (join_same e (mkExt lb pb n) He Hn) as [H1 H2]; [exact E1|]. split_and!; [by constructor| |done].
    change (same_cover ([mkExt (logical_start e) (physical_start e) (wadd64 (ext_len e) n)] ++ l) ([mkExt lb pb n] ++ e :: l)).
    rewrite H2. apply perm_same. cbn. constructor. }
  destruct ((wadd64 lb n =? _) && _) eqn:E2.
  { intros [= <-]. destruct (join_same (mkExt lb pb n) e Hn He) as [H1 H2]; [exact E2|].
    assert (wadd64 (ext_len e) n = wadd64 n (ext_len e)) as -> by (unfold wadd64; by rewrite N.add_comm).
    split_and!; [by constructor| |done].
    change (same_cover ([mkExt lb pb (wadd64 n (ext_len e))] ++ l) ([mkExt lb pb n; e] ++ l)). by rewrite H2. }
  destruct (merge_inline l lb pb n) as [l0|]; [|done]. intros [= <-]. destruct (IH l0 eq_refl) as (H1 & H2 & H3).
  split_and!; [by constructor| |cbn; by rewrite H3]. rewrite H2. apply perm_same. constructor.
Qed.

(** ** The spill tree as extents *)
Lemma ext_of_inj_key p : logical_start (ext_of p) = p.1.
Proof. done. Qed.

Lemma spill_insert_same m k v :
  om_ok m → (∀ v', (k, v') ∉ m) → map ext_of (om_insert k v m) ≡ₚ ext_of (k, v) :: map ext_of m.
Proof. intros Hok Hn. by rewrite om_insert_perm, om_remove_absent. Qed.

Lemma spill_remove_same m k v :
  om_ok m → (k, v) ∈ m → map ext_of m ≡ₚ ext_of (k, v) :: map ext_of (om_remove k m).
Proof. intros Hok Hin. by rewrite (om_remove_perm k v m) at 1. Qed.

(** A key of the tree starts an extent, so the block it names is mapped. *)
Lemma key_mapped m k v : Forall ext_ok (map ext_of m) → (k, v) ∈ m → (1 <= covl (map ext_of m) k)%nat.
Proof.
  intros Hok Hin. apply (maps_log _ k (etv_phys v)). exists (ext_of (k, v)). rewrite Forall_forall in Hok.
  pose proof (list_elem_of_fmap_2 ext_of _ _ Hin) as Hin'. split; [done|]. destruct (Hok _ Hin') as (Hn & _).
  rewrite in_log_iff. cbn in *. lia.
Qed.

(** The floor decides. *)
Lemma floor_maps m x :
  om_ok m → exts_ok (map ext_of m) →
  match om_floor x m with
  | Some (k, v) => (k, v) ∈ m ∧ k <= x ∧
      (if x <? wadd64 k (etv_len v) then maps (map ext_of m) x (etv_phys v + (x - k)) else covl (map ext_of m) x = 0%nat)
  | None => covl (map ext_of m) x = 0%nat
  end.
Proof.
  intros Hm Hx. pose proof (xo_ok _ Hx) as Hok. rewrite Forall_forall in Hok. destruct (om_floor x m) as [[k v]|] eqn:Ef.
  - destruct (om_floor_spec x m k v Hm Ef) as (Hin & Hle & Hmax). pose proof (list_elem_of_fmap_2 ext_of _ _ Hin) as Hin'.
    pose proof (Hok _ Hin') as (Hn & Hlt & _). cbn in Hn, Hlt. unfold kleb in Hle. cbn in Hle.
    assert (k <= x) as Hkx by (destruct (N.compare_spec k x); [lia|lia|done]). split_and!; [done|done|].
    rewrite wadd64_small by done. destruct (N.ltb_spec x (k + etv_len v)) as [Hin_x|Hout].
    + exists (ext_of (k, v)). split; [done|]. rewrite in_log_iff. cbn. lia.
    + apply covl_maps. intros y (e & He & Hex & _). apply list_elem_of_fmap in He as ([k' v'] & -> & He). apply in_log_iff in Hex.
      cbn in Hex. pose proof (Hmax (k', v') He) as Hk'. unfold kleb in Hk'. cbn in Hk'.
      assert (k' <= k) as Hkk. { destruct (N.compare_spec k' x); [| |lia]; specialize (Hk' eq_refl); destruct (N.compare_spec k' k); lia || done. }
      destruct (decide (k' = k)) as [->|Hne].
      { apply (om_get_elem k v' m Hm) in He. apply (om_get_elem k v m Hm) in Hin. assert (v' = v) as -> by congruence. lia. }
      pose proof (xo_log _ Hx k) as Hc. rewrite (spill_remove_same m k v Hm Hin) in Hc.
      rewrite covl_cons in Hc. rewrite (proj2 (in_log_iff (ext_of (k, v)) k)) in Hc by (cbn; lia). cbn in Hc.
      assert ((k', v') ∈ om_remove k m) as Hin2 by (apply om_remove_elem; [done|]; split; [done|by cbn]).
      pose proof (maps_log (map ext_of (om_remove k m)) k (etv_phys v' + (k - k'))) as Hml.
      enough (1 <= covl (map ext_of (om_remove k m)) k)%nat by lia. apply Hml. exists (ext_of (k', v')).
      split; [by apply (list_elem_of_fmap_2 ext_of)|]. rewrite in_log_iff. cbn. lia.
  - apply covl_maps. intros y (e & He & Hex & _). apply list_elem_of_fmap in He as ([k' v'] & -> & He). apply in_log_iff in Hex.
    cbn in Hex. pose proof (om_floor_none_above x m _ Hm Ef He) as Hn. unfold kleb in Hn. cbn in Hn.
    destruct (N.compare_spec k' x); (done || lia).
Qed.

(** ** One block of an extent replaced *)
Lemma inline_covering_spec l x :
  Forall ext_ok l → x < two64 →
  match inline_covering l x with
  | Some (before, e, after) => l = before ++ e :: after ∧ in_log e x = true
  | None => covl l x = 0%nat
  end.
Proof.
  intros Hok Hx. induction Hok as [|e l (H1 & H2 & H3) _ IH]; [done|]. cbn [inline_covering].
  destruct (N.leb_spec (logical_start e) x) as [Hle|Hlt]; cbn [andb].
  - rewrite wsub64_small by done. destruct (N.ltb_spec (x - logical_start e) (ext_len e)).
    + split; [done|]. apply in_log_iff. lia.
    + assert (in_log e x = false) as E by (apply not_true_iff_false; rewrite in_log_iff; lia).
      destruct (inline_covering l x) as [[[a o] b]|]; cbn [fmap option_fmap option_map]; [|by rewrite covl_cons, E, IH].
      destruct IH as [-> ?]. done.
  - assert (in_log e x = false) as E by (apply not_true_iff_false; rewrite in_log_iff; lia).
    destruct (inline_covering l x) as [[[a o] b]|]; cbn [fmap option_fmap option_map]; [|by rewrite covl_cons, E, IH].
      destruct IH as [-> ?]. done.
Qed.

Lemma pieces_around_spec e x new :
  ext_ok e → in_log e x = true → new + 1 < two64 →
  Forall ext_ok (pieces_around e x new) ∧ (∀ x', covl (pieces_around e x new) x' = covl [e] x') ∧
  (∀ y, (covp (pieces_around e x new) y <= covp [e] y + Nat.b2n (y =? new)%N)%nat) ∧
  ∀ x' y', maps (pieces_around e x new) x' y' ↔ (x' = x ∧ y' = new) ∨ (x' ≠ x ∧ maps [e] x' y').
Proof.
  intros (H1 & H2 & H3) Hx%in_log_iff Hn. unfold pieces_around. rewrite wsub64_small by lia.
  destruct e as [ls ps n]. cbn [logical_start physical_start ext_len] in *. split_and!.
  - apply Forall_app. split; [|apply Forall_app; split].
    + destruct (N.ltb_spec 0 (x - ls)); [|constructor]. apply Forall_singleton. unfold ext_ok. cbn [logical_start physical_start ext_len]. lia.
    + apply Forall_singleton. unfold ext_ok. cbn [logical_start physical_start ext_len]. lia.
    + destruct (N.ltb_spec (x - ls + 1) n); [|constructor]. apply Forall_singleton. unfold ext_ok.
      cbn [logical_start physical_start ext_len]. lia.
  - intros x'. rewrite !covl_app. unfold covl, in_log.
    destruct (N.ltb_spec 0 (x - ls)), (N.ltb_spec (x - ls + 1) n); cbn [sum_list_with logical_start ext_len];
      repeat match goal with |- context [?a <=? x'] => destruct (N.leb_spec a x') | |- context [x' <? ?a] => destruct (N.ltb_spec x' a) end; cbn; lia.
  - intros y. rewrite !covp_app. unfold covp, in_phys.
    destruct (N.ltb_spec 0 (x - ls)), (N.ltb_spec (x - ls + 1) n), (N.eqb_spec y new); cbn [sum_list_with physical_start ext_len];
      repeat match goal with |- context [?a <=? y] => destruct (N.leb_spec a y) | |- context [y <? ?a] => destruct (N.ltb_spec y a) end; cbn; lia.
  - intros x' y'. rewrite !maps_app, maps_one, in_log_iff. cbn [logical_start physical_start ext_len].
    destruct (N.ltb_spec 0 (x - ls)), (N.ltb_spec (x - ls + 1) n); rewrite ?maps_one, ?in_log_iff;
      cbn [logical_start physical_start ext_len]; pose proof (maps_nil x' y'); intuition lia.
Qed.

Lemma pieces_replace e x new R :
  exts_ok (e :: R) → in_log e x = true → new + 1 < two64 → covp (e :: R) new = 0%nat →
  exts_ok (pieces_around e x new ++ R) ∧
  ∀ x' y', maps (pieces_around e x new ++ R) x' y' ↔ (x' = x ∧ y' = new) ∨ (x' ≠ x ∧ maps (e :: R) x' y').
Proof.
  intros [H1 H2 H3] Hx Hn Hz. apply Forall_cons in H1 as [He HR]. destruct (pieces_around_spec e x new He Hx Hn) as (P1 & P2 & P3 & P4).
  split; [split|].
  - by apply Forall_app.
  - intros x'. rewrite covl_app, P2, covl_one. rewrite <- covl_cons. apply H2.
  - intros y. rewrite covp_app. specialize (P3 y). rewrite covp_one in P3. specialize (H3 y). rewrite covp_cons in H3, Hz.
    destruct (N.eqb_spec y new) as [->|]; cbn [Nat.b2n] in P3; lia.
  - intros x' y'. rewrite maps_app, P4, (maps_cons e R). assert (maps R x y' → False) as HRx.
    { intros Hm%maps_log. specialize (H2 x). rewrite covl_cons, Hx in H2. cbn in H2. lia. }
    destruct (decide (x' = x)) as [->|Hne].
    + split; [intros [[[_ ->]|[? _]]|?]; [by left|done|by destruct HRx]|]. intros [[_ ->]|[? _]]; [left; by left|done].
    + split; [intros [[[? _]|[_ ?]]|?]; [done|right; split; [done|by left]|right; split; [done|by right]]|].
      intros [[? _]|[_ [?|?]]]; [done|left; by right|by right].
Qed.

Section file_map.
Context {X CS H : Type} `{!FileEnv X CS H} (bitmap bpg : N).
Context (meta : FState X → N → Prop) (pinned : FState X → N → bool) (et_rep : FState X → N → list (N * ETV) → Prop).
Context `{HS : !FileEnvSpec X CS H bitmap bpg meta pinned et_rep}.
#[local] Abbreviation ok := (env_ok bitmap bpg meta pinned).
#[local] Abbreviation data_b := (data_block bitmap bpg meta).
#[local] Abbreviation step := (fstep bitmap bpg meta pinned).
#[local] Abbreviation nothing := (λ _ : N, False).

(** [m] is what the spill tree of the inode holds. *)
Definition tree_rep (s : FState X) (m : list (N * ETV)) : Prop :=
  if spill_extent_root (finode s) =? 0 then m = [] else et_rep s (spill_extent_root (finode s)) m.

Record file_ok (s : FState X) (m : list (N * ETV)) : Prop := {
  fo_env : ok s;
  fo_tree : tree_rep s m;
  fo_exts : exts_ok (all_exts (finode s) m);
  fo_data : ∀ x y, maps (all_exts (finode s) m) x y → data_b s y;
  fo_slots : (length (extents (finode s)) <= MAX_INLINE_EXTENTS)%nat
}.

(** The attributes no mapping operation changes. *)
Definition same_attrs (i i' : Inode) : Prop :=
  ino i' = ino i ∧ isize i' = isize i ∧ compression_algo i' = compression_algo i ∧ encryption_algo i' = encryption_algo i.

Lemma same_attrs_trans i1 i2 i3 : same_attrs i1 i2 → same_attrs i2 i3 → same_attrs i1 i3.
Proof. unfold same_attrs. intuition congruence. Qed.

Definition same_kind (i i' : Inode) : Prop :=
  ino i' = ino i ∧ compression_algo i' = compression_algo i ∧ encryption_algo i' = encryption_algo i.

Lemma same_kind_trans i1 i2 i3 : same_kind i1 i2 → same_kind i2 i3 → same_kind i1 i3.
Proof. unfold same_kind. intuition congruence. Qed.

Lemma same_attrs_kind i i' : same_attrs i i' → isize i' = N.max (isize i) 0 ∧ same_kind i i'.
Proof. unfold same_attrs, same_kind. rewrite N.max_0_r. tauto. Qed.

Lemma data_nonzero s y : ok s → data_b s y → y ≠ 0.
Proof. intros Hok (_ & _ & Hn) ->. apply Hn, (eo_zero _ _ _ _ _ Hok). Qed.

Lemma tree_rep_ok s m : tree_rep s m → om_ok m.
Proof. unfold tree_rep. destruct (_ =? 0); [intros ->; constructor|]. apply et_rep_ok. Qed.

(** The physical block of [x], 0 for a hole. *)
Definition phys (s : FState X) (m : list (N * ETV)) (x : N) : N :=
  default 0 (map_logical_to_physical (all_exts (finode s) m) x).

Lemma phys_maps s m x y : file_ok s m → phys s m x = y ∧ y ≠ 0 ↔ maps (all_exts (finode s) m) x y.
Proof.
  intros Hf. pose proof (fo_exts _ _ Hf) as [H1 H2 _]. unfold phys. rewrite <- (maps_lookup _ x y H1 (H2 x)).
  destruct (map_logical_to_physical _ x) as [y'|] eqn:E; cbn; split; [intros [-> _]; done| |intros [<- ?]; done|done].
  intros [= <-]. split; [done|]. apply (data_nonzero s); [apply Hf|]. apply (fo_data _ _ Hf x). by apply maps_lookup.
Qed.

Lemma phys_hole s m x : file_ok s m → phys s m x = 0 ↔ covl (all_exts (finode s) m) x = 0%nat.
Proof.
  intros Hf. rewrite covl_maps. split.
  - intros Hz y Hm. apply (phys_maps s m x y Hf) in Hm as [? ?]. congruence.
  - intros Hn. destruct (decide (phys s m x = 0)) as [|Hne]; [done|]. exfalso. apply (Hn (phys s m x)). by apply phys_maps.
Qed.

Lemma get_inode_bind {A} (f : Inode → FM X A) s : (get_inode ≫= f) s = f (finode s) s.
Proof. done. Qed.

Lemma gets_bind {A B} (g : FState X → A) (f : A → FM X B) s : (gets g ≫= f) s = f (g s) s.
Proof. done. Qed.

(** [find] on the inline extents, then the tree. *)
Lemma get_physical_block_ok s m x : file_ok s m → get_physical_block x s = (inr (phys s m x), s).
Proof.
  intros Hf. pose proof (fo_exts _ _ Hf) as Hx. pose proof Hx as [H1 H2 _]. unfold get_physical_block, phys, map_logical_to_physical.
  rewrite get_inode_bind. unfold all_exts. rewrite find_app. destruct (List.find _ (extents (finode s))) as [e|] eqn:E; [done|].
  pose proof (fo_tree _ _ Hf) as Ht. unfold tree_rep in Ht. destruct (spill_extent_root (finode s) =? 0) eqn:Er; [by rewrite Ht|].
  pose proof (et_rep_ok _ _ _ Ht) as Hm. unfold all_exts in Hx. apply exts_ok_app_r in Hx as Hxm.
  unfold lookup_covering. rewrite (em_bind_ok _ _ s _ s (em_bind_ok _ _ s _ s (et_floor_spec s _ m x (fo_env _ _ Hf) Ht))).
  unfold mret, EM_ret.
  pose proof (floor_maps m x Hm Hxm) as Hfl.
  assert (∀ y, maps (map ext_of m) x y ↔ ((λ e, wadd64 (physical_start e) (wsub64 x (logical_start e))) <$> List.find (λ e, contains_logical e x) (map ext_of m)) = Some y) as Hlk.
  { intros y. symmetry. apply maps_lookup; apply Hxm. }
  assert (covl (map ext_of m) x = 0%nat → List.find (λ e, contains_logical e x) (map ext_of m) = None) as Hnone.
  { intros Hz. destruct (List.find _ (map ext_of m)) as [e|]; [|done]. exfalso. eapply (proj1 (covl_maps _ _) Hz). by apply Hlk. }
  destruct (om_floor x m) as [[k v]|]; [|by rewrite Hnone].
  destruct Hfl as (Hin & Hkx & Hfl). destruct (x <? wadd64 k (etv_len v)); [|by rewrite Hnone].
  pose proof Hfl as Hd. apply Hlk in Hfl. rewrite Hfl. cbn [default from_option]. do 2 f_equal.
  pose proof (xo_ok _ Hxm) as Hok. rewrite Forall_forall in Hok.
  assert (data_b s (etv_phys v + (x - k))) as (Hlt & _). { apply (fo_data _ _ Hf x). unfold all_exts. apply maps_app. by right. }
  pose proof (eo_bpg _ _ _ _ _ (fo_env _ _ Hf)). pose proof (list_elem_of_fmap_2 ext_of _ _ Hin) as Hin'. destruct (Hok _ Hin') as (_ & Hb & _).
  destruct Hd as (e & He & Hex & _). destruct (in_log_bound e x (Hok _ He) Hex). rewrite wsub64_small, wadd64_small by lia. done.
Qed.

(** A step that changes neither the mapping nor the tree keeps the file. *)
Lemma file_ok_step P s s' m :
  file_ok s m → step P s s' → finode s' = finode s → (tree_rep s m → tree_rep s' m) → file_ok s' m.
Proof.
  intros Hf Hst Hi Ht. destruct Hf as [F1 F2 F3 F4 F5]. split; [apply Hst|by apply Ht|by rewrite Hi| |by rewrite Hi].
  intros x y Hm. rewrite Hi in Hm. eapply fstep_data_block; [exact Hst|by eapply F4].
Qed.

Lemma keeps_tree_rep s s' m : keeps_trees et_rep s s' → finode s' = finode s → tree_rep s m → tree_rep s' m.
Proof. unfold tree_rep. intros Hk ->. destruct (_ =? 0); [done|apply Hk]. Qed.

(** ** Adding a run *)
(** [e] is new: it touches no mapped block, and its blocks are data. *)
Record fresh_ext (s : FState X) (m : list (N * ETV)) (e : Extent) : Prop := {
  fe_ok : ext_ok e;
  fe_log : ∀ x, in_log e x = true → covl (all_exts (finode s) m) x = 0%nat;
  fe_phys : ∀ y, in_phys e y = true → covp (all_exts (finode s) m) y = 0%nat ∧ data_b s y
}.

Lemma fresh_exts_ok s m e : file_ok s m → fresh_ext s m e → exts_ok (e :: all_exts (finode s) m).
Proof. intros Hf [H1 H2 H3]. apply exts_ok_cons; [apply Hf|done|done|]. intros y Hy. by apply H3. Qed.

(** What adding [e] leaves. *)
Definition added (s : FState X) (m : list (N * ETV)) (es : list Extent) (s' : FState X) : Prop :=
  ∃ m', file_ok s' m' ∧ same_cover (all_exts (finode s') m') (es ++ all_exts (finode s) m) ∧
    step nothing s s' ∧ same_attrs (finode s) (finode s').

Lemma added_intro s m e s' m' :
  file_ok s m → fresh_ext s m e → step nothing s s' → tree_rep s' m' → Forall ext_ok (all_exts (finode s') m') →
  same_cover (all_exts (finode s') m') (e :: all_exts (finode s) m) →
  (length (extents (finode s')) <= MAX_INLINE_EXTENTS)%nat → same_attrs (finode s) (finode s') → added s m [e] s'.
Proof.
  intros Hf He Hst Ht Hok Hs Hl Ha. exists m'. split_and!; [|done|done|done].
  split; [apply Hst|done| | |done].
  - eapply exts_ok_same; [symmetry; exact Hs|done|by apply (fresh_exts_ok s)].
  - intros x y Hm. apply (same_m _ _ Hs) in Hm. eapply fstep_data_block; [exact Hst|]. apply maps_cons in Hm as [Hm|Hm].
    + apply maps_one in Hm as [Hx ->]. apply in_log_iff in Hx. apply (fe_phys _ _ _ He). apply in_phys_iff. lia.
    + by apply (fo_data _ _ Hf x).
Qed.

Lemma new_root s :
  ok s →
  ends oom (root ← falloc bitmap bpg (Meta 1); et_init root ;; set_inode (with_root root)) s (λ _ s',
    step nothing s s' ∧ ∃ r, r ≠ 0 ∧ finode s' = with_root r (finode s) ∧ et_rep s' r []).
Proof.
  intros Hok. apply ends_bind. eapply ends_mono; [apply (falloc_ok _ _ _ _ _ s (Meta 1) Hok); done|].
  cbn [req_blocks]. intros r s1 (Hst & Hk & Hi & Hr & Hm & Hu). destruct (Hu r ltac:(lia)) as [Hu0 Hu1].
  assert (∀ b, data_b s b → b ≠ r) as Hne by (intros b (_ & Hb & _) ->; congruence).
  assert (data_b s1 r) as Hd.
  { split_and!; [lia|done|]. intros Hmr. apply Hm in Hmr. apply (eo_meta _ _ _ _ _ Hok) in Hmr as [_ ?]. congruence. }
  assert (pinned s1 r = false) as Hp.
  { rewrite (fs_pinned _ _ _ _ _ _ _ Hst). destruct (pinned s r) eqn:E; [|done]. apply (eo_pinned _ _ _ _ _ Hok) in E as [_ ?]. congruence. }
  destruct (et_init_spec s1 r (fs_ok _ _ _ _ _ _ _ Hst) Hd Hp) as (s2 & E & Hok2 & Hi2 & Hu2 & Hm2 & Hr2 & Hp2 & Ht2).
  unfold ends. rewrite (em_bind_ok _ _ _ _ _ E). cbn [set_inode].
  destruct (set_inode_ok bitmap bpg meta pinned et_rep s2 (with_root r) Hok2) as (Hst3 & Hk3 & _). split.
  - eapply fstep_trans_same; [|exact Hst3].
    split; [done| | | |].
    + intros b Hb. rewrite Hu2. by apply (fs_used _ _ _ _ _ _ _ Hst).
    + intros b [Hb| ->]%Hm2; [|by right]. by apply (fs_meta _ _ _ _ _ _ _ Hst).
    + intros b Hb Hn. rewrite Hr2; [by apply (fs_data _ _ _ _ _ _ _ Hst)| |by apply Hne]. eapply fstep_data_block; [exact Hst|done].
    + intros b. by rewrite Hp2, (fs_pinned _ _ _ _ _ _ _ Hst).
  - exists r. split_and!; [by apply (data_nonzero s1 r); [apply Hst|]|cbn; by rewrite Hi2, Hi|by apply Hk3].
Qed.

Lemma spill_put s m z k v e :
  file_ok s m → fresh_ext s m e → spill_extent_root (finode s) ≠ 0 → Forall ext_ok (map ext_of (om_insert k v m)) →
  same_cover (map ext_of (om_insert k v m)) (e :: map ext_of m) →
  ends oom (et_insert z (spill_extent_root (finode s)) k v) s (λ _ s', finode s' = finode s ∧ added s m [e] s').
Proof.
  intros Hf He Hr Hok Hs. pose proof (fo_tree _ _ Hf) as Ht. unfold tree_rep in Ht. rewrite (proj2 (N.eqb_neq _ 0) Hr) in Ht.
  eapply ends_mono; [apply (et_insert_spec s z _ m k v (fo_env _ _ Hf) Ht)|]. intros _ s' ([Hst Hi] & Ht').
  pose proof (xo_ok _ (fo_exts _ _ Hf)) as Hall. apply Forall_app in Hall as [Hin _].
  split; [done|]. apply (added_intro s m e s' (om_insert k v m)); [done|done|done| | | |by rewrite Hi; apply Hf|by rewrite Hi].
  - unfold tree_rep. by rewrite Hi, (proj2 (N.eqb_neq _ 0) Hr).
  - unfold all_exts. rewrite Hi. by apply Forall_app.
  - unfold all_exts. rewrite Hi, Hs. apply perm_same. by rewrite Permutation_middle.
Qed.

(** A new key. *)
Lemma spill_new s m z e :
  file_ok s m → fresh_ext s m e → spill_extent_root (finode s) ≠ 0 →
  ends oom (et_insert z (spill_extent_root (finode s)) (logical_start e) (mkETV (physical_start e) (ext_len e))) s (λ _ s', finode s' = finode s ∧ added s m [e] s').
Proof.
  intros Hf He Hr. pose proof (tree_rep_ok _ _ (fo_tree _ _ Hf)) as Hm. pose proof (xo_ok _ (fo_exts _ _ Hf)) as Hall.
  apply Forall_app in Hall as [_ Hok]. pose proof (fe_ok _ _ _ He) as Hn.
  assert (map ext_of (om_insert (logical_start e) (mkETV (physical_start e) (ext_len e)) m) ≡ₚ e :: map ext_of m) as Hp.
  { rewrite spill_insert_same; [by destruct e|done|]. intros v' Hin. pose proof (key_mapped m _ v' Hok Hin) as Hc.
    assert (covl (all_exts (finode s) m) (logical_start e) = 0%nat) as Hz.
    { apply (fe_log _ _ _ He). apply in_log_iff. destruct Hn. lia. }
    unfold all_exts in Hz. rewrite covl_app in Hz. lia. }
  apply spill_put; [done|done|done| |by apply perm_same]. rewrite Hp. by constructor.
Qed.

(** A longer floor extent. *)
Lemma spill_grow s m e k v :
  file_ok s m → fresh_ext s m e → spill_extent_root (finode s) ≠ 0 → (k, v) ∈ m → is_adjacent_to (ext_of (k, v)) e = true →
  ends oom (et_insert true (spill_extent_root (finode s)) k (mkETV (etv_phys v) (wadd64 (etv_len v) (ext_len e)))) s
    (λ _ s', finode s' = finode s ∧ added s m [e] s').
Proof.
  intros Hf He Hr Hin Ha. pose proof (tree_rep_ok _ _ (fo_tree _ _ Hf)) as Hm. pose proof (xo_ok _ (fo_exts _ _ Hf)) as Hall.
  apply Forall_app in Hall as [_ Hok]. pose proof (spill_remove_same m k v Hm Hin) as Hp. pose proof Hok as Hok'.
  rewrite Hp in Hok'. apply Forall_cons in Hok' as [Hkv Hrest]. destruct (join_same _ e Hkv (fe_ok _ _ _ He) Ha) as [Hj1 Hj2].
  assert (map ext_of (om_insert k (mkETV (etv_phys v) (wadd64 (etv_len v) (ext_len e))) m) ≡ₚ
    mkExt k (etv_phys v) (wadd64 (etv_len v) (ext_len e)) :: map ext_of (om_remove k m)) as Hp' by (by rewrite om_insert_perm).
  apply spill_put; [done|done|done| |].
  - rewrite Hp'. by constructor.
  - rewrite (perm_same _ _ Hp').
    change (same_cover ([mkExt k (etv_phys v) (wadd64 (etv_len v) (ext_len e))] ++ map ext_of (om_remove k m)) (e :: map ext_of m)).
    rewrite Hj2. apply perm_same. rewrite Hp. cbn. constructor.
Qed.

Lemma spill_into s m e :
  file_ok s m → fresh_ext s m e → spill_extent_root (finode s) ≠ 0 →
  ends oom (let root := spill_extent_root (finode s) in
    r ← et_floor root (logical_start e);
    match r with
    | Some (k, v) =>
        if (wadd64 k (etv_len v) =? logical_start e) && (wadd64 (etv_phys v) (etv_len v) =? physical_start e)
        then et_insert true root k (mkETV (etv_phys v) (wadd64 (etv_len v) (ext_len e)))
        else et_insert true root (logical_start e) (mkETV (physical_start e) (ext_len e))
    | None => et_insert true root (logical_start e) (mkETV (physical_start e) (ext_len e))
    end) s (λ _ s', finode s' = finode s ∧ added s m [e] s').
Proof.
  intros Hf He Hr. pose proof (fo_tree _ _ Hf) as Ht. unfold tree_rep in Ht. rewrite (proj2 (N.eqb_neq _ 0) Hr) in Ht. cbv zeta.
  unfold ends. rewrite (em_bind_ok _ _ _ _ _ (et_floor_spec s _ m (logical_start e) (fo_env _ _ Hf) Ht)).
  destruct (om_floor (logical_start e) m) as [[k v]|] eqn:Ef; [|by apply spill_new].
  destruct (om_floor_spec _ m k v (et_rep_ok _ _ _ Ht) Ef) as (Hin & _). destruct (_ && _) eqn:Ea; [|by apply spill_new].
  by apply spill_grow.
Qed.

Lemma added_from s m s1 m1 es s' :
  step nothing s s1 → same_attrs (finode s) (finode s1) → all_exts (finode s1) m1 = all_exts (finode s) m →
  added s1 m1 es s' → added s m es s'.
Proof.
  intros Hst Ha Hall (m' & Hf & Hs & Hst' & Ha'). exists m'. rewrite Hall in Hs.
  split_and!; [done|done|by eapply fstep_trans_same|by eapply same_attrs_trans].
Qed.

Lemma fresh_ext_step s s1 m m1 e :
  step nothing s s1 → all_exts (finode s1) m1 = all_exts (finode s) m → fresh_ext s m e → fresh_ext s1 m1 e.
Proof.
  intros Hst Hall [H1 H2 H3]. split; [done|by rewrite Hall|]. rewrite Hall. intros y Hy. destruct (H3 y Hy) as [? ?].
  split; [done|]. by eapply fstep_data_block.
Qed.

Lemma spill_extent_ok s m e :
  file_ok s m → fresh_ext s m e →
  ends oom (spill_extent bitmap bpg (logical_start e) (physical_start e) (ext_len e)) s (λ _ s', added s m [e] s').
Proof.
  intros Hf He. unfold spill_extent, ends. rewrite get_inode_bind. destruct (N.eqb_spec (spill_extent_root (finode s)) 0) as [Er|Er].
  - apply ends_bind. eapply ends_mono; [apply new_root, Hf|]. intros _ s1 (Hst & r & Hr & Hi & Ht). unfold ends. rewrite get_inode_bind.
    pose proof (fo_tree _ _ Hf) as Hm. unfold tree_rep in Hm. rewrite Er in Hm. cbn in Hm. subst m.
    assert (all_exts (finode s1) [] = all_exts (finode s) []) as Hall by (by rewrite Hi).
    assert (same_attrs (finode s) (finode s1)) as Ha by (by rewrite Hi).
    assert (file_ok s1 []) as Hf1.
    { split; [apply Hst| |rewrite Hall; apply Hf| |rewrite Hi; apply Hf].
      - unfold tree_rep. rewrite Hi. cbn [with_root spill_extent_root]. by rewrite (proj2 (N.eqb_neq _ 0) Hr).
      - intros x y. rewrite Hall. intros Hxy. eapply fstep_data_block; [exact Hst|by apply (fo_data _ _ Hf x)]. }
    eapply ends_mono; [apply (spill_into s1 [] e Hf1); [by eapply fresh_ext_step|by rewrite Hi]|].
    intros u s' [_ Had]. by eapply added_from.
  - rewrite (em_bind_ok (mret ()) _ s () s eq_refl), get_inode_bind.
    eapply ends_mono; [by apply (spill_into s m)|]. by intros u s' [_ ?].
Qed.

Lemma set_extents_added s m e l :
  file_ok s m → fresh_ext s m e → Forall ext_ok l → same_cover l (e :: extents (finode s)) → (length l <= MAX_INLINE_EXTENTS)%nat →
  ends oom (set_inode (with_extents l)) s (λ _ s', added s m [e] s').
Proof.
  intros Hf He Hok Hs Hl. unfold ends, set_inode.
  destruct (set_inode_ok bitmap bpg meta pinned et_rep s (with_extents l) (fo_env _ _ Hf)) as (Hst & Hk & _).
  pose proof (xo_ok _ (fo_exts _ _ Hf)) as Hall. apply Forall_app in Hall as [_ Hm].
  apply (added_intro s m e _ m); [done|done|done| | | |done|done]; cbn [finode].
  - pose proof (fo_tree _ _ Hf) as Ht. unfold tree_rep in *. cbn [finode with_extents spill_extent_root].
    destruct (_ =? 0); [done|by apply Hk].
  - unfold all_exts. cbn [with_extents extents]. by apply Forall_app.
  - unfold all_exts. cbn [with_extents extents]. by rewrite Hs.
Qed.

Lemma add_extent_ok s m e :
  file_ok s m → fresh_ext s m e →
  ends oom (add_extent bitmap bpg (logical_start e) (physical_start e) (ext_len e)) s (λ _ s', added s m [e] s').
Proof.
  intros Hf He. unfold add_extent, ends. rewrite get_inode_bind.
  pose proof (xo_ok _ (fo_exts _ _ Hf)) as Hall. apply Forall_app in Hall as [Hin _].
  assert (mkExt (logical_start e) (physical_start e) (ext_len e) = e) as Ee by (by destruct e).
  destruct (merge_inline _ _ _ _) as [l|] eqn:Em.
  - apply merge_inline_same in Em as (H1 & H2 & H3); [|done|rewrite Ee; apply He]. rewrite Ee in H2.
    apply (set_extents_added s m e l); [done|done|done|done|]. rewrite H3. apply Hf.
  - destruct (Nat.ltb_spec (length (extents (finode s))) MAX_INLINE_EXTENTS) as [Hlt|]; [|by apply spill_extent_ok]. rewrite Ee.
    apply (set_extents_added s m e); [done|done| | |].
    + apply Forall_app. split; [done|]. apply Forall_singleton, He.
    + apply perm_same. by rewrite Permutation_app_comm.
    + rewrite length_app. cbn. lia.
Qed.

(** ** Adding several runs *)
Record fresh_exts (s : FState X) (m : list (N * ETV)) (es : list Extent) : Prop := {
  fes_ok : exts_ok (es ++ all_exts (finode s) m);
  fes_data : ∀ x y, maps es x y → data_b s y
}.

Lemma fresh_exts_head s m e es : fresh_exts s m (e :: es) → fresh_ext s m e.
Proof.
  intros [[H1 H2 H3] Hd]. cbn [app] in *. apply Forall_cons in H1 as [He _]. split; [done| |].
  - intros x Hx. specialize (H2 x). rewrite covl_cons, Hx, covl_app in H2. cbn in H2. lia.
  - intros y Hy. split; [specialize (H3 y); rewrite covp_cons, Hy, covp_app in H3; cbn in H3; lia|].
    apply in_phys_iff in Hy. apply (Hd (logical_start e + (y - physical_start e))). apply maps_cons. left. apply maps_one.
    rewrite in_log_iff. lia.
Qed.

Lemma added_app s m e s1 es s' m1 :
  same_cover (all_exts (finode s1) m1) (e :: all_exts (finode s) m) → step nothing s s1 → same_attrs (finode s) (finode s1) →
  added s1 m1 es s' → added s m (e :: es) s'.
Proof.
  intros Hs Hst Ha (m' & Hf' & Hs' & Hst' & Ha'). exists m'.
  split_and!; [done| |by eapply fstep_trans_same|by eapply same_attrs_trans].
  rewrite Hs', Hs. apply perm_same. cbn. by rewrite Permutation_middle.
Qed.

Lemma fresh_exts_tail s m e es s1 m1 :
  fresh_exts s m (e :: es) → file_ok s1 m1 → same_cover (all_exts (finode s1) m1) (e :: all_exts (finode s) m) →
  step nothing s s1 → fresh_exts s1 m1 es.
Proof.
  intros [H1 H2] Hf Hs Hst. split.
  - apply (exts_ok_same ((e :: es) ++ all_exts (finode s) m)); [| |done].
    + rewrite Hs. apply perm_same. cbn. by rewrite Permutation_middle.
    + apply Forall_app. split; [|apply Hf]. pose proof (xo_ok _ H1) as Hok. cbn in Hok. apply Forall_cons in Hok as [_ Hok].
      by apply Forall_app in Hok as [? _].
  - intros x y Hxy. eapply fstep_data_block; [exact Hst|]. apply (H2 x). apply maps_cons. by right.
Qed.

Lemma for_each_added (f : Extent → FM X unit) (I : FState X → Prop) es s m :
  (∀ s m e, I s → file_ok s m → fresh_ext s m e → ends oom (f e) s (λ _ s', I s' ∧ added s m [e] s')) →
  I s → file_ok s m → fresh_exts s m es → ends oom (for_each f es) s (λ _ s', I s' ∧ added s m es s').
Proof.
  intros Hstep. revert s m. induction es as [|e es IH]; intros s m HI Hf Hes.
  { split; [done|]. exists m. split_and!; [done|done|apply fstep_refl, Hf|done]. }
  cbn [for_each]. apply ends_bind. eapply ends_mono; [apply (Hstep s m e HI Hf (fresh_exts_head _ _ _ _ Hes))|].
  intros _ s1 (HI1 & m1 & Hf1 & Hs1 & Hst1 & Ha1). cbn [app] in Hs1.
  eapply ends_mono; [apply (IH s1 m1 HI1 Hf1 (fresh_exts_tail _ _ _ _ _ _ Hes Hf1 Hs1 Hst1))|].
  intros _ s' [HI' Had]. split; [done|]. by eapply added_app.
Qed.

(** ** Redirecting a block *)
Definition remapped (s : FState X) (m : list (N * ETV)) (x new : N) (s' : FState X) : Prop :=
  ∃ m', file_ok s' m' ∧ step nothing s s' ∧ same_attrs (finode s) (finode s') ∧
    ∀ x' y', maps (all_exts (finode s') m') x' y' ↔ (x' = x ∧ y' = new) ∨ (x' ≠ x ∧ maps (all_exts (finode s) m) x' y').

Lemma remapped_intro s m x new s0 m0 es s' :
  added s0 m0 es s' → step nothing s s0 → same_attrs (finode s) (finode s0) →
  (∀ x' y', maps (es ++ all_exts (finode s0) m0) x' y' ↔ (x' = x ∧ y' = new) ∨ (x' ≠ x ∧ maps (all_exts (finode s) m) x' y')) →
  remapped s m x new s'.
Proof.
  intros (m' & Hf & Hs & Hst & Ha) Hst0 Ha0 Hm. exists m'.
  split_and!; [done|by eapply fstep_trans_same|by eapply same_attrs_trans|]. intros x' y'. by rewrite (same_m _ _ Hs).
Qed.


Lemma data_lt s y : ok s → data_b s y → y + 1 < two64.
Proof. intros Hok (Hy & _). pose proof (eo_bpg _ _ _ _ _ Hok). lia. Qed.

(** An inode without its inline extents. *)
Lemma drop_extents s m :
  file_ok s m → let s0 := mkFS (fctx s) (with_extents [] (finode s)) (fenv s) in
  file_ok s0 m ∧ step nothing s s0 ∧ same_attrs (finode s) (finode s0).
Proof.
  intros Hf s0. destruct (set_inode_ok bitmap bpg meta pinned et_rep s (with_extents []) (fo_env _ _ Hf)) as (Hst & Hk & _).
  split_and!; [|done|done]. split; [apply Hst| | | |cbn; unfold MAX_INLINE_EXTENTS; lia].
  - pose proof (fo_tree _ _ Hf) as Ht. unfold tree_rep in *. cbn [s0 finode with_extents spill_extent_root].
    destruct (_ =? 0); [done|by apply Hk].
  - apply (exts_ok_app_r (extents (finode s))), (fo_exts _ _ Hf).
  - intros x y Hm. eapply fstep_data_block; [exact Hst|]. apply (fo_data _ _ Hf x). unfold all_exts. apply maps_app. by right.
Qed.

(** What takes the place of an extent is fresh next to the rest. *)
Lemma pieces_fresh s s0 m0 e x new es R m :
  all_exts (finode s) m ≡ₚ e :: R → es ++ all_exts (finode s0) m0 ≡ₚ pieces_around e x new ++ R →
  file_ok s m → step nothing s s0 → in_log e x = true → data_b s new → covp (all_exts (finode s) m) new = 0%nat →
  fresh_exts s0 m0 es ∧
  ∀ x' y', maps (es ++ all_exts (finode s0) m0) x' y' ↔ (x' = x ∧ y' = new) ∨ (x' ≠ x ∧ maps (all_exts (finode s) m) x' y').
Proof.
  intros HL HR Hf Hst Hx Hd Hz. rewrite HL in Hz. pose proof (exts_ok_perm _ _ HL (fo_exts _ _ Hf)) as Hok.
  destruct (pieces_replace e x new R Hok Hx (data_lt _ _ (fo_env _ _ Hf) Hd) Hz) as [H1 H2].
  assert (∀ x' y', maps (es ++ all_exts (finode s0) m0) x' y' ↔ (x' = x ∧ y' = new) ∨ (x' ≠ x ∧ maps (all_exts (finode s) m) x' y')) as Hm.
  { intros x' y'. by rewrite (same_m _ _ (perm_same _ _ HR)), H2, (same_m _ _ (perm_same _ _ HL)). }
  split; [|done]. split; [by eapply exts_ok_perm; [symmetry; exact HR|]|]. intros x' y' Hxy. eapply fstep_data_block; [exact Hst|].
  assert (maps (es ++ all_exts (finode s0) m0) x' y') as [[_ ->]|[_ ?]]%Hm by (apply maps_app; by left); [done|by apply (fo_data _ _ Hf x')].
Qed.

Lemma remap_inline_ok s m before e after x new :
  file_ok s m → extents (finode s) = before ++ e :: after → in_log e x = true → data_b s new →
  covp (all_exts (finode s) m) new = 0%nat →
  ends oom (set_inode (with_extents []) ;;
    for_each (λ p, add_extent bitmap bpg (logical_start p) (physical_start p) (ext_len p)) (before ++ after ++ pieces_around e x new)) s
    (λ _ s', remapped s m x new s').
Proof.
  intros Hf HE Hx Hd Hz. destruct (drop_extents s m Hf) as (Hf0 & Hst0 & Ha0). set (s0 := mkFS _ _ _) in *.
  destruct (pieces_fresh s s0 m e x new (before ++ after ++ pieces_around e x new) (before ++ after ++ map ext_of m) m) as [Hfr Hm];
    [| |done|done|done|done|done|].
  { unfold all_exts. rewrite HE, <- !app_assoc. cbn [app]. by rewrite <- Permutation_middle. }
  { unfold all_exts. cbn [s0 finode with_extents extents app]. rewrite <- !app_assoc. solve_Permutation. }
  unfold ends. rewrite (em_bind_ok (set_inode (with_extents [])) _ s () s0 eq_refl).
  eapply ends_mono; [apply (for_each_added _ (λ _, True) _ s0 m)|]; [|done|done|done|].
  - intros s1 m1 e1 _ Hf1 He1. eapply ends_mono; [by apply add_extent_ok|]. done.
  - intros u s' [_ Had]. by eapply remapped_intro.
Qed.

Lemma remap_spilled_ok s m k v x new :
  file_ok s m → (k, v) ∈ m → spill_extent_root (finode s) ≠ 0 → in_log (ext_of (k, v)) x = true → data_b s new →
  covp (all_exts (finode s) m) new = 0%nat →
  ends oom (et_remove (spill_extent_root (finode s)) k ;;
    for_each (λ p, et_insert false (spill_extent_root (finode s)) (logical_start p) (mkETV (physical_start p) (ext_len p)))
      (pieces_around (ext_of (k, v)) x new)) s (λ _ s', remapped s m x new s').
Proof.
  intros Hf Hin Hr Hx Hd Hz. pose proof (fo_tree _ _ Hf) as Ht. unfold tree_rep in Ht. rewrite (proj2 (N.eqb_neq _ 0) Hr) in Ht.
  pose proof (et_rep_ok _ _ _ Ht) as Hm. apply ends_bind.
  eapply ends_mono; [apply (et_remove_spec s _ m k (fo_env _ _ Hf) Ht)|]. intros u s1 ([Hst Hi] & Ht1).
  assert (all_exts (finode s) m ≡ₚ ext_of (k, v) :: all_exts (finode s1) (om_remove k m)) as HL.
  { unfold all_exts. rewrite Hi, (spill_remove_same m k v Hm Hin). by rewrite <- Permutation_middle. }
  assert (file_ok s1 (om_remove k m)) as Hf1.
  { split; [apply Hst|by unfold tree_rep; rewrite Hi, (proj2 (N.eqb_neq _ 0) Hr)| | |rewrite Hi; apply Hf].
    - apply (exts_ok_app_r [ext_of (k, v)]). eapply exts_ok_perm; [exact HL|apply Hf].
    - intros x' y' Hxy. eapply fstep_data_block; [exact Hst|]. apply (fo_data _ _ Hf x').
      apply (same_m _ _ (perm_same _ _ HL)), maps_cons. by right. }
  destruct (pieces_fresh s s1 (om_remove k m) (ext_of (k, v)) x new (pieces_around (ext_of (k, v)) x new) _ m HL) as [Hfr Hmp];
    [done|done|done|done|done|done|].
  eapply ends_mono; [apply (for_each_added _ (λ s', spill_extent_root (finode s') = spill_extent_root (finode s)) _ s1 (om_remove k m))|];
    [|by rewrite Hi|done|done|].
  - intros s2 m2 e2 HI Hf2 He2. rewrite <- HI. eapply ends_mono; [apply (spill_new s2 m2 false e2 Hf2 He2); by rewrite HI|].
    intros ? s3 [Hi3 Had]. split; [by rewrite Hi3|done].
  - intros ? s' [_ Had]. eapply remapped_intro; [exact Had|done|by rewrite Hi|done].
Qed.

Lemma remap_one_ok s m before e after x new :
  file_ok s m → extents (finode s) = before ++ e :: after → in_log e x = true → ext_len e = 1 → data_b s new →
  covp (all_exts (finode s) m) new = 0%nat →
  ends oom (set_inode (with_extents (before ++ mkExt (logical_start e) new 1 :: after))) s (λ _ s', remapped s m x new s').
Proof.
  intros Hf HE Hex Hl Hd Hz. pose proof (fo_exts _ _ Hf) as [Hok _ _]. pose proof Hok as [Hin _]%Forall_app.
  assert (x = logical_start e) as -> by (apply in_log_iff in Hex; lia).
  assert (ext_ok e) as Heo by (rewrite HE in Hin; apply Forall_app in Hin as [_ Hin]; by apply Forall_cons in Hin as [? _]).
  assert (pieces_around e (logical_start e) new = [mkExt (logical_start e) new 1]) as Hp.
  { unfold pieces_around. rewrite wsub64_small, N.sub_diag by (destruct Heo as (_ & ? & _); lia). cbn. by rewrite Hl. }
  destruct (drop_extents s m Hf) as (Hf0 & Hst0 & Ha0). set (s0 := mkFS _ _ _) in *.
  destruct (pieces_fresh s s0 m e (logical_start e) new (before ++ mkExt (logical_start e) new 1 :: after) (before ++ after ++ map ext_of m) m)
    as [Hfr Hmp]; [| |done|exact Hst0|done|done|done|].
  { unfold all_exts. rewrite HE, <- !app_assoc. cbn [app]. by rewrite <- Permutation_middle. }
  { rewrite Hp. unfold all_exts. cbn [finode with_extents extents app]. rewrite <- !app_assoc. cbn [app]. by rewrite <- Permutation_middle. }
  destruct (set_inode_ok bitmap bpg meta pinned et_rep s (with_extents (before ++ mkExt (logical_start e) new 1 :: after)) (fo_env _ _ Hf)) as (Hst & Hk & _).
  exists m. split_and!; [|done|done|exact Hmp]. split; [apply Hst| |exact (fes_ok _ _ _ Hfr)| |].
  + pose proof (fo_tree _ _ Hf) as Ht. unfold tree_rep in *. cbn [finode with_extents spill_extent_root].
    destruct (_ =? 0); [done|by apply Hk].
  + intros x' y' [[_ ->]|[_ Hxy]]%Hmp; (eapply fstep_data_block; [exact Hst|]); [done|by apply (fo_data _ _ Hf x')].
  + pose proof (fo_slots _ _ Hf) as Hsl. rewrite HE in Hsl. cbn. rewrite length_app in *. cbn in *. done.
Qed.

Lemma remap_block_ok s m x y new :
  file_ok s m → maps (all_exts (finode s) m) x y → data_b s new → covp (all_exts (finode s) m) new = 0%nat →
  ends oom (remap_block bitmap bpg x new) s (λ _ s', remapped s m x new s').
Proof.
  intros Hf Hm Hd Hz. unfold remap_block, ends. rewrite get_inode_bind.
  pose proof (fo_exts _ _ Hf) as [Hok Hs _]. pose proof Hok as [Hin Hsp]%Forall_app.
  assert (x < two64) as Hx.
  { destruct Hm as (e & He & Hex & _). rewrite Forall_forall in Hok. by destruct (in_log_bound e x (Hok e He) Hex). }
  pose proof (inline_covering_spec _ x Hin Hx) as Hc. destruct (inline_covering (extents (finode s)) x) as [[[before e] after]|].
  - destruct Hc as [HE Hex]. by destruct (N.eqb_spec (ext_len e) 1); [apply remap_one_ok|apply remap_inline_ok].
  - assert (maps (map ext_of m) x y) as Hmm.
    { unfold all_exts in Hm. apply maps_app in Hm as [Hm|Hm]; [|done]. exfalso. by apply (proj1 (covl_maps _ _) Hc y). }
    unfold remap_spilled. rewrite get_inode_bind. pose proof (fo_tree _ _ Hf) as Ht. unfold tree_rep in Ht.
    destruct (N.eqb_spec (spill_extent_root (finode s)) 0) as [Hr|Hr]; [subst m; by apply maps_nil in Hmm|].
    rewrite (em_bind_ok _ _ _ _ _ (et_floor_spec s _ m x (fo_env _ _ Hf) Ht)).
    pose proof (floor_maps m x (et_rep_ok _ _ _ Ht) (exts_ok_app_r _ _ (fo_exts _ _ Hf))) as Hfl.
    apply maps_log in Hmm. destruct (om_floor x m) as [[k v]|]; [|lia]. destruct Hfl as (Hkv & Hkx & Hfl).
    rewrite (proj2 (N.leb_le k x) Hkx). cbn [andb]. destruct (x <? wadd64 k (etv_len v)) eqn:Elt; [|lia].
    apply (remap_spilled_ok s m k v x new); [done|done|done| |done|done].
    rewrite Forall_forall in Hsp. destruct (Hsp _ (list_elem_of_fmap_2 ext_of _ _ Hkv)) as (_ & Hb & _). cbn in Hb.
    rewrite wadd64_small, N.ltb_lt in Elt by done. apply in_log_iff. cbn. lia.
Qed.
End file_map.

(** The empty file of the reference environment. *)
Lemma test_file_ok : file_ok 1 16 (ref_meta 1 16) ref_pinned ref_rep test_file [].
Proof.
  split; [apply test_env_ok|done| |by intros x y ?%maps_nil|cbn; lia].
  split; [constructor|intros x; cbn; lia|intros y; cbn; lia].
Qed.
