(* ===== verification/FileData.v ===== *)
(** * The contents of a file

    A file is an array of bytes; reads return it. The case proved is the one
    without compression and cipher, and with no snapshot barrier live. *)
From S2P Require Import Prelude OrdMap Transaction Allocator Extents FileModel FileSpec FileRef FileMap.
From Stdlib Require Import NArith ZArith Lia Strings.Byte.
From stdpp Require Import base numbers gmap option list.
#[local] Open Scope N_scope.

#[local] Abbreviation block := (list byte).
#[local] Abbreviation BS := 4096.

(** ** Slices *)
Lemma nth_replicate {A} n (x : A) j : nth j (replicate n x) x = x.
Proof. rewrite nth_lookup. destruct (replicate n x !! j) eqn:E; [|done]. by apply lookup_replicate in E as [-> _]. Qed.

Lemma length_splice off new old : (off + length new <= length old)%nat → length (splice off new old) = length old.
Proof. intros Hl. unfold splice. rewrite !length_app, length_take, length_drop. lia. Qed.

Lemma nth_splice off new old j :
  (off + length new <= length old)%nat →
  nth j (splice off new old) x00 =
    if ((off <=? j)%nat && (j <? off + length new)%nat)%bool then nth (j - off) new x00 else nth j old x00.
Proof.
  intros Hl. unfold splice. assert (length (take off old) = off) as Ht by (rewrite length_take; lia).
  destruct (Nat.leb_spec off j); cbn [andb].
  - rewrite app_nth2, Ht by lia. destruct (Nat.ltb_spec j (off + length new)).
    + by rewrite app_nth1 by lia.
    + rewrite app_nth2 by lia. rewrite nth_skipn. f_equal. lia.
  - rewrite app_nth1 by lia. rewrite nth_firstn. by rewrite (proj2 (Nat.ltb_lt j off)).
Qed.

Section file_data.
Context {X CS H : Type} `{!FileEnv X CS H} (bitmap bpg : N).
Context (meta : FState X → N → Prop) (pinned : FState X → N → bool) (et_rep : FState X → N → list (N * ETV) → Prop).
Context `{HS : !FileEnvSpec X CS H bitmap bpg meta pinned et_rep}.
#[local] Abbreviation ok := (env_ok bitmap bpg meta pinned).
#[local] Abbreviation data_b := (data_block bitmap bpg meta).
#[local] Abbreviation step := (fstep bitmap bpg meta pinned).
#[local] Abbreviation nothing := (λ _ : N, False).
#[local] Abbreviation fok := (file_ok bitmap bpg meta pinned et_rep).
#[local] Abbreviation rd s b := (read_block (fctx s) b).

(** ** Contents *)
Definition fblock (s : FState X) (m : list (N * ETV)) (x : N) : block :=
  if phys s m x =? 0 then replicate BLOCK_SIZE x00 else default [] (rd s (phys s m x)).

Definition fbyte (s : FState X) (m : list (N * ETV)) (i : N) : byte :=
  nth (N.to_nat (i mod BS)) (fblock s m (i / BS)) x00.

Lemma phys_data s m x : fok s m → phys s m x ≠ 0 → data_b s (phys s m x).
Proof. intros Hf Hp. apply (fo_data _ _ _ _ _ _ _ Hf x). by apply (phys_maps bitmap bpg meta pinned et_rep). Qed.

Lemma fblock_length s m x : fok s m → length (fblock s m x) = BLOCK_SIZE.
Proof.
  intros Hf. unfold fblock. destruct (N.eqb_spec (phys s m x) 0) as [|Hp]; [apply length_replicate|].
  destruct (phys_data s m x Hf Hp) as (Hlt & _).
  by destruct (eo_readable _ _ _ _ _ (fo_env _ _ _ _ _ _ _ Hf) _ Hlt) as (buf & -> & Hl).
Qed.

Lemma phys_inj s m x x' : fok s m → phys s m x ≠ 0 → phys s m x = phys s m x' → x = x'.
Proof.
  intros Hf Hp He. apply (maps_inj (all_exts (finode s) m) x x' (phys s m x)).
  - apply (fo_exts _ _ _ _ _ _ _ Hf).
  - by apply (phys_maps bitmap bpg meta pinned et_rep).
  - apply (phys_maps bitmap bpg meta pinned et_rep); [done|]. by rewrite He in *.
Qed.

(** ** Reading *)
(** The checksum records of the blocks agree with the contents. *)
Definition verified (s : FState X) (m : list (N * ETV)) (cs_root : N) : Prop :=
  cs_root = 0 ∨ ∀ x, phys s m x ≠ 0 → ∃ r, ct_lookup cs_root (ino (finode s)) x s = (inr r, s) ∧
    ∀ v, r = Some v → cs_verify v (fblock s m x) = true.

Lemma bslice_hole bo n : (bo + n <= BLOCK_SIZE)%nat → bslice bo n (replicate BLOCK_SIZE x00) = replicate n x00.
Proof. intros Hl. unfold bslice. rewrite drop_replicate, take_replicate. f_equal. lia. Qed.

Lemma read_chunk_unfold cs_root bb s m x bo n :
  fok s m → (bo + n <= BLOCK_SIZE)%nat →
  read_chunk cs_root bb false x bo n s =
    if phys s m x =? 0 then (inr (bslice bo n (fblock s m x)), s)
    else match verify_read cs_root bb x (phys s m x) (fblock s m x) s with
         | (inr _, s') => (inr (bslice bo n (fblock s m x)), s')
         | (inl e, s') => (inl e, s')
         end.
Proof.
  intros Hf Hl. unfold read_chunk. rewrite (em_bind_ok _ _ _ _ _ (get_physical_block_ok bitmap bpg meta pinned et_rep s m x Hf)).
  unfold fblock. destruct (N.eqb_spec (phys s m x) 0) as [|Hp]; [by rewrite bslice_hole|].
  destruct (phys_data s m x Hf Hp) as (Hlt & _). destruct (fread_ok bitmap bpg meta pinned s _ (fo_env _ _ _ _ _ _ _ Hf) Hlt) as (buf & E & Hr & _).
  rewrite (em_bind_ok _ _ _ _ _ E), Hr. cbn [default from_option]. unfold mbind, EM_bind.
  by destruct (verify_read _ _ _ _ _ s) as [[e|[]] s'].
Qed.

(** A check that succeeds reads only. *)
Lemma verify_read_state cs_root bb x pb buf s s' :
  ok s → verify_read cs_root bb x pb buf s = (inr (), s') → s' = s.
Proof.
  intros Hok. unfold verify_read. destruct (cs_root =? 0); [by intros [= <-]|]. rewrite get_inode_bind.
  destruct (ct_lookup_spec s cs_root (ino (finode s)) x Hok) as [r E]. unfold fattempt, mbind, EM_bind. rewrite E.
  destruct r as [v|]; cbn; [|by intros [= <-]]. destruct (cs_verify v buf); [by intros [= <-]|].
  destruct (bb =? 0); cbn; [done|]. by destruct (bb_mark bb pb _ s) as [[[]|[]] s''].
Qed.

Lemma read_chunk_ok cs_root bb s m x bo n :
  fok s m → (bo + n <= BLOCK_SIZE)%nat →
  ends (λ _, True) (read_chunk cs_root bb false x bo n) s (λ d s', s' = s ∧ d = bslice bo n (fblock s m x)).
Proof.
  intros Hf Hl. unfold ends. rewrite (read_chunk_unfold _ _ s m) by done. destruct (_ =? 0); [done|].
  destruct (verify_read _ _ _ _ _ s) as [[e|[]] s'] eqn:E; [done|]. split; [|done].
  eapply verify_read_state; [apply Hf|exact E].
Qed.

Lemma read_chunk_verified cs_root bb s m x bo n :
  fok s m → verified s m cs_root → (bo + n <= BLOCK_SIZE)%nat →
  read_chunk cs_root bb false x bo n s = (inr (bslice bo n (fblock s m x)), s).
Proof.
  intros Hf Hv Hl. rewrite (read_chunk_unfold _ _ s m) by done. destruct (N.eqb_spec (phys s m x) 0) as [|Hp]; [done|].
  unfold verify_read. destruct (N.eqb_spec cs_root 0) as [|Hc]; [done|]. destruct Hv as [?|Hv]; [done|].
  destruct (Hv x Hp) as (r & E & Hr). rewrite get_inode_bind. unfold fattempt, mbind, EM_bind. rewrite E.
  destruct r as [v|]; cbn; [|done]. by rewrite (Hr v eq_refl).
Qed.

Lemma fbyte_slice s m off c j :
  fok s m → off mod BS + c <= BS → j < c →
  nth (N.to_nat j) (bslice (N.to_nat (off mod BS)) (N.to_nat c) (fblock s m (off / BS))) x00 = fbyte s m (off + j).
Proof.
  intros Hf Hc Hj. unfold bslice, fbyte. rewrite nth_firstn, (proj2 (Nat.ltb_lt _ _)) by lia. rewrite nth_skipn.
  pose proof (N.div_mod off BS ltac:(done)) as Hd.
  assert (off / BS = (off + j) / BS) as E1 by (apply (N.div_unique _ BS _ (off mod BS + j)); lia).
  assert (off mod BS + j = (off + j) mod BS) as E2 by (apply (N.mod_unique _ BS (off / BS)); lia).
  rewrite <- E1. f_equal. lia.
Qed.

Definition file_bytes (s : FState X) (m : list (N * ETV)) (off n : N) : block :=
  map (λ j, fbyte s m (off + N.of_nat j)) (seq 0 (N.to_nat n)).

Lemma file_bytes_app s m off a b : file_bytes s m off (a + b) = file_bytes s m off a ++ file_bytes s m (off + a) b.
Proof.
  unfold file_bytes. rewrite N2Nat.inj_add, seq_app, map_app. f_equal. cbn [Nat.add].
  rewrite <- (Nat.add_0_r (N.to_nat a)) at 1. rewrite <- fmap_add_seq. change (fmap (M:=list)) with (@map nat nat).
  rewrite map_map. apply map_ext. intros j. f_equal. lia.
Qed.

Lemma file_bytes_nth s m off n j : j < n → nth (N.to_nat j) (file_bytes s m off n) x00 = fbyte s m (off + j).
Proof.
  intros Hj. unfold file_bytes. rewrite (nth_indep _ x00 (fbyte s m (off + N.of_nat 0))) by (rewrite length_map, length_seq; lia).
  rewrite (map_nth (λ j, fbyte s m (off + N.of_nat j))), seq_nth by lia. cbn [Nat.add]. by rewrite N2Nat.id.
Qed.

Lemma chunk_bytes s m off c :
  fok s m → off mod BS + c <= BS →
  bslice (N.to_nat (off mod BS)) (N.to_nat c) (fblock s m (off / BS)) = file_bytes s m off c.
Proof.
  intros Hf Hc. apply (nth_ext _ _ x00 x00).
  - unfold bslice, file_bytes. rewrite length_take, length_drop, length_map, length_seq, fblock_length by done. unfold BLOCK_SIZE. lia.
  - intros j Hj. unfold bslice in Hj. rewrite length_take in Hj.
    rewrite <- (Nat2N.id j). rewrite fbyte_slice, file_bytes_nth by (done || lia). done.
Qed.

Section read_loop.
Context (cs_root bb : N) (s : FState X) (m : list (N * ETV)) (Hf : fok s m).

Lemma read_loop_ok fuel off n :
  n <= N.of_nat fuel →
  ends (λ _, True) (read_loop cs_root bb false fuel off n) s (λ d s', s' = s ∧ d = file_bytes s m off n).
Proof.
  revert off n. induction fuel as [|fuel IH]; intros off n Hn; cbn [read_loop].
  { replace n with 0 by lia. done. }
  destruct (N.eqb_spec n 0) as [->|Hnz]; [done|]. cbv zeta.
  pose proof (N.mod_lt off BS ltac:(done)) as Hmod. set (c := N.min (BS - off mod BS) n).
  apply ends_bind. eapply ends_mono; [apply (read_chunk_ok _ _ s m); [done|unfold BLOCK_SIZE; lia]|]. intros d s' [-> ->].
  apply ends_bind. eapply ends_mono; [apply IH; lia|]. intros d s' [-> ->]. split; [done|].
  rewrite chunk_bytes by (done || lia). rewrite <- file_bytes_app. f_equal. lia.
Qed.

Lemma read_loop_verified fuel off n :
  verified s m cs_root → n <= N.of_nat fuel →
  read_loop cs_root bb false fuel off n s = (inr (file_bytes s m off n), s).
Proof.
  intros Hv. revert off n. induction fuel as [|fuel IH]; intros off n Hn; cbn [read_loop].
  { replace n with 0 by lia. done. }
  destruct (N.eqb_spec n 0) as [->|Hnz]; [done|]. cbv zeta.
  pose proof (N.mod_lt off BS ltac:(done)) as Hmod. set (c := N.min (BS - off mod BS) n).
  rewrite (em_bind_ok _ _ s _ s (read_chunk_verified cs_root bb s m (off / BS) (N.to_nat (off mod BS)) (N.to_nat c) Hf Hv ltac:(unfold BLOCK_SIZE; lia))).
  rewrite (em_bind_ok _ _ s _ s (IH (off + c) (n - c) ltac:(lia))).
  rewrite chunk_bytes by (done || lia). unfold mret, EM_ret. rewrite <- file_bytes_app. do 3 f_equal. lia.
Qed.
End read_loop.

Lemma read_file_bytes cs_root bb s m offset size :
  fok s m → compression_algo (finode s) = 0 →
  let want := (inr (file_bytes s m offset (N.min size (isize (finode s) - offset))), s) in
  (verified s m cs_root → read_file cs_root bb false offset size s = want) ∧
  ∀ d s', read_file cs_root bb false offset size s = (inr d, s') → (inr d, s') = want.
Proof.
  intros Hf Hc want. unfold read_file. rewrite get_inode_bind, Hc. cbn [N.eqb negb].
  destruct (N.leb_spec (isize (finode s)) offset) as [Hle|Hlt].
  { assert (want = (inr [], s)) as -> by (unfold want; by replace (isize (finode s) - offset) with 0 by lia; rewrite N.min_0_r).
    split; [done|by intros d s' [= <- <-]]. }
  cbv zeta. split; [intros Hv; apply read_loop_verified; [done|done|lia]|].
  intros d s' E. pose proof (read_loop_ok cs_root bb s m Hf (N.to_nat (N.min size (isize (finode s) - offset))) offset _ ltac:(rewrite N2Nat.id; reflexivity)) as Hr.
  unfold ends in Hr. rewrite E in Hr. by destruct Hr as [-> ->].
Qed.

End file_data.

