(* ===== verification/FileWrite.v ===== *)
(** * Writing to a file

    A write changes exactly the bytes it was given, extends the size, and leaves
    the blocks of other files and pinned blocks alone. The case proved is the
    one without compression, cipher and deduplication, and with no snapshot
    barrier live. *)
From S2P Require Import Prelude OrdMap Transaction Allocator Extents FileModel FileSpec FileRef FileMap FileData.
From Stdlib Require Import NArith ZArith Lia Strings.Byte.
From stdpp Require Import base numbers gmap option list.
#[local] Open Scope N_scope.

#[local] Abbreviation block := (list byte).
#[local] Abbreviation BS := 4096.

Section file_write.
Context {X CS H : Type} `{!FileEnv X CS H} (bitmap bpg : N).
Context (meta : FState X → N → Prop) (pinned : FState X → N → bool) (et_rep : FState X → N → list (N * ETV) → Prop).
Context `{HS : !FileEnvSpec X CS H bitmap bpg meta pinned et_rep}.
#[local] Abbreviation ok := (env_ok bitmap bpg meta pinned).
#[local] Abbreviation data_b := (data_block bitmap bpg meta).
#[local] Abbreviation step := (fstep bitmap bpg meta pinned).
#[local] Abbreviation nothing := (λ _ : N, False).
#[local] Abbreviation fok := (file_ok bitmap bpg meta pinned et_rep).
#[local] Abbreviation rd s b := (read_block (fctx s) b).
#[local] Abbreviation fused s b := (used (fctx s) bitmap b).

(** ** What a write may do *)
(** The blocks of the file in [B] that nothing else shares. *)
Definition own (B : N → Prop) (s : FState X) (m : list (N * ETV)) (b : N) : Prop :=
  ∃ x, B x ∧ phys s m x = b ∧ pinned s b = false.

Definition blks (first last x : N) : Prop := first <= x <= last.

(** From [s] to [s'] the bytes [upd] gives are stored, the other bytes of mapped
    blocks are kept, blocks are added inside [B] only, and the size is at
    least [end_]. *)
Record changed (B : N → Prop) (end_ : N) (upd : N → option byte)
    (s : FState X) (m : list (N * ETV)) (s' : FState X) (m' : list (N * ETV)) : Prop := {
  ch_ok : fok s' m';
  ch_size : isize (finode s') = N.max (isize (finode s)) end_;
  ch_kind : same_kind (finode s) (finode s');
  ch_step : step (own B s m) s s';
  ch_mapped : ∀ x, phys s m x ≠ 0 → phys s' m' x ≠ 0;
  ch_holes : ∀ x, phys s m x = 0 → phys s' m' x ≠ 0 → B x;
  ch_fresh : ∀ x, phys s' m' x ≠ 0 → phys s' m' x = phys s m x ∨ fused s (phys s' m' x) = false;
  ch_new : ∀ i b, upd i = Some b → phys s' m' (i / BS) ≠ 0 ∧ fbyte s' m' i = b;
  ch_old : ∀ i, upd i = None → phys s m (i / BS) ≠ 0 → fbyte s' m' i = fbyte s m i
}.

Definition then_upd (u u' : N → option byte) (i : N) : option byte := match u' i with Some b => Some b | None => u i end.

Lemma changed_refl B s m : fok s m → changed B 0 (λ _, None) s m s m.
Proof.
  intros Hf. split; [done|by rewrite N.max_0_r|done|apply fstep_refl, Hf|done|done| |done|done]. intros x _. by left.
Qed.

Lemma changed_trans B e e' u u' s1 m1 s2 m2 s3 m3 :
  fok s1 m1 → changed B e u s1 m1 s2 m2 → changed B e' u' s2 m2 s3 m3 →
  changed B (N.max e e') (then_upd u u') s1 m1 s3 m3.
Proof.
  intros Hf1 [A1 Az A2 A3 A4 A5 A6 A7 A8] [B1 Bz B2 B3 B4 B5 B6 B7 B8].
  split; [done|rewrite Bz, Az; lia|by eapply same_kind_trans| |by auto| | | |].
  - eapply fstep_weaken; [by eapply fstep_trans|]. intros b Hb [?|(x & Hx & <- & Hp)]; [done|].
    exists x. rewrite (fs_pinned _ _ _ _ _ _ _ A3) in Hp. split; [done|]. split; [|done].
    assert (phys s2 m2 x ≠ 0) as Hnz by (eapply data_nonzero; [apply Hf1|done]).
    destruct (A6 x Hnz) as [E|E]; [done|]. destruct Hb as (_ & Hu & _). congruence.
  - intros x Hz Hnz. destruct (decide (phys s2 m2 x = 0)) as [|H2]; [by apply B5|by apply A5].
  - intros x Hnz. destruct (B6 x Hnz) as [E|E]; [rewrite E in *; by apply A6|]. right.
    destruct (phys_data _ _ _ _ _ s3 m3 x B1 Hnz) as (Hlt & _).
    destruct (fused s1 (phys s3 m3 x)) eqn:Eu; [|done]. apply (fs_used _ _ _ _ _ _ _ A3) in Eu; [congruence|done].
  - intros i b. unfold then_upd. destruct (u' i) as [b'|] eqn:E'; [intros [= <-]; by apply B7|]. intros E.
    destruct (A7 i b E) as [Hm <-]. split; [by apply B4|by apply B8].
  - intros i. unfold then_upd. destruct (u' i) as [b'|] eqn:E'; [done|]. intros E Hm. rewrite B8 by auto. by apply A8.
Qed.

Lemma changed_seq B u u' s1 m1 s2 m2 s3 m3 :
  fok s1 m1 → changed B 0 u s1 m1 s2 m2 → changed B 0 u' s2 m2 s3 m3 → changed B 0 (then_upd u u') s1 m1 s3 m3.
Proof. apply (changed_trans B 0 0). Qed.

Lemma changed_widen (B B' : N → Prop) e u s m s' m' :
  (∀ x, B x → B' x) → changed B e u s m s' m' → changed B' e u s m s' m'.
Proof.
  intros Hl [A1 Az A2 A3 A4 A5 A6 A7 A8]. split; [done|done|done| |done| |done|done|done].
  - eapply fstep_weaken; [exact A3|]. intros b _ (x & Hx & Hp). exists x. split; [by apply Hl|done].
  - intros x Hz Hnz. by apply Hl, A5.
Qed.

Lemma changed_upd B e u u' s m s' m' :
  (∀ i, u i = u' i) → changed B e u s m s' m' → changed B e u' s m s' m'.
Proof.
  intros Hu [A1 Az A2 A3 A4 A5 A6 A7 A8]. split; [done|done|done|done|done|done|done| |]; intros i; rewrite <- Hu; auto.
Qed.

(** The bytes of [data] at [off]. *)
Definition put (off : N) (data : block) (i : N) : option byte :=
  if off <=? i then data !! N.to_nat (i - off) else None.

Lemma put_app off a b i : then_upd (put off a) (put (off + N.of_nat (length a)) b) i = put off (a ++ b) i.
Proof.
  unfold then_upd, put. destruct (N.leb_spec off i) as [Hi|Hi].
  - rewrite lookup_app. destruct (N.leb_spec (off + N.of_nat (length a)) i) as [Hj|Hj].
    + rewrite (lookup_ge_None_2 a) by lia. replace (N.to_nat (i - (off + N.of_nat (length a)))) with (N.to_nat (i - off) - length a)%nat by lia.
      by destruct (b !! _).
    + by destruct (lookup_lt_is_Some_2 a (N.to_nat (i - off))) as [x ->]; [lia|].
  - by rewrite (proj2 (N.leb_gt _ _)) by lia.
Qed.

Lemma put_inside lb bo chunk i b :
  bo + N.of_nat (length chunk) <= BS → put (lb * BS + bo) chunk i = Some b →
  i / BS = lb ∧ bo <= i mod BS < bo + N.of_nat (length chunk) ∧ nth (N.to_nat (i mod BS) - N.to_nat bo) chunk x00 = b.
Proof.
  intros Hl. unfold put. destruct (N.leb_spec (lb * BS + bo) i) as [Hi|]; [|done]. intros E.
  pose proof (lookup_lt_Some _ _ _ E) as Hj.
  assert (lb = i / BS) as <- by (apply (N.div_unique _ BS _ (i - lb * BS)); lia).
  assert (i - lb * BS = i mod BS) as Em by (apply (N.mod_unique _ BS lb); lia).
  split_and!; [done|lia|lia|]. replace (N.to_nat (i mod BS) - N.to_nat bo)%nat with (N.to_nat (i - (lb * BS + bo))) by lia.
  by apply nth_lookup_Some.
Qed.

Lemma put_outside lb bo chunk i :
  put (lb * BS + bo) chunk i = None → i / BS = lb →
  ¬ (bo <= i mod BS < bo + N.of_nat (length chunk)).
Proof.
  unfold put. intros E <- Hin. pose proof (N.div_mod i BS ltac:(done)).
  rewrite (proj2 (N.leb_le _ _)) in E by lia. apply lookup_ge_None in E. lia.
Qed.

(** ** Storing a chunk in a mapped block *)
Lemma phys_inode (s s' : FState X) m x : finode s' = finode s → phys s' m x = phys s m x.
Proof. unfold phys. by intros ->. Qed.

Lemma changed_block s m s' lb p buf upd :
  fok s m → p = phys s m lb → p ≠ 0 → pinned s p = false → step (eq p) s s' → tree_rep et_rep s' m → finode s' = finode s →
  rd s' p = Some buf → length buf = BLOCK_SIZE →
  (∀ i b, upd i = Some b → i / BS = lb ∧ nth (N.to_nat (i mod BS)) buf x00 = b) →
  (∀ i, upd i = None → i / BS = lb → nth (N.to_nat (i mod BS)) buf x00 = fbyte s m i) →
  changed (eq lb) 0 upd s m s' m.
Proof.
  intros Hf -> Hp Hu Hst Ht Hi Hrd Hl Hnew Hold.
  assert (∀ x, phys s' m x = phys s m x) as Eph by (intros; by apply phys_inode).
  assert (fblock s' m lb = buf) as Eb.
  { unfold fblock. rewrite Eph, Hrd. by rewrite (proj2 (N.eqb_neq _ _) Hp). }
  split; [by eapply file_ok_step|rewrite Hi; lia|by rewrite Hi| | | | | |].
  - eapply fstep_weaken; [exact Hst|]. intros b _ <-. exists lb. done.
  - intros x. by rewrite Eph.
  - intros x Hz Hnz. by rewrite Eph in Hnz.
  - intros x _. left. apply Eph.
  - intros i b E. destruct (Hnew i b E) as [Hx Hn]. rewrite Eph, Hx. split; [done|]. unfold fbyte. by rewrite Hx, Eb.
  - intros i E Hm. destruct (decide (i / BS = lb)) as [Hx|Hx]; [|].
    + rewrite <- Hold by done. unfold fbyte. by rewrite Hx, Eb.
    + unfold fbyte, fblock. rewrite Eph. destruct (_ =? 0); [done|]. f_equal. f_equal.
      apply (fs_data _ _ _ _ _ _ _ Hst); [by eapply phys_data|]. intros He. apply Hx. symmetry. by eapply phys_inj.
Qed.

Section write_loop.
Context {D : Type} (note : N → N → block → D → FM X D).
Context (note_ok : ∀ s lb pb bytes d, ok s →
  ends oom (note lb pb bytes d) s (λ _ s', mstep bitmap bpg meta pinned s s' ∧ keeps_trees et_rep s s')).
Context (cs_root rc_root dd_root : N).

Lemma splice_full bo chunk (a b : block) :
  length chunk = 4096%nat → (bo + length chunk <= 4096)%nat → length a = 4096%nat → length b = 4096%nat →
  splice bo chunk a = splice bo chunk b.
Proof.
  intros Hc Hb Ha Hb'. assert (bo = 0)%nat as -> by lia. unfold splice. cbn [take Nat.add].
  by rewrite !drop_ge by lia.
Qed.

Lemma store_chunk_ok s m lb bo chunk d :
  fok s m → phys s m lb ≠ 0 → pinned s (phys s m lb) = false → bo + N.of_nat (length chunk) <= BS →
  ends oom (store_chunk dd_root false note false lb (phys s m lb) (N.to_nat bo) chunk d) s
    (λ _ s', changed (eq lb) 0 (put (lb * BS + bo) chunk) s m s' m).
Proof.
  intros Hf Hp Hu Hl. unfold store_chunk. set (p := phys s m lb) in *.
  pose proof (fblock_length _ _ _ _ _ s m lb Hf) as Hlen. set (buf := splice (N.to_nat bo) chunk (fblock s m lb)).
  assert (length buf = BLOCK_SIZE) as Hlb by (unfold buf; rewrite length_splice; unfold BLOCK_SIZE in *; lia).
  pose proof (phys_data _ _ _ _ _ s m lb Hf Hp) as Hd.
  destruct (fread_ok bitmap bpg meta pinned s p (fo_env _ _ _ _ _ _ _ Hf) (proj1 Hd)) as (old & E & Hr & _).
  assert (fblock s m lb = old) as Eold by (unfold fblock; fold p; by rewrite (proj2 (N.eqb_neq _ _) Hp), Hr).
  apply ends_bind. eapply (ends_mono _ _ _ (λ b s', s' = s ∧ splice (N.to_nat bo) chunk b = buf)).
  { unfold ends. rewrite (proj2 (N.eqb_neq p 0) Hp). destruct (Nat.ltb_spec (length chunk) 4096); cbn [andb negb].
    - rewrite (em_bind_ok _ _ _ _ _ E). unfold buf. by rewrite Eold.
    - split; [done|]. apply splice_full; [lia|lia|apply length_replicate|done]. }
  intros b s0 [-> ->]. destruct (fwrite_ok bitmap bpg meta pinned et_rep s p buf) as (s1 & E1 & Hst & Hk & Hi & Hrd & _); [apply Hf|done|done|].
  apply ends_bind. unfold ends at 1. rewrite E1. apply ends_bind. cbn [andb]. unfold ends at 1, mret at 1, EM_ret at 1.
  eapply ends_mono; [apply note_ok, Hst|]. intros _ s2 [[Hst2 Hi2] Hk2].
  apply (changed_block s m s2 lb p buf); [done|done|done|done| | | |rewrite <- Hrd|done| |].
  - eapply fstep_weaken; [by eapply fstep_trans|]. intros b' _ [?|[]]. done.
  - eapply keeps_tree_rep; [|by rewrite Hi2|apply Hf]. intros r' m' Hr'. by apply Hk2, Hk.
  - by rewrite Hi2.
  - apply (fs_data _ _ _ _ _ _ _ Hst2); [by eapply fstep_data_block|by intros []].
  - intros i b' Hpi. destruct (put_inside _ _ _ _ _ Hl Hpi) as (Hx & Hin & Hn). split; [done|].
    unfold buf. rewrite nth_splice by (unfold BLOCK_SIZE in *; lia).
    rewrite (proj2 (Nat.leb_le _ _)), (proj2 (Nat.ltb_lt _ _)) by lia. done.
  - intros i Hpi Hx. pose proof (put_outside _ _ _ _ Hpi Hx) as Hout. unfold buf, fbyte. rewrite Hx.
    rewrite nth_splice by (unfold BLOCK_SIZE in *; lia).
    destruct (Nat.leb_spec (N.to_nat bo) (N.to_nat (i mod BS))); [|done]. cbn [andb].
    destruct (Nat.ltb_spec (N.to_nat (i mod BS)) (N.to_nat bo + length chunk)); [lia|done].
Qed.

(** ** Copying a shared block *)
(** Without a reference tree nothing is shared. *)
Definition pins_tracked (s : FState X) : Prop := rc_root = 0 → ∀ b, pinned s b = false.

Lemma phys_ext s m s' m' x :
  fok s m → fok s' m' → (∀ y, maps (all_exts (finode s') m') x y ↔ maps (all_exts (finode s) m) x y) → phys s' m' x = phys s m x.
Proof.
  intros Hf Hf' Hm. destruct (decide (phys s' m' x = 0)) as [Hz|Hz].
  - destruct (decide (phys s m x = 0)) as [|Hnz]; [congruence|].
    pose proof (proj1 (phys_maps _ _ _ _ _ s m x _ Hf) (conj eq_refl Hnz)) as Hx. apply Hm in Hx.
    by apply (phys_maps bitmap bpg meta pinned et_rep) in Hx as [? _].
  - pose proof (proj1 (phys_maps _ _ _ _ _ s' m' x _ Hf') (conj eq_refl Hz)) as Hx. apply Hm in Hx.
    apply (phys_maps bitmap bpg meta pinned et_rep) in Hx as [? _]; done.
Qed.

(** Contents that a step keeps. *)
Lemma fbyte_keep P s m s' m' i :
  fok s m → step P s s' → phys s m (i / BS) ≠ 0 → phys s' m' (i / BS) = phys s m (i / BS) → ¬ P (phys s m (i / BS)) →
  fbyte s' m' i = fbyte s m i.
Proof.
  intros Hf Hst Hm He Hn. unfold fbyte, fblock. rewrite He. destruct (_ =? 0); [done|]. do 2 f_equal.
  apply (fs_data _ _ _ _ _ _ _ Hst); [by eapply phys_data|done].
Qed.

(** A block that was free is data once it is allocated, and the file does not
    map it. *)
Lemma fresh_block s m s1 n :
  fok s m → step nothing s s1 → (∀ b, meta s1 b ↔ meta s b) → finode s1 = finode s → n < bpg → fused s n = false → fused s1 n = true →
  data_b s1 n ∧ covp (all_exts (finode s1) m) n = 0%nat ∧ pinned s1 n = false.
Proof.
  intros Hf Hst Hme Hi Hlt Hfr Hu. split_and!.
  - split_and!; [done|done|]. intros Hm%Hme. apply (eo_meta _ _ _ _ _ (fo_env _ _ _ _ _ _ _ Hf)) in Hm as [_ ?]. congruence.
  - apply covp_maps. intros x Hm. rewrite Hi in Hm. destruct (fo_data _ _ _ _ _ _ _ Hf x n Hm) as (_ & ? & _). congruence.
  - rewrite (fs_pinned _ _ _ _ _ _ _ Hst). destruct (pinned s n) eqn:E; [|done].
    apply (eo_pinned _ _ _ _ _ (fo_env _ _ _ _ _ _ _ Hf)) in E as [_ ?]. congruence.
Qed.

Lemma copied s m s2 s3 lb n :
  fok s m → phys s m lb ≠ 0 → step nothing s s2 → finode s2 = finode s → fused s n = false → n ≠ 0 →
  rd s2 n = Some (fblock s m lb) → data_b s2 n → remapped bitmap bpg meta pinned et_rep s2 m lb n s3 →
  ∃ m3, changed (eq lb) 0 (λ _, None) s m s3 m3 ∧ phys s3 m3 lb = n ∧ ∀ x, x ≠ lb → phys s3 m3 x = phys s m x.
Proof.
  intros Hf Hp Hst Hi Hfr Hn Hrd Hd (m3 & Hf3 & Hst3 & Ha & Hm). exists m3.
  assert (step nothing s s3) as Hst' by (by eapply fstep_trans_same).
  assert (phys s3 m3 lb = n) as Elb by (apply (phys_maps bitmap bpg meta pinned et_rep s3 m3 lb n Hf3), Hm; by left).
  assert (∀ x, x ≠ lb → phys s3 m3 x = phys s m x) as Eoth.
  { intros x Hx. apply phys_ext; [done|done|]. intros y. rewrite Hm, Hi. naive_solver. }
  split_and!; [|done|done]. rewrite Hi in Ha. apply same_attrs_kind in Ha as [Hsz Hk]. split; [done|done|done| | | | |done|].
  - eapply fstep_weaken; [exact Hst'|done].
  - intros x Hx. destruct (decide (x = lb)) as [->|]; [by rewrite Elb|by rewrite Eoth].
  - intros x Hz Hnz. destruct (decide (x = lb)) as [->|]; [done|by rewrite Eoth in Hnz].
  - intros x _. destruct (decide (x = lb)) as [->|]; [right; by rewrite Elb|left; by apply Eoth].
  - intros i _ Hx. destruct (decide (i / BS = lb)) as [E|E].
    + unfold fbyte at 1. rewrite E. unfold fblock. rewrite Elb, (proj2 (N.eqb_neq n 0) Hn).
      rewrite (fs_data _ _ _ _ _ _ _ Hst3) by (done || by intros []). rewrite Hrd. unfold fbyte. by rewrite E.
    + by apply (fbyte_keep nothing); [|..|apply Eoth|intros []].
Qed.

Lemma copy_block_ok s m lb (p := phys s m lb) :
  fok s m → p ≠ 0 →
  ends oom (new_block ← falloc bitmap bpg (Plain 1); old ← fread p; old_plain ← mret old;
            fwrite new_block old_plain ;; remap_block bitmap bpg lb new_block ;; mret new_block) s (λ n s', ∃ m',
    changed (eq lb) 0 (λ _, None) s m s' m' ∧ n = phys s' m' lb ∧ n ≠ 0 ∧ pinned s' n = false ∧
    ∀ x, x ≠ lb → phys s' m' x = phys s m x).
Proof.
  intros Hf Hp. pose proof (fo_env _ _ _ _ _ _ _ Hf) as Hok.
  apply ends_bind. eapply ends_mono; [apply (falloc_ok bitmap bpg meta pinned et_rep s (Plain 1) Hok); cbn; lia|].
  intros n s1 (Hst1 & Hk1 & Hi1 & Hlt & Hme & Hfr). cbn [req_blocks] in *. destruct (Hfr n) as [Hfree Hused]; [lia|].
  destruct (fresh_block s m s1 n) as (Hdn & Hcn & Hpn); [done|done|done|done|lia|done|done|].
  pose proof (phys_data _ _ _ _ _ s m lb Hf Hp) as Hdp.
  destruct (fread_ok bitmap bpg meta pinned s1 p (fs_ok _ _ _ _ _ _ _ Hst1) (proj1 Hdp)) as (old & E & Hro & Hlo).
  assert (old = fblock s m lb) as ->.
  { unfold fblock. fold p. rewrite (proj2 (N.eqb_neq _ _) Hp).
    rewrite (fs_data _ _ _ _ _ _ _ Hst1) in Hro by (done || by intros []). by rewrite Hro. }
  unfold ends. rewrite (em_bind_ok _ _ _ _ _ E). rewrite (em_bind_ok (mret _) _ s1 _ s1 eq_refl).
  destruct (fwrite_ok bitmap bpg meta pinned et_rep s1 n (fblock s m lb)) as (s2 & E2 & Hst2 & Hk2 & Hi2 & Hrd2 & _); [apply Hst1|done|done|].
  rewrite (em_bind_ok _ _ _ _ _ E2). rewrite <- Hi2 in Hcn. rewrite <- (fs_pinned _ _ _ _ _ _ _ Hst2) in Hpn. rewrite <- Hi2 in Hi1.
  assert (step nothing s s2) as Hst.
  { eapply fstep_weaken; [by eapply fstep_trans|]. intros b (_ & Hb & _) [[]|<-]. congruence. }
  assert (fok s2 m) as Hf2.
  { eapply (file_ok_step bitmap bpg meta pinned et_rep); [exact Hf|exact Hst|done|]. intros Ht.
    apply (keeps_tree_rep et_rep s); [|done|exact Ht]. intros r' m' Hr'. by apply Hk2, Hk1. }
  assert (data_b s2 n) as Hdn2 by (eapply fstep_data_block; [exact Hst2|done]).
  assert (n ≠ 0) as Hn0 by (apply (data_nonzero bitmap bpg meta pinned s2); [apply Hf2|done]).
  apply ends_bind. eapply ends_mono; [apply (remap_block_ok bitmap bpg meta pinned et_rep s2 m lb p n); [done| |done|done]|].
  { rewrite Hi1. by apply (phys_maps bitmap bpg meta pinned et_rep s m lb p Hf). }
  intros u s3 Hrm. destruct (copied s m s2 s3 lb n) as (m3 & Hch & Elb & Eo); [done|done|done|done|done|done|done|done|done|].
  exists m3. split_and!; [done|done|done| |done].
  destruct Hrm as (m4 & _ & Hst3 & _). by rewrite (fs_pinned _ _ _ _ _ _ _ Hst3).
Qed.

(** The block of [lb] after the shared-block check: mapped as before, and its
    own. *)
Definition located (s : FState X) (m : list (N * ETV)) (lb p : N) (s' : FState X) (m' : list (N * ETV)) : Prop :=
  changed (eq lb) 0 (λ _, None) s m s' m' ∧ p = phys s' m' lb ∧ (p ≠ 0 → pinned s' p = false) ∧
  ∀ x, phys s' m' x = 0 ↔ phys s m x = 0.

Lemma redirect_ok s m lb :
  fok s m → pins_tracked s →
  ends oom (redirect bitmap bpg cs_root rc_root false lb (phys s m lb)) s (λ p s', ∃ m', located s m lb p s' m').
Proof.
  intros Hf Hpt. pose proof (fo_env _ _ _ _ _ _ _ Hf) as Hok. set (p := phys s m lb).
  assert ((p ≠ 0 → pinned s p = false) → ∃ m', located s m lb p s m') as Hsame.
  { intros Hq. exists m. split_and!; [by apply changed_refl|done|done|done]. }
  unfold redirect. apply ends_bind. unfold ends at 1, gets. rewrite (eo_barrier _ _ _ _ _ Hok). cbn [N.ltb N.compare].
  rewrite orb_false_r. destruct (N.eqb_spec p 0) as [Hz|Hp]; [cbn [negb andb]; by apply Hsame|].
  destruct (N.eqb_spec rc_root 0) as [Hr|Hr]; cbn [negb andb]; [apply Hsame; intros _; by apply Hpt|].
  unfold ends. rewrite get_inode_bind, (em_bind_ok _ _ _ _ _ (rc_is_pinned_spec s rc_root p Hok)), andb_false_r. cbn [andb].
  rewrite (em_bind_ok (mret false) _ s false s eq_refl), orb_false_r.
  destruct (pinned s p) eqn:Epin; [|apply Hsame; by intros _].
  eapply ends_mono; [by apply copy_block_ok|]. intros n s' (m' & Hch & -> & Hn & Hpn & Eo). exists m'.
  split_and!; [done|done|done|]. intros x. destruct (decide (x = lb)) as [->|Hx]; [|by rewrite Eo]. done.
Qed.

(** ** Allocating for a hole *)
Lemma alloc_run_ok s m lb n req :
  fok s m → req_valid req → req_blocks req = n → lb + n < two64 → (∀ x, lb <= x < lb + n → phys s m x = 0) →
  ends oom (p ← falloc bitmap bpg req; add_extent bitmap bpg lb p n ;; mret (p, Some (p + n))) s (λ r s', ∃ m',
    changed (blks lb (lb + n - 1)) 0 (λ _, None) s m s' m' ∧ r.1 = phys s' m' lb ∧ pinned s' r.1 = false ∧
    ∀ x, lb <= x < lb + n → phys s' m' x ≠ 0).
Proof.
  intros Hf Hv <- Hb Hz. pose proof (fo_env _ _ _ _ _ _ _ Hf) as Hok. set (n := req_blocks req) in *.
  assert (0 < n) as Hn0 by (unfold n; destruct req; cbn in *; lia).
  apply ends_bind. eapply ends_mono; [by apply (falloc_ok bitmap bpg meta pinned et_rep s req)|].
  intros p s1 (Hst1 & Hk1 & Hi1 & Hlt & Hme & Hfr). fold n in Hfr, Hlt. pose proof (eo_bpg _ _ _ _ _ Hok) as Hbpg.
  assert (∀ y, p <= y < p + n → data_b s1 y ∧ covp (all_exts (finode s1) m) y = 0%nat ∧ pinned s1 y = false) as Hfresh.
  { intros y Hy. destruct (Hfr y Hy). apply (fresh_block s); try done. lia. }
  assert (fok s1 m) as Hf1.
  { eapply (file_ok_step bitmap bpg meta pinned et_rep); [exact Hf|exact Hst1|done|]. by apply keeps_tree_rep. }
  assert (∀ x, phys s1 m x = phys s m x) as Eph by (intros; by apply phys_inode).
  apply ends_bind. eapply ends_mono; [apply (add_extent_ok bitmap bpg meta pinned et_rep s1 m (mkExt lb p n)); [done|]|].
  { split; [split_and!; cbn; lia| |].
    - intros x Hx%in_log_iff. cbn in Hx. apply (phys_hole bitmap bpg meta pinned et_rep s1 m x Hf1). rewrite Eph. apply Hz. lia.
    - intros y Hy%in_phys_iff. cbn in Hy. destruct (Hfresh y) as (? & ? & _); [lia|done]. }
  intros u s2 (m2 & Hf2 & Hs & Hst2 & Ha). exists m2. cbn [fst].
  assert (step nothing s s2) as Hst by (by eapply fstep_trans_same).
  assert (∀ x y, maps (all_exts (finode s2) m2) x y ↔ (lb <= x < lb + n ∧ y = p + (x - lb)) ∨ maps (all_exts (finode s) m) x y) as Hm.
  { intros x y. rewrite (same_m _ _ Hs), maps_app, maps_one, in_log_iff, Hi1. cbn. done. }
  assert (∀ x, lb <= x < lb + n → phys s2 m2 x = p + (x - lb) ∧ p + (x - lb) ≠ 0) as Enew.
  { intros x Hx. apply (phys_maps bitmap bpg meta pinned et_rep s2 m2 x _ Hf2), Hm. by left. }
  assert (∀ x, ¬ (lb <= x < lb + n) → phys s2 m2 x = phys s m x) as Eold.
  { intros x Hx. apply phys_ext; [done|done|]. intros y. rewrite Hm. naive_solver. }
  split_and!; [| | |].
  - rewrite Hi1 in Ha. apply same_attrs_kind in Ha as [Hz' Hk]. split; [done|done|done| | | | |done|].
    + by eapply fstep_weaken; [exact Hst|].
    + intros x Hx. destruct (decide (lb <= x < lb + n)) as [Hin|Hout]; [by rewrite Hz in Hx|by rewrite Eold].
    + intros x Hx Hnz. destruct (decide (lb <= x < lb + n)) as [Hin|Hout]; [unfold blks; lia|by rewrite Eold in Hnz].
    + intros x Hx. destruct (decide (lb <= x < lb + n)) as [Hin|Hout]; [|left; by apply Eold]. right.
      destruct (Enew x Hin) as [-> _]. apply Hfr. lia.
    + intros i _ Hx. destruct (decide (lb <= i / BS < lb + n)) as [Hin|Hout]; [by rewrite Hz in Hx|].
      apply (fbyte_keep nothing); [done|done|done|by apply Eold|by intros []].
  - destruct (Enew lb) as [-> _]; lia.
  - rewrite (fs_pinned _ _ _ _ _ _ _ Hst2). apply Hfresh. lia.
  - intros x Hx. by destruct (Enew x Hx) as [-> ?].
Qed.

Lemma allocate_for_ok s m lb append last hint :
  fok s m → lb <= last → last + 1 < two64 → phys s m lb = 0 → (append = true → ∀ x, lb < x <= last → phys s m x = 0) →
  ends oom (allocate_for bitmap bpg append last lb hint) s (λ r s', ∃ m',
    changed (blks lb (if append : bool then last else lb)) 0 (λ _, None) s m s' m' ∧ r.1 = phys s' m' lb ∧ r.1 ≠ 0 ∧ pinned s' r.1 = false ∧
    (append = true → ∀ x, lb <= x <= last → phys s' m' x ≠ 0)).
Proof.
  intros Hf Hl Hlast Hz Hap.
  assert (∀ n req, req_valid req → req_blocks req = n → 0 < n → lb + n - 1 = (if append then last else lb) →
    ends oom (p ← falloc bitmap bpg req; add_extent bitmap bpg lb p n ;; mret (p, Some (p + n))) s (λ r s', ∃ m',
      changed (blks lb (if append then last else lb)) 0 (λ _, None) s m s' m' ∧ r.1 = phys s' m' lb ∧ r.1 ≠ 0 ∧ pinned s' r.1 = false ∧
      (append = true → ∀ x, lb <= x <= last → phys s' m' x ≠ 0))) as Hrun.
  { intros n req Hv Hn Hn0 He. eapply ends_mono; [apply (alloc_run_ok s m lb n req); [done|done|done|destruct append; lia|]|].
    - intros x Hx. destruct (decide (x = lb)) as [->|]; [done|]. destruct append; [apply Hap; [done|lia]|lia].
    - intros r s' (m' & Hc & Er & Hp & Hm). exists m'. rewrite He in Hc. split_and!; [done|done|rewrite Er; apply Hm; lia|done|].
      intros -> x Hx. apply Hm. lia. }
  unfold allocate_for. destruct append.
  - apply Hrun; [|done|lia|lia]. cbn [req_valid]. lia.
  - destruct hint; apply Hrun; cbn; lia.
Qed.

(** The blocks from [cur] to the last one of an append are all mapped, or none
    is after [cur]. *)
Definition tail_ok (append : bool) (last : N) (s : FState X) (m : list (N * ETV)) (cur : N) : Prop :=
  append = true → (∀ x, cur <= x <= last → phys s m x ≠ 0) ∨ (∀ x, cur < x <= last → phys s m x = 0).

Lemma changed_then_store first last s m s1 m1 s' lb upd :
  fok s m → first <= lb <= last → changed (blks first last) 0 (λ _, None) s m s1 m1 → changed (eq lb) 0 upd s1 m1 s' m1 →
  changed (blks first last) 0 upd s m s' m1.
Proof.
  intros Hf Hl H1 H2. apply (changed_upd _ _ (then_upd (λ _, None) upd)); [intros i; unfold then_upd; by destruct (upd i)|].
  eapply changed_seq; [done|exact H1|]. eapply changed_widen; [|exact H2]; unfold blks; lia.
Qed.

(** The block of a chunk, allocated if it was a hole. *)
Definition placed (append : bool) (last : N) (s : FState X) (m : list (N * ETV)) (lb p : N) (s' : FState X) (m' : list (N * ETV)) : Prop :=
  changed (blks lb last) 0 (λ _, None) s m s' m' ∧ p = phys s' m' lb ∧ p ≠ 0 ∧ pinned s' p = false ∧
  ∀ cur, lb <= cur → tail_ok append last s' m' cur.

Lemma place_ok s m append last lb hint :
  fok s m → pins_tracked s → lb <= last → last + 1 < two64 → tail_ok append last s m lb →
  ends oom (p ← redirect bitmap bpg cs_root rc_root false lb (phys s m lb);
            if p =? 0 then allocate_for bitmap bpg append last lb hint else mret (p, hint)) s
    (λ r s', ∃ m', placed append last s m lb r.1 s' m').
Proof.
  intros Hf Hpt Hl Hlast Htail. apply ends_bind. eapply ends_mono; [by apply redirect_ok|].
  intros p s1 (m1 & Hc1 & Ep & Hp1 & Hz1). pose proof (ch_ok _ _ _ _ _ _ _ Hc1) as Hf1.
  assert (tail_ok append last s1 m1 lb) as Htail1.
  { intros Ha. destruct (Htail Ha) as [Ht|Ht]; [left|right]; intros x Hx; [by rewrite Hz1; apply Ht|apply Hz1; by apply Ht]. }
  destruct (N.eqb_spec p 0) as [E0|E0].
  - assert (phys s1 m1 lb = 0) as E1 by congruence.
    eapply ends_mono; [apply (allocate_for_ok s1 m1); [done|done|done|done|]|].
    { intros Ha. destruct (Htail1 Ha) as [Ht|Ht]; [|done]. exfalso. apply (Ht lb); [lia|done]. }
    intros r s2 (m2 & Hc2 & Er & Hr0 & Hr & Hm). exists m2. split_and!; [|done|done|done|].
    + apply (changed_upd _ _ (then_upd (λ _, None) (λ _, None))); [done|].
      eapply changed_seq; [done|eapply changed_widen; [|exact Hc1]; unfold blks; lia|]. eapply changed_widen; [|exact Hc2]. unfold blks. destruct append; lia.
    + intros cur Hcur Ha. left. intros x Hx. apply Hm; [done|lia].
  - unfold ends, mret, EM_ret. exists m1. cbn [fst]. split_and!; [|done|done|by apply Hp1|].
    + eapply changed_widen; [|exact Hc1]; unfold blks; lia.
    + intros cur Hcur Ha. destruct (Htail1 Ha) as [Ht|Ht]; [left|right]; intros x Hx; apply Ht; lia.
Qed.

(** ** The loop *)
Abbreviation wstep append last := (write_step bitmap bpg cs_root rc_root dd_root false note false append last).
Abbreviation wloop append last := (write_loop bitmap bpg cs_root rc_root dd_root false note false append last).

Lemma write_step_unfold s m append last (w : wloc D) (lb := w_offset w / BS) (bo := w_offset w mod BS)
    (n := N.min (BS - bo) (N.of_nat (length (w_data w)))) :
  fok s m →
  wstep append last w s =
  ((r ← (p ← redirect bitmap bpg cs_root rc_root false lb (phys s m lb);
         if p =? 0 then allocate_for bitmap bpg append last lb (w_hint w) else mret (p, w_hint w));
    notes ← store_chunk dd_root false note false lb r.1 (N.to_nat bo) (take (N.to_nat n) (w_data w)) (w_notes w);
    mret (mkWL (wadd64 (w_offset w) n) (drop (N.to_nat n) (w_data w)) r.2 notes)) s).
Proof.
  intros Hf. unfold write_step. cbv zeta. fold lb bo n.
  assert (fattempt (get_physical_block lb) s = (inr (Some (phys s m lb)), s)) as E.
  { unfold fattempt. by rewrite (get_physical_block_ok bitmap bpg meta pinned et_rep s m lb Hf). }
  rewrite (em_bind_ok _ _ _ _ _ E). cbn [default from_option]. unfold mbind, EM_bind.
  destruct (redirect _ _ _ _ _ _ _ s) as [[e|p] s1]; [done|]. rewrite andb_false_r. cbn [andb]. unfold mret at 1, EM_ret at 1.
  destruct (p =? 0); [|done]. by destruct (allocate_for _ _ _ _ _ _ s1) as [[e|[p' h']] s2].
Qed.

Lemma write_step_ok s m append last (w : wloc D) (n := N.min (BS - w_offset w mod BS) (N.of_nat (length (w_data w)))) :
  fok s m → pins_tracked s → w_offset w / BS <= last → last + 1 < two64 → w_offset w + n < two64 →
  tail_ok append last s m (w_offset w / BS) →
  ends oom (wstep append last w) s (λ w' s', ∃ m',
    changed (blks (w_offset w / BS) last) 0 (put (w_offset w) (take (N.to_nat n) (w_data w))) s m s' m' ∧
    w_offset w' = w_offset w + n ∧ w_data w' = drop (N.to_nat n) (w_data w) ∧
    ∀ cur, w_offset w / BS <= cur → tail_ok append last s' m' cur).
Proof.
  intros Hf Hpt Hl Hlast Hn Htail. unfold ends. rewrite (write_step_unfold s m) by done. fold n.
  pose proof (N.div_mod (w_offset w) BS ltac:(done)) as Hdm. pose proof (N.mod_lt (w_offset w) BS ltac:(done)) as Hlt.
  apply ends_bind. eapply ends_mono; [by apply place_ok|]. intros [p h] s1 (m1 & Hc1 & Ep & Hp & Hu & Htail1). cbn [fst snd] in *.
  rewrite Ep in *. apply ends_bind.
  eapply ends_mono; [apply (store_chunk_ok s1 m1); [apply Hc1|done|done|rewrite length_take; lia]|].
  intros d s2 Hc2. exists m1. cbn [w_offset w_data]. rewrite wadd64_small by done.
  replace (w_offset w / BS * BS + w_offset w mod BS) with (w_offset w) in Hc2 by lia.
  split_and!; [eapply changed_then_store; [done| |exact Hc1|exact Hc2]; lia|done|done|].
  intros cur Hcur Ha. destruct (Htail1 cur Hcur Ha) as [Ht|Ht]; [left|right]; intros x Hx.
  - apply (ch_mapped _ _ _ _ _ _ _ Hc2). by apply Ht.
  - destruct (decide (phys s2 m1 x = 0)) as [|Hnz]; [done|]. pose proof (ch_holes _ _ _ _ _ _ _ Hc2 x (Ht x Hx) Hnz). lia.
Qed.

Lemma put_at off data j b : data !! j = Some b → put off data (off + N.of_nat j) = Some b.
Proof.
  intros Hb. unfold put. rewrite (proj2 (N.leb_le _ _)) by lia. by replace (N.to_nat (off + N.of_nat j - off)) with j by lia.
Qed.

Lemma put_none off data i : i < off ∨ off + N.of_nat (length data) <= i → put off data i = None.
Proof. intros Hi. unfold put. destruct (N.leb_spec off i); [|done]. apply lookup_ge_None. lia. Qed.

Lemma put_nil off i : put off [] i = None.
Proof. unfold put. by destruct (_ <=? _). Qed.

Lemma write_loop_ok s m append first last fuel (w : wloc D) :
  fok s m → pins_tracked s → (length (w_data w) <= fuel)%nat → w_offset w + N.of_nat (length (w_data w)) < two64 →
  first <= w_offset w / BS → (w_data w ≠ [] → last = (w_offset w + N.of_nat (length (w_data w)) - 1) / BS) → last + 1 < two64 →
  tail_ok append last s m (w_offset w / BS) →
  ends oom (wloop append last fuel w) s (λ _ s', ∃ m', changed (blks first last) 0 (put (w_offset w) (w_data w)) s m s' m').
Proof.
  revert s m w. induction fuel as [|fuel IH]; intros s m w Hf Hpt Hfu Hb Hfst Hlast Hl2 Ht; cbn [write_loop].
  { exists m. destruct (w_data w); [|cbn in Hfu; lia]. apply (changed_upd _ _ (λ _, None)); [intros i; by rewrite put_nil|by apply changed_refl]. }
  destruct (w_data w) as [|b0 dt] eqn:Ed.
  { exists m. apply (changed_upd _ _ (λ _, None)); [intros i; by rewrite put_nil|by apply changed_refl]. }
  specialize (Hlast ltac:(done)). rewrite <- Ed in *. assert (0 < N.of_nat (length (w_data w))) as Hpos by (rewrite Ed; cbn; lia). clear Ed b0 dt.
  pose proof (N.div_mod (w_offset w) BS ltac:(done)) as Hdm. pose proof (N.mod_lt (w_offset w) BS ltac:(done)) as Hlt.
  set (n := N.min (BS - w_offset w mod BS) (N.of_nat (length (w_data w)))).
  assert (w_offset w / BS <= last) as Hlo by (rewrite Hlast; apply N.Div0.div_le_mono; lia).
  apply ends_bind. eapply ends_mono; [apply (write_step_ok s m); try done; lia|].
  intros w' s1 (m1 & Hc & Eo & Ed & Htl). fold n in Hc, Eo, Ed.
  assert (w_offset w / BS <= w_offset w' / BS) as Hmono by (rewrite Eo; apply N.Div0.div_le_mono; lia).
  eapply ends_mono; [apply (IH s1 m1)|].
  - apply Hc.
  - intros Hr b. rewrite (fs_pinned _ _ _ _ _ _ _ (ch_step _ _ _ _ _ _ _ Hc)). by apply Hpt.
  - rewrite Ed, length_drop. lia.
  - rewrite Eo, Ed, length_drop. lia.
  - lia.
  - intros _. rewrite Eo, Ed, length_drop, Hlast. f_equal. lia.
  - done.
  - by apply Htl.
  - intros _ s2 [m2 Hc2]. exists m2.
    eapply changed_upd; [|eapply changed_seq; [done|eapply changed_widen; [|exact Hc]; unfold blks; lia|exact Hc2]].
    intros i. rewrite <- (take_drop (N.to_nat n) (w_data w)) at 2. rewrite <- put_app, Ed, Eo, length_take. do 3 f_equal. lia.
Qed.

(** ** One range *)
(** No block is mapped past the end of the file. *)
Definition sized (s : FState X) (m : list (N * ETV)) : Prop := ∀ x, phys s m x ≠ 0 → x * BS < isize (finode s).

Definition touched (off : N) (data : block) (x : N) : Prop :=
  data ≠ [] ∧ off / BS <= x <= (off + N.of_nat (length data) - 1) / BS.

Lemma grow_changed B e u s m s1 m1 :
  changed B 0 u s m s1 m1 →
  ∃ s2, grow_size e s1 = (inr (), s2) ∧ changed B e u s m s2 m1 ∧ ∀ x, phys s2 m1 x = phys s1 m1 x.
Proof.
  intros [A1 Az A2 A3 A4 A5 A6 A7 A8]. eexists. split; [done|]. set (g := λ i, if isize i <? e then with_size e i else i).
  change (finode (mkFS _ ?i _)) with i. set (s2 := mkFS (fctx s1) (g (finode s1)) (fenv s1)).
  destruct (set_inode_ok bitmap bpg meta pinned et_rep s1 g (fo_env _ _ _ _ _ _ _ A1)) as (Hst & Hk & _). fold s2 in Hst, Hk.
  assert (extents (finode s2) = extents (finode s1)) as Ex by (unfold s2, g; cbn; by destruct (_ <? _)).
  assert (spill_extent_root (finode s2) = spill_extent_root (finode s1)) as Er by (unfold s2, g; cbn; by destruct (_ <? _)).
  assert (∀ x, phys s2 m1 x = phys s1 m1 x) as Eph by (intros x; unfold phys, all_exts; by rewrite Ex).
  assert (∀ i, fbyte s2 m1 i = fbyte s1 m1 i) as Ef by (intros i; unfold fbyte, fblock; by rewrite Eph).
  split; [|exact Eph]. split.
  - destruct A1 as [F1 F2 F3 F4 F5]. split; unfold all_exts in *; rewrite ?Ex; [apply Hst| |done| |done].
    + unfold tree_rep in *. rewrite Er. destruct (_ =? 0); [done|by apply Hk].
    + intros x y Hm. eapply fstep_data_block; [exact Hst|by eapply F4].
  - rewrite N.max_0_r in Az. rewrite <- Az. unfold s2, g. cbn [finode]. destruct (N.ltb_spec (isize (finode s1)) e); cbn [with_size isize]; lia.
  - destruct A2 as (? & ? & ?). unfold s2, g, same_kind. cbn [finode]. by destruct (_ <? _).
  - eapply fstep_weaken; [by eapply fstep_trans|]. by intros b _ [?|[]].
  - intros x. rewrite Eph. apply A4.
  - intros x. rewrite Eph. apply A5.
  - intros x. rewrite Eph. apply A6.
  - intros i b. rewrite Eph, Ef. apply A7.
  - intros i. rewrite Ef. apply A8.
Qed.

Lemma sized_changed off data u s m s' m' :
  sized s m → changed (touched off data) (off + N.of_nat (length data)) u s m s' m' → sized s' m'.
Proof.
  intros Hs Hc x Hx. rewrite (ch_size _ _ _ _ _ _ _ Hc). destruct (decide (phys s m x = 0)) as [Hz|Hz].
  - destruct (ch_holes _ _ _ _ _ _ _ Hc x Hz Hx) as (Hd & _ & Hl).
    assert (0 < N.of_nat (length data)) by (destruct data; [done|cbn; lia]).
    pose proof (N.Div0.mul_div_le (off + N.of_nat (length data) - 1) BS). lia.
  - specialize (Hs x Hz). lia.
Qed.

Context (dedup : bool) (no_dedup : dd_root = 0 ∨ dedup = false).

Lemma write_range_ok s m off data hint d :
  fok s m → pins_tracked s → sized s m → off + N.of_nat (length data) < two64 →
  ends oom (write_range bitmap bpg cs_root rc_root dd_root false dedup note off data hint d) s (λ _ s', ∃ m',
    changed (touched off data) (off + N.of_nat (length data)) (put off data) s m s' m').
Proof.
  intros Hf Hpt Hs Hb. unfold write_range, ends. rewrite get_inode_bind, wadd64_small by done.
  assert ((negb (dd_root =? 0) && negb false && dedup)%bool = false) as Edd.
  { destruct no_dedup as [->| ->]; [done|by rewrite andb_false_r]. }
  rewrite Edd. set (e := off + N.of_nat (length data)) in *.
  apply ends_bind. eapply (ends_mono _ _ _ (λ _ s', ∃ m', changed (touched off data) 0 (put off data) s m s' m')).
  { destruct (decide (data = [])) as [->|Hne].
    { cbn [length write_loop]. exists m. apply (changed_upd _ _ (λ _, None)); [intros i; by rewrite put_nil|by apply changed_refl]. }
    assert (0 < N.of_nat (length data)) by (destruct data; [done|cbn; lia]).
    rewrite wsub64_small by (unfold two64 in *; lia). assert ((e - 1) / BS + 1 < two64) as Hlast.
    { pose proof (N.Div0.div_le_upper_bound (e - 1) BS (e - 1) ltac:(nia)). unfold two64 in *. lia. }
    eapply ends_mono; [apply (write_loop_ok s m _ (off / BS)); cbn [w_data w_offset]; try done; try lia|].
    - intros [_ Happ%N.eqb_eq]%andb_true_iff. right. intros x Hx. destruct (decide (phys s m x = 0)) as [|Hnz]; [done|].
      specialize (Hs x Hnz). rewrite <- Happ in Hs. pose proof (N.div_mod off BS ltac:(done)). pose proof (N.mod_lt off BS ltac:(done)). nia.
    - intros w s' [m' Hc]. exists m'. eapply changed_widen; [|exact Hc]. intros x Hx. split; [done|exact Hx]. }
  intros w s1 [m1 Hc]. destruct (grow_changed _ e _ _ _ _ _ Hc) as (s2 & E2 & Hc2 & _).
  apply ends_bind. unfold ends at 1. rewrite E2. by exists m1.
Qed.
End write_loop.

(** ** Whole operations *)
Section operations.
Context (cs_root rc_root dd_root : N) (dedup : bool) (no_dedup : dd_root = 0 ∨ dedup = false).

Lemma mstep_refl s : ok s → mstep bitmap bpg meta pinned s s ∧ keeps_trees et_rep s s.
Proof. intros Hok. split; [split; [by apply fstep_refl|done]|by intros r m]. Qed.

Lemma locality_hint_ok (s : FState X) : ∃ h, locality_hint s = (inr h, s).
Proof. eexists. reflexivity. Qed.

Lemma store_block_checksum_ok s lb pb bytes :
  ok s → ends oom (store_block_checksum cs_root lb pb bytes) s (λ _ s', mstep bitmap bpg meta pinned s s' ∧ keeps_trees et_rep s s').
Proof.
  intros Hok. unfold store_block_checksum, ends. rewrite get_inode_bind. destruct (cs_root =? 0); [by apply mstep_refl|].
  by apply ct_store_spec.
Qed.

Lemma note_deferred_ok s lb pb bytes d :
  ok s → ends oom (note_deferred cs_root lb pb bytes d) s (λ _ s', mstep bitmap bpg meta pinned s s' ∧ keeps_trees et_rep s s').
Proof. intros Hok. unfold note_deferred. destruct (cs_root =? 0); by apply mstep_refl. Qed.

Lemma write_file_ok s m off data :
  fok s m → compression_algo (finode s) = 0 → pins_tracked rc_root s → sized s m → off + N.of_nat (length data) < two64 →
  ends oom (write_file bitmap bpg cs_root rc_root dd_root false dedup off data) s (λ _ s', ∃ m',
    changed (touched off data) (off + N.of_nat (length data)) (put off data) s m s' m' ∧ sized s' m').
Proof.
  intros Hf Hc Hpt Hs Hb. unfold write_file, ends. rewrite get_inode_bind, Hc. cbn [N.eqb negb].
  destruct (locality_hint_ok s) as [h Eh]. rewrite (em_bind_ok _ _ _ _ _ Eh).
  apply ends_bind. eapply ends_mono; [apply (write_range_ok _ (λ s lb pb bytes _, store_block_checksum_ok s lb pb bytes)); done|].
  intros r s' [m' Hch]. exists m'. split; [done|by eapply sized_changed].
Qed.

(** The bytes a change leaves: those of holes outside [B] included. *)
Lemma changed_outside B e u s m s' m' i :
  fok s m → changed B e u s m s' m' → u i = None → phys s m (i / BS) ≠ 0 ∨ ¬ B (i / BS) → fbyte s' m' i = fbyte s m i.
Proof.
  intros Hf Hc Hu Hor. destruct (decide (phys s m (i / BS) = 0)) as [Hz|Hz]; [|by apply (ch_old _ _ _ _ _ _ _ Hc)].
  destruct Hor as [?|Hn]; [done|]. assert (phys s' m' (i / BS) = 0) as Hz'.
  { destruct (decide (phys s' m' (i / BS) = 0)) as [|Hnz]; [done|]. by apply (ch_holes _ _ _ _ _ _ _ Hc) in Hnz. }
  unfold fbyte, fblock. by rewrite Hz, Hz'.
Qed.


Definition runs_blocks (runs : list (N * block)) (x : N) : Prop := ∃ r, r ∈ runs ∧ touched (r.1 * BS) r.2 x.
Definition runs_end (runs : list (N * block)) : N := foldr (λ r e, N.max (r.1 * BS + N.of_nat (length r.2)) e) 0 runs.
Fixpoint runs_put (runs : list (N * block)) (i : N) : option byte :=
  match runs with [] => None | r :: runs => then_upd (put (r.1 * BS) r.2) (runs_put runs) i end.

Lemma write_runs_ok runs s m hint d :
  fok s m → pins_tracked rc_root s → sized s m → Forall (λ r : N * block, r.1 * BS + N.of_nat (length r.2) < two64) runs →
  ends oom (write_runs bitmap bpg cs_root rc_root dd_root false dedup runs hint d) s (λ _ s', ∃ m',
    changed (runs_blocks runs) (runs_end runs) (runs_put runs) s m s' m' ∧ sized s' m').
Proof.
  revert s m hint d. induction runs as [|[sb data] runs IH]; intros s m hint d Hf Hpt Hs Hall; cbn [write_runs].
  { exists m. split; [by apply changed_refl|done]. }
  apply Forall_cons in Hall as [Hr Hall]. cbn [fst snd] in Hr. unfold wmul64. rewrite wrap64_small by lia.
  apply ends_bind. eapply ends_mono; [apply (write_range_ok _ note_deferred_ok _ _ _ _ no_dedup s m); done|].
  intros [h' d'] s1 [m1 Hc]. eapply ends_mono; [apply (IH s1 m1); [apply Hc| |by eapply sized_changed|done]|].
  { intros Hr0 b. rewrite (fs_pinned _ _ _ _ _ _ _ (ch_step _ _ _ _ _ _ _ Hc)). by apply Hpt. }
  intros r s2 (m2 & Hc2 & Hs2). exists m2. split; [|done]. eapply (changed_trans _ (sb * BS + _) (runs_end runs)); [done| |].
  - eapply changed_widen; [|exact Hc]. intros x Hx. exists (sb, data). split; [by left|done].
  - eapply changed_widen; [|exact Hc2]. intros x (r' & Hr' & Hx). exists r'. split; [by right|done].
Qed.

Lemma for_each_mstep {A} (f : A → FM X unit) l s :
  ok s → (∀ x s, ok s → ends oom (f x) s (λ _ s', mstep bitmap bpg meta pinned s s' ∧ keeps_trees et_rep s s')) →
  ends oom (for_each f l) s (λ _ s', mstep bitmap bpg meta pinned s s' ∧ keeps_trees et_rep s s').
Proof.
  intros Hok Hf. revert s Hok. induction l as [|x l IH]; intros s Hok; cbn [for_each]; [by apply mstep_refl|].
  apply ends_bind. eapply ends_mono; [by apply Hf|]. intros u s1 [[Hst Hi] Hk].
  eapply ends_mono; [apply IH, Hst|]. intros u' s2 [[Hst2 Hi2] Hk2]. split; [split; [by eapply fstep_trans_same|congruence]|].
  intros r m Hr. by apply Hk2, Hk.
Qed.

Lemma changed_mstep B e u s m s1 m1 s2 :
  changed B e u s m s1 m1 → mstep bitmap bpg meta pinned s1 s2 → keeps_trees et_rep s1 s2 →
  changed B e u s m s2 m1 ∧ ∀ x, phys s2 m1 x = phys s1 m1 x.
Proof.
  intros [A1 Az A2 A3 A4 A5 A6 A7 A8] [Hst Hi] Hk.
  assert (∀ x, phys s2 m1 x = phys s1 m1 x) as Eph by (intros; by apply phys_inode).
  assert (∀ i, phys s1 m1 (i / BS) ≠ 0 → fbyte s2 m1 i = fbyte s1 m1 i) as Ef.
  { intros i Hx. by apply (fbyte_keep nothing); [|..|intros []]. }
  split; [|exact Eph]. split; [|by rewrite Hi|by rewrite Hi| | | | | |].
  - eapply file_ok_step; [exact A1|exact Hst|done|by apply keeps_tree_rep].
  - eapply fstep_weaken; [by eapply fstep_trans|]. by intros b _ [?|[]].
  - intros x. rewrite Eph. apply A4.
  - intros x. rewrite Eph. apply A5.
  - intros x. rewrite Eph. apply A6.
  - intros i b Hu. rewrite Eph. destruct (A7 i b Hu) as [? <-]. split; [done|by apply Ef].
  - intros i Hu Hm. rewrite Ef by auto. by apply A8.
Qed.

(** [write_file_runs], the batched form that defers the checksums, does to
    the file what its runs do written one after the other: a later run wins
    over an earlier one, everything outside the runs is kept. *)
Theorem write_file_runs_spec s m runs :
  fok s m → compression_algo (finode s) = 0 → pins_tracked rc_root s → sized s m →
  Forall (λ r : N * block, r.1 * BS + N.of_nat (length r.2) < two64) runs →
  ends oom (write_file_runs bitmap bpg cs_root rc_root dd_root false dedup runs) s (λ _ s', ∃ m',
    changed (runs_blocks runs) (runs_end runs) (runs_put runs) s m s' m' ∧ sized s' m').
Proof.
  intros Hf Hc Hpt Hs Hall. unfold write_file_runs. destruct runs as [|r runs].
  { exists m. split; [by apply changed_refl|done]. }
  unfold ends. rewrite get_inode_bind, Hc. cbn [N.eqb negb]. destruct (locality_hint_ok s) as [h Eh]. rewrite (em_bind_ok _ _ _ _ _ Eh).
  apply ends_bind. eapply ends_mono; [by apply (write_runs_ok (r :: runs) s m)|]. intros d s1 (m1 & Hch & Hs1).
  eapply ends_mono; [apply for_each_mstep; [apply Hch|intros p s' ?; by apply store_block_checksum_ok]|].
  intros u s2 [Hm Hk]. destruct (changed_mstep _ _ _ _ _ _ _ _ Hch Hm Hk) as [Hch2 Eph]. exists m1. split; [done|].
  intros x Hx. rewrite Eph in Hx. destruct Hm as [_ ->]. by apply Hs1.
Qed.

Lemma written_bytes s' m' B e u s m off data :
  changed B e u s m s' m' → (∀ i, u i = put off data i) → file_bytes s' m' off (N.of_nat (length data)) = data.
Proof.
  intros Hc Hu. apply (nth_ext _ _ x00 x00); [unfold file_bytes; rewrite length_map, length_seq; lia|].
  unfold file_bytes at 1. rewrite length_map, length_seq, Nat2N.id. intros j Hj.
  rewrite <- (Nat2N.id j) at 1. rewrite file_bytes_nth by lia.
  destruct (lookup_lt_is_Some_2 data j Hj) as [b Hb]. rewrite (nth_lookup_Some _ _ _ _ Hb).
  apply (ch_new _ _ _ _ _ _ _ Hc). rewrite Hu. by apply put_at.
Qed.

(** What [write_file] wrote, [read_file] reads: after a write that succeeds,
    reading the range returns the data, with the checksums off always, and
    with the checksums on unless the read reports a mismatch. *)
Theorem write_then_read s m off data s' bb :
  fok s m → compression_algo (finode s) = 0 → pins_tracked rc_root s → sized s m → off + N.of_nat (length data) < two64 →
  write_file bitmap bpg cs_root rc_root dd_root false dedup off data s = (inr (), s') →
  let r := read_file cs_root bb false off (N.of_nat (length data)) s' in
  (cs_root = 0 → r = (inr data, s')) ∧ ∀ d s'', r = (inr d, s'') → d = data ∧ s'' = s'.
Proof.
  intros Hf Hc Hpt Hs Hb E r. pose proof (write_file_ok s m off data Hf Hc Hpt Hs Hb) as Hw. unfold ends in Hw. rewrite E in Hw.
  destruct Hw as (m' & Hch & _). pose proof (ch_kind _ _ _ _ _ _ _ Hch) as (_ & Hc' & _). rewrite Hc in Hc'.
  destruct (read_file_bytes bitmap bpg meta pinned et_rep cs_root bb s' m' off (N.of_nat (length data)) (ch_ok _ _ _ _ _ _ _ Hch) Hc') as [H1 H2].
  rewrite (ch_size _ _ _ _ _ _ _ Hch) in H1, H2.
  replace (N.min (N.of_nat (length data)) _) with (N.of_nat (length data)) in H1, H2 by lia.
  rewrite (written_bytes _ _ _ _ _ _ _ _ _ Hch (λ _, eq_refl)) in H1, H2. split.
  - intros ->. apply H1. by left.
  - intros d s'' Hr. specialize (H2 d s'' Hr). by inversion H2.
Qed.
End operations.
End file_write.

(** ** Witnesses *)
#[local] Abbreviation test_write off data := (write_file (CS:=N * block) (H:=block) 1 16 0 0 0 false false off data test_file).

Lemma test_sized : sized test_file [].
Proof. by intros x. Qed.


Lemma write_then_read_witness :
  ∃ s', test_write 10 [x01; x02] = (inr (), s') ∧
    read_file (CS:=N * block) (H:=block) 0 0 false 10 2 s' = (inr [x01; x02], s').
Proof.
  assert (∃ s', test_write 10 [x01; x02] = (inr (), s')) as (s' & E) by (eexists; vm_compute; reflexivity).
  exists s'. split; [done|].
  by apply (write_then_read 1 16 (ref_meta 1 16) ref_pinned ref_rep 0 0 0 false (or_introl eq_refl) test_file [] 10 [x01; x02] s' 0
    test_file_ok eq_refl (λ _ _, eq_refl) test_sized eq_refl E).
Defined.

Lemma write_file_runs_spec_witness :
  ends oom (write_file_runs (CS:=N * block) (H:=block) 1 16 0 0 0 false false [(2, [x01]); (0, [x02; x03])]) test_file (λ _ s', ∃ m',
    changed 1 16 (ref_meta 1 16) ref_pinned ref_rep (runs_blocks [(2, [x01]); (0, [x02; x03])]) 8193
      (runs_put [(2, [x01]); (0, [x02; x03])]) test_file [] s' m' ∧ sized s' m').
Proof.
  apply (write_file_runs_spec 1 16 (ref_meta 1 16) ref_pinned ref_rep 0 0 0 false (or_introl eq_refl) test_file []
    [(2, [x01]); (0, [x02; x03])] test_file_ok eq_refl (λ _ _, eq_refl) test_sized).
  by repeat constructor.
Defined.
