(* ===== verification/FileTrunc.v ===== *)
(** * Truncation

    [truncate_file] on a file without spilled extents: which blocks stay mapped
    and which blocks are freed, exactly. The test for shared blocks lets a range
    go in which only some blocks are pinned; what that does is proved too. *)
From S2P Require Import Prelude OrdMap Transaction Allocator Extents FileModel FileSpec FileRef FileMap FileData FileWrite.
From Stdlib Require Import NArith ZArith Lia Strings.Byte.
From stdpp Require Import base numbers gmap option list.
#[local] Open Scope N_scope.

#[local] Abbreviation block := (list byte).
#[local] Abbreviation BS := 4096.

(** The part of an extent before block [nb], and the physical run after it. *)
Definition head_of (nb : N) (e : Extent) : list Extent :=
  if nb <=? logical_start e then []
  else if nb <? logical_start e + ext_len e then [mkExt (logical_start e) (physical_start e) (nb - logical_start e)]
  else [e].
Definition tail_of (nb : N) (e : Extent) : N * N :=
  if nb <=? logical_start e then (physical_start e, ext_len e)
  else if nb <? logical_start e + ext_len e
  then (physical_start e + (nb - logical_start e), ext_len e - (nb - logical_start e))
  else (0, 0).

Lemma head_of_maps nb l x y : maps (concat (map (head_of nb) l)) x y ↔ maps l x y ∧ x < nb.
Proof.
  induction l as [|e l IH]; cbn [map concat].
  { split; [by intros ?%maps_nil|by intros [?%maps_nil _]]. }
  rewrite maps_app, IH, (maps_cons e l), maps_one. unfold head_of. rewrite in_log_iff.
  destruct (N.leb_spec nb (logical_start e)); [|destruct (N.ltb_spec nb (logical_start e + ext_len e))];
    rewrite ?maps_one, ?in_log_iff; cbn; split; intros Hx; try (assert (¬ maps [] x y) by apply maps_nil); try tauto; try (intuition lia).
Qed.

Lemma tail_of_maps nb e y : in_range (tail_of nb e).1 (tail_of nb e).2 y = true ↔ ∃ x, nb <= x ∧ maps [e] x y.
Proof.
  rewrite in_range_iff. setoid_rewrite maps_one. setoid_rewrite in_log_iff. unfold tail_of.
  destruct (N.leb_spec nb (logical_start e)); [|destruct (N.ltb_spec nb (logical_start e + ext_len e))]; cbn [fst snd]; split.
  - intros Hy. exists (logical_start e + (y - physical_start e)). lia.
  - intros (x & Hx & Hl & ->). lia.
  - intros Hy. exists (logical_start e + (y - physical_start e)). lia.
  - intros (x & Hx & Hl & ->). lia.
  - lia.
  - intros (x & Hx & Hl & ->). lia.
Qed.

Lemma head_of_cov nb l x y :
  (covl (concat (map (head_of nb) l)) x <= covl l x)%nat ∧ (covp (concat (map (head_of nb) l)) y <= covp l y)%nat.
Proof.
  induction l as [|e l [IH1 IH2]]; [done|]. cbn [map concat]. set (L := concat (map (head_of nb) l)) in *.
  rewrite covl_cons, covp_cons. unfold head_of.
  destruct (N.leb_spec nb (logical_start e)); [cbn [app]; lia|].
  assert (∀ n, n <= ext_len e → in_log (mkExt (logical_start e) (physical_start e) n) x = true → in_log e x = true) as Hl.
  { intros n Hn. rewrite !in_log_iff. cbn. lia. }
  assert (∀ n, n <= ext_len e → in_phys (mkExt (logical_start e) (physical_start e) n) y = true → in_phys e y = true) as Hp.
  { intros n Hn. rewrite !in_phys_iff. cbn. lia. }
  destruct (N.ltb_spec nb (logical_start e + ext_len e)); cbn [app]; rewrite covl_cons, covp_cons; [|lia].
  specialize (Hl (nb - logical_start e) ltac:(lia)). specialize (Hp (nb - logical_start e) ltac:(lia)).
  destruct (in_log (mkExt _ _ _) x); [rewrite Hl by done|]; (destruct (in_phys (mkExt _ _ _) y); [rewrite Hp by done|]); cbn [Nat.b2n]; lia.
Qed.

Lemma head_of_ok nb l : Forall ext_ok l → Forall ext_ok (concat (map (head_of nb) l)).
Proof.
  intros Hl. induction Hl as [|e l He Hl IH]; [constructor|]. cbn [map concat]. apply Forall_app. split; [|done].
  destruct He as (H1 & H2 & H3). unfold head_of. destruct (N.leb_spec nb (logical_start e)); [constructor|].
  destruct (N.ltb_spec nb (logical_start e + ext_len e)); (constructor; [split_and!; cbn; lia|constructor]).
Qed.

Lemma head_of_exts nb l : exts_ok l → exts_ok (concat (map (head_of nb) l)).
Proof.
  intros [H1 H2 H3]. split; [by apply head_of_ok| |].
  - intros x. destruct (head_of_cov nb l x 0). specialize (H2 x). lia.
  - intros y. destruct (head_of_cov nb l 0 y). specialize (H3 y). lia.
Qed.

Lemma head_of_length nb l : (length (concat (map (head_of nb) l)) <= length l)%nat.
Proof.
  induction l as [|e l IH]; [done|]. cbn [map concat]. rewrite length_app. set (L := concat (map (head_of nb) l)) in *. unfold head_of.
  destruct (_ <=? _); [|destruct (_ <? _)]; cbn [length]; lia.
Qed.

Section file_trunc.
Context {X CS H : Type} `{!FileEnv X CS H} (bitmap bpg : N).
Context (meta : FState X → N → Prop) (pinned : FState X → N → bool) (et_rep : FState X → N → list (N * ETV) → Prop).
Context `{HS : !FileEnvSpec X CS H bitmap bpg meta pinned et_rep}.
#[local] Abbreviation base := (env_ok bitmap bpg meta (λ _ _, false)).
#[local] Abbreviation fok := (file_ok bitmap bpg meta pinned et_rep).
#[local] Abbreviation rd s b := (read_block (fctx s) b).
#[local] Abbreviation fused s b := (used (fctx s) bitmap b).

(** ** Freeing *)
(** The blocks of [F] are free now; nothing else has changed. *)
Record released (F : N → Prop) (s s' : FState X) : Prop := {
  rl_base : base s';
  rl_used : ∀ b, fused s' b = true ↔ fused s b = true ∧ ¬ F b;
  rl_meta : ∀ b, meta s' b ↔ meta s b;
  rl_pinned : ∀ b, pinned s' b = pinned s b;
  rl_data : ∀ b, ¬ area bitmap bpg b → rd s' b = rd s b;
  rl_trees : keeps_trees et_rep s s'
}.

Lemma released_none (F : N → Prop) s : base s → (∀ b, ¬ F b) → released F s s.
Proof. intros Hb HF. split; [done| |done|done|done|by intros r m]. intros b. specialize (HF b). tauto. Qed.

Lemma released_trans F G s1 s2 s3 : released F s1 s2 → released G s2 s3 → released (λ b, F b ∨ G b) s1 s3.
Proof.
  intros [A1 A3 A4 A5 A6 A7] [B1 B3 B4 B5 B6 B7]. split; [done| | | | |].
  - intros b. rewrite B3, A3. tauto.
  - intros b. by rewrite B4, A4.
  - intros b. by rewrite B5, A5.
  - intros b Hb. by rewrite B6, A6.
  - intros r m Hr. by apply B7, A7.
Qed.

Lemma released_iff (F G : N → Prop) s s' : (∀ b, F b ↔ G b) → released F s s' → released G s s'.
Proof. intros HFG [A1 A3 A4 A5 A6 A7]. split; try done. intros b. by rewrite A3, HFG. Qed.

Lemma ffree_ok s p n :
  base s → p + n <= bpg → (∀ b, p <= b < p + n → ¬ meta s b) →
  ∃ s', ffree bitmap p n s = (inr (), s') ∧ finode s' = finode s ∧ released (λ b, in_range p n b = true) s s'.
Proof.
  intros Hb Hp Hm. unfold ffree, lift_alloc.
  destruct (free_extents_ok (fctx s) bitmap bpg p n (eo_bitmap _ _ _ _ _ Hb) Hp) as (c & E & [D HD] & Hok & Hu & Hrd).
  rewrite E. eexists. split; [done|]. split; [done|].
  assert (ctx_env c = ctx_env (fctx s)) as Henv by (by rewrite HD).
  assert (∀ y, ¬ area bitmap bpg y → read_block c y = rd s y) as Hrd'.
  { intros y Hy. rewrite Hrd; [done|]. intros i Hi ->. apply Hy. by exists i. }
  destruct (env_frame s c (finode s)) as (Hme & Hpn & Hr); [intros b _; apply Hrd'|done|].
  assert (∀ x, used c bitmap x = if in_range p n x then false else fused s x) as Hu' by exact Hu. clear Hu.
  destruct Hb as [O1 O2 O3 O4 O5 O6 O7 O8].
  split; [| |exact Hme|exact Hpn|exact Hrd'|exact Hr].
  - split; cbn [fctx]; [done| | | | |done| |done].
    + intros x Hx. destruct (decide (x < div_ceil bpg BITS + bitmap ∧ bitmap <= x)) as [[H1 H2]|Hn].
      * destruct (Hok (x - bitmap)) as (buf & Eb & Hl); [lia|]. replace (bitmap + (x - bitmap)) with x in Eb by lia. by exists buf.
      * rewrite Hrd'; [by apply O2|]. intros (i & Hi & ->). lia.
    + intros x Hx%Hme. destruct (O3 x Hx) as [? Hux]. split; [done|]. rewrite Hu'.
      destruct (in_range p n x) eqn:Er; [|done]. apply in_range_iff in Er. by apply Hm in Er.
    + intros x Hx. apply Hme. by apply O4.
    + by apply Hme.
    + by rewrite (barrier_env _ _ Henv).
  - intros b. cbn [fctx]. rewrite Hu'. destruct (in_range p n b); intuition congruence.
Qed.

Section roots.
Context (cs_root rc_root : N).

(** What the pin check lets go: the range, unless all of it is pinned. *)
Definition range_freed (s : FState X) (p n b : N) : Prop :=
  in_range p n b = true ∧ ∃ b', in_range p n b' = true ∧ pinned s b' = false.

Lemma free_range_ok s ls p n :
  base s → pins_tracked pinned rc_root s → p + n <= bpg → 0 < n → (∀ b, p <= b < p + n → ¬ meta s b) →
  ∃ s', free_range_birth_aware bitmap cs_root rc_root ls p n s = (inr (), s') ∧ finode s' = finode s ∧ released (range_freed s p n) s s'.
Proof.
  intros Hb Hpt Hp Hn Hm. unfold free_range_birth_aware.
  rewrite gets_bind, get_inode_bind, (eo_barrier _ _ _ _ _ Hb). cbn [N.eqb orb].
  destruct (ffree_ok s p n Hb Hp Hm) as (s' & E & Hino & Hr). unfold free_pinned_checked. destruct (N.eqb_spec rc_root 0) as [Hz|Hz].
  - exists s'. split; [done|]. split; [done|]. eapply released_iff; [|exact Hr]. intros b. split; [|by intros [? _]].
    intros Hin. split; [done|]. exists b. split; [done|by apply Hpt].
  - destruct (rc_is_range_pinned_spec s rc_root p n Hb) as (v & Ev & Hv).
    assert (fattempt (rc_is_range_pinned rc_root p n) s = (inr (Some v), s)) as Ea by (unfold fattempt; by rewrite Ev).
    rewrite (em_bind_ok _ _ _ _ _ Ea). cbn [default from_option]. destruct v.
    + exists s. split; [done|]. split; [done|]. apply released_none; [done|]. intros b [_ (b' & Hin%in_range_iff & Hu)].
      destruct (proj1 Hv eq_refl) as [_ Hall]. rewrite Hall in Hu by done. done.
    + exists s'. split; [done|]. split; [done|]. eapply released_iff; [|exact Hr]. intros b. split; [|by intros [? _]]. intros Hin. split; [done|].
      destruct (decide (Exists (λ i, pinned s (p + N.of_nat i) = false) (seq 0 (N.to_nat n)))) as [Hex|Hno].
      * apply Exists_exists in Hex as (i & Hi & Hu). apply elem_of_seq in Hi. exists (p + N.of_nat i). split; [|done]. apply in_range_iff. lia.
      * exfalso. assert (false = true) as Hf; [|done]. apply Hv. split; [lia|]. intros x Hx.
        destruct (pinned s x) eqn:Eu; [done|]. exfalso. apply Hno, Exists_exists. exists (N.to_nat (x - p)).
        split; [apply elem_of_seq; lia|]. by replace (p + N.of_nat (N.to_nat (x - p))) with x by lia.
Qed.

Lemma range_freed_stable F s s' p n b : released F s s' → range_freed s' p n b ↔ range_freed s p n b.
Proof. intros Hr. unfold range_freed. by setoid_rewrite (rl_pinned _ _ _ Hr). Qed.

Lemma pins_tracked_stable F s s' : released F s s' → pins_tracked pinned rc_root s → pins_tracked pinned rc_root s'.
Proof. intros Hr Hpt Hz b. rewrite (rl_pinned _ _ _ Hr). by apply Hpt. Qed.

(** ** The inline extents *)
Definition past (nb : N) (l : list Extent) (s : FState X) (b : N) : Prop :=
  ∃ e, e ∈ l ∧ range_freed s (tail_of nb e).1 (tail_of nb e).2 b.

Lemma past_cons nb e l s b : past nb (e :: l) s b ↔ range_freed s (tail_of nb e).1 (tail_of nb e).2 b ∨ past nb l s b.
Proof. unfold past. setoid_rewrite elem_of_cons. naive_solver. Qed.

(** One extent; what is freed is its tail. *)
Lemma free_tail_ok nb e s ls :
  base s → pins_tracked pinned rc_root s → ext_ok e → (∀ x y, maps [e] x y → y < bpg ∧ ¬ meta s y) → nb < logical_start e + ext_len e →
  ∃ s', free_range_birth_aware bitmap cs_root rc_root ls (tail_of nb e).1 (tail_of nb e).2 s = (inr (), s') ∧ finode s' = finode s ∧
    released (range_freed s (tail_of nb e).1 (tail_of nb e).2) s s'.
Proof.
  intros Hb Hpt (H1 & H2 & H3) Hm Hlt.
  assert (∀ y, in_range (tail_of nb e).1 (tail_of nb e).2 y = true → y < bpg ∧ ¬ meta s y) as Ht.
  { intros y (x & _ & Hx)%tail_of_maps. by apply (Hm x). }
  assert (0 < (tail_of nb e).2) as Hn.
  { unfold tail_of. destruct (N.leb_spec nb (logical_start e)); [done|]. rewrite (proj2 (N.ltb_lt _ _)) by done. cbn. lia. }
  apply free_range_ok; [done|done| |done|].
  - destruct (Ht ((tail_of nb e).1 + (tail_of nb e).2 - 1)) as [? _]; [apply in_range_iff; lia|lia].
  - intros b Hb'. apply Ht. by apply in_range_iff.
Qed.

Lemma truncate_inline_ok nb l s :
  base s → pins_tracked pinned rc_root s → Forall ext_ok l → (∀ x y, maps l x y → y < bpg ∧ ¬ meta s y) →
  ∃ s', truncate_inline bitmap cs_root rc_root nb l s = (inr (concat (map (head_of nb) l)), s') ∧ finode s' = finode s ∧
    released (past nb l s) s s'.
Proof.
  revert s. induction l as [|e l IH]; intros s Hb Hpt Hok Hm; cbn [truncate_inline map concat].
  { exists s. split; [done|]. split; [done|]. apply released_none; [done|]. by intros b (e & ?%not_elem_of_nil & _). }
  apply Forall_cons in Hok as [He Hok]. pose proof He as (H1 & H2 & H3).
  assert (∀ x y, maps [e] x y → y < bpg ∧ ¬ meta s y) as Hme by (intros x y Hx; apply (Hm x), maps_cons; by left).
  assert (∀ x y, maps l x y → y < bpg ∧ ¬ meta s y) as Hml by (intros x y Hx; apply (Hm x), maps_cons; by right).
  assert (∀ s1, finode s1 = finode s → released (range_freed s (tail_of nb e).1 (tail_of nb e).2) s s1 →
    ∃ s', truncate_inline bitmap cs_root rc_root nb l s1 = (inr (concat (map (head_of nb) l)), s') ∧ finode s' = finode s ∧
      released (past nb (e :: l) s) s s') as Hrest.
  { intros s1 Hi1 Hr1. destruct (IH s1) as (s' & E & Hi & Hr); [apply Hr1|by eapply pins_tracked_stable|done| |].
    - intros x y Hx. destruct (Hml x y Hx). split; [done|]. by rewrite (rl_meta _ _ _ Hr1).
    - exists s'. split; [done|]. split; [congruence|]. eapply released_iff; [|by eapply released_trans].
      intros b. rewrite past_cons. unfold past. by setoid_rewrite (range_freed_stable _ _ _ _ _ _ Hr1). }
  unfold head_of at 1. destruct (N.leb_spec nb (logical_start e)) as [Hle|Hgt].
  - destruct (free_tail_ok nb e s (logical_start e)) as (s1 & E1 & Hi1 & Hr1); [done|done|done|done|lia|].
    destruct (Hrest s1 Hi1 Hr1) as (s' & E & Hr). exists s'. split; [|done].
    unfold tail_of in E1. rewrite (proj2 (N.leb_le _ _) Hle) in E1. by rewrite (em_bind_ok _ _ _ _ _ E1).
  - rewrite wadd64_small by lia. destruct (N.ltb_spec nb (logical_start e + ext_len e)) as [Hlt|Hge].
    + destruct (free_tail_ok nb e s (logical_start e + (nb - logical_start e))) as (s1 & E1 & Hi1 & Hr1); [done|done|done|done|lia|].
      destruct (Hrest s1 Hi1 Hr1) as (s' & E & Hr). exists s'. split; [|done].
      unfold tail_of in E1. rewrite (proj2 (N.leb_gt _ _) Hgt), (proj2 (N.ltb_lt _ _) Hlt) in E1. cbn [fst snd] in E1.
      rewrite wadd64_small by lia. by rewrite (em_bind_ok _ _ _ _ _ E1), (em_bind_ok _ _ _ _ _ E).
    + destruct (Hrest s) as (s' & E & Hr); [done| |exists s'; split; [by rewrite (em_bind_ok _ _ _ _ _ E)|done]].
      apply released_none; [done|]. intros b [Hin _]. unfold tail_of in Hin.
      rewrite (proj2 (N.leb_gt _ _) Hgt), (proj2 (N.ltb_ge _ _) Hge), in_range_iff in Hin. cbn in Hin. lia.
Qed.

Lemma set_inode_released s i : base s → released (λ _, False) s (mkFS (fctx s) i (fenv s)).
Proof.
  intros [O1 O2 O3 O4 O5 O6 O7 O8]. destruct (env_frame s (fctx s) i) as (Hm & Hp & Hr); [done|done|].
  split; [|cbn; tauto|exact Hm|exact Hp|done|exact Hr].
  split; [done|done|intros b ?%Hm; auto|intros b Hb; apply Hm; auto|by apply Hm|done|done|done].
Qed.

(** ** The whole operation *)
Section shrink.
Context (s : FState X) (new_size : N) (Hf : fok s []) (Hroot : spill_extent_root (finode s) = 0).
Context (Hc : compression_algo (finode s) = 0) (Hpt : pins_tracked pinned rc_root s) (Hless : new_size < isize (finode s)).
#[local] Abbreviation nb := (div_ceil new_size BS).
#[local] Abbreviation exts := (extents (finode s)).

Lemma base_of_ok : base s.
Proof. destruct (fo_env _ _ _ _ _ _ _ Hf) as [O1 O2 O3 O4 O5 O6 O7 O8]. by split. Qed.

Lemma all_inline : all_exts (finode s) [] = exts.
Proof. unfold all_exts. cbn. by rewrite app_nil_r. Qed.

Lemma truncate_file_ok :
  ∃ s', truncate_file bitmap cs_root rc_root new_size s = (inr (), s') ∧
    finode s' = with_size new_size (with_extents (concat (map (head_of nb) exts)) (finode s)) ∧ released (past nb exts s) s s'.
Proof.
  unfold truncate_file. rewrite get_inode_bind, Hc. cbn [N.eqb negb]. rewrite (proj2 (N.leb_gt _ _) Hless). cbv zeta.
  destruct (truncate_inline_ok nb exts s base_of_ok Hpt) as (s1 & E & Hi & Hr).
  { rewrite <- all_inline. apply Hf. }
  { intros x y Hm. rewrite <- all_inline in Hm. destruct (fo_data _ _ _ _ _ _ _ Hf x y Hm) as (? & _ & ?). done. }
  rewrite (em_bind_ok _ _ _ _ _ E), Hroot. cbn [N.eqb]. rewrite (em_bind_ok (mret ()) _ s1 () s1 eq_refl).
  eexists. split; [done|]. cbn [finode]. rewrite Hi. split; [done|].
  eapply released_iff; [|eapply released_trans; [exact Hr|apply set_inode_released, Hr]]. intros b. cbn. tauto.
Qed.

Lemma past_maps b : past nb exts s b → ∃ x, nb <= x ∧ maps exts x b.
Proof.
  intros (e & He & [(x & Hx & Hm)%tail_of_maps _]). exists x. split; [done|].
  destruct Hm as (e' & ->%list_elem_of_singleton & Hm). by exists e.
Qed.

(** No run past the new end holds a pinned block next to one that is not. *)
Definition unmixed : Prop :=
  ∀ e b b', e ∈ exts → in_range (tail_of nb e).1 (tail_of nb e).2 b = true → in_range (tail_of nb e).1 (tail_of nb e).2 b' = true →
    pinned s b = pinned s b'.

Lemma past_iff b : unmixed → past nb exts s b ↔ ∃ x, nb <= x ∧ maps exts x b ∧ pinned s b = false.
Proof.
  intros Hu. split.
  - intros Hp. destruct (past_maps b Hp) as (x & Hx & Hm). exists x. split_and!; [done|done|].
    destruct Hp as (e & He & Hin & b' & Hin' & <-). by apply (Hu e).
  - intros (x & Hx & (e & He & Hm) & Hp). assert (in_range (tail_of nb e).1 (tail_of nb e).2 b = true) as Hin.
    { apply tail_of_maps. exists x. split; [done|]. exists e. split; [by left|done]. }
    exists e. split; [done|]. split; [done|]. by exists b.
Qed.

Lemma shrunk_ok s' :
  unmixed → finode s' = with_size new_size (with_extents (concat (map (head_of nb) exts)) (finode s)) →
  released (past nb exts s) s s' → fok s' [].
Proof.
  intros Hu Hi [R1 R2 R3 R4 R5 R6]. split.
  - destruct R1 as [O1 O2 O3 O4 O5 O6 O7 O8]. split; try done. intros b. rewrite R4. intros Hp.
    destruct (eo_pinned _ _ _ _ _ (fo_env _ _ _ _ _ _ _ Hf) b Hp) as [Hlt Hub]. split; [done|]. apply R2. split; [done|].
    intros (x & _ & _ & Hpf)%past_iff; [congruence|done].
  - unfold tree_rep. rewrite Hi. cbn. by rewrite Hroot.
  - unfold all_exts. rewrite Hi. cbn. rewrite app_nil_r. apply head_of_exts. rewrite <- all_inline. apply Hf.
  - intros x y. unfold all_exts. rewrite Hi. cbn. rewrite app_nil_r, head_of_maps, <- all_inline. intros [Hm Hx].
    destruct (fo_data _ _ _ _ _ _ _ Hf x y Hm) as (Hlt & Hub & Hnm). split_and!; [done| |by rewrite R3].
    apply R2. split; [done|]. intros (x' & Hx' & Hm')%past_maps. rewrite <- all_inline in Hm'.
    pose proof (maps_inj _ x x' y (xo_phys _ (fo_exts _ _ _ _ _ _ _ Hf) y) Hm Hm'). lia.
  - rewrite Hi. cbn. pose proof (head_of_length nb exts). pose proof (fo_slots _ _ _ _ _ _ _ Hf). lia.
Qed.


(** A truncation that cuts off a run in which one block is pinned and
    another is not frees the pinned block: [is_range_pinned] asks whether the
    whole run is pinned, and anything else is freed. The block is still pinned
    by the share that holds it. *)
Theorem truncate_frees_pinned e b b' :
  e ∈ exts → in_range (tail_of nb e).1 (tail_of nb e).2 b = true → in_range (tail_of nb e).1 (tail_of nb e).2 b' = true →
  pinned s b = true → pinned s b' = false →
  ∃ s', truncate_file bitmap cs_root rc_root new_size s = (inr (), s') ∧ pinned s' b = true ∧
    fused s b = true ∧ fused s' b = false.
Proof.
  intros He Hb Hb' Hp Hp'. destruct truncate_file_ok as (s' & E & Hi & Hr). exists s'.
  split_and!; [done|by rewrite (rl_pinned _ _ _ Hr)| |].
  - by apply (eo_pinned _ _ _ _ _ (fo_env _ _ _ _ _ _ _ Hf)).
  - destruct (fused s' b) eqn:Eu; [|done]. apply (rl_used _ _ _ Hr) in Eu as [_ Hn]. exfalso. apply Hn. exists e.
    split; [done|]. split; [done|]. by exists b'.
Qed.
End shrink.
End roots.
End file_trunc.

(** ** Witnesses *)
(** A file of two blocks, 4 and 5; a share pins the first. *)
Definition shared_disk : Disk := mkDisk (λ b, Some (if b =? 1 then x33 :: replicate 4095 x00 else old_block)) 0 (0, 0, 0).
Definition shared_file (pins : list N) : FState REnv :=
  mkFS (ctx_new shared_disk (tx_new 1 0)) (mkInode 5 8192 0 0 [mkExt 0 4 2] 0) (mkREnv ∅ [] pins).

Lemma shared_file_ok pins : pins = [] ∨ pins = [4] → file_ok 1 16 (ref_meta 1 16) ref_pinned ref_rep (shared_file pins) [].
Proof.
  intros Hpins. assert (∀ b, ∃ buf, read_block (fctx (shared_file pins)) b = Some buf ∧ length buf = BLOCK_SIZE) as Hrd.
  { intros b. exists (if b =? 1 then x33 :: replicate 4095 x00 else old_block). split; [done|].
    destruct (b =? 1); [done|apply length_replicate]. }
  assert (∀ b, ref_meta 1 16 (shared_file pins) b → b = 0 ∨ b = 1) as Hme.
  { intros b [(i & Hi & ->)|[->|[m Hm]]]; [|by left|done]. change (div_ceil 16 BITS) with 1 in Hi. right. lia. }
  split; [|done| | |unfold MAX_INLINE_EXTENTS; cbn; lia].
  - split; [intros i _; apply Hrd|intros b _; apply Hrd| |by left|by right; left| |done|done].
    + intros b [->| ->]%Hme; done.
    + intros b Hb. destruct Hpins as [->| ->]; [done|]. unfold ref_pinned in Hb. cbn [shared_file fenv pins existsb] in Hb.
      rewrite orb_false_r in Hb. apply N.eqb_eq in Hb as ->. done.
  - change (all_exts _ _) with [mkExt 0 4 2]. split; [repeat constructor; cbn; done|intros z; rewrite covl_one; destruct (in_log _ _); cbn; lia|].
    intros z. rewrite covp_one. destruct (in_phys _ _); cbn; lia.
  - intros x y. unfold all_exts. cbn [shared_file finode extents map app]. rewrite maps_one, in_log_iff. cbn. intros [Hx ->].
    assert (x = 0 ∨ x = 1) as [->| ->] by lia; (split_and!; [done|done|]; by intros [?|?]%Hme).
Qed.


Lemma truncate_frees_pinned_witness :
  ∃ s', truncate_file (CS:=N * block) (H:=block) 1 0 7 0 (shared_file [4]) = (inr (), s') ∧ ref_pinned s' 4 = true ∧
    used (fctx (shared_file [4])) 1 4 = true ∧ used (fctx s') 1 4 = false.
Proof.
  apply (truncate_frees_pinned 1 16 (ref_meta 1 16) ref_pinned ref_rep 0 7 (shared_file [4]) 0 (shared_file_ok [4] (or_intror eq_refl))
    eq_refl eq_refl ltac:(done) eq_refl (mkExt 0 4 2) 4 5); [by left|done|done|done|done].
Defined.
