(* ===== verification/FileFaults.v ===== *)
(** * Where the file operations go wrong

    Runs of the operations on the reference environment that end in a state
    their comments rule out. *)
From S2P Require Import Prelude OrdMap Transaction Allocator Extents FileModel FileSpec FileRef FileMap FileData FileTrunc.
From Stdlib Require Import NArith ZArith Lia Strings.Byte.
From stdpp Require Import base numbers gmap option list.
#[local] Open Scope N_scope.

#[local] Abbreviation block := (list byte).
#[local] Abbreviation ref_read off n := (read_file (CS:=N * block) (H:=block) 0 0 false off n).
#[local] Abbreviation ref_truncate n := (truncate_file (CS:=N * block) (H:=block) 1 0 0 n).

(** A byte written into a hole of an empty file: the read before it returns what
    the block held before it was allocated, not zeros. *)
Theorem partial_write_shows_old_block :
  ∃ s', write_file (CS:=N * block) (H:=block) 1 16 0 0 0 false false 10 [x01] test_file = (inr (), s') ∧
    ref_read 0 11 s' = (inr (replicate 10 x5a ++ [x01]), s').
Proof. eexists. split; vm_compute; reflexivity. Qed.

(** A file cut to 100 bytes and extended again shows the bytes that were cut. *)
Theorem shrink_grow_shows_old_bytes :
  ∃ s1 s2, ref_truncate 100 (shared_file []) = (inr (), s1) ∧ ref_truncate 200 s1 = (inr (), s2) ∧
    ref_read 100 100 s2 = (inr (replicate 100 x5a), s2).
Proof. eexists _, _. split; [vm_compute; reflexivity|]. split; vm_compute; reflexivity. Qed.

(** ** Spilled extents *)
(** Inline blocks 4 to 10, and the extent tree in block 15 that maps block 20 of
    the file to block 14. *)
Definition spilled_disk : Disk := mkDisk (λ b, Some (if b =? 1 then xf3 :: xc7 :: replicate 4094 x00 else old_block)) 0 (0, 0, 0).
Definition spilled_file (inline : list Extent) : FState REnv :=
  mkFS (ctx_new spilled_disk (tx_new 1 0)) (mkInode 5 86016 0 0 inline 15) (mkREnv {[15 := [(20, mkETV 14 1)]]} [] []).
Definition seven : list Extent := map (λ i, mkExt (2 * i) (4 + i) 1) [0; 1; 2; 3; 4; 5; 6].

(** Truncation frees the blocks of a spilled extent past the new end but
    leaves the extent in the tree: the file still maps a block that the
    allocator hands to the next caller, and a write through that mapping
    changes the other owner's data. *)
Theorem spilled_extent_outlives_truncate :
  ∃ s1 s2 s3, ref_truncate 0 (spilled_file seven) = (inr (), s1) ∧
    get_physical_block (CS:=N * block) (H:=block) 20 s1 = (inr 14, s1) ∧ used (fctx s1) 1 14 = false ∧
    falloc 1 16 (Hinted 1 13) s1 = (inr 14, s2) ∧
    write_file (CS:=N * block) (H:=block) 1 16 0 0 0 false false 81920 [x01] s2 = (inr (), s3) ∧
    read_block (fctx s2) 14 = Some old_block ∧ read_block (fctx s3) 14 = Some (x01 :: replicate 4095 x5a).
Proof. eexists _, _, _. split_and!; [vm_compute; reflexivity..]. Qed.

(** Preallocation looks at the inline extents only: block 20, mapped by the
    tree, gets a second block that hides its contents. *)
Theorem preallocate_hides_spilled_block :
  ∃ s', preallocate 1 16 20 21 (spilled_file [mkExt 0 4 1]) = (inr (), s') ∧
    ref_read 81920 2 (spilled_file [mkExt 0 4 1]) = (inr [x5a; x5a], spilled_file [mkExt 0 4 1]) ∧
    ref_read 81920 2 s' = (inr [x00; x00], s').
Proof. eexists. split_and!; [vm_compute; reflexivity..]. Qed.

(** Punching the middle of one of seven inline extents needs an eighth slot. *)
Theorem punch_hole_overflows :
  ∃ s', punch_hole 1 1 2 (mkFS (ctx_new spilled_disk (tx_new 1 0)) (mkInode 5 86016 0 0 (mkExt 0 4 3 :: map (λ i, mkExt (2 * i) (6 + i) 1) [2; 3; 4; 5; 6; 7]) 0)
      (mkREnv ∅ [] [])) = (inl FPanic, s').
Proof. eexists. vm_compute. reflexivity. Qed.
