(* ===== verification/BTreeModel.v ===== *)
(** * The on-disk B+ tree of [lionfs/src/btree/tree.rs]

    Every operation of [BTree<K, V>]: node reads and stamped writes, descent,
    lookup, floor, in-order iteration, insertion with its two cached fast
    paths, leaf and internal splits with the stable root, removal, and the
    path-copying pass that keeps snapshot views apart from the live tree.

    Nodes are typed: a node holds its header and either the key/value pairs of
    a leaf ([level == 0]) or the leftmost pointer and the separators of an
    internal node; [item_count] is the length of the list. Where nodes live is
    an interface, [NodeStore]. The state also carries the two global counters
    ([NODE_GEN], [TREE_EPOCH]) and the handle's own fields. *)
From S2P Require Import Prelude OrdMap.
From Stdlib Require Import NArith ZArith Lia.
From stdpp Require Import base numbers gmap option list.
#[local] Open Scope nat_scope.

(** [BTREE_PAYLOAD_SIZE]: a block without the 64-byte header. *)
Definition BTREE_PAYLOAD_SIZE : nat := 4032.

(** [BTreeNodeHeader] (without the magic and the checksum, which decide
    whether a block is a node at all) and payload. *)
Inductive Payload (K V : Type) :=
  | PLeaf (items : list (K * V))
  | PInternal (level : N) (leftmost : N) (items : list (K * N)).
Arguments PLeaf {K V} items.
Arguments PInternal {K V} level leftmost items.

Record BTNode (K V : Type) := mkNode {
  node_type : N; generation : N; parent_block : N; next_leaf : N; prev_leaf : N;
  payload : Payload K V
}.
Arguments mkNode {K V} _ _ _ _ _ _.
Arguments node_type {K V} _.
Arguments generation {K V} _.
Arguments parent_block {K V} _.
Arguments next_leaf {K V} _.
Arguments prev_leaf {K V} _.
Arguments payload {K V} _.

(** What the tree asks of the transaction context: reading a block that holds
    a node with a valid magic and checksum ([None]: the read or the check
    fails), writing one, the live snapshot barrier ([cow_barrier_of]) and the
    root cells ([effective_root], [set_root_cell]). *)
Class NodeStore (S K V : Type) := {
  ns_read : S → N → option (BTNode K V);
  ns_write : N → BTNode K V → S → S;
  ns_barrier : S → N;
  ns_root : S → N → N → N;
  ns_set_root : N → N → S → S
}.

(** The laws the theorems use. *)
Class NodeStoreLaws S K V `{NodeStore S K V} : Prop := {
  read_write s b n b' : ns_read (ns_write b n s) b' = if decide (b = b') then Some n else ns_read s b';
  read_set_root s t r b : ns_read (ns_set_root t r s) b = ns_read s b;
  barrier_write s b n : ns_barrier (ns_write b n s) = ns_barrier s;
  barrier_set_root s t r : ns_barrier (ns_set_root t r s) = ns_barrier s;
  root_write s b n t d : ns_root (ns_write b n s) t d = ns_root s t d;
  root_set_root s t r d : ns_root (ns_set_root t r s) t d = r;
  root_idem s t d : ns_root s t (ns_root s t d) = ns_root s t d
}.

(** [size_of::<KVPair<K, V>>()] and [size_of::<KPtrPair<K>>()] *)
Class PodSizes (K V : Type) := { kv_size : nat; kptr_size : nat }.

Inductive io_error :=
  | InvalidData      (* a block that is not a node of this tree *)
  | OutOfMemory      (* the allocator failed, or [remove] needed one *)
  | Panicked         (* an index out of range *)
  | LevelOverflow    (* a root above level 65535: not modelled *)
  | OutOfFuel.

Section btree.
Context {K V S : Type} `{!OrdKey K, !PodSizes K V, !NodeStore S K V}.
#[local] Abbreviation node := (BTNode K V).

(** ** State and effects *)
Record FastLeaf := mkFastLeaf { fl_block : N; fl_last_key : K; fl_count : nat; fl_epoch : N }.
Record RangeLeaf := mkRangeLeaf { rl_block : N; rl_min : K; rl_max : K; rl_count : nat; rl_epoch : N }.

Record BTree := mkBTree {
  root_block : N; tree_type : N; fast_leaf : option FastLeaf; range_leaf : option RangeLeaf; frozen_view : bool
}.

Definition btree_new (root nt : N) : BTree := mkBTree root nt None None false.
Definition btree_new_frozen (root nt : N) : BTree := mkBTree root nt None None true.

Record St := mkSt { store : S; node_gen : N; epoch : N; self : BTree }.

Definition M (A : Type) : Type := St → (io_error + A) * St.
#[export] Instance M_ret : MRet M := λ A x s, (inr x, s).
#[export] Instance M_bind : MBind M := λ A B f m s,
  match m s with (inr x, s') => f x s' | (inl e, s') => (inl e, s') end.
Definition raise {A} (e : io_error) : M A := λ s, (inl e, s).
Definition gets {A} (f : St → A) : M A := λ s, (inr (f s), s).
Definition modify (f : St → St) : M unit := λ s, (inr (), f s).

Definition on_store (f : S → S) (s : St) : St := mkSt (f s.(store)) s.(node_gen) s.(epoch) s.(self).
Definition on_self (f : BTree → BTree) (s : St) : St := mkSt s.(store) s.(node_gen) s.(epoch) (f s.(self)).
Definition set_root (r : N) (t : BTree) : BTree :=
  mkBTree r t.(tree_type) t.(fast_leaf) t.(range_leaf) t.(frozen_view).
Definition set_fast (f : option FastLeaf) (t : BTree) : BTree :=
  mkBTree t.(root_block) t.(tree_type) f t.(range_leaf) t.(frozen_view).
Definition set_range (r : option RangeLeaf) (t : BTree) : BTree :=
  mkBTree t.(root_block) t.(tree_type) t.(fast_leaf) r t.(frozen_view).

(** [bump_epoch], [current_epoch], [node_gen_next] *)
Definition bump_epoch : M unit := modify (λ s, mkSt s.(store) s.(node_gen) (wadd64 s.(epoch) 1) s.(self)).
Definition current_epoch : M N := gets epoch.
Definition node_gen_next : M N := λ s,
  let g := wadd64 s.(node_gen) 1 in (inr g, mkSt s.(store) g s.(epoch) s.(self)).

(** [node_gen_init] (at mount), [node_gen_current], [node_gen_stamp] *)
Definition node_gen_init (floor : N) : M unit :=
  modify (λ s, mkSt s.(store) (N.max s.(node_gen) floor) s.(epoch) s.(self)).
Definition node_gen_current : M N := gets node_gen.
Definition node_gen_stamp : M N := node_gen_next.

Definition is_frozen_tree (nt : N) : bool := bool_decide (nt ∈ [1; 2; 3; 5; 13]%N).

Definition cow_barrier_of : M N := gets (λ s, ns_barrier s.(store)).

Definition max_leaf_items : nat := BTREE_PAYLOAD_SIZE / kv_size.
Definition max_internal_items : nat := (BTREE_PAYLOAD_SIZE - 8) / kptr_size.

Definition item_count (n : node) : nat :=
  match n.(payload) with PLeaf items => length items | PInternal _ _ items => length items end.
Definition max_items (n : node) : nat :=
  match n.(payload) with PLeaf _ => max_leaf_items | PInternal _ _ _ => max_internal_items end.
Definition level (n : node) : N := match n.(payload) with PLeaf _ => 0 | PInternal l _ _ => l end.

(** [BTreeNodeData::new], with the payload of its level. *)
Definition node_new (nt : N) (p : Payload K V) : node := mkNode nt 0 0 0 0 p.
Definition set_payload (p : Payload K V) (n : node) : node :=
  mkNode n.(node_type) n.(generation) n.(parent_block) n.(next_leaf) n.(prev_leaf) p.
Definition set_parent (b : N) (n : node) : node :=
  mkNode n.(node_type) n.(generation) b n.(next_leaf) n.(prev_leaf) n.(payload).
Definition set_next (b : N) (n : node) : node :=
  mkNode n.(node_type) n.(generation) n.(parent_block) b n.(prev_leaf) n.(payload).
Definition set_prev (b : N) (n : node) : node :=
  mkNode n.(node_type) n.(generation) n.(parent_block) n.(next_leaf) b n.(payload).
Definition set_generation (g : N) (n : node) : node :=
  mkNode n.(node_type) g n.(parent_block) n.(next_leaf) n.(prev_leaf) n.(payload).

(** [view_root] *)
Definition view_root : M N :=
  gets (λ s, if s.(self).(frozen_view) then s.(self).(root_block)
             else ns_root s.(store) s.(self).(tree_type) s.(self).(root_block)).

(** [read_node] *)
Definition read_node (b : N) : M node := λ s,
  match ns_read s.(store) b with
  | None => (inl InvalidData, s)
  | Some n =>
      if (n.(node_type) =? s.(self).(tree_type))%N && (item_count n <=? max_items n) then (inr n, s)
      else (inl InvalidData, s)
  end.

(** [if let Ok(node) = self.read_node(..)] *)
Definition try_read (b : N) : M (option node) := λ s,
  match read_node b s with (inr n, s') => (inr (Some n), s') | (inl _, s') => (inr None, s') end.

(** [write_node]: stamps the node with a fresh generation. *)
Definition write_node (b : N) (n : node) : M unit :=
  g ← node_gen_next; modify (on_store (ns_write b (set_generation g n))).

(** [init_empty] *)
Definition init_empty (root nt : N) : M unit :=
  bump_epoch ;; modify (on_store (ns_write root (node_new nt (PLeaf [])))).

(** [binary_search_by(|kv| kv.key.cmp(key))] on a sorted slice: [inl] the
    index of the key, [inr] where it would be inserted. *)
Fixpoint binary_search {A} (key : K) (l : list (K * A)) : nat + nat :=
  match l with
  | [] => inr 0
  | (k, _) :: l =>
      match kcmp key k with
      | Lt => inr 0
      | Eq => inl 0
      | Gt => match binary_search key l with inl i => inl (Datatypes.S i) | inr i => inr (Datatypes.S i) end
      end
  end.

(** The child loop of every descent. *)
Fixpoint route (key : K) (next : N) (items : list (K * N)) : N :=
  match items with
  | [] => next
  | (k, ptr) :: items => if kleb k key then route key ptr items else next
  end.

(** ** Reads *)
Fixpoint lookup_from (fuel : nat) (key : K) (b : N) : M (option V) :=
  match fuel with
  | 0 => raise OutOfFuel
  | Datatypes.S fuel =>
      n ← read_node b;
      match n.(payload) with
      | PLeaf items =>
          match binary_search key items with
          | inl i => mret (snd <$> items !! i)
          | inr _ => mret None
          end
      | PInternal _ leftmost items => lookup_from fuel key (route key leftmost items)
      end
  end.

Definition btree_lookup (fuel : nat) (key : K) : M (option V) := r ← view_root; lookup_from fuel key r.

Fixpoint lookup_floor_from (fuel : nat) (key : K) (b : N) : M (option (K * V)) :=
  match fuel with
  | 0 => raise OutOfFuel
  | Datatypes.S fuel =>
      n ← read_node b;
      match n.(payload) with
      | PLeaf items =>
          match binary_search key items with
          | inl i => mret (items !! i)
          | inr 0 => mret None
          | inr (Datatypes.S i) => mret (items !! i)
          end
      | PInternal _ leftmost items => lookup_floor_from fuel key (route key leftmost items)
      end
  end.

Definition lookup_floor (fuel : nat) (key : K) : M (option (K * V)) :=
  r ← view_root; lookup_floor_from fuel key r.

Fixpoint collect_pairs (fuel : nat) (b : N) (out : list (K * V)) : M (list (K * V)) :=
  match fuel with
  | 0 => raise OutOfFuel
  | Datatypes.S fuel =>
      n ← read_node b;
      match n.(payload) with
      | PLeaf items => mret (out ++ items)
      | PInternal _ leftmost items =>
          out ← collect_pairs fuel leftmost out;
          (fix go (l : list (K * N)) (out : list (K * V)) : M (list (K * V)) :=
             match l with
             | [] => mret out
             | (_, ptr) :: l => out ← collect_pairs fuel ptr out; go l out
             end) items out
      end
  end.

Definition iter_all (fuel : nat) : M (list (K * V)) := r ← view_root; collect_pairs fuel r [].

Fixpoint validate_node (fuel : nat) (b : N) : M N :=
  match fuel with
  | 0 => raise OutOfFuel
  | Datatypes.S fuel =>
      n ← read_node b;
      match n.(payload) with
      | PLeaf _ => mret 1%N
      | PInternal _ leftmost items =>
          c ← (if (leftmost =? 0)%N then mret 1%N else c ← validate_node fuel leftmost; mret (1 + c)%N);
          (fix go (l : list (K * N)) (count : N) : M N :=
             match l with
             | [] => mret count
             | (_, ptr) :: l =>
                 c ← (if (ptr =? 0)%N then mret count else c ← validate_node fuel ptr; mret (count + c)%N);
                 go l c
             end) items c
      end
  end.

Definition validate (fuel : nat) : M N := r ← gets (λ s, s.(self).(root_block)); validate_node fuel r.

(** ** Insertion *)

(** The allocator closure of the caller. *)
Context (allocate_block : S → (io_error + N) * S).

Definition alloc : M N := λ s,
  let '(r, st) := allocate_block s.(store) in (r, mkSt st s.(node_gen) s.(epoch) s.(self)).

(** A node the live snapshots may reach. *)
Definition leaf_frozen (barrier nt : N) (n : node) : bool :=
  ((0 <? barrier) && is_frozen_tree nt && (n.(generation) <=? barrier))%N.

(** The in-place update through [range_leaf]; [true] when it is done. *)
Definition try_inplace (key : K) (value : V) : M bool :=
  t ← gets self;
  e ← current_epoch;
  match t.(range_leaf) with
  | None => mret false
  | Some rl =>
      if (kleb rl.(rl_min) key && kleb key rl.(rl_max) && (0 <? rl.(rl_count)) && (rl.(rl_epoch) =? e)%N)%bool then
        n ← try_read rl.(rl_block);
        barrier ← cow_barrier_of;
        let hit :=
          n ← n;
          match n.(payload) with
          | PLeaf items =>
              if (length items =? rl.(rl_count)) && negb (leaf_frozen barrier t.(tree_type) n) then
                match binary_search key items with
                | inl i => Some (set_payload (PLeaf (<[i:=(key, value)]> items)) n)
                | inr _ => None
                end
              else None
          | PInternal _ _ _ => None
          end in
        match hit with
        | Some n => write_node rl.(rl_block) n ;; mret true
        | None => modify (on_self (set_range None)) ;; mret false
        end
      else mret false
  end.

(** The append through [fast_leaf]. *)
Definition try_append (key : K) (value : V) : M bool :=
  t ← gets self;
  e ← current_epoch;
  match t.(fast_leaf) with
  | None => mret false
  | Some fl =>
      if (kltb fl.(fl_last_key) key && (0 <? fl.(fl_count)) && (fl.(fl_count) <? max_leaf_items - 1)
          && (fl.(fl_epoch) =? e)%N)%bool then
        n ← try_read fl.(fl_block);
        barrier ← cow_barrier_of;
        let hit :=
          n ← n;
          match n.(payload) with
          | PLeaf items =>
              if length items =? fl.(fl_count) then
                '(lk, _) ← items !! (fl.(fl_count) - 1);
                match kcmp lk fl.(fl_last_key) with
                | Eq => if leaf_frozen barrier t.(tree_type) n then None
                        else Some (set_payload (PLeaf (items ++ [(key, value)])) n)
                | _ => None
                end
              else None
          | PInternal _ _ _ => None
          end in
        match hit with
        | Some n =>
            write_node fl.(fl_block) n ;;
            modify (on_self (set_fast (Some (mkFastLeaf fl.(fl_block) key (item_count n) fl.(fl_epoch))))) ;;
            mret true
        | None => modify (on_self (set_fast None)) ;; mret false
        end
      else mret false
  end.

(** The descent: the path from the root (last block first), the leaf and
    whether every step took the rightmost child. *)
Fixpoint find_leaf (fuel : nat) (key : K) (b : N) (path : list N) (rightmost : bool)
    : M (node * list N * bool) :=
  match fuel with
  | 0 => raise OutOfFuel
  | Datatypes.S fuel =>
      n ← read_node b;
      let path := b :: path in
      match n.(payload) with
      | PLeaf _ => mret (n, path, rightmost)
      | PInternal _ leftmost items =>
          let rightmost := match last items with
                           | Some (k, _) => if kltb key k then false else rightmost
                           | None => rightmost
                           end in
          find_leaf fuel key (route key leftmost items) path rightmost
      end
  end.

(** [replace_child_ptr] *)
Definition replace_child_ptr (old new : N) (n : node) : node :=
  match n.(payload) with
  | PLeaf _ => n
  | PInternal l leftmost items =>
      let swap p := if (p =? old)%N then new else p in
      set_payload (PInternal l (swap leftmost) (map (λ kv, (kv.1, swap kv.2)) items)) n
  end.

(** [cow_descent_path], on the path from the root; [effective] is in reverse. *)
Fixpoint cow_path (barrier : N) (path : list N) (effective : list N) : M (list N) :=
  match path with
  | [] => mret effective
  | orig :: path =>
      n ← read_node orig;
      if (barrier <? n.(generation))%N then cow_path barrier path (orig :: effective)
      else
        copy ← alloc;
        match effective with
        | [] =>
            write_node copy n ;;
            modify (on_self (set_root copy)) ;;
            t ← gets self;
            modify (on_store (ns_set_root t.(tree_type) copy)) ;;
            cow_path barrier path [copy]
        | parent :: _ =>
            write_node copy (set_parent parent n) ;;
            p ← read_node parent;
            write_node parent (replace_child_ptr orig copy p) ;;
            cow_path barrier path (copy :: effective)
        end
  end.

Definition cow_descent_path (path : list N) : M (list N) :=
  barrier ← cow_barrier_of; cow_path barrier path [].

(** The path copy both mutations run before touching the leaf. *)
Definition cow_if_needed (path : list N) : M (list N) :=
  barrier ← cow_barrier_of;
  t ← gets self;
  if ((0 <? barrier)%N && is_frozen_tree t.(tree_type))%bool then cow_descent_path (rev path) else mret path.

(** [insert_into_parent] with [parent_block == 0]: the left half moves to a
    fresh block and the taller root takes the old root's block. *)
Definition reparent_if (from to b : N) : M unit :=
  c ← read_node b;
  if (c.(parent_block) =? from)%N then write_node b (set_parent to c) else mret ().

Fixpoint each {A} (f : A → M unit) (l : list A) : M unit :=
  match l with [] => mret () | x :: l => f x ;; each f l end.

Definition split_root (left_block : N) (key : K) (right_block : N) : M unit :=
  moved ← alloc;
  n ← read_node left_block;
  let moved_node := set_parent left_block n in
  (match moved_node.(payload) with
   | PLeaf _ =>
       r ← read_node right_block;
       let r := set_parent left_block r in
       write_node right_block (if (r.(prev_leaf) =? left_block)%N then set_prev moved r else r)
   | PInternal _ leftmost items =>
       r ← read_node right_block;
       write_node right_block (set_parent left_block r) ;;
       reparent_if left_block moved leftmost ;;
       each (λ kv, reparent_if left_block moved kv.2) items
   end) ;;
  write_node moved moved_node ;;
  t ← gets self;
  if (level moved_node =? 65535)%N then raise LevelOverflow
  else write_node left_block (node_new t.(tree_type) (PInternal (level moved_node + 1) moved [(key, right_block)])).

(** [insert_into_parent] on the remaining path (nearest ancestor first). *)
Fixpoint insert_into_parent (parent left_block : N) (key : K) (right_block : N) (path : list N) : M unit :=
  if (parent =? 0)%N then split_root left_block key right_block
  else
    p ← read_node parent;
    match p.(payload) with
    | PLeaf _ => raise InvalidData
    | PInternal l leftmost old_items =>
        let count := length old_items in
        let i := match binary_search key old_items with inl i => i + 1 | inr i => i end in
        let items := take i old_items ++ (key, right_block) :: drop i old_items in
        if max_internal_items - 1 <=? count then
          right_internal ← alloc;
          let mid := (count + 1) / 2 in
          match items !! mid with
          | None => raise Panicked
          | Some (promote, ptr) =>
              t ← gets self;
              let right_items := drop (mid + 1) items in
              write_node right_internal
                (set_parent p.(parent_block) (node_new t.(tree_type) (PInternal l ptr right_items))) ;;
              write_node parent (set_payload (PInternal l leftmost (take mid items)) p) ;;
              (let reparent b := c ← read_node b; write_node b (set_parent right_internal c) in
               reparent ptr ;; each (λ kv, reparent kv.2) right_items) ;;
              match path with
              | [] => split_root parent promote right_internal
              | pp :: path => insert_into_parent pp parent promote right_internal path
              end
          end
        else write_node parent (set_payload (PInternal l leftmost items) p)
    end.

(** [split_leaf] *)
Definition split_leaf (leaf_block : N) (leaf : node) (path : list N) : M unit :=
  bump_epoch ;;
  modify (on_self (λ t, set_range None (set_fast None t))) ;;
  right_block ← alloc;
  (if (leaf.(next_leaf) =? 0)%N then mret ()
   else
     old_next ← try_read leaf.(next_leaf);
     match old_next with
     | Some o => if (o.(prev_leaf) =? leaf_block)%N then write_node leaf.(next_leaf) (set_prev right_block o)
                 else mret ()
     | None => mret ()
     end) ;;
  match leaf.(payload) with
  | PInternal _ _ _ => raise InvalidData
  | PLeaf items =>
      let mid := length items / 2 in
      match drop mid items with
      | [] => raise Panicked
      | (promote, v) :: rest =>
          t ← gets self;
          write_node right_block
            (set_prev leaf_block (set_next leaf.(next_leaf) (node_new t.(tree_type) (PLeaf ((promote, v) :: rest))))) ;;
          write_node leaf_block (set_payload (PLeaf (take mid items)) (set_next right_block leaf)) ;;
          match path with
          | [] => insert_into_parent 0 leaf_block promote right_block []
          | pp :: path => insert_into_parent pp leaf_block promote right_block path
          end
      end
  end.

(** [refresh_fast_leaf_if_rightmost] and the range cache. *)
Definition refresh_caches (b : N) (rightmost : bool) (items : list (K * V)) : M unit :=
  e ← current_epoch;
  match head items, last items with
  | Some (lo, _), Some (hi, _) =>
      modify (on_self (λ t,
        set_range (Some (mkRangeLeaf b lo hi (length items) e))
          (if rightmost then set_fast (Some (mkFastLeaf b hi (length items) e)) t else t)))
  | _, _ => mret ()
  end.

(** [insert]: a full leaf is split and the insertion retried. *)
Fixpoint btree_insert (tries fuel : nat) (key : K) (value : V) : M unit :=
  match tries with
  | 0 => raise OutOfFuel
  | Datatypes.S tries =>
      hit ← try_inplace key value;
      if (hit : bool) then mret ()
      else
        hit ← try_append key value;
        if (hit : bool) then mret ()
        else
          r ← view_root;
          modify (on_self (set_root r)) ;;
          '(leaf, path, rightmost) ← find_leaf fuel key r [] true;
          path ← cow_if_needed path;
          match path, leaf.(payload) with
          | b :: path, PLeaf items =>
              if max_leaf_items - 1 <=? length items then
                split_leaf b leaf path ;; btree_insert tries fuel key value
              else
                let items := match binary_search key items with
                             | inl i => <[i:=(key, value)]> items
                             | inr i => take i items ++ (key, value) :: drop i items
                             end in
                write_node b (set_payload (PLeaf items) leaf) ;;
                refresh_caches b rightmost items
          | _, _ => raise Panicked
          end
  end.

(** [remove_inner], under [remove] (with an allocator that always fails) and
    [remove_with_alloc]; [merge] is a stub that does nothing. *)
Definition remove_inner (fuel : nat) (key : K) : M bool :=
  bump_epoch ;;
  modify (on_self (λ t, set_range None (set_fast None t))) ;;
  r ← view_root;
  modify (on_self (set_root r)) ;;
  '(leaf, path, _) ← find_leaf fuel key r [] true;
  path ← cow_if_needed path;
  match path, leaf.(payload) with
  | b :: _, PLeaf items =>
      match binary_search key items with
      | inl i => write_node b (set_payload (PLeaf (take i items ++ drop (i + 1) items)) leaf) ;; mret true
      | inr _ => mret false
      end
  | _, _ => raise Panicked
  end.
End btree.
Arguments BTree : clear implicits.
Arguments St : clear implicits.
