(* ===== verification/BTreeShape.v ===== *)
(** * Shapes of on-disk B+ trees

    A shape is the tree a root block stands for: block numbers, items and
    separators. [real] says a store holds a shape, [shape_wf] is the search
    tree invariant, [entries] the ordered map the shape represents. A context
    (a list of frames) is a shape with a hole, as a descent path sees it. Only
    payloads matter: generations, parent and sibling pointers do not. *)
From S2P Require Import Prelude OrdMap BTreeModel.
From Stdlib Require Import NArith ZArith Lia.
From stdpp Require Import base numbers gmap option list.
#[local] Open Scope nat_scope.

(** Conjunction over a list, usable under nested recursion. *)
Definition all {A} (P : A → Prop) (l : list A) : Prop := foldr (λ x r, P x ∧ r) True l.

Lemma all_Forall {A} (P : A → Prop) l : all P l ↔ Forall P l.
Proof. induction l; cbn; [done|]. by rewrite Forall_cons, IHl. Qed.

Lemma all_app {A} (P : A → Prop) l l' : all P (l ++ l') ↔ all P l ∧ all P l'.
Proof. by rewrite !all_Forall, Forall_app. Qed.

(** A search among keys below and keys above finds the boundary. *)
Lemma binary_search_place {K A} `{OrdKey K} (p : K) (l l' : list (K * A)) :
  Forall (λ q, klt q.1 p) l → Forall (λ q, klt p q.1) l' → binary_search p (l ++ l') = inr (length l).
Proof.
  intros Hl Hl'. induction Hl as [|[k v] l Hk _ IH]; cbn in *.
  - destruct Hl' as [|[k v] l' Hk _]; [done|]. cbn in *. unfold klt in Hk. by rewrite Hk.
  - by rewrite (proj2 (kcmp_gt p k) Hk), IH.
Qed.

Section shape.
Context {K V : Type} `{!OrdKey K, !PodSizes K V}.

Inductive shape :=
  | SLeaf (b : N) (items : list (K * V))
  | SNode (b : N) (l : N) (lft : shape) (kids : list (K * shape)).

Section shape_ind.
Variable P : shape → Prop.
Hypothesis Hleaf : ∀ b items, P (SLeaf b items).
Hypothesis Hnode : ∀ b l lft kids, P lft → Forall (λ p, P p.2) kids → P (SNode b l lft kids).

Fixpoint shape_ind' (s : shape) : P s :=
  match s with
  | SLeaf b items => Hleaf b items
  | SNode b l lft kids =>
      Hnode b l lft kids (shape_ind' lft)
        ((fix go (kids : list (K * shape)) : Forall (λ p, P p.2) kids :=
            match kids with
            | [] => Forall_nil_2 _
            | p :: kids => Forall_cons_2 _ _ _ (shape_ind' p.2) (go kids)
            end) kids)
  end.
End shape_ind.

Definition sblock (s : shape) : N := match s with SLeaf b _ => b | SNode b _ _ _ => b end.
Definition slevel (s : shape) : N := match s with SLeaf _ _ => 0 | SNode _ l _ _ => l end.

Fixpoint entries (s : shape) : list (K * V) :=
  match s with
  | SLeaf _ items => items
  | SNode _ _ lft kids => entries lft ++ concat (map (λ p, entries p.2) kids)
  end.

Fixpoint blocks (s : shape) : list N :=
  match s with
  | SLeaf b _ => [b]
  | SNode b _ lft kids => b :: blocks lft ++ concat (map (λ p, blocks p.2) kids)
  end.

Definition kid_ptrs (kids : list (K * shape)) : list (K * N) := map (λ p, (p.1, sblock p.2)) kids.

(** [f]: the payload of each block. *)
Fixpoint real (f : N → option (Payload K V)) (s : shape) : Prop :=
  match s with
  | SLeaf b items => f b = Some (PLeaf items)
  | SNode b l lft kids =>
      f b = Some (PInternal l (sblock lft) (kid_ptrs kids)) ∧ real f lft ∧ all (λ p, real f p.2) kids
  end.

Definition kid_entries (kids : list (K * shape)) : list (K * V) := concat (map (λ p, entries p.2) kids).
Definition kid_blocks (kids : list (K * shape)) : list N := concat (map (λ p, blocks p.2) kids).

(** ** Key intervals: [lo <= k < hi] *)
Definition above (lo : option K) (k : K) : Prop := from_option (λ l, kleb l k = true) True lo.
Definition sabove (lo : option K) (k : K) : Prop := from_option (λ l, klt l k) True lo.
Definition below (hi : option K) (k : K) : Prop := from_option (λ h, klt k h) True hi.

Definition hi_of (kids : list (K * shape)) (hi : option K) : option K :=
  match kids with [] => hi | (k, _) :: _ => Some k end.

(** Separators increase strictly, lie inside the node's interval, and each
    child's keys lie between its separator and the next. *)
Fixpoint shape_wf (lo hi : option K) (s : shape) : Prop :=
  match s with
  | SLeaf _ items =>
      om_ok items ∧ Forall (λ p, above lo p.1 ∧ below hi p.1) items ∧ length items ≤ max_leaf_items
  | SNode _ _ lft kids =>
      shape_wf lo (hi_of kids hi) lft ∧
      (fix go (kids : list (K * shape)) : Prop :=
         match kids with
         | [] => True
         | (k, c) :: kids =>
             sabove lo k ∧ below (hi_of kids hi) k ∧ shape_wf (Some k) (hi_of kids hi) c ∧ go kids
         end) kids ∧
      length kids ≤ max_internal_items
  end.

Fixpoint kids_wf (lo hi : option K) (kids : list (K * shape)) : Prop :=
  match kids with
  | [] => True
  | (k, c) :: kids =>
      sabove lo k ∧ below (hi_of kids hi) k ∧ shape_wf (Some k) (hi_of kids hi) c ∧ kids_wf lo hi kids
  end.

Lemma shape_wf_node lo hi b l lft kids :
  shape_wf lo hi (SNode b l lft kids) ↔
  shape_wf lo (hi_of kids hi) lft ∧ kids_wf lo hi kids ∧ length kids ≤ max_internal_items.
Proof.
  cbn [shape_wf].
  match goal with |- _ ∧ ?g kids ∧ _ ↔ _ => assert (∀ ks, g ks ↔ kids_wf lo hi ks) as Hgo end.
  { induction ks as [|[k c] ks IH]; [done|]. cbn [kids_wf]. by rewrite <- IH. }
  by rewrite Hgo.
Qed.

(** ** Intervals of entries *)
Lemma above_trans lo k k' : above lo k → kleb k k' = true → above lo k'.
Proof.
  destruct lo as [l|]; [|done]. cbn. intros H1 H2. apply kleb_true in H2 as [H2| ->]; [|done].
  apply klt_kleb. by eapply kle_lt_trans.
Qed.

Lemma sabove_above lo k : sabove lo k → above lo k.
Proof. destruct lo; [|done]. cbn. apply klt_kleb. Qed.

Lemma above_sabove lo k k' : above lo k → klt k k' → sabove lo k'.
Proof. destruct lo; [|done]. cbn. apply kle_lt_trans. Qed.

Lemma sabove_trans lo k k' : sabove lo k → kleb k k' = true → sabove lo k'.
Proof. destruct lo; [|done]. cbn. apply klt_le_trans. Qed.

Lemma below_trans hi k k' : below hi k' → kleb k k' = true → below hi k.
Proof. destruct hi; [|done]. cbn. intros ? ?. by eapply kle_lt_trans. Qed.

(** [hi_of] and concatenation: the next separator is the first one there. *)
Lemma hi_of_app pre suf hi : hi_of (pre ++ suf) hi = hi_of pre (hi_of suf hi).
Proof. by destruct pre. Qed.

Lemma kids_wf_app lo hi pre suf :
  kids_wf lo hi (pre ++ suf) ↔ kids_wf lo (hi_of suf hi) pre ∧ kids_wf lo hi suf.
Proof.
  induction pre as [|[k c] pre IH]; cbn [app kids_wf]; [tauto|]. rewrite hi_of_app, IH. tauto.
Qed.

(** Every separator is below the node's upper bound. *)
Lemma kids_wf_below lo hi kids : kids_wf lo hi kids → ∀ k, below (hi_of kids hi) k → below hi k.
Proof.
  induction kids as [|[k c] kids IH]; [done|]. intros (_ & Hb & _ & Hk) k' Hk'.
  apply IH; [done|]. cbn in Hk'. eapply below_trans; [exact Hb|]. by apply klt_kleb.
Qed.

(** The separators after the first are above it. *)
Lemma kids_wf_raise lo hi k c kids : kids_wf lo hi ((k, c) :: kids) → kids_wf (Some k) hi kids.
Proof.
  intros (_ & Hb & _ & Hk). revert k c Hb. induction kids as [|[k' c'] kids IH]; [done|].
  intros k c Hb. destruct Hk as (Hs' & Hb' & Hc' & Hk). cbn in Hb. cbn [kids_wf].
  split_and!; [done|done|done|]. apply (IH Hk k c). eapply below_trans; [exact Hb'|]. by apply klt_kleb.
Qed.

Definition in_interval (lo hi : option K) (k : K) : Prop := above lo k ∧ below hi k.

Lemma kids_entries_interval lo hi kids k0 :
  (Forall (λ p, ∀ lo hi, shape_wf lo hi p.2 → Forall (λ q, in_interval lo hi q.1) (entries p.2)) kids) →
  kids_wf lo hi kids → below (hi_of kids hi) k0 →
  Forall (λ q, klt k0 q.1 ∧ sabove lo q.1 ∧ below hi q.1) (kid_entries kids).
Proof.
  intros Hall. revert k0. induction Hall as [|[k c] kids Hc _ IH]; intros k0 Hkids Hk0; [constructor|].
  pose proof Hkids as (Hlo & Hb & Hwc & Hk). unfold kid_entries. cbn. apply Forall_app. split.
  - eapply Forall_impl; [by apply Hc|]. intros q [Hq1 Hq2]. cbn in Hq1, Hk0. split_and!.
    + by eapply klt_le_trans.
    + by eapply sabove_trans.
    + by eapply kids_wf_below.
  - apply IH; [done|]. eapply below_trans; [exact Hb|]. by apply klt_kleb.
Qed.

Lemma shape_entries_interval s lo hi : shape_wf lo hi s → Forall (λ q, in_interval lo hi q.1) (entries s).
Proof.
  revert lo hi. induction s as [b items|b l lft kids IHl IHk] using shape_ind'; intros lo hi Hwf.
  - by destruct Hwf as (_ & ? & _).
  - apply shape_wf_node in Hwf as (Hl & Hk & _). cbn [entries]. apply Forall_app. split.
    + eapply Forall_impl; [by apply IHl|]. intros q [? ?]. split; [done|]. by eapply kids_wf_below.
    + destruct kids as [|[k c] kids]; [constructor|]. inversion IHk as [|? ? Hc Hks]; subst. cbn in Hc.
      pose proof Hk as (Hlo & Hb & Hwc & Hk'). cbn [map concat]. apply Forall_app. split.
      * eapply Forall_impl; [by apply Hc|]. intros q [? ?]. split.
        -- apply sabove_above. by eapply sabove_trans.
        -- by eapply kids_wf_below.
      * eapply Forall_impl; [apply (kids_entries_interval lo hi kids k); [done|done|done]|].
        intros q (? & ? & ?). split; [by apply sabove_above|done].
Qed.

Lemma kids_interval lo hi kids k0 :
  kids_wf lo hi kids → below (hi_of kids hi) k0 → Forall (λ q, klt k0 q.1) (kid_entries kids).
Proof.
  intros Hk H0. eapply Forall_impl; [apply (kids_entries_interval lo hi); [|done|done]|].
  - apply Forall_forall. intros p _. intros. by apply shape_entries_interval.
  - by intros q (? & _).
Qed.

Lemma kids_entries_below lo hi kids : kids_wf lo hi kids → Forall (λ q, below hi q.1) (kid_entries kids).
Proof.
  induction kids as [|[k c] kids IH]; [constructor|]. intros (_ & Hb & Hc & Hk). unfold kid_entries. cbn.
  apply Forall_app. split; [|by apply IH]. eapply Forall_impl; [by apply shape_entries_interval|].
  intros q [_ Hq]. by eapply kids_wf_below.
Qed.

Lemma shape_entries_ok s lo hi : shape_wf lo hi s → om_ok (entries s).
Proof.
  revert lo hi. induction s as [b items|b l lft kids IHl IHk] using shape_ind'; intros lo hi Hwf.
  - by destruct Hwf.
  - apply shape_wf_node in Hwf as (Hl & Hk & _). cbn [entries].
    assert (om_ok (kid_entries kids)) as Hok.
    { clear Hl IHl. induction IHk as [|[k c] kids Hc _ IH]; [constructor|]. pose proof Hk as (_ & Hb & Hwc & Hk').
      unfold kid_entries. cbn. apply om_ok_app. split_and!; [by eapply Hc|by apply IH|].
      intros p q Hp Hq. pose proof (shape_entries_interval _ _ _ Hwc) as Hi. rewrite Forall_forall in Hi.
      destruct (Hi p Hp) as [_ Hpb]. pose proof (kids_interval _ _ _ _ Hk' Hpb) as Hki.
      rewrite Forall_forall in Hki. by apply Hki. }
    apply om_ok_app. split_and!; [by eapply IHl|done|]. intros p q Hp Hq.
    pose proof (shape_entries_interval _ _ _ Hl) as Hi. rewrite Forall_forall in Hi. destruct (Hi p Hp) as [_ Hpb].
    pose proof (kids_interval _ _ _ _ Hk Hpb) as Hki. rewrite Forall_forall in Hki. by apply Hki.
Qed.

(** ** Contexts *)
Inductive frame :=
  | FLeft (b : N) (l : N) (kids : list (K * shape))
  | FKid (b : N) (l : N) (lft : shape) (pre : list (K * shape)) (k : K) (post : list (K * shape)).

Definition plug (f : frame) (s : shape) : shape :=
  match f with
  | FLeft b l kids => SNode b l s kids
  | FKid b l lft pre k post => SNode b l lft (pre ++ (k, s) :: post)
  end.

(** Innermost frame first. *)
Definition plug_all (fs : list frame) (s : shape) : shape := foldl (λ s f, plug f s) s fs.

Definition fblock (f : frame) : N := match f with FLeft b _ _ => b | FKid b _ _ _ _ _ => b end.
Definition flevel (f : frame) : N := match f with FLeft _ l _ => l | FKid _ l _ _ _ _ => l end.
Definition fcount (f : frame) : nat :=
  match f with FLeft _ _ kids => length kids | FKid _ _ _ pre _ post => length pre + S (length post) end.

(** The entries before and after the hole. *)
Definition fpre (f : frame) : list (K * V) :=
  match f with FLeft _ _ _ => [] | FKid _ _ lft pre _ _ => entries lft ++ kid_entries pre end.
Definition fpost (f : frame) : list (K * V) :=
  match f with FLeft _ _ kids => kid_entries kids | FKid _ _ _ _ _ post => kid_entries post end.

(** The other subtrees, and the blocks of the frame. *)
Definition fsubs (f : frame) : list shape :=
  match f with FLeft _ _ kids => map snd kids | FKid _ _ lft pre _ post => lft :: map snd pre ++ map snd post end.
Definition fblocks (f : frame) : list N := fblock f :: concat (map blocks (fsubs f)).

Definition fbounds (f : frame) (i : option K * option K) : option K * option K :=
  match f with
  | FLeft _ _ kids => (i.1, hi_of kids i.2)
  | FKid _ _ _ _ k post => (Some k, hi_of post i.2)
  end.
Definition bounds (fs : list frame) : option K * option K := foldr fbounds (None, None) fs.

Definition frame_wf (i : option K * option K) (f : frame) : Prop :=
  match f with
  | FLeft _ _ kids => kids_wf i.1 i.2 kids
  | FKid _ _ lft pre k post =>
      shape_wf i.1 (hi_of pre (Some k)) lft ∧ kids_wf i.1 (Some k) pre ∧
      sabove i.1 k ∧ below (hi_of post i.2) k ∧ kids_wf i.1 i.2 post
  end ∧ fcount f ≤ max_internal_items.

Fixpoint ctx_wf (fs : list frame) : Prop :=
  match fs with [] => True | f :: fs => frame_wf (bounds fs) f ∧ ctx_wf fs end.

Lemma plug_wf i f s :
  shape_wf i.1 i.2 (plug f s) ↔ frame_wf i f ∧ shape_wf (fbounds f i).1 (fbounds f i).2 s.
Proof.
  destruct f as [b l kids|b l lft pre k post]; cbn [plug]; rewrite shape_wf_node; unfold frame_wf; cbn [fcount fbounds fst snd].
  - tauto.
  - rewrite kids_wf_app, hi_of_app, length_app. cbn [hi_of kids_wf length]. tauto.
Qed.

Lemma plug_all_wf fs s :
  shape_wf None None (plug_all fs s) ↔ ctx_wf fs ∧ shape_wf (bounds fs).1 (bounds fs).2 s.
Proof.
  revert s. induction fs as [|f fs IH]; intros s; [cbn; tauto|]. cbn [plug_all foldl ctx_wf bounds foldr].
  change (foldl _ (plug f s) fs) with (plug_all fs (plug f s)). rewrite IH, plug_wf. fold (bounds fs). tauto.
Qed.

Lemma plug_entries f s : entries (plug f s) = fpre f ++ entries s ++ fpost f.
Proof.
  destruct f; cbn; [done|]. unfold kid_entries. rewrite map_app, concat_app. cbn. by rewrite !(assoc_L (++)).
Qed.

Definition ctx_pre (fs : list frame) : list (K * V) := foldr (λ f a, a ++ fpre f) [] fs.
Definition ctx_post (fs : list frame) : list (K * V) := foldr (λ f a, fpost f ++ a) [] fs.

Lemma plug_all_entries fs s : entries (plug_all fs s) = ctx_pre fs ++ entries s ++ ctx_post fs.
Proof.
  revert s. induction fs as [|f fs IH]; intros s; [cbn; by rewrite (right_id_L [] (++))|].
  change (plug_all (f :: fs) s) with (plug_all fs (plug f s)). rewrite IH, plug_entries.
  cbn [ctx_pre ctx_post foldr]. by rewrite !(assoc_L (++)).
Qed.

(** A key in the hole's interval separates the entries around the hole. *)
Lemma frame_separates i f k :
  frame_wf i f → in_interval (fbounds f i).1 (fbounds f i).2 k →
  Forall (λ p, klt p.1 k) (fpre f) ∧ Forall (λ p, klt k p.1) (fpost f).
Proof.
  intros [Hf _] [Hlo Hhi]. destruct f as [b l kids|b l lft pre k' post]; cbn in *.
  - split; [constructor|]. by eapply kids_interval.
  - destruct Hf as (Hl & Hpre & Hk' & Hb & Hpost). split; [|by eapply kids_interval].
    apply Forall_app. split.
    + eapply Forall_impl; [by apply shape_entries_interval|]. intros q [_ Hq].
      eapply klt_le_trans; [|exact Hlo]. by apply (kids_wf_below _ (Some k') _ Hpre).
    + eapply Forall_impl; [by eapply kids_entries_below|]. intros q Hq. exact (klt_le_trans _ k' _ Hq Hlo).
Qed.

Lemma frame_bounds_inner i f k :
  frame_wf i f → in_interval (fbounds f i).1 (fbounds f i).2 k → in_interval i.1 i.2 k.
Proof.
  intros [Hf _] [Hlo Hhi]. destruct f as [b l kids|b l lft pre k' post]; cbn in *.
  - split; [done|]. by eapply kids_wf_below.
  - destruct Hf as (_ & _ & Hk' & _ & Hpost). split; [|by eapply kids_wf_below].
    apply sabove_above. by eapply sabove_trans.
Qed.

Lemma ctx_separates fs k :
  ctx_wf fs → in_interval (bounds fs).1 (bounds fs).2 k →
  Forall (λ p, klt p.1 k) (ctx_pre fs) ∧ Forall (λ p, klt k p.1) (ctx_post fs).
Proof.
  induction fs as [|f fs IH]; [by repeat constructor|]. intros [Hf Hfs] Hk. cbn [ctx_pre ctx_post foldr].
  destruct (frame_separates _ _ _ Hf Hk). destruct (IH Hfs (frame_bounds_inner _ _ _ Hf Hk)).
  split; by apply Forall_app.
Qed.

(** The operations of the ordered map act at the hole. *)
Lemma ctx_ops fs s k :
  ctx_wf fs → in_interval (bounds fs).1 (bounds fs).2 k →
  om_get k (entries (plug_all fs s)) = om_get k (entries s) ∧
  (∀ v, om_insert k v (entries (plug_all fs s)) = ctx_pre fs ++ om_insert k v (entries s) ++ ctx_post fs) ∧
  om_remove k (entries (plug_all fs s)) = ctx_pre fs ++ om_remove k (entries s) ++ ctx_post fs.
Proof.
  intros Hfs Hk. destruct (ctx_separates _ _ Hfs Hk) as [Hpre Hpost]. rewrite plug_all_entries. split_and!.
  - by rewrite om_get_app_r, om_get_app_l.
  - intros v. by rewrite om_insert_app_r, om_insert_app_l.
  - by rewrite om_remove_app_r, om_remove_app_l.
Qed.

(** ** Descent: the child the loop of [route] picks *)
Lemma route_spec key b l lft pre kids i :
  shape_wf i.1 i.2 (SNode b l lft (pre ++ kids)) → in_interval i.1 i.2 key →
  (∀ k c, last pre = Some (k, c) → kleb k key = true) →
  ∃ f s, SNode b l lft (pre ++ kids) = plug f s ∧
    route key (from_option (λ p, sblock p.2) (sblock lft) (last pre)) (kid_ptrs kids) = sblock s ∧
    in_interval (fbounds f i).1 (fbounds f i).2 key.
Proof.
  revert pre. induction kids as [|[k c] kids IH]; intros pre Hwf [Hlo Hhi] Hlast.
  - rewrite (right_id_L [] (++)). cbn [kid_ptrs map route]. destruct pre as [|[k c] pre _] using rev_ind.
    + by exists (FLeft b l []), lft.
    + exists (FKid b l lft pre k []), c. rewrite last_snoc in *. split_and!; [done|done|].
      split; [|done]. cbn. by eapply Hlast.
  - cbn [kid_ptrs map route fst snd]. destruct (kleb k key) eqn:E.
    + specialize (IH (pre ++ [(k, c)])). rewrite last_snoc, <- (assoc_L (++)) in IH. cbn in IH.
      apply IH; [done|done|]. by intros ? ? [= <- <-].
    + apply kleb_false in E. destruct pre as [|[k' c'] pre _] using rev_ind.
      * by exists (FLeft b l ((k, c) :: kids)), lft.
      * exists (FKid b l lft pre k' ((k, c) :: kids)), c'. rewrite last_snoc in *. rewrite <- (assoc_L (++)).
        split_and!; [done|done|]. split; [|done]. cbn. by eapply Hlast.
Qed.

Lemma descend key b l lft kids i :
  shape_wf i.1 i.2 (SNode b l lft kids) → in_interval i.1 i.2 key →
  ∃ f s, SNode b l lft kids = plug f s ∧ route key (sblock lft) (kid_ptrs kids) = sblock s ∧
    in_interval (fbounds f i).1 (fbounds f i).2 key.
Proof. intros Hwf Hk. apply (route_spec key b l lft [] kids i Hwf Hk). by intros ? ? [=]. Qed.

(** ** Stores that hold a context *)
Definition fptrs (f : frame) (hole : N) : N * list (K * N) :=
  match f with
  | FLeft _ _ kids => (hole, kid_ptrs kids)
  | FKid _ _ lft pre k post => (sblock lft, kid_ptrs pre ++ (k, hole) :: kid_ptrs post)
  end.

Definition fpayload (f : frame) (hole : N) : Payload K V :=
  PInternal (flevel f) (fptrs f hole).1 (fptrs f hole).2.

Definition frame_real (v : N → option (Payload K V)) (f : frame) (hole : N) : Prop :=
  v (fblock f) = Some (fpayload f hole) ∧ Forall (real v) (fsubs f).

Fixpoint ctx_real (v : N → option (Payload K V)) (fs : list frame) (hole : N) : Prop :=
  match fs with [] => True | f :: fs => frame_real v f hole ∧ ctx_real v fs (fblock f) end.

Definition ctx_blocks (fs : list frame) : list N := concat (map fblocks fs).

Lemma real_node v b l lft kids :
  real v (SNode b l lft kids) ↔
  v b = Some (PInternal l (sblock lft) (kid_ptrs kids)) ∧ real v lft ∧ Forall (λ p, real v p.2) kids.
Proof. cbn [real]. by rewrite all_Forall. Qed.

Lemma plug_real v f s : real v (plug f s) ↔ frame_real v f (sblock s) ∧ real v s.
Proof.
  unfold frame_real, fpayload. destruct f as [b l kids|b l lft pre k post]; cbn [plug]; rewrite real_node;
    cbn [fblock flevel fptrs fst snd fsubs].
  - rewrite Forall_map. tauto.
  - rewrite Forall_cons, !Forall_app, Forall_cons, !Forall_map. unfold kid_ptrs. rewrite map_app. cbn. tauto.
Qed.

Lemma sblock_plug f s : sblock (plug f s) = fblock f.
Proof. by destruct f. Qed.

Lemma plug_all_real v fs s : real v (plug_all fs s) ↔ ctx_real v fs (sblock s) ∧ real v s.
Proof.
  revert s. induction fs as [|f fs IH]; intros s; [cbn; tauto|].
  change (plug_all (f :: fs) s) with (plug_all fs (plug f s)). rewrite IH, plug_real, sblock_plug. cbn [ctx_real]. tauto.
Qed.

Lemma plug_blocks f s : blocks (plug f s) ≡ₚ fblocks f ++ blocks s.
Proof.
  destruct f as [b l kids|b l lft pre k post]; cbn [plug blocks]; unfold fblocks; cbn [fblock fsubs map concat].
  - rewrite map_map. cbn. by rewrite (comm (++) (blocks s)).
  - rewrite !map_app, !concat_app, !map_map. cbn [map concat snd app]. apply Permutation_skip.
    rewrite <- !(assoc_L (++)). by do 2 apply Permutation_app_head; apply Permutation_app_comm.
Qed.

Lemma plug_all_blocks fs s : blocks (plug_all fs s) ≡ₚ ctx_blocks fs ++ blocks s.
Proof.
  revert s. induction fs as [|f fs IH]; intros s; [done|].
  change (plug_all (f :: fs) s) with (plug_all fs (plug f s)). rewrite IH, plug_blocks.
  change (ctx_blocks (f :: fs)) with (fblocks f ++ ctx_blocks fs).
  by rewrite (comm (++) (fblocks f) (ctx_blocks fs)), <- (assoc_L (++)).
Qed.

Lemma sblock_elem s : sblock s ∈ blocks s.
Proof. destruct s; left. Qed.

(** A store that keeps the payloads of a shape's blocks also holds it. *)
Definition view_le (P : N → Prop) (v v' : N → option (Payload K V)) : Prop :=
  ∀ b p, P b → v b = Some p → v' b = Some p.

Lemma elem_of_concat_map {A} (f : A → list N) (l : list A) x b : x ∈ l → b ∈ f x → b ∈ concat (map f l).
Proof.
  intros Hx Hb. apply list_elem_of_In, in_concat. exists (f x). rewrite <- !list_elem_of_In. split; [|done].
  apply list_elem_of_fmap. by exists x.
Qed.

Lemma real_frame v v' s : view_le (.∈ blocks s) v v' → real v s → real v' s.
Proof.
  induction s as [b items|b l lft kids IHl IHk] using shape_ind'; intros Heq Hr.
  - apply Heq; [|done]. left.
  - apply real_node in Hr as (Hb & Hl & Hk). apply real_node. split_and!.
    + apply Heq; [|done]. left.
    + apply IHl; [|done]. intros b' p' Hb'. apply Heq. right. apply elem_of_app. by left.
    + rewrite Forall_forall in IHk, Hk |- *. intros p Hp. apply IHk; [done| |by apply Hk].
      intros b' p' Hb'. apply Heq. right. apply elem_of_app. right. by eapply (elem_of_concat_map (λ p, blocks p.2)).
Qed.

Lemma real_subs_frame v v' l :
  view_le (.∈ concat (map blocks l)) v v' → Forall (real v) l → Forall (real v') l.
Proof.
  intros Heq. rewrite !Forall_forall. intros Hr s Hs. eapply real_frame; [|by apply Hr].
  intros b p Hb. apply Heq. by eapply elem_of_concat_map.
Qed.

Lemma ctx_real_frame v v' fs h : view_le (.∈ ctx_blocks fs) v v' → ctx_real v fs h → ctx_real v' fs h.
Proof.
  revert h. induction fs as [|f fs IH]; intros h Heq; [done|]. intros [[Hb Hs] Hfs].
  unfold ctx_blocks in Heq. cbn in Heq. split; [split|].
  - apply Heq; [|done]. left.
  - eapply real_subs_frame; [|done]. intros b p Hb'. apply Heq. right. apply elem_of_app. by left.
  - apply IH; [|done]. intros b p Hb'. apply Heq. right. apply elem_of_app. by right.
Qed.

(** ** Balance: every level has the level number of its children plus one *)
Fixpoint balanced (s : shape) : Prop :=
  match s with
  | SLeaf _ _ => True
  | SNode _ l lft kids =>
      l = (slevel lft + 1)%N ∧ balanced lft ∧ all (λ p, slevel p.2 = slevel lft ∧ balanced p.2) kids
  end.

Definition frame_bal (f : frame) (n : N) : Prop :=
  flevel f = (n + 1)%N ∧ Forall (λ c, slevel c = n ∧ balanced c) (fsubs f).

Fixpoint ctx_bal (fs : list frame) (n : N) : Prop :=
  match fs with [] => True | f :: fs => frame_bal f n ∧ ctx_bal fs (flevel f) end.

Lemma balanced_node b l lft kids :
  balanced (SNode b l lft kids) ↔
  l = (slevel lft + 1)%N ∧ balanced lft ∧ Forall (λ p, slevel p.2 = slevel lft ∧ balanced p.2) kids.
Proof. cbn [balanced]. by rewrite all_Forall. Qed.

Lemma plug_bal f s : balanced (plug f s) ↔ frame_bal f (slevel s) ∧ balanced s.
Proof.
  unfold frame_bal. destruct f as [b l kids|b l lft pre k post]; cbn [plug]; rewrite balanced_node; cbn [flevel fsubs].
  - rewrite Forall_map. tauto.
  - rewrite Forall_cons, !Forall_app, Forall_cons, !Forall_map. cbn. split.
    + intros (-> & Hl & H1 & [Hs Hbs] & H2). rewrite Hs. tauto.
    + intros [(-> & [Hl Hbl] & H1 & H2) Hs]. rewrite Hl. tauto.
Qed.

Lemma slevel_plug f s : slevel (plug f s) = flevel f.
Proof. by destruct f. Qed.

Lemma plug_all_bal fs s : balanced (plug_all fs s) ↔ ctx_bal fs (slevel s) ∧ balanced s.
Proof.
  revert s. induction fs as [|f fs IH]; intros s; [cbn; tauto|].
  change (plug_all (f :: fs) s) with (plug_all fs (plug f s)). rewrite IH, plug_bal, slevel_plug. cbn [ctx_bal]. tauto.
Qed.

(** ** A second child at the hole *)

(** The children of a frame whose hole gets [L], followed by [R] under [p]. *)
Definition fadd (f : frame) (L : shape) (p : K) (R : shape) : shape * list (K * shape) :=
  match f with
  | FLeft _ _ kids => (L, (p, R) :: kids)
  | FKid _ _ lft pre k post => (lft, pre ++ (k, L) :: (p, R) :: post)
  end.

Lemma kids_keys_below lo hi kids : kids_wf lo hi kids → Forall (λ q, below hi q.1) kids.
Proof.
  induction kids as [|[k c] kids IH]; [constructor|]. intros (_ & Hb & _ & Hk). constructor; [|by apply IH].
  by eapply kids_wf_below.
Qed.

Lemma kids_keys_above lo hi kids k0 : kids_wf lo hi kids → below (hi_of kids hi) k0 → Forall (λ q, klt k0 q.1) kids.
Proof.
  revert k0. induction kids as [|[k c] kids IH]; intros k0; [constructor|]. intros (_ & Hb & _ & Hk) H0.
  constructor; [done|]. apply IH; [done|]. eapply below_trans; [exact Hb|]. by apply klt_kleb.
Qed.

(** The parent's search finds the place right after the hole. *)
Lemma fadd_ptrs i f L p R h :
  frame_wf i f → sabove (fbounds f i).1 p → below (fbounds f i).2 p → h = sblock L →
  sblock (fadd f L p R).1 = (fptrs f h).1 ∧
  ∃ j, binary_search p (fptrs f h).2 = inr j ∧
    take j (fptrs f h).2 ++ (p, sblock R) :: drop j (fptrs f h).2 = kid_ptrs (fadd f L p R).2.
Proof.
  intros [Hf _] Hlo Hhi ->. split; [by destruct f|].
  assert (∃ A B, (fptrs f (sblock L)).2 = A ++ B ∧ kid_ptrs (fadd f L p R).2 = A ++ (p, sblock R) :: B ∧
                 Forall (λ q, klt q.1 p) A ∧ Forall (λ q, klt p q.1) B) as (A & B & -> & -> & HA & HB).
  { destruct f as [b l kids|b l lft pre k post]; cbn in *.
    - exists [], (kid_ptrs kids). split_and!; [done|done|constructor|]. unfold kid_ptrs. apply Forall_map.
      exact (kids_keys_above _ _ _ _ Hf Hhi).
    - destruct Hf as (_ & Hpre & _ & Hkb & Hpost). exists (kid_ptrs pre ++ [(k, sblock L)]), (kid_ptrs post).
      unfold kid_ptrs. rewrite !map_app, <- !(assoc_L (++)). cbn [map app fst snd]. split_and!; [done|done| |].
      + apply Forall_app. split; [|by repeat constructor]. apply Forall_map. eapply Forall_impl; [by eapply kids_keys_below|].
        intros q Hq. cbn. eapply klt_trans; [exact Hq|done].
      + apply Forall_map. exact (kids_keys_above _ _ _ _ Hpost Hhi). }
  pose proof (binary_search_place p A B HA HB) as Hj. exists (length A). split; [done|].
  by rewrite take_app_length, drop_app_length.
Qed.

Lemma fadd_wf i f L p R :
  frame_wf i f → shape_wf (fbounds f i).1 (Some p) L → shape_wf (Some p) (fbounds f i).2 R →
  sabove (fbounds f i).1 p → below (fbounds f i).2 p →
  shape_wf i.1 (hi_of (fadd f L p R).2 i.2) (fadd f L p R).1 ∧ kids_wf i.1 i.2 (fadd f L p R).2.
Proof.
  intros [Hf _] HL HR Hlo Hhi. destruct f as [b l kids|b l lft pre k post]; cbn in *; [tauto|].
  destruct Hf as (Hl & Hpre & Hk & Hkb & Hpost). rewrite hi_of_app, kids_wf_app. cbn [hi_of kids_wf].
  split_and!; try done. eapply sabove_trans; [exact Hk|]. by apply klt_kleb.
Qed.

Lemma fadd_entries f L p R :
  entries (fadd f L p R).1 ++ kid_entries (fadd f L p R).2 = fpre f ++ (entries L ++ entries R) ++ fpost f.
Proof.
  destruct f; cbn; [by rewrite <- (assoc_L (++))|]. unfold kid_entries. rewrite map_app, concat_app. cbn.
  by rewrite <- !(assoc_L (++)).
Qed.

Lemma fadd_blocks f L p R :
  blocks (fadd f L p R).1 ++ kid_blocks (fadd f L p R).2 ≡ₚ concat (map blocks (fsubs f)) ++ blocks L ++ blocks R.
Proof.
  destruct f as [b l kids|b l lft pre k post]; cbn; unfold kid_blocks.
  - cbn. rewrite map_map. rewrite (assoc_L (++) (blocks L)). by rewrite (comm (++) (blocks L ++ blocks R)).
  - rewrite !map_app, !concat_app, !map_map. cbn. rewrite <- !(assoc_L (++)). do 2 apply Permutation_app_head.
    rewrite (assoc_L (++) (blocks L)). by rewrite (comm (++) (blocks L ++ blocks R)).
Qed.

Lemma fadd_Forall (P : shape → Prop) f L p R :
  Forall P (fsubs f) → P L → P R → P (fadd f L p R).1 ∧ Forall (λ q, P q.2) (fadd f L p R).2.
Proof.
  destruct f as [b l kids|b l lft pre k post]; cbn.
  - rewrite Forall_map. intros ? ? ?. split; [done|]. by constructor.
  - rewrite Forall_cons, Forall_app, !Forall_map. intros (? & ? & ?) ? ?. split; [done|]. apply Forall_app.
    split; [done|]. by repeat constructor.
Qed.

Lemma fadd_length f L p R : length (fadd f L p R).2 = S (fcount f).
Proof. destruct f; cbn; [done|]. rewrite length_app. cbn. lia. Qed.

(** ** A shape as its top node and its subtrees *)
Definition payload_of (s : shape) : Payload K V :=
  match s with SLeaf _ items => PLeaf items | SNode _ l lft kids => PInternal l (sblock lft) (kid_ptrs kids) end.
Definition subs (s : shape) : list shape :=
  match s with SLeaf _ _ => [] | SNode _ _ lft kids => lft :: map snd kids end.
Definition relabel (b : N) (s : shape) : shape :=
  match s with SLeaf _ items => SLeaf b items | SNode _ l lft kids => SNode b l lft kids end.

Lemma real_subs v s : real v s ↔ v (sblock s) = Some (payload_of s) ∧ Forall (real v) (subs s).
Proof.
  destruct s as [b items|b l lft kids]; [cbn [real sblock payload_of subs]; rewrite Forall_nil; tauto|].
  rewrite real_node. cbn [sblock payload_of subs]. rewrite Forall_cons, Forall_map. tauto.
Qed.

Lemma blocks_subs s : blocks s = sblock s :: concat (map blocks (subs s)).
Proof. destruct s; cbn; [done|]. by rewrite map_map. Qed.

Lemma relabel_facts b s :
  sblock (relabel b s) = b ∧ payload_of (relabel b s) = payload_of s ∧ subs (relabel b s) = subs s ∧
  entries (relabel b s) = entries s ∧ slevel (relabel b s) = slevel s ∧
  (balanced (relabel b s) ↔ balanced s) ∧ ∀ lo hi, shape_wf lo hi (relabel b s) ↔ shape_wf lo hi s.
Proof. by destruct s. Qed.

Lemma subs_wf s lo hi : shape_wf lo hi s → Forall (λ c, ∃ lo hi, shape_wf lo hi c) (subs s).
Proof.
  destruct s as [b items|b l lft kids]; [constructor|]. intros (Hl & Hk & _)%shape_wf_node. cbn.
  constructor; [by eexists _, _|]. clear Hl. apply Forall_map. induction kids as [|[k c] kids IH]; [constructor|].
  destruct Hk as (_ & _ & Hc & Hk). constructor; [by eexists _, _|by apply IH].
Qed.

(** ** The leaf a key belongs to *)
Fixpoint sleaf (key : K) (s : shape) : list (K * V) :=
  match s with
  | SLeaf _ items => items
  | SNode _ _ lft kids =>
      (fix go (kids : list (K * shape)) (cur : list (K * V)) : list (K * V) :=
         match kids with [] => cur | (k, c) :: kids => if kleb k key then go kids (sleaf key c) else cur end)
        kids (sleaf key lft)
  end.

Fixpoint pick (key : K) (cur : shape) (kids : list (K * shape)) : shape :=
  match kids with [] => cur | (k, c) :: kids => if kleb k key then pick key c kids else cur end.

Lemma sleaf_node key b l lft kids : sleaf key (SNode b l lft kids) = sleaf key (pick key lft kids).
Proof.
  cbn [sleaf]. revert lft. induction kids as [|[k c] kids IH]; intros lft; [done|]. cbn [pick].
  destruct (kleb k key); [apply IH|done].
Qed.

Lemma pick_below key cur kids k0 : Forall (λ q, klt k0 q.1) kids → kleb key k0 = true → pick key cur kids = cur.
Proof.
  destruct 1 as [|[k c] kids Hk _]; [done|]. intros Hle. cbn in *.
  by rewrite (proj2 (kleb_false k key) (kle_lt_trans _ _ _ Hle Hk)).
Qed.

(** With the separators of [pre] below [k], the choice is made at [k]. *)
Lemma pick_split key cur pre k c post :
  Forall (λ q, klt q.1 k) pre →
  pick key cur (pre ++ (k, c) :: post) = if kleb k key then pick key c post else pick key cur pre.
Proof.
  intros Hpre. revert cur. induction Hpre as [|[k' c'] pre Hk' _ IH]; intros cur; cbn in *; [done|].
  rewrite IH. destruct (kleb k key) eqn:E; [|done].
  rewrite (klt_kleb k' key); [done|]. by eapply klt_le_trans.
Qed.

Lemma sleaf_plug key i f s :
  frame_wf i f → in_interval (fbounds f i).1 (fbounds f i).2 key → sleaf key (plug f s) = sleaf key s.
Proof.
  intros [Hf _] [Hlo Hhi]. destruct f as [b l kids|b l lft pre k post]; cbn [plug]; rewrite sleaf_node; cbn in *.
  - rewrite (pick_below key s kids key); [done| |apply kleb_true; by right]. by eapply kids_keys_above.
  - destruct Hf as (_ & Hpre & _ & _ & Hpost). rewrite pick_split by exact (kids_keys_below _ (Some k) _ Hpre). rewrite Hlo.
    rewrite (pick_below key s post key); [done| |apply kleb_true; by right]. by eapply kids_keys_above.
Qed.

Lemma sleaf_plug_all key fs s :
  ctx_wf fs → in_interval (bounds fs).1 (bounds fs).2 key → sleaf key (plug_all fs s) = sleaf key s.
Proof.
  revert s. induction fs as [|f fs IH]; intros s; [done|]. intros [Hf Hfs] Hk.
  change (plug_all (f :: fs) s) with (plug_all fs (plug f s)).
  rewrite IH by (done || exact (frame_bounds_inner _ _ _ Hf Hk)). by eapply sleaf_plug.
Qed.

Lemma sleaf_fadd key i f L p R b l :
  frame_wf i f → sabove (fbounds f i).1 p → below (fbounds f i).2 p →
  in_interval (fbounds f i).1 (fbounds f i).2 key →
  sleaf key (SNode b l (fadd f L p R).1 (fadd f L p R).2) = if kleb p key then sleaf key R else sleaf key L.
Proof.
  intros [Hf _] Hp1 Hp2 [Hlo Hhi]. rewrite sleaf_node. destruct f as [b' l' kids|b' l' lft pre k post]; cbn in *.
  - destruct (kleb p key); [|done].
    rewrite (pick_below key R kids key); [done| |apply kleb_true; by right]. by eapply kids_keys_above.
  - destruct Hf as (_ & Hpre & _ & _ & Hpost). rewrite pick_split by exact (kids_keys_below _ (Some k) _ Hpre). rewrite Hlo. cbn [pick].
    destruct (kleb p key); [|done].
    rewrite (pick_below key R post key); [done| |apply kleb_true; by right]. by eapply kids_keys_above.
Qed.

Lemma sleaf_split key lo hi b l b' l' rb lft A pk c B :
  kids_wf lo hi (A ++ (pk, c) :: B) →
  sleaf key (SNode b l lft (A ++ (pk, c) :: B)) =
  if kleb pk key then sleaf key (SNode rb l' c B) else sleaf key (SNode b' l' lft A).
Proof.
  intros [HA _]%kids_wf_app. rewrite !sleaf_node, pick_split by exact (kids_keys_below _ (Some pk) _ HA). by destruct (kleb pk key).
Qed.
End shape.
Arguments shape : clear implicits.
Arguments frame : clear implicits.
#[global] Arguments shape_wf : simpl never.
#[global] Arguments real : simpl never.
#[global] Arguments balanced : simpl never.
