(* ===== verification/BTreeReads.v ===== *)
(** * Reads of the on-disk B+ tree

    On a store that holds a well-formed shape, [lookup] is the lookup of the
    ordered map [entries], [iter_all] lists it, and whatever [lookup_floor]
    returns is the floor. *)
From S2P Require Import Prelude OrdMap BTreeModel BTreeShape.
From Stdlib Require Import NArith ZArith Lia.
From stdpp Require Import base numbers gmap option list.
#[local] Open Scope nat_scope.

Section search.
Context {K A : Type} `{!OrdKey K}.
Implicit Types items : list (K * A).

(** The binary search against the operations of the ordered map. *)
Lemma binary_search_spec key items :
  match binary_search key items with
  | inl i =>
      (∃ v, items !! i = Some (key, v) ∧ om_get key items = Some v) ∧
      (∀ v, om_insert key v items = <[i:=(key, v)]> items) ∧
      om_remove key items = take i items ++ drop (i + 1) items
  | inr i =>
      om_get key items = None ∧
      (∀ v, om_insert key v items = take i items ++ (key, v) :: drop i items) ∧
      om_remove key items = items ∧ i ≤ length items
  end.
Proof.
  induction items as [|[k v] items IH]; cbn [binary_search]; [cbn; auto|].
  cbn [om_get om_insert om_remove]. destruct (kcmp key k) eqn:E.
  - apply kcmp_eq in E as ->. split_and!; [by exists v|done|done].
  - cbn. auto with lia.
  - destruct (binary_search key items) as [i|i].
    + destruct IH as ((v' & Hi & Hg) & Hins & Hrem). split_and!; [by exists v'| |].
      * intros v0. by rewrite Hins.
      * rewrite Hrem. done.
    + destruct IH as (Hg & Hins & Hrem & Hi). split_and!; [done| | |cbn; lia].
      * intros v0. by rewrite Hins.
      * by rewrite Hrem.
Qed.

Lemma om_floor_search key items :
  om_ok items →
  om_floor key items = match binary_search key items with inl i => items !! i | inr 0 => None | inr (S i) => items !! i end.
Proof.
  induction items as [|[k v] items IH]; intros Hok; [done|]. cbn [binary_search om_floor].
  pose proof Hok as [Hk Hok']%om_ok_cons. destruct (kcmp key k) eqn:E.
  - apply kcmp_eq in E as ->. rewrite (proj2 (kleb_true k k)) by (by right). cbn [lookup list_lookup].
    enough (om_floor k items = None) as -> by done. destruct Hk as [|[k' v'] items Hk' _]; [done|]. cbn in *.
    by rewrite (proj2 (kleb_false k' k) Hk').
  - by rewrite (proj2 (kleb_false k key) E).
  - apply kcmp_gt in E. rewrite (klt_kleb _ _ E), (IH Hok'). pose proof (binary_search_spec key items) as Hbs.
    destruct (binary_search key items) as [i|[|i]]; [|done|].
    + destruct Hbs as ((v' & Hi & _) & _). cbn. by rewrite Hi.
    + destruct Hbs as (_ & _ & _ & Hi). destruct (lookup_lt_is_Some_2 items i) as [p Hp]; [lia|]. cbn. by rewrite Hp.
Qed.

End search.

Section reads.
Context {K V S : Type} `{!OrdKey K, !PodSizes K V, !NodeStore S K V}.
#[local] Abbreviation state := (St K S).
Implicit Types (s : state) (sh : shape K V).

Lemma bind_ok {A B} (m : M A) (f : A → M B) s x s' :
  m s = (inr x, s') → (m ≫= f) s = f x s'.
Proof. intros H. unfold mbind, M_bind. by rewrite H. Qed.

Lemma bind_err {A B} (m : M A) (f : A → M B) s e s' :
  m s = (inl e, s') → (m ≫= f) s = (inl e, s').
Proof. intros H. unfold mbind, M_bind. by rewrite H. Qed.

(** The payload of every block that holds a node of this tree. *)
Definition view s (b : N) : option (Payload K V) :=
  n ← ns_read (store s) b; if (node_type n =? tree_type (self s))%N then Some (payload n) else None.

Definition payload_fits (p : Payload K V) : Prop :=
  match p with
  | PLeaf items => length items ≤ max_leaf_items (V:=V)
  | PInternal _ _ items => length items ≤ max_internal_items (V:=V)
  end.

Lemma read_node_ok s b p :
  view s b = Some p → payload_fits p →
  ∃ n, read_node b s = (inr n, s) ∧ payload n = p ∧ node_type n = tree_type (self s).
Proof.
  unfold view, read_node. destruct (ns_read (store s) b) as [n|]; [|done]. cbn.
  destruct (N.eqb_spec (node_type n) (tree_type (self s))) as [Ht|]; [|done]. intros [= <-] Hfit.
  exists n. split_and!; [|done|done]. cbn.
  enough ((item_count n <=? max_items n) = true) as -> by done. apply Nat.leb_le.
  unfold item_count, max_items. unfold payload_fits in Hfit. by destruct (payload n).
Qed.

Lemma shape_fits v sh lo hi :
  real v sh → shape_wf lo hi sh →
  ∃ p, v (sblock sh) = Some p ∧ payload_fits p ∧
       match sh with
       | SLeaf _ items => p = PLeaf items
       | SNode _ l lft kids => p = PInternal l (sblock lft) (kid_ptrs kids)
       end.
Proof.
  destruct sh as [b items|b l lft kids].
  - intros Hr (_ & _ & Hl). by exists (PLeaf items).
  - intros (Hr & _)%real_node (_ & _ & Hl)%shape_wf_node. eexists. split_and!; [exact Hr| |done].
    cbn. unfold kid_ptrs. by rewrite length_map.
Qed.

Definition fuel_for (fuel : nat) sh : Prop := N.to_nat (slevel sh) < fuel.

Lemma fuel_for_child fuel f sh : balanced (plug f sh) → fuel_for (Datatypes.S fuel) (plug f sh) → fuel_for fuel sh.
Proof. unfold fuel_for. intros [[Hl _] _]%plug_bal. rewrite slevel_plug, Hl. lia. Qed.

(** One step of a descent. *)
Lemma read_step s sh i key :
  real (view s) sh → shape_wf i.1 i.2 sh → balanced sh → in_interval i.1 i.2 key →
  ∃ n, read_node (sblock sh) s = (inr n, s) ∧ node_type n = tree_type (self s) ∧
    match sh with
    | SLeaf _ items => payload n = PLeaf items
    | SNode _ l lft kids =>
        ∃ f c, sh = plug f c ∧ payload n = PInternal l (sblock lft) (kid_ptrs kids) ∧
          route key (sblock lft) (kid_ptrs kids) = sblock c ∧
          real (view s) c ∧ frame_wf i f ∧ shape_wf (fbounds f i).1 (fbounds f i).2 c ∧ balanced c ∧
          in_interval (fbounds f i).1 (fbounds f i).2 key
    end.
Proof.
  intros Hr Hwf Hb Hk. destruct (shape_fits _ _ _ _ Hr Hwf) as (p & Hp & Hfit & Hsh).
  destruct (read_node_ok s _ _ Hp Hfit) as (n & Hn & Hpay & Ht). exists n. split_and!; [done|done|].
  destruct sh as [b items|b l lft kids]; [by rewrite Hpay|].
  destruct (descend key b l lft kids i Hwf Hk) as (f & c & Heq & Hroute & Hin). exists f, c.
  rewrite Heq in Hr, Hwf, Hb. apply plug_real in Hr as [_ Hr]. apply plug_wf in Hwf as [Hf Hwf].
  apply plug_bal in Hb as [_ Hb]. rewrite Hpay. by split_and!.
Qed.

Lemma lookup_from_spec s sh fuel i key :
  real (view s) sh → shape_wf i.1 i.2 sh → balanced sh → in_interval i.1 i.2 key → fuel_for fuel sh →
  lookup_from fuel key (sblock sh) s = (inr (om_get key (entries sh)), s).
Proof.
  revert sh i. induction fuel as [|fuel IH]; intros sh i Hr Hwf Hb Hk Hfuel; [unfold fuel_for in Hfuel; lia|].
  destruct (read_step s sh i key Hr Hwf Hb Hk) as (n & Hn & _ & Hsh). cbn [lookup_from].
  rewrite (bind_ok _ _ _ _ _ Hn). destruct sh as [b items|b l lft kids].
  - rewrite Hsh. pose proof (binary_search_spec key items) as Hbs. cbn [entries].
    destruct (binary_search key items) as [j|j].
    + destruct Hbs as ((v & Hj & Hg) & _). by rewrite Hj, Hg.
    + by destruct Hbs as [-> _].
  - destruct Hsh as (f & c & Heq & Hp & Hroute & Hrc & Hf & Hwc & Hbc & Hkc). rewrite Hp, Hroute.
    rewrite Heq in Hb, Hfuel |- *. rewrite (IH c _ Hrc Hwc Hbc Hkc) by (by eapply fuel_for_child).
    destruct (frame_separates _ _ _ Hf Hkc). by rewrite plug_entries, om_get_app_r, om_get_app_l.
Qed.

(** The leaf a floor lookup reaches, and its entries inside the tree. *)
Lemma lookup_floor_from_spec s sh fuel i key :
  real (view s) sh → shape_wf i.1 i.2 sh → balanced sh → in_interval i.1 i.2 key → fuel_for fuel sh →
  ∃ pre leaf post, entries sh = pre ++ leaf ++ post ∧
    Forall (λ p, klt p.1 key) pre ∧ Forall (λ p, klt key p.1) post ∧
    lookup_floor_from fuel key (sblock sh) s = (inr (om_floor key leaf), s).
Proof.
  revert sh i. induction fuel as [|fuel IH]; intros sh i Hr Hwf Hb Hk Hfuel; [unfold fuel_for in Hfuel; lia|].
  destruct (read_step s sh i key Hr Hwf Hb Hk) as (n & Hn & _ & Hsh). cbn [lookup_floor_from].
  destruct sh as [b items|b l lft kids].
  - exists [], items, []. rewrite (right_id_L [] (++)). split_and!; [done|constructor|constructor|].
    rewrite (bind_ok _ _ _ _ _ Hn), Hsh. destruct Hwf as (Hok & _). rewrite (om_floor_search _ _ Hok).
    by destruct (binary_search key items) as [j|[|j]].
  - destruct Hsh as (f & c & Heq & Hp & Hroute & Hrc & Hf & Hwc & Hbc & Hkc).
    rewrite Heq in Hb, Hfuel |- *.
    destruct (IH c _ Hrc Hwc Hbc Hkc) as (pre & leaf & post & He & H1 & H2 & Hl); [by eapply fuel_for_child|].
    destruct (frame_separates _ _ _ Hf Hkc) as [H3 H4]. exists (fpre f ++ pre), leaf, (post ++ fpost f).
    rewrite <- Heq at 2. split_and!.
    + by rewrite plug_entries, He, <- !(assoc_L (++)).
    + by apply Forall_app.
    + by apply Forall_app.
    + cbn [sblock]. rewrite (bind_ok _ _ _ _ _ Hn), Hp, Hroute. done.
Qed.

Fixpoint collect_kids (fuel : nat) (l : list (K * N)) (out : list (K * V)) : M (S:=S) (list (K * V)) :=
  match l with
  | [] => mret out
  | (_, ptr) :: l => out ← collect_pairs fuel ptr out; collect_kids fuel l out
  end.

Lemma collect_pairs_S fuel b out s n :
  read_node b s = (inr n, s) →
  collect_pairs (Datatypes.S fuel) b out s =
  match payload n with
  | PLeaf items => (inr (out ++ items), s)
  | PInternal _ leftmost items => (out ← collect_pairs fuel leftmost out; collect_kids fuel items out) s
  end.
Proof.
  intros Hn. cbn [collect_pairs]. rewrite (bind_ok _ _ _ _ _ Hn). destruct (payload n) as [items|l leftmost items]; [done|].
  unfold mbind, M_bind. destruct (collect_pairs fuel leftmost out s) as [[|out'] s']; [done|].
  revert out' s'. induction items as [|[k ptr] items IH]; intros out' s'; [done|]. cbn [collect_kids].
  unfold mbind, M_bind. destruct (collect_pairs fuel ptr out' s') as [[|out''] s'']; [done|apply IH].
Qed.

Lemma collect_pairs_spec s sh fuel i out :
  real (view s) sh → shape_wf i.1 i.2 sh → balanced sh → fuel_for fuel sh →
  collect_pairs fuel (sblock sh) out s = (inr (out ++ entries sh), s).
Proof.
  revert sh i out. induction fuel as [|fuel IH]; intros sh i out Hr Hwf Hb Hfuel; [unfold fuel_for in Hfuel; lia|].
  destruct (shape_fits _ _ _ _ Hr Hwf) as (p & Hp & Hfit & Hsh).
  destruct (read_node_ok s _ _ Hp Hfit) as (n & Hn & Hpay & _). rewrite (collect_pairs_S _ _ _ _ _ Hn), Hpay.
  destruct sh as [b items|b l lft kids]; subst p; [done|].
  apply real_node in Hr as (_ & Hrl & Hrk). apply shape_wf_node in Hwf as (Hwl & Hwk & _).
  apply balanced_node in Hb as (Hl & Hbl & Hbk). unfold fuel_for in Hfuel. cbn in Hfuel.
  rewrite (bind_ok _ _ _ _ _ (IH lft (i.1, hi_of kids i.2) out Hrl Hwl Hbl ltac:(unfold fuel_for; lia))).
  cbn [entries]. rewrite (assoc_L (++)). generalize (out ++ entries lft) as acc. clear Hwl Hrl Hp Hfit Hn Hpay.
  induction kids as [|[k c] kids IHk]; intros acc; [cbn; by rewrite (right_id_L [] (++))|].
  destruct Hwk as (_ & _ & Hwc & Hwk). apply Forall_cons in Hrk as [Hrc Hrk]. apply Forall_cons in Hbk as [[Hlc Hbc] Hbk].
  cbn [kid_ptrs map collect_kids fst snd]. cbn [snd] in Hrc, Hlc, Hbc.
  rewrite (bind_ok _ _ _ _ _ (IH c (Some k, hi_of kids i.2) acc Hrc Hwc Hbc ltac:(unfold fuel_for; lia))).
  rewrite (IHk Hrk Hwk Hbk). cbn [concat map snd]. by rewrite (assoc_L (++)).
Qed.

(** ** Trees of a handle *)
Definition root_of s : N :=
  if frozen_view (self s) then root_block (self s) else ns_root (store s) (tree_type (self s)) (root_block (self s)).

(** The handle's root holds a well-formed, balanced tree over distinct blocks. *)
Definition tree_ok s sh : Prop :=
  root_of s = sblock sh ∧ real (view s) sh ∧ shape_wf None None sh ∧ balanced sh ∧
  NoDup (blocks sh) ∧ Forall (λ b, b ≠ 0%N) (blocks sh).

Lemma view_root_ok s : view_root s = (inr (root_of s), s).
Proof. done. Qed.

Lemma lookup_spec s sh fuel key :
  tree_ok s sh → fuel_for fuel sh → btree_lookup fuel key s = (inr (om_get key (entries sh)), s).
Proof.
  intros (Hroot & Hr & Hwf & Hb & _) Hf. unfold btree_lookup. rewrite (bind_ok _ _ _ _ _ (view_root_ok s)), Hroot.
  by apply (lookup_from_spec s sh fuel (None, None)).
Qed.

Lemma iter_all_spec s sh fuel : tree_ok s sh → fuel_for fuel sh → iter_all fuel s = (inr (entries sh), s).
Proof.
  intros (Hroot & Hr & Hwf & Hb & _) Hf. unfold iter_all. rewrite (bind_ok _ _ _ _ _ (view_root_ok s)), Hroot.
  by apply (collect_pairs_spec s sh fuel (None, None) []).
Qed.

Lemma lookup_floor_spec s sh fuel key :
  tree_ok s sh → fuel_for fuel sh →
  ∃ r, lookup_floor fuel key s = (inr r, s) ∧
    (r = om_floor key (entries sh) ∨ (r = None ∧ om_get key (entries sh) = None)).
Proof.
  intros (Hroot & Hr & Hwf & Hb & _) Hf. unfold lookup_floor. rewrite (bind_ok _ _ _ _ _ (view_root_ok s)), Hroot.
  destruct (lookup_floor_from_spec s sh fuel (None, None) key Hr Hwf Hb) as (pre & leaf & post & He & H1 & H2 & Hl); [done|done|].
  eexists. split; [exact Hl|]. rewrite He, om_get_app_r, om_get_app_l by done.
  destruct (om_floor key leaf) as [p|] eqn:E.
  - left. rewrite (assoc_L (++)), om_floor_app_l, om_floor_app by (done || by rewrite E). done.
  - right. split; [done|]. by apply om_floor_None.
Qed.
End reads.
