(* ===== verification/BTreeWrites.v ===== *)
(** * Mutations of the on-disk B+ tree

    [insert] and [remove] on a store that holds a tree, against an allocator
    that hands out unused blocks: the tree stays well-formed and balanced,
    its entries become those of the ordered-map operation, and no block
    outside the descent path (or, under a snapshot barrier, no frozen block)
    changes its payload. The only errors are the allocator's. *)
From S2P Require Import Prelude OrdMap BTreeModel BTreeShape BTreeReads.
From Stdlib Require Import NArith ZArith Lia.
From stdpp Require Import base numbers gmap option list.
#[local] Open Scope nat_scope.

(** What the tree relies on from the caller's allocator. *)
Class AllocSpec {S K V} `{NodeStore S K V} (allocate_block : S → (io_error + N) * S) (in_use : S → N → Prop) : Prop := {
  in_use_write σ b n b' : in_use (ns_write b n σ) b' ↔ in_use σ b';
  in_use_set_root σ t r b : in_use (ns_set_root t r σ) b ↔ in_use σ b;
  alloc_fresh σ b σ' : allocate_block σ = (inr b, σ') → b ≠ 0%N ∧ ¬ in_use σ b ∧ in_use σ' b;
  alloc_keeps σ r σ' :
    allocate_block σ = (r, σ') →
    (∀ b, in_use σ b → in_use σ' b ∧ ∀ n, ns_read σ b = Some n → ns_read σ' b = Some n) ∧
    ns_barrier σ' = ns_barrier σ ∧ ∀ t d, ns_root σ' t d = ns_root σ t d
}.

(** A leaf holds at least four pairs, an internal node one separator (the
    smallest of the file system's trees hold 14 and 100). *)
Class SizesOk K V `{PodSizes K V} : Prop := {
  leaf_room : 4 ≤ max_leaf_items (K:=K) (V:=V);
  internal_room : 1 ≤ max_internal_items (K:=K) (V:=V)
}.

Section writes.
Context {K V S : Type} `{!OrdKey K, !PodSizes K V, !SizesOk K V, !NodeStore S K V, !NodeStoreLaws S K V}.
Context (allocate_block : S → (io_error + N) * S) (in_use : S → N → Prop).
Context `{!AllocSpec allocate_block in_use}.
#[local] Abbreviation state := (St K S).
Implicit Types (s : state) (sh L R : shape K V) (n : BTNode K V) (fs : list (frame K V)).

(** ** Total correctness up to allocator errors *)
Definition post {A} (m : M A) s (Q : A → state → Prop) : Prop :=
  match m s with
  | (inr x, s') => Q x s'
  | (inl e, _) => ∃ σ σ', allocate_block σ = (inl e, σ')
  end.

Lemma post_bind {A B} (m : M A) (f : A → M B) s Q :
  post m s (λ x s', post (f x) s' Q) → post (m ≫= f) s Q.
Proof. unfold post, mbind, M_bind. by destruct (m s) as [[e|x] s']. Qed.

Lemma post_mono {A} (m : M A) s (Q Q' : A → state → Prop) :
  post m s Q → (∀ x s', Q x s' → Q' x s') → post m s Q'.
Proof. unfold post. destruct (m s) as [[e|x] s']; auto. Qed.

Lemma post_eq {A} (m : M A) s x s' (Q : A → state → Prop) : m s = (inr x, s') → Q x s' → post m s Q.
Proof. unfold post. by intros ->. Qed.

(** ** What a step may change *)

(** Blocks in use stay in use, and outside [W] they keep their payload. *)
Record step (W : N → Prop) s s' : Prop := mkStep {
  st_self : self s' = self s;
  st_epoch : epoch s' = epoch s;
  st_barrier : ns_barrier (store s') = ns_barrier (store s);
  st_root t d : ns_root (store s') t d = ns_root (store s) t d;
  st_use b : in_use (store s) b → in_use (store s') b;
  st_view b p : in_use (store s) b → ¬ W b → view s b = Some p → view s' b = Some p
}.

Lemma step_refl W s : step W s s.
Proof. by constructor. Qed.

Lemma step_trans W W' s s1 s2 :
  step W s s1 → step W' s1 s2 → (∀ b, in_use (store s) b → W' b → W b) → step W s s2.
Proof.
  intros [A1 A2 A3 A4 A5 A6] [B1 B2 B3 B4 B5 B6] HW. constructor; try congruence; auto.
Qed.

Lemma step_weaken (W W' : N → Prop) s s' : step W s s' → (∀ b, W b → W' b) → step W' s s'.
Proof. intros H HW. eapply step_trans; [apply step_refl|exact H|auto]. Qed.

Definition keeps : state → state → Prop := step (λ _, False).

Lemma keeps_view s s' b p : keeps s s' → in_use (store s) b → view s b = Some p → view s' b = Some p.
Proof. intros H Hu. apply (st_view _ _ _ H); [done|]. by intros []. Qed.

Definition uses s (l : list N) : Prop := Forall (in_use (store s)) l.

Lemma uses_step W s s' l : step W s s' → uses s l → uses s' l.
Proof. intros H Hu. eapply Forall_impl; [exact Hu|]. apply (st_use _ _ _ H). Qed.

Lemma step_view_le W s s' l :
  step W s s' → uses s l → (∀ b, b ∈ l → ¬ W b) → view_le (.∈ l) (view s) (view s').
Proof. unfold uses. rewrite Forall_forall. intros H Hu HW b p Hb. apply (st_view _ _ _ H); auto. Qed.

(** ** The primitive operations *)
Lemma view_write s g b n b' :
  view (mkSt (ns_write b (set_generation g n) (store s)) g (epoch s) (self s)) b' =
  if decide (b = b') then if (node_type n =? tree_type (self s))%N then Some (payload n) else None
  else view s b'.
Proof. unfold view. cbn. rewrite read_write. by case_decide. Qed.

Lemma post_write b n s (Q : unit → state → Prop) :
  node_type n = tree_type (self s) →
  (∀ s', step (λ x, x = b) s s' → view s' b = Some (payload n) → Q () s') →
  post (write_node b n) s Q.
Proof.
  intros Ht HQ. eapply post_eq; [reflexivity|]. apply HQ.
  - constructor; cbn; try done.
    + by rewrite barrier_write.
    + intros t d. by rewrite root_write.
    + intros b'. by rewrite in_use_write.
    + intros b' p _ Hne Hv. unfold on_store. cbn. rewrite view_write, decide_False; [done|]. by intros ->.
  - unfold on_store. cbn. by rewrite view_write, decide_True, Ht, N.eqb_refl.
Qed.

(** Rewriting a node with its own payload changes nothing that matters. *)
Lemma post_touch b n p s (Q : unit → state → Prop) :
  node_type n = tree_type (self s) → view s b = Some p → payload n = p →
  (∀ s', keeps s s' → Q () s') → post (write_node b n) s Q.
Proof.
  intros Ht Hv Hp HQ. apply post_write; [done|]. intros s' Hs Hv'. apply HQ. destruct Hs as [? ? ? ? ? Hview].
  constructor; try done. intros b' p' Hu _ Hb'. destruct (decide (b' = b)) as [->|]; [|by apply Hview]. congruence.
Qed.

Lemma post_read b p s (Q : BTNode K V → state → Prop) :
  view s b = Some p → payload_fits p →
  (∀ n, payload n = p → node_type n = tree_type (self s) → Q n s) → post (read_node b) s Q.
Proof.
  intros Hv Hf HQ. destruct (read_node_ok s b p Hv Hf) as (n & Hn & Hp & Ht). eapply post_eq; [exact Hn|]. by apply HQ.
Qed.

Lemma post_alloc s (Q : N → state → Prop) :
  (∀ b s', keeps s s' → b ≠ 0%N → ¬ in_use (store s) b → in_use (store s') b → Q b s') →
  post (alloc allocate_block) s Q.
Proof.
  intros HQ. unfold post, alloc. destruct (allocate_block (store s)) as [[e|b] σ'] eqn:E; [by eexists _, _|].
  destruct (alloc_fresh _ _ _ E) as (Hnz & Hfr & Hu). destruct (alloc_keeps _ _ _ E) as (Hk & Hbar & Hroot).
  apply HQ; [|done|done|done]. constructor; cbn; try done.
  - intros b' Hb'. by apply Hk.
  - intros b' p Hb' _. unfold view. cbn. destruct (ns_read (store s) b') as [n|] eqn:Er; [|done].
    by rewrite (proj2 (Hk b' Hb') n Er).
Qed.

Lemma post_each {A} (f : A → M unit) (l : list A) s :
  (∀ x s1, x ∈ l → keeps s s1 → post (f x) s1 (λ _ s2, keeps s1 s2)) →
  post (each f l) s (λ _ s', keeps s s').
Proof.
  revert s. induction l as [|x l IH]; intros s Hf; [apply step_refl|]. cbn [each]. apply post_bind.
  eapply post_mono; [apply Hf; [by left|apply step_refl]|]. intros [] s1 Hs1. cbn beta.
  eapply post_mono; [apply IH|].
  - intros y s2 Hy Hs2. apply Hf; [by right|]. eapply step_trans; [exact Hs1|exact Hs2|auto].
  - intros [] s2 Hs2. eapply step_trans; [exact Hs1|exact Hs2|auto].
Qed.

(** A child whose bookkeeping fields are rewritten. *)
Definition readable s (b : N) : Prop := in_use (store s) b ∧ ∃ p, view s b = Some p ∧ payload_fits p.

Lemma readable_keeps s s' b : keeps s s' → readable s b → readable s' b.
Proof. intros H (Hu & p & Hv & Hf). split; [by apply (st_use _ _ _ H)|]. exists p. split; [|done]. by eapply keeps_view. Qed.

Lemma post_reparent_if s from to b :
  readable s b → post (reparent_if from to b) s (λ _ s', keeps s s').
Proof.
  intros (_ & p & Hv & Hf). unfold reparent_if. apply post_bind. eapply post_read; [done|done|]. intros n Hp Ht.
  case_match; [|apply step_refl]. by eapply post_touch.
Qed.

Lemma post_reparent s to b :
  readable s b → post (c ← read_node b; write_node b (set_parent to c)) s (λ _ s', keeps s s').
Proof.
  intros (_ & p & Hv & Hf). apply post_bind. eapply post_read; [done|done|]. intros n Hp Ht. by eapply post_touch.
Qed.

(** ** Growing the tree at the root *)
Definition tree s sh : Prop :=
  real (view s) sh ∧ shape_wf None None sh ∧ balanced sh ∧
  NoDup (blocks sh) ∧ Forall (λ b, b ≠ 0%N) (blocks sh) ∧ uses s (blocks sh).

(** Two neighbours [L] and [R], separated by [p], for the hole of a context
    that still points at [L] alone. *)
Record hole s (fs : list (frame K V)) L p R : Prop := mkHole {
  h_ctx_wf : ctx_wf fs;
  h_ctx_real : ctx_real (view s) fs (sblock L);
  h_ctx_bal : ctx_bal fs (slevel L);
  h_real : real (view s) L ∧ real (view s) R;
  h_bal : balanced L ∧ balanced R ∧ slevel R = slevel L;
  h_wf : shape_wf (bounds fs).1 (Some p) L ∧ shape_wf (Some p) (bounds fs).2 R;
  h_sep : sabove (bounds fs).1 p ∧ below (bounds fs).2 p;
  h_nodup : NoDup (ctx_blocks fs ++ blocks L ++ blocks R);
  h_nonzero : Forall (λ b, b ≠ 0%N) (ctx_blocks fs ++ blocks L ++ blocks R);
  h_uses : uses s (ctx_blocks fs ++ blocks L ++ blocks R)
}.

Lemma shape_readable s sh lo hi : real (view s) sh → shape_wf lo hi sh → uses s (blocks sh) → readable s (sblock sh).
Proof.
  intros Hr Hwf Hu. unfold uses in Hu. rewrite Forall_forall in Hu. split; [apply Hu, sblock_elem|].
  destruct (shape_fits _ _ _ _ Hr Hwf) as (p & Hp & Hf & _). by exists p.
Qed.

Lemma subs_readable s sh lo hi :
  real (view s) sh → shape_wf lo hi sh → uses s (blocks sh) → Forall (λ c, readable s (sblock c)) (subs sh).
Proof.
  intros [_ Hr]%real_subs Hwf%subs_wf Hu. rewrite Forall_forall in Hr, Hwf |- *. intros c Hc.
  destruct (Hwf c Hc) as (lo' & hi' & Hwc). eapply shape_readable; [by apply Hr|done|].
  unfold uses in *. rewrite Forall_forall in Hu |- *. intros b Hb. apply Hu. rewrite blocks_subs. right.
  by eapply elem_of_concat_map.
Qed.

Lemma kid_ptrs_readable s b l lft kids lo hi :
  real (view s) (SNode b l lft kids) → shape_wf lo hi (SNode b l lft kids) → uses s (blocks (SNode b l lft kids)) →
  readable s (sblock lft) ∧ ∀ q, q ∈ kid_ptrs kids → readable s q.2.
Proof.
  intros Hr Hwf Hu. pose proof (subs_readable _ _ _ _ Hr Hwf Hu) as Hs. cbn in Hs.
  apply Forall_cons in Hs as [Hl Hs]. split; [done|]. rewrite Forall_map, Forall_forall in Hs.
  intros q (x & -> & Hx)%list_elem_of_fmap. by apply Hs.
Qed.

(** The bookkeeping before the left half moves. *)
Definition split_root_touch (left_block right_block moved : N) (moved_node : BTNode K V) : M (S:=S) unit :=
  match payload moved_node with
  | PLeaf _ =>
      r ← read_node right_block;
      let r := set_parent left_block r in
      write_node right_block (if (prev_leaf r =? left_block)%N then set_prev moved r else r)
  | PInternal _ leftmost items =>
      r ← read_node right_block;
      write_node right_block (set_parent left_block r) ;;
      reparent_if left_block moved leftmost ;;
      each (λ kv, reparent_if left_block moved kv.2) items
  end.

Lemma post_split_root_touch s L R lo hi moved n :
  real (view s) L → shape_wf lo hi L → uses s (blocks L) → readable s (sblock R) → payload n = payload_of L →
  post (split_root_touch (sblock L) (sblock R) moved n) s (λ _ s', keeps s s').
Proof.
  intros HrL HwL HuL (HuR & pR & HvR & HfR) Hn. unfold split_root_touch. rewrite Hn.
  destruct L as [b items|b l lft kids]; cbn [payload_of].
  - apply post_bind. eapply post_read; [done|done|]. intros r Hr Ht. cbv zeta.
    eapply (post_touch _ _ pR); [by case_match|done|by case_match|]. done.
  - destruct (kid_ptrs_readable _ _ _ _ _ _ _ HrL HwL HuL) as [Hlft Hkids].
    apply post_bind. eapply post_read; [done|done|]. intros r Hr Ht. apply post_bind.
    eapply (post_touch _ _ pR); [done|done|done|]. intros s1 Hs1. apply post_bind.
    eapply post_mono; [apply post_reparent_if; by eapply readable_keeps|]. intros [] s2 Hs2. cbn beta.
    assert (keeps s s2) as Hs12 by (eapply step_trans; [exact Hs1|exact Hs2|auto]).
    eapply post_mono; [apply post_each|].
    + intros q s3 Hq Hs3. apply post_reparent_if. eapply readable_keeps; [exact Hs3|]. eapply readable_keeps; [exact Hs12|].
      by apply Hkids.
    + intros [] s3 Hs3. eapply step_trans; [exact Hs12|exact Hs3|auto].
Qed.

Lemma hole_fresh s fs L p R (b : N) : hole s fs L p R → ¬ in_use (store s) b → b ∉ ctx_blocks fs ++ blocks L ++ blocks R.
Proof. intros H Hfr Hb. apply Hfr. pose proof (h_uses _ _ _ _ _ H) as Hu. unfold uses in Hu. rewrite Forall_forall in Hu. by apply Hu. Qed.

Lemma level_payload (n : BTNode K V) sh : payload n = payload_of sh → level n = slevel sh.
Proof. unfold level. intros ->. by destruct sh. Qed.

(** The shape after the root has moved to [m] and grown by a level. *)
Lemma root_shape s s' L p R m :
  hole s [] L p R → m ≠ 0%N → ¬ in_use (store s) m → in_use (store s') m →
  step (λ b, b = sblock L ∨ b = m) s s' →
  view s' m = Some (payload_of L) →
  view s' (sblock L) = Some (PInternal (slevel L + 1) m [(p, sblock R)]) →
  tree s' (SNode (sblock L) (slevel L + 1) (relabel m L) [(p, R)]).
Proof.
  intros H Hnz Hfr Hu Hstep Hm Hroot. pose proof (hole_fresh _ _ _ _ _ _ H Hfr) as Hnotin.
  destruct (relabel_facts m L) as (Hb & Hp & Hsub & He & Hl & Hbal & Hwf).
  assert (blocks (relabel m L) = m :: concat (map blocks (subs L))) as Hbm by (by rewrite blocks_subs, Hb, Hsub).
  assert (blocks (SNode (sblock L) (slevel L + 1) (relabel m L) [(p, R)]) ≡ₚ m :: blocks L ++ blocks R) as Hperm.
  { cbn [blocks map concat snd]. rewrite Hbm, (right_id_L [] (++)), (blocks_subs L). cbn [app]. apply perm_swap. }
  destruct H as [_ _ _ [HrL HrR] (HbL & HbR & Hlr) [HwL HwR] _ Hnd Hz Hus].
  unfold ctx_blocks in *. cbn [map concat app] in *.
  assert (view_le (.∈ concat (map blocks (subs L)) ++ blocks R) (view s) (view s')) as Hle.
  { apply (step_view_le _ _ _ _ Hstep).
    - rewrite blocks_subs in Hus. by inversion Hus.
    - intros b Hb' [->| ->].
      + rewrite blocks_subs in Hnd. cbn in Hnd. by apply NoDup_cons in Hnd as [? _].
      + apply Hnotin. rewrite blocks_subs. right. done. }
  split_and!.
  - apply real_node. rewrite Hb. split_and!; [done| |].
    + apply real_subs. rewrite Hb, Hp, Hsub. split; [done|]. apply real_subs in HrL as [_ HrL].
      eapply real_subs_frame; [|exact HrL]. intros b q Hb'. apply Hle, elem_of_app. by left.
    + repeat constructor. cbn. eapply real_frame; [|exact HrR]. intros b q Hb'. apply Hle, elem_of_app. by right.
  - apply shape_wf_node. cbn. rewrite Hwf. split_and!; [done|done|done|done|done|apply internal_room].
  - apply balanced_node. rewrite Hl, Hbal. split_and!; [done|done|]. repeat constructor; done.
  - rewrite Hperm. constructor; [|done]. done.
  - rewrite Hperm. by constructor.
  - unfold uses. rewrite Hperm. constructor; [done|]. exact (uses_step _ _ _ _ Hstep Hus).
Qed.

Lemma post_split_root s L p R :
  hole s [] L p R → (slevel L < 65535)%N →
  post (split_root allocate_block (sblock L) p (sblock R)) s (λ _ s',
    step (λ b, b = sblock L) s s' ∧
    ∃ sh, tree s' sh ∧ sblock sh = sblock L ∧ entries sh = entries L ++ entries R ∧ (slevel sh = slevel L + 1)%N ∧
      ∀ key, sleaf key sh = if kleb p key then sleaf key R else sleaf key L).
Proof.
  intros H Hlev. unfold split_root. apply post_bind, post_alloc. intros m s1 Hs1 Hnz Hfr Hu1.
  pose proof H as [_ _ _ [HrL HrR] _ [HwL HwR] _ Hnd _ Hus]. unfold ctx_blocks in Hnd, Hus. cbn [map concat app] in Hnd, Hus.
  apply Forall_app in Hus as [HuL HuR].
  assert (real (view s1) L) as HrL1 by (eapply real_frame; [eapply step_view_le; [exact Hs1|done|by intros ? ? []]|done]).
  assert (readable s1 (sblock R)) as HR1 by (eapply readable_keeps; [exact Hs1|by eapply shape_readable]).
  destruct (shape_fits _ _ _ _ HrL1 HwL) as (pL & HvL & HfL & HpL).
  assert (pL = payload_of L) as -> by (by destruct L). apply post_bind.
  eapply post_read; [exact HvL|exact HfL|]. intros n Hn Ht. cbv zeta. apply post_bind.
  change (match payload (set_parent (sblock L) n) with PLeaf _ => _ | PInternal _ _ _ => _ end)
    with (split_root_touch (sblock L) (sblock R) m (set_parent (sblock L) n)).
  eapply post_mono; [eapply post_split_root_touch; [exact HrL1|exact HwL|by eapply uses_step|exact HR1|exact Hn]|].
  intros [] s2 Hs2. cbn beta. apply post_bind, post_write; [cbn; rewrite Ht; symmetry; f_equal; apply (st_self _ _ _ Hs2)|].
  intros s3 Hs3 Hv3. apply post_bind. eapply post_eq; [reflexivity|]. cbn beta.
  rewrite (level_payload (set_parent (sblock L) n) L Hn). rewrite (proj2 (N.eqb_neq _ _)) by lia.
  apply post_write; [done|]. intros s4 Hs4 Hv4.
  assert (m ≠ sblock L) as Hne.
  { intros ->. apply Hfr. unfold uses in HuL. rewrite Forall_forall in HuL. apply HuL, sblock_elem. }
  assert (keeps s s2) as Hs02 by (eapply step_trans; [exact Hs1|exact Hs2|auto]).
  assert (step (λ b, b = sblock L ∨ b = m) s s4) as Hs04.
  { eapply step_trans; [eapply step_trans; [eapply step_weaken; [exact Hs02|by intros ? []]|exact Hs3|auto]|exact Hs4|auto]. }
  split.
  - destruct Hs04 as [? ? ? ? ? Hv]. constructor; try done. intros b q Hb Hnb. apply Hv; [done|]. intros [->| ->]; done.
  - exists (SNode (sblock L) (slevel L + 1) (relabel m L) [(p, R)]). split_and!.
    + eapply root_shape; [exact H|done|done| |exact Hs04| |exact Hv4].
      * apply (st_use _ _ _ Hs4), (st_use _ _ _ Hs3), (st_use _ _ _ Hs2), Hu1.
      * apply (st_view _ _ _ Hs4); [|done|by rewrite Hv3, <- Hn].
        apply (st_use _ _ _ Hs3), (st_use _ _ _ Hs2), Hu1.
    + done.
    + cbn. rewrite (right_id_L [] (++)). by destruct L.
    + done.
    + intros key. rewrite sleaf_node. cbn [pick]. destruct (kleb p key); [done|]. by destruct L.
Qed.

(** ** A second child for a parent *)
Lemma perm_split {A} (x y : A) (l0 l1 l2 : list A) : l0 ++ (x :: l1) ++ (y :: l2) ≡ₚ y :: l0 ++ x :: l1 ++ l2.
Proof. by rewrite (assoc_L (++)), <- Permutation_middle, <- (assoc_L (++)). Qed.

Lemma hole_blocks (f : frame K V) fs L p R :
  ctx_blocks (f :: fs) ++ blocks L ++ blocks R ≡ₚ
  ctx_blocks fs ++ fblock f :: blocks (fadd f L p R).1 ++ kid_blocks (fadd f L p R).2.
Proof.
  change (ctx_blocks (f :: fs)) with (fblocks f ++ ctx_blocks fs). rewrite fadd_blocks.
  rewrite (comm (++) (fblocks f) (ctx_blocks fs)), <- (assoc_L (++)). done.
Qed.

(** What stays after writes to the parent and to blocks not in use before. *)
Lemma hole_rest s s' (f : frame K V) fs L p R W :
  hole s (f :: fs) L p R → step W s s' → (∀ b, in_use (store s) b → W b → b = fblock f) →
  ctx_real (view s') fs (fblock f) ∧
  real (view s') (fadd f L p R).1 ∧ Forall (λ q, real (view s') q.2) (fadd f L p R).2 ∧
  uses s' (ctx_blocks fs ++ fblock f :: blocks (fadd f L p R).1 ++ kid_blocks (fadd f L p R).2).
Proof.
  intros [_ [[_ Hsubs] Hctx] _ [HrL HrR] _ _ _ Hnd _ Hus] Hstep HW.
  assert (view_le (.∈ ctx_blocks fs ++ concat (map blocks (fsubs f)) ++ blocks L ++ blocks R) (view s) (view s')) as Hle.
  { change (ctx_blocks (f :: fs)) with (fblocks f ++ ctx_blocks fs) in Hnd, Hus.
    rewrite (comm (++) (fblocks f) (ctx_blocks fs)), <- (assoc_L (++)) in Hnd. unfold uses in Hus.
    rewrite (comm (++) (fblocks f) (ctx_blocks fs)), <- (assoc_L (++)) in Hus. unfold fblocks in Hnd, Hus. cbn [app] in Hnd, Hus.
    rewrite <- Permutation_middle in Hnd, Hus. apply NoDup_cons in Hnd as [Hnotin _]. apply Forall_cons in Hus as [_ Hus].
    apply (step_view_le _ _ _ _ Hstep Hus). intros b Hb Hw.
    unfold uses in Hus. rewrite Forall_forall in Hus. apply HW in Hw as ->; [done|by apply Hus]. }
  split_and!.
  - eapply ctx_real_frame; [|exact Hctx]. intros b q Hb. apply Hle. set_solver.
  - apply fadd_Forall.
    + eapply real_subs_frame; [|exact Hsubs]. intros b q Hb. apply Hle. set_solver.
    + eapply real_frame; [|exact HrL]. intros b q Hb. apply Hle. set_solver.
    + eapply real_frame; [|exact HrR]. intros b q Hb. apply Hle. set_solver.
  - apply (fadd_Forall (real (view s'))).
    + eapply real_subs_frame; [|exact Hsubs]. intros b q Hb. apply Hle. set_solver.
    + eapply real_frame; [|exact HrL]. intros b q Hb. apply Hle. set_solver.
    + eapply real_frame; [|exact HrR]. intros b q Hb. apply Hle. set_solver.
  - unfold uses. rewrite <- hole_blocks. eapply uses_step; [exact Hstep|done].
Qed.

Lemma hole_levels s (f : frame K V) fs L p R :
  hole s (f :: fs) L p R →
  flevel f = (slevel (fadd f L p R).1 + 1)%N ∧ balanced (fadd f L p R).1 ∧
  Forall (λ q, slevel q.2 = slevel (fadd f L p R).1 ∧ balanced q.2) (fadd f L p R).2.
Proof.
  intros [_ _ [[Hf Hsubs] _] _ (HbL & HbR & Hlr) _ _ _ _ _].
  destruct (fadd_Forall (λ c, slevel c = slevel L ∧ balanced c) f L p R Hsubs) as [[Hl Hb] Hk]; [done|done|].
  split_and!; [by rewrite Hl|done|]. eapply Forall_impl; [exact Hk|]. intros q [? ?]. by rewrite Hl.
Qed.

(** Room in the parent: one write. *)
Lemma parent_room s s' (f : frame K V) fs L p R :
  hole s (f :: fs) L p R → step (λ b, b = fblock f) s s' → fcount f < max_internal_items ->
  view s' (fblock f) = Some (PInternal (flevel f) (sblock (fadd f L p R).1) (kid_ptrs (fadd f L p R).2)) →
  tree s' (plug_all fs (SNode (fblock f) (flevel f) (fadd f L p R).1 (fadd f L p R).2)).
Proof.
  intros H Hstep Hroom Hv. destruct (hole_rest _ _ _ _ _ _ _ _ H Hstep) as (Hctx & Hr & Hrk & Hus); [by intros|].
  pose proof (hole_levels _ _ _ _ _ _ H) as Hlev.
  destruct H as [[Hf Hfs] _ [Hfb Hfsb] _ _ [HwL HwR] [Hlo Hhi] Hnd Hz _].
  destruct (fadd_wf _ _ _ _ _ Hf HwL HwR Hlo Hhi) as [Hwl Hwk].
  assert (blocks (plug_all fs (SNode (fblock f) (flevel f) (fadd f L p R).1 (fadd f L p R).2)) ≡ₚ
          ctx_blocks (f :: fs) ++ blocks L ++ blocks R) as Hperm
    by (rewrite plug_all_blocks, (hole_blocks f fs L p R); done).
  split_and!.
  - apply plug_all_real. split; [done|]. by apply real_node.
  - apply plug_all_wf. split; [done|]. apply shape_wf_node. rewrite fadd_length. split_and!; [done|done|lia].
  - apply plug_all_bal. split; [done|]. by apply balanced_node.
  - by rewrite Hperm.
  - by rewrite Hperm.
  - unfold uses. by rewrite plug_all_blocks.
Qed.

(** No room: the parent keeps the lower children and a fresh block [rb] takes
    the upper ones; the separator between them goes one level up. *)
Lemma parent_split s s' (f : frame K V) fs L p R rb A pk c B :
  hole s (f :: fs) L p R → step (λ b, b = fblock f ∨ b = rb) s s' →
  rb ≠ 0%N → ¬ in_use (store s) rb → in_use (store s') rb →
  (fadd f L p R).2 = A ++ (pk, c) :: B → length A ≤ fcount f →
  view s' (fblock f) = Some (PInternal (flevel f) (sblock (fadd f L p R).1) (kid_ptrs A)) →
  view s' rb = Some (PInternal (flevel f) (sblock c) (kid_ptrs B)) →
  hole s' fs (SNode (fblock f) (flevel f) (fadd f L p R).1 A) pk (SNode rb (flevel f) c B).
Proof.
  intros H Hstep Hnz Hfr Hu Hks Hlen Hv1 Hv2.
  destruct (hole_rest _ _ _ _ _ _ _ _ H Hstep) as (Hctx & Hr & Hrk & Hus).
  { intros b Hb [->| ->]; done. }
  pose proof (hole_levels _ _ _ _ _ _ H) as (Hlev & Hbal & Hbk). pose proof (hole_fresh _ _ _ _ _ _ H Hfr) as Hnotin.
  destruct H as [[Hf Hfs] _ [Hfb Hfsb] _ _ [HwL HwR] [Hlo Hhi] Hnd Hz _].
  destruct (fadd_wf _ _ _ _ _ Hf HwL HwR Hlo Hhi) as [Hwl Hwk]. pose proof (fadd_length f L p R) as Hlk.
  rewrite Hks in Hrk, Hbk, Hwl, Hwk, Hlk. rewrite length_app in Hlk. cbn [length] in Hlk.
  apply Forall_app in Hrk as [HrA [Hrc HrB]%Forall_cons]. apply Forall_app in Hbk as [HbA [[Hlc Hbc] HbB]%Forall_cons].
  rewrite hi_of_app in Hwl. apply kids_wf_app in Hwk as [HwA HwB]. pose proof (kids_wf_raise _ _ _ _ _ HwB) as HwB'.
  destruct HwB as (Hsep1 & Hsep2 & Hwc & HwB). cbn [fst snd hi_of] in *.
  assert (ctx_blocks fs ++ blocks (SNode (fblock f) (flevel f) (fadd f L p R).1 A) ++ blocks (SNode rb (flevel f) c B)
          ≡ₚ rb :: ctx_blocks (f :: fs) ++ blocks L ++ blocks R) as Hperm.
  { rewrite (hole_blocks f fs L p R), Hks. unfold kid_blocks. rewrite map_app, concat_app. cbn [blocks map concat snd].
    rewrite perm_split. by rewrite <- !(assoc_L (++)). }
  assert (uses s' (rb :: ctx_blocks (f :: fs) ++ blocks L ++ blocks R)) as Hus'.
  { constructor; [done|]. by rewrite (hole_blocks f fs L p R). }
  destruct Hf as [_ Hcount]. constructor.
  - done.
  - done.
  - done.
  - split; by apply real_node.
  - split_and!; [by apply balanced_node| |done]. apply balanced_node. rewrite Hlc. by split_and!.
  - split; apply shape_wf_node; split_and!; try done; lia.
  - split; [done|]. by eapply kids_wf_below.
  - rewrite Hperm. by constructor.
  - rewrite Hperm. by constructor.
  - unfold uses. by rewrite Hperm.
Qed.

(** ** Splits travelling up the path *)
Definition insert_up (path : list N) (left_block : N) (key : K) (right_block : N) : M unit :=
  match path with
  | [] => split_root allocate_block left_block key right_block
  | pp :: path => insert_into_parent allocate_block pp left_block key right_block path
  end.

Definition grown s s' fs L p R : Prop :=
  step (λ b, b = sblock L ∨ b ∈ map fblock fs) s s' ∧
  ∃ sh, tree s' sh ∧ sblock sh = sblock (plug_all fs L) ∧
    entries sh = ctx_pre fs ++ (entries L ++ entries R) ++ ctx_post fs ∧
    (slevel sh ≤ slevel (plug_all fs L) + 1)%N ∧
    ∀ key, in_interval (bounds fs).1 (bounds fs).2 key → sleaf key sh = if kleb p key then sleaf key R else sleaf key L.

(** The reparenting loop after an internal split. *)
Lemma post_reparent_all s s0 rb l c (B : list (K * shape K V)) to lo hi :
  real (view s) (SNode rb l c B) → shape_wf lo hi (SNode rb l c B) → uses s (blocks (SNode rb l c B)) → s0 = s →
  post ((let reparent b := x ← read_node b; write_node b (set_parent to x) in
         reparent (sblock c) ;; each (λ kv, reparent kv.2) (kid_ptrs B))) s0 (λ _ s', keeps s s').
Proof.
  intros Hr Hwf Hu ->. destruct (kid_ptrs_readable _ _ _ _ _ _ _ Hr Hwf Hu) as [Hc HB]. cbv zeta. apply post_bind.
  eapply post_mono; [by apply post_reparent|]. intros [] s1 Hs1. cbn beta. eapply post_mono; [apply post_each|].
  - intros q s2 Hq Hs2. apply post_reparent. eapply readable_keeps; [exact Hs2|]. eapply readable_keeps; [exact Hs1|]. by apply HB.
  - intros [] s2 Hs2. eapply step_trans; [exact Hs1|exact Hs2|auto].
Qed.

Lemma hole_keeps s s' fs L p R : hole s fs L p R → keeps s s' → hole s' fs L p R.
Proof.
  intros [H1 H2 H3 [HrL HrR] H5 H6 H7 H8 H9 Hus] Hk.
  assert (view_le (.∈ ctx_blocks fs ++ blocks L ++ blocks R) (view s) (view s')) as Hle
    by (eapply step_view_le; [exact Hk|exact Hus|by intros ? ? []]).
  constructor; try done.
  - eapply ctx_real_frame; [|done]. intros b q Hb. apply Hle. set_solver.
  - split; (eapply real_frame; [|done]); intros b q Hb; apply Hle; set_solver.
  - by eapply uses_step.
Qed.

Lemma slevel_plug_all fs L L' :
  slevel L = slevel L' → slevel (plug_all fs L) = slevel (plug_all fs L').
Proof.
  revert L L'. induction fs as [|f fs IH]; intros L L' Hl; [done|].
  apply (IH (plug f L) (plug f L')). by rewrite !slevel_plug.
Qed.

Lemma sblock_plug_all (fs : list (frame K V)) L L' :
  sblock L = sblock L' → sblock (plug_all fs L) = sblock (plug_all fs L').
Proof.
  revert L L'. induction fs as [|f fs IH]; intros L L' Hl; [done|].
  apply (IH (plug f L) (plug f L')). by rewrite !sblock_plug.
Qed.

Lemma insert_into_parent_eq (parent left_block : N) (key : K) (right_block : N) (path : list N) :
  parent ≠ 0%N →
  insert_into_parent allocate_block parent left_block key right_block path =
  (p ← read_node parent;
   match payload p with
   | PLeaf _ => raise InvalidData
   | PInternal l leftmost old_items =>
       let i := match binary_search key old_items with inl i => i + 1 | inr i => i end in
       let items := take i old_items ++ (key, right_block) :: drop i old_items in
       if max_internal_items - 1 <=? length old_items then
         right_internal ← alloc allocate_block;
         let mid := (length old_items + 1) / 2 in
         match items !! mid with
         | None => raise Panicked
         | Some (promote, ptr) =>
             t ← gets self;
             let right_items := drop (mid + 1) items in
             write_node right_internal
               (set_parent (parent_block p) (node_new (tree_type t) (PInternal l ptr right_items))) ;;
             write_node parent (set_payload (PInternal l leftmost (take mid items)) p) ;;
             (let reparent b := c ← read_node b; write_node b (set_parent right_internal c) in
              reparent ptr ;; each (λ kv, reparent kv.2) right_items) ;;
             insert_up path parent promote right_internal
         end
       else write_node parent (set_payload (PInternal l leftmost items) p)
   end).
Proof. intros Hz%N.eqb_neq. destruct path; cbn [insert_into_parent]; by rewrite Hz. Qed.

(** The full parent: two writes, the bookkeeping, and the split one level up. *)
Lemma post_split_parent s (f : frame K V) fs L p R n :
  hole s (f :: fs) L p R →
  (∀ s1 L1 p1 R1, hole s1 fs L1 p1 R1 → slevel L1 = flevel f → sblock L1 = fblock f →
     post (insert_up (map fblock fs) (sblock L1) p1 (sblock R1)) s1 (λ _ s', grown s1 s' fs L1 p1 R1)) →
  node_type n = tree_type (self s) →
  let items := kid_ptrs (fadd f L p R).2 in
  let mid := (fcount f + 1) / 2 in
  post (right_internal ← alloc allocate_block;
        match items !! mid with
        | None => raise Panicked
        | Some (promote, ptr) =>
            t ← gets self;
            let right_items := drop (mid + 1) items in
            write_node right_internal
              (set_parent (parent_block n) (node_new (tree_type t) (PInternal (flevel f) ptr right_items))) ;;
            write_node (fblock f) (set_payload (PInternal (flevel f) (sblock (fadd f L p R).1) (take mid items)) n) ;;
            (let reparent b := c ← read_node b; write_node b (set_parent right_internal c) in
             reparent ptr ;; each (λ kv, reparent kv.2) right_items) ;;
            insert_up (map fblock fs) (fblock f) promote right_internal
        end) s (λ _ s', grown s s' (f :: fs) L p R).
Proof.
  intros H IH Ht items mid. pose proof (fadd_length f L p R) as Hlk.
  assert (mid < length (fadd f L p R).2) as Hmid.
  { rewrite Hlk. unfold mid. apply Nat.Div0.div_lt_upper_bound. lia. }
  destruct (lookup_lt_is_Some_2 _ _ Hmid) as [[pk c] Hpk].
  pose proof (take_drop_middle _ _ _ Hpk) as Hks. set (A := take mid (fadd f L p R).2) in *.
  rewrite <- Nat.add_1_r in Hks. set (B := drop (mid + 1) (fadd f L p R).2) in *.
  assert (items !! mid = Some (pk, sblock c)) as -> by (unfold items, kid_ptrs; by rewrite list_lookup_fmap, Hpk).
  assert (drop (mid + 1) items = kid_ptrs B) as -> by (unfold items, kid_ptrs; by rewrite <- fmap_drop).
  assert (take mid items = kid_ptrs A) as -> by (unfold items, kid_ptrs; by rewrite <- fmap_take).
  apply post_bind, post_alloc. intros rb s1 Hs1 Hnz Hfr Hu1. apply post_bind. eapply post_eq; [reflexivity|].
  cbv beta zeta. apply post_bind, post_write; [done|]. intros s2 Hs2 Hv2. apply post_bind, post_write.
  { cbn. by rewrite Ht, (st_self _ _ _ Hs2), (st_self _ _ _ Hs1). }
  intros s3 Hs3 Hv3. pose proof H as [_ _ _ _ _ _ _ _ _ Hus].
  assert (fblock f ≠ rb) as Hne.
  { intros <-. apply Hfr. unfold uses in Hus. rewrite Forall_forall in Hus. apply Hus. left. }
  assert (step (λ b, b = fblock f ∨ b = rb) s s3) as Hs03.
  { eapply step_trans; [eapply step_trans; [eapply step_weaken; [exact Hs1|by intros ? []]|exact Hs2|auto]|exact Hs3|auto]. }
  assert (hole s3 fs (SNode (fblock f) (flevel f) (fadd f L p R).1 A) pk (SNode rb (flevel f) c B)) as H3.
  { eapply parent_split; [exact H|exact Hs03|done|done| |done| |done|].
    - apply (st_use _ _ _ Hs3), (st_use _ _ _ Hs2), Hu1.
    - unfold A. rewrite length_take. lia.
    - apply (st_view _ _ _ Hs3); [apply (st_use _ _ _ Hs2), Hu1|by intros ->|done]. }
  apply post_bind. eapply post_mono.
  { eapply post_reparent_all; [apply (h_real _ _ _ _ _ H3)|apply (h_wf _ _ _ _ _ H3)| |done].
    pose proof (h_uses _ _ _ _ _ H3) as Hu. by apply Forall_app in Hu as [_ [_ Hu]%Forall_app]. }
  intros [] s4 Hs4. cbn beta. pose proof (hole_keeps _ _ _ _ _ _ H3 Hs4) as H4.
  eapply post_mono; [apply (IH _ _ _ _ H4); done|]. intros [] s5 [Hs5 (sh & Hsh & Hb & He & Hl & Hleaf)].
  assert (step (λ b, b ∈ map fblock (f :: fs) ∨ b = rb) s s5) as Hs05.
  { eapply step_trans; [eapply step_trans; [eapply step_weaken; [exact Hs03|]|exact Hs4|by intros ? ? []]|exact Hs5|].
    - intros b [->| ->]; [left; left|by right].
    - intros b _ [->|Hb']; left; [left|by right]. }
  split.
  - destruct Hs05 as [? ? ? ? ? Hv]. constructor; try done. intros b q Hb' Hnb. apply Hv; [done|].
    intros [Hin| ->]; [|done]. apply Hnb. by right.
  - exists sh. cbn [plug_all foldl]. fold (plug_all fs (plug f L)). split_and!.
    + done.
    + rewrite Hb. apply sblock_plug_all. by rewrite sblock_plug.
    + assert (entries (SNode (fblock f) (flevel f) (fadd f L p R).1 A) ++ entries (SNode rb (flevel f) c B) =
              fpre f ++ (entries L ++ entries R) ++ fpost f) as Hent.
      { rewrite <- (fadd_entries f L p R). unfold kid_entries. rewrite <- Hks, map_app, concat_app.
        cbn [map concat snd entries]. by rewrite <- !(assoc_L (++)). }
      rewrite He, Hent. cbn [ctx_pre ctx_post foldr]. by rewrite <- !(assoc_L (++)).
    + rewrite (slevel_plug_all fs (plug f L) (SNode (fblock f) (flevel f) (fadd f L p R).1 A)); [done|]. by rewrite slevel_plug.
    + intros key Hkey. destruct H as [[Hf Hfs] _ _ _ _ [HwL HwR] [Hlo Hhi] _ _ _].
      rewrite Hleaf by exact (frame_bounds_inner _ _ _ Hf Hkey).
      rewrite <- (sleaf_fadd key _ f L p R (fblock f) (flevel f) Hf Hlo Hhi Hkey).
      destruct (fadd_wf _ _ _ _ _ Hf HwL HwR Hlo Hhi) as [_ Hwk]. rewrite <- Hks in Hwk |- *.
      by rewrite (sleaf_split key _ _ _ _ (fblock f) (flevel f) rb _ _ _ _ _ Hwk).
Qed.

Lemma post_insert_up s fs L p R :
  hole s fs L p R → (slevel (plug_all fs L) < 65535)%N →
  post (insert_up (map fblock fs) (sblock L) p (sblock R)) s (λ _ s', grown s s' fs L p R).
Proof.
  revert s L p R. induction fs as [|f fs IH]; intros s L p R H Hlev.
  - eapply post_mono; [by eapply post_split_root|]. intros [] s' [Hstep (sh & Ht & Hb & He & Hl & Hleaf)]. split.
    + eapply step_weaken; [exact Hstep|]. by left.
    + exists sh. split_and!; [done|done|by rewrite He; cbn; rewrite (right_id_L [] (++))|by rewrite Hl|by intros; apply Hleaf].
  - cbn [map insert_up]. pose proof (h_nonzero _ _ _ _ _ H) as Hz. rewrite (hole_blocks f fs L p R) in Hz.
    apply Forall_app in Hz as [_ [Hfz _]%Forall_cons]. rewrite insert_into_parent_eq by done.
    pose proof H as [[Hf Hfs] [[Hv _] _] _ _ _ _ [Hlo Hhi] _ _ _]. apply post_bind. eapply post_read; [exact Hv| |].
    { cbn. destruct Hf as [_ Hc]. etrans; [|exact Hc]. destruct f; cbn; unfold kid_ptrs; rewrite ?length_app; cbn; rewrite !length_map; lia. }
    intros n Hn Ht. rewrite Hn. unfold fpayload. cbv iota.
    destruct (fadd_ptrs _ _ L p R _ Hf Hlo Hhi eq_refl) as (Hleft & j & Hj & Hitems). rewrite Hj. cbv zeta iota beta.
    rewrite Hitems, <- Hleft.
    assert (length (fptrs f (sblock L)).2 = fcount f) as ->.
    { destruct f; cbn; unfold kid_ptrs; rewrite ?length_app; cbn; by rewrite !length_map. }
    destruct (Nat.leb_spec (max_internal_items - 1) (fcount f)) as [Hfull|Hroom].
    + apply post_split_parent; [done| |done]. intros s1 L1 p1 R1 H1 Hl1 Hb1. apply IH; [done|].
      rewrite (slevel_plug_all fs L1 (plug f L)); [done|]. by rewrite slevel_plug.
    + apply post_write; [done|]. intros s' Hs' Hv'. split.
      { eapply step_weaken; [exact Hs'|]. intros b ->. right. left. }
      exists (plug_all fs (SNode (fblock f) (flevel f) (fadd f L p R).1 (fadd f L p R).2)).
      change (plug_all (f :: fs) L) with (plug_all fs (plug f L)). split_and!.
      * eapply parent_room; [done|done|lia|done].
      * apply sblock_plug_all. by rewrite sblock_plug.
      * rewrite plug_all_entries. cbn [entries ctx_pre ctx_post foldr]. change (concat (map _ _)) with (kid_entries (fadd f L p R).2).
        rewrite fadd_entries. by rewrite <- !(assoc_L (++)).
      * rewrite (slevel_plug_all fs _ (plug f L)) by (by rewrite slevel_plug). lia.
      * intros key Hkey. rewrite sleaf_plug_all by (done || exact (frame_bounds_inner _ _ _ Hf Hkey)).
        by apply (sleaf_fadd key (bounds fs)).
Qed.
End writes.
