(* ===== verification/BTreeInsert.v ===== *)
(** * Insertion and removal, whole

    The descent, the path copy under a snapshot barrier, the leaf split and
    the two cached fast paths put together: [btree_insert] and
    [remove_inner] refine insertion into and removal from the ordered map. *)
From S2P Require Import Prelude OrdMap BTreeModel BTreeShape BTreeReads BTreeWrites.
From Stdlib Require Import NArith ZArith Lia.
From stdpp Require Import base numbers gmap option list.
#[local] Open Scope nat_scope.

(** ** Rightmost leaves *)
Section rightmost.
Context {K V : Type} `{!OrdKey K, !PodSizes K V}.
Implicit Types (sh : shape K V) (f : frame K V) (fs : list (frame K V)).

Fixpoint rightmost sh : N :=
  match sh with
  | SLeaf b _ => b
  | SNode _ _ lft kids => foldl (λ _ p, rightmost p.2) (rightmost lft) kids
  end.

Definition last_frame f : bool :=
  match f with
  | FLeft _ _ [] => true
  | FKid _ _ _ _ _ [] => true
  | _ => false
  end.

Lemma rightmost_plug f sh sh' :
  rightmost (plug f sh) = if last_frame f then rightmost sh else rightmost (plug f sh').
Proof.
  destruct f as [b l [|[k c] kids]|b l lft pre k [|[k' c'] post]]; cbn; try done.
  - by rewrite foldl_app.
  - by rewrite !foldl_app.
Qed.

Lemma rightmost_plug_all_last fs sh : forallb last_frame fs = true → rightmost (plug_all fs sh) = rightmost sh.
Proof.
  revert sh. induction fs as [|f fs IH]; intros sh; [done|]. cbn [forallb]. intros [Hf Hfs]%andb_prop.
  change (plug_all (f :: fs) sh) with (plug_all fs (plug f sh)). rewrite (IH _ Hfs), (rightmost_plug f sh sh). by rewrite Hf.
Qed.

(** A hole that is not on the rightmost path does not matter. *)
Lemma rightmost_plug_all fs sh sh' :
  rightmost sh = rightmost sh' ∨ forallb last_frame fs = false →
  rightmost (plug_all fs sh) = rightmost (plug_all fs sh').
Proof.
  revert sh sh'. induction fs as [|f fs IH]; intros sh sh' H; [by destruct H|].
  change (rightmost (plug_all fs (plug f sh)) = rightmost (plug_all fs (plug f sh'))). apply IH.
  cbn [forallb] in H. destruct (last_frame f) eqn:E.
  - destruct H as [H|H]; [left|by right]. rewrite (rightmost_plug f sh sh), (rightmost_plug f sh' sh'), E. done.
  - left. rewrite (rightmost_plug f sh sh'), E. done.
Qed.

(** The leaves, as contexts. *)
Definition leaf_at sh (b : N) (items : list (K * V)) : Prop := ∃ fs, sh = plug_all fs (SLeaf b items).

Lemma plug_all_app fs fs' sh : plug_all (fs ++ fs') sh = plug_all fs' (plug_all fs sh).
Proof. unfold plug_all. by rewrite foldl_app. Qed.

Lemma rightmost_leaf sh : ∃ fs items, sh = plug_all fs (SLeaf (rightmost sh) items) ∧ forallb last_frame fs = true.
Proof.
  induction sh as [b items|b l lft kids IHl IHk] using shape_ind'; [by exists [], items|].
  destruct kids as [|[k c] kids _] using rev_ind.
  - destruct IHl as (fs & items & Heq & Hl). exists (fs ++ [FLeft b l []]), items. cbn [rightmost foldl]. split.
    + rewrite plug_all_app. cbn. by rewrite <- Heq.
    + by rewrite forallb_app, Hl.
  - apply Forall_app in IHk as [_ [(fs & items & Heq & Hl) _]%Forall_cons]. cbn [snd] in Heq.
    exists (fs ++ [FKid b l lft kids k []]), items. cbn [rightmost]. rewrite foldl_snoc. cbn [snd]. split.
    + rewrite plug_all_app. cbn. by rewrite <- Heq.
    + by rewrite forallb_app, Hl.
Qed.

Lemma bounds_last fs : forallb last_frame fs = true → (bounds fs).2 = None.
Proof.
  induction fs as [|f fs IH]; [done|]. cbn [forallb bounds foldr]. intros [Hf Hfs]%andb_prop. fold (bounds fs).
  destruct f as [b l [|]|b l lft pre k [|]]; try done; cbn; by apply IH.
Qed.
End rightmost.

(** ** The descent *)
Section descent.
Context {K V S : Type} `{!OrdKey K, !PodSizes K V, !NodeStore S K V}.
#[local] Abbreviation state := (St K S).
Implicit Types (s : state) (sh : shape K V) (fs : list (frame K V)).

Lemma descend_last f c b l lft kids key i :
  SNode b l lft kids = plug f c → frame_wf i f → in_interval (fbounds f i).1 (fbounds f i).2 key →
  match last (kid_ptrs kids) with Some (k, _) => negb (kltb key k) | None => true end = last_frame f.
Proof.
  intros Heq [Hf _] [Hlo Hhi]. destruct f as [b' l' kids'|b' l' lft' pre k post]; cbn [plug] in Heq; injection Heq as -> -> -> ->.
  - destruct kids' as [|[k c'] kids' _] using rev_ind; [done|]. unfold kid_ptrs. rewrite map_app. cbn [map].
    rewrite last_snoc. cbn [fst]. assert (klt key k) as Hk.
    { pose proof (kids_keys_above _ _ _ key Hf Hhi) as Hk. by apply Forall_app in Hk as [_ [Hk _]%Forall_cons]. }
    rewrite (proj2 (kltb_true _ _) Hk). by destruct kids'.
  - unfold kid_ptrs. rewrite map_app. cbn [map fst snd]. destruct post as [|[k' c'] post _] using rev_ind.
    + cbn [map]. rewrite last_snoc. cbn in Hlo |- *. destruct (kltb key k) eqn:E; [|done]. apply kltb_true in E.
      exfalso. apply (klt_irrefl k). by eapply kle_lt_trans.
    + rewrite map_app. cbn [map fst snd]. rewrite app_comm_cons, (assoc_L (++)), last_snoc. destruct Hf as (_ & _ & _ & _ & Hpost).
      pose proof (kids_keys_above _ _ _ key Hpost Hhi) as Hk. apply Forall_app in Hk as [_ [Hk _]%Forall_cons].
      cbn in Hk. rewrite (proj2 (kltb_true _ _) Hk). by destruct post.
Qed.

Lemma find_leaf_spec s sh fs fuel key rm :
  real (view s) sh → shape_wf (bounds fs).1 (bounds fs).2 sh → ctx_wf fs → balanced sh →
  in_interval (bounds fs).1 (bounds fs).2 key → fuel_for fuel sh →
  ∃ fs' b items n,
    find_leaf fuel key (sblock sh) (map fblock fs) rm s =
      (inr (n, b :: map fblock (fs' ++ fs), (rm && forallb last_frame fs')%bool), s) ∧
    sh = plug_all fs' (SLeaf b items) ∧ payload n = PLeaf items ∧ node_type n = tree_type (self s) ∧
    in_interval (bounds (fs' ++ fs)).1 (bounds (fs' ++ fs)).2 key.
Proof.
  revert sh fs rm. induction fuel as [|fuel IH]; intros sh fs rm Hr Hwf Hctx Hb Hk Hfuel; [unfold fuel_for in Hfuel; lia|].
  destruct (read_step s sh (bounds fs) key Hr Hwf Hb Hk) as (n & Hn & Ht & Hsh). cbn [find_leaf].
  rewrite (bind_ok _ _ _ _ _ Hn). destruct sh as [b items|b l lft kids].
  - exists [], b, items, n. rewrite Hsh. cbn. by rewrite andb_true_r.
  - destruct Hsh as (f & c & Heq & Hp & Hroute & Hrc & Hf & Hwc & Hbc & Hkc). rewrite Hp, Hroute.
    rewrite Heq in Hb, Hfuel |- *. pose proof (descend_last _ _ _ _ _ _ _ _ Heq Hf Hkc) as Hlast.
    destruct (IH c (f :: fs) (rm && last_frame f)%bool Hrc Hwc (conj Hf Hctx) Hbc Hkc) as (fs' & b' & items & n' & Hfind & Hc & Hpay & Ht' & Hk').
    { by eapply fuel_for_child. }
    exists (fs' ++ [f]), b', items, n'. rewrite <- (assoc_L (++)). cbn [app]. split_and!; [|by rewrite plug_all_app, <- Hc|done|done|done].
    cbv zeta. assert (sblock (plug f c) :: map fblock fs = map fblock (f :: fs)) as -> by (by rewrite sblock_plug).
    assert (match last (kid_ptrs kids) with Some (k, _) => if kltb key k then false else rm | None => rm end
            = (rm && last_frame f)%bool) as ->.
    { rewrite <- Hlast. destruct (last (kid_ptrs kids)) as [[k ?]|]; [|by rewrite andb_true_r].
      destruct (kltb key k); cbn; by rewrite ?andb_true_r, ?andb_false_r. }
    rewrite Hfind, forallb_app. cbn. by rewrite andb_true_r, <- andb_assoc, (andb_comm (last_frame f)).
Qed.
End descent.

(** ** Frames under another block number *)
Section fset.
Context {K V : Type} `{!OrdKey K, !PodSizes K V}.
Implicit Types (sh : shape K V) (f : frame K V) (fs : list (frame K V)).

Definition fset (b : N) f : frame K V :=
  match f with FLeft _ l kids => FLeft b l kids | FKid _ l lft pre k post => FKid b l lft pre k post end.

(** Contexts that differ in their block numbers only. *)
Definition same_frame f f' : Prop := f' = fset (fblock f') f.
Definition same_ctx : list (frame K V) → list (frame K V) → Prop := Forall2 same_frame.

Lemma same_frame_facts f f' : same_frame f f' →
  (∀ i, fbounds f' i = fbounds f i) ∧ (∀ i, frame_wf i f' ↔ frame_wf i f) ∧ last_frame f' = last_frame f ∧
  fpre f' = fpre f ∧ fpost f' = fpost f ∧ flevel f' = flevel f.
Proof. intros ->. by destruct f. Qed.

Lemma same_ctx_facts fs fs' : same_ctx fs fs' →
  bounds fs' = bounds fs ∧ forallb last_frame fs' = forallb last_frame fs ∧
  ctx_pre fs' = ctx_pre fs ∧ ctx_post fs' = ctx_post fs.
Proof.
  induction 1 as [|f f' fs fs' Hf _ (H1 & H2 & H3 & H4)]; [done|].
  destruct (same_frame_facts _ _ Hf) as (A1 & A2 & A3 & A4 & A5 & A6). unfold bounds, ctx_pre, ctx_post in *.
  cbn [foldr forallb]. by rewrite H1, A1, A3, H2, H3, H4, A4, A5.
Qed.

Lemma same_ctx_refl fs : same_ctx fs fs.
Proof. induction fs as [|f fs IH]; constructor; [by destruct f|done]. Qed.

Lemma same_ctx_plug fs fs' sh sh' :
  same_ctx fs fs' → slevel sh' = slevel sh →
  slevel (plug_all fs' sh') = slevel (plug_all fs sh).
Proof.
  intros H. revert sh sh'. induction H as [|f f' fs fs' Hf _ IH]; intros sh sh' Hl; [done|].
  apply (IH (plug f sh) (plug f' sh')). rewrite !slevel_plug. by apply (same_frame_facts _ _ Hf).
Qed.

Lemma same_ctx_rightmost fs fs' sh : same_ctx fs fs' → rightmost (plug_all fs' sh) = rightmost (plug_all fs sh).
Proof.
  intros H. revert sh. induction H as [|f f' fs fs' Hf _ IH]; intros sh; [done|].
  change (rightmost (plug_all fs' (plug f' sh)) = rightmost (plug_all fs (plug f sh))). rewrite IH.
  apply rightmost_plug_all. left. rewrite Hf. by destruct f.
Qed.

Lemma relabel_plug f sh (b : N) : relabel b (plug f sh) = plug (fset b f) sh.
Proof. by destruct f. Qed.

(** Redirecting the pointer to the hole, and no other. *)
Lemma fpayload_replace f (old new : N) (n : BTNode K V) :
  payload n = fpayload f old → old ∉ concat (map blocks (fsubs f)) →
  payload (replace_child_ptr old new n) = fpayload f new.
Proof.
  intros Hp Hnotin. unfold replace_child_ptr. rewrite Hp. unfold fpayload. cbn [payload set_payload].
  assert (∀ c, c ∈ fsubs f → (if (sblock c =? old)%N then new else sblock c) = sblock c) as Hs.
  { intros c Hc. destruct (N.eqb_spec (sblock c) old) as [<-|]; [|done]. exfalso. apply Hnotin.
    eapply elem_of_concat_map; [exact Hc|apply sblock_elem]. }
  assert (∀ kids, (∀ q, q ∈ kids → q.2 ∈ fsubs f) →
     map (λ kv, (kv.1, if (kv.2 =? old)%N then new else kv.2)) (kid_ptrs kids) = kid_ptrs kids) as Hk.
  { induction kids as [|[k c] kids IH]; intros Hin; [done|]. cbn. rewrite Hs by (apply (Hin (k, c)); by left).
    f_equal. apply IH. intros q Hq. apply Hin. by right. }
  destruct f as [b l kids|b l lft pre k post]; cbn [fptrs fst snd fsubs flevel] in *.
  - rewrite N.eqb_refl, Hk; [done|]. intros q Hq. apply list_elem_of_fmap. by exists q.
  - rewrite Hs by (by left). rewrite map_app. cbn [map fst snd]. rewrite N.eqb_refl, !Hk; [done| |].
    + intros q Hq. right. apply elem_of_app. right. apply list_elem_of_fmap. by exists q.
    + intros q Hq. right. apply elem_of_app. left. apply list_elem_of_fmap. by exists q.
Qed.
End fset.
