(* ===== verification/BTreeCow.v ===== *)
(** * The path copy under a snapshot barrier

    [cow_descent_path] moves every node of a descent path that a snapshot may
    reach to a fresh block. The tree keeps its entries and its shape up to
    block numbers; every node stamped at or below the barrier stays exactly
    as it was; and every block of the path it returns is private. *)
From S2P Require Import Prelude OrdMap BTreeModel BTreeShape BTreeReads BTreeWrites BTreeInsert.
From Stdlib Require Import NArith ZArith Lia.
From stdpp Require Import base numbers gmap option list.
#[local] Open Scope nat_scope.

Section cow.
Context {K V S : Type} `{!OrdKey K, !PodSizes K V, !SizesOk K V, !NodeStore S K V, !NodeStoreLaws S K V}.
Context (allocate_block : S → (io_error + N) * S) (in_use : S → N → Prop).
Context `{!AllocSpec allocate_block in_use}.
#[local] Abbreviation state := (St K S).
#[local] Abbreviation post := (post allocate_block).
#[local] Abbreviation tree := (tree in_use).
#[local] Abbreviation uses := (uses in_use).
Implicit Types (s : state) (sh h : shape K V) (n : BTNode K V) (fs gs : list (frame K V)).

(** Blocks in use outside [W] keep their whole node; the handle keeps
    everything but its root. *)
Record moves (W : N → Prop) s s' : Prop := mkMoves {
  mv_self : set_root 0 (self s') = set_root 0 (self s);
  mv_epoch : epoch s' = epoch s;
  mv_barrier : ns_barrier (store s') = ns_barrier (store s);
  mv_use b : in_use (store s) b → in_use (store s') b;
  mv_read b n : in_use (store s) b → ¬ W b → ns_read (store s) b = Some n → ns_read (store s') b = Some n
}.

Lemma moves_refl W s : moves W s s.
Proof. by constructor. Qed.

Lemma moves_trans W W' s s1 s2 :
  moves W s s1 → moves W' s1 s2 → (∀ b, in_use (store s) b → W' b → W b) → moves W s s2.
Proof. intros [A1 A2 A3 A4 A5] [B1 B2 B3 B4 B5] HW. constructor; try congruence; auto. Qed.

Lemma mv_type W s s' : moves W s s' → tree_type (self s') = tree_type (self s) ∧ frozen_view (self s') = frozen_view (self s).
Proof. intros [H _ _ _ _]. by injection H. Qed.

Lemma moves_view_le W s s' (l : list N) :
  moves W s s' → uses s l → (∀ b, b ∈ l → ¬ W b) → view_le (.∈ l) (view s) (view s').
Proof.
  intros H Hu HW b p Hb. unfold view. rewrite (proj1 (mv_type _ _ _ H)).
  destruct (ns_read (store s) b) as [n|] eqn:E; [|done]. cbn. unfold uses in Hu. rewrite Forall_forall in Hu.
  by rewrite (mv_read _ _ _ H b n (Hu b Hb) (HW b Hb) E).
Qed.

Lemma uses_moves W s s' l : moves W s s' → uses s l → uses s' l.
Proof. intros H Hu. eapply Forall_impl; [exact Hu|]. apply (mv_use _ _ _ H). Qed.

Lemma post_write_moves (b : N) n s (Q : unit → state → Prop) :
  (∀ s', moves (λ x, x = b) s s' → self s' = self s → (∀ t d, ns_root (store s') t d = ns_root (store s) t d) →
     (node_type n = tree_type (self s) → view s' b = Some (payload n)) → Q () s') → post (write_node b n) s Q.
Proof.
  intros HQ. eapply post_eq; [reflexivity|]. apply HQ.
  - constructor; cbn; try done.
    + by rewrite barrier_write.
    + intros b'. by rewrite in_use_write.
    + intros b' n' _ Hne Hr. rewrite read_write, decide_False; [done|]. by intros ->.
  - done.
  - intros t d. cbn. by rewrite root_write.
  - intros Ht. unfold on_store. cbn. by rewrite view_write, decide_True, Ht, N.eqb_refl.
Qed.

Lemma post_alloc_moves s (Q : N → state → Prop) :
  (∀ b s', moves (λ _, False) s s' → self s' = self s → (∀ t d, ns_root (store s') t d = ns_root (store s) t d) →
     b ≠ 0%N → ¬ in_use (store s) b → in_use (store s') b → Q b s') →
  post (alloc allocate_block) s Q.
Proof.
  intros HQ. unfold post, alloc. unfold BTreeWrites.post. destruct (allocate_block (store s)) as [[e|b] σ'] eqn:E; [by eexists _, _|].
  destruct (alloc_fresh _ _ _ E) as (Hnz & Hfr & Hu). destruct (alloc_keeps _ _ _ E) as (Hk & Hbar & Hroot).
  apply HQ; try done. constructor; cbn; try done.
  - intros b' Hb'. by apply Hk.
  - intros b' n Hb' _. by apply Hk.
Qed.

(** ** One copied node *)

(** The shape with its hole subtree [h] under a fresh block [copy]. *)
Lemma copied_tree s s' fs h (copy : N) W :
  tree s (plug_all fs h) → moves W s s' →
  (∀ b, in_use (store s) b → W b → ∃ f, head fs = Some f ∧ b = fblock f) →
  copy ≠ 0%N → ¬ in_use (store s) copy → in_use (store s') copy →
  view s' copy = Some (payload_of h) →
  (∀ f, head fs = Some f → view s' (fblock f) = Some (fpayload f copy)) →
  tree s' (plug_all fs (relabel copy h)).
Proof.
  intros (Hr & Hwf & Hb & Hnd & Hz & Hu) Hmv HW Hcz Hfr Huc Hvc Hvp.
  destruct (relabel_facts copy h) as (Rb & Rp & Rs & Re & Rl & Rbal & Rwf).
  apply plug_all_real in Hr as [Hctx Hrh]. apply plug_all_wf in Hwf as [Hcw Hwh]. apply plug_all_bal in Hb as [Hcb Hbh].
  rewrite plug_all_blocks in Hnd, Hz. unfold BTreeWrites.uses in Hu. rewrite plug_all_blocks in Hu.
  assert (blocks (plug_all fs (relabel copy h)) ≡ₚ copy :: ctx_blocks fs ++ concat (map blocks (subs h))) as Hperm.
  { rewrite plug_all_blocks, (blocks_subs (relabel copy h)), Rb, Rs. by rewrite <- Permutation_middle. }
  rewrite (blocks_subs h), <- Permutation_middle in Hnd, Hz, Hu. apply NoDup_cons in Hnd as [Hni Hnd].
  apply Forall_cons in Hz as [_ Hz]. apply Forall_cons in Hu as [_ Hu].
  assert (copy ∉ ctx_blocks fs ++ concat (map blocks (subs h))) as Hcni.
  { intros Hin. apply Hfr. rewrite Forall_forall in Hu. by apply Hu. }
  (* everything but the parent is untouched *)
  assert (∀ l : list N, (∀ b, b ∈ l → b ∈ ctx_blocks fs ++ concat (map blocks (subs h)) ∧ ∀ f, head fs = Some f → b ≠ fblock f) →
            view_le (.∈ l) (view s) (view s')) as Hle.
  { intros l Hl. eapply moves_view_le; [exact Hmv| |].
    - apply Forall_forall. intros b Hb. rewrite Forall_forall in Hu. by apply Hu, Hl.
    - intros b Hb Hw. destruct (HW b) as (f & Hf & ->); [rewrite Forall_forall in Hu; by apply Hu, Hl|done|].
      by apply (proj2 (Hl _ Hb) f Hf). }
  split_and!.
  - apply plug_all_real. rewrite Rb. split.
    + destruct fs as [|f fs]; [done|]. destruct Hctx as [[Hf Hsubs] Hctx]. cbn [head] in *.
      change (ctx_blocks (f :: fs)) with (fblocks f ++ ctx_blocks fs) in *. unfold fblocks in *. cbn [app] in *.
      apply NoDup_cons in Hnd as [Hfni _]. split; [split; [by apply Hvp|]|].
      * eapply real_subs_frame; [|exact Hsubs]. apply Hle. intros b Hb. split; [(rewrite ?elem_of_cons, ?elem_of_app in *; tauto)|].
        intros ? [= <-] ->. apply Hfni. (rewrite ?elem_of_cons, ?elem_of_app in *; tauto).
      * eapply ctx_real_frame; [|exact Hctx]. apply Hle. intros b Hb. split; [(rewrite ?elem_of_cons, ?elem_of_app in *; tauto)|].
        intros ? [= <-] ->. apply Hfni. (rewrite ?elem_of_cons, ?elem_of_app in *; tauto).
    + apply real_subs. rewrite Rb, Rp, Rs. split; [done|]. apply real_subs in Hrh as [_ Hrh].
      eapply real_subs_frame; [|exact Hrh]. apply Hle. intros b Hb. split; [(rewrite ?elem_of_cons, ?elem_of_app in *; tauto)|].
      intros f Hf ->. destruct fs as [|f' fs]; [done|]. injection Hf as ->.
      change (ctx_blocks (f :: fs)) with (fblocks f ++ ctx_blocks fs) in Hnd. unfold fblocks in Hnd. cbn [app] in Hnd.
      apply NoDup_cons in Hnd as [Hfni _]. apply Hfni. (rewrite ?elem_of_cons, ?elem_of_app in *; tauto).
  - apply plug_all_wf. by rewrite Rwf.
  - apply plug_all_bal. by rewrite Rl, Rbal.
  - rewrite Hperm. by constructor.
  - rewrite Hperm. by constructor.
  - unfold BTreeWrites.uses. rewrite Hperm. constructor; [done|]. eapply uses_moves; [exact Hmv|exact Hu].
Qed.

(** One step of the loop on the node [h] below the processed frames [fs]. *)
Definition copy_node (effective : list N) (orig : N) n : M (S:=S) N :=
  copy ← alloc allocate_block;
  match effective with
  | [] =>
      write_node copy n ;;
      modify (on_self (set_root copy)) ;;
      t ← gets self;
      modify (on_store (ns_set_root (tree_type t) copy)) ;;
      mret copy
  | parent :: _ =>
      write_node copy (set_parent parent n) ;;
      p ← read_node parent;
      write_node parent (replace_child_ptr orig copy p) ;;
      mret copy
  end.

Lemma cow_path_cons barrier orig path effective :
  ∀ s, cow_path allocate_block barrier (orig :: path) effective s =
    (n ← read_node orig;
     if (barrier <? generation n)%N then cow_path allocate_block barrier path (orig :: effective)
     else copy ← copy_node effective orig n; cow_path allocate_block barrier path (copy :: effective)) s.
Proof.
  intros s. cbn [cow_path]. unfold mbind, M_bind. destruct (read_node orig s) as [[e|n] s1]; [done|].
  case_match; [done|]. unfold copy_node, mbind, M_bind. destruct (alloc allocate_block s1) as [[e|c] s2]; [done|].
  destruct effective as [|parent eff]; unfold mbind, M_bind; cbn; [done|].
  destruct (write_node c (set_parent parent n) s2) as [[e|[]] s3]; [done|].
  destruct (read_node parent s3) as [[e|p] s4]; [done|].
  by destruct (write_node parent (replace_child_ptr orig c p) s4) as [[e|[]] s5].
Qed.

Lemma tree_read s fs h :
  tree s (plug_all fs h) →
  view s (sblock h) = Some (payload_of h) ∧ payload_fits (payload_of h) ∧ in_use (store s) (sblock h) ∧
  (∀ f fs', fs = f :: fs' →
     view s (fblock f) = Some (fpayload f (sblock h)) ∧ payload_fits (fpayload f (sblock h)) ∧
     in_use (store s) (fblock f) ∧ (sblock h ∉ concat (map blocks (fsubs f))) ∧ sblock h ≠ fblock f).
Proof.
  intros (Hr & Hwf & _ & Hnd & _ & Hu). apply plug_all_real in Hr as [Hctx Hrh]. apply plug_all_wf in Hwf as [Hcw Hwh].
  destruct (shape_fits _ _ _ _ Hrh Hwh) as (p & Hv & Hf & Hp). assert (p = payload_of h) as -> by (by destruct h).
  rewrite plug_all_blocks in Hnd. unfold BTreeWrites.uses in Hu. rewrite plug_all_blocks in Hu. rewrite Forall_forall in Hu.
  split_and!; [done|done|apply Hu, elem_of_app; right; apply sblock_elem|].
  intros f fs' ->. destruct Hctx as [[Hfv _] _]. destruct Hcw as [[_ Hc] _].
  change (ctx_blocks (f :: fs')) with (fblocks f ++ ctx_blocks fs') in *. unfold fblocks in *. cbn [app] in *.
  apply NoDup_cons in Hnd as [Hfni Hnd]. split_and!; [done| | | |].
  - cbn. etrans; [|exact Hc]. destruct f; cbn; unfold kid_ptrs; rewrite ?length_app; cbn; rewrite !length_map; lia.
  - apply Hu. left.
  - intros Hin. rewrite <- (assoc_L (++)) in Hnd. apply NoDup_app in Hnd as (_ & Hd & _). apply (Hd _ Hin).
    apply elem_of_app. right. apply sblock_elem.
  - intros Heq. apply Hfni. rewrite <- Heq. apply elem_of_app. right. apply sblock_elem.
Qed.

Lemma post_copy_node s fs h n :
  tree s (plug_all fs h) → root_of s = sblock (plug_all fs h) →
  payload n = payload_of h → node_type n = tree_type (self s) →
  post (copy_node (map fblock fs) (sblock h) n) s (λ copy s',
    tree s' (plug_all fs (relabel copy h)) ∧ root_of s' = sblock (plug_all fs (relabel copy h)) ∧
    ¬ in_use (store s) copy ∧
    moves (λ b, ¬ in_use (store s) b ∨ ∃ f, head fs = Some f ∧ b = fblock f) s s').
Proof.
  intros Ht Hroot Hp Hty. destruct (tree_read _ _ _ Ht) as (Hv & Hfit & Hu & Hpar). unfold copy_node.
  apply post_bind, post_alloc_moves. intros copy s1 Hs1 Hself1 Hroot1 Hcz Hfr Hu1.
  destruct (relabel_facts copy h) as (Rb & _).
  destruct fs as [|f fs]; cbn [map].
  - apply post_bind, post_write_moves. intros s2 Hs2 Hself2 Hroot2 Hv2.
    apply post_bind. eapply post_eq; [reflexivity|]. apply post_bind. eapply post_eq; [reflexivity|].
    apply post_bind. eapply post_eq; [reflexivity|]. eapply post_eq; [reflexivity|].
    assert (moves (λ b, ¬ in_use (store s) b ∨ ∃ f, @None (frame K V) = Some f ∧ b = fblock f) s
      (on_store (ns_set_root (tree_type (self (on_self (set_root copy) s2))) copy) (on_self (set_root copy) s2))) as Hmv.
    { eapply moves_trans; [eapply moves_trans; [eapply moves_trans; [apply moves_refl|exact Hs1|by intros ? ? []]|exact Hs2|]|..|].
      - intros b Hb ->. by left.
      - instantiate (1 := λ _, False). constructor; cbn; [done|done|by rewrite barrier_set_root| |].
        + intros b. by rewrite in_use_set_root.
        + intros b n' _ _. by rewrite read_set_root.
      - by intros ? ? []. }
    split_and!; [|..|done|done].
    + eapply (copied_tree s _ [] h copy); [done|exact Hmv| |done|done| | |by intros ? [=]].
      * by intros b Hb [Hn|?].
      * cbn. rewrite in_use_set_root. by apply (mv_use _ _ _ Hs2).
      * unfold view in *. cbn. rewrite read_set_root. rewrite <- Hp. apply Hv2. by rewrite Hty, Hself1.
    + cbn [plug_all foldl]. rewrite Rb. unfold root_of. cbn. rewrite root_set_root. by case_match.
  - destruct (Hpar f fs eq_refl) as (Hvp & Hfp & Hup & Hnp & Hne).
    apply post_bind, post_write_moves. intros s2 Hs2 Hself2 Hroot2 Hv2. apply post_bind.
    assert (fblock f ≠ copy) as Hfc by (intros Heq; by rewrite Heq in Hup).
    assert (moves (λ b, ¬ in_use (store s) b) s s2) as Hs02.
    { eapply moves_trans; [eapply moves_trans; [apply moves_refl|exact Hs1|by intros ? ? []]|exact Hs2|]. by intros b Hb ->. }
    eapply post_read; [|exact Hfp|].
    { eapply (moves_view_le _ _ _ [fblock f] Hs02); [by constructor| |by left|exact Hvp].
      intros b ->%list_elem_of_singleton Hn. done. }
    intros p Hpp Hpt. apply post_bind, post_write_moves. intros s3 Hs3 Hself3 Hroot3 Hv3.
    eapply post_eq; [reflexivity|].
    assert (moves (λ b, ¬ in_use (store s) b ∨ ∃ f', Some f = Some f' ∧ b = fblock f') s s3) as Hs03.
    { eapply moves_trans; [eapply moves_trans; [apply moves_refl|exact Hs02|by left]|exact Hs3|].
      intros b _ ->. right. by exists f. }
    split_and!; [| |done|exact Hs03].
    + eapply (copied_tree s s3 (f :: fs) h copy); [done|exact Hs03| |done|done| | |].
      * intros b Hb [Hn|?]; done.
      * by apply (mv_use _ _ _ Hs3), (mv_use _ _ _ Hs2).
      * assert (view s2 copy = Some (payload_of h)) as Hv2' by (rewrite <- Hp; apply Hv2; cbn; by rewrite Hty, Hself1).
        eapply (moves_view_le _ _ _ [copy] Hs3); [|intros b ->%list_elem_of_singleton Heq; by apply Hfc|by left|exact Hv2'].
        constructor; [|done]. by apply (mv_use _ _ _ Hs2).
      * intros ? [= <-]. rewrite Hv3.
        -- f_equal. by apply fpayload_replace.
        -- cbn. unfold replace_child_ptr. rewrite Hpp. cbn. rewrite Hpt. by rewrite Hself2, Hself1.
    + transitivity (root_of s).
      * unfold root_of. by rewrite Hself3, Hself2, Hself1, Hroot3, Hroot2, Hroot1.
      * rewrite Hroot. apply (sblock_plug_all fs (plug f h) (plug f (relabel copy h))). by rewrite !sblock_plug.
Qed.

(** Every block of a path holds a node. *)
Lemma path_read s fs h x :
  tree s (plug_all fs h) → x ∈ map fblock fs ++ [sblock h] →
  in_use (store s) x ∧ ∃ n, ns_read (store s) x = Some n.
Proof.
  intros (Hr & _ & _ & _ & _ & Hu) Hx. apply plug_all_real in Hr as [Hctx Hrh].
  unfold BTreeWrites.uses in Hu. rewrite plug_all_blocks in Hu. rewrite Forall_forall in Hu.
  assert (∀ y, is_Some (view s y) → ∃ n, ns_read (store s) y = Some n) as Hview.
  { intros y [p Hp]. unfold view in Hp. destruct (ns_read (store s) y) as [n|]; [by exists n|done]. }
  apply elem_of_app in Hx as [Hx| ->%list_elem_of_singleton].
  - apply list_elem_of_fmap in Hx as (f & -> & Hf). split.
    + apply Hu, elem_of_app. left. eapply (elem_of_concat_map fblocks); [exact Hf|left].
    + apply Hview. clear Hu Hrh. generalize dependent (sblock h). induction fs as [|g fs IH]; [by apply not_elem_of_nil in Hf|].
      intros hb [[Hg _] Hctx]. apply elem_of_cons in Hf as [->|Hf]; [by eexists|by eapply IH].
  - split; [apply Hu, elem_of_app; right; apply sblock_elem|]. apply Hview. apply real_subs in Hrh as [Hv _]. by eexists.
Qed.

Lemma path_nodup s fs h : tree s (plug_all fs h) → NoDup (map fblock fs ++ [sblock h]).
Proof.
  intros (_ & _ & _ & Hnd & _). rewrite plug_all_blocks, (blocks_subs h) in Hnd.
  revert Hnd. generalize (concat (map blocks (subs h))) as rest. induction fs as [|f fs IH]; intros rest Hnd.
  - constructor; [apply not_elem_of_nil|constructor].
  - change (ctx_blocks (f :: fs)) with (fblocks f ++ ctx_blocks fs) in Hnd. unfold fblocks in Hnd. cbn [app map] in *.
    apply NoDup_cons in Hnd as [Hni Hnd]. rewrite <- (assoc_L (++)) in Hnd, Hni. constructor.
    + intros Hin. apply Hni. apply elem_of_app. right. apply elem_of_app in Hin as [Hin| ->%list_elem_of_singleton].
      * apply elem_of_app. left. apply list_elem_of_fmap in Hin as (g & -> & Hg).
        eapply (elem_of_concat_map fblocks); [exact Hg|left].
      * apply elem_of_app. right. left.
    + apply (IH rest). by apply NoDup_app in Hnd as (_ & _ & Hnd).
Qed.

Lemma elem_of_rev {A} (x : A) l : x ∈ rev l ↔ x ∈ l.
Proof. by rewrite !list_elem_of_In, <- in_rev. Qed.

(** The blocks below a frame of the path: read, in use, and not above it. *)
Lemma path_below s gs (g : frame K V) fs sh y :
  tree s (plug_all (rev gs ++ g :: fs) sh) → y ∈ map fblock gs ++ [sblock sh] →
  in_use (store s) y ∧ (∃ n, ns_read (store s) y = Some n) ∧ ∀ f, head fs = Some f → y ≠ fblock f.
Proof.
  intros Ht Hy. pose proof (path_nodup _ _ _ Ht) as Hnd. rewrite map_app, <- (assoc_L (++)) in Hnd. cbn [map app] in Hnd.
  destruct (path_read s _ _ y Ht) as [Hu Hn].
  { rewrite map_app, <- (assoc_L (++)), map_rev. apply elem_of_app in Hy as [Hy|Hy]; apply elem_of_app.
    - left. by apply elem_of_rev.
    - right. apply elem_of_app. by right. }
  split_and!; [done|done|]. intros f Hf ->. destruct fs as [|f' fs]; [done|]. injection Hf as ->.
  apply NoDup_app in Hnd as (_ & Hd & Hnd). apply elem_of_app in Hy as [Hy| Hy%list_elem_of_singleton].
  - apply (Hd (fblock f)); [rewrite map_rev; by apply elem_of_rev|]. right. left.
  - apply NoDup_cons in Hnd as [_ Hnd]. cbn [map app] in Hnd. apply NoDup_cons in Hnd as [Hni _]. apply Hni.
    apply elem_of_app. right. rewrite Hy. left.
Qed.

Lemma post_ext {A} (m m' : M A) s (Q : A → state → Prop) : m s = m' s → post m' s Q → post m s Q.
Proof. unfold BTreeWrites.post. by intros ->. Qed.

Lemma relabel_same h : relabel (sblock h) h = h.
Proof. by destruct h. Qed.

(** One node of the path: it stays, or moves to a fresh block. *)
Lemma post_cow_step s0 (W : N → Prop) barrier fs h s rest (Q : list N → state → Prop) :
  (∀ x, ¬ in_use (store s0) x → W x) → moves W s0 s →
  tree s (plug_all fs h) → root_of s = sblock (plug_all fs h) → Forall (λ f, W (fblock f)) fs →
  (∀ n, ns_read (store s) (sblock h) = Some n → (barrier < generation n)%N → W (sblock h)) →
  (∀ x s1, moves W s0 s1 → tree s1 (plug_all fs (relabel x h)) → root_of s1 = sblock (plug_all fs (relabel x h)) →
     W x →
     (∀ y n, in_use (store s) y → (∀ f, head fs = Some f → y ≠ fblock f) →
             ns_read (store s) y = Some n → ns_read (store s1) y = Some n) →
     post (cow_path allocate_block barrier rest (x :: map fblock fs)) s1 Q) →
  post (cow_path allocate_block barrier (sblock h :: rest) (map fblock fs)) s Q.
Proof.
  intros HW0 Hmv Ht Hroot Hfs Hgen HQ. eapply post_ext; [apply cow_path_cons|]. apply post_bind.
  destruct (tree_read _ _ _ Ht) as (Hv & Hfit & _ & _). destruct (read_node_ok s _ _ Hv Hfit) as (n & Hn & Hp & Hty).
  eapply post_eq; [exact Hn|]. destruct (N.ltb_spec barrier (generation n)) as [Hlt|Hge].
  - apply HQ; [done|by rewrite relabel_same|by rewrite relabel_same| |done].
    apply (Hgen n); [|done]. unfold read_node in Hn. destruct (ns_read (store s) (sblock h)); [|done].
    by case_match; simplify_eq.
  - apply post_bind. eapply post_mono; [by apply post_copy_node|]. intros x s1 (Ht1 & Hr1 & Hx & Hmv1). cbn beta.
    apply HQ; [|done|done| |].
    + eapply moves_trans; [exact Hmv|exact Hmv1|]. intros y Hy [Hn'|(f & Hf & ->)].
      * exfalso. by apply Hn', (mv_use _ _ _ Hmv).
      * destruct fs as [|f' fs]; [done|]. injection Hf as ->. by apply Forall_cons in Hfs as [? _].
    + apply HW0. intros Hx0. by apply Hx, (mv_use _ _ _ Hmv).
    + intros y n' Hy Hne. apply (mv_read _ _ _ Hmv1); [done|]. intros [?|(f & Hf & ->)]; [done|]. by apply (Hne f).
Qed.

Lemma post_cow_path s0 (W : N → Prop) barrier gs fs s b items :
  (∀ x, ¬ in_use (store s0) x → W x) → moves W s0 s →
  tree s (plug_all (rev gs ++ fs) (SLeaf b items)) → root_of s = sblock (plug_all (rev gs ++ fs) (SLeaf b items)) →
  Forall (λ f, W (fblock f)) fs →
  (∀ x n, x ∈ map fblock gs ++ [b] → ns_read (store s) x = Some n → (barrier < generation n)%N → W x) →
  post (cow_path allocate_block barrier (map fblock gs ++ [b]) (map fblock fs)) s (λ eff s',
    ∃ gs' b', eff = b' :: map fblock (rev gs' ++ fs) ∧ same_ctx gs gs' ∧ moves W s0 s' ∧
      tree s' (plug_all (rev gs' ++ fs) (SLeaf b' items)) ∧
      root_of s' = sblock (plug_all (rev gs' ++ fs) (SLeaf b' items)) ∧ Forall W eff).
Proof.
  intros HW0. revert fs s. induction gs as [|g gs IH]; intros fs s Hmv Ht Hroot Hfs Hgen.
  - cbn [map app rev] in *. change b with (sblock (SLeaf b items)) at 1. eapply (post_cow_step s0 W); try done.
    { intros n. apply Hgen. by left. }
    intros x s1 Hmv1 Ht1 Hr1 Hx _. eapply post_eq; [reflexivity|]. exists [], x. split_and!; try done; [constructor|].
    constructor; [done|]. by apply Forall_map.
  - cbn [rev map app] in *. rewrite <- (assoc_L (++)) in Ht, Hroot. cbn [app] in Ht, Hroot.
    rewrite plug_all_app in Ht, Hroot. cbn [plug_all foldl] in Ht, Hroot.
    set (h := plug g (plug_all (rev gs) (SLeaf b items))) in *. fold (plug_all fs h) in Ht, Hroot.
    assert (fblock g = sblock h) as Hgh by (unfold h; by rewrite sblock_plug). rewrite Hgh.
    eapply (post_cow_step s0 W); try done.
    { intros n. rewrite <- Hgh. apply Hgen. left. }
    intros x s1 Hmv1 Ht1 Hr1 Hx Hkeep. unfold h in Ht1, Hr1. rewrite relabel_plug in Ht1, Hr1.
    assert (x :: map fblock fs = map fblock (fset x g :: fs)) as -> by (cbn; by destruct g).
    assert (∀ sh, plug_all (rev gs ++ fset x g :: fs) sh = plug_all fs (plug (fset x g) (plug_all (rev gs) sh))) as Hpl.
    { intros sh. by rewrite plug_all_app. }
    eapply post_mono; [apply (IH (fset x g :: fs)); [done|by rewrite Hpl|by rewrite Hpl| |]|].
    + constructor; [by destruct g|done].
    + intros y n Hy Hn. apply (Hgen y n); [by right|].
      assert (tree s (plug_all (rev gs ++ g :: fs) (SLeaf b items))) as Ht' by (by rewrite plug_all_app).
      destruct (path_below _ _ _ _ _ _ Ht' Hy) as (Hu & [n' Hn'] & Hne).
      rewrite (Hkeep y n' Hu Hne Hn') in Hn. congruence.
    + intros eff s' (gs' & b' & -> & Hsame & Hmv' & Ht'' & Hr'' & Hall). exists (fset x g :: gs'), b'.
      cbn [rev]. rewrite <- (assoc_L (++)). cbn [app]. split_and!; try done. constructor; [|done]. by destruct g.
Qed.
End cow.
