(* ===== verification/BTreeOps.v ===== *)
(** * The B+ tree as an ordered map

    [btree_insert] and [remove_inner] as a caller sees them: the handle's tree
    goes from one ordered map to the next, whatever fast path, split or path
    copy the operation takes. *)
From S2P Require Import Prelude OrdMap BTreeModel BTreeShape BTreeReads BTreeWrites BTreeInsert BTreeCow.
From Stdlib Require Import NArith ZArith Lia.
From stdpp Require Import base numbers gmap option list.
#[local] Open Scope nat_scope.

Section ops.
Context {K V S : Type} `{!OrdKey K, !PodSizes K V, !SizesOk K V, !NodeStore S K V, !NodeStoreLaws S K V}.
Context (allocate_block : S → (io_error + N) * S) (in_use : S → N → Prop).
Context `{!AllocSpec allocate_block in_use}.
#[local] Abbreviation state := (St K S).
#[local] Abbreviation post := (post allocate_block).
#[local] Abbreviation tree := (tree in_use).
#[local] Abbreviation uses := (uses in_use).
#[local] Abbreviation step := (step in_use).
#[local] Abbreviation moves := (moves in_use).
Implicit Types (s : state) (sh h : shape K V) (n : BTNode K V) (fs gs : list (frame K V)).

(** ** Leaf blocks *)
Fixpoint leaf_blocks sh : list N :=
  match sh with
  | SLeaf b _ => [b]
  | SNode _ _ lft kids => leaf_blocks lft ++ concat (map (λ p, leaf_blocks p.2) kids)
  end.

Lemma leaf_blocks_plug (f : frame K V) sh sh' :
  leaf_blocks sh = leaf_blocks sh' → leaf_blocks (plug f sh) = leaf_blocks (plug f sh').
Proof. intros H. destruct f; cbn; [by rewrite H|]. rewrite !map_app, !concat_app. cbn. by rewrite H. Qed.

Lemma leaf_blocks_plug_all fs sh sh' :
  leaf_blocks sh = leaf_blocks sh' → leaf_blocks (plug_all fs sh) = leaf_blocks (plug_all fs sh').
Proof.
  revert sh sh'. induction fs as [|f fs IH]; intros sh sh' H; [done|].
  apply (IH (plug f sh) (plug f sh')). by apply leaf_blocks_plug.
Qed.

Lemma leaf_blocks_hole fs sh x : x ∈ leaf_blocks sh → x ∈ leaf_blocks (plug_all fs sh).
Proof.
  revert sh. induction fs as [|f fs IH]; intros sh H; [done|]. apply (IH (plug f sh)).
  destruct f; cbn; apply elem_of_app; [by left|right]. rewrite map_app, concat_app. apply elem_of_app. right.
  cbn. apply elem_of_app. by left.
Qed.

Lemma leaf_blocks_spec sh x : x ∈ leaf_blocks sh → ∃ fs items, sh = plug_all fs (SLeaf x items).
Proof.
  induction sh as [b items|b l lft kids IHl IHk] using shape_ind'; cbn [leaf_blocks].
  - intros ->%list_elem_of_singleton. by exists [], items.
  - intros [Hx|Hx]%elem_of_app.
    + destruct (IHl Hx) as (fs & items & ->). exists (fs ++ [FLeft b l kids]), items. by rewrite plug_all_app.
    + apply list_elem_of_In, in_concat in Hx as (l' & Hl' & Hx). rewrite <- list_elem_of_In in Hl'. rewrite <- list_elem_of_In in Hx.
      apply list_elem_of_fmap in Hl' as ([k c] & -> & Hc). rewrite Forall_forall in IHk.
      destruct (IHk _ Hc Hx) as (fs & items & Heq). cbn in Heq. apply list_elem_of_split in Hc as (pre & po & ->).
      exists (fs ++ [FKid b l lft pre k po]), items. rewrite plug_all_app, Heq. done.
Qed.

(** ** The invariant of a handle *)

(** A cached leaf, if its epoch is current, is a leaf of the tree; the append
    cache holds the rightmost one. *)
Definition cache_ok s sh : Prop :=
  (∀ fl, fast_leaf (self s) = Some fl → fl_epoch fl = epoch s → fl_block fl = rightmost sh) ∧
  (∀ rl, range_leaf (self s) = Some rl → rl_epoch rl = epoch s → rl_block rl ∈ leaf_blocks sh).

Definition inv s sh : Prop := tree s sh ∧ root_of s = sblock sh ∧ cache_ok s sh.

(** [tree] depends on the store and the tree's type only. *)
Lemma tree_ext s s' sh :
  store s' = store s → tree_type (self s') = tree_type (self s) → tree s sh → tree s' sh.
Proof.
  intros Hs Ht (Hr & Hwf & Hb & Hnd & Hz & Hu). unfold BTreeWrites.tree, BTreeWrites.uses in *. rewrite Hs.
  split_and!; try done. eapply real_frame; [|exact Hr]. intros b p _. unfold view. by rewrite Hs, Ht.
Qed.

(** ** Writing a leaf *)
Definition leaf_fits fs (items : list (K * V)) : Prop :=
  om_ok items ∧ Forall (λ q, in_interval (bounds fs).1 (bounds fs).2 q.1) items ∧ length items ≤ max_leaf_items.

Lemma tree_leaf s fs b items :
  tree s (plug_all fs (SLeaf b items)) → ctx_wf fs ∧ leaf_fits fs items ∧ view s b = Some (PLeaf items).
Proof.
  intros (Hr & Hwf & _). apply plug_all_wf in Hwf as [Hc Hwf]. apply plug_all_real in Hr as [_ Hr]. by split_and!.
Qed.

Lemma leaf_write s s' fs b items items' :
  tree s (plug_all fs (SLeaf b items)) → step (λ x, x = b) s s' → view s' b = Some (PLeaf items') →
  leaf_fits fs items' → tree s' (plug_all fs (SLeaf b items')).
Proof.
  intros (Hr & Hwf & Hb & Hnd & Hz & Hu) Hstep Hv Hfit.
  assert (blocks (plug_all fs (SLeaf b items')) ≡ₚ blocks (plug_all fs (SLeaf b items))) as Hperm by by rewrite !plug_all_blocks.
  apply plug_all_real in Hr as [Hctx _]. apply plug_all_wf in Hwf as [Hc _]. apply plug_all_bal in Hb as [Hcb _].
  split_and!.
  - apply plug_all_real. split; [|done]. eapply ctx_real_frame; [|exact Hctx].
    rewrite plug_all_blocks in Hnd. unfold BTreeWrites.uses in Hu. rewrite plug_all_blocks in Hu.
    apply Forall_app in Hu as [Hu _]. eapply step_view_le; [exact Hstep|exact Hu|]. intros x Hx ->.
    apply NoDup_app in Hnd as (_ & Hd & _). apply (Hd _ Hx). left.
  - by apply plug_all_wf.
  - by apply plug_all_bal.
  - by rewrite Hperm.
  - by rewrite Hperm.
  - unfold BTreeWrites.uses. rewrite Hperm. by eapply uses_step.
Qed.

Lemma length_om_insert (key : K) (v : V) items : length (om_insert key v items) ≤ 1 + length items.
Proof. induction items as [|[k v'] items IH]; cbn; [lia|]. destruct (kcmp key k); cbn; lia. Qed.

Lemma length_om_remove (key : K) (items : list (K * V)) : length (om_remove key items) ≤ length items.
Proof. induction items as [|[k v'] items IH]; cbn; [lia|]. destruct (kcmp key k); cbn; lia. Qed.

Lemma leaf_fits_insert fs items key v :
  leaf_fits fs items → in_interval (bounds fs).1 (bounds fs).2 key → length (om_insert key v items) ≤ max_leaf_items →
  leaf_fits fs (om_insert key v items).
Proof.
  intros (Hok & Hall & Hl) Hk Hlen. split_and!; [by apply om_insert_ok| |done].
  by apply (om_insert_Forall (λ x, in_interval (bounds fs).1 (bounds fs).2 x)).
Qed.

Lemma leaf_fits_remove fs items key : leaf_fits fs items → leaf_fits fs (om_remove key items).
Proof.
  intros (Hok & Hall & Hl). split_and!; [by apply om_remove_ok|by apply om_remove_Forall|].
  etrans; [apply length_om_remove|done].
Qed.

(** The entries of the tree after an operation on the leaf of its key. *)
Lemma leaf_ops_entries fs b b' items key :
  ctx_wf fs → in_interval (bounds fs).1 (bounds fs).2 key →
  (∀ v, entries (plug_all fs (SLeaf b' (om_insert key v items))) =
        om_insert key v (entries (plug_all fs (SLeaf b items)))) ∧
  entries (plug_all fs (SLeaf b' (om_remove key items))) = om_remove key (entries (plug_all fs (SLeaf b items))) ∧
  om_get key (entries (plug_all fs (SLeaf b items))) = om_get key items.
Proof.
  intros Hc Hk. destruct (ctx_ops fs (SLeaf b items) key Hc Hk) as (Hg & Hi & Hr). split_and!; [|by rewrite Hr, plug_all_entries|done].
  intros v. by rewrite Hi, plug_all_entries.
Qed.

(** ** Splitting a full leaf *)
Definition drop_caches (t : BTree K) : BTree K := set_range None (set_fast None t).

(** The sibling pointer fixed by a split: no payload changes. *)
Lemma post_fix_next s (leaf_block right_block : N) n :
  post (if (next_leaf n =? 0)%N then mret ()
        else old_next ← try_read (next_leaf n);
             match old_next with
             | Some o => if (prev_leaf o =? leaf_block)%N then write_node (next_leaf n) (set_prev right_block o) else mret ()
             | None => mret ()
             end) s (λ _ s', keeps in_use s s').
Proof.
  case_match; [apply step_refl|]. apply post_bind. unfold try_read.
  destruct (read_node (next_leaf n) s) as [[e|o] s1] eqn:E.
  - assert (s1 = s) as -> by (unfold read_node in E; repeat case_match; by simplify_eq).
    eapply post_eq; [by rewrite E|]. apply step_refl.
  - unfold read_node in E. destruct (ns_read (store s) (next_leaf n)) as [o'|] eqn:Er; [|done].
    destruct ((node_type o' =? tree_type (self s))%N && (item_count o' <=? max_items o'))%bool eqn:Eb; [|done].
    injection E as -> ->. eapply post_eq; [unfold read_node; by rewrite Er, Eb|]. cbn beta iota.
    case_match; [|apply step_refl]. apply andb_prop in Eb as [Et%N.eqb_eq _].
    eapply (post_touch _ _ _ _ (payload o)); [done| |done|done]. unfold view. rewrite Er. cbn. by rewrite Et, N.eqb_refl.
Qed.

Lemma half_sizes (items : list (K * V)) :
  max_leaf_items (K:=K) (V:=V) - 1 ≤ length items ≤ max_leaf_items (K:=K) (V:=V) →
  1 ≤ length items / 2 ∧ length items / 2 < max_leaf_items (K:=K) (V:=V) - 1 ∧
  length items - length items / 2 < max_leaf_items (K:=K) (V:=V) - 1 ∧ length items / 2 < length items.
Proof.
  pose proof (leaf_room (K:=K) (V:=V)). intros [H1 H2]. pose proof (Nat.div_mod_eq (length items) 2).
  pose proof (Nat.mod_upper_bound (length items) 2). lia.
Qed.

(** The two halves of a leaf at the hole of its context. *)
Lemma split_hole s s' fs b items rb promote v rest :
  tree s (plug_all fs (SLeaf b items)) → step (λ x, x = b ∨ x = rb) s s' →
  rb ≠ 0%N → ¬ in_use (store s) rb → in_use (store s') rb →
  max_leaf_items (K:=K) (V:=V) - 1 ≤ length items → drop (length items / 2) items = (promote, v) :: rest →
  view s' b = Some (PLeaf (take (length items / 2) items)) → view s' rb = Some (PLeaf ((promote, v) :: rest)) →
  hole in_use s' fs (SLeaf b (take (length items / 2) items)) promote (SLeaf rb ((promote, v) :: rest)).
Proof.
  intros Ht Hstep Hnz Hfr Hu Hfull Hdrop Hv1 Hv2. destruct (tree_leaf _ _ _ _ Ht) as (Hc & (Hok & Hall & Hlen) & _).
  destruct Ht as (Hr & _ & Hb & Hnd & Hz & Hus). apply plug_all_real in Hr as [Hctx _]. apply plug_all_bal in Hb as [Hcb _].
  rewrite plug_all_blocks in Hnd, Hz. unfold BTreeWrites.uses in Hus. rewrite plug_all_blocks in Hus.
  destruct (half_sizes items) as (Hm1 & Hm2 & Hm3 & Hm4); [lia|].
  pose proof (take_drop (length items / 2) items) as Htd. rewrite Hdrop in Htd.
  assert (length (take (length items / 2) items) = length items / 2) as Hlt by (rewrite length_take; lia).
  assert (length ((promote, v) :: rest) = length items - length items / 2) as Hld by (by rewrite <- Hdrop, length_drop).
  pose proof Hok as Hok'. rewrite <- Htd in Hok', Hall. apply om_ok_app in Hok' as (Ho1 & Ho2 & Hlt12).
  apply Forall_app in Hall as [Ha1 Ha2].
  assert (rb ∉ ctx_blocks fs ++ [b]) as Hni by (intros Hin; apply Hfr; rewrite Forall_forall in Hus; by apply Hus).
  assert (ctx_blocks fs ++ blocks (SLeaf b (take (length items / 2) items)) ++ blocks (SLeaf rb ((promote, v) :: rest))
          ≡ₚ rb :: ctx_blocks fs ++ [b]) as Hperm.
  { cbn [blocks]. rewrite (assoc_L (++) (ctx_blocks fs) [b] [rb]). by rewrite (comm (++) _ [rb]). }
  constructor; try done.
  - eapply ctx_real_frame; [|exact Hctx]. apply Forall_app in Hus as [Hus _]. eapply step_view_le; [exact Hstep|exact Hus|].
    intros x Hx [->| ->].
    + apply NoDup_app in Hnd as (_ & Hd & _). apply (Hd _ Hx). left.
    + apply Hni, elem_of_app. by left.
  - split; unfold shape_wf.
    + split_and!; [done| |lia]. rewrite Forall_forall in Ha1 |- *. intros q Hq. split; [by apply Ha1|].
      apply (Hlt12 q (promote, v) Hq). left.
    + split_and!; [done| |lia]. rewrite Forall_forall in Ha2 |- *. intros q Hq. split; [|by apply Ha2].
      cbn. apply elem_of_cons in Hq as [->|Hq]; [apply kleb_true; by right|]. apply om_ok_cons in Ho2 as [Ho2 _].
      rewrite Forall_forall in Ho2. apply klt_kleb, Ho2, Hq.
  - assert (in_interval (bounds fs).1 (bounds fs).2 promote) as [Hp1 Hp2]
      by (apply Forall_cons in Ha2 as [? _]; done).
    split; [|done]. destruct (take (length items / 2) items) as [|q0 l0] eqn:Et; [cbn [length] in Hlt; lia|].
    assert (klt q0.1 promote) as Hq by (apply (Hlt12 q0 (promote, v)); left).
    apply Forall_cons in Ha1 as [[Hq1 _] _]. exact (above_sabove _ _ _ Hq1 Hq).
  - rewrite Hperm. by constructor.
  - rewrite Hperm. by constructor.
  - unfold BTreeWrites.uses. rewrite Hperm. constructor; [done|]. by eapply uses_step.
Qed.

Definition split_done s s' fs b items : Prop :=
  ∃ sh, tree s' sh ∧ sblock sh = sblock (plug_all fs (SLeaf b items)) ∧
    entries sh = entries (plug_all fs (SLeaf b items)) ∧ (slevel sh ≤ slevel (plug_all fs (SLeaf b items)) + 1)%N ∧
    self s' = drop_caches (self s) ∧ (∀ t d, ns_root (store s') t d = ns_root (store s) t d) ∧
    (∀ key, in_interval (bounds fs).1 (bounds fs).2 key → length (sleaf key sh) < max_leaf_items (K:=K) (V:=V) - 1).

Lemma post_split_leaf s fs b items n :
  tree s (plug_all fs (SLeaf b items)) → payload n = PLeaf items → node_type n = tree_type (self s) →
  max_leaf_items (K:=K) (V:=V) - 1 ≤ length items → (slevel (plug_all fs (SLeaf b items)) < 65535)%N →
  post (split_leaf allocate_block b n (map fblock fs)) s (λ _ s', split_done s s' fs b items).
Proof.
  intros Ht Hp Hty Hfull Hlev. pose proof (tree_leaf _ _ _ _ Ht) as (_ & (_ & _ & Hlen) & _).
  destruct (half_sizes items) as (Hm1 & Hm2 & Hm3 & Hm4); [lia|].
  unfold split_leaf. apply post_bind. eapply post_eq; [reflexivity|]. apply post_bind. eapply post_eq; [reflexivity|].
  set (s1 := on_self _ _). assert (tree s1 (plug_all fs (SLeaf b items))) as Ht1 by (by eapply tree_ext).
  apply post_bind, (post_alloc _ in_use). intros rb s2 Hs2 Hnz Hfr Hu2. apply post_bind.
  eapply post_mono; [apply post_fix_next|]. intros [] s3 Hs3. cbn beta. rewrite Hp.
  assert (keeps in_use s1 s3) as Hs13 by (eapply step_trans; [exact Hs2|exact Hs3|auto]).
  destruct (drop (length items / 2) items) as [|[promote v] rest] eqn:Ed.
  { apply (f_equal length) in Ed. rewrite length_drop in Ed. cbn [length] in Ed. lia. }
  apply post_bind. eapply post_eq; [reflexivity|]. cbn beta. apply post_bind, (post_write _ in_use); [done|].
  intros s4 Hs4 Hv4. apply post_bind, (post_write _ in_use).
  { cbn. by rewrite Hty, (st_self _ _ _ _ Hs4), (st_self _ _ _ _ Hs13). }
  intros s5 Hs5 Hv5.
  assert (b ≠ rb) as Hne.
  { intros <-. apply Hfr. destruct Ht1 as (_ & _ & _ & _ & _ & Hu). unfold BTreeWrites.uses in Hu.
    rewrite plug_all_blocks, Forall_forall in Hu. apply Hu, elem_of_app. right. left. }
  assert (step (λ x, x = b ∨ x = rb) s1 s5) as Hs15.
  { eapply step_trans; [eapply step_trans; [eapply step_weaken; [exact Hs13|by intros ? []]|exact Hs4|auto]|exact Hs5|auto]. }
  assert (hole in_use s5 fs (SLeaf b (take (length items / 2) items)) promote (SLeaf rb ((promote, v) :: rest))) as Hh.
  { eapply split_hole; [exact Ht1|exact Hs15|done|done| |done|done|exact Hv5|].
    - apply (st_use _ _ _ _ Hs5), (st_use _ _ _ _ Hs4), (st_use _ _ _ _ Hs3), Hu2.
    - apply (st_view _ _ _ _ Hs5); [apply (st_use _ _ _ _ Hs4), (st_use _ _ _ _ Hs3), Hu2|by intros ->|done]. }
  assert (∀ m Q, post (insert_up allocate_block (map fblock fs) b promote rb) s5 Q → m = insert_up allocate_block (map fblock fs) b promote rb → post m s5 Q) as Hup by (by intros ? ? ? ->).
  eapply Hup; [|by destruct fs].
  eapply post_mono; [apply (post_insert_up _ _ _ _ _ _ _ Hh); by rewrite (slevel_plug_all fs _ (SLeaf b items))|].
  intros [] s6 [Hs6 (sh & Hsh & Hb & He & Hl & Hleaf)]. exists sh. split_and!; [done|..].
  - by rewrite Hb, (sblock_plug_all fs _ (SLeaf b items)).
  - rewrite He, plug_all_entries. cbn [entries]. rewrite <- Ed, take_drop. done.
  - by rewrite (slevel_plug_all fs _ (SLeaf b (take (length items / 2) items))).
  - by rewrite (st_self _ _ _ _ Hs6), (st_self _ _ _ _ Hs15).
  - intros t d. by rewrite (st_root _ _ _ _ Hs6), (st_root _ _ _ _ Hs15).
  - intros key Hk. rewrite (Hleaf key Hk). destruct (kleb promote key); cbn [sleaf].
    + rewrite <- Ed, length_drop. lia.
    + rewrite length_take. lia.
Qed.

(** ** The path copy, when it is on *)
Definition cow_on s : Prop := (0 < ns_barrier (store s))%N ∧ is_frozen_tree (tree_type (self s)) = true.
Definition frozen_at s (b : N) : Prop :=
  in_use (store s) b ∧ ∃ n, ns_read (store s) b = Some n ∧ (generation n ≤ ns_barrier (store s))%N.

(** Blocks an operation may write: all but the frozen ones, when copying. *)
Definition writable s (b : N) : Prop := ¬ (cow_on s ∧ frozen_at s b).

Lemma post_cow_if_needed s fs b items :
  tree s (plug_all fs (SLeaf b items)) → root_of s = sblock (plug_all fs (SLeaf b items)) →
  post (cow_if_needed allocate_block (b :: map fblock fs)) s (λ eff s',
    ∃ fs' b', eff = b' :: map fblock fs' ∧ same_ctx fs fs' ∧ moves (writable s) s s' ∧
      tree s' (plug_all fs' (SLeaf b' items)) ∧ root_of s' = sblock (plug_all fs' (SLeaf b' items)) ∧
      (cow_on s → Forall (writable s) eff)).
Proof.
  intros Ht Hroot. unfold cow_if_needed. apply post_bind. eapply post_eq; [reflexivity|]. apply post_bind.
  eapply post_eq; [reflexivity|]. cbn beta.
  destruct ((0 <? ns_barrier (store s))%N && is_frozen_tree (tree_type (self s)))%bool eqn:E.
  - apply andb_prop in E as [E1%N.ltb_lt E2]. unfold cow_descent_path. apply post_bind. eapply post_eq; [reflexivity|].
    cbn beta. cbn [rev]. rewrite <- map_rev.
    eapply post_mono; [apply (post_cow_path allocate_block in_use s (writable s) _ (rev fs) [] s b items)|].
    + intros x Hx [_ [Hu _]]. done.
    + apply moves_refl.
    + by rewrite rev_involutive, (right_id_L [] (++)).
    + by rewrite rev_involutive, (right_id_L [] (++)).
    + constructor.
    + intros x n _ Hn Hgen [_ [_ (n' & Hn' & Hle)]]. rewrite Hn in Hn'. injection Hn' as <-. lia.
    + intros eff s' (gs' & b' & -> & Hsame & Hmv & Ht' & Hr' & Hall). exists (rev gs'), b'.
      rewrite (right_id_L [] (++)) in *. split_and!; try done. rewrite <- (rev_involutive fs).
      clear -Hsame. unfold same_ctx in *. induction Hsame as [|g g' gs gs' Hg _ IH]; cbn [rev]; [constructor|].
      apply Forall2_app; [done|]. by repeat constructor.
  - eapply post_eq; [reflexivity|]. exists fs, b. split_and!; [done|apply same_ctx_refl|apply moves_refl|done|done|].
    intros [H1%N.ltb_lt H2]. by rewrite H1, H2 in E.
Qed.

(** ** The fast paths *)
(** No frozen node changes its payload while copying is on. *)
Definition snap_ok s s' : Prop :=
  tree_type (self s') = tree_type (self s) ∧
  (cow_on s → ∀ b p, frozen_at s b → view s b = Some p → view s' b = Some p).

Definition leaf_has_room sh (key : K) : Prop := length (sleaf key sh) < max_leaf_items (K:=K) (V:=V) - 1.

Definition inserted (lvl : N) s s' sh key v : Prop :=
  ∃ sh', inv s' sh' ∧ entries sh' = om_insert key v (entries sh) ∧ (slevel sh' ≤ lvl)%N ∧
    (leaf_has_room sh key → snap_ok s s').

Lemma snap_ok_ext s s1 s' :
  store s1 = store s → tree_type (self s1) = tree_type (self s) → snap_ok s1 s' → snap_ok s s'.
Proof.
  intros Hst Hty [H1 H2]. split; [by rewrite H1|]. intros Hon b p Hf Hv.
  apply H2; unfold cow_on, frozen_at, view in *; by rewrite ?Hst, ?Hty.
Qed.

Lemma snap_ok_step s s' (b : N) n :
  step (λ x, x = b) s s' → ns_read (store s) b = Some n →
  leaf_frozen (ns_barrier (store s)) (tree_type (self s)) n = false → snap_ok s s'.
Proof.
  intros Hs Hn Hf. split; [by rewrite (st_self _ _ _ _ Hs)|]. intros [Hb Hty] x p [Hu (n' & Hn' & Hle)] Hv.
  apply (st_view _ _ _ _ Hs); [done| |done]. intros ->. rewrite Hn in Hn'. injection Hn' as <-.
  unfold leaf_frozen in Hf. rewrite Hty in Hf. apply N.ltb_lt in Hb. apply N.leb_le in Hle. by rewrite Hb, Hle in Hf.
Qed.

(** Handles that differ in their caches only. *)
Lemma inv_caches s sh (g : BTree K → BTree K) :
  inv s sh → (∀ t, tree_type (g t) = tree_type t ∧ root_block (g t) = root_block t ∧ frozen_view (g t) = frozen_view t) →
  cache_ok (on_self g s) sh → inv (on_self g s) sh.
Proof.
  intros (Ht & Hr & _) Hg Hc. destruct (Hg (self s)) as (G1 & G2 & G3). split_and!; [exact (tree_ext s (on_self g s) sh eq_refl G1 Ht)| |done].
  unfold root_of in *. cbn. by rewrite G1, G2, G3.
Qed.

(** A leaf of the tree rewritten in place, the caches kept. *)
Lemma leaf_update_inv s s' fs b items items' :
  inv s (plug_all fs (SLeaf b items)) → step (λ x, x = b) s s' → view s' b = Some (PLeaf items') →
  leaf_fits fs items' → inv s' (plug_all fs (SLeaf b items')).
Proof.
  intros (Ht & Hr & [Hc1 Hc2]) Hs Hv Hfit. split_and!; [by eapply leaf_write| |split].
  - transitivity (root_of s); [unfold root_of; by rewrite (st_self _ _ _ _ Hs), (st_root _ _ _ _ Hs)|].
    rewrite Hr. by apply sblock_plug_all.
  - intros fl Hfl He. rewrite (st_self _ _ _ _ Hs) in Hfl. rewrite (st_epoch _ _ _ _ Hs) in He. rewrite (Hc1 fl Hfl He).
    apply rightmost_plug_all. by left.
  - intros rl Hrl He. rewrite (st_self _ _ _ _ Hs) in Hrl. rewrite (st_epoch _ _ _ _ Hs) in He.
    rewrite (leaf_blocks_plug_all fs _ (SLeaf b items)) by done. by apply Hc2.
Qed.

Lemma try_read_some s b n s' : try_read b s = (inr (Some n), s') →
  s' = s ∧ node_type n = tree_type (self s) ∧ view s b = Some (payload n) ∧ ns_read (store s) b = Some n.
Proof.
  unfold try_read. destruct (read_node b s) as [[e|n'] s1] eqn:E; [by intros [=]|]. intros [= -> ->].
  unfold read_node in E. destruct (ns_read (store s) b) as [o|] eqn:Er; [|done].
  destruct ((node_type o =? tree_type (self s))%N && (item_count o <=? max_items o))%bool eqn:Eb; [|done].
  injection E as -> ->. apply andb_prop in Eb as [Et%N.eqb_eq _]. split_and!; [done|done| |done].
  unfold view. rewrite Er. cbn. by rewrite Et, N.eqb_refl.
Qed.

Lemma try_read_total s (b : N) : ∃ r : option (BTNode K V), try_read b s = (inr r, s).
Proof.
  unfold try_read. destruct (read_node b s) as [[e|n'] s1] eqn:E.
  - exists None. unfold read_node in E. repeat case_match; by simplify_eq.
  - exists (Some n'). unfold read_node in E. repeat case_match; by simplify_eq.
Qed.

Lemma post_try_inplace s sh key v :
  inv s sh → post (try_inplace key v) s (λ hit s', if hit then inserted (slevel sh) s s' sh key v else inv s' sh ∧ store s' = store s ∧ tree_type (self s') = tree_type (self s)).
Proof.
  intros Hinv. unfold try_inplace. apply post_bind. eapply post_eq; [reflexivity|]. apply post_bind.
  eapply post_eq; [reflexivity|]. cbn beta. destruct (range_leaf (self s)) as [rl|] eqn:Erl; [|by eapply post_eq].
  case_match eqn:Eg; [|by eapply post_eq]. rewrite !andb_true_iff in Eg. destruct Eg as [_ Eep%N.eqb_eq].
  apply post_bind. destruct (try_read_total s (rl_block rl)) as [r Hr]. eapply post_eq; [exact Hr|].
  apply post_bind. eapply post_eq; [reflexivity|]. cbv beta zeta.
  assert (post (modify (on_self (set_range None)) ;; mret false) s
            (λ hit s', if hit : bool then inserted (slevel sh) s s' sh key v else inv s' sh ∧ store s' = store s ∧ tree_type (self s') = tree_type (self s))) as Hmiss.
  { eapply post_eq; [reflexivity|]. split; [|done]. apply inv_caches; [done|done|].
    destruct Hinv as (_ & _ & [Hc1 _]). split; [exact Hc1|by intros rl' [=]]. }
  destruct r as [n|]; [|exact Hmiss]. cbn [mbind option_bind].
  destruct (payload n) as [items|] eqn:Ep; [|exact Hmiss].
  destruct (_ && _)%bool eqn:Efz; [|exact Hmiss]. apply andb_prop in Efz as [_ Efz%negb_true_iff].
  pose proof (binary_search_spec key items) as Hbs.
  destruct (binary_search key items) as [i|i]; [|exact Hmiss].
  destruct (try_read_some _ _ _ _ Hr) as (_ & Hty & Hview & Hread). rewrite Ep in Hview.
  pose proof Hinv as (Ht & _ & [_ Hc2]). destruct (leaf_blocks_spec _ _ (Hc2 rl Erl Eep)) as (fs & items0 & ->).
  destruct (tree_leaf _ _ _ _ Ht) as (Hc & Hfit & Hview0). rewrite Hview in Hview0. injection Hview0 as <-.
  destruct Hbs as ((v0 & Hi & _) & Hins & _). rewrite <- Hins.
  assert (in_interval (bounds fs).1 (bounds fs).2 key) as Hk.
  { destruct Hfit as (_ & Hall & _). rewrite Forall_forall in Hall. apply (Hall (key, v0)). by eapply list_elem_of_lookup_2. }
  apply post_bind, (post_write _ in_use); [done|]. intros s' Hs' Hv'. eapply post_eq; [reflexivity|].
  exists (plug_all fs (SLeaf (rl_block rl) (om_insert key v items))). split_and!.
  - eapply leaf_update_inv; [done|done|done|]. apply leaf_fits_insert; [done|done|]. rewrite Hins, length_insert. apply Hfit.
  - by apply leaf_ops_entries.
  - by rewrite (slevel_plug_all fs _ (SLeaf (rl_block rl) items)).
  - intros _. by eapply snap_ok_step.
Qed.

Lemma om_insert_snoc key (v : V) items lk lv :
  om_ok items → last items = Some (lk, lv) → klt lk key → om_insert key v items = items ++ [(key, v)].
Proof.
  intros Hok Hl Hlt. rewrite <- (right_id_L [] (++) items) at 1. apply (om_insert_app_r key v items []).
  destruct items as [|q items _] using rev_ind; [done|]. rewrite last_snoc in Hl. injection Hl as ->.
  apply Forall_app. split; [|by repeat constructor]. apply om_ok_app in Hok as (_ & _ & H).
  apply Forall_forall. intros p Hp. eapply klt_trans; [apply (H p (lk, lv) Hp); left|done].
Qed.

Lemma post_try_append s sh key v :
  inv s sh →
  post (try_append key v) s (λ hit s', if hit then inserted (slevel sh) s s' sh key v else inv s' sh ∧ store s' = store s ∧ tree_type (self s') = tree_type (self s)).
Proof.
  intros Hinv. unfold try_append. apply post_bind. eapply post_eq; [reflexivity|]. apply post_bind.
  eapply post_eq; [reflexivity|]. cbn beta. destruct (fast_leaf (self s)) as [fl|] eqn:Efl; [|by eapply post_eq].
  case_match eqn:Eg; [|by eapply post_eq]. rewrite !andb_true_iff in Eg.
  destruct Eg as [[[Elt%kltb_true Hpos%Nat.ltb_lt] Hroom%Nat.ltb_lt] Eep%N.eqb_eq].
  apply post_bind. destruct (try_read_total s (fl_block fl)) as [r Hr]. eapply post_eq; [exact Hr|].
  apply post_bind. eapply post_eq; [reflexivity|]. cbv beta zeta.
  assert (post (modify (on_self (set_fast None)) ;; mret false) s
            (λ hit s', if hit : bool then inserted (slevel sh) s s' sh key v else inv s' sh ∧ store s' = store s ∧ tree_type (self s') = tree_type (self s))) as Hmiss.
  { eapply post_eq; [reflexivity|]. split; [|done]. apply inv_caches; [done|done|].
    destruct Hinv as (_ & _ & [_ Hc2]). split; [by intros fl' [=]|exact Hc2]. }
  destruct r as [n|]; [|exact Hmiss]. cbn [mbind option_bind].
  destruct (payload n) as [items|] eqn:Ep; [|exact Hmiss].
  destruct (Nat.eqb_spec (length items) (fl_count fl)) as [Hlen|]; [|exact Hmiss].
  destruct (items !! (fl_count fl - 1)) as [[lk lv]|] eqn:Elast; [|exact Hmiss]. cbn [mbind option_bind].
  destruct (kcmp lk (fl_last_key fl)) eqn:Ec; [|exact Hmiss|exact Hmiss]. apply kcmp_eq in Ec as ->.
  destruct (leaf_frozen _ _ _) eqn:Efz; [exact Hmiss|].
  destruct (try_read_some _ _ _ _ Hr) as (_ & Hty & Hview & Hread). rewrite Ep in Hview.
  pose proof Hinv as (Ht & _ & [Hc1 _]). destruct (rightmost_leaf sh) as (fs & items0 & Heq & Hall).
  rewrite <- (Hc1 fl Efl Eep) in Heq. subst sh.
  destruct (tree_leaf _ _ _ _ Ht) as (Hc & Hfit & Hview0). rewrite Hview in Hview0. injection Hview0 as <-.
  assert (last items = Some (fl_last_key fl, lv)) as Hla by (by rewrite last_lookup, Hlen, <- Nat.sub_1_r).
  assert (om_insert key v items = items ++ [(key, v)]) as Hsnoc by (eapply om_insert_snoc; [apply Hfit|done|done]).
  assert (in_interval (bounds fs).1 (bounds fs).2 key) as Hk.
  { split; [|by rewrite (bounds_last fs Hall)]. destruct Hfit as (_ & Hin & _). rewrite Forall_forall in Hin.
    eapply above_trans; [|apply klt_kleb, Elt]. apply (Hin (fl_last_key fl, lv)). by eapply list_elem_of_lookup_2. }
  apply post_bind, (post_write _ in_use); [done|]. intros s' Hs' Hv'. apply post_bind. eapply post_eq; [reflexivity|].
  eapply post_eq; [reflexivity|]. exists (plug_all fs (SLeaf (fl_block fl) (om_insert key v items))).
  assert (inv s' (plug_all fs (SLeaf (fl_block fl) (om_insert key v items)))) as Hinv'.
  { eapply leaf_update_inv; [done|done|by rewrite Hsnoc|]. apply leaf_fits_insert; [done|done|].
    rewrite Hsnoc, length_app. cbn. lia. }
  split_and!.
  - apply inv_caches; [done|done|]. destruct Hinv' as (_ & _ & [_ Hc2']). split; [|exact Hc2'].
    cbn. intros fl' [= <-] _. cbn. by rewrite rightmost_plug_all_last.
  - by apply leaf_ops_entries.
  - by rewrite (slevel_plug_all fs _ (SLeaf (fl_block fl) items)).
  - intros _. by eapply (snap_ok_step s s').
Qed.

(** ** The descent of [insert] *)
Definition insert_slow (retry : M (S:=S) unit) (fuel : nat) (key : K) (v : V) : M unit :=
  r ← view_root;
  modify (on_self (set_root r)) ;;
  '(leaf, path, rightmost) ← find_leaf fuel key r [] true;
  path ← cow_if_needed allocate_block path;
  match path, payload leaf with
  | b :: path, PLeaf items =>
      if max_leaf_items - 1 <=? length items then split_leaf allocate_block b leaf path ;; retry
      else
        let items := match binary_search key items with
                     | inl i => <[i:=(key, v)]> items
                     | inr i => take i items ++ (key, v) :: drop i items
                     end in
        write_node b (set_payload (PLeaf items) leaf) ;; refresh_caches b rightmost items
  | _, _ => raise Panicked
  end.

Lemma btree_insert_S tries fuel key v s :
  btree_insert allocate_block (Datatypes.S tries) fuel key v s =
  (hit ← try_inplace key v;
   if (hit : bool) then mret ()
   else hit ← try_append key v;
        if (hit : bool) then mret () else insert_slow (btree_insert allocate_block tries fuel key v) fuel key v) s.
Proof. done. Qed.

Lemma root_fix s sh : root_of s = sblock sh → root_of (on_self (set_root (root_of s)) s) = sblock sh.
Proof. intros <-. unfold root_of. cbn. destruct (frozen_view (self s)); [done|]. apply root_idem. Qed.

Lemma inv_root s sh : inv s sh → inv (on_self (set_root (root_of s)) s) sh.
Proof.
  intros (Ht & Hr & Hc). split_and!; [by apply (tree_ext s)|by apply root_fix|done].
Qed.

(** The descent and the copy: a context, the leaf of the key, and the path. *)
Definition at_leaf s s2 sh key fs fs' (b' : N) items n : Prop :=
  tree s2 (plug_all fs' (SLeaf b' items)) ∧ root_of s2 = sblock (plug_all fs' (SLeaf b' items)) ∧
  moves (writable s) s s2 ∧ same_ctx fs fs' ∧ (∃ b, sh = plug_all fs (SLeaf b items)) ∧
  payload n = PLeaf items ∧ node_type n = tree_type (self s2) ∧ ctx_wf fs' ∧ leaf_fits fs' items ∧
  in_interval (bounds fs').1 (bounds fs').2 key ∧ (cow_on s → writable s b').

Lemma post_descend {A} s sh fuel key (k : BTNode K V → bool → list N → M A) Q :
  tree s sh → root_of s = sblock sh → fuel_for fuel sh →
  (∀ s2 fs fs' b' items n, at_leaf s s2 sh key fs fs' b' items n →
     post (k n (forallb last_frame fs) (b' :: map fblock fs')) s2 Q) →
  post ('(leaf, path, rm) ← find_leaf fuel key (root_of s) [] true;
        path ← cow_if_needed allocate_block path; k leaf rm path) s Q.
Proof.
  intros Ht Hroot Hfuel HQ. pose proof Ht as (Hr & Hwf & Hb & _). rewrite Hroot.
  destruct (find_leaf_spec s sh [] fuel key true Hr Hwf I Hb) as (fs & b & items & n & Hfind & Heq & Hp & Hty & Hint); [done|done|].
  rewrite (right_id_L [] (++)) in Hfind, Hint. apply post_bind. eapply post_eq; [exact Hfind|]. cbn [fst snd andb].
  subst sh. apply post_bind. eapply post_mono; [by apply post_cow_if_needed|].
  intros eff s2 (fs' & b' & -> & Hsame & Hmv & Ht2 & Hr2 & Hall). cbn beta.
  eapply (HQ s2 fs fs' b' items n).
  destruct (tree_leaf _ _ _ _ Ht2) as (Hc2 & Hfit2 & _). destruct (same_ctx_facts _ _ Hsame) as (Hbd & _).
  unfold at_leaf. rewrite Hbd. do 4 (split; [done|]). split; [by exists b|]. split; [done|].
  split; [by rewrite Hty, (proj1 (mv_type _ _ _ _ Hmv))|]. do 3 (split; [done|]).
  intros Hon. by apply Hall, Forall_cons in Hon as [? _].
Qed.

Lemma at_leaf_caches s s2 sh key fs fs' b' items n items' :
  at_leaf s s2 sh key fs fs' b' items n → cache_ok s sh → forallb last_frame fs = false →
  ∀ fl, fast_leaf (self s2) = Some fl → fl_epoch fl = epoch s2 → fl_block fl = rightmost (plug_all fs' (SLeaf b' items')).
Proof.
  intros (_ & _ & Hmv & Hsame & [b ->] & _) [Hc1 _] Hnl fl Hfl He.
  pose proof (mv_self _ _ _ _ Hmv) as Hself. injection Hself as _ Hfast _ _. rewrite Hfast in Hfl.
  rewrite (mv_epoch _ _ _ _ Hmv) in He. rewrite (Hc1 fl Hfl He), (same_ctx_rightmost _ _ _ Hsame).
  apply rightmost_plug_all. by right.
Qed.

(** The write to the leaf of a copied path keeps the frozen nodes. *)
Lemma at_leaf_snap s s2 s3 s4 sh key fs fs' b' items n :
  at_leaf s s2 sh key fs fs' b' items n → step (λ x, x = b') s2 s3 →
  store s4 = store s3 → tree_type (self s4) = tree_type (self s3) → snap_ok s s4.
Proof.
  intros (_ & _ & Hmv & _ & _ & _ & _ & _ & _ & _ & Hw) Hs3 Hst Hty. destruct (mv_type _ _ _ _ Hmv) as [Hty2 _].
  split; [by rewrite Hty, (st_self _ _ _ _ Hs3)|]. intros Hon b p Hf Hv.
  assert (view s4 b = view s3 b) as -> by (unfold view; by rewrite Hst, Hty).
  apply (st_view _ _ _ _ Hs3).
  - apply (mv_use _ _ _ _ Hmv), Hf.
  - intros ->. by apply (Hw Hon).
  - eapply (moves_view_le _ _ _ _ [b] Hmv); [constructor; [apply Hf|done]| |by left|exact Hv].
    intros x ->%list_elem_of_singleton Hx. by apply Hx.
Qed.

(** A leaf with room. *)
Lemma post_insert_leaf s s2 sh key v fs fs' b' items n :
  at_leaf s s2 sh key fs fs' b' items n → cache_ok s sh → length items < max_leaf_items (K:=K) (V:=V) - 1 →
  post (let items := match binary_search key items with
                     | inl i => <[i:=(key, v)]> items
                     | inr i => take i items ++ (key, v) :: drop i items
                     end in
        write_node b' (set_payload (PLeaf items) n) ;; refresh_caches b' (forallb last_frame fs) items) s2
    (λ _ s', inserted (slevel sh) s s' sh key v).
Proof.
  intros Hat Hcache Hroom. pose proof Hat as (Ht2 & Hr2 & Hmv & Hsame & [b ->] & Hp & Hty & Hc & Hfit & Hk & _).
  assert (match binary_search key items with
          | inl i => <[i:=(key, v)]> items
          | inr i => take i items ++ (key, v) :: drop i items
          end = om_insert key v items) as ->.
  { pose proof (binary_search_spec key items) as Hbs. destruct (binary_search key items); [by destruct Hbs as (_ & -> & _)|].
    by destruct Hbs as (_ & -> & _). }
  cbv zeta. apply post_bind, (post_write _ in_use); [done|]. intros s3 Hs3 Hv3.
  pose proof (length_om_insert key v items) as Hlen.
  assert (tree s3 (plug_all fs' (SLeaf b' (om_insert key v items)))) as Ht3.
  { eapply leaf_write; [exact Ht2|exact Hs3|exact Hv3|]. apply leaf_fits_insert; [done|done|]. lia. }
  assert (root_of s3 = sblock (plug_all fs' (SLeaf b' (om_insert key v items)))) as Hr3.
  { transitivity (root_of s2); [unfold root_of; by rewrite (st_self _ _ _ _ Hs3), (st_root _ _ _ _ Hs3)|].
    rewrite Hr2. by apply sblock_plug_all. }
  unfold refresh_caches. apply post_bind. eapply post_eq; [reflexivity|]. cbn beta.
  destruct (om_insert key v items) as [|[lo vlo] rest] eqn:Ei; [by destruct items as [|[k0 ?] ?]; cbn in Ei; repeat case_match|].
  rewrite <- Ei in *. destruct (last (om_insert key v items)) as [[hi vhi]|] eqn:El; [|by rewrite Ei, last_None in El].
  rewrite Ei at 1. cbn [head]. eapply post_eq; [reflexivity|].
  exists (plug_all fs' (SLeaf b' (om_insert key v items))). split_and!.
  - set (g := λ t : BTree K, _). split_and!; [|..|split].
    + apply (tree_ext s3); [done| |done]. unfold g. cbn. by case_match.
    + rewrite <- Hr3. unfold root_of, g. cbn. by destruct (forallb last_frame fs).
    + intros fl. unfold g. cbn. destruct (forallb last_frame fs) eqn:Erm.
      * cbn. intros [= <-] _. cbn. rewrite (same_ctx_rightmost _ _ _ Hsame). by rewrite rightmost_plug_all_last.
      * rewrite (st_self _ _ _ _ Hs3), (st_epoch _ _ _ _ Hs3). by eapply at_leaf_caches.
    + intros rl. unfold g. cbn. intros [= <-] _. cbn. apply leaf_blocks_hole. left.
  - destruct (leaf_ops_entries fs' b' b' items key Hc Hk) as (Hins & _). rewrite Hins. f_equal.
    rewrite !plug_all_entries. destruct (same_ctx_facts _ _ Hsame) as (_ & _ & -> & ->). done.
  - rewrite (same_ctx_plug fs fs' (SLeaf b items)); [done|done|done].
  - intros _. eapply at_leaf_snap; [exact Hat|exact Hs3|done|]. cbn. by case_match.
Qed.

Lemma post_insert_slow s sh retry fuel key v lvl :
  inv s sh → fuel_for fuel sh → (slevel sh < 65535)%N → (slevel sh ≤ lvl)%N →
  (max_leaf_items (K:=K) (V:=V) - 1 ≤ length (sleaf key sh) →
   ∀ s1 sh1, inv s1 sh1 → entries sh1 = entries sh → (slevel sh1 ≤ slevel sh + 1)%N →
     length (sleaf key sh1) < max_leaf_items (K:=K) (V:=V) - 1 →
     post retry s1 (λ _ s', inserted lvl s1 s' sh1 key v)) →
  post (insert_slow retry fuel key v) s (λ _ s', inserted lvl s s' sh key v).
Proof.
  intros Hinv Hfuel Hlev Hlvl Hretry. unfold insert_slow. apply post_bind. eapply post_eq; [apply view_root_ok|].
  apply post_bind. eapply post_eq; [reflexivity|]. cbn beta. pose proof (inv_root _ _ Hinv) as (Ht1 & Hr1 & Hc1).
  set (s1 := on_self (set_root (root_of s)) s) in *.
  assert (root_of s = root_of s1) as -> by (rewrite Hr1; apply Hinv).
  eapply (post_descend s1 sh fuel key (λ leaf rm path, match path, payload leaf with
    | b :: path, PLeaf items => if max_leaf_items - 1 <=? length items then split_leaf allocate_block b leaf path ;; retry
        else let items := match binary_search key items with
                          | inl i => <[i:=(key, v)]> items
                          | inr i => take i items ++ (key, v) :: drop i items end in
             write_node b (set_payload (PLeaf items) leaf) ;; refresh_caches b rm items
    | _, _ => raise Panicked end)); [done|done|done|].
  intros s2 fs fs' b' items n Hat. pose proof Hat as (Ht2 & Hr2 & Hmv & Hsame & [b ->] & Hp & Hty & Hc & Hfit & Hk & _).
  destruct (same_ctx_facts _ _ Hsame) as (Hbd & _ & Hpre & Hpost).
  assert (sleaf key (plug_all fs (SLeaf b items)) = items) as Hsl.
  { apply (sleaf_plug_all key fs (SLeaf b items)); [|by rewrite <- Hbd].
    destruct Ht1 as (_ & Hwf & _). by apply plug_all_wf in Hwf as [? _]. }
  assert (slevel (plug_all fs' (SLeaf b' items)) = slevel (plug_all fs (SLeaf b items))) as Hsl' by (by apply same_ctx_plug).
  rewrite Hp. cbv iota. destruct (Nat.leb_spec (max_leaf_items - 1) (length items)) as [Hfull|Hroom].
  - apply post_bind. eapply post_mono; [apply post_split_leaf; try done; by rewrite Hsl'|].
    intros [] s3 (sh3 & Ht3 & Hb3 & He3 & Hl3 & Hself3 & Hroot3 & Hlf3). cbn beta.
    assert (entries sh3 = entries (plug_all fs (SLeaf b items))) as He3'.
    { rewrite He3, !plug_all_entries. by rewrite Hpre, Hpost. }
    eapply post_mono; [apply (Hretry ltac:(by rewrite Hsl) s3 sh3)|].
    + split_and!; [done| |split; rewrite Hself3; by intros ? [=]].
      rewrite Hb3, <- Hr2. unfold root_of. by rewrite Hself3, Hroot3.
    + done.
    + by rewrite <- Hsl'.
    + by apply Hlf3.
    + intros [] s4 (sh4 & Hinv4 & He4 & Hl4 & _). exists sh4. rewrite <- He3'. split_and!; [done|done|done|].
      unfold leaf_has_room. rewrite Hsl. lia.
  - eapply post_mono; [by eapply post_insert_leaf|]. intros [] s3 (sh3 & Hinv3 & He3 & Hl3 & Hsnap).
    exists sh3. split_and!; [done|done|lia|]. intros Hr. by eapply (snap_ok_ext s s1), Hsnap.
Qed.

(** ** [insert] and [remove] *)
Lemma inserted_ext lvl s s1 s' sh key v :
  store s1 = store s → tree_type (self s1) = tree_type (self s) →
  inserted lvl s1 s' sh key v → inserted lvl s s' sh key v.
Proof.
  intros Hst Hty (sh' & H1 & H2 & H3 & H4). exists sh'. split_and!; try done. intros Hr.
  by eapply snap_ok_ext, H4.
Qed.

Lemma inserted_weaken lvl lvl' s s' sh key v :
  (lvl ≤ lvl')%N → inserted lvl s s' sh key v → inserted lvl' s s' sh key v.
Proof. intros Hl (sh' & H1 & H2 & H3 & H4). exists sh'. split_and!; try done. lia. Qed.

(** The fast paths first, then the descent. *)
Lemma post_insert_via s sh tries fuel key v lvl :
  inv s sh → (slevel sh ≤ lvl)%N →
  (∀ s1, inv s1 sh → post (insert_slow (btree_insert allocate_block tries fuel key v) fuel key v) s1
           (λ _ s', inserted lvl s1 s' sh key v)) →
  post (btree_insert allocate_block (Datatypes.S tries) fuel key v) s (λ _ s', inserted lvl s s' sh key v).
Proof.
  intros Hinv Hlvl Hslow. eapply post_ext; [apply btree_insert_S|]. apply post_bind.
  eapply post_mono; [by apply post_try_inplace|]. intros [] s1 H1; cbn beta iota.
  { eapply post_eq; [reflexivity|]. by eapply inserted_weaken. }
  destruct H1 as (Hinv1 & Hst1 & Hty1). apply post_bind. eapply post_mono; [by apply post_try_append|].
  intros [] s2 H2; cbn beta iota.
  { eapply post_eq; [reflexivity|]. eapply inserted_ext; [exact Hst1|exact Hty1|]. by eapply inserted_weaken. }
  destruct H2 as (Hinv2 & Hst2 & Hty2). eapply post_mono; [by apply Hslow|]. intros [] s' H'.
  eapply inserted_ext; [exact Hst1|exact Hty1|]. by eapply inserted_ext.
Qed.

Lemma post_insert_room s sh tries fuel key v :
  inv s sh → fuel_for fuel sh → (slevel sh < 65535)%N → leaf_has_room sh key →
  post (btree_insert allocate_block (Datatypes.S tries) fuel key v) s (λ _ s', inserted (slevel sh) s s' sh key v).
Proof.
  intros Hinv Hfuel Hlev Hroom. apply post_insert_via; [done|lia|]. intros s1 Hinv1.
  apply post_insert_slow; [done|done|done|lia|]. unfold leaf_has_room in Hroom. lia.
Qed.

(** One split is enough: two tries always suffice. *)
Lemma post_insert s sh tries fuel key v :
  inv s sh → 2 ≤ tries → N.to_nat (slevel sh) + 1 < fuel → (slevel sh < 65534)%N →
  post (btree_insert allocate_block tries fuel key v) s (λ _ s', inserted (slevel sh + 1) s s' sh key v).
Proof.
  intros Hinv Htries Hfuel Hlev. destruct tries as [|[|tries]]; [lia|lia|].
  apply post_insert_via; [done|lia|]. intros s1 Hinv1.
  apply post_insert_slow; [done|unfold fuel_for; lia|lia|lia|]. intros _ s2 sh2 Hinv2 He2 Hl2 Hroom.
  eapply post_mono; [apply post_insert_room; [exact Hinv2|unfold fuel_for; lia|lia|exact Hroom]|].
  intros [] s' H'. by eapply inserted_weaken.
Qed.

Lemma post_remove s sh fuel key :
  inv s sh → fuel_for fuel sh →
  post (remove_inner allocate_block fuel key) s (λ r s',
    ∃ sh', inv s' sh' ∧ entries sh' = om_remove key (entries sh) ∧ slevel sh' = slevel sh ∧
      r = bool_decide (is_Some (om_get key (entries sh))) ∧ snap_ok s s').
Proof.
  intros Hinv Hfuel. unfold remove_inner. apply post_bind. eapply post_eq; [reflexivity|]. apply post_bind.
  eapply post_eq; [reflexivity|]. set (s1 := on_self _ _). pose proof Hinv as (Ht & Hr & _).
  assert (inv s1 sh) as Hinv1.
  { split_and!; [by apply (tree_ext s)|done|]. split; by intros ? [=]. }
  apply post_bind. eapply post_eq; [apply view_root_ok|]. apply post_bind. eapply post_eq; [reflexivity|]. cbn beta.
  pose proof (inv_root _ _ Hinv1) as (Ht1 & Hr1 & Hc1).
  set (s1' := on_self (set_root (root_of s1)) s1) in *. assert (root_of s1 = root_of s1') as -> by (rewrite Hr1; apply Hinv1).
  eapply (post_descend s1' sh fuel key (λ leaf _ path, match path, payload leaf with
    | b :: _, PLeaf items => match binary_search key items with
        | inl i => write_node b (set_payload (PLeaf (take i items ++ drop (i + 1) items)) leaf) ;; mret true
        | inr _ => mret false end
    | _, _ => raise Panicked end)); [done|done|done|].
  intros s2 fs fs' b' items n Hat. pose proof Hat as (Ht2 & Hr2 & Hmv & Hsame & [b ->] & Hp & Hty & Hc & Hfit & Hk & _).
  assert (∀ s3, self s3 = self s2 → fast_leaf (self s3) = None ∧ range_leaf (self s3) = None) as Hnone.
  { intros s3 ->. pose proof (mv_self _ _ _ _ Hmv) as Hself. by injection Hself as _ -> ->. }
  assert (entries (plug_all fs' (SLeaf b' items)) = entries (plug_all fs (SLeaf b items))) as Hent.
  { rewrite !plug_all_entries. destruct (same_ctx_facts _ _ Hsame) as (_ & _ & -> & ->). done. }
  destruct (leaf_ops_entries fs' b' b' items key Hc Hk) as (_ & Hrem & Hget). rewrite Hent in Hrem, Hget.
  assert (∀ sh', slevel sh' = slevel (plug_all fs' (SLeaf b' items)) → slevel sh' = slevel (plug_all fs (SLeaf b items))) as Hlv.
  { intros sh' ->. by apply same_ctx_plug. }
  rewrite Hp. cbv iota. pose proof (binary_search_spec key items) as Hbs. destruct (binary_search key items) as [i|i].
  - destruct Hbs as ((v0 & Hi & Hg) & _ & Hrm). rewrite <- Hrm. apply post_bind, (post_write _ in_use); [done|].
    intros s3 Hs3 Hv3. eapply post_eq; [reflexivity|]. exists (plug_all fs' (SLeaf b' (om_remove key items))). split_and!.
    + destruct (Hnone s3 (st_self _ _ _ _ Hs3)) as [N1 N2]. split_and!; [|..|split].
      * eapply leaf_write; [exact Ht2|exact Hs3|exact Hv3|by apply leaf_fits_remove].
      * transitivity (root_of s2); [unfold root_of; by rewrite (st_self _ _ _ _ Hs3), (st_root _ _ _ _ Hs3)|].
        rewrite Hr2. by apply sblock_plug_all.
      * intros fl. by rewrite N1.
      * intros rl. by rewrite N2.
    + done.
    + apply Hlv. by apply slevel_plug_all.
    + rewrite Hget, Hg. symmetry. apply bool_decide_eq_true_2. by eexists.
    + eapply (snap_ok_ext s s1'); [done|done|]. by eapply at_leaf_snap.
  - destruct Hbs as (Hg & _ & Hrm & _). eapply post_eq; [reflexivity|]. exists (plug_all fs' (SLeaf b' items)).
    rewrite Hrm in Hrem. split_and!.
    + destruct (Hnone s2 eq_refl) as [N1 N2]. split_and!; [done|done|]. split; [intros fl; by rewrite N1|intros rl; by rewrite N2].
    + done.
    + by apply Hlv.
    + rewrite Hget, Hg. symmetry. apply bool_decide_eq_false_2. by intros [? [=]].
    + eapply (snap_ok_ext s s1'); [done|done|]. eapply at_leaf_snap; [exact Hat|apply step_refl|done|done].
Qed.
End ops.
