(* ===== verification/BTreeSpec.v ===== *)
(** * What the on-disk B+ tree promises

    The claims about [BTree], the in-memory node store their witnesses run on,
    and two faults: [lookup_floor] after removals, and the in-place
    reparenting of internal splits, which unfreezes nodes of a snapshot. *)
From S2P Require Import Prelude OrdMap BTreeModel BTreeShape BTreeReads BTreeWrites BTreeInsert BTreeCow BTreeOps.
From Stdlib Require Import NArith ZArith Lia.
From stdpp Require Import base numbers gmap option list.
#[local] Open Scope nat_scope.

(** ** A node store in memory *)
Record MemStore (K V : Type) := mkMem {
  mem : gmap N (BTNode K V); mem_roots : gmap N N; mem_barrier : N; mem_next : N
}.
Arguments mkMem {K V} _ _ _ _.
Arguments mem {K V} _.
Arguments mem_roots {K V} _.
Arguments mem_barrier {K V} _.
Arguments mem_next {K V} _.

#[export] Instance mem_NodeStore K V : NodeStore (MemStore K V) K V := {
  ns_read σ b := mem σ !! b;
  ns_write b n σ := mkMem (<[b:=n]> (mem σ)) (mem_roots σ) (mem_barrier σ) (mem_next σ);
  ns_barrier := mem_barrier;
  ns_root σ t d := default d (mem_roots σ !! t);
  ns_set_root t r σ := mkMem (mem σ) (<[t:=r]> (mem_roots σ)) (mem_barrier σ) (mem_next σ)
}.

#[export] Instance mem_laws K V : NodeStoreLaws (MemStore K V) K V.
Proof.
  constructor; cbn; try done.
  - intros σ b n b'. rewrite lookup_insert. by case_decide.
  - intros σ t r d. by rewrite lookup_insert_eq.
  - intros σ t d. by destruct (mem_roots σ !! t).
Qed.

Definition mem_alloc {K V} (σ : MemStore K V) : (io_error + N) * MemStore K V :=
  if (mem_next σ =? 0)%N then (inl OutOfMemory, σ)
  else (inr (mem_next σ), mkMem (mem σ) (mem_roots σ) (mem_barrier σ) (mem_next σ + 1)).

Definition mem_in_use {K V} (σ : MemStore K V) (b : N) : Prop := (b < mem_next σ)%N.

#[export] Instance mem_AllocSpec K V : AllocSpec (@mem_alloc K V) mem_in_use.
Proof.
  constructor; cbn; try done.
  - intros σ b σ'. unfold mem_alloc, mem_in_use. case_match eqn:E; [done|]. apply N.eqb_neq in E. intros [= <- <-]. cbn. lia.
  - intros σ r σ'. unfold mem_alloc, mem_in_use. case_match; intros [= <- <-]; [done|]. cbn. split; [|done].
    intros b Hb. split; [lia|done].
Qed.

(** [remove], whose allocator always fails. *)
Definition no_alloc {S} (σ : S) : (io_error + N) * S := (inl OutOfMemory, σ).

#[export] Instance no_alloc_spec {S K V} `{!NodeStore S K V} (allocate_block : S → (io_error + N) * S) in_use
  `{!AllocSpec allocate_block in_use} : AllocSpec no_alloc in_use.
Proof.
  constructor; try done.
  - apply (in_use_write (allocate_block := allocate_block)).
  - apply (in_use_set_root (allocate_block := allocate_block)).
  - intros σ r σ' [= <- <-]. split; [|done]. intros b Hb. by split.
Qed.

(** ** Client programs *)
Section programs.
Context {K V S : Type} `{!OrdKey K, !PodSizes K V, !SizesOk K V, !NodeStore S K V, !NodeStoreLaws S K V}.
Context (allocate_block : S → (io_error + N) * S) (in_use : S → N → Prop).
Context `{!AllocSpec allocate_block in_use}.
#[local] Abbreviation state := (St K S).

Inductive bt_op := OpInsert (key : K) (value : V) | OpRemove (key : K).

Definition bt_apply (fuel : nat) (o : bt_op) : M (S:=S) unit :=
  match o with
  | OpInsert key value => btree_insert allocate_block 2 fuel key value
  | OpRemove key => remove_inner allocate_block fuel key ;; mret ()
  end.

Fixpoint bt_run (fuel : nat) (ops : list bt_op) : M (S:=S) unit :=
  match ops with [] => mret () | o :: ops => bt_apply fuel o ;; bt_run fuel ops end.

Definition map_op (m : list (K * V)) (o : bt_op) : list (K * V) :=
  match o with OpInsert key value => om_insert key value m | OpRemove key => om_remove key m end.

Lemma post_run fuel ops (s : state) (sh : shape K V) :
  inv in_use s sh → N.to_nat (slevel sh) + length ops + 1 < fuel → (slevel sh + N.of_nat (length ops) < 65534)%N →
  post allocate_block (bt_run fuel ops) s (λ _ s',
    ∃ sh', inv in_use s' sh' ∧ entries sh' = foldl map_op (entries sh) ops ∧ fuel_for fuel sh').
Proof.
  revert s sh. induction ops as [|o ops IH]; intros s sh Hinv Hf Hl; cbn [length bt_run foldl] in *.
  { eapply post_eq; [reflexivity|]. exists sh. split_and!; [done|done|unfold fuel_for; lia]. }
  apply post_bind. destruct o as [key value|key]; cbn [bt_apply].
  - eapply post_mono; [eapply (post_insert allocate_block in_use s sh); [done|lia|lia|lia]|].
    intros [] s1 (sh1 & Hinv1 & He1 & Hl1 & _). cbn beta.
    eapply post_mono; [apply (IH s1 sh1 Hinv1); lia|]. intros [] s' (sh' & H1 & H2 & H3). exists sh'. by rewrite H2, He1.
  - apply post_bind. eapply post_mono; [eapply (post_remove allocate_block in_use s sh); [done|unfold fuel_for; lia]|].
    intros r s1 (sh1 & Hinv1 & He1 & Hl1 & _). eapply post_eq; [reflexivity|].
    eapply post_mono; [apply (IH s1 sh1 Hinv1); rewrite Hl1; lia|]. intros [] s' (sh' & H1 & H2 & H3). exists sh'. by rewrite H2, He1.
Qed.

Lemma inv_tree_ok (s : state) (sh : shape K V) : inv in_use s sh → tree_ok s sh.
Proof. intros ((H1 & H2 & H3 & H4 & H5 & _) & Hr & _). by split_and!. Qed.

Lemma post_init_empty (s : state) root :
  in_use (store s) root → root ≠ 0%N → root_of s = root → fast_leaf (self s) = None → range_leaf (self s) = None →
  post allocate_block (init_empty root (tree_type (self s))) s (λ _ s', inv in_use s' (SLeaf root [])).
Proof.
  intros Hu Hz Hr Hf Hg. eapply post_eq; [reflexivity|]. unfold on_store. cbn. split_and!.
  - split_and!.
    + unfold real, view. cbn. rewrite read_write, decide_True by done. cbn. by rewrite N.eqb_refl.
    + split_and!; [constructor|constructor|cbn; lia].
    + done.
    + constructor; [apply not_elem_of_nil|constructor].
    + by constructor.
    + constructor; [|done]. cbn. by apply in_use_write.
  - unfold root_of in *. cbn. destruct (frozen_view (self s)); [done|]. by rewrite root_write.
  - split; cbn; by rewrite ?Hf, ?Hg.
Qed.

(** C2: a B+ tree initialised at a root block and driven by any sequence of
    insertions and removals behaves as an ordered map. With enough fuel for
    the descents (one more than the number of operations bounds the height;
    fewer than 65533 operations keep the 16-bit level from wrapping), the run
    ends, and either the allocator failed in it, or every lookup returns what
    the map holds and the full iteration lists exactly the map's bindings in
    key order. Fast paths, leaf and internal splits, root growth in place and
    snapshot path copies never show. *)
Theorem btree_refines_map (s : state) (root : N) (fuel : nat) (ops : list bt_op) :
  in_use (store s) root → root ≠ 0%N → root_of s = root → fast_leaf (self s) = None → range_leaf (self s) = None →
  (N.of_nat (length ops) < 65533)%N → length ops + 1 < fuel →
  match (init_empty root (tree_type (self s)) ;; bt_run fuel ops) s with
  | (inr _, s') =>
      let m := foldl map_op [] ops in
      om_ok m ∧ (∀ key, btree_lookup fuel key s' = (inr (om_get key m), s')) ∧ iter_all fuel s' = (inr m, s')
  | (inl e, _) => ∃ σ σ', allocate_block σ = (inl e, σ')
  end.
Proof.
  intros Hu Hz Hr Hf Hg Hlen Hfuel.
  assert (post allocate_block (init_empty root (tree_type (self s)) ;; bt_run fuel ops) s (λ _ s',
    ∃ sh', inv in_use s' sh' ∧ entries sh' = foldl map_op [] ops ∧ fuel_for fuel sh')) as Hpost.
  { apply post_bind. eapply post_mono; [by apply post_init_empty|]. intros [] s1 Hinv. cbn beta.
    eapply post_mono; [apply (post_run fuel ops s1 (SLeaf root []) Hinv); cbn; lia|]. done. }
  unfold post in Hpost. destruct ((init_empty root _ ;; bt_run fuel ops) s) as [[e|u] s']; [done|].
  destruct Hpost as (sh & Hinv & He & Hfu). pose proof (inv_tree_ok _ _ Hinv) as Hok. cbv zeta. rewrite <- He. split_and!.
  - destruct Hok as (_ & _ & Hwf & _). by eapply shape_entries_ok.
  - intros key. by apply lookup_spec.
  - by apply iter_all_spec.
Qed.
End programs.

(** ** Snapshot views *)
Section snapshots.
Context {K V S : Type} `{!OrdKey K, !PodSizes K V, !SizesOk K V, !NodeStore S K V, !NodeStoreLaws S K V}.
Context (allocate_block : S → (io_error + N) * S) (in_use : S → N → Prop).
Context `{!AllocSpec allocate_block in_use}.
#[local] Abbreviation state := (St K S).
Implicit Types (s : state) (sh : shape K V).

(** The same store read through a frozen handle at [root]. *)
Definition frozen_handle (root : N) s : state :=
  on_self (λ t, btree_new_frozen root (tree_type t)) s.

(** A shape a snapshot recorded: held by the store, all its nodes frozen. *)
Definition snapshot_view s sh : Prop :=
  real (view s) sh ∧ shape_wf None None sh ∧ balanced sh ∧ Forall (frozen_at in_use s) (blocks sh).

Lemma snapshot_read s s' sh fuel :
  snapshot_view s sh → fuel_for fuel sh → cow_on s → snap_ok in_use s s' →
  iter_all fuel (frozen_handle (sblock sh) s') = (inr (entries sh), frozen_handle (sblock sh) s').
Proof.
  intros (Hr & Hwf & Hb & Hfz) Hfuel Hon [Hty Hsnap]. unfold iter_all.
  rewrite (bind_ok _ _ _ _ _ (view_root_ok (frozen_handle (sblock sh) s'))). cbn [root_of frozen_handle on_self self btree_new_frozen frozen_view root_block].
  apply (collect_pairs_spec _ sh fuel (None, None) []); [|done|done|done].
  eapply real_frame; [|exact Hr]. intros b p Hb' Hv. rewrite Forall_forall in Hfz.
  change (view (frozen_handle (sblock sh) s') b) with (view s' b). by apply Hsnap; [|apply Hfz|].
Qed.


(** [lookup_floor] returns without an error, and a pair it returns is
    the floor: a binding of the tree at or below the key with none in
    between; when it returns nothing, the key itself is not bound. *)
Theorem lookup_floor_sound s sh fuel key :
  tree_ok s sh → fuel_for fuel sh →
  ∃ r, lookup_floor fuel key s = (inr r, s) ∧
    match r with
    | Some (k, v) => (k, v) ∈ entries sh ∧ kleb k key = true ∧
                     ∀ p, p ∈ entries sh → kleb p.1 key = true → kleb p.1 k = true
    | None => om_get key (entries sh) = None
    end.
Proof.
  intros Ht Hf. destruct (lookup_floor_spec s sh fuel key Ht Hf) as (r & Hr & Hfl). exists r. split; [done|].
  destruct Ht as (_ & _ & Hwf & _). pose proof (shape_entries_ok _ _ _ Hwf) as Hok. destruct Hfl as [->|[-> Hg]]; [|done].
  destruct (om_floor key (entries sh)) as [[k v]|] eqn:E; [by apply om_floor_spec|by apply om_floor_None].
Qed.
End snapshots.

(** ** Concrete runs *)

(** Pairs of 1000 bytes and separators of 1300: 4 and 3 to a node. *)
#[local] Instance tiny_sizes : PodSizes N N := {| kv_size := 1000; kptr_size := 1300 |}.

#[local] Instance tiny_sizes_ok : SizesOk N N.
Proof. split; by vm_compute; repeat constructor. Qed.

Definition mem_start : St N (MemStore N N) := mkSt (mkMem ∅ ∅ 0 11) 0 0 (btree_new 10 1).

Definition mem_run (ops : list (bt_op (K:=N) (V:=N))) (s : St N (MemStore N N)) : St N (MemStore N N) :=
  (bt_run mem_alloc 30 ops s).2.

Definition inserts (ks : list N) : list (bt_op (K:=N) (V:=N)) := map (λ k, OpInsert k k) ks.

Definition mem_tree (ks : list N) : St N (MemStore N N) := mem_run (inserts ks) (init_empty 10 1 mem_start).2.

(** The barrier [create_snapshot] raises. *)
Definition raise_barrier (s : St N (MemStore N N)) : St N (MemStore N N) :=
  on_store (λ σ, mkMem (mem σ) (mem_roots σ) (N.max (mem_barrier σ) (N.max (node_gen s) 1)) (mem_next σ)) s.

Lemma btree_refines_map_witness :
  match (init_empty 10 1 ;; bt_run mem_alloc 10 (inserts [3; 1; 4; 2; 5]%N)) mem_start with
  | (inr _, s') => iter_all 10 s' = (inr [(1, 1); (2, 2); (3, 3); (4, 4); (5, 5)]%N, s')
  | (inl _, _) => False
  end.
Proof.
  pose proof (btree_refines_map mem_alloc mem_in_use mem_start 10 10 (inserts [3; 1; 4; 2; 5]%N)
    ltac:(by vm_compute) ltac:(by vm_compute) eq_refl eq_refl eq_refl ltac:(by vm_compute) ltac:(cbn; lia)) as H.
  change (tree_type (self mem_start)) with 1%N in H.
  assert ((fst ((init_empty 10 1 ;; bt_run mem_alloc 10 (inserts [3; 1; 4; 2; 5]%N)) mem_start)) = inr ()) as Hr by by vm_compute.
  destruct ((init_empty 10 1 ;; bt_run mem_alloc 10 (inserts [3; 1; 4; 2; 5]%N)) mem_start) as [[e|u] s']; [done|].
  exact (proj2 (proj2 H)).
Defined.

(** One leaf, frozen by a snapshot. *)
Definition mem_snap : St N (MemStore N N) := raise_barrier (mem_tree [5]%N).

Lemma mem_snap_leaf :
  let sh := SLeaf 10 [(5, 5)]%N in
  inv mem_in_use mem_snap sh ∧ cow_on mem_snap ∧ snapshot_view mem_in_use mem_snap sh ∧ leaf_has_room sh 7%N.
Proof.
  cbv zeta.
  assert (real (view mem_snap) (SLeaf 10 [(5, 5)]%N)) as Hr by by vm_compute.
  assert (shape_wf None None (SLeaf 10 [(5, 5)]%N)) as Hwf.
  { unfold shape_wf. split_and!; [by repeat constructor|by repeat constructor|by vm_compute; repeat constructor]. }
  split_and!.
  - split_and!.
    + split_and!; [done|done|done|apply NoDup_singleton|by repeat constructor|]. by repeat constructor.
    + by vm_compute.
    + split; vm_compute; intros ? [= <-] _; [done|constructor].
  - by vm_compute.
  - split_and!; [done|done|done|]. constructor; [|done]. split; [by vm_compute|]. eexists. split; [by vm_compute|]. by vm_compute.
  - unfold leaf_has_room. apply Nat.ltb_lt. by vm_compute.
Qed.


Lemma lookup_floor_sound_witness :
  ∃ r, lookup_floor 5 7%N mem_snap = (inr r, mem_snap) ∧ r = Some (5, 5)%N.
Proof.
  destruct mem_snap_leaf as (Hinv & _).
  destruct (lookup_floor_sound mem_snap (SLeaf 10 [(5, 5)]%N) 5 7%N (inv_tree_ok _ _ _ Hinv) ltac:(unfold fuel_for; cbn; lia)) as (r & Hr & _).
  exists r. split; [done|]. vm_compute in Hr. by injection Hr as <-.
Defined.

(** after a removal, [lookup_floor] can miss the floor. With 1, 2, 3 and
    4 inserted (the split puts 2, 3 and 4 in the right leaf, under the
    separator 2) and 2 removed, the search for the floor of 2 ends in the
    right leaf, before its first key, and returns nothing, although 1 is
    bound: leaves other than the leftmost one do not always hold a key at or
    below their separator. *)
Theorem lookup_floor_misses :
  let s := mem_run [OpRemove 2%N] (mem_tree [1; 2; 3; 4]%N) in
  (iter_all 30 s).1 = inr [(1, 1); (3, 3); (4, 4)]%N ∧ (lookup_floor 30 2%N s).1 = inr None.
Proof. by vm_compute. Qed.

(** An internal split unfreezes nodes a snapshot records. Of eleven keys
    a snapshot was taken; four insertions later an internal split has
    rewritten its right children in place to change their parent pointer,
    with fresh stamps; the insertion of 21 then takes one of them for private
    and writes it in place, and the snapshot's frozen handle lists 21. *)
Theorem split_unfreezes :
  let s := raise_barrier (mem_tree [10; 20; 30; 40; 50; 60; 70; 80; 90; 100; 110]%N) in
  let before := iter_all 30 (frozen_handle 10 s) in
  let s' := mem_run (inserts [11; 12; 13; 14; 21]%N) s in
  let after := iter_all 30 (frozen_handle 10 s') in
  before.1 = inr (map (λ k, (k, k)) [10; 20; 30; 40; 50; 60; 70; 80; 90; 100; 110]%N) ∧
  after.1 = inr (map (λ k, (k, k)) [10; 20; 21; 30; 40; 50; 60; 70; 80; 90; 100; 110]%N).
Proof. by vm_compute. Qed.
