(* ===== verification/MapStore.v ===== *)
(** * Ordered maps over the B+ tree, as an interface

    What the managers built on [BTree] (reference counts, extents, ...) ask of
    it: iteration, insertion and removal on an ordered map. [MapStoreSpec]
    states the promise; the B+ tree discharges it. A representation carries
    the number of insertions it is still good for, because the model's descents
    have fuel and a level is a 16-bit number. *)
From S2P Require Import Prelude OrdMap BTreeModel BTreeShape BTreeReads BTreeWrites BTreeOps.
From Stdlib Require Import NArith ZArith Lia.
From stdpp Require Import base numbers gmap option list.
#[local] Open Scope nat_scope.

Class MapStore (S K V : Type) := {
  ms_iter : S → (io_error + list (K * V)) * S;
  ms_insert : K → V → S → (io_error + unit) * S;
  ms_remove : K → S → (io_error + bool) * S;
  ms_floor : K → S → (io_error + option (K * V)) * S
}.

(** [rep n s m]: the state holds the map [m] and [n] more insertions fit;
    [err]: the errors an operation may end with (the allocator's). *)
Class MapStoreSpec (S K V : Type) `{!OrdKey K, !MapStore S K V}
    (rep : nat → S → list (K * V) → Prop) (err : io_error → Prop) : Prop := {
  rep_ok n s m : rep n s m → om_ok m;
  rep_le n n' s m : rep n s m → n' ≤ n → rep n' s m;
  ms_iter_spec n s m : rep n s m → ms_iter s = (inr m, s);
  ms_insert_spec n s m k v :
    rep (Datatypes.S n) s m →
    match ms_insert k v s with (inr _, s') => rep n s' (om_insert k v m) | (inl e, _) => err e end;
  ms_remove_spec n s m k :
    rep n s m →
    match ms_remove k s with
    | (inr r, s') => rep n s' (om_remove k m) ∧ r = bool_decide (is_Some (om_get k m))
    | (inl e, _) => err e
    end
}.

(** Effects over such a store. *)
Abbreviation RM S := (EM io_error S).

(** ** Batches of removals and insertions *)
Section batches.
Context {S K V : Type} `{!OrdKey K, !MapStore S K V}.
Context (rep : nat → S → list (K * V) → Prop) (err : io_error → Prop) `{!MapStoreSpec S K V rep err}.

Lemma ends_remove_all n s m (ks : list K) :
  rep n s m →
  ends err (for_each (λ k, ms_remove k ;; mret ()) ks) s (λ _ s', rep n s' (foldl (λ m k, om_remove k m) m ks)).
Proof.
  revert s m. induction ks as [|k ks IH]; intros s m Hrep; [done|]. cbn [for_each foldl]. apply ends_bind, ends_bind.
  unfold ends at 1. pose proof (ms_remove_spec n s m k Hrep) as Hr. destruct (ms_remove k s) as [[e|r] s']; [done|].
  apply IH, Hr.
Qed.

Lemma ends_insert_all n s m (kvs : list (K * V)) :
  rep (length kvs + n) s m →
  ends err (for_each (λ kv, ms_insert kv.1 kv.2) kvs) s
    (λ _ s', rep n s' (foldl (λ m kv, om_insert kv.1 kv.2 m) m kvs)).
Proof.
  revert s m. induction kvs as [|[k v] kvs IH]; intros s m Hrep; [done|]. cbn [for_each foldl fst snd]. apply ends_bind.
  unfold ends at 1. cbn [length plus] in Hrep. pose proof (ms_insert_spec _ s m k v Hrep) as Hr.
  destruct (ms_insert k v s) as [[e|r] s']; [done|]. by apply IH.
Qed.
End batches.

(** ** The B+ tree keeps the promise *)
Section btree_store.
Context {K V S : Type} `{!OrdKey K, !PodSizes K V, !SizesOk K V, !NodeStore S K V, !NodeStoreLaws S K V}.
Context (allocate_block : S → (io_error + N) * S) (in_use : S → N → Prop).
Context `{!AllocSpec allocate_block in_use}.
Context (fuel : nat).

#[export] Instance btree_MapStore : MapStore (St K S) K V := {
  ms_iter := iter_all fuel;
  ms_insert := btree_insert allocate_block 2 fuel;
  ms_remove := remove_inner allocate_block fuel;
  ms_floor := lookup_floor fuel
}.

Definition btree_rep (n : nat) (s : St K S) (m : list (K * V)) : Prop :=
  ∃ sh, inv in_use s sh ∧ entries sh = m ∧ N.to_nat (slevel sh) + n < fuel ∧ (slevel sh + N.of_nat n < 65535)%N.

#[export] Instance btree_MapStoreSpec :
  MapStoreSpec (St K S) K V btree_rep (λ e, ∃ σ σ', allocate_block σ = (inl e, σ')).
Proof.
  constructor.
  - intros n s m (sh & ((_ & Hwf & _) & _) & <- & _). by eapply shape_entries_ok.
  - intros n n' s m (sh & H1 & H2 & H3 & H4) Hle. exists sh. split_and!; [done|done|lia|lia].
  - intros n s m (sh & ((H1 & H2 & H3 & H4 & H5 & _) & Hr & _) & <- & Hf & _).
    apply iter_all_spec; [by split_and!|unfold fuel_for; lia].
  - intros n s m k v (sh & Hinv & <- & Hf & Hl).
    pose proof (post_insert allocate_block in_use s sh 2 fuel k v Hinv ltac:(lia) ltac:(lia) ltac:(lia)) as Hp.
    unfold post in Hp. cbn [ms_insert btree_MapStore]. destruct (btree_insert allocate_block 2 fuel k v s) as [[e|u] s']; [done|].
    destruct Hp as (sh' & Hinv' & He & Hl' & _). exists sh'. split_and!; [done|done|lia|lia].
  - intros n s m k (sh & Hinv & <- & Hf & Hl).
    pose proof (post_remove allocate_block in_use s sh fuel k Hinv ltac:(unfold fuel_for; lia)) as Hp.
    unfold post in Hp. cbn [ms_remove btree_MapStore]. destruct (remove_inner allocate_block fuel k s) as [[e|r] s']; [done|].
    destruct Hp as (sh' & Hinv' & He & Hl' & Hr & _). split; [|done]. exists sh'. split_and!; [done|done|lia|lia].
Qed.
End btree_store.
