(* ===== verification/Refcount.v ===== *)
(** * Reference coverage of [lionfs/src/integrity/refcount.rs]

    Runs [physical_start, length, count] in a B+ tree keyed by their start.
    Each block is covered by at most one run; [pin_range] adds one to the
    coverage of every block of a range, [unpin_range] takes one away or
    refuses, and nothing else changes. Proved against the ordered-map
    interface of [MapStore]. *)
From S2P Require Import Prelude OrdMap BTreeModel BTreeShape BTreeReads BTreeWrites BTreeOps BTreeSpec MapStore.
From Stdlib Require Import NArith ZArith Lia.
From stdpp Require Import base numbers gmap option list.
#[local] Open Scope N_scope.

Record CoverageEntry := mkCov { physical_start : N; cov_length : N; count : N }.

#[local] Abbreviation run := (N * CoverageEntry)%type.

Definition e_end (e : CoverageEntry) : N := wadd64 (physical_start e) (cov_length e).

(** A run at [lo..hi) with its count, as it is inserted. *)
Definition piece (lo hi c : N) : run := (lo, mkCov lo (wsub64 hi lo) c).

(** The filter both mutations run: the runs that meet [ps, en). *)
Definition overlaps (ps en : N) (all : list run) : list run :=
  base.filter (λ p : run, ((ps <? e_end p.2) && (p.1 <? en))%bool = true) all.

(** The re-inserted pieces of one overlapping run: left, middle with its new
    count (none when unpinning takes it to 0), right. *)
Definition pieces (ps en : N) (mid : option N) (p : run) : list run :=
  let '(start, entry) := p in
  let e := e_end entry in
  let m_lo := N.max start ps in
  let m_hi := N.min e en in
  (if start <? ps then [piece start ps (count entry)] else []) ++
  (if m_lo <? m_hi then from_option (λ c, [piece m_lo m_hi c]) [] mid else []) ++
  (if en <? e then [piece en e (count entry)] else []).

(** [sort] on the (start, end) pairs. *)
Definition pair_le (a b : N * N) : bool := (a.1 <? b.1) || ((a.1 =? b.1) && (a.2 <=? b.2)).
Fixpoint sort_insert (x : N * N) (l : list (N * N)) : list (N * N) :=
  match l with [] => [x] | y :: l' => if pair_le x y then x :: l else y :: sort_insert x l' end.
Definition sort_pairs (l : list (N * N)) : list (N * N) := foldr sort_insert [] l.

(** The runs that fill the gaps of [cursor..en). *)
Fixpoint gap_runs (en cursor : N) (l : list (N * N)) : list run :=
  match l with
  | [] => if cursor <? en then [(cursor, mkCov cursor (wsub64 en cursor) 1)] else []
  | (s, e) :: l =>
      let gap := if cursor <? s then [(cursor, mkCov cursor (N.min (wsub64 s cursor) (wsub64 en cursor)) 1)] else [] in
      let cursor := N.max cursor e in
      gap ++ if en <=? cursor then [] else gap_runs en cursor l
  end.

Section manager.
Context {S : Type} `{!MapStore S N CoverageEntry}.

(** [coverage_at], [is_pinned] *)
Definition coverage_at (block : N) : RM S N :=
  r ← ms_floor block;
  match r with
  | Some (start, entry) =>
      if (start =? physical_start entry) && (block <? e_end entry) then mret (count entry) else mret 0
  | None => mret 0
  end.

Definition is_pinned (block : N) : RM S bool := c ← coverage_at block; mret (0 <? c).

(** [is_range_pinned] *)
Definition covered_in (ps en : N) (acc : N) (p : run) : N :=
  let '(e_start, entry) := p in
  if (e_end entry <=? ps) || (en <=? e_start) then acc
  else wadd64 acc (wsub64 (N.min (e_end entry) en) (N.max e_start ps)).

Definition is_range_pinned (ps len : N) : RM S bool :=
  if len =? 0 then mret false
  else all ← ms_iter; mret (len <=? foldl (covered_in ps (wadd64 ps len)) 0 all).

(** [pin_range] *)
Definition pin_range (ps len : N) : RM S unit :=
  if len =? 0 then mret ()
  else
    let en := wadd64 ps len in
    all ← ms_iter;
    let ov := overlaps ps en all in
    for_each (λ k, ms_remove k ;; mret ()) (map fst ov) ;;
    for_each (λ kv, ms_insert kv.1 kv.2) (concat (map (λ p, pieces ps en (Some (wadd32 (count p.2) 1)) p) ov)) ;;
    for_each (λ kv, ms_insert kv.1 kv.2)
      (gap_runs en ps (sort_pairs (map (λ p, (p.1, e_end p.2)) ov))).

(** [unpin_range] *)
Definition clip (ps en : N) (p : run) : N := N.min (e_end p.2) en - N.max p.1 ps.

Definition dec_count (p : run) : option N :=
  let new_count := wsub32 (count p.2) 1 in if 0 <? new_count then Some new_count else None.

Definition unpin_range (ps len : N) : RM S unit :=
  if len =? 0 then mret ()
  else
    let en := wadd64 ps len in
    all ← ms_iter;
    let ov := overlaps ps en all in
    let covered := foldl (λ a p, wadd64 a (clip ps en p)) 0 ov in
    if match ov with [] => true | _ => false end || (covered <? len) then fail_with InvalidData
    else
      for_each (λ k, ms_remove k ;; mret ()) (map fst ov) ;;
      for_each (λ kv, ms_insert kv.1 kv.2) (concat (map (λ p, pieces ps en (dec_count p) p) ov)).

(** [iter_coverage] *)
Definition iter_coverage : RM S (list CoverageEntry) := all ← ms_iter; mret (map snd all).
End manager.

(** ** Runs and coverage *)
Definition covers (p : run) (b : N) : Prop := p.1 ≤ b < p.1 + cov_length p.2.

Definition run_ok (p : run) : Prop :=
  physical_start p.2 = p.1 ∧ 0 < cov_length p.2 ∧ p.1 + cov_length p.2 < two64 ∧ 1 ≤ count p.2 < two32.

(** Runs are well-formed and no block is in two of them. *)
Definition cov_ok (m : list run) : Prop :=
  om_ok m ∧ Forall run_ok m ∧ ∀ p q b, p ∈ m → q ∈ m → covers p b → covers q b → p = q.

(** The pin count of a block. *)
Fixpoint coverage (m : list run) (b : N) : N :=
  match m with
  | [] => 0
  | p :: m => if (p.1 <=? b) && (b <? p.1 + cov_length p.2) then count p.2 else coverage m b
  end.

Lemma covers_bool (p : run) b : (p.1 <=? b) && (b <? p.1 + cov_length p.2) = true ↔ covers p b.
Proof. rewrite andb_true_iff, N.leb_le, N.ltb_lt. done. Qed.

Lemma coverage_none (m : list run) b : (∀ p, p ∈ m → ¬ covers p b) → coverage m b = 0.
Proof.
  induction m as [|p m IH]; intros H; [done|]. cbn. destruct (_ && _)%bool eqn:E.
  - apply covers_bool in E. destruct (H p); [by left|done].
  - apply IH. intros q Hq. apply H. by right.
Qed.

Lemma coverage_some (m : list run) p b :
  (∀ q, q ∈ m → covers q b → q = p) → p ∈ m → covers p b → coverage m b = count p.2.
Proof.
  intros Hu Hp Hc. induction m as [|q m IH]; [by apply not_elem_of_nil in Hp|]. cbn. destruct (_ && _)%bool eqn:E.
  - apply covers_bool in E. by rewrite (Hu q ltac:(by left) E).
  - apply elem_of_cons in Hp as [->|Hp]; [apply covers_bool in Hc; congruence|]. apply IH; [|done].
    intros q' Hq'. apply Hu. by right.
Qed.

Lemma coverage_of m p b : cov_ok m → p ∈ m → covers p b → coverage m b = count p.2.
Proof. intros (_ & _ & Hu) Hp Hc. apply coverage_some; [|done|done]. intros q Hq Hq'. by eapply Hu. Qed.

(** Either one run covers the block or its coverage is 0. *)
Lemma coverage_cases (m : list run) b : (∃ p, p ∈ m ∧ covers p b) ∨ (∀ p, p ∈ m → ¬ covers p b).
Proof.
  induction m as [|p m IH]; [right; by intros p ?%not_elem_of_nil|].
  destruct ((p.1 <=? b) && (b <? p.1 + cov_length p.2))%bool eqn:E.
  - left. exists p. split; [by left|by apply covers_bool].
  - destruct IH as [(q & Hq & Hc)|IH]; [left; exists q; split; [by right|done]|]. right. intros q [->|Hq]%elem_of_cons; [|by apply IH].
    intros Hc%covers_bool. congruence.
Qed.

Lemma e_end_ok p : run_ok p → e_end p.2 = p.1 + cov_length p.2.
Proof. intros (H1 & H2 & H3 & _). unfold e_end. rewrite H1. by apply wadd64_small. Qed.

Lemma piece_ok lo hi c : lo < hi → hi < two64 → 1 ≤ c < two32 → run_ok (piece lo hi c).
Proof. intros H1 H2 H3. unfold run_ok, piece. cbn. rewrite wsub64_small by lia. lia. Qed.

Lemma piece_covers lo hi c b : lo < hi → hi < two64 → covers (piece lo hi c) b ↔ lo ≤ b < hi.
Proof. intros H1 H2. unfold covers, piece. cbn. rewrite wsub64_small by lia. lia. Qed.

(** ** The overlapping runs and their pieces *)
Lemma overlaps_elem ps en (m : list run) (p : run) :
  Forall run_ok m → p ∈ overlaps ps en m ↔ p ∈ m ∧ ps < p.1 + cov_length p.2 ∧ p.1 < en.
Proof.
  intros Hall. unfold overlaps. rewrite list_elem_of_filter, andb_true_iff, !N.ltb_lt.
  rewrite Forall_forall in Hall. split.
  - intros [[H1 H2] Hp]. rewrite e_end_ok in H1 by (by apply Hall). done.
  - intros (Hp & H1 & H2). rewrite e_end_ok by (by apply Hall). done.
Qed.

(** The three intervals of a run around a range. *)
Definition part_of (ps en : N) (mid : option N) (p q : run) : Prop :=
  (p.1 < ps ∧ q = piece p.1 ps (count p.2)) ∨
  (∃ c, mid = Some c ∧ q = piece (N.max p.1 ps) (N.min (p.1 + cov_length p.2) en) c) ∨
  (en < p.1 + cov_length p.2 ∧ q = piece en (p.1 + cov_length p.2) (count p.2)).

Lemma pieces_elem ps en mid p q :
  run_ok p → ps < en → ps < p.1 + cov_length p.2 → p.1 < en →
  q ∈ pieces ps en mid p ↔ part_of ps en mid p q.
Proof.
  intros Hp Hpe H1 H2. destruct p as [start entry]. unfold pieces, part_of. cbn [fst snd] in *.
  pose proof (e_end_ok _ Hp) as He. cbn in He. rewrite He.
  assert ((N.max start ps <? N.min (start + cov_length entry) en) = true) as ->.
  { apply N.ltb_lt. destruct Hp as (_ & Hl & _). cbn in Hl. lia. }
  rewrite !elem_of_app. destruct (N.ltb_spec start ps), (N.ltb_spec en (start + cov_length entry)), mid as [c|]; cbn [from_option];
    rewrite ?list_elem_of_singleton, ?elem_of_nil; naive_solver lia.
Qed.

Lemma part_facts ps en mid p q :
  run_ok p → ps < en → en < two64 → ps < p.1 + cov_length p.2 → p.1 < en →
  (∀ c, mid = Some c → 1 ≤ c < two32) → part_of ps en mid p q →
  run_ok q ∧ ∀ b, covers q b →
    covers p b ∧ (count q.2 = count p.2 ∧ (b < ps ∨ en ≤ b) ∨ mid = Some (count q.2) ∧ ps ≤ b < en).
Proof.
  intros Hp Hpe Hen H1 H2 Hc. pose proof Hp as (_ & Hl & Hw & Hcnt).
  intros [[Hlt ->]|[(c & -> & ->)|[Hlt ->]]]; (split; [apply piece_ok; [lia|lia|auto]|]); intros b Hb;
    apply piece_covers in Hb; [|lia|lia| |lia|lia| |lia|lia]; unfold covers.
  - split; [lia|]. left. cbn. lia.
  - split; [lia|]. right. cbn. split; [done|lia].
  - split; [lia|]. left. cbn. lia.
Qed.

Lemma part_unique ps en mid p q q' b :
  run_ok p → ps < en → en < two64 → ps < p.1 + cov_length p.2 → p.1 < en →
  part_of ps en mid p q → part_of ps en mid p q' → covers q b → covers q' b → q = q'.
Proof.
  intros Hp Hpe Hen H1 H2. pose proof Hp as (_ & Hl & Hw & Hcnt).
  intros [[Hlt ->]|[(c & -> & ->)|[Hlt ->]]] [[Hlt' ->]|[(c' & Hc' & ->)|[Hlt' ->]]] Hb Hb'; try done;
    try (apply piece_covers in Hb; [|lia|lia]; apply piece_covers in Hb'; [|lia|lia]; lia).
  congruence.
Qed.

(** Every block of an overlapping run is in one of its pieces. *)
Lemma part_total ps en mid p b :
  run_ok p → ps < en → en < two64 → ps < p.1 + cov_length p.2 → p.1 < en → covers p b →
  (∃ q, part_of ps en mid p q ∧ covers q b) ∨ (mid = None ∧ ps ≤ b < en).
Proof.
  intros Hp Hpe Hen H1 H2 [Hb1 Hb2]. pose proof Hp as (_ & Hl & Hw & Hcnt).
  destruct (decide (b < ps)) as [Hlt|Hge].
  { left. exists (piece p.1 ps (count p.2)). split; [left; split; [lia|done]|]. apply piece_covers; lia. }
  destruct (decide (b < en)) as [Hlt|Hge'].
  - destruct mid as [c|]; [left|right; split; [done|lia]].
    exists (piece (N.max p.1 ps) (N.min (p.1 + cov_length p.2) en) c). split; [right; left; by exists c|]. apply piece_covers; lia.
  - left. exists (piece en (p.1 + cov_length p.2) (count p.2)). split; [right; right; split; [lia|done]|]. apply piece_covers; lia.
Qed.

(** ** Rebuilding the map around a range *)
Lemma key_covered p : run_ok p → covers p p.1.
Proof. intros (_ & H & _). unfold covers. lia. Qed.

Section rebuild.
Context (ps en : N) (m : list run) (mid : run → option N) (gaps : list run).
Context (Hm : cov_ok m) (Hpe : ps < en) (Hen : en < two64).
Context (Hmid : ∀ p c, p ∈ m → mid p = Some c → 1 ≤ c < two32).
Context (Hgok : Forall run_ok gaps).
Context (Hgap : ∀ g b, g ∈ gaps → covers g b → ps ≤ b < en ∧ ∀ p, p ∈ m → ¬ covers p b).
Context (Hgu : ∀ g g' b, g ∈ gaps → g' ∈ gaps → covers g b → covers g' b → g = g').

Definition rebuilt : list run :=
  foldl (λ m kv, om_insert kv.1 kv.2 m)
    (foldl (λ m k, om_remove k m) m (map fst (overlaps ps en m)))
    (concat (map (λ p, pieces ps en (mid p) p) (overlaps ps en m)) ++ gaps).

(** What the new map is made of. *)
Definition kept (q : run) : Prop := q ∈ m ∧ (q.1 + cov_length q.2 ≤ ps ∨ en ≤ q.1).
Definition cut (q : run) : Prop :=
  ∃ p, p ∈ m ∧ ps < p.1 + cov_length p.2 ∧ p.1 < en ∧ part_of ps en (mid p) p q.

Lemma m_run_ok p : p ∈ m → run_ok p.
Proof. destruct Hm as (_ & H & _). rewrite Forall_forall in H. auto. Qed.

Lemma cut_facts q : cut q →
  run_ok q ∧ ∀ b, covers q b → ∃ p, p ∈ m ∧ covers p b ∧ part_of ps en (mid p) p q ∧ ps < p.1 + cov_length p.2 ∧ p.1 < en ∧
    (count q.2 = count p.2 ∧ (b < ps ∨ en ≤ b) ∨ mid p = Some (count q.2) ∧ ps ≤ b < en).
Proof.
  intros (p & Hp & H1 & H2 & Hq).
  destruct (part_facts ps en (mid p) p q (m_run_ok p Hp) Hpe Hen H1 H2 (λ c, Hmid p c Hp) Hq) as [Hok Hb].
  split; [done|]. intros b Hc. destruct (Hb b Hc). by exists p.
Qed.

Lemma parts_unique q q' b :
  kept q ∨ cut q ∨ q ∈ gaps → kept q' ∨ cut q' ∨ q' ∈ gaps → covers q b → covers q' b → q = q'.
Proof.
  pose proof Hm as (_ & _ & Hu).
  assert (∀ q q', kept q → kept q' ∨ cut q' ∨ q' ∈ gaps → covers q b → covers q' b → q = q') as Hkept.
  { intros q0 q0' [Hq Hout] [[Hq' _]|[Hq'|Hq']] Hc Hc'.
    - by eapply Hu.
    - destruct (cut_facts _ Hq') as [_ Hf]. destruct (Hf b Hc') as (p & Hp & Hpc & _ & H1 & H2 & _).
      assert (q0 = p) as -> by (by eapply Hu). unfold covers in *. lia.
    - destruct (Hgap _ _ Hq' Hc') as [_ Hno]. by destruct (Hno q0). }
  assert (∀ q q', cut q → q' ∈ gaps → covers q b → covers q' b → q = q') as Hcut.
  { intros q0 q0' Hq Hq' Hc Hc'. destruct (cut_facts _ Hq) as [_ Hf]. destruct (Hf b Hc) as (p & Hp & Hpc & _).
    destruct (Hgap _ _ Hq' Hc') as [_ Hno]. by destruct (Hno p). }
  intros [Hq|[Hq|Hq]] [Hq'|[Hq'|Hq']] Hc Hc'.
  - apply Hkept; [done|by left|done|done].
  - apply Hkept; [done|by right; left|done|done].
  - apply Hkept; [done|by right; right|done|done].
  - symmetry. apply Hkept; [done|by right; left|done|done].
  - destruct (cut_facts _ Hq) as [_ Hf]. destruct (Hf b Hc) as (p & Hp & Hpc & Hpart & H1 & H2 & _).
    destruct (cut_facts _ Hq') as [_ Hf']. destruct (Hf' b Hc') as (p' & Hp' & Hpc' & Hpart' & _).
    assert (p' = p) as -> by (by eapply Hu). exact (part_unique ps en (mid p) p q q' b (m_run_ok p Hp) Hpe Hen H1 H2 Hpart Hpart' Hc Hc').
  - by apply Hcut.
  - symmetry. apply Hkept; [done|by right; right|done|done].
  - symmetry. by apply Hcut.
  - by eapply Hgu.
Qed.

Lemma parts_run_ok q : kept q ∨ cut q ∨ q ∈ gaps → run_ok q.
Proof.
  intros [[Hq _]|[Hq|Hq]]; [by apply m_run_ok|by apply cut_facts|]. rewrite Forall_forall in Hgok. by apply Hgok.
Qed.

Lemma rebuilt_elem : om_ok rebuilt ∧ ∀ q, q ∈ rebuilt ↔ kept q ∨ cut q ∨ q ∈ gaps.
Proof.
  pose proof Hm as (Hok & Hall & Hu). pose proof (λ q, om_remove_all_elem (map fst (overlaps ps en m)) m q Hok) as Hrem.
  set (base := foldl _ m _) in *.
  assert (∀ q, q ∈ base ↔ kept q) as Hbase.
  { intros q. rewrite (proj2 (Hrem q)). unfold kept. split.
    - intros [Hq Hni]. split; [done|]. destruct (decide (ps < q.1 + cov_length q.2)); [|lia].
      destruct (decide (q.1 < en)); [|lia]. exfalso. apply Hni, list_elem_of_fmap. exists q. split; [done|].
      by apply overlaps_elem.
    - intros [Hq Hout]. split; [done|]. intros (p & Heq & Hp)%list_elem_of_fmap. apply overlaps_elem in Hp as (Hp & H1 & H2); [|done].
      assert (q = p) as ->; [|lia]. pose proof (key_covered _ (m_run_ok _ Hp)) as Hkp. rewrite <- Heq in Hkp.
      eapply Hu; [done|done| |exact Hkp]. apply key_covered. by apply m_run_ok. }
  assert (∀ q, q ∈ concat (map (λ p, pieces ps en (mid p) p) (overlaps ps en m)) ↔ cut q) as Hcut.
  { intros q. rewrite list_elem_of_In, in_concat. split.
    - intros (l & Hl & Hq). rewrite <- list_elem_of_In in Hl. rewrite <- list_elem_of_In in Hq.
      apply list_elem_of_fmap in Hl as (p & -> & Hp). apply overlaps_elem in Hp as (Hp & H1 & H2); [|done].
      exists p. split_and!; try done. by apply pieces_elem; [apply m_run_ok|..].
    - intros (p & Hp & H1 & H2 & Hq). exists (pieces ps en (mid p) p). rewrite <- !list_elem_of_In. split.
      + apply list_elem_of_fmap. exists p. split; [done|]. by apply overlaps_elem.
      + by apply pieces_elem; [apply m_run_ok|..]. }
  assert (∀ q, q ∈ (concat (map (λ p, pieces ps en (mid p) p) (overlaps ps en m)) ++ gaps) ++ base ↔ kept q ∨ cut q ∨ q ∈ gaps) as Hin.
  { intros q. rewrite !elem_of_app, Hcut, Hbase. tauto. }
  destruct (om_insert_all_elem (concat (map (λ p, pieces ps en (mid p) p) (overlaps ps en m)) ++ gaps) base) as [H1 H2].
  - by apply (Hrem (0, mkCov 0 0 0)).
  - intros p q Hp%Hin Hq%Hin Heq. pose proof (parts_run_ok _ Hp) as Hrp. pose proof (parts_run_ok _ Hq) as Hrq.
    eapply parts_unique; [exact Hp|exact Hq|by apply key_covered|]. rewrite Heq. by apply key_covered.
  - split; [done|]. intros q. by rewrite <- Hin, <- H2.
Qed.

Lemma rebuilt_ok : cov_ok rebuilt.
Proof.
  destruct rebuilt_elem as [H1 H2]. split_and!; [done| |].
  - apply Forall_forall. intros q Hq. by apply parts_run_ok, H2.
  - intros p q b Hp Hq. apply H2 in Hp, Hq. by apply parts_unique.
Qed.

(** The coverage of every block in the rebuilt map. *)
Lemma rebuilt_coverage b :
  (∀ p, p ∈ m → covers p b → ps ≤ b < en → coverage rebuilt b = default 0 (mid p)) ∧
  (¬ (ps ≤ b < en) → coverage rebuilt b = coverage m b) ∧
  (∀ g, g ∈ gaps → covers g b → coverage rebuilt b = count g.2) ∧
  ((∀ p, p ∈ m → ¬ covers p b) → (∀ g, g ∈ gaps → ¬ covers g b) → coverage rebuilt b = 0).
Proof.
  destruct rebuilt_elem as [_ Hel]. pose proof rebuilt_ok as Hok. pose proof Hm as (_ & _ & Hu). split_and!.
  - intros p Hp Hc Hb.
    assert (ps < p.1 + cov_length p.2 ∧ p.1 < en) as [H1 H2] by (unfold covers in Hc; lia).
    destruct (part_total ps en (mid p) p b (m_run_ok p Hp) Hpe Hen H1 H2 Hc) as [(q & Hq & Hqc)|[Hnone _]].
    + assert (cut q) as Hcut by (by exists p). rewrite (coverage_of _ q b Hok); [|apply Hel; by right; left|done].
      destruct (part_facts ps en (mid p) p q (m_run_ok p Hp) Hpe Hen H1 H2 (λ c, Hmid p c Hp) Hq) as [_ Hf].
      destruct (Hf b Hqc) as [_ [[_ ?]|[-> _]]]; [lia|done].
    + rewrite Hnone. cbn [from_option]. apply coverage_none. intros q [[Hq Hout]|[Hq|Hq]]%Hel Hqc.
      * assert (q = p) as -> by (by eapply Hu). lia.
      * destruct (cut_facts _ Hq) as [_ Hf]. destruct (Hf b Hqc) as (p' & Hp' & Hpc' & _ & _ & _ & Hcase).
        assert (p' = p) as -> by (by eapply Hu). destruct Hcase as [[_ ?]|[Hn _]]; [lia|]. congruence.
      * destruct (Hgap _ _ Hq Hqc) as [_ Hno]. by apply (Hno p).
  - intros Hout. destruct (coverage_cases m b) as [(p & Hp & Hc)|Hno].
    + rewrite (coverage_of m p b Hm Hp Hc).
      destruct (decide (p.1 + cov_length p.2 ≤ ps ∨ en ≤ p.1)) as [Hkept|Hov].
      { apply coverage_of; [done|apply Hel; left; by split|done]. }
      assert (ps < p.1 + cov_length p.2 ∧ p.1 < en) as [H1 H2] by lia.
      destruct (part_total ps en (mid p) p b (m_run_ok p Hp) Hpe Hen H1 H2 Hc) as [(q & Hq & Hqc)|[_ ?]]; [|done].
      rewrite (coverage_of _ q b Hok); [|apply Hel; right; left; by exists p|done].
      destruct (part_facts ps en (mid p) p q (m_run_ok p Hp) Hpe Hen H1 H2 (λ c, Hmid p c Hp) Hq) as [_ Hf].
      destruct (Hf b Hqc) as [_ [[-> _]|[_ ?]]]; done.
    + rewrite (coverage_none m b Hno). apply coverage_none. intros q [[Hq _]|[Hq|Hq]]%Hel Hqc; [by apply (Hno q)| |].
      * destruct (cut_facts _ Hq) as [_ Hf]. destruct (Hf b Hqc) as (p & Hp & Hpc & _). by apply (Hno p).
      * by destruct (Hgap _ _ Hq Hqc).
  - intros g Hg Hc. apply coverage_of; [done|apply Hel; by right; right|done].
  - intros Hno Hnog. apply coverage_none. intros q [[Hq _]|[Hq|Hq]]%Hel Hqc; [by apply (Hno q)| |by apply (Hnog q)].
    destruct (cut_facts _ Hq) as [_ Hf]. destruct (Hf b Hqc) as (p & Hp & Hpc & _). by apply (Hno p).
Qed.
End rebuild.

(** ** Gaps *)
Definition ints_ok (l : list (N * N)) : Prop :=
  Sorting.Sorted.StronglySorted (λ a b : N * N, a.2 ≤ b.1) l ∧ Forall (λ a : N * N, a.1 < a.2 ∧ a.2 < two64) l.

Lemma ints_ok_cons a l : ints_ok (a :: l) ↔ (Forall (λ b : N * N, a.2 ≤ b.1) l ∧ a.1 < a.2 ∧ a.2 < two64) ∧ ints_ok l.
Proof.
  unfold ints_ok. rewrite Forall_cons. split.
  - intros [Hs Hf]. inversion Hs; subst. tauto.
  - intros ([H1 H2] & H3 & H4). split; [by constructor|tauto].
Qed.

Lemma sort_pairs_id l : ints_ok l → sort_pairs l = l.
Proof.
  induction l as [|a l IH]; [done|]. intros [[Hall Ha] Hl]%ints_ok_cons. cbn. fold (sort_pairs l). rewrite (IH Hl).
  destruct l as [|b l]; [done|]. cbn. apply Forall_cons in Hall as [Hab _]. unfold pair_le.
  rewrite (proj2 (N.ltb_lt a.1 b.1)) by lia. done.
Qed.

(** One gap run: [cursor] to the next run or the end. *)
Lemma gap_head en cursor s :
  cursor < s → cursor < en → s < two64 → en < two64 →
  let g := (cursor, mkCov cursor (N.min (wsub64 s cursor) (wsub64 en cursor)) 1) in
  run_ok g ∧ (∀ b, covers g b ↔ cursor ≤ b < N.min s en) ∧ cov_length g.2 = N.min s en - cursor.
Proof.
  intros H1 H2 H3 H4. cbv zeta. unfold run_ok, covers. cbn. rewrite !wsub64_small by lia. split_and!; try lia.
  all: unfold two32; lia.
Qed.

Lemma gap_last en cursor :
  cursor < en → en < two64 →
  let g := (cursor, mkCov cursor (wsub64 en cursor) 1) in
  run_ok g ∧ (∀ b, covers g b ↔ cursor ≤ b < en) ∧ cov_length g.2 = en - cursor.
Proof.
  intros H1 H2. cbv zeta. unfold run_ok, covers. cbn. rewrite !wsub64_small by lia. unfold two32. split_and!; lia.
Qed.

Definition uncovered (l : list (N * N)) (b : N) : Prop := Forall (λ a : N * N, ¬ (a.1 ≤ b < a.2)) l.

Lemma uncovered_before (l : list (N * N)) b c : Forall (λ a : N * N, c ≤ a.1) l → b < c → uncovered l b.
Proof. intros H Hb. eapply Forall_impl; [exact H|]. cbn. intros a Ha. lia. Qed.

Lemma gap_runs_spec en l cursor :
  ints_ok l → cursor < en → en < two64 →
  Forall (λ g, run_ok g ∧ count g.2 = 1) (gap_runs en cursor l) ∧
  (∀ b, (∃ g, g ∈ gap_runs en cursor l ∧ covers g b) ↔ cursor ≤ b < en ∧ uncovered l b) ∧
  (∀ g g' b, g ∈ gap_runs en cursor l → g' ∈ gap_runs en cursor l → covers g b → covers g' b → g = g').
Proof.
  intros Hl Hc Hen. revert cursor Hc. induction l as [|[s e] l IH]; intros cursor Hc; cbn [gap_runs].
  - rewrite (proj2 (N.ltb_lt cursor en) Hc). destruct (gap_last en cursor Hc Hen) as (Hok & Hcov & _). split_and!.
    + by constructor.
    + intros b. rewrite <- Hcov. split; [intros (g & ->%list_elem_of_singleton & ?); split; [done|constructor]|].
      intros [? _]. eexists. split; [by apply list_elem_of_singleton|done].
    + by intros g g' b ->%list_elem_of_singleton ->%list_elem_of_singleton.
  - apply ints_ok_cons in Hl as [[Hall [Hse He]] Hl]. cbn [fst snd] in *.
    set (gap := if cursor <? s then _ else []). set (rest := if en <=? _ then [] else _).
    assert (Forall (λ g, run_ok g ∧ count g.2 = 1) gap ∧
            (∀ b, (∃ g, g ∈ gap ∧ covers g b) ↔ cursor ≤ b < N.min s en) ∧
            (∀ g g', g ∈ gap → g' ∈ gap → g = g')) as (Hg1 & Hg2 & Hg3).
    { subst gap. destruct (N.ltb_spec cursor s) as [Hlt|Hge].
      - destruct (gap_head en cursor s Hlt Hc ltac:(lia) Hen) as (Hok & Hcov & _). split_and!; [by constructor| |].
        + intros b. rewrite <- Hcov. split; [by intros (g & ->%list_elem_of_singleton & ?)|]. intros ?. eexists.
          split; [by apply list_elem_of_singleton|done].
        + by intros g g' ->%list_elem_of_singleton ->%list_elem_of_singleton.
      - split_and!; [constructor| |by intros g g' ?%not_elem_of_nil].
        intros b. split; [by intros (g & ?%not_elem_of_nil & _)|lia]. }
    assert (Forall (λ g, run_ok g ∧ count g.2 = 1) rest ∧
            (∀ b, (∃ g, g ∈ rest ∧ covers g b) ↔ N.max cursor e ≤ b < en ∧ uncovered l b) ∧
            (∀ g g' b, g ∈ rest → g' ∈ rest → covers g b → covers g' b → g = g')) as (Hr1 & Hr2 & Hr3).
    { subst rest. destruct (N.leb_spec en (N.max cursor e)) as [Hle|Hlt]; [|by apply IH].
      split_and!; [constructor| |by intros g g' b ?%not_elem_of_nil].
      intros b. split; [by intros (g & ?%not_elem_of_nil & _)|lia]. }
    split_and!.
    + by apply Forall_app.
    + intros b. setoid_rewrite elem_of_app. transitivity ((∃ g, g ∈ gap ∧ covers g b) ∨ (∃ g, g ∈ rest ∧ covers g b)); [naive_solver|].
      rewrite Hg2, Hr2. unfold uncovered. rewrite Forall_cons. cbn [fst snd]. split.
      * intros [Hb|[Hb Hu]]; [|split; [lia|]; split; [lia|done]]. split; [lia|]. split; [lia|].
        apply (uncovered_before l b e); [done|lia].
      * intros (Hb & Hne & Hu). destruct (decide (b < s)); [left; lia|right]. split; [lia|done].
    + intros g g' b [Hg|Hg]%elem_of_app [Hg'|Hg']%elem_of_app Hb Hb'.
      * by apply Hg3.
      * assert (cursor ≤ b < N.min s en) by (apply Hg2; eauto). assert (N.max cursor e ≤ b < en ∧ uncovered l b) by (apply Hr2; eauto). lia.
      * assert (cursor ≤ b < N.min s en) by (apply Hg2; eauto). assert (N.max cursor e ≤ b < en ∧ uncovered l b) by (apply Hr2; eauto). lia.
      * by eapply Hr3.
Qed.

(** The ends of the overlapping runs, in order. *)
Lemma overlap_ints ps en m :
  cov_ok m → ints_ok (map (λ p, (p.1, e_end p.2)) (overlaps ps en m)).
Proof.
  intros (Hok & Hall & Hu).
  assert (∀ p, p ∈ overlaps ps en m → p ∈ m) as Hsub by (intros p Hp; by apply overlaps_elem in Hp as [? _]).
  pose proof (om_filter_ok (λ p : run, ((ps <? e_end p.2) && (p.1 <? en))%bool = true) m Hok) as Hs.
  fold (overlaps ps en m) in Hs. induction (overlaps ps en m) as [|p l IH]; [by repeat constructor|].
  cbn [map]. rewrite Forall_forall in Hall. pose proof (Hall p (Hsub p ltac:(by left))) as Hp.
  pose proof (e_end_ok p Hp) as He. destruct p as [k v]. apply om_ok_cons in Hs as [Hlt Hs]. cbn [fst snd] in *.
  apply ints_ok_cons. cbn [fst snd]. rewrite He. split_and!.
  - apply Forall_map, Forall_forall. intros q Hq. cbn. rewrite Forall_forall in Hlt. specialize (Hlt q Hq).
    assert (k < q.1) as Hkq by (apply N.compare_lt_iff; exact Hlt). destruct (decide (k + cov_length v ≤ q.1)); [done|]. exfalso.
    assert ((k, v) = q) as <-; [|by apply N.lt_irrefl in Hkq]. eapply (Hu _ _ q.1); [apply Hsub; by left|apply Hsub; by right| |].
    + unfold covers. cbn [fst snd]. lia.
    + apply key_covered, Hall, Hsub. by right.
  - destruct Hp as (_ & Hl & _). cbn in Hl. lia.
  - destruct Hp as (_ & _ & Hw & _). cbn in Hw. lia.
  - apply IH; [|done]. intros q Hq. apply Hsub. by right.
Qed.

(** Inside the range, uncovered by the overlapping runs means uncovered. *)
Lemma uncovered_overlaps ps en m b :
  cov_ok m → ps ≤ b < en →
  uncovered (map (λ p, (p.1, e_end p.2)) (overlaps ps en m)) b ↔ ∀ p, p ∈ m → ¬ covers p b.
Proof.
  intros (Hok & Hall & Hu) Hb. unfold uncovered. rewrite Forall_map, Forall_forall. cbn. split.
  - intros H p Hp Hc. unfold covers in Hc. rewrite Forall_forall in Hall. apply (H p).
    + apply overlaps_elem; [by apply Forall_forall|]. split; [done|lia].
    + rewrite e_end_ok by (by apply Hall). done.
  - intros H p [Hp _]%overlaps_elem; [|done]. rewrite Forall_forall in Hall. rewrite e_end_ok by (by apply Hall). by apply H.
Qed.

(** ** Covered totals *)
Definition clip_total (c en : N) (l : list (N * N)) : N :=
  foldr (λ a t, (N.min a.2 en - N.max a.1 c) + t) 0 l.

Lemma clip_total_cursor c en e l :
  Forall (λ a : N * N, e ≤ a.1) l → clip_total c en l = clip_total (N.max c e) en l.
Proof.
  induction 1 as [|a l Ha _ IH]; [done|]. unfold clip_total in *. cbn. rewrite IH.
  by replace (N.max a.1 (N.max c e)) with (N.max a.1 c) by lia.
Qed.

(** The total reaches the length of the range exactly when every block of it
    is covered. *)
Lemma clip_total_spec en l c :
  ints_ok l →
  clip_total c en l ≤ en - c ∧ (en - c ≤ clip_total c en l ↔ ∀ b, c ≤ b < en → ¬ uncovered l b).
Proof.
  revert c. induction l as [|[s e] l IH]; intros c Hl.
  - unfold clip_total. cbn. split; [lia|]. split.
    + intros H b Hb. lia.
    + intros H. destruct (decide (c < en)) as [Hlt|]; [|lia]. destruct (H c); [lia|constructor].
  - apply ints_ok_cons in Hl as [[Hall [Hse He]] Hl]. cbn [fst snd] in *.
    assert (clip_total c en ((s, e) :: l) = (N.min e en - N.max s c) + clip_total (N.max c e) en l) as ->.
    { rewrite <- (clip_total_cursor c en e l Hall). done. }
    destruct (IH (N.max c e) Hl) as [Hle Hiff]. split; [lia|]. split.
    + intros Hge b Hb Hu. apply Forall_cons in Hu as [Hnb Hu]. cbn in Hnb.
      destruct (decide (b < e)) as [Hbe|Hbe]; [lia|]. assert (en - N.max c e ≤ clip_total (N.max c e) en l) as Hfull by lia.
      apply (proj1 Hiff Hfull b); [lia|done].
    + intros Hcov. destruct (decide (en ≤ c)) as [|Hc]; [lia|]. destruct (decide (c < s)) as [Hcs|Hcs].
      * destruct (Hcov c); [lia|]. constructor; [cbn; lia|]. apply (uncovered_before l c e Hall). lia.
      * assert (en - N.max c e ≤ clip_total (N.max c e) en l) as Hfull; [|lia].
        apply Hiff. intros b Hb Hu. apply (Hcov b); [lia|]. constructor; [cbn; lia|done].
Qed.

Lemma foldl_wadd {A} (f : A → N) (l : list A) acc :
  acc + foldr (λ x t, f x + t) 0 l < two64 →
  foldl (λ a x, wadd64 a (f x)) acc l = acc + foldr (λ x t, f x + t) 0 l.
Proof.
  revert acc. induction l as [|x l IH]; intros acc H; cbn in *; [lia|].
  rewrite wadd64_small by lia. rewrite IH; lia.
Qed.

(** The sum both [unpin_range] and [is_range_pinned] compare with [len]. *)
Lemma covered_sum ps en m :
  cov_ok m → ps < en → en < two64 →
  foldl (λ a p, wadd64 a (clip ps en p)) 0 (overlaps ps en m) =
    clip_total ps en (map (λ p, (p.1, e_end p.2)) (overlaps ps en m)) ∧
  foldl (covered_in ps en) 0 m = foldl (λ a p, wadd64 a (clip ps en p)) 0 (overlaps ps en m).
Proof.
  intros Hm Hpe Hen. assert (∀ l, clip_total ps en (map (λ p : run, (p.1, e_end p.2)) l) = foldr (λ x t, clip ps en x + t) 0 l) as Heq.
  { induction l as [|p l IH]; [done|]. unfold clip_total in *. cbn. by rewrite IH. }
  split.
  - destruct (clip_total_spec en _ ps (overlap_ints ps en m Hm)) as [Hle _].
    rewrite (foldl_wadd (clip ps en)); rewrite <- Heq; lia.
  - destruct Hm as (_ & Hall & _). generalize 0. induction Hall as [|p m Hp _ IH]; intros acc; [done|]. cbn [foldl].
    unfold overlaps. rewrite filter_cons. rewrite IH. unfold covered_in, clip. destruct p as [k v]. cbn [fst snd].
    pose proof (e_end_ok _ Hp) as He. cbn in He.
    destruct (N.leb_spec (e_end v) ps), (N.leb_spec en k); cbn [orb]; (case_decide as Hd;
      rewrite andb_true_iff, !N.ltb_lt in Hd); try lia; try done. cbn [foldl].
    rewrite wsub64_small; [done| |]; destruct Hp as (_ & Hl & Hw & _); cbn in *; lia.
Qed.

Lemma range_full ps len m :
  cov_ok m → 0 < len → ps + len < two64 →
  len ≤ foldl (λ a p, wadd64 a (clip ps (ps + len) p)) 0 (overlaps ps (ps + len) m) ↔
  ∀ b, ps ≤ b < ps + len → 0 < coverage m b.
Proof.
  intros Hm Hlen Hw. rewrite (proj1 (covered_sum ps (ps + len) m Hm ltac:(lia) Hw)).
  destruct (clip_total_spec (ps + len) _ ps (overlap_ints ps (ps + len) m Hm)) as [_ Hiff].
  replace (ps + len - ps) with len in Hiff by lia. rewrite Hiff.
  apply forall_proper. intros b. split; intros H Hb.
  - destruct (coverage_cases m b) as [(p & Hp & Hc)|Hno].
    + rewrite (coverage_of m p b Hm Hp Hc). destruct Hm as (_ & Hall & _). rewrite Forall_forall in Hall.
      destruct (Hall p Hp) as (_ & _ & _ & ?). lia.
    + destruct (H Hb). by apply uncovered_overlaps.
  - intros Hu. pose proof (proj1 (uncovered_overlaps ps (ps + len) m b Hm Hb) Hu) as Hno. specialize (H Hb). rewrite (coverage_none m b Hno) in H. lia.
Qed.

(** ** How many insertions a mutation makes *)
Lemma pieces_length ps en mid p : (length (pieces ps en mid p) ≤ 3)%nat.
Proof.
  destruct p as [start entry]. unfold pieces. rewrite !length_app.
  destruct (start <? ps), (_ <? _), (en <? _), mid; cbn; lia.
Qed.

Lemma all_pieces_length ps en (mid : run → option N) (l : list run) :
  (length (concat (map (λ p, pieces ps en (mid p) p) l)) ≤ 3 * length l)%nat.
Proof.
  induction l as [|p l IH]; [done|]. cbn [map concat length]. rewrite length_app. pose proof (pieces_length ps en (mid p) p). lia.
Qed.

Lemma gap_runs_length en l cursor : (length (gap_runs en cursor l) ≤ length l + 1)%nat.
Proof.
  revert cursor. induction l as [|[s e] l IH]; intros cursor; cbn [gap_runs length].
  - destruct (cursor <? en); cbn; lia.
  - rewrite length_app. specialize (IH (N.max cursor e)). destruct (cursor <? s), (en <=? _); cbn; lia.
Qed.

Lemma overlaps_length ps en m : (length (overlaps ps en m) ≤ length m)%nat.
Proof. apply length_filter. Qed.

(** ** The decremented count *)
Lemma dec_count_range p c : dec_count p = Some c → 1 ≤ c < two32.
Proof.
  unfold dec_count. case_match eqn:E; [|done]. intros [= <-]. apply N.ltb_lt in E.
  split; [lia|]. unfold wsub32. by apply N.mod_lt.
Qed.

Lemma dec_count_spec p : run_ok p → default 0 (dec_count p) = count p.2 - 1.
Proof.
  intros (_ & _ & _ & Hc). unfold dec_count. rewrite wsub32_small by lia.
  destruct (N.ltb_spec 0 (count p.2 - 1)); cbn; lia.
Qed.

(** ** Floors over block numbers *)
Lemma N_kleb (a b : N) : kleb a b = true ↔ a ≤ b.
Proof. rewrite kleb_true. unfold klt. cbn. rewrite N.compare_lt_iff. lia. Qed.

Lemma om_floor_none_elem b (m : list run) q : om_ok m → om_floor b m = None → q ∈ m → ¬ q.1 ≤ b.
Proof.
  intros Hok E Hq. destruct m as [|[k v] m]; [by apply not_elem_of_nil in Hq|]. cbn in E.
  destruct (kleb k b) eqn:Ek; [by destruct (om_floor b m)|]. intros Hle.
  assert (k ≤ q.1) as Hkq.
  { apply elem_of_cons in Hq as [->|Hq]; [done|]. apply om_ok_cons in Hok as [Hlt _]. rewrite Forall_forall in Hlt.
    specialize (Hlt q Hq). apply N.lt_le_incl, N.compare_lt_iff, Hlt. }
  rewrite (proj2 (N_kleb k b)) in Ek; [done|lia].
Qed.

(** ** The manager over any ordered-map store *)
Section manager_spec.
Context {S : Type} `{!MapStore S N CoverageEntry}.
Context (rep : nat → S → list run → Prop) (err : io_error → Prop) `{!MapStoreSpec S N CoverageEntry rep err}.

(** Removing the overlapping runs and inserting pieces and gaps gives [rebuilt]. *)
Lemma ends_rebuild n s m ps en mid gaps :
  rep (length (concat (map (λ p, pieces ps en (mid p) p) (overlaps ps en m))) + length gaps + n) s m →
  ends err
    (for_each (λ k, ms_remove k ;; mret ()) (map fst (overlaps ps en m)) ;;
     for_each (λ kv, ms_insert kv.1 kv.2) (concat (map (λ p, pieces ps en (mid p) p) (overlaps ps en m))) ;;
     for_each (λ kv, ms_insert kv.1 kv.2) gaps) s
    (λ _ s', rep n s' (rebuilt ps en m mid gaps)).
Proof.
  intros Hrep. apply ends_bind. eapply ends_mono; [by apply (ends_remove_all rep err)|]. cbn. intros _ s1 H1.
  apply ends_bind. eapply ends_mono; [apply (ends_insert_all rep err (length gaps + n)); by rewrite Nat.add_assoc|].
  cbn. intros _ s2 H2. eapply ends_mono; [by apply (ends_insert_all rep err n)|]. cbn. intros _ s3 H3.
  unfold rebuilt. by rewrite foldl_app.
Qed.

Lemma ends_iter {A} n s m (f : list run → RM S A) Q :
  rep n s m → ends err (f m) s Q → ends err (ms_iter ≫= f) s Q.
Proof. intros Hrep Hf. apply ends_bind. unfold ends at 1. by rewrite (ms_iter_spec n s m Hrep). Qed.

(** The gaps [pin_range] fills, as the rebuilt map wants them. *)
Lemma pin_gaps ps en m :
  cov_ok m → ps < en → en < two64 →
  let gaps := gap_runs en ps (sort_pairs (map (λ p, (p.1, e_end p.2)) (overlaps ps en m))) in
  (length gaps ≤ length m + 1)%nat ∧ Forall (λ g, run_ok g ∧ count g.2 = 1) gaps ∧
  (∀ b, (∃ g, g ∈ gaps ∧ covers g b) ↔ ps ≤ b < en ∧ ∀ p, p ∈ m → ¬ covers p b) ∧
  (∀ g g' b, g ∈ gaps → g' ∈ gaps → covers g b → covers g' b → g = g').
Proof.
  intros Hm Hpe Hen. cbv zeta. rewrite sort_pairs_id by (by apply overlap_ints).
  destruct (gap_runs_spec en _ ps (overlap_ints ps en m Hm) Hpe Hen) as (H1 & H2 & H3). split_and!; [|done| |done].
  - pose proof (gap_runs_length en (map (λ p, (p.1, e_end p.2)) (overlaps ps en m)) ps) as Hl.
    rewrite length_map in Hl. pose proof (overlaps_length ps en m). lia.
  - intros b. rewrite H2. split; intros [Hb Hu]; (split; [done|]); by apply (uncovered_overlaps ps en m b Hm Hb).
Qed.

(** [pin_range] adds one to the pin count of every block of the range and
    to no other block, and keeps the runs well formed and disjoint, whatever
    runs the range cuts, spans or leaves gaps between. It needs room for
    [4 * |m| + 1] insertions in the tree and counts below the 32-bit limit;
    the only errors are the tree's. *)
Theorem pin_range_spec n s m ps len :
  rep (4 * length m + 1 + n) s m → cov_ok m → ps + len < two64 → Forall (λ p, count p.2 + 1 < two32) m →
  ends err (pin_range ps len) s (λ _ s', ∃ m', rep n s' m' ∧ cov_ok m' ∧
    ∀ b, coverage m' b = coverage m b + (if decide (ps ≤ b < ps + len) then 1 else 0)).
Proof.
  intros Hrep Hm Hw Hcnt. unfold pin_range. destruct (N.eqb_spec len 0) as [->|Hlen].
  { unfold ends, mret, EM_ret. exists m. split_and!; [eapply rep_le; [done|lia]|done|].
    intros b. rewrite decide_False by lia. lia. }
  cbv zeta. rewrite (wadd64_small ps len Hw). eapply ends_iter; [done|].
  set (en := ps + len) in *. assert (ps < en) as Hpe by lia.
  destruct (pin_gaps ps en m Hm Hpe Hw) as (Hgl & Hgok & Hgcov & Hgu). set (gaps := gap_runs en ps _) in *.
  set (mid := λ p : run, Some (wadd32 (count p.2) 1)).
  assert (∀ p, p ∈ m → wadd32 (count p.2) 1 = count p.2 + 1) as Hinc.
  { intros p Hp. rewrite Forall_forall in Hcnt. specialize (Hcnt p Hp). by rewrite wadd32_small. }
  assert (∀ p c, p ∈ m → mid p = Some c → 1 ≤ c < two32) as Hmid.
  { intros p c Hp [= <-]. rewrite (Hinc p Hp). rewrite Forall_forall in Hcnt. specialize (Hcnt p Hp). lia. }
  eapply ends_mono; [apply (ends_rebuild n s m ps en mid gaps); eapply rep_le; [done|]|].
  { pose proof (all_pieces_length ps en mid (overlaps ps en m)). pose proof (overlaps_length ps en m). lia. }
  cbn. intros _ s' Hrep'. exists (rebuilt ps en m mid gaps).
  assert (Forall run_ok gaps) as Hgok1 by (eapply Forall_impl; [exact Hgok|]; by intros g [? _]).
  assert (∀ g b, g ∈ gaps → covers g b → ps ≤ b < en ∧ ∀ p, p ∈ m → ¬ covers p b) as Hgap by (intros g b Hg Hc; apply Hgcov; eauto).
  split_and!; [done|by apply rebuilt_ok|]. intros b.
  destruct (rebuilt_coverage ps en m mid gaps Hm Hpe Hw Hmid Hgok1 Hgap Hgu b) as (Hin & Hout & Hg & Hno).
  case_decide as Hb; [|rewrite (Hout Hb); lia].
  destruct (coverage_cases m b) as [(p & Hp & Hc)|Hnc].
  - rewrite (Hin p Hp Hc Hb), (coverage_of m p b Hm Hp Hc). cbn. by apply Hinc.
  - destruct (proj2 (Hgcov b) (conj Hb Hnc)) as (g & Hgin & Hgc). rewrite (Hg g Hgin Hgc), (coverage_none m b Hnc).
    rewrite Forall_forall in Hgok. by destruct (Hgok g Hgin) as [_ ->].
Qed.

(** C37: [unpin_range] is exact and all-or-nothing. When every block of the
    range is pinned it takes one from each of them and changes no other block;
    when some block is not, it returns [InvalidData] and the tree is the one
    it started from. *)
Theorem unpin_range_spec n s m ps len :
  rep (3 * length m + n) s m → cov_ok m → ps + len < two64 →
  ((∀ b, ps ≤ b < ps + len → 0 < coverage m b) →
   ends err (unpin_range ps len) s (λ _ s', ∃ m', rep n s' m' ∧ cov_ok m' ∧
     ∀ b, coverage m' b = coverage m b - (if decide (ps ≤ b < ps + len) then 1 else 0))) ∧
  ((∃ b, ps ≤ b < ps + len ∧ coverage m b = 0) → unpin_range ps len s = (inl InvalidData, s)).
Proof.
  intros Hrep Hm Hw. unfold unpin_range. destruct (N.eqb_spec len 0) as [->|Hlen].
  { split; [|intros (b & ? & _); lia]. intros _. exists m. split_and!; [eapply rep_le; [done|lia]|done|].
    intros b. rewrite decide_False by lia. lia. }
  cbv zeta. rewrite (wadd64_small ps len Hw). pose proof (range_full ps len m Hm ltac:(lia) Hw) as Hfull.
  set (en := ps + len) in *. assert (ps < en) as Hpe by lia. split.
  - intros Hcov. eapply ends_iter; [done|]. pose proof (proj2 Hfull Hcov) as Hge.
    rewrite (proj2 (N.ltb_ge _ _) Hge). destruct (overlaps ps en m) as [|o ov] eqn:Eo; [cbn in Hge; lia|]. cbn [orb].
    rewrite <- Eo. clear Eo Hge Hfull o ov.
    pose proof (λ p c (_ : p ∈ m), dec_count_range p c) as Hmid.
    pose proof (rebuilt_ok ps en m dec_count [] Hm Hpe Hw Hmid ltac:(by constructor)
      ltac:(by intros g b ?%not_elem_of_nil) ltac:(by intros g g' b ?%not_elem_of_nil)) as Hok.
    pose proof (rebuilt_coverage ps en m dec_count [] Hm Hpe Hw Hmid ltac:(by constructor)
      ltac:(by intros g b ?%not_elem_of_nil) ltac:(by intros g g' b ?%not_elem_of_nil)) as Hrc.
    apply ends_bind. eapply ends_mono; [by apply (ends_remove_all rep err)|]. cbn. intros _ s1 H1.
    eapply ends_mono; [apply (ends_insert_all rep err n); eapply rep_le; [done|]|].
    { pose proof (all_pieces_length ps en dec_count (overlaps ps en m)). pose proof (overlaps_length ps en m). lia. }
    cbn. intros _ s' Hrep'. exists (rebuilt ps en m dec_count []). unfold rebuilt at 1. rewrite app_nil_r.
    split_and!; [done|done|]. intros b. destruct (Hrc b) as (Hin & Hout & _). case_decide as Hb; [|rewrite (Hout Hb); lia].
    destruct (coverage_cases m b) as [(p & Hp & Hc)|Hnc].
    + rewrite (Hin p Hp Hc Hb), (coverage_of m p b Hm Hp Hc). by apply dec_count_spec, (m_run_ok m Hm).
    + specialize (Hcov b Hb). rewrite (coverage_none m b Hnc) in Hcov. lia.
  - intros (b & Hb & H0). unfold mbind, EM_bind. rewrite (ms_iter_spec _ s m Hrep).
    rewrite (proj2 (N.ltb_lt _ len)); [by rewrite orb_true_r|]. apply N.nle_gt. intros Hge.
    pose proof (proj1 Hfull Hge b Hb). lia.
Qed.

(** [is_range_pinned] answers whether every block of a non-empty range is
    pinned, and [coverage_at] is the pin count of the block whenever the
    floor the tree returns is the floor of the map. *)
Theorem range_reads_exact n s m ps len :
  rep n s m → cov_ok m → ps + len < two64 →
  (∃ r, is_range_pinned ps len s = (inr r, s) ∧
        (r = true ↔ 0 < len ∧ ∀ b, ps ≤ b < ps + len → 0 < coverage m b)) ∧
  (∀ b, ms_floor b s = (inr (om_floor b m), s) → coverage_at b s = (inr (coverage m b), s)).
Proof.
  intros Hrep Hm Hw. split.
  - unfold is_range_pinned. destruct (N.eqb_spec len 0) as [->|Hlen].
    { exists false. split; [done|]. split; [done|lia]. }
    unfold mbind, EM_bind. rewrite (ms_iter_spec _ s m Hrep). eexists. split; [done|].
    rewrite (wadd64_small ps len Hw), (proj2 (covered_sum ps (ps + len) m Hm ltac:(lia) Hw)), N.leb_le.
    rewrite (range_full ps len m Hm ltac:(lia) Hw). split; [split; [lia|done]|tauto].
  - intros b Hf. unfold coverage_at, mbind, EM_bind. rewrite Hf. pose proof Hm as (Hok & Hall & Hu).
    rewrite Forall_forall in Hall. destruct (om_floor b m) as [[k v]|] eqn:E.
    + destruct (om_floor_spec _ _ _ _ Hok E) as (Hin & Hle & Hmax). destruct (Hall _ Hin) as (Hps & Hl & Hwk & _).
      pose proof (e_end_ok _ (Hall _ Hin)) as He. cbn [fst snd] in *. rewrite Hps, N.eqb_refl, He. cbn [andb].
      assert (k ≤ b) as Hkb by by apply N_kleb.
      destruct (N.ltb_spec b (k + cov_length v)) as [Hlt|Hge].
      { by rewrite (coverage_of m (k, v) b Hm Hin ltac:(by split)). }
      rewrite coverage_none; [done|]. intros q Hq Hc. unfold covers in Hc. specialize (Hmax q Hq).
      assert (q.1 ≤ k) as Hqk by (apply N_kleb, Hmax, N_kleb; lia).
      assert (q = (k, v)) as ->; [|cbn in Hc; lia]. apply (Hu _ _ k Hq Hin); [|by apply key_covered, Hall]. unfold covers. lia.
    + rewrite coverage_none; [done|]. intros q Hq Hc. unfold covers in Hc.
      apply (om_floor_none_elem b m q Hok E Hq). lia.
Qed.
End manager_spec.

(** ** Concrete runs over the B+ tree *)
#[local] Instance tiny_runs : PodSizes N CoverageEntry := {| kv_size := 1000; kptr_size := 1300 |}.

#[local] Instance tiny_runs_ok : SizesOk N CoverageEntry.
Proof. split; by vm_compute; repeat constructor. Qed.

#[local] Instance cov_store : MapStore (St N (MemStore N CoverageEntry)) N CoverageEntry := btree_MapStore mem_alloc 40.

Definition cov_empty : St N (MemStore N CoverageEntry) :=
  (init_empty 10 7 (mkSt (mkMem ∅ ∅ 0 11) 0 0 (btree_new 10 7))).2.

(** Blocks 5, 6 and 7 pinned once. *)
Definition cov_one : St N (MemStore N CoverageEntry) := (pin_range 5 3 cov_empty).2.

#[local] Abbreviation cov_rep := (btree_rep mem_in_use 40).
#[local] Abbreviation cov_err := (λ e, ∃ σ σ' : MemStore N CoverageEntry, mem_alloc σ = (inl e, σ')).

Lemma leaf_rep n (s : St N (MemStore N CoverageEntry)) m :
  real (view s) (SLeaf 10 m) → shape_wf None None (SLeaf 10 m) → mem_in_use (store s) 10 → root_of s = 10 →
  fast_leaf (self s) = None → range_leaf (self s) = None → (n < 39)%nat → cov_rep n s m.
Proof.
  intros Hr Hwf Hu Hroot Hf Hg Hn. exists (SLeaf 10 m). split_and!; [|done|cbn; lia|cbn; lia]. split_and!.
  - split_and!; [done|done|done|apply NoDup_singleton|by constructor|by constructor].
  - done.
  - split; by rewrite ?Hf, ?Hg.
Qed.

Lemma cov_one_rep n : (n < 39)%nat → cov_rep n (on_self (λ t, btree_new 10 7) cov_one) [(5, mkCov 5 3 1)].
Proof.
  apply leaf_rep; [by vm_compute| |by vm_compute|done|done|done].
  split_and!; [by repeat constructor|by repeat constructor|by vm_compute; repeat constructor].
Qed.

Lemma cov_one_ok : cov_ok [(5, mkCov 5 3 1)].
Proof.
  split_and!.
  - by repeat constructor.
  - constructor; [|constructor]. by vm_compute.
  - by intros p q b ->%list_elem_of_singleton ->%list_elem_of_singleton.
Qed.

Lemma pin_range_spec_witness :
  ends cov_err (pin_range 6 4) (on_self (λ t, btree_new 10 7) cov_one) (λ _ s', ∃ m', cov_rep 20 s' m' ∧ coverage m' 7 = 2).
Proof.
  eapply ends_mono; [apply (pin_range_spec cov_rep cov_err 20 _ [(5, mkCov 5 3 1)] 6 4)|].
  - apply cov_one_rep. cbn. lia.
  - exact cov_one_ok.
  - done.
  - by repeat constructor.
  - cbn. intros _ s' (m' & Hrep & _ & Hc). exists m'. split; [done|]. by rewrite Hc.
Defined.

Lemma unpin_range_spec_witness :
  ends cov_err (unpin_range 6 2) (on_self (λ t, btree_new 10 7) cov_one) (λ _ s', ∃ m', cov_rep 20 s' m' ∧ coverage m' 7 = 0) ∧
  (unpin_range 7 2 (on_self (λ t, btree_new 10 7) cov_one)).1 = inl InvalidData.
Proof.
  split.
  - eapply ends_mono; [apply (unpin_range_spec cov_rep cov_err 20 _ [(5, mkCov 5 3 1)] 6 2)|].
    + apply cov_one_rep. cbn. lia.
    + exact cov_one_ok.
    + done.
    + intros b Hb. rewrite (coverage_of _ (5, mkCov 5 3 1) b cov_one_ok); [done|by left|unfold covers; cbn; lia].
    + cbn. intros _ s' (m' & Hrep & _ & Hc). exists m'. split; [done|]. by rewrite Hc.
  - rewrite (proj2 (unpin_range_spec cov_rep cov_err 20 _ [(5, mkCov 5 3 1)] 7 2 ltac:(apply cov_one_rep; cbn; lia) cov_one_ok ltac:(done)));
      [done|]. by exists 8.
Defined.

Lemma range_reads_exact_witness :
  is_range_pinned 5 3 (on_self (λ t, btree_new 10 7) cov_one) = (inr true, on_self (λ t, btree_new 10 7) cov_one) ∧
  coverage_at 6 (on_self (λ t, btree_new 10 7) cov_one) = (inr 1, on_self (λ t, btree_new 10 7) cov_one).
Proof.
  destruct (range_reads_exact cov_rep cov_err 20 _ [(5, mkCov 5 3 1)] 5 3 (cov_one_rep 20 ltac:(lia)) cov_one_ok eq_refl)
    as [(r & -> & Hr) Hc].
  split.
  - rewrite (proj2 Hr); [done|]. split; [done|]. intros b Hb.
    rewrite (coverage_of _ (5, mkCov 5 3 1) b cov_one_ok); [done|by left|unfold covers; cbn; lia].
  - rewrite Hc by by vm_compute. done.
Defined.

(** A pinned block can read as unpinned. Blocks 10, 20, 30 and 40 are
    pinned, 20 is unpinned, and [15, 25) is pinned: block 22 is pinned (the
    range reports it), but [coverage_at] looks for its run in the leaf to the
    right of the separator 20, finds nothing there, and answers 0. *)
Theorem coverage_misses_pin :
  let s := (pin_range 10 1 ;; pin_range 20 1 ;; pin_range 30 1 ;; pin_range 40 1 ;; unpin_range 20 1 ;; pin_range 15 10) cov_empty in
  s.1 = inr () ∧ (is_range_pinned 15 10 s.2).1 = inr true ∧ (coverage_at 22 s.2).1 = inr 0 ∧ (is_pinned 22 s.2).1 = inr false.
Proof. by vm_compute. Qed.
